(* ===== verification/_CoqProject ===== *)
-Q . S2P
Prelude.v
Rng.v
Quorum.v
Membership.v
Types.v
Node.v
MembershipProtocol.v
SnapshotTransfer.v
Replication.v
Election.v
Step.v
LogFacts.v
MembershipFacts.v
History.v
Effects.v
Invariant.v
CommitPath.v
SendPath.v
LeaderPath.v
ElectionPath.v
FollowerPath.v
SnapshotPath.v
StepSafe.v
SnapshotFlow.v
Recovery.v
SimInvariants.v
Sim.v
SimSafe.v
Guarantees.v
ReplicationRules.v
Store.v
Bloom.v
Codec.v
Merge.v
Table.v
TableFacts.v
Disk.v
Lsm.v
LsmView.v
LsmSafe.v
LsmRefine.v
ShardTypes.v
Topology.v
Controller.v
ControllerInv.v
ControllerSafe.v
ControllerGuarantees.v
ControllerTheorems.v
ShardData.v
ShardDataInv.v
ShardSteps.v
ShardGuarantees.v
ShardMachine.v
Service.v
Handoff.v
HandoffEvidence.v
HandoffSlots.v
HandoffData.v
HandoffController.v
HandoffTheorems.v
HandoffMarks.v
Coordinator.v
HandoffProgress.v
Application.v
ApplicationFacts.v
ApplicationSafe.v
ApplicationLog.v
SnapshotImage.v
AppliedStore.v
AppliedFacts.v
AppliedGroup.v
Storage.v
StorageFacts.v
StorageRecovery.v
StorageAppend.v
StorageSafe.v
StoreWitnesses.v
ShardWitnesses.v
Witnesses.v
KvWitnesses.v
