(* ===== verification/Prelude.v ===== *)
(** * micro-raft: a verification development

    micro-raft is a Raft implementation in Rust.  [crates/raft-core] is the
    deterministic consensus core: a node is fed one input at a time and answers
    with a list of effects (persist, send, apply, snapshot work).  [crates/sim]
    drives such nodes against virtual disks and checks invariants after every
    step.  [crates/kv-node] is the node process: the replicated application, its
    snapshots, the files of the consensus state, and a driver that executes the
    effects.  [crates/state-store] is the log-structured engine that may hold the
    applied state.  [crates/shard-service] moves shards between several such
    groups under a replicated controller.  This library models the deterministic
    parts of all five and proves what makes them correct; every definition
    follows the source it names.

    ** How the code is modelled

    Machine integers are [N], with the operations that can leave 64 bits written
    out ([checked_add], [saturating_add], [wrapping_mul64], ...).  A method of a
    node that pushes effects is a computation in the monad [M] of this file:
    state in, optional result, state and effects out, where [None] is a panic (a
    failed [expect] or [assert!], an index out of range, an overflow).  [wp] is
    its weakest precondition, which excludes panics.  [Result<_, String>] is
    [Result]; a fallible function that may also panic gives an [Outcome];
    [io::Result] is [Store.Io], and an operation on files is a computation in
    [Disk.St], which keeps what it changed when it fails; [post] is its
    specification.  Maps and sets are stdpp's [gmap] and [gset], iterated in key
    order.  [r <| f := v |>] is a record update.  SHA-256 and serde's JSON are
    classes of functions ([Sha256], [Formats], [TypeFormats], [PayloadFormat],
    [CellFormats], [StorageFormats], ...), with their laws in classes of their
    own, and the engine under the application is the class [StateStore].

    ** Consensus core ([raft-core/src])

    - [Rng] (rng.rs): the PCG32 generator of election timeouts.
    - [Quorum], [Membership] (membership.rs): voter configurations, quorums,
      administrative operations, the replay and validation of configuration
      histories.  [MembershipFacts] and [History] prove them right:
      [quorum_intersection], [replicated_index_correct] (the sorted median is
      the quorum threshold), [reconfiguration_safe] (voters, learners and retired
      identities stay disjoint, one change at a time, quorums of consecutive
      configurations intersect), [cm_validate_iff_history] (validation accepts
      exactly the reachable histories).
    - [Types], [Node] (types.rs, message.rs, lib.rs): messages, inputs, effects,
      the node record and its log.
    - [MembershipProtocol] (membership_protocol.rs), [SnapshotTransfer]
      (snapshot.rs), [Replication] (replication.rs), [Election] (election.rs and
      read.rs), [Step] (lib.rs): every handler, composed by [step].
    - [LogFacts], [Effects], [Invariant]: facts on logs, what effects do to a
      disk, and the invariant of a node.  [CommitPath], [SendPath], [LeaderPath],
      [ElectionPath], [FollowerPath], [SnapshotPath] prove every handler against
      it, and [StepSafe] reads and the whole step.
    - [Guarantees]: [step_total_and_invariant] (no admissible input panics, the
      invariant is kept), [persist_before_observe], [step_keeps_promises],
      [step_applies_in_order], and [execution_keeps_promises] over executions;
      then what single handlers promise about votes, leadership, reads and group
      envelopes.  [ReplicationRules]: append requests, commitment and conflict
      hints ([append_walks_agree]).  [Recovery]: restoring from disk
      ([restart_roundtrip]).

    ** Simulator ([sim/src])

    - [SnapshotFlow]: what the core promises about snapshot effects.
    - [SimInvariants] (invariants.rs, membership.rs): the checkers, and that they
      check what they should.
    - [Sim] (lib.rs, snapshot.rs): the driver of one node: executing effects on a
      virtual disk with nested snapshot callbacks, crash, restart, compaction.
      [SimSafe]: none of its assertions can fail ([sim_step_never_panics],
      [crash_restart_never_panics]).  Callbacks nest at most [CALLBACK_DEPTH] = 3
      deep: reading a chunk, staging it and publishing the image each cause at
      most one further callback.

    ** Storage engine ([state-store/src])

    - [Store] (lib.rs): errors, byte keys and their order, mutations, records,
      validation of batches.  [Codec] (codec.rs): records, batches and
      checksummed frames.  [Bloom] (bloom.rs).  [Merge] (merge.rs): the k-way
      merge of sorted runs; its loops have the number of rows still to come as
      fuel, which every iteration lowers.
    - [Table] (table.rs): table files.  [TableFacts]: [table_roundtrip].  Writing
      blocks has the number of rows as fuel, binary search the length.
    - [Disk] (durable.rs): the directory as a map from names to contents.
    - [Lsm] (lsm.rs): the store.  [LsmView]: the newest versions among rows, the
      log and what it leaves in the memtable.  [LsmSafe]: every operation against
      the relation between a store, its directory and a map.  [LsmRefine]:
      [lsm_refines] (the store is a map with an applied index),
      [lsm_failures_atomic] (an error at any fault point leaves a directory that
      opens to the map before or after the operation, and a handle that refuses
      everything), [lsm_recovers] (a torn append), [reachable_store_reopens],
      and [compaction_terminates].

    ** Shard service ([shard-service/src])

    - [ShardTypes] (types.rs): origins, transfers, the proofs of a hand-over, the
      bounded JSON writer.  [Topology] (topology.rs).
    - [Controller] (controller.rs): the routes and transfers.  [ControllerInv],
      [ControllerSafe], [ControllerGuarantees], [ControllerTheorems]: its states
      are valid, its commands do not panic, retries are answered alike
      ([controller_reachable_valid], [controller_retry_idempotent]), and the
      history of one shard.
    - [ShardData] (data.rs): sessions, writes, and the commands of a hand-over at
      its source and destination.  [ShardDataInv], [ShardSteps],
      [ShardGuarantees]: [data_reachable_valid].
    - [ShardMachine] (machine.rs, query.rs): the machine of one group.
      [Service] (service.rs): what the coordinator prepares from checked reads.
    - [Handoff]: the system of all groups; commands reach a machine late, twice
      or never.  [HandoffEvidence], [HandoffSlots], [HandoffData],
      [HandoffController] relate what machines hold to what was recorded, and
      [HandoffTheorems] concludes: one server for a shard
      ([handoff_single_server]), exactly-once answers across moves
      ([handoff_exactly_once]), current reads ([handoff_reads_current]), and the
      refinement of a shard that never moves ([handoff_refines_shard]).
    - [HandoffMarks], [Coordinator], [HandoffProgress]: every step the coordinator
      chooses makes progress, and [handoff_settles]: reconciling ends within
      [settle_fuel] = [MAX_TRANSFER_BYTES] + 12 rounds, one for each byte of an
      image at most and one for each other step.

    ** Node process ([kv-node/src])

    - [Application] (application.rs): client sessions, the key-value state, the
      provisional transaction, snapshots.  [ApplicationFacts], [ApplicationSafe],
      [ApplicationLog]: every reachable state is valid and within capacity and
      the next entry never panics ([app_entries_total]), acknowledged mutations
      take effect exactly once ([session_exactly_once]), dropping a transaction
      restores its start ([app_rollback_exact]), import accepts exactly the
      well-formed snapshots ([app_import_exact]).
    - [SnapshotImage] (snapshot.rs): the framed image and the receiver of a
      transfer with every failing file operation ([image_roundtrip],
      [receiver_sound], with or without an installed image, which is assumed to
      decode; [transfer_completes]: 1024 segments of 64 KiB cover the largest
      image).
    - [AppliedStore] (applied_store.rs, kv.rs): the application over an engine.
      [AppliedFacts], [AppliedGroup]: a committed range takes effect as a whole
      or the handle is poisoned, and a single entry that fits is answered as the
      engine answers its commit ([apply_group_atomic]); opening adopts nothing
      the log does not reproduce ([open_adopts_replay]), [cells_roundtrip].
    - [Storage] (storage.rs, durability.rs, crc.rs): the hard state, the log and
      the generations selected by [CURRENT], over a directory each of whose
      system calls may fail, after a part of its effect, and whose device may
      lose what was not synchronised.  Reading a log has one more turn than it
      has bytes as fuel; every turn consumes one.
    - [StorageFacts]: [crc32_correct], what a power loss leaves ([survives]), the
      rules of the system calls.  A failing call ends its operation, so that the
      directories in which a call failed are all those a power loss can find
      within an operation.  [StorageRecovery]: the state a directory holds and
      that opening finds it; [StorageAppend]: truncating and appending;
      [StorageSafe]: [storage_crash_safe] for every operation,
      [storage_progress], [storage_refines_history] for every history of failures
      and power losses; and [oversized_selection_bricks]: a publication whose
      selection exceeds the 8192 bytes under which it is read back succeeds, and
      the directory does not open again.  What the store leaves to its caller
      ([allowed]: hard states are valid and terms do not go back, entries continue
      the log, a published image decodes) is a hypothesis of the theorems.  That a
      selection fits those 8192 bytes ([selection_fits]), which no code checks, is
      a hypothesis of [storage_refines_history]; without it [storage_crash_safe]
      concludes that the directory may never open again.

    [Witnesses], [StoreWitnesses], [ShardWitnesses] and [KvWitnesses] instantiate
    the theorems on concrete nodes, stores, groups and clients.

    ** What is not modelled

    - A cluster of nodes with a network in between: the theorems of the core are
      about one node and its disk; agreement between nodes is not proved, and the
      simulator's scheduler, network and fault injection are left out.
    - In the storage engine, calls of the operating system fail only at its fault
      points and are durable in order; in [Storage] a file keeps a prefix of its
      unsynchronised bytes, never other bytes.  The creation of missing
      directories and the advisory locks are left out.
    - The test-only fault modes of the core; the redb backend, a thin layer over
      a third-party database, and the benchmark worker of the storage engine.
    - Shard service: the snapshot format of a machine, the actor and its runtime,
      the routing of connections, network and processes.
    - Node process: the driver's threads, transport, HTTP, configuration,
      bootstrap, shutdown and command line: asynchronous network and process
      code.  The order in which the driver must execute effects is what [Sim]
      states.
    - Tests, scripts and deployment files. *)

From stdpp Require Export base numbers list gmap strings sorting option.

(** Automation of the common cases of every component. *)
Create HintDb raft discriminated.

Declare Scope raft_scope.
Delimit Scope raft_scope with raft.
Local Open Scope N_scope.

(** ** Machine integers

    [u8], [u64] and [usize] values are [N]; the operations of the source that
    can leave the range of a [u64] are written out.  [usize] is taken to be 64
    bits wide, as on every target of the project. *)

Definition u64_max : N := 18446744073709551615.
Definition u32_max : N := 4294967295.
Definition two64 : N := 18446744073709551616.
Definition two32 : N := 4294967296.

Definition checked_add (a b : N) : option N :=
  if a + b <=? u64_max then Some (a + b) else None.
Definition checked_sub (a b : N) : option N :=
  if b <=? a then Some (a - b) else None.
Definition saturating_add (a b : N) : N := N.min (a + b) u64_max.
Definition saturating_sub (a b : N) : N := a - b.
Definition wrapping_add64 (a b : N) : N := (a + b) mod two64.
Definition wrapping_mul64 (a b : N) : N := (a * b) mod two64.

(** [Vec::len] as a [u64]. *)
Definition len64 {A} (l : list A) : N := N.of_nat (length l).

Lemma u64_max_two64 : u64_max + 1 = two64.
Proof. reflexivity. Qed.
Lemma u64_max_big : 1000 < u64_max.
Proof. reflexivity. Qed.

#[global] Opaque u64_max.

Lemma checked_add_Some a b c :
  checked_add a b = Some c <-> c = a + b /\ a + b <= u64_max.
Proof. unfold checked_add. destruct (N.leb_spec (a + b) u64_max); naive_solver lia. Qed.
Lemma checked_add_None a b : checked_add a b = None <-> u64_max < a + b.
Proof. unfold checked_add. destruct (N.leb_spec (a + b) u64_max); naive_solver lia. Qed.
Lemma checked_sub_Some a b c :
  checked_sub a b = Some c <-> c = a - b /\ b <= a.
Proof. unfold checked_sub. destruct (N.leb_spec b a); naive_solver lia. Qed.
Lemma saturating_add_le a b : saturating_add a b <= u64_max.
Proof. unfold saturating_add. lia. Qed.
Lemma saturating_add_ge a b : a <= u64_max -> a <= saturating_add a b.
Proof. unfold saturating_add. lia. Qed.
Lemma saturating_add_le_add a b : saturating_add a b <= a + b.
Proof. unfold saturating_add. lia. Qed.

(** ** Errors

    [Result<T, String>] of the source. *)

Inductive Result (A : Type) : Type :=
| Ok (a : A)
| Err (e : string).
Arguments Ok {_} a.
Arguments Err {_} e.

#[export] Instance Result_eq_dec `{EqDecision A} : EqDecision (Result A).
Proof. solve_decision. Defined.
#[export] Instance Result_ret : MRet Result := fun A a => Ok a.
#[export] Instance Result_bind : MBind Result := fun A B f m =>
  match m with Ok a => f a | Err e => Err e end.

Definition is_ok {A} (r : Result A) : bool := match r with Ok _ => true | Err _ => false end.
Definition is_err {A} (r : Result A) : bool := negb (is_ok r).

Lemma Result_bind_Ok {A B} (f : A -> Result B) (m : Result A) b :
  m ≫= f = Ok b <-> exists a, m = Ok a /\ f a = Ok b.
Proof. destruct m; cbn; naive_solver. Qed.

(** ** Option tests of the source *)

Definition is_some {A} (o : option A) : bool := match o with Some _ => true | None => false end.
Definition is_none {A} (o : option A) : bool := negb (is_some o).
(** [Option::is_some_and] *)
Definition is_some_and {A} (o : option A) (f : A -> bool) : bool :=
  match o with Some a => f a | None => false end.
(** [Option::map_or] *)
Definition map_or {A B} (o : option A) (d : B) (f : A -> B) : B :=
  match o with Some a => f a | None => d end.
(** [Option::filter] *)
Definition option_filter {A} (f : A -> bool) (o : option A) : option A :=
  match o with Some a => if f a then Some a else None | None => None end.

(** Boolean equality from decidable equality, the source's [==]. *)
Definition eqb {A} `{EqDecision A} (x y : A) : bool := bool_decide (x = y).
Infix "==?" := eqb (at level 70, no associativity) : raft_scope.

Lemma eqb_true {A} `{EqDecision A} (x y : A) : eqb x y = true <-> x = y.
Proof. unfold eqb. apply bool_decide_eq_true. Qed.
Lemma eqb_false {A} `{EqDecision A} (x y : A) : eqb x y = false <-> x <> y.
Proof. unfold eqb. apply bool_decide_eq_false. Qed.
Lemma eqb_true_1 {A} `{EqDecision A} (x y : A) : eqb x y = true -> x = y.
Proof. apply eqb_true. Qed.
Lemma eqb_false_1 {A} `{EqDecision A} (x y : A) : eqb x y = false -> x <> y.
Proof. apply eqb_false. Qed.
Lemma eqb_refl {A} `{EqDecision A} (x : A) : eqb x x = true.
Proof. by apply eqb_true. Qed.

(** [slice.contains] *)
Definition contains {A} `{EqDecision A} (x : A) (l : list A) : bool :=
  existsb (eqb x) l.
Lemma contains_true {A} `{EqDecision A} (x : A) l : contains x l = true <-> x ∈ l.
Proof.
  unfold contains. rewrite existsb_exists. setoid_rewrite eqb_true.
  setoid_rewrite <- list_elem_of_In. naive_solver.
Qed.
Lemma contains_false {A} `{EqDecision A} (x : A) l : contains x l = false <-> x ∉ l.
Proof. rewrite <- contains_true. destruct (contains x l); naive_solver. Qed.

(** [slice.get(i)] *)
Definition get_at {A} (l : list A) (i : N) : option A :=
  if i <? len64 l then l !! N.to_nat i else None.
Lemma get_at_lookup {A} (l : list A) i : get_at l i = l !! N.to_nat i.
Proof.
  unfold get_at, len64. destruct (N.ltb_spec i (N.of_nat (length l))); [done|].
  symmetry. apply lookup_ge_None. lia.
Qed.

(** [Vec::truncate(i)] *)
Definition truncate {A} (i : N) (l : list A) : list A :=
  if i <? len64 l then take (N.to_nat i) l else l.
Lemma truncate_take {A} i (l : list A) : truncate i l = take (N.to_nat i) l.
Proof.
  unfold truncate, len64. destruct (N.ltb_spec i (N.of_nat (length l))); [done|].
  rewrite take_ge; [done|lia].
Qed.

(** [slice::partition_point]: on a slice partitioned by [p], the number of
    leading elements that satisfy it. *)
Fixpoint partition_point {A} (p : A -> bool) (l : list A) : nat :=
  match l with
  | [] => O
  | x :: l => if p x then S (partition_point p l) else O
  end.

(** [windows(2).any(|pair| pair[0] >= pair[1])] is the failure of this check. *)
Fixpoint strictly_increasing (l : list N) : bool :=
  match l with
  | a :: ((b :: _) as t) => (a <? b) && strictly_increasing t
  | _ => true
  end.

Lemma strictly_increasing_Sorted l : strictly_increasing l = true <-> Sorted N.lt l.
Proof.
  induction l as [|a [|b l] IH]; cbn.
  - split; auto.
  - split; auto.
  - rewrite andb_true_iff, N.ltb_lt. cbn in IH. rewrite IH. split.
    + intros [??]. constructor; [done|]. by constructor.
    + inversion 1 as [|?? HS HR]; subst. inversion HR; subst. auto.
Qed.

#[export] Instance N_lt_trans : Transitive N.lt := N.lt_trans.

Lemma strictly_increasing_NoDup l : strictly_increasing l = true -> NoDup l.
Proof.
  rewrite strictly_increasing_Sorted. intros HS.
  apply Sorted_StronglySorted in HS; [|apply _].
  induction HS as [|a l HS IH HF]; constructor; [|done].
  intros Hin. rewrite list.Forall_forall in HF. apply HF in Hin. lia.
Qed.

Lemma list_filter_all {A} (P : A -> Prop) `{!forall x, Decision (P x)} (l : list A) :
  (forall x, x ∈ l -> P x) -> filter P l = l.
Proof.
  induction l as [|x l IH]; intros HP; [done|].
  rewrite filter_cons_True by (apply HP; left). f_equal. apply IH. intros; apply HP. by right.
Qed.

Lemma list_filter_none {A} (P : A -> Prop) `{!forall x, Decision (P x)} (l : list A) :
  (forall x, x ∈ l -> ~ P x) -> filter P l = [].
Proof.
  induction l as [|x l IH]; intros Hl; [done|]. rewrite filter_cons_False by (apply Hl; by left).
  apply IH. intros y Hy. apply Hl. by right.
Qed.

(** ** Ordered maps and sets

    [BTreeMap] and [BTreeSet] are [gmap] and [gset] (extensional equality is
    the derived [PartialEq]); iteration is in increasing key order. *)

(** Order on the key of an entry. *)
Definition on_fst {K V} (R : relation K) : relation (K * V) := fun a b => R a.1 b.1.
#[export] Instance on_fst_dec {K V} (R : relation K) `{!RelDecision R} :
  RelDecision (@on_fst K V R).
Proof. intros a b. unfold on_fst. apply _. Defined.

Section btree.
Context {K : Type} `{Countable K} (R : relation K) `{!RelDecision R}.

Definition btree_iter {V} (m : gmap K V) : list (K * V) :=
  merge_sort (on_fst R) (map_to_list m).

Definition btree_keys (s : gset K) : list K := merge_sort R (elements s).

Lemma elem_of_btree_iter {V} (m : gmap K V) k v :
  (k, v) ∈ btree_iter m <-> m !! k = Some v.
Proof.
  unfold btree_iter. rewrite <- elem_of_map_to_list. by rewrite merge_sort_Permutation.
Qed.

Lemma elem_of_btree_keys (s : gset K) k : k ∈ btree_keys s <-> k ∈ s.
Proof.
  unfold btree_keys. rewrite <- elem_of_elements. by rewrite merge_sort_Permutation.
Qed.

Lemma btree_keys_NoDup (s : gset K) : NoDup (btree_keys s).
Proof. unfold btree_keys. rewrite merge_sort_Permutation. apply NoDup_elements. Qed.

Lemma btree_keys_length (s : gset K) : length (btree_keys s) = size s.
Proof. unfold btree_keys. by rewrite merge_sort_Permutation. Qed.

Context `{!Total R}.
Lemma btree_keys_Sorted (s : gset K) : Sorted R (btree_keys s).
Proof. apply Sorted_merge_sort; apply _. Qed.
End btree.

#[export] Instance N_le_total : Total N.le := N.le_ge_cases.
Abbreviation nmap_iter := (btree_iter N.le).
Abbreviation nset_list := (btree_keys N.le).

Lemma nset_list_increasing (s : gset N) : strictly_increasing (nset_list s) = true.
Proof.
  rewrite strictly_increasing_Sorted.
  pose proof (btree_keys_NoDup N.le s) as HN. pose proof (btree_keys_Sorted N.le s) as HS.
  induction HS as [|a l HS IH HR]; [constructor|].
  apply list.NoDup_cons in HN as [Hna HN]. constructor; [auto|].
  inversion HR as [|b l' Hab]; subst; constructor.
  enough (a <> b) by lia. intros ->. apply Hna. by left.
Qed.

(** [String] keys are ordered bytewise. *)
Definition str_le (s t : string) : Prop := String.leb s t = true.
#[export] Instance str_le_dec : RelDecision str_le.
Proof. intros s t. unfold str_le. apply _. Defined.
Abbreviation smap_iter := (btree_iter str_le).

(** ** The effect monad

    A method [fn f(&mut self, .., effects: &mut Vec<Effect>)] that only pushes
    to [effects] is a function from the state to an optional result, the next
    state and the pushed effects.  [None] is a panic: a failed [expect],
    [assert!], [unreachable!], out-of-range index, or an arithmetic overflow
    (checked as in a debug build, so that the absence of a panic also shows
    that a release build never wraps). *)

Definition M (S E A : Type) : Type := S -> option (A * S * list E).

Section monad.
Context {S E : Type}.

#[global] Instance M_ret : MRet (M S E) := fun A a s => Some (a, s, []).
#[global] Instance M_bind : MBind (M S E) := fun A B f m s =>
  match m s with
  | Some (a, s1, e1) =>
      match f a s1 with
      | Some (b, s2, e2) => Some (b, s2, e1 ++ e2)
      | None => None
      end
  | None => None
  end.

Definition get : M S E S := fun s => Some (s, s, []).
Definition gets {A} (f : S -> A) : M S E A := fun s => Some (f s, s, []).
Definition modify (f : S -> S) : M S E unit := fun s => Some (tt, f s, []).
Definition emit (e : E) : M S E unit := fun s => Some (tt, s, [e]).
Definition emits (es : list E) : M S E unit := fun s => Some (tt, s, es).
Definition panic {A} : M S E A := fun _ => None.
(** [Option::expect] *)
Definition expect {A} (o : option A) : M S E A :=
  match o with Some a => mret a | None => panic end.
(** [Result::expect] *)
Definition expect_ok {A} (r : Result A) : M S E A :=
  match r with Ok a => mret a | Err _ => panic end.
Definition massert (b : bool) : M S E unit := if b then mret tt else panic.
Definition when (b : bool) (m : M S E unit) : M S E unit := if b then m else mret tt.
(** [let mut v = Vec::new(); m(&mut v)]: run [m] with its own effect vector. *)
Definition collect {A} (m : M S E A) : M S E (A * list E) := fun s =>
  match m s with Some (a, s', e) => Some ((a, e), s', []) | None => None end.
(** [a - b], [a + b] on [u64]. *)
Definition sub_u64 (a b : N) : M S E N := expect (checked_sub a b).
Definition add_u64 (a b : N) : M S E N := expect (checked_add a b).

Fixpoint for_each {A} (f : A -> M S E unit) (l : list A) : M S E unit :=
  match l with
  | [] => mret tt
  | x :: l => f x;; for_each f l
  end.

(** A loop with an accumulator. *)
Fixpoint fold_each {A B} (f : B -> A -> M S E B) (b : B) (l : list A) : M S E B :=
  match l with
  | [] => mret b
  | x :: l => b' ← f b x; fold_each f b' l
  end.

(** *** Weakest preconditions

    [wpg p m Q s]: if [m] returns from [s] then [Q] holds of what it returns,
    and if it panics then [p].  [wp] excludes panics, [wlp] allows them. *)

Definition wpg {A} (p : Prop) (m : M S E A) (Q : A -> S -> list E -> Prop) (s : S) : Prop :=
  match m s with Some (a, s', e) => Q a s' e | None => p end.

Implicit Types p : Prop.

Lemma wpg_ret {A} p (a : A) Q s : Q a s [] -> wpg p (mret a) Q s.
Proof. done. Qed.
Lemma wpg_bind {A B} p (m : M S E A) (f : A -> M S E B) Q s :
  wpg p m (fun a s1 e1 => wpg p (f a) (fun b s2 e2 => Q b s2 (e1 ++ e2)) s1) s ->
  wpg p (m ≫= f) Q s.
Proof.
  unfold wpg, mbind, M_bind. destruct (m s) as [[[a s1] e1]|]; [|done].
  by destruct (f a s1) as [[[b s2] e2]|].
Qed.
Lemma wpg_mono {A} p (m : M S E A) (Q Q' : A -> S -> list E -> Prop) s :
  wpg p m Q s -> (forall a s' e, Q a s' e -> Q' a s' e) -> wpg p m Q' s.
Proof. unfold wpg. destruct (m s) as [[[a s1] e1]|]; auto. Qed.
Lemma wpg_and {A} p (m : M S E A) Q Q' s :
  wpg p m Q s -> wpg p m Q' s -> wpg p m (fun a s' e => Q a s' e /\ Q' a s' e) s.
Proof. unfold wpg. destruct (m s) as [[[a s1] e1]|]; auto. Qed.
Lemma wpg_get p Q s : Q s s [] -> wpg p get Q s.
Proof. done. Qed.
Lemma wpg_gets {A} p (f : S -> A) Q s : Q (f s) s [] -> wpg p (gets f) Q s.
Proof. done. Qed.
Lemma wpg_modify p f Q s : Q tt (f s) [] -> wpg p (modify f) Q s.
Proof. done. Qed.
Lemma wpg_emit p e Q s : Q tt s [e] -> wpg p (emit e) Q s.
Proof. done. Qed.
Lemma wpg_emits p es Q s : Q tt s es -> wpg p (emits es) Q s.
Proof. done. Qed.
Lemma wpg_expect {A} p (o : option A) Q s :
  (forall a, o = Some a -> Q a s []) -> (o = None -> p) -> wpg p (expect o) Q s.
Proof. unfold wpg. destruct o; cbn; auto. Qed.
Lemma wpg_expect_ok {A} p (r : Result A) Q s :
  (forall a, r = Ok a -> Q a s []) -> (forall e, r = Err e -> p) -> wpg p (expect_ok r) Q s.
Proof. unfold wpg. destruct r; cbn; eauto. Qed.
Lemma wpg_massert p b Q s :
  (b = true -> Q tt s []) -> (b = false -> p) -> wpg p (massert b) Q s.
Proof. unfold wpg. destruct b; cbn; auto. Qed.
Lemma wpg_when p b (m : M S E unit) Q s :
  (b = true -> wpg p m Q s) -> (b = false -> Q tt s []) -> wpg p (when b m) Q s.
Proof. destruct b; cbn; auto. Qed.
Lemma wpg_collect {A} p (m : M S E A) Q s :
  wpg p m (fun a s' e => Q (a, e) s' []) s -> wpg p (collect m) Q s.
Proof. unfold wpg, collect. by destruct (m s) as [[[a s1] e1]|]. Qed.

(** Loops: an invariant over the items done, the state and the effects so far. *)
Lemma wpg_for_each {A} p (f : A -> M S E unit) (I : S -> list E -> Prop) l s :
  I s [] ->
  (forall x s1 e1, x ∈ l -> I s1 e1 -> wpg p (f x) (fun _ s2 e2 => I s2 (e1 ++ e2)) s1) ->
  wpg p (for_each f l) (fun _ s' e => I s' e) s.
Proof.
  intros H0 Hstep.
  enough (Hg : forall s1 e1, I s1 e1 ->
            wpg p (for_each f l) (fun _ s' e => I s' (e1 ++ e)) s1) by (by apply (Hg s [])).
  clear H0. induction l as [|x l IH]; cbn [for_each]; intros s1 e1 HI.
  - apply wpg_ret. by rewrite app_nil_r.
  - apply wpg_bind. eapply wpg_mono; [apply Hstep; [by left|done]|].
    intros [] s2 e2 HI2. eapply wpg_mono; [apply IH; [|done]|].
    + intros. apply Hstep; [by right|done].
    + intros [] s3 e3. by rewrite app_assoc.
Qed.
End monad.

Abbreviation wp := (wpg False).
Abbreviation wlp := (wpg True).

Lemma wp_partial {S E A} (m : M S E A) Q s : wp m Q s -> wlp m Q s.
Proof. unfold wpg. by destruct (m s) as [[[a s'] e]|]. Qed.
Lemma wlp_run {S E A} (m : M S E A) Q s a s' e :
  wlp m Q s -> m s = Some (a, s', e) -> Q a s' e.
Proof. unfold wpg. intros H Hm. by rewrite Hm in H. Qed.
Lemma wp_run {S E A} (m : M S E A) (Q : A -> S -> list E -> Prop) s :
  wp m Q s -> exists a s' e, m s = Some (a, s', e) /\ Q a s' e.
Proof. unfold wpg. destruct (m s) as [[[a s1] e1]|]; naive_solver. Qed.

(** ** Case analysis on guards *)

(** Splits every [≫= _ = Ok _] and every refusal guard of a hypothesis. *)
Ltac result_inv :=
  repeat match goal with
  | H : _ ≫= _ = Ok _ |- _ =>
      apply Result_bind_Ok in H as (? & ? & ?)
  | H : (if ?b then Err _ else _) = Ok _ |- _ => destruct b eqn:?; [discriminate H|]
  | H : Ok _ = Ok _ |- _ => injection H as H
  | H : Err _ = Ok _ |- _ => discriminate H
  end.
Ltac bool_inv :=
  repeat match goal with
  | H : _ || _ = false |- _ => apply orb_false_iff in H as [? ?]
  | H : _ && _ = true |- _ => apply andb_true_iff in H as [? ?]
  | H : negb _ = false |- _ => apply negb_false_iff in H
  | H : negb _ = true |- _ => apply negb_true_iff in H
  | H : eqb _ _ = true |- _ => apply eqb_true_1 in H
  | H : eqb _ _ = false |- _ => apply eqb_false_1 in H
  | H : bool_decide _ = true |- _ => apply bool_decide_eq_true in H
  | H : bool_decide _ = false |- _ => apply bool_decide_eq_false in H
  | H : (_ <=? _)%N = true |- _ => apply N.leb_le in H
  | H : (_ <=? _)%N = false |- _ => apply N.leb_gt in H
  | H : (_ <? _)%N = true |- _ => apply N.ltb_lt in H
  | H : (_ <? _)%N = false |- _ => apply N.ltb_ge in H
  | H : (_ =? _)%N = true |- _ => apply N.eqb_eq in H
  | H : (_ =? _)%N = false |- _ => apply N.eqb_neq in H
  | H : (_ =? _)%nat = true |- _ => apply Nat.eqb_eq in H
  | H : (_ =? _)%nat = false |- _ => apply Nat.eqb_neq in H
  end.

(** ** Record update

    [r <| f := v |>] replaces one field.  A record type declares how to rebuild
    itself from its projections ([Eta]); the setter of each field is then
    derived by abstracting the projection. *)

Class Eta (R : Type) : Type := eta : R -> R.
Class Setter {R T : Type} (p : R -> T) : Type := upd : T -> R -> R.
Arguments upd {_ _} p {_} v r.
#[global] Typeclasses Opaque Eta Setter.

Ltac build_setter :=
  lazymatch goal with
  | |- @Setter ?R ?T ?p =>
      assert_fails (has_evar R); assert_fails (has_evar p);
      let b := constr:(fun r : R => ltac:(
        let e := eval cbv beta delta [eta] in (eta r) in
        let e := lazymatch e with | ?i r => eval unfold i in (i r) | _ => e end in
        let e := eval cbv beta in e in
        let e := eval pattern (p r) in e in
        lazymatch e with ?f _ => exact f end)) in
      let b := eval cbv beta in b in
      exact (fun v r => b r v)
  end.
#[export] Hint Extern 1 (Setter _) => build_setter : typeclass_instances.

Notation "r <| p := v |>" := (upd p v r)
  (at level 12, left associativity, p at next level, v at level 200,
   format "r  <| p  :=  v |>") : raft_scope.

(** ** Outcomes

    [Result<A, E>] of code that can also panic. *)
Inductive Outcome (E A : Type) : Type :=
| Done (a : A)
| Refused (e : E)
| Panicked.
Arguments Done {_ _} a.
Arguments Refused {_ _} e.
Arguments Panicked {_ _}.

#[export] Instance Outcome_eq_dec `{EqDecision E, EqDecision A} : EqDecision (Outcome E A).
Proof. solve_decision. Defined.
#[export] Instance Outcome_ret {E} : MRet (Outcome E) := fun A a => Done a.
#[export] Instance Outcome_bind {E} : MBind (Outcome E) := fun A B f m =>
  match m with Done a => f a | Refused e => Refused e | Panicked => Panicked end.

(** [Option::ok_or(..)?] *)
Definition ok_or {E A} (o : option A) (e : E) : Outcome E A :=
  match o with Some a => Done a | None => Refused e end.
(** [Option::expect] and indexing, which panic. *)
Definition or_panic {E A} (o : option A) : Outcome E A :=
  match o with Some a => Done a | None => Panicked end.
(** [if condition { return Err(e) }] *)
Definition refuse_if {E} (condition : bool) (e : E) : Outcome E unit :=
  if condition then Refused e else Done tt.
Definition is_done {E A} (r : Outcome E A) : bool := match r with Done _ => true | _ => false end.

Lemma Outcome_bind_Done {E A B} (f : A -> Outcome E B) (m : Outcome E A) b :
  m ≫= f = Done b <-> exists a, m = Done a /\ f a = Done b.
Proof. destruct m; cbn; naive_solver. Qed.
Lemma refuse_if_Done {E} c (e : E) u : refuse_if c e = Done u <-> c = false.
Proof. destruct c, u; cbn; naive_solver. Qed.
Lemma ok_or_Done {E A} (o : option A) (e : E) a : ok_or o e = Done a <-> o = Some a.
Proof. destruct o; cbn; naive_solver. Qed.
Lemma or_panic_Done {E A} (o : option A) a : or_panic (E:=E) o = Done a <-> o = Some a.
Proof. destruct o; cbn; naive_solver. Qed.

Lemma bind_no_panic {E A B} (m : Outcome E A) (f : A -> Outcome E B) :
  m <> Panicked -> (forall a, m = Done a -> f a <> Panicked) -> m ≫= f <> Panicked.
Proof. destruct m; cbn; auto. Qed.

Lemma refuse_if_no_panic {E} c (e : E) : refuse_if c e <> Panicked.
Proof. by destruct c. Qed.
Lemma ok_or_no_panic {E A} (o : option A) (e : E) : ok_or o e <> Panicked.
Proof. by destruct o. Qed.
Create HintDb no_panic.
#[export] Hint Resolve refuse_if_no_panic ok_or_no_panic : no_panic.
#[export] Hint Extern 1 (Done _ <> Panicked) => discriminate : no_panic.
#[export] Hint Extern 1 (Refused _ <> Panicked) => discriminate : no_panic.
(** The binds of a goal [_ <> Panicked]. *)
Ltac no_panic :=
  repeat match goal with
  | |- _ ≫= _ <> Panicked => apply bind_no_panic; [|intros ? ?]
  | |- (let '(_, _) := ?p in _) <> Panicked => destruct p
  | |- (if ?b then _ else _) <> Panicked => destruct b eqn:?
  | |- match ?o with _ => _ end <> Panicked => destruct o eqn:?
  end; eauto with no_panic.

(** Splits every bind and guard of a hypothesis [_ = Done _]. *)
Ltac outcome_inv :=
  repeat match goal with
  | H : _ ≫= _ = Done _ |- _ => apply Outcome_bind_Done in H as (? & ? & ?)
  | H : refuse_if _ _ = Done _ |- _ => apply refuse_if_Done in H
  | H : ok_or _ _ = Done _ |- _ => apply ok_or_Done in H
  | H : or_panic _ = Done _ |- _ => apply or_panic_Done in H
  | H : Done _ = Done _ |- _ => injection H as H
  | H : mret _ = Done _ |- _ => injection H as H
  | H : Refused _ = Done _ |- _ => discriminate H
  | H : Panicked = Done _ |- _ => discriminate H
  | u : unit |- _ => destruct u
  end.

(** The guards of a goal, one by one. *)
Ltac bool_intro :=
  repeat match goal with
  | |- refuse_if _ _ = Done _ => apply refuse_if_Done
  | |- _ || _ = false => apply orb_false_intro
  | |- _ && _ = true => apply andb_true_intro; split
  | |- negb _ = false => apply negb_false_iff
  | |- negb _ = true => apply negb_true_iff
  | |- eqb _ _ = true => apply eqb_true
  | |- eqb _ _ = false => apply eqb_false
  | |- contains _ _ = true => apply contains_true
  | |- contains _ _ = false => apply contains_false
  | |- bool_decide _ = true => apply bool_decide_eq_true_2
  | |- bool_decide _ = false => apply bool_decide_eq_false_2
  | |- (_ <=? _)%N = true => apply N.leb_le
  | |- (_ <=? _)%N = false => apply N.leb_gt
  | |- (_ <? _)%N = true => apply N.ltb_lt
  | |- (_ <? _)%N = false => apply N.ltb_ge
  | |- (_ =? _)%N = true => apply N.eqb_eq
  | |- (_ =? _)%N = false => apply N.eqb_neq
  end.

Lemma Outcome_bind_unit {E A} (f : unit -> Outcome E A) m b :
  m = Done tt -> f tt = Done b -> m ≫= f = Done b.
Proof. by intros ->. Qed.
(** A sequence of guards as a goal. *)
Ltac outcome_intro :=
  repeat match goal with
  | |- _ ≫= _ = Done _ => apply Outcome_bind_unit; [bool_intro|]
  end.

(** [String::len] *)
Definition str_len (s : string) : N := N.of_nat (String.length s).

(** ** Big-endian integers *)

(** [u64::to_be_bytes] and the like, [w] bytes wide. *)
Fixpoint to_be_bytes (w : nat) (n : N) : list N :=
  match w with O => [] | S w => to_be_bytes w (n / 256) ++ [n mod 256] end.
(** [u64::from_be_bytes] *)
Definition from_be_bytes (bs : list N) : N := fold_left (fun acc b => acc * 256 + b) bs 0.

Lemma to_be_bytes_length w n : length (to_be_bytes w n) = w.
Proof. revert n. induction w as [|w IH]; intros n; [done|]. cbn. rewrite length_app, IH. cbn. lia. Qed.
Lemma from_to_be_bytes w n : n < 256 ^ N.of_nat w -> from_be_bytes (to_be_bytes w n) = n.
Proof.
  unfold from_be_bytes. revert n. induction w as [|w IH]; intros n Hn; [cbn in *; lia|].
  cbn [to_be_bytes]. rewrite fold_left_app, IH.
  - cbn [fold_left]. pose proof (N.div_mod n 256 ltac:(done)). lia.
  - rewrite Nat2N.inj_succ, N.pow_succ_r' in Hn. apply N.Div0.div_lt_upper_bound. lia.
Qed.
Lemma from_to_be_bytes8 n : n <= u64_max -> from_be_bytes (to_be_bytes 8 n) = n.
Proof. intros. apply from_to_be_bytes. change (n < two64). rewrite <- u64_max_two64. lia. Qed.
Lemma to_be_bytes8_inj a b : a <= u64_max -> b <= u64_max -> to_be_bytes 8 a = to_be_bytes 8 b -> a = b.
Proof. intros Ha Hb E. rewrite <- (from_to_be_bytes8 a), <- (from_to_be_bytes8 b) by done. by rewrite E. Qed.
