(* ===== verification/Rng.v ===== *)
(** * [raft-core/src/rng.rs]: the inline PCG32 generator

    The only randomness of the core: election timeouts are drawn from it.  The
    state is a 64-bit linear congruential generator, the output an xorshift and
    a rotation on 32 bits. *)
From S2P Require Import Prelude.
Local Open Scope N_scope.
Local Open Scope raft_scope.

Definition MULTIPLIER : N := 6364136223846793005.
Definition DEFAULT_STREAM : N := 54.

Record Pcg32 := mkPcg32 { rng_state : N; rng_inc : N }.
#[export] Instance Pcg32_eta : Eta Pcg32 := fun r => mkPcg32 (rng_state r) (rng_inc r).
#[export] Instance Pcg32_eq_dec : EqDecision Pcg32.
Proof. solve_decision. Defined.

(** [u32::rotate_right] for a rotation below 32. *)
Definition rotate_right32 (x r : N) : N :=
  N.lor (N.shiftr x r) (N.shiftl x (32 - r) mod two32) mod two32.

Definition next_u32 (g : Pcg32) : N * Pcg32 :=
  let old := rng_state g in
  let g' := g <| rng_state := wrapping_add64 (wrapping_mul64 old MULTIPLIER) (rng_inc g) |> in
  let xorshifted := N.shiftr (N.lxor (N.shiftr old 18) old) 27 mod two32 in
  let rot := N.shiftr old 59 mod two32 in
  (rotate_right32 xorshifted rot, g').

Definition Pcg32_new (seed : N) : Pcg32 :=
  let g := mkPcg32 0 (N.lor (N.shiftl DEFAULT_STREAM 1) 1) in
  let g := (next_u32 g).2 in
  let g := g <| rng_state := wrapping_add64 (rng_state g) seed |> in
  (next_u32 g).2.

(** [lo + u64::from(self.next_u32()) % span]; the caller keeps [lo <= hi]. *)
Definition range_inclusive (g : Pcg32) (lo hi : N) : N * Pcg32 :=
  let span := hi - lo + 1 in
  let '(r, g') := next_u32 g in
  (lo + r mod span, g').

(** The first [n] draws. *)
Fixpoint draws (n : nat) (g : Pcg32) : list N :=
  match n with
  | O => []
  | S n => let '(r, g') := next_u32 g in r :: draws n g'
  end.

Definition rng_wf (g : Pcg32) : Prop := rng_state g < two64 /\ rng_inc g < two64.

Lemma next_u32_wf g : rng_wf g -> rng_wf (next_u32 g).2.
Proof.
  intros [_ Hi]. split; cbn; [|done]. unfold wrapping_add64. by apply N.mod_lt.
Qed.

Lemma next_u32_bound g : (next_u32 g).1 < two32.
Proof. cbn. unfold rotate_right32. by apply N.mod_lt. Qed.

Lemma range_inclusive_bounds g lo hi :
  lo <= hi -> lo <= (range_inclusive g lo hi).1 <= hi.
Proof.
  intros Hle. unfold range_inclusive. destruct (next_u32 g) as [r g']. cbv zeta. cbn [fst].
  pose proof (N.mod_lt r (hi - lo + 1) ltac:(lia)) as Hm. revert Hm. generalize (r mod (hi - lo + 1)). lia.
Qed.

(** Drawing a timeout stays inside the closed band for every generator
    state, keeps the generator inside its 64-bit range, and the generator for
    seed 42 produces the reference vector that pins its identity. *)
Lemma pcg32_correct :
  (forall g lo hi, rng_wf g -> lo <= hi ->
     let '(v, g') := range_inclusive g lo hi in lo <= v <= hi /\ rng_wf g') /\
  (forall seed, rng_wf (Pcg32_new seed)) /\
  draws 8 (Pcg32_new 42) =
    [0xa15c02b7; 0x7b47f409; 0xba1d3330; 0x83d2f293;
     0xbfa4784b; 0xcbed606e; 0xbfc6a3ad; 0x812fff6d].
Proof.
  split; [|split].
  - intros g lo hi Hg Hle. pose proof (range_inclusive_bounds g lo hi Hle) as Hb.
    pose proof (next_u32_wf g Hg) as Hw.
    unfold range_inclusive in *. destruct (next_u32 g) as [r g']. by split.
  - intros seed. unfold Pcg32_new. apply next_u32_wf. split; cbn.
    + unfold wrapping_add64. by apply N.mod_lt.
    + by vm_compute.
  - by vm_compute.
Qed.
