(* ===== verification/Quorum.v ===== *)
(** * [raft-core/src/membership.rs], first half: voter configurations

    [VoterConfig] and its quorum arithmetic: majorities, joint majorities, and
    the highest index replicated to a quorum. *)
From S2P Require Import Prelude.
Local Open Scope N_scope.
Local Open Scope raft_scope.

Abbreviation NodeId := N (only parsing).
Abbreviation Term := N (only parsing).
Abbreviation LogIndex := N (only parsing).

Inductive VoterConfig : Type :=
| Stable (voters : list NodeId)
| Joint (old new : list NodeId).
#[export] Instance VoterConfig_eq_dec : EqDecision VoterConfig.
Proof. solve_decision. Defined.

Definition set_is_valid (voters : list NodeId) : bool :=
  negb (bool_decide (voters = []) || (256 <? len64 voters)
        || negb (strictly_increasing voters)).

Definition validate_set (voters : list NodeId) : Result unit :=
  if set_is_valid voters then Ok tt
  else Err "voters must be nonempty, sorted and unique".

Definition majority (voters : list NodeId) (votes : gset NodeId) : bool :=
  (length voters / 2 <? length (filter (fun id => id ∈ votes) voters))%nat.

(** [sort_unstable] on integers: any sorting permutation is the same list. *)
Definition majority_index (voters : list NodeId) (matched : gmap NodeId LogIndex) : LogIndex :=
  if bool_decide (voters = []) then 0 else
  let indexes := merge_sort N.le (map (fun id => default 0 (matched !! id)) voters) in
  default 0 (indexes !! (length indexes - (length indexes / 2 + 1))%nat).

Module VoterConfigOps.
Definition validate (c : VoterConfig) : Result unit :=
  match c with
  | Stable voters => validate_set voters
  | Joint old new => validate_set old;; validate_set new
  end.

Definition has_quorum (c : VoterConfig) (votes : gset NodeId) : bool :=
  if is_err (validate c) then false else
  match c with
  | Stable voters => majority voters votes
  | Joint old new => majority old votes && majority new votes
  end.

Definition replicated_index (c : VoterConfig) (matched : gmap NodeId LogIndex) : LogIndex :=
  if is_err (validate c) then 0 else
  match c with
  | Stable voters => majority_index voters matched
  | Joint old new => N.min (majority_index old matched) (majority_index new matched)
  end.

Definition voters (c : VoterConfig) : gset NodeId :=
  match c with
  | Stable voters => list_to_set voters
  | Joint old new => list_to_set (old ++ new)
  end.

Definition config_contains (c : VoterConfig) (id : NodeId) : bool :=
  match c with
  | Stable voters => contains id voters
  | Joint old new => contains id old || contains id new
  end.
End VoterConfigOps.
Export VoterConfigOps.

(** ** Majorities *)

Section counting.
Context {A : Type} `{EqDecision A}.

(** Two sublists of a duplicate-free list that together are longer than it
    share an element. *)
Lemma filter_overlap (P Q : A -> Prop) `{!forall x, Decision (P x)} `{!forall x, Decision (Q x)}
    (l : list A) :
  (length l < length (filter P l) + length (filter Q l))%nat ->
  exists x, x ∈ l /\ P x /\ Q x.
Proof.
  induction l as [|x l IH]; [cbn; lia|].
  rewrite !filter_cons. destruct (decide (P x)), (decide (Q x)); cbn [length]; intros Hlt.
  1: { exists x. split; [left|done]. }
  all: destruct IH as (y & ? & ? & ?); [lia|exists y; split; [by right|done]].
Qed.

Lemma filter_length_mono (P Q : A -> Prop)
    `{!forall x, Decision (P x)} `{!forall x, Decision (Q x)} (l : list A) :
  (forall x, x ∈ l -> P x -> Q x) -> (length (filter P l) <= length (filter Q l))%nat.
Proof.
  induction l as [|x l IH]; [cbn; lia|]. intros HPQ. rewrite !filter_cons.
  assert (length (filter P l) <= length (filter Q l))%nat
    by (apply IH; intros; apply HPQ; [by right|done]).
  destruct (decide (P x)) as [HP|], (decide (Q x)) as [|HQ]; cbn [length]; try lia.
  exfalso. apply HQ, HPQ; [left|done].
Qed.
End counting.

Lemma majority_spec voters votes :
  majority voters votes = true <->
  (length voters < 2 * length (filter (fun id => id ∈ votes) voters))%nat.
Proof.
  unfold majority. rewrite Nat.ltb_lt.
  pose proof (Nat.div_mod_eq (length voters) 2).
  pose proof (Nat.mod_upper_bound (length voters) 2). lia.
Qed.

Lemma majority_intersect voters v1 v2 :
  majority voters v1 = true -> majority voters v2 = true ->
  exists x, x ∈ voters /\ x ∈ v1 /\ x ∈ v2.
Proof.
  rewrite !majority_spec. intros H1 H2.
  apply (filter_overlap (fun id => id ∈ v1) (fun id => id ∈ v2)). lia.
Qed.

Lemma majority_mono voters v1 v2 :
  v1 ⊆ v2 -> majority voters v1 = true -> majority voters v2 = true.
Proof.
  rewrite !majority_spec. intros Hsub H1.
  enough (length (filter (fun id => id ∈ v1) voters)
          <= length (filter (fun id => id ∈ v2) voters))%nat by lia.
  apply filter_length_mono. set_solver.
Qed.

Lemma has_quorum_valid c votes : has_quorum c votes = true -> is_ok (validate c) = true.
Proof. unfold has_quorum, is_err. by destruct (is_ok (validate c)). Qed.

Lemma has_quorum_mono c v1 v2 :
  v1 ⊆ v2 -> has_quorum c v1 = true -> has_quorum c v2 = true.
Proof.
  unfold has_quorum. destruct (is_err _); [done|].
  destruct c; [|rewrite !andb_true_iff]; naive_solver eauto using majority_mono.
Qed.

Lemma elem_of_voters c id : id ∈ voters c <-> config_contains c id = true.
Proof.
  destruct c; cbn; rewrite ?orb_true_iff, ?contains_true; set_solver.
Qed.

Lemma has_quorum_intersect c v1 v2 :
  has_quorum c v1 = true -> has_quorum c v2 = true ->
  exists x, x ∈ voters c /\ x ∈ v1 /\ x ∈ v2.
Proof.
  unfold has_quorum. destruct (is_err _); [done|]. destruct c as [vs|old new].
  - intros H1 H2. destruct (majority_intersect _ _ _ H1 H2) as (x & ? & ? & ?).
    exists x. set_solver.
  - rewrite !andb_true_iff. intros [H1 _] [H2 _].
    destruct (majority_intersect _ _ _ H1 H2) as (x & ? & ? & ?).
    exists x. set_solver.
Qed.

(** Quorums of one configuration always share a voter of that
    configuration; a joint quorum also shares a voter with every majority of
    the outgoing and of the incoming voter set alone, so no decision of the
    old, joint or new configuration can be taken behind the back of another. *)
Theorem quorum_intersection :
  (forall c v1 v2, has_quorum c v1 = true -> has_quorum c v2 = true ->
     exists x, x ∈ voters c /\ x ∈ v1 /\ x ∈ v2) /\
  (forall old new vj v,
     has_quorum (Joint old new) vj = true ->
     has_quorum (Stable old) v = true \/ has_quorum (Stable new) v = true ->
     exists x, x ∈ voters (Joint old new) /\ x ∈ vj /\ x ∈ v).
Proof.
  split; [apply has_quorum_intersect|].
  intros old new vj v Hj Hs. unfold has_quorum in *.
  destruct (is_err _) in Hj; [done|]. apply andb_true_iff in Hj as [Ho Hn].
  destruct Hs as [Hs|Hs].
  - destruct (is_err _) in Hs; [done|].
    destruct (majority_intersect _ _ _ Ho Hs) as (x & ? & ? & ?). exists x. set_solver.
  - destruct (is_err _) in Hs; [done|].
    destruct (majority_intersect _ _ _ Hn Hs) as (x & ? & ? & ?). exists x. set_solver.
Qed.

(** ** The replicated watermark *)

(** Voters whose recorded progress reaches [n]. *)
Definition reached (c : VoterConfig) (matched : gmap NodeId LogIndex) (n : LogIndex)
  : gset NodeId :=
  filter (fun id => n <= default 0 (matched !! id)) (voters c).

(** In a sorted list, the number of elements at or above the element at
    position [k] is at least [length - k], and an element above it leaves at
    most [length - k - 1]. *)
Lemma sorted_count_ge (l : list N) k x :
  Sorted N.le l -> l !! k = Some x ->
  (length l - k <= length (filter (fun y => (x <= y)%N) l))%nat.
Proof.
  intros HS Hk. apply Sorted_StronglySorted in HS; [|intros ???; lia].
  revert k Hk. induction HS as [|a l HS IH HF]; intros k Hk; [done|].
  rewrite filter_cons. destruct k as [|k]; cbn in Hk.
  - injection Hk as ->. destruct (decide (x <= x)) as [|]; [|lia].
    enough (filter (fun y => x <= y) l = l) as -> by (cbn; lia).
    apply list_filter_all. by rewrite list.Forall_forall in HF.
  - specialize (IH k Hk). destruct (decide _); cbn; lia.
Qed.

Lemma sorted_count_gt (l : list N) k x n :
  Sorted N.le l -> l !! k = Some x -> x < n ->
  (length (filter (fun y => (n <= y)%N) l) <= length l - k - 1)%nat.
Proof.
  intros HS Hk Hn. apply Sorted_StronglySorted in HS; [|intros ???; lia].
  revert k Hk. induction HS as [|a l HS IH HF]; intros k Hk; [done|].
  rewrite filter_cons. destruct k as [|k]; cbn in Hk.
  - injection Hk as ->. destruct (decide _); [lia|]. cbn.
    pose proof (length_filter (fun y => n <= y) l). lia.
  - specialize (IH k Hk). apply list_elem_of_lookup_2 in Hk as Hin.
    rewrite list.Forall_forall in HF. specialize (HF _ Hin). cbn in HF.
    apply lookup_lt_Some in Hk. destruct (decide _); [lia|]. cbn. lia.
Qed.

Lemma length_filter_map {A B} (f : A -> B) (P : B -> Prop) `{!forall x, Decision (P x)} l :
  length (filter P (map f l)) = length (filter (fun x => P (f x)) l).
Proof.
  induction l as [|x l IH]; [done|]. cbn [map]. rewrite !filter_cons.
  destruct (decide (P (f x))); cbn [length]; by rewrite IH.
Qed.

Lemma majority_index_spec vs matched votes n :
  vs <> [] ->
  (forall id, id ∈ vs -> id ∈ votes <-> n <= default 0 (matched !! id)) ->
  n <= majority_index vs matched <-> majority vs votes = true.
Proof.
  intros Hne Hvotes. unfold majority_index. rewrite bool_decide_eq_false_2 by done.
  set (f := fun id => default 0 (matched !! id)).
  set (l := merge_sort N.le (map f vs)).
  assert (Hlen : length l = length vs).
  { unfold l. by rewrite merge_sort_Permutation, length_map. }
  assert (HS : Sorted N.le l) by (apply Sorted_merge_sort, _).
  assert (Hcount : forall m, length (filter (fun y => m <= y) l)
                             = length (filter (fun id => m <= f id) vs)).
  { intros m. unfold l. by rewrite merge_sort_Permutation, length_filter_map. }
  assert (Hpos : (0 < length vs)%nat) by (destruct vs; cbn; [done|lia]).
  pose proof (Nat.div_mod_eq (length vs) 2). pose proof (Nat.mod_upper_bound (length vs) 2).
  cbv zeta. rewrite Hlen.
  destruct (lookup_lt_is_Some_2 l (length vs - (length vs / 2 + 1))%nat) as [x Hx];
    [lia|]. rewrite Hx. cbn [default from_option]. unfold id.
  assert (Heq : length (filter (fun id => id ∈ votes) vs)
                = length (filter (fun id => n <= f id) vs)).
  { apply Nat.le_antisymm; apply filter_length_mono; intros id Hid; by apply Hvotes. }
  unfold majority. rewrite Nat.ltb_lt, Heq, <- Hcount. split.
  - intros Hle. pose proof (sorted_count_ge l _ x HS Hx) as Hge.
    enough (length (filter (fun y => (x <= y)%N) l)
            <= length (filter (fun y => (n <= y)%N) l))%nat
      by lia.
    apply filter_length_mono. intros; lia.
  - intros Hmaj. destruct (N.le_gt_cases n x) as [|Hgt]; [done|].
    pose proof (sorted_count_gt l _ x n HS Hx Hgt). lia.
Qed.

Lemma validate_set_ok vs : is_ok (validate_set vs) = true ->
  vs <> [] /\ strictly_increasing vs = true.
Proof.
  unfold validate_set, set_is_valid. case_bool_decide; cbn [orb negb is_ok]; [done|].
  by destruct (256 <? len64 vs), (strictly_increasing vs); cbn.
Qed.

Lemma validate_ok c : is_ok (validate c) = true ->
  match c with
  | Stable vs => is_ok (validate_set vs) = true
  | Joint old new => is_ok (validate_set old) = true /\ is_ok (validate_set new) = true
  end.
Proof. destruct c; cbn; [done|]. by destruct (validate_set old) as [[]|]; cbn. Qed.

Lemma replicated_index_quorum c matched n :
  is_ok (validate c) = true ->
  n <= replicated_index c matched <-> has_quorum c (reached c matched n) = true.
Proof.
  intros Hok. unfold replicated_index, has_quorum, is_err. rewrite Hok. cbn [negb].
  apply validate_ok in Hok. unfold reached. destruct c as [vs|old new].
  - apply validate_set_ok in Hok as [Hne _]. apply majority_index_spec; [done|].
    intros id Hid. cbn. set_solver.
  - destruct Hok as [[Hne1 _]%validate_set_ok [Hne2 _]%validate_set_ok].
    rewrite andb_true_iff, N.min_glb_iff.
    rewrite (majority_index_spec old matched), (majority_index_spec new matched); try done;
      intros id Hid; cbn; set_solver.
Qed.

(** (C39) The sorted-median watermark is exactly the quorum threshold: an index
    is at or below [replicated_index] if and only if the voters whose recorded
    progress reaches it form a quorum (both quorums in a joint configuration);
    an invalid configuration yields watermark 0 and never a quorum. *)
Theorem replicated_index_correct c matched :
  (is_ok (validate c) = true ->
     forall n, n <= replicated_index c matched <-> has_quorum c (reached c matched n) = true) /\
  (is_ok (validate c) = false ->
     replicated_index c matched = 0 /\ forall votes, has_quorum c votes = false).
Proof.
  split.
  - intros Hok n. by apply replicated_index_quorum.
  - intros Hbad. unfold replicated_index, has_quorum, is_err. by rewrite Hbad.
Qed.
