(* ===== verification/Membership.v ===== *)
(** * [raft-core/src/membership.rs], second half: administrative history

    Learner admission, removal, and joint-consensus voter changes as a replayed
    history of configuration entries, its validation, and the extension order
    between two durable histories. *)
From S2P Require Import Prelude Quorum.
Local Open Scope N_scope.
Local Open Scope raft_scope.

Definition MAX_ADMIN_RECORDS : N := 1024.
Definition LEGACY_GROUP_ID : string := "legacy-default".
Definition MAX_ADMIN_ID_BYTES : N := 128.
Definition MAX_MEMBER_ENDPOINT_BYTES : N := 512.

(** ** Strings

    A Rust [String] is its UTF-8 byte sequence. *)

Definition bytes (s : string) : list N :=
  map Ascii.N_of_ascii (String.list_ascii_of_string s).

Lemma bytes_app s t : bytes (String.append s t) = bytes s ++ bytes t.
Proof. induction s as [|c s IH]; [done|]. exact (f_equal (cons _) IH). Qed.

(** [str::chars]: decode the UTF-8 bytes of a valid string to code points. *)
Fixpoint utf8_chars (bs : list N) : list N :=
  match bs with
  | [] => []
  | b :: r =>
      if b <? 0x80 then b :: utf8_chars r
      else if b <? 0xE0 then
        match r with
        | b1 :: r1 => (b - 0xC0) * 64 + (b1 - 0x80) :: utf8_chars r1
        | _ => []
        end
      else if b <? 0xF0 then
        match r with
        | b1 :: b2 :: r2 =>
            ((b - 0xE0) * 64 + (b1 - 0x80)) * 64 + (b2 - 0x80) :: utf8_chars r2
        | _ => []
        end
      else
        match r with
        | b1 :: b2 :: b3 :: r3 =>
            (((b - 0xF0) * 64 + (b1 - 0x80)) * 64 + (b2 - 0x80)) * 64 + (b3 - 0x80)
              :: utf8_chars r3
        | _ => []
        end
  end.

(** [char::is_control]: general category Cc. *)
Definition char_is_control (c : N) : bool := (c <=? 0x1F) || ((0x7F <=? c) && (c <=? 0x9F)).

(** [char::is_whitespace]: the White_Space property. *)
Definition char_is_whitespace (c : N) : bool :=
  ((0x09 <=? c) && (c <=? 0x0D)) || (c =? 0x20) || (c =? 0x85) || (c =? 0xA0)
  || (c =? 0x1680) || ((0x2000 <=? c) && (c <=? 0x200A)) || (c =? 0x2028) || (c =? 0x2029)
  || (c =? 0x202F) || (c =? 0x205F) || (c =? 0x3000).

Fixpoint trim_start (cs : list N) : list N :=
  match cs with
  | c :: r => if char_is_whitespace c then trim_start r else cs
  | [] => []
  end.
(** [str::trim], on code points. *)
Definition trim (cs : list N) : list N := reverse (trim_start (reverse (trim_start cs))).

Definition is_ascii (s : string) : bool := forallb (fun b => b <? 0x80) (bytes s).
Definition byte_is_ascii_control (b : N) : bool := (b <=? 0x1F) || (b =? 0x7F).
Definition byte_is_ascii_whitespace (b : N) : bool :=
  (b =? 0x20) || (b =? 0x09) || (b =? 0x0A) || (b =? 0x0C) || (b =? 0x0D).

(** ** Data *)

Record MemberEndpoints := mkMemberEndpoints { me_raft : string; me_http : string }.
#[export] Instance MemberEndpoints_eq_dec : EqDecision MemberEndpoints.
Proof. solve_decision. Defined.

Definition endpoint_is_invalid (endpoint : string) : bool :=
  let cs := utf8_chars (bytes endpoint) in
  bool_decide (endpoint = ""%string)
  || (MAX_MEMBER_ENDPOINT_BYTES <? len64 (bytes endpoint))
  || negb (eqb (trim cs) cs)
  || existsb char_is_control cs.

Definition endpoints_validate (e : MemberEndpoints) : Result unit :=
  if existsb endpoint_is_invalid [me_raft e; me_http e]
  then Err "invalid bounded member endpoint" else Ok tt.

Inductive AdminOperation : Type :=
| AddLearner (id : NodeId) (endpoints : MemberEndpoints)
| Remove (id : NodeId)
| SetVoters (voters : list NodeId).
#[export] Instance AdminOperation_eq_dec : EqDecision AdminOperation.
Proof. solve_decision. Defined.

Inductive ConfigurationPhase : Type := PhApply | PhJoint | PhFinal.
#[export] Instance ConfigurationPhase_eq_dec : EqDecision ConfigurationPhase.
Proof. solve_decision. Defined.

Record ConfigurationEntry := mkConfigurationEntry {
  ce_request_id : string;
  ce_operation : AdminOperation;
  ce_phase : ConfigurationPhase;
}.
#[export] Instance ConfigurationEntry_eq_dec : EqDecision ConfigurationEntry.
Proof. solve_decision. Defined.

Record AdminRecord := mkAdminRecord {
  ar_operation : AdminOperation;
  ar_first_index : LogIndex;
  ar_first_term : Term;
  ar_joint : bool;
  ar_final_index : option LogIndex;
  ar_final_term : option Term;
}.
#[export] Instance AdminRecord_eq_dec : EqDecision AdminRecord.
Proof. solve_decision. Defined.
#[export] Instance AdminRecord_eta : Eta AdminRecord := fun r =>
  mkAdminRecord (ar_operation r) (ar_first_index r) (ar_first_term r) (ar_joint r)
    (ar_final_index r) (ar_final_term r).

Record MembershipState := mkMembershipState {
  ms_version : N;
  ms_group_id : string;
  ms_genesis_voters : list NodeId;
  ms_voters : VoterConfig;
  ms_learners : gset NodeId;
  ms_retired : gset NodeId;
  ms_endpoints : gmap NodeId MemberEndpoints;
  ms_records : gmap string AdminRecord;
}.
#[export] Instance MembershipState_eq_dec : EqDecision MembershipState.
Proof. solve_decision. Defined.
#[export] Instance MembershipState_eta : Eta MembershipState := fun r =>
  mkMembershipState (ms_version r) (ms_group_id r) (ms_genesis_voters r) (ms_voters r)
    (ms_learners r) (ms_retired r) (ms_endpoints r) (ms_records r).

Record CommittedMembership := mkCommittedMembership {
  cm_index : LogIndex;
  cm_term : Term;
  cm_state : MembershipState;
}.
#[export] Instance CommittedMembership_eq_dec : EqDecision CommittedMembership.
Proof. solve_decision. Defined.
#[export] Instance CommittedMembership_eta : Eta CommittedMembership := fun r =>
  mkCommittedMembership (cm_index r) (cm_term r) (cm_state r).

(** ** [impl MembershipState] *)

Definition validate_request_id (id : string) : Result unit :=
  if bool_decide (id = ""%string)
     || (MAX_ADMIN_ID_BYTES <? len64 (bytes id))
     || negb (is_ascii id)
     || existsb (fun b => byte_is_ascii_control b || byte_is_ascii_whitespace b) (bytes id)
  then Err "administrative request ID must be bounded printable ASCII without whitespace"
  else Ok tt.

Definition state_bootstrap_with_group (group_id : string) (voters : list NodeId)
  : Result MembershipState :=
  validate_request_id group_id;;
  validate_set voters;;
  Ok (mkMembershipState 1 group_id voters (Stable voters) ∅ ∅ ∅ ∅).

Definition state_bootstrap (voters : list NodeId) : Result MembershipState :=
  state_bootstrap_with_group LEGACY_GROUP_ID voters.

Definition participants (m : MembershipState) : gset NodeId :=
  voters (ms_voters m) ∪ ms_learners m.

Definition pending (m : MembershipState) : option (string * AdminRecord) :=
  List.find (fun '(_, record) => is_none (ar_final_index record)) (smap_iter (ms_records m)).

Definition is_joint (c : VoterConfig) : bool :=
  match c with Joint _ _ => true | Stable _ => false end.

Definition first_phase (m : MembershipState) (id : string) (operation : AdminOperation)
  : Result ConfigurationPhase :=
  validate_request_id id;;
  if eqb (ms_group_id m) LEGACY_GROUP_ID then Err "explicit_group_identity_required" else
  match ms_records m !! id with
  | Some record =>
      if eqb (ar_operation record) operation
      then Err "request_already_recorded" else Err "request_payload_changed"
  | None =>
  if is_some (pending m) || is_joint (ms_voters m) then Err "membership_change_pending" else
  if MAX_ADMIN_RECORDS <=? N.of_nat (size (ms_records m)) then Err "membership_admin_capacity" else
  match operation with
  | AddLearner id endpoints =>
      endpoints_validate endpoints;;
      if bool_decide (id ∈ ms_retired m) then Err "member_id_retired" else
      if bool_decide (id ∈ participants m) then Err "member_already_admitted" else
      Ok PhApply
  | Remove id =>
      if bool_decide (id ∈ ms_learners m) then Ok PhApply else
      let voters := voters (ms_voters m) in
      if negb (bool_decide (id ∈ voters)) then Err "member_unknown" else
      if (size voters =? 1)%nat then Err "cannot_remove_last_voter" else
      Ok PhJoint
  | SetVoters vs =>
      validate_set vs;;
      let current := voters (ms_voters m) in
      let requested : gset NodeId := list_to_set vs in
      if bool_decide (current = requested) then Err "voters_unchanged" else
      if existsb (fun id => negb (bool_decide (id ∈ current))
                            && negb (bool_decide (id ∈ ms_learners m))) (nset_list requested)
      then Err "new_voter_must_be_admitted_learner" else
      Ok PhJoint
  end
  end.

Definition target_voters (m : MembershipState) (operation : AdminOperation)
  : Result (list NodeId) :=
  match operation with
  | SetVoters voters => Ok voters
  | Remove id => Ok (filter (fun voter => voter <> id) (nset_list (voters (ms_voters m))))
  | AddLearner _ _ => Err "learner admission does not change voter quorum"
  end.

(** The [Final] branch of [apply_entry]. *)
Definition apply_final (m : MembershipState) (index : LogIndex) (term : Term)
    (entry : ConfigurationEntry) : Result MembershipState :=
  match pending m with
  | None => Err "no joint operation to finish"
  | Some (pending_id, record) =>
      if negb (eqb pending_id (ce_request_id entry))
         || negb (eqb (ar_operation record) (ce_operation entry))
         || (index <=? ar_first_index record)
         || (term <? ar_first_term record)
      then Err "final entry differs from active joint operation" else
      match ms_voters m with
      | Stable _ => Err "final entry requires joint voters"
      | Joint old new =>
          let outgoing := filter (fun id => id ∉ new) old in
          Ok (m <| ms_retired := ms_retired m ∪ list_to_set outgoing |>
                <| ms_voters := Stable new |>
                <| ms_records := alter (fun r => r <| ar_final_index := Some index |>
                                                   <| ar_final_term := Some term |>)
                                       (ce_request_id entry) (ms_records m) |>)
      end
  end.

Definition apply_entry (m : MembershipState) (index : LogIndex) (term : Term)
    (entry : ConfigurationEntry) : Result MembershipState :=
  if (index =? 0) || (index =? u64_max) || (term =? 0)
  then Err "invalid configuration log boundary" else
  validate_request_id (ce_request_id entry);;
  if bool_decide (ce_phase entry = PhFinal) then apply_final m index term entry else
  expected ← first_phase m (ce_request_id entry) (ce_operation entry);
  if negb (eqb (ce_phase entry) expected) then Err "incorrect first configuration phase" else
  let joint := eqb (ce_phase entry) PhJoint in
  m' ← (if joint then
          let old := nset_list (voters (ms_voters m)) in
          new ← target_voters m (ce_operation entry);
          Ok (m <| ms_learners := ms_learners m ∖ list_to_set new |>
                <| ms_voters := Joint old new |>)
        else
          match ce_operation entry with
          | AddLearner id endpoints =>
              Ok (m <| ms_learners := ms_learners m ∪ {[id]} |>
                    <| ms_endpoints := <[id := endpoints]> (ms_endpoints m) |>)
          | Remove id =>
              Ok (m <| ms_learners := ms_learners m ∖ {[id]} |>
                    <| ms_retired := ms_retired m ∪ {[id]} |>)
          | SetVoters _ => Err "voter change cannot use single-phase apply"
          end);
  Ok (m' <| ms_records :=
        <[ce_request_id entry :=
            mkAdminRecord (ce_operation entry) index term joint
              (if joint then None else Some index) (if joint then None else Some term)]>
          (ms_records m') |>).

(** ** [impl CommittedMembership] *)

Definition cm_bootstrap_with_group (group_id : string) (voters : list NodeId)
  : Result CommittedMembership :=
  state ← state_bootstrap_with_group group_id voters; Ok (mkCommittedMembership 0 0 state).
Definition cm_bootstrap (voters : list NodeId) : Result CommittedMembership :=
  state ← state_bootstrap voters; Ok (mkCommittedMembership 0 0 state).

Definition advanced (c : CommittedMembership) (index : LogIndex) (term : Term)
    (entry : ConfigurationEntry) : Result CommittedMembership :=
  if (index <=? cm_index c) || (term <? cm_term c)
  then Err "configuration history regressed" else
  state ← apply_entry (cm_state c) index term entry;
  Ok (mkCommittedMembership index term state).

Definition Event : Type := LogIndex * Term * ConfigurationEntry.

(** The events one record contributes to the reconstructed history. *)
Definition record_events (id : string) (record : AdminRecord) : Result (list Event) :=
  let first := (ar_first_index record, ar_first_term record,
                mkConfigurationEntry id (ar_operation record)
                  (if ar_joint record then PhJoint else PhApply)) in
  match ar_final_index record, ar_final_term record with
  | Some index, Some term =>
      if ar_joint record then
        Ok [first; (index, term, mkConfigurationEntry id (ar_operation record) PhFinal)]
      else if (index =? ar_first_index record) && (term =? ar_first_term record) then Ok [first]
      else Err "inconsistent administrative completion boundary"
  | None, None =>
      if ar_joint record then Ok [first]
      else Err "inconsistent administrative completion boundary"
  | _, _ => Err "inconsistent administrative completion boundary"
  end.

Fixpoint collect_events (records : list (string * AdminRecord)) : Result (list Event) :=
  match records with
  | [] => Ok []
  | (id, record) :: rest =>
      evs ← record_events id record;
      more ← collect_events rest;
      Ok (evs ++ more)
  end.

(** [sort_by_key(|event| event.0)]: stable insertion. *)
Fixpoint insert_event (e : Event) (l : list Event) : list Event :=
  match l with
  | [] => [e]
  | f :: rest => if e.1.1 <? f.1.1 then e :: l else f :: insert_event e rest
  end.
Definition sort_events (l : list Event) : list Event :=
  fold_left (fun acc e => insert_event e acc) l [].

Fixpoint replay_events (c : CommittedMembership) (l : list Event) : Result CommittedMembership :=
  match l with
  | [] => Ok c
  | (index, term, entry) :: rest => c' ← advanced c index term entry; replay_events c' rest
  end.

Definition cm_validate (c : CommittedMembership) : Result unit :=
  if negb (ms_version (cm_state c) =? 1)
     || (MAX_ADMIN_RECORDS <? N.of_nat (size (ms_records (cm_state c))))
  then Err "unsupported or oversized membership state" else
  rebuilt ← cm_bootstrap_with_group (ms_group_id (cm_state c)) (ms_genesis_voters (cm_state c));
  events ← collect_events (smap_iter (ms_records (cm_state c)));
  rebuilt ← replay_events rebuilt (sort_events events);
  if negb (eqb rebuilt c) then Err "membership state differs from its retained history"
  else Ok tt.

Definition record_extends (older_index : LogIndex) (old new : AdminRecord) : bool :=
  eqb (ar_operation new) (ar_operation old)
  && (ar_first_index new =? ar_first_index old)
  && (ar_first_term new =? ar_first_term old)
  && Bool.eqb (ar_joint new) (ar_joint old)
  && negb (is_some (ar_final_index old)
           && (negb (eqb (ar_final_index new) (ar_final_index old))
               || negb (eqb (ar_final_term new) (ar_final_term old))))
  && negb (is_none (ar_final_index old)
           && is_some_and (ar_final_index new) (fun index => index <=? older_index)).

Definition is_consistent_extension_of (c older : CommittedMembership) : bool :=
  negb (is_err (cm_validate c)
        || is_err (cm_validate older)
        || negb (eqb (ms_group_id (cm_state c)) (ms_group_id (cm_state older)))
        || negb (eqb (ms_genesis_voters (cm_state c)) (ms_genesis_voters (cm_state older)))
        || (cm_index c <? cm_index older)
        || (cm_term c <? cm_term older))
  && forallb (fun '(id, old) =>
                match ms_records (cm_state c) !! id with
                | Some new => record_extends (cm_index older) old new
                | None => false
                end) (smap_iter (ms_records (cm_state older)))
  && forallb (fun '(id, new) =>
                negb (is_none (ms_records (cm_state older) !! id)
                      && (ar_first_index new <=? cm_index older)))
       (smap_iter (ms_records (cm_state c))).
