(* ===== verification/Types.v ===== *)
(** * [raft-core/src/types.rs] and [raft-core/src/message.rs]

    The data shared by the state machine and its drivers: commands, entries,
    hard state, roles, snapshot descriptors, the wire protocol, and the [Input]
    and [Effect] types that are the core's whole interface. *)
From S2P Require Import Prelude Quorum Membership.
Local Open Scope N_scope.
Local Open Scope raft_scope.

(** ** [types.rs] *)

Inductive Command : Type :=
| Put (key value : string)
| Delete (key : string)
| NoOp
| Configuration (change : ConfigurationEntry)
| RegisterSession (nonce : string)
| CloseSession (session_id : LogIndex)
| SessionPut (session_id : LogIndex) (key : string) (sequence : N) (value : string)
| SessionDelete (session_id : LogIndex) (key : string) (sequence : N).
#[export] Instance Command_eq_dec : EqDecision Command.
Proof. solve_decision. Defined.

(** [matches!(command, Command::Configuration(_))] *)
Definition is_configuration (c : Command) : bool :=
  match c with Configuration _ => true | _ => false end.

Record Entry := mkEntry { e_index : LogIndex; e_term : Term; e_command : Command }.
#[export] Instance Entry_eq_dec : EqDecision Entry.
Proof. solve_decision. Defined.

Record HardState := mkHardState {
  current_term : Term;
  voted_for : option NodeId;
  hs_membership : option CommittedMembership;
}.
#[export] Instance HardState_eq_dec : EqDecision HardState.
Proof. solve_decision. Defined.
#[export] Instance HardState_eta : Eta HardState := fun r =>
  mkHardState (current_term r) (voted_for r) (hs_membership r).
Definition HardState_default : HardState := mkHardState 0 None None.

Record CampaignId := mkCampaignId { ci_incarnation : N; ci_sequence : N }.
#[export] Instance CampaignId_eq_dec : EqDecision CampaignId.
Proof. solve_decision. Defined.

Inductive Role : Type :=
| Follower
| PreCandidate (prospective_term : Term) (campaign_id : CampaignId)
    (votes_received : gset NodeId)
| Candidate (votes_received : gset NodeId)
| Leader (next_index match_index : gmap NodeId LogIndex).
#[export] Instance Role_eq_dec : EqDecision Role.
Proof. solve_decision. Defined.

Inductive ReadRejectReason : Type :=
| NotLeader | NotReady | RCapacity | ContextExhausted | Cancelled | LeadershipLost.
#[export] Instance ReadRejectReason_eq_dec : EqDecision ReadRejectReason.
Proof. solve_decision. Defined.

Definition ReadRejectReason_as_str (r : ReadRejectReason) : string :=
  match r with
  | NotLeader => "not_leader"
  | NotReady => "read_not_ready"
  | RCapacity => "read_capacity"
  | ContextExhausted => "read_context_exhausted"
  | Cancelled => "read_cancelled"
  | LeadershipLost => "leadership_lost"
  end.

Definition MAX_SNAPSHOT_BYTES : N := 64 * 1024 * 1024.
Definition MAX_SNAPSHOT_CHUNK_BYTES : N := 64 * 1024.
Definition MIN_SNAPSHOT_BYTES : N := 48.

Record SnapshotMetadata := mkSnapshotMetadata {
  last_included_index : LogIndex;
  last_included_term : Term;
  members : list NodeId;
  sm_membership : option CommittedMembership;
}.
#[export] Instance SnapshotMetadata_eq_dec : EqDecision SnapshotMetadata.
Proof. solve_decision. Defined.

Definition metadata_validate (m : SnapshotMetadata) : Result unit :=
  (match sm_membership m with
   | Some membership =>
       cm_validate membership;;
       if (last_included_index m <? cm_index membership)
          || (last_included_term m <? cm_term membership)
          || negb (eqb (nset_list (participants (cm_state membership))) (members m))
       then Err "snapshot membership boundary or participant set mismatch"
       else Ok tt
   | None => Ok tt
   end);;
  if (last_included_index m =? 0) || (last_included_term m =? 0)
  then Err "snapshot boundary index and term must be positive" else
  if last_included_index m =? u64_max
  then Err "snapshot boundary must leave room for a following entry" else
  if bool_decide (members m = []) || (256 <? len64 (members m))
     || negb (strictly_increasing (members m))
  then Err "snapshot voters must be nonempty, sorted, and unique" else
  Ok tt.

Record SnapshotDescriptor := mkSnapshotDescriptor {
  metadata : SnapshotMetadata;
  total_len : N;
  sha256 : list N;
}.
#[export] Instance SnapshotDescriptor_eq_dec : EqDecision SnapshotDescriptor.
Proof. solve_decision. Defined.

Definition descriptor_validate (d : SnapshotDescriptor) : Result unit :=
  metadata_validate (metadata d);;
  if negb ((MIN_SNAPSHOT_BYTES <=? total_len d) && (total_len d <=? MAX_SNAPSHOT_BYTES))
  then Err "snapshot image size must be between 48 bytes and 64 MiB"
  else Ok tt.

Record SnapshotTransferId := mkSnapshotTransferId {
  st_leader_id : NodeId;
  st_term : Term;
  st_incarnation : N;
  st_sequence : N;
}.
#[export] Instance SnapshotTransferId_eq_dec : EqDecision SnapshotTransferId.
Proof. solve_decision. Defined.

Inductive SnapshotStageResult : Type :=
| Accepted (next_offset : N) (complete : bool)
| Rejected.
#[export] Instance SnapshotStageResult_eq_dec : EqDecision SnapshotStageResult.
Proof. solve_decision. Defined.

(** ** [message.rs] *)

Record AppendConflictHint := mkAppendConflictHint {
  rejected_index : LogIndex;
  h_term : option Term;
  first_index : LogIndex;
}.
#[export] Instance AppendConflictHint_eq_dec : EqDecision AppendConflictHint.
Proof. solve_decision. Defined.

Inductive RaftMessage : Type :=
| GroupMessage (group_id : string) (genesis_voters : list NodeId) (message : RaftMessage)
| MembershipAdvertisement (term : Term) (configuration : CommittedMembership)
| RequestVote (term : Term) (candidate_id : NodeId) (last_log_index : LogIndex)
    (last_log_term : Term)
| RequestVoteReply (term : Term) (vote_granted : bool)
| AppendEntries (term : Term) (leader_id : NodeId) (prev_log_index : LogIndex)
    (prev_log_term : Term) (entries : list Entry) (leader_commit : LogIndex) (contact_round : N)
| AppendEntriesReply (term : Term) (success : bool) (match_index : LogIndex)
    (contact_round : N) (conflict : option AppendConflictHint)
| PreVote (prospective_term : Term) (campaign_id : CampaignId) (candidate_id : NodeId)
    (last_log_index : LogIndex) (last_log_term : Term)
| PreVoteReply (term : Term) (prospective_term : Term) (campaign_id : CampaignId)
    (vote_granted : bool)
| ReadProbe (term : Term) (leader_id : NodeId) (context : N)
| ReadProbeReply (term : Term) (context : N) (accepted : bool)
| CompactedPrefix (term : Term) (last_included_index : LogIndex) (last_included_term : Term)
    (contact_round : N)
| InstallSnapshot (transfer : SnapshotTransferId) (descriptor : SnapshotDescriptor) (offset : N)
    (data : list N) (done : bool) (contact_round : N)
| InstallSnapshotReply (term : Term) (transfer : SnapshotTransferId) (next_offset : N)
    (match_index : LogIndex) (accepted : bool) (installed : bool) (contact_round : N).
#[export] Instance RaftMessage_eq_dec : EqDecision RaftMessage.
Proof. solve_decision. Defined.

Inductive Input : Type :=
| Recover
| MembershipChange (request_id : string) (operation : AdminOperation)
| Message (from : NodeId) (msg : RaftMessage)
| Tick (now_ms : N)
| ClientPropose (command : Command)
| ClientProposeBatch (commands : list Command)
| ReadIndex (request_id : N)
| CancelRead (request_id : N)
| Compact (descriptor : SnapshotDescriptor)
| SnapshotChunkRead (to : NodeId) (transfer : SnapshotTransferId)
    (descriptor : SnapshotDescriptor) (offset : N) (data : list N)
| SnapshotChunkStaged (transfer : SnapshotTransferId) (descriptor : SnapshotDescriptor)
    (offset : N) (result : SnapshotStageResult)
| SnapshotPublished (transfer : option SnapshotTransferId) (descriptor : SnapshotDescriptor).

(** [membership_protocol::MembershipOutcome] *)
Inductive MembershipOutcome : Type :=
| MAccepted (index : LogIndex)
| MRecorded (record : AdminRecord)
| MRejected (reason : string) (leader_hint : option NodeId).
#[export] Instance MembershipOutcome_eq_dec : EqDecision MembershipOutcome.
Proof. solve_decision. Defined.

Inductive Effect : Type :=
| MembershipRouteHint (id : NodeId) (term : Term) (endpoints : MemberEndpoints)
| MembershipResult (request_id : string) (outcome : MembershipOutcome)
| MembershipChanged (committed : CommittedMembership)
| PersistHardState (hard : HardState)
| PersistLogEntries (truncate_from : option LogIndex) (entries : list Entry)
| Send (to : NodeId) (msg : RaftMessage)
| Apply (entry : Entry)
| RoleChanged (role_name : string) (term : Term)
| ProposeAccepted (index : LogIndex)
| ProposeRejected (leader_hint : option NodeId)
| ReadReady (request_id : N) (context : N) (index : LogIndex) (term : Term)
| ReadRejected (request_id : N) (leader_hint : option NodeId) (reason : ReadRejectReason)
| ReadSnapshotChunk (to : NodeId) (transfer : SnapshotTransferId)
    (descriptor : SnapshotDescriptor) (offset : N) (max_len : N)
| StageSnapshotChunk (transfer : SnapshotTransferId) (descriptor : SnapshotDescriptor)
    (offset : N) (data : list N) (done : bool)
| PublishSnapshot (transfer : option SnapshotTransferId) (descriptor : SnapshotDescriptor)
    (retained_entries : list Entry)
| ApplySnapshot (descriptor : SnapshotDescriptor)
| CancelSnapshot (transfer : SnapshotTransferId)
| SnapshotRejected (reason : string).
#[export] Instance Effect_eq_dec : EqDecision Effect.
Proof. solve_decision. Defined.
