(* ===== verification/Node.v ===== *)
(** * [raft-core/src/lib.rs]: the node and its accessors

    [RaftNode] with every field of the source (the [cfg(test)] fault switches
    aside), the log and snapshot accessors, and the transitions every component
    shares: stepping down, resetting the election deadline, applying the
    committed prefix. *)
From S2P Require Import Prelude Rng Quorum Membership Types.
Local Open Scope N_scope.
Local Open Scope raft_scope.

Definition TICK_MS : N := 10.
Definition HEARTBEAT_MS : N := 50.
Definition ELECTION_MIN_MS : N := 150.
Definition ELECTION_MAX_MS : N := 300.
Definition CHECK_QUORUM_MS : N := ELECTION_MAX_MS.
Definition MAX_APPEND_ENTRIES : N := 16.
Definition MAX_PROPOSAL_BATCH : N := 16.
Definition MAX_PENDING_READS : N := 128.

(** ** Volatile transfer and read state *)

Record OutgoingSnapshot := mkOutgoingSnapshot {
  os_transfer : SnapshotTransferId;
  os_descriptor : SnapshotDescriptor;
  os_offset : N;
  os_reading : bool;
  os_sent_end : option N;
}.
#[export] Instance OutgoingSnapshot_eta : Eta OutgoingSnapshot := fun r =>
  mkOutgoingSnapshot (os_transfer r) (os_descriptor r) (os_offset r) (os_reading r)
    (os_sent_end r).

(** [is_pending] is (offset, end, contact round). *)
Record IncomingSnapshot := mkIncomingSnapshot {
  is_transfer : SnapshotTransferId;
  is_descriptor : SnapshotDescriptor;
  is_next_offset : N;
  is_pending : option (N * N * N);
}.
#[export] Instance IncomingSnapshot_eta : Eta IncomingSnapshot := fun r =>
  mkIncomingSnapshot (is_transfer r) (is_descriptor r) (is_next_offset r) (is_pending r).

Record PublishingSnapshot := mkPublishingSnapshot {
  ps_transfer : option SnapshotTransferId;
  ps_descriptor : SnapshotDescriptor;
  ps_retained : list Entry;
  ps_contact_round : N;
}.

Record PendingRead := mkPendingRead {
  pr_context : N;
  pr_term : Term;
  pr_index : LogIndex;
  pr_voters : gset NodeId;
}.
#[export] Instance PendingRead_eta : Eta PendingRead := fun r =>
  mkPendingRead (pr_context r) (pr_term r) (pr_index r) (pr_voters r).

(** ** The node *)

Record RaftNode := mkRaftNode {
  node_id : NodeId;
  peers : list NodeId;
  hard : HardState;
  log : list Entry;
  commit_index : LogIndex;
  last_applied : LogIndex;
  role : Role;
  leader_hint : option NodeId;
  now_ms : N;
  election_deadline_ms : N;
  heartbeat_due_ms : N;
  rng : Pcg32;
  campaign_incarnation : N;
  campaign_sequence : N;
  campaign_exhausted : bool;
  last_leader_contact_ms : option N;
  contact_round : N;
  quorum_deadline_ms : N;
  quorum_contacts : gset NodeId;
  read_context : N;
  snapshot : option SnapshotDescriptor;
  snapshot_sequence : N;
  outgoing_snapshots : gmap NodeId OutgoingSnapshot;
  incoming_snapshot : option IncomingSnapshot;
  last_snapshot_transfer : option (SnapshotTransferId * SnapshotDescriptor);
  publishing_snapshot : option PublishingSnapshot;
  pending_reads : gmap N PendingRead;
  genesis_membership : CommittedMembership;
  effective_membership : MembershipState;
  recovery_pending : bool;
  advertisement_last : gmap NodeId (Term * LogIndex * N);
  promotion_fence : option (string * AdminOperation * LogIndex);
  recovery_refresh_hard : bool;
  membership_advertisements : gmap NodeId (Term * CommittedMembership);
}.
#[export] Instance RaftNode_eta : Eta RaftNode := fun n =>
  mkRaftNode (node_id n) (peers n) (hard n) (log n) (commit_index n) (last_applied n) (role n)
    (leader_hint n) (now_ms n) (election_deadline_ms n) (heartbeat_due_ms n) (rng n)
    (campaign_incarnation n) (campaign_sequence n) (campaign_exhausted n)
    (last_leader_contact_ms n) (contact_round n) (quorum_deadline_ms n)
    (quorum_contacts n) (read_context n) (snapshot n) (snapshot_sequence n)
    (outgoing_snapshots n) (incoming_snapshot n) (last_snapshot_transfer n)
    (publishing_snapshot n) (pending_reads n) (genesis_membership n)
    (effective_membership n) (recovery_pending n) (advertisement_last n)
    (promotion_fence n) (recovery_refresh_hard n) (membership_advertisements n).

Abbreviation Raft := (M RaftNode Effect).

(** ** Accessors *)

Definition is_leader (n : RaftNode) : bool :=
  match role n with Leader _ _ => true | _ => false end.
Definition is_follower (n : RaftNode) : bool :=
  match role n with Follower => true | _ => false end.

Definition snapshot_index (n : RaftNode) : LogIndex :=
  map_or (snapshot n) 0 (fun s => last_included_index (metadata s)).
Definition snapshot_term (n : RaftNode) : Term :=
  map_or (snapshot n) 0 (fun s => last_included_term (metadata s)).

Definition entry_at (n : RaftNode) (index : LogIndex) : option Entry :=
  offset ← checked_sub index (snapshot_index n);
  offset ← checked_sub offset 1;
  get_at (log n) offset.

Definition log_term (n : RaftNode) (index : LogIndex) : option Term :=
  if index =? snapshot_index n then Some (snapshot_term n)
  else e_term <$> entry_at n index.

Definition term_at (n : RaftNode) (index : LogIndex) : Term := default 0 (log_term n index).

Definition last_log_index (n : RaftNode) : LogIndex :=
  map_or (list.last (log n)) (snapshot_index n) e_index.
Definition last_log_term (n : RaftNode) : Term :=
  map_or (list.last (log n)) (snapshot_term n) e_term.

Definition node_members (n : RaftNode) : list NodeId :=
  nset_list (participants (effective_membership n)).

Definition known_leader (n : RaftNode) : option NodeId :=
  if is_leader n then Some (node_id n) else leader_hint n.

Definition leader_contact_round (n : RaftNode) : option N :=
  if is_leader n then Some (contact_round n) else None.

Definition committed_membership (n : RaftNode) : CommittedMembership :=
  default (genesis_membership n) (hs_membership (hard n)).

Definition voter_config (n : RaftNode) : VoterConfig := ms_voters (effective_membership n).

Definition self_quorum (n : RaftNode) : bool := has_quorum (voter_config n) {[node_id n]}.

Definition is_voter (n : RaftNode) (id : NodeId) : bool := config_contains (voter_config n) id.

(** ** Shared transitions *)

(** [read.rs]: cancel every pending read, in request order. *)
Definition reject_pending_reads (reason : ReadRejectReason) : Raft unit :=
  n ← get;
  modify (fun n => n <| pending_reads := ∅ |>);;
  emits (map (fun '(request_id, _) => ReadRejected request_id (leader_hint n) reason)
             (nmap_iter (pending_reads n))).

Definition become_follower : Raft unit :=
  modify (fun n => n <| outgoing_snapshots := ∅ |>
                     <| promotion_fence := None |>
                     <| advertisement_last := ∅ |>
                     <| contact_round := 0 |>
                     <| quorum_contacts := ∅ |>);;
  n ← get;
  when (negb (is_follower n))
    (modify (fun n => n <| role := Follower |>);;
     emit (RoleChanged "Follower" (current_term (hard n))));;
  reject_pending_reads LeadershipLost.

Definition reset_election_deadline : Raft unit :=
  modify (fun n =>
    let '(draw, rng') := range_inclusive (rng n) ELECTION_MIN_MS ELECTION_MAX_MS in
    n <| rng := rng' |> <| election_deadline_ms := saturating_add (now_ms n) draw |>).

(** One iteration of the [while] loop of [apply_committed]. *)
Definition apply_one : Raft unit :=
  n ← get;
  next ← add_u64 (last_applied n) 1;
  modify (fun n => n <| last_applied := next |>);;
  entry ← expect (entry_at n next);
  emit (Apply entry).

(** [while self.commit_index > self.last_applied]: the body advances
    [last_applied] by one and leaves [commit_index], so the loop runs
    [commit_index - last_applied] times. *)
Definition apply_committed : Raft unit :=
  n ← get;
  for_each (fun _ => apply_one)
    (replicate (N.to_nat (commit_index n - last_applied n)) tt).
