(* ===== verification/MembershipProtocol.v ===== *)
(** * [raft-core/src/membership_protocol.rs], configuration part

    Replay of configuration entries, recovery of the durable configuration, the
    admission predicates derived from it, and the commit path that keeps the
    committed and effective configurations in step with the log. *)
From S2P Require Import Prelude Rng Quorum Membership Types Node.
Local Open Scope N_scope.
Local Open Scope raft_scope.

(** ** Replay *)

Definition replay_entry (state : CommittedMembership) (entry : Entry)
  : Result CommittedMembership :=
  match e_command entry with
  | Configuration change => advanced state (e_index entry) (e_term entry) change
  | _ => Ok state
  end.

Fixpoint replay_all (state : CommittedMembership) (entries : list Entry)
  : Result CommittedMembership :=
  match entries with
  | [] => Ok state
  | entry :: rest => state' ← replay_entry state entry; replay_all state' rest
  end.

Definition replay (state : CommittedMembership) (entries : list Entry) (through : LogIndex)
  : Result CommittedMembership :=
  replay_all state (filter (fun entry => e_index entry <= through) entries).

Definition effective_after (state : CommittedMembership) (entries : list Entry)
    (committed : LogIndex) : Result MembershipState :=
  s ← replay state (filter (fun entry => committed < e_index entry) entries) u64_max;
  Ok (cm_state s).

(** ** Recovery *)

Record MembershipRecovery := mkMembershipRecovery {
  mr_committed : CommittedMembership;
  mr_effective : MembershipState;
  mr_commit_index : LogIndex;
  mr_refresh_hard : bool;
}.

Definition check_authority (hs : HardState) (authority : option CommittedMembership)
  : Result unit :=
  match authority with
  | None => Ok tt
  | Some a =>
      cm_validate a;;
      if current_term hs <? cm_term a then Err "membership term exceeds durable term" else Ok tt
  end.

Definition recover_membership (hs : HardState) (image : option SnapshotDescriptor)
    (entries : list Entry) (legacy_genesis : list NodeId) : Result MembershipRecovery :=
  let snapshot_index := map_or image 0 (fun i => last_included_index (metadata i)) in
  let snapshot_membership := image ≫= (fun i => sm_membership (metadata i)) in
  check_authority hs (hs_membership hs);;
  check_authority hs snapshot_membership;;
  let identity := match snapshot_membership with
                  | Some m => Some m | None => hs_membership hs end in
  genesis ← (match identity with
             | Some state => cm_bootstrap_with_group (ms_group_id (cm_state state))
                               (ms_genesis_voters (cm_state state))
             | None => cm_bootstrap legacy_genesis
             end);
  (match image with
   | Some i =>
       if is_none snapshot_membership
          && negb (eqb (members (metadata i)) (ms_genesis_voters (cm_state genesis)))
       then Err "legacy snapshot differs from durable genesis" else Ok tt
   | None => Ok tt
   end);;
  let base := default genesis snapshot_membership in
  selected ← (match hs_membership hs with
              | None => Ok base
              | Some hm =>
                  if is_consistent_extension_of base hm then Ok base
                  else if is_consistent_extension_of hm base then
                    let last := map_or (list.last entries) snapshot_index e_index in
                    if last <? cm_index hm
                    then Err "membership watermark lacks selected log suffix" else
                    reconstructed ← replay base entries (cm_index hm);
                    if negb (eqb reconstructed hm)
                    then Err "membership watermark contradicts selected snapshot or WAL"
                    else Ok hm
                  else Err "durable membership histories contradict"
              end);
  let commit_index := N.max snapshot_index (cm_index selected) in
  verified ← replay base entries commit_index;
  if negb (eqb verified selected)
  then Err "selected log has unrecorded committed configuration" else
  effective ← effective_after selected entries commit_index;
  let refresh_hard := negb (eqb (hs_membership hs) (Some selected))
                      && (negb (eqb (ms_group_id (cm_state selected)) LEGACY_GROUP_ID)
                          || negb (cm_index selected =? 0)) in
  Ok (mkMembershipRecovery selected effective commit_index refresh_hard).

(** ** Group envelopes *)

Definition is_group_message (m : RaftMessage) : bool :=
  match m with GroupMessage _ _ _ => true | _ => false end.

Definition unwrap_group_message (n : RaftNode) (message : RaftMessage) : option RaftMessage :=
  let known := cm_state (committed_membership n) in
  match message with
  | GroupMessage group_id genesis_voters inner =>
      if negb (eqb (ms_group_id known) LEGACY_GROUP_ID)
         && eqb group_id (ms_group_id known)
         && eqb genesis_voters (ms_genesis_voters known)
         && negb (is_group_message inner)
      then Some inner else None
  | message => if eqb (ms_group_id known) LEGACY_GROUP_ID then Some message else None
  end.

Definition wrap_group_effect (known : MembershipState) (e : Effect) : Effect :=
  match e with
  | Send to msg =>
      if is_group_message msg then e
      else Send to (GroupMessage (ms_group_id known) (ms_genesis_voters known) msg)
  | _ => e
  end.

Definition wrap_group_effects (n : RaftNode) (effects : list Effect) : list Effect :=
  let known := cm_state (committed_membership n) in
  if eqb (ms_group_id known) LEGACY_GROUP_ID then effects
  else map (wrap_group_effect known) effects.

(** ** Configuration at an index *)

Definition membership_base (n : RaftNode) : CommittedMembership :=
  default (genesis_membership n) (snapshot n ≫= (fun image => sm_membership (metadata image))).

Definition membership_at (n : RaftNode) (index : LogIndex) : Result CommittedMembership :=
  if index <? snapshot_index n then Err "configuration predates retained snapshot"
  else replay (membership_base n) (log n) index.

Definition valid_configuration_suffix (n : RaftNode) (entries : list Entry) : bool :=
  is_ok (replay (membership_base n) entries u64_max).

(** ** Admission *)

Definition on_membership_advertisement (from : NodeId) (term : Term)
    (configuration : CommittedMembership) : Raft unit :=
  n ← get;
  if (from =? node_id n)
     || (term <? current_term (hard n))
     || (term <? cm_term configuration)
     || negb (config_contains (ms_voters (cm_state configuration)) from)
     || negb (is_consistent_extension_of configuration (committed_membership n))
  then mret tt else
  (match ms_endpoints (cm_state configuration) !! from with
   | Some endpoints => emit (MembershipRouteHint from term endpoints)
   | None => mret tt
   end);;
  modify (fun n => n <| membership_advertisements :=
                          <[from := (term, configuration)]> (membership_advertisements n) |>).

Definition may_replicate_from (n : RaftNode) (from : NodeId) (term : Term) : bool :=
  is_voter n from
  || is_some_and (membership_advertisements n !! from)
       (fun '(at_, history) =>
          (at_ =? term) && is_consistent_extension_of history (committed_membership n)).

(** [(last_term, last_index) >= (term, index)], the tuple order. *)
Definition pair_ge (t1 i1 t2 i2 : N) : bool := (t2 <? t1) || ((t1 =? t2) && (i2 <=? i1)).

Definition may_vote_for (n : RaftNode) (from : NodeId) (term : Term) (prospective : bool)
    (last_index : LogIndex) (last_term : Term) : bool :=
  if is_voter n (node_id n) && is_voter n from then true else
  is_some_and (membership_advertisements n !! from)
    (fun '(at_, history) =>
       let expected := if prospective then checked_add at_ 1 else Some at_ in
       eqb expected (Some term)
       && config_contains (ms_voters (cm_state history)) (node_id n)
       && config_contains (ms_voters (cm_state history)) from
       && pair_ge last_term last_index (cm_term history) (cm_index history)
       && is_consistent_extension_of history (committed_membership n)).

Definition advertise_membership (to : NodeId) : Raft unit :=
  n ← get;
  configuration ← expect_ok (membership_at n (last_log_index n));
  when (negb (eqb (ms_group_id (cm_state configuration)) LEGACY_GROUP_ID)
        && config_contains (ms_voters (cm_state configuration)) (node_id n))
    (emit (Send to (MembershipAdvertisement (current_term (hard n)) configuration))).

Definition advertise_replication_membership (to : NodeId) : Raft unit :=
  n ← get;
  if eqb (ms_group_id (cm_state (committed_membership n))) LEGACY_GROUP_ID then mret tt else
  configuration ← expect_ok (membership_at n (last_log_index n));
  match role n with
  | Leader _ match_index =>
      if (cm_index configuration =? 0)
         || (cm_index configuration <=? default 0 (match_index !! to))
      then mret tt else
      if is_some_and (advertisement_last n !! to)
           (fun '(term, index, at_) =>
              (term =? current_term (hard n)) && (index =? cm_index configuration)
              && (saturating_sub (now_ms n) at_ <? CHECK_QUORUM_MS))
      then mret tt else
      modify (fun n => n <| advertisement_last :=
                <[to := (current_term (hard n), cm_index configuration, now_ms n)]>
                  (advertisement_last n) |>);;
      advertise_membership to
  | _ => mret tt
  end.

Definition valid_snapshot_membership (n : RaftNode) (descriptor : SnapshotDescriptor) : bool :=
  if eqb (snapshot n) (Some descriptor) then true else
  match sm_membership (metadata descriptor) with
  | Some incoming => is_consistent_extension_of incoming (committed_membership n)
  | None =>
      eqb (ms_group_id (cm_state (committed_membership n))) LEGACY_GROUP_ID
      && eqb (members (metadata descriptor)) (node_members n)
  end.

Definition compaction_membership_matches (n : RaftNode) (descriptor : SnapshotDescriptor)
  : bool :=
  match membership_at n (last_included_index (metadata descriptor)) with
  | Err _ => false
  | Ok expected =>
      match sm_membership (metadata descriptor) with
      | Some actual => eqb actual expected
      | None =>
          eqb (ms_group_id (cm_state expected)) LEGACY_GROUP_ID
          && eqb (members (metadata descriptor)) (ms_genesis_voters (cm_state expected))
      end
  end.

(** ** Commit path *)

(** [retain] on one progress map, then [entry(peer).or_insert(d)] for every peer. *)
Definition rebuild_progress (ps : list NodeId) (d : LogIndex) (m : gmap NodeId LogIndex)
  : gmap NodeId LogIndex :=
  fold_left (fun m peer => match m !! peer with Some _ => m | None => <[peer := d]> m end) ps
    (filter (fun '(id, _) => id ∈ ps) m).

Definition replication_peers (n : RaftNode) : list NodeId :=
  filter (fun id => id <> node_id n)
    (nset_list (participants (effective_membership n) ∪ ms_retired (effective_membership n))).

Definition update_replication_peers_of (n : RaftNode) : RaftNode :=
  let n := n <| peers := replication_peers n |> in
  match role n with
  | Leader next_index match_index =>
      n <| role := Leader (rebuild_progress (peers n) (saturating_add (last_log_index n) 1)
                             next_index)
                          (rebuild_progress (peers n) 0 match_index) |>
  | _ => n
  end.

Definition update_replication_peers : Raft unit := modify update_replication_peers_of.

Definition refresh_effective_membership : Raft unit :=
  n ← get;
  next ← expect_ok (effective_after (committed_membership n) (log n) (commit_index n));
  when (is_leader n
        && negb (config_contains (ms_voters next) (node_id n))
        && negb (config_contains (ms_voters (cm_state (committed_membership n))) (node_id n)))
    become_follower;;
  if eqb next (effective_membership n) then mret tt else
  let voters_changed := negb (eqb (ms_voters next) (voter_config n)) in
  modify (fun n => n <| effective_membership := next |>);;
  update_replication_peers;;
  when voters_changed
    (reject_pending_reads LeadershipLost;;
     n ← get;
     (if negb (is_leader n) then become_follower
      else match checked_add (contact_round n) 1 with
           | Some round =>
               modify (fun n => n <| contact_round := round |>
                                  <| quorum_contacts := {[node_id n]} |>
                                  <| quorum_deadline_ms :=
                                       saturating_add (now_ms n) CHECK_QUORUM_MS |>
                                  <| heartbeat_due_ms := now_ms n |>)
           | None => become_follower
           end);;
     reset_election_deadline).

Definition advance_commit (index : LogIndex) : Raft unit :=
  n ← get;
  if index <=? commit_index n then mret tt else
  next ← expect_ok (membership_at n index);
  let changed := negb (eqb next (committed_membership n)) in
  when changed
    (modify (fun n => n <| hard := hard n <| hs_membership := Some next |> |>);;
     n ← get;
     emit (PersistHardState (hard n)));;
  modify (fun n => n <| commit_index := index |>);;
  refresh_effective_membership;;
  apply_committed;;
  when changed (emit (MembershipChanged next)).

Definition quorum_commit_candidate (n : RaftNode) : option LogIndex :=
  match role n with
  | Leader _ match_index =>
      let matched := <[node_id n := last_log_index n]> match_index in
      let quorum_index := replicated_index (voter_config n) matched in
      e_index <$> List.find (fun entry =>
          (commit_index n <? e_index entry) && (e_index entry <=? quorum_index)
          && (e_term entry =? current_term (hard n))) (reverse (log n))
  | _ => None
  end.

(** ** Administrative changes *)

Definition append_configuration (change : ConfigurationEntry) : Raft (option LogIndex) :=
  n ← get;
  match option_filter (fun index => index <? u64_max) (checked_add (last_log_index n) 1) with
  | None => mret None
  | Some index =>
      let entry := mkEntry index (current_term (hard n)) (Configuration change) in
      modify (fun n => n <| log := log n ++ [entry] |>);;
      emit (PersistLogEntries None [entry]);;
      refresh_effective_membership;;
      n ← get;
      (match quorum_commit_candidate n with
       | Some committed => advance_commit committed
       | None => mret tt
       end);;
      mret (Some index)
  end.

Definition has_uncommitted_configuration (n : RaftNode) : bool :=
  existsb (fun entry => (commit_index n <? e_index entry) && is_configuration (e_command entry))
    (log n).

Definition reject_admin (n : RaftNode) (reason : string) : MembershipOutcome :=
  MRejected reason (leader_hint n).

(** The learner catch-up fence of a voter change: the fence, or a rejection. *)
Definition promotion_check (request_id : string) (operation : AdminOperation)
    (voters : list NodeId) : Raft (option string) :=
  n ← get;
  fence ← (match promotion_fence n with
           | Some (id, prior, fence) =>
               if eqb id request_id then
                 if eqb prior operation then mret (Some fence) else mret None
               else
                 let fence := last_log_index n in
                 modify (fun n => n <| promotion_fence := Some (request_id, operation, fence) |>);;
                 mret (Some fence)
           | None =>
               let fence := last_log_index n in
               modify (fun n => n <| promotion_fence := Some (request_id, operation, fence) |>);;
               mret (Some fence)
           end : Raft (option LogIndex));
  match fence with
  | None => mret (Some "request_payload_changed"%string)
  | Some fence =>
      match role n with
      | Leader _ match_index =>
          if existsb (fun id =>
               negb (is_voter n id)
               && ((default 0 (match_index !! id) <? fence)
                   || negb (bool_decide (id ∈ quorum_contacts n)))) voters
          then mret (Some "learner_not_caught_up"%string) else mret None
      | _ => panic
      end
  end.

Definition find_request (n : RaftNode) (request_id : string) : option (Entry * ConfigurationEntry) :=
  entry ← List.find (fun entry => match e_command entry with
                                  | Configuration change => eqb (ce_request_id change) request_id
                                  | _ => false
                                  end) (log n);
  match e_command entry with
  | Configuration change => Some (entry, change)
  | _ => None
  end.

Definition admit_membership (request_id : string) (operation : AdminOperation)
  : Raft MembershipOutcome :=
  n ← get;
  if negb (is_leader n) then mret (reject_admin n "not_leader") else
  match ms_records (cm_state (committed_membership n)) !! request_id with
  | Some record =>
      mret (if eqb (ar_operation record) operation then MRecorded record
            else reject_admin n "request_payload_changed")
  | None =>
  match find_request n request_id with
  | Some (entry, change) =>
      mret (if eqb (ce_operation change) operation then MAccepted (e_index entry)
            else reject_admin n "request_payload_changed")
  | None =>
  if has_uncommitted_configuration n
  then mret (reject_admin n "membership_change_pending") else
  if (commit_index n =? 0)
     || negb (eqb (log_term n (commit_index n)) (Some (current_term (hard n))))
  then mret (reject_admin n "current_term_not_committed") else
  match first_phase (cm_state (committed_membership n)) request_id operation with
  | Err reason => mret (reject_admin n reason)
  | Ok phase =>
      refused ← (match operation with
                 | SetVoters voters => promotion_check request_id operation voters
                 | _ => mret None
                 end);
      match refused with
      | Some reason => mret (reject_admin n reason)
      | None =>
          appended ← append_configuration (mkConfigurationEntry request_id operation phase);
          match appended with
          | Some index =>
              modify (fun n => n <| promotion_fence := None |>);;
              mret (MAccepted index)
          | None => n ← get; mret (reject_admin n "log_index_exhausted")
          end
      end
  end end end.

Definition on_membership_change (request_id : string) (operation : AdminOperation) : Raft unit :=
  outcome ← admit_membership request_id operation;
  emit (MembershipResult request_id outcome).

Definition maybe_finalize_membership : Raft unit :=
  n ← get;
  if negb (is_leader n) || has_uncommitted_configuration n then mret tt else
  match pending (cm_state (committed_membership n)) with
  | None => mret tt
  | Some (id, record) =>
      append_configuration (mkConfigurationEntry id (ar_operation record) PhFinal);;
      mret tt
  end.

(** ** Bootstrap *)

(** [Err] carries the refusal; the node is unchanged then. *)
Definition initialize_group (n : RaftNode) (group_id : string) (genesis_voters : list NodeId)
  : Result (RaftNode * list Effect) :=
  genesis ← cm_bootstrap_with_group group_id genesis_voters;
  if eqb (ms_group_id (cm_state genesis)) LEGACY_GROUP_ID then Err "explicit group required" else
  match hs_membership (hard n) with
  | Some existing =>
      if eqb (ms_group_id (cm_state existing)) (ms_group_id (cm_state genesis))
         && eqb (ms_genesis_voters (cm_state existing)) (ms_genesis_voters (cm_state genesis))
      then Ok (n, []) else Err "persisted group identity cannot be changed"
  | None =>
      if negb (now_ms n =? 0) || negb (election_deadline_ms n =? 0) || negb (is_follower n)
         || existsb (fun entry => is_configuration (e_command entry)) (log n)
         || ((negb (bool_decide (log n = [])) || is_some (snapshot n))
             && negb (eqb (ms_genesis_voters (cm_state (genesis_membership n)))
                          (ms_genesis_voters (cm_state genesis))))
      then Err "group migration requires a pre-service legacy configuration boundary" else
      let n := n <| genesis_membership := genesis |>
                 <| hard := hard n <| hs_membership := Some genesis |> |>
                 <| effective_membership := cm_state genesis |> in
      let n := update_replication_peers_of n in
      Ok (n, [PersistHardState (hard n)])
  end.

(** Recovery runs as one ordered effect batch before other inputs. *)
Definition on_recover : Raft unit :=
  n ← get;
  if negb (recovery_pending n) then mret tt else
  modify (fun n => n <| recovery_pending := false |>);;
  when (recovery_refresh_hard n)
    (emit (PersistHardState (hard n));;
     modify (fun n => n <| recovery_refresh_hard := false |>));;
  apply_committed.
