(* ===== verification/SnapshotTransfer.v ===== *)
(** * [raft-core/src/snapshot.rs]

    Compaction, publication, and the chunked transfer of a snapshot image:
    the sender's and the receiver's half of the protocol.  The handler of the
    receiver's acknowledgement also drives replication and is in
    [Replication]. *)
From S2P Require Import Prelude Rng Quorum Membership Types Node MembershipProtocol.
Local Open Scope N_scope.
Local Open Scope raft_scope.

Definition valid_chunk (descriptor : SnapshotDescriptor) (offset len : N) (done : bool) : bool :=
  is_ok (descriptor_validate descriptor)
  && (offset <? total_len descriptor)
  && (offset mod MAX_SNAPSHOT_CHUNK_BYTES =? 0)
  && (len =? N.min (total_len descriptor - offset) MAX_SNAPSHOT_CHUNK_BYTES)
  && Bool.eqb done (offset + len =? total_len descriptor).

Definition cancel_incoming_snapshot : Raft unit :=
  n ← get;
  match incoming_snapshot n with
  | Some active =>
      modify (fun n => n <| incoming_snapshot := None |>);;
      emit (CancelSnapshot (is_transfer active))
  | None => mret tt
  end.

Definition snapshot_reject (reason : string) : Raft unit := emit (SnapshotRejected reason).

Definition retained_suffix (n : RaftNode) (descriptor : SnapshotDescriptor) : list Entry :=
  let boundary := last_included_index (metadata descriptor) in
  if eqb (log_term n boundary) (Some (last_included_term (metadata descriptor)))
  then filter (fun entry => boundary < e_index entry) (log n)
  else [].

Definition on_compact (descriptor : SnapshotDescriptor) : Raft unit :=
  n ← get;
  let boundary := last_included_index (metadata descriptor) in
  if is_some (publishing_snapshot n) || is_some (incoming_snapshot n)
  then snapshot_reject "snapshot_busy" else
  if is_err (descriptor_validate descriptor)
     || negb (compaction_membership_matches n descriptor)
     || (boundary <=? snapshot_index n)
     || (last_applied n <? boundary)
     || (commit_index n <? boundary)
     || negb (eqb (log_term n boundary) (Some (last_included_term (metadata descriptor))))
  then snapshot_reject "invalid_compaction_boundary" else
  let retained := retained_suffix n descriptor in
  modify (fun n => n <| publishing_snapshot :=
                          Some (mkPublishingSnapshot None descriptor retained 0) |>);;
  emit (PublishSnapshot None descriptor retained).

Definition snapshot_reply (transfer : SnapshotTransferId) (next_offset : N)
    (accepted installed : bool) (match_index : LogIndex) (round : N) : Raft unit :=
  n ← get;
  emit (Send (st_leader_id transfer)
          (InstallSnapshotReply (current_term (hard n)) transfer next_offset match_index
             accepted installed round)).

Definition on_snapshot_published (transfer : option SnapshotTransferId)
    (descriptor : SnapshotDescriptor) : Raft unit :=
  n ← get;
  match publishing_snapshot n with
  | None => mret tt
  | Some publication =>
      if negb (eqb (ps_transfer publication) transfer)
         || negb (eqb (ps_descriptor publication) descriptor)
      then mret tt else
      modify (fun n => n <| publishing_snapshot := None |>
                         <| log := ps_retained publication |>
                         <| snapshot := Some descriptor |>
                         <| outgoing_snapshots := ∅ |>);;
      match transfer with
      | None => mret tt
      | Some transfer =>
          (match sm_membership (metadata descriptor) with
           | Some membership =>
               n ← get;
               when (negb (eqb (hs_membership (hard n)) (Some membership)))
                 (modify (fun n => n <| hard := hard n <| hs_membership := Some membership |> |>);;
                  n ← get;
                  emit (PersistHardState (hard n)))
           | None => mret tt
           end);;
          modify (fun n => n <| commit_index := last_included_index (metadata descriptor) |>);;
          refresh_effective_membership;;
          modify (fun n => n <| last_applied := commit_index n |>
                             <| incoming_snapshot := None |>);;
          emit (ApplySnapshot descriptor);;
          snapshot_reply transfer (total_len descriptor) true true
            (last_included_index (metadata descriptor)) (ps_contact_round publication)
      end
  end.

Definition send_snapshot_chunk (to : NodeId) : Raft unit :=
  n ← get;
  if negb (is_leader n) then mret tt else
  match snapshot n with
  | None => mret tt
  | Some descriptor =>
      created ← (if is_some (outgoing_snapshots n !! to) then mret true else
                 match checked_add (snapshot_sequence n) 1 with
                 | None => snapshot_reject "snapshot_transfer_exhausted";; mret false
                 | Some sequence =>
                     modify (fun n => n
                       <| snapshot_sequence := sequence |>
                       <| outgoing_snapshots :=
                            <[to := mkOutgoingSnapshot
                                      (mkSnapshotTransferId (node_id n) (current_term (hard n))
                                         (campaign_incarnation n) sequence)
                                      descriptor 0 false None]> (outgoing_snapshots n) |>);;
                     mret true
                 end : Raft bool);
      if negb created then mret tt else
      n ← get;
      active ← expect (outgoing_snapshots n !! to);
      if os_reading active then mret tt else
      modify (fun n => n <| outgoing_snapshots :=
                              <[to := active <| os_reading := true |>]> (outgoing_snapshots n) |>);;
      emit (ReadSnapshotChunk to (os_transfer active) (os_descriptor active) (os_offset active)
              MAX_SNAPSHOT_CHUNK_BYTES)
  end.

Definition on_snapshot_chunk_read (to : NodeId) (transfer : SnapshotTransferId)
    (descriptor : SnapshotDescriptor) (offset : N) (data : list N) : Raft unit :=
  n ← get;
  if negb (is_leader n) || negb (st_term transfer =? current_term (hard n)) then mret tt else
  match outgoing_snapshots n !! to with
  | None => mret tt
  | Some active =>
      if negb (eqb transfer (os_transfer active))
         || negb (eqb descriptor (os_descriptor active))
         || negb (offset =? os_offset active)
         || negb (os_reading active)
      then mret tt else
      let active := active <| os_reading := false |> in
      modify (fun n => n <| outgoing_snapshots := <[to := active]> (outgoing_snapshots n) |>);;
      let done := eqb (checked_add offset (len64 data)) (Some (total_len descriptor)) in
      if negb (valid_chunk descriptor offset (len64 data) done)
      then snapshot_reject "invalid_snapshot_read" else
      end_ ← add_u64 offset (len64 data);
      modify (fun n => n <| outgoing_snapshots :=
                <[to := active <| os_sent_end := Some end_ |>]> (outgoing_snapshots n) |>);;
      emit (Send to (InstallSnapshot transfer descriptor offset data done (contact_round n)))
  end.

(** A transfer attempt older than the last one accepted, or a reused attempt
    with different content. *)
Definition transfer_is_stale (n : RaftNode) (transfer : SnapshotTransferId)
    (descriptor : SnapshotDescriptor) : bool :=
  match last_snapshot_transfer n with
  | None => false
  | Some (last, last_descriptor) =>
      let older := (st_term transfer <? st_term last)
        || ((st_term transfer =? st_term last)
            && (negb (st_leader_id transfer =? st_leader_id last)
                || negb (st_incarnation transfer =? st_incarnation last)
                || (st_sequence transfer <? st_sequence last)
                || (last_included_index (metadata descriptor)
                    <? last_included_index (metadata last_descriptor)))) in
      older || (eqb transfer last && negb (eqb descriptor last_descriptor))
  end.

Definition on_install_snapshot (transfer : SnapshotTransferId) (descriptor : SnapshotDescriptor)
    (offset : N) (data : list N) (done : bool) (round : N) : Raft unit :=
  n ← get;
  let refuse := snapshot_reply transfer 0 false false (last_log_index n) 0 in
  if st_term transfer <? current_term (hard n) then refuse else
  let same_image := eqb (snapshot n) (Some descriptor) in
  let boundary := last_included_index (metadata descriptor) in
  if is_some (publishing_snapshot n)
     || (negb same_image && ((boundary <=? last_applied n) || (boundary <? commit_index n)))
  then refuse else
  if transfer_is_stale n transfer descriptor then refuse else
  let same_transfer := is_some_and (incoming_snapshot n)
    (fun active => eqb (is_transfer active) transfer && eqb (is_descriptor active) descriptor) in
  if negb same_transfer && negb (offset =? 0) && negb same_image then refuse else
  when (negb same_transfer)
    (cancel_incoming_snapshot;;
     modify (fun n => n <| last_snapshot_transfer := Some (transfer, descriptor) |>
                        <| incoming_snapshot :=
                             Some (mkIncomingSnapshot transfer descriptor 0 None) |>));;
  n ← get;
  active ← expect (incoming_snapshot n);
  if is_some (is_pending active) || ((is_next_offset active <? offset) && negb same_image)
  then refuse else
  end_ ← add_u64 offset (len64 data);
  modify (fun n => n <| incoming_snapshot :=
                          Some (active <| is_pending := Some (offset, end_, round) |>) |>);;
  become_follower;;
  reset_election_deadline;;
  modify (fun n => n <| leader_hint := Some (st_leader_id transfer) |>
                     <| last_leader_contact_ms := Some (now_ms n) |>);;
  emit (StageSnapshotChunk transfer descriptor offset data done).

(** The staged prefix is complete: acknowledge an installed image, refuse one
    the log has outrun, or publish. *)
Definition finish_staging (transfer : SnapshotTransferId) (descriptor : SnapshotDescriptor)
    (next_offset round : N) : Raft unit :=
  n ← get;
  let boundary := last_included_index (metadata descriptor) in
  if eqb (snapshot n) (Some descriptor) then
    modify (fun n => n <| incoming_snapshot := None |>);;
    snapshot_reply transfer next_offset true true boundary round
  else if (boundary <=? last_applied n) || (boundary <? commit_index n) then
    cancel_incoming_snapshot;;
    snapshot_reply transfer next_offset false false (last_log_index n) 0
  else
    let retained := retained_suffix n descriptor in
    modify (fun n => n <| publishing_snapshot :=
              Some (mkPublishingSnapshot (Some transfer) descriptor retained round) |>);;
    emit (PublishSnapshot (Some transfer) descriptor retained).

Definition on_snapshot_chunk_staged (transfer : SnapshotTransferId)
    (descriptor : SnapshotDescriptor) (offset : N) (result : SnapshotStageResult) : Raft unit :=
  n ← get;
  match incoming_snapshot n with
  | None => mret tt
  | Some active =>
      if negb (eqb (is_transfer active) transfer)
         || negb (eqb (is_descriptor active) descriptor)
         || negb (st_term transfer =? current_term (hard n))
      then mret tt else
      match is_pending active with
      | None => mret tt
      | Some (expected_offset, expected_end, round) =>
          if negb (expected_offset =? offset) then mret tt else
          let previous_next := is_next_offset active in
          let active := active <| is_pending := None |> in
          modify (fun n => n <| incoming_snapshot := Some active |>);;
          match result with
          | Rejected => snapshot_reply transfer previous_next false false (last_log_index n) 0
          | Accepted next_offset complete =>
              let expected_next :=
                if eqb (snapshot n) (Some descriptor) then total_len descriptor
                else N.max previous_next expected_end in
              if negb (next_offset =? expected_next)
                 || (total_len descriptor <? next_offset)
                 || negb (Bool.eqb complete (next_offset =? total_len descriptor))
                 || (negb complete && negb (next_offset mod MAX_SNAPSHOT_CHUNK_BYTES =? 0))
              then
                cancel_incoming_snapshot;;
                snapshot_reply transfer 0 false false (last_log_index n) 0
              else
                modify (fun n => n <| incoming_snapshot :=
                                        Some (active <| is_next_offset := next_offset |>) |>);;
                if negb complete
                then snapshot_reply transfer next_offset true false (last_log_index n) round
                else finish_staging transfer descriptor next_offset round
          end
      end
  end.
