(* ===== verification/Replication.v ===== *)
(** * [raft-core/src/replication.rs]

    Append validation, the commitment rule, leader broadcast, client
    proposals, the follower's accept path, and the leader's progress tracking;
    also [on_install_snapshot_reply] of [snapshot.rs], which resumes
    replication. *)
From S2P Require Import Prelude Rng Quorum Membership Types Node MembershipProtocol.
From S2P Require Import SnapshotTransfer.
Local Open Scope N_scope.
Local Open Scope raft_scope.

(** ** Pure rules *)

(** The loop of [validate_append_entries] from position [offset]. *)
Fixpoint validate_entries (message_term prev_log_index offset previous_term : N)
    (entries : list Entry) : bool :=
  match entries with
  | [] => true
  | entry :: rest =>
      match checked_add prev_log_index 1 ≫= (fun v => checked_add v offset) with
      | None => false
      | Some expected =>
          if negb (e_index entry =? expected) || (e_term entry <? previous_term)
             || (message_term <? e_term entry)
          then false
          else validate_entries message_term prev_log_index (offset + 1) (e_term entry) rest
      end
  end.

Definition validate_append_entries (message_term : Term) (prev_log_index : LogIndex)
    (prev_log_term : Term) (entries : list Entry) : option LogIndex :=
  if message_term <? prev_log_term then None else
  last_index ← checked_add prev_log_index (len64 entries);
  if validate_entries message_term prev_log_index 0 prev_log_term entries
  then Some last_index else None.

(** The loop of [commit_advance] over the log from its end. *)
Fixpoint commit_scan (current current_term : N) (match_indexes : list LogIndex)
    (rev_log : list Entry) : option LogIndex :=
  match rev_log with
  | [] => None
  | entry :: rest =>
      if current <? e_index entry then
        let replicated := length (filter (fun m => e_index entry <= m) match_indexes) in
        if (length match_indexes / 2 + 1 <=? replicated)%nat && (e_term entry =? current_term)
        then Some (e_index entry)
        else commit_scan current current_term match_indexes rest
      else None
  end.

Definition commit_advance (current current_term : N) (entries : list Entry)
    (match_indexes : list LogIndex) : option LogIndex :=
  commit_scan current current_term match_indexes (reverse entries).

(** ** Leader broadcast *)

(** The entries of [log[from..to]], [to = min(from + MAX_APPEND_ENTRIES, len)]. *)
Definition append_batch (entries : list Entry) (from : N) : list Entry :=
  let to := N.min (saturating_add from MAX_APPEND_ENTRIES) (len64 entries) in
  if from <=? to then take (N.to_nat (to - from)) (drop (N.to_nat from) entries) else [].

Definition send_append_to (next_index : gmap NodeId LogIndex) (peer : NodeId) : Raft unit :=
  advertise_replication_membership peer;;
  n ← get;
  let next := map_or (next_index !! peer) (saturating_add (last_log_index n) 1) (fun v => v) in
  if next <=? snapshot_index n then send_snapshot_chunk peer else
  modify (fun n => n <| outgoing_snapshots := delete peer (outgoing_snapshots n) |>);;
  prev_log_index ← sub_u64 next 1;
  from ← sub_u64 prev_log_index (snapshot_index n);
  emit (Send peer (AppendEntries (current_term (hard n)) (node_id n) prev_log_index
                     (term_at n prev_log_index) (append_batch (log n) from)
                     (commit_index n) (contact_round n))).

Definition send_append_entries : Raft unit :=
  n ← get;
  match role n with
  | Leader next_index _ => for_each (send_append_to next_index) (peers n)
  | _ => mret tt
  end.

(** ** Client proposals *)

Fixpoint number_entries (index : LogIndex) (term : Term) (commands : list Command) : list Entry :=
  match commands with
  | [] => []
  | command :: rest => mkEntry index term command :: number_entries (index + 1) term rest
  end.

Definition on_client_propose_batch (commands : list Command) : Raft unit :=
  if bool_decide (commands = []) then mret tt else
  n ← get;
  let last := last_log_index n in
  let final_index :=
    option_filter (fun index => index <? u64_max) (checked_add last (len64 commands)) in
  if negb (is_leader n) || negb (is_voter n (node_id n))
     || existsb is_configuration commands
     || (MAX_PROPOSAL_BATCH <? len64 commands)
     || is_none final_index
  then emits (map (fun _ => ProposeRejected (leader_hint n)) commands) else
  let entries := number_entries (last + 1) (current_term (hard n)) commands in
  modify (fun n => n <| log := log n ++ entries |>);;
  emit (PersistLogEntries None entries);;
  emits (map (fun entry => ProposeAccepted (e_index entry)) entries);;
  n ← get;
  when (self_quorum n) (index ← expect final_index; advance_commit index).

Definition on_client_propose (command : Command) : Raft unit :=
  on_client_propose_batch [command].

(** ** The follower's accept path *)

Definition append_conflict_hint (n : RaftNode) (rejected : LogIndex)
  : Raft (option AppendConflictHint) :=
  let term := log_term n rejected in
  match term with
  | Some t =>
      if t =? 0 then mret None else
      if snapshot_term n =? t
      then mret (Some (mkAppendConflictHint rejected term (snapshot_index n)))
      else
        first ← expect (log n !! partition_point (fun entry => e_term entry <? t) (log n));
        mret (Some (mkAppendConflictHint rejected term (e_index first)))
  | None =>
      match checked_add (last_log_index n) 1 with
      | Some first => mret (Some (mkAppendConflictHint rejected term first))
      | None => mret None
      end
  end.

(** One payload entry against the candidate log. *)
Definition candidate_step (base : LogIndex) (candidate : list Entry) (entry : Entry)
  : Raft (list Entry) :=
  offset ← sub_u64 (e_index entry) base;
  offset ← sub_u64 offset 1;
  if is_some_and (get_at candidate offset) (fun old => e_term old =? e_term entry)
  then mret candidate
  else mret (truncate offset candidate ++ [entry]).

(** R13: one payload entry against the node's log. *)
Definition append_step (acc : option LogIndex * list Entry) (entry : Entry)
  : Raft (option LogIndex * list Entry) :=
  let '(truncate_from, appended) := acc in
  n ← get;
  if last_log_index n <? e_index entry then mret (truncate_from, appended ++ [entry])
  else if term_at n (e_index entry) =? e_term entry then mret (truncate_from, appended)
  else
    offset ← sub_u64 (e_index entry) (snapshot_index n);
    offset ← sub_u64 offset 1;
    modify (fun n => n <| log := truncate offset (log n) |>);;
    mret (Some (e_index entry), appended ++ [entry]).

Definition append_reply (leader_id : NodeId) (success : bool) (match_index : LogIndex)
    (round : N) (conflict : option AppendConflictHint) : Raft unit :=
  n ← get;
  emit (Send leader_id (AppendEntriesReply (current_term (hard n)) success match_index round
                          conflict)).

(** The accepting half of [on_append_entries], after every refusal. *)
Definition accept_entries (leader_id : NodeId) (entries : list Entry)
    (payload_last_index leader_commit round : N) : Raft unit :=
  result ← fold_each append_step (None, []) entries;
  let '(truncate_from, appended) := result in
  when (negb (bool_decide (appended = [])))
    (modify (fun n => n <| log := log n ++ appended |>);;
     emit (PersistLogEntries truncate_from appended));;
  let new_commit := N.min leader_commit payload_last_index in
  n ← get;
  (if commit_index n <? new_commit then advance_commit new_commit
   else refresh_effective_membership);;
  append_reply leader_id true payload_last_index round None.

Definition on_append_entries (term : Term) (leader_id : NodeId) (prev_log_index : LogIndex)
    (prev_log_term : Term) (entries : list Entry) (payload_last_index : LogIndex)
    (leader_commit : LogIndex) (round : N) : Raft unit :=
  n ← get;
  if term <? current_term (hard n)
  then append_reply leader_id false (last_log_index n) round None else
  become_follower;;
  reset_election_deadline;;
  modify (fun n => n <| leader_hint := Some leader_id |>
                     <| last_leader_contact_ms := Some (now_ms n) |>);;
  n ← get;
  if prev_log_index <? snapshot_index n then
    emit (Send leader_id (CompactedPrefix (current_term (hard n)) (snapshot_index n)
                            (snapshot_term n) round))
  else if negb (eqb (log_term n prev_log_index) (Some prev_log_term)) then
    conflict ← append_conflict_hint n prev_log_index;
    append_reply leader_id false (last_log_index n) round conflict
  else if existsb (fun entry => (e_index entry <=? commit_index n)
                                && negb (eqb (log_term n (e_index entry)) (Some (e_term entry))))
            entries then
    append_reply leader_id false (last_log_index n) round None
  else
    candidate ← fold_each (candidate_step (snapshot_index n)) (log n) entries;
    if negb (valid_configuration_suffix n candidate)
    then append_reply leader_id false (last_log_index n) 0 None
    else accept_entries leader_id entries payload_last_index leader_commit round.

(** ** The leader's progress tracking *)

Definition last_index_in_term (n : RaftNode) (term : Term) : option LogIndex :=
  let end_ := partition_point (fun entry => e_term entry <=? term) (log n) in
  let in_snapshot := if snapshot_term n =? term then Some (snapshot_index n) else None in
  match end_ with
  | O => in_snapshot
  | S i => match log n !! i with
           | Some entry => if e_term entry =? term then Some (e_index entry) else in_snapshot
           | None => in_snapshot
           end
  end.

Definition hint_is_valid (n : RaftNode) (term : Term) (success : bool) (match_index : LogIndex)
    (hint : AppendConflictHint) : bool :=
  negb success && (0 <? first_index hint) && (first_index hint <=? rejected_index hint)
  && match h_term hint with
     | Some conflict_term =>
         (0 <? conflict_term) && (conflict_term <=? term)
         && (rejected_index hint <=? match_index)
         && negb (eqb (log_term n (rejected_index hint)) (Some conflict_term))
     | None => eqb (checked_add match_index 1) (Some (first_index hint))
     end.

Definition hinted_next (n : RaftNode) (hint : AppendConflictHint) : LogIndex :=
  map_or (h_term hint ≫= last_index_in_term n) (first_index hint)
    (fun index => saturating_add index 1).

(** The cursor moves of one accepted reply: new [next], new [matched]. *)
Definition progress_after (success : bool) (match_index : LogIndex) (hinted : option LogIndex)
    (next matched : LogIndex) : LogIndex * LogIndex :=
  if success then
    let matched := N.max matched match_index in (saturating_add matched 1, matched)
  else
    let floor := N.max (saturating_add matched 1) 1 in
    let candidate := default (saturating_add match_index 1) hinted in
    (N.max (N.min candidate (saturating_sub next 1)) floor, matched).

Definition on_append_entries_reply (from : NodeId) (term : Term) (success : bool)
    (match_index : LogIndex) (round : N) (conflict : option AppendConflictHint) : Raft unit :=
  n ← get;
  if negb (term =? current_term (hard n)) then mret tt else
  if success && (last_log_index n <? match_index) then mret tt else
  if is_some_and conflict (fun hint => negb (hint_is_valid n term success match_index hint))
  then mret tt else
  let hinted := hinted_next n <$> conflict in
  match role n with
  | Leader next_index peer_match =>
      match next_index !! from, peer_match !! from with
      | Some next, Some matched =>
          if is_some_and conflict (fun hint =>
               negb (rejected_index hint =? saturating_sub next 1)
               || (rejected_index hint <=? matched))
          then mret tt else
          when (negb (round =? 0) && (round =? contact_round n))
            (modify (fun n => n <| quorum_contacts := quorum_contacts n ∪ {[from]} |>));;
          let '(next', matched') := progress_after success match_index hinted next matched in
          modify (fun n => n <| role := Leader (<[from := next']> next_index)
                                               (<[from := matched']> peer_match) |>);;
          when success
            (n ← get;
             match quorum_commit_candidate n with
             | Some index => advance_commit index
             | None => mret tt
             end)
      | _, _ => mret tt
      end
  | _ => mret tt
  end.

(** [snapshot.rs]: the sender handles a receiver's acknowledgement. *)
Definition on_install_snapshot_reply (from : NodeId) (term : Term)
    (transfer : SnapshotTransferId) (next_offset : N) (match_index : LogIndex)
    (accepted installed : bool) (round : N) : Raft unit :=
  n ← get;
  if negb (term =? current_term (hard n)) || negb (st_term transfer =? term)
     || negb (is_leader n)
  then mret tt else
  match outgoing_snapshots n !! from with
  | None => mret tt
  | Some active =>
      if negb (eqb (os_transfer active) transfer) || is_none (os_sent_end active)
      then mret tt else
      let boundary := last_included_index (metadata (os_descriptor active)) in
      if negb accepted then
        when ((boundary <=? match_index) && (match_index <=? last_log_index n))
          (modify (fun n =>
             match role n with
             | Leader next_index m =>
                 n <| role := Leader (<[from := saturating_add match_index 1]> next_index) m |>
             | _ => n
             end));;
        modify (fun n => n <| outgoing_snapshots := delete from (outgoing_snapshots n) |>)
      else
      let valid := if installed
        then (next_offset =? total_len (os_descriptor active)) && (match_index =? boundary)
        else eqb (Some next_offset) (os_sent_end active)
             && (next_offset <? total_len (os_descriptor active))
             && (os_offset active <? next_offset) in
      if negb valid then mret tt else
      when (negb (round =? 0) && (round =? contact_round n))
        (modify (fun n => n <| quorum_contacts := quorum_contacts n ∪ {[from]} |>));;
      if installed then
        modify (fun n => n <| outgoing_snapshots := delete from (outgoing_snapshots n) |>);;
        on_append_entries_reply from term true match_index 0 None;;
        send_append_entries
      else
        modify (fun n => n <| outgoing_snapshots :=
                  <[from := active <| os_offset := next_offset |> <| os_sent_end := None |>
                                   <| os_reading := false |>]> (outgoing_snapshots n) |>);;
        send_snapshot_chunk from
  end.
