(* ===== verification/Election.v ===== *)
(** * [raft-core/src/election.rs] and [read.rs]

    Pre-votes, elections, the vote decision, and the transition to leadership;
    then ReadIndex: every local read issues its own quorum challenge, nothing is
    leased. *)
From S2P Require Import Prelude Rng Quorum Membership Types Node MembershipProtocol.
From S2P Require Import SnapshotTransfer Replication.
Local Open Scope N_scope.
Local Open Scope raft_scope.

Record RequestVoteRq := mkRequestVoteRq {
  rq_term : Term;
  rq_candidate_id : NodeId;
  rq_last_log_index : LogIndex;
  rq_last_log_term : Term;
}.

Definition decide_vote (hs : HardState) (my_last : LogIndex * Term) (req : RequestVoteRq)
  : bool :=
  let vote_free := match voted_for hs with
                   | None => true
                   | Some already => already =? rq_candidate_id req
                   end in
  if negb vote_free then false else
  let '(my_last_index, my_last_term) := my_last in
  (my_last_term <? rq_last_log_term req)
  || ((rq_last_log_term req =? my_last_term) && (my_last_index <=? rq_last_log_index req)).

Definition is_persist_hard (e : Effect) : bool :=
  match e with PersistHardState _ => true | _ => false end.

Definition become_leader : Raft unit :=
  n ← get;
  match option_filter (fun next => next <? u64_max) (checked_add (last_log_index n) 1) with
  | None =>
      modify (fun n => n <| campaign_exhausted := true |>);;
      become_follower;;
      modify (fun n => n <| leader_hint := None |>)
  | Some next =>
      let next_index := list_to_map (map (fun peer => (peer, next)) (peers n)) in
      let match_index := list_to_map (map (fun peer => (peer, 0)) (peers n)) in
      modify (fun n => n <| role := Leader next_index match_index |> <| read_context := 0 |>);;
      massert (bool_decide (pending_reads n = ∅));;
      let noop := mkEntry next (current_term (hard n)) NoOp in
      modify (fun n => n <| contact_round := 1 |>
                         <| quorum_deadline_ms := saturating_add (now_ms n) CHECK_QUORUM_MS |>
                         <| quorum_contacts := {[node_id n]} |>
                         <| log := log n ++ [noop] |>);;
      emit (PersistLogEntries None [noop]);;
      n ← get;
      collected ← collect (when (self_quorum n) (advance_commit (last_log_index n)));
      let committed := collected.2 in
      emits (filter (fun e => is_persist_hard e = true) committed);;
      n ← get;
      emit (RoleChanged "Leader" (current_term (hard n)));;
      send_append_entries;;
      modify (fun n => n <| heartbeat_due_ms := saturating_add (now_ms n) HEARTBEAT_MS |>);;
      emits (filter (fun e => is_persist_hard e = false) committed)
  end.

Definition start_election : Raft unit :=
  n ← get;
  if negb (is_voter n (node_id n)) then mret tt else
  match checked_add (current_term (hard n)) 1 with
  | None =>
      modify (fun n => n <| campaign_exhausted := true |>);;
      become_follower
  | Some term =>
      modify (fun n => n <| hard := hard n <| current_term := term |>
                                           <| voted_for := Some (node_id n) |> |>
                         <| role := Candidate {[node_id n]} |>);;
      reset_election_deadline;;
      n ← get;
      emit (PersistHardState (hard n));;
      if self_quorum n then become_leader else
      emit (RoleChanged "Candidate" (current_term (hard n)));;
      for_each (fun peer =>
        if negb (is_voter n peer) then mret tt else
        advertise_membership peer;;
        emit (Send peer (RequestVote (current_term (hard n)) (node_id n) (last_log_index n)
                           (last_log_term n)))) (peers n)
  end.

Definition start_pre_vote : Raft unit :=
  n ← get;
  if negb (is_voter n (node_id n)) then mret tt else
  cancel_incoming_snapshot;;
  match checked_add (current_term (hard n)) 1, checked_add (campaign_sequence n) 1 with
  | Some prospective_term, Some sequence =>
      let campaign_id := mkCampaignId (campaign_incarnation n) sequence in
      modify (fun n => n <| campaign_sequence := sequence |>
                         <| leader_hint := None |>
                         <| role := PreCandidate prospective_term campaign_id {[node_id n]} |>);;
      reset_election_deadline;;
      n ← get;
      if self_quorum n then start_election else
      emit (RoleChanged "PreCandidate" (current_term (hard n)));;
      for_each (fun peer =>
        if negb (is_voter n peer) then mret tt else
        advertise_membership peer;;
        emit (Send peer (PreVote prospective_term campaign_id (node_id n) (last_log_index n)
                           (last_log_term n)))) (peers n)
  | _, _ =>
      modify (fun n => n <| campaign_exhausted := true |>);;
      become_follower
  end.

Definition on_pre_vote (prospective_term : Term) (campaign_id : CampaignId)
    (candidate_id : NodeId) (last_index : LogIndex) (last_term : Term) : Raft unit :=
  n ← get;
  let recent_leader := is_some_and (last_leader_contact_ms n)
    (fun at_ => saturating_sub (now_ms n) at_ <? CHECK_QUORUM_MS) in
  let fresh_log := pair_ge last_term last_index (last_log_term n) (last_log_index n) in
  let vote_granted :=
    may_vote_for n candidate_id prospective_term true last_index last_term
    && (current_term (hard n) <? prospective_term)
    && fresh_log
    && negb (is_leader n)
    && negb recent_leader in
  emit (Send candidate_id (PreVoteReply (current_term (hard n)) prospective_term campaign_id
                             vote_granted)).

Definition on_pre_vote_reply (from : NodeId) (term : Term) (prospective_term : Term)
    (campaign_id : CampaignId) (vote_granted : bool) : Raft unit :=
  n ← get;
  if negb vote_granted || (prospective_term <=? term) || negb (is_voter n from) then mret tt else
  match role n with
  | PreCandidate expected_term expected_id votes_received =>
      if negb (prospective_term =? expected_term) || negb (eqb campaign_id expected_id)
      then mret tt else
      let votes := votes_received ∪ {[from]} in
      modify (fun n => n <| role := PreCandidate expected_term expected_id votes |>);;
      when (has_quorum (voter_config n) votes) start_election
  | _ => mret tt
  end.

Definition on_request_vote (term : Term) (candidate_id : NodeId) (last_index : LogIndex)
    (last_term : Term) : Raft unit :=
  n ← get;
  if term <? current_term (hard n) then
    emit (Send candidate_id (RequestVoteReply (current_term (hard n)) false))
  else
  let req := mkRequestVoteRq term candidate_id last_index last_term in
  let grant := may_vote_for n candidate_id term false last_index last_term
               && decide_vote (hard n) (last_log_index n, last_log_term n) req in
  when grant
    (modify (fun n => n <| hard := hard n <| voted_for := Some candidate_id |> |>);;
     reset_election_deadline;;
     n ← get;
     emit (PersistHardState (hard n)));;
  n ← get;
  emit (Send candidate_id (RequestVoteReply (current_term (hard n)) grant)).

Definition on_request_vote_reply (from : NodeId) (term : Term) (vote_granted : bool)
  : Raft unit :=
  n ← get;
  if negb (term =? current_term (hard n)) || negb vote_granted || negb (is_voter n from)
  then mret tt else
  match role n with
  | Candidate votes_received =>
      let votes := votes_received ∪ {[from]} in
      modify (fun n => n <| role := Candidate votes |>);;
      when (has_quorum (voter_config n) votes) become_leader
  | _ => mret tt
  end.

Definition read_refusal (n : RaftNode) : option ReadRejectReason :=
  if negb (is_leader n) || negb (is_voter n (node_id n)) then Some NotLeader
  else if (commit_index n =? 0) || negb (term_at n (commit_index n) =? current_term (hard n))
  then Some NotReady
  else if MAX_PENDING_READS <=? N.of_nat (size (pending_reads n)) then Some RCapacity
  else if read_context n =? u64_max then Some ContextExhausted
  else None.

Definition on_read_index (request_id : N) : Raft unit :=
  n ← get;
  if is_some (pending_reads n !! request_id) then mret tt else
  match read_refusal n with
  | Some reason => emit (ReadRejected request_id (leader_hint n) reason)
  | None =>
      context ← add_u64 (read_context n) 1;
      modify (fun n => n <| read_context := context |>);;
      let term := current_term (hard n) in
      let index := commit_index n in
      if self_quorum n then emit (ReadReady request_id context index term) else
      modify (fun n => n <| pending_reads :=
                <[request_id := mkPendingRead context term index {[node_id n]}]>
                  (pending_reads n) |>);;
      for_each (fun peer =>
        if negb (is_voter n peer) then mret tt else
        emit (Send peer (ReadProbe term (node_id n) context))) (peers n)
  end.

Definition on_read_probe (term : Term) (leader_id : NodeId) (context : N) : Raft unit :=
  n ← get;
  let accepted := (term =? current_term (hard n)) && is_voter n (node_id n)
                  && is_voter n leader_id in
  when accepted
    (become_follower;;
     reset_election_deadline;;
     modify (fun n => n <| last_leader_contact_ms := Some (now_ms n) |>
                        <| leader_hint := Some leader_id |>));;
  n ← get;
  emit (Send leader_id (ReadProbeReply (current_term (hard n)) context accepted)).

Definition on_read_probe_reply (from : NodeId) (term : Term) (context : N) (accepted : bool)
  : Raft unit :=
  n ← get;
  if negb (is_leader n) || negb accepted || negb (term =? current_term (hard n))
     || negb (is_voter n from)
  then mret tt else
  match List.find (fun '(_, p) => (pr_context p =? context) && (pr_term p =? term))
          (nmap_iter (pending_reads n)) with
  | None => mret tt
  | Some (request_id, pending) =>
      let pending := pending <| pr_voters := pr_voters pending ∪ {[from]} |> in
      if has_quorum (voter_config n) (pr_voters pending) then
        modify (fun n => n <| pending_reads := delete request_id (pending_reads n) |>);;
        emit (ReadReady request_id context (pr_index pending) term)
      else
        modify (fun n => n <| pending_reads := <[request_id := pending]> (pending_reads n) |>)
  end.

Definition cancel_read (request_id : N) : Raft unit :=
  n ← get;
  match pending_reads n !! request_id with
  | Some _ =>
      modify (fun n => n <| pending_reads := delete request_id (pending_reads n) |>);;
      emit (ReadRejected request_id (leader_hint n) Cancelled)
  | None => mret tt
  end.
