(* ===== verification/Step.v ===== *)
(** * [raft-core/src/lib.rs]: construction, recovery, and [step]

    The single entry point of the core: one input in, an ordered list of
    effects out. *)
From S2P Require Import Prelude Rng Quorum Membership Types Node MembershipProtocol.
From S2P Require Import SnapshotTransfer Replication Election.
Local Open Scope N_scope.
Local Open Scope raft_scope.

(** ** Time *)

(** The leader's branch of [on_tick]. *)
Definition tick_leader (now : N) : Raft unit :=
  n ← get;
  stop ← (if quorum_deadline_ms n <=? now then
            let missed_window :=
              CHECK_QUORUM_MS <=? saturating_sub now (quorum_deadline_ms n) in
            let next_round := checked_add (contact_round n) 1 in
            if missed_window || negb (has_quorum (voter_config n) (quorum_contacts n))
               || is_none next_round
            then
              become_follower;;
              modify (fun n => n <| leader_hint := None |>);;
              reset_election_deadline;;
              mret true
            else
              round ← expect next_round;
              modify (fun n => n <| contact_round := round |>
                                 <| quorum_contacts := {[node_id n]} |>
                                 <| quorum_deadline_ms := saturating_add now CHECK_QUORUM_MS |>
                                 <| heartbeat_due_ms := now |>);;
              mret false
          else mret false : Raft bool);
  if (stop : bool) then mret tt else
  maybe_finalize_membership;;
  n ← get;
  if negb (is_leader n) then mret tt else
  when (heartbeat_due_ms n <=? now)
    (send_append_entries;;
     modify (fun n => n <| heartbeat_due_ms := saturating_add now HEARTBEAT_MS |>)).

Definition on_tick (now : N) : Raft unit :=
  n ← get;
  if (now <? now_ms n) || ((now =? now_ms n) && negb (election_deadline_ms n =? 0))
  then mret tt else
  modify (fun n => n <| now_ms := now |>);;
  if is_none (checked_add now CHECK_QUORUM_MS) then
    modify (fun n => n <| campaign_exhausted := true |>);;
    become_follower;;
    modify (fun n => n <| leader_hint := None |>)
  else
  when (election_deadline_ms n =? 0) reset_election_deadline;;
  n ← get;
  match role n with
  | Leader _ _ => tick_leader now
  | _ =>
      when ((election_deadline_ms n <=? now) && negb (campaign_exhausted n)
            && is_voter n (node_id n))
        start_pre_vote
  end.

(** ** Messages *)

(** Whether the sender may send this message at all. *)
Definition message_eligible (n : RaftNode) (from : NodeId) (msg : RaftMessage) : bool :=
  match msg with
  | RequestVote term _ last_index last_term =>
      may_vote_for n from term false last_index last_term
  | PreVote prospective_term _ _ last_index last_term =>
      may_vote_for n from prospective_term true last_index last_term
  | AppendEntries term _ _ _ _ _ _ => may_replicate_from n from term
  | InstallSnapshot transfer _ _ _ _ _ => may_replicate_from n from (st_term transfer)
  | AppendEntriesReply _ _ _ _ _
  | InstallSnapshotReply _ _ _ _ _ _ _
  | CompactedPrefix _ _ _ _ => contains from (peers n)
  | _ => is_voter n from
  end.

(** Structurally impossible messages, dropped without a reply. *)
Definition message_malformed (n : RaftNode) (from : NodeId) (msg : RaftMessage) : bool :=
  match msg with
  | RequestVote term candidate_id _ last_term =>
      negb (candidate_id =? from) || (term <? last_term)
  | PreVote prospective_term _ candidate_id _ last_term =>
      negb (candidate_id =? from) || (prospective_term <=? last_term)
  | AppendEntries _ leader_id _ _ _ _ _ => negb (leader_id =? from)
  | ReadProbe _ leader_id context => negb (leader_id =? from) || (context =? 0)
  | ReadProbeReply _ context _ => context =? 0
  | InstallSnapshot transfer descriptor offset data done _ =>
      negb (st_leader_id transfer =? from)
      || (st_sequence transfer =? 0)
      || (st_term transfer <? last_included_term (metadata descriptor))
      || negb (valid_snapshot_membership n descriptor)
      || negb (valid_chunk descriptor offset (len64 data) done)
  | CompactedPrefix term index boundary_term _ =>
      (index =? 0) || (boundary_term =? 0) || (term <? boundary_term)
  | InstallSnapshotReply _ transfer _ _ _ _ _ =>
      negb (st_leader_id transfer =? node_id n) || (st_sequence transfer =? 0)
  | _ => false
  end.

(** [None] refuses the message; [Some None] is any message but AppendEntries. *)
Definition append_frame (msg : RaftMessage) : option (option LogIndex) :=
  match msg with
  | AppendEntries term _ prev_log_index prev_log_term entries _ _ =>
      Some <$> validate_append_entries term prev_log_index prev_log_term entries
  | _ => Some None
  end.

Definition message_term (n : RaftNode) (msg : RaftMessage) : option Term :=
  match msg with
  | RequestVote term _ _ _ | RequestVoteReply term _
  | AppendEntries term _ _ _ _ _ _ | AppendEntriesReply term _ _ _ _
  | PreVoteReply term _ _ _ | ReadProbe term _ _ | ReadProbeReply term _ _ => Some term
  | InstallSnapshot transfer _ _ _ _ _ => Some (st_term transfer)
  | InstallSnapshotReply term _ _ _ _ _ _ | CompactedPrefix term _ _ _ => Some term
  | PreVote _ _ _ _ _ => Some (current_term (hard n))
  | GroupMessage _ _ _ | MembershipAdvertisement _ _ => None
  end.

(** R2: adopt a newer term before the message's content. *)
Definition adopt_term (msg_term : Term) : Raft unit :=
  n ← get;
  when (current_term (hard n) <? msg_term)
    (modify (fun n => n <| hard := hard n <| current_term := msg_term |>
                                         <| voted_for := None |> |>);;
     n ← get;
     emit (PersistHardState (hard n));;
     become_follower;;
     modify (fun n => n <| last_leader_contact_ms := None |>);;
     cancel_incoming_snapshot).

Definition dispatch_message (from : NodeId) (msg : RaftMessage)
    (append_last_index : option LogIndex) : Raft unit :=
  match msg with
  | GroupMessage _ _ _ | MembershipAdvertisement _ _ => panic
  | CompactedPrefix term index boundary_term round =>
      n ← get;
      when (eqb (log_term n index) (Some boundary_term))
        (on_append_entries_reply from term true index round None)
  | InstallSnapshot transfer descriptor offset data done round =>
      on_install_snapshot transfer descriptor offset data done round
  | InstallSnapshotReply term transfer next_offset match_index accepted installed round =>
      on_install_snapshot_reply from term transfer next_offset match_index accepted installed
        round
  | RequestVote term candidate_id last_index last_term =>
      on_request_vote term candidate_id last_index last_term
  | RequestVoteReply term vote_granted => on_request_vote_reply from term vote_granted
  | AppendEntries term leader_id prev_log_index prev_log_term entries leader_commit round =>
      match append_last_index with
      | None => mret tt
      | Some payload_last_index =>
          on_append_entries term leader_id prev_log_index prev_log_term entries
            payload_last_index leader_commit round
      end
  | AppendEntriesReply term success match_index round conflict =>
      on_append_entries_reply from term success match_index round conflict
  | ReadProbe term leader_id context => on_read_probe term leader_id context
  | ReadProbeReply term context accepted => on_read_probe_reply from term context accepted
  | PreVote prospective_term campaign_id candidate_id last_index last_term =>
      on_pre_vote prospective_term campaign_id candidate_id last_index last_term
  | PreVoteReply term prospective_term campaign_id vote_granted =>
      on_pre_vote_reply from term prospective_term campaign_id vote_granted
  end.

Definition message_leader (msg : RaftMessage) : NodeId :=
  match msg with AppendEntries _ leader_id _ _ _ _ _ => leader_id | _ => 0 end.

Definition on_message (from : NodeId) (msg : RaftMessage) : Raft unit :=
  n ← get;
  match unwrap_group_message n msg with
  | None => mret tt
  | Some (MembershipAdvertisement term configuration) =>
      on_membership_advertisement from term configuration
  | Some msg =>
      if from =? node_id n then mret tt else
      if negb (message_eligible n from msg) then mret tt else
      if message_malformed n from msg then mret tt else
      match append_frame msg with
      | None => append_reply (message_leader msg) false (last_log_index n) 0 None
      | Some append_last_index =>
          msg_term ← expect (message_term n msg);
          adopt_term msg_term;;
          dispatch_message from msg append_last_index
      end
  end.

(** ** [step] *)

Definition handle (input : Input) : Raft unit :=
  match input with
  | Recover => on_recover
  | MembershipChange request_id operation => on_membership_change request_id operation
  | Tick now => on_tick now
  | Message from msg => on_message from msg
  | ClientPropose command => on_client_propose command
  | ClientProposeBatch commands => on_client_propose_batch commands
  | ReadIndex request_id => on_read_index request_id
  | CancelRead request_id => cancel_read request_id
  | Compact descriptor => on_compact descriptor
  | SnapshotChunkRead to transfer descriptor offset data =>
      on_snapshot_chunk_read to transfer descriptor offset data
  | SnapshotChunkStaged transfer descriptor offset result =>
      on_snapshot_chunk_staged transfer descriptor offset result
  | SnapshotPublished transfer descriptor => on_snapshot_published transfer descriptor
  end.

Definition is_recover (input : Input) : bool :=
  match input with Recover => true | _ => false end.

(** [None] is a panic. *)
Definition step (n : RaftNode) (input : Input) : option (RaftNode * list Effect) :=
  if recovery_pending n && negb (is_recover input) then Some (n, []) else
  '(_, n', effects) ← handle input n;
  Some (n', wrap_group_effects n' effects).

(** ** Construction and recovery *)

Definition fresh_node (id : NodeId) (ps : list NodeId) (seed : N) (genesis : CommittedMembership)
  : RaftNode :=
  mkRaftNode id ps HardState_default [] 0 0 Follower None 0 0 0 (Pcg32_new seed) seed 0 false
    None 0 0 ∅ 0 None 0 ∅ None None None ∅ genesis (cm_state genesis) false ∅ None false ∅.

(** [RaftNode::new] panics on a self or duplicate peer. *)
Definition RaftNode_new (id : NodeId) (ps : list NodeId) (seed : N) : option RaftNode :=
  if contains id ps || negb (size (list_to_set ps : gset NodeId) =? length ps)%nat then None else
  match cm_bootstrap (merge_sort N.le (ps ++ [id])) with
  | Ok genesis => Some (fresh_node id ps seed genesis)
  | Err _ => None
  end.

Definition new_for_group (id : NodeId) (genesis_voters : list NodeId) (seed : N)
    (group_id : string) : option (Result (RaftNode * list Effect)) :=
  match cm_bootstrap_with_group group_id genesis_voters with
  | Err e => Some (Err e)
  | Ok _ =>
      n ← RaftNode_new id (filter (fun peer => peer <> id) genesis_voters) seed;
      Some (initialize_group n group_id genesis_voters)
  end.

Inductive RestoreError : Type :=
| InvalidSnapshot (reason : string)
| NonContiguousIndex (expected found : LogIndex)
| TermRegression (index : LogIndex) (previous found : Term)
| EntryTermExceedsCurrent (index : LogIndex) (entry_term current_term : Term).

Definition of_result {A} (r : Result A) : RestoreError + A :=
  match r with Ok a => inr a | Err e => inl (InvalidSnapshot e) end.

(** The scan of a recovered log from position [offset]. *)
Fixpoint check_log (current base offset previous : N) (entries : list Entry)
  : RestoreError + unit :=
  match entries with
  | [] => inr tt
  | entry :: rest =>
      match checked_add base offset ≫= (fun v => checked_add v 1) with
      | None => inl (InvalidSnapshot "log index overflow")
      | Some expected =>
          if negb (e_index entry =? expected)
          then inl (NonContiguousIndex expected (e_index entry))
          else if e_term entry <? previous
          then inl (TermRegression (e_index entry) previous (e_term entry))
          else if current <? e_term entry
          then inl (EntryTermExceedsCurrent (e_index entry) (e_term entry) current)
          else check_log current base (offset + 1) (e_term entry) rest
      end
  end.

Definition check_image (hs : HardState) (image : option SnapshotDescriptor)
  : RestoreError + unit :=
  match image with
  | None => inr tt
  | Some image =>
      match descriptor_validate image with
      | Err e => inl (InvalidSnapshot e)
      | Ok _ =>
          if current_term hs <? last_included_term (metadata image)
          then inl (InvalidSnapshot "membership or hard term mismatch") else inr tt
      end
  end.

(** The node rebuilt from the recovered authority. *)
Definition restored_node (n : RaftNode) (hs : HardState) (entries : list Entry)
    (genesis : CommittedMembership) (recovery : MembershipRecovery) : RaftNode :=
  let base := snapshot_index n in
  let hs' := if mr_refresh_hard recovery
             then hs <| hs_membership := Some (mr_committed recovery) |> else hs in
  let n := n <| genesis_membership := genesis |>
             <| hard := hs' |>
             <| effective_membership := mr_effective recovery |>
             <| log := entries |>
             <| commit_index := mr_commit_index recovery |>
             <| last_applied := base |>
             <| recovery_refresh_hard := mr_refresh_hard recovery |>
             <| recovery_pending := mr_refresh_hard recovery
                                    || (base <? mr_commit_index recovery) |> in
  update_replication_peers_of n.

Definition restore_with_snapshot (id : NodeId) (ps : list NodeId) (seed : N) (hs : HardState)
    (image : option SnapshotDescriptor) (entries : list Entry)
  : option (RestoreError + RaftNode) :=
  n ← RaftNode_new id ps seed;
  let n := n <| snapshot := image |> in
  Some (
    match check_image hs image with
    | inl e => inl e
    | inr _ =>
    match check_log (current_term hs) (snapshot_index n) 0 (snapshot_term n) entries with
    | inl e => inl e
    | inr _ =>
    match of_result (recover_membership hs image entries
                       (ms_genesis_voters (cm_state (genesis_membership n)))) with
    | inl e => inl e
    | inr recovery =>
    match of_result (cm_bootstrap_with_group
                       (ms_group_id (cm_state (mr_committed recovery)))
                       (ms_genesis_voters (cm_state (mr_committed recovery)))) with
    | inl e => inl e
    | inr genesis => inr (restored_node n hs entries genesis recovery)
    end end end end).

Definition restore (id : NodeId) (ps : list NodeId) (seed : N) (hs : HardState)
    (entries : list Entry) : option (RestoreError + RaftNode) :=
  restore_with_snapshot id ps seed hs None entries.

Definition restore_applied_watermark (n : RaftNode) (index : LogIndex) (term : Term)
  : RestoreError + RaftNode :=
  if negb (now_ms n =? 0) || negb (election_deadline_ms n =? 0) || negb (is_follower n)
     || (index <? snapshot_index n) || (index <? last_applied n)
     || (last_log_index n <? index)
     || negb (eqb (log_term n index) (Some term))
     || ((commit_index n <? index)
         && negb (eqb (membership_at n index) (Ok (committed_membership n))))
  then inl (InvalidSnapshot "invalid durable application watermark or initialization phase")
  else
    let n := n <| commit_index := N.max (commit_index n) index |>
               <| last_applied := index |> in
    inr (n <| recovery_pending := recovery_refresh_hard n
                                  || (last_applied n <? commit_index n) |>).
