(* ===== verification/LogFacts.v ===== *)
(** * The retained log

    The shape every retained log keeps (contiguous indices above the snapshot
    boundary, nondecreasing terms bounded by the current term) and what the
    accessors of [Node] return on such a log. *)
From S2P Require Import Prelude Rng Quorum Membership Types Node MembershipProtocol.
From S2P Require Import SnapshotTransfer Replication Election Step.
Local Open Scope N_scope.
Local Open Scope raft_scope.

(** [log_ok base prev cur l]: [l] continues a log whose last entry has index
    [base] and term [prev], and no term exceeds [cur]. *)
Fixpoint log_ok (base prev cur : N) (l : list Entry) : Prop :=
  match l with
  | [] => True
  | e :: r => e_index e = base + 1 /\ prev <= e_term e <= cur /\ log_ok (base + 1) (e_term e) cur r
  end.

(** Term of the last entry of [l] after a boundary of term [prev]. *)
Definition end_term (prev : N) (l : list Entry) : N := map_or (list.last l) prev e_term.

Lemma end_term_cons prev e l : end_term prev (e :: l) = end_term (e_term e) l.
Proof. unfold end_term. rewrite last_cons. by destruct (list.last l). Qed.

Lemma log_ok_app base prev cur l1 l2 :
  log_ok base prev cur (l1 ++ l2) <->
  log_ok base prev cur l1 /\ log_ok (base + len64 l1) (end_term prev l1) cur l2.
Proof.
  revert base prev. induction l1 as [|e l1 IH]; intros base prev; cbn [app log_ok].
  - unfold len64, end_term. cbn. rewrite N.add_0_r. tauto.
  - rewrite IH, end_term_cons.
    replace (base + 1 + len64 l1) with (base + len64 (e :: l1))
      by (unfold len64; cbn [length]; lia).
    tauto.
Qed.

Lemma log_ok_lookup base prev cur l k e :
  log_ok base prev cur l -> l !! k = Some e ->
  e_index e = base + N.of_nat k + 1 /\ prev <= e_term e <= cur.
Proof.
  revert base prev k. induction l as [|x l IH]; intros base prev k Hok Hk; [done|].
  destruct Hok as (Hi & Ht & Hr). destruct k as [|k]; cbn in Hk.
  - injection Hk as ->. lia.
  - apply (IH _ _ _ Hr) in Hk. lia.
Qed.

Lemma log_ok_term_mono base prev cur l i j ei ej :
  log_ok base prev cur l -> l !! i = Some ei -> l !! j = Some ej -> (i <= j)%nat ->
  e_term ei <= e_term ej.
Proof.
  revert base prev i j. induction l as [|x l IH]; intros base prev i j Hok Hi Hj Hle; [done|].
  destruct Hok as (_ & _ & Hr). destruct i as [|i], j as [|j]; cbn in Hi, Hj; try lia.
  - naive_solver lia.
  - injection Hi as ->. apply (log_ok_lookup _ _ _ _ _ _ Hr) in Hj as [_ ?]. lia.
  - eapply IH; eauto. lia.
Qed.

Lemma log_ok_weaken base prev cur cur' l :
  log_ok base prev cur l -> cur <= cur' -> log_ok base prev cur' l.
Proof.
  revert base prev. induction l as [|x l IH]; intros base prev; cbn; [done|].
  intros (? & ? & ?) ?. repeat split; eauto; lia.
Qed.

Lemma log_ok_prev base prev prev' cur l :
  log_ok base prev cur l -> prev' <= prev -> log_ok base prev' cur l.
Proof. destruct l as [|e l]; cbn; [done|]. intros (? & ? & ?) ?. repeat split; auto; lia. Qed.

Lemma log_ok_take base prev cur l k : log_ok base prev cur l -> log_ok base prev cur (take k l).
Proof. intros Hok. rewrite <- (take_drop k l) in Hok. by apply log_ok_app in Hok as [? _]. Qed.

Lemma log_ok_last base prev cur l e :
  log_ok base prev cur l -> list.last l = Some e -> e_index e = base + len64 l.
Proof.
  intros Hok Hl. destruct l as [|x l'] using rev_ind; [done|]. clear IHl'.
  rewrite last_snoc in Hl. injection Hl as ->.
  apply (log_ok_lookup _ _ _ _ (length l') e) in Hok as [-> _].
  - unfold len64. rewrite length_app. cbn. lia.
  - rewrite lookup_app_r by lia. by rewrite Nat.sub_diag.
Qed.

(** Entries above an index form a suffix, entries up to it a prefix. *)
Lemma log_ok_filter_gt base prev cur l i :
  log_ok base prev cur l -> base <= i ->
  filter (fun e => i < e_index e) l = drop (N.to_nat (i - base)) l.
Proof.
  revert base prev. induction l as [|x l IH]; intros base prev Hok Hi; [by rewrite drop_nil|].
  destruct Hok as (Hx & _ & Hr). rewrite filter_cons.
  destruct (decide (i < e_index x)) as [Hlt|Hge].
  - replace (N.to_nat (i - base)) with 0%nat by lia. cbn [drop]. f_equal.
    apply list_filter_all. intros e [k Hk]%list_elem_of_lookup_1.
    apply (log_ok_lookup _ _ _ _ _ _ Hr) in Hk. lia.
  - rewrite (IH _ _ Hr) by lia.
    replace (N.to_nat (i - base)) with (S (N.to_nat (i - (base + 1)))) by lia. done.
Qed.

Lemma log_ok_filter_le base prev cur l i :
  log_ok base prev cur l -> base <= i ->
  filter (fun e => e_index e <= i) l = take (N.to_nat (i - base)) l.
Proof.
  revert base prev. induction l as [|x l IH]; intros base prev Hok Hi; [by rewrite take_nil|].
  destruct Hok as (Hx & _ & Hr). rewrite filter_cons.
  destruct (decide (e_index x <= i)) as [Hle|Hgt].
  - rewrite (IH _ _ Hr) by lia.
    replace (N.to_nat (i - base)) with (S (N.to_nat (i - (base + 1)))) by lia. done.
  - replace (N.to_nat (i - base)) with 0%nat by lia. cbn [take].
    enough (forall e, e ∈ l -> ~ e_index e <= i) as Hno.
    { clear -Hno. induction l as [|e l IH]; [done|]. rewrite filter_cons_False.
      - apply IH. intros; apply Hno. by right.
      - apply Hno. left. }
    intros e [k Hk]%list_elem_of_lookup_1. apply (log_ok_lookup _ _ _ _ _ _ Hr) in Hk. lia.
Qed.

(** ** The boolean scans decide [log_ok] *)

Lemma validate_entries_ok mt prev_index offset pt entries :
  prev_index + offset + len64 entries <= u64_max ->
  validate_entries mt prev_index offset pt entries = true <->
  log_ok (prev_index + offset) pt mt entries.
Proof.
  revert offset pt. induction entries as [|e l IH]; intros offset pt Hb; cbn; [done|].
  unfold len64 in *. cbn [length] in Hb.
  assert (checked_add prev_index 1 ≫= (fun v => checked_add v offset)
          = Some (prev_index + 1 + offset)) as ->.
  { unfold checked_add. destruct (N.leb_spec (prev_index + 1) u64_max); [|lia]. cbn.
    destruct (N.leb_spec (prev_index + 1 + offset) u64_max); [done|lia]. }
  replace (prev_index + offset + 1) with (prev_index + (offset + 1)) by lia.
  rewrite <- IH by lia.
  destruct (N.eqb_spec (e_index e) (prev_index + 1 + offset)),
    (N.ltb_spec (e_term e) pt), (N.ltb_spec mt (e_term e)); cbn; split;
    try done; try naive_solver lia.
Qed.

Lemma check_log_ok cur base offset prev entries :
  base + offset + len64 entries <= u64_max ->
  check_log cur base offset prev entries = inr tt <-> log_ok (base + offset) prev cur entries.
Proof.
  revert offset prev. induction entries as [|e l IH]; intros offset prev Hb; cbn; [done|].
  unfold len64 in *. cbn [length] in Hb.
  assert (checked_add base offset ≫= (fun v => checked_add v 1)
          = Some (base + offset + 1)) as ->.
  { unfold checked_add. destruct (N.leb_spec (base + offset) u64_max); [|lia]. cbn.
    destruct (N.leb_spec (base + offset + 1) u64_max); [done|lia]. }
  replace (base + offset + 1) with (base + (offset + 1)) by lia.
  rewrite <- IH by lia.
  destruct (N.eqb_spec (e_index e) (base + (offset + 1))),
    (N.ltb_spec (e_term e) prev), (N.ltb_spec cur (e_term e)); cbn; split;
    try done; try naive_solver lia.
Qed.

Lemma validate_append_ok mt prev_index prev_term entries last :
  validate_append_entries mt prev_index prev_term entries = Some last <->
  last = prev_index + len64 entries /\ last <= u64_max /\ prev_term <= mt
  /\ log_ok prev_index prev_term mt entries.
Proof.
  unfold validate_append_entries.
  destruct (N.ltb_spec mt prev_term) as [Hlt|Hle]; [naive_solver lia|].
  destruct (checked_add prev_index (len64 entries)) as [v|] eqn:Hv; cbn.
  - apply checked_add_Some in Hv as [-> Hv].
    pose proof (validate_entries_ok mt prev_index 0 prev_term entries ltac:(lia)) as Hok.
    rewrite N.add_0_r in Hok.
    destruct (validate_entries _ _ _ _ _); naive_solver lia.
  - apply checked_add_None in Hv. naive_solver lia.
Qed.

(** Readable form of [log_ok]: position by position. *)
Lemma log_ok_spec base prev cur l :
  log_ok base prev cur l <->
  forall k e, l !! k = Some e ->
    e_index e = base + N.of_nat k + 1 /\ e_term e <= cur /\
    match k with
    | O => prev <= e_term e
    | S j => forall e', l !! j = Some e' -> e_term e' <= e_term e
    end.
Proof.
  revert base prev. induction l as [|x l IH]; intros base prev; cbn [log_ok].
  { split; [|done]. intros _ k e He. by rewrite lookup_nil in He. }
  rewrite IH. split.
  - intros (Hi & Ht & Hr) [|k] e He; cbn in He.
    + injection He as <-. lia.
    + destruct (Hr k e He) as (H1 & H2 & H3). split; [lia|]. split; [done|].
      intros e' He'. destruct k as [|k]; cbn in He'; [by injection He' as <-|by apply H3].
  - intros H. destruct (H 0%nat x eq_refl) as (H1 & H2 & H3).
    split; [lia|]. split; [lia|]. intros k e He.
    destruct (H (S k) e He) as (H4 & H5 & H6). split; [lia|]. split; [done|].
    destruct k as [|k]; [by apply (H6 x)|]. intros e' He'. by apply H6.
Qed.

(** [validate_append_entries] accepts a payload exactly when it continues
    its anchor: every entry has the index that follows the previous one, no
    index overflows, no term is below its predecessor's (the anchor's for the
    first) or above the message's; it then returns the last covered index. *)
Theorem validate_append_entries_correct mt prev_index prev_term entries last :
  validate_append_entries mt prev_index prev_term entries = Some last <->
  last = prev_index + len64 entries /\ last <= u64_max /\ prev_term <= mt /\
  (forall k e, entries !! k = Some e ->
     e_index e = prev_index + N.of_nat k + 1 /\ e_term e <= mt /\
     match k with
     | O => prev_term <= e_term e
     | S j => forall e', entries !! j = Some e' -> e_term e' <= e_term e
     end).
Proof. rewrite validate_append_ok, log_ok_spec. done. Qed.

(** ** Accessors on a well-formed log *)

Definition node_log_ok (n : RaftNode) : Prop :=
  log_ok (snapshot_index n) (snapshot_term n) (current_term (hard n)) (log n).

Lemma entry_at_eq n i :
  entry_at n i = if i <=? snapshot_index n then None
                 else log n !! N.to_nat (i - snapshot_index n - 1).
Proof.
  unfold entry_at, checked_sub.
  destruct (N.leb_spec (snapshot_index n) i) as [H1|H1]; cbn.
  - destruct (N.leb_spec 1 (i - snapshot_index n)) as [H2|H2]; cbn.
    + rewrite get_at_lookup. destruct (N.leb_spec i (snapshot_index n)); [lia|done].
    + destruct (N.leb_spec i (snapshot_index n)); [done|lia].
  - destruct (N.leb_spec i (snapshot_index n)); [done|lia].
Qed.

Section accessors.
Context (n : RaftNode) (Hok : node_log_ok n).

Lemma last_log_index_eq : last_log_index n = snapshot_index n + len64 (log n).
Proof.
  unfold last_log_index. destruct (list.last (log n)) as [e|] eqn:Hl; cbn.
  - by apply (log_ok_last _ _ _ _ _ Hok).
  - apply last_None in Hl. rewrite Hl. unfold len64. cbn. lia.
Qed.

Lemma entry_at_Some i e :
  entry_at n i = Some e -> e_index e = i /\ snapshot_index n < i <= last_log_index n
    /\ snapshot_term n <= e_term e <= current_term (hard n) /\ e ∈ log n.
Proof.
  rewrite entry_at_eq, last_log_index_eq.
  destruct (N.leb_spec i (snapshot_index n)) as [|Hgt]; [done|]. intros Hk.
  pose proof (log_ok_lookup _ _ _ _ _ _ Hok Hk) as [Hi Ht].
  pose proof (list_elem_of_lookup_2 _ _ _ Hk).
  apply lookup_lt_Some in Hk. unfold len64. repeat split; try done; lia.
Qed.

Lemma entry_at_is_Some i :
  snapshot_index n < i <= last_log_index n -> is_Some (entry_at n i).
Proof.
  rewrite entry_at_eq, last_log_index_eq. intros Hi.
  destruct (N.leb_spec i (snapshot_index n)); [lia|].
  apply lookup_lt_is_Some_2. unfold len64 in *. lia.
Qed.

Lemma log_term_is_Some i :
  snapshot_index n <= i <= last_log_index n -> is_Some (log_term n i).
Proof.
  intros Hi. unfold log_term. destruct (N.eqb_spec i (snapshot_index n)); [done|].
  destruct (entry_at_is_Some i) as [e ->]; [lia|]. done.
Qed.

Lemma log_term_Some i t :
  log_term n i = Some t -> snapshot_index n <= i <= last_log_index n /\ snapshot_term n <= t.
Proof.
  unfold log_term. destruct (N.eqb_spec i (snapshot_index n)) as [->|].
  - intros [= <-]. rewrite last_log_index_eq. lia.
  - intros (e & He & ->)%fmap_Some. apply entry_at_Some in He. lia.
Qed.

Lemma log_term_entry i : i <> snapshot_index n -> log_term n i = e_term <$> entry_at n i.
Proof. unfold log_term. by destruct (N.eqb_spec i (snapshot_index n)). Qed.
End accessors.

(** Appending to a log. *)
Lemma number_entries_ok i t cs prev :
  prev <= t -> log_ok i prev t (number_entries (i + 1) t cs).
Proof.
  revert i prev. induction cs as [|c cs IH]; intros i prev Hp; cbn; [done|].
  repeat split; try lia. apply IH. lia.
Qed.

Lemma number_entries_length i t cs : length (number_entries i t cs) = length cs.
Proof. revert i. induction cs as [|c cs IH]; intros i; cbn; [done|]. by rewrite IH. Qed.
