(* ===== verification/MembershipFacts.v ===== *)
(** * Administrative histories

    The invariant every history built by [advanced] keeps, what [advanced]
    preserves, when it succeeds, and the composition laws of [replay]. *)
From S2P Require Import Prelude Rng Quorum Membership Types Node MembershipProtocol LogFacts.
Local Open Scope N_scope.
Local Open Scope raft_scope.

(** ** Pending records *)

Lemma pending_Some m id r :
  pending m = Some (id, r) -> ms_records m !! id = Some r /\ ar_final_index r = None.
Proof.
  unfold pending. intros [Hin Hf]%find_some. rewrite <- list_elem_of_In in Hin.
  apply elem_of_btree_iter in Hin. by destruct (ar_final_index r).
Qed.

Lemma pending_None m :
  pending m = None -> forall id r, ms_records m !! id = Some r -> is_Some (ar_final_index r).
Proof.
  unfold pending. intros Hf id r Hr.
  assert (Hin : In (id, r) (smap_iter (ms_records m))).
  { by apply list_elem_of_In, elem_of_btree_iter. }
  apply (find_none _ _ Hf) in Hin. by destruct (ar_final_index r).
Qed.

(** ** The history invariant *)

Record cm_inv (c : CommittedMembership) : Prop := {
  ci_group : validate_request_id (ms_group_id (cm_state c)) = Ok tt;
  ci_genesis : validate_set (ms_genesis_voters (cm_state c)) = Ok tt;
  ci_version : ms_version (cm_state c) = 1;
  (** at most one operation is pending; it is joint, earlier, and named *)
  ci_pending : forall id r, ms_records (cm_state c) !! id = Some r -> ar_final_index r = None ->
    is_joint (ms_voters (cm_state c)) = true /\ ar_first_index r <= cm_index c
    /\ ar_first_term r <= cm_term c /\ validate_request_id id = Ok tt
    /\ forall id' r', ms_records (cm_state c) !! id' = Some r' -> ar_final_index r' = None ->
         id' = id;
  (** the legacy group has no history *)
  ci_legacy : ms_group_id (cm_state c) = LEGACY_GROUP_ID -> ms_records (cm_state c) = ∅;
  (** quorums are always well defined *)
  ci_valid : validate (ms_voters (cm_state c)) = Ok tt;
  (** identities have one lifetime *)
  ci_learners : voters (ms_voters (cm_state c)) ## ms_learners (cm_state c);
  ci_retired : participants (cm_state c) ## ms_retired (cm_state c);
}.

Lemma bootstrap_inv gid vs c : cm_bootstrap_with_group gid vs = Ok c ->
  cm_inv c /\ cm_index c = 0 /\ cm_term c = 0
  /\ ms_group_id (cm_state c) = gid /\ ms_genesis_voters (cm_state c) = vs
  /\ ms_records (cm_state c) = ∅ /\ ms_voters (cm_state c) = Stable vs.
Proof.
  unfold cm_bootstrap_with_group, state_bootstrap_with_group. intros H. result_inv. subst.
  destruct x0 as [], x1 as []. cbn. split; [|done].
  split; cbn; try done; set_solver.
Qed.

(** What a successful first phase has checked. *)
Lemma first_phase_ok m id op ph : first_phase m id op = Ok ph ->
  validate_request_id id = Ok tt /\ ms_group_id m <> LEGACY_GROUP_ID
  /\ ms_records m !! id = None /\ pending m = None /\ is_joint (ms_voters m) = false
  /\ match op with
     | AddLearner i _ => ph = PhApply /\ (i ∉ ms_retired m) /\ (i ∉ participants m)
     | Remove i => (ph = PhApply /\ i ∈ ms_learners m)
                   \/ (ph = PhJoint /\ i ∈ voters (ms_voters m)
                       /\ size (voters (ms_voters m)) <> 1%nat)
     | SetVoters vs => ph = PhJoint /\ validate_set vs = Ok tt
                       /\ forall i, i ∈ vs -> i ∈ participants m
     end.
Proof.
  unfold first_phase. intros H. result_inv. destruct x.
  destruct (ms_records m !! id) eqn:Hr; [by destruct (eqb _ _) in H0|].
  result_inv. bool_inv.
  repeat (split; [first [done | by destruct (pending m)]|]).
  destruct op as [i ep|i|vs].
  - result_inv. bool_inv. done.
  - case_bool_decide; [injection H0 as <-; by left|]. result_inv. bool_inv.
    by right.
  - result_inv. destruct x. bool_inv. split; [done|]. split; [done|].
    intros i Hi. unfold participants. apply elem_of_union.
    destruct (decide (i ∈ voters (ms_voters m))); [by left|right].
    destruct (decide (i ∈ ms_learners m)); [done|exfalso].
    assert (Hin : In i (nset_list (list_to_set vs : gset N))).
    { apply list_elem_of_In, elem_of_btree_keys. set_solver. }
    match goal with H : existsb _ _ = false |- _ => apply not_true_iff_false in H; apply H end.
    apply existsb_exists. exists i.
    split; [done|]. by rewrite !bool_decide_eq_false_2.
Qed.

Lemma Stable_of_not_joint c : is_joint c = false -> exists vs, c = Stable vs.
Proof. destruct c; [eauto|done]. Qed.

Lemma elem_of_filter_ne (x i : N) (l : list N) :
  x ∈ filter (fun v => v <> i) l <-> x ∈ l /\ x <> i.
Proof. rewrite list_elem_of_filter. tauto. Qed.

Lemma Sorted_lt_filter (P : N -> Prop) `{!forall x, Decision (P x)} l :
  strictly_increasing l = true -> strictly_increasing (filter P l) = true.
Proof.
  rewrite !strictly_increasing_Sorted. intros HS.
  apply Sorted_StronglySorted in HS; [|apply _]. apply StronglySorted_Sorted.
  induction HS as [|a l HS IH HF]; [constructor|]. rewrite filter_cons.
  destruct (decide (P a)); [|done]. constructor; [done|].
  rewrite list.Forall_forall in *. intros x [_ Hx]%list_elem_of_filter. auto.
Qed.

Lemma validate_set_intro vs :
  vs <> [] -> strictly_increasing vs = true -> len64 vs <= 256 -> validate_set vs = Ok tt.
Proof.
  intros H1 H2 H3. unfold validate_set, set_is_valid.
  rewrite bool_decide_eq_false_2, H2 by done. cbn.
  by destruct (N.ltb_spec 256 (len64 vs)); [lia|].
Qed.

Lemma validate_set_elim vs : validate_set vs = Ok tt ->
  vs <> [] /\ strictly_increasing vs = true /\ len64 vs <= 256.
Proof.
  unfold validate_set, set_is_valid. intros H.
  destruct (negb _) eqn:Hb in H; [|done]. bool_inv. done.
Qed.

#[export] Instance N_lt_antisymm : AntiSymm (=) N.lt.
Proof. intros x y. lia. Qed.

(** A duplicate-free sorted listing is the original sorted list. *)
Lemma nset_list_of_increasing vs :
  strictly_increasing vs = true -> nset_list (list_to_set vs : gset N) = vs.
Proof.
  intros Hinc. apply (Sorted_unique N.lt).
  - apply strictly_increasing_Sorted, nset_list_increasing.
  - by apply strictly_increasing_Sorted.
  - apply NoDup_Permutation; [apply btree_keys_NoDup|by apply strictly_increasing_NoDup|].
    intros x. rewrite elem_of_btree_keys. set_solver.
Qed.

(** The target of a joint change is itself a valid voter set of admitted
    members. *)
Lemma target_voters_ok m id op new :
  validate (ms_voters m) = Ok tt -> first_phase m id op = Ok PhJoint ->
  target_voters m op = Ok new ->
  validate_set new = Ok tt /\ forall i, i ∈ new -> i ∈ participants m.
Proof.
  intros Hval (_ & _ & _ & _ & Hj & Hop)%first_phase_ok Ht.
  apply Stable_of_not_joint in Hj as [vs Hvs]. rewrite Hvs in *.
  destruct op as [i ep|i|ws]; cbn in Ht; result_inv; subst; [|].
  - destruct Hop as [[? _]|(_ & Hi & Hsize)]; [done|]. rewrite Hvs. cbn in *.
    apply validate_set_elim in Hval as (Hne & Hinc & Hlen).
    rewrite nset_list_of_increasing by done. split.
    + apply validate_set_intro; [|by apply Sorted_lt_filter|].
      * intros Hnil. apply Hsize.
        assert (Hall : forall x, x ∈ vs -> x = i).
        { intros x Hx. destruct (decide (x = i)); [done|].
          assert (Hf : x ∈ filter (fun v => v <> i) vs) by by apply list_elem_of_filter.
          rewrite Hnil in Hf. by apply not_elem_of_nil in Hf. }
        assert (list_to_set vs = ({[i]} : gset N)) as -> by set_solver.
        apply size_singleton.
      * pose proof (length_filter (fun v => v <> i) vs). unfold len64 in *. lia.
    + intros x [_ Hx]%list_elem_of_filter. unfold participants. rewrite Hvs. set_solver.
  - destruct Hop as (_ & Hws & Hin). done.
Qed.

(** Records after a first phase: the fresh one, or an old one that is finished. *)
Lemma insert_record_pending m id r0 id' r' :
  pending m = None -> <[id := r0]> (ms_records m) !! id' = Some r' ->
  ar_final_index r' = None -> id' = id /\ r' = r0.
Proof.
  intros Hp Hl Hf. destruct (decide (id = id')) as [->|Hne].
  - rewrite lookup_insert_eq in Hl. by injection Hl as ->.
  - rewrite lookup_insert_ne in Hl by done. apply (pending_None _ Hp) in Hl as [? Hl].
    by rewrite Hl in Hf.
Qed.

(** The three shapes of a successful configuration entry. *)
Inductive apply_shape (m : MembershipState) (i t : N) (e : ConfigurationEntry)
  : MembershipState -> Prop :=
| shape_final old new r :
    ce_phase e = PhFinal -> pending m = Some (ce_request_id e, r) ->
    ar_operation r = ce_operation e -> ms_voters m = Joint old new -> ar_first_index r < i -> ar_first_term r <= t ->
    apply_shape m i t e
      (m <| ms_retired := ms_retired m ∪ list_to_set (filter (fun id => id ∉ new) old) |>
         <| ms_voters := Stable new |>
         <| ms_records := alter (fun r => r <| ar_final_index := Some i |>
                                            <| ar_final_term := Some t |>)
                                (ce_request_id e) (ms_records m) |>)
| shape_joint new :
    ce_phase e = PhJoint -> first_phase m (ce_request_id e) (ce_operation e) = Ok PhJoint ->
    target_voters m (ce_operation e) = Ok new ->
    apply_shape m i t e
      (m <| ms_learners := ms_learners m ∖ list_to_set new |>
         <| ms_voters := Joint (nset_list (voters (ms_voters m))) new |>
         <| ms_records := <[ce_request_id e :=
              mkAdminRecord (ce_operation e) i t true None None]> (ms_records m) |>)
| shape_add id ep :
    ce_phase e = PhApply -> ce_operation e = AddLearner id ep ->
    first_phase m (ce_request_id e) (ce_operation e) = Ok PhApply ->
    apply_shape m i t e
      (m <| ms_learners := ms_learners m ∪ {[id]} |>
         <| ms_endpoints := <[id := ep]> (ms_endpoints m) |>
         <| ms_records := <[ce_request_id e :=
              mkAdminRecord (ce_operation e) i t false (Some i) (Some t)]> (ms_records m) |>)
| shape_remove id :
    ce_phase e = PhApply -> ce_operation e = Remove id ->
    first_phase m (ce_request_id e) (ce_operation e) = Ok PhApply ->
    apply_shape m i t e
      (m <| ms_learners := ms_learners m ∖ {[id]} |>
         <| ms_retired := ms_retired m ∪ {[id]} |>
         <| ms_records := <[ce_request_id e :=
              mkAdminRecord (ce_operation e) i t false (Some i) (Some t)]> (ms_records m) |>).

Lemma apply_entry_shape m i t e m' :
  apply_entry m i t e = Ok m' ->
  apply_shape m i t e m' /\ i <> 0 /\ i <> u64_max /\ t <> 0.
Proof.
  unfold apply_entry. intros H. result_inv. destruct x. bool_inv. split; [|done].
  destruct (bool_decide (ce_phase e = PhFinal)) eqn:Hf; bool_inv.
  - unfold apply_final in *. destruct (pending m) as [[pid r]|] eqn:Hp; [|done].
    result_inv. bool_inv. subst pid. destruct (ms_voters m) as [|old new] eqn:Hv; [done|].
    result_inv. subst. by eapply shape_final.
  - result_inv. bool_inv. subst.
    destruct (ce_phase e) eqn:Hph; [| |done].
    + change (eqb PhApply PhJoint) with false in *. cbv iota in *.
      destruct (ce_operation e) eqn:Hop; result_inv; subst; rewrite <- Hop.
      * eapply (shape_add m i t e); by rewrite ?Hop.
      * eapply (shape_remove m i t e); by rewrite ?Hop.
    + change (eqb PhJoint PhJoint) with true in *. cbv iota in *. result_inv. subst.
      by eapply (shape_joint m i t e).
Qed.

Lemma advanced_ok c i t e c' : advanced c i t e = Ok c' ->
  cm_index c < i /\ cm_term c <= t /\ i <> u64_max /\ t <> 0
  /\ cm_index c' = i /\ cm_term c' = t /\ apply_shape (cm_state c) i t e (cm_state c').
Proof.
  unfold advanced. intros H. result_inv. bool_inv. subst.
  match goal with H : apply_entry _ _ _ _ = Ok _ |- _ =>
    apply apply_entry_shape in H as (? & ? & ? & ?) end.
  done.
Qed.

(** Identity of a history: what no configuration entry changes. *)
Lemma apply_shape_identity m i t e m' : apply_shape m i t e m' ->
  ms_group_id m' = ms_group_id m /\ ms_genesis_voters m' = ms_genesis_voters m
  /\ ms_version m' = ms_version m /\ ms_retired m ⊆ ms_retired m'.
Proof. destruct 1; cbn; repeat split; set_solver. Qed.

(** A successful configuration entry preserves the history invariant, field by
    field. *)
Section preserved.
Context (c : CommittedMembership) (i t : N) (e : ConfigurationEntry) (m' : MembershipState).
Context (Hinv : cm_inv c) (Hi : cm_index c < i) (Ht : cm_term c <= t).
Context (Hs : apply_shape (cm_state c) i t e m').

Lemma apply_shape_pending id r :
  ms_records m' !! id = Some r -> ar_final_index r = None ->
  is_joint (ms_voters m') = true /\ ar_first_index r <= i /\ ar_first_term r <= t
  /\ validate_request_id id = Ok tt
  /\ forall id' r', ms_records m' !! id' = Some r' -> ar_final_index r' = None -> id' = id.
Proof.
  destruct Hs as [old new r0 _ Hpend _ _ _ _|new _ Hf _|? ? _ _ Hf|? _ _ Hf];
    cbn [ms_records ms_voters]; intros Hl' Hfin.
  - apply pending_Some in Hpend as [Hrec Hnone].
    destruct (ci_pending _ Hinv _ _ Hrec Hnone) as (_ & _ & _ & _ & Huniq).
    cbn in Hl'. destruct (decide (ce_request_id e = id)) as [<-|Hne].
    + rewrite lookup_alter_eq, Hrec in Hl'. injection Hl' as <-. done.
    + rewrite lookup_alter_ne in Hl' by done. by apply Huniq in Hl'.
  - apply first_phase_ok in Hf as (Hid & _ & _ & Hpend & _). cbn in Hl'.
    destruct (insert_record_pending _ _ _ _ _ Hpend Hl' Hfin) as [-> ->]. cbn.
    repeat split; try done; try lia. intros id2 r2 H2 Hf2.
    by destruct (insert_record_pending _ _ _ _ _ Hpend H2 Hf2).
  - apply first_phase_ok in Hf as (_ & _ & _ & Hpend & _). cbn in Hl'.
    destruct (insert_record_pending _ _ _ _ _ Hpend Hl' Hfin) as [-> ->]. done.
  - apply first_phase_ok in Hf as (_ & _ & _ & Hpend & _). cbn in Hl'.
    destruct (insert_record_pending _ _ _ _ _ Hpend Hl' Hfin) as [-> ->]. done.
Qed.

(** The legacy group refuses every entry. *)
Lemma apply_shape_not_legacy : ms_group_id (cm_state c) <> LEGACY_GROUP_ID.
Proof.
  destruct Hs as [old new r _ Hpend _ _ _ _|? _ Hf _|? ? _ _ Hf|? _ _ Hf];
    try (by apply first_phase_ok in Hf as (_ & ? & _)).
  intros Hleg%(ci_legacy _ Hinv). apply pending_Some in Hpend as [Hrec _].
  by rewrite Hleg in Hrec.
Qed.

Lemma apply_shape_valid : validate (ms_voters m') = Ok tt.
Proof.
  pose proof (ci_valid _ Hinv) as Hval.
  destruct Hs as [old new r _ _ _ Hvs _ _|new _ Hf Htv|? ? _ _ _|? _ _ _]; cbn; try done.
  - rewrite Hvs in Hval. cbn in Hval. result_inv. by destruct x.
  - destruct (target_voters_ok _ _ _ _ Hval Hf Htv) as [Hnew _].
    apply first_phase_ok in Hf as (_ & _ & _ & _ & Hj & _).
    apply Stable_of_not_joint in Hj as [vs Hvs]. rewrite Hvs in *. cbn in *.
    pose proof (validate_set_elim _ Hval) as (_ & Hinc & _).
    rewrite nset_list_of_increasing by done. by rewrite Hval.
Qed.

Lemma apply_shape_learners : voters (ms_voters m') ## ms_learners m'.
Proof.
  pose proof (ci_learners _ Hinv) as Hl.
  destruct Hs as [old new r _ _ _ Hvs _ _|new _ _ _|id ep _ Hop Hf|? _ _ _]; cbn.
  - rewrite Hvs in Hl. cbn in Hl. set_solver.
  - intros x Hx [Hx1 Hx2]%elem_of_difference. rewrite list_to_set_app_L in Hx.
    apply elem_of_union in Hx as [Hx|Hx]; [|done].
    apply elem_of_list_to_set, elem_of_btree_keys in Hx. set_solver.
  - apply first_phase_ok in Hf as (_ & _ & _ & _ & _ & Hok). rewrite Hop in Hok.
    unfold participants in Hok. set_solver.
  - set_solver.
Qed.

Lemma apply_shape_retired : participants m' ## ms_retired m'.
Proof.
  pose proof (ci_learners _ Hinv) as Hl. pose proof (ci_retired _ Hinv) as Hr.
  unfold participants in *.
  destruct Hs as [old new r _ _ _ Hvs _ _|new _ Hf Htv|id ep _ Hop Hf|id _ Hop Hf]; cbn.
  - rewrite Hvs in Hr, Hl. cbn in Hr, Hl. intros x Hx1 [Hx2|Hx2]%elem_of_union.
    + set_solver.
    + apply elem_of_list_to_set, list_elem_of_filter in Hx2 as [Hn Ho]. set_solver.
  - destruct (target_voters_ok _ _ _ _ (ci_valid _ Hinv) Hf Htv) as [_ Hnew].
    intros x Hx1 Hx2. apply (Hr x); [|done].
    rewrite list_to_set_app_L in Hx1. rewrite !elem_of_union in Hx1.
    destruct Hx1 as [[Hx|Hx]|Hx].
    + apply elem_of_list_to_set, elem_of_btree_keys in Hx. set_solver.
    + apply elem_of_list_to_set in Hx. by apply Hnew.
    + set_solver.
  - apply first_phase_ok in Hf as (_ & _ & _ & _ & _ & Hok). rewrite Hop in Hok.
    unfold participants in Hok. set_solver.
  - apply first_phase_ok in Hf as (_ & _ & _ & _ & _ & Hok). rewrite Hop in Hok.
    destruct Hok as [[_ Hin]|[? _]]; [|done]. set_solver.
Qed.

Lemma apply_shape_inv : cm_inv (mkCommittedMembership i t m').
Proof.
  destruct (apply_shape_identity _ _ _ _ _ Hs) as (Eg & Egv & Ev & _).
  split; cbn [cm_state cm_index cm_term]; rewrite ?Eg, ?Egv, ?Ev; try by destruct Hinv.
  - apply apply_shape_pending.
  - intros Hl. by destruct apply_shape_not_legacy.
  - apply apply_shape_valid.
  - apply apply_shape_learners.
  - apply apply_shape_retired.
Qed.
End preserved.

Lemma advanced_inv c i t e c' : cm_inv c -> advanced c i t e = Ok c' -> cm_inv c'.
Proof.
  intros Hc (Hi & Ht & _ & _ & <- & <- & Hs)%advanced_ok. destruct c' as [i' t' m'].
  by apply (apply_shape_inv c i' t' e).
Qed.

(** ** Histories

    [history g c]: [c] is reached from the genesis [g] by configuration entries. *)

Inductive history (g : CommittedMembership) : CommittedMembership -> Prop :=
| history_nil : history g g
| history_snoc c i t e c' : history g c -> advanced c i t e = Ok c' -> history g c'.

Definition is_genesis (g : CommittedMembership) : Prop :=
  cm_bootstrap_with_group (ms_group_id (cm_state g)) (ms_genesis_voters (cm_state g)) = Ok g.

Lemma bootstrap_is_genesis gid vs g : cm_bootstrap_with_group gid vs = Ok g -> is_genesis g.
Proof.
  intros H. unfold is_genesis. by destruct (bootstrap_inv _ _ _ H) as (_ & _ & _ & -> & -> & _).
Qed.

Lemma history_inv g c : is_genesis g -> history g c ->
  cm_inv c /\ ms_group_id (cm_state c) = ms_group_id (cm_state g)
  /\ ms_genesis_voters (cm_state c) = ms_genesis_voters (cm_state g).
Proof.
  intros Hg. induction 1 as [|c i t e c' _ (IH1 & IH2 & IH3) Ha].
  - by destruct (bootstrap_inv _ _ _ Hg).
  - split; [by eapply advanced_inv|].
    apply advanced_ok in Ha as (_ & _ & _ & _ & _ & _ & Hs).
    apply apply_shape_identity in Hs as (-> & -> & _). done.
Qed.

(** A legacy group never leaves its genesis. *)
Lemma history_legacy g c :
  is_genesis g -> ms_group_id (cm_state g) = LEGACY_GROUP_ID -> history g c -> c = g.
Proof.
  intros Hg Hl. destruct 1 as [|c i t e c' Hc Ha]; [done|exfalso].
  destruct (history_inv _ _ Hg Hc) as (Hinv & Hgid & _).
  apply advanced_ok in Ha as (_ & _ & _ & _ & _ & _ & Hs).
  apply (apply_shape_not_legacy _ _ _ _ _ Hinv Hs). congruence.
Qed.

Lemma replay_events_history g c l c' :
  history g c -> replay_events c l = Ok c' -> history g c'.
Proof.
  revert c. induction l as [|[[i t] e] l IH]; cbn; intros c Hc H; result_inv; [by subst|].
  eapply IH; [|done]. by eapply history_snoc.
Qed.

(** [validate] accepts only genuine histories. *)
Lemma cm_validate_history c : cm_validate c = Ok tt ->
  exists g, cm_bootstrap_with_group (ms_group_id (cm_state c)) (ms_genesis_voters (cm_state c))
            = Ok g /\ history g c.
Proof.
  unfold cm_validate. intros H. result_inv. bool_inv. subst.
  eexists; split; [done|]. eapply replay_events_history; [constructor|done].
Qed.

Lemma is_ok_unit (r : Result unit) : is_err r = false -> r = Ok tt.
Proof. by destruct r as [[]|]. Qed.

Lemma extension_ok c older : is_consistent_extension_of c older = true ->
  cm_validate c = Ok tt /\ cm_validate older = Ok tt
  /\ ms_group_id (cm_state c) = ms_group_id (cm_state older)
  /\ ms_genesis_voters (cm_state c) = ms_genesis_voters (cm_state older)
  /\ cm_index older <= cm_index c /\ cm_term older <= cm_term c.
Proof.
  unfold is_consistent_extension_of. intros H. bool_inv.
  repeat match goal with H : is_err _ = false |- _ => apply is_ok_unit in H end. done.
Qed.

Lemma validate_same_genesis g c :
  is_genesis g -> cm_validate c = Ok tt ->
  ms_group_id (cm_state c) = ms_group_id (cm_state g) ->
  ms_genesis_voters (cm_state c) = ms_genesis_voters (cm_state g) -> history g c.
Proof.
  intros Hg (g' & Hg' & Hh)%cm_validate_history E1 E2. rewrite E1, E2, Hg in Hg'.
  by injection Hg' as ->.
Qed.

Lemma extension_history g c older :
  is_genesis g -> history g older -> is_consistent_extension_of c older = true -> history g c.
Proof.
  intros Hg Ho (Hc & _ & E1 & E2 & _)%extension_ok.
  destruct (history_inv _ _ Hg Ho) as (_ & E3 & E4).
  apply validate_same_genesis; congruence.
Qed.

(** ** Replay of log entries *)

Lemma replay_all_app c l1 l2 :
  replay_all c (l1 ++ l2) = c' ← replay_all c l1; replay_all c' l2.
Proof.
  revert c. induction l1 as [|e l1 IH]; intros c; cbn; [done|].
  destruct (replay_entry c e); cbn; [apply IH|done].
Qed.

Lemma replay_entry_history g c e c' :
  history g c -> replay_entry c e = Ok c' -> history g c'.
Proof.
  unfold replay_entry. intros Hc H. destruct (e_command e); result_inv; subst; try done.
  by eapply history_snoc.
Qed.

Lemma replay_all_history g c l c' :
  history g c -> replay_all c l = Ok c' -> history g c'.
Proof.
  revert c. induction l as [|e l IH]; cbn; intros c Hc H; result_inv; [by subst|].
  eapply IH; [|done]. by eapply replay_entry_history.
Qed.

Lemma replay_all_bounds base prev cur c l c' :
  log_ok base prev cur l -> cm_index c <= base -> cm_term c <= prev ->
  replay_all c l = Ok c' -> cm_index c' <= base + len64 l /\ cm_term c' <= end_term prev l.
Proof.
  revert base prev c. induction l as [|e l IH]; cbn [replay_all]; intros base prev c Hok Hi Ht H.
  - injection H as <-. unfold len64, end_term. cbn. lia.
  - result_inv. destruct Hok as (He & Hte & Hok).
    assert (cm_index x <= base + 1 /\ cm_term x <= e_term e) as [Hx1 Hx2].
    { match goal with H : replay_entry _ _ = _ |- _ => revert H end. unfold replay_entry.
      destruct (e_command e); intros Hr; try (injection Hr as <-; lia).
      apply advanced_ok in Hr as (_ & _ & _ & _ & -> & -> & _). lia. }
    destruct (IH _ _ _ Hok Hx1 Hx2 H0) as [H1 H2].
    rewrite end_term_cons. unfold len64 in *. cbn [length]. split; [lia|done].
Qed.

(** Entries that carry no configuration leave a history alone. *)
Lemma replay_all_plain c l :
  (forall e, e ∈ l -> is_configuration (e_command e) = false) -> replay_all c l = Ok c.
Proof.
  revert c. induction l as [|e l IH]; cbn; intros c Hl; [done|].
  assert (replay_entry c e = Ok c) as ->.
  { unfold replay_entry. specialize (Hl e ltac:(left)). by destruct (e_command e). }
  cbn. apply IH. intros; apply Hl. by right.
Qed.

(** ** When a configuration entry is accepted *)

Lemma advanced_first c i t id op ph :
  cm_index c < i -> cm_term c <= t -> i < u64_max -> t <> 0 ->
  first_phase (cm_state c) id op = Ok ph ->
  exists c', advanced c i t (mkConfigurationEntry id op ph) = Ok c'.
Proof.
  intros Hi Ht Hmax Hz Hf. unfold advanced.
  destruct (N.leb_spec i (cm_index c)); [lia|]. destruct (N.ltb_spec t (cm_term c)); [lia|].
  cbn [orb]. unfold apply_entry.
  destruct (N.eqb_spec i 0); [lia|]. destruct (N.eqb_spec i u64_max); [lia|].
  destruct (N.eqb_spec t 0); [lia|]. cbn [orb ce_request_id ce_phase ce_operation].
  pose proof (first_phase_ok _ _ _ _ Hf) as (Hid & _ & _ & _ & _ & Hop).
  rewrite Hid. cbn [mbind Result_bind]. rewrite Hf.
  destruct op as [j ep|j|vs].
  - destruct Hop as [-> _]. cbn. eauto.
  - destruct Hop as [[-> _]|[-> _]]; cbn; eauto.
  - destruct Hop as [-> _]. cbn. eauto.
Qed.

Lemma advanced_final c i t id r :
  cm_inv c -> cm_index c < i -> cm_term c <= t -> i < u64_max -> t <> 0 ->
  pending (cm_state c) = Some (id, r) ->
  exists c', advanced c i t (mkConfigurationEntry id (ar_operation r) PhFinal) = Ok c'.
Proof.
  intros Hinv Hi Ht Hmax Hz Hp. unfold advanced.
  destruct (N.leb_spec i (cm_index c)); [lia|]. destruct (N.ltb_spec t (cm_term c)); [lia|].
  cbn [orb]. unfold apply_entry.
  destruct (N.eqb_spec i 0); [lia|]. destruct (N.eqb_spec i u64_max); [lia|].
  destruct (N.eqb_spec t 0); [lia|]. cbn [orb ce_request_id ce_phase ce_operation].
  pose proof (pending_Some _ _ _ Hp) as [Hrec Hfin].
  destruct (ci_pending _ Hinv _ _ Hrec Hfin) as (Hj & Hri & Hrt & Hid & _).
  rewrite Hid. cbn [mbind Result_bind]. rewrite bool_decide_eq_true_2 by done.
  unfold apply_final. rewrite Hp. cbn [ce_request_id ce_operation]. rewrite !eqb_refl. cbn [negb orb].
  destruct (N.leb_spec i (ar_first_index r)); [lia|].
  destruct (N.ltb_spec t (ar_first_term r)); [lia|]. cbn [orb].
  destruct (ms_voters (cm_state c)); [done|]. cbn. eauto.
Qed.

(** ** Safety of reconfiguration *)

Lemma joint_quorum_majorities old new v :
  has_quorum (Joint old new) v = true -> majority old v = true /\ majority new v = true.
Proof. unfold has_quorum. destruct (is_err _); [done|]. apply andb_true_iff. Qed.
Lemma stable_quorum_majority vs v : has_quorum (Stable vs) v = true -> majority vs v = true.
Proof. unfold has_quorum. by destruct (is_err _). Qed.

(** Each entry moves between configurations that share their majorities. *)
Lemma apply_shape_quorums c i t e m' v1 v2 :
  cm_inv c -> apply_shape (cm_state c) i t e m' ->
  has_quorum (ms_voters (cm_state c)) v1 = true -> has_quorum (ms_voters m') v2 = true ->
  exists x, x ∈ voters (ms_voters (cm_state c)) /\ x ∈ voters (ms_voters m')
            /\ x ∈ v1 /\ x ∈ v2.
Proof.
  intros Hinv Hs.
  destruct Hs as [old new r _ _ _ Hvs _ _|new _ Hf _|? ? _ _ _|? _ _ _]; cbn; intros H1 H2.
  - rewrite Hvs in *. apply joint_quorum_majorities in H1 as [_ H1].
    apply stable_quorum_majority in H2.
    destruct (majority_intersect _ _ _ H1 H2) as (x & ? & ? & ?). exists x. set_solver.
  - apply first_phase_ok in Hf as (_ & _ & _ & _ & Hj & _).
    apply Stable_of_not_joint in Hj as [vs Hvs].
    pose proof (ci_valid _ Hinv) as Hval. rewrite Hvs in *. cbn in *.
    pose proof (validate_set_elim _ Hval) as (_ & Hinc & _).
    rewrite nset_list_of_increasing in H2 |- * by done.
    apply stable_quorum_majority in H1. apply joint_quorum_majorities in H2 as [H2 _].
    destruct (majority_intersect _ _ _ H1 H2) as (x & ? & ? & ?). exists x. set_solver.
  - destruct (has_quorum_intersect _ _ _ H1 H2) as (x & ? & ? & ?). eauto.
  - destruct (has_quorum_intersect _ _ _ H1 H2) as (x & ? & ? & ?). eauto.
Qed.

(** (C38) Along every history of configuration entries from a valid bootstrap:
    the voter configuration is always valid, voters, learners and retired
    identities are pairwise disjoint, at most one operation is unfinished and
    then the configuration is joint, retired identities stay retired, and a
    quorum before an entry shares a voter of both configurations with every
    quorum after it. *)
Theorem reconfiguration_safe g c i t e c' :
  is_genesis g -> history g c -> advanced c i t e = Ok c' ->
  is_ok (validate (ms_voters (cm_state c'))) = true /\
  voters (ms_voters (cm_state c')) ## ms_learners (cm_state c') /\
  participants (cm_state c') ## ms_retired (cm_state c') /\
  (forall id r id' r',
     ms_records (cm_state c') !! id = Some r -> ar_final_index r = None ->
     ms_records (cm_state c') !! id' = Some r' -> ar_final_index r' = None ->
     id = id' /\ is_joint (ms_voters (cm_state c')) = true) /\
  ms_retired (cm_state c) ⊆ ms_retired (cm_state c') /\
  (forall v1 v2, has_quorum (ms_voters (cm_state c)) v1 = true ->
     has_quorum (ms_voters (cm_state c')) v2 = true ->
     exists x, x ∈ voters (ms_voters (cm_state c)) /\ x ∈ voters (ms_voters (cm_state c'))
               /\ x ∈ v1 /\ x ∈ v2).
Proof.
  intros Hg Hc Ha. destruct (history_inv _ _ Hg Hc) as (Hinv & _).
  pose proof (advanced_inv _ _ _ _ _ Hinv Ha) as Hinv'.
  apply advanced_ok in Ha as (_ & _ & _ & _ & _ & _ & Hs).
  repeat split.
  - by rewrite (ci_valid _ Hinv').
  - apply (ci_learners _ Hinv').
  - apply (ci_retired _ Hinv').
  - destruct (ci_pending _ Hinv' id r) as (_ & _ & _ & _ & Hu); eauto. symmetry. eauto.
  - by destruct (ci_pending _ Hinv' id r).
  - by apply apply_shape_identity in Hs as (_ & _ & _ & ?).
  - intros v1 v2. by eapply apply_shape_quorums.
Qed.
