(* ===== verification/History.v ===== *)
(** * The validator accepts exactly the genuine histories

    [CommittedMembership::validate] rebuilds a configuration from the bounded
    records it retains.  Here: every configuration reached by configuration
    entries passes, so that with [cm_validate_history] the validator decides
    reachability, and a later configuration of one history always extends an
    earlier one. *)
From S2P Require Import Prelude Rng Quorum Membership Types Node MembershipProtocol LogFacts.
From S2P Require Import MembershipFacts.
Local Open Scope N_scope.
Local Open Scope raft_scope.

(** ** Events of the records *)

Definition rec_events (p : string * AdminRecord) : list Event :=
  match record_events p.1 p.2 with Ok l => l | Err _ => [] end.

Definition records_ok (m : gmap string AdminRecord) : Prop :=
  forall id r, m !! id = Some r -> is_ok (record_events id r) = true.

Definition all_events (m : gmap string AdminRecord) : list Event :=
  flat_map rec_events (map_to_list m).

Lemma flat_map_perm {A B} (f : A -> list B) l1 l2 :
  l1 ≡ₚ l2 -> flat_map f l1 ≡ₚ flat_map f l2.
Proof. intros H. by apply Permutation_flat_map. Qed.

Lemma collect_events_ok l :
  (forall p, p ∈ l -> is_ok (record_events p.1 p.2) = true) ->
  collect_events l = Ok (flat_map rec_events l).
Proof.
  induction l as [|[id r] l IH]; intros Hl; [done|]. cbn.
  pose proof (Hl (id, r) ltac:(left)) as Hr. unfold rec_events at 1. cbn in *.
  destruct (record_events id r); [|done]. cbn. rewrite IH; [done|].
  intros p Hp. apply Hl. by right.
Qed.

Lemma collect_records m :
  records_ok m -> exists evs, collect_events (smap_iter m) = Ok evs /\ evs ≡ₚ all_events m.
Proof.
  intros Hm. eexists. split.
  - apply collect_events_ok. intros [id r] Hp. apply Hm. by apply elem_of_btree_iter in Hp.
  - apply flat_map_perm. unfold btree_iter. apply merge_sort_Permutation.
Qed.

Lemma all_events_insert m id r :
  m !! id = None -> all_events (<[id := r]> m) ≡ₚ all_events m ++ rec_events (id, r).
Proof.
  intros H. unfold all_events. rewrite (flat_map_perm _ _ _ (map_to_list_insert m id r H)).
  cbn. apply Permutation_app_comm.
Qed.

Lemma records_ok_insert m id r :
  records_ok m -> is_ok (record_events id r) = true -> records_ok (<[id := r]> m).
Proof.
  intros Hm Hr id' r'. rewrite lookup_insert_Some. intros [[-> ->]|[_ ?]]; [done|by apply Hm].
Qed.

(** ** The chain of events behind a configuration *)

Definition event_index (e : Event) : LogIndex := e.1.1.

Record chain_ok (c : CommittedMembership) (l : list Event) : Prop := {
  ch_records : records_ok (ms_records (cm_state c));
  ch_events : all_events (ms_records (cm_state c)) ≡ₚ l;
  ch_sorted : StronglySorted N.lt (map event_index l);
  ch_last : forall e, e ∈ l -> event_index e <= cm_index c;
  ch_room : N.of_nat (size (ms_records (cm_state c))) <= MAX_ADMIN_RECORDS;
}.

Lemma first_phase_room m id op ph : first_phase m id op = Ok ph ->
  N.of_nat (size (ms_records m)) < MAX_ADMIN_RECORDS.
Proof.
  unfold first_phase. intros H. result_inv.
  destruct (ms_records m !! id); [by destruct (eqb _ _) in H0|]. result_inv. by bool_inv.
Qed.

(** What one entry adds to the records. *)
Lemma apply_shape_events m i t e m' :
  records_ok (ms_records m) -> N.of_nat (size (ms_records m)) <= MAX_ADMIN_RECORDS ->
  apply_shape m i t e m' ->
  records_ok (ms_records m') /\ all_events (ms_records m') ≡ₚ all_events (ms_records m) ++ [(i, t, e)]
  /\ N.of_nat (size (ms_records m')) <= MAX_ADMIN_RECORDS.
Proof.
  intros Hok Hsz Hs. destruct e as [id op ph].
  assert (Hins : forall r, first_phase m id op = Ok ph -> is_ok (record_events id r) = true ->
    rec_events (id, r) = [(i, t, mkConfigurationEntry id op ph)] ->
    records_ok (<[id := r]> (ms_records m))
    /\ all_events (<[id := r]> (ms_records m))
       ≡ₚ all_events (ms_records m) ++ [(i, t, mkConfigurationEntry id op ph)]
    /\ N.of_nat (size (<[id := r]> (ms_records m))) <= MAX_ADMIN_RECORDS).
  { intros r Hf Hr He. pose proof (first_phase_room _ _ _ _ Hf).
    apply first_phase_ok in Hf as (_ & _ & Hn & _).
    split; [by apply records_ok_insert|]. split; [by rewrite all_events_insert, He|].
    rewrite map_size_insert_None by done. lia. }
  destruct Hs as [old new r Hp Hpend Hop _ _ _|new Hp Hf _|? ? Hp _ Hf|? Hp _ Hf];
    cbn in *; subst.
  - apply pending_Some in Hpend as [Hrec Hnone]. pose proof (Hok _ _ Hrec) as Hr.
    assert (Hd : ms_records m = <[id := r]> (delete id (ms_records m))).
    { by rewrite insert_delete_id. }
    set (r' := r <| ar_final_index := Some i |> <| ar_final_term := Some t |>).
    assert (Ha : alter (fun r => r <| ar_final_index := Some i |> <| ar_final_term := Some t |>) id
                   (ms_records m) = <[id := r']> (delete id (ms_records m))).
    { rewrite insert_delete_eq. apply map_eq. intros j. destruct (decide (id = j)) as [<-|Hne].
      - by rewrite lookup_alter_eq, lookup_insert_eq, Hrec.
      - by rewrite lookup_alter_ne, lookup_insert_ne. }
    rewrite Ha. rewrite Hd in Hsz. rewrite Hd at 3.
    rewrite !all_events_insert by apply lookup_delete_eq.
    rewrite !map_size_insert_None in * by apply lookup_delete_eq.
    unfold record_events in Hr. rewrite Hnone in Hr.
    destruct (ar_final_term r) eqn:Hft; [done|]. destruct (ar_joint r) eqn:Hj; [|done].
    split; [|split].
    + apply records_ok_insert.
      * intros id' r0 [_ H0]%lookup_delete_Some. by apply Hok.
      * unfold record_events, r'. cbn. by rewrite Hj.
    + unfold rec_events, record_events, r'. cbn. rewrite Hnone, Hft, Hj. cbn.
      by rewrite <- app_assoc.
    + done.
  - by apply Hins.
  - apply Hins; [done|..]; unfold rec_events, record_events; cbn; by rewrite !N.eqb_refl.
  - apply Hins; [done|..]; unfold rec_events, record_events; cbn; by rewrite !N.eqb_refl.
Qed.

Lemma strong_snoc {A} (R : relation A) l x :
  StronglySorted R l -> (forall y, y ∈ l -> R y x) -> StronglySorted R (l ++ [x]).
Proof.
  induction 1 as [|y l HS IH HF]; intros Hx; cbn; constructor.
  - constructor.
  - constructor.
  - apply IH. intros z Hz. apply Hx. by right.
  - apply Forall_app. split; [done|]. constructor; [|constructor]. apply Hx. left.
Qed.

Lemma replay_events_snoc c l i t e :
  replay_events c (l ++ [(i, t, e)]) = c' ← replay_events c l; advanced c' i t e.
Proof.
  revert c. induction l as [|[[i1 t1] e1] l IH]; intros c; cbn.
  - by destruct (advanced c i t e).
  - destruct (advanced c i1 t1 e1); cbn; [apply IH|done].
Qed.

Lemma history_chain g c : is_genesis g -> history g c ->
  exists l, replay_events g l = Ok c /\ chain_ok c l.
Proof.
  intros Hg. induction 1 as [|c i t e c' _ (l & Hl & [H1 H2 H3 H4 H5]) Ha].
  - exists []. destruct (bootstrap_inv _ _ _ Hg) as (_ & _ & _ & _ & _ & Hr & _).
    split; [done|]. split; rewrite ?Hr.
    + intros id r. by rewrite lookup_empty.
    + unfold all_events. by rewrite map_to_list_empty.
    + constructor.
    + intros e He. by apply not_elem_of_nil in He.
    + by rewrite map_size_empty.
  - exists (l ++ [(i, t, e)]). rewrite replay_events_snoc, Hl. split; [done|].
    apply advanced_ok in Ha as (Hi & _ & _ & _ & Hci & _ & Hs).
    destruct (apply_shape_events _ _ _ _ _ H1 H5 Hs) as (R1 & R2 & R3). split; try done.
    + rewrite R2. by rewrite H2.
    + rewrite map_app. cbn. apply strong_snoc; [done|]. intros y Hy.
      rewrite list_elem_of_In in Hy. apply in_map_iff in Hy as (x & <- & Hx).
      rewrite <- list_elem_of_In in Hx. apply H4 in Hx. unfold event_index in *. cbn. lia.
    + intros x [Hx|Hx%list_elem_of_singleton]%elem_of_app.
      * apply H4 in Hx. lia.
      * subst x. unfold event_index. cbn. lia.
Qed.

(** ** Sorting finds the chain *)

Definition event_lt : relation Event := fun a b => event_index a < event_index b.
Definition event_le : relation Event := fun a b => event_index a <= event_index b.
#[local] Instance event_lt_anti : AntiSymm (=) event_lt.
Proof. intros a b. unfold event_lt. lia. Qed.
#[local] Instance event_lt_trans : Transitive event_lt.
Proof. intros a b c. unfold event_lt. lia. Qed.

Lemma insert_event_perm e l : insert_event e l ≡ₚ e :: l.
Proof.
  induction l as [|f l IH]; cbn; [done|]. destruct (_ <? _); [done|].
  rewrite IH. apply perm_swap.
Qed.

Lemma insert_event_sorted e l :
  StronglySorted event_le l -> StronglySorted event_le (insert_event e l).
Proof.
  induction 1 as [|f l HS IH HF]; cbn; [by constructor; constructor|].
  destruct (N.ltb_spec (e.1.1) (f.1.1)) as [Hlt|Hge].
  - constructor; [by constructor|]. constructor; [unfold event_le, event_index; lia|].
    eapply Forall_impl; [|exact HF]. unfold event_le, event_index. intros; lia.
  - constructor; [done|]. rewrite insert_event_perm. constructor; [done|exact HF].
Qed.

Lemma sort_events_spec l acc :
  StronglySorted event_le acc ->
  StronglySorted event_le (fold_left (fun acc e => insert_event e acc) l acc)
  /\ fold_left (fun acc e => insert_event e acc) l acc ≡ₚ l ++ acc.
Proof.
  revert acc. induction l as [|e l IH]; intros acc Ha; [done|]. cbn [fold_left].
  destruct (IH (insert_event e acc)) as [H1 H2]; [by apply insert_event_sorted|].
  split; [done|]. rewrite H2, insert_event_perm. symmetry. apply Permutation_middle.
Qed.

Lemma sorted_strict l :
  StronglySorted event_le l -> NoDup (map event_index l) -> StronglySorted event_lt l.
Proof.
  induction 1 as [|e l HS IH HF]; cbn; intros Hnd; [constructor|].
  apply list.NoDup_cons in Hnd as [Hni Hnd]. constructor; [by apply IH|].
  rewrite list.Forall_forall in HF |- *. intros f Hf. specialize (HF f Hf).
  unfold event_lt, event_le in *. enough (event_index e <> event_index f) by lia.
  intros E. apply Hni. rewrite E. by apply list_elem_of_In, in_map, list_elem_of_In.
Qed.

Lemma strict_nodup l : StronglySorted N.lt l -> NoDup l.
Proof.
  induction 1 as [|a l HS IH HF]; constructor; [|done]. intros Hin.
  rewrite list.Forall_forall in HF. apply HF in Hin. lia.
Qed.

Lemma strict_events l : StronglySorted N.lt (map event_index l) -> StronglySorted event_lt l.
Proof.
  induction l as [|e l IH]; cbn; intros H; [constructor|].
  apply StronglySorted_inv in H as [H1 H2]. constructor; [by apply IH|].
  apply List.Forall_forall. intros f Hf. apply (proj1 (List.Forall_forall _ _) H2).
  by apply in_map.
Qed.

Lemma sort_events_chain l evs :
  evs ≡ₚ l -> StronglySorted N.lt (map event_index l) -> sort_events evs = l.
Proof.
  intros Hp Hs. destruct (sort_events_spec evs [] ltac:(constructor)) as [H1 H2].
  rewrite app_nil_r in H2. fold (sort_events evs) in *.
  apply (StronglySorted_unique event_lt); [|by apply strict_events|by rewrite H2].
  apply sorted_strict; [done|]. rewrite H2, Hp. by apply strict_nodup.
Qed.

(** Every configuration reached by entries passes the validator. *)
Lemma cm_validate_complete g c : is_genesis g -> history g c -> cm_validate c = Ok tt.
Proof.
  intros Hg Hh. destruct (history_inv _ _ Hg Hh) as (Hinv & E1 & E2).
  destruct (history_chain _ _ Hg Hh) as (l & Hl & [H1 H2 H3 H4 H5]).
  unfold cm_validate. rewrite (ci_version _ Hinv). cbn [N.eqb negb orb].
  destruct (N.ltb_spec MAX_ADMIN_RECORDS (N.of_nat (size (ms_records (cm_state c))))); [lia|].
  cbn. rewrite E1, E2, Hg. cbn.
  destruct (collect_records _ H1) as (evs & -> & Hp). cbn.
  rewrite (sort_events_chain l evs); [|by rewrite Hp|done]. rewrite Hl. cbn. by rewrite eqb_refl.
Qed.

(** (C37) The validator of a retained configuration accepts exactly the
    configurations that configuration entries reach from the genesis it names:
    no forged record, boundary or voter set passes, and no genuine history is
    refused. *)
Theorem cm_validate_iff_history c :
  cm_validate c = Ok tt <->
  exists g, cm_bootstrap_with_group (ms_group_id (cm_state c)) (ms_genesis_voters (cm_state c))
            = Ok g /\ history g c.
Proof.
  split; [apply cm_validate_history|]. intros (g & Hg & Hh).
  eapply cm_validate_complete; [by eapply bootstrap_is_genesis|done].
Qed.

(** ** Later configurations extend earlier ones *)

Lemma history_trans g c c' : history g c -> history c c' -> history g c'.
Proof. intros H1. induction 1; [done|]. by eapply history_snoc. Qed.

Lemma history_mono c c' : history c c' -> cm_index c <= cm_index c' /\ cm_term c <= cm_term c'.
Proof.
  induction 1 as [|c1 i t e c' _ IH Ha]; [lia|].
  apply advanced_ok in Ha as (? & ? & _ & _ & ? & ? & _). lia.
Qed.

(** How the records of a later configuration relate to those at [oi]. *)
Definition records_extend (oi : LogIndex) (old new : gmap string AdminRecord) : Prop :=
  (forall id r, old !! id = Some r ->
     exists r', new !! id = Some r' /\ record_extends oi r r' = true)
  /\ (forall id r, new !! id = Some r -> old !! id = None -> oi < ar_first_index r).

Lemma record_extends_refl oi r : record_extends oi r r = true.
Proof.
  unfold record_extends. rewrite !eqb_refl, !N.eqb_refl, Bool.eqb_reflx. cbn.
  by destruct (ar_final_index r).
Qed.

Lemma record_extends_final oi old r i t :
  record_extends oi old r = true -> ar_final_index r = None -> oi < i ->
  record_extends oi old (r <| ar_final_index := Some i |> <| ar_final_term := Some t |>) = true.
Proof.
  unfold record_extends. intros H Hn Hi. rewrite Hn in H. cbn in *. bool_inv.
  destruct (ar_final_index old) as [j|] eqn:Ho; [done|]. cbn in *.
  destruct (N.leb_spec i oi); [lia|]. cbn. rewrite !andb_true_r.
  repeat (apply andb_true_iff; split); first [done | by apply eqb_true | by apply N.eqb_eq].
Qed.

Lemma records_extend_insert oi old new id r :
  records_extend oi old new -> new !! id = None -> oi < ar_first_index r ->
  records_extend oi old (<[id := r]> new).
Proof.
  intros [H1 H2] Hn Hi. split.
  - intros id' r0 H0. destruct (H1 _ _ H0) as (r' & Hr' & He). exists r'.
    rewrite lookup_insert_ne; [done|]. congruence.
  - intros id' r'. rewrite lookup_insert_Some. intros [[-> ->]|[_ ?]] Ho; [done|by eapply H2].
Qed.

Lemma records_extend_step oi old m i t e m' :
  records_extend oi old (ms_records m) -> oi < i -> apply_shape m i t e m' ->
  records_extend oi old (ms_records m').
Proof.
  intros Hx Hi Hs.
  destruct Hs as [? ? r _ Hpend _ _ _ _|? _ Hf _|? ? _ _ Hf|? _ _ Hf]; cbn;
    try (apply first_phase_ok in Hf as (_ & _ & Hn & _); by apply records_extend_insert).
  apply pending_Some in Hpend as [Hrec Hnone]. destruct Hx as [H1 H2]. split.
  - intros id r0 H0. destruct (H1 _ _ H0) as (r' & Hr' & He).
    destruct (decide (ce_request_id e = id)) as [<-|Hne].
    + rewrite lookup_alter_eq, Hrec. eexists. split; [done|].
      apply record_extends_final; [|done|done]. congruence.
    + exists r'. by rewrite lookup_alter_ne.
  - intros id r0 H0 Ho. destruct (decide (ce_request_id e = id)) as [<-|Hne].
    + rewrite lookup_alter_eq, Hrec in H0. injection H0 as <-. cbn. by eapply H2.
    + rewrite lookup_alter_ne in H0 by done. by eapply H2.
Qed.

Lemma history_records c c' : history c c' ->
  records_extend (cm_index c) (ms_records (cm_state c)) (ms_records (cm_state c')).
Proof.
  induction 1 as [|c1 i t e c' Hh IH Ha].
  - split; [|congruence]. intros id r Hr. exists r. split; [done|]. apply record_extends_refl.
  - pose proof (history_mono _ _ Hh) as [Hm _].
    apply advanced_ok in Ha as (Hi & _ & _ & _ & _ & _ & Hs).
    eapply records_extend_step; [exact IH| |exact Hs]. lia.
Qed.

Lemma extension_complete g c c' :
  is_genesis g -> history g c -> history c c' -> is_consistent_extension_of c' c = true.
Proof.
  intros Hg Hc Hx. pose proof (history_trans _ _ _ Hc Hx) as Hc'.
  destruct (history_inv _ _ Hg Hc) as (_ & E1 & E2).
  destruct (history_inv _ _ Hg Hc') as (_ & E3 & E4).
  destruct (history_mono _ _ Hx) as [Hi Ht]. destruct (history_records _ _ Hx) as [H1 H2].
  unfold is_consistent_extension_of, is_err.
  rewrite (cm_validate_complete _ _ Hg Hc), (cm_validate_complete _ _ Hg Hc').
  rewrite E1, E2, E3, E4, !eqb_refl. cbn [is_ok negb orb].
  destruct (N.ltb_spec (cm_index c') (cm_index c)); [lia|].
  destruct (N.ltb_spec (cm_term c') (cm_term c)); [lia|]. cbn [negb orb andb].
  apply andb_true_iff. split; apply forallb_forall.
  - intros [id r] Hin. rewrite <- list_elem_of_In in Hin. apply elem_of_btree_iter in Hin.
    by destruct (H1 _ _ Hin) as (r' & -> & ->).
  - intros [id r] Hin. rewrite <- list_elem_of_In in Hin. apply elem_of_btree_iter in Hin.
    destruct (ms_records (cm_state c) !! id) eqn:Ho; [done|]. cbn.
    specialize (H2 _ _ Hin Ho). by destruct (N.leb_spec (ar_first_index r) (cm_index c)); [lia|].
Qed.

(** Replaying log entries is a history. *)
Lemma replay_all_reach c l c' : replay_all c l = Ok c' -> history c c'.
Proof. apply replay_all_history. constructor. Qed.
