(* ===== verification/Effects.v ===== *)
(** * Effect batches

    What a driver may do with the ordered effects of one step: the durable
    state they write, the applied watermark they advance, and the order in which
    durable and externally visible effects may appear. *)
From S2P Require Import Prelude Rng Quorum Membership Types Node.
Local Open Scope N_scope.
Local Open Scope raft_scope.

(** ** Durable state

    The simulator's virtual disk: [disk_hard], [disk_log] and the descriptor of
    [disk_snapshot]. *)

Record Disk := mkDisk {
  disk_hard : HardState;
  disk_log : list Entry;
  disk_snapshot : option SnapshotDescriptor;
}.
#[export] Instance Disk_eq_dec : EqDecision Disk.
Proof. solve_decision. Defined.
#[export] Instance Disk_eta : Eta Disk := fun d =>
  mkDisk (disk_hard d) (disk_log d) (disk_snapshot d).

(** What must be on disk for a node's state to be durable. *)
Definition durable (n : RaftNode) : Disk := mkDisk (hard n) (log n) (snapshot n).

(** The persistence arms of the simulator's [execute_effects]. *)
Definition persist (d : Disk) (e : Effect) : Disk :=
  match e with
  | PersistHardState hs => d <| disk_hard := hs |>
  | PersistLogEntries truncate_from entries =>
      let kept := match truncate_from with
                  | Some from => filter (fun e => e_index e < from) (disk_log d)
                  | None => disk_log d
                  end in
      d <| disk_log := kept ++ entries |>
  | _ => d
  end.

Definition exec (es : list Effect) (d : Disk) : Disk := fold_left persist es d.

Lemma exec_app es1 es2 d : exec (es1 ++ es2) d = exec es2 (exec es1 d).
Proof. apply fold_left_app. Qed.

(** ** Kinds of effects *)

Definition is_persist (e : Effect) : bool :=
  match e with PersistHardState _ | PersistLogEntries _ _ => true | _ => false end.

(** Announced once the term is durable: stepping down and the reads it cancels. *)
Definition is_weak (e : Effect) : bool :=
  match e with
  | RoleChanged name _ => eqb name "Follower"%string
  | ReadRejected _ _ _ => true
  | _ => false
  end.

(** Not an observation of durable state. *)
Definition is_neutral (e : Effect) : bool :=
  match e with CancelSnapshot _ | SnapshotRejected _ => true | _ => false end.

Definition is_strong (e : Effect) : bool := negb (is_persist e || is_weak e || is_neutral e).

Definition is_apply (e : Effect) : bool :=
  match e with Apply _ | ApplySnapshot _ => true | _ => false end.

(** ** Phases of a batch

    Term adoption, then persistence (with step-downs in between), then
    everything that needs the whole state to be durable. *)

Inductive phase : Type := PPre | PQuiet | PMid | PPost | PRun | PAdopt | PBatch.

Definition pre_eff (e : Effect) : bool :=
  match e with PersistHardState _ => true | _ => is_neutral e end.
Definition quiet_eff (e : Effect) : bool := is_weak e || is_neutral e.
Definition mid_eff (term : Term) (e : Effect) : bool :=
  match e with
  | PersistHardState hs => current_term hs =? term
  | PersistLogEntries _ _ => true
  | _ => quiet_eff e
  end.
Definition post_eff (e : Effect) : bool := negb (is_persist e).

Definition all (p : Effect -> bool) (es : list Effect) : Prop := forall e, e ∈ es -> p e = true.

Definition run_ok (term : Term) (es : list Effect) : Prop :=
  exists a b, es = a ++ b /\ all (mid_eff term) a /\ all post_eff b.

(** The term on disk after a batch that starts at term [t]. *)
Definition term_run (t : Term) (es : list Effect) : Term :=
  fold_left (fun t e => match e with PersistHardState hs => current_term hs | _ => t end) es t.

Definition pre_ok (t t' : Term) (es : list Effect) : Prop :=
  all pre_eff es /\ term_run t es = t'.
Definition adopt_ok (t t' : Term) (es : list Effect) : Prop :=
  exists a b, es = a ++ b /\ pre_ok t t' a /\ all quiet_eff b.
Definition batch_ok (t t' : Term) (es : list Effect) : Prop :=
  exists a b, es = a ++ b /\ pre_ok t t' a /\ run_ok t' b.

(** [phase_ok ph t t' es]: a batch of phase [ph] that takes term [t] to [t']. *)
Definition phase_ok (ph : phase) (t t' : Term) (es : list Effect) : Prop :=
  match ph with
  | PPre => pre_ok t t' es
  | PQuiet => t' = t /\ all quiet_eff es
  | PMid => t' = t /\ all (mid_eff t) es
  | PPost => t' = t /\ all post_eff es
  | PRun => t' = t /\ run_ok t es
  | PAdopt => adopt_ok t t' es
  | PBatch => batch_ok t t' es
  end.

(** Which phases may follow each other, and what the whole is. *)
Inductive seq_ok : phase -> phase -> phase -> Prop :=
| seq_quiet_l ph : ph = PQuiet \/ ph = PMid \/ ph = PPost \/ ph = PRun -> seq_ok PQuiet ph ph
| seq_quiet_r ph : ph = PMid \/ ph = PPost \/ ph = PRun \/ ph = PBatch -> seq_ok ph PQuiet ph
| seq_quiet_post : seq_ok PQuiet PPost PRun
| seq_mid_mid : seq_ok PMid PMid PMid
| seq_mid_post : seq_ok PMid PPost PRun
| seq_mid_run : seq_ok PMid PRun PRun
| seq_post_post : seq_ok PPost PPost PPost
| seq_run_post : seq_ok PRun PPost PRun
| seq_pre_pre : seq_ok PPre PPre PPre
| seq_pre_quiet : seq_ok PPre PQuiet PAdopt
| seq_adopt_quiet : seq_ok PAdopt PQuiet PAdopt
| seq_adopt ph : ph = PMid \/ ph = PPost \/ ph = PRun -> seq_ok PAdopt ph PBatch
| seq_pre ph : ph <> PPre -> seq_ok PPre ph PBatch
| seq_batch_post : seq_ok PBatch PPost PBatch.
#[export] Hint Constructors seq_ok : raft.

Lemma all_nil p : all p [].
Proof. intros e He. by apply not_elem_of_nil in He. Qed.
Lemma all_app p es1 es2 : all p (es1 ++ es2) <-> all p es1 /\ all p es2.
Proof. unfold all. setoid_rewrite elem_of_app. naive_solver. Qed.
Lemma all_cons p e es : all p (e :: es) <-> p e = true /\ all p es.
Proof. unfold all. setoid_rewrite elem_of_cons. naive_solver. Qed.
Lemma all_impl (p q : Effect -> bool) es :
  (forall e, p e = true -> q e = true) -> all p es -> all q es.
Proof. unfold all. naive_solver. Qed.
#[export] Hint Resolve all_nil : raft.

Lemma quiet_mid t e : quiet_eff e = true -> mid_eff t e = true.
Proof. by destruct e. Qed.
Lemma quiet_post e : quiet_eff e = true -> post_eff e = true.
Proof. by destruct e. Qed.
Lemma all_quiet_mid t es : all quiet_eff es -> all (mid_eff t) es.
Proof. apply all_impl, quiet_mid. Qed.
Lemma all_quiet_post es : all quiet_eff es -> all post_eff es.
Proof. apply all_impl, quiet_post. Qed.
Lemma mid_run t es : all (mid_eff t) es -> run_ok t es.
Proof. exists es, []. by rewrite app_nil_r; auto with raft. Qed.
Lemma post_run t es : all post_eff es -> run_ok t es.
Proof. exists [], es. auto with raft. Qed.
Lemma pre_nil t : pre_ok t t [].
Proof. split; auto with raft. Qed.
Lemma pre_app t t1 t2 es1 es2 :
  pre_ok t t1 es1 -> pre_ok t1 t2 es2 -> pre_ok t t2 (es1 ++ es2).
Proof.
  intros [H1 <-] [H2 <-]. split; [by rewrite all_app|]. unfold term_run. apply fold_left_app.
Qed.
#[export] Hint Resolve pre_nil : raft.
Lemma neutral_pre t es : all is_neutral es -> pre_ok t t es.
Proof.
  intros H. split; [eapply all_impl; [|exact H]; by intros []|].
  unfold term_run. induction es as [|e es IH]; [done|]. cbn.
  rewrite all_cons in H. destruct H as [He Hes]. destruct e; try done; by apply IH.
Qed.
Lemma run_batch t es : run_ok t es -> batch_ok t t es.
Proof. exists [], es. auto with raft. Qed.
#[export] Hint Resolve all_quiet_mid all_quiet_post mid_run post_run run_batch : raft.

Lemma run_ok_app_mid t es1 es2 : all (mid_eff t) es1 -> run_ok t es2 -> run_ok t (es1 ++ es2).
Proof.
  intros H1 (a & b & -> & Ha & Hb). exists (es1 ++ a), b. rewrite app_assoc.
  by rewrite all_app.
Qed.
Lemma run_ok_app_post t es1 es2 : run_ok t es1 -> all post_eff es2 -> run_ok t (es1 ++ es2).
Proof.
  intros (a & b & -> & Ha & Hb) H2. exists a, (b ++ es2). rewrite app_assoc. by rewrite all_app.
Qed.
Lemma batch_ok_app_pre t t1 t2 es1 es2 :
  pre_ok t t1 es1 -> batch_ok t1 t2 es2 -> batch_ok t t2 (es1 ++ es2).
Proof.
  intros H1 (a & b & -> & Ha & Hb). exists (es1 ++ a), b. rewrite app_assoc.
  eauto using pre_app.
Qed.
Lemma adopt_batch t t' es1 es2 : adopt_ok t t' es1 -> run_ok t' es2 -> batch_ok t t' (es1 ++ es2).
Proof.
  intros (a & b & -> & Ha & Hb) H2. exists a, (b ++ es2). rewrite app_assoc.
  split; [done|]. split; [done|]. apply run_ok_app_mid; [by apply all_quiet_mid|done].
Qed.
Lemma batch_ok_app_post t t' es1 es2 :
  batch_ok t t' es1 -> all post_eff es2 -> batch_ok t t' (es1 ++ es2).
Proof.
  intros (a & b & -> & Ha & Hb) H2. exists a, (b ++ es2). rewrite app_assoc.
  auto using run_ok_app_post.
Qed.

(** Peeling the first effect off a batch. *)
Lemma batch_ok_cons t t' e es :
  batch_ok t t' (e :: es) ->
  batch_ok (term_run t [e]) t' es
  /\ (is_weak e = true -> t = t') /\ (is_strong e = true -> all post_eff es).
Proof.
  intros (a & b & Hab & [Ha Ht] & Hb). destruct a as [|x a]; cbn [app] in Hab.
  - subst b. cbn in Ht. subst t'. destruct Hb as (c & d & Hcd & Hc & Hd).
    destruct c as [|x c]; cbn [app] in Hcd.
    + subst d. rewrite all_cons in Hd. destruct Hd as [He Hd].
      assert (term_run t [e] = t) as -> by (by destruct e). auto with raft.
    + injection Hcd as <- ->. rewrite all_cons in Hc. destruct Hc as [He Hc].
      assert (term_run t [e] = t) as ->.
      { destruct e; try done. cbn in *. by apply N.eqb_eq in He. }
      split; [|split]; [|done|].
      * apply run_batch. by exists c, d.
      * intros Hs. exfalso. destruct e; try done; cbn in *; unfold is_strong in Hs; cbn in Hs.
        unfold quiet_eff in He. cbn in He. rewrite orb_false_r in He. by rewrite He in Hs.
  - injection Hab as <- ->. rewrite all_cons in Ha. destruct Ha as [He Ha].
    split; [|split].
    + exists a, b. split; [done|]. split; [|done]. by split.
    + intros Hw. by destruct e.
    + intros Hs. by destruct e.
Qed.

(** Every phase is a batch. *)
Lemma phase_batch ph t t' es : phase_ok ph t t' es -> batch_ok t t' es.
Proof.
  destruct ph; cbn.
  - intros H. exists es, []. rewrite app_nil_r. split; [done|]. split; [done|].
    apply mid_run. auto with raft.
  - intros [-> H]. apply run_batch, post_run. by apply all_quiet_post.
  - intros [-> H]. by apply run_batch, mid_run.
  - intros [-> H]. by apply run_batch, post_run.
  - intros [-> H]. by apply run_batch.
  - intros H. rewrite <- (app_nil_r es). apply adopt_batch; [done|]. apply mid_run.
    auto with raft.
  - done.
Qed.

Lemma phase_ok_seq ph1 ph2 ph t t1 t2 es1 es2 :
  seq_ok ph1 ph2 ph -> phase_ok ph1 t t1 es1 -> phase_ok ph2 t1 t2 es2 ->
  phase_ok ph t t2 (es1 ++ es2).
Proof.
  destruct 1 as [ph Hph|ph Hph| | | | | | | | | |ph Hph|ph Hph|].
  - intros [-> H1] H2. destruct Hph as [->|[->|[->| ->]]]; destruct H2 as [-> H2]; (split; [done|]).
    + by rewrite all_app.
    + rewrite all_app. split; [|done]. by apply all_quiet_mid.
    + rewrite all_app. split; [|done]. by apply all_quiet_post.
    + apply run_ok_app_mid; [|done]. by apply all_quiet_mid.
  - intros H1 [-> H2].
    assert (all post_eff es2) by (by apply all_quiet_post).
    destruct Hph as [->|[->|[->| ->]]].
    + destruct H1 as [-> H1]. split; [done|]. rewrite all_app. split; [done|].
      by apply all_quiet_mid.
    + destruct H1 as [-> H1]. split; [done|]. by rewrite all_app.
    + destruct H1 as [-> H1]. split; [done|]. by apply run_ok_app_post.
    + by apply batch_ok_app_post.
  - intros [-> H1] [-> H2]. split; [done|]. apply run_ok_app_mid; auto with raft.
  - intros [-> H1] [-> H2]. split; [done|]. by rewrite all_app.
  - intros [-> H1] [-> H2]. split; [done|]. apply run_ok_app_mid; auto with raft.
  - intros [-> H1] [-> H2]. split; [done|]. by apply run_ok_app_mid.
  - intros [-> H1] [-> H2]. split; [done|]. by rewrite all_app.
  - intros [-> H1] [-> H2]. split; [done|]. by apply run_ok_app_post.
  - intros H1 H2. by eapply pre_app.
  - intros H1 [-> H2]. by exists es1, es2.
  - intros (a & b & -> & Ha & Hb) [-> H2]. exists a, (b ++ es2). rewrite app_assoc.
    by rewrite all_app.
  - intros H1 H2. destruct Hph as [->|[->| ->]]; destruct H2 as [-> H2];
      (apply adopt_batch; [done|]); auto with raft.
  - intros H1 H2. eapply batch_ok_app_pre; [done|]. by eapply phase_batch.
  - intros H1 [-> H2]. by apply batch_ok_app_post.
Qed.

(** A phase that allows more. *)
Definition phase_le (ph ph' : phase) : Prop :=
  match ph, ph' with
  | PQuiet, (PQuiet | PMid | PPost | PRun | PBatch) | PMid, (PMid | PRun | PBatch)
  | PPost, (PPost | PRun | PBatch) | PRun, (PRun | PBatch) | PPre, (PPre | PBatch)
  | PAdopt, (PAdopt | PBatch) | PBatch, PBatch => True
  | _, _ => False
  end.

Lemma phase_weaken ph ph' t t' es :
  phase_ok ph t t' es ->
  phase_le ph ph' -> phase_ok ph' t t' es.
Proof.
  intros H. destruct ph, ph'; cbn in *; try done; intros _.
  all: try (destruct H as [-> H]; split; [done|]).
  all: auto with raft.
  - by apply (phase_batch PPre t t' es).
  - destruct H as [-> H]. auto with raft.
  - destruct H as [-> H]. auto with raft.
  - destruct H as [-> H]. auto with raft.
  - destruct H as [-> H]. auto with raft.
  - by apply (phase_batch PAdopt t t' es).
Qed.

(** ** The applied watermark *)

(** [Apply] must hit the next index, [ApplySnapshot] jumps to its boundary. *)
Definition applied_step (acc : option LogIndex) (e : Effect) : option LogIndex :=
  match e with
  | Apply entry => w ← acc; if e_index entry =? w + 1 then Some (w + 1) else None
  | ApplySnapshot d => w ← acc; Some (last_included_index (metadata d))
  | _ => acc
  end.
Definition applied_run (w : LogIndex) (es : list Effect) : option LogIndex :=
  fold_left applied_step es (Some w).

Lemma applied_run_app w w1 es1 es2 :
  applied_run w es1 = Some w1 -> applied_run w (es1 ++ es2) = applied_run w1 es2.
Proof. unfold applied_run. rewrite fold_left_app. by intros ->. Qed.

Lemma applied_run_none w es : all (fun e => negb (is_apply e)) es -> applied_run w es = Some w.
Proof.
  unfold applied_run. induction es as [|e es IH]; cbn; [done|].
  rewrite all_cons. intros [He Hes]. destruct e; try done; by apply IH.
Qed.

Lemma exec_none es d : all post_eff es -> exec es d = d.
Proof.
  unfold exec. induction es as [|e es IH]; cbn; [done|].
  rewrite all_cons. intros [He Hes]. destruct e; try done; by apply IH.
Qed.

(** ** Which effects an operation can emit *)

Definition only {A} (p : Effect -> bool) (m : Raft A) : Prop :=
  forall n, wlp m (fun _ _ es => all p es) n.

Lemma only_ret {A} p (a : A) : only p (mret a).
Proof. intros n. apply wpg_ret. auto with raft. Qed.
Lemma only_bind {A B} p (m : Raft A) (f : A -> Raft B) :
  only p m -> (forall a, only p (f a)) -> only p (m ≫= f).
Proof.
  intros H1 H2 n. apply wpg_bind. eapply wpg_mono; [apply H1|]. intros a n1 e1 He1.
  eapply wpg_mono; [apply H2|]. intros b n2 e2 He2. by rewrite all_app.
Qed.
Lemma only_get p : only p get.
Proof. intros n. apply wpg_get. auto with raft. Qed.
Lemma only_modify p f : only p (modify f).
Proof. intros n. apply wpg_modify. auto with raft. Qed.
Lemma only_emit p e : p e = true -> only p (emit e).
Proof. intros He n. apply wpg_emit. rewrite all_cons. auto with raft. Qed.
Lemma only_emits p es : all p es -> only p (emits es).
Proof. intros He n. by apply wpg_emits. Qed.
Lemma only_expect {A} p (o : option A) : only p (expect o).
Proof. destruct o; [apply only_ret|done]. Qed.
Lemma only_expect_ok {A} p (r : Result A) : only p (expect_ok r).
Proof. destruct r; [apply only_ret|done]. Qed.
Lemma only_panic {A} p : only p (@panic _ _ A).
Proof. done. Qed.
Lemma only_massert p b : only p (massert b).
Proof. destruct b; [apply only_ret|done]. Qed.
Lemma only_when p b m : only p m -> only p (when b m).
Proof. intros H. destruct b; [exact H|apply only_ret]. Qed.
Lemma only_for_each {A} p (f : A -> Raft unit) l :
  (forall x, only p (f x)) -> only p (for_each f l).
Proof.
  intros H. induction l as [|x l IH]; cbn [for_each]; [apply only_ret|].
  apply only_bind; [apply H|]. by intros [].
Qed.
Lemma only_fold_each {A B} p (f : B -> A -> Raft B) b l :
  (forall b x, only p (f b x)) -> only p (fold_each f b l).
Proof.
  intros H. revert b. induction l as [|x l IH]; cbn [fold_each]; intros b; [apply only_ret|].
  apply only_bind; [apply H|]. auto.
Qed.
Lemma all_map {A} p (f : A -> Effect) l : (forall x, p (f x) = true) -> all p (map f l).
Proof. intros H e He. rewrite list_elem_of_In in He. apply in_map_iff in He as (x & <- & _). auto. Qed.

Create HintDb only discriminated.

(** Walks through an operation; the operations it calls come from [only]. *)
Ltac only_step :=
  lazymatch goal with
  | |- only _ (mret _) => apply only_ret
  | |- only _ (_ ≫= _) => apply only_bind; [|intros ?]
  | |- only _ get => apply only_get
  | |- only _ (modify _) => apply only_modify
  | |- only _ (emit _) => apply only_emit; try done
  | |- only _ (emits _) => apply only_emits
  | |- only _ (expect _) => apply only_expect
  | |- only _ (expect_ok _) => apply only_expect_ok
  | |- only _ (add_u64 _ _) => apply only_expect
  | |- only _ (sub_u64 _ _) => apply only_expect
  | |- only _ panic => apply only_panic
  | |- only _ (massert _) => apply only_massert
  | |- only _ (when _ _) => apply only_when
  | |- only _ (for_each _ _) => apply only_for_each; intros ?
  | |- only _ (fold_each _ _ _) => apply only_fold_each; intros ? ?
  | |- only _ (if ?b then _ else _) => destruct b
  | |- only _ (match ?x with _ => _ end) => destruct x
  | |- only _ (let _ := _ in _) => cbv zeta
  | |- all _ (map _ _) => apply all_map; intros []; try done
  | |- _ => solve [auto with only]
  end.
Ltac only_tac := repeat only_step.

(** ** Reordering

    A batch may be split into its hard-state writes and the rest. *)

Section drop.
Context (P : Effect -> Prop) `{!forall e, Decision (P e)}.

Lemma applied_run_filter es w :
  (forall e, e ∈ es -> ~ P e -> is_apply e = false) ->
  applied_run w (filter P es) = applied_run w es.
Proof.
  unfold applied_run. generalize (Some w). induction es as [|e es IH]; intros o Hd; [done|].
  rewrite filter_cons. destruct (decide (P e)) as [HP|HP]; cbn [fold_left].
  - apply IH. intros; apply Hd; [by right|done].
  - assert (applied_step o e = o) as ->.
    { pose proof (Hd e ltac:(left) HP). by destruct e. }
    apply IH. intros; apply Hd; [by right|done].
Qed.

Lemma exec_filter es d :
  (forall e, e ∈ es -> ~ P e -> is_persist e = false) -> exec (filter P es) d = exec es d.
Proof.
  unfold exec. revert d. induction es as [|e es IH]; intros d Hd; [done|].
  rewrite filter_cons. destruct (decide (P e)) as [HP|HP]; cbn [fold_left].
  - apply IH. intros; apply Hd; [by right|done].
  - assert (persist d e = d) as ->.
    { pose proof (Hd e ltac:(left) HP). by destruct e. }
    apply IH. intros; apply Hd; [by right|done].
Qed.
End drop.

Definition is_persist_log (e : Effect) : bool :=
  match e with PersistLogEntries _ _ => true | _ => false end.
Definition no_log_write (e : Effect) : bool := negb (is_persist_log e).

(** Effects that neither persist nor apply. *)
Definition plain (e : Effect) : bool := post_eff e && negb (is_apply e).

Lemma run_ok_persist t es e :
  run_ok t es -> e ∈ es -> is_persist e = true -> mid_eff t e = true.
Proof.
  intros (a & b & -> & Ha & Hb) [He|He]%elem_of_app Hp; [by apply Ha|].
  apply Hb in He. unfold post_eff in He. by rewrite Hp in He.
Qed.
