(* ===== verification/Invariant.v ===== *)
(** * The node invariant and the transition relation

    [wf]: what every state of a node satisfies between steps.  [trans]: what
    every composite of transitions guarantees about its effects and its next
    state.  Both compose, so that the theorems about [step] are assembled from
    the lemmas of the operations. *)
From S2P Require Import Prelude Rng Quorum Membership Types Node MembershipProtocol.
From S2P Require Import SnapshotTransfer Replication Election Step LogFacts MembershipFacts.
From S2P Require Import Effects.
Local Open Scope N_scope.
Local Open Scope raft_scope.

(** ** Durable promises *)

(** Terms never decrease and a vote is never changed within a term. *)
Definition hard_le (h h' : HardState) : Prop :=
  current_term h <= current_term h' /\
  (current_term h = current_term h' -> voted_for h = None \/ voted_for h' = voted_for h).

#[export] Instance hard_le_preorder : PreOrder hard_le.
Proof.
  split; [split; [lia|tauto]|].
  intros h1 h2 h3 [H1 V1] [H2 V2]. split; [lia|]. intros Heq.
  destruct V1 as [V1|V1]; [lia|by left|]. destruct V2 as [V2|V2]; [lia| |].
  - left. congruence.
  - right. congruence.
Qed.

(** ** The invariant *)

(** The history a descriptor may bring into this group. *)
Definition membership_ok (n : RaftNode) (d : SnapshotDescriptor) : Prop :=
  match sm_membership (metadata d) with
  | Some m => history (genesis_membership n) m
  | None => ms_group_id (cm_state (genesis_membership n)) = LEGACY_GROUP_ID
            /\ members (metadata d) = ms_genesis_voters (cm_state (genesis_membership n))
  end.

(** A legacy image names the genesis voters. *)
Definition image_voters (g : CommittedMembership) (d : SnapshotDescriptor) : Prop :=
  sm_membership (metadata d) = None -> members (metadata d) = ms_genesis_voters (cm_state g).

Lemma membership_ok_voters n d : membership_ok n d -> image_voters (genesis_membership n) d.
Proof. unfold membership_ok, image_voters. intros H E. rewrite E in H. apply H. Qed.

Definition incoming_ok (n : RaftNode) (a : IncomingSnapshot) : Prop :=
  let d := is_descriptor a in
  descriptor_validate d = Ok tt
  /\ last_included_term (metadata d) <= st_term (is_transfer a)
  /\ last_included_index (metadata d) <= u64_max
  /\ (snapshot n = Some d \/ membership_ok n d).

(** Position of an index in the retained log. *)
Definition log_pos (n : RaftNode) (index : LogIndex) : nat := N.to_nat (index - snapshot_index n).

Record core_ok (n : RaftNode) : Prop := {
  wf_log : node_log_ok n;
  wf_snap_term : snapshot_term n <= current_term (hard n);
  wf_len : snapshot_index n + len64 (log n) <= u64_max;
  wf_sa : snapshot_index n <= last_applied n;
  wf_ac : last_applied n <= commit_index n;
  wf_cl : commit_index n <= snapshot_index n + len64 (log n);
  wf_gen : is_genesis (genesis_membership n);
  wf_base : history (genesis_membership n) (membership_base n);
  wf_base_index : cm_index (membership_base n) <= snapshot_index n;
  wf_base_term : cm_term (membership_base n) <= snapshot_term n;
  wf_replay : exists c, replay_all (membership_base n) (log n) = Ok c;
  wf_image : forall d, snapshot n = Some d ->
    descriptor_validate d = Ok tt /\ image_voters (genesis_membership n) d;
  wf_committed : replay_all (membership_base n) (take (log_pos n (commit_index n)) (log n))
                 = Ok (committed_membership n);
}.

Lemma image_kept n n' d :
  core_ok n -> snapshot n' = snapshot n -> genesis_membership n' = genesis_membership n ->
  snapshot n' = Some d -> descriptor_validate d = Ok tt /\ image_voters (genesis_membership n') d.
Proof. intros Hc Hs Hg Hd. rewrite Hg. apply (wf_image _ Hc). congruence. Qed.

Definition effective_ok (n : RaftNode) : Prop :=
  exists c, replay_all (membership_base n) (log n) = Ok c
            /\ effective_membership n = cm_state c.

Record vol_ok (n : RaftNode) : Prop := {
  v_role : match role n with
           | Candidate _ | Leader _ _ => 0 < current_term (hard n)
           | _ => True
           end;
  v_reads : is_leader n = false -> pending_reads n = ∅;
  v_incoming : forall a, incoming_snapshot n = Some a -> role n = Follower /\ incoming_ok n a;
  v_context : read_context n <= u64_max;
}.

Record wf (n : RaftNode) : Prop := {
  wf_core : core_ok n;
  wf_eff : effective_ok n;
  wf_vol : vol_ok n;
}.

(** A leader that is a quorum by itself has committed its whole log. *)
Definition solo (n : RaftNode) : Prop :=
  is_leader n = true -> self_quorum n = true -> commit_index n = last_log_index n.

(** ** Frames

    Most operations only touch volatile bookkeeping. *)

Record frame (n n' : RaftNode) : Prop := mkFrame {
  fr_id : node_id n' = node_id n;
  fr_hard : hard n' = hard n;
  fr_log : log n' = log n;
  fr_commit : commit_index n' = commit_index n;
  fr_applied : last_applied n' = last_applied n;
  fr_snap : snapshot n' = snapshot n;
  fr_pub : publishing_snapshot n' = publishing_snapshot n;
  fr_gen : genesis_membership n' = genesis_membership n;
}.
#[export] Hint Constructors frame : raft.

#[export] Instance frame_preorder : PreOrder frame.
Proof.
  split; [by split|]. intros n1 n2 n3 [] []. split; congruence.
Qed.

(** Leadership is only lost. *)
Definition lead (n n' : RaftNode) : Prop := is_leader n' = true -> is_leader n = true.
#[export] Instance lead_preorder : PreOrder lead.
Proof. unfold lead. split; [intros n H; exact H|intros n1 n2 n3; tauto]. Qed.

Lemma core_frame n n' : frame n n' -> core_ok n -> core_ok n'.
Proof.
  intros Hf H. destruct n, n', Hf; cbn in *; subst. destruct H. by split.
Qed.
Lemma eff_frame n n' : frame n n' -> effective_membership n' = effective_membership n ->
  effective_ok n -> effective_ok n'.
Proof.
  intros Hf He H. unfold effective_ok, membership_base in *. rewrite He.
  by destruct Hf as [? ? -> ? ? -> ? ->].
Qed.
Lemma solo_frame n n' : frame n n' -> effective_membership n' = effective_membership n ->
  lead n n' -> solo n -> solo n'.
Proof.
  unfold solo, self_quorum, last_log_index, snapshot_index, voter_config, lead.
  intros [-> ? -> -> ? -> ? ?] -> Hl. tauto.
Qed.

(** Nothing the invariant speaks about has changed. *)
Record still (n n' : RaftNode) : Prop := mkStill {
  st_frame : frame n n';
  st_eff : effective_membership n' = effective_membership n;
  st_role : role n' = role n;
  st_reads : pending_reads n' = pending_reads n;
  st_incoming : incoming_snapshot n' = incoming_snapshot n;
  st_context : read_context n' = read_context n;
}.
#[export] Instance still_preorder : PreOrder still.
Proof.
  split; [by split|]. intros n1 n2 n3 [] []. split; [by etrans|congruence..].
Qed.

Lemma incoming_ok_frame n n' a : frame n n' -> incoming_ok n a -> incoming_ok n' a.
Proof.
  intros Hf. unfold incoming_ok, membership_ok. by rewrite (fr_snap _ _ Hf), (fr_gen _ _ Hf).
Qed.

Lemma vol_still n n' : still n n' -> vol_ok n -> vol_ok n'.
Proof.
  intros [Hf He Hr Hp Hi Hx] [H1 H2 H3 H4]. split.
  - by rewrite Hr, (fr_hard _ _ Hf).
  - unfold is_leader in *. by rewrite Hr, Hp.
  - intros a. rewrite Hi, Hr. intros Ha. destruct (H3 a Ha). split; [done|].
    by eapply incoming_ok_frame.
  - by rewrite Hx.
Qed.
Lemma wf_still n n' : still n n' -> wf n -> wf n'.
Proof.
  intros Hs [Hc He Hv]. split; [|eapply eff_frame; [..|done]|by eapply vol_still];
    [eapply core_frame; [|done]|..]; apply Hs.
Qed.
Lemma still_lead n n' : still n n' -> lead n n'.
Proof. intros Hs. unfold lead, is_leader. by rewrite (st_role _ _ Hs). Qed.
Lemma solo_still n n' : still n n' -> solo n -> solo n'.
Proof. intros Hs. apply solo_frame; [apply Hs|apply Hs|by apply still_lead]. Qed.

(** ** Transitions *)

Record logical (n : RaftNode) (es : list Effect) (n' : RaftNode) : Prop := {
  lg_id : node_id n' = node_id n;
  lg_gen : genesis_membership n' = genesis_membership n;
  lg_hard : hard_le (hard n) (hard n');
  lg_commit : commit_index n <= commit_index n';
  lg_snap : snapshot_index n <= snapshot_index n';
  lg_keep : forall i, i <= commit_index n -> snapshot_index n' < i ->
    entry_at n' i = entry_at n i;
  lg_applied : applied_run (last_applied n) es = Some (last_applied n');
  lg_apply : forall e, Apply e ∈ es -> e_index e <= commit_index n'
    /\ (snapshot_index n' < e_index e -> entry_at n' (e_index e) = Some e);
}.

Record trans (ph : phase) (n : RaftNode) (es : list Effect) (n' : RaftNode) : Prop := {
  tr_logical : logical n es n';
  tr_disk : exec es (durable n) = durable n';
  tr_phase : phase_ok ph (current_term (hard n)) (current_term (hard n')) es;
  tr_pub : publishing_snapshot n' = publishing_snapshot n;
}.

Lemma logical_seq n es1 n1 es2 n2 :
  logical n es1 n1 -> logical n1 es2 n2 -> logical n (es1 ++ es2) n2.
Proof.
  intros H1 H2. split.
  - rewrite (lg_id _ _ _ H2). apply H1.
  - rewrite (lg_gen _ _ _ H2). apply H1.
  - etrans; [apply H1|apply H2].
  - pose proof (lg_commit _ _ _ H1). pose proof (lg_commit _ _ _ H2). lia.
  - pose proof (lg_snap _ _ _ H1). pose proof (lg_snap _ _ _ H2). lia.
  - intros i Hi Hs. pose proof (lg_commit _ _ _ H1). pose proof (lg_snap _ _ _ H2).
    rewrite (lg_keep _ _ _ H2) by lia. apply (lg_keep _ _ _ H1); lia.
  - rewrite (applied_run_app _ _ _ _ (lg_applied _ _ _ H1)). apply H2.
  - intros e [He|He]%elem_of_app; [|by apply H2].
    apply (lg_apply _ _ _ H1) in He as [Hc Hk].
    pose proof (lg_commit _ _ _ H2). pose proof (lg_snap _ _ _ H2).
    split; [lia|]. intros Hs. rewrite (lg_keep _ _ _ H2) by lia. apply Hk. lia.
Qed.

Lemma trans_seq ph1 ph2 ph n es1 n1 es2 n2 :
  trans ph1 n es1 n1 -> trans ph2 n1 es2 n2 -> seq_ok ph1 ph2 ph -> trans ph n (es1 ++ es2) n2.
Proof.
  intros H1 H2 Hs. split.
  - eapply logical_seq; [apply H1|apply H2].
  - rewrite exec_app, (tr_disk _ _ _ _ H1). apply H2.
  - eapply phase_ok_seq; [done|apply H1|apply H2].
  - rewrite (tr_pub _ _ _ _ H2). apply H1.
Qed.

Lemma trans_weaken ph ph' n es n' :
  trans ph n es n' ->
  phase_le ph ph' -> trans ph' n es n'.
Proof. intros [] ?. split; try done. by eapply phase_weaken. Qed.

Lemma frame_logical n es n' :
  frame n n' -> all (fun e => negb (is_apply e)) es -> logical n es n'.
Proof.
  intros Hf He.
  assert (Hent : forall i, entry_at n' i = entry_at n i).
  { intros i. unfold entry_at, snapshot_index. by rewrite (fr_snap _ _ Hf), (fr_log _ _ Hf). }
  assert (Hsn : snapshot_index n' = snapshot_index n).
  { unfold snapshot_index. by rewrite (fr_snap _ _ Hf). }
  split.
  - apply Hf.
  - apply Hf.
  - by rewrite (fr_hard _ _ Hf).
  - rewrite (fr_commit _ _ Hf). lia.
  - lia.
  - auto.
  - rewrite (fr_applied _ _ Hf). by apply applied_run_none.
  - intros e Hin. by apply He in Hin.
Qed.

Lemma frame_durable n n' : frame n n' -> durable n' = durable n.
Proof. unfold durable. by intros [? -> -> ? ? ->]. Qed.

Lemma frame_post n es n' : frame n n' -> all plain es -> trans PPost n es n'.
Proof.
  intros Hf He.
  assert (all post_eff es /\ all (fun e => negb (is_apply e)) es) as [Hp Ha].
  { split; eapply all_impl; [|done| |done]; unfold plain; intros e [? ?]%andb_true_iff; done. }
  split.
  - by apply frame_logical.
  - rewrite exec_none by done. by rewrite (frame_durable _ _ Hf).
  - cbn. by rewrite (fr_hard _ _ Hf).
  - apply Hf.
Qed.

Lemma quiet_plain e : quiet_eff e = true -> plain e = true.
Proof. by destruct e. Qed.

Lemma frame_quiet n es n' : frame n n' -> all quiet_eff es -> trans PQuiet n es n'.
Proof.
  intros Hf He.
  assert (all plain es) as Hp by (eapply all_impl; [apply quiet_plain|done]).
  destruct (frame_post n es n' Hf Hp) as [? ? [? _] ?]. by split.
Qed.

(** Only neutral effects: may precede the adoption of a term. *)
Lemma frame_pre n es n' : frame n n' -> all is_neutral es -> trans PPre n es n'.
Proof.
  intros Hf He.
  assert (all quiet_eff es) as Hp.
  { eapply all_impl; [|done]. unfold quiet_eff. intros e ->. apply orb_true_r. }
  destruct (frame_quiet n es n' Hf Hp) as [? ? _ ?]. split; try done.
  rewrite (fr_hard _ _ Hf). by apply neutral_pre.
Qed.

Lemma trans_refl n : trans PQuiet n [] n.
Proof. apply frame_quiet; auto with raft. Qed.

(** A silent step over volatile fields may precede anything. *)
Lemma trans_frame_l ph n n1 es n2 : frame n n1 -> trans ph n1 es n2 -> trans ph n es n2.
Proof.
  intros Hf [Hl Hd Hp Hpub].
  pose proof (frame_quiet n [] n1 Hf (all_nil _)) as Hq.
  split.
  - apply (logical_seq n [] n1); [apply Hq|done].
  - by rewrite <- (frame_durable _ _ Hf).
  - by rewrite <- (fr_hard _ _ Hf).
  - by rewrite Hpub, (fr_pub _ _ Hf).
Qed.

(** Writes to the durable state. *)
Lemma trans_write ph n es n' :
  node_id n' = node_id n -> genesis_membership n' = genesis_membership n ->
  last_applied n' = last_applied n -> publishing_snapshot n' = publishing_snapshot n ->
  snapshot n' = snapshot n -> hard_le (hard n) (hard n') -> commit_index n <= commit_index n' ->
  (forall i, i <= commit_index n -> snapshot_index n < i -> entry_at n' i = entry_at n i) ->
  exec es (durable n) = durable n' ->
  phase_ok ph (current_term (hard n)) (current_term (hard n')) es ->
  all (fun e => negb (is_apply e)) es -> trans ph n es n'.
Proof.
  intros H1 H2 H3 H4 H5 H6 H7 H8 H9 H10 H11.
  assert (Hsn : snapshot_index n' = snapshot_index n) by (unfold snapshot_index; by rewrite H5).
  split; [split|..]; try done.
  - lia.
  - intros i. rewrite Hsn. auto.
  - rewrite H3. by apply applied_run_none.
  - intros e He. by apply H11 in He.
Qed.

(** ** Specifications of operations *)

(** [m] cannot panic from [n], and what it returns is a transition. *)
Definition safe {A} (ph : phase) (n : RaftNode) (m : Raft A) (R : A -> RaftNode -> Prop) : Prop :=
  wp m (fun a n' es => trans ph n es n' /\ R a n') n.

Lemma safe_wp {A} ph n (m : Raft A) R (Q : A -> RaftNode -> list Effect -> Prop) :
  safe ph n m R -> (forall a n' es, trans ph n es n' -> R a n' -> Q a n' es) -> wp m Q n.
Proof. intros H HQ. eapply wpg_mono; [exact H|]. naive_solver. Qed.

Lemma safe_mono {A} ph n (m : Raft A) (R R' : A -> RaftNode -> Prop) :
  safe ph n m R -> (forall a n', R a n' -> R' a n') -> safe ph n m R'.
Proof. intros H HR. eapply wpg_mono; [exact H|]. naive_solver. Qed.

Lemma safe_weaken {A} ph ph' n (m : Raft A) (R : A -> RaftNode -> Prop) :
  safe ph n m R ->
  phase_le ph ph' -> safe ph' n m R.
Proof.
  intros H Hph. eapply wpg_mono; [exact H|]. intros a n' es [Ht HR]. split; [|done].
  by eapply trans_weaken.
Qed.

Lemma safe_bind {A B} ph1 ph2 ph n (m : Raft A) (f : A -> Raft B) R1 R :
  safe ph1 n m R1 -> seq_ok ph1 ph2 ph ->
  (forall a n1, R1 a n1 -> safe ph2 n1 (f a) R) ->
  safe ph n (m ≫= f) R.
Proof.
  intros H1 Hs H2. apply wpg_bind. eapply wpg_mono; [exact H1|].
  intros a n1 e1 [Ht1 HR1]. eapply wpg_mono; [exact (H2 a n1 HR1)|].
  intros b n2 e2 [Ht2 HR2]. split; [|done]. by eapply trans_seq.
Qed.

Lemma safe_ret {A} ph n (a : A) (R : A -> RaftNode -> Prop) :
  phase_le PQuiet ph -> R a n -> safe ph n (mret a) R.
Proof.
  intros Hph HR. apply wpg_ret. split; [|done]. by apply (trans_weaken PQuiet); [apply trans_refl|].
Qed.

Lemma safe_get {A} ph n (f : RaftNode -> Raft A) R :
  safe ph n (f n) R -> safe ph n (get ≫= f) R.
Proof.
  intros H. apply wpg_bind, wpg_get. eapply wpg_mono; [exact H|]. done.
Qed.

Lemma safe_expect_ok {A B} ph n (r : Result A) a (f : A -> Raft B) R :
  r = Ok a -> safe ph n (f a) R -> safe ph n (expect_ok r ≫= f) R.
Proof. intros -> H. apply wpg_bind, wpg_ret. eapply wpg_mono; [exact H|]. done. Qed.

Lemma safe_expect {A B} ph n (o : option A) a (f : A -> Raft B) R :
  o = Some a -> safe ph n (f a) R -> safe ph n (expect o ≫= f) R.
Proof. intros -> H. apply wpg_bind, wpg_ret. eapply wpg_mono; [exact H|]. done. Qed.

Lemma safe_modify n f (R : unit -> RaftNode -> Prop) :
  frame n (f n) -> R tt (f n) -> safe PQuiet n (modify f) R.
Proof. intros Hf HR. apply wpg_modify. split; [|done]. apply frame_quiet; auto with raft. Qed.

Lemma safe_modify_bind {A} ph n f (m : unit -> Raft A) R :
  frame n (f n) -> (forall n1, n1 = f n -> safe ph n1 (m tt) R) -> safe ph n (modify f ≫= m) R.
Proof.
  intros Hf H. apply wpg_bind, wpg_modify. eapply wpg_mono; [by apply H|].
  intros a n' es [Ht HR]. split; [|done]. by eapply trans_frame_l.
Qed.

(** A durable write: the field, then its effect. *)
Lemma safe_write {A} ph1 ph2 ph n f e (m : unit -> Raft A) R :
  trans ph1 n [e] (f n) -> seq_ok ph1 ph2 ph ->
  (forall n1, n1 = f n -> safe ph2 n1 (m tt) R) ->
  safe ph n (modify f ≫= fun _ => emit e ≫= m) R.
Proof.
  intros Ht Hs Hk. apply wpg_bind, wpg_modify, wpg_bind, wpg_emit.
  eapply wpg_mono; [by apply Hk|]. intros a n' es [Ht2 HR]. split; [|done].
  by eapply (trans_seq _ _ _ _ [_]).
Qed.

Lemma safe_emits_post n es (R : unit -> RaftNode -> Prop) :
  all plain es -> R tt n -> safe PPost n (emits es) R.
Proof. intros He HR. apply wpg_emits. split; [|done]. by apply frame_post. Qed.

Lemma safe_emit_post n e (R : unit -> RaftNode -> Prop) :
  plain e = true -> R tt n -> safe PPost n (emit e) R.
Proof.
  intros He HR. apply wpg_emit. split; [|done]. apply frame_post; [reflexivity|].
  rewrite all_cons. auto with raft.
Qed.

Lemma safe_emit_quiet n e (R : unit -> RaftNode -> Prop) :
  quiet_eff e = true -> R tt n -> safe PQuiet n (emit e) R.
Proof.
  intros He HR. apply wpg_emit. split; [|done]. apply frame_quiet; [reflexivity|].
  rewrite all_cons. auto with raft.
Qed.

Lemma safe_when ph n b (m : Raft unit) R :
  phase_le PQuiet ph -> (b = true -> safe ph n m R) -> (b = false -> R tt n) -> safe ph n (when b m) R.
Proof.
  intros Hph H1 H2. destruct b; cbn; [by apply H1|]. apply safe_ret; auto.
Qed.

(** A loop whose body keeps [I]. *)
Lemma safe_for_each {A} ph n (f : A -> Raft unit) l (I : RaftNode -> Prop) :
  ph = PQuiet \/ ph = PMid \/ ph = PPost ->
  I n -> (forall x n1, x ∈ l -> I n1 -> safe ph n1 (f x) (fun _ n2 => I n2)) ->
  safe ph n (for_each f l) (fun _ n' => I n').
Proof.
  intros Hph. revert n. induction l as [|x l IH]; cbn [for_each]; intros n HI Hstep.
  - apply safe_ret; [by destruct Hph as [->|[->| ->]]|done].
  - eapply safe_bind; [apply Hstep; [by left|done]| |].
    + destruct Hph as [->|[->| ->]]; auto with raft.
    + intros [] n1 HI1. apply IH; [done|]. intros y n2 Hy HI2. apply Hstep; [by right|done].
Qed.
