(* ===== verification/CommitPath.v ===== *)
(** * Shared transitions and the commit path

    Stepping down, resetting deadlines, applying the committed prefix,
    recomputing the effective configuration, and advancing the commit index:
    none of them panics on a well-formed node, and each keeps it well-formed. *)
From S2P Require Import Prelude Rng Quorum Membership Types Node MembershipProtocol.
From S2P Require Import SnapshotTransfer Replication Election Step LogFacts MembershipFacts.
From S2P Require Import Effects Invariant.
Local Open Scope N_scope.
Local Open Scope raft_scope.

Ltac still_tac := split; [by split|done..].

(** ** Volatile bookkeeping *)

Lemma role_idem n r : role n = r -> n <| role := r |> = n.
Proof. intros <-. by destruct n. Qed.

(** The state [become_follower] leaves. *)
Definition follower_of (n : RaftNode) : RaftNode :=
  n <| outgoing_snapshots := ∅ |> <| promotion_fence := None |> <| advertisement_last := ∅ |>
    <| contact_round := 0 |> <| quorum_contacts := ∅ |> <| role := Follower |>
    <| pending_reads := ∅ |>.

Lemma reject_pending_reads_safe n reason :
  safe PQuiet n (reject_pending_reads reason) (fun _ n' => n' = n <| pending_reads := ∅ |>).
Proof.
  unfold reject_pending_reads. apply safe_get. apply wpg_bind, wpg_modify, wpg_emits.
  split; [|done]. apply frame_quiet; [by split|]. intros e He. cbn in He.
  rewrite list_elem_of_In in He. apply in_map_iff in He as ([id r] & <- & _). done.
Qed.

Lemma become_follower_safe n : safe PQuiet n become_follower (fun _ n' => n' = follower_of n).
Proof.
  unfold become_follower. apply safe_modify_bind; [by split|]. intros n1 H1. apply safe_get.
  apply (safe_bind PQuiet PQuiet _ _ _ _ (fun _ n2 => n2 = n1 <| role := Follower |>)).
  - apply safe_when; [done| |].
    + intros _. apply safe_modify_bind; [by split|]. intros n2 ->. by apply safe_emit_quiet.
    + intros Hf. symmetry. apply role_idem. unfold is_follower in Hf. by destruct (role n1).
  - auto with raft.
  - intros [] n2 H2. eapply safe_mono; [apply reject_pending_reads_safe|].
    cbn beta. intros [] n3 ->. by subst.
Qed.

Lemma follower_frame n : frame n (follower_of n).
Proof. by split. Qed.
Lemma follower_lead n : lead n (follower_of n).
Proof. done. Qed.
Lemma follower_vol n : vol_ok n -> vol_ok (follower_of n).
Proof.
  intros [H1 H2 H3 H4]. split; try done. intros a Ha. split; [done|]. by apply H3 in Ha as [_ ?].
Qed.
Lemma follower_core n : core_ok n -> core_ok (follower_of n).
Proof. apply core_frame, follower_frame. Qed.
Lemma follower_wf n : wf n -> wf (follower_of n).
Proof.
  intros [Hc He Hv]. split; [by apply follower_core|done|by apply follower_vol].
Qed.
Lemma follower_solo n : solo (follower_of n).
Proof. done. Qed.

Lemma reset_election_deadline_safe n :
  safe PQuiet n reset_election_deadline (fun _ n' => still n n').
Proof.
  unfold reset_election_deadline. apply safe_modify; [|]; by destruct (range_inclusive _ _ _).
Qed.

Lemma cancel_incoming_snapshot_pre n :
  safe PPre n cancel_incoming_snapshot (fun _ n' => n' = n <| incoming_snapshot := None |>).
Proof.
  unfold cancel_incoming_snapshot. apply safe_get.
  destruct (incoming_snapshot n) as [a|] eqn:Ha.
  - apply wpg_bind, wpg_modify, wpg_emit. split; [|done].
    apply frame_pre; [by split|]. cbn. rewrite all_cons. auto with raft.
  - apply wpg_ret. split; [apply frame_pre; auto with raft|].
    destruct n. cbn in *. by subst.
Qed.

Lemma cancel_incoming_snapshot_safe n :
  safe PQuiet n cancel_incoming_snapshot (fun _ n' => n' = n <| incoming_snapshot := None |>).
Proof.
  unfold cancel_incoming_snapshot. apply safe_get.
  destruct (incoming_snapshot n) as [a|] eqn:Ha.
  - apply safe_modify_bind; [by split|]. intros n1 ->. by apply safe_emit_quiet.
  - apply safe_ret; [done|]. destruct n. cbn in *. by subst.
Qed.

Lemma cancelled_vol n : vol_ok n -> vol_ok (n <| incoming_snapshot := None |>).
Proof. by intros []. Qed.
Lemma cancelled_wf n : wf n -> wf (n <| incoming_snapshot := None |>).
Proof. intros [Hc He Hv]. split; [|exact He|by apply cancelled_vol]. by apply (core_frame n). Qed.

(** ** The configuration at an index *)

Section config.
Context (n : RaftNode) (Hc : core_ok n).

Lemma last_index_eq : last_log_index n = snapshot_index n + len64 (log n).
Proof. apply last_log_index_eq, Hc. Qed.

Lemma replay_take k : exists c, replay_all (membership_base n) (take k (log n)) = Ok c.
Proof.
  destruct (wf_replay _ Hc) as [c Hr]. rewrite <- (take_drop k (log n)) in Hr.
  rewrite replay_all_app in Hr. apply Result_bind_Ok in Hr as (c1 & ? & _). eauto.
Qed.

Lemma membership_at_eq i : snapshot_index n <= i ->
  membership_at n i = replay_all (membership_base n) (take (log_pos n i) (log n)).
Proof.
  intros Hi. unfold membership_at, replay.
  destruct (N.ltb_spec i (snapshot_index n)); [lia|].
  by rewrite (log_ok_filter_le _ _ _ _ _ (wf_log _ Hc)) by done.
Qed.

Lemma membership_at_ok i : snapshot_index n <= i -> exists c, membership_at n i = Ok c.
Proof. intros Hi. rewrite membership_at_eq by done. apply replay_take. Qed.

Lemma membership_at_last : membership_at n (last_log_index n)
  = replay_all (membership_base n) (log n).
Proof.
  rewrite membership_at_eq by (rewrite last_index_eq; lia). f_equal. apply take_ge.
  unfold log_pos. rewrite last_index_eq. unfold len64. lia.
Qed.

Lemma membership_at_commit : membership_at n (commit_index n) = Ok (committed_membership n).
Proof.
  rewrite membership_at_eq by (pose proof (wf_sa _ Hc); pose proof (wf_ac _ Hc); lia).
  apply Hc.
Qed.

(** The uncommitted suffix replays from the committed configuration. *)
Lemma replay_drop c : replay_all (membership_base n) (log n) = Ok c ->
  replay_all (committed_membership n) (drop (log_pos n (commit_index n)) (log n)) = Ok c.
Proof.
  intros Hr. rewrite <- (take_drop (log_pos n (commit_index n)) (log n)) in Hr at 1.
  rewrite replay_all_app, (wf_committed _ Hc) in Hr. done.
Qed.

Lemma log_index_bound e : e ∈ log n -> e_index e <= u64_max.
Proof.
  intros [k Hk]%list_elem_of_lookup_1. pose proof (wf_len _ Hc) as Hlen.
  pose proof (log_ok_lookup _ _ _ _ _ _ (wf_log _ Hc) Hk) as [-> _].
  apply lookup_lt_Some in Hk. unfold len64 in *. lia.
Qed.

Lemma effective_after_eq c : replay_all (membership_base n) (log n) = Ok c ->
  effective_after (committed_membership n) (log n) (commit_index n) = Ok (cm_state c).
Proof.
  intros Hr. unfold effective_after, replay.
  rewrite (log_ok_filter_gt _ _ _ _ _ (wf_log _ Hc))
    by (pose proof (wf_sa _ Hc); pose proof (wf_ac _ Hc); lia).
  rewrite list_filter_all.
  - fold (log_pos n (commit_index n)). by rewrite (replay_drop _ Hr).
  - intros e He. apply log_index_bound.
    rewrite <- (take_drop (N.to_nat (commit_index n - snapshot_index n)) (log n)).
    apply elem_of_app. by right.
Qed.
End config.

(** ** Applying the committed prefix *)

Definition applied_to (n : RaftNode) (i : LogIndex) : RaftNode := n <| last_applied := i |>.

Lemma apply_one_safe n :
  core_ok n -> last_applied n < commit_index n ->
  safe PPost n apply_one (fun _ n' => n' = applied_to n (last_applied n + 1)).
Proof.
  intros Hc Hlt. unfold apply_one. apply safe_get.
  pose proof (wf_len _ Hc). pose proof (wf_cl _ Hc). pose proof (wf_sa _ Hc).
  apply wpg_bind, wpg_expect.
  2: { intros Hn. apply checked_add_None in Hn. lia. }
  intros next [-> _]%checked_add_Some. apply wpg_bind, wpg_modify, wpg_bind.
  destruct (entry_at_is_Some n (wf_log _ Hc) (last_applied n + 1)) as [e He].
  { rewrite (last_index_eq _ Hc). lia. }
  rewrite He. apply wpg_ret, wpg_emit. split; [|done].
  pose proof (entry_at_Some n (wf_log _ Hc) _ _ He) as (Hi & _).
  split; [split|..]; try done; cbn [app].
  - unfold applied_run. cbn. by rewrite Hi, N.eqb_refl.
  - intros e' He'%list_elem_of_singleton. injection He' as ->. rewrite Hi.
    split; [cbn; lia|]. intros _. exact He.
  - cbn. split; [done|]. rewrite all_cons. auto with raft.
Qed.

Lemma applied_core n i :
  core_ok n -> last_applied n <= i <= commit_index n -> core_ok (applied_to n i).
Proof.
  intros [] [H1 H2]. split; try done.
  change (snapshot_index n <= i). lia.
Qed.

Lemma apply_committed_safe n :
  core_ok n ->
  safe PPost n apply_committed (fun _ n' => n' = applied_to n (commit_index n)).
Proof.
  intros Hc. unfold apply_committed. apply safe_get.
  remember (N.to_nat (commit_index n - last_applied n)) as k eqn:Hk.
  revert n Hc Hk. induction k as [|k IH]; intros n Hc Hk; cbn [replicate for_each].
  - apply safe_ret; [done|]. assert (last_applied n = commit_index n) as Heq.
    { pose proof (wf_ac _ Hc). lia. }
    unfold applied_to. rewrite <- Heq. by destruct n.
  - eapply safe_bind; [apply apply_one_safe; [done|lia]|auto with raft|].
    cbn beta. intros [] n1 ->. eapply safe_mono; [apply IH|].
    + apply applied_core; [done|]. lia.
    + cbn. lia.
    + cbn beta. by intros [] n2 ->.
Qed.

(** ** The effective configuration *)

(** Only volatile fields moved, and at most towards [Follower]. *)
Record soft (n n' : RaftNode) : Prop := mkSoft {
  sf_frame : frame n n';
  sf_lead : lead n n';
  sf_follower : role n = Follower -> role n' = Follower;
  sf_incoming : incoming_snapshot n' = incoming_snapshot n;
}.
#[export] Instance soft_preorder : PreOrder soft.
Proof.
  split; [intros n; split; done || reflexivity|].
  intros n1 n2 n3 [] []. split; [by etrans|by etrans|tauto|congruence].
Qed.
Lemma follower_soft n : soft n (follower_of n).
Proof. by split. Qed.
Lemma still_soft n n' : still n n' -> soft n n'.
Proof. intros Hs. split; [apply Hs|by apply still_lead|by rewrite (st_role _ _ Hs)|apply Hs]. Qed.

Lemma peers_frame n : frame n (update_replication_peers_of n).
Proof. unfold update_replication_peers_of. cbn. destruct (role n); by split. Qed.
Lemma peers_leader n : is_leader (update_replication_peers_of n) = is_leader n.
Proof.
  unfold update_replication_peers_of. cbn.
  destruct (role n) eqn:Hr; unfold is_leader; cbn; by rewrite ?Hr.
Qed.
Lemma peers_follower n : role n = Follower -> role (update_replication_peers_of n) = Follower.
Proof. intros Hr. unfold update_replication_peers_of. cbn. by rewrite Hr. Qed.
Lemma peers_fields n :
  effective_membership (update_replication_peers_of n) = effective_membership n
  /\ pending_reads (update_replication_peers_of n) = pending_reads n
  /\ incoming_snapshot (update_replication_peers_of n) = incoming_snapshot n.
Proof. unfold update_replication_peers_of. cbn. by destruct (role n). Qed.

Lemma peers_vol n : vol_ok n -> vol_ok (update_replication_peers_of n).
Proof.
  intros [H1 H2 H3 H4]. unfold update_replication_peers_of. cbn.
  destruct (role n) eqn:Hr; split; cbn; try done; unfold is_leader; cbn; rewrite ?Hr; try done;
    unfold is_leader in H2; rewrite Hr in H2; auto.
  intros a Ha. by destruct (H3 a Ha).
Qed.

Lemma peers_soft n : soft n (update_replication_peers_of n).
Proof.
  split; [apply peers_frame|unfold lead; by rewrite peers_leader|apply peers_follower|].
  apply peers_fields.
Qed.

Lemma effective_ok_det n c :
  replay_all (membership_base n) (log n) = Ok c -> effective_ok n ->
  effective_membership n = cm_state c.
Proof. intros Hr (c' & Hr' & ->). rewrite Hr in Hr'. by injection Hr' as ->. Qed.

Lemma vol_no_reads n : vol_ok n -> vol_ok (n <| pending_reads := ∅ |>).
Proof. by intros []. Qed.

(** The second half of [refresh_effective_membership]: the voters changed. *)
Lemma voters_changed_safe n :
  vol_ok n ->
  safe PQuiet n
    (reject_pending_reads LeadershipLost;;
     n ← get;
     (if negb (is_leader n) then become_follower
      else match checked_add (contact_round n) 1 with
           | Some round =>
               modify (fun n => n <| contact_round := round |>
                                  <| quorum_contacts := {[node_id n]} |>
                                  <| quorum_deadline_ms :=
                                       saturating_add (now_ms n) CHECK_QUORUM_MS |>
                                  <| heartbeat_due_ms := now_ms n |>)
           | None => become_follower
           end);;
     reset_election_deadline)
    (fun _ n' => vol_ok n' /\ soft n n' /\ effective_membership n' = effective_membership n).
Proof.
  intros Hv. eapply (safe_bind PQuiet PQuiet); [apply reject_pending_reads_safe|auto with raft|].
  intros [] n1 H1. assert (vol_ok n1) as Hv1 by (subst; by apply vol_no_reads).
  assert (soft n n1) as Hs1.
  { subst n1. split; [by split|intros H; exact H|done|done]. }
  assert (effective_membership n1 = effective_membership n) as He1 by by subst.
  clear H1. apply safe_get.
  apply (safe_bind PQuiet PQuiet _ _ _ _ (fun _ n2 => vol_ok n2 /\ soft n1 n2
           /\ effective_membership n2 = effective_membership n1)).
  - assert (safe PQuiet n1 become_follower (fun _ n2 => vol_ok n2 /\ soft n1 n2
           /\ effective_membership n2 = effective_membership n1)) as Hbf.
    { eapply safe_mono; [apply become_follower_safe|]. cbn beta. intros _ n2 ->.
      split; [by apply follower_vol|]. split; [apply follower_soft|done]. }
    destruct (negb (is_leader n1)); [done|].
    destruct (checked_add (contact_round n1) 1); [|done].
    assert (forall a b c d, still n1 (n1 <| contact_round := a |> <| quorum_contacts := b |>
              <| quorum_deadline_ms := c |> <| heartbeat_due_ms := d |>)) as Hst
      by (intros; still_tac).
    apply safe_modify; [apply Hst|]. split; [eapply vol_still; [apply Hst|done]|].
    split; [apply still_soft, Hst|done].
  - auto with raft.
  - intros [] n2 (Hv2 & Hs2 & He2).
    eapply safe_mono; [apply reset_election_deadline_safe|]. cbn beta. intros _ n3 Hs3.
    split; [by eapply vol_still|]. split; [|by rewrite (st_eff _ _ Hs3), He2].
    etrans; [exact Hs1|]. etrans; [exact Hs2|]. by apply still_soft.
Qed.

(** [refresh_effective_membership] does not look at the applied watermark: it is
    enough that the node is well-formed with some watermark. *)
Lemma refresh_safe_at n la :
  core_ok (applied_to n la) -> vol_ok n ->
  safe PQuiet n refresh_effective_membership
    (fun _ n' => core_ok (applied_to n' la) /\ effective_ok n' /\ vol_ok n' /\ soft n n'
       /\ (effective_ok n -> effective_membership n' = effective_membership n)).
Proof.
  intros Hc Hv. unfold refresh_effective_membership. apply safe_get.
  destruct (wf_replay _ Hc) as [c Hr].
  eapply safe_expect_ok; [exact (effective_after_eq _ Hc c Hr)|].
  apply (safe_bind PQuiet PQuiet _ _ _ _ (fun _ n1 => vol_ok n1 /\ soft n n1
           /\ effective_membership n1 = effective_membership n)); [|auto with raft|].
  { apply safe_when; [done| |done]. intros _.
    eapply safe_mono; [apply become_follower_safe|]. cbn beta. intros _ n1 ->.
    split; [by apply follower_vol|]. split; [apply follower_soft|done]. }
  intros [] n1 (Hv1 & Hs1 & He1).
  assert (Hdone : forall n', vol_ok n' -> soft n n' -> effective_membership n' = cm_state c ->
     (effective_ok n -> effective_membership n' = effective_membership n) ->
     core_ok (applied_to n' la) /\ effective_ok n' /\ vol_ok n' /\ soft n n'
     /\ (effective_ok n -> effective_membership n' = effective_membership n)).
  { intros n' Hv' Hs' He' Hne. assert (Hf : frame n n') by apply Hs'.
    split; [|split; [|done]].
    - eapply core_frame; [|exact Hc]. destruct Hf. by split.
    - exists c. split; [|done]. unfold membership_base.
      by rewrite (fr_snap _ _ Hf), (fr_gen _ _ Hf), (fr_log _ _ Hf). }
  destruct (eqb _ _) eqn:Heq; bool_inv.
  - apply safe_ret; [done|]. apply Hdone; (done || congruence).
  - assert (Hne : ~ effective_ok n).
    { intros He. apply Heq. symmetry. by apply effective_ok_det. }
    apply safe_modify_bind; [by split|]. intros n2 H2.
    apply safe_modify_bind; [apply peers_frame|]. intros n3 H3.
    assert (Hs3 : soft n n3).
    { etrans; [exact Hs1|]. trans n2; [subst n2; split; [by split|intros H; exact H|done|done]|].
      subst n3. apply peers_soft. }
    assert (Hv3 : vol_ok n3).
    { subst n3. apply peers_vol. subst n2. by destruct Hv1. }
    assert (He3 : effective_membership n3 = cm_state c).
    { subst n3. destruct (peers_fields n2) as (-> & _). by subst n2. }
    apply safe_when; [done| |intros _; by apply Hdone]. intros _.
    eapply safe_mono; [by apply voters_changed_safe|]. cbn beta.
    intros _ n4 (Hv4 & Hs4 & He4). apply Hdone; [done|by etrans|congruence|done].
Qed.

Lemma applied_to_self n n' : last_applied n' = last_applied n -> applied_to n' (last_applied n) = n'.
Proof. intros <-. by destruct n'. Qed.

Lemma refresh_safe n :
  core_ok n -> vol_ok n ->
  safe PQuiet n refresh_effective_membership
    (fun _ n' => wf n' /\ soft n n'
       /\ (effective_ok n -> effective_membership n' = effective_membership n)).
Proof.
  intros Hc Hv. eapply safe_mono.
  { apply (refresh_safe_at n (last_applied n)); [by rewrite applied_to_self|done]. }
  cbn beta. intros _ n' (Hc' & He' & Hv' & Hs & Heq).
  rewrite applied_to_self in Hc' by apply (fr_applied _ _ (sf_frame _ _ Hs)). by split.
Qed.

(** ** Advancing the commit index *)

Lemma vol_hard n n1 :
  role n1 = role n -> pending_reads n1 = pending_reads n ->
  incoming_snapshot n1 = incoming_snapshot n -> snapshot n1 = snapshot n ->
  genesis_membership n1 = genesis_membership n -> read_context n1 = read_context n ->
  current_term (hard n) <= current_term (hard n1) -> vol_ok n -> vol_ok n1.
Proof.
  intros Hr Hp Hi Hs Hg Hx Ht [H1 H2 H3 H4]. split.
  - rewrite Hr. destruct (role n); try done; lia.
  - unfold is_leader in *. by rewrite Hr, Hp.
  - intros a. rewrite Hi, Hr. intros Ha. destruct (H3 a Ha) as [? Hok]. split; [done|].
    unfold incoming_ok, membership_ok in *. by rewrite Hs, Hg.
  - by rewrite Hx.
Qed.

Lemma vol_same n n' :
  role n' = role n -> pending_reads n' = pending_reads n ->
  incoming_snapshot n' = incoming_snapshot n -> snapshot n' = snapshot n ->
  genesis_membership n' = genesis_membership n -> read_context n' = read_context n ->
  current_term (hard n') = current_term (hard n) -> vol_ok n -> vol_ok n'.
Proof. intros. apply (vol_hard n); try done. lia. Qed.

(** [n'] is [n] with the commit index moved to [index], and the committed
    configuration the one in force there. *)
Record committed_at (n : RaftNode) (index : LogIndex) (n' : RaftNode) : Prop := {
  ca_id : node_id n' = node_id n;
  ca_term : current_term (hard n') = current_term (hard n);
  ca_vote : voted_for (hard n') = voted_for (hard n);
  ca_log : log n' = log n;
  ca_commit : commit_index n' = index;
  ca_snap : snapshot n' = snapshot n;
  ca_pub : publishing_snapshot n' = publishing_snapshot n;
  ca_gen : genesis_membership n' = genesis_membership n;
  ca_lead : lead n n';
  ca_follower : role n = Follower -> role n' = Follower;
  ca_incoming : incoming_snapshot n' = incoming_snapshot n;
}.

Lemma committed_core n index n' :
  core_ok n -> commit_index n <= index <= last_log_index n -> committed_at n index n' ->
  last_applied n' = last_applied n ->
  membership_at n index = Ok (committed_membership n') -> core_ok n'.
Proof.
  intros Hc Hi Hca Hla Hm. rewrite (last_index_eq _ Hc) in Hi.
  assert (Hsi : snapshot_index n' = snapshot_index n).
  { unfold snapshot_index. by rewrite (ca_snap _ _ _ Hca). }
  assert (Hst : snapshot_term n' = snapshot_term n).
  { unfold snapshot_term. by rewrite (ca_snap _ _ _ Hca). }
  assert (Hb : membership_base n' = membership_base n).
  { unfold membership_base. by rewrite (ca_snap _ _ _ Hca), (ca_gen _ _ _ Hca). }
  rewrite membership_at_eq in Hm
    by (done || pose proof (wf_sa _ Hc); pose proof (wf_ac _ Hc); lia).
  pose proof (image_kept n n') as Hk. destruct Hca as [_ Ht _ Hl Hci Hsn _ Hg _ _ _].
  destruct Hc. split; try (intros; by eapply Hk);
    unfold node_log_ok, log_pos in *; rewrite ?Hsi, ?Hst, ?Hb, ?Ht, ?Hl, ?Hci, ?Hg, ?Hla;
    try done; lia.
Qed.

Lemma committed_trans n index n' es :
  committed_at n index n' -> commit_index n <= index -> last_applied n' = last_applied n ->
  (es = [] /\ hard n' = hard n) \/ es = [PersistHardState (hard n')] ->
  trans (if bool_decide (es = []) then PQuiet else PMid) n es n'.
Proof.
  intros Hca Hi Hla Hes. destruct Hca as [H1 Ht Hv Hl Hci Hs Hp Hg _ _ _].
  apply trans_write; try done.
  - unfold hard_le. rewrite Ht, Hv. split; [lia|auto].
  - rewrite Hci. lia.
  - intros i _ _. unfold entry_at, snapshot_index. by rewrite Hs, Hl.
  - unfold durable. rewrite Hl, Hs. destruct Hes as [[-> ->]| ->]; done.
  - destruct Hes as [[-> _]| ->]; cbn; (split; [done|]); [auto with raft|].
    rewrite all_cons. cbn. rewrite Ht, N.eqb_refl. auto with raft.
  - destruct Hes as [[-> _]| ->]; [auto with raft|]. rewrite all_cons. auto with raft.
Qed.

(** The state once the configuration in force at [index] is the committed one. *)
Definition committed_node (n : RaftNode) (index : LogIndex) (next : CommittedMembership)
  : RaftNode :=
  (if negb (eqb next (committed_membership n))
   then n <| hard := hard n <| hs_membership := Some next |> |> else n)
  <| commit_index := index |>.

Lemma committed_node_at n index next : committed_at n index (committed_node n index next).
Proof.
  unfold committed_node. destruct (negb _); split; try done; intros H; exact H.
Qed.
Lemma committed_node_fields n index next :
  last_applied (committed_node n index next) = last_applied n
  /\ role (committed_node n index next) = role n
  /\ effective_membership (committed_node n index next) = effective_membership n
  /\ pending_reads (committed_node n index next) = pending_reads n
  /\ read_context (committed_node n index next) = read_context n
  /\ committed_membership (committed_node n index next) = next.
Proof.
  unfold committed_node. destruct (negb _) eqn:Hb; bool_inv; repeat split; try done.
Qed.
Lemma committed_node_core n index next :
  core_ok n -> commit_index n <= index <= last_log_index n -> membership_at n index = Ok next ->
  core_ok (committed_node n index next).
Proof.
  intros Hc Hi Hm. destruct (committed_node_fields n index next) as (Hla & _ & _ & _ & _ & Hcm).
  eapply committed_core; [done|done|apply committed_node_at|done|by rewrite Hcm].
Qed.
Lemma committed_node_vol n index next : vol_ok n -> vol_ok (committed_node n index next).
Proof.
  destruct (committed_node_fields n index next) as (_ & Hr & _ & Hp & Hx & _).
  destruct (committed_node_at n index next). by apply vol_same.
Qed.
Lemma committed_node_eff n index next : effective_ok n -> effective_ok (committed_node n index next).
Proof.
  destruct (committed_node_fields n index next) as (_ & _ & He & _).
  destruct (committed_node_at n index next) as [_ _ _ Hl _ Hs _ Hg _ _ _].
  unfold effective_ok, membership_base. by rewrite He, Hl, Hs, Hg.
Qed.

Lemma commit_write_safe {A} ph ph' n index next (m : unit -> Raft A) R :
  commit_index n <= index ->
  seq_ok (if negb (eqb next (committed_membership n)) then PMid else PQuiet) ph' ph ->
  safe ph' (committed_node n index next) (m tt) R ->
  safe ph n
    (when (negb (eqb next (committed_membership n)))
       (modify (fun n => n <| hard := hard n <| hs_membership := Some next |> |>);;
        n ← get;
        emit (PersistHardState (hard n)));;
     modify (fun n => n <| commit_index := index |>) ≫= m) R.
Proof.
  intros Hi Hph Hk.
  pose proof (committed_node_at n index next) as Hca.
  destruct (committed_node_fields n index next) as (Hla & _).
  pose proof (committed_trans n index (committed_node n index next)) as Ht.
  unfold committed_node in *. apply wpg_bind. destruct (negb _) eqn:Hb.
  - apply wpg_bind, wpg_modify, wpg_bind, wpg_get, wpg_emit, wpg_bind, wpg_modify.
    eapply wpg_mono; [exact Hk|]. intros a n' es [Hes HR]. split; [|done].
    eapply (trans_seq PMid ph' ph _ [_]); [|exact Hes|done].
    specialize (Ht [PersistHardState (hard n <| hs_membership := Some next |>)]).
    rewrite bool_decide_eq_false_2 in Ht by done. by apply Ht; [..|right].
  - apply wpg_ret, wpg_bind, wpg_modify.
    eapply wpg_mono; [exact Hk|]. intros a n' es [Hes HR]. split; [|done].
    eapply (trans_seq PQuiet ph' ph _ []); [|exact Hes|done]. by apply (Ht []); [..|left].
Qed.

Lemma applied_eff n i : effective_ok n -> effective_ok (applied_to n i).
Proof. done. Qed.
Lemma applied_wf n i : wf n -> last_applied n <= i <= commit_index n -> wf (applied_to n i).
Proof.
  intros [Hc He Hv] Hi. split; [by apply applied_core|done|by destruct Hv].
Qed.

(** What [advance_commit] leaves. *)
Record advanced_to (n : RaftNode) (index : LogIndex) (n' : RaftNode) : Prop := {
  av_at : committed_at n (N.max (commit_index n) index) n';
  av_wf : wf n';
  av_eff : effective_ok n -> effective_membership n' = effective_membership n;
}.

Lemma advanced_refl n index :
  wf n -> index <= commit_index n -> advanced_to n index n.
Proof.
  intros Hw Hi. split; [|done|done]. split; try done. lia.
Qed.

(** After the write: recompute, apply, announce. *)
Lemma commit_finish_safe n index next n1 changed :
  commit_index n < index -> committed_at n index n1 -> core_ok n1 -> vol_ok n1 ->
  effective_membership n1 = effective_membership n -> (effective_ok n -> effective_ok n1) ->
  safe PPost n1
    (refresh_effective_membership;; apply_committed;;
     when changed (emit (MembershipChanged next)))
    (fun _ n' => advanced_to n index n').
Proof.
  intros Hi Hca Hc Hv He Heff.
  eapply (safe_bind PQuiet PPost); [by apply refresh_safe|auto 6 with raft|].
  intros [] n2 (Hw2 & Hs2 & He2).
  eapply (safe_bind PPost PPost); [apply apply_committed_safe, Hw2|auto with raft|].
  intros [] n3 H3.
  assert (advanced_to n index n3) as Hav.
  { assert (frame n1 n2) as Hf by apply Hs2. split.
    - destruct Hca as [H1 Ht1 Hv1 Hl1 Hci1 Hsn1 Hp1 Hg1 Hle1 Hfo1 Hin1]. subst n3. split; cbn;
        rewrite ?(fr_id _ _ Hf), ?(fr_hard _ _ Hf), ?(fr_log _ _ Hf), ?(fr_commit _ _ Hf),
          ?(fr_snap _ _ Hf), ?(fr_pub _ _ Hf), ?(fr_gen _ _ Hf), ?(sf_incoming _ _ Hs2);
        try done.
      + lia.
      + intros Hl. apply Hle1, (sf_lead _ _ Hs2), Hl.
      + intros Hl. apply (sf_follower _ _ Hs2), Hfo1, Hl.
    - subst n3. apply applied_wf; [done|]. pose proof (wf_ac _ (wf_core _ Hw2)). lia.
    - intros Ho. subst n3. cbn. rewrite He2 by auto. done. }
  apply safe_when; [done| |done]. intros _. by apply safe_emit_post.
Qed.

Lemma advance_commit_safe ph n index :
  core_ok n -> vol_ok n -> index <= last_log_index n ->
  commit_index n < index \/ effective_ok n ->
  ph = PRun \/ ph = PPost /\ (commit_index n < index ->
                              membership_at n index = Ok (committed_membership n)) ->
  safe ph n (advance_commit index) (fun _ n' => advanced_to n index n').
Proof.
  intros Hc Hv Hi Hpre Hph. unfold advance_commit. apply safe_get.
  destruct (N.leb_spec index (commit_index n)) as [Hle|Hlt].
  { apply safe_ret; [by destruct Hph as [->|[-> _]]|].
    destruct Hpre as [|He]; [lia|]. by apply advanced_refl. }
  destruct (membership_at_ok n Hc index) as [next Hm].
  { pose proof (wf_sa _ Hc). pose proof (wf_ac _ Hc). lia. }
  eapply safe_expect_ok; [exact Hm|].
  apply (commit_write_safe ph PPost); [lia| |].
  - destruct Hph as [->|[-> Heq]].
    + destruct (negb _); auto with raft.
    + rewrite (Heq Hlt) in Hm. injection Hm as <-. rewrite eqb_refl. cbn. auto 6 with raft.
  - eapply commit_finish_safe; [done|apply committed_node_at|..].
    + apply committed_node_core; [done|lia|done].
    + by apply committed_node_vol.
    + apply committed_node_fields.
    + apply committed_node_eff.
Qed.

(** ** Effects of the commit path *)

Lemma reject_pending_reads_only p reason :
  (forall id h, p (ReadRejected id h reason) = true) -> only p (reject_pending_reads reason).
Proof. intros H. unfold reject_pending_reads. only_tac. Qed.
Lemma become_follower_only p :
  (forall e, quiet_eff e = true -> p e = true) -> only p become_follower.
Proof.
  intros H. unfold become_follower. only_tac; auto.
  apply reject_pending_reads_only. intros. by apply H.
Qed.
Lemma refresh_only p :
  (forall e, quiet_eff e = true -> p e = true) -> only p refresh_effective_membership.
Proof.
  intros H. unfold refresh_effective_membership, update_replication_peers, reset_election_deadline.
  only_tac; auto using become_follower_only, reject_pending_reads_only.
Qed.
Lemma advance_commit_no_log index : only no_log_write (advance_commit index).
Proof.
  unfold advance_commit, apply_committed, apply_one. only_tac.
  apply refresh_only. by intros [].
Qed.
