(* ===== verification/SendPath.v ===== *)
(** * Operations that only send

    Advertisement, replication and snapshot streams, replies: they leave
    everything the invariant speaks about as it was, and emit nothing durable. *)
From S2P Require Import Prelude Rng Quorum Membership Types Node MembershipProtocol.
From S2P Require Import SnapshotTransfer Replication Election Step LogFacts MembershipFacts.
From S2P Require Import Effects Invariant CommitPath.
Local Open Scope N_scope.
Local Open Scope raft_scope.

(** [m] may only send from [n]. *)
Definition sends (n : RaftNode) (m : Raft unit) : Prop := safe PPost n m (fun _ n' => still n n').

Lemma sends_ret n : sends n (mret tt).
Proof. by apply safe_ret. Qed.
Lemma sends_emit n e : plain e = true -> sends n (emit e).
Proof. intros He. by apply safe_emit_post. Qed.
Lemma sends_get n f : sends n (f n) -> sends n (get ≫= f).
Proof. apply safe_get. Qed.
Lemma sends_bind n (m1 : Raft unit) (m2 : unit -> Raft unit) :
  sends n m1 -> (forall n1, still n n1 -> sends n1 (m2 tt)) -> sends n (m1 ≫= m2).
Proof.
  intros H1 H2. eapply (safe_bind PPost PPost); [exact H1|auto with raft|].
  intros [] n1 Hs. eapply safe_mono; [by apply H2|]. cbn beta. intros _ n2 Hs2. by etrans.
Qed.
Lemma sends_modify n f m :
  still n (f n) -> (forall n1, still n n1 -> n1 = f n -> sends n1 (m tt)) ->
  sends n (modify f ≫= m).
Proof.
  intros Hs H. apply safe_modify_bind; [apply Hs|]. intros n1 Hn1.
  eapply safe_mono; [apply H; [by subst|done]|]. cbn beta. intros _ n2 Hs2.
  etrans; [|done]. by subst.
Qed.
Lemma sends_modify_last n f : still n (f n) -> sends n (modify f).
Proof.
  intros Hs. apply (safe_weaken PQuiet); [|done]. by apply safe_modify; [apply Hs|].
Qed.
Lemma sends_when n b m : (b = true -> sends n m) -> sends n (when b m).
Proof. intros H. by apply safe_when. Qed.
#[export] Hint Resolve sends_ret sends_emit sends_get sends_when : raft.

Lemma sends_for_each {A} n (f : A -> Raft unit) l :
  wf n -> (forall x n1, x ∈ l -> wf n1 -> still n n1 -> sends n1 (f x)) ->
  sends n (for_each f l).
Proof.
  intros Hw Hf. apply (safe_for_each PPost n f l (fun n' => still n n')); [auto|done|].
  intros x n1 Hx Hs. eapply safe_mono; [apply Hf; [done|by eapply wf_still|done]|].
  cbn beta. intros _ n2 Hs2. by etrans.
Qed.

Lemma append_reply_sends n l s mi r c : sends n (append_reply l s mi r c).
Proof. apply sends_get, sends_emit. done. Qed.
Lemma snapshot_reply_sends n t o a i mi r : sends n (snapshot_reply t o a i mi r).
Proof. apply sends_get, sends_emit. done. Qed.
Lemma snapshot_reject_sends n r : sends n (snapshot_reject r).
Proof. by apply sends_emit. Qed.

Lemma advertise_membership_sends n to : wf n -> sends n (advertise_membership to).
Proof.
  intros Hw. apply sends_get.
  destruct (wf_replay _ (wf_core _ Hw)) as [c Hr].
  eapply safe_expect_ok; [by rewrite membership_at_last by apply Hw|].
  apply sends_when. intros _. by apply sends_emit.
Qed.

Lemma advertise_replication_sends n to : wf n -> sends n (advertise_replication_membership to).
Proof.
  intros Hw. apply sends_get. destruct (eqb _ _); [apply sends_ret|].
  destruct (wf_replay _ (wf_core _ Hw)) as [c Hr].
  eapply safe_expect_ok; [by rewrite membership_at_last by apply Hw|].
  destruct (role n) eqn:Hrole; try apply sends_ret.
  destruct (_ || _); [apply sends_ret|]. destruct (is_some_and _ _); [apply sends_ret|].
  apply sends_modify; [still_tac|]. intros n1 Hs _. apply advertise_membership_sends.
  by eapply wf_still.
Qed.

Lemma send_snapshot_chunk_sends n to : sends n (send_snapshot_chunk to).
Proof.
  apply sends_get. destruct (negb (is_leader n)); [apply sends_ret|].
  destruct (snapshot n) as [d|]; [|apply sends_ret].
  assert (Hrest : forall n1, is_Some (outgoing_snapshots n1 !! to) -> sends n1
    (n ← get;
     active ← expect (outgoing_snapshots n !! to);
     if os_reading active then mret tt else
     modify (fun n => n <| outgoing_snapshots :=
               <[to := active <| os_reading := true |>]> (outgoing_snapshots n) |>);;
     emit (ReadSnapshotChunk to (os_transfer active) (os_descriptor active) (os_offset active)
             MAX_SNAPSHOT_CHUNK_BYTES))).
  { intros n1 [a Ha]. apply sends_get. eapply safe_expect; [done|].
    destruct (os_reading a); [apply sends_ret|]. apply sends_modify; [still_tac|].
    intros n2 _ _. by apply sends_emit. }
  eapply (safe_bind PPost PPost _ _ _ _ (fun b n1 => still n n1 /\
            (b = true -> is_Some (outgoing_snapshots n1 !! to)))).
  - destruct (is_some _) eqn:Hs.
    + apply safe_ret; [done|]. split; [done|]. intros _.
      by destruct (outgoing_snapshots n !! to).
    + destruct (checked_add _ _) as [sq|].
      * apply safe_modify_bind; [by split|]. intros n1 ->. apply safe_ret; [done|].
        split; [still_tac|]. intros _. cbn. by rewrite lookup_insert_eq.
      * eapply (safe_bind PPost PPost); [apply snapshot_reject_sends|auto with raft|].
        cbn beta. intros [] n1 Hst. apply safe_ret; [done|]. by split.
  - auto with raft.
  - intros b n1 [Hst Hb]. destruct b; cbn [negb].
    + eapply safe_mono; [apply Hrest; auto|]. cbn beta. intros _ n2 ?. by etrans.
    + by apply safe_ret.
Qed.

Lemma send_append_to_sends n next_index peer : wf n -> sends n (send_append_to next_index peer).
Proof.
  intros Hw. apply sends_bind; [by apply advertise_replication_sends|].
  intros n1 Hs. assert (Hw1 : wf n1) by by eapply wf_still. apply sends_get. cbv zeta.
  unfold sub_u64. destruct (N.leb_spec (map_or (next_index !! peer) (saturating_add (last_log_index n1) 1)
    (fun v => v)) (snapshot_index n1)) as [Hle|Hgt]; [apply send_snapshot_chunk_sends|].
  apply sends_modify; [still_tac|]. intros n2 _ _.
  eapply safe_expect; [apply checked_sub_Some; split; [done|lia]|].
  eapply safe_expect; [apply checked_sub_Some; split; [done|lia]|].
  by apply sends_emit.
Qed.

Lemma send_append_entries_sends n : wf n -> sends n send_append_entries.
Proof.
  intros Hw. apply sends_get. destruct (role n); try apply sends_ret.
  apply sends_for_each; [done|]. intros peer n1 _ Hw1 _. by apply send_append_to_sends.
Qed.

Lemma on_membership_advertisement_sends n from t c :
  sends n (on_membership_advertisement from t c).
Proof.
  apply sends_get. destruct (_ || _); [apply sends_ret|].
  apply sends_bind.
  - destruct (_ !! _); [by apply sends_emit|apply sends_ret].
  - intros n1 _. apply sends_modify_last. still_tac.
Qed.

Lemma on_pre_vote_sends n pt cid c li lt : sends n (on_pre_vote pt cid c li lt).
Proof. apply sends_get. by apply sends_emit. Qed.

Lemma send_append_entries_plain : only plain send_append_entries.
Proof.
  unfold send_append_entries, send_append_to, advertise_replication_membership,
    advertise_membership, send_snapshot_chunk, snapshot_reject.
  only_tac.
Qed.

(** ** Snapshot transfer, sender *)

Lemma valid_chunk_bound d o len dn :
  valid_chunk d o len dn = true ->
  is_ok (descriptor_validate d) = true /\ o + len <= total_len d /\ total_len d <= MAX_SNAPSHOT_BYTES.
Proof.
  unfold valid_chunk. intros H. bool_inv.
  split; [done|]. split; [lia|].
  unfold descriptor_validate in *. destruct (metadata_validate _); cbn in *; [|done].
  destruct (negb _) eqn:Hb; [done|]. bool_inv. lia.
Qed.

Lemma on_snapshot_chunk_read_sends n to t d o data :
  sends n (on_snapshot_chunk_read to t d o data).
Proof.
  apply sends_get. destruct (_ || _); [apply sends_ret|].
  destruct (outgoing_snapshots n !! to) as [a|]; [|apply sends_ret].
  destruct (_ || _); [apply sends_ret|].
  apply sends_modify; [still_tac|]. intros n1 _ _. cbv beta zeta. unfold add_u64.
  destruct (negb (valid_chunk _ _ _ _)) eqn:Hv; [apply snapshot_reject_sends|]. bool_inv.
  apply valid_chunk_bound in Hv as (_ & Hb & Hm).
  eapply safe_expect; [apply checked_add_Some; split; [done|]|].
  { pose proof u64_max_two64. unfold MAX_SNAPSHOT_BYTES, two64 in *. lia. }
  apply sends_modify; [still_tac|]. intros n2 _ _. by apply sends_emit.
Qed.

(** ** Reads *)

(** Reads only touch the read table, and only while leading. *)
Record reads_only (n n' : RaftNode) : Prop := {
  ro_frame : frame n n';
  ro_eff : effective_membership n' = effective_membership n;
  ro_role : role n' = role n;
  ro_incoming : incoming_snapshot n' = incoming_snapshot n;
  ro_reads : is_leader n = true \/ pending_reads n' = pending_reads n;
  ro_context : read_context n' = read_context n;
}.
Lemma reads_only_wf n n' : reads_only n n' -> wf n -> wf n'.
Proof.
  intros [Hf He Hr Hi Hp Hx] [Hc Heff [H1 H2 H3 H4]].
  split; [by eapply core_frame|by eapply eff_frame|]. split.
  - by rewrite Hr, (fr_hard _ _ Hf).
  - assert (is_leader n' = is_leader n) as -> by (unfold is_leader; by rewrite Hr).
    intros Hl. destruct Hp as [Hp|Hp]; [congruence|]. rewrite Hp. auto.
  - intros a. rewrite Hi, Hr. intros Ha. destruct (H3 a Ha). split; [done|].
    by eapply incoming_ok_frame.
  - by rewrite Hx.
Qed.
Lemma reads_only_lead n n' : reads_only n n' -> lead n n'.
Proof. intros [_ _ Hr _ _ _]. unfold lead, is_leader. by rewrite Hr. Qed.
