(* ===== verification/LeaderPath.v ===== *)
(** * The leader's appends

    Client proposals, configuration entries and the first entry of a new
    leader: the log grows, its copy is made durable first, and what a quorum
    holds is committed. *)
From S2P Require Import Prelude Rng Quorum Membership Types Node MembershipProtocol.
From S2P Require Import SnapshotTransfer Replication Election Step LogFacts MembershipFacts.
From S2P Require Import Effects Invariant CommitPath SendPath.
Local Open Scope N_scope.
Local Open Scope raft_scope.

Definition good (n : RaftNode) : Prop := wf n /\ solo n.

Lemma good_still n n' : still n n' -> good n -> good n'.
Proof. intros Hs [Hw Ho]. split; [by eapply wf_still|by eapply solo_still]. Qed.

Lemma sends_good {A} n (m : Raft unit) (f : unit -> Raft A) ph ph' R :
  good n -> sends n m -> seq_ok PPost ph' ph ->
  (forall n1, still n n1 -> good n1 -> safe ph' n1 (f tt) R) -> safe ph n (m ≫= f) R.
Proof.
  intros Hg Hs Hq Hf. eapply safe_bind; [exact Hs|done|].
  cbn beta. intros [] n1 Hst. apply Hf; [done|]. by eapply good_still.
Qed.

Lemma sends_done n m : good n -> sends n m -> safe PPost n m (fun _ n' => good n').
Proof. intros Hg Hs. eapply safe_mono; [exact Hs|]. cbn beta. intros _ n' Hst. by eapply good_still. Qed.

(** ** Appending *)

Lemma last_term_end n : last_log_term n = end_term (snapshot_term n) (log n).
Proof. done. Qed.

Lemma last_term_le n : core_ok n -> last_log_term n <= current_term (hard n).
Proof.
  intros Hc. unfold last_log_term. destruct (list.last (log n)) as [e|] eqn:Hl; cbn; [|apply Hc].
  rewrite last_lookup in Hl.
  by apply (log_ok_lookup _ _ _ _ _ _ (wf_log _ Hc)) in Hl as [_ [_ ?]].
Qed.

Definition with_entries (n : RaftNode) (entries : list Entry) : RaftNode :=
  n <| log := log n ++ entries |>.

(** A payload that continues the log. *)
Definition continues (n : RaftNode) (entries : list Entry) : Prop :=
  log_ok (last_log_index n) (last_log_term n) (current_term (hard n)) entries
  /\ last_log_index n + len64 entries <= u64_max.

Lemma with_entries_core n entries c c' :
  core_ok n -> continues n entries -> replay_all (membership_base n) (log n) = Ok c ->
  replay_all c entries = Ok c' -> core_ok (with_entries n entries).
Proof.
  intros Hc [Hlog Hlen] Hr Hr'. pose proof (last_index_eq _ Hc) as Hli.
  destruct Hc as [H1 H2 H3 H4 H5 H6 H7 H8 H9 H10 H11 H12 H13]. split; try done.
  - apply log_ok_app. split; [done|].
    change (log_ok (snapshot_index n + len64 (log n)) (last_log_term n) (current_term (hard n))
              entries). by rewrite <- Hli.
  - change (snapshot_index n + len64 (log n ++ entries) <= u64_max).
    unfold len64 in *. rewrite length_app. lia.
  - change (commit_index n <= snapshot_index n + len64 (log n ++ entries)).
    unfold len64 in *. rewrite length_app. lia.
  - exists c'. change (replay_all (membership_base n) (log n ++ entries) = Ok c').
    by rewrite replay_all_app, Hr.
  - change (replay_all (membership_base n) (take (log_pos n (commit_index n)) (log n ++ entries))
            = Ok (committed_membership n)).
    rewrite take_app_le; [done|]. unfold log_pos, len64 in *. lia.
Qed.

Lemma with_entries_last n entries :
  core_ok n -> continues n entries ->
  last_log_index (with_entries n entries) = last_log_index n + len64 entries.
Proof.
  intros Hc [Hlog Hlen]. pose proof (last_index_eq _ Hc) as Hli.
  rewrite last_log_index_eq.
  - change (snapshot_index n + len64 (log n ++ entries) = last_log_index n + len64 entries).
    unfold len64 in *. rewrite length_app. lia.
  - apply log_ok_app. split; [apply Hc|].
    change (log_ok (snapshot_index n + len64 (log n)) (last_log_term n) (current_term (hard n))
              entries). by rewrite <- Hli.
Qed.

Lemma with_entries_vol n entries : vol_ok n -> vol_ok (with_entries n entries).
Proof. by apply vol_same. Qed.

Lemma entry_at_app n n' entries i :
  log n' = log n ++ entries -> snapshot n' = snapshot n ->
  i <= snapshot_index n + len64 (log n) -> entry_at n' i = entry_at n i.
Proof.
  intros Hl Hs Hi. assert (Hsi : snapshot_index n' = snapshot_index n).
  { unfold snapshot_index. by rewrite Hs. }
  rewrite !entry_at_eq, Hsi, Hl. destruct (N.leb_spec i (snapshot_index n)); [done|].
  apply lookup_app_l. unfold len64 in *. lia.
Qed.

Lemma append_trans n n' entries :
  core_ok n -> node_id n' = node_id n -> genesis_membership n' = genesis_membership n ->
  last_applied n' = last_applied n -> publishing_snapshot n' = publishing_snapshot n ->
  snapshot n' = snapshot n -> hard n' = hard n -> commit_index n' = commit_index n ->
  log n' = log n ++ entries ->
  trans PMid n [PersistLogEntries None entries] n'.
Proof.
  intros Hc H1 H2 H3 H4 H5 H6 H7 H8. apply trans_write; try done.
  - by rewrite H6.
  - rewrite H7. lia.
  - intros i Hi _. eapply entry_at_app; [done|done|]. pose proof (wf_cl _ Hc). lia.
  - unfold durable. by rewrite H5, H6, H8.
  - cbn. rewrite H6. split; [done|]. rewrite all_cons. auto with raft.
  - rewrite all_cons. auto with raft.
Qed.

(** ** Client proposals *)

Lemma number_entries_plain i t cs :
  existsb is_configuration cs = false ->
  forall e, e ∈ number_entries i t cs -> is_configuration (e_command e) = false.
Proof.
  revert i. induction cs as [|c cs IH]; intros i; cbn; [intros _ e He; by apply not_elem_of_nil in He|].
  intros H. bool_inv. intros e [->|He]%elem_of_cons; [done|by eapply IH].
Qed.

Lemma self_quorum_frame n n' :
  node_id n' = node_id n -> effective_membership n' = effective_membership n ->
  self_quorum n' = self_quorum n.
Proof. unfold self_quorum, voter_config. by intros -> ->. Qed.

(** Accepting: the entries are durable and acknowledged, and committed at once
    if the leader is a quorum by itself. *)
Lemma accept_proposals_safe n commands :
  good n -> is_leader n = true -> existsb is_configuration commands = false ->
  last_log_index n + len64 commands < u64_max ->
  let entries := number_entries (last_log_index n + 1) (current_term (hard n)) commands in
  safe PRun n
    (modify (fun n => n <| log := log n ++ entries |>);;
     emit (PersistLogEntries None entries);;
     emits (map (fun entry => ProposeAccepted (e_index entry)) entries);;
     n' ← get;
     when (self_quorum n')
       (index ← expect (Some (last_log_index n + len64 commands)); advance_commit index))
    (fun _ n' => good n').
Proof.
  intros [Hw Hso] Hl Hcfg Hlen entries.
  assert (Hlenc : len64 entries = len64 commands).
  { unfold len64, entries. by rewrite number_entries_length. }
  assert (Hcont : continues n entries).
  { split; [|lia]. apply number_entries_ok, last_term_le, Hw. }
  destruct (wf_eff _ Hw) as (c & Hr & He).
  assert (Hplain : replay_all c entries = Ok c).
  { apply replay_all_plain. by apply number_entries_plain. }
  set (n1 := with_entries n entries).
  assert (Hw1 : wf n1).
  { split; [by eapply with_entries_core; [apply Hw|..]| |by apply with_entries_vol, Hw].
    exists c. split; [|done]. change (replay_all (membership_base n) (log n ++ entries) = Ok c).
    by rewrite replay_all_app, Hr. }
  assert (Hlast1 : last_log_index n1 = last_log_index n + len64 entries).
  { by apply with_entries_last; [apply Hw|]. }
  eapply (safe_write PMid PPost); [by apply append_trans; [apply Hw|..]|auto with raft|].
  intros n2 H2. assert (n2 = n1) as -> by done. clear H2.
  eapply (safe_bind PPost PPost _ _ _ _ (fun _ n2 => n2 = n1)); [|auto with raft|].
  { apply safe_emits_post; [|done]. by apply all_map. }
  intros [] n2 ->. apply safe_get. apply safe_when; [done| |].
  - intros Hq. eapply safe_expect; [done|].
    assert (Hcl : commit_index n = last_log_index n).
    { apply Hso; [done|]. by rewrite <- (self_quorum_frame n n1). }
    eapply safe_mono.
    { apply (advance_commit_safe PPost); [apply Hw1|apply Hw1|lia|right; apply Hw1|].
      right. split; [done|]. intros _. rewrite <- Hlenc, <- Hlast1, membership_at_last by apply Hw1.
      change (replay_all (membership_base n) (log n ++ entries) = Ok (committed_membership n)).
      rewrite replay_all_app, Hr. cbn. rewrite Hplain, <- Hr, <- membership_at_last by apply Hw.
      rewrite <- Hcl. apply membership_at_commit, Hw. }
    cbn beta. intros _ n3 Hav. split; [apply Hav|]. intros _ _.
    destruct (av_at _ _ _ Hav) as [_ _ _ Hlog -> Hsn _ _ _ _ _].
    assert (last_log_index n3 = last_log_index n1) as ->.
    { unfold last_log_index, snapshot_index. by rewrite Hlog, Hsn. }
    change (commit_index n1) with (commit_index n). lia.
  - intros Hq. split; [done|]. intros _. congruence.
Qed.

Lemma on_client_propose_batch_safe n commands :
  good n -> safe PRun n (on_client_propose_batch commands) (fun _ n' => good n').
Proof.
  intros Hg. unfold on_client_propose_batch. case_bool_decide; [by apply safe_ret|].
  apply safe_get. cbv zeta. destruct (_ || _) eqn:Hb.
  - apply (safe_weaken PPost); [|done]. apply safe_emits_post; [|done]. by apply all_map.
  - bool_inv. unfold option_filter in *.
    destruct (checked_add (last_log_index n) (len64 commands)) as [v|] eqn:Hv; [|done].
    destruct (N.ltb_spec v u64_max) as [Hlt|]; [|done].
    apply checked_add_Some in Hv as [-> _]. by apply accept_proposals_safe.
Qed.

(** ** The commitment rule *)

Lemma candidate_bounds n i :
  core_ok n -> quorum_commit_candidate n = Some i ->
  commit_index n < i <= last_log_index n /\ is_leader n = true.
Proof.
  intros Hc. unfold quorum_commit_candidate, is_leader. destruct (role n); try done.
  intros (e & [Hin Hf]%find_some & ->)%fmap_Some. bool_inv.
  rewrite <- list_elem_of_In, elem_of_reverse in Hin. apply list_elem_of_lookup_1 in Hin as [k Hk].
  pose proof (log_ok_lookup _ _ _ _ _ _ (wf_log _ Hc) Hk) as [Hi _].
  apply lookup_lt_Some in Hk. rewrite (last_index_eq _ Hc). unfold len64. split; [lia|done].
Qed.

(** A leader that is a quorum by itself commits its last entry if that is of
    its own term. *)
Lemma candidate_solo n e :
  core_ok n -> is_leader n = true -> self_quorum n = true ->
  list.last (log n) = Some e -> e_term e = current_term (hard n) ->
  commit_index n < last_log_index n -> quorum_commit_candidate n = Some (last_log_index n).
Proof.
  intros Hc Hl Hq He Ht Hlt. unfold quorum_commit_candidate, is_leader in *.
  destruct (role n) as [| | |next_index match_index]; try done.
  assert (Hle : last_log_index n = e_index e) by (unfold last_log_index; by rewrite He).
  assert (Hri : last_log_index n
    <= replicated_index (voter_config n) (<[node_id n := last_log_index n]> match_index)).
  { apply replicated_index_quorum; [by eapply has_quorum_valid|].
    eapply has_quorum_mono; [|exact Hq]. intros x Hx%elem_of_singleton. subst x.
    unfold reached. rewrite elem_of_filter, lookup_insert_eq. cbn. split; [lia|].
    destruct (has_quorum_intersect _ _ _ Hq Hq) as (x & Hx & Hx1 & _). set_solver. }
  destruct (log n) as [|x l _] using rev_ind; [done|].
  rewrite last_snoc in He. injection He as ->.
  rewrite reverse_snoc. cbn [List.find]. rewrite <- Hle.
  destruct (N.ltb_spec (commit_index n) (last_log_index n)); [|lia].
  destruct (N.leb_spec (last_log_index n)
    (replicated_index (voter_config n) (<[node_id n := last_log_index n]> match_index))); [|lia].
  rewrite Ht, N.eqb_refl. cbn. by rewrite Hle.
Qed.

Lemma advanced_solo n index n' :
  wf n -> advanced_to n index n' -> index <= last_log_index n ->
  (is_leader n = true -> self_quorum n = true ->
     index = last_log_index n \/ commit_index n = last_log_index n) -> solo n'.
Proof.
  intros Hw Hav Hi Hs Hl Hq. pose proof (av_eff _ _ _ Hav (wf_eff _ Hw)) as He.
  destruct (av_at _ _ _ Hav) as [Hid _ _ Hlog -> Hsn _ _ Hlead _ _].
  assert (last_log_index n' = last_log_index n) as ->.
  { unfold last_log_index, snapshot_index. by rewrite Hlog, Hsn. }
  rewrite (self_quorum_frame n n') in Hq by done.
  pose proof (wf_cl _ (wf_core _ Hw)) as Hcl. rewrite <- last_index_eq in Hcl by apply Hw.
  destruct (Hs (Hlead Hl) Hq); lia.
Qed.

(** Committing whatever the quorum has, as after every successful reply. *)
Lemma commit_candidate_safe n :
  wf n -> (is_leader n = true -> self_quorum n = true ->
     quorum_commit_candidate n = Some (last_log_index n)
     \/ commit_index n = last_log_index n) ->
  safe PRun n
    (match quorum_commit_candidate n with
     | Some index => advance_commit index
     | None => mret tt
     end) (fun _ n' => good n').
Proof.
  intros Hw Hs. destruct (quorum_commit_candidate n) as [i|] eqn:Hq.
  - destruct (candidate_bounds _ _ (wf_core _ Hw) Hq) as [Hi _].
    eapply safe_mono; [apply (advance_commit_safe PRun); try apply Hw; auto; lia|].
    cbn beta. intros _ n' Hav. split; [apply Hav|]. eapply advanced_solo; [done|done|lia|].
    intros Hl Hsq. destruct (Hs Hl Hsq) as [[= ->]|?]; auto.
  - apply safe_ret; [done|]. split; [done|]. intros Hl Hsq.
    by destruct (Hs Hl Hsq) as [[=]|?].
Qed.

(** ** Configuration entries *)

Lemma append_index_Some last i :
  option_filter (fun index => index <? u64_max) (checked_add last 1) = Some i ->
  i = last + 1 /\ i < u64_max.
Proof.
  unfold option_filter. destruct (checked_add last 1) as [v|] eqn:Hv; [|done].
  apply checked_add_Some in Hv as [-> _]. destruct (N.ltb_spec (last + 1) u64_max); [|done].
  intros [= <-]. lia.
Qed.

Lemma single_continues n e :
  core_ok n -> e_index e = last_log_index n + 1 -> e_index e < u64_max ->
  e_term e = current_term (hard n) -> continues n [e].
Proof.
  intros Hc Hi Hm Ht. pose proof (last_term_le _ Hc). split; cbn.
  - repeat split; lia.
  - unfold len64. cbn. lia.
Qed.

(** [change] is acceptable to the configuration in force at the end of the log. *)
Definition acceptable (n : RaftNode) (change : ConfigurationEntry) : Prop :=
  forall c i, replay_all (membership_base n) (log n) = Ok c -> last_log_index n < i ->
    i < u64_max -> exists c', advanced c i (current_term (hard n)) change = Ok c'.

Lemma append_configuration_safe n change :
  good n -> acceptable n change ->
  safe PRun n (append_configuration change) (fun _ n' => good n').
Proof.
  intros [Hw Hso] Hacc. unfold append_configuration. apply safe_get.
  destruct (option_filter _ _) as [i|] eqn:Hi; [|by apply safe_ret].
  apply append_index_Some in Hi as [Hi Hmax]. cbv zeta.
  set (entry := mkEntry i (current_term (hard n)) (Configuration change)).
  destruct (wf_eff _ Hw) as (c & Hr & _).
  destruct (Hacc c i Hr) as [c' Hadv]; [lia|done|].
  assert (Hcont : continues n [entry]) by (apply single_continues; [apply Hw|done..]).
  assert (Hc1 : core_ok (with_entries n [entry])).
  { eapply with_entries_core; [apply Hw|done|done|]. cbn. by rewrite Hadv. }
  assert (Hlast : last_log_index (with_entries n [entry]) = i).
  { rewrite with_entries_last by (apply Hw || done). unfold len64. cbn. lia. }
  eapply (safe_write PMid PRun); [by apply append_trans; [apply Hw|..]|auto with raft|].
  intros n1 H1. change (n1 = with_entries n [entry]) in H1.
  rewrite <- H1 in *.
  eapply (safe_bind PQuiet PRun); [apply refresh_safe; [done|]|auto 6 with raft|].
  { rewrite H1. apply with_entries_vol, Hw. }
  intros [] n2 (Hw2 & Hs2 & _). apply safe_get.
  apply (safe_bind PRun PPost _ _ _ _ (fun _ n3 => good n3));
    [|auto with raft|intros [] n3 Hg3; by apply safe_ret].
  assert (Hf : frame n1 n2) by apply Hs2.
  assert (Hll : last_log_index n2 = i).
  { rewrite <- Hlast. unfold last_log_index, snapshot_index.
    by rewrite (fr_log _ _ Hf), (fr_snap _ _ Hf). }
  apply commit_candidate_safe; [done|]. intros Hl Hq. left.
  apply (candidate_solo _ entry); [apply Hw2|done|done|..].
  - rewrite (fr_log _ _ Hf), H1. apply last_snoc.
  - rewrite (fr_hard _ _ Hf), H1. done.
  - rewrite Hll, (fr_commit _ _ Hf), H1. pose proof (wf_cl _ (wf_core _ Hw)) as Hcl.
    rewrite <- last_index_eq in Hcl by apply Hw. change (commit_index n < i). lia.
Qed.

(** With no configuration in flight the committed one is in force at the end. *)
Lemma no_uncommitted_replay n :
  core_ok n -> has_uncommitted_configuration n = false ->
  replay_all (membership_base n) (log n) = Ok (committed_membership n).
Proof.
  intros Hc Hno. destruct (wf_replay _ Hc) as [c Hr]. rewrite Hr. f_equal.
  pose proof (replay_drop _ Hc _ Hr) as Hd. rewrite replay_all_plain in Hd; [by injection Hd|].
  intros e [k Hk]%list_elem_of_lookup_1. rewrite lookup_drop in Hk.
  pose proof (log_ok_lookup _ _ _ _ _ _ (wf_log _ Hc) Hk) as [Hi _].
  unfold has_uncommitted_configuration in Hno.
  destruct (is_configuration (e_command e)) eqn:Hcfg; [exfalso|done].
  apply not_true_iff_false in Hno. apply Hno, existsb_exists. exists e. split.
  - by eapply list_elem_of_In, list_elem_of_lookup_2.
  - rewrite Hcfg, andb_true_r. apply N.ltb_lt. unfold log_pos in Hi.
    pose proof (wf_sa _ Hc). pose proof (wf_ac _ Hc). lia.
Qed.

Lemma committed_bounds n : core_ok n ->
  history (genesis_membership n) (committed_membership n)
  /\ cm_index (committed_membership n) <= commit_index n
  /\ cm_term (committed_membership n) <= current_term (hard n).
Proof.
  intros Hc. split; [eapply replay_all_history; [apply Hc|apply Hc]|].
  pose proof (replay_all_bounds _ _ _ _ _ _ (log_ok_take _ _ _ _ (log_pos n (commit_index n))
    (wf_log _ Hc)) (wf_base_index _ Hc) (wf_base_term _ Hc) (wf_committed _ Hc)) as [Hi Ht].
  pose proof (wf_sa _ Hc). pose proof (wf_ac _ Hc). pose proof (wf_cl _ Hc). split.
  - unfold len64, log_pos in *. rewrite length_take in Hi. lia.
  - etrans; [exact Ht|]. unfold end_term.
    destruct (list.last (take _ _)) as [e|] eqn:Hl; cbn; [|apply Hc].
    rewrite last_lookup in Hl.
    by apply (log_ok_lookup _ _ _ _ _ _ (log_ok_take _ _ _ _ _ (wf_log _ Hc))) in Hl as [_ [_ ?]].
Qed.

Lemma leader_term_pos n : vol_ok n -> is_leader n = true -> 0 < current_term (hard n).
Proof. intros [H _ _ _]. unfold is_leader. by destruct (role n). Qed.

Lemma acceptable_first n id op ph :
  wf n -> is_leader n = true -> has_uncommitted_configuration n = false ->
  first_phase (cm_state (committed_membership n)) id op = Ok ph ->
  acceptable n (mkConfigurationEntry id op ph).
Proof.
  intros Hw Hl Hno Hf c i Hr Hi Hm.
  rewrite (no_uncommitted_replay _ (wf_core _ Hw) Hno) in Hr. injection Hr as <-.
  destruct (committed_bounds _ (wf_core _ Hw)) as (_ & Hci & Hct).
  pose proof (wf_cl _ (wf_core _ Hw)) as Hcl. rewrite <- last_index_eq in Hcl by apply Hw.
  pose proof (leader_term_pos _ (wf_vol _ Hw) Hl). apply advanced_first; (lia || done).
Qed.

Lemma acceptable_final n id r :
  wf n -> is_leader n = true -> has_uncommitted_configuration n = false ->
  pending (cm_state (committed_membership n)) = Some (id, r) ->
  acceptable n (mkConfigurationEntry id (ar_operation r) PhFinal).
Proof.
  intros Hw Hl Hno Hp c i Hr Hi Hm.
  rewrite (no_uncommitted_replay _ (wf_core _ Hw) Hno) in Hr. injection Hr as <-.
  destruct (committed_bounds _ (wf_core _ Hw)) as (Hh & Hci & Hct).
  pose proof (wf_cl _ (wf_core _ Hw)) as Hcl. rewrite <- last_index_eq in Hcl by apply Hw.
  pose proof (leader_term_pos _ (wf_vol _ Hw) Hl).
  destruct (history_inv _ _ (wf_gen _ (wf_core _ Hw)) Hh) as (Hinv & _).
  apply advanced_final; (lia || done).
Qed.

Lemma maybe_finalize_safe n :
  good n -> safe PRun n maybe_finalize_membership (fun _ n' => good n').
Proof.
  intros Hg. unfold maybe_finalize_membership. apply safe_get.
  destruct (_ || _) eqn:Hb; [by apply safe_ret|]. bool_inv.
  destruct (pending _) as [[id r]|] eqn:Hp; [|by apply safe_ret].
  eapply (safe_bind PRun PPost); [apply append_configuration_safe|auto with raft|].
  - done.
  - apply acceptable_final; by try apply Hg.
  - cbn beta. intros _ n1 Hg1. by apply safe_ret.
Qed.

Lemma promotion_check_safe n id op vs :
  is_leader n = true -> safe PQuiet n (promotion_check id op vs) (fun _ n' => still n n').
Proof.
  intros Hl. unfold promotion_check. apply safe_get.
  eapply (safe_bind PQuiet PQuiet _ _ _ _ (fun _ n1 => still n n1)); [|auto with raft|].
  - destruct (promotion_fence n) as [[[id' prior] fence]|].
    + destruct (eqb id' id); [destruct (eqb prior op); by apply safe_ret|].
      apply safe_modify_bind; [by split|]. intros n1 ->. by apply safe_ret; [|still_tac].
    + apply safe_modify_bind; [by split|]. intros n1 ->. by apply safe_ret; [|still_tac].
  - intros [fence|] n1 Hs; [|by apply safe_ret]. unfold is_leader in Hl.
    destruct (role n); try done. destruct (existsb _ _); by apply safe_ret.
Qed.

Lemma still_acceptable n n' ch : still n n' -> acceptable n ch -> acceptable n' ch.
Proof.
  intros Hs H. assert (Hf : frame n n') by apply Hs. unfold acceptable, membership_base in *.
  unfold last_log_index, snapshot_index in *.
  by rewrite (fr_snap _ _ Hf), (fr_gen _ _ Hf), (fr_log _ _ Hf), (fr_hard _ _ Hf).
Qed.

Lemma admit_membership_safe n id op :
  good n -> safe PRun n (admit_membership id op) (fun _ n' => good n').
Proof.
  intros Hg. unfold admit_membership. apply safe_get.
  destruct (negb (is_leader n)) eqn:Hl; [by apply safe_ret|]. bool_inv.
  destruct (_ !! id); [by apply safe_ret|].
  destruct (find_request n id) as [[e ch]|]; [by apply safe_ret|].
  destruct (has_uncommitted_configuration n) eqn:Hno; [by apply safe_ret|].
  destruct (_ || _); [by apply safe_ret|].
  destruct (first_phase _ id op) as [ph|] eqn:Hf; [|by apply safe_ret].
  assert (Hacc : acceptable n (mkConfigurationEntry id op ph)).
  { apply acceptable_first; by try apply Hg. }
  eapply (safe_bind PQuiet PRun _ _ _ _ (fun _ n1 => still n n1)); [|auto 6 with raft|].
  { destruct op; try by apply safe_ret. by apply promotion_check_safe. }
  intros refused n1 Hs. assert (Hg1 : good n1) by by eapply good_still.
  destruct refused; [by apply safe_ret|].
  eapply (safe_bind PRun PPost); [apply append_configuration_safe; [done|]|auto with raft|].
  { by eapply still_acceptable. }
  cbn beta. intros [i|] n2 Hg2.
  - apply safe_modify_bind; [by split|]. intros n3 ->. apply safe_ret; [done|].
    eapply good_still; [|exact Hg2]. still_tac.
  - apply safe_get. by apply safe_ret.
Qed.

Lemma on_membership_change_safe n id op :
  good n -> safe PRun n (on_membership_change id op) (fun _ n' => good n').
Proof.
  intros Hg. unfold on_membership_change.
  eapply (safe_bind PRun PPost); [by apply admit_membership_safe|auto with raft|].
  cbn beta. intros o n1 Hg1. by apply safe_emit_post.
Qed.
