(* ===== verification/ElectionPath.v ===== *)
(** * Elections on a well-formed node

    Becoming leader, candidate and pre-candidate, votes, and term adoption. *)
From S2P Require Import Prelude Rng Quorum Membership Types Node MembershipProtocol.
From S2P Require Import SnapshotTransfer Replication Election Step LogFacts MembershipFacts.
From S2P Require Import Effects Invariant CommitPath SendPath LeaderPath.
Local Open Scope N_scope.
Local Open Scope raft_scope.

(** ** Becoming leader *)

(** The leader's first batch writes the hard state first, then announces. *)
Lemma reorder_trans n es n2 mid n3 :
  trans PRun n es n2 -> all no_log_write es -> frame n2 n3 -> all plain mid ->
  trans PRun n (filter (fun e => is_persist_hard e = true) es ++ mid
                ++ filter (fun e => is_persist_hard e = false) es) n3.
Proof.
  intros Ht Hlog Hf Hmid.
  set (P := filter (fun e => is_persist_hard e = true) es).
  set (rest := filter (fun e => is_persist_hard e = false) es).
  assert (Hmid1 : all (fun e => negb (is_apply e)) mid).
  { eapply all_impl; [|exact Hmid]. unfold plain. by intros e [_ ?]%andb_true_iff. }
  assert (Hmid2 : all post_eff mid).
  { eapply all_impl; [|exact Hmid]. unfold plain. by intros e [? _]%andb_true_iff. }
  assert (HP1 : all (fun e => negb (is_apply e)) P).
  { intros e [He _]%list_elem_of_filter. by destruct e. }
  assert (Hrest : all post_eff rest).
  { intros e [He Hin]%list_elem_of_filter. apply Hlog in Hin. by destruct e. }
  assert (Hrun : applied_run (last_applied n) rest = Some (last_applied n2)).
  { unfold rest. rewrite applied_run_filter; [apply Ht|].
    intros e _ He. by destruct e. }
  destruct Ht as [Hl Hd [Hterm Hph] Hpub].
  pose proof (frame_logical n2 [] n3 Hf (all_nil _)) as Hl2.
  pose proof (logical_seq _ _ _ _ _ Hl Hl2) as Hl3. rewrite app_nil_r in Hl3.
  split.
  - destruct Hl3. split; try done.
    + rewrite (applied_run_app _ (last_applied n)) by by apply applied_run_none.
      rewrite (applied_run_app _ (last_applied n)) by by apply applied_run_none.
      rewrite Hrun. by rewrite (fr_applied _ _ Hf).
    + intros e He. apply lg_apply. rewrite !elem_of_app in He. destruct He as [He|[He|He]].
      * by apply HP1 in He.
      * by apply Hmid1 in He.
      * by apply list_elem_of_filter in He as [_ ?].
  - rewrite !exec_app, (exec_none mid), (exec_none rest) by done. unfold P.
    rewrite exec_filter; [by rewrite Hd, (frame_durable _ _ Hf)|].
    intros e Hin He. apply Hlog in Hin. by destruct e.
  - cbn. rewrite (fr_hard _ _ Hf). split; [done|]. apply run_ok_app_mid.
    + intros e [He Hin]%list_elem_of_filter. eapply run_ok_persist; [done|done|]. by destruct e.
    + apply post_run. by rewrite all_app.
  - by rewrite (fr_pub _ _ Hf).
Qed.

Lemma wp_wlp {A} (m : Raft A) Q Q' n :
  wp m Q n -> wlp m Q' n -> wp m (fun a n' es => Q a n' es /\ Q' a n' es) n.
Proof. unfold wpg. destruct (m n) as [[[a n1] e]|]; auto. Qed.

Lemma leader_announce_safe n :
  wf n -> (self_quorum n = false -> solo n) ->
  safe PRun n
    (collected ← collect (when (self_quorum n) (advance_commit (last_log_index n)));
     emits (filter (fun e => is_persist_hard e = true) collected.2);;
     n ← get;
     emit (RoleChanged "Leader" (current_term (hard n)));;
     send_append_entries;;
     modify (fun n => n <| heartbeat_due_ms := saturating_add (now_ms n) HEARTBEAT_MS |>);;
     emits (filter (fun e => is_persist_hard e = false) collected.2))
    (fun _ n' => good n').
Proof.
  intros Hw Hno. apply wpg_bind, wpg_collect.
  assert (Hcommit : safe PRun n (when (self_quorum n) (advance_commit (last_log_index n)))
                      (fun _ n' => good n')).
  { apply safe_when; [done| |].
    - intros Hq. eapply safe_mono.
      { apply (advance_commit_safe PRun); [apply Hw|apply Hw|lia|right; apply Hw|by left]. }
      cbn beta. intros _ n' Hav. split; [apply Hav|].
      eapply advanced_solo; [done|done|lia|auto].
    - intros Hq. split; auto. }
  eapply wpg_mono.
  { apply wp_wlp; [exact Hcommit|]. apply (only_when no_log_write). apply advance_commit_no_log. }
  intros a n1 es [[Ht Hg1] Hlog]. cbn [snd]. cbn beta.
  apply wpg_bind, wpg_emits, wpg_bind, wpg_get, wpg_bind, wpg_emit, wpg_bind.
  eapply wpg_mono.
  { apply wp_wlp; [apply send_append_entries_sends, Hg1|apply send_append_entries_plain]. }
  intros [] n2 es2 [[Ht2 Hst] Hplain]. apply wpg_bind, wpg_modify, wpg_emits.
  assert (Hst3 : still n1 (n2 <| heartbeat_due_ms := saturating_add (now_ms n2) HEARTBEAT_MS |>)).
  { etrans; [exact Hst|]. still_tac. }
  split; [|by eapply good_still]. cbn [app].
  apply (reorder_trans n es n1 (RoleChanged "Leader" (current_term (hard n1)) :: es2));
    [done|done|apply Hst3|]. rewrite all_cons. done.
Qed.

(** A node that has just won and appended its first entry, before it announces
    anything. *)
Lemma new_leader_wf n n1 noop :
  wf n -> pending_reads n = ∅ -> incoming_snapshot n = None -> 0 < current_term (hard n) ->
  continues n [noop] -> is_configuration (e_command noop) = false ->
  frame (with_entries n [noop]) n1 ->
  effective_membership n1 = effective_membership n -> pending_reads n1 = pending_reads n ->
  incoming_snapshot n1 = incoming_snapshot n -> is_leader n1 = true -> read_context n1 = 0 ->
  wf n1.
Proof.
  intros Hw Hp Hi Ht Hcont Hcfg Hf He1 Hp1 Hi1 Hl1 Hx1. destruct (wf_eff _ Hw) as (c & Hr & He).
  assert (Hplain : replay_all c [noop] = Ok c).
  { apply replay_all_plain. by intros e ->%list_elem_of_singleton. }
  assert (Hr1 : replay_all (membership_base n) (log n ++ [noop]) = Ok c).
  { by rewrite replay_all_app, Hr. }
  split.
  - eapply core_frame; [exact Hf|]. by eapply with_entries_core; [apply Hw|..].
  - eapply eff_frame; [exact Hf|by rewrite He1|]. by exists c.
  - split.
    + rewrite (fr_hard _ _ Hf). by destruct (role n1).
    + intros ?. congruence.
    + intros a Ha. congruence.
    + rewrite Hx1. lia.
Qed.

Lemma stepped_down_good n f :
  wf n -> (forall n, still n (f n)) ->
  safe PQuiet n
    (modify (fun n => n <| campaign_exhausted := true |>);; become_follower;; modify f)
    (fun _ n' => good n').
Proof.
  intros Hw Hf. apply safe_modify_bind; [by split|]. intros n1 H1.
  assert (Hw1 : wf n1) by (subst n1; eapply wf_still; [|done]; still_tac).
  eapply (safe_bind PQuiet PQuiet); [apply become_follower_safe|auto with raft|].
  cbn beta. intros [] n2 ->. apply safe_modify; [apply Hf|].
  eapply good_still; [apply Hf|]. split; [by apply follower_wf|apply follower_solo].
Qed.

Lemma become_leader_safe n :
  wf n -> is_leader n = false -> incoming_snapshot n = None -> 0 < current_term (hard n) ->
  safe PRun n become_leader (fun _ n' => good n').
Proof.
  intros Hw Hl Hin Ht. unfold become_leader. apply safe_get.
  destruct (option_filter _ _) as [next|] eqn:Hn.
  - apply append_index_Some in Hn as [Hn Hmax]. cbv zeta.
    set (noop := mkEntry next (current_term (hard n)) NoOp).
    assert (Hp : pending_reads n = ∅) by by apply Hw.
    assert (Hcont : continues n [noop]) by (apply single_continues; [apply Hw|done..]).
    apply safe_modify_bind; [by split|]. intros n1 H1.
    assert (Hf1 : frame n n1) by (subst n1; by split).
    assert (Hfields : effective_membership n1 = effective_membership n
      /\ pending_reads n1 = pending_reads n /\ incoming_snapshot n1 = incoming_snapshot n
      /\ is_leader n1 = true /\ read_context n1 = 0) by by subst n1.
    clear H1. destruct Hfields as (He1 & Hp1 & Hi1 & Hl1 & Hx1).
    rewrite bool_decide_eq_true_2 by done. unfold massert.
    eapply (safe_bind PQuiet PRun _ _ _ _ (fun _ n2 => n2 = n1)); [by apply safe_ret|
      auto 6 with raft|]. intros [] n2 ->.
    eapply (safe_write PMid PRun); [|auto with raft|].
    { apply append_trans; [eapply core_frame; [done|apply Hw]|done..]. }
    intros n2 H2. apply safe_get. apply leader_announce_safe.
    + apply (new_leader_wf n n2 noop); try done; subst n2; try done.
      destruct Hf1 as [E1 E2 E3 E4 E5 E6 E7 E8]. split; try done. cbn. by rewrite E3.
    + intros Hq _. congruence.
  - apply (safe_weaken PQuiet); [|done]. apply stepped_down_good; [done|].
    intros n1. still_tac.
Qed.

(** ** Hard-state writes *)

Lemma hard_write_trans ph n n1 n2 :
  trans ph n [PersistHardState (hard n1)] n1 -> still n1 n2 ->
  trans ph n [PersistHardState (hard n2)] n2.
Proof.
  intros Ht Hs. assert (Hf : frame n1 n2) by apply Hs. rewrite (fr_hard _ _ Hf).
  pose proof (frame_logical n1 [] n2 Hf (all_nil _)) as Hl2.
  destruct Ht as [Hl Hd Hp Hpub]. split.
  - apply (logical_seq _ _ _ [] _ Hl Hl2).
  - by rewrite (frame_durable _ _ Hf).
  - by rewrite (fr_hard _ _ Hf).
  - by rewrite (fr_pub _ _ Hf).
Qed.

Lemma reset_wp n (Q : unit -> RaftNode -> list Effect -> Prop) :
  (forall n1, still n n1 -> Q tt n1 []) -> wp reset_election_deadline Q n.
Proof.
  intros H. apply wpg_modify, H. destruct (range_inclusive _ _ _). still_tac.
Qed.

(** [modify], draw a new deadline, then persist. *)
Lemma safe_hard_write {A} ph1 ph2 ph n f (m : RaftNode -> Raft A) R :
  trans ph1 n [PersistHardState (hard (f n))] (f n) -> seq_ok ph1 ph2 ph ->
  (forall n1, still (f n) n1 -> safe ph2 n1 (m n1) R) ->
  safe ph n (modify f;; reset_election_deadline;; n1 ← get;
             emit (PersistHardState (hard n1));; m n1) R.
Proof.
  intros Ht Hs Hk. apply wpg_bind, wpg_modify, wpg_bind, reset_wp. intros n1 Hst.
  apply wpg_bind, wpg_get, wpg_bind, wpg_emit.
  eapply wpg_mono; [by apply Hk|]. intros a n' es [Hes HR]. split; [|done].
  eapply (trans_seq ph1 ph2 ph _ [_]); [by eapply hard_write_trans|done|done].
Qed.

Lemma safe_hard_write_now {A} ph1 ph2 ph n f (m : unit -> Raft A) R :
  trans ph1 n [PersistHardState (hard (f n))] (f n) -> seq_ok ph1 ph2 ph ->
  (forall n1, n1 = f n -> safe ph2 n1 (m tt) R) ->
  safe ph n (modify f ≫= fun _ => get ≫= fun n1 => emit (PersistHardState (hard n1)) ≫= m) R.
Proof.
  intros Ht Hs Hk. apply wpg_bind, wpg_modify, wpg_bind, wpg_get, wpg_bind, wpg_emit.
  eapply wpg_mono; [by apply Hk|]. intros a n' es [Hes HR]. split; [|done].
  by eapply (trans_seq ph1 ph2 ph _ [_]).
Qed.

Lemma safe_hard_write_last ph n f :
  trans ph n [PersistHardState (hard (f n))] (f n) ->
  safe ph n (modify f;; reset_election_deadline;; n1 ← get; emit (PersistHardState (hard n1)))
    (fun _ n1 => still (f n) n1).
Proof.
  intros Ht. apply wpg_bind, wpg_modify, wpg_bind, reset_wp. intros n1 Hst.
  apply wpg_bind, wpg_get, wpg_emit. split; [|done]. by eapply hard_write_trans.
Qed.

Lemma hard_write_trans_intro ph n n1 :
  node_id n1 = node_id n -> genesis_membership n1 = genesis_membership n ->
  last_applied n1 = last_applied n -> publishing_snapshot n1 = publishing_snapshot n ->
  snapshot n1 = snapshot n -> log n1 = log n -> commit_index n1 = commit_index n ->
  hard_le (hard n) (hard n1) ->
  ph = PPre \/ ph = PMid /\ current_term (hard n1) = current_term (hard n) ->
  trans ph n [PersistHardState (hard n1)] n1.
Proof.
  intros H1 H2 H3 H4 H5 H6 H7 H8 Hph. apply trans_write; try done.
  - rewrite H7. lia.
  - intros i _ _. unfold entry_at, snapshot_index. by rewrite H5, H6.
  - unfold durable. by rewrite H5, H6.
  - destruct Hph as [->|[-> Ht]]; cbn.
    + split; [|done]. rewrite all_cons. auto with raft.
    + split; [done|]. rewrite all_cons. cbn. rewrite Ht, N.eqb_refl. auto with raft.
  - rewrite all_cons. auto with raft.
Qed.

(** A hard-state change that keeps the committed configuration keeps the core. *)
Lemma core_hard n n1 :
  core_ok n -> snapshot n1 = snapshot n -> log n1 = log n -> commit_index n1 = commit_index n ->
  last_applied n1 = last_applied n -> genesis_membership n1 = genesis_membership n ->
  hs_membership (hard n1) = hs_membership (hard n) ->
  current_term (hard n) <= current_term (hard n1) -> core_ok n1.
Proof.
  intros Hc Hs Hl Hci Hla Hg Hm Ht.
  assert (Hsi : snapshot_index n1 = snapshot_index n) by (unfold snapshot_index; by rewrite Hs).
  assert (Hst : snapshot_term n1 = snapshot_term n) by (unfold snapshot_term; by rewrite Hs).
  assert (Hb : membership_base n1 = membership_base n)
    by (unfold membership_base; by rewrite Hs, Hg).
  assert (Hcm : committed_membership n1 = committed_membership n)
    by (unfold committed_membership; by rewrite Hm, Hg).
  pose proof (image_kept n n1) as Hk. destruct Hc as [H1 H2 H3 H4 H5 H6 H7 H8 H9 H10 H11 H12 H13].
  split; try (intros; by eapply Hk); unfold node_log_ok, log_pos in *;
    rewrite ?Hsi, ?Hst, ?Hb, ?Hcm, ?Hl, ?Hci, ?Hla, ?Hg; try done; try lia.
  by eapply log_ok_weaken.
Qed.

Lemma eff_hard n n1 :
  effective_ok n -> snapshot n1 = snapshot n -> log n1 = log n ->
  genesis_membership n1 = genesis_membership n ->
  effective_membership n1 = effective_membership n -> effective_ok n1.
Proof.
  intros He Hs Hl Hg Hef. unfold effective_ok, membership_base in *. by rewrite Hs, Hl, Hg, Hef.
Qed.

(** ** Campaigns *)

Lemma campaign_sends n v msg l :
  wf n -> sends n (for_each (fun peer =>
    if negb (is_voter v peer) then mret tt else
    advertise_membership peer;; emit (Send peer msg)) l).
Proof.
  intros Hw. apply sends_for_each; [done|]. intros peer n1 _ Hw1 _.
  destruct (negb _); [apply sends_ret|].
  apply sends_bind; [by apply advertise_membership_sends|]. intros n2 _. by apply sends_emit.
Qed.

Lemma start_election_safe n :
  wf n -> is_leader n = false -> incoming_snapshot n = None ->
  safe PBatch n start_election (fun _ n' => good n').
Proof.
  intros Hw Hl Hin. unfold start_election. apply safe_get.
  assert (Hgood : good n) by (split; [done|by intros ?; congruence]).
  destruct (negb (is_voter n (node_id n))); [by apply safe_ret|].
  destruct (checked_add (current_term (hard n)) 1) as [term|] eqn:Ht.
  - apply checked_add_Some in Ht as [-> _].
    assert (Hp : pending_reads n = ∅) by by apply Hw.
    apply (safe_hard_write PPre PRun); [|by apply seq_pre|].
    + apply hard_write_trans_intro; try done; [|by left].
      split; cbn; [lia|]. intros ?. lia.
    + intros n1 Hst.
      set (n0 := n <| hard := _ |> <| role := _ |>) in *.
      assert (Hw0 : wf n0).
      { split.
        - apply (core_hard n); try done; [apply Hw|]. cbn. lia.
        - by apply (eff_hard n); [apply Hw|..].
        - split; [cbn; lia|done| |apply Hw]. intros a Ha. change (incoming_snapshot n = Some a) in Ha.
          congruence. }
      assert (Hw1 : wf n1) by by eapply wf_still.
      assert (Hl1 : is_leader n1 = false) by (unfold is_leader; by rewrite (st_role _ _ Hst)).
      assert (Hg1 : good n1) by (split; [done|by intros ?; congruence]).
      destruct (self_quorum n1).
      * apply become_leader_safe; [done|done|by rewrite (st_incoming _ _ Hst)|].
        rewrite (fr_hard _ _ (st_frame _ _ Hst)). cbn. lia.
      * eapply safe_weaken; [|by instantiate (1 := PPost)].
        eapply sends_good; [done|by apply sends_emit|auto with raft|].
        intros n2 Hst2 Hg2. apply sends_done; [done|]. apply campaign_sends, Hg2.
  - apply (safe_weaken PQuiet); [|done]. apply safe_modify_bind; [by split|]. intros n1 ->.
    eapply safe_mono; [apply become_follower_safe|]. cbn beta. intros _ n2 ->.
    split; [|apply follower_solo]. apply follower_wf. eapply wf_still; [|exact Hw]. still_tac.
Qed.

Lemma start_pre_vote_safe n :
  good n -> is_leader n = false -> safe PBatch n start_pre_vote (fun _ n' => good n').
Proof.
  intros [Hw Hso] Hl. unfold start_pre_vote. apply safe_get.
  destruct (negb (is_voter n (node_id n))); [by apply safe_ret|].
  assert (Hp : pending_reads n = ∅) by by apply Hw.
  destruct (checked_add (current_term (hard n)) 1) as [pt|],
    (checked_add (campaign_sequence n) 1) as [sq|].
  2-4: apply (safe_bind PPre PQuiet _ _ _ _ _ _ (cancel_incoming_snapshot_pre n));
       [by apply seq_pre|]; cbn beta; intros [] n1 ->; apply cancelled_wf in Hw;
       apply safe_modify_bind; [by split|]; intros n2 H2;
       (eapply safe_mono; [apply become_follower_safe|]); cbn beta; intros _ n3 ->;
       (split; [|apply follower_solo]); apply follower_wf; subst n2;
       (eapply wf_still; [|exact Hw]); still_tac.
  apply (safe_bind PPre PBatch _ _ _ _ _ _ (cancel_incoming_snapshot_pre n)); [by apply seq_pre|].
  cbn beta. intros [] n1 H1. assert (Hw1 : wf n1) by (subst n1; by apply cancelled_wf).
  assert (Hin1 : incoming_snapshot n1 = None) by by subst n1.
  assert (Hp1 : pending_reads n1 = ∅) by by subst n1. clear H1.
  apply safe_modify_bind; [by split|]. intros n2 H2.
  assert (Hw2 : wf n2).
  { subst n2. destruct Hw1 as [Hc He [V1 V2 V3 V4]]. split; [|exact He|split; [done|done| |done]].
    - by apply (core_frame n1).
    - intros a Ha. change (incoming_snapshot n1 = Some a) in Ha. congruence. }
  assert (Hin2 : incoming_snapshot n2 = None) by by subst n2.
  assert (Hl2 : is_leader n2 = false) by by subst n2. clear H2.
  apply (safe_bind PPre PBatch _ _ _ _ (fun _ n3 => still n2 n3)); [|by apply seq_pre|].
  { apply reset_wp. intros n3 Hst. split; [|done]. apply frame_pre; [apply Hst|auto with raft]. }
  intros [] n3 Hst. assert (Hw3 : wf n3) by by eapply wf_still.
  assert (Hl3 : is_leader n3 = false) by (unfold is_leader in *; by rewrite (st_role _ _ Hst)).
  assert (Hg3 : good n3) by (split; [done|by intros ?; congruence]).
  apply safe_get. destruct (self_quorum n3).
  - apply start_election_safe; [done|done|by rewrite (st_incoming _ _ Hst)].
  - apply (safe_weaken PPost); [|done].
    eapply sends_good; [done|by apply sends_emit|auto with raft|].
    intros n4 Hst4 Hg4. apply sends_done; [done|]. apply campaign_sends, Hg4.
Qed.

Lemma not_follower_no_incoming n : vol_ok n -> role n <> Follower -> incoming_snapshot n = None.
Proof.
  intros [_ _ H _] Hr. destruct (incoming_snapshot n) as [a|]; [|done].
  by destruct (H a eq_refl).
Qed.

Lemma on_pre_vote_reply_safe n from t pt cid g :
  good n ->
  safe (if is_follower n then PQuiet else PBatch) n (on_pre_vote_reply from t pt cid g)
    (fun _ n' => good n').
Proof.
  intros [Hw Hso]. unfold on_pre_vote_reply. apply safe_get.
  assert (Hret : phase_le PQuiet (if is_follower n then PQuiet else PBatch))
    by by destruct (is_follower n).
  destruct (_ || _); [by apply safe_ret|].
  destruct (role n) as [|et eid votes| |] eqn:Hr; try by apply safe_ret.
  destruct (_ || _); [by apply safe_ret|]. cbv zeta.
  unfold is_follower in *. rewrite Hr in *.
  assert (Hin : incoming_snapshot n = None).
  { apply not_follower_no_incoming; [apply Hw|by rewrite Hr]. }
  apply safe_modify_bind; [by split|]. intros n1 H1.
  assert (Hw1 : wf n1).
  { subst n1. destruct Hw as [Hc He [V1 V2 V3 V4]]. split; [by apply (core_frame n)|exact He|].
    split; [done| | |done].
    - intros _. apply V2. unfold is_leader. by rewrite Hr.
    - intros a Ha. change (incoming_snapshot n = Some a) in Ha. congruence. }
  assert (Hl1 : is_leader n1 = false) by by subst n1.
  assert (Hin1 : incoming_snapshot n1 = None) by by subst n1.
  apply safe_when; [done| |].
  - intros _. by apply start_election_safe.
  - intros _. split; [done|]. intros ?. congruence.
Qed.

Lemma on_request_vote_reply_safe n from t g :
  good n -> safe PRun n (on_request_vote_reply from t g) (fun _ n' => good n').
Proof.
  intros [Hw Hso]. unfold on_request_vote_reply. apply safe_get.
  destruct (_ || _); [by apply safe_ret|].
  destruct (role n) as [| |votes|] eqn:Hr; try by apply safe_ret. cbv zeta.
  assert (Hin : incoming_snapshot n = None).
  { apply not_follower_no_incoming; [apply Hw|by rewrite Hr]. }
  assert (Hpos : 0 < current_term (hard n)).
  { pose proof (v_role _ (wf_vol _ Hw)) as V. by rewrite Hr in V. }
  apply safe_modify_bind; [by split|]. intros n1 H1.
  assert (Hw1 : wf n1).
  { subst n1. destruct Hw as [Hc He [V1 V2 V3 V4]]. split; [by apply (core_frame n)|exact He|].
    split; [done| | |done].
    - intros _. apply V2. unfold is_leader. by rewrite Hr.
    - intros a Ha. change (incoming_snapshot n = Some a) in Ha. congruence. }
  assert (Hl1 : is_leader n1 = false) by by subst n1.
  apply safe_when; [done| |].
  - intros _. apply become_leader_safe; by subst n1.
  - intros _. split; [done|]. intros ?. congruence.
Qed.

(** A vote is only given when it was free or already this candidate's. *)
Lemma decide_vote_free hs my req :
  decide_vote hs my req = true ->
  voted_for hs = None \/ voted_for hs = Some (rq_candidate_id req).
Proof.
  unfold decide_vote. destruct (voted_for hs) as [v|]; [|auto].
  destruct (N.eqb_spec v (rq_candidate_id req)) as [->|]; [auto|done].
Qed.

Lemma on_request_vote_safe n t c li lt :
  good n -> safe PRun n (on_request_vote t c li lt) (fun _ n' => good n').
Proof.
  intros [Hw Hso]. unfold on_request_vote. apply safe_get.
  destruct (t <? current_term (hard n)).
  { apply (safe_weaken PPost); [|done]. by apply safe_emit_post. }
  cbv zeta. destruct (_ && _) eqn:Hgr; cbn [when].
  - apply andb_true_iff in Hgr as [_ Hd%decide_vote_free].
    set (f := fun n : RaftNode => n <| hard := hard n <| voted_for := Some c |> |>).
    assert (Hmid : trans PMid n [PersistHardState (hard (f n))] (f n)).
    { apply hard_write_trans_intro; try done; [|by right].
      split; [cbn; lia|]. intros _. cbn. destruct Hd as [->|Hd]; [by left|by right]. }
    assert (Hw1 : wf (f n)).
    { split; [by apply (core_hard n); [apply Hw|..]|by apply (eff_hard n); [apply Hw|..]|].
      by apply (vol_same n); [..|apply Hw]. }
    assert (Hso1 : solo (f n)) by exact Hso.
    apply (safe_bind PMid PPost _ _ _ _ (fun _ n' => good n')); [|auto with raft|].
    + eapply safe_mono; [by apply safe_hard_write_last|]. cbn beta. intros _ n1 Hst.
      by eapply good_still.
    + intros [] n1 Hg1. apply safe_get. by apply safe_emit_post.
  - apply (safe_weaken PPost); [|done].
    eapply (safe_bind PPost PPost _ _ _ _ (fun _ n1 => n1 = n)); [by apply safe_ret|auto with raft|].
    intros [] n1 ->. apply safe_get. by apply safe_emit_post.
Qed.

(** ** Term adoption *)

(** Either the term was not newer and nothing happened, or the node is now a
    follower of the message's term. *)
Lemma adopt_term_safe n t :
  good n ->
  safe (if current_term (hard n) <? t then PAdopt else PQuiet) n (adopt_term t)
    (fun _ n' => good n' /\ t <= current_term (hard n') /\ snapshot n' = snapshot n /\
       (current_term (hard n) < t -> current_term (hard n') = t /\ role n' = Follower) /\
       (t <= current_term (hard n) -> n' = n)).
Proof.
  intros [Hw Hso]. unfold adopt_term. apply safe_get.
  destruct (N.ltb_spec (current_term (hard n)) t) as [Hlt|Hge]; cbn [when].
  2: { apply safe_ret; [done|]. split; [done|]. split; [done|]. split; [done|]. split; [lia|done]. }
  apply (safe_hard_write_now PPre PQuiet); [|auto with raft|].
  { apply hard_write_trans_intro; try done; [|by left]. split; cbn; [lia|]. intros ?. lia. }
  intros n1 H1.
  assert (Hw1 : wf n1).
  { subst n1. split.
    - apply (core_hard n); [apply Hw|..]; cbn; (done || lia).
    - by apply (eff_hard n); [apply Hw|..].
    - by apply (vol_hard n); [..|cbn; lia|apply Hw]. }
  assert (Htm : current_term (hard n1) = t) by by subst n1.
  assert (Hsn1 : snapshot n1 = snapshot n) by by subst n1. clear H1.
  eapply (safe_bind PQuiet PQuiet); [apply become_follower_safe|auto with raft|].
  cbn beta. intros [] n2 H2.
  assert (Hw2 : wf n2) by (subst n2; by apply follower_wf).
  assert (Hf2 : hard n2 = hard n1 /\ role n2 = Follower /\ snapshot n2 = snapshot n1)
    by by subst n2.
  destruct Hf2 as (Hf2 & Hr2 & Hsn2). clear H2.
  apply safe_modify_bind; [by split|]. intros n3 H3.
  assert (Hst : still n2 n3) by (subst n3; still_tac). clear H3.
  eapply safe_mono; [apply cancel_incoming_snapshot_safe|]. cbn beta. intros _ n4 H4.
  assert (Hr4 : role n4 = Follower) by (subst n4; by rewrite <- Hr2, <- (st_role _ _ Hst)).
  assert (Htm4 : current_term (hard n4) = t).
  { subst n4. change (current_term (hard n3) = t).
    by rewrite (fr_hard _ _ (st_frame _ _ Hst)), Hf2. }
  split; [split|].
  - subst n4. apply cancelled_wf. by eapply wf_still.
  - intros Hl. unfold is_leader in Hl. by rewrite Hr4 in Hl.
  - split; [lia|]. split; [|split; [done|lia]]. subst n4. change (snapshot n3 = snapshot n).
    by rewrite (fr_snap _ _ (st_frame _ _ Hst)), Hsn2.
Qed.
