(* ===== verification/FollowerPath.v ===== *)
(** * Replication on a well-formed node

    The follower's append walk, its accept path and the leader's progress
    tracking.  [on_append_entries] computes the log it would have
    ([candidate_step]), checks its configuration entries, and then walks the
    payload again, truncating at the first conflict ([append_step]).  Both walks
    are the same function [merge_log]: keep the log up to the first entry that
    disagrees with the payload, then continue with the payload. *)
From S2P Require Import Prelude Rng Quorum Membership Types Node MembershipProtocol.
From S2P Require Import SnapshotTransfer Replication Election Step LogFacts MembershipFacts.
From S2P Require Import Effects Invariant CommitPath SendPath LeaderPath.
Local Open Scope N_scope.
Local Open Scope raft_scope.

(** ** The append walk *)

(** [merge_log k l es]: merge payload [es], whose first entry belongs at
    position [k], into the log [l]. *)
Fixpoint merge_log (k : nat) (l es : list Entry) : list Entry :=
  match es with
  | [] => l
  | e :: rest =>
      if is_some_and (l !! k) (fun old => e_term old =? e_term e)
      then merge_log (S k) l rest
      else take k l ++ es
  end.

(** Where the walk stops: [es1] agrees with the log, [app] is what is new. *)
Inductive walk (k : nat) (l es : list Entry) : list Entry -> list Entry -> Prop :=
| walk_same :
    (forall j e, es !! j = Some e -> exists old, l !! (k + j)%nat = Some old /\ e_term old = e_term e) ->
    walk k l es es []
| walk_diff es1 app :
    es = es1 ++ app -> app <> [] ->
    (forall j e, es1 !! j = Some e -> exists old, l !! (k + j)%nat = Some old /\ e_term old = e_term e) ->
    (forall e old, head app = Some e -> l !! (k + length es1)%nat = Some old ->
       e_term old <> e_term e) ->
    (k + length es1 <= length l)%nat ->
    walk k l es es1 app.

Lemma merge_log_walk k l es : (k <= length l)%nat ->
  exists es1 app, walk k l es es1 app /\
    merge_log k l es = if bool_decide (app = []) then l else take (k + length es1) l ++ app.
Proof.
  revert k. induction es as [|e es IH]; intros k Hk; cbn [merge_log].
  - exists [], []. split; [|done]. apply walk_same. intros j e He. by rewrite lookup_nil in He.
  - destruct (l !! k) as [old|] eqn:Hold; cbn [is_some_and].
    + destruct (N.eqb_spec (e_term old) (e_term e)) as [Heq|Hne].
      * destruct (IH (S k)) as (es1 & app & Hw & Hm); [by apply lookup_lt_Some in Hold|].
        assert (Hcons : forall es1, (forall j e', es1 !! j = Some e' ->
                  exists old, l !! (S k + j)%nat = Some old /\ e_term old = e_term e') ->
                forall j e', (e :: es1) !! j = Some e' ->
                  exists old, l !! (k + j)%nat = Some old /\ e_term old = e_term e').
        { intros es2 H j e' He'. destruct j as [|j]; cbn in He'.
          - injection He' as <-. exists old. by rewrite Nat.add_0_r.
          - replace (k + S j)%nat with (S k + j)%nat by lia. by apply H. }
        destruct Hw as [Hall|es1 app -> Hne Hall Hdiff Hlen].
        -- exists (e :: es), []. split; [apply walk_same; by apply Hcons|done].
        -- exists (e :: es1), app. split.
           ++ apply walk_diff; [done|done|by apply Hcons| |cbn [length]; lia].
              intros e' o He' Ho. apply (Hdiff e' o He').
              by replace (S k + length es1)%nat with (k + length (e :: es1))%nat by (cbn; lia).
           ++ rewrite Hm. by replace (S k + length es1)%nat with (k + length (e :: es1))%nat
                by (cbn; lia).
      * exists [], (e :: es). split; [|by rewrite bool_decide_eq_false_2, Nat.add_0_r].
        apply walk_diff; [done|done|by intros j e' He'; rewrite lookup_nil in He'| |cbn; lia].
        intros e' o [= <-] Ho. rewrite Nat.add_0_r in Ho. congruence.
    + exists [], (e :: es). split; [|by rewrite bool_decide_eq_false_2, Nat.add_0_r].
      apply walk_diff; [done|done|by intros j e' He'; rewrite lookup_nil in He'| |cbn; lia].
      intros e' o [= <-] Ho. rewrite Nat.add_0_r in Ho. congruence.
Qed.

(** Past the end of the log everything is appended. *)
Lemma merge_log_end l es : merge_log (length l) l es = l ++ es.
Proof.
  destruct es as [|e es]; cbn; [by rewrite app_nil_r|].
  rewrite lookup_ge_None_2 by lia. cbn. by rewrite firstn_all.
Qed.

(** ** The candidate log *)

Lemma sub_u64_eq a b (n : RaftNode) : b <= a -> (sub_u64 a b : Raft N) n = Some (a - b, n, []).
Proof. intros H. unfold sub_u64. by rewrite (proj2 (checked_sub_Some a b (a - b))). Qed.

Lemma bind_Some {A B} (m : Raft A) (f : A -> Raft B) n a n1 :
  m n = Some (a, n1, []) -> (m ≫= f) n = f a n1.
Proof.
  unfold mbind, M_bind. intros ->. by destruct (f a n1) as [[[b n2] e]|].
Qed.

Lemma candidate_step_eq base l e n : base < e_index e ->
  candidate_step base l e n =
  Some (if is_some_and (l !! N.to_nat (e_index e - base - 1)) (fun old => e_term old =? e_term e)
        then l else take (N.to_nat (e_index e - base - 1)) l ++ [e], n, []).
Proof.
  intros H. unfold candidate_step.
  rewrite (bind_Some _ _ _ _ _ (sub_u64_eq (e_index e) base n ltac:(lia))).
  rewrite (bind_Some _ _ _ _ _ (sub_u64_eq (e_index e - base) 1 n ltac:(lia))).
  rewrite get_at_lookup, truncate_take. by destruct (is_some_and _ _).
Qed.

Lemma candidate_fold base prev cur k l es n :
  log_ok (base + N.of_nat k) prev cur es -> (k <= length l)%nat ->
  fold_each (candidate_step base) l es n = Some (merge_log k l es, n, []).
Proof.
  revert prev k l. induction es as [|e es IH]; intros prev k l Hok Hk; [done|].
  destruct Hok as (Hi & _ & Hok). cbn [fold_each merge_log].
  rewrite (bind_Some _ _ _ _ _ (candidate_step_eq base l e n ltac:(lia))).
  replace (N.to_nat (e_index e - base - 1)) with k by lia.
  replace (base + N.of_nat k + 1) with (base + N.of_nat (S k)) in Hok by lia.
  destruct (is_some_and (l !! k) _) eqn:Hm.
  - apply (IH (e_term e) (S k)); [done|].
    destruct (l !! k) eqn:Hl; [|done]. by apply lookup_lt_Some in Hl.
  - assert (Hlen : length (take k l ++ [e]) = S k) by (rewrite length_app, length_take; cbn; lia).
    rewrite (IH (e_term e) (S k)); [|done|lia].
    rewrite <- Hlen, merge_log_end. by rewrite <- app_assoc.
Qed.

(** ** The walk over the node's log *)

(** What the walk leaves: the kept log, and what must be persisted. *)
Definition walk_result (n : RaftNode) (k : nat) (es1 app : list Entry)
  : option LogIndex * list Entry * RaftNode :=
  if bool_decide (app = []) then (None, [], n)
  else if bool_decide (k + length es1 = length (log n))%nat then (None, app, n)
  else (Some (snapshot_index n + N.of_nat (k + length es1) + 1), app,
        n <| log := take (k + length es1) (log n) |>).

Lemma append_step_past tf app es n :
  (forall e, e ∈ es -> last_log_index n < e_index e) ->
  fold_each append_step (tf, app) es n = Some ((tf, app ++ es), n, []).
Proof.
  revert app. induction es as [|e es IH]; intros app Hlt; cbn [fold_each].
  { by rewrite app_nil_r. }
  assert (append_step (tf, app) e n = Some ((tf, app ++ [e]), n, [])) as Hstep.
  { unfold append_step. rewrite (bind_Some get _ n n n eq_refl).
    destruct (N.ltb_spec (last_log_index n) (e_index e)) as [_|Hle]; [done|].
    specialize (Hlt e ltac:(left)). lia. }
  rewrite (bind_Some _ _ _ _ _ Hstep), IH; [by rewrite <- app_assoc|].
  intros e' He'. apply Hlt. by right.
Qed.

Lemma walk_nil k l es1 app : walk k l [] es1 app -> es1 = [] /\ app = [].
Proof.
  inversion 1 as [|? ? Heq Hne]; [done|]. symmetry in Heq.
  apply app_eq_nil in Heq as [-> ->]. done.
Qed.

Lemma walk_cons_same k l e es es1 app :
  walk k l (e :: es) es1 app ->
  is_some_and (l !! k) (fun old => e_term old =? e_term e) = true ->
  exists es1', es1 = e :: es1' /\ walk (S k) l es es1' app.
Proof.
  intros Hw Hs. destruct (l !! k) as [old|] eqn:Hk; [|done]. cbn in Hs. bool_inv.
  destruct Hw as [Hall|es1 app Heq Hne Hall Hd Hlen].
  - exists es. split; [done|]. apply walk_same. intros j e' He'.
    destruct (Hall (S j) e' He') as (o & Ho & Ht). exists o.
    by replace (S k + j)%nat with (k + S j)%nat by lia.
  - destruct es1 as [|x es1]; cbn in Heq.
    { subst app. exfalso. apply (Hd e old); [done|by rewrite Nat.add_0_r|done]. }
    injection Heq as <- ->. exists es1. split; [done|].
    apply walk_diff; [done|done| | |cbn in Hlen; lia].
    + intros j e' He'. destruct (Hall (S j) e' He') as (o & Ho & Ht). exists o.
      by replace (S k + j)%nat with (k + S j)%nat by lia.
    + intros e' o He' Ho. apply (Hd e' o He'). cbn [length].
      by replace (k + S (length es1))%nat with (S k + length es1)%nat by lia.
Qed.

Lemma walk_cons_diff k l e es es1 app :
  walk k l (e :: es) es1 app ->
  is_some_and (l !! k) (fun old => e_term old =? e_term e) = false ->
  es1 = [] /\ app = e :: es.
Proof.
  intros Hw Hs. destruct Hw as [Hall|es1 app Heq Hne Hall Hd Hlen].
  - destruct (Hall 0%nat e eq_refl) as (o & Ho & Ht). rewrite Nat.add_0_r in Ho.
    rewrite Ho in Hs. cbn in Hs. bool_inv. done.
  - destruct es1 as [|x es1]; cbn in Heq; [done|]. injection Heq as <- ->.
    destruct (Hall 0%nat e eq_refl) as (o & Ho & Ht). rewrite Nat.add_0_r in Ho.
    rewrite Ho in Hs. cbn in Hs. bool_inv. done.
Qed.

Section walk.
Context (n : RaftNode) (Hlog : node_log_ok n).

Lemma term_at_pos k e : e_index e = snapshot_index n + N.of_nat k + 1 ->
  e_index e <= last_log_index n ->
  exists old, log n !! k = Some old /\ term_at n (e_index e) = e_term old.
Proof.
  intros Hi Hl. rewrite (last_log_index_eq _ Hlog) in Hl. unfold len64 in Hl.
  destruct (lookup_lt_is_Some_2 (log n) k) as [old Ho]; [lia|]. exists old. split; [done|].
  unfold term_at. rewrite log_term_entry by lia. rewrite entry_at_eq, Hi.
  destruct (N.leb_spec (snapshot_index n + N.of_nat k + 1) (snapshot_index n)); [lia|].
  replace (N.to_nat _) with k by lia. by rewrite Ho.
Qed.

(** The walk through the payload never panics, emits nothing, and stops where
    [walk] says. *)
Lemma append_fold prev cur k es es1 app :
  log_ok (snapshot_index n + N.of_nat k) prev cur es -> (k <= length (log n))%nat ->
  walk k (log n) es es1 app ->
  fold_each append_step (None, []) es n =
  Some ((walk_result n k es1 app).1, (walk_result n k es1 app).2, []).
Proof.
  revert prev k es1. induction es as [|e es IH]; intros prev k es1 Hok Hk Hw.
  { apply walk_nil in Hw as [-> ->]. done. }
  destruct Hok as (Hi & _ & Hok). cbn [fold_each].
  pose proof (last_log_index_eq _ Hlog) as Hll.
  destruct (decide (last_log_index n < e_index e)) as [Hlt|Hge].
  - (* at the end of the log *)
    assert (k = length (log n)) as -> by (unfold len64 in Hll; lia).
    destruct (walk_cons_diff _ _ _ _ _ _ Hw) as [-> ->]; [by rewrite lookup_ge_None_2|].
    change (append_step (None, []) e ≫= (fun b => fold_each append_step b es))
      with (fold_each append_step (None, []) (e :: es)).
    rewrite append_step_past.
    + unfold walk_result. rewrite bool_decide_eq_false_2 by done.
      by rewrite bool_decide_eq_true_2 by (cbn; lia).
    + intros e' [->|He']%elem_of_cons; [done|]. apply list_elem_of_lookup_1 in He' as [j Hj].
      apply (log_ok_lookup _ _ _ _ _ _ Hok) in Hj as [-> _]. lia.
  - destruct (term_at_pos k e) as (old & Ho & Ht); [lia|lia|].
    replace (snapshot_index n + N.of_nat k + 1) with (snapshot_index n + N.of_nat (S k))
      in Hok by lia.
    destruct (e_term old =? e_term e) eqn:Heq.
    + (* agreement *)
      destruct (walk_cons_same _ _ _ _ _ _ Hw) as (es1' & -> & Hw'); [by rewrite Ho|].
      assert (append_step (None, []) e n = Some ((None, []), n, [])) as Hstep.
      { unfold append_step. rewrite (bind_Some get _ n n n eq_refl).
        destruct (N.ltb_spec (last_log_index n) (e_index e)); [lia|]. by rewrite Ht, Heq. }
      rewrite (bind_Some _ _ _ _ _ Hstep), (IH _ (S k) es1' Hok); [|by apply lookup_lt_Some in Ho|done].
      unfold walk_result. cbn [length].
      by replace (S k + length es1')%nat with (k + S (length es1'))%nat by lia.
    + (* conflict *)
      destruct (walk_cons_diff _ _ _ _ _ _ Hw) as [-> ->]; [by rewrite Ho|].
      set (n1 := n <| log := take k (log n) |>).
      assert (append_step (None, []) e n = Some ((Some (e_index e), [e]), n1, [])) as Hstep.
      { unfold append_step. rewrite (bind_Some get _ n n n eq_refl).
        destruct (N.ltb_spec (last_log_index n) (e_index e)); [lia|]. rewrite Ht, Heq.
        rewrite (bind_Some _ _ _ _ _ (sub_u64_eq (e_index e) (snapshot_index n) n ltac:(lia))).
        rewrite (bind_Some _ _ _ _ _
                   (sub_u64_eq (e_index e - snapshot_index n) 1 n ltac:(lia))).
        erewrite (bind_Some (modify _)); [|reflexivity]. rewrite truncate_take.
        by replace (N.to_nat (e_index e - snapshot_index n - 1)) with k by lia. }
      apply lookup_lt_Some in Ho as Hlt.
      rewrite (bind_Some _ _ _ _ _ Hstep), append_step_past.
      * unfold walk_result. rewrite bool_decide_eq_false_2 by done.
        rewrite bool_decide_eq_false_2 by (cbn; lia). cbn [length]. rewrite Nat.add_0_r.
        by rewrite <- Hi.
      * intros e' He'. apply list_elem_of_lookup_1 in He' as [j Hj].
        apply (log_ok_lookup _ _ _ _ _ _ Hok) in Hj as [-> _].
        assert (node_log_ok n1) as Hlog1 by by apply log_ok_take.
        rewrite (last_log_index_eq _ Hlog1).
        change (snapshot_index n + len64 (take k (log n))
                < snapshot_index n + N.of_nat (S k) + N.of_nat j + 1).
        unfold len64. rewrite length_take. lia.
Qed.
End walk.

(** ** The merged log *)

Lemma last_take_S {A} (l : list A) j x : l !! j = Some x -> list.last (take (S j) l) = Some x.
Proof.
  intros Hj. rewrite last_lookup, length_take_le by (apply lookup_lt_Some in Hj; lia).
  cbn [pred]. rewrite lookup_take_lt by lia. done.
Qed.

Section merge.
Context (n : RaftNode) (Hc : core_ok n).
Context (prev pt : N).
Context (Hanchor : log_term n prev = Some pt).
Let k := log_pos n prev.

Lemma anchor_bounds : snapshot_index n <= prev <= last_log_index n.
Proof. apply (log_term_Some n (wf_log _ Hc)) in Hanchor. tauto. Qed.

Lemma anchor_pos : (k <= length (log n))%nat /\ prev = snapshot_index n + N.of_nat k.
Proof.
  pose proof anchor_bounds as Hb. rewrite (last_index_eq _ Hc) in Hb.
  unfold k, log_pos, len64 in *. lia.
Qed.

Lemma anchor_end_term : end_term (snapshot_term n) (take k (log n)) = pt.
Proof.
  destruct anchor_pos as [Hk Hp]. pose proof Hanchor as Ha. unfold log_term in Ha.
  destruct (N.eqb_spec prev (snapshot_index n)) as [Heq|Hne].
  - injection Ha as <-. assert (k = 0%nat) as -> by lia. done.
  - rewrite entry_at_eq in Ha. destruct (N.leb_spec prev (snapshot_index n)); [done|].
    destruct k as [|j] eqn:Hkj; [lia|].
    replace (N.to_nat (prev - snapshot_index n - 1)) with j in Ha by lia.
    destruct (log n !! j) as [e|] eqn:He; [|done]. cbn in Ha. injection Ha as <-.
    unfold end_term. by rewrite (last_take_S _ _ e).
Qed.

Context (es : list Entry) (Hes : log_ok prev pt (current_term (hard n)) es).

Lemma es_ok : log_ok (snapshot_index n + N.of_nat k) pt (current_term (hard n)) es.
Proof. destruct anchor_pos as [_ <-]. exact Hes. Qed.

Context (es1 app : list Entry) (Hwalk : walk k (log n) es es1 app).

Lemma walk_split : es = es1 ++ app.
Proof. destruct Hwalk; [by rewrite app_nil_r|done]. Qed.

Lemma walk_agree j e : es1 !! j = Some e ->
  exists old, log n !! (k + j)%nat = Some old /\ e_term old = e_term e.
Proof. destruct Hwalk; eauto. Qed.

Lemma walk_pos : (k + length es1 <= length (log n))%nat.
Proof.
  destruct anchor_pos as [Hk _]. destruct Hwalk as [Hall|]; [|done].
  clear Hes. destruct es as [|x l _] using rev_ind; [cbn; lia|].
  destruct (Hall (length l) x) as (o & Ho & _).
  { rewrite lookup_app_r, Nat.sub_diag by lia. done. }
  apply lookup_lt_Some in Ho. rewrite length_app. cbn. lia.
Qed.

Lemma walk_end_term :
  end_term (snapshot_term n) (take (k + length es1) (log n)) = end_term pt es1.
Proof.
  pose proof walk_agree as Hag. pose proof anchor_end_term as Hend. clear Hwalk.
  destruct es1 as [|x l _] using rev_ind.
  { cbn [length]. rewrite Nat.add_0_r. exact Hend. }
  destruct (Hag (length l) x) as (o & Ho & Ht).
  { rewrite lookup_app_r, Nat.sub_diag by lia. done. }
  rewrite length_app. cbn [length]. replace (k + (length l + 1))%nat with (S (k + length l)) by lia.
  unfold end_term. rewrite (last_take_S _ _ o) by done. by rewrite last_snoc.
Qed.

Let merged := take (k + length es1) (log n) ++ app.

Lemma merged_ok :
  log_ok (snapshot_index n) (snapshot_term n) (current_term (hard n)) merged.
Proof.
  apply log_ok_app. split; [apply log_ok_take, Hc|].
  pose proof es_ok as Hok. rewrite walk_split in Hok. apply log_ok_app in Hok as [_ Hok].
  rewrite walk_end_term. unfold len64 in *.
  rewrite length_take_le by apply walk_pos.
  by replace (snapshot_index n + N.of_nat (k + length es1))
    with (snapshot_index n + N.of_nat k + N.of_nat (length es1)) by lia.
Qed.

Lemma merged_length : snapshot_index n + len64 merged = prev + len64 es.
Proof.
  destruct anchor_pos as [Hk Hp]. unfold merged, len64.
  rewrite walk_split, !length_app, length_take_le by apply walk_pos. lia.
Qed.

(** Committed entries are never truncated. *)
Context (Hguard : forall e, e ∈ es -> e_index e <= commit_index n ->
           log_term n (e_index e) = Some (e_term e)).

Lemma walk_keeps_committed : app <> [] ->
  (log_pos n (commit_index n) <= k + length es1)%nat.
Proof.
  intros Hne. destruct Hwalk as [|es1' app' Heq _ _ Hd Hl]; [done|].
  destruct app' as [|e app']; [done|].
  destruct (decide (log_pos n (commit_index n) <= k + length es1')%nat) as [|Hgt]; [done|exfalso].
  pose proof es_ok as Hok. rewrite Heq in Hok.
  assert (Hidx : e_index e = snapshot_index n + N.of_nat (k + length es1') + 1).
  { assert (Hlk : (es1' ++ e :: app') !! (length es1') = Some e)
      by (rewrite lookup_app_r, Nat.sub_diag by lia; done).
    apply (log_ok_lookup _ _ _ _ _ _ Hok) in Hlk as [-> _]. lia. }
  unfold log_pos in Hgt.
  assert (Hin : e ∈ es) by (rewrite Heq; apply elem_of_app; right; left).
  pose proof (Hguard e Hin ltac:(lia)) as Hlt.
  rewrite log_term_entry, entry_at_eq in Hlt by lia.
  destruct (N.leb_spec (e_index e) (snapshot_index n)); [lia|].
  apply fmap_Some in Hlt as (old & Ho & Ht).
  apply (Hd e old eq_refl); [|done].
  by replace (N.to_nat (e_index e - snapshot_index n - 1)) with (k + length es1')%nat in Ho by lia.
Qed.
End merge.

(** ** Writing the merged log *)

(** [n2] is [n] with its log cut at [K] and continued by [app]. *)
Record rewritten (n : RaftNode) (K : nat) (app : list Entry) (n2 : RaftNode) : Prop := {
  rw_frame : frame (n <| log := take K (log n) ++ app |>) n2;
  rw_eff : effective_membership n2 = effective_membership n;
  rw_role : role n2 = role n;
  rw_reads : pending_reads n2 = pending_reads n;
  rw_incoming : incoming_snapshot n2 = incoming_snapshot n;
  rw_context : read_context n2 = read_context n;
}.

Lemma rewritten_core n K app n2 c :
  core_ok n -> rewritten n K app n2 ->
  log_ok (snapshot_index n) (snapshot_term n) (current_term (hard n)) (take K (log n) ++ app) ->
  snapshot_index n + len64 (take K (log n) ++ app) <= u64_max ->
  (log_pos n (commit_index n) <= K <= length (log n))%nat ->
  replay_all (membership_base n) (take K (log n) ++ app) = Ok c -> core_ok n2.
Proof.
  intros Hc Hrw Hok Hlen HK Hr. eapply core_frame; [apply Hrw|].
  destruct Hc as [H1 H2 H3 H4 H5 H6 H7 H8 H9 H10 H11 H12 H13]. split; try done.
  - change (commit_index n <= snapshot_index n + len64 (take K (log n) ++ app)).
    unfold len64, log_pos in *. rewrite length_app, length_take_le by lia. lia.
  - by exists c.
  - change (replay_all (membership_base n)
      (take (log_pos n (commit_index n)) (take K (log n) ++ app)) = Ok (committed_membership n)).
    rewrite take_app_le by (rewrite length_take_le; lia). rewrite take_take.
    by rewrite Nat.min_l by lia.
Qed.

Lemma rewritten_vol n K app n2 : rewritten n K app n2 -> vol_ok n -> vol_ok n2.
Proof.
  intros Hrw. pose proof (rw_frame _ _ _ _ Hrw) as Hf. destruct Hrw.
  apply vol_same; try done; [apply (fr_snap _ _ Hf)|apply (fr_gen _ _ Hf)|].
  by rewrite (fr_hard _ _ Hf).
Qed.

Lemma rewritten_trans n K app tf n2 :
  core_ok n -> rewritten n K app n2 ->
  (log_pos n (commit_index n) <= K <= length (log n))%nat ->
  (tf = None /\ K = length (log n)) \/ tf = Some (snapshot_index n + N.of_nat K + 1) ->
  trans PMid n [PersistLogEntries tf app] n2.
Proof.
  intros Hc Hrw HK Htf. pose proof (rw_frame _ _ _ _ Hrw) as [F1 F2 F3 F4 F5 F6 F7 F8].
  apply trans_write; try done.
  - by rewrite F2.
  - rewrite F4. cbn. lia.
  - intros i Hi Hs. assert (Hsi : snapshot_index n2 = snapshot_index n).
    { unfold snapshot_index. by rewrite F6. }
    rewrite !entry_at_eq, Hsi, F3. destruct (N.leb_spec i (snapshot_index n)); [done|].
    change (log (n <| log := take K (log n) ++ app |>)) with (take K (log n) ++ app).
    unfold log_pos in HK. rewrite lookup_app_l by (rewrite length_take_le; lia).
    rewrite lookup_take_lt by lia. done.
  - unfold durable. rewrite F2, F3, F6. unfold exec. cbn. f_equal.
    destruct Htf as [[-> ->]| ->]; [by rewrite firstn_all|]. f_equal.
    rewrite (list_filter_iff _ (fun e => e_index e <= snapshot_index n + N.of_nat K))
      by (intros; lia).
    rewrite (log_ok_filter_le _ _ _ _ _ (wf_log _ Hc)) by lia.
    replace (N.to_nat _) with K by lia. done.
  - cbn. rewrite F2. split; [done|]. rewrite all_cons. auto with raft.
  - rewrite all_cons. auto with raft.
Qed.

(** ** The accept path *)

Lemma accept_tail_safe n leader plast lc round :
  core_ok n -> vol_ok n -> role n = Follower -> plast <= last_log_index n ->
  safe PRun n
    (n ← get;
     (if commit_index n <? N.min lc plast then advance_commit (N.min lc plast)
      else refresh_effective_membership);;
     append_reply leader true plast round None)
    (fun _ n' => good n').
Proof.
  intros Hc Hv Hr Hp. apply safe_get.
  apply (safe_bind PRun PPost _ _ _ _ (fun _ n1 => good n1)); [|auto with raft|].
  - destruct (N.ltb_spec (commit_index n) (N.min lc plast)) as [Hlt|Hge].
    + eapply safe_mono; [apply (advance_commit_safe PRun); auto; lia|].
      cbn beta. intros _ n1 Hav. split; [apply Hav|]. intros Hl.
      unfold is_leader in Hl. by rewrite (ca_follower _ _ _ (av_at _ _ _ Hav) Hr) in Hl.
    + apply (safe_weaken PQuiet); [|done]. eapply safe_mono; [by apply refresh_safe|].
      cbn beta. intros _ n1 (Hw & Hs & _). split; [done|]. intros Hl.
      unfold is_leader in Hl. by rewrite (sf_follower _ _ Hs Hr) in Hl.
  - intros [] n1 Hg. apply sends_done; [done|apply append_reply_sends].
Qed.

Lemma walk_result_rewritten n k es1 app tf ap n1 :
  walk_result n k es1 app = (tf, ap, n1) -> app <> [] ->
  (k + length es1 <= length (log n))%nat ->
  ap = app /\ rewritten n (k + length es1) app (n1 <| log := log n1 ++ app |>) /\
  ((tf = None /\ (k + length es1)%nat = length (log n))
   \/ tf = Some (snapshot_index n + N.of_nat (k + length es1) + 1)).
Proof.
  unfold walk_result. intros H Hne Hle. rewrite bool_decide_eq_false_2 in H by done.
  case_bool_decide as HK; injection H as <- <- <-.
  - split; [done|]. split; [|by left]. split; try done. split; try done.
    rewrite HK. cbn. by rewrite firstn_all.
  - split; [done|]. split; [|by right]. by split.
Qed.

Lemma accept_entries_safe n leader prev pt es lc round :
  wf n -> role n = Follower -> log_ok prev pt (current_term (hard n)) es ->
  prev + len64 es <= u64_max -> log_term n prev = Some pt ->
  (forall e, e ∈ es -> e_index e <= commit_index n -> log_term n (e_index e) = Some (e_term e)) ->
  is_ok (replay_all (membership_base n) (merge_log (log_pos n prev) (log n) es)) = true ->
  safe PRun n (accept_entries leader es (prev + len64 es) lc round) (fun _ n' => good n').
Proof.
  intros Hw Hrole Hes Hlen Hanc Hguard Hcfg. pose proof (wf_core _ Hw) as Hc.
  destruct (anchor_pos n Hc prev pt Hanc) as [Hk Hprev].
  destruct (merge_log_walk (log_pos n prev) (log n) es Hk) as (es1 & app & Hwalk & Hmerge).
  pose proof (walk_pos n Hc prev pt Hanc es es1 app Hwalk) as Hpos.
  unfold accept_entries. apply wpg_bind. unfold wpg at 1.
  rewrite (append_fold n (wf_log _ Hc) pt (current_term (hard n)) (log_pos n prev) es es1 app);
    [|by rewrite <- Hprev|done|done].
  destruct (walk_result n (log_pos n prev) es1 app) as [[tf ap] n1] eqn:Hres. cbn [fst snd].
  destruct (decide (app = [])) as [->|Hne].
  - unfold walk_result in Hres. rewrite bool_decide_eq_true_2 in Hres by done.
    injection Hres as <- <- <-. cbn [negb]. rewrite bool_decide_eq_true_2 by done. cbn [negb when].
    apply wpg_bind, wpg_ret. eapply wpg_mono.
    { apply (accept_tail_safe n leader (prev + len64 es) lc round Hc (wf_vol _ Hw) Hrole).
      rewrite (last_index_eq _ Hc), Hprev. unfold len64.
      rewrite (walk_split n prev es es1 [] Hwalk), app_nil_r. lia. }
    intros a n' e [Ht Hg]. done.
  - destruct (walk_result_rewritten _ _ _ _ _ _ _ Hres Hne Hpos) as (-> & Hrw & Htf).
    pose proof (walk_keeps_committed n Hc prev pt Hanc es Hes es1 app Hwalk Hguard Hne) as Hcom.
    rewrite bool_decide_eq_false_2 in Hmerge by done. rewrite Hmerge in Hcfg.
    destruct (replay_all _ _) as [c|] eqn:Hreplay in Hcfg; [|done].
    pose proof (merged_length n Hc prev pt Hanc es es1 app Hwalk) as Hml.
    pose proof (merged_ok n Hc prev pt Hanc es Hes es1 app Hwalk) as Hmok.
    set (n2 := n1 <| log := log n1 ++ app |>) in *.
    assert (Hc2 : core_ok n2) by (eapply (rewritten_core n); eauto; lia).
    assert (Hv2 : vol_ok n2) by (eapply (rewritten_vol n); [done|apply Hw]).
    assert (Ht2 : trans PMid n [PersistLogEntries tf app] n2)
      by (eapply (rewritten_trans n); eauto; lia).
    rewrite bool_decide_eq_false_2 by done. cbn [negb when].
    apply wpg_bind, wpg_bind, wpg_modify, wpg_emit. fold n2.
    assert (Hlast2 : last_log_index n2 = prev + len64 es).
    { pose proof (rw_frame _ _ _ _ Hrw) as [_ _ Hl2 _ _ Hs2 _ _].
      rewrite (last_index_eq _ Hc2), <- Hml, Hl2. unfold snapshot_index. by rewrite Hs2. }
    eapply wpg_mono.
    { apply (accept_tail_safe n2 leader (prev + len64 es) lc round Hc2 Hv2); [|lia].
      by rewrite (rw_role _ _ _ _ Hrw). }
    intros a n' e [Ht Hg]. split; [|done].
    by eapply (trans_seq PMid PRun PRun _ [_]); [exact Ht2|exact Ht|auto with raft].
Qed.

(** ** Refusals *)

Lemma partition_point_lt {A} (p : A -> bool) (l : list A) x :
  x ∈ l -> p x = false -> (partition_point p l < length l)%nat.
Proof.
  induction l as [|y l IH]; cbn; intros Hx Hp; [by apply not_elem_of_nil in Hx|].
  destruct (p y) eqn:Hy; [|lia]. apply elem_of_cons in Hx as [->|Hx]; [congruence|].
  specialize (IH Hx Hp). lia.
Qed.

Lemma append_conflict_hint_total n rejected n' :
  core_ok n -> exists h, append_conflict_hint n rejected n' = Some (h, n', []).
Proof.
  intros Hc. unfold append_conflict_hint. destruct (log_term n rejected) as [t|] eqn:Ht.
  - destruct (t =? 0); [by eexists|].
    destruct (N.eqb_spec (snapshot_term n) t) as [|Hne]; [by eexists|].
    unfold log_term in Ht. destruct (N.eqb_spec rejected (snapshot_index n)); [congruence|].
    apply fmap_Some in Ht as (e & He & Hte).
    apply (entry_at_Some n (wf_log _ Hc)) in He as (_ & _ & _ & Hin).
    destruct (lookup_lt_is_Some_2 (log n) (partition_point (fun entry => e_term entry <? t) (log n)))
      as [x Hx].
    { apply (partition_point_lt _ _ e); [done|]. apply N.ltb_ge. lia. }
    rewrite Hx. by eexists.
  - destruct (checked_add _ _); by eexists.
Qed.

Lemma merge_valid_suffix n prev pt es :
  core_ok n -> log_ok prev pt (current_term (hard n)) es -> prev + len64 es <= u64_max ->
  log_term n prev = Some pt ->
  valid_configuration_suffix n (merge_log (log_pos n prev) (log n) es) =
  is_ok (replay_all (membership_base n) (merge_log (log_pos n prev) (log n) es)).
Proof.
  intros Hc Hes Hlen Hanc. unfold valid_configuration_suffix, replay. do 2 f_equal.
  assert (Hall : forall l, log_ok (snapshot_index n) (snapshot_term n) (current_term (hard n)) l ->
            snapshot_index n + len64 l <= u64_max ->
            filter (fun e => e_index e <= u64_max) l = l).
  { intros l Hok Hl. apply list_filter_all. intros e [j Hj]%list_elem_of_lookup_1.
    apply (log_ok_lookup _ _ _ _ _ _ Hok) in Hj as Hi. apply lookup_lt_Some in Hj.
    unfold len64 in Hl. lia. }
  destruct (anchor_pos n Hc prev pt Hanc) as [Hk _].
  destruct (merge_log_walk (log_pos n prev) (log n) es Hk) as (es1 & app & Hwalk & ->).
  case_bool_decide as Happ; [apply Hall; apply Hc|].
  apply Hall; [by apply (merged_ok n Hc prev pt Hanc es Hes es1 app)|].
  by rewrite (merged_length n Hc prev pt Hanc es es1 app Hwalk).
Qed.

Lemma on_append_entries_safe n term leader prev pt es plast lc round :
  good n -> term <= current_term (hard n) ->
  validate_append_entries term prev pt es = Some plast ->
  safe PRun n (on_append_entries term leader prev pt es plast lc round) (fun _ n' => good n').
Proof.
  intros Hg Hterm (-> & Hmax & Hpt & Hes)%validate_append_ok. unfold on_append_entries.
  apply safe_get.
  assert (Hreply : forall n' s mi r c, good n' ->
    safe PRun n' (append_reply leader s mi r c) (fun _ n' => good n')).
  { intros n' s mi r c Hg'. apply (safe_weaken PPost); [|done].
    apply sends_done; [done|apply append_reply_sends]. }
  destruct (N.ltb_spec term (current_term (hard n))) as [|Hge]; [by apply Hreply|].
  assert (term = current_term (hard n)) as -> by lia.
  eapply (safe_bind PQuiet PRun); [apply become_follower_safe|auto 6 with raft|].
  cbn beta. intros [] n1 H1.
  assert (Hg1 : good n1) by (subst n1; split; [by apply follower_wf, Hg|apply follower_solo]).
  assert (Hr1 : role n1 = Follower) by by subst n1.
  assert (Hh1 : hard n1 = hard n) by by subst n1. clear H1.
  eapply (safe_bind PQuiet PRun); [apply reset_election_deadline_safe|auto 6 with raft|].
  cbn beta. intros [] n2 Hst2. apply safe_modify_bind; [by split|]. intros n3 H3.
  assert (Hst : still n1 n3) by (subst n3; etrans; [exact Hst2|still_tac]). clear H3 Hst2.
  assert (Hg3 : good n3) by by eapply good_still.
  assert (Hr3 : role n3 = Follower) by by rewrite (st_role _ _ Hst).
  rewrite <- Hh1, <- (fr_hard _ _ (st_frame _ _ Hst)) in Hes. clear Hst Hh1.
  apply safe_get. destruct (prev <? snapshot_index n3).
  { apply (safe_weaken PPost); [|done]. by apply safe_emit_post. }
  destruct (negb (eqb _ _)) eqn:Hanc.
  { destruct (append_conflict_hint_total n3 prev n3 (wf_core _ (proj1 Hg3))) as [h Hh].
    apply wpg_bind. unfold wpg at 1. rewrite Hh. by apply Hreply. }
  bool_inv. destruct (existsb _ es) eqn:Hex; [by apply Hreply|].
  assert (Hguard : forall e, e ∈ es -> e_index e <= commit_index n3 ->
            log_term n3 (e_index e) = Some (e_term e)).
  { intros e He Hle. apply not_true_iff_false in Hex.
    destruct (decide (log_term n3 (e_index e) = Some (e_term e))) as [|Hne]; [done|].
    exfalso. apply Hex, existsb_exists. exists e. split; [by apply list_elem_of_In|].
    apply andb_true_iff. split; [by apply N.leb_le|]. apply negb_true_iff. by apply eqb_false. }
  destruct (anchor_pos n3 (wf_core _ (proj1 Hg3)) prev pt Hanc) as [Hk Hprev].
  apply wpg_bind. unfold wpg at 1.
  rewrite (candidate_fold (snapshot_index n3) pt (current_term (hard n3)) (log_pos n3 prev));
    [|by rewrite <- Hprev|done].
  destruct (negb _) eqn:Hcfg; [by apply Hreply|]. bool_inv.
  rewrite (merge_valid_suffix n3 prev pt es (wf_core _ (proj1 Hg3)) Hes Hmax Hanc) in Hcfg.
  by apply (accept_entries_safe n3 leader prev pt es lc round (proj1 Hg3)).
Qed.

(** ** The leader's progress tracking *)

(** A leader's cursors and contacts are volatile. *)
Lemma progress_good n n' :
  good n -> is_leader n = true -> frame n n' -> is_leader n' = true ->
  effective_membership n' = effective_membership n -> incoming_snapshot n' = incoming_snapshot n ->
  read_context n' = read_context n -> good n'.
Proof.
  intros [[Hc He Hv] Hs] Hl Hf Hl' Hef Hin Hx. split.
  - split; [by eapply core_frame|by eapply eff_frame|].
    pose proof (leader_term_pos _ Hv Hl) as Hpos. destruct Hv as [V1 V2 V3 V4]. split.
    + rewrite (fr_hard _ _ Hf). by destruct (role n').
    + intros ?. congruence.
    + intros a Ha. rewrite Hin in Ha. destruct (V3 a Ha) as [Hr _].
      unfold is_leader in Hl. by rewrite Hr in Hl.
    + by rewrite Hx.
  - eapply solo_frame; [done|done|by intros _|done].
Qed.

Lemma on_append_entries_reply_safe n from term success mi round conflict :
  good n ->
  safe PRun n (on_append_entries_reply from term success mi round conflict) (fun _ n' => good n').
Proof.
  intros Hg. unfold on_append_entries_reply. apply safe_get.
  destruct (negb _); [by apply safe_ret|]. destruct (_ && _); [by apply safe_ret|].
  destruct (is_some_and _ _); [by apply safe_ret|]. cbv zeta.
  destruct (role n) as [| | |next_index peer_match] eqn:Hr; try by apply safe_ret.
  assert (Hl : is_leader n = true) by (unfold is_leader; by rewrite Hr).
  destruct (next_index !! from) as [next|]; [|by apply safe_ret].
  destruct (peer_match !! from) as [matched|]; [|by apply safe_ret].
  destruct (is_some_and _ _); [by apply safe_ret|].
  eapply (safe_bind PQuiet PRun _ _ _ _ (fun _ n1 => still n n1)); [|auto 6 with raft|].
  { apply safe_when; [done| |done]. intros _. apply safe_modify; [by split|]. still_tac. }
  intros [] n1 Hst. assert (Hg1 : good n1) by by eapply good_still.
  destruct (progress_after _ _ _ _ _) as [next' matched'].
  apply safe_modify_bind; [by split|]. intros n2 H2.
  assert (Hg2 : good n2).
  { apply (progress_good n1); subst n2; try done.
    unfold is_leader in *. by rewrite (st_role _ _ Hst). }
  apply safe_when; [done| |done]. intros _. apply safe_get.
  apply commit_candidate_safe; [apply Hg2|]. intros Hl2 Hq. right. by apply Hg2.
Qed.

Lemma on_install_snapshot_reply_safe n from term tr no mi acc ins round :
  good n ->
  safe PRun n (on_install_snapshot_reply from term tr no mi acc ins round) (fun _ n' => good n').
Proof.
  intros Hg. unfold on_install_snapshot_reply. apply safe_get.
  destruct (_ || _) eqn:Hb; [by apply safe_ret|]. bool_inv.
  destruct (outgoing_snapshots n !! from) as [a|]; [|by apply safe_ret].
  destruct (_ || _); [by apply safe_ret|]. cbv zeta. destruct (negb acc).
  - apply (safe_bind PQuiet PRun _ _ _ _ (fun _ n1 => good n1)); [|auto 6 with raft|].
    + apply safe_when; [done| |done]. intros _.
      destruct (role n) as [| | |ni m] eqn:Hr; try by (unfold is_leader in *; rewrite Hr in *).
      apply safe_modify; rewrite Hr; [by split|]. apply (progress_good n); try done.
    + intros [] n1 Hg1. apply (safe_weaken PQuiet); [|done].
      apply safe_modify; [by split|]. eapply good_still; [|exact Hg1]. still_tac.
  - destruct (negb _); [by apply safe_ret|].
    eapply (safe_bind PQuiet PRun _ _ _ _ (fun _ n1 => still n n1)); [|auto 6 with raft|].
    { apply safe_when; [done| |done]. intros _. apply safe_modify; [by split|]. still_tac. }
    intros [] n1 Hst. assert (Hg1 : good n1) by by eapply good_still.
    destruct ins.
    + apply safe_modify_bind; [by split|]. intros n2 H2.
      assert (Hg2 : good n2) by (subst n2; eapply good_still; [|exact Hg1]; still_tac).
      eapply (safe_bind PRun PPost); [by apply on_append_entries_reply_safe|auto with raft|].
      cbn beta. intros [] n3 Hg3. apply sends_done; [done|]. apply send_append_entries_sends, Hg3.
    + apply safe_modify_bind; [by split|]. intros n2 H2.
      assert (Hg2 : good n2) by (subst n2; eapply good_still; [|exact Hg1]; still_tac).
      apply (safe_weaken PPost); [|done]. apply sends_done; [done|]. apply send_snapshot_chunk_sends.
Qed.
