(* ===== verification/SnapshotPath.v ===== *)
(** * Snapshots on a well-formed node

    Receiving chunks, requesting a publication, and what the node becomes when
    the driver reports the publication durable. *)
From S2P Require Import Prelude Rng Quorum Membership Types Node MembershipProtocol.
From S2P Require Import SnapshotTransfer Replication Election Step LogFacts MembershipFacts.
From S2P Require Import Effects Invariant CommitPath SendPath LeaderPath FollowerPath.
Local Open Scope N_scope.
Local Open Scope raft_scope.

Abbreviation boundary d := (last_included_index (metadata d)) (only parsing).

(** An image whose boundary entry is in the node's log records the
    configuration of that log's prefix. *)
Definition image_matches_log (n : RaftNode) (d : SnapshotDescriptor) : Prop :=
  match sm_membership (metadata d) with
  | Some m => log_term n (boundary d) = Some (last_included_term (metadata d)) ->
              membership_at n (boundary d) = Ok m
  | None => True
  end.

(** What holds of a publication from the request to the driver's report. *)
Definition publication_ok (n : RaftNode) (p : PublishingSnapshot) : Prop :=
  let d := ps_descriptor p in
  descriptor_validate d = Ok tt /\ boundary d <= u64_max
  /\ ps_retained p = retained_suffix n d
  /\ match ps_transfer p with
     | None =>
         snapshot_index n < boundary d <= last_applied n
         /\ log_term n (boundary d) = Some (last_included_term (metadata d))
         /\ compaction_membership_matches n d = true /\ incoming_snapshot n = None
     | Some _ =>
         last_applied n < boundary d /\ commit_index n <= boundary d
         /\ last_included_term (metadata d) <= current_term (hard n)
         /\ membership_ok n d /\ role n = Follower
         /\ exists a, incoming_snapshot n = Some a /\ is_descriptor a = d
     end.

Definition pub_ok (n : RaftNode) : Prop :=
  forall p, publishing_snapshot n = Some p -> publication_ok n p.

Definition inv (n : RaftNode) : Prop := good n /\ pub_ok n.

(** ** Requesting a publication *)

Lemma logical_publishing n es n' p :
  logical n es n' -> logical n es (n' <| publishing_snapshot := p |>).
Proof. intros []. by split. Qed.

Lemma good_publishing n p : good n -> good (n <| publishing_snapshot := p |>).
Proof.
  intros [[[] He []] Hs]. split; [|exact Hs]. split; [by split|exact He|by split].
Qed.

(** A step that may end by requesting a publication. *)
Record requested (n : RaftNode) (es : list Effect) (n' : RaftNode) : Prop := {
  rq_inv : inv n';
  rq_logical : logical n es n';
  rq_disk : exec es (durable n) = durable n';
  rq_phase : phase_ok PPost (current_term (hard n)) (current_term (hard n')) es;
}.

Lemma trans_requested n es n' :
  trans PPost n es n' -> good n' -> publishing_snapshot n = None -> requested n es n'.
Proof.
  intros Ht Hg Hp. split; try apply Ht. split; [done|].
  intros p. rewrite (tr_pub _ _ _ _ Ht). congruence.
Qed.

Lemma publish_requested n n' p :
  good n -> n' = n <| publishing_snapshot := Some p |> -> publication_ok n p ->
  requested n [PublishSnapshot (ps_transfer p) (ps_descriptor p) (ps_retained p)] n'.
Proof.
  intros Hg -> Hp.
  assert (Ht : trans PPost n [PublishSnapshot (ps_transfer p) (ps_descriptor p) (ps_retained p)] n).
  { apply frame_post; [done|]. rewrite all_cons. auto with raft. }
  split; [|by apply logical_publishing, Ht|apply Ht|apply Ht].
  split; [by apply good_publishing|]. intros p' Hp'. cbn in Hp'. injection Hp' as <-. exact Hp.
Qed.

Lemma descriptor_ok d : is_err (descriptor_validate d) = false -> descriptor_validate d = Ok tt.
Proof. apply is_ok_unit. Qed.

Lemma on_compact_safe n d :
  inv n -> publishing_snapshot n = None -> wp (on_compact d) (fun _ n' es => requested n es n') n.
Proof.
  intros [Hg _] Hp. unfold on_compact. apply wpg_bind, wpg_get. cbv zeta.
  assert (Hrej : forall r, wp (snapshot_reject r) (fun _ n' es => requested n ([] ++ es) n') n).
  { intros r. eapply safe_wp; [exact (sends_done _ _ Hg (snapshot_reject_sends n r))|].
    intros a n' es Ht Hg'. by apply trans_requested. }
  rewrite Hp. cbn [is_some orb]. destruct (is_some (incoming_snapshot n)) eqn:Hin; [apply Hrej|].
  destruct (_ || _) eqn:Hb; [apply Hrej|]. bool_inv.
  apply wpg_bind, wpg_modify, wpg_emit.
  eapply (publish_requested n _ (mkPublishingSnapshot None d (retained_suffix n d) 0));
    [done|reflexivity|]. unfold publication_ok. cbn [ps_descriptor ps_transfer ps_retained].
  match goal with H : is_err _ = false |- _ => apply descriptor_ok in H end.
  split; [done|]. split.
  { pose proof (wf_core _ (proj1 Hg)) as Hc.
    match goal with H : log_term n _ = Some _ |- _ =>
      apply (log_term_Some n (wf_log _ Hc)) in H as [[_ Hle] _] end.
    rewrite (last_index_eq _ Hc) in Hle. pose proof (wf_len _ Hc). lia. }
  split; [done|]. split; [lia|]. split; [done|]. split; [done|].
  by destruct (incoming_snapshot n).
Qed.

(** ** Receiving an image *)

Lemma incoming_update_good n a b :
  good n -> incoming_snapshot n = Some a -> is_transfer b = is_transfer a ->
  is_descriptor b = is_descriptor a -> good (n <| incoming_snapshot := Some b |>).
Proof.
  intros [[Hc He [V1 V2 V3 V4]] Hs] Ha Ht Hd. split; [|exact Hs]. split.
  - by apply (core_frame n).
  - exact He.
  - split; [done|done| |done]. intros b' Hb'. cbn in Hb'. injection Hb' as <-.
    destruct (V3 a Ha) as [Hr Hok]. split; [done|].
    unfold incoming_ok, membership_ok in *. rewrite Ht, Hd. exact Hok.
Qed.

Lemma cancelled_good n : good n -> good (n <| incoming_snapshot := None |>).
Proof. intros [Hw Hs]. split; [by apply cancelled_wf|exact Hs]. Qed.

(** The receiver accepts a chunk: it follows the sender and stages the data. *)
Lemma stage_chunk_safe n transfer d o data dn a round :
  core_ok n -> effective_ok n -> incoming_snapshot n = Some a -> incoming_ok n a ->
  read_context n <= u64_max -> o + len64 data <= u64_max ->
  safe PPost n
    (end_ ← add_u64 o (len64 data);
     modify (fun n => n <| incoming_snapshot :=
                             Some (a <| is_pending := Some (o, end_, round) |>) |>);;
     become_follower;;
     reset_election_deadline;;
     modify (fun n => n <| leader_hint := Some (st_leader_id transfer) |>
                        <| last_leader_contact_ms := Some (now_ms n) |>);;
     emit (StageSnapshotChunk transfer d o data dn))
    (fun _ n' => good n').
Proof.
  intros Hc He Ha Hok Hx Hend. unfold add_u64.
  eapply safe_expect; [by apply checked_add_Some|].
  apply safe_modify_bind; [by split|]. intros n1 H1.
  assert (Hf1 : frame n n1) by (subst n1; by split).
  assert (Hcore1 : core_ok n1) by by eapply core_frame.
  assert (He1 : effective_ok n1) by (eapply eff_frame; [done|by subst n1|done]).
  assert (Hin1 : forall b, incoming_snapshot n1 = Some b -> incoming_ok n1 b).
  { intros b Hb. eapply incoming_ok_frame; [done|]. subst n1. cbn in Hb. injection Hb as <-.
    exact Hok. }
  assert (Hx1 : read_context n1 <= u64_max) by by subst n1. clear H1 Hf1.
  eapply (safe_bind PQuiet PPost); [apply become_follower_safe|auto 6 with raft|].
  cbn beta. intros [] n2 H2.
  assert (Hg2 : good n2).
  { subst n2. split; [|apply follower_solo]. split; [by apply follower_core|exact He1|].
    split; [done|done| |done]. intros b Hb. split; [done|]. by apply Hin1. }
  clear H2. eapply (safe_bind PQuiet PPost);
    [apply reset_election_deadline_safe|auto 6 with raft|].
  cbn beta. intros [] n3 Hst. apply safe_modify_bind; [by split|]. intros n4 H4.
  apply safe_emit_post; [done|]. eapply good_still; [|exact Hg2].
  etrans; [exact Hst|]. subst n4. still_tac.
Qed.

Lemma on_install_snapshot_safe n transfer d o data dn round :
  good n -> descriptor_validate d = Ok tt ->
  last_included_term (metadata d) <= st_term transfer -> boundary d <= u64_max ->
  snapshot n = Some d \/ membership_ok n d -> o + len64 data <= u64_max ->
  safe PPost n (on_install_snapshot transfer d o data dn round) (fun _ n' => good n').
Proof.
  intros Hg Hd Ht Hb Hm Hlen. unfold on_install_snapshot. apply safe_get. cbv zeta.
  assert (Hrefuse : forall n1, good n1 ->
    safe PPost n1 (snapshot_reply transfer 0 false false (last_log_index n) 0)
      (fun _ n' => good n')).
  { intros n1 Hg1. apply sends_done; [done|apply snapshot_reply_sends]. }
  destruct (_ <? _); [by apply Hrefuse|]. destruct (_ || _); [by apply Hrefuse|].
  destruct (transfer_is_stale _ _ _); [by apply Hrefuse|].
  set (same := is_some_and _ _).
  destruct (negb same && negb (o =? 0) && negb _) eqn:Hfirst; [by apply Hrefuse|].
  destruct same eqn:Hsame; cbn [negb when].
  - (* the transfer in progress *)
    eapply (safe_bind PPost PPost _ _ _ _ (fun _ n1 => n1 = n)); [by apply safe_ret|auto with raft|].
    intros [] n1 ->. apply safe_get.
    destruct (incoming_snapshot n) as [a|] eqn:Ha; [|done]. eapply safe_expect; [done|].
    destruct (_ || _); [by apply Hrefuse|]. destruct Hg as [[Hc He Hv] Hs].
    apply stage_chunk_safe; try done; by apply Hv.
  - (* a new transfer *)
    eapply (safe_bind PQuiet PPost _ _ _ _ (fun _ n1 => frame n n1
      /\ effective_membership n1 = effective_membership n /\ read_context n1 = read_context n
      /\ incoming_snapshot n1 = Some (mkIncomingSnapshot transfer d 0 None)));
      [|auto 6 with raft|].
    { eapply (safe_bind PQuiet PQuiet); [apply cancel_incoming_snapshot_safe|auto with raft|].
      cbn beta. intros [] n1 H1. apply safe_modify; [by split|]. subst n1. split; [by split|done]. }
    intros [] n1 (Hf & Hef & Hx & Hin). apply safe_get. eapply safe_expect; [done|].
    cbn [is_pending is_some orb is_next_offset].
    destruct ((0 <? o) && _) eqn:Hlate.
    { exfalso. cbn [negb andb] in Hfirst. apply andb_true_iff in Hlate as [Ho Hi].
      rewrite Hi, andb_true_r in Hfirst. bool_inv. lia. }
    apply stage_chunk_safe; try done.
    + eapply core_frame; [done|apply Hg].
    + eapply eff_frame; [done|done|apply Hg].
    + eapply incoming_ok_frame; [done|]. done.
    + rewrite Hx. apply Hg.
Qed.

(** ** A staged chunk *)

Lemma sends_requested n m e0 n0 :
  good n -> trans PPost n0 e0 n -> publishing_snapshot n0 = None -> sends n m ->
  wp m (fun _ n' es => requested n0 (e0 ++ es) n') n.
Proof.
  intros Hg Ht Hp Hm. eapply safe_wp; [exact (sends_done _ _ Hg Hm)|].
  intros a n' es Ht' Hg'. apply trans_requested; [|done|done].
  by eapply trans_seq; [exact Ht|exact Ht'|auto with raft].
Qed.

Lemma request_after n n1 es n2 :
  frame n n1 -> requested n1 es n2 -> requested n es n2.
Proof.
  intros Hf [Hi Hl Hd Hp]. split; [done| | |].
  - apply (logical_seq n [] n1); [|done]. apply frame_logical; [done|auto with raft].
  - by rewrite <- (frame_durable _ _ Hf).
  - by rewrite <- (fr_hard _ _ Hf).
Qed.

Lemma finish_staging_safe n a transfer d no round :
  good n -> publishing_snapshot n = None -> incoming_snapshot n = Some a ->
  is_transfer a = transfer -> is_descriptor a = d -> st_term transfer = current_term (hard n) ->
  wp (finish_staging transfer d no round) (fun _ n' es => requested n es n') n.
Proof.
  intros Hg Hp Ha Htr Hd Hterm. unfold finish_staging. apply wpg_bind, wpg_get. cbv zeta.
  destruct (v_incoming _ (wf_vol _ (proj1 Hg)) a Ha) as [Hr Hok].
  unfold incoming_ok in Hok. rewrite Hd, Htr in Hok. destruct Hok as (Hval & Hlt & Hmax & Hm).
  destruct (eqb _ _) eqn:Hsame; bool_inv.
  - apply wpg_bind, wpg_modify. cbn [app].
    apply (sends_requested _ _ [] n); [by apply cancelled_good| |done|apply snapshot_reply_sends].
    apply frame_post; [by split|auto with raft].
  - destruct (_ || _) eqn:Hold.
    + apply wpg_bind. eapply safe_wp; [apply cancel_incoming_snapshot_safe|].
      cbn beta. intros _ n1 es1 Ht1 ->. cbn [app].
      apply (sends_requested _ _ es1 n); [by apply cancelled_good| |done|apply snapshot_reply_sends].
      by apply (trans_weaken PQuiet).
    + bool_inv. apply wpg_bind, wpg_modify, wpg_emit.
      eapply (publish_requested n _
                (mkPublishingSnapshot (Some transfer) d (retained_suffix n d) round));
        [done|reflexivity|]. unfold publication_ok. cbn [ps_descriptor ps_transfer ps_retained].
      destruct Hm as [Hm|Hm]; [done|]. repeat (split; [done|]). split; [lia|].
      split; [done|]. split; [done|]. by exists a.
Qed.

Lemma on_snapshot_chunk_staged_safe n transfer d o result :
  good n -> publishing_snapshot n = None ->
  wp (on_snapshot_chunk_staged transfer d o result) (fun _ n' es => requested n es n') n.
Proof.
  intros Hg Hp. unfold on_snapshot_chunk_staged. apply wpg_bind, wpg_get. cbn [app].
  assert (Hret : requested n [] n).
  { apply trans_requested; [|done|done]. apply frame_post; auto with raft. }
  destruct (incoming_snapshot n) as [a|] eqn:Ha; [|by apply wpg_ret].
  destruct (_ || _) eqn:Hb; [by apply wpg_ret|]. bool_inv.
  destruct (is_pending a) as [[[eo ee] round]|]; [|by apply wpg_ret].
  destruct (negb _); [by apply wpg_ret|]. cbv zeta.
  apply wpg_bind, wpg_modify. set (a1 := a <| is_pending := None |>).
  set (n1 := n <| incoming_snapshot := Some a1 |>).
  assert (Hg1 : good n1) by by apply (incoming_update_good n a).
  assert (Hf1 : frame n n1) by by split.
  assert (Ht1 : trans PPost n [] n1) by (apply frame_post; [done|auto with raft]).
  assert (Ha1 : incoming_snapshot n1 = Some a1) by done.
  assert (Hd1 : is_transfer a1 = transfer /\ is_descriptor a1 = d) by by subst.
  assert (Hterm1 : st_term transfer = current_term (hard n1)) by done.
  clearbody n1 a1. destruct Hd1 as [Htr1 Hd1]. cbn [app].
  destruct result as [no complete|].
  2: { apply (sends_requested n1 _ [] n); [done|done|done|apply snapshot_reply_sends]. }
  destruct (_ || _).
  - apply wpg_bind. eapply safe_wp; [apply cancel_incoming_snapshot_safe|].
    cbn beta. intros _ n2 es2 Ht2 ->.
    apply (sends_requested _ _ es2 n); [by apply cancelled_good| |done|apply snapshot_reply_sends].
    eapply trans_frame_l; [done|]. by apply (trans_weaken PQuiet).
  - apply wpg_bind, wpg_modify. set (a2 := a1 <| is_next_offset := no |>).
    set (n2 := n1 <| incoming_snapshot := Some a2 |>).
    assert (Hg2 : good n2) by by apply (incoming_update_good n1 a1).
    assert (Hf2 : frame n n2) by (etrans; [exact Hf1|by split]).
    assert (Hpub2 : publishing_snapshot n2 = None) by by rewrite (fr_pub _ _ Hf2).
    cbn [app]. destruct (negb complete).
    + apply (sends_requested n2 _ [] n); [done| |done|apply snapshot_reply_sends].
      apply frame_post; [done|auto with raft].
    + eapply wpg_mono; [by apply (finish_staging_safe n2 a2)|]. cbn beta. intros _ n3 es3.
      by apply request_after.
Qed.

(** ** A publication becomes durable *)

(** The state the driver's report installs. *)
Definition published (n : RaftNode) (p : PublishingSnapshot) : RaftNode :=
  n <| publishing_snapshot := None |> <| log := ps_retained p |>
    <| snapshot := Some (ps_descriptor p) |> <| outgoing_snapshots := ∅ |>.

(** The suffix above a boundary that is in the log. *)
Section suffix.
Context (n : RaftNode) (Hc : core_ok n) (b t : N) (Hb : log_term n b = Some t).
Local Abbreviation K := (log_pos n b).

Lemma suffix_filter : filter (fun e => b < e_index e) (log n) = drop K (log n).
Proof.
  apply (log_ok_filter_gt _ _ _ _ _ (wf_log _ Hc)).
  by apply (log_term_Some n (wf_log _ Hc)) in Hb as [[? _] _].
Qed.

Lemma suffix_ok : log_ok b t (current_term (hard n)) (drop K (log n)).
Proof.
  destruct (anchor_pos n Hc b t Hb) as [HK Hbk].
  pose proof (wf_log _ Hc) as Hok. unfold node_log_ok in Hok.
  rewrite <- (take_drop K (log n)) in Hok. apply log_ok_app in Hok as [_ Hok].
  rewrite (anchor_end_term n Hc b t Hb) in Hok. unfold len64 in Hok.
  rewrite length_take_le in Hok by done. by rewrite <- Hbk in Hok.
Qed.

Lemma suffix_length : b + len64 (drop K (log n)) = snapshot_index n + len64 (log n).
Proof.
  destruct (anchor_pos n Hc b t Hb) as [HK Hbk]. unfold len64. rewrite length_drop.
   lia.
Qed.

Lemma suffix_term : t <= current_term (hard n).
Proof.
  pose proof Hb as Ht. unfold log_term in Ht.
  destruct (b =? snapshot_index n); [injection Ht as <-; apply Hc|].
  apply fmap_Some in Ht as (e & He & ->).
  by apply (entry_at_Some n (wf_log _ Hc)) in He as (_ & _ & [_ ?] & _).
Qed.

(** The configuration at the boundary replays the suffix. *)
Lemma suffix_replay c cb :
  replay_all (membership_base n) (log n) = Ok c -> membership_at n b = Ok cb ->
  replay_all cb (drop K (log n)) = Ok c.
Proof.
  intros Hr Hm. destruct (anchor_bounds n Hc b t Hb) as [Hlo _].
  rewrite (membership_at_eq _ Hc) in Hm by done. 
  rewrite <- (take_drop K (log n)) in Hr. rewrite replay_all_app, Hm in Hr. done.
Qed.

Lemma suffix_commit cb : b <= commit_index n -> membership_at n b = Ok cb ->
  replay_all cb (take (N.to_nat (commit_index n - b)) (drop K (log n)))
  = Ok (committed_membership n).
Proof.
  intros Hle Hm. destruct (anchor_bounds n Hc b t Hb) as [Hlo _].
  rewrite (membership_at_eq _ Hc) in Hm by done. 
  pose proof (wf_committed _ Hc) as Hcm.
  replace (take (log_pos n (commit_index n)) (log n))
    with (take K (log n) ++ take (N.to_nat (commit_index n - b)) (drop K (log n))) in Hcm.
  - by rewrite replay_all_app, Hm in Hcm.
  - rewrite take_take_drop. f_equal. unfold log_pos. lia.
Qed.

Lemma suffix_bounds cb : membership_at n b = Ok cb ->
  history (genesis_membership n) cb /\ cm_index cb <= b /\ cm_term cb <= t.
Proof.
  intros Hm. destruct (anchor_bounds n Hc b t Hb) as [Hlo _].
  destruct (anchor_pos n Hc b t Hb) as [HK Hbk]. 
  rewrite (membership_at_eq _ Hc) in Hm by done. 
  split; [eapply replay_all_history; [apply Hc|done]|].
  pose proof (replay_all_bounds _ _ _ _ _ _ (log_ok_take _ _ _ _ K (wf_log _ Hc))
    (wf_base_index _ Hc) (wf_base_term _ Hc) Hm) as [Hi Ht].
  rewrite (anchor_end_term n Hc b t Hb) in Ht. unfold len64 in Hi.
  rewrite length_take_le in Hi by done. split; [lia|done].
Qed.
End suffix.

Lemma descriptor_membership_bounds d m :
  descriptor_validate d = Ok tt -> sm_membership (metadata d) = Some m ->
  cm_index m <= boundary d /\ cm_term m <= last_included_term (metadata d).
Proof.
  unfold descriptor_validate, metadata_validate. intros H Hm. rewrite Hm in H.
  result_inv. bool_inv. done.
Qed.

Lemma genesis_bounds g : is_genesis g -> cm_index g = 0 /\ cm_term g = 0.
Proof. intros H. by destruct (bootstrap_inv _ _ _ H) as (_ & ? & ? & _). Qed.

(** The configuration an image installs: its own, or the legacy genesis. *)
Definition image_base (n : RaftNode) (d : SnapshotDescriptor) : CommittedMembership :=
  default (genesis_membership n) (sm_membership (metadata d)).

Lemma image_base_ok n d :
  core_ok n -> descriptor_validate d = Ok tt -> membership_ok n d ->
  history (genesis_membership n) (image_base n d)
  /\ cm_index (image_base n d) <= boundary d
  /\ cm_term (image_base n d) <= last_included_term (metadata d).
Proof.
  intros Hc Hd Hm. unfold membership_ok, image_base in *.
  destruct (sm_membership (metadata d)) as [m|] eqn:E; cbn.
  - split; [done|]. by apply descriptor_membership_bounds.
  - destruct (genesis_bounds _ (wf_gen _ Hc)) as [-> ->]. split; [constructor|lia].
Qed.

(** Where the boundary is in the log, the image's configuration is the log's. *)
Lemma image_base_at n d :
  core_ok n -> membership_ok n d -> image_matches_log n d ->
  log_term n (boundary d) = Some (last_included_term (metadata d)) ->
  membership_at n (boundary d) = Ok (image_base n d).
Proof.
  intros Hc Hm Himg Hb. unfold membership_ok, image_matches_log, image_base in *.
  destruct (sm_membership (metadata d)) as [m|]; cbn; [by apply Himg|].
  destruct (anchor_bounds n Hc _ _ Hb) as [Hlo _].
  destruct (membership_at_ok n Hc _ Hlo) as [x Hx]. rewrite Hx. f_equal.
  destruct (suffix_bounds n Hc _ _ Hb x Hx) as (Hh & _).
  apply (history_legacy _ _ (wf_gen _ Hc) (proj1 Hm) Hh).
Qed.

Lemma compaction_base_at n d :
  core_ok n -> compaction_membership_matches n d = true ->
  log_term n (boundary d) = Some (last_included_term (metadata d)) ->
  membership_at n (boundary d) = Ok (image_base n d).
Proof.
  intros Hc Hm Hb. unfold compaction_membership_matches, image_base in *.
  destruct (membership_at n (boundary d)) as [x|] eqn:Hx; [|done]. f_equal.
  destruct (sm_membership (metadata d)) as [m|]; cbn; bool_inv; [done|].
  destruct (suffix_bounds n Hc _ _ Hb x Hx) as (Hh & _).
  apply (history_legacy _ _ (wf_gen _ Hc)); [|done].
  destruct (history_inv _ _ (wf_gen _ Hc) Hh) as (_ & E & _). congruence.
Qed.

Lemma compaction_membership_ok n d :
  core_ok n -> compaction_membership_matches n d = true ->
  log_term n (boundary d) = Some (last_included_term (metadata d)) -> membership_ok n d.
Proof.
  intros Hc Hm Hb. pose proof (compaction_base_at n d Hc Hm Hb) as Hx.
  destruct (suffix_bounds n Hc _ _ Hb _ Hx) as (Hh & _).
  destruct (history_inv _ _ (wf_gen _ Hc) Hh) as (_ & E & E').
  unfold compaction_membership_matches, membership_ok, image_base in *. rewrite Hx in Hm.
  destruct (sm_membership (metadata d)) as [m|]; cbn in *; [done|]. bool_inv. split; congruence.
Qed.

(** A state whose snapshot is [d], with the log above it. *)
Lemma installed_core n n1 d c :
  core_ok n -> snapshot n1 = Some d -> genesis_membership n1 = genesis_membership n ->
  current_term (hard n1) = current_term (hard n) ->
  log_ok (boundary d) (last_included_term (metadata d)) (current_term (hard n)) (log n1) ->
  last_included_term (metadata d) <= current_term (hard n) ->
  boundary d + len64 (log n1) <= u64_max ->
  boundary d <= last_applied n1 <= commit_index n1 ->
  commit_index n1 <= boundary d + len64 (log n1) ->
  history (genesis_membership n) (image_base n d) ->
  cm_index (image_base n d) <= boundary d ->
  cm_term (image_base n d) <= last_included_term (metadata d) ->
  descriptor_validate d = Ok tt -> membership_ok n d ->
  replay_all (image_base n d) (log n1) = Ok c ->
  replay_all (image_base n d) (take (N.to_nat (commit_index n1 - boundary d)) (log n1))
  = Ok (committed_membership n1) -> core_ok n1.
Proof.
  intros Hc Hs Hg Ht H1 H2 H3 H4 H5 H6 H7 H8 Hd Hm H9 H10.
  assert (Hb : membership_base n1 = image_base n d).
  { unfold membership_base, image_base. by rewrite Hs, Hg. }
  assert (Hsi : snapshot_index n1 = boundary d) by (unfold snapshot_index; by rewrite Hs).
  assert (Hst : snapshot_term n1 = last_included_term (metadata d))
    by (unfold snapshot_term; by rewrite Hs).
  split; unfold node_log_ok, log_pos; rewrite ?Hb, ?Hsi, ?Hst, ?Ht, ?Hg; try done; try lia.
  - apply Hc.
  - by exists c.
  - intros d' Hd'. simplify_eq. split; [done|]. by apply membership_ok_voters.
Qed.

(** Compaction keeps the node and everything it promises. *)
Lemma published_compact n p :
  inv n -> publishing_snapshot n = Some p -> ps_transfer p = None ->
  inv (published n p) /\ logical n [] (published n p).
Proof.
  intros [[Hw Hso] Hpub] Hp Htr. destruct (Hpub p Hp) as (Hd & Hmax & Hret & Hcase).
  rewrite Htr in Hcase. destruct Hcase as (Hb & Hlt & Hmatch & Hin).
  pose proof (wf_core _ Hw) as Hc. destruct (wf_eff _ Hw) as (c & Hr & He).
  unfold retained_suffix in Hret. rewrite (proj2 (eqb_true _ _) Hlt) in Hret.
  rewrite (suffix_filter n Hc _ _ Hlt) in Hret.
  pose proof (compaction_base_at n _ Hc Hmatch Hlt) as Hbase.
  destruct (suffix_bounds n Hc _ _ Hlt _ Hbase) as (Hh & Hi & Ht).
  pose proof (suffix_replay n Hc _ _ Hlt c _ Hr Hbase) as Hr1.
  pose proof (suffix_length n Hc _ _ Hlt) as Hlen. pose proof (wf_len _ Hc) as Hmaxl.
  pose proof (wf_ac _ Hc) as Hac. pose proof (wf_cl _ Hc) as Hcl.
  assert (Hc1 : core_ok (published n p)).
  { apply (installed_core n _ (ps_descriptor p) c); try done; cbn [published log].
    - change (log (published n p)) with (ps_retained p). rewrite Hret. by apply suffix_ok.
    - by apply (suffix_term n Hc _ _ Hlt).
    - change (log (published n p)) with (ps_retained p). rewrite Hret. lia.
    - change (boundary (ps_descriptor p) <= last_applied n <= commit_index n). lia.
    - change (log (published n p)) with (ps_retained p). rewrite Hret.
      change (commit_index (published n p)) with (commit_index n). lia.
    - by apply compaction_membership_ok.
    - change (log (published n p)) with (ps_retained p). by rewrite Hret.
    - change (log (published n p)) with (ps_retained p). rewrite Hret.
      apply (suffix_commit n Hc _ _ Hlt); [lia|done]. }
  assert (Hw1 : wf (published n p)).
  { split; [done| |].
    - exists c. split; [|exact He].
      change (replay_all (image_base n (ps_descriptor p)) (ps_retained p) = Ok c). by rewrite Hret.
    - destruct Hw as [_ _ [V1 V2 V3 V4]]. split; [done|done| |done].
      intros a Ha. change (incoming_snapshot n = Some a) in Ha. congruence. }
  assert (Hlast : last_log_index (published n p) = last_log_index n).
  { rewrite (last_index_eq _ Hc1), (last_index_eq _ Hc).
    change (boundary (ps_descriptor p) + len64 (ps_retained p)
            = snapshot_index n + len64 (log n)). by rewrite Hret. }
  split.
  - split; [split; [done|]|].
    + intros Hl Hq. rewrite Hlast. by apply Hso.
    + by intros p'.
  - split; try done.
    + change (snapshot_index n <= boundary (ps_descriptor p)). lia.
    + intros i Hi1 Hi2. change (boundary (ps_descriptor p) < i) in Hi2.
      rewrite !entry_at_eq. change (snapshot_index (published n p)) with (boundary (ps_descriptor p)).
      change (log (published n p)) with (ps_retained p). rewrite Hret.
      destruct (N.leb_spec i (boundary (ps_descriptor p))); [lia|].
      destruct (N.leb_spec i (snapshot_index n)); [lia|].
      rewrite lookup_drop. f_equal. unfold log_pos. lia.
    + intros e He'. by apply not_elem_of_nil in He'.
Qed.

(** Installing a received image. *)
Section install.
Context (n : RaftNode) (p : PublishingSnapshot) (t : SnapshotTransferId).
Context (Hinv : inv n) (Hp : publishing_snapshot n = Some p) (Htr : ps_transfer p = Some t).
Context (Himg : image_matches_log n (ps_descriptor p)).
Local Abbreviation d := (ps_descriptor p).
Local Abbreviation n1 := (published n p).

Lemma install_facts :
  core_ok n /\ descriptor_validate d = Ok tt /\ boundary d <= u64_max
  /\ ps_retained p = retained_suffix n d
  /\ last_applied n < boundary d /\ commit_index n <= boundary d
  /\ last_included_term (metadata d) <= current_term (hard n)
  /\ membership_ok n d /\ role n = Follower
  /\ exists a, incoming_snapshot n = Some a /\ is_descriptor a = d.
Proof.
  destruct Hinv as [[Hw _] Hpub]. destruct (Hpub p Hp) as (Hd & Hmax & Hret & Hcase).
  rewrite Htr in Hcase. split; [apply Hw|]. tauto.
Qed.

(** The retained log continues the image and its configuration. *)
Lemma install_log :
  log_ok (boundary d) (last_included_term (metadata d)) (current_term (hard n)) (ps_retained p)
  /\ boundary d + len64 (ps_retained p) <= u64_max
  /\ exists c, replay_all (image_base n d) (ps_retained p) = Ok c.
Proof.
  destruct install_facts as (Hc & Hd & Hmax & -> & Hla & Hci & Ht & Hm & _).
  unfold retained_suffix. destruct (eqb _ _) eqn:Hlt; bool_inv.
  - rewrite (suffix_filter n Hc _ _ Hlt). split; [by apply suffix_ok|]. split.
    + rewrite (suffix_length n Hc _ _ Hlt). apply Hc.
    + destruct (wf_replay _ Hc) as [c Hr]. exists c.
      apply (suffix_replay n Hc _ _ Hlt); [done|]. by apply image_base_at.
  - split; [done|]. split; [unfold len64; cbn; lia|]. by exists (image_base n d).
Qed.

(** The state once the image's configuration is the committed one. *)
Lemma install_core n3 :
  committed_at n1 (boundary d) n3 -> committed_membership n3 = image_base n d ->
  core_ok (applied_to n3 (boundary d)).
Proof.
  intros Hca Hcm.
  destruct install_facts as (Hc & Hd & Hmax & _ & _ & _ & Ht & Hm & _).
  destruct install_log as (Hok & Hlen & c & Hr).
  destruct (image_base_ok n d Hc Hd Hm) as (Hh & Hbi & Hbt).
  destruct Hca as [_ Hterm _ Hlog Hci Hsn _ Hg _ _ _].
  assert (Hlog' : log (applied_to n3 (boundary d)) = ps_retained p) by exact Hlog.
  apply (installed_core n _ d c); try done; rewrite ?Hlog'; try done.
  - change (boundary d <= boundary d <= commit_index n3). lia.
  - change (commit_index n3 <= boundary d + len64 (ps_retained p)). lia.
  - change (commit_index (applied_to n3 (boundary d))) with (commit_index n3).
    rewrite Hci, N.sub_diag. cbn [N.to_nat take replay_all]. by rewrite <- Hcm.
Qed.

Lemma install_vol n3 :
  committed_at n1 (boundary d) n3 -> role n3 = role n -> pending_reads n3 = pending_reads n ->
  read_context n3 = read_context n -> vol_ok n3.
Proof.
  intros Hca Hr Hpr Hx.
  destruct install_facts as (_ & Hd & Hmax & _ & _ & _ & _ & Hm & Hrole & a & Ha & Had).
  destruct Hinv as [[[_ _ [V1 V2 V3 V4]] _] _].
  destruct Hca as [_ _ _ _ _ Hsn _ Hg _ _ Hin]. split.
  - by rewrite Hr, Hrole.
  - intros _. rewrite Hpr. apply V2. unfold is_leader. by rewrite Hrole.
  - intros b Hb. rewrite Hin in Hb. split; [congruence|].
    assert (b = a) as -> by (change (incoming_snapshot n = Some b) in Hb; congruence).
    destruct (V3 a Ha) as [_ (W1 & W2 & W3 & _)]. repeat split; try done.
    left. by rewrite Hsn, Had.
  - by rewrite Hx.
Qed.

(** The image is durable: adopt its configuration and its boundary. *)
Lemma install_commit_safe n3 :
  committed_at n1 (boundary d) n3 -> committed_membership n3 = image_base n d ->
  role n3 = role n -> pending_reads n3 = pending_reads n -> read_context n3 = read_context n ->
  safe PPost n3
    (refresh_effective_membership;;
     modify (fun n => n <| last_applied := commit_index n |> <| incoming_snapshot := None |>);;
     emit (ApplySnapshot d);;
     snapshot_reply t (total_len d) true true (boundary d) (ps_contact_round p))
    (fun _ n' => good n').
Proof.
  intros Hca Hcm Hr Hpr Hx.
  destruct install_facts as (_ & _ & _ & _ & _ & _ & _ & _ & Hrole & _).
  eapply (safe_bind PQuiet PPost).
  { apply (refresh_safe_at n3 (boundary d)); [by apply install_core|by apply install_vol]. }
  { auto 6 with raft. }
  cbn beta. intros [] n4 (Hc4 & He4 & Hv4 & Hs4 & _).
  assert (Hci4 : commit_index n4 = boundary d).
  { rewrite (fr_commit _ _ (sf_frame _ _ Hs4)). apply Hca. }
  assert (Hr4 : role n4 = Follower) by (apply (sf_follower _ _ Hs4); congruence).
  apply (safe_write PPost PPost); [|auto with raft|].
  - split; [split|..]; try done.
    + unfold applied_run. cbn. by rewrite Hci4.
    + intros e He%list_elem_of_singleton. done.
    + cbn. split; [done|]. rewrite all_cons. auto with raft.
  - intros n5 H5. assert (Hg5 : good n5).
    { subst n5. split.
      - split; [|exact He4|].
        + rewrite Hci4. destruct Hc4. by split.
        + destruct Hv4. by split.
      - intros Hl. unfold is_leader in Hl. cbn in Hl. by rewrite Hr4 in Hl. }
    apply sends_done; [done|apply snapshot_reply_sends].
Qed.

Lemma install_logical : logical n [] n1.
Proof.
  destruct install_facts as (Hc & _ & _ & _ & Hla & Hci & _).
  pose proof (wf_sa _ Hc) as Hsa. split; try done.
  - change (snapshot_index n <= boundary d). lia.
  - intros i Hi1 Hi2. change (boundary d < i) in Hi2. lia.
  - intros e He. by apply not_elem_of_nil in He.
Qed.
End install.

(** What a step guarantees: the invariant, the logical relation, and a batch
    that brings the disk [d0] to the durable state of the next one. *)
Record stepped (d0 : Disk) (n : RaftNode) (es : list Effect) (n' : RaftNode) : Prop := {
  sd_inv : inv n';
  sd_logical : logical n es n';
  sd_disk : exec es d0 = durable n';
  sd_batch : batch_ok (current_term (hard n)) (current_term (hard n')) es;
}.

Lemma trans_stepped ph n es n' :
  trans ph n es n' -> good n' -> publishing_snapshot n = None -> stepped (durable n) n es n'.
Proof.
  intros Ht Hg Hp. split; [|apply Ht|apply Ht|eapply phase_batch, Ht].
  split; [done|]. intros p. rewrite (tr_pub _ _ _ _ Ht). congruence.
Qed.

Lemma requested_stepped n es n' : requested n es n' -> stepped (durable n) n es n'.
Proof. intros []. split; try done. by eapply phase_batch. Qed.

Section install_step.
Context (n : RaftNode) (p : PublishingSnapshot) (t : SnapshotTransferId).
Context (Hinv : inv n) (Hp : publishing_snapshot n = Some p) (Htr : ps_transfer p = Some t).
Context (Himg : image_matches_log n (ps_descriptor p)).
Local Abbreviation d := (ps_descriptor p).
Local Abbreviation n1 := (published n p).

Definition install_tail : Raft unit :=
  refresh_effective_membership;;
  modify (fun n => n <| last_applied := commit_index n |> <| incoming_snapshot := None |>);;
  emit (ApplySnapshot d);;
  snapshot_reply t (total_len d) true true (boundary d) (ps_contact_round p).

(** From the published state, whatever hard state was written. *)
Lemma install_from n3 es3 :
  committed_at n1 (boundary d) n3 -> committed_membership n3 = image_base n d ->
  role n3 = role n -> pending_reads n3 = pending_reads n -> read_context n3 = read_context n ->
  last_applied n3 = last_applied n ->
  (es3 = [] /\ hard n3 = hard n1) \/ es3 = [PersistHardState (hard n3)] ->
  wp install_tail (fun _ n' es => stepped (durable n1) n (es3 ++ es) n') n3.
Proof.
  intros Hca Hcm Hr Hpr Hx Hla Hes.
  pose proof (install_commit_safe n p t Hinv Hp Htr Himg n3 Hca Hcm Hr Hpr Hx) as Htail.
  destruct (install_facts n p t Hinv Hp Htr) as (_ & _ & _ & _ & _ & Hci & _).
  pose proof (committed_trans n1 (boundary d) n3 es3 Hca Hci Hla Hes) as Ht3.
  eapply safe_wp; [exact Htail|]. cbn beta. intros _ n' es Ht Hg.
  assert (Hall : trans PRun n1 (es3 ++ es) n').
  { case_bool_decide; (eapply trans_seq; [exact Ht3|exact Ht|auto with raft]). }
  destruct (trans_stepped _ _ _ _ Hall Hg eq_refl) as [H1 H2 H3 H4]. split; try done.
  apply (logical_seq n [] n1); [|done]. by apply (install_logical n p t).
Qed.

Lemma install_committed_legacy :
  sm_membership (metadata d) = None -> committed_membership n = genesis_membership n.
Proof.
  intros Hnone. destruct (install_facts n p t Hinv Hp Htr) as (Hc & _ & _ & _ & _ & _ & _ & Hm & _).
  unfold membership_ok in Hm. rewrite Hnone in Hm.
  apply (history_legacy _ _ (wf_gen _ Hc) (proj1 Hm)). by apply committed_bounds.
Qed.

Lemma install_safe :
  wp ((match sm_membership (metadata d) with
       | Some membership =>
           n ← get;
           when (negb (eqb (hs_membership (hard n)) (Some membership)))
             (modify (fun n => n <| hard := hard n <| hs_membership := Some membership |> |>);;
              n ← get;
              emit (PersistHardState (hard n)))
       | None => mret tt
       end);;
      modify (fun n => n <| commit_index := boundary d |>);;
      install_tail)
    (fun _ n' es => stepped (durable n1) n es n') n1.
Proof.
  assert (Hca : forall n2, hard n2 = hard n1
    \/ (exists m, hard n2 = hard n1 <| hs_membership := Some m |>) ->
    frame (n1 <| hard := hard n2 |>) n2 -> role n2 = role n1 ->
    incoming_snapshot n2 = incoming_snapshot n1 ->
    committed_at n1 (boundary d) (n2 <| commit_index := boundary d |>)).
  { intros n2 Hh Hf Hr Hin. destruct Hf as [F1 _ F3 F4 F5 F6 F7 F8]. split; try done.
    - change (current_term (hard n2) = current_term (hard n1)).
      by destruct Hh as [->|[m ->]].
    - change (voted_for (hard n2) = voted_for (hard n1)). by destruct Hh as [->|[m ->]].
    - intros Hl. unfold is_leader in *. change (role n2) with (role n2) in Hl.
      rewrite <- Hr. exact Hl.
    - intros Hl. change (role n2 = Follower). by rewrite Hr. }
  apply wpg_bind. destruct (sm_membership (metadata d)) as [m|] eqn:Hsm.
  - apply wpg_bind, wpg_get, wpg_when.
    + intros _. apply wpg_bind, wpg_modify, wpg_bind, wpg_get, wpg_emit, wpg_bind, wpg_modify.
      cbn [app]. apply (install_from _ [_]); [|..|by right]; try reflexivity.
      * apply Hca; [right; by exists m|by split|done|done].
      * unfold image_base. by rewrite Hsm.
    + intros Heq. bool_inv. apply wpg_bind, wpg_modify. cbn [app].
      apply (install_from _ []); [|..|by left]; try reflexivity.
      * apply Hca; [by left|by split|done|done].
      * unfold image_base, committed_membership. rewrite Hsm. cbn.
        change (hs_membership (hard n) = Some m) in Heq. by rewrite Heq.
  - apply wpg_ret, wpg_bind, wpg_modify. cbn [app].
    apply (install_from _ []); [|..|by left]; try reflexivity.
    * apply Hca; [by left|by split|done|done].
    * unfold image_base. rewrite Hsm. cbn. by apply install_committed_legacy.
Qed.
End install_step.

(** The disk a report of publication finds. *)
Definition published_disk (n : RaftNode) (transfer : option SnapshotTransferId)
    (d : SnapshotDescriptor) : Disk :=
  match publishing_snapshot n with
  | Some p => if eqb (ps_transfer p) transfer && eqb (ps_descriptor p) d
              then mkDisk (hard n) (ps_retained p) (Some d) else durable n
  | None => durable n
  end.

Lemma on_snapshot_published_safe n transfer d :
  inv n -> (transfer <> None -> image_matches_log n d) ->
  wp (on_snapshot_published transfer d)
    (fun _ n' es => stepped (published_disk n transfer d) n es n') n.
Proof.
  intros Hinv Himg. unfold on_snapshot_published, published_disk. apply wpg_bind, wpg_get.
  cbn [app].
  assert (Hsame : stepped (durable n) n [] n).
  { split; [done|apply frame_logical; auto with raft|done|].
    apply run_batch, mid_run. auto with raft. }
  destruct (publishing_snapshot n) as [p|] eqn:Hp; [|by apply wpg_ret].
  destruct (_ || _) eqn:Hb.
  { apply wpg_ret. destruct (eqb (ps_transfer p) transfer), (eqb (ps_descriptor p) d); done. }
  bool_inv. subst transfer d. rewrite !eqb_refl. cbn [andb].
  change (mkDisk (hard n) (ps_retained p) (Some (ps_descriptor p))) with (durable (published n p)).
  apply wpg_bind, wpg_modify. fold (published n p). cbn [app].
  destruct (ps_transfer p) as [t|] eqn:Htr.
  - apply (install_safe n p t Hinv Hp Htr). by apply Himg.
  - apply wpg_ret. destruct (published_compact n p Hinv Hp Htr) as [Hi Hl].
    split; [done|done|done|]. apply run_batch, mid_run. auto with raft.
Qed.
