(* ===== verification/StepSafe.v ===== *)
(** * Every step of a well-formed node

    Reads, time and recovery, and then the dispatch over all messages. *)
From S2P Require Import Prelude Rng Quorum Membership Types Node MembershipProtocol.
From S2P Require Import SnapshotTransfer Replication Election Step LogFacts MembershipFacts.
From S2P Require Import Effects Invariant CommitPath SendPath LeaderPath ElectionPath.
From S2P Require Import FollowerPath SnapshotPath.
Local Open Scope N_scope.
Local Open Scope raft_scope.

(** ** Reads *)

Lemma reads_only_good n n' : reads_only n n' -> good n -> good n'.
Proof.
  intros Hr [Hw Hs]. split; [by eapply reads_only_wf|].
  eapply solo_frame; [apply Hr|apply Hr|by apply reads_only_lead|done].
Qed.

(** Issuing a read context. *)
Lemma context_good n n' :
  good n -> role n' = role n -> frame n n' ->
  effective_membership n' = effective_membership n -> pending_reads n' = pending_reads n ->
  incoming_snapshot n' = incoming_snapshot n -> read_context n' <= u64_max -> good n'.
Proof.
  intros [Hw Hs] Hr Hf He Hp Hi Hx.
  set (n1 := n' <| read_context := read_context n |>).
  assert (Hst : still n n1) by (split; try done; destruct Hf; by split).
  destruct (good_still _ _ Hst (conj Hw Hs)) as [[Hc Heff [V1 V2 V3 V4]] Hs1].
  split; [|exact Hs1]. split; [destruct Hc; by split|exact Heff|]. by split.
Qed.

Lemma read_refusal_leader n : read_refusal n = None -> is_leader n = true /\ read_context n <> u64_max.
Proof.
  unfold read_refusal. intros H. repeat case_match; simplify_eq. bool_inv. done.
Qed.

Lemma on_read_index_safe n id :
  good n -> safe PPost n (on_read_index id) (fun _ n' => good n').
Proof.
  intros Hg. pose proof (v_context _ (wf_vol _ (proj1 Hg))) as Hctx.
  unfold on_read_index. apply safe_get.
  destruct (is_some _); [by apply safe_ret|].
  destruct (read_refusal n) eqn:Hr; [by apply safe_emit_post|].
  apply read_refusal_leader in Hr as [Hl Hne].
  eapply safe_expect; [apply checked_add_Some; split; [done|lia]|].
  apply safe_modify_bind; [by split|]. intros n1 H1. cbv zeta.
  assert (Hg1 : good n1).
  { apply (context_good n); try done; subst n1; try done. cbn. lia. }
  assert (Hl1 : is_leader n1 = true) by by subst n1. clear H1.
  destruct (self_quorum n); [by apply safe_emit_post|].
  apply safe_modify_bind; [by split|]. intros n2 H2.
  assert (Hg2 : good n2).
  { eapply reads_only_good; [|exact Hg1]. subst n2. split; try done. by left. }
  apply sends_done; [done|]. apply sends_for_each; [apply Hg2|].
  intros peer n3 _ _ _. destruct (negb _); [apply sends_ret|by apply sends_emit].
Qed.

Lemma on_read_probe_safe n t l c :
  good n -> safe PPost n (on_read_probe t l c) (fun _ n' => good n').
Proof.
  intros Hg. unfold on_read_probe. apply safe_get. cbv zeta.
  apply (safe_bind PQuiet PPost _ _ _ _ (fun _ n' => good n')); [|auto 6 with raft|].
  - apply safe_when; [done| |done]. intros _.
    eapply (safe_bind PQuiet PQuiet); [apply become_follower_safe|auto with raft|].
    cbn beta. intros [] n1 H1.
    assert (Hg1 : good n1) by (subst n1; split; [by apply follower_wf, Hg|apply follower_solo]).
    clear H1.
    eapply (safe_bind PQuiet PQuiet); [apply reset_election_deadline_safe|auto with raft|].
    cbn beta. intros [] n2 Hst. apply safe_modify; [by split|].
    eapply good_still; [|exact Hg1]. etrans; [exact Hst|]. still_tac.
  - intros [] n1 Hg1. apply safe_get. by apply safe_emit_post.
Qed.

Lemma on_read_probe_reply_safe n from t c a :
  good n -> safe PPost n (on_read_probe_reply from t c a) (fun _ n' => good n').
Proof.
  intros Hg. unfold on_read_probe_reply. apply safe_get.
  destruct (_ || _) eqn:Hb; [by apply safe_ret|]. bool_inv.
  destruct (List.find _ _) as [[id p]|]; [|by apply safe_ret]. cbv zeta.
  destruct (has_quorum _ _).
  - apply safe_modify_bind; [by split|]. intros n1 Hn1. apply safe_emit_post; [done|].
    eapply reads_only_good; [|exact Hg]. subst n1. split; try done. by left.
  - apply (safe_weaken PQuiet); [|done]. apply safe_modify; [by split|].
    eapply reads_only_good; [|exact Hg]. split; try done. by left.
Qed.

Lemma cancel_read_safe n id :
  good n -> safe PPost n (cancel_read id) (fun _ n' => good n').
Proof.
  intros Hg. unfold cancel_read. apply safe_get.
  destruct (pending_reads n !! id) eqn:Hp; [|by apply safe_ret].
  assert (Hl : is_leader n = true).
  { destruct (is_leader n) eqn:Hl; [done|].
    rewrite (v_reads _ (wf_vol _ (proj1 Hg)) Hl) in Hp. by rewrite lookup_empty in Hp. }
  apply safe_modify_bind; [by split|]. intros n1 H1. apply safe_emit_post; [done|].
  eapply reads_only_good; [|exact Hg]. subst n1. split; try done. by left.
Qed.

(** ** Time *)

Lemma quiet_follower_good n f :
  wf n -> (forall n, still n (f n)) ->
  safe PQuiet n (become_follower;; modify f) (fun _ n' => good n').
Proof.
  intros Hw Hf. eapply (safe_bind PQuiet PQuiet); [apply become_follower_safe|auto with raft|].
  cbn beta. intros [] n1 H1. apply safe_modify; [apply Hf|].
  eapply good_still; [apply Hf|]. subst n1. split; [by apply follower_wf|apply follower_solo].
Qed.

(** Check-quorum: step down, or open the next contact round. *)
Lemma check_quorum_safe n now :
  good n ->
  safe PQuiet n
    (if quorum_deadline_ms n <=? now then
       let missed_window := CHECK_QUORUM_MS <=? saturating_sub now (quorum_deadline_ms n) in
       let next_round := checked_add (contact_round n) 1 in
       if missed_window || negb (has_quorum (voter_config n) (quorum_contacts n))
          || is_none next_round
       then
         become_follower;;
         modify (fun n => n <| leader_hint := None |>);;
         reset_election_deadline;;
         mret true
       else
         round ← expect next_round;
         modify (fun n => n <| contact_round := round |>
                            <| quorum_contacts := {[node_id n]} |>
                            <| quorum_deadline_ms := saturating_add now CHECK_QUORUM_MS |>
                            <| heartbeat_due_ms := now |>);;
         mret false
     else mret false : Raft bool)
    (fun _ n' => good n').
Proof.
  intros Hg. destruct (_ <=? now); [|by apply safe_ret]. cbv zeta.
  destruct (_ || _) eqn:Hb.
  - eapply (safe_bind PQuiet PQuiet); [apply become_follower_safe|auto with raft|].
    cbn beta. intros [] n1 H1.
    assert (Hg1 : good n1) by (subst n1; split; [by apply follower_wf, Hg|apply follower_solo]).
    clear H1. apply safe_modify_bind; [by split|]. intros n2 H2.
    assert (Hg2 : good n2) by (subst n2; eapply good_still; [|exact Hg1]; still_tac).
    eapply (safe_bind PQuiet PQuiet); [apply reset_election_deadline_safe|auto with raft|].
    cbn beta. intros [] n3 Hst. apply safe_ret; [done|]. by eapply good_still.
  - bool_inv. destruct (checked_add (contact_round n) 1) as [r|]; [|done].
    eapply safe_expect; [done|]. apply safe_modify_bind; [by split|]. intros n1 ->.
    apply safe_ret; [done|]. eapply good_still; [|exact Hg]. still_tac.
Qed.

Lemma tick_leader_safe n now : good n -> safe PRun n (tick_leader now) (fun _ n' => good n').
Proof.
  intros Hg. unfold tick_leader. apply safe_get.
  eapply (safe_bind PQuiet PRun); [by apply check_quorum_safe|auto 6 with raft|].
  cbn beta. intros stop n1 Hg1. destruct stop; [by apply safe_ret|].
  eapply (safe_bind PRun PPost); [by apply maybe_finalize_safe|auto with raft|].
  cbn beta. intros [] n2 Hg2. apply safe_get. destruct (negb _); [by apply safe_ret|].
  apply safe_when; [done| |done]. intros _.
  eapply sends_good; [done|apply send_append_entries_sends, Hg2|auto with raft|].
  intros n3 _ Hg3. apply (safe_weaken PQuiet); [|done]. apply safe_modify; [by split|].
  eapply good_still; [|exact Hg3]. still_tac.
Qed.

Lemma on_tick_safe n now : good n -> safe PBatch n (on_tick now) (fun _ n' => good n').
Proof.
  intros Hg. unfold on_tick. apply safe_get. destruct (_ || _); [by apply safe_ret|].
  apply safe_modify_bind; [by split|]. intros n1 H1.
  assert (Hst1 : still n n1) by (subst n1; still_tac). clear H1.
  assert (Hg1 : good n1) by by eapply good_still.
  destruct (is_none _).
  { apply (safe_weaken PQuiet); [|done]. apply stepped_down_good; [apply Hg1|].
    intros n2. still_tac. }
  apply (safe_bind PPre PBatch _ _ _ _ (fun _ n2 => still n1 n2)); [|by apply seq_pre|].
  { destruct (election_deadline_ms n =? 0); cbn [when].
    - apply reset_wp. intros n2 Hst. split; [|done].
      apply frame_pre; [apply Hst|auto with raft].
    - apply wpg_ret. split; [|done]. apply frame_pre; auto with raft. }
  intros [] n2 Hst. assert (Hg2 : good n2) by by eapply good_still. apply safe_get.
  assert (Hpv : is_leader n2 = false -> safe PBatch n2
    (when ((election_deadline_ms n2 <=? now) && negb (campaign_exhausted n2)
           && is_voter n2 (node_id n2)) start_pre_vote) (fun _ n' => good n')).
  { intros Hl. apply safe_when; [done| |done]. intros _. by apply start_pre_vote_safe. }
  unfold is_leader in Hpv. destruct (role n2); try by apply Hpv.
  apply (safe_weaken PRun); [|done]. by apply tick_leader_safe.
Qed.

(** ** Recovery *)

Lemma on_recover_safe n : good n -> safe PRun n on_recover (fun _ n' => good n').
Proof.
  intros Hg. unfold on_recover. apply safe_get. destruct (negb _); [by apply safe_ret|].
  apply safe_modify_bind; [by split|]. intros n1 H1.
  assert (Hst1 : still n n1) by (subst n1; still_tac). clear H1.
  assert (Hg1 : good n1) by by eapply good_still.
  apply (safe_bind PMid PPost _ _ _ _ (fun _ n2 => good n2)); [|auto with raft|].
  - apply safe_when; [done| |done]. intros _. apply wpg_bind, wpg_emit, wpg_modify.
    rewrite <- (fr_hard _ _ (st_frame _ _ Hst1)). cbn [app]. split.
    + set (n2 := n1 <| recovery_refresh_hard := false |>).
      assert (Hst2 : still n1 n2) by still_tac.
      rewrite <- (fr_hard _ _ (st_frame _ _ Hst2)).
      apply (hard_write_trans PMid n1 n1); [|done].
      apply hard_write_trans_intro; try done. by right.
    + eapply good_still; [|exact Hg1]. still_tac.
  - intros [] n2 Hg2. eapply safe_mono; [apply apply_committed_safe, Hg2|].
    cbn beta. intros _ n3 ->. split; [|apply Hg2].
    apply applied_wf; [apply Hg2|]. pose proof (wf_ac _ (wf_core _ (proj1 Hg2))). lia.
Qed.

(** ** Messages *)

(** The [u64] fields the core adds to are in range. *)
Fixpoint message_ok (m : RaftMessage) : Prop :=
  match m with
  | GroupMessage _ _ inner => message_ok inner
  | InstallSnapshot _ d _ _ _ _ => last_included_index (metadata d) <= u64_max
  | _ => True
  end.

Lemma unwrap_not_group n m m' :
  unwrap_group_message n m = Some m' -> is_group_message m' = false /\ (message_ok m -> message_ok m').
Proof.
  unfold unwrap_group_message. destruct m; try (destruct (eqb _ _); intros [= <-]; done).
  destruct (_ && _) eqn:Hb; [|done]. intros [= <-]. bool_inv. done.
Qed.

(** A legacy node's participants are its genesis voters. *)
Lemma legacy_members n :
  wf n -> ms_group_id (cm_state (genesis_membership n)) = LEGACY_GROUP_ID ->
  node_members n = ms_genesis_voters (cm_state (genesis_membership n)).
Proof.
  intros [Hc (c & Hr & He) _] Hl. unfold node_members. rewrite He.
  rewrite (history_legacy _ c (wf_gen _ Hc) Hl)
    by (eapply replay_all_history; [apply Hc|exact Hr]).
  pose proof (wf_gen _ Hc) as Hg. unfold is_genesis in Hg.
  unfold cm_bootstrap_with_group, state_bootstrap_with_group in Hg. result_inv. subst.
  match goal with H : validate_set _ = Ok ?u |- _ =>
    destruct u; apply validate_set_elim in H as (_ & Hinc & _) end.
  match goal with H : _ = genesis_membership n |- _ => rewrite <- H end.
  unfold participants. cbn. rewrite union_empty_r_L. by apply nset_list_of_increasing.
Qed.

Lemma valid_membership_ok n d :
  wf n -> valid_snapshot_membership n d = true -> snapshot n = Some d \/ membership_ok n d.
Proof.
  intros Hw. pose proof (wf_core _ Hw) as Hc. unfold valid_snapshot_membership, membership_ok.
  destruct (eqb (snapshot n) (Some d)) eqn:Hs; bool_inv; [by left|]. intros Hv. right.
  destruct (committed_bounds _ Hc) as (Hh & _).
  destruct (sm_membership (metadata d)) as [m|].
  - by eapply extension_history; [apply Hc|..].
  - bool_inv. destruct (history_inv _ _ (wf_gen _ Hc) Hh) as (_ & E & _).
    assert (ms_group_id (cm_state (genesis_membership n)) = LEGACY_GROUP_ID) by congruence.
    split; [done|]. rewrite <- legacy_members by done. done.
Qed.

Lemma adopt_noop {A} ph n t (f : unit -> Raft A) R :
  t <= current_term (hard n) -> safe ph n (f tt) R -> safe ph n (adopt_term t ≫= f) R.
Proof.
  intros Ht H. apply wpg_bind. unfold adopt_term. apply wpg_bind, wpg_get.
  destruct (N.ltb_spec (current_term (hard n)) t); [lia|]. apply wpg_ret.
  eapply wpg_mono; [exact H|]. done.
Qed.

(** Every handler but the pre-vote reply keeps the adopted term. *)
Lemma adopt_run_safe n t (m : Raft unit) :
  good n ->
  (forall n1, good n1 -> t <= current_term (hard n1) -> snapshot n1 = snapshot n ->
     genesis_membership n1 = genesis_membership n ->
     safe PRun n1 m (fun _ n' => good n')) ->
  safe PBatch n (adopt_term t;; m) (fun _ n' => good n').
Proof.
  intros Hg Hm. apply wpg_bind. eapply safe_wp; [by apply adopt_term_safe|].
  cbn beta. intros _ n1 es1 Ht1 (Hg1 & Hterm & Hsn & _).
  eapply safe_wp; [apply Hm; [done|done|done|apply Ht1]|]. cbn beta. intros _ n2 es2 Ht2 Hg2.
  split; [|done].
  destruct (current_term (hard n) <? t).
  - by eapply trans_seq; [exact Ht1|exact Ht2|auto 6 with raft].
  - apply (trans_weaken PRun); [|done].
    by eapply trans_seq; [exact Ht1|exact Ht2|auto 6 with raft].
Qed.

Lemma adopt_pre_vote_reply_safe n from t pt cid g :
  good n ->
  safe PBatch n (adopt_term t;; on_pre_vote_reply from t pt cid g) (fun _ n' => good n').
Proof.
  intros Hg. destruct (N.le_gt_cases t (current_term (hard n))) as [Hle|Hgt].
  - apply adopt_noop; [done|]. pose proof (on_pre_vote_reply_safe n from t pt cid g Hg) as H.
    eapply safe_weaken; [exact H|]. by destruct (is_follower n).
  - pose proof (adopt_term_safe n t Hg) as Ha.
    destruct (N.ltb_spec (current_term (hard n)) t); [|lia].
    apply (safe_weaken PAdopt); [|done].
    eapply (safe_bind PAdopt PQuiet); [exact Ha|auto with raft|].
    cbn beta. intros [] n1 (Hg1 & _ & _ & Hf & _). destruct (Hf Hgt) as [_ Hr].
    pose proof (on_pre_vote_reply_safe n1 from t pt cid g Hg1) as H1.
    unfold is_follower in H1. by rewrite Hr in H1.
Qed.

(** A message that passed every structural check. *)
Lemma dispatch_safe n from msg t last :
  good n -> message_ok msg -> is_group_message msg = false ->
  message_malformed n from msg = false -> append_frame msg = Some last ->
  message_term n msg = Some t ->
  safe PBatch n (adopt_term t;; dispatch_message from msg last) (fun _ n' => good n').
Proof.
  intros Hg Hok Hng Hmal Hfr Ht.
  assert (Hpost : forall n1 m, safe PPost n1 m (fun (_ : unit) n' => good n') ->
            safe PRun n1 m (fun _ n' => good n')).
  { intros n1 m H. by apply (safe_weaken PPost). }
  destruct msg; try done; cbn in Ht; injection Ht as <-.
  - apply adopt_run_safe; [done|]. intros n1 Hg1 _ _ _. by apply on_request_vote_safe.
  - apply adopt_run_safe; [done|]. intros n1 Hg1 _ _ _. by apply on_request_vote_reply_safe.
  - cbn in Hfr. apply fmap_Some in Hfr as (plast & Hv & ->).
    apply adopt_run_safe; [done|]. intros n1 Hg1 Hle _ _. by apply on_append_entries_safe.
  - apply adopt_run_safe; [done|]. intros n1 Hg1 _ _ _. by apply on_append_entries_reply_safe.
  - apply adopt_run_safe; [done|]. intros n1 Hg1 _ _ _. apply Hpost.
    apply sends_done; [done|]. apply on_pre_vote_sends.
  - by apply adopt_pre_vote_reply_safe.
  - apply adopt_run_safe; [done|]. intros n1 Hg1 _ _ _. apply Hpost. by apply on_read_probe_safe.
  - apply adopt_run_safe; [done|]. intros n1 Hg1 _ _ _. apply Hpost.
    by apply on_read_probe_reply_safe.
  - apply adopt_run_safe; [done|]. intros n1 Hg1 _ _ _. apply safe_get.
    apply safe_when; [done| |done]. intros _. by apply on_append_entries_reply_safe.
  - cbn in Hmal, Hok. bool_inv.
    match goal with H : valid_chunk _ _ _ _ = true |- _ =>
      apply valid_chunk_bound in H as (Hd & Hb & Hmx) end.
    match goal with H : valid_snapshot_membership _ _ = true |- _ =>
      apply (valid_membership_ok n _ (proj1 Hg)) in H as Hm end.
    apply adopt_run_safe; [done|]. intros n1 Hg1 _ Hsn Hgen. apply Hpost.
    apply on_install_snapshot_safe; [done| |done|done| |].
    + apply is_ok_unit. unfold is_err. by rewrite Hd.
    + unfold membership_ok in *. by rewrite Hsn, Hgen.
    + pose proof u64_max_two64. unfold MAX_SNAPSHOT_BYTES, two64 in *. lia.
  - apply adopt_run_safe; [done|]. intros n1 Hg1 _ _ _. by apply on_install_snapshot_reply_safe.
Qed.

Lemma on_message_safe n from msg :
  good n -> message_ok msg -> safe PBatch n (on_message from msg) (fun _ n' => good n').
Proof.
  intros Hg Hok. unfold on_message. apply safe_get.
  destruct (unwrap_group_message n msg) as [m|] eqn:Hu; [|by apply safe_ret].
  apply unwrap_not_group in Hu as [Hng Hok']. specialize (Hok' Hok).
  assert (Hgo : (forall tm c, m <> MembershipAdvertisement tm c) -> safe PBatch n
    (if from =? node_id n then mret tt else
     if negb (message_eligible n from m) then mret tt else
     if message_malformed n from m then mret tt else
     match append_frame m with
     | None => append_reply (message_leader m) false (last_log_index n) 0 None
     | Some last =>
         msg_term ← expect (message_term n m);
         adopt_term msg_term;; dispatch_message from m last
     end) (fun _ n' => good n')).
  { intros Hna. destruct (from =? node_id n); [by apply safe_ret|].
    destruct (negb _); [by apply safe_ret|].
    destruct (message_malformed n from m) eqn:Hmal; [by apply safe_ret|].
    destruct (append_frame m) as [last|] eqn:Hfr.
    - destruct (message_term n m) as [t|] eqn:Ht.
      + eapply safe_expect; [done|]. by apply dispatch_safe.
      + destruct m; try done. by destruct (Hna term configuration).
    - apply (safe_weaken PPost); [|done]. apply sends_done; [done|apply append_reply_sends]. }
  destruct m; try (by apply Hgo).
  apply (safe_weaken PPost); [|done]. apply sends_done; [done|].
  apply on_membership_advertisement_sends.
Qed.

(** ** All inputs *)

(** A publication in flight is reported before anything else is fed in. *)
Definition disciplined (n : RaftNode) (i : Input) : Prop :=
  publishing_snapshot n = None \/ exists t d, i = SnapshotPublished t d.

Definition input_ok (n : RaftNode) (i : Input) : Prop :=
  match i with
  | Message _ m => message_ok m
  | SnapshotPublished (Some _) d => image_matches_log n d
  | _ => True
  end.

(** The disk a step finds: the driver has executed a publication it reports. *)
Definition start_disk (n : RaftNode) (i : Input) : Disk :=
  match i with
  | SnapshotPublished t d => published_disk n t d
  | _ => durable n
  end.

Lemma handle_safe n i :
  inv n -> disciplined n i -> input_ok n i ->
  wp (handle i) (fun _ n' es => stepped (start_disk n i) n es n') n.
Proof.
  intros Hinv Hdis Hok. destruct Hinv as [Hg Hpub] eqn:HI.
  destruct (decide (publishing_snapshot n = None)) as [Hp|Hp].
  - assert (Hgo : forall ph m, safe ph n m (fun (_ : unit) n' => good n') ->
              wp m (fun _ n' es => stepped (durable n) n es n') n).
    { intros ph m H. eapply safe_wp; [exact H|]. intros a n' es Ht Hg'.
      by eapply trans_stepped. }
    assert (Hreq : forall m, wp m (fun (_ : unit) n' es => requested n es n') n ->
              wp m (fun _ n' es => stepped (durable n) n es n') n).
    { intros m H. eapply wpg_mono; [exact H|]. intros a n' es. apply requested_stepped. }
    destruct i; cbn [handle start_disk].
    + eapply Hgo. by apply on_recover_safe.
    + eapply Hgo. by apply on_membership_change_safe.
    + eapply Hgo. by apply on_message_safe.
    + eapply Hgo. by apply on_tick_safe.
    + eapply Hgo. by apply on_client_propose_batch_safe.
    + eapply Hgo. by apply on_client_propose_batch_safe.
    + eapply Hgo. by apply on_read_index_safe.
    + eapply Hgo. by apply cancel_read_safe.
    + apply Hreq. by apply on_compact_safe.
    + eapply Hgo. apply sends_done; [done|]. apply on_snapshot_chunk_read_sends.
    + apply Hreq. by apply on_snapshot_chunk_staged_safe.
    + apply on_snapshot_published_safe; [done|]. by destruct transfer.
  - destruct Hdis as [?|(t & d & ->)]; [done|]. cbn [handle start_disk].
    apply on_snapshot_published_safe; [done|]. by destruct t.
Qed.

(** ** Group envelopes *)

Section wrap.
Context (known : MembershipState).
Local Abbreviation w := (wrap_group_effect known).

Lemma wrap_class e :
  pre_eff (w e) = pre_eff e /\ (forall t, mid_eff t (w e) = mid_eff t e)
  /\ post_eff (w e) = post_eff e /\ (forall d, persist d (w e) = persist d e)
  /\ (forall a, applied_step a (w e) = applied_step a e)
  /\ (forall x, w e = Apply x -> e = Apply x).
Proof. destruct e; cbn; try done. by destruct (is_group_message msg). Qed.

Lemma all_wrap p es : (forall e, p (w e) = p e) -> all p (map w es) <-> all p es.
Proof.
  intros Hp. induction es as [|e es IH]; [done|]. cbn [map]. by rewrite !all_cons, Hp, IH.
Qed.

Lemma exec_wrap es d : exec (map w es) d = exec es d.
Proof.
  unfold exec. revert d. induction es as [|e es IH]; intros d; [done|]. cbn [map fold_left].
  destruct (wrap_class e) as (_ & _ & _ & -> & _). apply IH.
Qed.

Lemma applied_wrap es a : applied_run a (map w es) = applied_run a es.
Proof.
  unfold applied_run. generalize (Some a). induction es as [|e es IH]; intros o; [done|].
  cbn [map fold_left]. destruct (wrap_class e) as (_ & _ & _ & _ & -> & _). apply IH.
Qed.

Lemma term_wrap t es : term_run t (map w es) = term_run t es.
Proof.
  unfold term_run. revert t. induction es as [|e es IH]; intros t; [done|]. cbn [map fold_left].
  rewrite IH. destruct e; try done. cbn. by destruct (is_group_message msg).
Qed.

Lemma batch_wrap t t' es : batch_ok t t' es -> batch_ok t t' (map w es).
Proof.
  intros (a & b & -> & [Ha Ht] & (c & d & -> & Hc & Hd)).
  exists (map w a), (map w (c ++ d)). split; [apply map_app|]. split.
  - split; [|by rewrite term_wrap]. apply all_wrap; [|done]. intros e. apply wrap_class.
  - exists (map w c), (map w d). split; [apply map_app|]. split.
    + apply all_wrap; [|done]. intros e. apply wrap_class.
    + apply all_wrap; [|done]. intros e. apply wrap_class.
Qed.

Lemma stepped_wrap d0 n es n' : stepped d0 n es n' -> stepped d0 n (map w es) n'.
Proof.
  intros [Hi [L1 L2 L3 L4 L5 L6 L7 L8] Hd Hb]. split; [done| |by rewrite exec_wrap|by apply batch_wrap].
  split; try done.
  - by rewrite applied_wrap.
  - intros e He. apply L8. rewrite list_elem_of_In in He.
    apply in_map_iff in He as (x & Hx & Hin). apply wrap_class in Hx as ->.
    by apply list_elem_of_In.
Qed.
End wrap.

Lemma stepped_wrap_effects d0 n es n' :
  stepped d0 n es n' -> stepped d0 n (wrap_group_effects n' es) n'.
Proof.
  intros H. unfold wrap_group_effects. destruct (eqb _ _); [done|]. by apply stepped_wrap.
Qed.

(** ** [step] *)

Lemma step_safe n i :
  inv n -> disciplined n i -> input_ok n i -> recovery_pending n = false \/ i = Recover ->
  exists n' es, step n i = Some (n', es) /\ stepped (start_disk n i) n es n'.
Proof.
  intros Hinv Hdis Hok Hrec. unfold step.
  assert (recovery_pending n && negb (is_recover i) = false) as ->.
  { destruct Hrec as [->| ->]; [done|]. cbn. apply andb_false_r. }
  destruct (wp_run _ _ _ (handle_safe n i Hinv Hdis Hok)) as (a & n' & es & Hrun & Hst).
  rewrite Hrun. cbn. exists n', (wrap_group_effects n' es). split; [done|].
  by apply stepped_wrap_effects.
Qed.
