(* ===== verification/SnapshotFlow.v ===== *)
(** * Snapshot effects and the shell that serves them

    What a shell that answers snapshot effects on the spot relies on: a chunk
    is only read from the node's own image and inside it, a chunk or a
    publication is requested last in its batch, an image is announced only when
    it is the node's, and a partial transfer never outlives the stage the shell
    keeps for it. *)
From S2P Require Import Prelude Rng Quorum Membership Types Node MembershipProtocol.
From S2P Require Import SnapshotTransfer Replication Election Step LogFacts MembershipFacts.
From S2P Require Import Effects Invariant CommitPath SendPath LeaderPath SnapshotPath StepSafe.
Local Open Scope N_scope.
Local Open Scope raft_scope.

(** ** Outgoing transfers and the stage *)

(** Every transfer a leader serves is of its own image, from inside it. *)
Definition outgoing_ok (n : RaftNode) : Prop :=
  forall to o, outgoing_snapshots n !! to = Some o ->
    snapshot n = Some (os_descriptor o) /\ os_offset o <= total_len (os_descriptor o).

(** The transfer and image of the stage the shell keeps. *)
Definition Stage : Type := option (SnapshotTransferId * SnapshotDescriptor).

(** A transfer that has received something has a stage, unless its image is
    installed already. *)
Definition stage_rel (n : RaftNode) (st : Stage) : Prop :=
  forall a, incoming_snapshot n = Some a -> 0 < is_next_offset a ->
    snapshot n <> Some (is_descriptor a) -> st = Some (is_transfer a, is_descriptor a).

Definition flow (n : RaftNode) (st : Stage) : Prop := outgoing_ok n /\ stage_rel n st.

(** What an effect does to the stage: a cancelled transfer's is dropped, and
    so is any when an image is announced. *)
Definition stage_step (st : Stage) (e : Effect) : Stage :=
  match e with
  | CancelSnapshot t => match st with
                        | Some (t', _) => if eqb t' t then None else st
                        | None => None
                        end
  | ApplySnapshot _ => None
  | _ => st
  end.
Definition stage_run (st : Stage) (es : list Effect) : Stage := fold_left stage_step es st.

Lemma stage_run_app st es1 es2 : stage_run st (es1 ++ es2) = stage_run (stage_run st es1) es2.
Proof. apply fold_left_app. Qed.

(** Effects a shell answers without a further request, given the image [sn]. *)
Definition calm (sn : option SnapshotDescriptor) (e : Effect) : Prop :=
  match e with
  | ReadSnapshotChunk _ _ d offset _ => sn = Some d /\ offset <= total_len d
  | ApplySnapshot d => sn = Some d
  | StageSnapshotChunk _ _ _ _ _ | PublishSnapshot _ _ _ => False
  | _ => True
  end.

(** Effects that have nothing to do with snapshots. *)
Definition simple (e : Effect) : bool :=
  match e with
  | ReadSnapshotChunk _ _ _ _ _ | ApplySnapshot _ | StageSnapshotChunk _ _ _ _ _
  | PublishSnapshot _ _ _ | CancelSnapshot _ => false
  | _ => true
  end.

Lemma simple_calm sn e : simple e = true -> calm sn e.
Proof. by destruct e. Qed.
Lemma simple_run st es : all simple es -> stage_run st es = st.
Proof.
  unfold stage_run. induction es as [|e es IH]; [done|]. rewrite all_cons. intros [He Hes]. cbn.
  assert (stage_step st e = st) as -> by by destruct e. by apply IH.
Qed.

(** ** Operations that stay within the discipline *)

Definition kept (n : RaftNode) (st : Stage) (es : list Effect) (n' : RaftNode) : Prop :=
  flow n' (stage_run st es) /\ snapshot n' = snapshot n
  /\ publishing_snapshot n' = publishing_snapshot n /\ forall e, e ∈ es -> calm (snapshot n) e.

Definition keeps {A} (m : Raft A) : Prop :=
  forall n st, flow n st -> wlp m (fun _ n' es => kept n st es n') n.

Lemma calm_nil sn e : e ∈ [] -> calm sn e.
Proof. by intros ?%not_elem_of_nil. Qed.
Lemma kept_nil n st : flow n st -> kept n st [] n.
Proof. intros H. split; [done|]. split; [done|]. split; [done|apply calm_nil]. Qed.
Lemma kept_seq n st es1 n1 es2 n2 :
  kept n st es1 n1 -> kept n1 (stage_run st es1) es2 n2 -> kept n st (es1 ++ es2) n2.
Proof.
  intros (F1 & S1 & P1 & C1) (F2 & S2 & P2 & C2). rewrite <- stage_run_app in F2.
  split; [done|]. split; [congruence|]. split; [congruence|].
  intros e [He|He]%elem_of_app; [by apply C1|]. rewrite <- S1. by apply C2.
Qed.

Lemma keeps_ret {A} (a : A) : keeps (mret a).
Proof. intros n st H. by apply wpg_ret, kept_nil. Qed.
Lemma keeps_bind {A B} (m : Raft A) (f : A -> Raft B) :
  keeps m -> (forall a, keeps (f a)) -> keeps (m ≫= f).
Proof.
  intros H1 H2 n st H. apply wpg_bind. eapply wpg_mono; [by apply H1|]. intros a n1 e1 K1.
  eapply wpg_mono; [exact (H2 a n1 _ (proj1 K1))|]. intros b n2 e2 K2. exact (kept_seq _ _ _ _ _ _ K1 K2).
Qed.
Lemma keeps_get : keeps get.
Proof. intros n st H. by apply wpg_get, kept_nil. Qed.
Lemma keeps_modify f :
  (forall n, (outgoing_snapshots (f n) ⊆ outgoing_snapshots n)
     /\ incoming_snapshot (f n) = incoming_snapshot n /\ snapshot (f n) = snapshot n
     /\ publishing_snapshot (f n) = publishing_snapshot n) -> keeps (modify f).
Proof.
  intros Hf n st [Ho Hs]. apply wpg_modify. destruct (Hf n) as (H1 & H2 & H3 & H4).
  split; [|split; [done|split; [done|apply calm_nil]]]. split.
  - intros to o Hto. rewrite H3. apply (Ho to). by eapply lookup_weaken.
  - unfold stage_rel. rewrite H2, H3. exact Hs.
Qed.
Lemma keeps_emit e : simple e = true -> keeps (emit e).
Proof.
  intros He n st H. apply wpg_emit. split; [|split; [done|split; [done|]]].
  - unfold stage_run. cbn. by assert (stage_step st e = st) as -> by by destruct e.
  - intros x ->%list_elem_of_singleton. by apply simple_calm.
Qed.
Lemma keeps_emits es : all simple es -> keeps (emits es).
Proof.
  intros He n st H. apply wpg_emits. split; [|split; [done|split; [done|]]].
  - by rewrite simple_run.
  - intros e Hin. by apply simple_calm, He.
Qed.
Lemma keeps_expect {A} (o : option A) : keeps (expect o).
Proof. destruct o; [apply keeps_ret|done]. Qed.
Lemma keeps_expect_ok {A} (r : Result A) : keeps (expect_ok r).
Proof. destruct r; [apply keeps_ret|done]. Qed.
Lemma keeps_panic {A} : keeps (@panic _ _ A).
Proof. done. Qed.
Lemma keeps_massert b : keeps (massert b).
Proof. destruct b; [apply keeps_ret|done]. Qed.
Lemma keeps_when b m : keeps m -> keeps (when b m).
Proof. intros H. destruct b; [exact H|apply keeps_ret]. Qed.
Lemma keeps_for_each {A} (f : A -> Raft unit) l : (forall x, keeps (f x)) -> keeps (for_each f l).
Proof.
  intros H. induction l as [|x l IH]; cbn [for_each]; [apply keeps_ret|].
  apply keeps_bind; [apply H|]. by intros [].
Qed.
Lemma keeps_fold_each {A B} (f : B -> A -> Raft B) b l :
  (forall b x, keeps (f b x)) -> keeps (fold_each f b l).
Proof.
  intros H. revert b. induction l as [|x l IH]; cbn [fold_each]; intros b; [apply keeps_ret|].
  apply keeps_bind; [apply H|]. auto.
Qed.
(** Effects kept aside are put back later. *)
Lemma keeps_collect {A B} (m : Raft A) (f : A * list Effect -> Raft B) :
  keeps m -> only simple m -> (forall a es, all simple es -> keeps (f (a, es))) ->
  keeps (collect m ≫= f).
Proof.
  intros Hm Ho Hf n st H. apply wpg_bind, wpg_collect.
  eapply wpg_mono; [apply (wpg_and _ _ _ _ _ (Hm n st H) (Ho n))|].
  intros a n1 es1 [(F1 & S1 & P1 & _) Hes]. rewrite (simple_run _ _ Hes) in F1.
  eapply wpg_mono; [by apply Hf|]. intros b n2 es2 K. cbn [app].
  apply (kept_seq n st [] n1); [|done]. split; [done|]. split; [done|]. split; [done|apply calm_nil].
Qed.

Create HintDb keeps discriminated.

Lemma same_sub {K V} `{Countable K} (m : gmap K V) : m ⊆ m.
Proof. done. Qed.

Ltac frame_goal :=
  intros ?; repeat (match goal with |- context [match ?x with _ => _ end] => destruct x end);
  (split; [first [exact (same_sub _)|apply map_empty_subseteq|apply delete_subseteq]|done]).

Ltac keeps_step :=
  lazymatch goal with
  | |- keeps (mret _) => apply keeps_ret
  | |- keeps (collect _ ≫= _) => apply keeps_collect; [| |intros ? ? ?; cbn]
  | |- keeps (_ ≫= _) => apply keeps_bind; [|intros ?]
  | |- keeps get => apply keeps_get
  | |- keeps (modify _) => apply keeps_modify; try frame_goal
  | |- keeps (emit _) => apply keeps_emit; try done
  | |- keeps (emits _) => apply keeps_emits
  | |- keeps (expect _) => apply keeps_expect
  | |- keeps (expect_ok _) => apply keeps_expect_ok
  | |- keeps (add_u64 _ _) => apply keeps_expect
  | |- keeps (sub_u64 _ _) => apply keeps_expect
  | |- keeps panic => apply keeps_panic
  | |- keeps (massert _) => apply keeps_massert
  | |- keeps (when _ _) => apply keeps_when
  | |- keeps (for_each _ _) => apply keeps_for_each; intros ?
  | |- keeps (fold_each _ _ _) => apply keeps_fold_each; intros ? ?
  | |- keeps (if ?b then _ else _) => destruct b
  | |- keeps (match ?x with _ => _ end) => destruct x
  | |- keeps (let _ := _ in _) => cbv zeta
  | |- all _ (map _ _) => apply all_map; intros []; try done
  | |- _ => solve [auto with keeps]
  end.
Ltac keeps_tac := repeat keeps_step.

(** ** The handlers *)

Lemma become_follower_keeps : keeps become_follower.
Proof. unfold become_follower, reject_pending_reads. keeps_tac. Qed.
Lemma reject_reads_keeps reason : keeps (reject_pending_reads reason).
Proof. unfold reject_pending_reads. keeps_tac. Qed.
Lemma reset_deadline_keeps : keeps reset_election_deadline.
Proof. unfold reset_election_deadline. keeps_tac. Qed.
Lemma apply_committed_keeps : keeps apply_committed.
Proof. unfold apply_committed, apply_one. keeps_tac. Qed.
Lemma update_peers_keeps : keeps update_replication_peers.
Proof.
  apply keeps_modify. unfold update_replication_peers_of. cbv zeta. frame_goal.
Qed.
#[local] Hint Resolve become_follower_keeps reject_reads_keeps reset_deadline_keeps
  apply_committed_keeps update_peers_keeps : keeps.

Lemma refresh_keeps : keeps refresh_effective_membership.
Proof. unfold refresh_effective_membership. keeps_tac. Qed.
#[local] Hint Resolve refresh_keeps : keeps.
Lemma advance_commit_keeps index : keeps (advance_commit index).
Proof. unfold advance_commit. keeps_tac. Qed.
Lemma advertise_keeps to : keeps (advertise_membership to).
Proof. unfold advertise_membership. keeps_tac. Qed.
Lemma snapshot_reply_keeps t o a i m r : keeps (snapshot_reply t o a i m r).
Proof. unfold snapshot_reply. keeps_tac. Qed.
Lemma snapshot_reject_keeps r : keeps (snapshot_reject r).
Proof. unfold snapshot_reject. keeps_tac. Qed.
Lemma append_reply_keeps l s m r c : keeps (append_reply l s m r c).
Proof. unfold append_reply. keeps_tac. Qed.
#[local] Hint Resolve advance_commit_keeps advertise_keeps snapshot_reply_keeps
  snapshot_reject_keeps append_reply_keeps : keeps.

(** A cancelled transfer takes its stage along. *)
Lemma cancel_incoming_keeps : keeps cancel_incoming_snapshot.
Proof.
  intros n st [Ho Hs]. unfold cancel_incoming_snapshot. apply wpg_bind, wpg_get.
  destruct (incoming_snapshot n) as [a|] eqn:Ha; [|by apply wpg_ret, kept_nil].
  apply wpg_bind, wpg_modify, wpg_emit. split; [|split; [done|split; [done|]]].
  - split; [exact Ho|]. intros b Hb. discriminate Hb.
  - by intros e ->%list_elem_of_singleton.
Qed.

Lemma insert_outgoing_flow n st to o n' :
  flow n st -> snapshot n = Some (os_descriptor o) -> os_offset o <= total_len (os_descriptor o) ->
  outgoing_snapshots n' = <[to := o]> (outgoing_snapshots n) ->
  incoming_snapshot n' = incoming_snapshot n -> snapshot n' = snapshot n -> flow n' st.
Proof.
  intros [Ho Hs] Hd Hoff Hout Hin Hsn. split.
  - intros to' o'. rewrite Hout, Hsn. intros [[_ <-]|[_ H]]%lookup_insert_Some; [done|].
    by apply (Ho to').
  - unfold stage_rel. rewrite Hin, Hsn. exact Hs.
Qed.

Lemma send_snapshot_chunk_keeps to : keeps (send_snapshot_chunk to).
Proof.
  intros n st H. unfold send_snapshot_chunk. apply wpg_bind, wpg_get.
  destruct (negb _); [by apply wpg_ret, kept_nil|].
  destruct (snapshot n) as [d|] eqn:Hsn; [|by apply wpg_ret, kept_nil].
  apply wpg_bind.
  assert (Hgo : forall n1, flow n1 st -> snapshot n1 = snapshot n ->
    publishing_snapshot n1 = publishing_snapshot n ->
    wlp (n0 ← get; active ← expect (outgoing_snapshots n0 !! to);
         if os_reading active then mret tt else
         modify (fun n => n <| outgoing_snapshots :=
                   <[to := active <| os_reading := true |>]> (outgoing_snapshots n) |>);;
         emit (ReadSnapshotChunk to (os_transfer active) (os_descriptor active) (os_offset active)
                 MAX_SNAPSHOT_CHUNK_BYTES)) (fun _ n' es => kept n st es n') n1).
  { intros n1 H1 Hs1 Hp1. apply wpg_bind, wpg_get, wpg_bind, wpg_expect; [|done].
    intros o Hout. cbn [app].
    destruct (proj1 H1 to o Hout) as [Hd Hoff].
    assert (K1 : kept n st [] n1) by (split; [done|]; split; [done|]; split; [done|apply calm_nil]).
    destruct (os_reading o); [by apply wpg_ret|].
    apply wpg_bind, wpg_modify, wpg_emit. split; [|split; [done|split; [done|]]].
    - by eapply (insert_outgoing_flow n1 st to (o <| os_reading := true |>)).
    - intros e ->%list_elem_of_singleton. cbn. by rewrite <- Hs1. }
  destruct (is_some _).
  - apply wpg_ret. cbn [negb]. cbv iota. cbn [app]. by apply Hgo.
  - destruct (checked_add _ _) as [sq|].
    + apply wpg_bind, wpg_modify, wpg_ret. cbn [negb]. cbn [app]. apply Hgo; [|done|done].
      eapply (insert_outgoing_flow n st to _ _ H); cycle 2; [done|done|done|done|].
      cbn. lia.
    + apply wpg_bind, wpg_emit, wpg_ret. cbn [negb]. apply wpg_ret. cbn [app].
      by apply (keeps_emit (SnapshotRejected _) eq_refl n st H).
Qed.
#[local] Hint Resolve cancel_incoming_keeps send_snapshot_chunk_keeps : keeps.

Lemma advertise_replication_keeps to : keeps (advertise_replication_membership to).
Proof. unfold advertise_replication_membership. keeps_tac. Qed.
Lemma append_configuration_keeps change : keeps (append_configuration change).
Proof. unfold append_configuration. keeps_tac. Qed.
#[local] Hint Resolve advertise_replication_keeps append_configuration_keeps : keeps.

Lemma send_append_entries_keeps : keeps send_append_entries.
Proof. unfold send_append_entries, send_append_to. keeps_tac. Qed.
Lemma append_entries_reply_keeps f t s m r c : keeps (on_append_entries_reply f t s m r c).
Proof. unfold on_append_entries_reply. keeps_tac. Qed.
Lemma append_entries_keeps t l pi pt es pl lc r : keeps (on_append_entries t l pi pt es pl lc r).
Proof.
  unfold on_append_entries, append_conflict_hint, candidate_step, accept_entries, append_step.
  keeps_tac.
Qed.
#[local] Hint Resolve send_append_entries_keeps append_entries_reply_keeps append_entries_keeps
  : keeps.

Lemma advance_commit_simple index : only simple (advance_commit index).
Proof.
  unfold advance_commit, refresh_effective_membership, become_follower, reject_pending_reads,
    update_replication_peers, reset_election_deadline, apply_committed, apply_one. only_tac.
Qed.
Lemma become_leader_keeps : keeps become_leader.
Proof.
  unfold become_leader. keeps_tac.
  - apply only_when, advance_commit_simple.
  - intros e He. match goal with H : all _ _ |- _ => apply H end.
    by apply list_elem_of_filter in He as [_ ?].
  - intros e He. match goal with H : all _ _ |- _ => apply H end.
    by apply list_elem_of_filter in He as [_ ?].
Qed.
#[local] Hint Resolve become_leader_keeps : keeps.

Lemma start_election_keeps : keeps start_election.
Proof. unfold start_election. keeps_tac. Qed.
#[local] Hint Resolve start_election_keeps : keeps.
Lemma start_pre_vote_keeps : keeps start_pre_vote.
Proof. unfold start_pre_vote. keeps_tac. Qed.
Lemma adopt_term_keeps t : keeps (adopt_term t).
Proof. unfold adopt_term. keeps_tac. Qed.
Lemma maybe_finalize_keeps : keeps maybe_finalize_membership.
Proof. unfold maybe_finalize_membership. keeps_tac. Qed.
Lemma client_propose_keeps cs : keeps (on_client_propose_batch cs).
Proof. unfold on_client_propose_batch. keeps_tac. Qed.
#[local] Hint Resolve start_pre_vote_keeps adopt_term_keeps maybe_finalize_keeps
  client_propose_keeps : keeps.

(** The sender moves on inside the image it is sending. *)
Lemma install_reply_keeps f t tr no mi acc ins r :
  keeps (on_install_snapshot_reply f t tr no mi acc ins r).
Proof.
  intros n st H. unfold on_install_snapshot_reply. apply wpg_bind, wpg_get.
  destruct (_ || _); [by apply wpg_ret, kept_nil|].
  destruct (outgoing_snapshots n !! f) as [o|] eqn:Hout; [|by apply wpg_ret, kept_nil].
  destruct (proj1 H f o Hout) as [Hd _].
  destruct (_ || _); [by apply wpg_ret, kept_nil|]. cbv zeta.
  destruct (negb acc).
  { match goal with |- wpg _ ?m _ _ => assert (Hk : keeps m) by keeps_tac end. by apply Hk. }
  destruct ins.
  { match goal with |- wpg _ ?m _ _ => assert (Hk : keeps m) by keeps_tac end. by apply Hk. }
  destruct (negb _) eqn:Hv; [by apply wpg_ret, kept_nil|]. bool_inv.
  apply wpg_bind.
  assert (Hq : forall n1, n1 = n \/ n1 = n <| quorum_contacts := quorum_contacts n ∪ {[f]} |> ->
    wlp (modify (fun n => n <| outgoing_snapshots :=
           <[f := o <| os_offset := no |> <| os_sent_end := None |> <| os_reading := false |>]>
             (outgoing_snapshots n) |>);; send_snapshot_chunk f)
      (fun _ n' es => kept n st es n') n1).
  { intros n1 Hn1. apply wpg_bind, wpg_modify. cbn [app].
    assert (Hf1 : flow n1 st /\ snapshot n1 = snapshot n
                 /\ publishing_snapshot n1 = publishing_snapshot n) by by destruct Hn1 as [->| ->].
    destruct Hf1 as (Hf & Hs1 & Hp1).
    eapply wpg_mono; [apply (send_snapshot_chunk_keeps f _ st)|].
    - eapply (insert_outgoing_flow n1 st f _ _ Hf); cycle 2; [done|done|done| |].
      + rewrite Hs1. exact Hd.
      + cbn. lia.
    - intros a n' es (F & S & P & C). split; [done|].
      split; [etrans; [exact S|exact Hs1]|]. split; [etrans; [exact P|exact Hp1]|].
      intros e He. rewrite <- Hs1. by apply C. }
  apply wpg_when; intros _; [apply wpg_modify|]; cbn [app]; apply Hq; auto.
Qed.
#[local] Hint Resolve install_reply_keeps : keeps.

Lemma chunk_read_keeps to tr d o data : keeps (on_snapshot_chunk_read to tr d o data).
Proof.
  intros n st H. unfold on_snapshot_chunk_read. apply wpg_bind, wpg_get.
  destruct (_ || _); [by apply wpg_ret, kept_nil|].
  destruct (outgoing_snapshots n !! to) as [a|] eqn:Hout; [|by apply wpg_ret, kept_nil].
  destruct (proj1 H to a Hout) as [Hd Hoff].
  destruct (_ || _); [by apply wpg_ret, kept_nil|]. cbv zeta. apply wpg_bind, wpg_modify.
  assert (H1 : forall n1 b, flow n1 st -> snapshot n1 = snapshot n ->
    os_descriptor b = os_descriptor a -> os_offset b = os_offset a ->
    flow (n1 <| outgoing_snapshots := <[to := b]> (outgoing_snapshots n1) |>) st).
  { intros n1 b F1 S1 E1 E2. eapply (insert_outgoing_flow n1 st to b); try done.
    - by rewrite S1, E1.
    - by rewrite E1, E2. }
  cbn [app].
  match goal with |- wpg _ _ _ ?m => set (n1 := m) end.
  assert (H2 : flow n1 st) by by apply (H1 n).
  assert (S1 : snapshot n1 = snapshot n) by done.
  assert (P1 : publishing_snapshot n1 = publishing_snapshot n) by done.
  clearbody n1. destruct (negb _).
  - eapply wpg_mono; [exact (snapshot_reject_keeps _ n1 st H2)|]. unfold kept. by rewrite S1, P1.
  - apply wpg_bind. unfold add_u64. apply wpg_expect; [|done]. intros end_ _.
    apply wpg_bind, wpg_modify, wpg_emit. cbn [app].
    split; [|split; [done|split; [done|]]].
    + by apply (H1 n1).
    + by intros e ->%list_elem_of_singleton.
Qed.
#[local] Hint Resolve chunk_read_keeps : keeps.

(** ** A chunk is received *)

Section received.
(** What is known of the chunks that arrive. *)
Context (G : SnapshotDescriptor -> N -> list N -> Prop).

(** A batch without a publication: nothing but what is answered at once, then
    at most one chunk to stage for the transfer in progress. *)
Inductive received (n : RaftNode) (st : Stage) (n' : RaftNode) : list Effect -> Prop :=
| received_calm es : kept n st es n' -> received n st n' es
| received_stage es a o data dn :
    kept n st es n' -> all no_log_write es -> incoming_snapshot n' = Some a ->
    o <= is_next_offset a \/ snapshot n' = Some (is_descriptor a) -> G (is_descriptor a) o data ->
    received n st n' (es ++ [StageSnapshotChunk (is_transfer a) (is_descriptor a) o data dn]).

Lemma received_after n st es1 n1 es2 n2 :
  kept n st es1 n1 -> all no_log_write es1 -> received n1 (stage_run st es1) n2 es2 ->
  received n st n2 (es1 ++ es2).
Proof.
  intros K1 H1 [es K2|es a o data dn K2 H2 Ha Ho HG].
  - apply received_calm. by eapply kept_seq.
  - rewrite app_assoc. apply received_stage; try done; [by eapply kept_seq|by rewrite all_app].
Qed.

Lemma kept_received {A} (m : Raft A) n st :
  keeps m -> flow n st -> wlp m (fun _ n' es => received n st n' es) n.
Proof.
  intros Hm Hf. eapply wpg_mono; [exact (Hm n st Hf)|]. intros a n' es. apply received_calm.
Qed.

(** The receiver accepts a chunk: what it then asks to stage. *)
Lemma accept_chunk_received n st transfer d o data dn round a :
  flow n st -> incoming_snapshot n = Some a -> is_transfer a = transfer -> is_descriptor a = d ->
  o <= is_next_offset a \/ snapshot n = Some d -> G d o data ->
  wlp (end_ ← add_u64 o (len64 data);
       modify (fun n => n <| incoming_snapshot :=
                               Some (a <| is_pending := Some (o, end_, round) |>) |>);;
       become_follower;;
       reset_election_deadline;;
       modify (fun n => n <| leader_hint := Some (st_leader_id transfer) |>
                          <| last_leader_contact_ms := Some (now_ms n) |>);;
       emit (StageSnapshotChunk transfer d o data dn))
    (fun _ n' es => received n st n' es) n.
Proof.
  intros Hf Ha <- <- Ho HG. apply wpg_bind. unfold add_u64. apply wpg_expect; [|done].
  intros end_ _. apply wpg_bind, wpg_modify. cbn [app].
  set (a1 := a <| is_pending := _ |>).
  match goal with |- wpg _ _ _ ?m => set (n1 := m) end.
  assert (K1 : kept n st [] n1 /\ incoming_snapshot n1 = Some a1).
  { split; [|done]. destruct Hf as [Hout Hst]. split; [|split; [done|split; [done|apply calm_nil]]].
    split; [exact Hout|]. intros b [= <-]. exact (Hst a Ha). }
  assert (H1 : is_transfer a1 = is_transfer a /\ is_descriptor a1 = is_descriptor a
               /\ is_next_offset a1 = is_next_offset a) by done.
  clearbody a1 n1. destruct K1 as [K1 Ha1], H1 as (<- & E2 & E3). rewrite <- E2, <- E3 in *.
  apply wpg_bind. eapply wpg_mono; [apply wpg_and;
    [exact (become_follower_keeps n1 _ (proj1 K1))|apply (wp_partial _ _ _ (become_follower_safe n1))]|].
  intros [] n2 es2 [K2 [Tr2 H2]].
  assert (Hq2 : all no_log_write es2).
  { destruct (tr_phase _ _ _ _ Tr2) as [_ Hq]. eapply all_impl; [|exact Hq]. by intros []. }
  assert (Ha2 : incoming_snapshot n2 = Some a1) by by subst n2.
  pose proof (kept_seq _ _ _ _ _ _ K1 K2) as K12. clear H2 K1 K2 Tr2. cbn [app] in K12.
  apply wpg_bind. eapply wpg_mono; [apply wpg_and;
    [exact (reset_deadline_keeps n2 _ (proj1 K12))
    |apply (wp_partial _ _ _ (reset_election_deadline_safe n2))]|].
  intros [] n3 es3 [K3 [Tr3 H3]].
  assert (Hq3 : all no_log_write es3).
  { destruct (tr_phase _ _ _ _ Tr3) as [_ Hq]. eapply all_impl; [|exact Hq]. by intros []. }
  assert (Ha3 : incoming_snapshot n3 = Some a1) by by rewrite (st_incoming _ _ H3).
  pose proof (kept_seq _ _ _ _ _ _ K12 K3) as (F3 & S3 & P3 & C3).
  apply wpg_bind, wpg_modify, wpg_emit. cbn [app].
  rewrite !app_assoc. apply received_stage; [|by rewrite all_app|done| |done].
  - split; [exact F3|]. done.
  - destruct Ho as [Ho|Ho]; [by left|right]. transitivity (snapshot n); [exact S3|exact Ho].
Qed.

Lemma install_snapshot_received n st transfer d o data dn round :
  flow n st -> G d o data ->
  wlp (on_install_snapshot transfer d o data dn round) (fun _ n' es => received n st n' es) n.
Proof.
  intros Hf HG. unfold on_install_snapshot. apply wpg_bind, wpg_get. cbv zeta. cbn [app].
  assert (Hrefuse : forall n1 st1, flow n1 st1 ->
    wlp (snapshot_reply transfer 0 false false (last_log_index n) 0)
      (fun _ n' es => received n1 st1 n' es) n1).
  { intros n1 st1. apply kept_received, snapshot_reply_keeps. }
  destruct (_ <? _); [by apply Hrefuse|]. destruct (_ || _); [by apply Hrefuse|].
  destruct (transfer_is_stale _ _ _); [by apply Hrefuse|].
  destruct (is_some_and _ _) eqn:Hsame; cbn [negb when andb].
  - apply wpg_bind, wpg_ret, wpg_bind, wpg_get. cbn [app].
    destruct (incoming_snapshot n) as [a|] eqn:Ha; [|done]. cbn in Hsame. bool_inv. subst.
    apply wpg_bind. apply wpg_expect; [|done]. intros ? [= <-]. cbn [app].
    destruct (_ || _) eqn:Hb; [by apply Hrefuse|]. bool_inv.
    apply accept_chunk_received; try done.
    match goal with H : _ && _ = false |- _ => apply andb_false_iff in H as [H|H] end; bool_inv;
      [by left|by right].
  - destruct (negb (o =? 0) && negb (snapshot n ==? Some d)); [by apply Hrefuse|].
    set (a := mkIncomingSnapshot transfer d 0 None).
    apply wpg_bind, wpg_bind. eapply wpg_mono; [apply wpg_and;
      [exact (cancel_incoming_keeps n st Hf)
      |apply (wp_partial _ _ _ (cancel_incoming_snapshot_safe n))]|].
    intros [] n1 es1 [K1 [Tr1 _]].
    assert (Hq1 : all no_log_write es1).
    { destruct (tr_phase _ _ _ _ Tr1) as [_ Hq]. eapply all_impl; [|exact Hq]. by intros []. }
    apply wpg_modify. rewrite app_nil_r.
    match goal with |- wpg _ _ _ ?m => set (n2 := m) end.
    assert (K2 : kept n st es1 n2 /\ incoming_snapshot n2 = Some a).
    { destruct K1 as (F & S & P & C). split; [|done]. split; [|done].
      split; [exact (proj1 F)|]. intros b [= <-]. cbn. lia. }
    clearbody n2. destruct K2 as [K2 Ha2]. clear K1 Tr1.
    assert (Hr : forall m, wlp m (fun (_ : unit) n' es => received n2 (stage_run st es1) n' es) n2 ->
      wlp m (fun _ n' es => received n st n' (es1 ++ es)) n2).
    { intros m Hm. eapply wpg_mono; [exact Hm|]. intros [] n' es. by apply received_after. }
    apply Hr, wpg_bind, wpg_get, wpg_bind, wpg_expect; [|done]. intros b Hb.
    assert (b = a) as -> by congruence. cbn [app a is_pending is_some orb is_next_offset].
    destruct ((0 <? o) && negb (snapshot n ==? Some d)) eqn:Hlate; [apply Hrefuse, K2|].
    apply accept_chunk_received; try done; [apply K2|].
    apply andb_false_iff in Hlate as [H|H]; bool_inv; [left; cbn; lia|right].
    by rewrite (proj1 (proj2 K2)).
Qed.

Lemma adopt_term_no_log t : only no_log_write (adopt_term t).
Proof.
  unfold adopt_term, become_follower, reject_pending_reads, cancel_incoming_snapshot. only_tac.
Qed.

(** What a message's chunk carries, under its envelopes. *)
Fixpoint carries (m : RaftMessage) : Prop :=
  match m with
  | GroupMessage _ _ inner => carries inner
  | InstallSnapshot _ d o data _ _ => G d o data
  | _ => True
  end.

Lemma unwrap_carries n m m' : unwrap_group_message n m = Some m' -> carries m -> carries m'.
Proof.
  unfold unwrap_group_message. destruct m; try (destruct (eqb _ _); intros [= <-]; done).
  destruct (_ && _); [|done]. by intros [= <-].
Qed.

Lemma dispatch_received n st from msg last :
  flow n st -> carries msg ->
  wlp (dispatch_message from msg last) (fun _ n' es => received n st n' es) n.
Proof.
  intros Hf Hc.
  assert (Hk : (forall t d o data dn r, msg <> InstallSnapshot t d o data dn r) ->
               keeps (dispatch_message from msg last)).
  { intros Hni. destruct msg; try (by edestruct Hni); unfold dispatch_message, on_request_vote,
      on_request_vote_reply, on_read_probe, on_read_probe_reply, on_pre_vote, on_pre_vote_reply;
      keeps_tac. }
  destruct msg; try (apply kept_received; [by apply Hk|done]).
  by apply install_snapshot_received.
Qed.

Lemma on_message_received n st from msg :
  flow n st -> carries msg -> wlp (on_message from msg) (fun _ n' es => received n st n' es) n.
Proof.
  intros Hf Hc. unfold on_message. apply wpg_bind, wpg_get. cbn [app].
  destruct (unwrap_group_message n msg) as [m|] eqn:Hu; [|by apply kept_received; [keeps_tac|]].
  apply unwrap_carries in Hu as Hc'; [|done].
  assert (Hgo : wlp
    (if from =? node_id n then mret tt else
     if negb (message_eligible n from m) then mret tt else
     if message_malformed n from m then mret tt else
     match append_frame m with
     | None => append_reply (message_leader m) false (last_log_index n) 0 None
     | Some last =>
         msg_term ← expect (message_term n m);
         adopt_term msg_term;; dispatch_message from m last
     end) (fun _ n' es => received n st n' es) n).
  { destruct (from =? node_id n); [by apply kept_received; [keeps_tac|]|].
    destruct (negb _); [by apply kept_received; [keeps_tac|]|].
    destruct (message_malformed _ _ _); [by apply kept_received; [keeps_tac|]|].
    destruct (append_frame m) as [last|]; [|by apply kept_received; [keeps_tac|]].
    apply wpg_bind, wpg_expect; [|done]. intros t _. cbn [app]. apply wpg_bind.
    eapply wpg_mono; [apply wpg_and; [exact (adopt_term_keeps t n st Hf)|apply adopt_term_no_log]|].
    intros [] n1 es1 [K1 H1].
    eapply wpg_mono; [by apply (dispatch_received n1 (stage_run st es1)); [apply K1|]|].
    intros [] n2 es2. by apply received_after. }
  destruct m; try exact Hgo.
  apply kept_received; [|done]. unfold on_membership_advertisement. keeps_tac.
Qed.
End received.

(** ** Publications *)

(** A batch that is a request to publish, or one without any. *)
Inductive flowed (G : SnapshotDescriptor -> N -> list N -> Prop) (P : SnapshotDescriptor -> Prop)
    (n : RaftNode) (st : Stage) (n' : RaftNode) : list Effect -> Prop :=
| flowed_received es : received G n st n' es -> flowed G P n st n' es
| flowed_publish p :
    publishing_snapshot n' = Some p -> flow n' st -> snapshot n' = snapshot n ->
    recovery_pending n' = recovery_pending n -> ps_transfer p = None -> P (ps_descriptor p) ->
    flowed G P n st n' [PublishSnapshot (ps_transfer p) (ps_descriptor p) (ps_retained p)].

Lemma kept_flowed {A} G P (m : Raft A) n st :
  keeps m -> flow n st -> wlp m (fun _ n' es => flowed G P n st n' es) n.
Proof.
  intros Hm Hf. eapply wpg_mono; [by apply (kept_received G m n st)|].
  intros a n' es H. by apply flowed_received.
Qed.

Lemma compact_flowed G P n st d :
  flow n st -> P d -> wlp (on_compact d) (fun _ n' es => flowed G P n st n' es) n.
Proof.
  intros Hf Hd. unfold on_compact. apply wpg_bind, wpg_get. cbv zeta. cbn [app].
  destruct (_ || _); [apply kept_flowed; [apply snapshot_reject_keeps|done]|].
  destruct (_ || _); [apply kept_flowed; [apply snapshot_reject_keeps|done]|].
  apply wpg_bind, wpg_modify, wpg_emit. cbn [app].
  apply (flowed_publish G P n st _ (mkPublishingSnapshot None d (retained_suffix n d) 0)); done.
Qed.

(** Inputs that do not answer a snapshot effect. *)
Definition external (i : Input) : bool :=
  match i with
  | SnapshotChunkRead _ _ _ _ _ | SnapshotChunkStaged _ _ _ _ | SnapshotPublished _ _ => false
  | _ => true
  end.

Definition input_carries (G : SnapshotDescriptor -> N -> list N -> Prop)
    (P : SnapshotDescriptor -> Prop) (i : Input) : Prop :=
  match i with Message _ m => carries G m | Compact d => P d | _ => True end.

Lemma handle_flowed G P n st i :
  flow n st -> external i = true -> input_carries G P i ->
  wlp (handle i) (fun _ n' es => flowed G P n st n' es) n.
Proof.
  intros Hf He Hc. destruct i; try done; cbn [handle].
  - apply kept_flowed; [|done]. unfold on_recover. keeps_tac.
  - apply kept_flowed; [|done]. unfold on_membership_change, admit_membership, promotion_check.
    keeps_tac.
  - eapply wpg_mono; [by apply (on_message_received G)|]. intros a n' es. apply flowed_received.
  - apply kept_flowed; [|done]. unfold on_tick, tick_leader. keeps_tac.
  - apply kept_flowed; [|done]. unfold on_client_propose. keeps_tac.
  - apply kept_flowed; [|done]. keeps_tac.
  - apply kept_flowed; [|done]. unfold on_read_index. keeps_tac.
  - apply kept_flowed; [|done]. unfold cancel_read. keeps_tac.
  - by apply compact_flowed.
Qed.

(** ** A chunk was staged *)

Section staged.
Context (transfer : SnapshotTransferId) (d : SnapshotDescriptor) (st : Stage).

(** Forgetting or advancing the transfer whose stage the shell holds. *)
Lemma incoming_kept n a b :
  flow n st -> incoming_snapshot n = Some a -> is_descriptor b = is_descriptor a ->
  is_transfer b = is_transfer a ->
  (is_next_offset b = is_next_offset a
   \/ snapshot n = Some (is_descriptor a) \/ st = Some (is_transfer a, is_descriptor a)) ->
  kept n st [] (n <| incoming_snapshot := Some b |>).
Proof.
  intros [Ho Hs] Ha Hd Ht Hn. split; [|split; [done|split; [done|apply calm_nil]]].
  split; [exact Ho|]. intros b' [= <-] Hpos Hne. rewrite Hd, Ht in *.
  destruct Hn as [Hn|[Hn|Hn]]; [|done|done]. rewrite Hn in Hpos. by apply Hs.
Qed.

Lemma kept_after {A} n es1 n1 (m : Raft A) :
  kept n st es1 n1 -> keeps m -> wlp m (fun _ n' es => kept n st (es1 ++ es) n') n1.
Proof.
  intros K1 Hm. eapply wpg_mono; [exact (Hm n1 _ (proj1 K1))|].
  intros a n' es K2. by eapply kept_seq.
Qed.

(** Publishing is requested alone, and only for a complete stage. *)
Definition staged_flow (complete : bool) (n n' : RaftNode) (es : list Effect) : Prop :=
  kept n st es n'
  \/ exists p, publishing_snapshot n' = Some p /\ flow n' st /\ snapshot n' = snapshot n
       /\ recovery_pending n' = recovery_pending n
       /\ es = [PublishSnapshot (ps_transfer p) (ps_descriptor p) (ps_retained p)]
       /\ complete = true /\ ps_transfer p = Some transfer /\ ps_descriptor p = d
       /\ snapshot n <> Some d.

Lemma finish_staging_flow n no round :
  flow n st ->
  wlp (finish_staging transfer d no round) (fun _ n' es => staged_flow true n n' es) n.
Proof.
  intros Hf. unfold finish_staging. apply wpg_bind, wpg_get. cbv zeta. cbn [app].
  destruct (eqb _ _) eqn:Hs; bool_inv.
  - apply wpg_bind, wpg_modify. cbn [app].
    eapply wpg_mono; [apply (kept_after n []); [|apply snapshot_reply_keeps]|by left].
    split; [|split; [done|split; [done|apply calm_nil]]]. split; [apply Hf|].
    intros b [=].
  - destruct (_ || _).
    + match goal with |- wpg _ ?m _ _ => assert (Hk : keeps m) by keeps_tac end.
      eapply wpg_mono; [exact (Hk n st Hf)|]. by left.
    + apply wpg_bind, wpg_modify, wpg_emit. cbn [app]. right.
      exists (mkPublishingSnapshot (Some transfer) d (retained_suffix n d) round). done.
Qed.

Lemma chunk_staged_flow n o result :
  flow n st ->
  (forall no c, result = Accepted no c -> snapshot n <> Some d -> st = Some (transfer, d)) ->
  wlp (on_snapshot_chunk_staged transfer d o result)
    (fun _ n' es =>
       staged_flow (match result with Accepted _ c => c | Rejected => false end) n n' es) n.
Proof.
  intros Hf Hst. unfold on_snapshot_chunk_staged. apply wpg_bind, wpg_get. cbn [app].
  assert (Hnil : forall c, staged_flow c n n []) by (intros c; left; by apply kept_nil).
  destruct (incoming_snapshot n) as [a|] eqn:Ha; [|by apply wpg_ret].
  destruct (_ || _) eqn:Hb; [by apply wpg_ret|]. bool_inv.
  match goal with H : is_transfer a = _, H' : is_descriptor a = _ |- _ =>
    rename H into Htr, H' into Hde end.
  destruct (is_pending a) as [[[eo ee] round]|]; [|by apply wpg_ret].
  destruct (negb _); [by apply wpg_ret|]. cbv zeta. apply wpg_bind, wpg_modify.
  assert (K1 : kept n st [] (n <| incoming_snapshot := Some (a <| is_pending := None |>) |>)).
  { apply (incoming_kept n a); try done. by left. }
  destruct result as [no complete|]; cbn [app].
  2: { eapply wpg_mono; [apply (kept_after n []); [exact K1|apply snapshot_reply_keeps]|by left]. }
  destruct (_ || _).
  { eapply wpg_mono; [apply (kept_after n []); [exact K1|keeps_tac]|by left]. }
  apply wpg_bind, wpg_modify. cbn [app].
  set (n2 := _ <| incoming_snapshot := Some _ |>) at 1.
  assert (K2 : kept n st [] n2).
  { destruct (decide (snapshot n = Some (is_descriptor a))) as [Hs|Hs].
    - apply (incoming_kept n a); try done. by right; left.
    - apply (incoming_kept n a); try done. right; right.
      rewrite Htr, Hde. eapply Hst; [reflexivity|]. by rewrite <- Hde. }
  assert (R2 : recovery_pending n2 = recovery_pending n) by done.
  clearbody n2. destruct complete; cbn [negb].
  - eapply wpg_mono; [exact (finish_staging_flow n2 no round (proj1 K2))|].
    intros [] n3 es3 [K3|(p & Hp & F & S & R & -> & E)].
    + left. exact (kept_seq n st [] n2 _ _ K2 K3).
    + right. exists p. rewrite <- (proj1 (proj2 K2)), <- R2.
      by do 4 (split; [done|]).
  - eapply wpg_mono; [apply (kept_after n []); [exact K2|apply snapshot_reply_keeps]|by left].
Qed.
End staged.

(** ** A publication was reported *)

Lemma published_flow n p st :
  inv n -> publishing_snapshot n = Some p -> flow (published n p) st.
Proof.
  intros [_ Hpub] Hp. destruct (Hpub p Hp) as (_ & _ & _ & Hcase). split.
  - intros to o H. change ((∅ : gmap NodeId OutgoingSnapshot) !! to = Some o) in H.
    by rewrite lookup_empty in H.
  - intros a Ha Hpos Hne. change (incoming_snapshot n = Some a) in Ha. exfalso.
    destruct (ps_transfer p).
    + destruct Hcase as (_ & _ & _ & _ & _ & b & Hb & Hd). apply Hne.
      change (Some (ps_descriptor p) = Some (is_descriptor a)). congruence.
    + destruct Hcase as (_ & _ & _ & Hb). congruence.
Qed.

(** A received image is announced, a compaction is silent. *)
Definition announced (n : RaftNode) (p : PublishingSnapshot) (es : list Effect) (n' : RaftNode)
  : Prop :=
  match ps_transfer p with
  | Some _ => ApplySnapshot (ps_descriptor p) ∈ es
  | None => es = [] /\ n' = published n p
  end.

(** The published image replaces every transfer, and is the one announced. *)
Lemma published_kept n p st :
  inv n -> publishing_snapshot n = Some p ->
  wlp (on_snapshot_published (ps_transfer p) (ps_descriptor p))
    (fun _ n' es => kept (published n p) st es n' /\ announced n p es n') n.
Proof.
  intros Hi Hp. pose proof (published_flow n p st Hi Hp) as Hf.
  unfold on_snapshot_published. apply wpg_bind, wpg_get. rewrite Hp, !eqb_refl. cbn [negb orb app].
  apply wpg_bind, wpg_modify. fold (published n p). cbn [app].
  assert (Hs : snapshot (published n p) = Some (ps_descriptor p)) by done.
  unfold announced. set (n1 := published n p) in *. clearbody n1.
  destruct (ps_transfer p) as [t|]; [|by apply wpg_ret; split; [apply kept_nil|]].
  set (d := ps_descriptor p) in *. apply wpg_bind.
  assert (K0 : keeps (match sm_membership (metadata d) with
       | Some membership =>
           n ← get;
           when (negb (eqb (hs_membership (hard n)) (Some membership)))
             (modify (fun n => n <| hard := hard n <| hs_membership := Some membership |> |>);;
              n ← get;
              emit (PersistHardState (hard n)))
       | None => mret tt
       end)) by keeps_tac.
  eapply wpg_mono; [exact (K0 n1 st Hf)|]. intros [] n2 es2 K2.
  assert (K3 : keeps (modify (fun n => n <| commit_index := last_included_index (metadata d) |>);;
                      refresh_effective_membership)) by keeps_tac.
  pose proof (kept_after st n1 es2 n2 _ K2 K3) as K23. unfold wpg in K23 |- *.
  unfold mbind, M_bind in *. cbn [modify] in *.
  destruct (refresh_effective_membership _) as [[[[] n4] es4]|]; [|done].
  cbn in K23 |- *. destruct K23 as (F & S & P & C).
  split; [|rewrite app_assoc; apply elem_of_app; right; left].
  split; [|split; [exact S|split; [exact P|]]].
  - split; [exact (proj1 F)|]. intros b [=].
  - intros e. rewrite app_assoc. intros [He|He]%elem_of_app; [by apply C|].
    apply elem_of_cons in He as [->|He]; [exact Hs|].
    by apply list_elem_of_singleton in He as ->.
Qed.

(** ** [step] *)

(** Envelopes only touch what is sent. *)
Definition sends_only (f : Effect -> Effect) : Prop :=
  forall e, f e = e \/ exists to m m', e = Send to m /\ f e = Send to m'.

Lemma wrap_sends n es : exists f, sends_only f /\ wrap_group_effects n es = map f es.
Proof.
  unfold wrap_group_effects. destruct (eqb _ _).
  - exists (fun e => e). split; [by left|]. by rewrite map_id.
  - eexists. split; [|reflexivity]. intros e. destruct e; try by left.
    cbn. destruct (is_group_message msg); [by left|]. right. eauto.
Qed.

Section sends_only.
Context (f : Effect -> Effect) (Hf : sends_only f).

Lemma all_sends p es : (forall to m m', p (Send to m) = p (Send to m')) -> all p es -> all p (map f es).
Proof.
  intros Hp H. induction es as [|e es IH]; cbn [map]; [done|]. rewrite all_cons in *.
  destruct H as [He H]. split; [|by apply IH].
  destruct (Hf e) as [->|(to & m & m' & -> & ->)]; [done|]. by rewrite (Hp to m' m).
Qed.
Lemma stage_run_sends st es : stage_run st (map f es) = stage_run st es.
Proof.
  unfold stage_run. revert st. induction es as [|e es IH]; intros st; [done|]. cbn.
  rewrite IH. by destruct (Hf e) as [->|(to & m & m' & -> & ->)].
Qed.
Lemma calm_sends sn es : (forall e, e ∈ es -> calm sn e) -> forall e, e ∈ map f es -> calm sn e.
Proof.
  intros H e He. rewrite list_elem_of_In in He. apply in_map_iff in He as (x & <- & Hx).
  rewrite <- list_elem_of_In in Hx. apply H in Hx.
  by destruct (Hf x) as [->|(to & m & m' & -> & ->)].
Qed.
Lemma kept_sends n st es n' : kept n st es n' -> kept n st (map f es) n'.
Proof.
  intros (F & S & P & C). unfold kept. rewrite stage_run_sends.
  repeat (split; [done|]). by apply calm_sends.
Qed.
Lemma not_send e : (forall to m, e <> Send to m) -> f e = e.
Proof. intros H. destruct (Hf e) as [->|(to & m & m' & -> & _)]; [done|]. by destruct (H to m). Qed.
End sends_only.

Lemma flowed_sends G P n st n' es f :
  sends_only f -> flowed G P n st n' es -> flowed G P n st n' (map f es).
Proof.
  intros Hf [es0 [es1 K|es1 a o data dn K Hl Ha Ho HG]|p Hp F S R Ht HP].
  - apply flowed_received, received_calm. by apply kept_sends.
  - rewrite map_app. cbn [map]. rewrite (not_send f Hf) by done.
    apply flowed_received, received_stage; try done; [by apply kept_sends|].
    by apply all_sends.
  - cbn [map]. rewrite (not_send f Hf) by done. by apply flowed_publish.
Qed.

(** What [step] runs. *)
Lemma step_cases n i n' es :
  step n i = Some (n', es) ->
  (n' = n /\ es = [] /\ recovery_pending n = true)
  \/ exists es0 f, handle i n = Some (tt, n', es0) /\ sends_only f /\ es = map f es0
       /\ (recovery_pending n = false \/ i = Recover).
Proof.
  unfold step. destruct (recovery_pending n) eqn:Hr; cbn [andb].
  - destruct (is_recover i) eqn:Hi; cbn [negb].
    + assert (i = Recover) by by destruct i.
      destruct (handle i n) as [[[[] n1] es1]|]; [|done]. cbn. intros [= <- <-]. right.
      destruct (wrap_sends n1 es1) as (f & Hf & ->). exists es1, f. auto.
    + intros [= <- <-]. by left.
  - destruct (handle i n) as [[[[] n1] es1]|]; [|done]. cbn. intros [= <- <-]. right.
    destruct (wrap_sends n1 es1) as (f & Hf & ->). exists es1, f. auto.
Qed.

Lemma step_flowed G P n st i n' es :
  flow n st -> external i = true -> input_carries G P i -> step n i = Some (n', es) ->
  flowed G P n st n' es.
Proof.
  intros Hfl He Hc [(-> & -> & _)|(es0 & f & Hh & Hf & -> & Hrec)]%step_cases.
  - by apply flowed_received, received_calm, kept_nil.
  - apply flowed_sends; [done|]. exact (wlp_run _ _ _ _ _ _ (handle_flowed G P n st i Hfl He Hc) Hh).
Qed.

Lemma received_publishing G n st n' es :
  received G n st n' es -> publishing_snapshot n' = publishing_snapshot n.
Proof. by intros [es0 K|es0 a o data dn K]; apply K. Qed.

(** Only a node that has recovered asks to publish. *)
Lemma step_recovered G P n st i n' es p :
  flow n st -> external i = true -> input_carries G P i -> step n i = Some (n', es) ->
  publishing_snapshot n = None -> publishing_snapshot n' = Some p -> recovery_pending n' = false.
Proof.
  intros Hfl He Hc Hrun Hp Hp'.
  pose proof (step_flowed G P n st i n' es Hfl He Hc Hrun) as Hfd.
  apply step_cases in Hrun as [(-> & _ & _)|(es0 & f & Hh & _ & _ & [Hrec| ->])]; [congruence| |].
  - destruct Hfd as [es1 Hr|p' _ _ _ R _ _]; [|congruence].
    apply received_publishing in Hr. congruence.
  - assert (K : keeps on_recover) by (unfold on_recover; keeps_tac).
    pose proof (wlp_run _ _ _ _ _ _ (K n st Hfl) Hh) as (_ & _ & Hpn & _). congruence.
Qed.

Lemma step_staged n st transfer d o result n' es :
  flow n st ->
  (forall no c, result = Accepted no c -> snapshot n <> Some d -> st = Some (transfer, d)) ->
  step n (SnapshotChunkStaged transfer d o result) = Some (n', es) ->
  staged_flow transfer d st (match result with Accepted _ c => c | Rejected => false end) n n' es.
Proof.
  intros Hfl Hst [(-> & -> & _)|(es0 & f & Hh & Hf & -> & Hrec)]%step_cases.
  - left. by apply kept_nil.
  - pose proof (wlp_run _ _ _ _ _ _ (chunk_staged_flow transfer d st n o result Hfl Hst) Hh) as H.
    destruct H as [K|(p & H1 & H2 & H3 & H4 & -> & H)]; [left; by apply kept_sends|right].
    exists p. cbn [map]. rewrite (not_send f Hf) by done. by do 4 (split; [done|]).
Qed.

Lemma step_published n p st n' es :
  inv n -> publishing_snapshot n = Some p -> recovery_pending n = false ->
  step n (SnapshotPublished (ps_transfer p) (ps_descriptor p)) = Some (n', es) ->
  kept (published n p) st es n' /\ announced n p es n'.
Proof.
  intros Hi Hp Hr [(_ & _ & H)|(es0 & f & Hh & Hf & -> & Hrec)]%step_cases; [congruence|].
  destruct (wlp_run _ _ _ _ _ _ (published_kept n p st Hi Hp) Hh) as [K Ha].
  split; [by apply kept_sends|]. unfold announced in *.
  destruct (ps_transfer p); [|destruct Ha as [-> Ha]; auto].
  rewrite list_elem_of_In in *. apply in_map_iff. eexists. split; [|exact Ha].
  by apply not_send.
Qed.

(** A chunk that was read is sent or refused, and nothing else moves. *)
Definition reply_only (e : Effect) : bool :=
  match e with Send _ _ | SnapshotRejected _ => true | _ => false end.

Lemma step_chunk_read n st to transfer d o data :
  flow n st ->
  exists n' es, step n (SnapshotChunkRead to transfer d o data) = Some (n', es)
    /\ still n n' /\ flow n' st /\ all reply_only es.
Proof.
  intros Hfl. unfold step. destruct (_ && _).
  { exists n, []. split; [done|]. split; [reflexivity|]. split; [done|apply all_nil]. }
  cbn [handle]. set (m := on_snapshot_chunk_read to transfer d o data).
  assert (Hm : wlp m (fun _ n' es => kept n st es n' /\ all reply_only es) n).
  { apply wpg_and; [by apply chunk_read_keeps|]. revert n Hfl. intros n _.
    assert (H : only reply_only m) by (unfold m, on_snapshot_chunk_read, snapshot_reject; only_tac).
    apply H. }
  destruct (wp_run _ _ _ (on_snapshot_chunk_read_sends n to transfer d o data))
    as ([] & n' & es & Hrun & _ & Hst). fold m in Hrun.
  destruct (wlp_run _ _ _ _ _ _ Hm Hrun) as [(F & _) Hes]. rewrite Hrun. cbn.
  destruct (wrap_sends n' es) as (f & Hf & ->). exists n', (map f es).
  split; [done|]. split; [done|]. split; [|by apply all_sends].
  assert (stage_run st es = st) as <-; [|done].
  apply simple_run. eapply all_impl; [|exact Hes]. by intros [].
Qed.
