(* ===== verification/Recovery.v ===== *)
(** * Construction and recovery establish the invariant

    [RaftNode::new], [new_for_group] and [restore_with_snapshot] produce nodes
    that satisfy the invariant every step preserves. *)
From S2P Require Import Prelude Rng Quorum Membership Types Node MembershipProtocol.
From S2P Require Import SnapshotTransfer Replication Election Step LogFacts MembershipFacts.
From S2P Require Import Effects Invariant History CommitPath SendPath LeaderPath SnapshotPath.
Local Open Scope N_scope.
Local Open Scope raft_scope.

(** A node that has not served anything yet. *)
Record booted (n : RaftNode) : Prop := {
  bo_role : role n = Follower;
  bo_reads : pending_reads n = ∅;
  bo_incoming : incoming_snapshot n = None;
  bo_publishing : publishing_snapshot n = None;
  bo_context : read_context n = 0;
}.

Lemma booted_inv n : booted n -> core_ok n -> effective_ok n -> inv n.
Proof.
  intros [Hr Hp Hi Hu Hx] Hc He. split; [split|].
  - split; [done|done|]. split.
    + by rewrite Hr.
    + done.
    + intros a Ha. congruence.
    + rewrite Hx. lia.
  - unfold solo, is_leader. by rewrite Hr.
  - intros p Hpub. congruence.
Qed.

Lemma booted_peers n : booted n -> booted (update_replication_peers_of n).
Proof.
  intros []. unfold update_replication_peers_of. cbn. rewrite bo_role0. by split.
Qed.

Lemma peers_effective n : effective_ok n -> effective_ok (update_replication_peers_of n).
Proof. intros H. eapply eff_frame; [apply peers_frame|apply peers_fields|done]. Qed.

(** ** A fresh node *)

(** With nothing in its log, whatever its genesis. *)
Lemma empty_node_ok n :
  log n = [] -> snapshot n = None -> commit_index n = 0 -> last_applied n = 0 ->
  is_genesis (genesis_membership n) -> effective_membership n = cm_state (genesis_membership n) ->
  committed_membership n = genesis_membership n -> core_ok n /\ effective_ok n.
Proof.
  intros Hl Hs Hci Hla Hg He Hm.
  assert (Hsi : snapshot_index n = 0 /\ snapshot_term n = 0 /\ membership_base n = genesis_membership n).
  { unfold snapshot_index, snapshot_term, membership_base. by rewrite Hs. }
  destruct Hsi as (Hsi & Hst & Hb). destruct (genesis_bounds _ Hg) as [Hgi Hgt].
  split.
  - split; rewrite ?Hsi, ?Hst, ?Hb, ?Hl, ?Hci, ?Hla, ?Hgi, ?Hgt, ?Hm; unfold len64; cbn; try lia.
    + unfold node_log_ok. by rewrite Hl.
    + done.
    + constructor.
    + eauto.
    + intros d. by rewrite Hs.
    + by rewrite take_nil.
  - exists (genesis_membership n). by rewrite Hb, Hl.
Qed.

Lemma new_booted id ps seed n : RaftNode_new id ps seed = Some n ->
  booted n /\ log n = [] /\ snapshot n = None /\ commit_index n = 0 /\ last_applied n = 0
  /\ is_genesis (genesis_membership n) /\ effective_membership n = cm_state (genesis_membership n)
  /\ hard n = HardState_default /\ node_id n = id /\ peers n = ps
  /\ now_ms n = 0 /\ election_deadline_ms n = 0 /\ recovery_pending n = false
  /\ ms_group_id (cm_state (genesis_membership n)) = LEGACY_GROUP_ID.
Proof.
  unfold RaftNode_new. destruct (_ || _); [done|].
  destruct (cm_bootstrap _) as [g|] eqn:Hg; [|done]. intros [= <-].
  assert (is_genesis g) by (by eapply (bootstrap_is_genesis LEGACY_GROUP_ID)).
  destruct (bootstrap_inv LEGACY_GROUP_ID _ _ Hg) as (_ & _ & _ & ? & _). done.
Qed.

Lemma new_inv id ps seed n : RaftNode_new id ps seed = Some n -> inv n.
Proof.
  intros (Hb & Hl & Hs & Hci & Hla & Hg & He & Hh & _)%new_booted.
  destruct (empty_node_ok n) as [Hc Heff]; try done.
  { unfold committed_membership. by rewrite Hh. }
  by apply booted_inv.
Qed.

(** ** Bootstrapping an explicit group *)

Lemma bootstrap_genesis gid vs n n' es :
  booted n -> log n = [] -> snapshot n = None -> commit_index n = 0 -> last_applied n = 0 ->
  hs_membership (hard n) = None -> initialize_group n gid vs = Ok (n', es) ->
  inv n' /\ es = [PersistHardState (hard n')] /\ exec es (durable n) = durable n'
  /\ ms_group_id (cm_state (committed_membership n')) = gid
  /\ ms_genesis_voters (cm_state (committed_membership n')) = vs.
Proof.
  intros Hb Hl Hs Hci Hla Hm. unfold initialize_group. intros H. result_inv.
  rewrite Hm in *. result_inv.
  match goal with Hbs : cm_bootstrap_with_group gid vs = Ok ?g |- _ =>
    pose proof (bootstrap_is_genesis _ _ _ Hbs) as Hg;
    destruct (bootstrap_inv _ _ _ Hbs) as (_ & _ & _ & Hgid & Hvs & _);
    set (n0 := n <| genesis_membership := g |> <| hard := hard n <| hs_membership := Some g |> |>
                 <| effective_membership := cm_state g |>) in * end.
  subst n' es.
  destruct (empty_node_ok n0) as [Hc He]; try done.
  pose proof (peers_frame n0) as Hf. split; [|split; [done|]].
  { apply booted_inv.
    - apply booted_peers. destruct Hb. by split.
    - by eapply core_frame.
    - by apply peers_effective. }
  unfold committed_membership, durable. rewrite (fr_hard _ _ Hf), (fr_log _ _ Hf), (fr_snap _ _ Hf).
  by subst n0.
Qed.

Lemma new_for_group_inv id vs seed gid n es :
  new_for_group id vs seed gid = Some (Ok (n, es)) ->
  inv n /\ es = [PersistHardState (hard n)]
  /\ exec es (mkDisk HardState_default [] None) = durable n /\ node_id n = id
  /\ ms_group_id (cm_state (committed_membership n)) = gid
  /\ ms_genesis_voters (cm_state (committed_membership n)) = vs.
Proof.
  unfold new_for_group. destruct (cm_bootstrap_with_group gid vs); [|done].
  destruct (RaftNode_new _ _ _) as [n0|] eqn:Hnew; [|done]. cbn. intros [= Hi].
  apply new_booted in Hnew as (Hb & Hl & Hs & Hci & Hla & Hg & He & Hh & Hid & _).
  pose proof Hi as Hi'. apply bootstrap_genesis in Hi' as (Hinv & Hes & Hex & Hgid & Hvs);
    [|done..|by rewrite Hh].
  unfold durable in Hex at 1. rewrite Hh, Hl, Hs in Hex. split; [done|]. split; [done|].
  split; [done|]. split; [|done].
  unfold initialize_group in Hi. result_inv. rewrite Hh in *. cbn in *. result_inv. subst n.
  match goal with |- node_id (update_replication_peers_of ?m) = _ =>
    rewrite (fr_id _ _ (peers_frame m)) end. done.
Qed.

(** ** Recovery *)

Lemma check_log_bound cur base offset prev entries :
  base + offset <= u64_max -> check_log cur base offset prev entries = inr tt ->
  base + offset + len64 entries <= u64_max.
Proof.
  revert offset prev. induction entries as [|e l IH]; intros offset prev Hb; cbn.
  { unfold len64. cbn. lia. }
  destruct (checked_add base offset) as [v|] eqn:Hv; cbn; [|done].
  destruct (checked_add v 1) as [w|] eqn:Hw; cbn; [|done].
  apply checked_add_Some in Hv as [-> _], Hw as [-> Hw].
  destruct (negb _); [done|]. destruct (_ <? _); [done|]. destruct (_ <? _); [done|].
  intros H. apply IH in H; [|lia]. unfold len64 in *. cbn [length]. lia.
Qed.

(** A history at index 0 is its genesis. *)
Lemma history_zero g c : is_genesis g -> history g c -> cm_index c = 0 -> c = g.
Proof.
  intros _ [|c0 i t e c' Hc Ha] Hz; [done|]. exfalso.
  apply advanced_ok in Ha as (? & _ & _ & _ & ? & _). lia.
Qed.

Definition recovered_base (image : option SnapshotDescriptor) (g : CommittedMembership)
  : CommittedMembership :=
  default g (image ≫= (fun i => sm_membership (metadata i))).

(** The configuration recovery settles on, and its genesis. *)
Record recovered (hs : HardState) (image : option SnapshotDescriptor) (entries : list Entry)
    (g : CommittedMembership) (r : MembershipRecovery) : Prop := {
  rc_genesis : is_genesis g;
  rc_base : history g (recovered_base image g);
  rc_voters : forall d, image = Some d -> image_voters g d;
  rc_commit : mr_commit_index r
    = N.max (map_or image 0 (fun i => last_included_index (metadata i))) (cm_index (mr_committed r));
  rc_replay : replay (recovered_base image g) entries (mr_commit_index r) = Ok (mr_committed r);
  rc_effective : effective_after (mr_committed r) entries (mr_commit_index r)
                 = Ok (mr_effective r);
  rc_hard : default g (if mr_refresh_hard r then Some (mr_committed r) else hs_membership hs)
            = mr_committed r;
}.

Lemma check_authority_ok hs a :
  check_authority hs (Some a) = Ok tt -> cm_validate a = Ok tt /\ cm_term a <= current_term hs.
Proof. cbn. intros H. result_inv. bool_inv. by destruct x. Qed.

(** The identity of the recovered authority names one genesis. *)
Lemma recovered_genesis hs image legacy g :
  check_authority hs (hs_membership hs) = Ok tt ->
  check_authority hs (image ≫= (fun i => sm_membership (metadata i))) = Ok tt ->
  (match (match image ≫= (fun i => sm_membership (metadata i)) with
          | Some m => Some m | None => hs_membership hs end) with
   | Some state => cm_bootstrap_with_group (ms_group_id (cm_state state))
                     (ms_genesis_voters (cm_state state))
   | None => cm_bootstrap legacy
   end) = Ok g ->
  is_genesis g /\ history g (recovered_base image g).
Proof.
  intros Hh Hs Hg. unfold recovered_base.
  assert (Hgen : is_genesis g).
  { destruct (image ≫= _) as [m|]; [by eapply bootstrap_is_genesis|].
    destruct (hs_membership hs); [by eapply bootstrap_is_genesis|].
    by eapply (bootstrap_is_genesis LEGACY_GROUP_ID). }
  split; [done|]. destruct (image ≫= _) as [m|]; cbn; [|constructor].
  apply check_authority_ok in Hs as [Hv _].
  apply cm_validate_history in Hv as (g' & Hg' & Hh'). congruence.
Qed.

(** Which hard state a restart keeps. *)
Lemma recovered_hard hs g selected :
  is_genesis g -> history g selected ->
  (forall hm, hs_membership hs = Some hm -> history g hm) ->
  default g (if negb (eqb (hs_membership hs) (Some selected))
                && (negb (eqb (ms_group_id (cm_state selected)) LEGACY_GROUP_ID)
                    || negb (cm_index selected =? 0))
             then Some selected else hs_membership hs) = selected.
Proof.
  intros Hg Hsel Hhm. destruct (eqb (hs_membership hs) (Some selected)) eqn:E1; bool_inv; cbn.
  { by rewrite E1. }
  destruct (_ || _) eqn:E2; [done|]. bool_inv.
  assert (selected = g) as -> by (by apply history_zero).
  destruct (hs_membership hs) as [hm|] eqn:Hh; [|done]. cbn.
  eapply (history_legacy g hm); [done|done|]. by apply Hhm.
Qed.

Lemma recover_membership_ok hs image entries legacy r :
  recover_membership hs image entries legacy = Ok r ->
  exists g, recovered hs image entries g r.
Proof.
  unfold recover_membership. cbv zeta. intros H.
  apply Result_bind_Ok in H as ([] & Hah & H).
  apply Result_bind_Ok in H as ([] & Has & H).
  apply Result_bind_Ok in H as (g & Hg & H).
  apply Result_bind_Ok in H as (? & Hvs & H).
  destruct (recovered_genesis _ _ _ _ Hah Has Hg) as [Hgen Hbase].
  fold (recovered_base image g) in H.
  apply Result_bind_Ok in H as (selected & Hsel & H).
  apply Result_bind_Ok in H as (verified & Hver & H). result_inv. bool_inv. subst verified r.
  assert (Hhist : history g selected) by (eapply replay_all_history; [exact Hbase|exact Hver]).
  exists g. split; cbn; try done.
  { intros d -> Hnone. cbn in Hvs. rewrite Hnone in Hvs. cbn in Hvs. result_inv. by bool_inv. }
  apply recovered_hard; [done|done|].
  intros hm Hhm. rewrite Hhm in *. apply check_authority_ok in Hah as [Hval _].
  destruct (history_inv _ _ Hgen Hbase) as (_ & B1 & B2).
  assert (ms_group_id (cm_state hm) = ms_group_id (cm_state (recovered_base image g))
    /\ ms_genesis_voters (cm_state hm) = ms_genesis_voters (cm_state (recovered_base image g)))
    as [E1 E2].
  { destruct (is_consistent_extension_of _ hm) eqn:X1.
    - by apply extension_ok in X1 as (_ & _ & -> & -> & _).
    - destruct (is_consistent_extension_of hm _) eqn:X2; [|done].
      by apply extension_ok in X2 as (_ & _ & -> & -> & _). }
  apply validate_same_genesis; [done|done|congruence..].
Qed.

(** The node a restart rebuilds, before its peer table. *)
Section restored.
Context (n0 : RaftNode) (hs : HardState) (image : option SnapshotDescriptor).
Context (entries : list Entry) (g : CommittedMembership) (mr : MembershipRecovery).
Context (Hrec : recovered hs image entries g mr).
Context (Himg : check_image hs image = inr tt).
Context (Hmax : forall d, image = Some d -> last_included_index (metadata d) <= u64_max).

Local Abbreviation si := (map_or image 0 (fun d => last_included_index (metadata d))).
Local Abbreviation st := (map_or image 0 (fun d => last_included_term (metadata d))).
Context (Hlog : check_log (current_term hs) si 0 st entries = inr tt).

Definition rebuilt : RaftNode :=
  n0 <| snapshot := image |> <| genesis_membership := g |>
     <| hard := if mr_refresh_hard mr then hs <| hs_membership := Some (mr_committed mr) |>
                else hs |>
     <| effective_membership := mr_effective mr |> <| log := entries |>
     <| commit_index := mr_commit_index mr |> <| last_applied := si |>
     <| recovery_refresh_hard := mr_refresh_hard mr |>
     <| recovery_pending := mr_refresh_hard mr || (si <? mr_commit_index mr) |>.

Lemma rebuilt_si : si <= u64_max.
Proof. destruct image as [d|]; cbn; [by apply Hmax|lia]. Qed.
Lemma rebuilt_len : si + len64 entries <= u64_max.
Proof.
  pose proof rebuilt_si. pose proof (check_log_bound _ si 0 st entries ltac:(lia) Hlog). lia.
Qed.
Lemma rebuilt_log : log_ok si st (current_term hs) entries.
Proof.
  pose proof rebuilt_len. pose proof Hlog as H1. apply check_log_ok in H1; [|lia].
  by rewrite N.add_0_r in H1.
Qed.
Lemma rebuilt_term : current_term (hard rebuilt) = current_term hs
  /\ voted_for (hard rebuilt) = voted_for hs.
Proof. cbn. by destruct (mr_refresh_hard mr). Qed.
Lemma rebuilt_image : st <= current_term hs
  /\ cm_index (recovered_base image g) <= si /\ cm_term (recovered_base image g) <= st.
Proof.
  destruct (genesis_bounds _ (rc_genesis _ _ _ _ _ Hrec)) as [Hgi Hgt].
  unfold recovered_base. destruct image as [d|]; cbn in *; [|lia].
  destruct (descriptor_validate d) as [[]|] eqn:Hd; [|done].
  destruct (N.ltb_spec (current_term hs) (last_included_term (metadata d))); [done|].
  split; [done|]. destruct (sm_membership (metadata d)) as [m|] eqn:Hm; cbn; [|lia].
  by apply descriptor_membership_bounds.
Qed.

Local Abbreviation ci := (mr_commit_index mr).
Lemma rebuilt_replay : replay_all (recovered_base image g) (take (N.to_nat (ci - si)) entries)
  = Ok (mr_committed mr).
Proof.
  pose proof (rc_replay _ _ _ _ _ Hrec) as H. unfold replay in H.
  rewrite (log_ok_filter_le _ _ _ _ _ rebuilt_log) in H; [done|].
  rewrite (rc_commit _ _ _ _ _ Hrec). lia.
Qed.
Lemma rebuilt_commit : si <= ci <= si + len64 entries.
Proof.
  pose proof rebuilt_replay as H. destruct rebuilt_image as (_ & Hbi & Hbt).
  pose proof (replay_all_bounds _ _ _ _ _ _ (log_ok_take _ _ _ _ _ rebuilt_log) Hbi Hbt H)
    as [Hi _].
  rewrite (rc_commit _ _ _ _ _ Hrec). split; [lia|]. apply N.max_lub; [lia|].
  etrans; [exact Hi|]. unfold len64. rewrite length_take. lia.
Qed.
Lemma rebuilt_effective : exists c,
  replay_all (recovered_base image g) entries = Ok c /\ mr_effective mr = cm_state c.
Proof.
  pose proof (rc_effective _ _ _ _ _ Hrec) as H. unfold effective_after, replay in H.
  rewrite (log_ok_filter_gt _ _ _ _ _ rebuilt_log) in H by apply rebuilt_commit.
  rewrite list_filter_all in H.
  2: { intros e [k Hk]%list_elem_of_lookup_1. rewrite lookup_drop in Hk.
       pose proof (log_ok_lookup _ _ _ _ _ _ rebuilt_log Hk) as [-> _].
       apply lookup_lt_Some in Hk. pose proof rebuilt_len. unfold len64 in *. lia. }
  apply Result_bind_Ok in H as (c & Hc & H). injection H as H. exists c. split; [|done].
  rewrite <- (take_drop (N.to_nat (ci - si)) entries), replay_all_app, rebuilt_replay. done.
Qed.

Lemma rebuilt_core : core_ok rebuilt /\ effective_ok rebuilt.
Proof.
  destruct rebuilt_image as (Hst & Hbi & Hbt). destruct rebuilt_effective as (c & Hr & He).
  assert (Hb : membership_base rebuilt = recovered_base image g) by done.
  assert (Hcm : committed_membership rebuilt = mr_committed mr).
  { rewrite <- (rc_hard _ _ _ _ _ Hrec). unfold committed_membership, rebuilt. cbn.
    by destruct (mr_refresh_hard mr). }
  destruct rebuilt_term as [Ht _]. pose proof rebuilt_commit as Hc.
  split; [|by exists c]. split; rewrite ?Hb.
  - unfold node_log_ok. rewrite Ht. apply rebuilt_log.
  - rewrite Ht. exact Hst.
  - apply rebuilt_len.
  - change (si <= si). lia.
  - change (si <= ci). lia.
  - change (ci <= si + len64 entries). lia.
  - apply Hrec.
  - apply Hrec.
  - exact Hbi.
  - exact Hbt.
  - eauto.
  - intros d Hd. change (image = Some d) in Hd. split; [|by apply (rc_voters _ _ _ _ _ Hrec)].
    rewrite Hd in Himg. cbn in Himg. by destruct (descriptor_validate d) as [[]|].
  - rewrite Hcm. apply rebuilt_replay.
Qed.
End restored.

(** ** A restart always succeeds *)

(** Entries above [i] either leave a configuration alone or move it above [i]. *)
Lemma replay_above c l c' i :
  (forall e, e ∈ l -> i < e_index e) -> replay_all c l = Ok c' -> c' = c \/ i < cm_index c'.
Proof.
  revert c. induction l as [|e l IH]; intros c Hl; cbn; intros H; result_inv; [by left|].
  assert (Hl' : forall y, y ∈ l -> i < e_index y) by (intros y Hy; apply Hl; by right).
  match goal with He : replay_entry c e = Ok ?x |- _ => destruct (IH x Hl') as [->|?]; auto;
    unfold replay_entry in He; destruct (e_command e); try (injection He as ->; by left);
    right; apply advanced_ok in He as (_ & _ & _ & _ & -> & _) end.
  apply Hl. left.
Qed.

(** Past its last configuration entry a prefix replays to the same result. *)
Lemma replay_stable base prev cur b l k c i :
  log_ok base prev cur l -> replay_all b (take k l) = Ok c -> cm_index c <= i ->
  base <= i -> (N.to_nat (i - base) <= k)%nat ->
  replay_all b (take (N.to_nat (i - base)) l) = Ok c.
Proof.
  intros Hl Hr Hc Hb Hk. set (j := N.to_nat (i - base)) in *.
  rewrite <- (take_drop j (take k l)) in Hr. rewrite take_take, Nat.min_l in Hr by done.
  rewrite replay_all_app in Hr. apply Result_bind_Ok in Hr as (c1 & H1 & H2). rewrite H1. f_equal.
  destruct (replay_above c1 (drop j (take k l)) c i) as [->|?]; [|done|done|lia].
  intros e [x Hx]%list_elem_of_lookup_1. rewrite lookup_drop in Hx.
  apply lookup_take_Some in Hx as [Hx _].
  apply (log_ok_lookup _ _ _ _ _ _ Hl) in Hx as [-> _]. subst j. lia.
Qed.

Section restart.
Context (n : RaftNode) (Hinv : inv n).

Lemma restart_core : core_ok n.
Proof. apply Hinv. Qed.

Local Abbreviation base := (membership_base n).
Local Abbreviation selected := (committed_membership n).
Local Abbreviation commit' := (N.max (snapshot_index n) (cm_index selected)).

Lemma restart_replay i : cm_index selected <= i -> snapshot_index n <= i <= commit_index n ->
  replay base (log n) i = Ok selected.
Proof.
  pose proof restart_core as Hc. intros H1 H2. unfold replay.
  rewrite (log_ok_filter_le _ _ _ _ _ (wf_log _ Hc)) by lia.
  eapply replay_stable; [apply Hc|apply (wf_committed _ Hc)|done|lia|].
  unfold log_pos. lia.
Qed.

Lemma restart_commit : snapshot_index n <= commit' <= commit_index n.
Proof.
  pose proof restart_core as Hc. destruct (committed_bounds _ Hc) as (_ & Hi & _).
  pose proof (wf_sa _ Hc). pose proof (wf_ac _ Hc). lia.
Qed.

Lemma restart_reach : history base selected.
Proof. eapply replay_all_reach, (wf_committed _ restart_core). Qed.

(** The base either is the watermark or lies strictly before it. *)
Lemma restart_base : base = selected \/ cm_index base < cm_index selected.
Proof.
  destruct restart_reach as [|c i t e c' Hh Ha]; [by left|right].
  apply history_mono in Hh as [? _]. apply advanced_ok in Ha as (? & _ & _ & _ & -> & _). lia.
Qed.

Lemma restart_selected hm : hs_membership (hard n) = Some hm ->
  (if is_consistent_extension_of base hm then Ok base
   else if is_consistent_extension_of hm base then
     if map_or (list.last (log n)) (snapshot_index n) e_index <? cm_index hm
     then Err "membership watermark lacks selected log suffix" else
     reconstructed ← replay base (log n) (cm_index hm);
     if negb (eqb reconstructed hm)
     then Err "membership watermark contradicts selected snapshot or WAL" else Ok hm
   else Err "durable membership histories contradict") = Ok selected.
Proof.
  pose proof restart_core as Hc. intros Hhm.
  assert (hm = selected) as -> by (unfold committed_membership; by rewrite Hhm).
  destruct (is_consistent_extension_of base selected) eqn:Hx.
  { apply extension_ok in Hx as (_ & _ & _ & _ & ? & _).
    destruct restart_base as [->|?]; [done|lia]. }
  rewrite (extension_complete (genesis_membership n));
    [|apply Hc|apply Hc|apply restart_reach].
  destruct (committed_bounds _ Hc) as (_ & Hi & _).
  fold (last_log_index n). rewrite (last_index_eq _ Hc). pose proof (wf_cl _ Hc).
  destruct (N.ltb_spec (snapshot_index n + len64 (log n)) (cm_index selected)); [lia|].
  assert (snapshot_index n <= cm_index selected) as Hs.
  { destruct (N.le_gt_cases (snapshot_index n) (cm_index selected)) as [|Hlt]; [done|].
    exfalso. destruct (replay_above _ _ _ (snapshot_index n) ltac:(
      intros e [k Hk]%list_elem_of_lookup_1; apply lookup_take_Some in Hk as [Hk _];
      apply (log_ok_lookup _ _ _ _ _ _ (wf_log _ Hc)) in Hk; lia) (wf_committed _ Hc))
      as [E|?]; [|lia].
    rewrite E in Hx. rewrite (extension_complete (genesis_membership n)) in Hx;
      [done|apply Hc|apply Hc|constructor]. }
  rewrite restart_replay by lia. cbn. by rewrite eqb_refl.
Qed.

Context (id : NodeId) (ps : list NodeId) (seed : N) (n0 : RaftNode).
Context (Hnew : RaftNode_new id ps seed = Some n0).
Context (Hid : hs_membership (hard n) = None -> genesis_membership n = genesis_membership n0).

Local Abbreviation sm := (snapshot n ≫= (fun i => sm_membership (metadata i))).

Lemma restart_same_genesis c : history (genesis_membership n) c ->
  cm_bootstrap_with_group (ms_group_id (cm_state c)) (ms_genesis_voters (cm_state c))
  = Ok (genesis_membership n).
Proof.
  intros Hh. destruct (history_inv _ _ (wf_gen _ restart_core) Hh) as (_ & -> & ->).
  apply restart_core.
Qed.

Lemma restart_authority c : history (genesis_membership n) c ->
  cm_term c <= current_term (hard n) -> check_authority (hard n) (Some c) = Ok tt.
Proof.
  intros Hh Ht. cbn.
  rewrite (cm_validate_complete _ _ (wf_gen _ restart_core) Hh). cbn.
  by destruct (N.ltb_spec (current_term (hard n)) (cm_term c)); [lia|].
Qed.

Lemma restart_base_term : cm_term base <= current_term (hard n).
Proof.
  pose proof restart_core as Hc.
  pose proof (wf_base_term _ Hc). pose proof (wf_snap_term _ Hc). lia.
Qed.

(** With nothing durable, the boot parameters name the legacy genesis. *)
Lemma restart_legacy : hs_membership (hard n) = None ->
  base = selected /\ selected = genesis_membership n
  /\ ms_group_id (cm_state (genesis_membership n)) = LEGACY_GROUP_ID.
Proof.
  intros Hnone. pose proof restart_core as Hc.
  assert (Hsel : selected = genesis_membership n).
  { unfold committed_membership. by rewrite Hnone. }
  destruct (genesis_bounds _ (wf_gen _ Hc)) as [Hz _].
  split; [destruct restart_base as [?|Hlt]; [done|rewrite Hsel in Hlt; lia]|].
  split; [done|]. rewrite (Hid Hnone).
  by apply new_booted in Hnew as (_ & _ & _ & _ & _ & _ & _ & _ & _ & _ & _ & _ & _ & ?).
Qed.

Lemma restart_genesis :
  (match (match sm with Some m => Some m | None => hs_membership (hard n) end) with
   | Some state => cm_bootstrap_with_group (ms_group_id (cm_state state))
                     (ms_genesis_voters (cm_state state))
   | None => cm_bootstrap (ms_genesis_voters (cm_state (genesis_membership n0)))
   end) = Ok (genesis_membership n).
Proof.
  pose proof restart_core as Hc. pose proof restart_legacy as HL. pose proof Hid as Hid'.
  destruct sm as [m|] eqn:Hsm.
  - apply restart_same_genesis. pose proof (wf_base _ Hc) as H.
    unfold membership_base in H. by rewrite Hsm in H.
  - destruct (hs_membership (hard n)) as [hm|] eqn:Hhm.
    + apply restart_same_genesis. destruct (committed_bounds _ Hc) as (H & _).
      unfold committed_membership in H. by rewrite Hhm in H.
    + destruct (HL eq_refl) as (_ & _ & Hl). rewrite (Hid' eq_refl) in Hl |- *.
      pose proof (wf_gen _ Hc) as Hg. rewrite (Hid' eq_refl) in Hg. unfold is_genesis in Hg.
      by rewrite Hl in Hg.
Qed.

(** The committed configuration needs no rewrite. *)
Lemma restart_refresh :
  negb (eqb (hs_membership (hard n)) (Some selected))
  && (negb (eqb (ms_group_id (cm_state selected)) LEGACY_GROUP_ID)
      || negb (cm_index selected =? 0)) = false.
Proof.
  pose proof restart_legacy as HL. destruct (hs_membership (hard n)) as [hm|] eqn:Hhm.
  - assert (hm = selected) as -> by (unfold committed_membership; by rewrite Hhm).
    by rewrite eqb_refl.
  - destruct (HL eq_refl) as (_ & -> & ->). rewrite eqb_refl.
    destruct (genesis_bounds _ (wf_gen _ restart_core)) as [-> _]. apply andb_false_r.
Qed.

Lemma restart_effective :
  effective_after selected (log n) commit' = Ok (effective_membership n).
Proof.
  pose proof restart_core as Hc. pose proof restart_commit as Hcm.
  destruct (wf_eff _ (proj1 (proj1 Hinv))) as (c & Hr & ->).
  pose proof (restart_replay commit' ltac:(lia) ltac:(lia)) as Hrep.
  unfold effective_after, replay in *.
  rewrite (log_ok_filter_le _ _ _ _ _ (wf_log _ Hc)) in Hrep by lia.
  rewrite (log_ok_filter_gt _ _ _ _ _ (wf_log _ Hc)) by lia.
  rewrite list_filter_all.
  2: { intros e He. apply (log_index_bound n Hc). by eapply subseteq_drop. }
  rewrite <- (take_drop (N.to_nat (commit' - snapshot_index n)) (log n)), replay_all_app in Hr.
  rewrite Hrep in Hr. cbn in Hr. by rewrite Hr.
Qed.

Lemma restart_recovery :
  recover_membership (hard n) (snapshot n) (log n)
    (ms_genesis_voters (cm_state (genesis_membership n0)))
  = Ok (mkMembershipRecovery selected (effective_membership n) commit' false).
Proof.
  pose proof restart_core as Hc. unfold recover_membership. cbv zeta.
  assert (check_authority (hard n) (hs_membership (hard n)) = Ok tt) as ->.
  { destruct (hs_membership (hard n)) as [hm|] eqn:Hhm; [|done].
    destruct (committed_bounds _ Hc) as (Hh & _ & Ht).
    assert (hm = selected) as -> by (unfold committed_membership; by rewrite Hhm).
    by apply restart_authority. }
  assert (check_authority (hard n) sm = Ok tt) as ->.
  { pose proof (wf_base _ Hc) as Hb. pose proof restart_base_term as Ht.
    unfold membership_base in Hb, Ht. destruct sm as [m|]; [|done]. by apply restart_authority. }
  rewrite restart_genesis. cbn [mbind Result_bind]. fold base. fold (snapshot_index n).
  assert (Hvs : match snapshot n with
     | Some i => if is_none sm && negb (eqb (members (metadata i))
                      (ms_genesis_voters (cm_state (genesis_membership n))))
                 then Err "legacy snapshot differs from durable genesis" else Ok tt
     | None => Ok tt end = Ok tt).
  { destruct (snapshot n) as [d|] eqn:Hs; [|done]. cbn.
    destruct (wf_image _ Hc d Hs) as [_ Hv]. unfold image_voters in Hv.
    destruct (sm_membership (metadata d)); [done|]. by rewrite (Hv eq_refl), eqb_refl. }
  rewrite Hvs. cbn [mbind Result_bind].
  assert (Hsel : match hs_membership (hard n) with
    | None => Ok base
    | Some hm => if is_consistent_extension_of base hm then Ok base
        else if is_consistent_extension_of hm base then
          if map_or (list.last (log n)) (snapshot_index n) e_index <? cm_index hm
          then Err "membership watermark lacks selected log suffix" else
          reconstructed ← replay base (log n) (cm_index hm);
          if negb (eqb reconstructed hm)
          then Err "membership watermark contradicts selected snapshot or WAL" else Ok hm
        else Err "durable membership histories contradict"
    end = Ok selected).
  { pose proof restart_legacy as HL. pose proof restart_selected as HS.
    destruct (hs_membership (hard n)) as [hm|]; [by apply HS|].
    by destruct (HL eq_refl) as (-> & _). }
  unfold mbind, Result_bind in Hsel |- *. rewrite Hsel.
  pose proof restart_commit. rewrite restart_replay by lia. rewrite eqb_refl. cbn [negb].
  by rewrite restart_effective, restart_refresh.
Qed.
End restart.

Lemma restored_rebuilt n0 hs image entries g mr :
  restored_node (n0 <| snapshot := image |>) hs entries g mr
  = update_replication_peers_of (rebuilt n0 hs image entries g mr).
Proof. reflexivity. Qed.

(** What [restore_with_snapshot] accepts it also gets right. *)
Lemma restore_ok id ps seed hs image entries n :
  restore_with_snapshot id ps seed hs image entries = Some (inr n) ->
  (forall d, image = Some d -> last_included_index (metadata d) <= u64_max) ->
  inv n /\ log n = entries /\ snapshot n = image /\ node_id n = id
  /\ current_term (hard n) = current_term hs /\ voted_for (hard n) = voted_for hs
  /\ (recovery_refresh_hard n = false -> hard n = hs) /\ last_applied n = snapshot_index n
  /\ publishing_snapshot n = None.
Proof.
  unfold restore_with_snapshot. intros H Hmax.
  destruct (RaftNode_new id ps seed) as [n0|] eqn:Hnew; [|done]. cbn in H.
  pose proof (new_booted _ _ _ _ Hnew) as (Hb & _ & _ & _ & _ & _ & _ & _ & Hid & _).
  destruct (check_image hs image) as [|[]] eqn:Himg; [done|].
  destruct (check_log _ _ _ _ _) as [|[]] eqn:Hlog; [done|].
  destruct (recover_membership _ _ _ _) as [mr|] eqn:Hrec; [|done]. cbn in H.
  apply recover_membership_ok in Hrec as (g & Hrec).
  assert (Hg : cm_bootstrap_with_group (ms_group_id (cm_state (mr_committed mr)))
                 (ms_genesis_voters (cm_state (mr_committed mr))) = Ok g).
  { pose proof (replay_all_history _ _ _ _ (rc_base _ _ _ _ _ Hrec) (rc_replay _ _ _ _ _ Hrec)) as Hh.
    destruct (history_inv _ _ (rc_genesis _ _ _ _ _ Hrec) Hh) as (_ & -> & ->). apply Hrec. }
  rewrite Hg in H. cbn [of_result] in H. injection H as H. rewrite restored_rebuilt in H.
  destruct (rebuilt_core n0 hs image entries g mr Hrec Himg Hmax Hlog) as [Hc He].
  pose proof (rebuilt_term n0 hs image entries g mr) as [Ht Hv].
  pose proof (peers_frame (rebuilt n0 hs image entries g mr)) as Hf.
  pose proof (booted_peers (rebuilt n0 hs image entries g mr)) as Hbp.
  pose proof (core_frame _ _ Hf Hc) as Hc'. pose proof (peers_effective _ He) as He'.
  assert (Hr : recovery_refresh_hard (update_replication_peers_of (rebuilt n0 hs image entries g mr))
               = mr_refresh_hard mr).
  { unfold update_replication_peers_of. cbn. by destruct (role n0). }
  rewrite H in *. clear H.
  assert (booted n) as Hbn by (apply Hbp; destruct Hb; by split).
  unfold snapshot_index. rewrite Hr, (fr_hard _ _ Hf), (fr_log _ _ Hf), (fr_snap _ _ Hf),
    (fr_id _ _ Hf), (fr_applied _ _ Hf), Ht, Hv.
  repeat (split; [first [by apply booted_inv | done]|]). split; [|split; [done|apply Hbn]].
  cbn. by intros ->.
Qed.

(** Recovery establishes the invariant from whatever it accepts: the node
    has the log, image, term and vote it was given, and the hard state itself
    unless a newer configuration must first be written. *)
Theorem restore_establishes_invariant id ps seed hs image entries n :
  restore_with_snapshot id ps seed hs image entries = Some (inr n) ->
  (forall d, image = Some d -> last_included_index (metadata d) <= u64_max) ->
  inv n /\ log n = entries /\ snapshot n = image /\ node_id n = id
  /\ current_term (hard n) = current_term hs /\ voted_for (hard n) = voted_for hs
  /\ (recovery_refresh_hard n = false -> hard n = hs).
Proof. intros H Hmax. destruct (restore_ok _ _ _ _ _ _ _ H Hmax). tauto. Qed.

(** A restart from the durable state of a well-formed node. *)
Lemma restart_ok n id ps seed n0 :
  inv n -> RaftNode_new id ps seed = Some n0 ->
  (hs_membership (hard n) = None -> genesis_membership n = genesis_membership n0) ->
  exists n', restore_with_snapshot id ps seed (hard n) (snapshot n) (log n) = Some (inr n')
    /\ inv n' /\ durable n' = durable n /\ node_id n' = id
    /\ committed_membership n' = committed_membership n
    /\ effective_membership n' = effective_membership n
    /\ genesis_membership n' = genesis_membership n
    /\ snapshot_index n <= commit_index n' <= commit_index n
    /\ last_applied n' = snapshot_index n /\ publishing_snapshot n' = None.
Proof.
  intros Hinv Hnew Hid. pose proof (restart_core n Hinv) as Hc.
  assert (Hmax : forall d, snapshot n = Some d -> last_included_index (metadata d) <= u64_max).
  { intros d Hd. pose proof (wf_len _ Hc) as H. unfold snapshot_index in H. rewrite Hd in H.
    cbn in H. lia. }
  assert (Himg : check_image (hard n) (snapshot n) = inr tt).
  { pose proof (wf_snap_term _ Hc) as Ht. unfold check_image, snapshot_term in *.
    destruct (snapshot n) as [d|] eqn:Hs; [|done]. destruct (wf_image _ Hc d Hs) as [-> _].
    cbn in Ht. by destruct (N.ltb_spec (current_term (hard n)) (last_included_term (metadata d)));
      [lia|]. }
  assert (Hlog : check_log (current_term (hard n)) (snapshot_index n) 0 (snapshot_term n) (log n)
                 = inr tt).
  { pose proof (wf_len _ Hc). apply check_log_ok; [lia|]. rewrite N.add_0_r. apply Hc. }
  pose proof (restart_recovery n Hinv id ps seed n0 Hnew Hid) as Hrec.
  destruct (committed_bounds _ Hc) as (Hh & _).
  set (mr := mkMembershipRecovery (committed_membership n) (effective_membership n)
               (N.max (snapshot_index n) (cm_index (committed_membership n))) false) in *.
  set (nr := rebuilt n0 (hard n) (snapshot n) (log n) (genesis_membership n) mr).
  assert (Hres : restore_with_snapshot id ps seed (hard n) (snapshot n) (log n)
                 = Some (inr (update_replication_peers_of nr))).
  { unfold restore_with_snapshot. rewrite Hnew. cbn [mbind option_bind].
    change (snapshot_index (n0 <| snapshot := snapshot n |>)) with (snapshot_index n).
    change (snapshot_term (n0 <| snapshot := snapshot n |>)) with (snapshot_term n).
    change (genesis_membership (n0 <| snapshot := snapshot n |>)) with (genesis_membership n0).
    rewrite Himg, Hlog, Hrec. cbn [of_result]. subst mr nr. cbn [mr_committed].
    rewrite (restart_same_genesis n Hinv _ Hh). cbn [of_result]. by rewrite restored_rebuilt. }
  destruct (restore_ok _ _ _ _ _ _ _ Hres Hmax) as (R1 & R2 & R3 & R4 & _ & _ & _ & R5 & R6).
  pose proof (peers_frame nr) as Hf. pose proof (peers_fields nr) as (Pe & _).
  eexists. split; [exact Hres|]. split; [done|].
  assert (Hh' : hard (update_replication_peers_of nr) = hard n) by apply Hf.
  split; [unfold durable; by rewrite R2, R3, Hh'|]. split; [done|].
  unfold committed_membership, snapshot_index. rewrite Hh', (fr_gen _ _ Hf), (fr_commit _ _ Hf), Pe.
  split; [done|]. split; [done|]. split; [done|]. split; [exact (restart_commit n Hinv)|].
  split; [|done]. rewrite R5. unfold snapshot_index. by rewrite R3.
Qed.

(** (C36) Crash and restart lose nothing durable: from the durable state of any
    node that satisfies the invariant, recovery succeeds, and the recovered
    node satisfies the invariant with the same hard state, log, image,
    committed and effective configuration, and a commit index between the
    image's boundary and the one before the crash. *)
Theorem restart_roundtrip n id ps seed n0 :
  inv n -> RaftNode_new id ps seed = Some n0 ->
  (hs_membership (hard n) = None -> genesis_membership n = genesis_membership n0) ->
  exists n', restore_with_snapshot id ps seed (hard n) (snapshot n) (log n) = Some (inr n')
    /\ inv n' /\ durable n' = durable n
    /\ committed_membership n' = committed_membership n
    /\ effective_membership n' = effective_membership n
    /\ snapshot_index n <= commit_index n' <= commit_index n.
Proof.
  intros Hinv Hnew Hid.
  destruct (restart_ok n id ps seed n0 Hinv Hnew Hid) as (n' & H & ? & ? & _ & ? & ? & _ & ? & _).
  by exists n'.
Qed.
