(* ===== verification/SimInvariants.v ===== *)
(** * [sim/src/invariants.rs] and [sim/src/membership.rs]

    The safety checkers the simulator runs after every step, and its
    independent reconstruction of the quorums each entry needs.  A checker is
    [true] when it does not panic. *)
From S2P Require Import Prelude Rng Quorum Membership Types Node MembershipProtocol.
From S2P Require Import SnapshotTransfer Replication Election Step LogFacts MembershipFacts.
From S2P Require Import Effects Invariant.
Local Open Scope N_scope.
Local Open Scope raft_scope.

(** ** [Invariants] *)

(** [on_leader_elected] on [leaders_by_term]; [None] is the panic. *)
Definition on_leader_elected (leaders_by_term : gmap Term NodeId) (term : Term) (id : NodeId)
  : option (gmap Term NodeId) :=
  match leaders_by_term !! term with
  | Some existing => if existing =? id then Some leaders_by_term else None
  | None => Some (<[term := id]> leaders_by_term)
  end.

Definition check_term_monotonic (prev current : Term) : bool := prev <=? current.

(** ** Logs *)

Fixpoint structure_scan (offset previous_term : N) (entries : list Entry) : bool :=
  match entries with
  | [] => true
  | entry :: rest =>
      (e_index entry =? offset + 1) && (previous_term <=? e_term entry)
      && structure_scan (offset + 1) (e_term entry) rest
  end.
Definition check_log_structure (entries : list Entry) : bool := structure_scan 0 0 entries.

(** The [while] loop of [check_log_matching], counting down from [i]. *)
Fixpoint matching_point (a b : list Entry) (i : nat) : nat :=
  match i with
  | O => O
  | S j =>
      match a !! j, b !! j with
      | Some x, Some y => if e_term x =? e_term y then i else matching_point a b j
      | _, _ => i
      end
  end.
Definition check_log_matching (a b : list Entry) : bool :=
  let i := matching_point a b (Nat.min (length a) (length b)) in
  if (0 <? i)%nat then bool_decide (take i a = take i b) else true.

Definition check_applied_agreement (a b : list (LogIndex * Command)) : bool :=
  let overlap := Nat.min (length a) (length b) in
  bool_decide (take overlap a = take overlap b).

(** ** [CommittedRegistry] *)

Definition CommittedRegistry : Type := gmap LogIndex Entry.

Definition record (registry : CommittedRegistry) (entry : Entry) : option CommittedRegistry :=
  match registry !! e_index entry with
  | Some existing => if eqb existing entry then Some registry else None
  | None => Some (<[e_index entry := entry]> registry)
  end.

Definition assert_all_in_leader_log (registry : CommittedRegistry) (entries : list Entry) : bool :=
  forallb (fun '(index, entry) =>
             is_some_and (get_at entries (index - 1)) (fun e => eqb e entry))
    (nmap_iter registry).

Definition assert_applied (registry : CommittedRegistry) (index : LogIndex) (command : Command)
  : bool :=
  is_some_and (registry !! index) (fun committed => eqb (e_command committed) command).

(** ** [membership.rs]: the configuration witness *)

Definition Quorums : Type := gset NodeId * option (gset NodeId).

(** One entry of the history; [None] is a failed assertion. *)
Definition witness_step (q : Quorums) (entry : Entry) : option Quorums :=
  let '(old, new) := q in
  match e_command entry with
  | Configuration change =>
      match ce_phase change with
      | PhApply => Some (old, new)
      | PhJoint =>
          match new with
          | Some _ => None
          | None =>
              match ce_operation change with
              | SetVoters voters => Some (old, Some (list_to_set voters))
              | Remove id => Some (old, Some (filter (fun voter => voter <> id) old))
              | AddLearner _ _ => None
              end
          end
      | PhFinal =>
          match new with
          | Some new => Some (new, None)
          | None => None
          end
      end
  | _ => Some (old, new)
  end.

Fixpoint witness_scan (q : Quorums) (history : list Entry) (obligations : gmap LogIndex Quorums)
  : option (gmap LogIndex Quorums) :=
  match history with
  | [] => Some obligations
  | entry :: rest =>
      q' ← witness_step q entry;
      witness_scan q' rest (<[e_index entry := q']> obligations)
  end.

Definition required_quorums (genesis : list NodeId) (history : list Entry)
  : option (gmap LogIndex Quorums) :=
  witness_scan (list_to_set genesis, None) history ∅.

Definition witness_majority (members durable : gset NodeId) : bool :=
  (size members / 2 <? size (members ∩ durable))%nat.

Definition witnessed_quorum (q : Quorums) (durable : gset NodeId) : bool :=
  witness_majority q.1 durable
  && match q.2 with None => true | Some new => witness_majority new durable end.

(** ** The checkers decide what they name *)

Lemma structure_scan_ok offset prev entries :
  structure_scan offset prev entries = true <->
  exists cur, log_ok offset prev cur entries.
Proof.
  revert offset prev. induction entries as [|e l IH]; intros offset prev; cbn; [by split; eauto|].
  rewrite !andb_true_iff, N.eqb_eq, N.leb_le, IH. split.
  - intros [[? ?] [cur Hc]]. exists (N.max cur (e_term e)). split; [done|]. split; [lia|].
    eapply log_ok_weaken; [exact Hc|lia].
  - intros (cur & ? & ? & Hc). split; [lia|]. by exists cur.
Qed.

Lemma matching_point_spec a b i :
  (i <= length a)%nat -> (i <= length b)%nat ->
  (matching_point a b i <= i)%nat /\
  (forall j x y, (matching_point a b i <= j < i)%nat -> a !! j = Some x -> b !! j = Some y ->
     e_term x <> e_term y) /\
  (forall j, matching_point a b i = S j -> exists x y, a !! j = Some x /\ b !! j = Some y
     /\ e_term x = e_term y).
Proof.
  induction i as [|i IH]; intros Ha Hb; cbn [matching_point]; [split; [lia|split; [lia|done]]|].
  destruct (lookup_lt_is_Some_2 a i) as [x Hx]; [lia|].
  destruct (lookup_lt_is_Some_2 b i) as [y Hy]; [lia|]. rewrite Hx, Hy.
  destruct (N.eqb_spec (e_term x) (e_term y)) as [He|Hne].
  - split; [lia|]. split; [lia|]. intros j [= <-]. eauto.
  - destruct IH as (H1 & H2 & H3); [lia..|]. split; [lia|]. split; [|done].
    intros j x' y' Hj Hx' Hy'. destruct (decide (j = i)) as [->|]; [congruence|].
    eapply H2; eauto; lia.
Qed.

(** The log-matching check passes exactly when the two logs satisfy Log
    Matching: wherever they hold entries of the same term at one position, they
    are identical up to and including that position.  Looking only at the last
    such position is enough. *)
Theorem check_log_matching_correct a b :
  check_log_matching a b = true <->
  (forall j x y, a !! j = Some x -> b !! j = Some y -> e_term x = e_term y ->
     take (S j) a = take (S j) b).
Proof.
  unfold check_log_matching. set (m := Nat.min (length a) (length b)).
  destruct (matching_point_spec a b m) as (Hle & Hno & Hat); [lia..|].
  destruct (matching_point a b m) as [|p] eqn:Hp; cbn [Nat.ltb Nat.leb].
  - split; [|done]. intros _ j x y Hx Hy Ht. exfalso. eapply (Hno j); eauto.
    apply lookup_lt_Some in Hx, Hy. lia.
  - rewrite bool_decide_eq_true. split.
    + intros Heq j x y Hx Hy Ht. destruct (decide (j <= p)%nat) as [Hj|Hj].
      * apply (f_equal (take (S j))) in Heq. by rewrite !take_take, !Nat.min_l in Heq by lia.
      * exfalso. eapply (Hno j); eauto. apply lookup_lt_Some in Hx, Hy. lia.
    + intros H. destruct (Hat p eq_refl) as (x & y & Hx & Hy & Ht). by apply (H p x y).
Qed.

(** A node's history, expanded by the prefix its image stands for, is
    structurally sound. *)
Lemma expanded_structure n prefix :
  core_ok n -> len64 prefix = snapshot_index n -> check_log_structure prefix = true ->
  end_term 0 prefix <= snapshot_term n -> check_log_structure (prefix ++ log n) = true.
Proof.
  intros Hc Hlen Hp Ht. unfold check_log_structure in *.
  apply structure_scan_ok in Hp as [cur Hp]. apply structure_scan_ok.
  exists (N.max cur (current_term (hard n))). apply log_ok_app. split.
  - eapply log_ok_weaken; [exact Hp|lia].
  - rewrite N.add_0_l, Hlen. eapply log_ok_weaken; [|apply N.le_max_r].
    eapply log_ok_prev; [apply Hc|done].
Qed.

(** ** The witness agrees with the production replay *)

(** The quorums a voter configuration stands for. *)
Definition config_quorums (c : VoterConfig) : Quorums :=
  match c with
  | Stable vs => (list_to_set vs, None)
  | Joint old new => (list_to_set old, Some (list_to_set new))
  end.

Lemma filter_set_list id (l : list NodeId) (s : gset NodeId) :
  (forall x, x ∈ l <-> x ∈ s) ->
  (list_to_set (filter (fun v => v <> id) l) : gset NodeId) = filter (fun v => v <> id) s.
Proof.
  intros H. apply set_eq. intros x. rewrite elem_of_list_to_set, list_elem_of_filter, elem_of_filter.
  by rewrite H.
Qed.

Lemma witness_step_agrees c e c' :
  cm_inv c -> replay_entry c e = Ok c' ->
  witness_step (config_quorums (ms_voters (cm_state c))) e
  = Some (config_quorums (ms_voters (cm_state c'))).
Proof.
  intros Hinv. unfold replay_entry, witness_step.
  destruct (config_quorums (ms_voters (cm_state c))) as [old new] eqn:Hq.
  destruct (e_command e) as [| | |ch| | | |]; try (intros [= <-]; by rewrite Hq).
  intros (_ & _ & _ & _ & _ & _ & Hs)%advanced_ok.
  destruct Hs as [o nw r Hp _ _ Hv _ _|nw Hp Hf Htv|? ? Hp _ _|? Hp _ _]; rewrite Hp.
  - rewrite Hv in Hq. cbn in Hq. injection Hq as <- <-. done.
  - apply first_phase_ok in Hf as (_ & _ & _ & _ & Hj & _).
    apply Stable_of_not_joint in Hj as [vs Hvs].
    pose proof (ci_valid _ Hinv) as Hval. rewrite Hvs in *. cbn in Hq, Hval. injection Hq as <- <-.
    pose proof (validate_set_elim _ Hval) as (_ & Hinc & _).
    cbn. rewrite nset_list_of_increasing by done. unfold target_voters in Htv.
    destruct (ce_operation ch) as [| id|vs']; [done| |].
    + injection Htv as <-. rewrite Hvs. cbn. rewrite nset_list_of_increasing by done.
      by rewrite (filter_set_list id vs (list_to_set vs)) by set_solver.
    + by injection Htv as <-.
  - f_equal. symmetry. exact Hq.
  - f_equal. symmetry. exact Hq.
Qed.

Lemma witness_scan_agrees g c history c' m :
  is_genesis g -> MembershipFacts.history g c -> replay_all c history = Ok c' ->
  exists m', witness_scan (config_quorums (ms_voters (cm_state c))) history m = Some m' /\
    (forall k e, history !! k = Some e -> (forall j x, (k < j)%nat -> history !! j = Some x ->
        e_index x <> e_index e) ->
       exists ck, replay_all c (take (S k) history) = Ok ck
         /\ m' !! e_index e = Some (config_quorums (ms_voters (cm_state ck)))) /\
    (forall i, (forall e, e ∈ history -> e_index e <> i) -> m' !! i = m !! i).
Proof.
  intros Hg. revert c m. induction history as [|e l IH]; intros c m Hh Hr; cbn in *.
  { exists m. split; [done|]. split; [intros k e Hk; by rewrite lookup_nil in Hk|done]. }
  apply Result_bind_Ok in Hr as (c1 & He & Hr).
  destruct (history_inv _ _ Hg Hh) as (Hinv & _).
  rewrite (witness_step_agrees c e c1 Hinv He). cbn.
  destruct (IH c1 (<[e_index e := config_quorums (ms_voters (cm_state c1))]> m))
    as (m' & Hm' & H1 & H2); [by eapply replay_entry_history|done|].
  exists m'. split; [done|]. split.
  - intros k x Hk Hlast. destruct k as [|k]; cbn in Hk.
    + injection Hk as <-. exists c1. cbn [take replay_all]. rewrite He. cbn. split; [by rewrite take_0|].
      rewrite H2, lookup_insert_eq; [done|]. intros y [j Hj]%list_elem_of_lookup_1.
      apply (Hlast (S j)); [lia|done].
    + destruct (H1 k x Hk) as (ck & Hck & Hx).
      { intros j y Hj. apply (Hlast (S j)). lia. }
      exists ck. cbn [take replay_all]. rewrite He. done.
  - intros i Hi. rewrite H2 by (intros x Hx; apply Hi; by right).
    rewrite lookup_insert_ne; [done|]. apply Hi. left.
Qed.

Lemma witness_majority_eq vs durable :
  strictly_increasing vs = true ->
  witness_majority (list_to_set vs) durable = majority vs durable.
Proof.
  intros Hinc. apply strictly_increasing_NoDup in Hinc. unfold witness_majority, majority.
  rewrite size_list_to_set by done. f_equal.
  assert ((list_to_set vs : gset NodeId) ∩ durable = list_to_set (filter (fun id => id ∈ durable) vs))
    as ->.
  { apply set_eq. intros x. rewrite elem_of_intersection, !elem_of_list_to_set, list_elem_of_filter.
    tauto. }
  by rewrite size_list_to_set by (by apply list.NoDup_filter).
Qed.

Lemma witnessed_quorum_eq c durable :
  is_ok (validate c) = true -> witnessed_quorum (config_quorums c) durable = has_quorum c durable.
Proof.
  intros Hok. unfold has_quorum, is_err. rewrite Hok. apply validate_ok in Hok.
  unfold witnessed_quorum. destruct c as [vs|old new]; cbn [config_quorums fst snd].
  - apply validate_set_ok in Hok as [_ Hinc]. by rewrite witness_majority_eq, andb_true_r.
  - destruct Hok as [[_ H1]%validate_set_ok [_ H2]%validate_set_ok].
    by rewrite !witness_majority_eq.
Qed.

(** The simulator's independent configuration witness agrees with the
    production replay: on any contiguous history the core accepts it never
    panics, and for every entry the quorum it demands is exactly a quorum of
    the configuration the core replays to at that entry. *)
Theorem required_quorums_agree gid genesis g history c prev cur :
  cm_bootstrap_with_group gid genesis = Ok g -> log_ok 0 prev cur history ->
  replay_all g history = Ok c ->
  exists obligations, required_quorums genesis history = Some obligations /\
    forall k e, history !! k = Some e ->
      exists ck q, replay_all g (take (S k) history) = Ok ck /\ obligations !! e_index e = Some q
        /\ forall durable,
             witnessed_quorum q durable = has_quorum (ms_voters (cm_state ck)) durable.
Proof.
  intros Hb Hl Hr. pose proof (bootstrap_is_genesis _ _ _ Hb) as Hg.
  destruct (bootstrap_inv _ _ _ Hb) as (_ & _ & _ & _ & _ & _ & Hv).
  destruct (witness_scan_agrees g g history c ∅ Hg ltac:(constructor) Hr) as (m & Hm & H1 & _).
  rewrite Hv in Hm. exists m. split; [exact Hm|]. intros k e Hk.
  destruct (H1 k e Hk) as (ck & Hck & Hq).
  { intros j x Hj Hx. pose proof (log_ok_lookup _ _ _ _ _ _ Hl Hk) as [-> _].
    pose proof (log_ok_lookup _ _ _ _ _ _ Hl Hx) as [-> _]. lia. }
  eexists ck, _. split; [done|]. split; [exact Hq|]. intros durable. apply witnessed_quorum_eq.
  assert (Hh : MembershipFacts.history g ck)
    by (eapply replay_all_history; [constructor|exact Hck]).
  destruct (history_inv _ _ Hg Hh) as (Hinv & _). by rewrite (ci_valid _ Hinv).
Qed.
