(* ===== verification/Sim.v ===== *)
(** * [sim/src/lib.rs] and [sim/src/snapshot.rs]: the simulator's driver

    How the simulator executes the effects of one step against its virtual
    disk, answers snapshot effects on the spot by calling back into the core,
    and which assertions it makes on the way.  Persistence is durable and no
    snapshot fault is injected. *)
From S2P Require Import Prelude Rng Quorum Membership Types Node MembershipProtocol.
From S2P Require Import SnapshotTransfer Replication Election Step Effects SimInvariants.
Local Open Scope N_scope.
Local Open Scope raft_scope.

(** ** The audit of a batch *)

Inductive AuditError : Type := HardStateAfterSend | LogEntriesAfterSend.

(** The loop of [audit_persist_before_send]. *)
Fixpoint audit_scan (saw_send : bool) (batch : list Effect) : AuditError + unit :=
  match batch with
  | [] => inr tt
  | PersistHardState _ :: rest =>
      if saw_send then inl HardStateAfterSend else audit_scan saw_send rest
  | PersistLogEntries _ _ :: rest =>
      if saw_send then inl LogEntriesAfterSend else audit_scan saw_send rest
  | Send _ _ :: rest => audit_scan true rest
  | _ :: rest => audit_scan saw_send rest
  end.

Definition audit_persist_before_send (batch : list Effect) : AuditError + unit :=
  audit_scan false batch.

(** ** Seeds *)

Definition NODE_SEED_MULT : N := 0x9E3779B97F4A7C15.
Definition BOOT_SEED_MULT : N := 0xD1B54A32D192ED03.
Definition node_seed (master id boot : N) : N :=
  N.lxor (N.lxor master (wrapping_mul64 id NODE_SEED_MULT)) (wrapping_mul64 boot BOOT_SEED_MULT).

(** ** The simulated node *)

Record VirtualImage := mkVirtualImage {
  vi_descriptor : SnapshotDescriptor;
  vi_prefix : list Entry;
  vi_bytes : list N;
}.

Record VirtualStage := mkVirtualStage {
  vs_transfer : SnapshotTransferId;
  vs_descriptor : SnapshotDescriptor;
  vs_bytes : list N;
}.
#[export] Instance VirtualStage_eta : Eta VirtualStage := fun v =>
  mkVirtualStage (vs_transfer v) (vs_descriptor v) (vs_bytes v).

(** [SimNode] without the caches that only spare a repeated check, and what
    leaves the node: [sn_net] for [enqueue], [sn_outcomes] for
    [read_outcomes]. *)
Record SimNode := mkSimNode {
  sn_core : RaftNode;
  sn_alive : bool;
  sn_disk_hard : HardState;
  sn_disk_log : list Entry;
  sn_disk_snapshot : option VirtualImage;
  sn_core_prefix : list Entry;
  sn_snapshot_stage : option VirtualStage;
  sn_last_term_seen : Term;
  sn_applied : list (LogIndex * Command);
  sn_boot_count : N;
  sn_net : list (NodeId * RaftMessage);
  sn_outcomes : list Effect;
}.
#[export] Instance SimNode_eta : Eta SimNode := fun s =>
  mkSimNode (sn_core s) (sn_alive s) (sn_disk_hard s) (sn_disk_log s) (sn_disk_snapshot s)
    (sn_core_prefix s) (sn_snapshot_stage s) (sn_last_term_seen s) (sn_applied s)
    (sn_boot_count s) (sn_net s) (sn_outcomes s).

Definition disk_of (s : SimNode) : Disk :=
  mkDisk (sn_disk_hard s) (sn_disk_log s) (vi_descriptor <$> sn_disk_snapshot s).

(** ** Assertions; [None] is a panic *)

Definition sim_assert (b : bool) : option unit := if b then Some tt else None.

Definition assert_term_durable (s : SimNode) : option unit :=
  sim_assert (current_term (sn_disk_hard s) =? current_term (hard (sn_core s))).

Definition assert_fully_durable (s : SimNode) : option unit :=
  sim_assert (bool_decide (sn_disk_hard s = hard (sn_core s)));;
  sim_assert (bool_decide (sn_disk_log s = log (sn_core s)));;
  sim_assert (bool_decide (vi_descriptor <$> sn_disk_snapshot s = snapshot (sn_core s))).

Definition on_apply (s : SimNode) (entry : Entry) : option SimNode :=
  let expected := map_or (list.last (sn_applied s)) 1 (fun p => p.1 + 1) in
  sim_assert (e_index entry =? expected);;
  Some (s <| sn_applied := sn_applied s ++ [(e_index entry, e_command entry)] |>).

(** The applied history a sequence of entries stands for. *)
Definition history_of (entries : list Entry) : list (LogIndex * Command) :=
  map (fun entry => (e_index entry, e_command entry)) entries.

(** ** Snapshot effects *)

(** [bytes.get(from..to)]: [None] out of range. *)
Definition get_range (bytes : list N) (from to : N) : option (list N) :=
  if (from <=? to) && (to <=? len64 bytes)
  then Some (take (N.to_nat (to - from)) (drop (N.to_nat from) bytes)) else None.

(** The suffix a publication retains, derived from the virtual disk alone. *)
Definition expected_retained (s : SimNode) (descriptor : SnapshotDescriptor) : list Entry :=
  let boundary := last_included_index (metadata descriptor) in
  let term :=
    match List.find (fun entry => e_index entry =? boundary) (sn_disk_log s) with
    | Some entry => Some (e_term entry)
    | None =>
        old ← sn_disk_snapshot s;
        let m := metadata (vi_descriptor old) in
        if last_included_index m =? boundary then Some (last_included_term m) else None
    end in
  if eqb term (Some (last_included_term (metadata descriptor)))
  then filter (fun entry => boundary < e_index entry) (sn_disk_log s)
  else [].

(** The simulator's catalogue of complete images, by SHA-256. *)
Definition Images : Type := gmap (list N) VirtualImage.

Section snapshot_effects.
(** [Sha256::digest], the catalogue, and [callback]: step the core and execute
    its effects. *)
Context (digest : list N -> list N) (images : Images).
Context (callback : SimNode -> Input -> option SimNode).

(** The [ReadSnapshotChunk] arm. *)
Definition read_chunk (s : SimNode) (to : NodeId) (transfer : SnapshotTransferId)
    (descriptor : SnapshotDescriptor) (offset max_len : N) : option SimNode :=
  image ← sn_disk_snapshot s;
  sim_assert (bool_decide (vi_descriptor image = descriptor));;
  let end_ := N.min (offset + max_len) (len64 (vi_bytes image)) in
  data ← get_range (vi_bytes image) offset end_;
  callback s (SnapshotChunkRead to transfer descriptor offset data).

(** A stage that continues this transfer of this image. *)
Definition stage_matches (stage : VirtualStage) (transfer : SnapshotTransferId)
    (descriptor : SnapshotDescriptor) : bool :=
  eqb (vs_transfer stage) transfer && eqb (vs_descriptor stage) descriptor.

(** What staging [data] at [offset] yields: the stage with the data taken in
    or compared, and the verdict. *)
Definition stage_data (image : VirtualImage) (stage : VirtualStage)
    (descriptor : SnapshotDescriptor) (offset : N) (data : list N)
  : VirtualStage * SnapshotStageResult :=
  let '(stage, accepted) :=
    if offset =? len64 (vs_bytes stage)
    then (stage <| vs_bytes := vs_bytes stage ++ data |>, true)
    else (stage, eqb (get_range (vs_bytes stage) offset (offset + len64 data)) (Some data)) in
  let complete := len64 (vs_bytes stage) =? total_len descriptor in
  (stage,
   if (accepted : bool)
      && (negb complete
          || (eqb (vs_bytes stage) (vi_bytes image)
              && eqb (digest (vs_bytes stage)) (sha256 descriptor)))
   then Accepted (len64 (vs_bytes stage)) complete else Rejected).

(** The [StageSnapshotChunk] arm up to its callback. *)
Definition stage_chunk (s : SimNode) (transfer : SnapshotTransferId)
    (descriptor : SnapshotDescriptor) (offset : N) (data : list N) (done : bool)
  : option (SimNode * SnapshotStageResult) :=
  let valid_shape := valid_chunk descriptor offset (len64 data) done in
  let image := images !! sha256 descriptor in
  let recognized := is_some_and image (fun image => eqb (vi_descriptor image) descriptor) in
  let same_installed := is_some_and (sn_disk_snapshot s) (fun image =>
    eqb (vi_descriptor image) descriptor
    && eqb (get_range (vi_bytes image) offset (offset + len64 data)) (Some data)) in
  if valid_shape && same_installed then Some (s, Accepted (total_len descriptor) true)
  else if valid_shape && recognized then
    stage ← (match sn_snapshot_stage s with
             | Some stage =>
                 if stage_matches stage transfer descriptor then Some stage
                 else sim_assert (offset =? 0);; Some (mkVirtualStage transfer descriptor [])
             | None => sim_assert (offset =? 0);; Some (mkVirtualStage transfer descriptor [])
             end);
    image ← image;
    let '(stage, result) := stage_data image stage descriptor offset data in
    Some (s <| sn_snapshot_stage := Some stage |>, result)
  else Some (s, Rejected).

(** The [PublishSnapshot] arm up to its callback. *)
Definition publish_image (s : SimNode) (transfer : option SnapshotTransferId)
    (descriptor : SnapshotDescriptor) (retained_entries : list Entry) : option SimNode :=
  image ← images !! sha256 descriptor;
  sim_assert (bool_decide (vi_descriptor image = descriptor));;
  (match transfer with
   | None => Some tt
   | Some _ =>
       stage ← sn_snapshot_stage s;
       sim_assert (bool_decide (Some (vs_transfer stage) = transfer));;
       sim_assert (bool_decide (vs_bytes stage = vi_bytes image))
   end);;
  sim_assert (bool_decide (expected_retained s descriptor = retained_entries));;
  Some (s <| sn_disk_log := retained_entries |> <| sn_disk_snapshot := Some image |>
          <| sn_core_prefix := vi_prefix image |>).

Definition execute_snapshot_effect (s : SimNode) (e : Effect) : option SimNode :=
  match e with
  | ReadSnapshotChunk to transfer descriptor offset max_len =>
      read_chunk s to transfer descriptor offset max_len
  | StageSnapshotChunk transfer descriptor offset data done =>
      '(s, result) ← stage_chunk s transfer descriptor offset data done;
      callback s (SnapshotChunkStaged transfer descriptor offset result)
  | PublishSnapshot transfer descriptor retained_entries =>
      s ← publish_image s transfer descriptor retained_entries;
      callback s (SnapshotPublished transfer descriptor)
  | ApplySnapshot descriptor =>
      assert_fully_durable s;;
      image ← sn_disk_snapshot s;
      sim_assert (bool_decide (vi_descriptor image = descriptor));;
      Some (s <| sn_applied := history_of (vi_prefix image) |> <| sn_snapshot_stage := None |>)
  | CancelSnapshot transfer =>
      Some (if is_some_and (sn_snapshot_stage s) (fun stage => eqb (vs_transfer stage) transfer)
            then s <| sn_snapshot_stage := None |> else s)
  | SnapshotRejected _ => Some s
  | _ => None
  end.

(** One iteration of the loop of [execute_effects]. *)
Definition execute_effect (s : SimNode) (e : Effect) : option SimNode :=
  match e with
  | MembershipRouteHint _ _ _ | MembershipResult _ _ | MembershipChanged _ =>
      assert_fully_durable s;; Some s
  | ReadSnapshotChunk _ _ _ _ _ | StageSnapshotChunk _ _ _ _ _ | PublishSnapshot _ _ _
  | ApplySnapshot _ | CancelSnapshot _ | SnapshotRejected _ => execute_snapshot_effect s e
  | PersistHardState hs => Some (s <| sn_disk_hard := hs |>)
  | PersistLogEntries truncate_from entries =>
      let kept := match truncate_from with
                  | Some from => filter (fun e => e_index e < from) (sn_disk_log s)
                  | None => sn_disk_log s
                  end in
      Some (s <| sn_disk_log := kept ++ entries |>)
  | Send to msg =>
      assert_fully_durable s;; Some (s <| sn_net := sn_net s ++ [(to, msg)] |>)
  | RoleChanged role_name _ =>
      (if eqb role_name "Follower"%string then assert_term_durable s
       else assert_fully_durable s);; Some s
  | Apply entry => assert_fully_durable s;; on_apply s entry
  | ProposeAccepted _ | ProposeRejected _ => assert_fully_durable s;; Some s
  | ReadReady _ _ _ _ =>
      assert_fully_durable s;; Some (s <| sn_outcomes := sn_outcomes s ++ [e] |>)
  | ReadRejected _ _ _ =>
      assert_term_durable s;; Some (s <| sn_outcomes := sn_outcomes s ++ [e] |>)
  end.

Fixpoint execute_all (s : SimNode) (effects : list Effect) : option SimNode :=
  match effects with
  | [] => Some s
  | e :: rest => s' ← execute_effect s e; execute_all s' rest
  end.
End snapshot_effects.

(** ** Inputs *)

Section driver.
Context (digest : list N -> list N) (images : Images).

(** The mutual recursion of [execute_effects] and [callback].  [fuel] bounds
    the nesting of callbacks; out of fuel counts as a panic. *)
Fixpoint execute_effects (fuel : nat) (s : SimNode) (effects : list Effect) : option SimNode :=
  match fuel with
  | O => None
  | S fuel =>
      let callback s input :=
        '(core, effects) ← step (sn_core s) input;
        execute_effects fuel (s <| sn_core := core |>) effects in
      match audit_persist_before_send effects with
      | inl _ => None
      | inr _ =>
          s' ← execute_all digest images callback s effects;
          assert_fully_durable s';;
          Some s'
      end
  end.

Definition callback (fuel : nat) (s : SimNode) (input : Input) : option SimNode :=
  '(core, effects) ← step (sn_core s) input;
  execute_effects fuel (s <| sn_core := core |>) effects.

(** A chunk is staged, which publishes, which announces: three levels. *)
Definition CALLBACK_DEPTH : nat := 3.

(** The loop over one node's applied history: consecutive indices, and the
    commands of its own log. *)
Fixpoint check_applied (offset : N) (core_log : list Entry) (applied : list (LogIndex * Command))
  : bool :=
  match applied with
  | [] => true
  | (index, command) :: rest =>
      (index =? offset + 1)
      && is_some_and (get_at core_log offset) (fun entry => eqb (e_command entry) command)
      && check_applied (offset + 1) core_log rest
  end.

(** What [check_all_invariants] asserts of one live node: the boundary of the
    retained prefix, the structure of both logs, terms and progress, and that
    the applied history is the node's own. *)
Definition check_node (s : SimNode) : option SimNode :=
  let n := sn_core s in
  let core_log := sn_core_prefix s ++ log n in
  let disk_log := map_or (sn_disk_snapshot s) [] vi_prefix ++ sn_disk_log s in
  sim_assert (len64 (sn_core_prefix s) =? snapshot_index n);;
  sim_assert (bool_decide (vi_descriptor <$> sn_disk_snapshot s = snapshot n));;
  sim_assert (check_log_structure core_log);;
  sim_assert (check_log_structure disk_log);;
  sim_assert (check_term_monotonic (sn_last_term_seen s) (current_term (hard n)));;
  sim_assert ((last_applied n <=? commit_index n) && (commit_index n <=? last_log_index n));;
  sim_assert (len64 (sn_applied s) =? last_applied n);;
  sim_assert (check_applied 0 core_log (sn_applied s));;
  sim_assert (bool_decide (sn_disk_hard s = hard n));;
  sim_assert (bool_decide (sn_disk_log s = log n));;
  Some (s <| sn_last_term_seen := current_term (hard n) |>).

(** [read_input]: step a live node, execute its effects, check it. *)
Definition sim_input (s : SimNode) (input : Input) : option SimNode :=
  if negb (sn_alive s) then Some s else
  s ← callback (S CALLBACK_DEPTH) s input;
  check_node s.

(** ** Crash and restart *)

(** [crash]: volatile state disappears, the virtual disk stays. *)
Definition crash (master id : N) (s : SimNode) : option SimNode :=
  if negb (sn_alive s) then Some s else
  core ← RaftNode_new id (peers (sn_core s)) (node_seed master id (sn_boot_count s));
  Some (s <| sn_core := core |> <| sn_alive := false |> <| sn_applied := [] |>
          <| sn_core_prefix := [] |> <| sn_snapshot_stage := None |>).

(** [restart]: recover from the virtual disk alone, then a tick at the current
    time. *)
Definition restart (master id now : N) (s : SimNode) : option SimNode :=
  if sn_alive s then Some s else
  let s := s <| sn_boot_count := sn_boot_count s + 1 |> in
  restored ← restore_with_snapshot id (peers (sn_core s)) (node_seed master id (sn_boot_count s))
               (sn_disk_hard s) (vi_descriptor <$> sn_disk_snapshot s) (sn_disk_log s);
  match restored with
  | inl _ => None
  | inr core =>
      '(core, effects) ← step core Recover;
      let prefix := map_or (sn_disk_snapshot s) [] vi_prefix in
      let s := s <| sn_core := core |> <| sn_alive := true |> <| sn_core_prefix := prefix |>
                 <| sn_applied := history_of prefix |> in
      s ← execute_effects (S CALLBACK_DEPTH) s effects;
      sim_input s (Tick now)
  end.
End driver.

(** ** Compaction *)

(** [bytes.resize(len, 0)] for a length that does not shrink. *)
Definition pad (bytes : list N) (len : N) : list N :=
  bytes ++ replicate (N.to_nat (len - len64 bytes)) 0.

(** The history up to the applied boundary. *)
Definition applied_prefix (s : SimNode) : list Entry :=
  sn_core_prefix s
  ++ filter (fun entry => e_index entry <= last_applied (sn_core s)) (log (sn_core s)).

(** The image of that prefix.  [render] is the [Debug] text of metadata and
    prefix. *)
Definition compaction_image (digest : list N -> list N)
    (render : SnapshotMetadata -> list Entry -> list N) (s : SimNode) (minimum_image_bytes : N)
  : option VirtualImage :=
  let n := sn_core s in
  let boundary := last_applied n in
  let prefix := applied_prefix s in
  term ← log_term n boundary;
  let metadata :=
    mkSnapshotMetadata boundary term
      (nset_list (participants (cm_state (committed_membership n)))) (hs_membership (hard n)) in
  let bytes := render metadata prefix in
  let bytes := pad bytes (N.max (N.max (len64 bytes) minimum_image_bytes) 48) in
  Some (mkVirtualImage (mkSnapshotDescriptor metadata (len64 bytes) (digest bytes)) prefix bytes).

(** [compact]: image the applied prefix, add it to the catalogue and feed the
    boundary to the core. *)
Definition compact (digest : list N -> list N)
    (render : SnapshotMetadata -> list Entry -> list N) (committed : CommittedRegistry)
    (images : Images) (s : SimNode) (minimum_image_bytes : N) : option (Images * SimNode) :=
  let n := sn_core s in
  sim_assert (sn_alive s && (snapshot_index n <? last_applied n));;
  sim_assert (forallb (fun entry => assert_applied committed (e_index entry) (e_command entry))
                (applied_prefix s));;
  image ← compaction_image digest render s minimum_image_bytes;
  sim_assert (len64 (vi_bytes image) <=? MAX_SNAPSHOT_BYTES);;
  let images := <[sha256 (vi_descriptor image) := image]> images in
  s ← sim_input digest images s (Compact (vi_descriptor image));
  Some (images, s).
