(* ===== verification/SimSafe.v ===== *)
(** * The simulator never trips its own assertions

    A step of a well-formed node followed by the execution of its effects,
    snapshot callbacks included: the batch passes the audit, every assertion
    holds where it is made, and afterwards the node, its disk and its applied
    history agree again. *)
From S2P Require Import Prelude Rng Quorum Membership Types Node MembershipProtocol.
From S2P Require Import SnapshotTransfer Replication Election Step LogFacts MembershipFacts.
From S2P Require Import Effects Invariant CommitPath SendPath LeaderPath SnapshotPath.
From S2P Require Import StepSafe SnapshotFlow Recovery SimInvariants Sim.
Local Open Scope N_scope.
Local Open Scope raft_scope.

(** ** Batches *)

Lemma audit_post b es : all post_eff es -> audit_scan b es = inr tt.
Proof.
  revert b. induction es as [|e es IH]; intros b; [done|].
  rewrite all_cons. intros [He Hes]. destruct e; cbn; try done; by apply IH.
Qed.

Lemma audit_batch t t' es : batch_ok t t' es -> audit_persist_before_send es = inr tt.
Proof.
  unfold audit_persist_before_send. revert t. induction es as [|e es IH]; intros t Hb; [done|].
  apply batch_ok_cons in Hb as (Hb & _ & Hs). pose proof (IH _ Hb) as IH'.
  destruct e; cbn; try done. apply audit_post. by apply Hs.
Qed.

Lemma exec_snapshot es d : disk_snapshot (exec es d) = disk_snapshot d.
Proof.
  unfold exec. revert d. induction es as [|e es IH]; intros d; [done|]. cbn [fold_left].
  rewrite IH. by destruct e.
Qed.

Lemma exec_no_log es d : all no_log_write es -> disk_log (exec es d) = disk_log d.
Proof.
  unfold exec. revert d. induction es as [|e es IH]; intros d; [done|]. cbn [fold_left].
  rewrite all_cons. intros [He Hes]. rewrite IH by done. by destruct e.
Qed.

Lemma applied_cons w e es w' :
  applied_run w (e :: es) = Some w' ->
  exists w1, applied_step (Some w) e = Some w1 /\ applied_run w1 es = Some w'.
Proof.
  unfold applied_run. cbn [fold_left]. destruct (applied_step (Some w) e) as [w1|]; [by exists w1|].
  intros H. exfalso. induction es as [|x es IH]; cbn in H; [done|]. destruct x; auto.
Qed.

Lemma execute_all_app digest images cb es1 es2 s :
  execute_all digest images cb s (es1 ++ es2)
  = execute_all digest images cb s es1 ≫= fun s' => execute_all digest images cb s' es2.
Proof.
  revert s. induction es1 as [|e es1 IH]; intros s; [done|]. cbn.
  destruct (execute_effect _ _ _ s e); cbn; [apply IH|done].
Qed.

(** ** Histories *)

Definition applied_index (applied : list (LogIndex * Command)) : LogIndex :=
  map_or (list.last applied) 0 fst.

Lemma applied_index_snoc l i c : applied_index (l ++ [(i, c)]) = i.
Proof. unfold applied_index. by rewrite last_snoc. Qed.

(** The last index of a sound history is its length. *)
Lemma history_index entries :
  check_log_structure entries = true -> applied_index (history_of entries) = len64 entries.
Proof.
  unfold check_log_structure. rewrite structure_scan_ok. intros [cur Hok].
  destruct entries as [|x entries _] using rev_ind; [done|].
  unfold history_of. rewrite map_app. cbn [map]. rewrite applied_index_snoc.
  assert (Hx : (entries ++ [x]) !! length entries = Some x) by by apply list_lookup_middle.
  destruct (log_ok_lookup _ _ _ _ _ _ Hok Hx) as [-> _].
  unfold len64. rewrite length_app. cbn. lia.
Qed.

(** A node's applied history passes the simulator's comparison with its log. *)
Lemma check_applied_ok entries w :
  check_log_structure entries = true -> check_applied 0 entries (history_of (take w entries)) = true.
Proof.
  unfold check_log_structure. rewrite structure_scan_ok. intros [cur Hok]. revert Hok.
  assert (Hgo : forall pre l w prev, log_ok (len64 pre) prev cur l ->
    check_applied (len64 pre) (pre ++ l) (history_of (take w l)) = true); [|exact (Hgo [] entries w 0)].
  intros pre l. revert pre. induction l as [|e l IH]; intros pre k prev Hl; [by rewrite take_nil|].
  destruct k as [|k]; [done|]. destruct Hl as (Hi & _ & Hl). cbn.
  assert (Hg : get_at (pre ++ e :: l) (len64 pre) = Some e).
  { rewrite get_at_lookup. unfold len64. by rewrite Nat2N.id, list_lookup_middle. }
  rewrite Hi, N.eqb_refl, Hg. cbn. rewrite eqb_refl. cbn.
  assert (Hlen : len64 (pre ++ [e]) = len64 pre + 1) by (unfold len64; rewrite length_app; cbn; lia).
  rewrite <- Hlen in Hl |- *.
  assert (pre ++ e :: l = (pre ++ [e]) ++ l) as -> by by rewrite <- app_assoc. by eapply IH.
Qed.

Lemma structure_take k entries :
  check_log_structure entries = true -> check_log_structure (take k entries) = true.
Proof.
  unfold check_log_structure. rewrite !structure_scan_ok. intros [cur H]. exists cur.
  by apply log_ok_take.
Qed.

(** ** Images *)

(** An image stands for a sound history up to its boundary. *)
Record image_ok (image : VirtualImage) : Prop := {
  im_structure : check_log_structure (vi_prefix image) = true;
  im_length : len64 (vi_prefix image) = last_included_index (metadata (vi_descriptor image));
  im_term : end_term 0 (vi_prefix image) = last_included_term (metadata (vi_descriptor image));
  im_bytes : len64 (vi_bytes image) = total_len (vi_descriptor image);
}.

Definition catalogue_ok (images : Images) : Prop :=
  forall key image, images !! key = Some image ->
    key = sha256 (vi_descriptor image) /\ image_ok image.

Lemma get_range_Some bytes from to :
  from <= to -> to <= len64 bytes -> exists data, get_range bytes from to = Some data
    /\ len64 data = to - from.
Proof.
  intros H1 H2. unfold get_range, len64 in *.
  rewrite (proj2 (N.leb_le _ _) H1), (proj2 (N.leb_le _ _) H2). eexists. split; [reflexivity|].
  rewrite length_take, length_drop. lia.
Qed.

(** ** Durability *)

Lemma fully_durable_ok s : disk_of s = durable (sn_core s) -> assert_fully_durable s = Some tt.
Proof.
  intros [= H1 H2 H3]. unfold assert_fully_durable. rewrite H1, H2, H3.
  by rewrite !bool_decide_true by done.
Qed.

Lemma on_apply_ok s entry :
  e_index entry = applied_index (sn_applied s) + 1 ->
  on_apply s entry = Some (s <| sn_applied := sn_applied s ++ [(e_index entry, e_command entry)] |>).
Proof.
  intros H. unfold on_apply, applied_index in *.
  destruct (list.last (sn_applied s)) as [[i c]|]; cbn in *; by rewrite H, N.eqb_refl.
Qed.

Definition stage_of (s : SimNode) : Stage :=
  (fun stage => (vs_transfer stage, vs_descriptor stage)) <$> sn_snapshot_stage s.

(** The node's whole history: what its image stands for, then its log. *)
Definition full (s : SimNode) : list Entry := sn_core_prefix s ++ log (sn_core s).

Section simulator.
Context (digest : list N -> list N) (images : Images) (Hcat : catalogue_ok images).

(** ** The middle of a batch *)

(** The image on disk is in the catalogue, and the retained prefix is its. *)
Definition disk_image_ok (s : SimNode) : Prop :=
  sn_core_prefix s = map_or (sn_disk_snapshot s) [] vi_prefix
  /\ forall image, sn_disk_snapshot s = Some image ->
       images !! sha256 (vi_descriptor image) = Some image.

(** The applied history is the node's own, up to the watermark. *)
Definition history_ok (s : SimNode) : Prop :=
  let w := applied_index (sn_applied s) in
  snapshot_index (sn_core s) <= w /\ sn_applied s = history_of (take (N.to_nat w) (full s)).

Record executing (es : list Effect) (s : SimNode) : Prop := {
  ex_inv : inv (sn_core s);
  ex_disk : exec es (disk_of s) = durable (sn_core s);
  ex_batch : batch_ok (current_term (sn_disk_hard s)) (current_term (hard (sn_core s))) es;
  ex_applied : applied_run (applied_index (sn_applied s)) es = Some (last_applied (sn_core s));
  ex_apply : forall e, Apply e ∈ es -> snapshot_index (sn_core s) < e_index e ->
    entry_at (sn_core s) (e_index e) = Some e;
  ex_history : (exists d, ApplySnapshot d ∈ es) \/ history_ok s;
  ex_image : disk_image_ok s;
  ex_flow : flow (sn_core s) (stage_run (stage_of s) es);
}.

(** What the walk through a batch leaves alone. *)
Definition steady (s s' : SimNode) : Prop :=
  still (sn_core s) (sn_core s') /\ sn_alive s' = sn_alive s
  /\ sn_last_term_seen s' = sn_last_term_seen s /\ sn_boot_count s' = sn_boot_count s
  /\ sn_disk_snapshot s' = sn_disk_snapshot s /\ sn_core_prefix s' = sn_core_prefix s.
#[local] Instance steady_preorder : PreOrder steady.
Proof.
  split.
  - intros s. by repeat split.
  - intros s1 s2 s3 (A1 & A2 & A3 & A4 & A5 & A6) (B1 & B2 & B3 & B4 & B5 & B6).
    split; [by etrans|]. by repeat split; congruence.
Qed.

Lemma disk_snapshot_eq s es :
  exec es (disk_of s) = durable (sn_core s) ->
  vi_descriptor <$> sn_disk_snapshot s = snapshot (sn_core s).
Proof.
  intros H. apply (f_equal disk_snapshot) in H. by rewrite exec_snapshot in H.
Qed.

Lemma disk_image s es d :
  exec es (disk_of s) = durable (sn_core s) -> disk_image_ok s -> snapshot (sn_core s) = Some d ->
  exists image, sn_disk_snapshot s = Some image /\ vi_descriptor image = d /\ image_ok image
    /\ sn_core_prefix s = vi_prefix image /\ images !! sha256 d = Some image.
Proof.
  intros Hd [Hp Hi] Hs. apply disk_snapshot_eq in Hd. rewrite Hs in Hd.
  apply fmap_Some in Hd as (image & Him & ->). exists image. rewrite Him in *.
  repeat (split; [done|]). split; [by eapply Hcat, Hi|]. auto.
Qed.

Lemma prefix_length s es :
  exec es (disk_of s) = durable (sn_core s) -> disk_image_ok s ->
  len64 (sn_core_prefix s) = snapshot_index (sn_core s).
Proof.
  intros Hd Hi. unfold snapshot_index. destruct (snapshot (sn_core s)) as [d|] eqn:Hs; cbn.
  - destruct (disk_image s es d Hd Hi Hs) as (image & _ & <- & Hok & -> & _). apply Hok.
  - apply disk_snapshot_eq in Hd. rewrite Hs in Hd. destruct Hi as [-> _].
    by destruct (sn_disk_snapshot s).
Qed.

(** The history of a node in this state is sound. *)
Lemma full_structure s es :
  exec es (disk_of s) = durable (sn_core s) -> disk_image_ok s -> core_ok (sn_core s) ->
  check_log_structure (full s) = true.
Proof.
  intros Hd Hi Hc. pose proof (prefix_length s es Hd Hi) as Hlen.
  apply expanded_structure; [done|done| |]; unfold snapshot_term.
  - destruct (snapshot (sn_core s)) as [d|] eqn:Hs.
    + destruct (disk_image s es d Hd Hi Hs) as (image & _ & <- & Hok & -> & _). apply Hok.
    + unfold snapshot_index in Hlen. rewrite Hs in Hlen. by destruct (sn_core_prefix s).
  - destruct (snapshot (sn_core s)) as [d|] eqn:Hs; cbn.
    + destruct (disk_image s es d Hd Hi Hs) as (image & _ & <- & Hok & -> & _).
      by rewrite (im_term _ Hok).
    + unfold snapshot_index in Hlen. rewrite Hs in Hlen. by destruct (sn_core_prefix s).
Qed.

Lemma full_lookup s es i e :
  exec es (disk_of s) = durable (sn_core s) -> disk_image_ok s ->
  snapshot_index (sn_core s) < i -> entry_at (sn_core s) i = Some e ->
  full s !! N.to_nat (i - 1) = Some e.
Proof.
  intros Hd Hi Hlt He. pose proof (prefix_length s es Hd Hi) as Hlen.
  rewrite entry_at_eq in He. destruct (N.leb_spec i (snapshot_index (sn_core s))); [lia|].
  unfold full. unfold len64 in Hlen. rewrite lookup_app_r by lia. rewrite <- He. f_equal. lia.
Qed.

(** ** Replies *)

(** A nested batch that only sends or refuses. *)
Lemma execute_replies cb s es :
  disk_of s = durable (sn_core s) -> all reply_only es ->
  exists net, execute_all digest images cb s es = Some (s <| sn_net := net |>).
Proof.
  intros Hd. revert s Hd. induction es as [|e es IH]; intros s Hd.
  { intros _. exists (sn_net s). cbn. by destruct s. }
  rewrite all_cons. intros [He Hes]. destruct e; try done; cbn.
  - rewrite fully_durable_ok by done. cbn.
    destruct (IH (s <| sn_net := sn_net s ++ [(to, msg)] |>)) as [net Hn]; [exact Hd|exact Hes|].
    exists net. exact Hn.
  - by apply IH.
Qed.

Lemma audit_replies es : all reply_only es -> audit_persist_before_send es = inr tt.
Proof. intros H. apply audit_post. eapply all_impl; [|exact H]. by intros []. Qed.

(** Answering a request to read a chunk. *)
Lemma chunk_callback fuel s st to transfer d o data :
  disk_of s = durable (sn_core s) -> flow (sn_core s) st ->
  exists n' net, callback digest images (S fuel) s (SnapshotChunkRead to transfer d o data)
    = Some (s <| sn_core := n' |> <| sn_net := net |>) /\ still (sn_core s) n' /\ flow n' st.
Proof.
  intros Hd Hf.
  destruct (step_chunk_read (sn_core s) st to transfer d o data Hf) as (n' & es & Hrun & Hst & Hf' & Hes).
  assert (Hd' : disk_of (s <| sn_core := n' |>) = durable n').
  { etrans; [exact Hd|]. symmetry. apply frame_durable, Hst. }
  unfold callback. rewrite Hrun. cbn [mbind option_bind execute_effects].
  rewrite audit_replies by done.
  destruct (execute_replies (callback digest images fuel) (s <| sn_core := n' |>) es Hd' Hes)
    as [net Hn].
  unfold callback in Hn. rewrite Hn. cbn [mbind option_bind].
  rewrite fully_durable_ok by exact Hd'. by exists n', net.
Qed.

(** ** One effect *)

(** The next effect is up, the core untouched. *)
Lemma executing_next e es s s' :
  executing (e :: es) s -> sn_core s' = sn_core s -> disk_of s' = persist (disk_of s) e ->
  sn_core_prefix s' = sn_core_prefix s -> sn_disk_snapshot s' = sn_disk_snapshot s ->
  stage_of s' = stage_step (stage_of s) e ->
  applied_step (Some (applied_index (sn_applied s))) e = Some (applied_index (sn_applied s')) ->
  (exists d, ApplySnapshot d ∈ es) \/ history_ok s' ->
  executing es s'.
Proof.
  intros [Hi Hd Hb Ha Hap _ Him Hf] Hc Hd' Hp Hsn Hst Hw Hh.
  apply batch_ok_cons in Hb as (Hb & _ & _). apply applied_cons in Ha as (w & Hw1 & Ha).
  split; rewrite ?Hc; try done.
  - by rewrite Hd'.
  - change (sn_disk_hard s') with (disk_hard (disk_of s')). rewrite Hd'. by destruct e.
  - congruence.
  - intros x Hx. apply Hap. by right.
  - unfold disk_image_ok. by rewrite Hp, Hsn.
  - by rewrite Hst.
Qed.

(** An effect that applies nothing keeps the history. *)
Lemma history_kept e es s s' :
  executing (e :: es) s -> is_apply e = false -> sn_core s' = sn_core s ->
  sn_core_prefix s' = sn_core_prefix s -> sn_applied s' = sn_applied s ->
  (exists d, ApplySnapshot d ∈ es) \/ history_ok s'.
Proof.
  intros Hx He Hc Hp Ha. destruct (ex_history _ _ Hx) as [[d Hd]|Hh].
  - left. exists d. apply elem_of_cons in Hd as [<-|]; [done|done].
  - right. unfold history_ok, full. by rewrite Ha, Hc, Hp.
Qed.

Lemma executing_plain e es s s' :
  executing (e :: es) s -> is_apply e = false -> sn_core s' = sn_core s ->
  disk_of s' = persist (disk_of s) e -> sn_core_prefix s' = sn_core_prefix s ->
  sn_disk_snapshot s' = sn_disk_snapshot s -> stage_of s' = stage_step (stage_of s) e ->
  sn_applied s' = sn_applied s -> executing es s'.
Proof.
  intros Hx He Hc Hd Hp Hsn Hst Ha. eapply executing_next; try done.
  - rewrite Ha. by destruct e.
  - by eapply history_kept.
Qed.

Lemma executing_durable e es s :
  executing (e :: es) s -> is_strong e = true -> disk_of s = durable (sn_core s).
Proof.
  intros [_ Hd Hb _ _ _ _ _] He. apply batch_ok_cons in Hb as (_ & _ & Hs).
  cbn in Hd. rewrite exec_none in Hd by auto. rewrite <- Hd. by destruct e.
Qed.

Lemma executing_term e es s :
  executing (e :: es) s -> is_weak e = true ->
  current_term (sn_disk_hard s) = current_term (hard (sn_core s)).
Proof. intros [_ _ Hb _ _ _ _ _] He. apply batch_ok_cons in Hb as (_ & Hw & _). auto. Qed.

Section effect.
Context (fuel : nat) (es : list Effect) (s : SimNode).
Local Abbreviation run e := (execute_effect digest images (callback digest images (S fuel)) s e).
Local Abbreviation goes e := (exists s', run e = Some s' /\ executing es s' /\ steady s s').

(** The effects that change neither core nor history. *)
Lemma execute_plain e :
  executing (e :: es) s -> is_apply e = false -> calm (snapshot (sn_core s)) e ->
  (forall to t d o m, e <> ReadSnapshotChunk to t d o m) -> goes e.
Proof.
  intros Hx He Hcalm Hread.
  assert (Hf : is_strong e = true -> assert_fully_durable s = Some tt).
  { intros H. apply fully_durable_ok. by eapply executing_durable. }
  assert (Ht : is_weak e = true -> assert_term_durable s = Some tt).
  { intros H. unfold assert_term_durable. by rewrite (executing_term e es s Hx H), N.eqb_refl. }
  assert (Hsame : executing es s -> exists s', Some s = Some s' /\ executing es s' /\ steady s s').
  { intros H. exists s. split; [done|]. split; [done|reflexivity]. }
  destruct e; try done; cbn [execute_effect execute_snapshot_effect];
    try (rewrite Hf by done); try (rewrite Ht by done); cbn [mbind option_bind].
  all: try (eexists; split; [reflexivity|split; [by eapply executing_plain|by repeat split]]).
  - unfold is_strong, is_weak in *. cbn in Hf, Ht.
    destruct (eqb role_name "Follower"); [rewrite Ht by done|rewrite Hf by done];
      apply Hsame; by eapply executing_plain.
  - by destruct (Hread to transfer descriptor offset max_len).
  - eexists. split; [reflexivity|]. split.
    + eapply executing_plain; [exact Hx|done|..]; try by destruct (is_some_and _ _).
      cbn [stage_step]. unfold stage_of. destruct (sn_snapshot_stage s) as [v|] eqn:Hv; cbn.
      * destruct (eqb (vs_transfer v) transfer); cbn; [done|by rewrite Hv].
      * by rewrite Hv.
    + destruct (is_some_and _ _); by repeat split.
Qed.

Lemma execute_apply entry : executing (Apply entry :: es) s -> goes (Apply entry).
Proof.
  intros Hx. pose proof (executing_durable _ _ _ Hx eq_refl) as Hd.
  destruct (applied_cons _ _ _ _ (ex_applied _ _ Hx)) as (w & Hw & _). cbn in Hw.
  destruct (N.eqb_spec (e_index entry) (applied_index (sn_applied s) + 1)) as [E|]; [|done].
  cbn [execute_effect]. rewrite fully_durable_ok by done. cbn [mbind option_bind].
  rewrite on_apply_ok by done. eexists. split; [reflexivity|]. split; [|by repeat split].
  eapply executing_next; [exact Hx|done..| |].
  - cbn. rewrite applied_index_snoc, E, N.eqb_refl. done.
  - destruct (ex_history _ _ Hx) as [[d Hin]|[Hlo Hh]].
    + left. exists d. by apply elem_of_cons in Hin as [?|].
    + right. unfold history_ok. cbn [sn_applied upd]. rewrite applied_index_snoc.
      change (snapshot_index (sn_core s) <= e_index entry
        /\ sn_applied s ++ [(e_index entry, e_command entry)]
           = history_of (take (N.to_nat (e_index entry)) (full s))).
      split; [lia|].
      assert (He : full s !! N.to_nat (applied_index (sn_applied s)) = Some entry).
      { rewrite <- (full_lookup s (Apply entry :: es) (e_index entry) entry (ex_disk _ _ Hx)
                     (ex_image _ _ Hx)); [f_equal; lia|lia|].
        apply (ex_apply _ _ Hx); [left|lia]. }
      rewrite E, N.add_1_r, N2Nat.inj_succ, (take_S_r _ _ _ He).
      unfold history_of. rewrite map_app. cbn [map]. f_equal; [exact Hh|]. by rewrite E, N.add_1_r.
Qed.

Lemma execute_announce d :
  executing (ApplySnapshot d :: es) s -> snapshot (sn_core s) = Some d -> goes (ApplySnapshot d).
Proof.
  intros Hx Hs. pose proof (executing_durable _ _ _ Hx eq_refl) as Hd.
  destruct (disk_image s _ d (ex_disk _ _ Hx) (ex_image _ _ Hx) Hs)
    as (image & Him & Hde & Hok & Hp & _).
  cbn [execute_effect execute_snapshot_effect]. rewrite fully_durable_ok by done.
  cbn [mbind option_bind]. rewrite Him. cbn [mbind option_bind].
  rewrite bool_decide_true by done. cbn [sim_assert mbind option_bind].
  eexists. split; [reflexivity|]. split; [|by repeat split].
  pose proof (history_index _ (im_structure _ Hok)) as Hw.
  rewrite (im_length _ Hok), Hde in Hw.
  eapply executing_next; [exact Hx|done..| |].
  - cbn. by rewrite Hw.
  - right. unfold history_ok. cbn [sn_applied upd]. rewrite Hw.
    change (snapshot_index (sn_core s) <= last_included_index (metadata d)
      /\ history_of (vi_prefix image)
         = history_of (take (N.to_nat (last_included_index (metadata d))) (full s))).
    split; [unfold snapshot_index; rewrite Hs; cbn; lia|].
    unfold full. rewrite Hp, <- Hde, <- (im_length _ Hok). unfold len64.
    by rewrite Nat2N.id, take_app_length.
Qed.

(** The image is read where the core says, and answered. *)
Lemma execute_read to t d o m :
  executing (ReadSnapshotChunk to t d o m :: es) s -> publishing_snapshot (sn_core s) = None ->
  snapshot (sn_core s) = Some d -> o <= total_len d -> goes (ReadSnapshotChunk to t d o m).
Proof.
  intros Hx Hpub Hs Ho. pose proof (executing_durable _ _ _ Hx eq_refl) as Hd.
  destruct (disk_image s _ d (ex_disk _ _ Hx) (ex_image _ _ Hx) Hs)
    as (image & Him & Hde & Hok & _ & _).
  cbn [execute_effect execute_snapshot_effect]. unfold read_chunk.
  rewrite Him. cbn [mbind option_bind]. rewrite bool_decide_true by done.
  cbn [sim_assert mbind option_bind].
  pose proof (im_bytes _ Hok) as Hlen. rewrite Hde in Hlen.
  destruct (get_range_Some (vi_bytes image) o (N.min (o + m) (len64 (vi_bytes image))))
    as (data & -> & _); [lia|lia|]. cbn [mbind option_bind].
  destruct (chunk_callback fuel s (stage_run (stage_of s) (ReadSnapshotChunk to t d o m :: es))
              to t d o data Hd (ex_flow _ _ Hx)) as (n' & net & Hrun & Hst & Hfl).
  eexists. split; [exact Hrun|]. split; [|by repeat split; apply Hst].
  destruct Hx as [Hi Hx1 Hx2 Hx3 Hx4 Hx5 Hx6 _]. pose proof (st_frame _ _ Hst) as Hfr.
  apply batch_ok_cons in Hx2 as (Hx2 & _ & _).
  assert (Hsn : snapshot_index n' = snapshot_index (sn_core s)).
  { unfold snapshot_index. by rewrite (fr_snap _ _ Hfr). }
  split; cbn [sn_core upd].
  - split; [eapply good_still; [exact Hst|apply Hi]|]. intros p Hp.
    change (publishing_snapshot n' = Some p) in Hp. rewrite (fr_pub _ _ Hfr) in Hp. congruence.
  - etrans; [exact Hx1|]. symmetry. by apply frame_durable.
  - rewrite <- (fr_hard _ _ Hfr) in Hx2. exact Hx2.
  - etrans; [exact Hx3|]. f_equal. symmetry. apply Hfr.
  - intros x Hin. rewrite Hsn. intros Hlt.
    rewrite <- (Hx4 x ltac:(by right) Hlt).
    unfold entry_at. by rewrite Hsn, (fr_log _ _ Hfr).
  - destruct Hx5 as [[x Hin]|Hh].
    + left. exists x. by apply elem_of_cons in Hin as [?|].
    + right. unfold history_ok, full in *. cbn. by rewrite Hsn, (fr_log _ _ Hfr).
  - exact Hx6.
  - exact Hfl.
Qed.

Lemma execute_calm e :
  executing (e :: es) s -> publishing_snapshot (sn_core s) = None ->
  calm (snapshot (sn_core s)) e -> goes e.
Proof.
  intros Hx Hp Hc. destruct (is_apply e) eqn:He.
  - destruct e; try done; [by apply execute_apply|by apply execute_announce].
  - destruct e; try (by apply execute_plain). destruct Hc. by apply execute_read.
Qed.
End effect.

(** A calm run of effects. *)
Lemma execute_walk fuel es rest s :
  executing (es ++ rest) s -> publishing_snapshot (sn_core s) = None ->
  (forall e, e ∈ es -> calm (snapshot (sn_core s)) e) ->
  exists s', execute_all digest images (callback digest images (S fuel)) s es = Some s'
    /\ executing rest s' /\ steady s s'.
Proof.
  revert s. induction es as [|e es IH]; intros s Hx Hp Hc.
  { exists s. split; [done|]. split; [done|reflexivity]. }
  destruct (execute_calm fuel (es ++ rest) s e Hx Hp) as (s1 & Hrun & Hx1 & Hs1); [apply Hc; left|].
  pose proof (st_frame _ _ (proj1 Hs1)) as Hf.
  destruct (IH s1 Hx1) as (s2 & Hrun2 & Hx2 & Hs2).
  - by rewrite (fr_pub _ _ Hf).
  - intros x Hin. rewrite (fr_snap _ _ Hf). apply Hc. by right.
  - exists s2. cbn [execute_all]. rewrite Hrun. cbn [mbind option_bind].
    split; [exact Hrun2|]. split; [done|by etrans].
Qed.

(** ** Between batches *)

(** Node, disk and applied history agree. *)
Record settled (s : SimNode) : Prop := {
  se_inv : inv (sn_core s);
  se_disk : disk_of s = durable (sn_core s);
  se_history : sn_applied s = history_of (take (N.to_nat (last_applied (sn_core s))) (full s));
  se_image : disk_image_ok s;
  se_flow : flow (sn_core s) (stage_of s);
}.

(** ... and no publication is in flight. *)
Definition ready (s : SimNode) : Prop := settled s /\ publishing_snapshot (sn_core s) = None.

(** What a batch carries over. *)
Definition carried (s s' : SimNode) : Prop :=
  sn_alive s' = sn_alive s /\ sn_last_term_seen s' = sn_last_term_seen s
  /\ sn_boot_count s' = sn_boot_count s
  /\ current_term (hard (sn_core s)) <= current_term (hard (sn_core s')).
#[local] Instance carried_preorder : PreOrder carried.
Proof.
  split; [intros s; by repeat split; lia|].
  intros s1 s2 s3 (A1 & A2 & A3 & A4) (B1 & B2 & B3 & B4). repeat split; [congruence..|lia].
Qed.

Lemma steady_carried s s' : steady s s' -> carried s s'.
Proof.
  intros (H1 & H2 & H3 & H4 & _). repeat split; try done.
  rewrite (fr_hard _ _ (st_frame _ _ H1)). lia.
Qed.

Lemma settled_core s : settled s -> core_ok (sn_core s).
Proof. intros Hs. apply (se_inv _ Hs). Qed.

Lemma full_length s :
  settled s -> len64 (full s) = last_log_index (sn_core s).
Proof.
  intros Hs. pose proof (prefix_length s [] (se_disk _ Hs) (se_image _ Hs)) as Hlen.
  rewrite (last_log_index_eq _ (wf_log _ (settled_core _ Hs))). unfold full, len64 in *.
  rewrite length_app. lia.
Qed.

Lemma settled_applied s :
  settled s -> last_applied (sn_core s) <= len64 (full s)
    /\ len64 (sn_applied s) = last_applied (sn_core s)
    /\ applied_index (sn_applied s) = last_applied (sn_core s).
Proof.
  intros Hs. pose proof (settled_core _ Hs) as Hc. pose proof (full_length _ Hs) as Hl.
  pose proof (wf_ac _ Hc). pose proof (wf_cl _ Hc) as Hcl.
  rewrite <- (last_log_index_eq _ (wf_log _ Hc)) in Hcl.
  assert (Hle : last_applied (sn_core s) <= len64 (full s)) by lia. split; [done|].
  assert (len64 (take (N.to_nat (last_applied (sn_core s))) (full s)) = last_applied (sn_core s)).
  { unfold len64 in *. rewrite length_take. lia. }
  rewrite (se_history _ Hs). split.
  - unfold history_of, len64 in *. by rewrite length_map.
  - rewrite history_index; [done|]. apply structure_take.
    by apply (full_structure s [] (se_disk _ Hs) (se_image _ Hs)).
Qed.

Lemma executing_done s : executing [] s -> publishing_snapshot (sn_core s) = None -> ready s.
Proof.
  intros [Hi Hd _ Ha _ Hh Him Hf] Hp. split; [|done].
  unfold applied_run in Ha. cbn in Ha. injection Ha as Ha.
  split; [done|exact Hd| |done|exact Hf].
  destruct Hh as [[d Hin]|[_ Hh]]; [by apply not_elem_of_nil in Hin|]. by rewrite <- Ha.
Qed.

(** The entries below the watermark survive a step that keeps the image. *)
Lemma take_full_kept s n' es :
  settled s -> core_ok n' -> logical (sn_core s) es n' -> snapshot n' = snapshot (sn_core s) ->
  take (N.to_nat (last_applied (sn_core s))) (full (s <| sn_core := n' |>))
  = take (N.to_nat (last_applied (sn_core s))) (full s).
Proof.
  intros Hs Hc' Hl Hsn. pose proof (settled_core _ Hs) as Hc.
  pose proof (prefix_length s [] (se_disk _ Hs) (se_image _ Hs)) as Hlen.
  pose proof (wf_ac _ Hc) as Hac. pose proof (wf_sa _ Hc) as Hsa.
  assert (Hsi : snapshot_index n' = snapshot_index (sn_core s)).
  { unfold snapshot_index. by rewrite Hsn. }
  unfold full. change (sn_core_prefix (s <| sn_core := n' |>)) with (sn_core_prefix s).
  change (sn_core (s <| sn_core := n' |>)) with n'. unfold len64 in Hlen.
  rewrite !take_app_ge by lia. f_equal.
  set (k := (N.to_nat (last_applied (sn_core s)) - length (sn_core_prefix s))%nat).
  apply list_eq. intros i. destruct (decide (i < k)%nat) as [Hi|Hi].
  - rewrite !lookup_take_lt by done.
    pose proof (lg_keep _ _ _ Hl (snapshot_index n' + N.of_nat i + 1)) as Hk.
    rewrite !entry_at_eq, Hsi in Hk.
    destruct (N.leb_spec (snapshot_index (sn_core s) + N.of_nat i + 1)
                (snapshot_index (sn_core s))); [lia|].
    replace (N.to_nat (snapshot_index (sn_core s) + N.of_nat i + 1 - snapshot_index (sn_core s) - 1))
      with i in Hk by lia.
    apply Hk; lia.
  - by rewrite !lookup_take_ge by lia.
Qed.

(** A step begins. *)
Lemma start_executing s n' es :
  settled s -> stepped (durable (sn_core s)) (sn_core s) es n' ->
  snapshot n' = snapshot (sn_core s) -> flow n' (stage_run (stage_of s) es) ->
  executing es (s <| sn_core := n' |>).
Proof.
  intros Hs [Hi Hl Hx Hb] Hsn Hf. pose proof (se_disk _ Hs) as Hd.
  destruct (settled_applied _ Hs) as (_ & _ & Hw).
  assert (Hsi : snapshot_index n' = snapshot_index (sn_core s)).
  { unfold snapshot_index. by rewrite Hsn. }
  split; cbn [sn_core upd]; try done.
  - change (exec es (disk_of s) = durable n'). by rewrite Hd.
  - change (sn_disk_hard (s <| sn_core := n' |>)) with (disk_hard (disk_of s)). by rewrite Hd.
  - change (sn_applied (s <| sn_core := n' |>)) with (sn_applied s). rewrite Hw. apply Hl.
  - intros e He. by apply Hl.
  - right. unfold history_ok. change (sn_applied (s <| sn_core := n' |>)) with (sn_applied s).
    change (sn_core (s <| sn_core := n' |>)) with n'. rewrite Hw. split.
    + rewrite Hsi. apply (wf_sa _ (settled_core _ Hs)).
    + rewrite (take_full_kept s n' es Hs); [apply Hs|apply Hi|done|done].
  - exact (se_image _ Hs).
Qed.

(** A whole batch without chunks or publications. *)
Lemma execute_batch fuel es s :
  executing es s -> publishing_snapshot (sn_core s) = None ->
  (forall e, e ∈ es -> calm (snapshot (sn_core s)) e) ->
  exists s', execute_effects digest images (S (S fuel)) s es = Some s' /\ ready s' /\ carried s s'.
Proof.
  intros Hx Hp Hc. rewrite <- (app_nil_r es) in Hx.
  destruct (execute_walk fuel es [] s Hx Hp Hc) as (s' & Hrun & Hx' & Hs').
  assert (Hr : ready s').
  { apply executing_done; [done|]. by rewrite (fr_pub _ _ (st_frame _ _ (proj1 Hs'))). }
  exists s'. split; [|split; [done|by apply steady_carried]].
  cbn [execute_effects]. rewrite app_nil_r in Hx.
  rewrite (audit_batch _ _ _ (ex_batch _ _ Hx)).
  change (execute_all digest images _ s es)
    with (execute_all digest images (callback digest images (S fuel)) s es).
  rewrite Hrun. cbn [mbind option_bind]. by rewrite fully_durable_ok by apply Hr.
Qed.

(** ** Publication *)

Lemma find_index base prev cur l b :
  log_ok base prev cur l ->
  List.find (fun e => e_index e =? b) l
  = if b <=? base then None else l !! N.to_nat (b - base - 1).
Proof.
  revert base prev. induction l as [|e l IH]; intros base prev Hl; cbn [List.find].
  { by destruct (b <=? base). }
  destruct Hl as (Hi & _ & Hl). rewrite Hi, (IH _ _ Hl).
  destruct (N.eqb_spec (base + 1) b) as [<-|Hne].
  - destruct (N.leb_spec (base + 1) base); [lia|]. by rewrite N.add_sub_swap, N.sub_diag by lia.
  - destruct (N.leb_spec b (base + 1)), (N.leb_spec b base); try done; try lia.
    by replace (N.to_nat (b - base - 1)) with (S (N.to_nat (b - (base + 1) - 1))) by lia.
Qed.

(** The simulator's own derivation of the retained suffix is the core's. *)
Lemma expected_retained_eq s d :
  disk_of s = durable (sn_core s) -> core_ok (sn_core s) ->
  0 < last_included_index (metadata d) ->
  expected_retained s d = retained_suffix (sn_core s) d.
Proof.
  intros [= _ Hl Hs] Hc Hpos. unfold expected_retained, retained_suffix. rewrite Hl.
  set (b := last_included_index (metadata d)) in *. set (n := sn_core s) in *.
  rewrite (find_index _ _ _ _ b (wf_log _ Hc)).
  enough (match (if b <=? snapshot_index n then None
                 else log n !! N.to_nat (b - snapshot_index n - 1)) with
          | Some entry => Some (e_term entry)
          | None => old ← sn_disk_snapshot s;
                    if last_included_index (metadata (vi_descriptor old)) =? b
                    then Some (last_included_term (metadata (vi_descriptor old))) else None
          end = log_term n b) as -> by done.
  unfold log_term. rewrite entry_at_eq.
  assert (Hold : (old ← sn_disk_snapshot s;
                  if last_included_index (metadata (vi_descriptor old)) =? b
                  then Some (last_included_term (metadata (vi_descriptor old))) else None)
                 = if b =? snapshot_index n then Some (snapshot_term n) else None).
  { unfold snapshot_index, snapshot_term. rewrite <- Hs.
    destruct (sn_disk_snapshot s) as [old|]; cbn; [by rewrite N.eqb_sym|].
    destruct (N.eqb_spec b 0); [lia|done]. }
  rewrite Hold. destruct (N.leb_spec b (snapshot_index n)), (N.eqb_spec b (snapshot_index n));
    try done; lia.
Qed.

Lemma descriptor_positive d : descriptor_validate d = Ok tt -> 0 < last_included_index (metadata d).
Proof.
  unfold descriptor_validate, metadata_validate. intros H. result_inv. bool_inv. lia.
Qed.

(** What a publication in flight needs of the catalogue and the stage. *)
Record publishable (s : SimNode) (p : PublishingSnapshot) (image : VirtualImage) : Prop := {
  pb_image : images !! sha256 (ps_descriptor p) = Some image;
  pb_descriptor : vi_descriptor image = ps_descriptor p;
  pb_source : match ps_transfer p with
              | Some t => exists stage, sn_snapshot_stage s = Some stage
                  /\ vs_transfer stage = t /\ vs_bytes stage = vi_bytes image
                  /\ image_matches_log (sn_core s) (ps_descriptor p)
              | None => vi_prefix image
                  = take (N.to_nat (last_included_index (metadata (ps_descriptor p)))) (full s)
              end;
}.

Definition published_node (s : SimNode) (p : PublishingSnapshot) (image : VirtualImage) : SimNode :=
  s <| sn_disk_log := ps_retained p |> <| sn_disk_snapshot := Some image |>
    <| sn_core_prefix := vi_prefix image |>.

Lemma publish_image_ok s p image :
  settled s -> publishing_snapshot (sn_core s) = Some p -> publishable s p image ->
  publish_image images s (ps_transfer p) (ps_descriptor p) (ps_retained p)
  = Some (published_node s p image).
Proof.
  intros Hs Hp [Him Hde Hsrc]. destruct (proj2 (se_inv _ Hs) p Hp) as (Hv & _ & Hret & _).
  assert (Hst : match ps_transfer p with
     | None => Some tt
     | Some _ => stage ← sn_snapshot_stage s;
         sim_assert (bool_decide (Some (vs_transfer stage) = ps_transfer p));;
         sim_assert (bool_decide (vs_bytes stage = vi_bytes image))
     end = Some tt).
  { destruct (ps_transfer p) as [t|] eqn:Ht; [|done].
    destruct Hsrc as (stage & -> & E1 & E2 & _). cbn. rewrite E1, E2.
    by rewrite !bool_decide_true by done. }
  unfold publish_image. rewrite Him. cbn [mbind option_bind].
  rewrite (bool_decide_eq_true_2 (vi_descriptor image = ps_descriptor p)) by done.
  cbn [mbind option_bind sim_assert].
  unfold mbind, option_bind in Hst |- *. rewrite Hst.
  rewrite (expected_retained_eq s _ (se_disk _ Hs) (settled_core _ Hs) (descriptor_positive _ Hv)).
  rewrite <- Hret, bool_decide_true by done. reflexivity.
Qed.

(** A compaction keeps the history: its prefix and suffix are the old log. *)
Lemma compaction_full s p image n' :
  settled s -> publishing_snapshot (sn_core s) = Some p -> ps_transfer p = None ->
  publishable s p image -> log n' = ps_retained p ->
  vi_prefix image ++ log n' = full s.
Proof.
  intros Hs Hp Ht [_ _ Hsrc] ->. rewrite Ht in Hsrc.
  destruct (proj2 (se_inv _ Hs) p Hp) as (_ & _ & -> & Hcase). rewrite Ht in Hcase.
  destruct Hcase as ([Hlo Hhi] & Hlt & _ & _). unfold retained_suffix.
  rewrite (proj2 (eqb_true _ _) Hlt), (suffix_filter _ (settled_core _ Hs) _ _ Hlt), Hsrc.
  pose proof (prefix_length s [] (se_disk _ Hs) (se_image _ Hs)) as Hlen. unfold len64 in Hlen.
  set (b := last_included_index (metadata (ps_descriptor p))) in *.
  rewrite <- (take_drop (N.to_nat b) (full s)) at 2. f_equal. unfold full, log_pos.
  rewrite drop_app_ge by lia. f_equal. lia.
Qed.

(** The core is told, and the batch it answers with begins. *)
Lemma published_executing s p image :
  settled s -> publishing_snapshot (sn_core s) = Some p ->
  recovery_pending (sn_core s) = false -> publishable s p image ->
  exists n' es,
    step (sn_core s) (SnapshotPublished (ps_transfer p) (ps_descriptor p)) = Some (n', es)
    /\ executing es (published_node s p image <| sn_core := n' |>)
    /\ publishing_snapshot n' = None /\ (forall e, e ∈ es -> calm (snapshot n') e)
    /\ current_term (hard (sn_core s)) <= current_term (hard n').
Proof.
  intros Hs Hp Hrec Hpb. pose proof Hpb as [Him Hde Hsrc].
  set (i := SnapshotPublished (ps_transfer p) (ps_descriptor p)).
  assert (Hok : input_ok (sn_core s) i).
  { cbn. destruct (ps_transfer p); [|done]. by destruct Hsrc as (_ & _ & _ & _ & ?). }
  destruct (step_safe (sn_core s) i (se_inv _ Hs)) as (n' & es & Hrun & [Hi Hl Hx Hb]);
    [right; eauto|done|by left|].
  destruct (step_published (sn_core s) p (stage_of s) n' es (se_inv _ Hs) Hp Hrec Hrun)
    as [(Hfl & Hsn & Hpub & Hcalm) Han].
  change (snapshot (published (sn_core s) p)) with (Some (ps_descriptor p)) in Hsn, Hcalm.
  destruct (settled_applied _ Hs) as (_ & _ & Hw).
  exists n', es. split; [done|].
  assert (Hd1 : disk_of (published_node s p image <| sn_core := n' |>)
                = start_disk (sn_core s) i).
  { cbn [start_disk i]. unfold published_disk. rewrite Hp, !eqb_refl. cbn [andb].
    unfold disk_of. cbn. rewrite Hde. pose proof (se_disk _ Hs) as Hd. by injection Hd as -> _ _. }
  assert (Hsi : snapshot_index n' = last_included_index (metadata (ps_descriptor p))).
  { unfold snapshot_index. by rewrite Hsn. }
  split; [|split; [exact Hpub|split; [by rewrite Hsn|exact (proj1 (lg_hard _ _ _ Hl))]]].
  split; change (sn_core (published_node s p image <| sn_core := n' |>)) with n'; try done.
  - by rewrite Hd1.
  - change (sn_disk_hard (published_node s p image <| sn_core := n' |>)) with (sn_disk_hard s).
    pose proof (se_disk _ Hs) as Hd. injection Hd as -> _ _. exact Hb.
  - change (sn_applied (published_node s p image <| sn_core := n' |>)) with (sn_applied s).
    rewrite Hw. apply Hl.
  - intros e He. by apply Hl.
  - unfold announced in Han. destruct (ps_transfer p) as [t|] eqn:Ht; [left; eauto|right].
    destruct Han as [-> ->]. unfold history_ok.
    change (sn_applied (published_node s p image <| sn_core := _ |>)) with (sn_applied s).
    change (sn_core (published_node s p image <| sn_core := ?n |>)) with n. rewrite Hw. split.
    + rewrite Hsi. destruct (proj2 (se_inv _ Hs) p Hp) as (_ & _ & _ & Hcase).
      rewrite Ht in Hcase. lia.
    + etrans; [apply Hs|]. do 2 f_equal. symmetry.
      by apply (compaction_full s p image (published (sn_core s) p)).
  - split; [done|]. intros x [= <-]. by rewrite Hde.
Qed.

(** The [PublishSnapshot] effect, its callback included. *)
Lemma execute_publish fuel s p image :
  settled s -> publishing_snapshot (sn_core s) = Some p ->
  recovery_pending (sn_core s) = false -> publishable s p image ->
  exists s', execute_effect digest images (callback digest images (S (S fuel))) s
      (PublishSnapshot (ps_transfer p) (ps_descriptor p) (ps_retained p)) = Some s'
    /\ ready s' /\ carried s s'.
Proof.
  intros Hs Hp Hrec Hpb.
  destruct (published_executing s p image Hs Hp Hrec Hpb) as (n' & es & Hrun & Hx & Hpub & Hc & Ht).
  destruct (execute_batch fuel es _ Hx Hpub Hc) as (s' & He & Hr & Hca).
  exists s'. split; [|split; [done|]].
  - cbn [execute_effect execute_snapshot_effect]. rewrite (publish_image_ok s p image) by done.
    cbn [mbind option_bind]. unfold callback.
    change (sn_core (published_node s p image)) with (sn_core s). rewrite Hrun. exact He.
  - etrans; [|exact Hca]. by repeat split.
Qed.

(** A batch that is a request to publish. *)
Lemma execute_publish_batch fuel s p image :
  settled s -> publishing_snapshot (sn_core s) = Some p ->
  recovery_pending (sn_core s) = false -> publishable s p image ->
  exists s', execute_effects digest images (S (S (S fuel))) s
      [PublishSnapshot (ps_transfer p) (ps_descriptor p) (ps_retained p)] = Some s'
    /\ ready s' /\ carried s s'.
Proof.
  intros Hs Hp Hrec Hpb. destruct (execute_publish fuel s p image Hs Hp Hrec Hpb)
    as (s' & Hrun & Hr & Hca).
  exists s'. split; [|done]. cbn [execute_effects].
  rewrite (audit_post false [_]) by by rewrite all_cons; split; [|apply all_nil].
  change (execute_all digest images _ s _)
    with (execute_all digest images (callback digest images (S (S fuel))) s
            [PublishSnapshot (ps_transfer p) (ps_descriptor p) (ps_retained p)]).
  cbn [execute_all]. rewrite Hrun. cbn [mbind option_bind].
  by rewrite fully_durable_ok by apply Hr.
Qed.

(** ** Staging *)

(** The data of a chunk is the catalogue's, where the catalogue knows the
    image. *)
Definition genuine (d : SnapshotDescriptor) (o : N) (data : list N) : Prop :=
  forall image, images !! sha256 d = Some image -> vi_descriptor image = d ->
    get_range (vi_bytes image) o (o + len64 data) = Some data.

Section staging.
Context (s : SimNode) (Hs : settled s).
Context (a : IncomingSnapshot) (Ha : incoming_snapshot (sn_core s) = Some a).
Local Abbreviation transfer := (is_transfer a).
Local Abbreviation d := (is_descriptor a).

(** What the core may conclude from the verdict. *)
Definition staged_ok (s1 : SimNode) (result : SnapshotStageResult) : Prop :=
  flow (sn_core s) (stage_of s1)
  /\ forall no c, result = Accepted no c -> snapshot (sn_core s) <> Some d ->
       stage_of s1 = Some (transfer, d)
       /\ (c = true -> exists image stage, images !! sha256 d = Some image
             /\ vi_descriptor image = d /\ sn_snapshot_stage s1 = Some stage
             /\ vs_transfer stage = transfer /\ vs_bytes stage = vi_bytes image).

(** The stage of the transfer in progress is always one the core can rely on. *)
Lemma stage_flow s1 stage :
  sn_snapshot_stage s1 = Some stage -> vs_transfer stage = transfer -> vs_descriptor stage = d ->
  flow (sn_core s) (stage_of s1).
Proof.
  intros Hst Ht Hd. destruct (se_flow _ Hs) as [Hout _]. split; [exact Hout|].
  intros b Hb _ _. assert (b = a) as -> by congruence. unfold stage_of. rewrite Hst. cbn.
  by rewrite Ht, Hd.
Qed.

Lemma stage_data_ok image stage o data :
  images !! sha256 d = Some image -> vi_descriptor image = d ->
  vs_transfer stage = transfer -> vs_descriptor stage = d ->
  let '(stage', result) := stage_data digest image stage d o data in
  staged_ok (s <| sn_snapshot_stage := Some stage' |>) result.
Proof.
  intros Him Hde Ht Hd. unfold stage_data.
  assert (Hgo : forall stage' (accepted : bool),
    vs_transfer stage' = transfer -> vs_descriptor stage' = d ->
    staged_ok (s <| sn_snapshot_stage := Some stage' |>)
      (if (accepted && (negb (len64 (vs_bytes stage') =? total_len d)
             || (eqb (vs_bytes stage') (vi_bytes image)
                 && eqb (digest (vs_bytes stage')) (sha256 d))))%bool
       then Accepted (len64 (vs_bytes stage')) (len64 (vs_bytes stage') =? total_len d)
       else Rejected)).
  { intros stage' accepted Ht' Hd'. split.
    - by eapply (stage_flow _ stage').
    - intros no c Hr _. split; [by unfold stage_of; cbn; rewrite Ht', Hd'|]. intros ->.
      destruct (len64 (vs_bytes stage') =? total_len d); cbn [negb orb] in Hr;
        [|by destruct (accepted && true)].
      destruct (accepted && _) eqn:Hb; [|done]. bool_inv. eauto 10. }
  destruct (o =? len64 (vs_bytes stage)); by apply Hgo.
Qed.

Lemma stage_chunk_ok o data dn :
  o <= is_next_offset a \/ snapshot (sn_core s) = Some d -> genuine d o data ->
  exists stage result,
    stage_chunk digest images s transfer d o data dn
    = Some (s <| sn_snapshot_stage := stage |>, result)
    /\ staged_ok (s <| sn_snapshot_stage := stage |>) result.
Proof.
  intros Ho Hg. unfold stage_chunk. cbv zeta.
  assert (Heta : s <| sn_snapshot_stage := sn_snapshot_stage s |> = s) by by destruct s.
  assert (Hrej : staged_ok s Rejected) by (split; [exact (se_flow _ Hs)|done]).
  destruct (valid_chunk d o (len64 data) dn); cbn [andb].
  2: { exists (sn_snapshot_stage s), Rejected. by rewrite Heta. }
  destruct (is_some_and (sn_disk_snapshot s) _) eqn:Hsame.
  { exists (sn_snapshot_stage s), (Accepted (total_len d) true). rewrite Heta. split; [done|].
    split; [exact (se_flow _ Hs)|]. intros no c _ Hne. exfalso. apply Hne.
    rewrite <- (disk_snapshot_eq s [] (se_disk _ Hs)).
    destruct (sn_disk_snapshot s) as [x|]; [|done]. cbn in Hsame. bool_inv. cbn. by f_equal. }
  destruct (images !! sha256 d) as [image|] eqn:Him; cbn [is_some_and].
  2: { exists (sn_snapshot_stage s), Rejected. by rewrite Heta. }
  destruct (eqb (vi_descriptor image) d) eqn:Hde; bool_inv.
  2: { exists (sn_snapshot_stage s), Rejected. by rewrite Heta. }
  assert (Hne : snapshot (sn_core s) <> Some d).
  { intros Hsn. destruct (disk_image s [] d (se_disk _ Hs) (se_image _ Hs) Hsn)
      as (x & Hx & Hxd & _ & _ & Hxi).
    rewrite Hx in Hsame. cbn in Hsame. rewrite Hxd, eqb_refl in Hsame. cbn in Hsame.
    rewrite (Hg x Hxi Hxd), eqb_refl in Hsame. done. }
  assert (Hstage : exists stage, vs_transfer stage = transfer /\ vs_descriptor stage = d
    /\ match sn_snapshot_stage s with
       | Some stage =>
           if stage_matches stage transfer d then Some stage
           else sim_assert (o =? 0);; Some (mkVirtualStage transfer d [])
       | None => sim_assert (o =? 0);; Some (mkVirtualStage transfer d [])
       end = Some stage).
  { assert (Hzero : stage_of s <> Some (transfer, d) -> o = 0).
    { intros Hn. destruct Ho as [Ho|]; [|done]. destruct (se_flow _ Hs) as [_ Hrel].
      destruct (N.eq_0_gt_0_cases (is_next_offset a)) as [Hz|Hp]; [lia|].
      destruct Hn. by apply Hrel. }
    unfold stage_of in Hzero. destruct (sn_snapshot_stage s) as [st|]; cbn in Hzero.
    - unfold stage_matches. destruct (_ && _) eqn:Hm.
      + bool_inv. by exists st.
      + rewrite Hzero. { by exists (mkVirtualStage transfer d []). }
        intros [= E1 E2]. by rewrite E1, E2, !eqb_refl in Hm.
    - rewrite Hzero by done. by exists (mkVirtualStage transfer d []). }
  destruct Hstage as (stage & Ht & Hd & ->). cbn [mbind option_bind].
  pose proof (stage_data_ok image stage o data Him Hde Ht Hd) as Hok.
  destruct (stage_data digest image stage d o data) as [stage' result].
  by exists (Some stage'), result.
Qed.
End staging.

(** ** Any step but the report of a publication *)

Lemma step_any n i :
  inv n -> publishing_snapshot n = None -> (forall t d, i <> SnapshotPublished t d) ->
  input_ok n i -> exists n' es, step n i = Some (n', es) /\ stepped (durable n) n es n'.
Proof.
  intros Hi Hp Hne Hok.
  assert (Hsd : start_disk n i = durable n) by (destruct i; try done; by destruct (Hne transfer descriptor)).
  destruct (recovery_pending n && negb (is_recover i)) eqn:Hr.
  - exists n, []. split; [unfold step; by rewrite Hr|].
    split; [done|apply frame_logical; auto with raft|done|]. apply run_batch, mid_run.
    auto with raft.
  - destruct (step_safe n i Hi (or_introl Hp) Hok) as (n' & es & Hrun & Hst).
    + apply andb_false_iff in Hr as [?|Hr]; [by left|right]. by destruct i.
    + rewrite Hsd in Hst. eauto.
Qed.

(** What depends on the log and the image only. *)
Lemma image_matches_kept n n' d :
  durable n' = durable n \/ (log n' = log n /\ snapshot n' = snapshot n) ->
  genesis_membership n' = genesis_membership n ->
  image_matches_log n d -> image_matches_log n' d.
Proof.
  intros H Hg. assert (log n' = log n /\ snapshot n' = snapshot n) as [Hl Hs].
  { destruct H as [H|H]; [by injection H|done]. }
  unfold image_matches_log, membership_at, log_term, entry_at, snapshot_index, snapshot_term,
    membership_base.
  by rewrite Hl, Hs, Hg.
Qed.

(** Before a tail effect, everything is settled. *)
Lemma executing_settled e s :
  executing [e] s -> is_strong e = true -> is_apply e = false ->
  stage_step (stage_of s) e = stage_of s -> settled s.
Proof.
  intros Hx He Hna Hst. pose proof (executing_durable _ _ _ Hx He) as Hd.
  destruct Hx as [Hi _ _ Ha _ Hh Him Hf].
  assert (Hw : applied_index (sn_applied s) = last_applied (sn_core s)).
  { unfold applied_run in Ha. cbn in Ha. destruct e; try done; by injection Ha. }
  split; [done|done| |done|].
  - destruct Hh as [[d Hin]|[_ Hh]]; [|by rewrite <- Hw].
    apply list_elem_of_singleton in Hin as <-. done.
  - unfold stage_run in Hf. cbn in Hf. by rewrite Hst in Hf.
Qed.

(** The [StageSnapshotChunk] effect, its callback included. *)
Lemma execute_stage fuel s a o data dn :
  ready s -> incoming_snapshot (sn_core s) = Some a ->
  o <= is_next_offset a \/ snapshot (sn_core s) = Some (is_descriptor a) ->
  genuine (is_descriptor a) o data -> image_matches_log (sn_core s) (is_descriptor a) ->
  exists s', execute_effect digest images (callback digest images (S (S (S fuel)))) s
      (StageSnapshotChunk (is_transfer a) (is_descriptor a) o data dn) = Some s'
    /\ ready s' /\ carried s s'.
Proof.
  intros [Hs Hp] Ha Ho Hg Him.
  destruct (stage_chunk_ok s Hs a Ha o data dn Ho Hg) as (stage & result & Hrun & Hfl & Hres).
  set (s1 := s <| sn_snapshot_stage := stage |>) in *.
  assert (Hs1 : settled s1) by (destruct Hs; by split).
  assert (Hc1 : carried s s1) by by repeat split.
  assert (Hcore : sn_core s1 = sn_core s) by done.
  clearbody s1. rewrite <- Hcore in *. clear Hcore.
  set (i := SnapshotChunkStaged (is_transfer a) (is_descriptor a) o result).
  destruct (step_any (sn_core s1) i) as (n' & es & Hstep & Hst); [apply Hs1|done|done|done|].
  assert (Heff : execute_effect digest images (callback digest images (S (S (S fuel)))) s
      (StageSnapshotChunk (is_transfer a) (is_descriptor a) o data dn)
      = execute_effects digest images (S (S (S fuel))) (s1 <| sn_core := n' |>) es).
  { cbn [execute_effect execute_snapshot_effect]. rewrite Hrun. cbn [mbind option_bind].
    unfold callback. fold i. by rewrite Hstep. }
  rewrite Heff. clear Heff Hrun.
  assert (Hcar : carried s (s1 <| sn_core := n' |>)).
  { etrans; [exact Hc1|]. repeat split. exact (proj1 (lg_hard _ _ _ (sd_logical _ _ _ _ Hst))). }
  assert (Hres' : forall no c, result = Accepted no c ->
    snapshot (sn_core s1) <> Some (is_descriptor a) ->
    stage_of s1 = Some (is_transfer a, is_descriptor a)).
  { intros no c Hr Hne. by apply (Hres no c). }
  destruct (step_staged (sn_core s1) (stage_of s1) _ _ _ _ _ _ Hfl Hres' Hstep)
    as [(Hf & Hsn & Hpub & Hcalm)|(p & Hpub & Hf & Hsn & Hrec & -> & Hc & Hpt & Hpd & Hne)].
  - destruct (execute_batch (S fuel) es (s1 <| sn_core := n' |>)) as (s' & He & Hr & Hca).
    + by apply start_executing.
    + etrans; [exact Hpub|done].
    + intros e Hin. change (calm (snapshot n') e). rewrite Hsn. by apply Hcalm.
    + exists s'. split; [done|]. split; [done|by etrans].
  - destruct result as [no c|]; [|done]. subst c.
    destruct (Hres no true eq_refl Hne) as [_ Hst1].
    destruct (Hst1 eq_refl) as (image & st & Hi1 & Hi2 & Hi3 & Hi4 & Hi5).
    assert (Hx : executing [PublishSnapshot (ps_transfer p) (ps_descriptor p) (ps_retained p)]
                   (s1 <| sn_core := n' |>)) by by apply start_executing.
    assert (Hs2 : settled (s1 <| sn_core := n' |>)) by by eapply executing_settled.
    assert (Hrp : recovery_pending n' = false).
    { rewrite Hrec. apply step_cases in Hstep as [(-> & _ & _)|(? & ? & _ & _ & _ & [?|?])];
        [congruence|done|done]. }
    destruct (execute_publish_batch fuel (s1 <| sn_core := n' |>) p image Hs2 Hpub Hrp)
      as (s' & He & Hr & Hca).
    + split; [by rewrite Hpd|by rewrite Hpd|]. rewrite Hpt, Hpd. exists st.
      split; [done|]. split; [done|]. split; [done|].
      eapply (image_matches_kept (sn_core s1)); [|apply Hst|done]. left.
      etrans; [symmetry; exact (sd_disk _ _ _ _ Hst)|done].
    + exists s'. split; [done|]. split; [done|by etrans].
Qed.

(** ** Inputs from outside *)

(** What the simulated network and the compaction driver guarantee of an
    input: [u64] fields in range, chunks of the images they name, and a
    compaction image of the node's own history. *)
Record feasible (s : SimNode) (i : Input) : Prop := {
  fe_external : external i = true;
  fe_ok : input_ok (sn_core s) i;
  fe_carries : input_carries
    (fun d o data => genuine d o data /\ image_matches_log (sn_core s) d)
    (fun d => exists image, images !! sha256 d = Some image /\ vi_descriptor image = d
       /\ vi_prefix image = take (N.to_nat (last_included_index (metadata d))) (full s)) i;
}.

(** A batch that ends in a chunk to stage. *)
Lemma execute_stage_batch fuel s es a o data dn :
  executing (es ++ [StageSnapshotChunk (is_transfer a) (is_descriptor a) o data dn]) s ->
  publishing_snapshot (sn_core s) = None ->
  (forall e, e ∈ es -> calm (snapshot (sn_core s)) e) ->
  incoming_snapshot (sn_core s) = Some a ->
  o <= is_next_offset a \/ snapshot (sn_core s) = Some (is_descriptor a) ->
  genuine (is_descriptor a) o data -> image_matches_log (sn_core s) (is_descriptor a) ->
  exists s', execute_effects digest images (S (S (S (S fuel)))) s
      (es ++ [StageSnapshotChunk (is_transfer a) (is_descriptor a) o data dn]) = Some s'
    /\ ready s' /\ carried s s'.
Proof.
  intros Hx Hp Hc Ha Ho Hg Him.
  destruct (execute_walk (S (S fuel)) es _ s Hx Hp Hc) as (s1 & Hrun & Hx1 & Hs1).
  pose proof (proj1 Hs1) as Hst. pose proof (st_frame _ _ Hst) as Hf.
  assert (Hr1 : ready s1).
  { split; [by eapply executing_settled|]. by rewrite (fr_pub _ _ Hf). }
  destruct (execute_stage fuel s1 a o data dn Hr1) as (s2 & Hrun2 & Hr2 & Hca).
  - by rewrite (st_incoming _ _ Hst).
  - by rewrite (fr_snap _ _ Hf).
  - done.
  - eapply image_matches_kept; [|apply Hf|exact Him]. right. split; apply Hf.
  - exists s2. split; [|split; [done|etrans; [by apply steady_carried|done]]].
    cbn [execute_effects]. rewrite (audit_batch _ _ _ (ex_batch _ _ Hx)).
    change (execute_all digest images _ s ?es0)
      with (execute_all digest images (callback digest images (S (S (S fuel)))) s es0).
    rewrite execute_all_app, Hrun. cbn [mbind option_bind execute_all]. rewrite Hrun2.
    cbn [mbind option_bind]. by rewrite fully_durable_ok by apply Hr2.
Qed.

Lemma execute_input s i :
  ready s -> feasible s i ->
  exists s', callback digest images (S CALLBACK_DEPTH) s i = Some s' /\ ready s' /\ carried s s'.
Proof.
  intros [Hs Hp] [Hext Hok Hcar].
  destruct (step_any (sn_core s) i) as (n' & es & Hstep & Hst);
    [apply Hs|done|by destruct i|done|].
  pose proof (step_flowed _ _ _ _ _ _ _ (se_flow _ Hs) Hext Hcar Hstep) as Hfl.
  set (s1 := s <| sn_core := n' |>).
  assert (Hc1 : carried s s1).
  { repeat split. exact (proj1 (lg_hard _ _ _ (sd_logical _ _ _ _ Hst))). }
  assert (Hcb : callback digest images (S CALLBACK_DEPTH) s i
                = execute_effects digest images 4 s1 es).
  { unfold callback. by rewrite Hstep. }
  rewrite Hcb. clear Hcb.
  destruct Hfl as [es0 [es (Hf & Hsn & Hpub & Hcalm)
                      |es a o data dn (Hf & Hsn & Hpub & Hcalm) Hnl Ha Ho [Hg Him]]
                  |p Hpub Hf Hsn Hrec Hpt (image & Hi1 & Hi2 & Hi3)].
  - destruct (execute_batch 2 es s1) as (s' & He & Hr & Hca).
    + by apply start_executing.
    + etrans; [exact Hpub|done].
    + intros e Hin. change (calm (snapshot n') e). rewrite Hsn. by apply Hcalm.
    + exists s'. split; [done|]. split; [done|by etrans].
  - destruct (execute_stage_batch 0 s1 es a o data dn) as (s' & He & Hr & Hca); try done.
    + apply start_executing; try done. by rewrite stage_run_app.
    + etrans; [exact Hpub|done].
    + intros e Hin. change (calm (snapshot n') e). rewrite Hsn. by apply Hcalm.
    + eapply (image_matches_kept (sn_core s)); [|apply Hst|done]. right. split; [|done].
      pose proof (sd_disk _ _ _ _ Hst) as Hd. apply (f_equal disk_log) in Hd.
      rewrite exec_no_log in Hd; [done|]. rewrite all_app. split; [done|].
      rewrite all_cons. split; [done|apply all_nil].
    + exists s'. split; [done|]. split; [done|by etrans].
  - assert (Hx : executing [PublishSnapshot (ps_transfer p) (ps_descriptor p) (ps_retained p)] s1)
      by by apply start_executing.
    assert (Hs1 : settled s1) by by eapply executing_settled.
    assert (Hrp : recovery_pending n' = false).
    { by eapply (step_recovered _ _ (sn_core s)); [apply Hs|exact Hext|exact Hcar|exact Hstep|..]. }
    destruct (execute_publish_batch 1 s1 p image Hs1 Hpub Hrp) as (s' & He & Hr & Hca).
    + split; [done|done|]. rewrite Hpt, Hi3. unfold full. f_equal. f_equal. symmetry.
      change (log n' = log (sn_core s)). pose proof (sd_disk _ _ _ _ Hst) as Hd.
      by apply (f_equal disk_log) in Hd.
    + exists s'. split; [done|]. split; [done|by etrans].
Qed.

(** ** The checks after every input *)

Lemma check_node_ok s :
  ready s -> sn_last_term_seen s <= current_term (hard (sn_core s)) ->
  check_node s = Some (s <| sn_last_term_seen := current_term (hard (sn_core s)) |>).
Proof.
  intros [Hs _] Ht. pose proof (settled_core _ Hs) as Hc.
  pose proof (full_structure s [] (se_disk _ Hs) (se_image _ Hs) Hc) as Hst.
  destruct (settled_applied _ Hs) as (_ & Hlen & _).
  pose proof (se_disk _ Hs) as Hd. injection Hd as Hd1 Hd2 Hd3.
  unfold check_node. rewrite <- (proj1 (se_image _ Hs)), Hd2. fold (full s).
  rewrite (prefix_length s [] (se_disk _ Hs) (se_image _ Hs)), N.eqb_refl, Hst, Hlen, N.eqb_refl.
  rewrite (bool_decide_eq_true_2 _ Hd3), (bool_decide_eq_true_2 _ Hd1).
  unfold check_term_monotonic. rewrite (proj2 (N.leb_le _ _) Ht).
  rewrite (proj2 (N.leb_le _ _) (wf_ac _ Hc)).
  pose proof (wf_cl _ Hc) as Hcl. rewrite <- (last_log_index_eq _ (wf_log _ Hc)) in Hcl.
  rewrite (proj2 (N.leb_le _ _) Hcl). cbn [andb sim_assert mbind option_bind].
  rewrite (se_history _ Hs) at 1. rewrite check_applied_ok by done.
  by rewrite bool_decide_true by done.
Qed.

(** A live node between inputs. *)
Record up (s : SimNode) : Prop := {
  up_ready : ready s;
  up_alive : sn_alive s = true;
  up_term : sn_last_term_seen s <= current_term (hard (sn_core s));
}.

Lemma sim_input_ok s i :
  up s -> feasible s i -> exists s', sim_input digest images s i = Some s' /\ up s'.
Proof.
  intros [Hr Ha Ht] Hf. destruct (execute_input s i Hr Hf) as (s1 & Hrun & Hr1 & Hc1 & Hc2 & _ & Hc4).
  unfold sim_input. rewrite Ha, Hrun. cbn [negb mbind option_bind].
  rewrite check_node_ok by (done || lia). eexists. split; [reflexivity|].
  destruct Hr1 as [[] Hp]. split; [by split|exact (eq_trans Hc1 Ha)|]. cbn. lia.
Qed.

(** ** Crash and restart *)

Lemma new_any_seed id ps seed seed' n :
  RaftNode_new id ps seed = Some n ->
  exists n', RaftNode_new id ps seed' = Some n' /\ peers n' = ps
    /\ genesis_membership n' = genesis_membership n.
Proof.
  intros H. pose proof (new_booted _ _ _ _ H) as (_ & _ & _ & _ & _ & _ & _ & _ & _ & Hps & _).
  unfold RaftNode_new in *. destruct (_ || _); [done|]. destruct (cm_bootstrap _) as [g|]; [|done].
  injection H as <-. eexists. split; [done|]. done.
Qed.

(** A restored node serves and receives no transfer. *)
Lemma restored_flow id ps seed hs image entries n st :
  restore_with_snapshot id ps seed hs image entries = Some (inr n) -> flow n st.
Proof.
  unfold restore_with_snapshot. destruct (RaftNode_new id ps seed) as [n0|] eqn:Hnew; [|done].
  cbn [mbind option_bind]. intros [= H].
  assert (Hn0 : outgoing_snapshots n0 = ∅ /\ incoming_snapshot n0 = None).
  { unfold RaftNode_new in Hnew. destruct (_ || _); [done|].
    destruct (cm_bootstrap _); [|done]. by injection Hnew as <-. }
  destruct (check_image _ _); [done|]. destruct (check_log _ _ _ _ _); [done|].
  destruct (of_result _) as [|r]; [done|]. destruct (of_result _) as [|g]; [done|].
  assert (Hk : forall m, outgoing_snapshots (restored_node m hs entries g r) = outgoing_snapshots m
      /\ incoming_snapshot (restored_node m hs entries g r) = incoming_snapshot m).
  { intros m. unfold restored_node, update_replication_peers_of. cbv zeta. by destruct (role _). }
  injection H as <-. destruct (Hk (n0 <| snapshot := image |>)) as [Ho Hi].
  change (outgoing_snapshots (n0 <| snapshot := image |>)) with (outgoing_snapshots n0) in Ho.
  change (incoming_snapshot (n0 <| snapshot := image |>)) with (incoming_snapshot n0) in Hi.
  rewrite (proj1 Hn0) in Ho. rewrite (proj2 Hn0) in Hi. split.
  - intros to o. by rewrite Ho, lookup_empty.
  - intros a. by rewrite Hi.
Qed.

(** Recovery of what a well-formed node [n] left on disk. *)
Lemma restart_up s master id now n n0 :
  inv n -> disk_of s = durable n -> sn_alive s = false ->
  (forall image, sn_disk_snapshot s = Some image ->
     images !! sha256 (vi_descriptor image) = Some image) ->
  sn_last_term_seen s <= current_term (hard n) ->
  RaftNode_new id (peers (sn_core s)) (node_seed master id (sn_boot_count s + 1)) = Some n0 ->
  (hs_membership (hard n) = None -> genesis_membership n = genesis_membership n0) ->
  exists s', restart digest images master id now s = Some s' /\ up s'.
Proof.
  intros Hi Hd Hal Him Hterm Hn0 Hid.
  destruct (restart_ok n id _ _ n0 Hi Hn0 Hid)
    as (n2 & Hres & Hi2 & Hd2 & _ & _ & _ & _ & _ & Hla & Hp2).
  assert (Hsn2 : snapshot n2 = snapshot n) by by injection Hd2.
  set (prefix := map_or (sn_disk_snapshot s) [] vi_prefix).
  set (s2 := s <| sn_boot_count := sn_boot_count s + 1 |> <| sn_core := n2 |> <| sn_alive := true |>
               <| sn_core_prefix := prefix |> <| sn_applied := history_of prefix |>).
  assert (Hd2' : disk_of s2 = durable n2) by (rewrite Hd2; exact Hd).
  assert (Him2 : disk_image_ok s2) by by split.
  assert (Hs2 : settled s2).
  { split; [exact Hi2|exact Hd2'| |exact Him2|exact (restored_flow _ _ _ _ _ _ _ _ Hres)].
    pose proof (prefix_length s2 [] Hd2' Him2) as Hlen.
    change (history_of prefix = history_of (take (N.to_nat (last_applied n2)) (prefix ++ log n2))).
    assert (last_applied n2 = len64 prefix) as ->.
    { rewrite Hla. unfold snapshot_index. rewrite <- Hsn2. symmetry. exact Hlen. }
    unfold len64. by rewrite Nat2N.id, take_app_length. }
  destruct (execute_input s2 Recover) as (s3 & Hrun & Hr3 & Hc1 & Hc2 & Hc3 & Hc4); [by split|by split|].
  assert (Hu3 : up s3).
  { split; [done|by rewrite Hc1|]. rewrite Hc2. etrans; [|exact Hc4].
    change (sn_last_term_seen s <= current_term (hard n2)). injection Hd2 as -> _ _. exact Hterm. }
  destruct (sim_input_ok s3 (Tick now) Hu3) as (s4 & Ht & Hu4); [by split|].
  exists s4. split; [|done]. unfold restart. rewrite Hal.
  change (sn_disk_hard (s <| sn_boot_count := ?b |>)) with (sn_disk_hard s).
  change (sn_disk_log (s <| sn_boot_count := ?b |>)) with (sn_disk_log s).
  change (sn_disk_snapshot (s <| sn_boot_count := ?b |>)) with (sn_disk_snapshot s).
  change (sn_core (s <| sn_boot_count := ?b |>)) with (sn_core s).
  change (sn_boot_count (s <| sn_boot_count := ?b |>)) with b.
  injection Hd as -> -> ->. rewrite Hres. cbn [mbind option_bind]. fold prefix.
  unfold callback in Hrun. change (sn_core s2) with n2 in Hrun.
  destruct (step n2 Recover) as [[n3 es]|]; [|done]. cbn [mbind option_bind] in Hrun |- *.
  transitivity (s' ← execute_effects digest images (S CALLBACK_DEPTH) (s2 <| sn_core := n3 |>) es;
                sim_input digest images s' (Tick now)); [reflexivity|].
  by rewrite Hrun.
Qed.
End simulator.

(** ** Compaction *)

Lemma pad_length bytes len : len64 bytes <= len -> len64 (pad bytes len) = len.
Proof.
  intros H. unfold pad, len64 in *. rewrite length_app, length_replicate. lia.
Qed.

(** A larger catalogue still serves the node. *)
Lemma up_images images images' s : images ⊆ images' -> up images s -> up images' s.
Proof.
  intros Hsub [[[H1 H2 H3 [H4 H5] H6] Hp] Ha Ht]. split; [split; [split|]|..]; try done.
  split; [done|]. intros image Him. eapply lookup_weaken; [by apply H5|done].
Qed.

Lemma applied_prefix_eq images s :
  catalogue_ok images -> settled images s ->
  applied_prefix s = take (N.to_nat (last_applied (sn_core s))) (full s).
Proof.
  intros Hcat Hs. pose proof (settled_core _ _ Hs) as Hc. pose proof (wf_sa _ Hc).
  unfold applied_prefix, full.
  rewrite (log_ok_filter_le _ _ _ _ _ (wf_log _ Hc)) by done.
  pose proof (prefix_length _ Hcat s [] (se_disk _ _ Hs) (se_image _ _ Hs)) as Hlen.
  unfold len64 in Hlen. rewrite take_app_ge by lia. do 2 f_equal. lia.
Qed.

(** The image a node makes of its own history is sound. *)
Lemma compaction_image_ok images digest render s min :
  catalogue_ok images -> settled images s ->
  snapshot_index (sn_core s) < last_applied (sn_core s) ->
  exists image, compaction_image digest render s min = Some image /\ image_ok image
    /\ last_included_index (metadata (vi_descriptor image)) = last_applied (sn_core s)
    /\ vi_prefix image = take (N.to_nat (last_applied (sn_core s))) (full s).
Proof.
  intros Hcat Hs Hlt. pose proof (settled_core _ _ Hs) as Hc.
  destruct (settled_applied images Hcat s Hs) as (Hle & _ & _).
  pose proof (full_length images Hcat s Hs) as Hfl.
  set (b := last_applied (sn_core s)) in *.
  assert (He : is_Some (entry_at (sn_core s) b)).
  { apply (entry_at_is_Some _ (wf_log _ Hc)). rewrite <- Hfl. lia. }
  destruct He as [e He].
  pose proof (full_lookup images Hcat s [] b e (se_disk _ _ Hs) (se_image _ _ Hs) Hlt He) as Hl.
  unfold compaction_image. rewrite log_term_entry by (fold b; lia). fold b. rewrite He.
  cbn [fmap option_fmap option_map mbind option_bind]. eexists. split; [reflexivity|].
  rewrite (applied_prefix_eq images s Hcat Hs). fold b. split; [|done].
  split; cbn [vi_prefix vi_descriptor vi_bytes metadata last_included_index last_included_term
              total_len].
  - apply structure_take. by apply (full_structure images Hcat s [] (se_disk _ _ Hs) (se_image _ _ Hs)).
  - unfold len64 in *. rewrite length_take. lia.
  - unfold end_term. replace (N.to_nat b) with (S (N.to_nat (b - 1))) by lia.
    rewrite (take_S_r _ _ _ Hl), last_snoc. done.
  - done.
Qed.

(** ** The theorems *)

(** (C1) Feeding a simulated node an input never panics: the core returns, its
    batch passes the persist-before-send audit, every effect finds the state it
    exposes on the virtual disk, snapshot effects are answered by nested
    callbacks that return (chunks read, staged, verified and published), every
    application hits the next index, and all the checks made after the input
    pass; the node is then ready for the next one. *)
Theorem sim_step_never_panics digest images s i :
  catalogue_ok images -> up images s -> feasible images s i ->
  exists s', sim_input digest images s i = Some s' /\ up images s'.
Proof. intros Hcat. by apply sim_input_ok. Qed.

(** (C2) A crash between inputs followed by a restart never panics: the virtual
    disk is accepted by recovery, the recovery batch and the first tick pass
    every assertion, and the node is back in step with its disk. *)
Theorem crash_restart_never_panics digest images s master id now n0 seed :
  catalogue_ok images -> up images s -> RaftNode_new id (peers (sn_core s)) seed = Some n0 ->
  (hs_membership (hard (sn_core s)) = None ->
     genesis_membership (sn_core s) = genesis_membership n0) ->
  exists s1 s2, crash master id s = Some s1 /\ restart digest images master id now s1 = Some s2
    /\ up images s2.
Proof.
  intros Hcat [[[Hi Hd _ [_ Him] _] _] Hal Hterm] Hn0 Hid.
  destruct (new_any_seed _ _ _ (node_seed master id (sn_boot_count s)) _ Hn0) as (n1 & Hn1 & Hps & _).
  destruct (new_any_seed _ _ _ (node_seed master id (sn_boot_count s + 1)) _ Hn0)
    as (n2 & Hn2 & _ & Hg2).
  unfold crash. rewrite Hal, Hn1. cbn [negb mbind option_bind]. eexists.
  edestruct (restart_up digest images Hcat (s <| sn_core := n1 |> <| sn_alive := false |>
    <| sn_applied := [] |> <| sn_core_prefix := [] |> <| sn_snapshot_stage := None |>))
    as (s2 & Hr & Hu2); [exact Hi|exact Hd|done|exact Him|exact Hterm| | |].
  - cbn. rewrite Hps. exact Hn2.
  - intros H. by rewrite Hg2, Hid.
  - exists s2. split; [done|]. split; [exact Hr|done].
Qed.

(** Compaction never panics: when the registry has the node's applied
    entries and the image has a new name and fits, the image of the node's own
    history is sound, the core's request is published from it, and node and
    catalogue are ready afterwards. *)
Theorem compaction_never_panics digest render committed images s min :
  catalogue_ok images -> up images s -> snapshot_index (sn_core s) < last_applied (sn_core s) ->
  (forall e, e ∈ applied_prefix s -> assert_applied committed (e_index e) (e_command e) = true) ->
  (forall image, compaction_image digest render s min = Some image ->
     len64 (vi_bytes image) <= MAX_SNAPSHOT_BYTES
     /\ images !! sha256 (vi_descriptor image) = None) ->
  exists images' s', compact digest render committed images s min = Some (images', s')
    /\ catalogue_ok images' /\ up images' s'.
Proof.
  intros Hcat Hu Hlt Hreg Hfit.
  destruct (compaction_image_ok images digest render s min Hcat (proj1 (up_ready _ _ Hu)) Hlt)
    as (image & Him & Hok & Hb & Hpre).
  destruct (Hfit image Him) as [Hsize Hnew].
  set (images' := <[sha256 (vi_descriptor image) := image]> images).
  assert (Hcat' : catalogue_ok images').
  { intros key x [[<- <-]|[_ Hx]]%lookup_insert_Some; [done|by apply Hcat]. }
  assert (Hu' : up images' s) by (eapply up_images; [by apply insert_subseteq|done]).
  destruct (sim_input_ok digest images' Hcat' s (Compact (vi_descriptor image)) Hu')
    as (s' & Hrun & Hu'').
  { split; [done|done|]. exists image. split; [apply lookup_insert_eq|]. by rewrite Hb. }
  exists images', s'. split; [|done]. unfold compact. rewrite (up_alive _ _ Hu).
  rewrite (proj2 (N.ltb_lt _ _) Hlt). cbn [andb sim_assert mbind option_bind].
  assert (forallb (fun e => assert_applied committed (e_index e) (e_command e))
            (applied_prefix s) = true) as ->.
  { apply forallb_forall. intros e He. apply Hreg. by rewrite list_elem_of_In. }
  cbn [sim_assert mbind option_bind]. rewrite Him. cbn [mbind option_bind].
  rewrite (proj2 (N.leb_le _ _) Hsize). cbn [sim_assert mbind option_bind].
  fold images'. by rewrite Hrun.
Qed.

(** Publishing a requested image never panics: the suffix the core asked
    to retain is the one the simulator derives from its own disk, the core
    accepts the report, and for a compaction the node's whole history (image
    prefix and retained log) is unchanged. *)
Theorem publication_keeps_suffix images s p image :
  catalogue_ok images -> settled images s -> publishing_snapshot (sn_core s) = Some p ->
  recovery_pending (sn_core s) = false -> publishable images s p image ->
  exists n' es,
    publish_image images s (ps_transfer p) (ps_descriptor p) (ps_retained p)
    = Some (published_node s p image)
    /\ step (sn_core s) (SnapshotPublished (ps_transfer p) (ps_descriptor p)) = Some (n', es)
    /\ exec es (disk_of (published_node s p image)) = durable n'
    /\ (ps_transfer p = None -> vi_prefix image ++ log n' = full s).
Proof.
  intros Hcat Hs Hp Hrec Hpb.
  destruct (published_executing images Hcat s p image Hs Hp Hrec Hpb)
    as (n' & es & Hrun & Hx & _ & _ & _).
  exists n', es. split; [by apply publish_image_ok|]. split; [done|].
  split; [exact (ex_disk _ _ _ Hx)|]. intros Ht.
  destruct (step_published _ p (stage_of s) n' es (se_inv _ _ Hs) Hp Hrec Hrun) as [_ Han].
  unfold announced in Han. rewrite Ht in Han. destruct Han as [_ ->].
  by eapply compaction_full.
Qed.
