(* ===== verification/Guarantees.v ===== *)
(** * What every step guarantees

    The theorems about [step] that a driver and the other nodes rely on, and
    their extension to whole executions; then the rules of elections, reads and
    group envelopes: who gets a vote and what is durable when it is given, what
    makes a candidate a leader, what releases a read, and that an envelope carries
    its message unchanged within a group and nowhere else. *)
From S2P Require Import Prelude Rng Quorum Membership Types Node MembershipProtocol.
From S2P Require Import SnapshotTransfer Replication Election Step LogFacts MembershipFacts.
From S2P Require Import Effects Invariant CommitPath LeaderPath SnapshotPath StepSafe Recovery.
Local Open Scope N_scope.
Local Open Scope raft_scope.

(** An input the driver may feed in: the publication protocol is followed, the
    [u64] fields of a message are in range, and recovery comes first. *)
Record admissible (n : RaftNode) (i : Input) : Prop := {
  ad_disciplined : disciplined n i;
  ad_input : input_ok n i;
  ad_recovered : recovery_pending n = false \/ i = Recover;
}.

Lemma step_stepped n i n' es :
  inv n -> admissible n i -> step n i = Some (n', es) -> stepped (start_disk n i) n es n'.
Proof.
  intros Hi [Hd Ho Hr] Hs. destruct (step_safe n i Hi Hd Ho Hr) as (n1 & es1 & Hs1 & Hst).
  rewrite Hs in Hs1. by injection Hs1 as <- <-.
Qed.

(** (C3) No input makes a well-formed node panic: no failed [expect], assertion,
    unreachable branch, index out of range or arithmetic overflow, and the
    node is well formed afterwards. *)
Theorem step_total_and_invariant n i :
  inv n -> admissible n i -> exists n' es, step n i = Some (n', es) /\ inv n'.
Proof.
  intros Hi [Hd Ho Hr]. destruct (step_safe n i Hi Hd Ho Hr) as (n' & es & Hs & Hst).
  exists n', es. split; [done|apply Hst].
Qed.

(** ** Persist before observe *)

(** Executing a batch up to one of its effects. *)
Lemma batch_at t t' a e b :
  batch_ok t t' (a ++ e :: b) ->
  (is_weak e = true -> term_run t a = t') /\ (is_strong e = true -> all post_eff b).
Proof.
  revert t. induction a as [|x a IH]; intros t Hb; cbn [app] in Hb.
  - destruct (batch_ok_cons _ _ _ _ Hb) as (_ & Hw & Hs). split; [|done]. by intros H%Hw.
  - destruct (batch_ok_cons _ _ _ _ Hb) as (Hb' & _). apply IH in Hb' as [Hw Hs].
    split; [|done]. intros H%Hw. exact H.
Qed.

Lemma exec_term es d : current_term (disk_hard (exec es d)) = term_run (current_term (disk_hard d)) es.
Proof.
  unfold exec, term_run. revert d. induction es as [|e es IH]; intros d; [done|]. cbn [fold_left].
  rewrite IH. by destruct e.
Qed.

Lemma start_disk_term n i : current_term (disk_hard (start_disk n i)) = current_term (hard n).
Proof.
  destruct i; try done. cbn. unfold published_disk.
  destruct (publishing_snapshot n); [|done]. by destruct (_ && _).
Qed.

(** (C4) Persist before observe: at the point of a batch where a message is
    sent, an entry applied, or any other outcome exposed, everything the node
    will hold after the batch is already durable; a step-down or a rejected
    read only needs the term, and it is durable too.  The whole batch leaves
    the disk equal to the node. *)
Theorem persist_before_observe n i n' a e b :
  inv n -> admissible n i -> step n i = Some (n', a ++ e :: b) ->
  (is_strong e = true -> exec a (start_disk n i) = durable n') /\
  (is_weak e = true ->
     current_term (disk_hard (exec a (start_disk n i))) = current_term (hard n')) /\
  exec (a ++ e :: b) (start_disk n i) = durable n'.
Proof.
  intros Hi Ha Hs. destruct (step_stepped _ _ _ _ Hi Ha Hs) as [_ _ Hd Hb].
  destruct (batch_at _ _ _ _ _ Hb) as [Hw Hst]. split; [|split; [|done]].
  - intros H. rewrite <- Hd, exec_app. cbn. rewrite (exec_none b) by auto.
    by destruct e.
  - intros H. rewrite exec_term, start_disk_term. auto.
Qed.

(** ** Terms, votes, and the committed prefix *)

(** (C5) A term never decreases and a vote, once cast, is never changed within
    its term; the commit index and the image boundary never move back; and an
    entry at or below the commit index is never altered or removed except by
    compaction into the image. *)
Theorem step_keeps_promises n i n' es :
  inv n -> admissible n i -> step n i = Some (n', es) ->
  current_term (hard n) <= current_term (hard n') /\
  (forall c, current_term (hard n') = current_term (hard n) -> voted_for (hard n) = Some c ->
     voted_for (hard n') = Some c) /\
  commit_index n <= commit_index n' /\ snapshot_index n <= snapshot_index n' /\
  (forall j, j <= commit_index n -> snapshot_index n' < j -> entry_at n' j = entry_at n j).
Proof.
  intros Hi Ha Hs. destruct (step_stepped _ _ _ _ Hi Ha Hs) as [_ [_ _ [Ht Hv] ? ? ? _ _] _ _].
  split; [done|]. split; [|done]. intros c Hc Hvote. symmetry in Hc.
  destruct (Hv Hc); congruence.
Qed.

(** ** Application order *)

(** (C6) Entries are applied exactly once, in index order, without gaps, and
    only once committed: starting from the applied watermark each [Apply] hits
    the next index, an image jumps to its boundary, the walk ends at the new
    watermark, and each applied entry is the committed one the log holds. *)
Theorem step_applies_in_order n i n' es :
  inv n -> admissible n i -> step n i = Some (n', es) ->
  applied_run (last_applied n) es = Some (last_applied n') /\
  last_applied n' <= commit_index n' /\
  (forall e, Apply e ∈ es -> e_index e <= commit_index n'
     /\ (snapshot_index n' < e_index e -> entry_at n' (e_index e) = Some e)).
Proof.
  intros Hi Ha Hs. destruct (step_stepped _ _ _ _ Hi Ha Hs) as [Hi' Hl _ _].
  split; [apply Hl|]. split; [apply Hi'|apply Hl].
Qed.

(** ** Executions *)

Inductive execution (n : RaftNode) : list (Input * list Effect) -> RaftNode -> Prop :=
| exec_nil : execution n [] n
| exec_snoc tr n1 i es n2 :
    execution n tr n1 -> admissible n1 i -> step n1 i = Some (n2, es) ->
    execution n (tr ++ [(i, es)]) n2.

Lemma execution_logical n tr n' :
  inv n -> execution n tr n' -> inv n' /\ logical n (concat (map snd tr)) n'.
Proof.
  intros Hi. induction 1 as [|tr n1 i es n2 _ [Hi1 Hl1] Ha Hs].
  - split; [done|]. apply frame_logical; auto with raft.
  - destruct (step_stepped _ _ _ _ Hi1 Ha Hs) as [Hi2 Hl2 _ _]. split; [done|].
    rewrite map_app, concat_app. cbn. rewrite app_nil_r. by eapply logical_seq.
Qed.

(** (C7) Over any execution from a well-formed node: the invariant holds, the
    term and the commit index only grow, a vote stands for the whole of its
    term, the entries committed at the start are still those at the end above
    the image, and the applied entries of the whole trace form one gap-free
    sequence from the first watermark to the last. *)
Theorem execution_keeps_promises n tr n' :
  inv n -> execution n tr n' ->
  inv n' /\ current_term (hard n) <= current_term (hard n') /\
  (forall c, current_term (hard n') = current_term (hard n) -> voted_for (hard n) = Some c ->
     voted_for (hard n') = Some c) /\
  commit_index n <= commit_index n' /\
  (forall j, j <= commit_index n -> snapshot_index n' < j -> entry_at n' j = entry_at n j) /\
  applied_run (last_applied n) (concat (map snd tr)) = Some (last_applied n').
Proof.
  intros Hi Hx. destruct (execution_logical _ _ _ Hi Hx) as [Hi' [_ _ [Ht Hv] ? _ ? ? _]].
  split; [done|]. split; [done|]. split; [|done]. intros c Hc Hvote. symmetry in Hc.
  destruct (Hv Hc); congruence.
Qed.

(** A fresh node satisfies the invariant, and a node bootstrapped into an
    explicit group does so with its identity durable after its first batch. *)
Theorem construction_establishes_invariant :
  (forall id ps seed n, RaftNode_new id ps seed = Some n ->
     inv n /\ durable n = mkDisk HardState_default [] None) /\
  (forall id vs seed gid n es, new_for_group id vs seed gid = Some (Ok (n, es)) ->
     inv n /\ exec es (mkDisk HardState_default [] None) = durable n
     /\ ms_group_id (cm_state (committed_membership n)) = gid
     /\ ms_genesis_voters (cm_state (committed_membership n)) = vs).
Proof.
  split.
  - intros id ps seed n Hn. split; [by eapply new_inv|].
    apply new_booted in Hn as (_ & Hl & Hs & _ & _ & _ & _ & Hh & _).
    unfold durable. by rewrite Hl, Hs, Hh.
  - intros id vs seed gid n es (Hi & _ & Hx & _ & Hg & Hv)%new_for_group_inv. done.
Qed.

(** ** Votes *)

(** A log that ends at [(t1, i1)] is at least as up to date as one that ends at
    [(t2, i2)]. *)
Definition up_to_date (t1 i1 t2 i2 : N) : Prop := t2 < t1 \/ (t1 = t2 /\ i2 <= i1).

Lemma decide_vote_spec hs my_index my_term req :
  decide_vote hs (my_index, my_term) req = true <->
  (voted_for hs = None \/ voted_for hs = Some (rq_candidate_id req)) /\
  up_to_date (rq_last_log_term req) (rq_last_log_index req) my_term my_index.
Proof.
  unfold decide_vote, up_to_date.
  set (free := match voted_for hs with None => true | Some a => a =? rq_candidate_id req end).
  assert (Hfree : free = true <-> voted_for hs = None \/ voted_for hs = Some (rq_candidate_id req)).
  { unfold free. destruct (voted_for hs) as [a|]; [|naive_solver]. rewrite N.eqb_eq.
    naive_solver. }
  rewrite <- Hfree. destruct free; cbn [negb]; [|naive_solver].
  rewrite orb_true_iff, andb_true_iff, N.ltb_lt, N.eqb_eq, N.leb_le. naive_solver lia.
Qed.

(** A vote is granted exactly when the ballot of this term is free or
    already this candidate's and the candidate's log is at least as up to date,
    by last term and then by last index, as the voter's. *)
Theorem decide_vote_correct hs my_index my_term req :
  decide_vote hs (my_index, my_term) req = true <->
  (voted_for hs = None \/ voted_for hs = Some (rq_candidate_id req)) /\
  up_to_date (rq_last_log_term req) (rq_last_log_index req) my_term my_index.
Proof. apply decide_vote_spec. Qed.

(** A granted vote is durable before it is announced: the batch that
    carries the granting reply first writes the hard state with this candidate
    as the vote of the current term, and the grant respects the ballot and the
    freshness of the log. *)
Theorem granted_vote_is_durable n term candidate li lt n' es to t :
  on_request_vote term candidate li lt n = Some (tt, n', es) ->
  Send to (RequestVoteReply t true) ∈ es ->
  es = [PersistHardState (hard n'); Send candidate (RequestVoteReply (current_term (hard n)) true)]
  /\ hard n' = hard n <| voted_for := Some candidate |> /\ current_term (hard n) <= term
  /\ (voted_for (hard n) = None \/ voted_for (hard n) = Some candidate)
  /\ up_to_date lt li (last_log_term n) (last_log_index n).
Proof.
  unfold on_request_vote, mbind, M_bind. cbn [get].
  destruct (N.ltb_spec term (current_term (hard n))) as [|Hle].
  { intros [= <- <-] Hin%list_elem_of_singleton. congruence. }
  set (grant := may_vote_for n candidate term false li lt && _).
  destruct grant eqn:Hg; cbn [when].
  - apply andb_true_iff in Hg as [_ Hg]. apply decide_vote_spec in Hg as [Hv Hu].
    unfold reset_election_deadline. cbn -[range_inclusive].
    destruct (range_inclusive _ _ _) as [draw rng'].
    intros [= <- <-] _. done.
  - intros [= <- <-] Hin%list_elem_of_singleton. congruence.
Qed.

(** A candidate turns leader on a reply only with a quorum of its current
    voter configuration behind it, this reply's sender included, in the term it
    campaigns for. *)
Theorem leadership_needs_quorum n from term granted n' es :
  on_request_vote_reply from term granted n = Some (tt, n', es) ->
  is_leader n = false -> is_leader n' = true ->
  exists votes, role n = Candidate votes /\ granted = true /\ term = current_term (hard n)
    /\ is_voter n from = true /\ has_quorum (voter_config n) (votes ∪ {[from]}) = true.
Proof.
  unfold on_request_vote_reply, mbind, M_bind. cbn [get].
  destruct (_ || _) eqn:Hb; [intros [= <- _]; congruence|]. bool_inv. subst term.
  destruct (role n) as [| |votes|] eqn:Hr; try (intros [= <- _]; congruence).
  cbn [modify]. intros Hrun _ Hl. exists votes. repeat (split; [by destruct granted|]).
  destruct (has_quorum (voter_config n) (votes ∪ {[from]})); [done|].
  cbn in Hrun. by injection Hrun as <- _.
Qed.

(** ** Reads *)

(** A read is released by a probe reply only when it answers that read's
    own challenge in the current term and a quorum of the current voter
    configuration, this sender included, has answered it; the released index is
    the one recorded when the read arrived, and the read is released once. *)
Theorem read_ready_needs_quorum n from term context accepted n' es id c index t :
  on_read_probe_reply from term context accepted n = Some (tt, n', es) ->
  ReadReady id c index t ∈ es ->
  exists p, pending_reads n !! id = Some p /\ pr_context p = context /\ c = context
    /\ pr_term p = current_term (hard n) /\ t = current_term (hard n) /\ index = pr_index p
    /\ is_leader n = true /\ accepted = true
    /\ has_quorum (voter_config n) (pr_voters p ∪ {[from]}) = true
    /\ pending_reads n' !! id = None.
Proof.
  unfold on_read_probe_reply, mbind, M_bind. cbn [get].
  assert (Hnil : forall (x : RaftNode), Some (tt, x, [] ++ []) = Some (tt, n', es) ->
            ReadReady id c index t ∈ es -> False).
  { intros x [= _ <-] Hin. by apply not_elem_of_nil in Hin. }
  destruct (_ || _) eqn:Hb; [intros Heq Hin; by destruct (Hnil n)|]. bool_inv. subst term.
  destruct (List.find _ _) as [[rid p]|] eqn:Hf; [|intros Heq Hin; by destruct (Hnil n)].
  apply find_some in Hf as [Hin Hp]. bool_inv.
  rewrite <- list_elem_of_In in Hin. apply elem_of_btree_iter in Hin.
  change (pr_voters (p <| pr_voters := pr_voters p ∪ {[from]} |>)) with (pr_voters p ∪ {[from]}).
  destruct (has_quorum _ _) eqn:Hq; cbn [modify emit].
  - intros [= <- <-] [= -> -> -> ->]%list_elem_of_singleton. exists p.
    repeat (split; [done|]). cbn. apply lookup_delete_eq.
  - intros [= _ <-] Hx. by apply not_elem_of_nil in Hx.
Qed.

(** A loop that only emits leaves the node alone. *)
Lemma broadcast_same (skip : NodeId -> bool) (e : NodeId -> Effect) l (m m' : RaftNode) es :
  for_each (fun peer => if skip peer then mret tt else emit (e peer) : Raft unit) l m
  = Some (tt, m', es) -> m' = m.
Proof.
  revert m' es. induction l as [|x l IH]; intros m' es; cbn [for_each]; [by intros [= -> _]|].
  unfold mbind, M_bind. destruct (skip x); cbn;
    (destruct (for_each _ l m) as [[[[] m2] e2]|] eqn:E; [|done]); intros [= <- _]; by eapply IH.
Qed.

(** A read is only admitted on a leader that has committed an entry of its
    own term, and it is then pinned to that commit index with a fresh challenge
    number; a leader that is a quorum by itself answers at once. *)
Theorem read_admission n id n' es :
  wf n -> on_read_index id n = Some (tt, n', es) -> pending_reads n !! id = None ->
  (exists reason, es = [ReadRejected id (leader_hint n) reason] /\ pending_reads n' = pending_reads n)
  \/ (is_leader n = true /\ term_at n (commit_index n) = current_term (hard n)
      /\ read_context n' = read_context n + 1 /\ read_context n < u64_max
      /\ ((self_quorum n = true
           /\ es = [ReadReady id (read_context n + 1) (commit_index n) (current_term (hard n))])
          \/ pending_reads n' = <[id := mkPendingRead (read_context n + 1) (current_term (hard n))
                                         (commit_index n) {[node_id n]}]> (pending_reads n))).
Proof.
  intros Hw. pose proof (v_context _ (wf_vol _ Hw)) as Hx.
  unfold on_read_index, mbind at 1, M_bind at 1. cbn [get]. intros Hrun Hnone.
  rewrite Hnone in Hrun. cbn [is_some] in Hrun.
  destruct (read_refusal n) as [reason|] eqn:Hr.
  { left. exists reason. injection Hrun as <- <-. done. }
  right. unfold read_refusal in Hr.
  destruct (_ || _) eqn:H1 in Hr; [done|]. destruct (_ || _) eqn:H2 in Hr; [done|].
  destruct (_ <=? _) in Hr; [done|]. destruct (_ =? _) eqn:H3 in Hr; [done|]. bool_inv.
  unfold add_u64 in Hrun. rewrite (proj2 (checked_add_Some (read_context n) 1 _)) in Hrun
    by (split; [done|lia]).
  unfold mbind, M_bind in Hrun. cbn [expect mret M_ret modify] in Hrun.
  split; [done|]. split; [done|].
  destruct (self_quorum n) eqn:Hs; cbn [emit app] in Hrun.
  - injection Hrun as <- <-. split; [done|]. split; [lia|]. by left.
  - destruct (for_each _ _ _) as [[[[] n2] e2]|] eqn:Hf; [|done]. injection Hrun as <- <-.
    apply broadcast_same in Hf as ->. split; [done|]. split; [lia|]. by right.
Qed.

(** ** Group envelopes *)

(** Envelopes carry a message between members of one group and nowhere
    else: what a member sends, a member of the same group unwraps to the same
    message; a node of another group drops it, and so does a node that gives an
    explicit group another genesis. *)
Theorem group_envelope_roundtrip n m to msg :
  is_group_message msg = false ->
  let gn := cm_state (committed_membership n) in
  let gm := cm_state (committed_membership m) in
  exists msg', wrap_group_effects n [Send to msg] = [Send to msg'] /\
  (ms_group_id gm = ms_group_id gn -> ms_genesis_voters gm = ms_genesis_voters gn ->
   unwrap_group_message m msg' = Some msg) /\
  (ms_group_id gm <> ms_group_id gn -> unwrap_group_message m msg' = None) /\
  (ms_group_id gn <> LEGACY_GROUP_ID -> ms_genesis_voters gm <> ms_genesis_voters gn ->
   unwrap_group_message m msg' = None).
Proof.
  intros Hg. unfold wrap_group_effects. cbv zeta. cbn [map wrap_group_effect]. rewrite Hg.
  set (gn := cm_state (committed_membership n)). set (gm := cm_state (committed_membership m)).
  destruct (eqb (ms_group_id gn) LEGACY_GROUP_ID) eqn:Hl; bool_inv.
  - exists msg. split; [done|]. unfold unwrap_group_message. fold gm. rewrite Hl.
    destruct msg; try done; (split; [intros Hgm _; by rewrite Hgm, eqb_refl|]);
      (split; [|done]); intros Hne; by rewrite (proj2 (eqb_false _ _) Hne).
  - eexists. split; [done|]. unfold unwrap_group_message. fold gm. rewrite Hg. split; [|split].
    + intros -> ->. rewrite !eqb_refl, (proj2 (eqb_false _ _) Hl). done.
    + intros Hne. rewrite (proj2 (eqb_false (ms_group_id gn) (ms_group_id gm))) by done.
      by rewrite andb_false_r.
    + intros _ Hne.
      rewrite (proj2 (eqb_false (ms_genesis_voters gn) (ms_genesis_voters gm))) by done.
      by rewrite andb_false_r.
Qed.
