(* ===== verification/ReplicationRules.v ===== *)
(** * The rules of replication

    Commitment, leader broadcast, the follower's walk and the conflict hints:
    what each routine computes, against definitions that do not mention how. *)
From S2P Require Import Prelude Rng Quorum Membership Types Node MembershipProtocol.
From S2P Require Import SnapshotTransfer Replication Election Step LogFacts MembershipFacts.
From S2P Require Import Effects Invariant CommitPath SendPath LeaderPath ElectionPath FollowerPath.
From S2P Require Import SnapshotPath.
Local Open Scope N_scope.
Local Open Scope raft_scope.

(** ** The last entry that satisfies a test *)

Lemma find_reverse {A} (p : A -> bool) (l : list A) :
  match List.find p (reverse l) with
  | Some x => exists i, l !! i = Some x /\ p x = true
                /\ forall j y, (i < j)%nat -> l !! j = Some y -> p y = false
  | None => forall y, y ∈ l -> p y = false
  end.
Proof.
  induction l as [|x l IH] using rev_ind; [by intros y Hy%not_elem_of_nil|].
  rewrite reverse_snoc. cbn [List.find]. destruct (p x) eqn:Hx.
  - exists (length l). split; [by rewrite lookup_app_r, Nat.sub_diag|]. split; [done|].
    intros j y Hj Hy. apply lookup_lt_Some in Hy. rewrite length_app in Hy. cbn in Hy. lia.
  - destruct (List.find p (reverse l)) as [y|].
    + destruct IH as (i & Hi & Hp & Hlast). exists i.
      split; [by apply lookup_app_l_Some|]. split; [done|]. intros j z Hj Hz.
      destruct (decide (j < length l)%nat) as [Hlt|Hge].
      * rewrite lookup_app_l in Hz by done. by eapply Hlast.
      * apply lookup_lt_Some in Hz as Hlen. rewrite length_app in Hlen. cbn in Hlen.
        assert (j = length l) as -> by lia. rewrite lookup_app_r, Nat.sub_diag in Hz by lia.
        by injection Hz as <-.
    + intros y [Hy|Hy%list_elem_of_singleton]%elem_of_app; [by apply IH|congruence].
Qed.

(** ** Commitment *)

(** What a leader may commit: an uncommitted entry of its own term whose index
    a quorum's recorded progress, its own included, reaches. *)
Definition committable (n : RaftNode) (match_index : gmap NodeId LogIndex) (i : LogIndex) : Prop :=
  commit_index n < i
  /\ (exists e, entry_at n i = Some e /\ e_term e = current_term (hard n))
  /\ has_quorum (voter_config n)
       (reached (voter_config n) (<[node_id n := last_log_index n]> match_index) i) = true.

Lemma voter_config_valid n : wf n -> is_ok (validate (voter_config n)) = true.
Proof.
  intros [Hc (c & Hr & He) _]. unfold voter_config. rewrite He.
  pose proof (replay_all_history _ _ _ _ (wf_base _ Hc) Hr) as Hh.
  destruct (history_inv _ _ (wf_gen _ Hc) Hh) as (Hi & _). by rewrite (ci_valid _ Hi).
Qed.

Lemma log_entry_at n k e : core_ok n -> log n !! k = Some e -> entry_at n (e_index e) = Some e.
Proof.
  intros Hc Hk. pose proof (log_ok_lookup _ _ _ _ _ _ (wf_log _ Hc) Hk) as [Hi _].
  rewrite entry_at_eq, Hi.
  destruct (N.leb_spec (snapshot_index n + N.of_nat k + 1) (snapshot_index n)); [lia|].
  by replace (N.to_nat _) with k by lia.
Qed.

Lemma entry_at_log n i e : core_ok n -> entry_at n i = Some e ->
  exists k, log n !! k = Some e /\ i = snapshot_index n + N.of_nat k + 1.
Proof.
  intros Hc. rewrite entry_at_eq. destruct (N.leb_spec i (snapshot_index n)); [done|].
  intros Hk. eexists. split; [exact Hk|]. lia.
Qed.

(** The commitment rule: a leader's candidate is the greatest committable
    index, and there is none only if no index is committable; so an entry of an
    older term is never committed by counting replicas of it alone. *)
Theorem quorum_commit_candidate_correct n next_index match_index :
  wf n -> role n = Leader next_index match_index ->
  match quorum_commit_candidate n with
  | Some i => committable n match_index i /\ forall j, committable n match_index j -> j <= i
  | None => forall j, committable n match_index j -> False
  end.
Proof.
  intros Hw Hr. pose proof (wf_core _ Hw) as Hc. pose proof (voter_config_valid _ Hw) as Hv.
  unfold quorum_commit_candidate. rewrite Hr.
  set (p := fun entry => _). pose proof (find_reverse p (log n)) as Hf.
  assert (Hp : forall e k, log n !! k = Some e -> p e = true <-> committable n match_index (e_index e)).
  { intros e k Hk. unfold p, committable.
    rewrite (log_entry_at n k e Hc Hk), <- (replicated_index_quorum _ _ _ Hv).
    rewrite !andb_true_iff, N.ltb_lt, N.leb_le, N.eqb_eq. naive_solver. }
  assert (Hin : forall j, committable n match_index j ->
            exists k e, log n !! k = Some e /\ e_index e = j /\ p e = true).
  { intros j Hj. pose proof Hj as (_ & (e & He & _) & _).
    destruct (entry_at_log n j e Hc He) as (k & Hk & Hjk).
    pose proof (log_ok_lookup _ _ _ _ _ _ (wf_log _ Hc) Hk) as [Hi _].
    exists k, e. split; [done|]. split; [lia|]. apply (Hp e k Hk).
    by replace (e_index e) with j by lia. }
  destruct (List.find p (reverse (log n))) as [e|]; cbn.
  - destruct Hf as (i & Hi & Hpe & Hlast). split; [by apply (Hp e i)|].
    intros j Hj. destruct (Hin j Hj) as (k & e' & Hk & <- & Hpe').
    pose proof (log_ok_lookup _ _ _ _ _ _ (wf_log _ Hc) Hk) as [-> _].
    pose proof (log_ok_lookup _ _ _ _ _ _ (wf_log _ Hc) Hi) as [-> _].
    destruct (decide (i < k)%nat) as [Hlt|]; [|lia].
    rewrite (Hlast k e' Hlt Hk) in Hpe'. done.
  - intros j Hj. destruct (Hin j Hj) as (k & e' & Hk & _ & Hpe').
    rewrite (Hf e') in Hpe'; [done|]. by eapply list_elem_of_lookup_2.
Qed.

(** The same rule for a fixed list of match indexes. *)
Definition majority_matched (match_indexes : list LogIndex) (i : LogIndex) : Prop :=
  (length match_indexes < 2 * length (filter (fun m => (i <= m)%N) match_indexes))%nat.

Lemma commit_scan_spec current term matches base prev cur l :
  log_ok base prev cur l ->
  match commit_scan current term matches (reverse l) with
  | Some i => exists k e, l !! k = Some e /\ e_index e = i /\ current < i /\ e_term e = term
      /\ majority_matched matches i
      /\ forall j y, (k < j)%nat -> l !! j = Some y -> current < e_index y ->
           e_term y = term -> ~ majority_matched matches (e_index y)
  | None => forall y, y ∈ l -> current < e_index y -> e_term y = term ->
      ~ majority_matched matches (e_index y)
  end.
Proof.
  intros Hl. induction l as [|x l IH] using rev_ind; [by intros y Hy%not_elem_of_nil|].
  apply log_ok_app in Hl as [Hl Hx]. specialize (IH Hl). rewrite reverse_snoc.
  cbn [commit_scan log_ok] in *. destruct Hx as (Hxi & Hxt & _).
  assert (Hmaj : (length matches / 2 + 1 <=?
                  length (filter (fun m => (e_index x <= m)%N) matches))%nat = true
                 <-> majority_matched matches (e_index x)).
  { unfold majority_matched. rewrite Nat.leb_le.
    pose proof (Nat.div_mod_eq (length matches) 2).
    pose proof (Nat.mod_upper_bound (length matches) 2). lia. }
  assert (Hbelow : forall y, y ∈ l -> e_index y < e_index x).
  { intros y [k Hk]%list_elem_of_lookup_1.
    pose proof (log_ok_lookup _ _ _ _ _ _ Hl Hk) as [-> _]. apply lookup_lt_Some in Hk.
    unfold len64 in Hxi. lia. }
  assert (Hlastx : (l ++ [x]) !! length l = Some x) by (by rewrite lookup_app_r, Nat.sub_diag).
  destruct (N.ltb_spec current (e_index x)) as [Hlt|Hge].
  2: { intros y Hy Hcur _. exfalso.
       apply elem_of_app in Hy as [Hy|Hy%list_elem_of_singleton]; [apply Hbelow in Hy|subst]; lia. }
  destruct (_ && _) eqn:Hb.
  - apply andb_true_iff in Hb as [Hb1 Hb2]. apply N.eqb_eq in Hb2.
    exists (length l), x. repeat (split; [done || by apply Hmaj|]).
    intros j y Hj Hy. apply lookup_lt_Some in Hy. rewrite length_app in Hy. cbn in Hy. lia.
  - assert (Hno : e_term x = term -> ~ majority_matched matches (e_index x)).
    { intros <- H%Hmaj. by rewrite H, N.eqb_refl in Hb. }
    destruct (commit_scan current term matches (reverse l)) as [i|].
    + destruct IH as (k & e & Hk & He & Hci & Het & Hm & Hlast). exists k, e.
      split; [by apply lookup_app_l_Some|]. repeat (split; [done|]).
      intros j y Hj Hy. destruct (decide (j < length l)%nat) as [Hlt'|Hge].
      * rewrite lookup_app_l in Hy by done. by eapply Hlast.
      * apply lookup_lt_Some in Hy as Hlen. rewrite length_app in Hlen. cbn in Hlen.
        assert (j = length l) as -> by lia. rewrite Hlastx in Hy. by injection Hy as <-.
    + intros y [Hy|Hy%list_elem_of_singleton]%elem_of_app; [by apply IH|subst; auto].
Qed.

(** [commit_advance] on a well-formed log returns the greatest index above
    the current one that holds an entry of the current term and is reached by a
    strict majority of the match indexes, or nothing if there is none. *)
Theorem commit_advance_correct current term entries matches base prev cur :
  log_ok base prev cur entries ->
  match commit_advance current term entries matches with
  | Some i => current < i /\ majority_matched matches i
      /\ (exists e, e ∈ entries /\ e_index e = i /\ e_term e = term)
      /\ forall e, e ∈ entries -> current < e_index e -> e_term e = term ->
           majority_matched matches (e_index e) -> e_index e <= i
  | None => forall e, e ∈ entries -> current < e_index e -> e_term e = term ->
      ~ majority_matched matches (e_index e)
  end.
Proof.
  intros Hl. unfold commit_advance. pose proof (commit_scan_spec current term matches _ _ _ _ Hl) as H.
  destruct (commit_scan _ _ _ _) as [i|]; [|exact H].
  destruct H as (k & e & Hk & He & Hci & Het & Hm & Hlast). split; [done|]. split; [done|]. split.
  - exists e. split; [by eapply list_elem_of_lookup_2|done].
  - intros y [j Hj]%list_elem_of_lookup_1 Hy Hyt Hmy.
    destruct (decide (k < j)%nat) as [Hlt|]; [by destruct (Hlast j y Hlt Hj Hy Hyt Hmy)|].
    pose proof (log_ok_lookup _ _ _ _ _ _ Hl Hj) as [-> _].
    pose proof (log_ok_lookup _ _ _ _ _ _ Hl Hk) as [Hek _]. lia.
Qed.

(** ** The follower's walk *)

(** What the merge of a payload into a log must be, position by position. *)
Record merged_with (k : nat) (l es m : list Entry) : Prop := {
  mw_prefix : take k m = take k l;
  mw_payload : forall j e, es !! j = Some e ->
    exists e', m !! (k + j)%nat = Some e' /\ e_term e' = e_term e;
  mw_agree : (forall j e, es !! j = Some e ->
               exists old, l !! (k + j)%nat = Some old /\ e_term old = e_term e) -> m = l;
  mw_new : forall j e', m !! j = Some e' -> l !! j <> Some e' -> e' ∈ es;
}.

Lemma merge_log_merged k l es : (k <= length l)%nat -> merged_with k l es (merge_log k l es).
Proof.
  intros Hk. destruct (merge_log_walk k l es Hk) as (es1 & app & Hw & ->).
  destruct Hw as [Hall|es1 app -> Hne Hall Hd Hlen].
  - rewrite bool_decide_eq_true_2 by done. by split; try done; intros.
  - rewrite bool_decide_eq_false_2 by done. split.
    + rewrite take_app_le by (rewrite length_take; lia). by rewrite take_take, Nat.min_l by lia.
    + intros j e He. destruct (decide (j < length es1)%nat) as [Hlt|Hge].
      * rewrite lookup_app_l in He by done. destruct (Hall j e He) as (o & Ho & Ht).
        exists o. split; [|done]. rewrite lookup_app_l by (rewrite length_take; lia).
        by rewrite lookup_take_lt by lia.
      * rewrite lookup_app_r in He by lia. exists e. split; [|done].
        rewrite lookup_app_r, length_take_le by (rewrite ?length_take; lia).
        by replace (k + j - (k + length es1))%nat with (j - length es1)%nat by lia.
    + intros H. exfalso. destruct app as [|e app]; [done|].
      destruct (H (length es1) e) as (o & Ho & Ht).
      { by rewrite lookup_app_r, Nat.sub_diag by lia. }
      by eapply Hd.
    + intros j e' Hj Hl. apply elem_of_app. right.
      apply lookup_app_Some in Hj as [Hj|[_ Hj]].
      * apply lookup_take_Some in Hj as [? _]. done.
      * by eapply list_elem_of_lookup_2.
Qed.

(** The writes a follower hands to the driver, applied to a log. *)
Definition apply_write (l : list Entry) (truncate_from : option LogIndex) (appended : list Entry)
  : list Entry :=
  match truncate_from with
  | Some from => filter (fun e => e_index e < from) l
  | None => l
  end ++ appended.

Lemma filter_below base prev cur l k :
  log_ok base prev cur l -> filter (fun e => e_index e < base + N.of_nat k + 1) l = take k l.
Proof.
  intros Hl. pose proof (log_ok_filter_le base prev cur l (base + N.of_nat k) Hl ltac:(lia)) as H.
  replace (N.to_nat (base + N.of_nat k - base)) with k in H by lia. rewrite <- H.
  apply list_filter_iff. intros e. lia.
Qed.

(** (C40) The follower's two walks over a validated payload compute the same
    thing: the candidate log checked before anything changes, the node's own
    log with the new entries appended, and the log the emitted write leaves on
    disk are all the merge of payload and log.  That merge keeps everything up
    to the anchor, agrees with the payload at each of its positions, invents
    nothing, and changes nothing when the payload is already there, so a stale
    or repeated request cannot truncate. *)
Theorem append_walks_agree n prev pt es :
  core_ok n -> log_term n prev = Some pt -> log_ok prev pt (current_term (hard n)) es ->
  exists m tf appended n1,
    merged_with (log_pos n prev) (log n) es m /\
    fold_each (candidate_step (snapshot_index n)) (log n) es n = Some (m, n, []) /\
    fold_each append_step (None, []) es n = Some ((tf, appended), n1, []) /\
    log n1 ++ appended = m /\ apply_write (log n) tf appended = m.
Proof.
  intros Hc Hanchor Hes. destruct (anchor_pos n Hc prev pt Hanchor) as [Hk _].
  pose proof (es_ok n Hc prev pt Hanchor es Hes) as Hok.
  exists (merge_log (log_pos n prev) (log n) es).
  destruct (merge_log_walk _ _ es Hk) as (es1 & app & Hw & Hm).
  pose proof (append_fold n (wf_log _ Hc) _ _ _ _ _ _ Hok Hk Hw) as Hfold.
  exists (walk_result n (log_pos n prev) es1 app).1.1, (walk_result n (log_pos n prev) es1 app).1.2,
    (walk_result n (log_pos n prev) es1 app).2.
  split; [by apply merge_log_merged|]. split; [by eapply candidate_fold|].
  split; [rewrite Hfold; by destruct (walk_result n (log_pos n prev) es1 app) as [[? ?] ?]|].
  rewrite Hm. unfold walk_result, apply_write. case_bool_decide; [cbn; by rewrite !app_nil_r|].
  case_bool_decide as Hend.
  - rewrite Hend, firstn_all. done.
  - cbn. by rewrite (filter_below _ _ _ _ _ (wf_log _ Hc)).
Qed.

(** ** Leader broadcast *)

Lemma append_batch_slice l from :
  len64 l <= u64_max ->
  append_batch l from = take (N.to_nat MAX_APPEND_ENTRIES) (drop (N.to_nat from) l).
Proof.
  intros Hl. unfold append_batch, saturating_add, MAX_APPEND_ENTRIES, len64 in *.
  destruct (N.leb_spec from (N.min (N.min (from + 16) u64_max) (N.of_nat (length l)))) as [Hle|Hgt].
  - destruct (N.le_gt_cases (from + 16) (N.of_nat (length l))) as [H1|H1].
    + by replace (N.min (N.min (from + 16) u64_max) (N.of_nat (length l)) - from) with 16 by lia.
    + rewrite (take_ge _ (N.to_nat 16)) by (rewrite length_drop; lia).
      apply take_ge. rewrite length_drop. lia.
  - rewrite (drop_ge l) by lia. by rewrite take_nil.
Qed.

(** What a follower needs from an append request of leader [n]. *)
Record request_ok (n : RaftNode) (prev pt : N) (es : list Entry) : Prop := {
  ro_short : len64 es <= MAX_APPEND_ENTRIES;
  ro_anchor : pt = term_at n prev;
  ro_slice : forall j e, es !! j = Some e -> entry_at n (prev + N.of_nat j + 1) = Some e;
  ro_valid : validate_append_entries (current_term (hard n)) prev pt es = Some (prev + len64 es);
}.

Lemma term_at_le n i : core_ok n -> term_at n i <= current_term (hard n).
Proof.
  intros Hc. unfold term_at, log_term. destruct (N.eqb_spec i (snapshot_index n)).
  - apply (wf_snap_term _ Hc).
  - destruct (entry_at n i) as [e|] eqn:He; [|cbn; lia].
    apply (entry_at_Some n (wf_log _ Hc)) in He. cbn. lia.
Qed.

Lemma batch_request_ok n prev :
  core_ok n -> snapshot_index n <= prev <= u64_max ->
  request_ok n prev (term_at n prev) (append_batch (log n) (prev - snapshot_index n)).
Proof.
  intros Hc Hp. pose proof (wf_len _ Hc) as Hlen. rewrite append_batch_slice by lia.
  set (k := N.to_nat (prev - snapshot_index n)).
  assert (Hslice : forall j e, take (N.to_nat MAX_APPEND_ENTRIES) (drop k (log n)) !! j = Some e ->
            log n !! (k + j)%nat = Some e).
  { intros j e He. apply lookup_take_Some in He as [He _]. by rewrite lookup_drop in He. }
  assert (Hshort : len64 (take (N.to_nat MAX_APPEND_ENTRIES) (drop k (log n)))
                   <= MAX_APPEND_ENTRIES).
  { unfold len64. rewrite length_take. lia. }
  split; [done|done| |].
  - intros j e He. apply Hslice in He.
    pose proof (log_ok_lookup _ _ _ _ _ _ (wf_log _ Hc) He) as [Hi _].
    rewrite <- (log_entry_at n _ _ Hc He). f_equal. lia.
  - apply validate_append_ok. split; [done|]. split; [|split; [by apply term_at_le|]].
    + unfold len64 in *. rewrite length_take, length_drop. lia.
    + destruct (decide (prev <= snapshot_index n + len64 (log n))) as [Hle|Hgt].
      2: { rewrite drop_ge by (unfold len64 in *; lia). by rewrite take_nil. }
      assert (Hanchor : log_term n prev = Some (term_at n prev)).
      { unfold term_at. destruct (log_term_is_Some n (wf_log _ Hc) prev) as [t ->]; [|done].
        rewrite (last_index_eq _ Hc). lia. }
      pose proof (anchor_end_term n Hc prev _ Hanchor) as Hend.
      pose proof (wf_log _ Hc) as Hlog. unfold node_log_ok in Hlog.
      rewrite <- (take_drop k (log n)) in Hlog. apply log_ok_app in Hlog as [_ Hlog].
      unfold log_pos in Hend. fold k in Hend. rewrite Hend in Hlog.
      replace (snapshot_index n + len64 (take k (log n))) with prev in Hlog
        by (unfold len64 in *; rewrite length_take_le; lia).
      by apply log_ok_take.
Qed.

Definition not_append (e : Effect) : bool :=
  match e with Send _ (AppendEntries _ _ _ _ _ _ _) => false | _ => true end.

Lemma advertise_not_append to : only not_append (advertise_replication_membership to).
Proof. unfold advertise_replication_membership, advertise_membership. only_tac. Qed.
Lemma snapshot_chunk_not_append to : only not_append (send_snapshot_chunk to).
Proof. unfold send_snapshot_chunk, snapshot_reject. only_tac. Qed.

Lemma request_ok_still n n1 prev pt es :
  still n n1 -> core_ok n -> request_ok n1 prev pt es -> request_ok n prev pt es.
Proof.
  intros [[_ Hh Hl _ _ Hs _ _] _ _ _ _ _] Hc [H1 H2 H3 H4].
  assert (Hsi : snapshot_index n1 = snapshot_index n) by (unfold snapshot_index; by rewrite Hs).
  assert (He : forall i, entry_at n1 i = entry_at n i) by (intros i; unfold entry_at; by rewrite Hsi, Hl).
  assert (Ht : forall i, term_at n1 i = term_at n i).
  { intros i. unfold term_at, log_term, snapshot_term. by rewrite Hsi, Hs, He. }
  split; [done|by rewrite <- Ht| |by rewrite <- Hh]. intros j e Hj. rewrite <- He. auto.
Qed.

(** Every append request a leader sends is one its followers can use: at
    most [MAX_APPEND_ENTRIES] consecutive entries of the leader's own log right
    after the anchor, the anchor's own term, and the whole passes the
    structural validation the receiver applies before adopting the term. *)
Theorem send_append_request_valid n next_index peer n' es to t l prev pt entries lc r :
  wf n -> send_append_to next_index peer n = Some (tt, n', es) ->
  Send to (AppendEntries t l prev pt entries lc r) ∈ es -> prev <= u64_max ->
  to = peer /\ t = current_term (hard n) /\ l = node_id n /\ lc = commit_index n
  /\ request_ok n prev pt entries.
Proof.
  intros Hw Hrun Hin Hmax.
  set (Q := fun (_ : unit) (_ : RaftNode) (es : list Effect) => forall to t l prev pt entries lc r,
    Send to (AppendEntries t l prev pt entries lc r) ∈ es -> prev <= u64_max ->
    to = peer /\ t = current_term (hard n) /\ l = node_id n /\ lc = commit_index n
    /\ request_ok n prev pt entries).
  enough (HQ : wlp (send_append_to next_index peer) Q n).
  { exact (wlp_run _ _ _ _ _ _ HQ Hrun _ _ _ _ _ _ _ _ Hin Hmax). }
  clear - Hw.
  assert (Hno : forall es, all not_append es -> Q tt n es).
  { intros es Hes ? ? ? ? ? ? ? ? Hin _. by apply Hes in Hin. }
  unfold send_append_to. apply wpg_bind.
  eapply wpg_mono; [apply wpg_and; [apply wp_partial, (advertise_replication_sends n peer Hw)
                                   |apply (advertise_not_append peer n)]|].
  cbn beta. intros [] n1 es1 [[_ Hst] He1]. apply wpg_bind, wpg_get. cbn [app].
  assert (Happ : forall es2, Q tt n es2 -> Q tt n (es1 ++ es2)).
  { intros es2 H ? ? ? ? ? ? ? ? [Hin|Hin]%elem_of_app; [by apply He1 in Hin|].
    exact (H _ _ _ _ _ _ _ _ Hin). }
  destruct (_ <=? snapshot_index n1) eqn:Hnext.
  { eapply wpg_mono; [apply snapshot_chunk_not_append|]. intros [] n2 es2 He2.
    apply Happ, Hno. exact He2. }
  apply wpg_bind, wpg_modify, wpg_bind. cbn [app].
  apply wpg_expect; [|done]. intros p [-> Hp]%checked_sub_Some.
  apply wpg_bind, wpg_expect; [|done]. intros from [-> Hf]%checked_sub_Some.
  apply wpg_emit. cbn [app]. apply Happ.
  intros to t l prev pt entries lc r [= -> -> -> -> -> -> -> ->]%list_elem_of_singleton Hmax.
  pose proof (st_frame _ _ Hst) as Hf1. split; [done|].
  rewrite (fr_hard _ _ Hf1), (fr_id _ _ Hf1), (fr_commit _ _ Hf1). repeat (split; [done|]).
  apply (request_ok_still n n1); [done|apply Hw|].
  apply batch_request_ok; [eapply core_frame; [apply Hst|apply Hw]|lia].
Qed.

(** ** The leader's cursors *)

(** One reply moves a peer's cursors safely: progress never regresses, the
    next index stays positive and above the progress, a success moves it right
    after the confirmed prefix, and a failure moves it strictly back until it
    reaches the confirmed prefix, so backing off terminates. *)
Lemma progress_after_correct success mi hinted next matched :
  matched < u64_max ->
  let '(next', matched') := progress_after success mi hinted next matched in
  matched <= matched' /\ 0 < next' /\ (matched' < u64_max -> matched' < next') /\
  (if success then matched' = N.max matched mi /\ next' = saturating_add matched' 1
   else matched' = matched /\ (matched + 1 < next -> next' < next)
        /\ (next <= matched + 1 -> next' = matched + 1)).
Proof.
  intros Hm. pose proof u64_max_big. unfold progress_after, saturating_add, saturating_sub.
  destruct success; cbn zeta; lia.
Qed.

(** ** Conflict hints *)

Lemma partition_point_le {A} (p : A -> bool) l i x :
  l !! i = Some x -> p x = false -> (partition_point p l <= i)%nat.
Proof.
  revert i. induction l as [|y l IH]; intros i Hi Hp; [done|]. cbn.
  destruct (p y) eqn:Hy; [|lia]. destruct i as [|i]; cbn in Hi; [congruence|].
  specialize (IH i Hi Hp). lia.
Qed.

Lemma snapshot_positive n : core_ok n -> snapshot_term n <> 0 -> 0 < snapshot_index n.
Proof.
  intros Hc. unfold snapshot_term, snapshot_index. destruct (snapshot n) as [d|] eqn:Hs; [|done].
  cbn. intros _. destruct (wf_image _ Hc d Hs) as [Hd _].
  unfold descriptor_validate, metadata_validate in Hd. result_inv. bool_inv. lia.
Qed.

(** Where the hint points in the follower's log. *)
Lemma hint_first n rejected t h :
  core_ok n -> log_term n rejected = Some t ->
  append_conflict_hint n rejected n = Some (Some h, n, []) ->
  rejected_index h = rejected /\ h_term h = Some t /\ t <> 0
  /\ 0 < first_index h <= rejected.
Proof.
  intros Hc Ht. unfold append_conflict_hint. rewrite Ht.
  destruct (N.eqb_spec t 0) as [|Hz]; [done|].
  pose proof (log_term_Some n (wf_log _ Hc) _ _ Ht) as [Hb _].
  destruct (N.eqb_spec (snapshot_term n) t) as [Hst|Hst].
  - intros [= <-]. cbn. pose proof (snapshot_positive n Hc). repeat split; try done; lia.
  - unfold log_term in Ht. destruct (N.eqb_spec rejected (snapshot_index n)); [congruence|].
    apply fmap_Some in Ht as (e & He & ->).
    destruct (entry_at_log n rejected e Hc He) as (k & Hk & Hrk).
    pose proof (partition_point_le (fun x => e_term x <? e_term e) (log n) k e Hk
                  ltac:(apply N.ltb_irrefl)) as Hp.
    destruct (lookup_lt_is_Some_2 (log n) (partition_point (fun x => e_term x <? e_term e) (log n)))
      as [x Hx]; [apply lookup_lt_Some in Hk; lia|].
    rewrite Hx. cbn. intros [= <-]. cbn.
    pose proof (log_ok_lookup _ _ _ _ _ _ (wf_log _ Hc) Hx) as [-> _]. repeat split; try done; lia.
Qed.

(** A follower's conflict hint is always one the leader accepts: when
    follower [f] refuses leader [l]'s anchor [prev], the hint it computes points
    inside its own log and passes the leader's validity check, so a refusal
    never stalls replication. *)
Theorem conflict_hint_accepted f l prev pt h term :
  core_ok f -> log_term l prev = Some pt -> snapshot_index f <= prev ->
  log_term f prev <> Some pt -> current_term (hard f) <= term ->
  append_conflict_hint f prev f = Some (Some h, f, []) ->
  rejected_index h = prev /\ hint_is_valid l term false (last_log_index f) h = true.
Proof.
  intros Hc Hl Hs Hne Hterm Hh. unfold hint_is_valid. cbn [negb andb].
  destruct (log_term f prev) as [t|] eqn:Ht.
  - destruct (hint_first f prev t h Hc Ht Hh) as (-> & -> & Hz & Hf). split; [done|].
    pose proof (log_term_Some f (wf_log _ Hc) _ _ Ht) as [Hb _].
    assert (t <= current_term (hard f)).
    { pose proof (term_at_le f prev Hc) as H. unfold term_at in H. by rewrite Ht in H. }
    rewrite Hl. assert (eqb (Some pt) (Some t) = false) as -> by (apply eqb_false; congruence).
    repeat (apply andb_true_iff; split); try apply N.ltb_lt; try apply N.leb_le; try done; lia.
  - assert (last_log_index f < prev) as Hlt.
    { destruct (N.le_gt_cases prev (last_log_index f)) as [Hle|]; [|done].
      destruct (log_term_is_Some f (wf_log _ Hc) prev) as [t Ht']; [lia|congruence]. }
    unfold append_conflict_hint in Hh. rewrite Ht in Hh.
    destruct (checked_add (last_log_index f) 1) as [v|] eqn:Hv; [|done].
    injection Hh as <-. cbn [h_term first_index rejected_index]. rewrite eqb_refl. apply checked_add_Some in Hv as [-> _].
    split; [done|]. rewrite andb_true_r. apply andb_true_iff.
    split; [apply N.ltb_lt|apply N.leb_le]; lia.
Qed.
