(* ===== verification/Store.v ===== *)
(** * [state-store/src/lib.rs]: cells, batches and their bounds

    The data shared by the storage engine's parts: byte keys and their order,
    the results of fallible operations, mutations, records, and the validation
    every batch passes before it is written. *)
From S2P Require Import Prelude.
Local Open Scope N_scope.
Local Open Scope raft_scope.

(** ** Results of I/O *)

Inductive ErrorKind : Type :=
| NotFound | AlreadyExists | InvalidData | InvalidInput | OutOfMemory | Unsupported | OtherError.
#[export] Instance ErrorKind_eq_dec : EqDecision ErrorKind.
Proof. solve_decision. Defined.

(** [io::Result]. *)
Inductive Io (A : Type) : Type :=
| IoOk (a : A)
| IoErr (kind : ErrorKind) (message : string).
Arguments IoOk {_} a.
Arguments IoErr {_} kind message.
#[export] Instance Io_eq_dec `{EqDecision A} : EqDecision (Io A).
Proof. solve_decision. Defined.
#[export] Instance Io_ret : MRet Io := fun A a => IoOk a.
#[export] Instance Io_bind : MBind Io := fun A B f m =>
  match m with IoOk a => f a | IoErr k e => IoErr k e end.

Definition invalid {A} (message : string) : Io A := IoErr InvalidData message.
Definition rejected {A} (message : string) : Io A := IoErr InvalidInput message.
(** [map_err(|error| invalid(error.to_string()))] *)
Definition as_invalid {A} (r : Io A) : Io A :=
  match r with IoErr _ e => IoErr InvalidData e | ok => ok end.

Lemma Io_bind_Ok {A B} (f : A -> Io B) (m : Io A) b :
  m ≫= f = IoOk b <-> exists a, m = IoOk a /\ f a = IoOk b.
Proof. destruct m; cbn; naive_solver. Qed.

(** Splits every bind and refusal guard of a hypothesis [_ = IoOk _]. *)
Ltac io_inv :=
  repeat match goal with
  | H : _ ≫= _ = IoOk _ |- _ => apply Io_bind_Ok in H as (? & ? & ?)
  | H : (if ?b then invalid _ else _) = IoOk _ |- _ => destruct b eqn:?; [discriminate H|]
  | H : (if ?b then rejected _ else _) = IoOk _ |- _ => destruct b eqn:?; [discriminate H|]
  | H : IoOk _ = IoOk _ |- _ => injection H as H
  | H : mret _ = IoOk _ |- _ => injection H as H
  | H : IoErr _ _ = IoOk _ |- _ => discriminate H
  end.

(** ** Keys

    [Vec<u8>] under its derived [Ord]: lexicographic. *)

Abbreviation Bytes := (list N).

Fixpoint key_cmp (a b : Bytes) : comparison :=
  match a, b with
  | [], [] => Eq
  | [], _ :: _ => Lt
  | _ :: _, [] => Gt
  | x :: a, y :: b => match x ?= y with Eq => key_cmp a b | c => c end
  end.
Definition key_ltb (a b : Bytes) : bool := match key_cmp a b with Lt => true | _ => false end.
Definition key_leb (a b : Bytes) : bool := match key_cmp a b with Gt => false | _ => true end.
Definition key_lt (a b : Bytes) : Prop := key_cmp a b = Lt.
Definition key_le (a b : Bytes) : Prop := key_cmp a b <> Gt.

#[export] Instance key_lt_dec : RelDecision key_lt.
Proof. intros a b. unfold key_lt. apply _. Defined.
#[export] Instance key_le_dec : RelDecision key_le.
Proof. intros a b. unfold key_le. apply _. Defined.

Lemma key_cmp_refl a : key_cmp a a = Eq.
Proof. induction a as [|x a IH]; cbn; [done|]. by rewrite N.compare_refl. Qed.
Lemma key_cmp_Eq a b : key_cmp a b = Eq <-> a = b.
Proof.
  split; [|intros ->; apply key_cmp_refl].
  revert b. induction a as [|x a IH]; intros [|y b]; cbn; try done.
  destruct (N.compare_spec x y) as [->| |]; [|done|done]. intros H. f_equal. by apply IH.
Qed.
Lemma key_cmp_antisym a b : key_cmp b a = CompOpp (key_cmp a b).
Proof.
  revert b. induction a as [|x a IH]; intros [|y b]; cbn; try done.
  rewrite (N.compare_antisym x y). by destruct (x ?= y); cbn.
Qed.
#[export] Instance key_lt_trans : Transitive key_lt.
Proof.
  intros a b c. unfold key_lt. revert b c.
  induction a as [|x a IH]; intros [|y b] [|z c]; cbn; try done.
  destruct (N.compare_spec x y) as [->|Hxy|]; [| |done].
  - destruct (y ?= z); [apply IH|done|done].
  - intros _. destruct (N.compare_spec y z) as [->|Hyz|]; [| |done].
    + destruct (N.compare_spec x z); [lia|done|lia].
    + intros _. destruct (N.compare_spec x z); [lia|done|lia].
Qed.
Lemma key_lt_irrefl a : ~ key_lt a a.
Proof. unfold key_lt. by rewrite key_cmp_refl. Qed.
Lemma key_lt_total a b : key_lt a b \/ a = b \/ key_lt b a.
Proof.
  unfold key_lt. rewrite (key_cmp_antisym a b). destruct (key_cmp a b) eqn:E; cbn; [|auto..].
  right; left. by apply key_cmp_Eq.
Qed.
Lemma key_le_lt a b : key_le a b <-> key_lt a b \/ a = b.
Proof.
  unfold key_le, key_lt. rewrite <- key_cmp_Eq. destruct (key_cmp a b); naive_solver.
Qed.
Lemma key_lt_not_le a b : key_lt a b <-> ~ key_le b a.
Proof.
  unfold key_lt, key_le. rewrite (key_cmp_antisym a b). destruct (key_cmp a b); cbn; naive_solver.
Qed.
Lemma key_ltb_lt a b : key_ltb a b = true <-> key_lt a b.
Proof. unfold key_ltb, key_lt. destruct (key_cmp a b); naive_solver. Qed.
Lemma key_leb_le a b : key_leb a b = true <-> key_le a b.
Proof. unfold key_leb, key_le. destruct (key_cmp a b); naive_solver. Qed.
Lemma key_ltb_ge a b : key_ltb a b = false <-> key_le b a.
Proof.
  rewrite <- not_true_iff_false, key_ltb_lt, key_lt_not_le.
  destruct (decide (key_le b a)); naive_solver.
Qed.
Lemma key_leb_gt a b : key_leb a b = false <-> key_lt b a.
Proof. rewrite <- not_true_iff_false, key_leb_le, key_lt_not_le. done. Qed.
Lemma key_lt_le a b : key_lt a b -> key_le a b.
Proof. rewrite key_le_lt. auto. Qed.
Lemma key_lt_le_trans a b c : key_lt a b -> key_le b c -> key_lt a c.
Proof. rewrite key_le_lt. intros H [H'| ->]; [by etrans|done]. Qed.
Lemma key_le_lt_trans a b c : key_le a b -> key_lt b c -> key_lt a c.
Proof. rewrite key_le_lt. intros [H| ->] H'; [by etrans|done]. Qed.
#[export] Instance key_le_preorder : PreOrder key_le.
Proof.
  split; [intros a; apply key_le_lt; auto|].
  intros a b c. rewrite !key_le_lt. intros [H| ->] [H'| ->]; auto. left. by etrans.
Qed.
#[export] Instance key_le_total : Total key_le.
Proof. intros a b. rewrite !key_le_lt. destruct (key_lt_total a b) as [|[|]]; auto. Qed.
#[export] Instance key_le_antisym : AntiSymm (=) key_le.
Proof.
  intros a b. rewrite !key_le_lt. intros [H| ->] [H'|]; try done.
  exfalso. apply (key_lt_irrefl a). by etrans.
Qed.
(** [BTreeMap<Vec<u8>, _>] iterates in this order. *)
Abbreviation kmap_iter := (btree_iter key_le).

(** ** Mutations and records *)

Definition MAX_KEY_BYTES : N := 4096.
Definition MAX_VALUE_BYTES : N := 1024 * 1024.
Definition MAX_BATCH_BYTES : N := 16 * 1024 * 1024.
Definition MAX_BATCH_RECORDS : N := 65536.
Definition MAX_INSTALL_BYTES : N := 128 * 1024 * 1024.
Definition MAX_INSTALL_RECORDS : N := 1000000.
Definition MAX_APPLY_RANGE : N := 256.

Record Mutation := mkMutation { m_key : Bytes; m_value : option Bytes }.
#[export] Instance Mutation_eq_dec : EqDecision Mutation.
Proof. solve_decision. Defined.

Inductive CommitOutcome : Type := Applied | Replay.
#[export] Instance CommitOutcome_eq_dec : EqDecision CommitOutcome.
Proof. solve_decision. Defined.

(** [Record] *)
Record Cell := mkCell { c_key : Bytes; c_value : option Bytes; c_sequence : N }.
#[export] Instance Cell_eq_dec : EqDecision Cell.
Proof. solve_decision. Defined.

Definition value_len (v : option Bytes) : N := map_or v 0 len64.
(** [Record::size] *)
Definition cell_size (r : Cell) : N := 16 + len64 (c_key r) + value_len (c_value r).

Lemma len64_app {A} (l1 l2 : list A) : len64 (l1 ++ l2) = len64 l1 + len64 l2.
Proof. unfold len64. rewrite length_app. lia. Qed.

(** ** Validation *)

Definition validate_range (first index : N) : Io unit :=
  if (first =? 0) || (index <? first) || (MAX_APPLY_RANGE <=? index - first)
  then rejected "invalid or oversized applied range" else mret tt.

(** The loop of [validate_mutations], with the bytes and keys so far. *)
Fixpoint validate_scan (max_bytes bytes : N) (keys : gset Bytes) (changes : list Mutation) : Io N :=
  match changes with
  | [] => mret bytes
  | change :: rest =>
      if (len64 (m_key change) =? 0) || (MAX_KEY_BYTES <? len64 (m_key change))
         || (is_some_and (m_value change) (fun v => MAX_VALUE_BYTES <? len64 v))
         || bool_decide (m_key change ∈ keys)
      then rejected "invalid key/value bounds or duplicate batch key" else
      match checked_add bytes (len64 (m_key change) + value_len (m_value change)) with
      | None => rejected "batch size overflow"
      | Some bytes =>
          if max_bytes <? bytes then rejected "batch byte limit exceeded" else
          validate_scan max_bytes bytes ({[m_key change]} ∪ keys) rest
      end
  end.

Definition validate_mutations (changes : list Mutation) (max_records max_bytes : N) : Io N :=
  if max_records <? len64 changes then rejected "too many batch records" else
  validate_scan max_bytes 0 ∅ changes.
Definition validate_changes (changes : list Mutation) : Io N :=
  validate_mutations changes MAX_BATCH_RECORDS MAX_BATCH_BYTES.
Definition validate_install (cells : list Mutation) : Io N :=
  validate_mutations cells MAX_INSTALL_RECORDS MAX_INSTALL_BYTES.

(** ** What validation establishes *)

Definition mutation_ok (c : Mutation) : Prop :=
  0 < len64 (m_key c) <= MAX_KEY_BYTES
  /\ (forall v, m_value c = Some v -> len64 v <= MAX_VALUE_BYTES).

Fixpoint batch_bytes (changes : list Mutation) : N :=
  match changes with
  | [] => 0
  | c :: rest => len64 (m_key c) + value_len (m_value c) + batch_bytes rest
  end.

Lemma mutation_ok_bool c :
  (len64 (m_key c) =? 0) || (MAX_KEY_BYTES <? len64 (m_key c))
  || (is_some_and (m_value c) (fun v => MAX_VALUE_BYTES <? len64 v)) = false <-> mutation_ok c.
Proof.
  unfold mutation_ok. rewrite !orb_false_iff, N.eqb_neq, N.ltb_ge. split.
  - intros [[H1 H2] H3]. split; [lia|]. intros v Hv. rewrite Hv in H3. cbn in H3. by bool_inv.
  - intros [[H1 H2] H3]. split; [lia|]. destruct (m_value c) as [v|]; [|done]. cbn.
    apply N.ltb_ge. auto.
Qed.

Lemma validate_scan_ok max bytes keys changes total :
  max <= u64_max ->
  validate_scan max bytes keys changes = IoOk total <->
  total = bytes + batch_bytes changes /\ (changes = [] \/ total <= max)
  /\ (forall c, c ∈ changes -> mutation_ok c /\ m_key c ∉ keys) /\ NoDup (m_key <$> changes).
Proof.
  intros Hmax. revert bytes keys. induction changes as [|c rest IH]; intros bytes keys; cbn [validate_scan].
  { cbn. rewrite N.add_0_r. split.
    - intros [= <-]. split; [done|]. split; [by left|]. split; [|constructor].
      intros c Hc. by apply not_elem_of_nil in Hc.
    - intros [-> _]. done. }
  cbn [batch_bytes fmap list_fmap].
  assert (Hkey : forall x, x ∈ rest -> (m_key x ∉ {[m_key c]} ∪ keys
            <-> m_key x <> m_key c /\ m_key x ∉ keys)) by set_solver.
  destruct (_ || _) eqn:Hb.
  - split; [done|]. intros (_ & _ & Hall & _). destruct (Hall c ltac:(left)) as [Hok Hnk].
    apply mutation_ok_bool in Hok. rewrite Hok in Hb. cbn in Hb. bool_inv. done.
  - apply orb_false_iff in Hb as [Hok Hnk]. apply mutation_ok_bool in Hok.
    apply bool_decide_eq_false in Hnk.
    unfold checked_add. destruct (N.leb_spec (bytes + (len64 (m_key c) + value_len (m_value c))) u64_max).
    2: { split; [done|]. intros (-> & [?|Hle] & _); [done|]. lia. }
    destruct (N.ltb_spec max (bytes + (len64 (m_key c) + value_len (m_value c)))).
    { split; [done|]. intros (-> & [?|Hle] & _); [done|]. lia. }
    rewrite IH. rewrite list.NoDup_cons. split.
    + intros (-> & Hle & Hall & Hnd). split; [lia|]. split.
      { right. destruct Hle as [-> |Hle]; [cbn|]; lia. }
      split; [|split; [|done]].
      * intros x [->|Hx]%elem_of_cons; [done|]. destruct (Hall x Hx) as [? Hn]. split; [done|].
        by apply Hkey in Hn as [_ ?].
      * intros (x & Hk & Hx)%list_elem_of_fmap. destruct (Hall x Hx) as [_ Hn].
        by apply Hkey in Hn as [? _].
    + intros (-> & Hle & Hall & Hnin & Hnd). split; [lia|]. split.
      { right. destruct Hle as [|Hle]; [done|lia]. }
      split; [|done]. intros x Hx. destruct (Hall x ltac:(by right)) as [? Hn]. split; [done|].
      apply Hkey; [done|]. split; [|done]. intros E. apply Hnin. apply list_elem_of_fmap. eauto.
Qed.

(** Validation accepts exactly the batches whose keys are non-empty,
    bounded and distinct, whose values are bounded, and whose record and byte
    counts are within the limits; it returns the byte count. *)
Lemma validate_mutations_correct changes max_records max_bytes total :
  max_bytes <= u64_max ->
  validate_mutations changes max_records max_bytes = IoOk total <->
  len64 changes <= max_records /\ total = batch_bytes changes
  /\ (changes = [] \/ total <= max_bytes)
  /\ (forall c, c ∈ changes -> mutation_ok c) /\ NoDup (m_key <$> changes).
Proof.
  intros Hmax. unfold validate_mutations.
  destruct (N.ltb_spec max_records (len64 changes)).
  - split; [done|]. intros (? & _). lia.
  - rewrite validate_scan_ok by done. rewrite N.add_0_l. set_solver.
Qed.

(** The refusals are [InvalidInput]. *)
Lemma validate_scan_err max bytes keys changes k e :
  validate_scan max bytes keys changes = IoErr k e -> k = InvalidInput.
Proof.
  revert bytes keys. induction changes as [|c rest IH]; intros bytes keys; cbn [validate_scan]; [done|].
  destruct (_ || _); [by intros [= <-]|]. destruct (checked_add _ _); [|by intros [= <-]].
  destruct (_ <? _); [by intros [= <-]|]. apply IH.
Qed.

Lemma changes_ok changes total :
  validate_changes changes = IoOk total ->
  len64 changes <= MAX_BATCH_RECORDS /\ (forall c, c ∈ changes -> mutation_ok c)
  /\ NoDup (m_key <$> changes) /\ batch_bytes changes <= MAX_BATCH_BYTES.
Proof.
  unfold validate_changes, validate_mutations.
  destruct (N.ltb_spec MAX_BATCH_RECORDS (len64 changes)); [done|].
  rewrite validate_scan_ok by (vm_compute; discriminate). intros (-> & Hle & Hall & Hnd).
  split; [done|]. split; [intros c Hc; by apply Hall|]. split; [done|].
  destruct Hle as [->|]; [vm_compute; discriminate|lia].
Qed.
