(* ===== verification/Bloom.v ===== *)
(** * [state-store/src/bloom.rs]: the membership filter of a table *)
From S2P Require Import Prelude Store.
Local Open Scope N_scope.
Local Open Scope raft_scope.

Definition BITS_PER_KEY : N := 10.
Definition PROBES : N := 7.

Record Bloom := mkBloom { b_bits : list N; b_probes : N; b_keys : N }.

(** [u64::rotate_left] *)
Definition rotate_left64 (x k : N) : N :=
  N.lor (N.shiftl x k mod two64) (N.shiftr x (64 - k)).

(** One iteration of the loop of [hashes]. *)
Definition hash_step (s : N * N) (byte : N) : N * N :=
  (wrapping_mul64 (N.lxor s.1 byte) 0x100000001b3,
   wrapping_mul64 (rotate_left64 (N.lxor s.2 byte) 13) 0xbf58476d1ce4e5b9).
Definition hashes (key : Bytes) : N * N :=
  let '(a, b) := fold_left hash_step key (0xcbf29ce484222325, 0x9e3779b97f4a7c15) in
  (a, N.lor b 1).

(** The number of bytes for [keys] keys: [(keys * 10).div_ceil(8).max(8)]. *)
Definition bloom_len (keys : N) : N := N.max ((keys * BITS_PER_KEY + 7) / 8) 8.

(** The bit of a probe, in a filter of [len] bytes. *)
Definition probe_bit (h : N * N) (len probe : N) : N :=
  wrapping_add64 h.1 (wrapping_mul64 probe h.2) mod (len * 8).

(** [bits[bit / 8] |= 1 << (bit % 8)] *)
Definition set_bit (bits : list N) (bit : N) : list N :=
  alter (fun byte => N.lor byte (N.shiftl 1 (bit mod 8))) (N.to_nat (bit / 8)) bits.
(** [bits[bit / 8] & (1 << (bit % 8)) != 0]; [None] is an index out of range. *)
Definition test_bit (bits : list N) (bit : N) : option bool :=
  byte ← bits !! N.to_nat (bit / 8);
  Some (negb (N.land byte (N.shiftl 1 (bit mod 8)) =? 0)).

(** [0..n] *)
Definition range (n : N) : list N := N.of_nat <$> seq 0 (N.to_nat n).

Definition add_key (bits : list N) (key : Bytes) : list N :=
  let h := hashes key in
  fold_left (fun bits probe => set_bit bits (probe_bit h (len64 bits) probe)) (range PROBES) bits.

Definition bloom_build (keys : list Bytes) : Bloom :=
  mkBloom (fold_left add_key keys (replicate (N.to_nat (bloom_len (len64 keys))) 0))
    PROBES (len64 keys).

Definition bloom_validate (f : Bloom) (keys : N) : Io unit :=
  if negb (b_keys f =? keys) || negb (b_probes f =? PROBES)
     || negb (len64 (b_bits f) =? bloom_len keys)
  then invalid "invalid Bloom encoding" else mret tt.

(** The probes of [contains], in order, stopping at the first clear bit. *)
Fixpoint all_probes (bits : list N) (h : N * N) (probes : list N) : option bool :=
  match probes with
  | [] => Some true
  | probe :: rest =>
      b ← test_bit bits (probe_bit h (len64 bits) probe);
      if (b : bool) then all_probes bits h rest else Some false
  end.

(** [None] is a panic: an empty filter divides by zero. *)
Definition bloom_contains (f : Bloom) (key : Bytes) : option bool :=
  if (len64 (b_bits f) =? 0) && (0 <? b_probes f) then None else
  all_probes (b_bits f) (hashes key) (range (b_probes f)).

(** ** Bits *)

Definition bit_set (bits : list N) (bit : N) : Prop := test_bit bits bit = Some true.

Lemma set_bit_length bits bit : length (set_bit bits bit) = length bits.
Proof. apply length_alter. Qed.

Lemma mask_nonzero k : N.shiftl 1 k <> 0.
Proof. rewrite N.shiftl_1_l. apply N.pow_nonzero. lia. Qed.

Lemma land_lor_nonzero x y m : N.land x m <> 0 -> N.land (N.lor x y) m <> 0.
Proof.
  intros H E. apply H. rewrite N.land_lor_distr_l in E. by apply N.lor_eq_0_iff in E as [E _].
Qed.

Lemma set_bit_keeps bits b b' : bit_set bits b -> bit_set (set_bit bits b') b.
Proof.
  unfold bit_set, test_bit, set_bit. intros H.
  destruct (bits !! N.to_nat (b / 8)) as [x|] eqn:Hx; [|done]. cbn in H. injection H as H.
  apply negb_true_iff, N.eqb_neq in H.
  destruct (decide (N.to_nat (b' / 8) = N.to_nat (b / 8))) as [E|Hne].
  - rewrite E, list_lookup_alter_eq, Hx. cbn. f_equal. apply negb_true_iff, N.eqb_neq.
    by apply land_lor_nonzero.
  - rewrite list_lookup_alter_ne, Hx by done. cbn. f_equal. by apply negb_true_iff, N.eqb_neq.
Qed.

Lemma set_bit_sets bits b : b < len64 bits * 8 -> bit_set (set_bit bits b) b.
Proof.
  intros Hb. unfold bit_set, test_bit, set_bit.
  destruct (lookup_lt_is_Some_2 bits (N.to_nat (b / 8))) as [x Hx].
  { unfold len64 in Hb. assert (b / 8 < N.of_nat (length bits)); [|lia].
    apply N.Div0.div_lt_upper_bound; lia. }
  rewrite list_lookup_alter_eq, Hx. cbn. f_equal. apply negb_true_iff, N.eqb_neq. intros E.
  rewrite N.lor_comm in E. revert E. apply land_lor_nonzero.
  rewrite N.land_diag. apply mask_nonzero.
Qed.

Lemma probe_bit_lt h len probe : 0 < len -> probe_bit h len probe < len * 8.
Proof. intros H. apply N.mod_lt. lia. Qed.

(** ** Keys *)

Lemma add_key_fold probes bits h :
  let bits' := fold_left (fun bits p => set_bit bits (probe_bit h (len64 bits) p)) probes bits in
  len64 bits' = len64 bits /\ (forall b, bit_set bits b -> bit_set bits' b)
  /\ (0 < len64 bits -> forall p, p ∈ probes -> bit_set bits' (probe_bit h (len64 bits) p)).
Proof.
  revert bits. induction probes as [|p probes IH]; intros bits; cbn.
  { split; [done|]. split; [done|]. intros _ p Hp. by apply not_elem_of_nil in Hp. }
  set (bits1 := set_bit bits (probe_bit h (len64 bits) p)).
  assert (Hl : len64 bits1 = len64 bits) by (unfold len64, bits1; by rewrite set_bit_length).
  destruct (IH bits1) as (H1 & H2 & H3). rewrite Hl in *. split; [done|]. split.
  - intros b Hb. by apply H2, set_bit_keeps.
  - intros Hpos q [->|Hq]%elem_of_cons; [|by apply H3].
    apply H2, set_bit_sets. by apply probe_bit_lt.
Qed.

(** Every probe of the key is set. *)
Definition holds (bits : list N) (key : Bytes) : Prop :=
  forall p, p ∈ range PROBES -> bit_set bits (probe_bit (hashes key) (len64 bits) p).

Lemma build_fold keys bits :
  0 < len64 bits ->
  let bits' := fold_left add_key keys bits in
  len64 bits' = len64 bits /\ (forall key, holds bits key -> holds bits' key)
  /\ forall key, key ∈ keys -> holds bits' key.
Proof.
  revert bits. induction keys as [|k keys IH]; intros bits Hpos; cbn.
  { split; [done|]. split; [done|]. intros k Hk. by apply not_elem_of_nil in Hk. }
  destruct (add_key_fold (range PROBES) bits (hashes k)) as (L1 & K1 & S1).
  fold (add_key bits k) in *. destruct (IH (add_key bits k)) as (L2 & K2 & S2); [lia|].
  split; [lia|]. split.
  - intros key Hk. apply K2. intros p Hp. rewrite L1. by apply K1, Hk.
  - intros key [->|Hk]%elem_of_cons; [|by apply S2]. apply K2. intros p Hp. rewrite L1. by apply S1.
Qed.

Lemma all_probes_true bits h probes :
  (forall p, p ∈ probes -> bit_set bits (probe_bit h (len64 bits) p)) ->
  all_probes bits h probes = Some true.
Proof.
  induction probes as [|p probes IH]; intros H; cbn; [done|].
  rewrite (H p ltac:(left)). cbn. apply IH. intros q Hq. apply H. by right.
Qed.

Lemma bloom_len_pos keys : 8 <= bloom_len keys.
Proof. unfold bloom_len. lia. Qed.

Lemma zeros_len n : len64 (replicate (N.to_nat n) 0) = n.
Proof. unfold len64. rewrite length_replicate. lia. Qed.

Lemma build_len keys : len64 (b_bits (bloom_build keys)) = bloom_len (len64 keys).
Proof.
  cbn. pose proof (bloom_len_pos (len64 keys)).
  destruct (build_fold keys (replicate (N.to_nat (bloom_len (len64 keys))) 0)) as (-> & _).
  - rewrite zeros_len. lia.
  - apply zeros_len.
Qed.

Lemma build_contains keys key : key ∈ keys -> bloom_contains (bloom_build keys) key = Some true.
Proof.
  intros Hk. unfold bloom_contains. rewrite build_len. pose proof (bloom_len_pos (len64 keys)).
  destruct (N.eqb_spec (bloom_len (len64 keys)) 0); [lia|]. cbn [andb].
  apply all_probes_true. apply build_fold; [|done]. rewrite zeros_len. lia.
Qed.

Lemma build_validates keys : bloom_validate (bloom_build keys) (len64 keys) = IoOk tt.
Proof. unfold bloom_validate. rewrite build_len. cbn [b_keys b_probes bloom_build]. by rewrite !N.eqb_refl. Qed.

Lemma test_bit_total bits b : b < len64 bits * 8 -> is_Some (test_bit bits b).
Proof.
  intros Hb. unfold test_bit. destruct (lookup_lt_is_Some_2 bits (N.to_nat (b / 8))) as [x ->].
  { unfold len64 in Hb. assert (b / 8 < N.of_nat (length bits)); [|lia].
    apply N.Div0.div_lt_upper_bound; lia. }
  by eexists.
Qed.

(** A validated filter never indexes out of range. *)
Lemma validated_contains f keys key :
  bloom_validate f keys = IoOk tt -> is_Some (bloom_contains f key).
Proof.
  unfold bloom_validate, bloom_contains. intros H. io_inv. bool_inv.
  pose proof (bloom_len_pos keys) as Hlen.
  match goal with H : len64 _ = bloom_len keys |- _ => rewrite H end.
  destruct (N.eqb_spec (bloom_len keys) 0); [lia|]. cbn [andb].
  induction (range (b_probes f)) as [|p probes IH]; cbn; [by eexists|].
  destruct (test_bit_total (b_bits f) (probe_bit (hashes key) (len64 (b_bits f)) p)) as [b ->].
  { apply probe_bit_lt. lia. }
  cbn. destruct b; [apply IH|by eexists].
Qed.

(** A filter has no false negatives: the filter built from a set of keys
    answers yes for each of them, passes its own validation, and any filter
    that passes validation answers every query without leaving its bits. *)
Theorem bloom_no_false_negatives keys key f n :
  (key ∈ keys -> bloom_contains (bloom_build keys) key = Some true)
  /\ bloom_validate (bloom_build keys) (len64 keys) = IoOk tt
  /\ (bloom_validate f n = IoOk tt -> is_Some (bloom_contains f key)).
Proof.
  split; [apply build_contains|]. split; [apply build_validates|apply validated_contains].
Qed.
