(* ===== verification/Codec.v ===== *)
(** * [state-store/src/codec.rs]: records, batches and frames

    Little-endian encodings of records and batches, and the checksummed frame
    around each.  A reader is the list of bytes still to be read; reads do not
    fail.  [digest] is SHA-256. *)
From S2P Require Import Prelude Store.
Local Open Scope N_scope.
Local Open Scope raft_scope.

(** ** Integers *)

(** [to_le_bytes] at a width of [w] bytes. *)
Fixpoint to_le (w : nat) (n : N) : Bytes :=
  match w with
  | O => []
  | S w => n mod 256 :: to_le w (n / 256)
  end.
(** [from_le_bytes] *)
Fixpoint from_le (bytes : Bytes) : N :=
  match bytes with
  | [] => 0
  | b :: rest => b + 256 * from_le rest
  end.
(** [as u32] *)
Definition as_u32 (n : N) : N := n mod two32.

(** ** Records *)

Definition MAX_FRAME : N := MAX_BATCH_BYTES + MAX_BATCH_RECORDS * 16 + 24.

Definition encode_record (r : Cell) : Bytes :=
  to_le 8 (c_sequence r)
  ++ to_le 4 (as_u32 (len64 (c_key r)))
  ++ to_le 4 (map_or (c_value r) u32_max (fun v => as_u32 (len64 v)))
  ++ c_key r ++ default [] (c_value r).

(** One iteration of the loop of [decode_records]. *)
Definition decode_record (bytes : Bytes) : Io (Cell * Bytes) :=
  if len64 bytes <? 16 then invalid "short record header" else
  let header := take 16 bytes in
  let bytes := drop 16 bytes in
  let sequence := from_le (take 8 header) in
  let key_len := from_le (take 4 (drop 8 header)) in
  let value_len := from_le (drop 12 header) in
  let length := if value_len =? u32_max then 0 else value_len in
  if (key_len =? 0) || (MAX_KEY_BYTES <? key_len) || (MAX_VALUE_BYTES <? length)
     || (len64 bytes <? key_len + length)
  then invalid "record bounds invalid" else
  let key := take (N.to_nat key_len) bytes in
  let value := if value_len =? u32_max then None
               else Some (take (N.to_nat length) (drop (N.to_nat key_len) bytes)) in
  mret (mkCell key value sequence, drop (N.to_nat (key_len + length)) bytes).

Fixpoint decode_loop (count : nat) (bytes : Bytes) : Io (list Cell * Bytes) :=
  match count with
  | O => mret ([], bytes)
  | S count =>
      '(r, bytes) ← decode_record bytes;
      '(rs, bytes) ← decode_loop count bytes;
      mret (r :: rs, bytes)
  end.

Definition decode_records (bytes : Bytes) (count : N) : Io (list Cell) :=
  if MAX_BATCH_RECORDS <? count then invalid "record count exceeds limit" else
  '(records, rest) ← decode_loop (N.to_nat count) bytes;
  if negb (len64 rest =? 0) then invalid "trailing record data" else
  mret records.

(** ** Batches *)

Definition cell_of (index : N) (c : Mutation) : Cell := mkCell (m_key c) (m_value c) index.
Definition mutation_of (r : Cell) : Mutation := mkMutation (c_key r) (c_value r).

Definition encode_batch (first index : N) (changes : list Mutation) : Io Bytes :=
  validate_range first index;;
  validate_changes changes;;
  mret (to_le 8 first ++ to_le 8 index ++ to_le 4 (as_u32 (len64 changes))
        ++ concat (encode_record ∘ cell_of index <$> changes)).

Definition decode_batch (bytes : Bytes) : Io (N * N * list Mutation) :=
  if len64 bytes <? 20 then invalid "short batch" else
  let first := from_le (take 8 bytes) in
  let index := from_le (take 8 (drop 8 bytes)) in
  as_invalid (validate_range first index);;
  let count := from_le (take 4 (drop 16 bytes)) in
  records ← decode_records (drop 20 bytes) count;
  if existsb (fun r => negb (c_sequence r =? index)) records
  then invalid "mixed batch sequence" else
  let changes := mutation_of <$> records in
  as_invalid (validate_changes changes);;
  mret (first, index, changes).

(** ** Frames *)

Section frames.
Context (digest : Bytes -> Bytes).

Definition frame_header (magic : Bytes) (length : N) : Bytes :=
  let fixed := magic ++ to_le 4 (as_u32 length) in
  fixed ++ digest fixed.

Definition frame (magic payload : Bytes) : Io Bytes :=
  if MAX_FRAME <? len64 payload then invalid "frame too large" else
  let bytes := frame_header magic (len64 payload) ++ payload in
  mret (bytes ++ digest bytes).

(** [Some (payload, consumed, rest)], or [None] at the end of the input or in an
    incomplete final frame. *)
Definition read_frame (reader magic : Bytes) : Io (option (Bytes * N * Bytes)) :=
  if len64 reader <? 44 then mret None else
  let header := take 44 reader in
  let reader := drop 44 reader in
  if negb (eqb (take 8 header) magic) then invalid "frame magic/version mismatch" else
  if negb (eqb (digest (take 12 header)) (drop 12 header))
  then invalid "frame header checksum mismatch" else
  let length := from_le (take 4 (drop 8 header)) in
  if MAX_FRAME <? length then invalid "frame length exceeds limit" else
  if len64 reader <? length + 32 then mret None else
  let rest := take (N.to_nat (length + 32)) reader in
  let payload := take (N.to_nat length) rest in
  if negb (eqb (digest (header ++ payload)) (drop (N.to_nat length) rest))
  then invalid "frame checksum mismatch" else
  mret (Some (payload, length + 76, drop (N.to_nat (length + 32)) reader)).
End frames.

(** ** Integers round-trip *)

Lemma to_le_length w n : length (to_le w n) = w.
Proof. revert n. induction w as [|w IH]; intros n; cbn; [done|]. by rewrite IH. Qed.

Lemma from_to_le w n : n < 256 ^ N.of_nat w -> from_le (to_le w n) = n.
Proof.
  revert n. induction w as [|w IH]; intros n Hn; cbn [to_le from_le].
  - cbn in Hn. lia.
  - rewrite IH.
    + rewrite N.add_comm. symmetry. apply N.Div0.div_mod.
    + apply N.Div0.div_lt_upper_bound. by rewrite <- N.pow_succ_r', <- Nat2N.inj_succ.
Qed.

Lemma from_to_le8 n : n <= u64_max -> from_le (to_le 8 n) = n.
Proof. intros H. apply from_to_le. change (256 ^ _) with two64. pose proof u64_max_two64. lia. Qed.
Lemma from_to_le4 n : n <= u32_max -> from_le (to_le 4 n) = n.
Proof. intros H. apply from_to_le. change (256 ^ _) with two32. unfold u32_max, two32 in *. lia. Qed.
Lemma as_u32_id n : n <= u32_max -> as_u32 n = n.
Proof. intros H. apply N.mod_small. unfold u32_max, two32 in *. lia. Qed.

(** ** Records round-trip *)

Lemma take_app_len {A} n (l1 l2 : list A) : length l1 = n -> take n (l1 ++ l2) = l1.
Proof. intros <-. apply take_app_length. Qed.
Lemma drop_app_len {A} n (l1 l2 : list A) : length l1 = n -> drop n (l1 ++ l2) = l2.
Proof. intros <-. apply drop_app_length. Qed.

Definition cell_ok (r : Cell) : Prop := mutation_ok (mutation_of r) /\ c_sequence r <= u64_max.

Lemma decode_encode_record r rest :
  cell_ok r -> decode_record (encode_record r ++ rest) = IoOk (r, rest).
Proof.
  intros [[[Hk1 Hk2] Hv] Hs]. cbn [m_key m_value mutation_of] in *.
  unfold MAX_KEY_BYTES, MAX_VALUE_BYTES in *.
  set (vl := map_or (c_value r) u32_max (fun v => as_u32 (len64 v))).
  set (body := c_key r ++ default [] (c_value r) ++ rest).
  set (H := to_le 8 (c_sequence r) ++ to_le 4 (as_u32 (len64 (c_key r))) ++ to_le 4 vl).
  assert (HL : length H = 16%nat) by (unfold H; rewrite !length_app, !to_le_length; done).
  assert (E : encode_record r ++ rest = H ++ body).
  { unfold encode_record, H, body. fold vl. by rewrite <- !app_assoc. }
  rewrite E. unfold decode_record.
  destruct (N.ltb_spec (len64 (H ++ body)) 16) as [Hlt|_].
  { unfold len64 in Hlt. rewrite length_app in Hlt. lia. }
  rewrite (take_app_len 16), (drop_app_len 16) by done.
  assert (H1 : from_le (take 8 H) = c_sequence r).
  { unfold H. rewrite take_app_len by apply to_le_length. by apply from_to_le8. }
  assert (H2 : from_le (take 4 (drop 8 H)) = len64 (c_key r)).
  { unfold H. rewrite drop_app_len by apply to_le_length.
    rewrite take_app_len by apply to_le_length.
    rewrite as_u32_id, from_to_le4; [done|..]; unfold u32_max; lia. }
  assert (Hvl : vl <= u32_max).
  { unfold vl. destruct (c_value r); cbn; [|done]. unfold as_u32, u32_max, two32.
    pose proof (N.mod_lt (len64 l) 4294967296). lia. }
  assert (H3 : from_le (drop 12 H) = vl).
  { unfold H. rewrite app_assoc, drop_app_len by (rewrite length_app, !to_le_length; done).
    by apply from_to_le4. }
  rewrite H1, H2, H3.
  assert (Hval : (if vl =? u32_max then 0 else vl) = value_len (c_value r)
    /\ (vl =? u32_max) = is_none (c_value r)).
  { unfold vl, value_len. destruct (c_value r) as [v|]; cbn; [|done].
    specialize (Hv v eq_refl). rewrite as_u32_id by (unfold u32_max; lia).
    destruct (N.eqb_spec (len64 v) u32_max); [unfold u32_max in *; lia|done]. }
  destruct Hval as [-> Hnone]. rewrite Hnone.
  assert (Hvl2 : value_len (c_value r) <= 1024 * 1024).
  { unfold value_len. destruct (c_value r) as [v|]; cbn; [by apply Hv|lia]. }
  assert (Hbody : len64 body = len64 (c_key r) + value_len (c_value r) + len64 rest).
  { unfold body, len64, value_len. rewrite !length_app. destruct (c_value r); cbn; unfold len64; lia. }
  destruct (_ || _) eqn:Hb.
  { exfalso. unfold MAX_KEY_BYTES, MAX_VALUE_BYTES in Hb.
    repeat (apply orb_true_iff in Hb as [Hb|Hb]); bool_inv; lia. }
  cbn [mret Io_ret]. unfold mret, Io_ret. f_equal. f_equal.
  - destruct r as [key value seq]. cbn [c_key c_value c_sequence] in *. f_equal.
    + unfold body. apply take_app_len. unfold len64. lia.
    + destruct value as [v|]; cbn [is_none is_some negb]; [|done]. f_equal.
      unfold body. rewrite drop_app_len by (unfold len64; lia). cbn [default from_option].
      apply take_app_len. unfold value_len, len64. cbn. lia.
  - unfold body. rewrite app_assoc. apply drop_app_len. rewrite length_app.
    unfold value_len, len64. destruct (c_value r); cbn; unfold len64; lia.
Qed.

Lemma decode_encode_loop rs rest :
  (forall r, r ∈ rs -> cell_ok r) ->
  decode_loop (length rs) (concat (encode_record <$> rs) ++ rest) = IoOk (rs, rest).
Proof.
  induction rs as [|r rs IH]; intros Hok; cbn [length decode_loop fmap list_fmap concat]; [done|].
  rewrite <- app_assoc, decode_encode_record by (apply Hok; left). cbn.
  by rewrite IH by (intros; apply Hok; by right).
Qed.

Lemma decode_encode_records rs :
  (forall r, r ∈ rs -> cell_ok r) -> len64 rs <= MAX_BATCH_RECORDS ->
  decode_records (concat (encode_record <$> rs)) (len64 rs) = IoOk rs.
Proof.
  intros Hok Hlen. unfold decode_records.
  destruct (N.ltb_spec MAX_BATCH_RECORDS (len64 rs)); [lia|]. unfold len64. rewrite Nat2N.id.
  pose proof (decode_encode_loop rs [] Hok) as H1. rewrite app_nil_r in H1. by rewrite H1.
Qed.

(** ** Batches round-trip *)

Lemma range_ok first index :
  validate_range first index = IoOk tt <-> 0 < first <= index /\ index - first < MAX_APPLY_RANGE.
Proof.
  unfold validate_range. destruct (_ || _) eqn:Hb.
  - split; [done|]. intros [[H1 H2] H3].
    repeat (apply orb_true_iff in Hb as [Hb|Hb]); bool_inv; lia.
  - bool_inv. split; [|done]. intros _. lia.
Qed.

Lemma encode_batch_inv first index changes bytes :
  encode_batch first index changes = IoOk bytes ->
  validate_range first index = IoOk tt /\ (exists total, validate_changes changes = IoOk total)
  /\ bytes = to_le 8 first ++ to_le 8 index ++ to_le 4 (as_u32 (len64 changes))
             ++ concat (encode_record <$> (cell_of index <$> changes)).
Proof.
  unfold encode_batch. intros H. io_inv. destruct x. split; [done|]. split; [eauto|].
  by rewrite <- list_fmap_compose.
Qed.

Lemma mutation_cell i c : mutation_of (cell_of i c) = c.
Proof. by destruct c. Qed.
Lemma mutation_cells i (cs : list Mutation) : mutation_of <$> (cell_of i <$> cs) = cs.
Proof.
  rewrite <- list_fmap_compose. rewrite <- (list_fmap_id cs) at 2. apply list_fmap_ext.
  intros k c _. apply mutation_cell.
Qed.

Lemma encode_record_len r :
  len64 (encode_record r) = cell_size r.
Proof.
  unfold encode_record, cell_size, value_len, len64. rewrite !length_app, !to_le_length.
  destruct (c_value r); cbn; unfold len64; lia.
Qed.

Lemma encoded_cells_len index changes :
  len64 (concat (encode_record <$> (cell_of index <$> changes)))
  = 16 * len64 changes + batch_bytes changes.
Proof.
  induction changes as [|c rest IH]; [done|].
  rewrite !fmap_cons. cbn [concat batch_bytes]. pose proof (encode_record_len (cell_of index c)) as Hr. unfold cell_size in Hr. cbn [c_key c_value cell_of] in Hr.
  unfold len64 in *. rewrite length_app. cbn [length]. lia.
Qed.

(** An accepted batch fits a frame. *)
Lemma encode_batch_len first index changes bytes :
  encode_batch first index changes = IoOk bytes -> len64 bytes <= MAX_FRAME.
Proof.
  intros (_ & [t Ht] & ->)%encode_batch_inv. apply changes_ok in Ht as (Hn & _ & _ & Hb).
  pose proof (encoded_cells_len index changes) as Hl. unfold len64 in *.
  rewrite !length_app, !to_le_length. unfold MAX_FRAME, MAX_BATCH_BYTES, MAX_BATCH_RECORDS in *.
  lia.
Qed.

Lemma as_invalid_ok {A} (r : Io A) a : r = IoOk a -> as_invalid r = IoOk a.
Proof. by intros ->. Qed.

Lemma decode_encode_batch first index changes bytes :
  encode_batch first index changes = IoOk bytes -> index <= u64_max ->
  decode_batch bytes = IoOk (first, index, changes).
Proof.
  intros (Hr & [t Ht] & ->)%encode_batch_inv Hmax.
  destruct (changes_ok _ _ Ht) as (Hn & Hok & _ & _).
  pose proof (proj1 (range_ok _ _) Hr) as Hrange.
  set (cells := cell_of index <$> changes).
  set (count := to_le 4 (as_u32 (len64 changes))).
  set (body := concat (encode_record <$> cells)).
  unfold decode_batch.
  assert (Hcount : length count = 4%nat) by apply to_le_length.
  assert (HL : (len64 (to_le 8 first ++ to_le 8 index ++ count ++ body) <? 20) = false).
  { apply N.ltb_ge. unfold len64. rewrite !length_app, !to_le_length, Hcount. lia. }
  rewrite HL. rewrite take_app_len, from_to_le8 by (apply to_le_length || lia).
  rewrite (drop_app_len 8) by apply to_le_length.
  rewrite take_app_len, from_to_le8 by (apply to_le_length || lia).
  rewrite (as_invalid_ok _ _ Hr). cbn [mbind Io_bind].
  assert (H16 : forall l : Bytes, drop 16 (to_le 8 first ++ to_le 8 index ++ l) = l).
  { intros l. rewrite app_assoc. apply drop_app_len. by rewrite length_app, !to_le_length. }
  assert (H20 : drop 20 (to_le 8 first ++ to_le 8 index ++ count ++ body) = body).
  { rewrite !app_assoc. apply drop_app_len. by rewrite !length_app, !to_le_length, Hcount. }
  rewrite H16, H20, take_app_len by done. unfold MAX_BATCH_RECORDS in Hn.
  assert (Hc : from_le count = len64 cells).
  { unfold count, cells. rewrite as_u32_id, from_to_le4 by (unfold u32_max; lia).
    unfold len64. by rewrite length_fmap. }
  rewrite Hc. unfold body. rewrite decode_encode_records.
  - cbn [mbind Io_bind]. assert (existsb (fun r => negb (c_sequence r =? index)) cells = false) as ->.
    { apply not_true_iff_false. rewrite existsb_exists. intros (x & Hx & Hne).
      rewrite <- list_elem_of_In in Hx. apply list_elem_of_fmap in Hx as (c & -> & _).
      cbn in Hne. by rewrite N.eqb_refl in Hne. }
    unfold cells. rewrite mutation_cells, (as_invalid_ok _ _ Ht). done.
  - intros r (c & -> & Hc')%list_elem_of_fmap. split; [rewrite mutation_cell; by apply Hok|done].
  - rewrite <- Hc. unfold count. rewrite as_u32_id, from_to_le4 by (unfold u32_max; lia).
    unfold MAX_BATCH_RECORDS. lia.
Qed.

(** ** Frames round-trip *)

Section frames.
Context (digest : Bytes -> Bytes) (digest_len : forall b, length (digest b) = 32%nat).
Context (magic : Bytes) (magic_len : length magic = 8%nat).

Lemma frame_header_len n : length (frame_header digest magic n) = 44%nat.
Proof. unfold frame_header. rewrite !length_app, digest_len, to_le_length. lia. Qed.

Lemma frame_inv payload bytes :
  frame digest magic payload = IoOk bytes ->
  len64 payload <= MAX_FRAME
  /\ bytes = frame_header digest magic (len64 payload) ++ payload
             ++ digest (frame_header digest magic (len64 payload) ++ payload).
Proof.
  unfold frame. intros H. io_inv. bool_inv. split; [done|]. by rewrite app_assoc.
Qed.

Lemma frame_len payload bytes :
  frame digest magic payload = IoOk bytes -> len64 bytes = len64 payload + 76.
Proof.
  intros [_ ->]%frame_inv. unfold len64. rewrite !length_app, frame_header_len, digest_len. lia.
Qed.

Lemma frame_fits payload :
  len64 payload <= MAX_FRAME -> exists bytes, frame digest magic payload = IoOk bytes.
Proof.
  intros H. unfold frame. destruct (N.ltb_spec MAX_FRAME (len64 payload)); [lia|]. by eexists.
Qed.

(** What the reader sees once the header is complete. *)
Lemma read_header n tail :
  n <= MAX_FRAME ->
  read_frame digest (frame_header digest magic n ++ tail) magic =
  if len64 tail <? n + 32 then mret None else
  let rest := take (N.to_nat (n + 32)) tail in
  let payload := take (N.to_nat n) rest in
  if negb (eqb (digest (frame_header digest magic n ++ payload)) (drop (N.to_nat n) rest))
  then invalid "frame checksum mismatch" else
  mret (Some (payload, n + 76, drop (N.to_nat (n + 32)) tail)).
Proof.
  intros Hn. set (h := frame_header digest magic n).
  assert (Hh : length h = 44%nat) by apply frame_header_len.
  unfold read_frame. destruct (N.ltb_spec (len64 (h ++ tail)) 44) as [Hlt|_].
  { unfold len64 in Hlt. rewrite length_app in Hlt. lia. }
  rewrite (take_app_len 44), (drop_app_len 44) by done.
  assert (Hu : n <= u32_max).
  { unfold MAX_FRAME, MAX_BATCH_BYTES, MAX_BATCH_RECORDS, u32_max in *. lia. }
  assert (H8 : take 8 h = magic).
  { unfold h, frame_header. rewrite <- app_assoc. by apply take_app_len. }
  assert (H12 : take 12 h = magic ++ to_le 4 (as_u32 n) /\ drop 12 h = digest (magic ++ to_le 4 (as_u32 n))).
  { unfold h, frame_header.
    assert (length (magic ++ to_le 4 (as_u32 n)) = 12%nat) by (rewrite length_app, to_le_length; lia).
    by rewrite take_app_len, drop_app_len. }
  assert (Hlen : from_le (take 4 (drop 8 h)) = n).
  { unfold h, frame_header. rewrite <- app_assoc, drop_app_len by done.
    rewrite take_app_len by apply to_le_length. by rewrite as_u32_id, from_to_le4. }
  destruct H12 as [H12 H12']. rewrite H8, H12, H12', Hlen, !eqb_refl. cbn [negb].
  by destruct (N.ltb_spec MAX_FRAME n); [lia|].
Qed.

Lemma read_frame_whole payload bytes tail :
  frame digest magic payload = IoOk bytes ->
  read_frame digest (bytes ++ tail) magic = IoOk (Some (payload, len64 bytes, tail)).
Proof.
  intros Hf. pose proof (frame_len _ _ Hf) as Hlen. apply frame_inv in Hf as [Hn ->].
  rewrite <- app_assoc, <- app_assoc, read_header by done.
  set (h := frame_header digest magic (len64 payload)) in *. set (d := digest (h ++ payload)).
  assert (Hd : length d = 32%nat) by apply digest_len.
  destruct (N.ltb_spec (len64 (payload ++ d ++ tail)) (len64 payload + 32)) as [Hlt|_].
  { unfold len64 in Hlt. rewrite !length_app in Hlt. lia. }
  assert (HN : N.to_nat (len64 payload + 32) = length (payload ++ d)).
  { unfold len64. rewrite length_app. lia. }
  rewrite app_assoc, HN, take_app_length, drop_app_length. cbv zeta.
  rewrite (take_app_len (N.to_nat (len64 payload))) by (unfold len64; lia).
  rewrite (drop_app_len (N.to_nat (len64 payload))) by (unfold len64; lia).
  fold d. rewrite eqb_refl. cbn [negb]. by rewrite <- Hlen.
Qed.

(** A frame cut short anywhere reads as the end of the input. *)
Lemma read_frame_torn payload bytes k :
  frame digest magic payload = IoOk bytes -> (k < length bytes)%nat ->
  read_frame digest (take k bytes) magic = IoOk None.
Proof.
  intros Hf Hk. pose proof (frame_len _ _ Hf) as Hlen. apply frame_inv in Hf as [Hn ->].
  set (h := frame_header digest magic (len64 payload)) in *.
  assert (Hh : length h = 44%nat) by apply frame_header_len.
  destruct (decide (k < 44)%nat) as [Hshort|Hlong].
  - unfold read_frame. destruct (N.ltb_spec (len64 (take k (h ++ payload ++ digest (h ++ payload)))) 44)
      as [_|Hge]; [done|]. unfold len64 in Hge. rewrite length_take in Hge. lia.
  - rewrite take_app_ge by lia. rewrite Hh. unfold h at 1. rewrite read_header by done.
    set (tail := take (k - 44) _). destruct (N.ltb_spec (len64 tail) (len64 payload + 32)) as [_|Hge];
      [done|]. exfalso. unfold tail, len64 in *. rewrite length_take in Hge.
    rewrite !length_app, Hh, digest_len in *. lia.
Qed.
End frames.

(** The encodings round-trip: every batch that validates fits a frame,
    reading that frame back from the front of any input gives the batch and the
    rest of the input, and reading any proper prefix of it gives the end of the
    input rather than a batch or an error. *)
Theorem batch_frame_roundtrip digest magic first index changes payload :
  (forall b, length (digest b) = 32%nat) -> length magic = 8%nat -> index <= u64_max ->
  encode_batch first index changes = IoOk payload ->
  decode_batch payload = IoOk (first, index, changes)
  /\ exists bytes, frame digest magic payload = IoOk bytes
     /\ (forall tail, read_frame digest (bytes ++ tail) magic
                      = IoOk (Some (payload, len64 bytes, tail)))
     /\ (forall k, (k < length bytes)%nat -> read_frame digest (take k bytes) magic = IoOk None).
Proof.
  intros Hd Hm Hmax He. split; [by apply decode_encode_batch|].
  destruct (frame_fits digest magic Hm payload (encode_batch_len _ _ _ _ He)) as [bytes Hf].
  exists bytes. split; [done|]. split.
  - intros tail. by apply read_frame_whole.
  - intros k Hk. by eapply read_frame_torn.
Qed.
