(* ===== verification/Merge.v ===== *)
(** * [state-store/src/merge.rs]: the k-way merge of sorted runs *)
From S2P Require Import Prelude Store.
Local Open Scope N_scope.
Local Open Scope raft_scope.

(** [Box<dyn Iterator<Item = io::Result<Record>>>]: the items still to come. *)
Definition Source : Type := list (Io Cell).

Record Head := mkHead { h_source : nat; h_record : Cell }.
#[export] Instance Head_eq_dec : EqDecision Head.
Proof. solve_decision. Defined.

(** [Ordering::then] *)
Definition then_ (c d : comparison) : comparison := match c with Eq => d | _ => c end.

(** [Head::cmp]: the smallest key is the greatest head; then the newest, then
    the first source. *)
Definition head_cmp (self other : Head) : comparison :=
  then_ (key_cmp (c_key (h_record other)) (c_key (h_record self)))
    (then_ (c_sequence (h_record self) ?= c_sequence (h_record other))
       (Nat.compare (h_source other) (h_source self))).

(** [BinaryHeap]: an unordered collection whose [pop] removes a greatest
    element. *)
Fixpoint heap_pop (heap : list Head) : option (Head * list Head) :=
  match heap with
  | [] => None
  | h :: t =>
      match heap_pop t with
      | Some (m, rest) =>
          match head_cmp m h with Gt => Some (m, h :: rest) | _ => Some (h, t) end
      | None => Some (h, [])
      end
  end.
Definition heap_peek (heap : list Head) : option Head := fst <$> heap_pop heap.

Record Merge := mkMerge { mg_sources : list Source; mg_heap : list Head; mg_failed : bool }.

(** [self.sources[source].next()], pushed on the heap. *)
Definition advance (m : Merge) (source : nat) : Io Merge :=
  match mg_sources m !! source with
  | Some (IoOk r :: rest) =>
      IoOk (mkMerge (<[source := rest]> (mg_sources m)) (mkHead source r :: mg_heap m)
              (mg_failed m))
  | Some (IoErr k e :: _) => IoErr k e
  | _ => IoOk m
  end.

(** [for source in 0..sources.len()] of [Merge::new]. *)
Fixpoint advance_all (m : Merge) (sources : list nat) : Io Merge :=
  match sources with
  | [] => IoOk m
  | s :: rest => m ← advance m s; advance_all m rest
  end.
Definition merge_new (sources : list Source) : Io Merge :=
  advance_all (mkMerge sources [] false) (seq 0 (length sources)).

Definition merge_size (m : Merge) : nat :=
  (length (mg_heap m) + length (concat (mg_sources m)))%nat.

Definition conflict {A} : Io A := invalid "conflicting equal-sequence record or unsorted source".

(** The [while] loop of [take]: drop the older versions of the winner. *)
Fixpoint drain (fuel : nat) (winner : Cell) (m : Merge) : Io Merge :=
  match fuel with
  | O => IoErr OtherError "out of fuel"
  | S fuel =>
      match heap_pop (mg_heap m) with
      | Some (duplicate, heap) =>
          if eqb (c_key (h_record duplicate)) (c_key winner) then
            if (c_sequence winner <? c_sequence (h_record duplicate))
               || ((c_sequence (h_record duplicate) =? c_sequence winner)
                   && negb (eqb (c_value (h_record duplicate)) (c_value winner)))
            then conflict else
            m ← advance (mkMerge (mg_sources m) heap (mg_failed m)) (h_source duplicate);
            drain fuel winner m
          else IoOk m
      | None => IoOk m
      end
  end.

(** [Merge::take] *)
Definition merge_take (m : Merge) : Io (option Cell * Merge) :=
  match heap_pop (mg_heap m) with
  | None => IoOk (None, m)
  | Some (head, heap) =>
      let winner := h_record head in
      m ← advance (mkMerge (mg_sources m) heap (mg_failed m)) (h_source head);
      m ← drain (S (merge_size m)) winner m;
      IoOk (Some winner, m)
  end.

(** [Iterator::next] *)
Definition merge_next (m : Merge) : option (Io Cell) * Merge :=
  if mg_failed m then (None, m) else
  match merge_take m with
  | IoOk (r, m) => (IoOk <$> r, m)
  | IoErr k e => (Some (IoErr k e), mkMerge (mg_sources m) (mg_heap m) true)
  end.

(** The items of the iterator: [take] fails at most once, last. *)
Fixpoint merge_items (fuel : nat) (m : Merge) : Source :=
  match fuel with
  | O => [IoErr OtherError "out of fuel"]
  | S fuel =>
      match merge_next m with
      | (None, _) => []
      | (Some (IoErr k e), _) => [IoErr k e]
      | (Some (IoOk r), m) => IoOk r :: merge_items fuel m
      end
  end.
Definition merge_source (m : Merge) : Source := merge_items (S (merge_size m)) m.

(** [collect::<io::Result<Vec<_>>>()]: up to the first error. *)
Fixpoint merge_collect (fuel : nat) (m : Merge) : Io (list Cell) :=
  match fuel with
  | O => IoErr OtherError "out of fuel"
  | S fuel =>
      match merge_next m with
      | (None, _) => IoOk []
      | (Some (IoErr k e), _) => IoErr k e
      | (Some (IoOk r), m) => rows ← merge_collect fuel m; IoOk (r :: rows)
      end
  end.

Definition merge_rows (sources : list Source) : Io (list Cell) :=
  m ← merge_new sources; merge_collect (S (merge_size m)) m.

Lemma merge_source_rows sources rows :
  merge_rows sources = IoOk rows ->
  exists m, merge_new sources = IoOk m /\ merge_source m = map IoOk rows.
Proof.
  unfold merge_rows. intros (m & Hm & H)%Io_bind_Ok. exists m. split; [done|].
  unfold merge_source. revert H. generalize (S (merge_size m)) as fuel. clear Hm. intros fuel.
  revert m rows. induction fuel as [|fuel IH]; intros m rows; cbn [merge_collect merge_items]; [done|].
  destruct (merge_next m) as [[[r|k e]|] m']; [|done|by intros [= <-]].
  intros (rest & Hr & [= <-])%Io_bind_Ok. cbn. by rewrite (IH m' rest).
Qed.

(** ** What a merge should produce *)

Definition cell_lt (a b : Cell) : Prop := key_lt (c_key a) (c_key b).
#[export] Instance cell_lt_trans : Transitive cell_lt.
Proof. intros a b c. apply key_lt_trans. Qed.

(** The newest version of its key. *)
Definition newest (l : list Cell) (r : Cell) : Prop :=
  r ∈ l /\ forall r', r' ∈ l -> c_key r' = c_key r -> c_sequence r' <= c_sequence r.

(** The rows of [l], newest versions only, in key order. *)
Record merged (l rows : list Cell) : Prop := {
  mr_sorted : StronglySorted cell_lt rows;
  mr_newest : forall r, r ∈ rows -> newest l r;
  mr_complete : forall r, r ∈ l -> exists r', r' ∈ rows /\ c_key r' = c_key r;
}.

(** No two newest versions of a key disagree. *)
Definition consistent (l : list Cell) : Prop :=
  forall r r', newest l r -> newest l r' -> c_key r = c_key r' -> c_value r = c_value r'.

(** ** The heap *)

Lemma heap_pop_perm heap h rest : heap_pop heap = Some (h, rest) -> heap ≡ₚ h :: rest.
Proof.
  revert h rest. induction heap as [|x t IH]; intros h rest; cbn; [done|].
  destruct (heap_pop t) as [[m r]|] eqn:Hp.
  - specialize (IH m r eq_refl). destruct (head_cmp m x); intros [= <- <-]; try done.
    rewrite IH. apply Permutation_swap.
  - intros [= <- <-]. destruct t as [|y t]; [done|]. cbn in Hp.
    destruct (heap_pop t) as [[? ?]|]; [by destruct (head_cmp _ _)|done].
Qed.
Lemma heap_pop_None heap : heap_pop heap = None -> heap = [].
Proof.
  destruct heap as [|h t]; [done|]. cbn. destruct (heap_pop t) as [[? ?]|]; [|done].
  by destruct (head_cmp _ _).
Qed.

(** [a] is at least [b]. *)
Definition head_ge (a b : Head) : Prop := head_cmp a b <> Lt.

Lemma head_cmp_antisym a b : head_cmp b a = CompOpp (head_cmp a b).
Proof.
  unfold head_cmp. rewrite (key_cmp_antisym (c_key (h_record a)) (c_key (h_record b))).
  rewrite (N.compare_antisym (c_sequence (h_record a)) (c_sequence (h_record b))).
  rewrite (Nat.compare_antisym (h_source a) (h_source b)).
  destruct (key_cmp _ _); cbn; [|done..]. destruct (c_sequence _ ?= _); cbn; [|done..].
  by destruct (Nat.compare _ _).
Qed.

Lemma head_ge_spec a b :
  head_ge a b <-> key_lt (c_key (h_record a)) (c_key (h_record b))
    \/ (c_key (h_record a) = c_key (h_record b)
        /\ (c_sequence (h_record b) < c_sequence (h_record a)
            \/ (c_sequence (h_record b) = c_sequence (h_record a)
                /\ (h_source a <= h_source b)%nat))).
Proof.
  unfold head_ge, head_cmp, key_lt. rewrite <- (key_cmp_Eq (c_key (h_record a))).
  rewrite (key_cmp_antisym (c_key (h_record a)) (c_key (h_record b))).
  destruct (key_cmp _ _); cbn; [|naive_solver..].
  destruct (N.compare_spec (c_sequence (h_record a)) (c_sequence (h_record b))); cbn.
  - destruct (Nat.compare_spec (h_source b) (h_source a)); naive_solver lia.
  - naive_solver lia.
  - naive_solver lia.
Qed.
#[local] Instance head_ge_preorder : PreOrder head_ge.
Proof.
  split.
  - intros a. apply head_ge_spec. right. split; [done|]. right. lia.
  - intros a b c. rewrite !head_ge_spec. intros [H1|[E1 H1]] [H2|[E2 H2]].
    + left. by etrans.
    + left. by rewrite <- E2.
    + left. by rewrite E1.
    + right. split; [congruence|]. lia.
Qed.

Lemma head_ge_key a b :
  head_ge a b -> key_le (c_key (h_record a)) (c_key (h_record b))
    /\ (c_key (h_record a) = c_key (h_record b) ->
        c_sequence (h_record b) <= c_sequence (h_record a)).
Proof.
  rewrite head_ge_spec, key_le_lt. intros [H|[E H]]; (split; [auto|]).
  - intros E. rewrite E in H. by apply key_lt_irrefl in H.
  - lia.
Qed.

Lemma heap_pop_max heap h rest x : heap_pop heap = Some (h, rest) -> x ∈ heap -> head_ge h x.
Proof.
  revert h rest. induction heap as [|y t IH]; intros h rest; cbn; [done|].
  destruct (heap_pop t) as [[m r]|] eqn:Hp.
  - specialize (IH m r eq_refl). destruct (head_cmp m y) eqn:Hc; intros [= <- <-].
    1,2: intros [->|Hx]%elem_of_cons; [done|]; transitivity m; [|by apply IH];
      unfold head_ge; rewrite (head_cmp_antisym m y), Hc; done.
    intros [->|Hx]%elem_of_cons; [|by apply IH]. unfold head_ge. by rewrite Hc.
  - apply heap_pop_None in Hp as ->. intros [= <- <-] ->%list_elem_of_singleton. done.
Qed.

(** ** Walking sorted runs *)

(** A run that reads without error. *)
Definition ok_source (run : list Cell) : Source := map IoOk run.

(** A merge of such runs. *)
Definition of_runs (heap : list Head) (runs : list (list Cell)) : Merge :=
  mkMerge (map ok_source runs) heap false.

(** Everything still to come. *)
Definition upcoming (heap : list Head) (runs : list (list Cell)) : list Cell :=
  (h_record <$> heap) ++ concat runs.

Record walk (heap : list Head) (runs : list (list Cell)) : Prop := {
  wk_sorted : forall i run, runs !! i = Some run -> StronglySorted cell_lt run;
  wk_below : forall h run r, h ∈ heap -> runs !! h_source h = Some run -> r ∈ run ->
    cell_lt (h_record h) r;
  wk_heads : forall i run, runs !! i = Some run -> run <> [] ->
    exists h, h ∈ heap /\ h_source h = i;
}.

Lemma concat_advance (runs : list (list Cell)) i r rest :
  runs !! i = Some (r :: rest) -> concat runs ≡ₚ r :: concat (<[i := rest]> runs).
Proof.
  revert i. induction runs as [|run runs IH]; intros [|i]; cbn; [done|done| |].
  - by intros [= ->].
  - intros H. rewrite (IH i H). by rewrite Permutation_middle.
Qed.

(** What [advance] does to runs. *)
Lemma advance_runs heap runs i :
  exists heap' runs', advance (of_runs heap runs) i = IoOk (of_runs heap' runs')
    /\ upcoming heap' runs' ≡ₚ upcoming heap runs
    /\ ((exists r rest, runs !! i = Some (r :: rest) /\ heap' = mkHead i r :: heap
           /\ runs' = <[i := rest]> runs)
        \/ (heap' = heap /\ runs' = runs /\ forall run, runs !! i = Some run -> run = [])).
Proof.
  unfold advance, of_runs. cbn [mg_sources mg_heap mg_failed].
  change (map ok_source runs) with (ok_source <$> runs). rewrite list_lookup_fmap.
  destruct (runs !! i) as [[|r rest]|] eqn:Hr; cbn.
  - exists heap, runs. split; [done|]. split; [done|]. right. by repeat split; intros ? [= <-].
  - exists (mkHead i r :: heap), (<[i := rest]> runs). split.
    { change (map ok_source ?x) with (ok_source <$> x). by rewrite list_fmap_insert. }
    split; [|left; eauto 10]. unfold upcoming. cbn. rewrite (concat_advance _ _ _ _ Hr).
    by rewrite Permutation_middle.
  - exists heap, runs. split; [done|]. split; [done|]. by right.
Qed.

(** Filling the place of a head that is gone. *)
Lemma refill heap runs i :
  (forall j run, runs !! j = Some run -> StronglySorted cell_lt run) ->
  (forall h run r, h ∈ heap -> runs !! h_source h = Some run -> r ∈ run -> cell_lt (h_record h) r) ->
  (forall j run, runs !! j = Some run -> run <> [] -> j <> i ->
     exists h, h ∈ heap /\ h_source h = j) ->
  exists heap' runs', advance (of_runs heap runs) i = IoOk (of_runs heap' runs')
    /\ upcoming heap' runs' ≡ₚ upcoming heap runs /\ walk heap' runs'.
Proof.
  intros H1 H2 H3. destruct (advance_runs heap runs i) as (heap' & runs' & Ha & Hp & Hc).
  exists heap', runs'. split; [done|]. split; [done|].
  destruct Hc as [(r & rest & Hi & -> & ->)|(-> & -> & He)].
  - pose proof (H1 _ _ Hi) as Hs. apply StronglySorted_inv in Hs as [Hs Hall].
    rewrite List.Forall_forall in Hall.
    assert (Hlt : (i < length runs)%nat) by by eapply lookup_lt_Some. split.
    + intros j run. destruct (decide (i = j)) as [<-|Hne].
      * rewrite list_lookup_insert_eq by done. by intros [= <-].
      * rewrite list_lookup_insert_ne by done. apply H1.
    + intros h run x Hh Hrun Hx. destruct (decide (i = h_source h)) as [Hi'|Hne].
      * rewrite <- Hi', list_lookup_insert_eq in Hrun by done. injection Hrun as <-.
        apply elem_of_cons in Hh as [->|Hh].
        -- cbn. apply Hall. by apply list_elem_of_In.
        -- eapply H2; [exact Hh|rewrite <- Hi'; exact Hi|]. by right.
      * rewrite list_lookup_insert_ne in Hrun by done.
        apply elem_of_cons in Hh as [->|Hh]; [done|]. by eapply H2.
    + intros j run Hj Hne. destruct (decide (i = j)) as [<-|Hij].
      * exists (mkHead i r). split; [left|done].
      * rewrite list_lookup_insert_ne in Hj by done.
        destruct (H3 j run Hj Hne) as (h & Hh & Hs'); [done|]. exists h. split; [by right|done].
  - split; [done|done|]. intros j run Hj Hne. destruct (decide (j = i)) as [->|Hij].
    + exfalso. by apply Hne, He.
    + by eapply H3.
Qed.

(** A head is taken and its source advances. *)
Lemma take_head heap runs h rest :
  walk heap runs -> heap_pop heap = Some (h, rest) ->
  exists heap' runs', advance (of_runs rest runs) (h_source h) = IoOk (of_runs heap' runs')
    /\ upcoming heap runs ≡ₚ h_record h :: upcoming heap' runs' /\ walk heap' runs'.
Proof.
  intros [H1 H2 H3] Hpop. pose proof (heap_pop_perm _ _ _ Hpop) as Hperm.
  destruct (refill rest runs (h_source h)) as (heap' & runs' & Ha & Hp & Hw).
  - done.
  - intros x run r Hx. apply H2. rewrite Hperm. by right.
  - intros j run Hj Hne Hjs. destruct (H3 j run Hj Hne) as (x & Hx & Hxs).
    rewrite Hperm in Hx. apply elem_of_cons in Hx as [->|Hx]; [done|]. by exists x.
  - exists heap', runs'. split; [done|]. split; [|done]. rewrite Hp. unfold upcoming.
    by rewrite Hperm.
Qed.

(** The greatest head has the smallest key, in its newest version. *)
Lemma top_head heap runs h rest r :
  walk heap runs -> heap_pop heap = Some (h, rest) -> r ∈ upcoming heap runs ->
  key_le (c_key (h_record h)) (c_key r)
  /\ (c_key r = c_key (h_record h) -> c_sequence r <= c_sequence (h_record h)).
Proof.
  intros [H1 H2 H3] Hpop [Hr|Hr]%elem_of_app.
  - apply list_elem_of_fmap in Hr as (x & -> & Hx).
    destruct (head_ge_key h x) as [Hk Hs]; [by eapply heap_pop_max|]. split; [done|]. auto.
  - rewrite list_elem_of_In in Hr. apply in_concat in Hr as (run & Hrun & Hr).
    rewrite <- list_elem_of_In in Hr. rewrite <- list_elem_of_In in Hrun.
    apply list_elem_of_lookup_1 in Hrun as [i Hi].
    destruct (H3 i run Hi) as (x & Hx & Hs); [by intros ->; apply not_elem_of_nil in Hr|].
    pose proof (H2 x run r Hx ltac:(by rewrite Hs) Hr) as Hlt.
    destruct (head_ge_key h x) as [Hk _]; [by eapply heap_pop_max|].
    pose proof (key_le_lt_trans _ _ _ Hk Hlt) as Hlt2. split; [by apply key_lt_le|].
    intros E. rewrite E in Hlt2. by apply key_lt_irrefl in Hlt2.
Qed.

Lemma empty_heap runs : walk [] runs -> upcoming [] runs = [].
Proof.
  intros [_ _ H3]. unfold upcoming. cbn.
  assert (Hall : forall run, run ∈ runs -> run = []).
  { intros run [i Hi]%list_elem_of_lookup_1. destruct run as [|x run]; [done|].
    destruct (H3 i _ Hi) as (h & Hh & _); [done|]. by apply not_elem_of_nil in Hh. }
  clear H3. induction runs as [|run runs IH]; [done|]. cbn. rewrite (Hall run) by left.
  apply IH. intros x Hx. apply Hall. by right.
Qed.

Lemma upcoming_size heap runs : merge_size (of_runs heap runs) = length (upcoming heap runs).
Proof.
  unfold merge_size, of_runs, upcoming. cbn. rewrite length_app, length_fmap. f_equal.
  induction runs as [|run runs IH]; [done|].
  cbn. unfold ok_source at 1. rewrite !length_app, length_map. f_equal. exact IH.
Qed.

(** ** Draining the older versions *)

(** A version that contradicts the winner. *)
Definition contradicts (winner r : Cell) : Prop :=
  c_key r = c_key winner /\ c_sequence r = c_sequence winner /\ c_value r <> c_value winner.

Lemma drain_spec fuel winner heap runs :
  walk heap runs -> (length (upcoming heap runs) < fuel)%nat ->
  (forall r, r ∈ upcoming heap runs -> key_le (c_key winner) (c_key r)
     /\ (c_key r = c_key winner -> c_sequence r <= c_sequence winner)) ->
  (exists heap' runs' dups, drain fuel winner (of_runs heap runs) = IoOk (of_runs heap' runs')
     /\ walk heap' runs' /\ upcoming heap runs ≡ₚ dups ++ upcoming heap' runs'
     /\ (forall r, r ∈ dups -> c_key r = c_key winner /\ ~ contradicts winner r)
     /\ (forall r, r ∈ upcoming heap' runs' -> key_lt (c_key winner) (c_key r)))
  \/ (drain fuel winner (of_runs heap runs) = conflict
      /\ exists r, r ∈ upcoming heap runs /\ contradicts winner r).
Proof.
  revert heap runs. induction fuel as [|fuel IH]; intros heap runs Hw Hlen Hle; [lia|].
  cbn [drain of_runs mg_heap mg_sources mg_failed].
  destruct (heap_pop heap) as [[h rest]|] eqn:Hpop.
  2: { left. apply heap_pop_None in Hpop as ->. exists [], runs, []. split; [done|]. split; [done|].
       split; [done|]. rewrite (empty_heap _ Hw). by split; intros r Hr; apply not_elem_of_nil in Hr. }
  destruct (take_head heap runs h rest Hw Hpop) as (heap1 & runs1 & Ha & Hp & Hw1).
  assert (Hin : h_record h ∈ upcoming heap runs) by (rewrite Hp; left).
  destruct (Hle _ Hin) as [_ Hseq].
  destruct (eqb (c_key (h_record h)) (c_key winner)) eqn:Hk; bool_inv.
  - specialize (Hseq Hk). destruct (N.ltb_spec (c_sequence winner) (c_sequence (h_record h))); [lia|].
    cbn [orb]. destruct (_ && _) eqn:Hc.
    { right. split; [done|]. exists (h_record h). bool_inv. by repeat split. }
    change (mkMerge (map ok_source runs) rest false) with (of_runs rest runs). rewrite Ha.
    cbn [mbind Io_bind].
    assert (Hnc : ~ contradicts winner (h_record h)).
    { intros (_ & E & Hne). rewrite E, N.eqb_refl in Hc. cbn in Hc. bool_inv. done. }
    destruct (IH heap1 runs1 Hw1) as [(heap2 & runs2 & dups & Hd & Hw2 & Hp2 & Hdup & Hgt)|(Hd & r & Hr & Hcr)].
    + rewrite Hp in Hlen. cbn in Hlen. lia.
    + intros r Hr. apply Hle. rewrite Hp. by right.
    + left. exists heap2, runs2, (h_record h :: dups). split; [done|]. split; [done|].
      split; [by rewrite Hp, Hp2|]. split; [|done].
      intros r [->|Hr]%elem_of_cons; [done|]. by apply Hdup.
    + right. split; [done|]. exists r. split; [|done]. rewrite Hp. by right.
  - left. exists heap, runs, []. split; [done|]. split; [done|]. split; [done|].
    split; [by intros r Hr; apply not_elem_of_nil in Hr|].
    intros r Hr. destruct (top_head heap runs h rest r Hw Hpop Hr) as [Hkr _].
    destruct (Hle _ Hin) as [Hwk _]. apply key_le_lt in Hwk as [Hlt|E]; [|congruence].
    by eapply key_lt_le_trans.
Qed.

(** One row: the newest version of the smallest key, or a contradiction. *)
Lemma take_spec heap runs :
  walk heap runs ->
  (upcoming heap runs = [] /\ merge_take (of_runs heap runs) = IoOk (None, of_runs heap runs))
  \/ (exists w dups heap' runs',
        merge_take (of_runs heap runs) = IoOk (Some w, of_runs heap' runs')
        /\ walk heap' runs' /\ upcoming heap runs ≡ₚ w :: dups ++ upcoming heap' runs'
        /\ (forall r, r ∈ dups -> c_key r = c_key w /\ c_sequence r <= c_sequence w
              /\ ~ contradicts w r)
        /\ (forall r, r ∈ upcoming heap' runs' -> key_lt (c_key w) (c_key r)))
  \/ (merge_take (of_runs heap runs) = conflict /\ ~ consistent (upcoming heap runs)).
Proof.
  intros Hw. unfold merge_take. cbn [of_runs mg_heap mg_sources mg_failed].
  destruct (heap_pop heap) as [[h rest]|] eqn:Hpop.
  2: { left. apply heap_pop_None in Hpop as ->. by rewrite (empty_heap _ Hw). }
  destruct (take_head heap runs h rest Hw Hpop) as (heap1 & runs1 & Ha & Hp & Hw1).
  change (mkMerge (map ok_source runs) rest false) with (of_runs rest runs). rewrite Ha.
  cbn [mbind Io_bind]. rewrite upcoming_size.
  assert (Htop : forall r, r ∈ upcoming heap1 runs1 -> key_le (c_key (h_record h)) (c_key r)
     /\ (c_key r = c_key (h_record h) -> c_sequence r <= c_sequence (h_record h))).
  { intros r Hr. eapply top_head; [exact Hw|exact Hpop|]. rewrite Hp. by right. }
  destruct (drain_spec (S (length (upcoming heap1 runs1))) (h_record h) heap1 runs1 Hw1)
    as [(heap2 & runs2 & dups & Hd & Hw2 & Hp2 & Hdup & Hgt)|(Hd & r & Hr & Hkr & Hsr & Hvr)];
    [lia|done| |]; rewrite Hd; cbn [mbind Io_bind].
  - right; left. exists (h_record h), dups, heap2, runs2. split; [done|]. split; [done|].
    split; [by rewrite Hp, Hp2|]. split; [|done]. intros r Hr. destruct (Hdup r Hr) as [Hk Hnc].
    split; [done|]. split; [|done]. apply Htop; [|done]. rewrite Hp2. apply elem_of_app. by left.
  - right; right. split; [done|]. intros Hcons. apply Hvr. apply Hcons; [..|done].
    + split; [rewrite Hp; by right|]. intros r' Hr' Hk'. rewrite Hsr.
      eapply top_head; [exact Hw|exact Hpop|exact Hr'|congruence].
    + split; [rewrite Hp; left|]. intros r' Hr' Hk'.
      eapply top_head; [exact Hw|exact Hpop|exact Hr'|done].
Qed.

(** Splitting off the versions of the smallest key. *)
Lemma newest_rest (l : list Cell) w dups rest r :
  l ≡ₚ w :: dups ++ rest -> (forall r, r ∈ dups -> c_key r = c_key w) ->
  (forall r, r ∈ rest -> key_lt (c_key w) (c_key r)) -> r ∈ rest -> newest l r <-> newest rest r.
Proof.
  intros Hp Hd Hlt Hr. split; intros [H1 H2].
  - split; [done|]. intros r' Hr'. apply H2. rewrite Hp. right. apply elem_of_app. by right.
  - split; [rewrite Hp; right; apply elem_of_app; by right|]. intros r' Hr' Hk.
    rewrite Hp in Hr'. apply elem_of_cons in Hr' as [->|[Hr'|Hr']%elem_of_app].
    + exfalso. pose proof (Hlt r Hr) as Hl. rewrite <- Hk in Hl. by apply key_lt_irrefl in Hl.
    + exfalso. pose proof (Hlt r Hr) as Hl. rewrite <- Hk, (Hd r' Hr') in Hl.
      by apply key_lt_irrefl in Hl.
    + by apply H2.
Qed.

(** What a collection of rows is, whatever happens. *)
Definition collected (l : list Cell) (result : Io (list Cell)) : Prop :=
  match result with
  | IoOk rows => merged l rows /\ consistent l
  | e => e = conflict /\ ~ consistent l
  end.

Lemma collect_spec fuel heap runs :
  walk heap runs -> (length (upcoming heap runs) < fuel)%nat ->
  collected (upcoming heap runs) (merge_collect fuel (of_runs heap runs)).
Proof.
  revert heap runs. induction fuel as [|fuel IH]; intros heap runs Hw Hlen; [lia|].
  cbn [merge_collect]. unfold merge_next. cbn [of_runs mg_failed].
  change (mkMerge (map ok_source runs) heap false) with (of_runs heap runs).
  destruct (take_spec heap runs Hw) as
    [[He ->]|[(w & dups & heap1 & runs1 & -> & Hw1 & Hp & Hdup & Hgt)|[-> Hnc]]]; cbn [fmap option_fmap option_map].
  - cbn. rewrite He. split.
    + split; [constructor|intros r Hr|intros r Hr]; by apply not_elem_of_nil in Hr.
    + intros r r' [Hr _]. by apply not_elem_of_nil in Hr.
  - pose proof (IH heap1 runs1 Hw1) as IH'.
    assert (Hl : (length (upcoming heap1 runs1) < fuel)%nat).
    { rewrite Hp in Hlen. cbn in Hlen. rewrite length_app in Hlen. lia. }
    specialize (IH' Hl).
    assert (Hsplit : forall r, r ∈ upcoming heap1 runs1 ->
              newest (upcoming heap runs) r <-> newest (upcoming heap1 runs1) r).
    { intros r. eapply newest_rest; [exact Hp|by intros x Hx; apply Hdup|done]. }
    destruct (merge_collect fuel (of_runs heap1 runs1)) as [rows|k e]; cbn [mbind Io_bind].
    + destruct IH' as [[Hs Hn Hc] Hcons]. split.
      * split.
        -- constructor; [done|]. apply List.Forall_forall. intros r Hr.
           rewrite <- list_elem_of_In in Hr. apply Hgt. by apply Hn.
        -- intros r [->|Hr]%elem_of_cons.
           ++ split; [rewrite Hp; left|]. intros r' Hr' Hk. rewrite Hp in Hr'.
              apply elem_of_cons in Hr' as [->|[Hr'|Hr']%elem_of_app]; [done|by apply Hdup|].
              apply Hgt in Hr'. rewrite Hk in Hr'. by apply key_lt_irrefl in Hr'.
           ++ apply Hsplit; [by apply Hn|by apply Hn].
        -- intros r Hr. rewrite Hp in Hr. apply elem_of_cons in Hr as [->|[Hr|Hr]%elem_of_app].
           ++ exists w. split; [left|done].
           ++ exists w. split; [left|]. symmetry. by apply Hdup.
           ++ destruct (Hc r Hr) as (r' & Hr' & Hk). exists r'. split; [by right|done].
      * intros r r' Hr Hr' Hk.
        assert (Hcase : forall x, newest (upcoming heap runs) x ->
          (c_key x = c_key w /\ c_value x = c_value w) \/ x ∈ upcoming heap1 runs1).
        { intros x [Hx Hmax]. rewrite Hp in Hx.
          apply elem_of_cons in Hx as [->|[Hx|Hx]%elem_of_app]; [by left| |by right]. left.
          destruct (Hdup x Hx) as (Hkx & Hsx & Hnx). split; [done|].
          destruct (decide (c_value x = c_value w)) as [|Hne]; [done|]. exfalso. apply Hnx.
          split; [done|]. split; [|done]. pose proof (Hmax w ltac:(rewrite Hp; left) ltac:(done)). lia. }
        destruct (Hcase r Hr) as [[K1 V1]|H1], (Hcase r' Hr') as [[K2 V2]|H2].
        -- congruence.
        -- apply Hgt in H2. rewrite <- Hk, K1 in H2. by apply key_lt_irrefl in H2.
        -- apply Hgt in H1. rewrite Hk, K2 in H1. by apply key_lt_irrefl in H1.
        -- apply Hcons; [by apply Hsplit|by apply Hsplit|done].
    + destruct IH' as [He Hnc]. split; [done|]. intros Hcons. apply Hnc.
      intros r r' Hr Hr'. apply Hcons; apply Hsplit; (apply Hr || apply Hr' || done).
  - done.
Qed.

(** ** Starting *)

Lemma advance_all_runs (runs : list (list Cell)) k todo heap rs :
  (forall i run, rs !! i = Some run -> StronglySorted cell_lt run) ->
  (forall h run r, h ∈ heap -> rs !! h_source h = Some run -> r ∈ run -> cell_lt (h_record h) r) ->
  (forall i run, rs !! i = Some run -> run <> [] -> (i < k)%nat ->
     exists h, h ∈ heap /\ h_source h = i) ->
  length rs = (k + todo)%nat ->
  exists heap' runs', advance_all (of_runs heap rs) (seq k todo) = IoOk (of_runs heap' runs')
    /\ upcoming heap' runs' ≡ₚ upcoming heap rs /\ walk heap' runs'.
Proof.
  revert k heap rs. induction todo as [|todo IH]; intros k heap rs H1 H2 H3 Hlen; cbn [seq advance_all].
  - exists heap, rs. split; [done|]. split; [done|]. split; [done|done|].
    intros i run Hi Hne. apply (H3 i run); [done|done|]. apply lookup_lt_Some in Hi. lia.
  - destruct (advance_runs heap rs k) as (heap1 & rs1 & Ha & Hp & Hc). rewrite Ha. cbn [mbind Io_bind].
    assert (Hgo : (forall i run, rs1 !! i = Some run -> StronglySorted cell_lt run)
      /\ (forall h run r, h ∈ heap1 -> rs1 !! h_source h = Some run -> r ∈ run -> cell_lt (h_record h) r)
      /\ (forall i run, rs1 !! i = Some run -> run <> [] -> (i < S k)%nat ->
            exists h, h ∈ heap1 /\ h_source h = i) /\ length rs1 = (S k + todo)%nat).
    { destruct Hc as [(r & rest & Hk & -> & ->)|(-> & -> & He)].
      - pose proof (H1 _ _ Hk) as Hs. apply StronglySorted_inv in Hs as [Hs Hall].
        rewrite List.Forall_forall in Hall.
        assert (Hlt : (k < length rs)%nat) by by eapply lookup_lt_Some.
        split; [|split; [|split]].
        + intros j run. destruct (decide (k = j)) as [<-|Hne].
          * rewrite list_lookup_insert_eq by done. by intros [= <-].
          * rewrite list_lookup_insert_ne by done. apply H1.
        + intros h run x Hh Hrun Hx. destruct (decide (k = h_source h)) as [E|Hne].
          * rewrite <- E, list_lookup_insert_eq in Hrun by done. injection Hrun as <-.
            apply elem_of_cons in Hh as [->|Hh]; [apply Hall; by apply list_elem_of_In|].
            eapply H2; [exact Hh|rewrite <- E; exact Hk|by right].
          * rewrite list_lookup_insert_ne in Hrun by done.
            apply elem_of_cons in Hh as [->|Hh]; [done|]. by eapply H2.
        + intros j run Hj Hne Hlj. destruct (decide (k = j)) as [<-|Hkj].
          * exists (mkHead k r). split; [left|done].
          * rewrite list_lookup_insert_ne in Hj by done.
            destruct (H3 j run Hj Hne) as (h & Hh & Hs'); [lia|]. exists h. split; [by right|done].
        + rewrite length_insert. lia.
      - split; [done|]. split; [done|]. split; [|lia]. intros j run Hj Hne Hlj.
        destruct (decide (j = k)) as [->|]; [by exfalso; apply Hne, He|]. apply (H3 j run); [done|done|lia]. }
    destruct Hgo as (G1 & G2 & G3 & G4).
    destruct (IH (S k) heap1 rs1 G1 G2 G3 G4) as (heap2 & rs2 & Hall & Hp2 & Hw2).
    exists heap2, rs2. split; [done|]. split; [by rewrite Hp2|done].
Qed.

Lemma consistent_perm l l' : l ≡ₚ l' -> consistent l -> consistent l'.
Proof.
  intros Hp H r r' [H1 H2] [H3 H4]. apply H; split; setoid_rewrite Hp; done.
Qed.
Lemma collected_perm l l' res : l ≡ₚ l' -> collected l res -> collected l' res.
Proof.
  intros Hp. destruct res as [rows|k e]; cbn.
  - intros [[Hs Hn Hc] Hcons]. split; [|by eapply consistent_perm]. split; [done| |].
    + intros r Hr. destruct (Hn r Hr) as [H1 H2]. by split; setoid_rewrite <- Hp.
    + intros r Hr. apply Hc. by rewrite Hp.
  - intros [He Hnc]. split; [done|]. intros H. apply Hnc. by eapply consistent_perm.
Qed.

Lemma merge_rows_spec runs :
  (forall run, run ∈ runs -> StronglySorted cell_lt run) ->
  collected (concat runs) (merge_rows (map ok_source runs)).
Proof.
  intros Hs. unfold merge_rows, merge_new. rewrite length_map.
  destruct (advance_all_runs runs 0 (length runs) [] runs) as (heap & rs & Ha & Hp & Hw).
  - intros i run Hi. apply Hs. by eapply list_elem_of_lookup_2.
  - intros h run r Hh. by apply not_elem_of_nil in Hh.
  - lia.
  - done.
  - change (mkMerge (map ok_source runs) [] false) with (of_runs [] runs). rewrite Ha.
    cbn [mbind Io_bind]. rewrite upcoming_size. eapply collected_perm; [exact Hp|].
    apply collect_spec; [done|lia].
Qed.

(** The merge of sorted runs terminates with the right rows or the right
    error: when no two newest versions of a key disagree it yields exactly the
    newest version of every key, in strictly increasing key order, and
    otherwise it fails with the corruption error. *)
Theorem merge_correct runs :
  (forall run, run ∈ runs -> StronglySorted cell_lt run) ->
  (consistent (concat runs) ->
     exists rows, merge_rows (map ok_source runs) = IoOk rows /\ merged (concat runs) rows)
  /\ (~ consistent (concat runs) -> merge_rows (map ok_source runs) = conflict).
Proof.
  intros Hs. pose proof (merge_rows_spec runs Hs) as H.
  destruct (merge_rows (map ok_source runs)) as [rows|k e]; cbn in H; destruct H as [H1 H2].
  - split; [by exists rows|done].
  - split; [done|]. by intros _.
Qed.
