(* ===== verification/Table.v ===== *)
(** * [state-store/src/table.rs]: immutable sorted tables

    A table file is its bytes.  [digest] is SHA-256 and [footer_json],
    [footer_parse] are serde's encoder and decoder of the index. *)
From S2P Require Import Prelude Store Bloom Codec Merge.
Local Open Scope N_scope.
Local Open Scope raft_scope.

(** [b"..."] *)
Definition ascii_bytes (s : string) : Bytes := Ascii.N_of_ascii <$> String.list_ascii_of_string s.

Definition HEADER : Bytes := ascii_bytes "MRSTBL01".
Definition BLOCK : Bytes := ascii_bytes "MRSBLK01".
Definition FOOTER : Bytes := ascii_bytes "MRSIDX01".
Definition END_MARK : Bytes := ascii_bytes "MRSEND01".
Definition BLOCK_TARGET : N := 16 * 1024.
Definition MAX_TABLE_BYTES : N := 64 * 1024 * 1024.
Definition MAX_FOOTER_BYTES : N := 4 * 1024 * 1024.

Record TableMeta := mkTableMeta {
  t_id : N;
  t_level : N;
  t_bytes : N;
  t_first : Bytes;
  t_last : Bytes;
  t_min_sequence : N;
  t_max_sequence : N;
  t_records : N;
}.
#[export] Instance TableMeta_eq_dec : EqDecision TableMeta.
Proof. solve_decision. Defined.

(** [TableMeta::contains] and [TableMeta::overlaps] *)
Definition meta_contains (t : TableMeta) (key : Bytes) : bool :=
  key_leb (t_first t) key && key_leb key (t_last t).
Definition meta_overlaps (t : TableMeta) (first last : Bytes) : bool :=
  key_leb (t_first t) last && key_leb first (t_last t).

Record BlockMeta := mkBlockMeta {
  k_offset : N;
  k_bytes : N;
  k_first : Bytes;
  k_last : Bytes;
  k_records : N;
}.

Record Footer := mkFooter {
  f_version : N;
  f_blocks : list BlockMeta;
  f_bloom : Bloom;
  f_records : N;
}.

Record Table := mkTable { tb_file : Bytes; tb_meta : TableMeta; tb_footer : Footer }.

Record Lookup := mkLookup { l_record : option Cell; l_bloom_positive : bool; l_block_bytes : N }.

(** [windows(2).any(|pair| pair[0].key >= pair[1].key)] is the failure of
    this check. *)
Fixpoint keys_increasing (rs : list Cell) : bool :=
  match rs with
  | a :: ((b :: _) as t) => key_ltb (c_key a) (c_key b) && keys_increasing t
  | _ => true
  end.

(** The filter's answer.  [Table::open] validates the filter first, and a
    validated filter answers every query, so the panic is left out. *)
Definition bloom_has (f : Bloom) (key : Bytes) : bool := default false (bloom_contains f key).

(** [binary_search_by] of the standard library. *)
Fixpoint bisect (fuel : nat) (rs : list Cell) (key : Bytes) (base size : nat) : nat :=
  match fuel with
  | O => base
  | S fuel =>
      if (size <=? 1)%nat then base else
      let half := (size / 2)%nat in
      let mid := (base + half)%nat in
      let greater := is_some_and (rs !! mid) (fun r =>
        match key_cmp (c_key r) key with Gt => true | _ => false end) in
      bisect fuel rs key (if greater then base else mid) (size - half)%nat
  end.
Definition binary_search (rs : list Cell) (key : Bytes) : option nat :=
  if (length rs =? 0)%nat then None else
  let base := bisect (length rs) rs key 0 (length rs) in
  if is_some_and (rs !! base) (fun r => eqb (c_key r) key) then Some base else None.

Section tables.
Context (digest : Bytes -> Bytes).
Context (footer_json : Footer -> Bytes) (footer_parse : Bytes -> option Footer).

(** ** Writing *)

(** The inner loop of [write_table]: at least one record, then more while the
    payload is below the target. *)
Fixpoint fill_block (first : bool) (payload : Bytes) (rs : list Cell) : Bytes * list Cell * list Cell :=
  match rs with
  | [] => (payload, [], [])
  | r :: rest =>
      if first || (len64 payload <? BLOCK_TARGET) then
        let '(payload, taken, rest) := fill_block false (payload ++ encode_record r) rest in
        (payload, r :: taken, rest)
      else (payload, [], rs)
  end.

(** The outer loop: the index, and the file as far as it was written. *)
Fixpoint write_blocks (fuel : nat) (file : Bytes) (rs : list Cell) : Io (list BlockMeta) * Bytes :=
  match fuel with
  | O => (IoErr OtherError "out of fuel", file)
  | S fuel =>
      match rs with
      | [] => (mret [], file)
      | r :: _ =>
          let '(payload, taken, rest) := fill_block true (replicate 4 0) rs in
          let payload := to_le 4 (as_u32 (len64 taken)) ++ drop 4 payload in
          match frame digest BLOCK payload with
          | IoErr k e => (IoErr k e, file)
          | IoOk encoded =>
              let block := mkBlockMeta (len64 file) (len64 encoded) (c_key r)
                             (map_or (list.last taken) [] c_key) (len64 taken) in
              let '(blocks, file) := write_blocks fuel (file ++ encoded) rest in
              (blocks ← blocks; mret (block :: blocks), file)
          end
      end
  end.

(** [iter().min()] and [iter().max()] of a non-empty list of sequences. *)
Definition seq_min (rs : list Cell) : N := fold_left (fun m r => N.min m (c_sequence r)) rs u64_max.
Definition seq_max (rs : list Cell) : N := fold_left (fun m r => N.max m (c_sequence r)) rs 0.

(** The result, and the file it leaves behind: none when the records are
    refused, what was written so far when a later step fails. *)
Definition write_table (id level : N) (records : list Cell) : Io TableMeta * option Bytes :=
  if (len64 records =? 0) || (MAX_BATCH_RECORDS <? len64 records)
     || negb (keys_increasing records) || existsb (fun r => c_sequence r =? 0) records
  then (invalid "table records must be nonempty, ordered and versioned", None) else
  let '(written, file) := write_blocks (S (length records)) HEADER records in
  match written with
  | IoErr k e => (IoErr k e, Some file)
  | IoOk blocks =>
      let footer := mkFooter 1 blocks (bloom_build (c_key <$> records)) (len64 records) in
      match frame digest FOOTER (footer_json footer) with
      | IoErr k e => (IoErr k e, Some file)
      | IoOk bytes =>
          if MAX_FOOTER_BYTES <? len64 bytes then (invalid "table index exceeds limit", Some file) else
          let file := file ++ bytes ++ to_le 8 (len64 bytes) ++ END_MARK in
          if MAX_TABLE_BYTES <? len64 file then (invalid "table byte limit exceeded", Some file) else
          (mret (mkTableMeta id level (len64 file) (map_or (head records) [] c_key)
                   (map_or (list.last records) [] c_key) (seq_min records) (seq_max records)
                   (len64 records)), Some file)
      end
  end.

(** ** Reading *)

Definition read_block (file : Bytes) (block : BlockMeta) : Io (list Cell) :=
  read ← read_frame digest (drop (N.to_nat (k_offset block)) file) BLOCK;
  match read with
  | None => invalid "incomplete data block"
  | Some (payload, consumed, _) =>
      if negb (consumed =? k_bytes block) || (len64 payload <? 4)
      then invalid "data block size mismatch" else
      let count := from_le (take 4 payload) in
      records ← decode_records (drop 4 payload) count;
      if negb (count =? k_records block) || (len64 records =? 0) || negb (keys_increasing records)
         || negb (eqb (c_key <$> head records) (Some (k_first block)))
         || negb (eqb (c_key <$> list.last records) (Some (k_last block)))
      then invalid "data block order/index mismatch" else
      mret records
  end.

(** The items of a [TableIterator]: it stops after the first error. *)
Fixpoint iter_blocks (file : Bytes) (blocks : list BlockMeta) : Source :=
  match blocks with
  | [] => []
  | block :: rest =>
      match read_block file block with
      | IoOk records => map IoOk records ++ iter_blocks file rest
      | IoErr k e => [IoErr k e]
      end
  end.
Definition table_iter (t : Table) : Source := iter_blocks (tb_file t) (f_blocks (tb_footer t)).

(** The loop of [Table::open] over the index: next offset and record count. *)
Fixpoint check_blocks (footer_at records next count : N) (previous : option Bytes)
    (blocks : list BlockMeta) : Io (N * N) :=
  match blocks with
  | [] => mret (next, count)
  | block :: rest =>
      if negb (k_offset block =? next) || (k_bytes block <? 48) || (MAX_TABLE_BYTES <? k_bytes block)
         || key_ltb (k_last block) (k_first block) || (k_records block =? 0)
         || (MAX_BATCH_RECORDS <? k_records block)
         || is_some_and previous (fun last => key_leb (k_first block) last)
      then invalid "invalid block index/order" else
      match checked_add next (k_bytes block), checked_add count (k_records block) with
      | None, _ => invalid "block offset overflow"
      | _, None => invalid "block record count overflow"
      | Some next, Some count =>
          if (footer_at <? next) || (records <? count) then invalid "block index exceeds table" else
          check_blocks footer_at records next count (Some (k_last block)) rest
      end
  end.

(** The loop of [Table::open] over the records: the range of sequences. *)
Fixpoint check_rows (bloom : Bloom) (low high : N) (rows : Source) : Io (N * N) :=
  match rows with
  | [] => mret (low, high)
  | IoErr k e :: _ => IoErr k e
  | IoOk r :: rest =>
      if negb (bloom_has bloom (c_key r)) then invalid "Bloom false negative in stored table" else
      check_rows bloom (N.min low (c_sequence r)) (N.max high (c_sequence r)) rest
  end.

Definition table_open (file : Bytes) (meta : TableMeta) : Io Table :=
  let length := len64 file in
  if negb (length =? t_bytes meta) || (length <? 68) || (MAX_TABLE_BYTES <? length)
     || (2 <? t_level meta) || (t_id meta =? 0) || (len64 (t_first meta) =? 0)
     || key_ltb (t_last meta) (t_first meta) || (t_min_sequence meta =? 0)
     || (t_max_sequence meta <? t_min_sequence meta)
     || (t_records meta =? 0) || (MAX_BATCH_RECORDS <? t_records meta)
  then invalid "table metadata invalid" else
  if negb (eqb (take 8 file) HEADER) then invalid "table header/version mismatch" else
  let trailer := drop (N.to_nat (length - 16)) file in
  if negb (eqb (drop 8 trailer) END_MARK) then invalid "table footer marker missing" else
  let footer_len := from_le (take 8 trailer) in
  if (MAX_FOOTER_BYTES <? footer_len) || (length <? footer_len + 24)
  then invalid "footer length invalid" else
  let footer_at := length - 16 - footer_len in
  read ← read_frame digest (drop (N.to_nat footer_at) file) FOOTER;
  match read with
  | None => invalid "incomplete table index"
  | Some (payload, consumed, _) =>
      if negb (consumed =? footer_len) then invalid "table index length mismatch" else
      match footer_parse payload with
      | None => invalid "json"
      | Some footer =>
          if negb (f_version footer =? 1) || negb (f_records footer =? t_records meta)
             || (len64 (f_blocks footer) =? 0) || (t_records meta <? len64 (f_blocks footer))
          then invalid "invalid table index" else
          bloom_validate (f_bloom footer) (t_records meta);;
          '(next, count) ← check_blocks footer_at (t_records meta) 8 0 None (f_blocks footer);
          if negb (next =? footer_at) || negb (count =? t_records meta)
             || negb (eqb (k_first <$> head (f_blocks footer)) (Some (t_first meta)))
             || negb (eqb (k_last <$> list.last (f_blocks footer)) (Some (t_last meta)))
          then invalid "table index bounds mismatch" else
          let table := mkTable file meta footer in
          '(low, high) ← check_rows (f_bloom footer) u64_max 0 (table_iter table);
          if negb (low =? t_min_sequence meta) || negb (high =? t_max_sequence meta)
          then invalid "table sequence range mismatch" else
          mret table
      end
  end.

Definition table_lookup (t : Table) (key : Bytes) : Io Lookup :=
  if negb (bloom_has (f_bloom (tb_footer t)) key) then mret (mkLookup None false 0) else
  let number := partition_point (fun block => key_ltb (k_last block) key) (f_blocks (tb_footer t)) in
  match option_filter (fun block => key_leb (k_first block) key) (f_blocks (tb_footer t) !! number) with
  | None => mret (mkLookup None true 0)
  | Some block =>
      records ← read_block (tb_file t) block;
      mret (mkLookup (i ← binary_search records key; records !! i) true (k_bytes block))
  end.
End tables.
