(* ===== verification/TableFacts.v ===== *)
(** * What is written to a table is what is read from it *)
From S2P Require Import Prelude Store Bloom Codec Merge Table.
Local Open Scope N_scope.
Local Open Scope raft_scope.

(** The reference lookup. *)
Definition find_key (key : Bytes) (rs : list Cell) : option Cell :=
  List.find (fun r => eqb (c_key r) key) rs.

(** ** Sorted rows *)

Lemma keys_increasing_sorted rs : keys_increasing rs = true <-> StronglySorted cell_lt rs.
Proof.
  split.
  - intros H. apply Sorted_StronglySorted; [apply _|].
    induction rs as [|a [|b rs] IH]; [constructor|by repeat constructor|].
    cbn in H. apply andb_true_iff in H as [H1 H2]. constructor; [by apply IH|].
    constructor. by apply key_ltb_lt.
  - intros H. apply StronglySorted_Sorted in H.
    induction H as [|a rs Hs IH Hd]; [done|]. destruct Hd as [|b rs Hab]; [done|].
    cbn. rewrite (proj2 (key_ltb_lt _ _) Hab). exact IH.
Qed.

Lemma sorted_lookup rs i j a b :
  StronglySorted cell_lt rs -> (i < j)%nat -> rs !! i = Some a -> rs !! j = Some b -> cell_lt a b.
Proof.
  intros H. revert i j. induction H as [|x rs Hs IH Hall]; intros i j Hij Ha Hb; [done|].
  rewrite List.Forall_forall in Hall. destruct j as [|j]; [lia|]. destruct i as [|i]; cbn in *.
  - injection Ha as <-. apply Hall. rewrite <- list_elem_of_In. by eapply list_elem_of_lookup_2.
  - eapply (IH i j); [lia|done|done].
Qed.

Lemma sorted_app_lt l1 l2 a b :
  StronglySorted cell_lt (l1 ++ l2) -> a ∈ l1 -> b ∈ l2 -> cell_lt a b.
Proof.
  intros H [i Ha]%list_elem_of_lookup_1 [j Hb]%list_elem_of_lookup_1.
  apply (sorted_lookup (l1 ++ l2) i (length l1 + j) a b); [done| | |].
  - apply lookup_lt_Some in Ha. lia.
  - by apply lookup_app_l_Some.
  - by rewrite lookup_app_r, Nat.add_comm, Nat.add_sub by lia.
Qed.
Lemma sorted_app_inv l1 l2 :
  StronglySorted cell_lt (l1 ++ l2) -> StronglySorted cell_lt l1 /\ StronglySorted cell_lt l2.
Proof.
  induction l1 as [|x l1 IH]; cbn; [intros H; split; [constructor|done]|].
  intros [Hs Hall]%StronglySorted_inv. destruct (IH Hs) as [H1 H2]. split; [|done].
  constructor; [done|]. by apply Forall_app in Hall as [? _].
Qed.

Lemma find_key_spec key rs r :
  StronglySorted cell_lt rs -> find_key key rs = Some r <-> r ∈ rs /\ c_key r = key.
Proof.
  intros Hs. unfold find_key. split.
  - intros H. apply List.find_some in H as [Hin He]. apply eqb_true_1 in He.
    split; [by apply list_elem_of_In|done].
  - intros [Hin Hk]. destruct (List.find _ rs) as [x|] eqn:Hf.
    + apply List.find_some in Hf as [Hx Hxk]. apply eqb_true_1 in Hxk.
      rewrite <- list_elem_of_In in Hx.
      apply list_elem_of_lookup_1 in Hin as [i Hi], Hx as [j Hj].
      destruct (Nat.lt_trichotomy i j) as [Hij|[<-|Hij]]; [|congruence|].
      * pose proof (sorted_lookup _ _ _ _ _ Hs Hij Hi Hj) as Hl. unfold cell_lt in Hl.
        rewrite Hk, Hxk in Hl. by apply key_lt_irrefl in Hl.
      * pose proof (sorted_lookup _ _ _ _ _ Hs Hij Hj Hi) as Hl. unfold cell_lt in Hl.
        rewrite Hk, Hxk in Hl. by apply key_lt_irrefl in Hl.
    + pose proof (List.find_none _ _ Hf r) as Hn. cbn in Hn.
      rewrite list_elem_of_In in Hin. specialize (Hn Hin). by rewrite Hk, eqb_refl in Hn.
Qed.
Lemma find_key_none key rs : find_key key rs = None <-> forall r, r ∈ rs -> c_key r <> key.
Proof.
  unfold find_key. split.
  - intros H r Hr E. rewrite list_elem_of_In in Hr.
    pose proof (List.find_none _ _ H r Hr) as Hn. cbn in Hn. by rewrite E, eqb_refl in Hn.
  - intros H. destruct (List.find _ rs) as [x|] eqn:Hf; [|done].
    apply List.find_some in Hf as [Hx Hxk]. apply eqb_true_1 in Hxk.
    rewrite <- list_elem_of_In in Hx. by apply H in Hx.
Qed.

(** ** Binary search *)

Lemma bisect_spec fuel rs key base size i r :
  StronglySorted cell_lt rs -> (1 <= size)%nat -> (size <= S fuel)%nat ->
  (base + size <= length rs)%nat -> rs !! i = Some r -> c_key r = key ->
  (base <= i < base + size)%nat -> bisect fuel rs key base size = i.
Proof.
  intros Hs. revert base size. induction fuel as [|fuel IH]; intros base size H1 H2 H3 Hi Hk Hr; cbn [bisect].
  { lia. }
  destruct (Nat.leb_spec size 1); [lia|]. cbv zeta.
  assert (Hh : (1 <= size / 2)%nat /\ (size / 2 + size / 2 <= size)%nat).
  { pose proof (Nat.div_mod_eq size 2). pose proof (Nat.mod_upper_bound size 2). lia. }
  set (half := (size / 2)%nat) in *. set (mid := (base + half)%nat).
  destruct (lookup_lt_is_Some_2 rs mid) as [x Hx]; [unfold mid; lia|]. rewrite Hx. cbn [is_some_and].
  destruct (key_cmp (c_key x) key) eqn:Hc.
  - apply IH; try done; unfold mid; try lia.
    apply key_cmp_Eq in Hc. assert (i = mid) as ->; [|unfold mid; lia].
    destruct (Nat.lt_trichotomy i mid) as [Hij|[E|Hij]]; [|done|]; exfalso.
    + pose proof (sorted_lookup _ _ _ _ _ Hs Hij Hi Hx) as Hl. unfold cell_lt in Hl.
      rewrite Hk, Hc in Hl. by apply key_lt_irrefl in Hl.
    + pose proof (sorted_lookup _ _ _ _ _ Hs Hij Hx Hi) as Hl. unfold cell_lt in Hl.
      rewrite Hk, Hc in Hl. by apply key_lt_irrefl in Hl.
  - apply IH; try done; unfold mid; try lia. assert (mid <= i)%nat; [|unfold mid in *; lia].
    destruct (Nat.le_gt_cases mid i) as [|Hij]; [done|]. exfalso.
    pose proof (sorted_lookup _ _ _ _ _ Hs Hij Hi Hx) as Hl. unfold cell_lt, key_lt in Hl.
    rewrite Hk, key_cmp_antisym, Hc in Hl. done.
  - apply IH; try done; try lia. assert (i < mid)%nat; [|unfold mid in *; lia].
    destruct (Nat.le_gt_cases mid i) as [Hij|]; [|done]. exfalso.
    apply Nat.le_lteq in Hij as [Hij| <-].
    + pose proof (sorted_lookup _ _ _ _ _ Hs Hij Hx Hi) as Hl. unfold cell_lt, key_lt in Hl.
      by rewrite Hk, Hc in Hl.
    + assert (x = r) as -> by congruence. by rewrite Hk, key_cmp_refl in Hc.
Qed.

(** The binary search finds what a scan finds. *)
Lemma binary_search_find rs key :
  StronglySorted cell_lt rs -> (i ← binary_search rs key; rs !! i) = find_key key rs.
Proof.
  intros Hs. destruct (find_key key rs) as [r|] eqn:Hf.
  - apply find_key_spec in Hf as [Hin Hk]; [|done]. apply list_elem_of_lookup_1 in Hin as [i Hi].
    unfold binary_search. destruct (Nat.eqb_spec (length rs) 0) as [E|Hne].
    { apply nil_length_inv in E as ->. done. }
    rewrite (bisect_spec (length rs) rs key 0 (length rs) i r); try done; try lia.
    + rewrite Hi. cbn. by rewrite Hk, eqb_refl.
    + apply lookup_lt_Some in Hi. lia.
  - unfold binary_search. destruct (length rs =? 0)%nat; [done|].
    destruct (rs !! bisect _ _ _ _ _) as [r|] eqn:Hr; cbn; [|done].
    destruct (eqb (c_key r) key) eqn:Hk; [|done]. bool_inv. exfalso.
    eapply find_key_none; [exact Hf| |exact Hk]. by eapply list_elem_of_lookup_2.
Qed.

(** ** The layout of blocks *)

Section layout.
Context (digest : Bytes -> Bytes) (digest_len : forall b, length (digest b) = 32%nat).

Definition block_payload (taken : list Cell) : Bytes :=
  to_le 4 (as_u32 (len64 taken)) ++ concat (encode_record <$> taken).
Definition block_meta (offset : N) (encoded : Bytes) (taken : list Cell) : BlockMeta :=
  mkBlockMeta offset (len64 encoded) (map_or (head taken) [] c_key)
    (map_or (list.last taken) [] c_key) (len64 taken).

(** [layout file rs file' blocks]: appending the rows to [file] gives [file']. *)
Inductive layout : Bytes -> list Cell -> Bytes -> list BlockMeta -> Prop :=
| layout_nil file : layout file [] file []
| layout_cons file taken rest encoded file' blocks :
    taken <> [] -> frame digest BLOCK (block_payload taken) = IoOk encoded ->
    layout (file ++ encoded) rest file' blocks ->
    layout file (taken ++ rest) file' (block_meta (len64 file) encoded taken :: blocks).

Lemma fill_block_spec first payload rs payload' taken rest :
  fill_block first payload rs = (payload', taken, rest) ->
  rs = taken ++ rest /\ payload' = payload ++ concat (encode_record <$> taken)
  /\ (first = true -> rs <> [] -> taken <> []).
Proof.
  revert first payload payload' taken rest. induction rs as [|r rs IH]; intros first payload payload' taken rest; cbn [fill_block].
  { intros [= <- <- <-]. cbn. by rewrite app_nil_r. }
  destruct (first || _) eqn:Hb.
  - destruct (fill_block false (payload ++ encode_record r) rs) as [[p t] rr] eqn:Hf.
    intros [= <- <- <-]. destruct (IH _ _ _ _ _ Hf) as (-> & -> & _). cbn.
    split; [done|]. split; [by rewrite <- app_assoc|done].
  - intros [= <- <- <-]. apply orb_false_iff in Hb as [-> _]. cbn. by rewrite app_nil_r.
Qed.

Lemma write_blocks_layout fuel file rs file' blocks :
  write_blocks digest fuel file rs = (IoOk blocks, file') -> layout file rs file' blocks.
Proof.
  revert file rs file' blocks. induction fuel as [|fuel IH]; intros file rs file' blocks; [done|].
  cbn [write_blocks]. destruct rs as [|r rs]; [intros [= <- <-]; constructor|].
  destruct (fill_block true (replicate 4 0) (r :: rs)) as [[payload taken] rest] eqn:Hf.
  destruct (fill_block_spec _ _ _ _ _ _ Hf) as (Hrs & -> & Hne).
  destruct (frame _ _ _) as [encoded|] eqn:He; [|done].
  destruct (write_blocks digest fuel (file ++ encoded) rest) as [[b2|] f2] eqn:Hw; [|done].
  intros [= <- <-]. rewrite (drop_app_len 4) in He by done.
  assert (Hhd : c_key r = map_or (head taken) [] c_key).
  { destruct taken as [|x taken]; [by destruct Hne|]. injection Hrs as -> _. done. }
  rewrite Hrs, Hhd. apply layout_cons; [by apply Hne|exact He|]. by apply IH.
Qed.

Lemma layout_prefix file rs file' blocks :
  layout file rs file' blocks -> exists tail, file' = file ++ tail.
Proof.
  induction 1 as [file|file taken rest encoded file' blocks Hne He _ [tail ->]].
  - exists []. by rewrite app_nil_r.
  - eexists. by rewrite <- app_assoc.
Qed.

(** Reading a block back. *)
Lemma read_block_layout file taken encoded tail :
  taken <> [] -> frame digest BLOCK (block_payload taken) = IoOk encoded ->
  (forall r, r ∈ taken -> cell_ok r) -> StronglySorted cell_lt taken ->
  len64 taken <= MAX_BATCH_RECORDS ->
  read_block digest (file ++ encoded ++ tail) (block_meta (len64 file) encoded taken) = IoOk taken.
Proof.
  intros Hne He Hok Hs Hlen. unfold read_block. cbn [k_offset block_meta].
  rewrite drop_app_len by (unfold len64; lia).
  rewrite (read_frame_whole digest digest_len BLOCK eq_refl _ _ _ He). cbn [mbind Io_bind].
  cbn [k_bytes block_meta]. rewrite N.eqb_refl. cbn [negb orb].
  unfold block_payload at 1. destruct (N.ltb_spec (len64 (to_le 4 (as_u32 (len64 taken)) ++ concat (encode_record <$> taken))) 4) as [Hlt|_].
  { unfold len64 in Hlt. rewrite length_app, to_le_length in Hlt. lia. }
  unfold block_payload. rewrite take_app_len, drop_app_len by apply to_le_length.
  rewrite as_u32_id, from_to_le4 by (unfold MAX_BATCH_RECORDS, u32_max in *; lia).
  rewrite decode_encode_records by done. cbn [mbind Io_bind k_records k_first k_last block_meta].
  rewrite N.eqb_refl, (proj2 (keys_increasing_sorted taken) Hs). cbn [negb orb].
  destruct taken as [|r taken]; [done|]. cbn [head map_or fmap option_fmap option_map].
  rewrite eqb_refl. cbn [negb orb]. rewrite last_cons. destruct (list.last taken) as [x|]; cbn;
    by rewrite eqb_refl.
Qed.

Section rows.
Context (all_rows : list Cell) (Hlen : len64 all_rows <= MAX_BATCH_RECORDS).

Lemma iter_layout file rs file' blocks tail :
  layout file rs file' blocks -> (forall r, r ∈ rs -> cell_ok r) -> StronglySorted cell_lt rs ->
  (length rs <= length all_rows)%nat ->
  iter_blocks digest (file' ++ tail) blocks = map IoOk rs.
Proof.
  induction 1 as [file|file taken rest encoded file' blocks Hne He Hl IH]; intros Hok Hs Hn; [done|].
  destruct (sorted_app_inv _ _ Hs) as [Hs1 Hs2]. destruct (layout_prefix _ _ _ _ Hl) as [t ->].
  cbn [iter_blocks]. rewrite length_app in Hn. rewrite <- !app_assoc.
  rewrite read_block_layout; [|done|done|..|done|unfold len64 in *; lia].
  - rewrite <- !app_assoc in IH. rewrite IH; [by rewrite map_app| |done|lia].
    intros r Hr. apply Hok. apply elem_of_app. by right.
  - intros r Hr. apply Hok. apply elem_of_app. by left.
Qed.
End rows.

Lemma last_in {A} (l : list A) x : list.last l = Some x -> x ∈ l.
Proof. intros H. apply last_Some in H as [l' ->]. apply elem_of_app. right. left. Qed.
Lemma head_in {A} (l : list A) x : head l = Some x -> x ∈ l.
Proof. destruct l; [done|]. intros [= ->]. left. Qed.
Lemma head_last_le rs a b :
  StronglySorted cell_lt rs -> head rs = Some a -> list.last rs = Some b ->
  key_le (c_key a) (c_key b).
Proof.
  intros Hs Ha Hb. destruct rs as [|x rs]; [done|]. injection Ha as ->. apply last_in in Hb.
  apply elem_of_cons in Hb as [->|Hb]; [done|].
  apply StronglySorted_inv in Hs as [_ Hall]. rewrite List.Forall_forall in Hall.
  apply key_lt_le, Hall. by apply list_elem_of_In.
Qed.

Lemma frame_block_len taken encoded :
  frame digest BLOCK (block_payload taken) = IoOk encoded -> 80 <= len64 encoded.
Proof.
  intros H. rewrite (frame_len digest digest_len BLOCK eq_refl _ _ H).
  unfold block_payload, len64. rewrite length_app, to_le_length. lia.
Qed.

(** The index of a written file passes every check. *)
Lemma check_layout file rs file' blocks count records previous :
  layout file rs file' blocks -> StronglySorted cell_lt rs ->
  len64 file' <= MAX_TABLE_BYTES -> records = count + len64 rs -> records <= MAX_BATCH_RECORDS ->
  (forall last r, previous = Some last -> r ∈ rs -> key_lt last (c_key r)) ->
  check_blocks (len64 file') records (len64 file) count previous blocks
  = IoOk (len64 file', records).
Proof.
  intros Hl. revert count previous.
  induction Hl as [file|file taken rest encoded file' blocks Hne He Hl IH];
    intros count previous Hs Hf Hrec Hmax Hprev; cbn [check_blocks].
  { cbn in Hrec. by rewrite Hrec, N.add_0_r. }
  destruct (sorted_app_inv _ _ Hs) as [Hs1 Hs2]. destruct (layout_prefix _ _ _ _ Hl) as [t Ht].
  pose proof (frame_block_len _ _ He) as Henc.
  assert (Hlf : len64 (file ++ encoded) = len64 file + len64 encoded).
  { unfold len64. rewrite length_app. lia. }
  assert (Hlf' : len64 file + len64 encoded <= len64 file').
  { rewrite Ht. unfold len64. rewrite !length_app. lia. }
  assert (Hlr : len64 (taken ++ rest) = len64 taken + len64 rest).
  { unfold len64. rewrite length_app. lia. }
  assert (Hpos : 0 < len64 taken) by (unfold len64; destruct taken; [done|cbn; lia]).
  pose proof u64_max_two64 as Hu. unfold two64, MAX_TABLE_BYTES, MAX_BATCH_RECORDS in *.
  destruct (head taken) as [a|] eqn:Ha; [|by destruct taken].
  destruct (list.last taken) as [z|] eqn:Hz; [|by apply last_None in Hz].
  unfold block_meta. cbn [k_offset k_bytes k_first k_last k_records]. rewrite Ha, Hz. cbn [map_or].
  destruct (_ || _) eqn:Hb.
  { exfalso. repeat (apply orb_true_iff in Hb as [Hb|Hb]); bool_inv; try lia.
    - apply key_ltb_lt, key_lt_not_le in Hb. apply Hb. by apply (head_last_le taken).
    - destruct previous as [last|]; [|done]. cbn in Hb. apply key_leb_le in Hb.
      pose proof (Hprev last a eq_refl) as Hp. apply key_lt_not_le in Hp; [done|].
      apply elem_of_app. left. by apply head_in. }
  unfold checked_add. destruct (N.leb_spec (len64 file + len64 encoded) u64_max); [|lia].
  destruct (N.leb_spec (count + len64 taken) u64_max); [|lia].
  clear Hb. destruct (_ || _) eqn:Hb2.
  { apply orb_true_iff in Hb2 as [Hb2|Hb2]; bool_inv; lia. }
  rewrite <- Hlf. apply IH; try done; try lia.
  intros last r [= <-] Hr. apply (sorted_app_lt taken rest z r); [done|by apply last_in|done].
Qed.

Lemma check_rows_spec bloom rs low high :
  (forall r, r ∈ rs -> bloom_has bloom (c_key r) = true) ->
  check_rows bloom low high (map IoOk rs)
  = IoOk (fold_left (fun m r => N.min m (c_sequence r)) rs low,
          fold_left (fun m r => N.max m (c_sequence r)) rs high).
Proof.
  revert low high. induction rs as [|r rs IH]; intros low high H; cbn [map check_rows fold_left]; [done|].
  rewrite H by left. cbn [negb]. apply IH. intros x Hx. apply H. by right.
Qed.

Lemma find_key_app key l1 l2 :
  find_key key (l1 ++ l2) = match find_key key l1 with Some r => Some r | None => find_key key l2 end.
Proof.
  unfold find_key. induction l1 as [|x l1 IH]; cbn; [done|]. by destruct (eqb (c_key x) key).
Qed.

(** The block the lookup reads holds the key if the table does. *)
Lemma lookup_layout file rs file' blocks tail key :
  layout file rs file' blocks -> (forall r, r ∈ rs -> cell_ok r) -> StronglySorted cell_lt rs ->
  len64 rs <= MAX_BATCH_RECORDS ->
  match option_filter (fun block => key_leb (k_first block) key)
          (blocks !! partition_point (fun block => key_ltb (k_last block) key) blocks) with
  | None => find_key key rs = None
  | Some block => exists records, read_block digest (file' ++ tail) block = IoOk records
      /\ StronglySorted cell_lt records /\ find_key key records = find_key key rs
  end.
Proof.
  induction 1 as [file|file taken rest encoded file' blocks Hne He Hl IH]; intros Hok Hs Hn; [done|].
  destruct (sorted_app_inv _ _ Hs) as [Hs1 Hs2]. destruct (layout_prefix _ _ _ _ Hl) as [t Ht].
  destruct (head taken) as [a|] eqn:Ha; [|by destruct taken].
  destruct (list.last taken) as [z|] eqn:Hz; [|by apply last_None in Hz].
  assert (Hn' : len64 taken + len64 rest <= MAX_BATCH_RECORDS).
  { unfold len64 in *. rewrite length_app in Hn. lia. }
  assert (Hok1 : forall r, r ∈ taken -> cell_ok r) by (intros; apply Hok, elem_of_app; by left).
  assert (Hok2 : forall r, r ∈ rest -> cell_ok r) by (intros; apply Hok, elem_of_app; by right).
  rewrite find_key_app. set (bm := block_meta _ _ _).
  assert (Hbl : k_last bm = c_key z) by (cbn; by rewrite Hz).
  assert (Hbf : k_first bm = c_key a) by (cbn; by rewrite Ha).
  cbn [partition_point]. rewrite Hbl.
  destruct (key_ltb (c_key z) key) eqn:Hk.
  - assert (Hno : find_key key taken = None).
    { apply find_key_none. intros r Hr E. apply key_ltb_lt, key_lt_not_le in Hk. apply Hk. rewrite <- E.
      apply last_Some in Hz as [l' ->]. apply elem_of_app in Hr as [Hr|Hr].
      - apply key_lt_le. apply (sorted_app_lt l' [z] r z); [done|done|left].
      - apply list_elem_of_singleton in Hr as ->. done. }
    rewrite Hno. apply IH; [done|done|lia].
  - change ((bm :: blocks) !! 0%nat) with (Some bm). cbn [option_filter]. rewrite Hbf.
    assert (Hno : find_key key rest = None).
    { apply find_key_none. intros r Hr E. apply key_ltb_ge in Hk. subst key.
      assert (Hl' : cell_lt z r) by (apply (sorted_app_lt taken rest); [done|by apply last_in|done]).
      apply key_lt_not_le in Hl'. done. }
    rewrite Hno. destruct (key_leb (c_key a) key) eqn:Hf.
    + exists taken. split; [|split; [done|by destruct (find_key key taken)]].
      rewrite Ht, <- !app_assoc. apply read_block_layout; [done|done|done|done|lia].
    + assert (find_key key taken = None) as ->; [|done].
      apply find_key_none. intros r Hr E. subst key.
      assert (Hle : key_le (c_key a) (c_key r)); [|by apply key_leb_le in Hle; congruence].
      destruct taken as [|x taken]; [done|]. injection Ha as ->.
      apply elem_of_cons in Hr as [->|Hr]; [done|].
      apply key_lt_le. apply (sorted_app_lt [a] taken a r); [done|left|done].
Qed.
End layout.

(** ** A written table opens and reads back *)

Lemma layout_nonempty digest file rs file' blocks :
  layout digest file rs file' blocks -> rs <> [] -> blocks <> [].
Proof. by destruct 1. Qed.

Lemma layout_count digest file rs file' blocks :
  layout digest file rs file' blocks -> (length blocks <= length rs)%nat.
Proof.
  induction 1 as [|file taken rest encoded file' blocks Hne _ _ IH]; [done|].
  rewrite length_app. cbn. destruct taken; [done|]. cbn. lia.
Qed.
Lemma layout_ends digest file rs file' blocks :
  layout digest file rs file' blocks -> rs <> [] ->
  k_first <$> head blocks = c_key <$> head rs /\ k_last <$> list.last blocks = c_key <$> list.last rs.
Proof.
  induction 1 as [|file taken rest encoded file' blocks Hne He Hl IH]; [done|]. intros _.
  destruct taken as [|x taken]; [done|]. split; [done|].
  rewrite last_cons, last_app. destruct rest as [|y rest].
  - inversion Hl as [|? tk ? ? ? ? Hne' Hc]; [|by destruct tk]. subst. cbn.
    by destruct (list.last (x :: taken)) eqn:E; [|apply last_None in E].
  - destruct IH as [_ IH]; [done|]. destruct (list.last (y :: rest)) as [z|] eqn:E; [|by apply last_None in E].
    destruct (list.last blocks) as [b|]; [|done]. cbn in IH |- *. done.
Qed.

Lemma seq_min_bounds rs m :
  (forall r, r ∈ rs -> 0 < c_sequence r) -> 0 < m ->
  0 < fold_left (fun m r => N.min m (c_sequence r)) rs m <= m
  /\ forall r, r ∈ rs -> fold_left (fun m r => N.min m (c_sequence r)) rs m <= c_sequence r.
Proof.
  revert m. induction rs as [|r rs IH]; intros m H Hm; cbn [fold_left].
  - split; [lia|]. intros r Hr. by apply not_elem_of_nil in Hr.
  - assert (Hr : 0 < c_sequence r) by (apply H; left).
    destruct (IH (N.min m (c_sequence r))) as [H1 H2]; [intros x Hx; apply H; by right|lia|].
    split; [lia|]. intros x [->|Hx]%elem_of_cons; [lia|by apply H2].
Qed.
Lemma seq_max_bounds rs m :
  m <= fold_left (fun m r => N.max m (c_sequence r)) rs m
  /\ (forall r, r ∈ rs -> c_sequence r <= fold_left (fun m r => N.max m (c_sequence r)) rs m)
  /\ forall bound, m <= bound -> (forall r, r ∈ rs -> c_sequence r <= bound) ->
     fold_left (fun m r => N.max m (c_sequence r)) rs m <= bound.
Proof.
  revert m. induction rs as [|r rs IH]; intros m; cbn [fold_left].
  - split; [done|]. split; [intros r Hr; by apply not_elem_of_nil in Hr|done].
  - destruct (IH (N.max m (c_sequence r))) as (H1 & H2 & H3). split; [lia|]. split.
    + intros x [->|Hx]%elem_of_cons; [lia|by apply H2].
    + intros bound Hm Hb. apply H3; [|intros x Hx; apply Hb; by right].
      pose proof (Hb r ltac:(left)). lia.
Qed.

Section written.
Context (digest : Bytes -> Bytes) (footer_json : Footer -> Bytes) (footer_parse : Bytes -> option Footer).
Context (digest_len : forall b, length (digest b) = 32%nat).
Context (footer_inverse : forall f, footer_parse (footer_json f) = Some f).

(** What the rest of the engine relies on: the open table holds these rows. *)
Definition table_holds (t : Table) (meta : TableMeta) (rs : list Cell) : Prop :=
  tb_meta t = meta /\ table_iter digest t = map IoOk rs
  /\ forall key, exists l, table_lookup digest t key = IoOk l /\ l_record l = find_key key rs.

(** The metadata describes the rows. *)
Definition meta_describes (meta : TableMeta) (id level : N) (rs : list Cell) : Prop :=
  t_id meta = id /\ t_level meta = level /\ t_records meta = len64 rs
  /\ head rs <> None /\ (c_key <$> head rs) = Some (t_first meta)
  /\ (c_key <$> list.last rs) = Some (t_last meta)
  /\ t_min_sequence meta = seq_min rs /\ t_max_sequence meta = seq_max rs.

Lemma write_table_inv id level rs meta file :
  write_table digest footer_json id level rs = (IoOk meta, Some file) ->
  rs <> [] /\ len64 rs <= MAX_BATCH_RECORDS /\ StronglySorted cell_lt rs
  /\ (forall r, r ∈ rs -> 0 < c_sequence r) /\ meta_describes meta id level rs
  /\ exists file0 blocks bytes, layout digest HEADER rs file0 blocks /\ blocks <> []
     /\ frame digest FOOTER (footer_json (mkFooter 1 blocks (bloom_build (c_key <$> rs)) (len64 rs)))
        = IoOk bytes
     /\ len64 bytes <= MAX_FOOTER_BYTES
     /\ file = file0 ++ bytes ++ to_le 8 (len64 bytes) ++ END_MARK
     /\ len64 file <= MAX_TABLE_BYTES /\ t_bytes meta = len64 file.
Proof.
  unfold write_table. intros H. destruct (_ || _) eqn:Hb; [done|].
  destruct (write_blocks _ _ _ _) as [[blocks|] file0] eqn:Hw; [|done].
  apply write_blocks_layout in Hw. destruct (frame _ _ _) as [bytes|] eqn:Hf; [|done].
  destruct (_ <? len64 bytes) eqn:Hb1; [done|]. destruct (MAX_TABLE_BYTES <? _) eqn:Hb2; [done|].
  injection H as <- <-. bool_inv.
  assert (Hne : rs <> []) by (by intros ->). split; [done|]. split; [done|].
  split; [by apply keys_increasing_sorted|]. split.
  { intros r Hr. destruct (existsb_exists (fun r => c_sequence r =? 0) rs) as [_ Hx].
    destruct (N.eq_0_gt_0_cases (c_sequence r)) as [E|]; [|done]. exfalso.
    enough (existsb (fun r => c_sequence r =? 0) rs = true) by congruence.
    apply Hx. exists r. split; [by apply list_elem_of_In|]. by rewrite E. }
  split.
  { destruct rs as [|r rs]; [done|]. unfold meta_describes. cbn [t_id t_level t_records t_first t_last t_min_sequence t_max_sequence].
    destruct (list.last (r :: rs)) eqn:E; [|by apply last_None in E]. naive_solver. }
  exists file0, blocks, bytes. split; [done|]. split; [by eapply layout_nonempty|]. naive_solver.
Qed.

(** The trailer of a written file leads to its index. *)
Lemma trailer_of file0 bytes file :
  len64 bytes <= MAX_FOOTER_BYTES -> file = file0 ++ bytes ++ to_le 8 (len64 bytes) ++ END_MARK ->
  len64 file = len64 file0 + len64 bytes + 16
  /\ drop (N.to_nat (len64 file - 16)) file = to_le 8 (len64 bytes) ++ END_MARK
  /\ from_le (to_le 8 (len64 bytes)) = len64 bytes.
Proof.
  intros Hl ->. assert (Hlen : len64 (file0 ++ bytes ++ to_le 8 (len64 bytes) ++ END_MARK)
                               = len64 file0 + len64 bytes + 16).
  { unfold len64. rewrite !length_app, to_le_length. cbn. lia. }
  split; [done|]. split.
  - rewrite Hlen, app_assoc. apply drop_app_len. unfold len64. rewrite length_app. lia.
  - apply from_to_le8. pose proof u64_max_two64. unfold two64, MAX_FOOTER_BYTES in *. lia.
Qed.

Lemma open_written id level rs meta file :
  write_table digest footer_json id level rs = (IoOk meta, Some file) ->
  (forall r, r ∈ rs -> cell_ok r) -> id <> 0 -> level <= 2 ->
  exists blocks tail file0, layout digest HEADER rs file0 blocks /\ file = file0 ++ tail
  /\ table_open digest footer_parse file meta
     = IoOk (mkTable file meta (mkFooter 1 blocks (bloom_build (c_key <$> rs)) (len64 rs))).
Proof.
  intros Hw Hok Hid Hlevel.
  destruct (write_table_inv _ _ _ _ _ Hw) as (Hne & Hn & Hs & Hpos & (Mi & Ml & Mr & _ & Mf & Mz & Mlo & Mhi)
    & file0 & blocks & bytes & Hl & Hbs & Hf & Hfl & Hfile & Hmax & Hmb).
  exists blocks, (bytes ++ to_le 8 (len64 bytes) ++ END_MARK), file0. split; [done|]. split; [done|].
  destruct (trailer_of _ _ _ Hfl Hfile) as (Hlen & Htr & Hle).
  pose proof (layout_prefix _ _ _ _ _ Hl) as [t Ht].
  assert (H8 : 8 <= len64 file0) by (rewrite Ht; unfold len64; rewrite length_app; cbn; lia).
  pose proof (frame_len digest digest_len FOOTER eq_refl _ _ Hf) as Hfb.
  destruct (head rs) as [a|] eqn:Ha; [|by destruct rs]. injection Mf as Mf.
  destruct (list.last rs) as [z|] eqn:Hz; [|done]. injection Mz as Mz.
  assert (Hblo : forall r, r ∈ rs -> bloom_has (bloom_build (c_key <$> rs)) (c_key r) = true).
  { intros r Hr. unfold bloom_has. rewrite build_contains; [done|]. apply list_elem_of_fmap. by eexists. }
  pose proof (seq_min_bounds rs u64_max Hpos) as [Hmin1 Hmin2]; [pose proof u64_max_big; lia|].
  pose proof (seq_max_bounds rs 0) as (_ & Hmax2 & _).
  assert (Har : a ∈ rs) by (by apply head_in).
  unfold table_open. rewrite Hmb, N.eqb_refl, Mi, Ml, Mr, Mlo, Mhi. cbn [negb orb].
  destruct (_ || _) eqn:Hb.
  { exfalso. repeat (apply orb_true_iff in Hb as [Hb|Hb]); bool_inv; try lia.
    - destruct (Hok a Har) as [[[Hk _] _] _]. cbn in Hk. rewrite <- Mf in Hb. lia.
    - apply key_ltb_lt, key_lt_not_le in Hb. apply Hb. rewrite <- Mf, <- Mz. by apply (head_last_le rs).
    - unfold seq_min in Hb. lia.
    - unfold seq_min, seq_max in Hb. pose proof (Hmin2 a Har). pose proof (Hmax2 a Har). lia.
    - unfold len64 in Hb. destruct rs; [done|]. cbn in Hb. lia. }
  replace (take 8 file) with HEADER.
  2: { rewrite Hfile, Ht, <- !app_assoc. by rewrite take_app_len. }
  rewrite eqb_refl, Htr. cbn [negb]. rewrite take_app_len, drop_app_len, Hle by apply to_le_length.
  rewrite eqb_refl. cbn [negb]. clear Hb. destruct (_ || _) eqn:Hb.
  { exfalso. apply orb_true_iff in Hb as [Hb|Hb]; bool_inv; lia. }
  replace (len64 file - 16 - len64 bytes) with (len64 file0) by lia.
  replace (drop (N.to_nat (len64 file0)) file) with (bytes ++ to_le 8 (len64 bytes) ++ END_MARK).
  2: { rewrite Hfile. symmetry. apply drop_app_len. unfold len64. lia. }
  rewrite (read_frame_whole digest digest_len FOOTER eq_refl _ _ _ Hf). cbn [mbind Io_bind].
  rewrite N.eqb_refl. cbn [negb]. rewrite footer_inverse. cbn [f_version f_records f_blocks f_bloom].
  rewrite !N.eqb_refl. cbn [negb orb]. clear Hb. destruct (_ || _) eqn:Hb.
  { exfalso. pose proof (layout_count _ _ _ _ _ Hl). unfold len64 in Hb.
    apply orb_true_iff in Hb as [Hb|Hb]; bool_inv; [|lia]. destruct blocks; [done|]. cbn in Hb. lia. }
  pose proof (build_validates (c_key <$> rs)) as Hv. unfold len64 in Hv at 1. rewrite length_fmap in Hv.
  fold (len64 rs) in Hv. rewrite Hv. cbn [mbind Io_bind].
  change 8 with (len64 HEADER).
  rewrite (check_layout digest digest_len _ _ _ _ 0 (len64 rs) None Hl Hs); [|lia|lia|done|done].
  cbn [mbind Io_bind]. rewrite !N.eqb_refl. cbn [negb orb].
  destruct (layout_ends _ _ _ _ _ Hl Hne) as [-> ->]. rewrite Ha, Hz, <- Mf, <- Mz. cbn [fmap option_fmap option_map].
  rewrite !eqb_refl. cbn [negb orb]. unfold table_iter. cbn [tb_file tb_footer f_blocks].
  rewrite Hfile at 1. rewrite (iter_layout digest digest_len rs Hn _ _ _ _ _ Hl Hok Hs) by done.
  rewrite check_rows_spec by done. cbn [mbind Io_bind]. unfold seq_min, seq_max. by rewrite !N.eqb_refl.
Qed.

Lemma write_table_holds id level rs meta file :
  write_table digest footer_json id level rs = (IoOk meta, Some file) ->
  (forall r, r ∈ rs -> cell_ok r) -> id <> 0 -> level <= 2 ->
  exists t, table_open digest footer_parse file meta = IoOk t /\ table_holds t meta rs.
Proof.
  intros Hw Hok Hid Hlevel.
  destruct (write_table_inv _ _ _ _ _ Hw) as (Hne & Hn & Hs & _).
  destruct (open_written _ _ _ _ _ Hw Hok Hid Hlevel) as (blocks & tail & file0 & Hl & -> & Ho).
  eexists. split; [exact Ho|]. split; [done|]. split.
  { unfold table_iter. by apply (iter_layout digest digest_len rs Hn HEADER). }
  intros key. unfold table_lookup. cbn [tb_footer f_bloom f_blocks tb_file].
  destruct (bloom_has _ key) eqn:Hb.
  - pose proof (lookup_layout digest digest_len _ _ _ _ tail key Hl Hok Hs Hn) as H. cbn [negb].
    destruct (option_filter _ _) as [block|]; [|by eexists].
    destruct H as (records & Hr & Hsr & Hf). rewrite Hr. cbn [mbind Io_bind]. eexists. split; [done|].
    cbn [l_record]. by rewrite binary_search_find.
  - eexists. split; [done|]. cbn. symmetry. apply find_key_none. intros r Hr E. unfold bloom_has in Hb.
    rewrite build_contains in Hb; [done|]. apply list_elem_of_fmap. by eexists.
Qed.
End written.

(** A table that was written opens against its metadata, iterates over
    exactly the rows written, in order and without error, and a point lookup
    (filter, then index, then one block, then binary search) finds in it exactly
    what a scan of the rows finds. *)
Theorem table_roundtrip digest footer_json footer_parse id level rs meta file :
  (forall b, length (digest b) = 32%nat) -> (forall f, footer_parse (footer_json f) = Some f) ->
  (forall r, r ∈ rs -> cell_ok r) -> id <> 0 -> level <= 2 ->
  write_table digest footer_json id level rs = (IoOk meta, Some file) ->
  exists t, table_open digest footer_parse file meta = IoOk t
  /\ table_iter digest t = map IoOk rs
  /\ forall key, exists l, table_lookup digest t key = IoOk l
     /\ l_record l = List.find (fun r => eqb (c_key r) key) rs.
Proof.
  intros Hd Hj Hok Hid Hl Hw.
  destruct (write_table_holds digest footer_json footer_parse Hd Hj _ _ _ _ _ Hw Hok Hid Hl)
    as (t & Ho & _ & Hi & Hk). by exists t.
Qed.
