(* ===== verification/Disk.v ===== *)
(** * [state-store/src/durable.rs]: the store directory

    A directory is a finite map from names to contents.  Reads and writes of
    the operating system do not fail here, and a synchronisation is a step that
    changes nothing; what a crash leaves behind is what was written before it
    (see [LsmSafe] for writes cut short).  The advisory lock on [LOCK] is held
    by one process at a time. *)
From S2P Require Import Prelude Store Table.
Local Open Scope N_scope.
Local Open Scope raft_scope.

(** ** Fallible computations that keep what they changed *)

Definition St (S A : Type) : Type := S -> Io A * S.

Section state.
Context {S : Type}.

#[global] Instance St_ret : MRet (St S) := fun A a s => (IoOk a, s).
#[global] Instance St_bind : MBind (St S) := fun A B f m s =>
  match m s with
  | (IoOk a, s) => f a s
  | (IoErr k e, s) => (IoErr k e, s)
  end.

(** [?] on a result. *)
Definition lift {A} (r : Io A) : St S A := fun s => (r, s).
Definition fails {A} (k : ErrorKind) (e : string) : St S A := fun s => (IoErr k e, s).
Definition state : St S S := fun s => (IoOk s, s).
(** [if b { return Err(..) }] *)
Definition refuse (b : bool) (k : ErrorKind) (e : string) : St S unit := fun s =>
  (if b then IoErr k e else IoOk tt, s).
Definition update (f : S -> S) : St S unit := fun s => (IoOk tt, f s).

(** [post m Q E s]: from [s], [m] returns with [Q] or fails with [E]. *)
Definition post {A} (m : St S A) (Q : A -> S -> Prop) (E : S -> Prop) (s : S) : Prop :=
  match m s with
  | (IoOk a, s') => Q a s'
  | (IoErr _ _, s') => E s'
  end.

Lemma post_ret {A} (a : A) Q E s : Q a s -> post (mret a) Q E s.
Proof. done. Qed.
Lemma post_bind {A B} (m : St S A) (f : A -> St S B) Q E s :
  post m (fun a s1 => post (f a) Q E s1) E s -> post (m ≫= f) Q E s.
Proof.
  unfold post, mbind, St_bind. destruct (m s) as [[a|] s1]; [|done].
  by destruct (f a s1) as [[b|] s2].
Qed.
Lemma post_mono {A} (m : St S A) (Q Q' : A -> S -> Prop) (E E' : S -> Prop) s :
  post m Q E s -> (forall a s', Q a s' -> Q' a s') -> (forall s', E s' -> E' s') -> post m Q' E' s.
Proof. unfold post. destruct (m s) as [[a|] s']; auto. Qed.
(** The run itself is part of the postcondition. *)
Lemma post_traced {A} (m : St S A) Q E s :
  post m Q E s -> post m (fun a s' => Q a s' /\ m s = (IoOk a, s')) E s.
Proof. unfold post. by destruct (m s) as [[a|] s']. Qed.
Lemma post_lift {A} (r : Io A) Q E s :
  (forall a, r = IoOk a -> Q a s) -> (forall k e, r = IoErr k e -> E s) -> post (lift r) Q E s.
Proof. unfold post, lift. destruct r; eauto. Qed.
Lemma post_fails {A} k e (Q : A -> S -> Prop) E s : E s -> post (fails k e) Q E s.
Proof. done. Qed.
Lemma post_state Q E s : Q s s -> post state Q E s.
Proof. done. Qed.
Lemma post_refuse b k e Q E s :
  (b = true -> E s) -> (b = false -> Q tt s) -> post (refuse b k e) Q E s.
Proof. destruct b; cbn; auto. Qed.
Lemma post_update f Q E s : Q tt (f s) -> post (update f) Q E s.
Proof. done. Qed.
End state.

(** ** Files *)

Inductive Name : Type :=
| LOCK | ENGINE | ENGINE_NEW | CURRENT | CURRENT_NEW
| Sst (id : N)
| Wal (id : N)
| Foreign (name : string).
#[export] Instance Name_eq_dec : EqDecision Name.
Proof. solve_decision. Defined.
#[export] Instance Name_countable : Countable Name.
Proof.
  refine (inj_countable'
    (fun n => match n with
     | LOCK => inl (inl 0) | ENGINE => inl (inl 1) | ENGINE_NEW => inl (inl 2)
     | CURRENT => inl (inl 3) | CURRENT_NEW => inl (inl 4)
     | Sst id => inl (inr id) | Wal id => inr (inl id) | Foreign s => inr (inr s)
     end)
    (fun c => match c with
     | inl (inl 0) => LOCK | inl (inl 1) => ENGINE | inl (inl 2) => ENGINE_NEW
     | inl (inl 3) => CURRENT | inl (inl _) => CURRENT_NEW
     | inl (inr id) => Sst id | inr (inl id) => Wal id | inr (inr s) => Foreign s
     end) _).
  by intros [].
Defined.

(** File contents by name. *)
Abbreviation Fs := (gmap Name Bytes).

(** [OpenOptions::create_new(true)], then [write_all] *)
Definition create_new (name : Name) (content : Bytes) : St Fs unit := fun fs =>
  match fs !! name with
  | Some _ => (IoErr AlreadyExists "file exists", fs)
  | None => (IoOk tt, <[name := content]> fs)
  end.
Definition read_file (name : Name) : St Fs Bytes := fun fs =>
  match fs !! name with
  | Some content => (IoOk content, fs)
  | None => (IoErr NotFound "no such file", fs)
  end.
(** [fs::rename] *)
Definition rename (from to : Name) : St Fs unit := fun fs =>
  match fs !! from with
  | Some content => (IoOk tt, <[to := content]> (delete from fs))
  | None => (IoErr NotFound "no such file", fs)
  end.

(** ** [Directory] *)

Inductive Engine : Type := Lsm | Redb.
Definition identity (e : Engine) : Bytes :=
  match e with
  | Lsm => ascii_bytes "micro-raft-state-store" ++ [10] ++ ascii_bytes "version=1" ++ [10]
           ++ ascii_bytes "engine=lsm" ++ [10]
  | Redb => ascii_bytes "micro-raft-state-store" ++ [10] ++ ascii_bytes "version=1" ++ [10]
            ++ ascii_bytes "engine=redb" ++ [10]
  end.
Definition primary (e : Engine) : Name :=
  match e with Lsm => CURRENT | Redb => Foreign "state.redb" end.

(** [Directory::open], on a directory whose ancestors exist; the result is
    [fresh].  The open counters are a function of it. *)
Definition directory_open (engine : Engine) : St Fs bool :=
  (* the lock file is created when missing *)
  update (fun fs : Fs => match fs !! LOCK with Some _ => fs | None => <[LOCK := []]> fs end);;
  fs ← state;
  refuse (is_some (fs !! ENGINE_NEW)) InvalidData
    "interrupted engine identity publication; recovery requires review";;
  match fs !! ENGINE with
  | Some content =>
      refuse (negb (eqb content (identity engine))) InvalidData
        "store engine identity is corrupt or belongs to another engine";;
      refuse (is_none (fs !! primary engine)) InvalidData
        "selected engine payload is missing; refusing empty reinitialization";;
      mret false
  | None =>
      refuse (existsb (fun e => negb (eqb e.1 LOCK)) (map_to_list fs)) InvalidData
        "unmarked nonempty store directory; refusing stale/new ambiguity";;
      create_new ENGINE_NEW (identity engine);;
      rename ENGINE_NEW ENGINE;;
      mret true
  end.

(** [Directory::disk_bytes] *)
Definition disk_bytes (fs : Fs) : Io N :=
  foldr (fun e total =>
    total ← total;
    match checked_add total (len64 e.2) with
    | Some total => mret total
    | None => invalid "disk bytes overflow"
    end) (mret 0) (map_to_list fs).
