(* ===== verification/Lsm.v ===== *)
(** * [state-store/src/lsm.rs]: the log-structured store

    The store keeps a memtable backed by a write-ahead log, immutable tables
    on three levels, and a manifest that names the live files; publishing a new
    manifest is the commit point of flush, compaction and installation.  An
    operation is a computation on the store that returns a value or an I/O
    error and keeps whatever it changed.  [digest] is SHA-256; [*_json] and
    [*_parse] are serde's encoders and decoders.  The counters are unbounded,
    and a [Table] holds the contents of its (immutable) file. *)
From S2P Require Import Prelude Store Bloom Codec Merge Table Disk.
Local Open Scope N_scope.
Local Open Scope raft_scope.

Definition WAL_MAGIC : Bytes := ascii_bytes "MRSWAL01".
Definition MANIFEST_MAGIC : Bytes := ascii_bytes "MRSMAN01".
Definition MAX_TABLES : N := 256.
Definition MAX_MANIFEST_BYTES : N := 4 * 1024 * 1024.

(** ** Options *)

Record LsmOptions := mkLsmOptions {
  memtable_bytes : N;
  target_table_bytes : N;
  l0_trigger : N;
  level1_bytes : N;
  max_compaction_input_bytes : N;
}.
Definition default_options : LsmOptions :=
  mkLsmOptions (1024 * 1024) (512 * 1024) 4 (8 * 1024 * 1024) (64 * 1024 * 1024).

(** [(low..=high).contains(&x)] *)
Definition in_range (low high x : N) : bool := (low <=? x) && (x <=? high).

Definition options_validate (o : LsmOptions) : Io unit :=
  if negb (in_range 256 (16 * 1024 * 1024) (memtable_bytes o))
     || negb (in_range 256 (16 * 1024 * 1024) (target_table_bytes o))
     || negb (in_range 2 32 (l0_trigger o))
     || (level1_bytes o <? target_table_bytes o)
     || negb (in_range 1024 (256 * 1024 * 1024) (max_compaction_input_bytes o))
  then invalid "invalid LSM work bounds" else mret tt.

Inductive FaultPoint : Type :=
| WalWritten | WalSynced | TableWritten | TableSynced | NewWalSynced | FilesDirectorySynced
| ManifestWritten | ManifestSynced | ManifestRenamed | ManifestDirectorySynced
| ObsoleteRemoved | ReclaimDirectorySynced.
#[export] Instance FaultPoint_eq_dec : EqDecision FaultPoint.
Proof. solve_decision. Defined.

(** ** The manifest *)

Record Manifest := mkManifest {
  mf_version : N;
  mf_applied : N;
  mf_last_digest : Bytes;
  mf_next_id : N;
  mf_wal_id : N;
  mf_tables : list TableMeta;
}.
#[export] Instance Manifest_eta : Eta Manifest := fun m =>
  mkManifest (mf_version m) (mf_applied m) (mf_last_digest m) (mf_next_id m) (mf_wal_id m)
    (mf_tables m).

(** [wal_name] and [TableMeta::filename]: twenty digits hold every [u64]. *)
Definition wal_name (m : Manifest) : Name := Wal (mf_wal_id m).
Definition filename (t : TableMeta) : Name := Sst (t_id t).

Definition allocate (m : Manifest) : Io (N * Manifest) :=
  match checked_add (mf_next_id m) 1 with
  | Some next => mret (mf_next_id m, m <| mf_next_id := next |>)
  | None => invalid "file identity exhausted"
  end.

(** The loop of [Manifest::validate] over the tables. *)
Fixpoint validate_tables (next applied : N) (ids : gset N) (tables : list TableMeta) : Io unit :=
  match tables with
  | [] => mret tt
  | t :: rest =>
      if bool_decide (t_id t ∈ ids) || (next <=? t_id t) || (applied <? t_max_sequence t)
         || (2 <? t_level t)
      then invalid "manifest table identities/bounds invalid" else
      validate_tables next applied ({[t_id t]} ∪ ids) rest
  end.

Definition by_first (a b : TableMeta) : Prop := key_le (t_first a) (t_first b).
#[export] Instance by_first_dec : RelDecision by_first.
Proof. intros a b. unfold by_first. apply _. Defined.

(** [windows(2).any(|pair| pair[0].last >= pair[1].first)] is the failure of
    this check. *)
Fixpoint runs_apart (tables : list TableMeta) : bool :=
  match tables with
  | a :: ((b :: _) as t) => key_ltb (t_last a) (t_first b) && runs_apart t
  | _ => true
  end.
Definition level_apart (level : N) (tables : list TableMeta) : bool :=
  runs_apart (merge_sort by_first (filter (fun t => t_level t = level) tables)).

Definition manifest_validate (m : Manifest) : Io unit :=
  if negb (mf_version m =? 1) || (mf_wal_id m =? 0) || (mf_next_id m <=? mf_wal_id m)
     || (MAX_TABLES <? len64 (mf_tables m))
  then invalid "invalid selected manifest" else
  validate_tables (mf_next_id m) (mf_applied m) {[mf_wal_id m]} (mf_tables m);;
  if negb (level_apart 1 (mf_tables m)) || negb (level_apart 2 (mf_tables m))
  then invalid "leveled runs overlap" else mret tt.

Definition initial_manifest : Manifest := mkManifest 1 0 (replicate 32 0) 2 1 [].

(** ** The store *)

Record Statistics := mkStatistics {
  commits : N;
  logical_bytes : N;
  wal_bytes : N;
  flush_table_bytes : N;
  compaction_bytes : N;
  metadata_bytes : N;
  redb_write_bytes : N;
  content_syncs : N;
  directory_syncs : N;
  compactions : N;
  compaction_input_bytes : N;
  bloom_probes : N;
  bloom_positive : N;
  bloom_false_positive : N;
  point_read_block_bytes : N;
  stat_disk_bytes : N;
  tables_per_level : list N;
  pending_compaction : bool;
}.
#[export] Instance Statistics_eta : Eta Statistics := fun r =>
  mkStatistics (commits r) (logical_bytes r) (wal_bytes r) (flush_table_bytes r)
    (compaction_bytes r) (metadata_bytes r) (redb_write_bytes r) (content_syncs r)
    (directory_syncs r) (compactions r) (compaction_input_bytes r) (bloom_probes r)
    (bloom_positive r) (bloom_false_positive r) (point_read_block_bytes r) (stat_disk_bytes r)
    (tables_per_level r) (pending_compaction r).
Definition default_statistics : Statistics :=
  mkStatistics 0 0 0 0 0 0 0 0 0 0 0 0 0 0 0 0 [0; 0; 0] false.

Record LsmStore := mkLsmStore {
  s_fs : Fs;
  s_options : LsmOptions;
  s_manifest : Manifest;
  s_tables : list Table;
  s_wal : N;
  s_wal_len : N;
  s_mem : gmap Bytes Cell;
  s_mem_bytes : N;
  s_applied : N;
  s_last_digest : Bytes;
  s_stats : Statistics;
  s_poisoned : bool;
  s_fault : option FaultPoint;
}.
#[export] Instance LsmStore_eta : Eta LsmStore := fun s =>
  mkLsmStore (s_fs s) (s_options s) (s_manifest s) (s_tables s) (s_wal s) (s_wal_len s)
    (s_mem s) (s_mem_bytes s) (s_applied s) (s_last_digest s) (s_stats s) (s_poisoned s)
    (s_fault s).

Abbreviation L := (St LsmStore).

(** A step of the file system. *)
Definition on_fs {A} (m : St Fs A) : L A := fun s =>
  let '(r, fs) := m (s_fs s) in (r, s <| s_fs := fs |>).
(** [self.stats.p += n] *)
Definition count (p : Statistics -> N) `{!Setter p} (n : N) : L unit :=
  update (fun s => s <| s_stats := upd p (p (s_stats s) + n) (s_stats s) |>).

Definition inject_failure (point : FaultPoint) (s : LsmStore) : LsmStore :=
  s <| s_fault := Some point |>.
Definition hit (point : FaultPoint) : L unit := fun s =>
  if eqb (s_fault s) (Some point)
  then (IoErr OtherError "injected LSM failure", s <| s_fault := None |>)
  else (IoOk tt, s).
Definition healthy : L unit := fun s =>
  if s_poisoned s
  then (IoErr OtherError "state store requires reopen after durable mutation failure", s)
  else (IoOk tt, s).
(** The two arms of [mutation]. *)
Definition poison_on_error {A} (action : L A) : L A := fun s =>
  match action s with
  | (IoOk value, s) => (IoOk value, s)
  | (IoErr k e, s) => (IoErr k e, s <| s_poisoned := true |>)
  end.
Definition mutation {A} (action : L A) : L A := healthy;; poison_on_error action.

(** One iteration of the loop of [apply_mem]. *)
Definition apply_change (sequence : N) (s : LsmStore) (change : Mutation) : LsmStore :=
  let record := cell_of sequence change in
  let bytes := s_mem_bytes s + cell_size record in
  let previous := s_mem s !! m_key change in
  s <| s_mem := <[m_key change := record]> (s_mem s) |>
    <| s_mem_bytes := bytes - map_or previous 0 cell_size |>.
Definition apply_mem (sequence : N) (changes : list Mutation) (s : LsmStore) : LsmStore :=
  fold_left (apply_change sequence) changes s.

(** [self.mem.values()] *)
Definition mem_rows (s : LsmStore) : list Cell := (kmap_iter (s_mem s)).*2.

(** A name the engine may remove. *)
Definition owned (name : Name) : bool :=
  match name with CURRENT_NEW | Sst _ | Wal _ => true | _ => false end.

(** The directory entries in some order. *)
Definition read_dir (fs : Fs) : list Name := (map_to_list fs).*1.

Section store.
Context (digest : Bytes -> Bytes).
Context (footer_json : Footer -> Bytes) (footer_parse : Bytes -> option Footer).
Context (manifest_json : Manifest -> Bytes) (manifest_parse : Bytes -> option Manifest).

(** ** Recovery *)

(** The [while] loop of [recover_wal] over the bytes still to be read. *)
Fixpoint recover_loop (fuel : nat) (reader : Bytes) : L unit :=
  match fuel with
  | O => fails OtherError "out of fuel"
  | S fuel =>
      read ← lift (read_frame digest reader WAL_MAGIC);
      match read with
      | None => mret tt
      | Some (payload, bytes, reader) =>
          '(first, index, changes) ← lift (decode_batch payload);
          s ← state;
          refuse (negb (eqb (checked_add (s_applied s) 1) (Some first))) InvalidData
            "WAL applied-index discontinuity";;
          update (apply_mem index changes);;
          update (fun s => s <| s_applied := index |> <| s_last_digest := digest payload |>
                             <| s_wal_len := s_wal_len s + bytes |>);;
          recover_loop fuel reader
      end
  end.

(** [File::set_len] on the log, when it shrinks. *)
Definition truncate_wal : L unit :=
  update (fun s => s <| s_fs := alter (take (N.to_nat (s_wal_len s))) (Wal (s_wal s)) (s_fs s) |>).

Definition recover_wal : L unit :=
  s ← state;
  content ← on_fs (read_file (Wal (s_wal s)));
  refuse (64 * 1024 * 1024 <? len64 content) InvalidData "WAL recovery byte bound exceeded";;
  recover_loop (S (length content)) content;;
  s ← state;
  if negb (s_wal_len s =? len64 content)
  then truncate_wal;; count content_syncs 1
  else mret tt.

(** The loop of [reclaim] over the directory; [true] if a file was removed. *)
Fixpoint reclaim_loop (live : gset Name) (changed : bool) (names : list Name) : L bool :=
  match names with
  | [] => mret changed
  | name :: rest =>
      if owned name && negb (bool_decide (name ∈ live)) then
        update (fun s => s <| s_fs := delete name (s_fs s) |>);;
        hit ObsoleteRemoved;;
        reclaim_loop live true rest
      else reclaim_loop live changed rest
  end.
Definition live_files (m : Manifest) : gset Name :=
  list_to_set (wal_name m :: (filename <$> mf_tables m)).
Definition reclaim : L unit :=
  s ← state;
  changed ← reclaim_loop (live_files (s_manifest s)) false (read_dir (s_fs s));
  if Bool.eqb changed true then
    count directory_syncs 1;;
    hit ReclaimDirectorySynced
  else mret tt.

(** [Table::open] on the file of each table. *)
Fixpoint open_tables (fs : Fs) (metas : list TableMeta) : Io (list Table) :=
  match metas with
  | [] => mret []
  | meta :: rest =>
      match fs !! filename meta with
      | None => IoErr NotFound "no such file"
      | Some file =>
          t ← table_open digest footer_parse file meta;
          ts ← open_tables fs rest;
          mret (t :: ts)
      end
  end.

(** ** Reading *)

Definition sources (s : LsmStore) (selected : option (gset N)) (include_mem : bool) : list Source :=
  (if include_mem then [map IoOk (mem_rows s)] else [])
  ++ (table_iter digest <$> List.filter (fun t =>
        map_or selected true (fun ids => bool_decide (t_id (tb_meta t) ∈ ids))) (s_tables s)).

(** The loop of [get] over the tables. *)
Fixpoint get_loop (key : Bytes) (newest : option Cell) (tables : list Table) : L (option Cell) :=
  match tables with
  | [] => mret newest
  | t :: rest =>
      if negb (meta_contains (tb_meta t) key)
         || is_some_and newest (fun record => t_max_sequence (tb_meta t) <? c_sequence record)
      then get_loop key newest rest else
      found ← lift (table_lookup digest t key);
      count bloom_probes 1;;
      count bloom_positive (N.b2n (l_bloom_positive found));;
      count bloom_false_positive (N.b2n (l_bloom_positive found && is_none (l_record found)));;
      count point_read_block_bytes (l_block_bytes found);;
      match l_record found with
      | None => get_loop key newest rest
      | Some record =>
          refuse (is_some_and newest (fun previous =>
                    (c_sequence previous =? c_sequence record)
                    && negb (eqb (c_value previous) (c_value record)))) InvalidData
            "conflicting record version";;
          get_loop key
            (if map_or newest true (fun previous => c_sequence previous <? c_sequence record)
             then Some record else newest) rest
      end
  end.
Definition get (key : Bytes) : L (option Bytes) :=
  healthy;;
  s ← state;
  newest ← get_loop key (s_mem s !! key) (s_tables s);
  mret (newest ≫= c_value).

(** The loop of [scan] over the merged records. *)
Fixpoint scan_loop (bytes : N) (rows : Source) : Io (list (Bytes * Bytes)) :=
  match rows with
  | [] => mret []
  | IoErr k e :: _ => IoErr k e
  | IoOk record :: rest =>
      match c_value record with
      | None => scan_loop bytes rest
      | Some value =>
          let bytes := bytes + len64 (c_key record) + len64 value in
          if 256 * 1024 * 1024 <? bytes
          then IoErr OutOfMemory "materialized scan exceeds 256 MiB" else
          result ← scan_loop bytes rest;
          mret ((c_key record, value) :: result)
      end
  end.
Definition scan : L (list (Bytes * Bytes)) :=
  healthy;;
  s ← state;
  lift (m ← merge_new (sources s None true); scan_loop 0 (merge_source m)).
(** ** Writing tables and publishing *)

Definition create_table (manifest : Manifest) (level : N) (records : list Cell) (compaction : bool) :
    L (TableMeta * Manifest) :=
  '(id, manifest) ← lift (allocate manifest);
  let '(result, content) := write_table digest footer_json id level records in
  match content with
  | Some content => on_fs (create_new (Sst id) content)
  | None => mret tt
  end;;
  meta ← lift result;
  (if compaction then count compaction_bytes (t_bytes meta)
   else count flush_table_bytes (t_bytes meta));;
  hit TableWritten;;
  count content_syncs 1;;
  hit TableSynced;;
  mret (meta, manifest).

(** The loop of [create_tables]: the batch so far and its size. *)
Fixpoint create_loop (manifest : Manifest) (level : N) (compaction : bool) (rows : Source)
    (result : list TableMeta) (batch : list Cell) (size : N) : L (list TableMeta * Manifest) :=
  match rows with
  | [] =>
      if len64 batch =? 0 then mret (result, manifest) else
      '(meta, manifest) ← create_table manifest level batch compaction;
      mret (result ++ [meta], manifest)
  | IoErr k e :: _ => fails k e
  | IoOk row :: rest =>
      s ← state;
      '(result, manifest, batch, size) ←
        (if negb (len64 batch =? 0)
            && ((target_table_bytes (s_options s) <? size + cell_size row)
                || (len64 batch =? MAX_BATCH_RECORDS))
         then '(meta, manifest) ← create_table manifest level batch compaction;
              mret (result ++ [meta], manifest, [], 0)
         else mret (result, manifest, batch, size));
      refuse (MAX_TABLES <=? len64 result) InvalidData "table count capacity exceeded";;
      create_loop manifest level compaction rest result (batch ++ [row]) (size + cell_size row)
  end.
Definition create_tables (manifest : Manifest) (level : N) (rows : Source) (compaction : bool) :
    L (list TableMeta * Manifest) :=
  create_loop manifest level compaction rows [] [] 0.

Definition publish (manifest : Manifest) : L unit :=
  '(wal_id, manifest) ← lift (allocate manifest);
  s ← state;
  let manifest := manifest <| mf_wal_id := wal_id |> <| mf_applied := s_applied s |>
                           <| mf_last_digest := s_last_digest s |> in
  lift (manifest_validate manifest);;
  on_fs (create_new (wal_name manifest) []);;
  count content_syncs 1;;
  hit NewWalSynced;;
  s ← state;
  tables ← lift (open_tables (s_fs s) (mf_tables manifest));
  count directory_syncs 1;;
  hit FilesDirectorySynced;;
  bytes ← lift (frame digest MANIFEST_MAGIC (manifest_json manifest));
  refuse (MAX_MANIFEST_BYTES <? len64 bytes) InvalidData "manifest capacity exceeded";;
  update (fun s => s <| s_fs := <[CURRENT_NEW := bytes]> (s_fs s) |>);;
  count metadata_bytes (len64 bytes);;
  hit ManifestWritten;;
  count content_syncs 1;;
  hit ManifestSynced;;
  on_fs (rename CURRENT_NEW CURRENT);;
  hit ManifestRenamed;;
  count directory_syncs 1;;
  hit ManifestDirectorySynced;;
  update (fun s => s <| s_wal := mf_wal_id manifest |> <| s_wal_len := 0 |>
                     <| s_manifest := manifest |> <| s_tables := tables |>
                     <| s_mem := ∅ |> <| s_mem_bytes := 0 |>);;
  reclaim.

Definition flush_inner : L unit :=
  s ← state;
  if s_applied s =? mf_applied (s_manifest s) then mret tt else
  '(added, next) ← create_tables (s_manifest s) 0 (map IoOk (mem_rows s)) false;
  publish (next <| mf_tables := mf_tables next ++ added |>).
Definition flush : L unit := mutation flush_inner.

(** ** Compaction *)

Definition at_level (level : N) (tables : list Table) : list Table :=
  filter (fun t => t_level (tb_meta t) = level) tables.
(** [map(|table| table.meta.bytes).sum()] *)
Definition table_bytes (tables : list Table) : N :=
  foldr (fun t total => t_bytes (tb_meta t) + total) 0 tables.
(** [iter().min()], [iter().max()] on keys and [min_by_key] on identities. *)
Definition key_min (keys : list Bytes) : option Bytes :=
  match keys with
  | [] => None
  | k :: rest => Some (fold_left (fun m k => if key_ltb k m then k else m) rest k)
  end.
Definition key_max (keys : list Bytes) : option Bytes :=
  match keys with
  | [] => None
  | k :: rest => Some (fold_left (fun m k => if key_leb m k then k else m) rest k)
  end.
Definition oldest_table (tables : list Table) : option Table :=
  match tables with
  | [] => None
  | t :: rest => Some (fold_left (fun m t => if t_id (tb_meta t) <? t_id (tb_meta m) then t else m) rest t)
  end.

Definition compaction_plan (s : LsmStore) : option (N * gset N) :=
  let l0 := at_level 0 (s_tables s) in
  let level1 := table_bytes (at_level 1 (s_tables s)) in
  '(chosen, destination) ←
    (if l0_trigger (s_options s) <=? len64 l0 then Some (l0, 1)
     else if level1_bytes (s_options s) <? level1 then
       t ← oldest_table (at_level 1 (s_tables s)); Some ([t], 2)
     else None);
  first ← key_min (t_first ∘ tb_meta <$> chosen);
  last ← key_max (t_last ∘ tb_meta <$> chosen);
  let overlapping := filter (fun t => t_level (tb_meta t) = destination
                       /\ meta_overlaps (tb_meta t) first last = true) (s_tables s) in
  Some (destination, list_to_set (t_id ∘ tb_meta <$> chosen ++ overlapping)).

(** The filter over merged records: a deletion is kept while a table outside
    the job may hold an older version of its key. *)
Definition visible (unselected : list TableMeta) (row : Io Cell) : bool :=
  match row with
  | IoErr _ _ => true
  | IoOk record => is_some (c_value record)
                   || existsb (fun t => meta_contains t (c_key record)) unselected
  end.

(** The closure of [compact_once]. *)
Definition compact_inner : L bool :=
  flush_inner;;
  s ← state;
  match compaction_plan s with
  | None => mret false
  | Some (destination, selected) =>
      let is_selected t := bool_decide (t_id t ∈ selected) in
      let input := table_bytes (List.filter (is_selected ∘ tb_meta) (s_tables s)) in
      refuse (max_compaction_input_bytes (s_options s) <? input) OutOfMemory
        "compaction input work limit exceeded";;
      let unselected := List.filter (negb ∘ is_selected) (tb_meta <$> s_tables s) in
      merged ← lift (merge_new (sources s (Some selected) false));
      let rows := List.filter (visible unselected) (merge_source merged) in
      let next := s_manifest s <| mf_tables := List.filter (negb ∘ is_selected)
                                                 (mf_tables (s_manifest s)) |> in
      '(added, next) ← create_tables next destination rows true;
      publish (next <| mf_tables := mf_tables next ++ added |>);;
      count compactions 1;;
      count compaction_input_bytes input;;
      mret true
  end.
Definition compact_once : L bool := mutation compact_inner.
Definition maintain : L bool :=
  healthy;;
  s ← state;
  if is_some (compaction_plan s) then compact_once else mret false.

(** ** Committing and installing *)

Definition file_len (fs : Fs) (name : Name) : Io N :=
  match fs !! name with
  | Some content => mret (len64 content)
  | None => IoErr NotFound "no such file"
  end.

(** The closure of [commit_range]. *)
Definition commit_inner (index : N) (changes : list Mutation) (logical : N) (payload : Bytes) :
    L CommitOutcome :=
  s ← state;
  (if (memtable_bytes (s_options s) <=? s_mem_bytes s)
      || (N.min (memtable_bytes (s_options s) * 4) (32 * 1024 * 1024) <=? s_wal_len s)
   then flush_inner else mret tt);;
  s ← state;
  named ← lift (file_len (s_fs s) (wal_name (s_manifest s)));
  held ← lift (file_len (s_fs s) (Wal (s_wal s)));
  refuse (negb (named =? s_wal_len s) || negb (held =? s_wal_len s)) InvalidData
    "active WAL changed outside its writer";;
  bytes ← lift (frame digest WAL_MAGIC payload);
  update (fun s => s <| s_fs := alter (.++ bytes) (Wal (s_wal s)) (s_fs s) |>
                     <| s_wal_len := s_wal_len s + len64 bytes |>);;
  count wal_bytes (len64 bytes);;
  hit WalWritten;;
  count content_syncs 1;;
  hit WalSynced;;
  update (apply_mem index changes);;
  update (fun s => s <| s_applied := index |> <| s_last_digest := digest payload |>);;
  count commits 1;;
  count logical_bytes logical;;
  mret Applied.

Definition commit_range (first index : N) (changes : list Mutation) : L CommitOutcome :=
  healthy;;
  logical ← lift (validate_changes changes);
  payload ← lift (encode_batch first index changes);
  s ← state;
  if (index =? s_applied s) && (0 <? index) && eqb (digest payload) (s_last_digest s)
  then mret Replay else
  refuse (negb (eqb (checked_add (s_applied s) 1) (Some first))) InvalidInput
    "applied range must start at the next index";;
  mutation (commit_inner index changes logical payload).
(** [StateStore::commit] *)
Definition commit (index : N) (changes : list Mutation) : L CommitOutcome :=
  commit_range index index changes.

Definition by_key (a b : Cell) : Prop := key_le (c_key a) (c_key b).
#[export] Instance by_key_dec : RelDecision by_key.
Proof. intros a b. unfold by_key. apply _. Defined.

Definition install_inner (index : N) (cells : list Mutation) : L unit :=
  s ← state;
  let rows := merge_sort by_key (cell_of index <$> cells) in
  '(tables, next) ← create_tables (s_manifest s <| mf_tables := [] |>) 2 (map IoOk rows) false;
  update (fun s => s <| s_applied := index |> <| s_last_digest := replicate 32 0 |>);;
  publish (next <| mf_tables := tables |>).
Definition install (index : N) (cells : list Mutation) : L unit :=
  lift (validate_install cells);;
  refuse (existsb (fun c => is_none (m_value c)) cells
          || ((index =? 0) && negb (len64 cells =? 0))) InvalidInput
    "snapshot cells must be live at a nonzero boundary";;
  mutation (install_inner index cells).

Definition applied_index (s : LsmStore) : N := s_applied s.

(** [statistics]: the counters with the gauges filled in. *)
Definition statistics (s : LsmStore) : Io Statistics :=
  bytes ← disk_bytes (s_fs s);
  mret (s_stats s <| stat_disk_bytes := bytes |>
          <| tables_per_level := fold_left (fun levels t =>
               alter N.succ (N.to_nat (t_level (tb_meta t))) levels) (s_tables s)
               (tables_per_level (s_stats s)) |>
          <| pending_compaction := is_some (compaction_plan s) |>).

(** ** Opening *)

(** The files a fresh store starts with; the size of its manifest. *)
Definition create_store : St Fs N :=
  fs ← state;
  refuse (existsb owned (read_dir fs)) InvalidData
    "owned files exist without CURRENT; refusing stale/new ambiguity";;
  create_new (wal_name initial_manifest) [];;
  bytes ← lift (frame digest MANIFEST_MAGIC (manifest_json initial_manifest));
  create_new CURRENT_NEW bytes;;
  rename CURRENT_NEW CURRENT;;
  mret (len64 bytes).

Definition load_manifest (content : Bytes) : Io Manifest :=
  if MAX_MANIFEST_BYTES <? len64 content then invalid "manifest too large" else
  read ← read_frame digest content MANIFEST_MAGIC;
  match read with
  | None => invalid "incomplete selected manifest"
  | Some (payload, used, _) =>
      if negb (used =? len64 content) then invalid "manifest trailing bytes" else
      match manifest_parse payload with
      | None => invalid "json"
      | Some manifest => manifest_validate manifest;; mret manifest
      end
  end.

(** The counters of a store that was just opened in an existing directory. *)
Definition open_statistics (fresh : bool) (written : N) : Statistics :=
  default_statistics
    <| directory_syncs := if fresh then 4 else 1 |>
    <| content_syncs := if fresh then 3 else 0 |>
    <| metadata_bytes := if fresh then len64 (identity Disk.Lsm) + written else 0 |>.

(** The end of [open]: the store replays its log and removes obsolete files. *)
Definition finish_open (store : LsmStore) : St Fs LsmStore := fun _ =>
  match (recover_wal;; reclaim) store with
  | (IoOk _, s) => (IoOk s, s_fs s)
  | (IoErr k e, s) => (IoErr k e, s_fs s)
  end.

(** The part of [open] after the directory is initialised. *)
Definition load_store (options : LsmOptions) (fresh : bool) (written : N) : St Fs LsmStore :=
  content ← read_file CURRENT;
  manifest ← lift (load_manifest content);
  fs ← state;
  tables ← lift (open_tables fs (mf_tables manifest));
  read_file (wal_name manifest);;
  finish_open (mkLsmStore fs options manifest tables (mf_wal_id manifest) 0 ∅ 0
    (mf_applied manifest) (mf_last_digest manifest) (open_statistics fresh written) false None).

Definition open (options : LsmOptions) : St Fs LsmStore :=
  lift (options_validate options);;
  fresh ← directory_open Disk.Lsm;
  written ← (if Bool.eqb fresh true then create_store else mret 0);
  load_store options fresh written.
End store.
