(* ===== verification/LsmView.v ===== *)
(** * What a log-structured store represents

    The newest version of a key among a bag of rows, the memtable that a log of
    batches builds, and the map the two represent together. *)
From S2P Require Import Prelude Store Bloom Codec Merge Table TableFacts Disk Lsm.
Local Open Scope N_scope.
Local Open Scope raft_scope.

(** ** The newest version of a key *)

(** A key has at most one version per sequence number. *)
Definition versions_ok (l : list Cell) : Prop :=
  forall r r', r ∈ l -> r' ∈ l -> c_key r = c_key r' -> c_sequence r = c_sequence r' -> r = r'.

Definition newer (acc : option Cell) (r : Cell) : bool :=
  map_or acc true (fun p => c_sequence p <? c_sequence r).
Definition pick (key : Bytes) (acc : option Cell) (r : Cell) : option Cell :=
  if eqb (c_key r) key && newer acc r then Some r else acc.
Definition latest (key : Bytes) (l : list Cell) : option Cell := fold_left (pick key) l None.

(** The same, as a property. *)
Definition is_latest (key : Bytes) (l : list Cell) (o : option Cell) : Prop :=
  match o with
  | Some r => r ∈ l /\ c_key r = key
              /\ forall r', r' ∈ l -> c_key r' = key -> c_sequence r' <= c_sequence r
  | None => forall r, r ∈ l -> c_key r <> key
  end.

Lemma pick_is_latest key l o r :
  is_latest key l o -> is_latest key (l ++ [r]) (pick key o r).
Proof.
  intros H. unfold pick. destruct (eqb (c_key r) key) eqn:Hk; cbn [andb]; bool_inv.
  - destruct o as [p|]; cbn [newer map_or].
    + destruct H as (H1 & H2 & H3). destruct (N.ltb_spec (c_sequence p) (c_sequence r)).
      * split; [set_solver|]. split; [done|].
        intros x [Hx| ->%list_elem_of_singleton]%elem_of_app Hxk; [|lia]. pose proof (H3 x Hx Hxk). lia.
      * split; [set_solver|]. split; [done|].
        intros x [Hx| ->%list_elem_of_singleton]%elem_of_app Hxk; [auto|lia].
    + split; [set_solver|]. split; [done|].
      intros x [Hx| ->%list_elem_of_singleton]%elem_of_app Hxk; [|lia]. by apply H in Hx.
  - destruct o as [p|].
    + destruct H as (H1 & H2 & H3). split; [set_solver|]. split; [done|].
      intros x [Hx| ->%list_elem_of_singleton]%elem_of_app Hxk; [auto|done].
    + intros x [Hx| ->%list_elem_of_singleton]%elem_of_app; [by apply H|done].
Qed.

Lemma latest_is_latest key l : is_latest key l (latest key l).
Proof.
  unfold latest. induction l as [|r l IH] using rev_ind.
  - intros r Hr. by apply not_elem_of_nil in Hr.
  - rewrite fold_left_app. cbn. by apply pick_is_latest.
Qed.

Lemma is_latest_unique key l o o' :
  versions_ok l -> is_latest key l o -> is_latest key l o' -> o = o'.
Proof.
  intros Hv. destruct o as [r|], o' as [r'|]; cbn; [|naive_solver..].
  intros (H1 & H2 & H3) (H4 & H5 & H6). f_equal. apply Hv; [done|done|congruence|].
  pose proof (H3 r' H4 H5). pose proof (H6 r H1 H2). lia.
Qed.
Lemma latest_iff key l o : versions_ok l -> latest key l = o <-> is_latest key l o.
Proof.
  intros Hv. split; [intros <-; apply latest_is_latest|].
  intros H. eapply is_latest_unique; [done|apply latest_is_latest|done].
Qed.

Lemma versions_sub l l' : (forall r, r ∈ l' -> r ∈ l) -> versions_ok l -> versions_ok l'.
Proof. intros Hs Hv r r' H1 H2. apply Hv; auto. Qed.
Lemma is_latest_ext key l l' o :
  (forall r, r ∈ l <-> r ∈ l') -> is_latest key l o -> is_latest key l' o.
Proof. intros He. destruct o; cbn; setoid_rewrite He; done. Qed.
Lemma latest_ext key l l' :
  versions_ok l -> (forall r, r ∈ l <-> r ∈ l') -> latest key l = latest key l'.
Proof.
  intros Hv He. apply latest_iff; [done|]. apply (is_latest_ext key l'); [|apply latest_is_latest].
  intros r. by rewrite He.
Qed.

(** A newer layer hides the rows under it. *)
Definition above (bound : N) (l : list Cell) : Prop := forall r, r ∈ l -> bound < c_sequence r.
Definition below (bound : N) (l : list Cell) : Prop := forall r, r ∈ l -> c_sequence r <= bound.

Lemma is_latest_layers bound key old new o :
  below bound old -> above bound new -> is_latest key new (Some o) ->
  is_latest key (old ++ new) (Some o).
Proof.
  intros Hb Ha (H1 & H2 & H3). split; [set_solver|]. split; [done|].
  intros r [Hr|Hr]%elem_of_app Hk; [|auto]. pose proof (Hb r Hr). pose proof (Ha o H1). lia.
Qed.
Lemma is_latest_app_none key old new o :
  is_latest key old o -> is_latest key new None -> is_latest key (old ++ new) o.
Proof.
  destruct o as [r|]; cbn.
  - intros (H1 & H2 & H3) Hn. split; [set_solver|]. split; [done|].
    intros r' [Hr|Hr]%elem_of_app Hk; [auto|]. by apply Hn in Hr.
  - intros H1 H2 r [Hr|Hr]%elem_of_app; auto.
Qed.
Lemma versions_layers bound old new :
  below bound old -> above bound new -> versions_ok old -> versions_ok new ->
  versions_ok (old ++ new).
Proof.
  intros Hb Ha Ho Hn r r' [H1|H1]%elem_of_app [H2|H2]%elem_of_app Hk Hs; [by apply Ho| | |by apply Hn].
  - pose proof (Hb r H1). pose proof (Ha r' H2). lia.
  - pose proof (Ha r H1). pose proof (Hb r' H2). lia.
Qed.

(** Sorted rows are versions of distinct keys. *)
Lemma sorted_versions l : StronglySorted cell_lt l -> versions_ok l.
Proof.
  intros Hs r r' H1 H2 Hk _. pose proof (proj2 (find_key_spec (c_key r) l r Hs) (conj H1 eq_refl)) as E1.
  pose proof (proj2 (find_key_spec (c_key r) l r' Hs) (conj H2 (eq_sym Hk))) as E2. congruence.
Qed.
Lemma sorted_latest key l : StronglySorted cell_lt l -> latest key l = find_key key l.
Proof.
  intros Hs. apply latest_iff; [by apply sorted_versions|]. destruct (find_key key l) as [r|] eqn:Hf.
  - apply find_key_spec in Hf as [Hr Hk]; [|done]. split; [done|]. split; [done|].
    intros r' Hr' Hk'. enough (r' = r) as -> by done.
    pose proof (proj2 (find_key_spec key l r' Hs) (conj Hr' Hk')) as E1.
    pose proof (proj2 (find_key_spec key l r Hs) (conj Hr Hk)) as E2. congruence.
  - intros r. by apply find_key_none.
Qed.

(** A merge keeps the newest version of every key. *)
Lemma merged_latest key l rows : versions_ok l -> merged l rows -> latest key rows = latest key l.
Proof.
  intros Hv [Hs Hn Hc]. symmetry. apply latest_iff; [done|]. rewrite sorted_latest by done.
  destruct (find_key key rows) as [r|] eqn:Hf.
  - apply find_key_spec in Hf as [Hr Hk]; [|done]. destruct (Hn r Hr) as [H1 H2].
    split; [done|]. split; [done|]. intros r' Hr' Hk'. apply H2; [done|congruence].
  - intros r Hr Hk. destruct (Hc r Hr) as (r' & Hr' & Hk').
    eapply find_key_none; [exact Hf|exact Hr'|congruence].
Qed.
Lemma versions_consistent l : versions_ok l -> consistent l.
Proof.
  intros Hv r r' [H1 H2] [H3 H4] Hk. f_equal. apply Hv; [done|done|done|].
  pose proof (H2 r' H3 (eq_sym Hk)). pose proof (H4 r H1 Hk). lia.
Qed.

(** ** The memtable *)

(** The map a list of mutations builds. *)
Definition mem_apply (sequence : N) (changes : list Mutation) (m : gmap Bytes Cell) : gmap Bytes Cell :=
  fold_left (fun m c => <[m_key c := cell_of sequence c]> m) changes m.

(** [apply_mem] changes the memtable and its size only. *)
Lemma apply_mem_eq sequence changes s :
  exists bytes, apply_mem sequence changes s
    = s <| s_mem := mem_apply sequence changes (s_mem s) |> <| s_mem_bytes := bytes |>.
Proof.
  unfold apply_mem, mem_apply. revert s. induction changes as [|c rest IH]; intros s; cbn [fold_left].
  - exists (s_mem_bytes s). by destruct s.
  - destruct (IH (apply_change sequence s c)) as [bytes ->]. exists bytes. done.
Qed.

(** Every entry is stored under its key. *)
Definition mem_keys (m : gmap Bytes Cell) : Prop := forall k r, m !! k = Some r -> c_key r = k.

Lemma mem_apply_lookup sequence changes m key :
  NoDup (m_key <$> changes) ->
  mem_apply sequence changes m !! key
  = match List.find (fun c => eqb (m_key c) key) changes with
    | Some c => Some (cell_of sequence c)
    | None => m !! key
    end.
Proof.
  unfold mem_apply. revert m. induction changes as [|c rest IH]; intros m Hnd; cbn [fold_left List.find fmap list_fmap]; [done|].
  apply list.NoDup_cons in Hnd as [Hc Hnd]. rewrite IH by done.
  destruct (List.find _ rest) as [c'|] eqn:Hf.
  - destruct (eqb (m_key c) key) eqn:Hk; [|done]. bool_inv. exfalso. apply Hc.
    apply List.find_some in Hf as [Hin Hk']. apply eqb_true_1 in Hk'.
    apply list_elem_of_fmap. exists c'. split; [congruence|]. by apply list_elem_of_In.
  - destruct (eqb (m_key c) key) eqn:Hk; bool_inv.
    + subst key. by rewrite lookup_insert_eq.
    + by rewrite lookup_insert_ne.
Qed.
Lemma mem_apply_ind (P : gmap Bytes Cell -> Prop) sequence changes m :
  P m -> (forall m c, c ∈ changes -> P m -> P (<[m_key c := cell_of sequence c]> m)) ->
  P (mem_apply sequence changes m).
Proof.
  unfold mem_apply. revert m. induction changes as [|c rest IH]; intros m H0 Hs; cbn [fold_left]; [done|].
  apply IH; [apply Hs; [left|done]|]. intros m' c' Hc'. apply Hs. by right.
Qed.

(** The rows of a memtable. *)
Definition values (m : gmap Bytes Cell) : list Cell := (kmap_iter m).*2.
Lemma elem_of_values m r : r ∈ values m <-> exists k, m !! k = Some r.
Proof.
  unfold values. rewrite list_elem_of_fmap. split.
  - intros ([k r'] & -> & H). apply elem_of_btree_iter in H. by exists k.
  - intros [k H]. exists (k, r). split; [done|]. by apply elem_of_btree_iter.
Qed.
Lemma values_latest m key : mem_keys m -> is_latest key (values m) (m !! key).
Proof.
  intros Hk. destruct (m !! key) as [r|] eqn:Hm; cbn.
  - split; [apply elem_of_values; by exists key|]. split; [by apply Hk|].
    intros r' [k Hr']%elem_of_values E. rewrite (Hk _ _ Hr') in E. subst k.
    rewrite Hr' in Hm. by injection Hm as ->.
  - intros r [k Hr]%elem_of_values E. rewrite (Hk _ _ Hr) in E. congruence.
Qed.
Lemma values_sorted m : mem_keys m -> StronglySorted cell_lt (values m).
Proof.
  intros Hk. unfold values. assert (Hs : StronglySorted (on_fst key_le) (kmap_iter m)).
  { apply StronglySorted_merge_sort; unfold on_fst.
    - intros a b c H1 H2. by etrans.
    - intros a b. apply key_le_total. }
  assert (Hnd : NoDup (kmap_iter m).*1).
  { unfold btree_iter. rewrite merge_sort_Permutation. apply NoDup_fst_map_to_list. }
  assert (Hin : forall k r, (k, r) ∈ kmap_iter m -> c_key r = k).
  { intros k r H. apply elem_of_btree_iter in H. by apply Hk. }
  induction Hs as [|[k r] l Hs IH Hall]; cbn; [constructor|].
  apply list.NoDup_cons in Hnd as [Hn Hnd]. constructor.
  { apply IH; [done|]. intros k' r' H. apply Hin. by right. }
  apply List.Forall_forall. intros r' Hr'. apply in_map_iff in Hr' as ([k2 r2] & <- & H2).
  rewrite List.Forall_forall in Hall. pose proof (Hall _ H2) as Hle. unfold on_fst in Hle. cbn in *.
  rewrite <- list_elem_of_In in H2. unfold cell_lt.
  rewrite (Hin k r ltac:(left)), (Hin k2 r2 ltac:(by right)).
  apply key_le_lt in Hle as [|E]; [done|]. subst k2. exfalso. apply Hn. apply list_elem_of_fmap. by exists (k, r2).
Qed.

(** ** The log *)

Record Batch := mkBatch {
  bt_first : N; bt_index : N; bt_changes : list Mutation; bt_payload : Bytes; bt_frame : Bytes;
}.

Section log.
Context (digest : Bytes -> Bytes) (digest_len : forall b, length (digest b) = 32%nat).

(** A batch as it follows the index [applied] in the log. *)
Record batch_ok (applied : N) (b : Batch) : Prop := {
  bo_first : checked_add applied 1 = Some (bt_first b);
  bo_index : bt_index b <= u64_max;
  bo_payload : encode_batch (bt_first b) (bt_index b) (bt_changes b) = IoOk (bt_payload b);
  bo_frame : frame digest WAL_MAGIC (bt_payload b) = IoOk (bt_frame b);
}.

Fixpoint log_ok (applied : N) (log : list Batch) : Prop :=
  match log with
  | [] => True
  | b :: rest => batch_ok applied b /\ log_ok (bt_index b) rest
  end.
Definition log_bytes (log : list Batch) : Bytes := concat (bt_frame <$> log).
Definition log_applied (applied : N) (log : list Batch) : N :=
  fold_left (fun _ b => bt_index b) log applied.
Definition log_digest (d : Bytes) (log : list Batch) : Bytes :=
  fold_left (fun _ b => digest (bt_payload b)) log d.
Definition log_mem (m : gmap Bytes Cell) (log : list Batch) : gmap Bytes Cell :=
  fold_left (fun m b => mem_apply (bt_index b) (bt_changes b) m) log m.

Lemma batch_facts applied b :
  batch_ok applied b ->
  applied < bt_index b /\ (forall c, c ∈ bt_changes b -> mutation_ok c)
  /\ NoDup (m_key <$> bt_changes b).
Proof.
  intros [Hf Hi Hp _]. apply checked_add_Some in Hf as [Hf _].
  apply encode_batch_inv in Hp as (Hr & [t Ht] & _). apply range_ok in Hr as [Hr _].
  apply changes_ok in Ht as (_ & H1 & H2 & _). split; [lia|done].
Qed.

Lemma log_ok_snoc applied log b :
  log_ok applied (log ++ [b]) <-> log_ok applied log /\ batch_ok (log_applied applied log) b.
Proof.
  revert applied. induction log as [|x log IH]; intros applied; cbn; [naive_solver|].
  rewrite IH. naive_solver.
Qed.
Lemma log_applied_ge applied log : log_ok applied log -> applied <= log_applied applied log.
Proof.
  revert applied. induction log as [|b log IH]; intros applied; [done|]. intros [Hb Hl].
  apply batch_facts in Hb as [Hb _]. apply IH in Hl. cbn. unfold log_applied in *. lia.
Qed.
Lemma log_applied_max applied log :
  applied <= u64_max -> log_ok applied log -> log_applied applied log <= u64_max.
Proof.
  revert applied. induction log as [|b log IH]; intros applied Ha; [done|]. intros [Hb Hl].
  cbn. apply IH; [apply Hb|done].
Qed.

(** What the log leaves in the memtable: valid cells, newer than the tables. *)
Definition mem_ok (low high : N) (m : gmap Bytes Cell) : Prop :=
  forall k r, m !! k = Some r -> c_key r = k /\ cell_ok r /\ low < c_sequence r <= high.

Lemma mem_ok_apply low applied b m :
  low <= applied -> mem_ok low applied m -> batch_ok applied b ->
  mem_ok low (bt_index b) (mem_apply (bt_index b) (bt_changes b) m).
Proof.
  intros Hl Hm Hb. pose proof (batch_facts _ _ Hb) as (Hi & Hc & Hnd). intros k r.
  rewrite mem_apply_lookup by done. destruct (List.find _ _) as [c|] eqn:Hf.
  - intros [= <-]. apply List.find_some in Hf as [Hin Hk]. apply eqb_true_1 in Hk.
    rewrite <- list_elem_of_In in Hin. split; [done|]. split; [|cbn; lia].
    split; [|apply Hb]. rewrite mutation_cell. by apply Hc.
  - intros Hr. destruct (Hm k r Hr) as (H1 & H2 & H3). split; [done|]. split; [done|lia].
Qed.
Lemma log_mem_ok low applied log m :
  low <= applied -> mem_ok low applied m -> log_ok applied log ->
  mem_ok low (log_applied applied log) (log_mem m log).
Proof.
  revert applied m. induction log as [|b log IH]; intros applied m Hl Hm; [done|].
  intros [Hb Hlog]. cbn. pose proof (batch_facts _ _ Hb) as (Hi & _).
  apply IH; [lia| |done]. by apply (mem_ok_apply low applied).
Qed.
Lemma empty_mem_ok applied log : log_ok applied log -> mem_ok applied (log_applied applied log) (log_mem ∅ log).
Proof. intros H. apply log_mem_ok; [done| |done]. intros k r. by rewrite lookup_empty. Qed.
Lemma mem_ok_keys low high m : mem_ok low high m -> mem_keys m.
Proof. intros H k r Hr. by apply H in Hr as (? & _). Qed.
Lemma mem_ok_above low high m : mem_ok low high m -> above low (values m).
Proof. intros H r [k Hr]%elem_of_values. apply H in Hr as (_ & _ & ?). lia. Qed.
Lemma mem_ok_below low high m : mem_ok low high m -> below high (values m).
Proof. intros H r [k Hr]%elem_of_values. apply H in Hr as (_ & _ & ?). lia. Qed.
Lemma mem_ok_cells low high m r : mem_ok low high m -> r ∈ values m -> cell_ok r /\ 0 < c_sequence r.
Proof. intros H [k Hr]%elem_of_values. apply H in Hr as (_ & ? & ?). split; [done|lia]. Qed.
Lemma mem_ok_empty bound m : mem_ok bound bound m -> m = ∅.
Proof.
  intros H. apply map_eq. intros k. rewrite lookup_empty. destruct (m !! k) as [r|] eqn:Hr; [|done].
  apply H in Hr as (_ & _ & ?). lia.
Qed.

(** ** Recovery reads the log back *)

Lemma frame_nonempty applied b : batch_ok applied b -> (76 <= length (bt_frame b))%nat.
Proof.
  intros [_ _ _ Hf]. pose proof (frame_len digest digest_len WAL_MAGIC eq_refl _ _ Hf) as H.
  unfold len64 in H. lia.
Qed.
Lemma log_bytes_len applied log : log_ok applied log -> (length log <= length (log_bytes log))%nat.
Proof.
  revert applied. induction log as [|b log IH]; intros applied; [cbn; lia|]. intros [Hb Hl].
  unfold log_bytes. cbn. rewrite length_app. pose proof (frame_nonempty _ _ Hb). apply IH in Hl.
  unfold log_bytes in Hl. lia.
Qed.

Lemma recover_loop_log fuel log tail s :
  log_ok (s_applied s) log -> read_frame digest tail WAL_MAGIC = IoOk None ->
  (length log < fuel)%nat ->
  exists bytes, recover_loop digest fuel (log_bytes log ++ tail) s
    = (IoOk tt, s <| s_mem := log_mem (s_mem s) log |> <| s_mem_bytes := bytes |>
                  <| s_applied := log_applied (s_applied s) log |>
                  <| s_last_digest := log_digest (s_last_digest s) log |>
                  <| s_wal_len := s_wal_len s + len64 (log_bytes log) |>).
Proof.
  intros Hl Ht. revert fuel s Hl. induction log as [|b log IH]; intros fuel s Hl Hf.
  - destruct fuel as [|fuel]; [cbn in Hf; lia|]. exists (s_mem_bytes s). cbn [recover_loop log_bytes fmap list_fmap concat app].
    unfold mbind at 1, St_bind at 1, lift at 1. rewrite Ht. cbn. rewrite N.add_0_r. by destruct s.
  - destruct fuel as [|fuel]; [cbn in Hf; lia|]. destruct Hl as [Hb Hl]. pose proof Hb as [H1 H2 H3 H4].
    unfold log_bytes. cbn [recover_loop fmap list_fmap concat]. fold (log_bytes log). rewrite <- app_assoc.
    unfold mbind at 1, St_bind at 1, lift at 1.
    rewrite (read_frame_whole digest digest_len WAL_MAGIC eq_refl _ _ _ H4).
    unfold mbind at 1, St_bind at 1, lift at 1. rewrite (decode_encode_batch _ _ _ _ H3 H2).
    unfold mbind, St_bind, state, refuse, update. rewrite H1, eqb_refl. cbn [negb].
    destruct (apply_mem_eq (bt_index b) (bt_changes b) s) as [by1 ->].
    match goal with |- context [recover_loop digest fuel _ ?s1] => set (s2 := s1) end.
    destruct (IH fuel s2) as [bytes Hr]; [exact Hl|cbn in Hf; lia|].
    exists bytes. unfold mbind, St_bind in Hr. rewrite Hr. f_equal. unfold s2. cbn.
    unfold log_bytes. cbn. by rewrite len64_app, N.add_assoc.
Qed.
End log.

(** ** The map a store represents *)

Definition view (rss : list (list Cell)) (m : gmap Bytes Cell) (key : Bytes) : option Bytes :=
  match m !! key with
  | Some r => c_value r
  | None => latest key (concat rss) ≫= c_value
  end.
