(* ===== verification/LsmSafe.v ===== *)
(** * The log-structured store keeps its promises

    The state of a store and of its directory is related to a map and an
    applied index; every operation moves the map as specified, and the
    directory an operation leaves behind when it fails, at whichever point, is
    one that opens to the map before it or to the map after it. *)
From S2P Require Import Prelude Store Bloom Codec Merge Table TableFacts Disk Lsm LsmView.
Local Open Scope N_scope.
Local Open Scope raft_scope.

(** ** The formats a store writes

    An interface: a checksum of the right length, and encodings of the index
    and of the manifest that decode to what was encoded. *)

Class Formats : Type := {
  digest : Bytes -> Bytes;
  footer_json : Footer -> Bytes;
  footer_parse : Bytes -> option Footer;
  manifest_json : Manifest -> Bytes;
  manifest_parse : Bytes -> option Manifest;
}.
Class FormatLaws `{Formats} : Prop := {
  digest_len : forall b, length (digest b) = 32%nat;
  footer_inverse : forall f, footer_parse (footer_json f) = Some f;
  manifest_inverse : forall m, manifest_parse (manifest_json m) = Some m;
}.

(** ** Steps of the store *)

(** Only the directory, the counters and the injected fault differ. *)
Definition same (s s' : LsmStore) : Prop :=
  s' = s <| s_fs := s_fs s' |> <| s_stats := s_stats s' |> <| s_fault := s_fault s' |>.
Lemma same_refl s : same s s.
Proof. by destruct s. Qed.
Lemma same_trans s1 s2 s3 : same s1 s2 -> same s2 s3 -> same s1 s3.
Proof. unfold same. intros H1 H2. rewrite H2, H1. done. Qed.

Section steps.
Implicit Types (s : LsmStore).

Lemma post_hit p (Q : unit -> LsmStore -> Prop) (E : LsmStore -> Prop) s :
  Q tt s -> E (s <| s_fault := None |>) -> post (hit p) Q E s.
Proof. unfold post, hit. by destruct (eqb _ _). Qed.
Lemma post_count p `{!Setter p} n (Q : unit -> LsmStore -> Prop) (E : LsmStore -> Prop) s :
  (forall stats, Q tt (s <| s_stats := stats |>)) -> post (count p n) Q E s.
Proof. intros H. apply H. Qed.
Lemma post_on_fs {A} (m : St Fs A) (Q : A -> LsmStore -> Prop) (E : LsmStore -> Prop) s :
  post m (fun a fs => Q a (s <| s_fs := fs |>)) (fun fs => E (s <| s_fs := fs |>)) (s_fs s) ->
  post (on_fs m) Q E s.
Proof. unfold post, on_fs. by destruct (m (s_fs s)) as [[a|] fs]. Qed.
Lemma post_create_new name content (Q : unit -> Fs -> Prop) (E : Fs -> Prop) fs :
  (fs !! name = None -> Q tt (<[name := content]> fs)) -> E fs -> post (create_new name content) Q E fs.
Proof. unfold post, create_new. destruct (fs !! name); auto. Qed.
Lemma post_read_file name (Q : Bytes -> Fs -> Prop) (E : Fs -> Prop) fs :
  (forall content, fs !! name = Some content -> Q content fs) -> E fs -> post (read_file name) Q E fs.
Proof. unfold post, read_file. destruct (fs !! name); auto. Qed.
Lemma post_rename from to (Q : unit -> Fs -> Prop) (E : Fs -> Prop) fs :
  (forall content, fs !! from = Some content -> Q tt (<[to := content]> (delete from fs))) ->
  E fs -> post (rename from to) Q E fs.
Proof. unfold post, rename. destruct (fs !! from); auto. Qed.
Lemma post_mutation {A} (action : L A) (Q : A -> LsmStore -> Prop) (E : LsmStore -> Prop) s :
  s_poisoned s = false ->
  post action Q (fun s' => E (s' <| s_poisoned := true |>)) s -> post (mutation action) Q E s.
Proof.
  intros Hp. unfold post, mutation, mbind, St_bind, healthy, poison_on_error. rewrite Hp.
  by destruct (action s) as [[a|] s'].
Qed.
End steps.

(** Removing obsolete files: everything else stays. *)
Definition obsolete (live : gset Name) (name : Name) : Prop := owned name = true /\ name ∉ live.

Lemma reclaim_loop_post live changed names s :
  post (reclaim_loop live changed names)
    (fun _ s' => same s s'
       /\ (forall name, ~ obsolete live name -> s_fs s' !! name = s_fs s !! name)
       /\ (forall name, obsolete live name -> name ∈ names -> s_fs s' !! name = None)
       /\ (forall name, s_fs s !! name = None -> s_fs s' !! name = None))
    (fun s' => forall name, ~ obsolete live name -> s_fs s' !! name = s_fs s !! name) s.
Proof.
  revert changed s. induction names as [|x names IH]; intros changed s; cbn [reclaim_loop].
  { apply post_ret. split; [apply same_refl|]. split; [done|]. split; [|done].
    intros name _ H. by apply not_elem_of_nil in H. }
  destruct (owned x && _) eqn:Hb.
  - apply andb_true_iff in Hb as [Ho Hl]. apply negb_true_iff, bool_decide_eq_false in Hl.
    assert (Hx : obsolete live x) by done.
    assert (Hd : forall name, ~ obsolete live name -> delete x (s_fs s) !! name = s_fs s !! name).
    { intros name Hn. apply lookup_delete_ne. intros ->. done. }
    apply post_bind, post_update, post_bind, post_hit; [|exact Hd].
    eapply post_mono; [apply IH| |].
    + intros _ s' (H1 & H2 & H3 & H4). split; [|split; [|split]].
      * unfold same in *. by rewrite H1.
      * intros name Hn. rewrite H2 by done. by apply Hd.
      * intros name Hn [->|Hin]%elem_of_cons; [|by apply H3]. apply H4. apply lookup_delete_eq.
      * intros name Hn. apply H4. apply lookup_delete_None. by right.
    + intros s' H name Hn. rewrite H by done. by apply Hd.
  - eapply post_mono; [apply IH| |done].
    intros _ s' (H1 & H2 & H3 & H4). split; [done|]. split; [done|]. split; [|done].
    intros name [Ho Hl] [->|Hin]%elem_of_cons; [|by apply H3].
    rewrite Ho in Hb. cbn in Hb. apply negb_false_iff, bool_decide_eq_true in Hb. done.
Qed.

Lemma reclaim_post s :
  let live := live_files (s_manifest s) in
  post reclaim
    (fun _ s' => same s s'
       /\ (forall name, ~ obsolete live name -> s_fs s' !! name = s_fs s !! name)
       /\ (forall name, obsolete live name -> s_fs s' !! name = None))
    (fun s' => forall name, ~ obsolete live name -> s_fs s' !! name = s_fs s !! name) s.
Proof.
  cbn zeta. unfold reclaim. apply post_bind, post_state, post_bind.
  eapply post_mono; [apply reclaim_loop_post| |done].
  intros changed s' (H1 & H2 & H3 & H4).
  assert (Hgone : forall name, obsolete (live_files (s_manifest s)) name -> s_fs s' !! name = None).
  { intros name Hn. destruct (s_fs s !! name) as [c|] eqn:Hc; [|by apply H4].
    apply H3; [done|]. apply list_elem_of_fmap. exists (name, c). split; [done|].
    by apply elem_of_map_to_list. }
  destruct (Bool.eqb changed true); [|by apply post_ret].
  apply post_bind, post_count. intros stats. apply post_hit; [|done].
  split; [|done]. eapply same_trans; [exact H1|]. by destruct s'.
Qed.

Section safe.
Context `{Fmt : Formats} `{Laws : !FormatLaws}.

(** ** Tables in the directory *)

(** The open table [t] is backed by its file and holds the rows [rs]. *)
Record table_of (fs : Fs) (t : Table) (rs : list Cell) : Prop := {
  to_file : exists file, fs !! filename (tb_meta t) = Some file
            /\ table_open digest footer_parse file (tb_meta t) = IoOk t;
  to_holds : table_holds digest t (tb_meta t) rs;
  to_meta : meta_describes (tb_meta t) (t_id (tb_meta t)) (t_level (tb_meta t)) rs;
  to_sorted : StronglySorted cell_lt rs;
  to_cells : forall r, r ∈ rs -> cell_ok r /\ 0 < c_sequence r;
}.
Definition stored (fs : Fs) (meta : TableMeta) (rs : list Cell) : Prop :=
  exists t, tb_meta t = meta /\ table_of fs t rs.

Lemma table_of_fs fs fs' t rs :
  (fs !! filename (tb_meta t) <> None -> fs' !! filename (tb_meta t) = fs !! filename (tb_meta t)) ->
  table_of fs t rs -> table_of fs' t rs.
Proof.
  intros He [(file & Hf & Ho) H2 H3 H4 H5]. split; [|done..]. exists file. split; [|done].
  rewrite He; [done|]. by rewrite Hf.
Qed.
Lemma stored_fs fs fs' meta rs :
  (fs !! filename meta <> None -> fs' !! filename meta = fs !! filename meta) ->
  stored fs meta rs -> stored fs' meta rs.
Proof. intros He (t & <- & Ht). exists t. split; [done|]. by apply (table_of_fs fs). Qed.
Lemma stored_list fs fs' metas rss :
  (forall meta, meta ∈ metas -> fs !! filename meta <> None -> fs' !! filename meta = fs !! filename meta) ->
  Forall2 (stored fs) metas rss -> Forall2 (stored fs') metas rss.
Proof.
  intros He H. induction H as [|meta rs metas rss Hm H IH]; constructor.
  - eapply stored_fs; [|exact Hm]. apply He. left.
  - apply IH. intros m Hin. apply He. by right.
Qed.

Lemma tables_fs fs fs' ts rss :
  (forall t, t ∈ ts -> fs' !! filename (tb_meta t) = fs !! filename (tb_meta t)) ->
  Forall2 (table_of fs) ts rss -> Forall2 (table_of fs') ts rss.
Proof.
  intros He H. induction H as [|t rs ts rss Ht H IH]; constructor.
  - eapply table_of_fs; [|exact Ht]. intros _. apply He. left.
  - apply IH. intros m Hin. apply He. by right.
Qed.

(** The metadata bounds the rows. *)
Lemma table_max fs t rs r : table_of fs t rs -> r ∈ rs -> c_sequence r <= t_max_sequence (tb_meta t).
Proof.
  intros [_ _ (_ & _ & _ & _ & _ & _ & _ & ->) _ _] Hr. by apply seq_max_bounds.
Qed.
Lemma table_range fs t rs r : table_of fs t rs -> r ∈ rs -> meta_contains (tb_meta t) (c_key r) = true.
Proof.
  intros [_ _ (_ & _ & _ & _ & Hf & Hl & _ & _) Hs _] Hr. unfold meta_contains.
  destruct (head rs) as [a|] eqn:Ha; [|done]. injection Hf as <-.
  destruct (list.last rs) as [z|] eqn:Hz; [|done]. injection Hl as <-.
  apply andb_true_iff. rewrite !key_leb_le. split.
  - destruct rs as [|x rs]; [done|]. injection Ha as ->. apply elem_of_cons in Hr as [->|Hr]; [done|].
    apply key_lt_le, (sorted_app_lt [a] rs a r); [done|left|done].
  - apply last_Some in Hz as [l ->]. apply elem_of_app in Hr as [Hr|Hr].
    + apply key_lt_le, (sorted_app_lt l [z] r z); [done|done|left].
    + apply list_elem_of_singleton in Hr as ->. done.
Qed.

Lemma open_stored fs metas rss :
  Forall2 (stored fs) metas rss ->
  exists ts, open_tables digest footer_parse fs metas = IoOk ts
    /\ Forall2 (table_of fs) ts rss /\ (tb_meta <$> ts) = metas.
Proof.
  induction 1 as [|meta rs metas rss (t & <- & Ht) H (ts & Ho & Hts & Hm)]; cbn [open_tables].
  - exists []. split; [done|]. split; [constructor|done].
  - destruct (to_file _ _ _ Ht) as (file & Hf & Hopen). rewrite Hf, Hopen. cbn. rewrite Ho. cbn.
    exists (t :: ts). split; [done|]. split; [by constructor|]. cbn. by rewrite Hm.
Qed.
Lemma tables_stored fs ts rss :
  Forall2 (table_of fs) ts rss -> Forall2 (stored fs) (tb_meta <$> ts) rss.
Proof. induction 1; constructor; [|done]. by eexists. Qed.

(** ** The manifest *)

Record valid_manifest (m : Manifest) : Prop := {
  vm_wal : 0 < mf_wal_id m < mf_next_id m;
  vm_tables : forall t, t ∈ mf_tables m ->
    t_id t < mf_next_id m /\ t_id t <> mf_wal_id m /\ t_max_sequence t <= mf_applied m /\ t_level t <= 2;
  vm_ids : NoDup (t_id <$> mf_tables m);
}.

Lemma validate_tables_ok next applied ids tables :
  validate_tables next applied ids tables = IoOk tt ->
  (forall t, t ∈ tables -> t_id t < next /\ (t_id t ∉ ids) /\ t_max_sequence t <= applied /\ t_level t <= 2)
  /\ NoDup (t_id <$> tables).
Proof.
  revert ids. induction tables as [|t tables IH]; intros ids; cbn [validate_tables].
  - intros _. split; [|constructor]. intros t Ht. by apply not_elem_of_nil in Ht.
  - intros H. io_inv. bool_inv. destruct (IH _ H) as [H1' H2']. split.
    + intros x [->|Hx]%elem_of_cons; [split; [lia|]; split; [done|lia]|].
      destruct (H1' x Hx) as (? & Hn & ?). split; [done|]. split; [set_solver|done].
    + cbn. apply list.NoDup_cons. split; [|done]. intros (x & Hid & Hx)%list_elem_of_fmap.
      destruct (H1' x Hx) as (_ & Hn & _). set_solver.
Qed.
Lemma manifest_valid m : manifest_validate m = IoOk tt -> valid_manifest m.
Proof.
  unfold manifest_validate. intros H. destruct (_ || _) eqn:Hb in H; [done|].
  apply Io_bind_Ok in H as ([] & Hv & _). apply validate_tables_ok in Hv as [Hv Hnd].
  bool_inv. split; [lia| |done]. intros t Ht. destruct (Hv t Ht) as (? & Hn & ?). set_solver.
Qed.

(** ** The directory *)

(** The directory holds the manifest [mf], whose tables hold the rows [rss],
    and the log [log], perhaps followed by a torn write [tail]. *)
Record disk_ok (fs : Fs) (mf : Manifest) (rss : list (list Cell)) (log : list Batch) (tail : Bytes) : Prop := {
  dk_engine : fs !! ENGINE = Some (identity Disk.Lsm);
  dk_staged : fs !! ENGINE_NEW = None;
  dk_current : exists bytes, fs !! CURRENT = Some bytes
    /\ frame digest MANIFEST_MAGIC (manifest_json mf) = IoOk bytes /\ len64 bytes <= MAX_MANIFEST_BYTES;
  dk_valid : manifest_validate mf = IoOk tt;
  dk_max : mf_applied mf <= u64_max;
  dk_tables : Forall2 (stored fs) (mf_tables mf) rss;
  dk_versions : versions_ok (concat rss);
  dk_log : log_ok digest (mf_applied mf) log;
  dk_wal : fs !! wal_name mf = Some (log_bytes log ++ tail);
  dk_torn : read_frame digest tail WAL_MAGIC = IoOk None;
  dk_small : len64 (log_bytes log ++ tail) <= 64 * 1024 * 1024;
}.

(** The names the manifest depends on. *)
Definition essential (mf : Manifest) (name : Name) : Prop :=
  name = ENGINE \/ name = ENGINE_NEW \/ name = CURRENT \/ name ∈ live_files mf.

Lemma live_wal mf : wal_name mf ∈ live_files mf.
Proof. unfold live_files. set_solver. Qed.
Lemma live_table mf meta : meta ∈ mf_tables mf -> filename meta ∈ live_files mf.
Proof. intros H. unfold live_files. apply elem_of_list_to_set. right. apply list_elem_of_fmap. by exists meta. Qed.

Lemma disk_ok_fs fs fs' mf rss log tail :
  (forall name, essential mf name -> fs' !! name = fs !! name) ->
  disk_ok fs mf rss log tail -> disk_ok fs' mf rss log tail.
Proof.
  intros He [H1 H2 H3 H4 H5 H6 H7 H8 H9 H10 H11]. unfold essential in He. split; try done.
  - rewrite He; auto.
  - rewrite He; auto.
  - rewrite He; auto.
  - eapply stored_list; [|exact H6]. intros meta Hm _. apply He. right. right. right. by apply live_table.
  - rewrite He; [done|]. right. right. right. apply live_wal.
Qed.

(** Creating files the manifest does not name keeps the directory. *)
Definition extends (fs fs' : Fs) : Prop :=
  fs ⊆ fs' /\ forall name, fs !! name = None -> fs' !! name <> None -> owned name = true.
Lemma extends_refl fs : extends fs fs.
Proof. split; [done|]. congruence. Qed.
Lemma extends_trans fs1 fs2 fs3 : extends fs1 fs2 -> extends fs2 fs3 -> extends fs1 fs3.
Proof.
  intros [H1 H2] [H3 H4]. split; [by etrans|]. intros name Hn Hs.
  destruct (fs2 !! name) as [c|] eqn:Hc; [|by apply H4]. apply H2; [done|]. by rewrite Hc.
Qed.
Lemma extends_insert fs name content :
  fs !! name = None -> owned name = true -> extends fs (<[name := content]> fs).
Proof.
  intros Hn Ho. split; [by apply insert_subseteq|]. intros name' H1 H2.
  destruct (decide (name' = name)) as [->|Hne]; [done|]. by rewrite lookup_insert_ne in H2.
Qed.
Lemma extends_lookup fs fs' name c : extends fs fs' -> fs !! name = Some c -> fs' !! name = Some c.
Proof. intros [H _] Hc. eapply lookup_weaken; eauto. Qed.
Lemma extends_stored fs fs' metas rss :
  extends fs fs' -> Forall2 (stored fs) metas rss -> Forall2 (stored fs') metas rss.
Proof.
  intros He. apply stored_list. intros meta _ Hs. destruct (fs !! filename meta) as [c|] eqn:Hc; [|done].
  by eapply extends_lookup.
Qed.
Lemma disk_ok_extends fs fs' mf rss log tail :
  extends fs fs' -> disk_ok fs mf rss log tail -> disk_ok fs' mf rss log tail.
Proof.
  intros He [H1 H2 (bytes & H3 & H3') H4 H5 H6 H7 H8 H9 H10 H11]. split; try done.
  - by eapply extends_lookup.
  - destruct (fs' !! ENGINE_NEW) as [c|] eqn:Hc; [|done]. destruct He as [_ He].
    specialize (He ENGINE_NEW H2). rewrite Hc in He. by specialize (He ltac:(done)).
  - exists bytes. split; [by eapply extends_lookup|done].
  - by eapply extends_stored.
  - by eapply extends_lookup.
Qed.

(** Rows of the tables are not newer than the manifest. *)
Lemma rows_below fs mf rss :
  Forall2 (stored fs) (mf_tables mf) rss -> manifest_validate mf = IoOk tt ->
  below (mf_applied mf) (concat rss).
Proof.
  intros H Hv. apply manifest_valid in Hv as [_ Hv _]. intros r Hr.
  assert (exists meta rs, meta ∈ mf_tables mf /\ r ∈ rs /\ stored fs meta rs) as (meta & rs & Hm & Hrs & t & Ht & Hto).
  { clear Hv. induction H as [|meta rs metas rss Hs H IH]; [by apply not_elem_of_nil in Hr|].
    cbn in Hr. apply elem_of_app in Hr as [Hr|Hr]; [exists meta, rs; split; [left|done]|].
    destruct (IH Hr) as (m & x & H1 & H2). exists m, x. split; [by right|done]. }
  destruct (Hv meta Hm) as (_ & _ & Hmax & _). pose proof (table_max _ _ _ r Hto Hrs). subst meta. lia.
Qed.
Lemma rows_cells fs metas rss r :
  Forall2 (stored fs) metas rss -> r ∈ concat rss -> cell_ok r /\ 0 < c_sequence r.
Proof.
  induction 1 as [|meta rs metas rss (t & <- & Ht) H IH]; cbn; [intros Hr; by apply not_elem_of_nil in Hr|].
  intros [Hr|Hr]%elem_of_app; [|by apply IH]. by apply (to_cells _ _ _ Ht).
Qed.

(** ** Writing tables *)

Lemma allocate_ok m id m' :
  allocate m = IoOk (id, m') -> id = mf_next_id m /\ m' = m <| mf_next_id := mf_next_id m + 1 |>.
Proof.
  unfold allocate. destruct (checked_add _ _) as [next|] eqn:Hc; [|done].
  apply checked_add_Some in Hc as [-> _]. by intros [= <- <-].
Qed.

(** What writing files changes. *)
Definition wrote (s s' : LsmStore) : Prop := same s s' /\ extends (s_fs s) (s_fs s').
Lemma wrote_refl s : wrote s s.
Proof. split; [apply same_refl|apply extends_refl]. Qed.
Lemma wrote_trans s1 s2 s3 : wrote s1 s2 -> wrote s2 s3 -> wrote s1 s3.
Proof. intros [H1 H2] [H3 H4]. split; [by eapply same_trans|by eapply extends_trans]. Qed.

(** The manifest [m'] differs from [m] in the next identity, which has grown. *)
Definition grown (m m' : Manifest) : Prop :=
  m' = m <| mf_next_id := mf_next_id m' |> /\ mf_next_id m <= mf_next_id m'.
Lemma grown_trans m1 m2 m3 : grown m1 m2 -> grown m2 m3 -> grown m1 m3.
Proof. intros [H1 H2] [H3 H4]. split; [|lia]. rewrite H3, H1. done. Qed.

Lemma create_table_post manifest level rs compaction s :
  0 < mf_next_id manifest -> level <= 2 -> (forall r, r ∈ rs -> cell_ok r) ->
  post (create_table digest footer_json manifest level rs compaction)
    (fun '(meta, manifest') s' => wrote s s' /\ grown manifest manifest'
       /\ stored (s_fs s') meta rs /\ t_level meta = level)
    (fun s' => extends (s_fs s) (s_fs s')) s.
Proof.
  intros Hn Hl Hok. unfold create_table.
  apply post_bind, post_lift; [|intros; apply extends_refl]. intros [id m'] Ha.
  apply allocate_ok in Ha as [-> ->].
  destruct (write_table digest footer_json (mf_next_id manifest) level rs) as [result content] eqn:Hw.
  apply post_bind.
  assert (Hc : post (match content with
                     | Some content => on_fs (create_new (Sst (mf_next_id manifest)) content)
                     | None => mret tt end)
            (fun _ s1 => wrote s s1 /\ forall file, content = Some file ->
               s_fs s1 !! Sst (mf_next_id manifest) = Some file)
            (fun s1 => extends (s_fs s) (s_fs s1)) s).
  { destruct content as [file|]; [|apply post_ret; split; [apply wrote_refl|done]].
    apply post_on_fs, post_create_new; [|apply extends_refl]. intros Hf. split.
    - split; [done|]. by apply extends_insert.
    - intros f [= <-]. apply lookup_insert_eq. }
  eapply post_mono; [exact Hc| |done]. intros _ s1 [[Hs1 He1] Hf1].
  apply post_bind, post_lift; [|done]. intros meta Hr. subst result.
  assert (exists file, content = Some file) as [file ->].
  { revert Hw. unfold write_table. destruct (_ || _); [done|].
    destruct (write_blocks _ _ _ _) as [[]?]; [|done]. destruct (frame _ _ _); [|done].
    destruct (_ <? _); [done|]. destruct (_ <? _); [done|]. intros [= _ <-]. by eexists. }
  assert (Hst : stored (s_fs s1) meta rs /\ t_level meta = level).
  { pose proof (write_table_inv _ _ _ _ _ _ _ Hw) as (_ & _ & Hsort & Hpos & Hmeta & _).
    destruct (write_table_holds digest footer_json footer_parse digest_len footer_inverse _ _ _ _ _ Hw Hok)
      as (t & Ho & Hh); [lia|done|]. pose proof Hh as [Htm _].
    pose proof Hmeta as (Hid & Hlev & _). split; [|done]. exists t. split; [done|]. split.
    - exists file. rewrite Htm. unfold filename. rewrite Hid. split; [by apply Hf1|done].
    - by rewrite Htm.
    - by rewrite Htm, Hid, Hlev.
    - done.
    - intros r Hr. split; [by apply Hok|by apply Hpos]. }
  assert (Hgoal : forall stats, wrote s (s1 <| s_stats := stats |>)).
  { intros stats. split; [|done]. unfold same in *. by rewrite Hs1. }
  apply post_bind. apply (post_mono _ (fun _ s2 => exists stats, s2 = s1 <| s_stats := stats |>) _ (fun _ => False));
    [destruct compaction; apply post_count; eauto| |done].
  intros _ s2 [stats ->]. apply post_bind, post_hit; [|done]. apply post_bind, post_count. intros st2.
  apply post_bind, post_hit; [|done]. apply post_ret. split; [exact (Hgoal st2)|]. split; [|done].
  split; [done|]. cbn. lia.
Qed.

Lemma create_loop_post level compaction rows manifest result batch size rss s :
  0 < mf_next_id manifest -> level <= 2 -> (forall r, r ∈ batch ++ rows -> cell_ok r) ->
  Forall2 (stored (s_fs s)) result rss -> (forall meta, meta ∈ result -> t_level meta = level) ->
  post (create_loop digest footer_json manifest level compaction (map IoOk rows) result batch size)
    (fun '(metas, manifest') s' => wrote s s' /\ grown manifest manifest'
       /\ (forall meta, meta ∈ metas -> t_level meta = level)
       /\ exists rss', Forall2 (stored (s_fs s')) metas rss'
          /\ concat rss' = concat rss ++ batch ++ rows)
    (fun s' => extends (s_fs s) (s_fs s')) s.
Proof.
  revert manifest result batch size rss s.
  induction rows as [|row rows IH]; intros manifest result batch size rss s Hn Hl Hok Hres Hlev;
    cbn [map create_loop].
  - rewrite app_nil_r in *. destruct (N.eqb_spec (len64 batch) 0) as [E|Hne].
    + apply post_ret. assert (batch = []) as -> by (unfold len64 in E; destruct batch; [done|cbn in E; lia]).
      split; [apply wrote_refl|]. split; [split; [by destruct manifest|done]|]. split; [done|].
      exists rss. split; [done|]. by rewrite app_nil_r.
    + apply post_bind. eapply post_mono; [by apply create_table_post|intros [meta m'] s'|done].
      intros (Hw & Hg & Hs & Hlv). apply post_ret. split; [done|]. split; [done|]. split.
      { intros x [Hx| ->%list_elem_of_singleton]%elem_of_app; [by apply Hlev|done]. }
      exists (rss ++ [batch]). split.
      * apply Forall2_app; [|by constructor]. eapply extends_stored; [apply Hw|done].
      * rewrite concat_app. cbn. by rewrite app_nil_r.
  - apply post_bind, post_state, post_bind.
    apply (post_mono _ (fun '(result', m', batch', size') s1 => wrote s s1 /\ grown manifest m'
        /\ (forall meta, meta ∈ result' -> t_level meta = level)
        /\ exists rss', Forall2 (stored (s_fs s1)) result' rss'
           /\ concat rss' ++ batch' = concat rss ++ batch
           /\ (forall r, r ∈ batch' -> r ∈ batch))
      _ (fun s1 => extends (s_fs s) (s_fs s1))); [| |done].
    + destruct (_ && _).
      * apply post_bind. eapply post_mono.
        { apply create_table_post; [done|done|]. intros r Hr. apply Hok, elem_of_app. by left. }
        { intros [meta m'] s' (Hw & Hg & Hs & Hlv). apply post_ret. split; [done|]. split; [done|]. split.
          { intros x [Hx| ->%list_elem_of_singleton]%elem_of_app; [by apply Hlev|done]. }
          exists (rss ++ [batch]). split.
          - apply Forall2_app; [|by constructor]. eapply extends_stored; [apply Hw|done].
          - rewrite concat_app. cbn. rewrite !app_nil_r. split; [done|].
            intros r Hr. by apply not_elem_of_nil in Hr. }
        done.
      * apply post_ret. split; [apply wrote_refl|]. split; [split; [by destruct manifest|done]|].
        split; [done|]. by exists rss.
    + intros [[[result' m'] batch'] size'] s1 (Hw & Hg & Hlv & rss' & Hr' & Hc & Hsub).
      apply post_bind, post_refuse; [intros _; apply Hw|intros _].
      eapply post_mono; [apply (IH m' result' _ _ rss' s1)| |].
      * destruct Hg. lia.
      * done.
      * intros r [[Hr|Hr]%elem_of_app|Hr]%elem_of_app; apply Hok, elem_of_app.
        -- left. by apply Hsub.
        -- right. apply list_elem_of_singleton in Hr as ->. left.
        -- right. by right.
      * done.
      * done.
      * intros [metas m2] s2 (Hw2 & Hg2 & Hlv2 & rss2 & Hr2 & Hc2). split; [by eapply wrote_trans|].
        split; [by eapply grown_trans|]. split; [done|]. exists rss2. split; [done|].
        rewrite Hc2, <- app_assoc. cbn. by rewrite app_assoc, Hc, <- app_assoc.
      * intros s2 He. eapply extends_trans; [apply Hw|done].
Qed.

Lemma create_tables_post manifest level rows compaction s :
  0 < mf_next_id manifest -> level <= 2 -> (forall r, r ∈ rows -> cell_ok r) ->
  post (create_tables digest footer_json manifest level (map IoOk rows) compaction)
    (fun '(metas, manifest') s' => wrote s s' /\ grown manifest manifest'
       /\ (forall meta, meta ∈ metas -> t_level meta = level)
       /\ exists rss, Forall2 (stored (s_fs s')) metas rss /\ concat rss = rows)
    (fun s' => extends (s_fs s) (s_fs s')) s.
Proof.
  intros Hn Hl Hok. unfold create_tables.
  apply (create_loop_post level compaction rows manifest [] [] 0 [] s); try done.
  intros meta Hm. by apply not_elem_of_nil in Hm.
Qed.

(** ** The store *)

Record store_ok (s : LsmStore) (rss : list (list Cell)) (log : list Batch) : Prop := {
  so_disk : disk_ok (s_fs s) (s_manifest s) rss log [];
  so_tables : Forall2 (table_of (s_fs s)) (s_tables s) rss;
  so_metas : (tb_meta <$> s_tables s) = mf_tables (s_manifest s);
  so_wal : s_wal s = mf_wal_id (s_manifest s);
  so_wal_len : s_wal_len s = len64 (log_bytes log);
  so_mem : s_mem s = log_mem ∅ log;
  so_applied : s_applied s = log_applied (mf_applied (s_manifest s)) log;
  so_digest : s_last_digest s = log_digest digest (mf_last_digest (s_manifest s)) log;
  so_options : options_validate (s_options s) = IoOk tt;
  so_clean : forall name, obsolete (live_files (s_manifest s)) name -> s_fs s !! name = None;
}.

Lemma empty_frame : read_frame digest [] WAL_MAGIC = IoOk None.
Proof. done. Qed.
Lemma essential_kept mf name : essential mf name -> ~ obsolete (live_files mf) name.
Proof. unfold essential, obsolete. intros [->|[->|[->|H]]] [Ho Hn]; done. Qed.

(** A directory whose manifest was replaced. *)
Lemma publish_disk fs mf rss bytes :
  fs !! ENGINE = Some (identity Disk.Lsm) -> fs !! ENGINE_NEW = None ->
  frame digest MANIFEST_MAGIC (manifest_json mf) = IoOk bytes -> len64 bytes <= MAX_MANIFEST_BYTES ->
  manifest_validate mf = IoOk tt -> mf_applied mf <= u64_max ->
  Forall2 (stored fs) (mf_tables mf) rss -> versions_ok (concat rss) ->
  fs !! wal_name mf = Some [] ->
  disk_ok (<[CURRENT := bytes]> (delete CURRENT_NEW fs)) mf rss [] [].
Proof.
  intros H1 H2 H3 H4 H5 H6 H7 H8 H9. split; try done.
  - by rewrite lookup_insert_ne, lookup_delete_ne.
  - by rewrite lookup_insert_ne, lookup_delete_ne.
  - exists bytes. by rewrite lookup_insert_eq.
  - eapply stored_list; [|exact H7]. intros meta _ _. by rewrite lookup_insert_ne, lookup_delete_ne.
  - by rewrite lookup_insert_ne, lookup_delete_ne.
Qed.

Lemma publish_post next rss' mf rss log tail s :
  disk_ok (s_fs s) mf rss log tail ->
  Forall2 (stored (s_fs s)) (mf_tables next) rss' -> versions_ok (concat rss') ->
  s_applied s <= u64_max -> options_validate (s_options s) = IoOk tt ->
  post (publish digest footer_parse manifest_json next)
    (fun _ s' => store_ok s' rss' [] /\ s_applied s' = s_applied s /\ s_poisoned s' = s_poisoned s
       /\ s_options s' = s_options s /\ mf_tables (s_manifest s') = mf_tables next)
    (fun s' => disk_ok (s_fs s') mf rss log tail
       \/ exists mf', mf_applied mf' = s_applied s /\ disk_ok (s_fs s') mf' rss' [] []) s.
Proof.
  intros Hold Hnew Hver Happ Hopt. unfold publish.
  apply post_bind, post_lift; [|by left]. intros [id m1] Ha. apply allocate_ok in Ha as [-> ->].
  apply post_bind, post_state.
  set (m2 := upd mf_last_digest _ _).
  assert (Hm2 : mf_tables m2 = mf_tables next /\ mf_applied m2 = s_applied s
                /\ mf_last_digest m2 = s_last_digest s) by done.
  clearbody m2. destruct Hm2 as (Hm2t & Hm2a & Hm2d).
  apply post_bind, post_lift; [|by left]. intros [] Hval.
  apply post_bind, post_on_fs, post_create_new; [|by left]. intros Hfresh.
  set (fs1 := <[wal_name m2 := []]> (s_fs s)).
  assert (He1 : extends (s_fs s) fs1) by (by apply extends_insert).
  assert (Hold1 : disk_ok fs1 mf rss log tail) by (by eapply disk_ok_extends).
  rewrite <- Hm2t in Hnew. apply (extends_stored _ fs1) in Hnew; [|done].
  assert (Hwal1 : fs1 !! wal_name m2 = Some []) by apply lookup_insert_eq.
  clearbody fs1. apply post_bind, post_count. intros st1. apply post_bind, post_hit; [|by left].
  apply post_bind, post_state, post_bind, post_lift; [|by left]. cbn [s_fs upd]. intros ts Hts.
  destruct (open_stored _ _ _ Hnew) as (ts' & Hts' & Htab & Hmeta).
  assert (ts' = ts) as -> by (cbn in Hts; congruence).
  apply post_bind, post_count. intros st2. apply post_bind, post_hit; [|by left].
  apply post_bind, post_lift; [|by left]. intros bytes Hframe.
  apply post_bind, post_refuse; [by left|]. intros Hsize. apply N.ltb_ge in Hsize.
  apply post_bind, post_update. cbn [s_fs upd].
  set (fs2 := <[CURRENT_NEW := bytes]> fs1).
  assert (Hold2 : disk_ok fs2 mf rss log tail).
  { eapply disk_ok_fs; [|exact Hold1]. intros name Hn. unfold fs2. apply lookup_insert_ne.
    intros <-. destruct Hn as [?|[?|[?|Hn]]]; [done..|]. unfold live_files in Hn.
    apply elem_of_list_to_set, elem_of_cons in Hn as [?|Hn]; [done|].
    apply list_elem_of_fmap in Hn as (? & ? & _). done. }
  apply post_bind, post_count. intros st3. apply post_bind, post_hit; [|by left].
  apply post_bind, post_count. intros st4. apply post_bind, post_hit; [|by left].
  apply post_bind, post_on_fs, post_rename; [|by left]. intros content Hcontent.
  change (fs2 !! CURRENT_NEW = Some content) in Hcontent. unfold fs2 in Hcontent.
  rewrite lookup_insert_eq in Hcontent. injection Hcontent as <-.
  set (fs3 := <[CURRENT := bytes]> (delete CURRENT_NEW fs2)).
  assert (Hdisk : disk_ok fs3 m2 rss' [] []).
  { apply publish_disk; try done.
    - apply (dk_engine _ _ _ _ _ Hold2).
    - apply (dk_staged _ _ _ _ _ Hold2).
    - rewrite Hm2a. done.
    - eapply stored_list; [|exact Hnew]. intros meta _ _. unfold fs2. by rewrite lookup_insert_ne.
    - unfold fs2. by rewrite lookup_insert_ne. }
  assert (Htab3 : Forall2 (table_of fs3) ts rss').
  { eapply tables_fs; [|exact Htab]. intros t _. unfold fs3, fs2. by rewrite lookup_insert_ne, lookup_delete_ne, lookup_insert_ne. }
  assert (Hafter : forall (s' : LsmStore), s_fs s' = fs3 ->
            disk_ok (s_fs s') mf rss log tail
            \/ exists mf', mf_applied mf' = s_applied s /\ disk_ok (s_fs s') mf' rss' [] []).
  { intros s' ->. right. by exists m2. }
  apply post_bind, post_hit; [|by apply Hafter].
  apply post_bind, post_count. intros st5. apply post_bind, post_hit; [|by apply Hafter].
  apply post_bind, post_update. eapply post_mono; [apply reclaim_post| |].
  - intros _ s' (Hsame & Hkeep & Hgone).
    assert (Hk : forall name, essential m2 name -> s_fs s' !! name = fs3 !! name).
    { intros name Hn. apply Hkeep. by apply essential_kept. }
    unfold same in Hsame.
    assert (Hproj : s_manifest s' = m2 /\ s_tables s' = ts /\ s_wal s' = mf_wal_id m2 /\ s_wal_len s' = 0
      /\ s_mem s' = ∅ /\ s_applied s' = s_applied s /\ s_last_digest s' = s_last_digest s
      /\ s_options s' = s_options s /\ s_poisoned s' = s_poisoned s) by (rewrite Hsame; done).
    clear Hsame. destruct Hproj as (P1 & P2 & P3 & P4 & P5 & P6 & P7 & P8 & P9).
    split; [|rewrite P1; done]. split; rewrite ?P1, ?P2, ?P3, ?P4, ?P5, ?P6, ?P7, ?P8; try done.
    + by eapply disk_ok_fs.
    + eapply tables_fs; [|exact Htab3]. intros t Ht. apply Hk. right. right. right.
      apply live_table. rewrite <- Hmeta. by apply list_elem_of_fmap_2.
  - intros s' Hkeep. right. exists m2. split; [done|]. eapply disk_ok_fs; [|exact Hdisk].
    intros name Hn. apply Hkeep. cbn [s_manifest upd]. by apply essential_kept.
Qed.

(** ** What a store and a directory represent *)

Definition represents (s : LsmStore) (applied : N) (v : Bytes -> option Bytes) : Prop :=
  s_applied s = applied
  /\ exists rss log, store_ok s rss log /\ forall k, view rss (log_mem ∅ log) k = v k.
Definition recovers (fs : Fs) (applied : N) (v : Bytes -> option Bytes) : Prop :=
  exists mf rss log tail, disk_ok fs mf rss log tail /\ log_applied (mf_applied mf) log = applied
  /\ forall k, view rss (log_mem ∅ log) k = v k.

Lemma represents_recovers s applied v : represents s applied v -> recovers (s_fs s) applied v.
Proof.
  intros (<- & rss & log & Hs & Hv). exists (s_manifest s), rss, log, []. split; [apply Hs|].
  split; [|done]. symmetry. apply Hs.
Qed.
Lemma recovers_extends fs fs' applied v :
  extends fs fs' -> recovers fs applied v -> recovers fs' applied v.
Proof. intros He (mf & rss & log & tail & H & H'). exists mf, rss, log, tail. split; [by eapply disk_ok_extends|done]. Qed.

Lemma store_mem s rss log :
  store_ok s rss log ->
  mem_ok (mf_applied (s_manifest s)) (s_applied s) (s_mem s).
Proof. intros H. rewrite (so_mem _ _ _ H), (so_applied _ _ _ H). apply (empty_mem_ok digest). apply H. Qed.
Lemma store_below s rss log : store_ok s rss log -> below (mf_applied (s_manifest s)) (concat rss).
Proof. intros H. eapply rows_below; apply H. Qed.
Lemma store_max s rss log : store_ok s rss log -> s_applied s <= u64_max.
Proof. intros H. rewrite (so_applied _ _ _ H). apply (log_applied_max digest); apply H. Qed.
Lemma store_next s rss log : store_ok s rss log -> 0 < mf_next_id (s_manifest s).
Proof. intros [H _ _ _ _ _ _ _ _ _]. apply dk_valid, manifest_valid in H as [? _ _]. lia. Qed.

(** *** Flushing *)

Lemma view_empty rss k : view rss ∅ k = latest k (concat rss) ≫= c_value.
Proof. unfold view. by rewrite lookup_empty. Qed.
Lemma flush_view rss m low high :
  below low (concat rss) -> versions_ok (concat rss) -> mem_ok low high m ->
  versions_ok (concat rss ++ values m)
  /\ forall k, (latest k (concat rss ++ values m) ≫= c_value) = view rss m k.
Proof.
  intros Hb Hv Hm. pose proof (mem_ok_keys _ _ _ Hm) as Hk. pose proof (mem_ok_above _ _ _ Hm) as Ha.
  assert (Hall : versions_ok (concat rss ++ values m)).
  { apply (versions_layers low); [done|done|done|]. by apply sorted_versions, values_sorted. }
  split; [done|]. intros k. unfold view. pose proof (values_latest m k Hk) as Hl.
  destruct (m !! k) as [r|] eqn:Hr.
  - assert (latest k (concat rss ++ values m) = Some r) as ->; [|done].
    apply latest_iff; [done|]. by apply (is_latest_layers low).
  - f_equal. apply latest_iff; [done|]. apply is_latest_app_none; [apply latest_is_latest|done].
Qed.

Lemma flush_inner_post s applied v :
  represents s applied v ->
  post (flush_inner digest footer_json footer_parse manifest_json)
    (fun _ s' => (exists rss, store_ok s' rss [] /\ forall k, view rss ∅ k = v k)
       /\ s_applied s' = applied /\ s_poisoned s' = s_poisoned s /\ s_options s' = s_options s)
    (fun s' => recovers (s_fs s') applied v) s.
Proof.
  intros (Happ & rss & log & Hs & Hv). unfold flush_inner. apply post_bind, post_state.
  pose proof (store_mem _ _ _ Hs) as Hmem. pose proof (store_below _ _ _ Hs) as Hbelow.
  destruct (N.eqb_spec (s_applied s) (mf_applied (s_manifest s))) as [E|Hne].
  - apply post_ret. split; [|done]. exists rss. assert (log = []) as ->; [|done].
    pose proof (so_applied _ _ _ Hs) as Ha. pose proof (dk_log _ _ _ _ _ (so_disk _ _ _ Hs)) as Hl.
    destruct log as [|b log]; [done|]. exfalso. destruct Hl as [Hb Hl].
    apply log_applied_ge in Hl. apply batch_facts in Hb as [Hb _]. cbn in Ha. unfold log_applied in Hl. lia.
  - apply post_bind. eapply post_mono; [apply create_tables_post| |].
    + by eapply store_next.
    + done.
    + intros r Hr. by apply (mem_ok_cells _ _ _ r Hmem).
    + intros [added next] s1 ([Hsame Hext] & [Hg1 Hg2] & _ & rss1 & Hst & Hc).
      destruct (flush_view rss (s_mem s) _ _ Hbelow (dk_versions _ _ _ _ _ (so_disk _ _ _ Hs)) Hmem) as [Hver Hview].
      assert (Hproj : s_applied s1 = s_applied s /\ s_options s1 = s_options s /\ s_poisoned s1 = s_poisoned s)
        by (rewrite Hsame; done). destruct Hproj as (P1 & P2 & P3).
      assert (Hcc : concat (rss ++ rss1) = concat rss ++ values (s_mem s)) by (rewrite concat_app, Hc; done).
      assert (Hnv : forall k, view (rss ++ rss1) ∅ k = v k).
      { intros k. rewrite view_empty, Hcc, Hview, (so_mem _ _ _ Hs). apply Hv. }
      eapply post_mono; [apply (publish_post _ (rss ++ rss1) (s_manifest s) rss log [])| |].
      * eapply disk_ok_extends; [exact Hext|]. apply Hs.
      * apply Forall2_app; [|done]. eapply extends_stored; [exact Hext|]. rewrite Hg1. apply Hs.
      * by rewrite Hcc.
      * rewrite P1. by eapply store_max.
      * rewrite P2. apply Hs.
      * intros _ s2 (Hok & Ha2 & Hp2 & Ho2 & _). split; [by exists (rss ++ rss1)|]. by rewrite Ha2, P1, Hp2, P3, Ho2, P2.
      * intros s2 [Hd|(mf' & Ha' & Hd)].
        -- exists (s_manifest s), rss, log, []. split; [done|]. split; [|done]. rewrite <- Happ. symmetry. apply Hs.
        -- exists mf', (rss ++ rss1), [], []. split; [done|]. split; [|done]. cbn. by rewrite Ha', P1.
    + intros s1 Hext. eapply recovers_extends; [exact Hext|]. apply represents_recovers. split; [done|]. by exists rss, log.
Qed.

(** *** Compaction *)

Lemma split_tables fs (f : Table -> bool) ts rss :
  Forall2 (table_of fs) ts rss ->
  exists yes no, Forall2 (table_of fs) (List.filter f ts) yes
  /\ Forall2 (table_of fs) (List.filter (negb ∘ f) ts) no
  /\ forall r, r ∈ concat rss <-> r ∈ concat no \/ r ∈ concat yes.
Proof.
  induction 1 as [|t rs ts rss Ht H (yes & no & Hy & Hn & Hr)].
  - exists [], []. split; [constructor|]. split; [constructor|]. set_solver.
  - cbn [List.filter]. unfold compose at 1. cbn. destruct (f t); cbn.
    + exists (rs :: yes), no. split; [by constructor|]. split; [done|].
      intros r. cbn. rewrite !elem_of_app, Hr. tauto.
    + exists yes, (rs :: no). split; [done|]. split; [by constructor|].
      intros r. cbn. rewrite !elem_of_app, Hr. tauto.
Qed.
Lemma iter_tables fs ts rss : Forall2 (table_of fs) ts rss -> table_iter digest <$> ts = map ok_source rss.
Proof.
  induction 1 as [|t rs ts rss Ht H IH]; [done|]. cbn. rewrite IH.
  destruct (to_holds _ _ _ Ht) as (_ & -> & _). done.
Qed.
Lemma tables_sorted fs ts rss rs : Forall2 (table_of fs) ts rss -> rs ∈ rss -> StronglySorted cell_lt rs.
Proof.
  intros H Hrs. apply list_elem_of_lookup_1 in Hrs as [i Hi].
  destruct (Forall2_lookup_r _ _ _ _ _ H Hi) as (t & _ & Ht). apply Ht.
Qed.
Lemma tables_contain fs ts rss r :
  Forall2 (table_of fs) ts rss -> r ∈ concat rss ->
  existsb (fun t => meta_contains t (c_key r)) (tb_meta <$> ts) = true.
Proof.
  induction 1 as [|t rs ts rss Ht H IH]; cbn; [intros Hr; by apply not_elem_of_nil in Hr|].
  intros [Hr|Hr]%elem_of_app; apply orb_true_iff; [left; by eapply table_range|right; by apply IH].
Qed.

(** The merge of intact runs. *)
Lemma merge_runs runs :
  (forall run, run ∈ runs -> StronglySorted cell_lt run) -> versions_ok (concat runs) ->
  exists m rows, merge_new (map ok_source runs) = IoOk m /\ merge_source m = map IoOk rows
    /\ merged (concat runs) rows.
Proof.
  intros Hs Hv. pose proof (merge_rows_spec runs Hs) as H.
  destruct (merge_rows (map ok_source runs)) as [rows|] eqn:Hm; cbn in H.
  - apply merge_source_rows in Hm as (m & Hm1 & Hm2). exists m, rows. by destruct H.
  - destruct H as [_ H]. destruct H. by apply versions_consistent.
Qed.

(** Dropping a deletion that hides nothing. *)
Definition kept (unselected : list TableMeta) (r : Cell) : bool := visible unselected (IoOk r).
Lemma filter_visible unselected rows :
  List.filter (visible unselected) (map IoOk rows) = map IoOk (List.filter (kept unselected) rows).
Proof.
  induction rows as [|r rows IH]; [done|]. cbn [map List.filter]. unfold kept at 1.
  destruct (visible unselected (IoOk r)); cbn; by rewrite IH.
Qed.

Lemma compaction_view all no yes rows unselected :
  versions_ok all -> (forall r, r ∈ all <-> r ∈ no \/ r ∈ yes) -> merged yes rows ->
  (forall r, r ∈ no -> existsb (fun t => meta_contains t (c_key r)) unselected = true) ->
  versions_ok (no ++ List.filter (kept unselected) rows)
  /\ forall k, (latest k (no ++ List.filter (kept unselected) rows) ≫= c_value) = (latest k all ≫= c_value).
Proof.
  intros Hv Hall Hm Hno. pose proof Hm as [Hs Hnew Hcomp].
  assert (Hsub : forall r, r ∈ no ++ List.filter (kept unselected) rows -> r ∈ all).
  { intros r [Hr|Hr]%elem_of_app; apply Hall; [by left|right].
    rewrite list_elem_of_In in Hr. apply filter_In in Hr as [Hr _]. rewrite <- list_elem_of_In in Hr. apply Hnew in Hr. apply Hr. }
  assert (Hver : versions_ok (no ++ List.filter (kept unselected) rows)) by (by eapply versions_sub).
  split; [done|]. intros k.
  assert (Hrows : forall r, r ∈ yes -> is_latest k all (Some r) -> r ∈ rows).
  { intros r Hr (H1 & H2 & H3). destruct (Hcomp r Hr) as (r' & Hr' & Hk). enough (r' = r) as -> by done.
    destruct (Hnew r' Hr') as [Hy Hmax]. apply Hv; [apply Hall; by right|done|done|].
    pose proof (Hmax r Hr (eq_sym Hk)). pose proof (H3 r' ltac:(apply Hall; by right) ltac:(congruence)). lia. }
  destruct (latest k all) as [r|] eqn:Hl; apply latest_iff in Hl; [|done| |done].
  - pose proof Hl as (Hr & Hk & Hmax).
    assert (Hstay : r ∈ no ++ List.filter (kept unselected) rows ->
                    latest k (no ++ List.filter (kept unselected) rows) = Some r).
    { intros Hin. apply latest_iff; [done|]. split; [done|]. split; [done|]. intros r' Hr'. apply Hmax. by apply Hsub. }
    apply Hall in Hr as [Hr|Hr]; [rewrite Hstay; [done|]; apply elem_of_app; by left|].
    pose proof (Hrows r Hr Hl) as Hin. destruct (kept unselected r) eqn:Hkeep.
    + rewrite Hstay; [done|]. apply elem_of_app. right. rewrite list_elem_of_In in *. by apply filter_In.
    + cbn. unfold kept in Hkeep. cbn in Hkeep. apply orb_false_iff in Hkeep as [Hval Hout].
      assert (c_value r = None) as -> by (by destruct (c_value r)).
      assert (latest k (no ++ List.filter (kept unselected) rows) = None) as ->; [|done].
      apply latest_iff; [done|]. intros x [Hx|Hx]%elem_of_app Hxk.
      * apply Hno in Hx. rewrite Hxk, <- Hk in Hx. congruence.
      * rewrite list_elem_of_In in Hx. apply filter_In in Hx as [Hx Hxkeep]. rewrite <- list_elem_of_In in Hx.
        assert (x = r) as ->; [|unfold kept in Hxkeep; cbn in Hxkeep; rewrite Hval, Hout in Hxkeep; done].
        pose proof (proj2 (find_key_spec k rows x Hs) (conj Hx Hxk)).
        pose proof (proj2 (find_key_spec k rows r Hs) (conj Hin Hk)). congruence.
  - assert (latest k (no ++ List.filter (kept unselected) rows) = None) as ->; [|done].
    apply latest_iff; [done|]. intros x Hx. apply Hl. by apply Hsub.
Qed.

Lemma plan_level s destination selected :
  compaction_plan s = Some (destination, selected) -> destination <= 2.
Proof.
  unfold compaction_plan. destruct (_ <=? _).
  - cbn. destruct (key_min _) as [a|]; [|done]. cbn. destruct (key_max _) as [b|]; [|done]. cbn.
    intros [= <- _]. lia.
  - destruct (_ <? _); [|done]. destruct (oldest_table _) as [t|]; [|done]. cbn. intros [= <- _]. lia.
Qed.

Lemma filter_metas (f : TableMeta -> bool) ts :
  List.filter f (tb_meta <$> ts) = tb_meta <$> List.filter (f ∘ tb_meta) ts.
Proof.
  induction ts as [|t ts IH]; [done|]. cbn [fmap list_fmap List.filter]. unfold compose at 1.
  destruct (f (tb_meta t)); cbn; by rewrite <- IH.
Qed.

(** A compaction that did something: the state [s1] after the flush, and how the
    tables changed. *)
Record compacted (s s1 s' : LsmStore) : Prop := {
  cp_flush : flush_inner digest footer_json footer_parse manifest_json s = (IoOk tt, s1);
  cp_before : (tb_meta <$> s_tables s1) = mf_tables (s_manifest s1);
  cp_after : (tb_meta <$> s_tables s') = mf_tables (s_manifest s');
  cp_clean : s_applied s' = mf_applied (s_manifest s');
  cp_tables : exists destination selected added, compaction_plan s1 = Some (destination, selected)
    /\ (forall meta, meta ∈ added -> t_level meta = destination)
    /\ mf_tables (s_manifest s')
       = List.filter (fun t => negb (bool_decide (t_id t ∈ selected))) (mf_tables (s_manifest s1)) ++ added;
}.

Lemma compact_inner_post s applied v :
  represents s applied v ->
  post (compact_inner digest footer_json footer_parse manifest_json)
    (fun again s' => represents s' applied v /\ s_poisoned s' = s_poisoned s
       /\ (again = true -> exists s1, compacted s s1 s'))
    (fun s' => recovers (s_fs s') applied v) s.
Proof.
  intros Hrep. unfold compact_inner. apply post_bind.
  eapply post_mono; [by apply post_traced, flush_inner_post| |done].
  intros [] s1 [((rss & Hs & Hv) & Ha & Hp & Ho) Hflush]. apply post_bind, post_state.
  destruct (compaction_plan s1) as [[destination selected]|] eqn:Hplan.
  2: { apply post_ret. split; [|done]. split; [done|]. by exists rss, []. }
  assert (Hrep1 : represents s1 applied v) by (split; [done|]; by exists rss, []).
  cbv zeta. set (sel := fun t => bool_decide (t_id t ∈ selected)).
  apply post_bind, post_refuse; [intros _; by apply represents_recovers|intros _].
  destruct (split_tables _ (sel ∘ tb_meta) _ _ (so_tables _ _ _ Hs)) as (yes & no & Hyes & Hno & Hall).
  assert (Hsrc : sources digest s1 (Some selected) false = map ok_source yes).
  { unfold sources. cbn [map_or app]. by apply (iter_tables (s_fs s1)). }
  pose proof (dk_versions _ _ _ _ _ (so_disk _ _ _ Hs)) as Hver.
  destruct (merge_runs yes) as (m & rows & Hm & Hitems & Hmerged).
  { intros run Hrun. by apply (tables_sorted _ _ _ _ Hyes). }
  { eapply versions_sub; [|exact Hver]. intros r Hr. apply Hall. by right. }
  apply post_bind, post_lift; rewrite Hsrc, Hm; [|done]. intros m' [= <-].
  rewrite Hitems, filter_visible.
  set (unselected := List.filter (negb ∘ sel) (tb_meta <$> s_tables s1)).
  assert (Huns : unselected = tb_meta <$> List.filter (negb ∘ (sel ∘ tb_meta)) (s_tables s1)) by apply filter_metas.
  destruct (compaction_view (concat rss) (concat no) (concat yes) rows unselected) as [Hver' Hview']; [done|done|done| |].
  { intros r Hr. rewrite Huns. by eapply tables_contain. }
  apply post_bind. eapply post_mono; [apply create_tables_post| |].
  - by apply (store_next _ _ _ Hs).
  - by eapply plan_level.
  - intros r Hr. rewrite list_elem_of_In in Hr. apply filter_In in Hr as [Hr _]. rewrite <- list_elem_of_In in Hr.
    destruct (mr_newest _ _ Hmerged r Hr) as [Hy _].
    eapply (rows_cells (s_fs s1)); [eapply tables_stored; exact Hyes|done].
  - intros [added next] s2 ([Hsame Hext] & [Hg1 Hg2] & Hlev & rss2 & Hst & Hc).
    assert (Hproj : s_applied s2 = s_applied s1 /\ s_options s2 = s_options s1 /\ s_poisoned s2 = s_poisoned s1)
      by (rewrite Hsame; done). destruct Hproj as (P1 & P2 & P3).
    assert (Hcc : concat (no ++ rss2) = concat no ++ List.filter (kept unselected) rows)
      by (rewrite concat_app, Hc; done).
    assert (Hnv : forall k, view (no ++ rss2) ∅ k = v k).
    { intros k. rewrite view_empty, Hcc, Hview', <- view_empty. apply Hv. }
    apply post_bind. eapply post_mono; [apply (publish_post _ (no ++ rss2) (s_manifest s1) rss [] [])| |].
    + eapply disk_ok_extends; [exact Hext|]. apply Hs.
    + rewrite Hg1. apply Forall2_app; [|done]. eapply extends_stored; [exact Hext|].
      change (mf_tables _) with (List.filter (negb ∘ sel) (mf_tables (s_manifest s1))).
      rewrite <- (so_metas _ _ _ Hs). fold unselected. rewrite Huns. by apply tables_stored.
    + by rewrite Hcc.
    + rewrite P1. by eapply store_max.
    + rewrite P2. apply Hs.
    + intros _ s3 (Hok & Ha3 & Hp3 & _ & Hmt). apply post_bind, post_count. intros st1.
      apply post_bind, post_count. intros st2. apply post_ret. split; [|split; [cbn; congruence|]].
      * split; [cbn; congruence|]. exists (no ++ rss2), []. split; [|done].
        by destruct Hok as [? ? ? ? ? ? ? ? ? ?].
      * intros _. exists s1. split; [done|by apply Hs|apply Hok|by apply Hok|].
        exists destination, selected, added. split; [done|]. split; [done|].
        change (mf_tables (s_manifest s3) = List.filter (negb ∘ sel) (mf_tables (s_manifest s1)) ++ added).
        rewrite Hmt, Hg1. done.
    + intros s3 [Hd|(mf' & Ha' & Hd)].
      * exists (s_manifest s1), rss, [], []. split; [done|]. split; [|done]. rewrite <- Ha. symmetry. apply Hs.
      * exists mf', (no ++ rss2), [], []. split; [done|]. split; [|done]. cbn. by rewrite Ha', P1.
  - intros s2 Hext. eapply recovers_extends; [exact Hext|]. by apply represents_recovers.
Qed.

(** *** Committing *)

(** The map after a batch of mutations. *)
Definition put_all (changes : list Mutation) (v : Bytes -> option Bytes) (k : Bytes) : option Bytes :=
  match List.find (fun c => eqb (m_key c) k) changes with
  | Some c => m_value c
  | None => v k
  end.

Lemma commit_view rss m index changes k :
  NoDup (m_key <$> changes) ->
  view rss (mem_apply index changes m) k = put_all changes (view rss m) k.
Proof.
  intros Hnd. unfold view, put_all. rewrite mem_apply_lookup by done.
  by destruct (List.find _ changes) as [c|].
Qed.
Lemma log_mem_snoc m log b : log_mem m (log ++ [b]) = mem_apply (bt_index b) (bt_changes b) (log_mem m log).
Proof. unfold log_mem. by rewrite fold_left_app. Qed.
Lemma log_bytes_snoc log b : log_bytes (log ++ [b]) = log_bytes log ++ bt_frame b.
Proof. unfold log_bytes. rewrite fmap_app, concat_app. cbn. by rewrite app_nil_r. Qed.
Lemma log_applied_snoc applied log b : log_applied applied (log ++ [b]) = bt_index b.
Proof. unfold log_applied. by rewrite fold_left_app. Qed.
Lemma log_digest_snoc d log b : log_digest digest d (log ++ [b]) = digest (bt_payload b).
Proof. unfold log_digest. by rewrite fold_left_app. Qed.

(** Appending a batch to the log. *)
Lemma append_disk fs mf rss log b tail :
  disk_ok fs mf rss log [] -> batch_ok digest (log_applied (mf_applied mf) log) b ->
  read_frame digest tail WAL_MAGIC = IoOk None ->
  len64 (log_bytes log) + len64 (bt_frame b) + len64 tail <= 64 * 1024 * 1024 ->
  disk_ok (alter (.++ (bt_frame b ++ tail)) (wal_name mf) fs) mf rss (log ++ [b]) tail.
Proof.
  intros [H1 H2 H3 H4 H5 H6 H7 H8 H9 H10 H11] Hb Ht Hsmall.
  split; try done; try (rewrite lookup_alter_ne by done; done).
  - eapply stored_list; [|exact H6]. intros meta _ _. by rewrite lookup_alter_ne.
  - by apply log_ok_snoc.
  - rewrite lookup_alter_eq, H9. cbn. by rewrite log_bytes_snoc, app_nil_r, <- app_assoc.
  - rewrite log_bytes_snoc, !len64_app. lia.
Qed.
(** A torn append. *)
Lemma torn_disk fs mf rss log tail :
  disk_ok fs mf rss log [] -> read_frame digest tail WAL_MAGIC = IoOk None ->
  len64 (log_bytes log) + len64 tail <= 64 * 1024 * 1024 ->
  disk_ok (alter (.++ tail) (wal_name mf) fs) mf rss log tail.
Proof.
  intros [H1 H2 H3 H4 H5 H6 H7 H8 H9 H10 H11] Ht Hsmall.
  split; try done; try (rewrite lookup_alter_ne by done; done).
  - eapply stored_list; [|exact H6]. intros meta _ _. by rewrite lookup_alter_ne.
  - rewrite lookup_alter_eq, H9. cbn. by rewrite app_nil_r.
  - rewrite len64_app. lia.
Qed.

(** The log stays within what recovery reads. *)
Lemma wal_bound payload bytes n :
  n < 32 * 1024 * 1024 -> frame digest WAL_MAGIC payload = IoOk bytes ->
  n + len64 bytes <= 64 * 1024 * 1024.
Proof.
  intros Hn Hf. rewrite (frame_len digest digest_len WAL_MAGIC eq_refl _ _ Hf).
  apply (frame_inv digest WAL_MAGIC) in Hf as [Hl _]. unfold MAX_FRAME, MAX_BATCH_BYTES, MAX_BATCH_RECORDS in Hl. lia.
Qed.

Lemma commit_inner_post first index changes logical payload s applied v :
  represents s applied v -> checked_add applied 1 = Some first -> index <= u64_max ->
  encode_batch first index changes = IoOk payload ->
  post (commit_inner digest footer_json footer_parse manifest_json index changes logical payload)
    (fun outcome s' => outcome = Applied /\ represents s' index (put_all changes v)
       /\ s_poisoned s' = s_poisoned s /\ s_last_digest s' = digest payload)
    (fun s' => recovers (s_fs s') applied v \/ recovers (s_fs s') index (put_all changes v)) s.
Proof.
  intros Hrep Hfirst Hidx Henc. unfold commit_inner. apply post_bind, post_state, post_bind.
  apply (post_mono _ (fun _ s1 => represents s1 applied v /\ s_poisoned s1 = s_poisoned s
           /\ s_wal_len s1 < 32 * 1024 * 1024) _ (fun s' => recovers (s_fs s') applied v)).
  { destruct (_ || _) eqn:Hb.
    - eapply post_mono; [by apply flush_inner_post| |done].
      intros _ s1 ((rss & Hs & Hv) & Ha & Hp & Ho). split; [split; [done|by exists rss, []]|].
      split; [done|]. rewrite (so_wal_len _ _ _ Hs). vm_compute. done.
    - apply post_ret. split; [done|]. split; [done|]. apply orb_false_iff in Hb as [_ Hb].
      apply N.leb_gt in Hb. lia. }
  2: { intros s' H. by left. }
  intros _ s1 (Hrep1 & Hp1 & Hlen1). pose proof Hrep1 as (Ha1 & rss & log & Hs & Hv).
  assert (Hstay : recovers (s_fs s1) applied v) by (by apply represents_recovers).
  apply post_bind, post_state, post_bind, post_lift; [|by left]. intros named _.
  apply post_bind, post_lift; [|by left]. intros held _.
  apply post_bind, post_refuse; [by left|intros _].
  apply post_bind, post_lift; [|by left]. intros bytes Hframe.
  set (b := mkBatch first index changes payload bytes).
  assert (Hb : batch_ok digest (log_applied (mf_applied (s_manifest s1)) log) b).
  { rewrite <- (so_applied _ _ _ Hs), Ha1. by split. }
  pose proof (batch_facts _ _ _ Hb) as (_ & _ & Hnd).
  assert (Hdisk : disk_ok (alter (.++ bytes) (Wal (s_wal s1)) (s_fs s1)) (s_manifest s1) rss (log ++ [b]) []).
  { pose proof (append_disk _ _ _ _ b [] (so_disk _ _ _ Hs) Hb empty_frame) as H.
    cbn [bt_frame b] in H. rewrite app_nil_r in H. rewrite (so_wal _ _ _ Hs). apply H.
    rewrite (so_wal_len _ _ _ Hs) in Hlen1. rewrite N.add_0_r. by eapply wal_bound. }
  assert (Hview : forall k, view rss (log_mem ∅ (log ++ [b])) k = put_all changes v k).
  { intros k. rewrite log_mem_snoc, commit_view by done. unfold put_all, b; cbn [bt_changes].
    by destruct (List.find _ changes). }
  assert (Hrec : forall s' : LsmStore, s_fs s' = alter (.++ bytes) (Wal (s_wal s1)) (s_fs s1) ->
            recovers (s_fs s') applied v \/ recovers (s_fs s') index (put_all changes v)).
  { intros s' ->. right. exists (s_manifest s1), rss, (log ++ [b]), []. split; [done|].
    split; [apply log_applied_snoc|done]. }
  apply post_bind, post_update, post_bind, post_count. intros st1. apply post_bind, post_hit; [|by apply Hrec].
  apply post_bind, post_count. intros st2. apply post_bind, post_hit; [|by apply Hrec].
  apply post_bind, post_update. destruct (apply_mem_eq index changes
    (s1 <| s_fs := alter (.++ bytes) (Wal (s_wal s1)) (s_fs s1) |> <| s_wal_len := s_wal_len s1 + len64 bytes |>
        <| s_stats := st1 |> <| s_stats := st2 |>)) as [mb Hmb].
  rewrite Hmb. clear Hmb. apply post_bind, post_update, post_bind, post_count. intros st3.
  apply post_bind, post_count. intros st4. apply post_ret. split; [done|]. split; [|done].
  split; [done|]. exists rss, (log ++ [b]). split; [|done].
  destruct Hs as [S1 S2 S3 S4 S5 S6 S7 S8 S9 S10]. split; cbn; try done.
  - eapply tables_fs; [|exact S2]. intros t _. by rewrite lookup_alter_ne.
  - by rewrite log_bytes_snoc, len64_app, S5.
  - by rewrite log_mem_snoc, S6.
  - by rewrite log_applied_snoc.
  - by rewrite log_digest_snoc.
  - intros name Hn. rewrite lookup_alter_ne; [by apply S10|]. intros <-. destruct Hn as [_ Hn].
    apply Hn. rewrite S4. apply live_wal.
Qed.

(** *** Installing *)

Lemma install_rows index cells :
  NoDup (m_key <$> cells) ->
  let rows := merge_sort by_key (cell_of index <$> cells) in
  StronglySorted cell_lt rows /\ (forall r, r ∈ rows <-> r ∈ cell_of index <$> cells).
Proof.
  intros Hnd. cbn zeta. set (rows := merge_sort by_key (cell_of index <$> cells)).
  assert (Hperm : rows ≡ₚ cell_of index <$> cells) by apply merge_sort_Permutation.
  split; [|intros r; by rewrite Hperm].
  assert (Hs : StronglySorted by_key rows).
  { apply StronglySorted_merge_sort; unfold by_key.
    - intros a b c H1 H2. by etrans.
    - intros a b. apply key_le_total. }
  assert (Hk : NoDup (c_key <$> rows)).
  { rewrite Hperm, <- list_fmap_compose. done. }
  clearbody rows. clear Hperm. induction Hs as [|r l Hs IH Hall]; [constructor|].
  cbn in Hk. apply list.NoDup_cons in Hk as [Hn Hk]. constructor; [by apply IH|].
  apply List.Forall_forall. intros x Hx. rewrite List.Forall_forall in Hall. pose proof (Hall x Hx) as Hle.
  unfold by_key in Hle. apply key_le_lt in Hle as [|E]; [done|]. exfalso. apply Hn. rewrite E.
  apply list_elem_of_fmap. exists x. split; [done|]. by apply list_elem_of_In.
Qed.
Lemma find_cell index cells k :
  NoDup (m_key <$> cells) ->
  (find_key k (merge_sort by_key (cell_of index <$> cells)) ≫= c_value) = put_all cells (fun _ => None) k.
Proof.
  intros Hnd. destruct (install_rows index cells Hnd) as [Hs Hin].
  unfold put_all. destruct (List.find _ cells) as [c|] eqn:Hf.
  - apply List.find_some in Hf as [Hc Hk]. apply eqb_true_1 in Hk. rewrite <- list_elem_of_In in Hc.
    rewrite (proj2 (find_key_spec k _ (cell_of index c) Hs)); [done|]. split; [|done].
    apply Hin. by apply list_elem_of_fmap_2.
  - rewrite (proj2 (find_key_none k _)); [done|]. intros r Hr. apply Hin, list_elem_of_fmap in Hr as (c & -> & Hc).
    rewrite list_elem_of_In in Hc. pose proof (List.find_none _ _ Hf c Hc) as Hn. cbn in Hn. by apply eqb_false_1 in Hn.
Qed.

Lemma install_inner_post index cells s applied v :
  represents s applied v -> index <= u64_max -> NoDup (m_key <$> cells) ->
  (forall c, c ∈ cells -> mutation_ok c) ->
  post (install_inner digest footer_json footer_parse manifest_json index cells)
    (fun _ s' => represents s' index (put_all cells (fun _ => None)) /\ s_poisoned s' = s_poisoned s)
    (fun s' => recovers (s_fs s') applied v \/ recovers (s_fs s') index (put_all cells (fun _ => None))) s.
Proof.
  intros Hrep Hidx Hnd Hok. pose proof Hrep as (Happ & rss & log & Hs & Hv).
  unfold install_inner. apply post_bind, post_state. destruct (install_rows index cells Hnd) as [Hsort Hin].
  set (rows := merge_sort by_key (cell_of index <$> cells)) in *.
  apply post_bind. eapply post_mono; [apply create_tables_post| |].
  - by apply (store_next _ _ _ Hs).
  - done.
  - intros r Hr. apply Hin, list_elem_of_fmap in Hr as (c & -> & Hc). split; [|done].
    rewrite mutation_cell. by apply Hok.
  - intros [metas next] s1 ([Hsame Hext] & _ & _ & rss1 & Hst & Hc).
    assert (Hproj : s_options s1 = s_options s /\ s_poisoned s1 = s_poisoned s) by (rewrite Hsame; done).
    destruct Hproj as (P2 & P3).
    assert (Hnv : forall k, view rss1 ∅ k = put_all cells (fun _ => None) k).
    { intros k. rewrite view_empty, Hc, sorted_latest by done. by apply find_cell. }
    apply post_bind, post_update. eapply post_mono; [apply (publish_post _ rss1 (s_manifest s) rss log [])| |].
    + eapply disk_ok_extends; [exact Hext|]. apply Hs.
    + exact Hst.
    + rewrite Hc. by apply sorted_versions.
    + done.
    + change (options_validate (s_options s1) = IoOk tt). rewrite P2. apply Hs.
    + intros _ s2 (Hs2 & Ha2 & Hp2 & _). split; [|rewrite Hp2; done]. split; [done|]. by exists rss1, [].
    + intros s2 [Hd|(mf' & Ha' & Hd)]; [left|right].
      * exists (s_manifest s), rss, log, []. split; [done|]. split; [|done]. rewrite <- Happ. symmetry. apply Hs.
      * by exists mf', rss1, [], [].
  - intros s1 Hext. left. eapply recovers_extends; [exact Hext|]. by apply represents_recovers.
Qed.

(** *** Reading *)

(** Keeping the newest version while walking the tables. *)
Lemma get_loop_latest fs key ts rss walked newest s :
  Forall2 (table_of fs) ts rss -> versions_ok (walked ++ concat rss) -> is_latest key walked newest ->
  exists o stats, get_loop digest key newest ts s = (IoOk o, s <| s_stats := stats |>)
  /\ is_latest key (walked ++ concat rss) o.
Proof.
  intros H. revert walked newest s. induction H as [|t rs ts rss Ht H IH]; intros walked newest s Hv Hl; cbn [get_loop].
  { exists newest, (s_stats s). split; [by destruct s|]. cbn. by rewrite app_nil_r. }
  cbn [concat] in Hv |- *. rewrite app_assoc in Hv |- *.
  destruct (_ || _) eqn:Hskip.
  - apply IH; [done|]. apply orb_true_iff in Hskip as [Hskip|Hskip].
    + apply is_latest_app_none; [done|]. intros r Hr Hk. apply negb_true_iff in Hskip.
      pose proof (table_range _ _ _ _ Ht Hr). congruence.
    + destruct newest as [p|]; [|done]. cbn in Hskip. apply N.ltb_lt in Hskip. destruct Hl as (H1 & H2 & H3).
      split; [set_solver|]. split; [done|]. intros r [Hr|Hr]%elem_of_app Hk; [auto|].
      pose proof (table_max _ _ _ _ Ht Hr). lia.
  - clear Hskip. destruct (to_holds _ _ _ Ht) as (_ & _ & Hlook). destruct (Hlook key) as (l & Hlk & Hrec).
    unfold mbind at 1, St_bind at 1, lift at 1. rewrite Hlk.
    assert (Hgo : forall s2 newest', is_latest key (walked ++ rs) newest' ->
      (exists stats, s2 = s <| s_stats := stats |>) ->
      exists o stats, get_loop digest key newest' ts s2 = (IoOk o, s <| s_stats := stats |>)
        /\ is_latest key ((walked ++ rs) ++ concat rss) o).
    { intros s2 newest' Hl' [stats0 ->].
      destruct (IH (walked ++ rs) newest' (s <| s_stats := stats0 |>) Hv Hl') as (o & stats & Hg & Ho).
      exists o, stats. split; [exact Hg|done]. }
    unfold mbind, St_bind, count, update. rewrite Hrec. destruct (find_key key rs) as [r|] eqn:Hf.
    + apply find_key_spec in Hf as [Hr Hk]; [|apply Ht].
      assert (Hsame : forall p, newest = Some p -> c_sequence p = c_sequence r -> p = r).
      { intros p -> Hseq. destruct Hl as (H1 & H2 & _). apply Hv; [set_solver|set_solver|congruence|done]. }
      assert (Hrs : forall x, x ∈ rs -> c_key x = key -> x = r).
      { intros x Hx Hxk. pose proof (proj2 (find_key_spec key rs x (to_sorted _ _ _ Ht)) (conj Hx Hxk)).
        pose proof (proj2 (find_key_spec key rs r (to_sorted _ _ _ Ht)) (conj Hr Hk)). congruence. }
      unfold refuse. destruct (is_some_and newest _) eqn:Hc.
      { destruct newest as [p|]; [|done]. cbn in Hc. apply andb_true_iff in Hc as [H1 H2]. bool_inv.
        rewrite (Hsame p) in H2 by done. done. }
      apply Hgo; [|by eexists]. destruct newest as [p|]; cbn [map_or].
      * destruct Hl as (H1 & H2 & H3). destruct (N.ltb_spec (c_sequence p) (c_sequence r)).
        -- split; [set_solver|]. split; [done|]. intros x [Hx|Hx]%elem_of_app Hxk.
           ++ pose proof (H3 x Hx Hxk). lia.
           ++ by rewrite (Hrs x).
        -- split; [set_solver|]. split; [done|]. intros x [Hx|Hx]%elem_of_app Hxk; [auto|]. by rewrite (Hrs x).
      * split; [set_solver|]. split; [done|]. intros x [Hx|Hx]%elem_of_app Hxk; [by apply Hl in Hx|].
        by rewrite (Hrs x).
    + apply Hgo; [|by eexists]. apply is_latest_app_none; [done|]. intros x. by apply find_key_none.
Qed.

Lemma store_versions s rss log :
  store_ok s rss log -> versions_ok (concat rss ++ values (s_mem s))
  /\ forall k, (latest k (concat rss ++ values (s_mem s)) ≫= c_value) = view rss (s_mem s) k.
Proof.
  intros H. eapply flush_view; [by eapply store_below|apply H|by eapply store_mem].
Qed.

Lemma get_correct s applied v key :
  represents s applied v -> s_poisoned s = false ->
  exists stats, get digest key s = (IoOk (v key), s <| s_stats := stats |>).
Proof.
  intros (_ & rss & log & Hs & Hv) Hp. destruct (store_versions _ _ _ Hs) as [Hver Hview].
  assert (Hin : forall r, r ∈ concat rss ++ values (s_mem s) <-> r ∈ values (s_mem s) ++ concat rss).
  { intros r. rewrite !elem_of_app. tauto. }
  assert (Hver' : versions_ok (values (s_mem s) ++ concat rss)).
  { eapply versions_sub; [|exact Hver]. intros r Hr. by apply Hin. }
  destruct (get_loop_latest (s_fs s) key (s_tables s) rss (values (s_mem s)) (s_mem s !! key) s)
    as (o & stats & Hg & Ho).
  - apply Hs.
  - done.
  - apply values_latest. eapply mem_ok_keys. by eapply store_mem.
  - exists stats. unfold get, mbind, St_bind, healthy, state. rewrite Hp. rewrite Hg.
    rewrite <- Hv, <- (so_mem _ _ _ Hs), <- Hview. apply (is_latest_ext _ _ (concat rss ++ values (s_mem s))) in Ho.
    + apply latest_iff in Ho; [|done]. by rewrite Ho.
    + intros r. by rewrite Hin.
Qed.

(** The live rows of a sorted run. *)
Definition live_rows (rows : list Cell) : list (Bytes * Bytes) :=
  omap (fun r => value ← c_value r; Some (c_key r, value)) rows.
Fixpoint rows_bytes (rows : list (Bytes * Bytes)) : N :=
  match rows with
  | [] => 0
  | (k, value) :: rest => len64 k + len64 value + rows_bytes rest
  end.
Definition SCAN_LIMIT : N := 256 * 1024 * 1024.

Lemma scan_loop_rows bytes rows :
  bytes <= SCAN_LIMIT ->
  scan_loop bytes (map IoOk rows)
  = if SCAN_LIMIT <? bytes + rows_bytes (live_rows rows)
    then IoErr OutOfMemory "materialized scan exceeds 256 MiB" else IoOk (live_rows rows).
Proof.
  revert bytes. induction rows as [|r rows IH]; intros bytes Hb; cbn [map scan_loop live_rows omap list_omap].
  { cbn. rewrite N.add_0_r. destruct (N.ltb_spec SCAN_LIMIT bytes); [lia|done]. }
  destruct (c_value r) as [value|]; cbn [mbind option_bind]; [|by apply IH]. cbn [rows_bytes].
  fold (live_rows rows). unfold SCAN_LIMIT in *.
  destruct (N.ltb_spec (256 * 1024 * 1024) (bytes + len64 (c_key r) + len64 value)).
  - destruct (N.ltb_spec (256 * 1024 * 1024)
      (bytes + (len64 (c_key r) + len64 value + rows_bytes (live_rows rows)))); [done|lia].
  - rewrite IH by done. replace (bytes + (len64 (c_key r) + len64 value + rows_bytes (live_rows rows)))
      with (bytes + len64 (c_key r) + len64 value + rows_bytes (live_rows rows)) by lia.
    by destruct (_ <? _).
Qed.

Lemma live_rows_spec rows k value :
  StronglySorted cell_lt rows ->
  (k, value) ∈ live_rows rows <-> (latest k rows ≫= c_value) = Some value.
Proof.
  intros Hs. rewrite sorted_latest by done. unfold live_rows. rewrite list_elem_of_omap. split.
  - intros (r & Hr & H). apply bind_Some in H as (x & Hx & [= <- <-]).
    rewrite (proj2 (find_key_spec (c_key r) rows r Hs)); [done|]. done.
  - intros (r & Hr & Hval)%bind_Some. apply find_key_spec in Hr as [Hr <-]; [|done].
    exists r. split; [done|]. by rewrite Hval.
Qed.
Definition key_before (a b : Bytes * Bytes) : Prop := key_lt a.1 b.1.
Lemma live_rows_sorted rows : StronglySorted cell_lt rows -> StronglySorted key_before (live_rows rows).
Proof.
  induction 1 as [|r rows Hs IH Hall]; [constructor|]. unfold live_rows. cbn.
  destruct (c_value r) as [value|]; cbn; [|done]. constructor; [done|]. apply List.Forall_forall.
  intros [k x] Hx. rewrite <- list_elem_of_In in Hx. apply list_elem_of_omap in Hx as (y & Hy & E).
  apply bind_Some in E as (z & _ & [= <- <-]). rewrite List.Forall_forall in Hall. apply Hall. by apply list_elem_of_In.
Qed.

Lemma scan_correct s applied v :
  represents s applied v -> s_poisoned s = false ->
  exists rows, StronglySorted key_before rows /\ (forall k value, (k, value) ∈ rows <-> v k = Some value)
  /\ scan digest s = (if SCAN_LIMIT <? rows_bytes rows
                      then IoErr OutOfMemory "materialized scan exceeds 256 MiB" else IoOk rows, s).
Proof.
  intros (_ & rss & log & Hs & Hv) Hp. destruct (store_versions _ _ _ Hs) as [Hver Hview].
  assert (Hsrc : sources digest s None true = map ok_source (values (s_mem s) :: rss)).
  { unfold sources. cbn [map_or app]. rewrite forallb_filter_id by (by apply forallb_forall).
    by rewrite (iter_tables (s_fs s) _ _ (so_tables _ _ _ Hs)). }
  assert (Hin : forall r, r ∈ concat rss ++ values (s_mem s) <-> r ∈ concat (values (s_mem s) :: rss)).
  { intros r. cbn. rewrite !elem_of_app. tauto. }
  assert (Hver' : versions_ok (concat (values (s_mem s) :: rss))).
  { eapply versions_sub; [|exact Hver]. intros r Hr. by apply Hin. }
  destruct (merge_runs (values (s_mem s) :: rss)) as (m & rows & Hm & Hitems & Hmerged); [|done|].
  { intros run [->|Hrun]%elem_of_cons; [|by apply (tables_sorted _ _ _ _ (so_tables _ _ _ Hs))].
    apply values_sorted. eapply mem_ok_keys. by eapply store_mem. }
  exists (live_rows rows). split; [apply live_rows_sorted, Hmerged|]. split.
  - intros k value. rewrite live_rows_spec by apply Hmerged.
    rewrite (merged_latest k _ rows Hver' Hmerged), <- (latest_ext k _ _ Hver Hin), Hview, (so_mem _ _ _ Hs).
    by rewrite Hv.
  - unfold scan, mbind, St_bind, healthy, state, lift. rewrite Hp, Hsrc.
    unfold mbind, Io_bind. rewrite Hm, Hitems, scan_loop_rows by (vm_compute; discriminate). done.
Qed.

(** *** Opening *)

Lemma hit_ok p s : s_fault s = None -> hit p s = (IoOk tt, s).
Proof. intros H. unfold hit. by rewrite H. Qed.
Lemma reclaim_loop_ok live changed names s :
  s_fault s = None -> exists c s', reclaim_loop live changed names s = (IoOk c, s') /\ s_fault s' = None.
Proof.
  revert changed s. induction names as [|x names IH]; intros changed s Hf; cbn [reclaim_loop].
  - by exists changed, s.
  - destruct (_ && _); [|by apply IH]. unfold mbind, St_bind, update. rewrite hit_ok by done. by apply IH.
Qed.
Lemma reclaim_ok s :
  s_fault s = None -> exists s', reclaim s = (IoOk tt, s') /\ s_fault s' = None.
Proof.
  intros Hf. unfold reclaim, mbind, St_bind, state.
  destruct (reclaim_loop_ok (live_files (s_manifest s)) false (read_dir (s_fs s)) s Hf) as (c & s' & Hr & Hf').
  rewrite Hr. destruct (Bool.eqb c true); [|by exists s'].
  unfold count, update. rewrite hit_ok by done. by eexists.
Qed.

Lemma recover_wal_ok s mf rss log tail :
  disk_ok (s_fs s) mf rss log tail -> s_manifest s = mf -> s_wal s = mf_wal_id mf ->
  s_wal_len s = 0 -> s_mem s = ∅ -> s_applied s = mf_applied mf -> s_last_digest s = mf_last_digest mf ->
  exists s', recover_wal digest s = (IoOk tt, s')
    /\ disk_ok (s_fs s') mf rss log []
    /\ (forall name, name <> wal_name mf -> s_fs s' !! name = s_fs s !! name)
    /\ s_wal_len s' = len64 (log_bytes log) /\ s_mem s' = log_mem ∅ log
    /\ s_applied s' = log_applied (mf_applied mf) log
    /\ s_last_digest s' = log_digest digest (mf_last_digest mf) log
    /\ s_manifest s' = mf /\ s_wal s' = mf_wal_id mf /\ s_tables s' = s_tables s
    /\ s_options s' = s_options s /\ s_poisoned s' = s_poisoned s /\ s_fault s' = s_fault s.
Proof.
  intros Hd Hm Hw Hl Hmem Ha Hdig. unfold recover_wal. unfold mbind, St_bind, state, on_fs, read_file.
  rewrite Hw. fold (wal_name mf). rewrite (dk_wal _ _ _ _ _ Hd). cbv beta iota zeta.
  unfold refuse. pose proof (dk_small _ _ _ _ _ Hd) as Hsmall.
  destruct (N.ltb_spec (64 * 1024 * 1024) (len64 (log_bytes log ++ tail))); [lia|].
  set (s0 := upd s_fs (s_fs s) s). assert (s0 = s) as -> by (by destruct s).
  destruct (recover_loop_log digest digest_len (S (length (log_bytes log ++ tail))) log tail s) as [mb Hr].
  { rewrite Ha. apply Hd. } { apply Hd. }
  { pose proof (log_bytes_len digest digest_len _ _ (dk_log _ _ _ _ _ Hd)). rewrite length_app. lia. }
  rewrite Hr. cbv beta iota. set (s1 := upd s_wal_len _ _).
  assert (P : s_fs s1 = s_fs s /\ s_wal_len s1 = len64 (log_bytes log) /\ s_mem s1 = log_mem ∅ log
    /\ s_applied s1 = log_applied (mf_applied mf) log
    /\ s_last_digest s1 = log_digest digest (mf_last_digest mf) log /\ s_manifest s1 = mf
    /\ s_wal s1 = mf_wal_id mf /\ s_tables s1 = s_tables s /\ s_options s1 = s_options s
    /\ s_poisoned s1 = s_poisoned s /\ s_fault s1 = s_fault s).
  { unfold s1. cbn. rewrite Hl, Hmem, Ha, Hdig. done. }
  clearbody s1. clear Hr. destruct P as (P1 & P2 & P3 & P4 & P5 & P6 & P7 & P8 & P9 & P10 & P11).
  rewrite P2, len64_app. destruct (N.eqb_spec (len64 (log_bytes log)) (len64 (log_bytes log) + len64 tail)) as [E|Hne]; cbn [negb].
  - assert (tail = []) as -> by (unfold len64 in E; destruct tail; [done|cbn in E; lia]).
    exists s1. rewrite P1. done.
  - eexists. split; [reflexivity|]. cbn. rewrite P1, P2, P7. fold (wal_name mf).
    split; [|split; [|done]].
    + destruct Hd as [H1 H2 H3 H4 H5 H6 H7 H8 H9 H10 H11].
      split; try done; try (rewrite lookup_alter_ne by done; done).
      * eapply stored_list; [|exact H6]. intros meta _ _. by rewrite lookup_alter_ne.
      * rewrite lookup_alter_eq, H9. cbn. rewrite app_nil_r. unfold len64. by rewrite Nat2N.id, take_app_length.
      * rewrite len64_app in *. change (len64 []) with 0. lia.
    + intros name Hn. by rewrite lookup_alter_ne.
Qed.

Lemma load_written mf bytes :
  frame digest MANIFEST_MAGIC (manifest_json mf) = IoOk bytes -> len64 bytes <= MAX_MANIFEST_BYTES ->
  manifest_validate mf = IoOk tt -> load_manifest digest manifest_parse bytes = IoOk mf.
Proof.
  intros Hf Hl Hv. unfold load_manifest. destruct (N.ltb_spec MAX_MANIFEST_BYTES (len64 bytes)); [lia|].
  pose proof (read_frame_whole digest digest_len MANIFEST_MAGIC eq_refl _ _ [] Hf) as Hr.
  rewrite app_nil_r in Hr. rewrite Hr. cbn. rewrite N.eqb_refl, manifest_inverse. cbn. by rewrite Hv.
Qed.

Lemma load_correct fs options fresh written mf rss log tail :
  disk_ok fs mf rss log tail -> options_validate options = IoOk tt ->
  exists s, load_store digest footer_parse manifest_parse options fresh written fs = (IoOk s, s_fs s)
  /\ store_ok s rss log /\ s_manifest s = mf /\ s_poisoned s = false /\ s_fault s = None
  /\ s_options s = options.
Proof.
  intros Hd1 Hopt. destruct (dk_current _ _ _ _ _ Hd1) as (bytes & Hcur & Hframe & Hlen).
  destruct (open_stored _ _ _ (dk_tables _ _ _ _ _ Hd1)) as (ts & Hts & Htab & Hmeta).
  unfold load_store. unfold mbind, St_bind, lift, state, read_file. rewrite Hcur.
  rewrite (load_written mf bytes Hframe Hlen (dk_valid _ _ _ _ _ Hd1)), Hts, (dk_wal _ _ _ _ _ Hd1).
  unfold finish_open. set (s0 := mkLsmStore _ _ _ _ _ _ _ _ _ _ _ _ _).
  destruct (recover_wal_ok s0 mf rss log tail) as (s1 & Hr & Hd2 & Hfs & P2 & P3 & P4 & P5 & P6 & P7 & P8 & P9 & P10 & P11);
    [done..|].
  unfold mbind, St_bind. rewrite Hr. destruct (reclaim_ok s1) as (s2 & Hrec & Hfault); [by rewrite P11|].
  pose proof (reclaim_post s1) as Hpost. cbn zeta in Hpost. unfold post in Hpost. rewrite Hrec in Hpost.
  destruct Hpost as (Hsame & Hkeep & Hgone). rewrite Hrec. exists s2. split; [done|].
  rewrite P6 in Hkeep, Hgone.
  assert (Hk : forall name, essential mf name -> s_fs s2 !! name = s_fs s1 !! name).
  { intros name Hn. apply Hkeep. by apply essential_kept. }
  assert (Q : s_manifest s2 = mf /\ s_tables s2 = ts /\ s_wal s2 = mf_wal_id mf
    /\ s_wal_len s2 = len64 (log_bytes log) /\ s_mem s2 = log_mem ∅ log
    /\ s_applied s2 = log_applied (mf_applied mf) log
    /\ s_last_digest s2 = log_digest digest (mf_last_digest mf) log
    /\ s_options s2 = options /\ s_poisoned s2 = false).
  { unfold same in Hsame. rewrite Hsame. cbn. done. }
  clear Hsame. destruct Q as (Q1 & Q2 & Q3 & Q4 & Q5 & Q6 & Q7 & Q8 & Q9).
  split; [|done]. assert (Hd3 : disk_ok (s_fs s2) mf rss log []) by (by eapply disk_ok_fs).
  split; rewrite ?Q1, ?Q2, ?Q3, ?Q4, ?Q5, ?Q6, ?Q7, ?Q8; try done.
  eapply tables_fs; [|exact Htab]. intros t Ht. rewrite Hk; [by apply Hfs|]. right. right. right.
  apply live_table. rewrite <- Hmeta. by apply list_elem_of_fmap_2.
Qed.

Lemma open_correct fs options applied v :
  recovers fs applied v -> options_validate options = IoOk tt ->
  exists s, open digest footer_parse manifest_json manifest_parse options fs = (IoOk s, s_fs s)
  /\ represents s applied v /\ s_poisoned s = false /\ s_fault s = None /\ s_options s = options.
Proof.
  intros (mf & rss & log & tail & Hd & Happ & Hv) Hopt.
  set (fs1 := match fs !! LOCK with Some _ => fs | None => <[LOCK := []]> fs end).
  assert (Hd1 : disk_ok fs1 mf rss log tail).
  { eapply disk_ok_fs; [|exact Hd]. intros name Hn. unfold fs1. destruct (fs !! LOCK); [done|].
    apply lookup_insert_ne. intros <-.
    destruct Hn as [?|[?|[?|Hn]]]; [done..|]. unfold live_files in Hn.
    apply elem_of_list_to_set, elem_of_cons in Hn as [?|Hn]; [done|].
    apply list_elem_of_fmap in Hn as (? & ? & _). done. }
  destruct (dk_current _ _ _ _ _ Hd1) as (bytes & Hcur & _).
  destruct (load_correct fs1 options false 0 mf rss log tail Hd1 Hopt) as (s & Hl & Hs & Hm & Hs').
  exists s. split; [|split; [|done]].
  - unfold open. unfold mbind, St_bind, lift, directory_open, update, state, mbind, St_bind. rewrite Hopt.
    fold fs1. unfold refuse. rewrite (dk_staged _ _ _ _ _ Hd1), (dk_engine _ _ _ _ _ Hd1).
    cbn [is_some]. rewrite eqb_refl. cbn [negb primary]. rewrite Hcur. cbn [is_none is_some negb].
    cbn [mret St_ret Bool.eqb]. exact Hl.
  - split; [|by exists rss, log]. rewrite (so_applied _ _ _ Hs), Hm. done.
Qed.

(** A new directory. *)
Lemma fresh_correct options s fs :
  open digest footer_parse manifest_json manifest_parse options ∅ = (IoOk s, fs) ->
  fs = s_fs s /\ represents s 0 (fun _ => None) /\ s_poisoned s = false.
Proof.
  unfold open. unfold mbind, St_bind, lift. destruct (options_validate options) as [[]|] eqn:Hopt; [|done].
  replace (directory_open Disk.Lsm ∅)
    with (IoOk true, <[ENGINE := identity Disk.Lsm]> (<[LOCK := []]> ∅) : Fs) by (vm_compute; done).
  cbn [Bool.eqb]. unfold create_store, mbind, St_bind, state, refuse.
  destruct (existsb owned _) eqn:He; [done|]. unfold create_new at 1.
  rewrite lookup_insert_ne, lookup_insert_ne, lookup_empty by done. unfold lift.
  destruct (frame digest MANIFEST_MAGIC (manifest_json initial_manifest)) as [bytes|] eqn:Hf; [|done].
  unfold create_new. rewrite !lookup_insert_ne, lookup_empty by done. unfold rename. rewrite lookup_insert_eq.
  set (fs0 := <[CURRENT_NEW := bytes]> _). cbn [mret St_ret].
  destruct (N.le_gt_cases (len64 bytes) MAX_MANIFEST_BYTES) as [Hlen|Hlen].
  - assert (Hd : disk_ok (<[CURRENT := bytes]> (delete CURRENT_NEW fs0)) initial_manifest [] [] []).
    { apply publish_disk; try done.
      - intros r r' Hr. by apply not_elem_of_nil in Hr. }
    destruct (load_correct _ options true (len64 bytes) _ _ _ _ Hd Hopt) as (s' & Hl & Hs & Hm & Hp & _).
    rewrite Hl. intros [= <- <-]. split; [done|]. split; [|done]. split.
    + rewrite (so_applied _ _ _ Hs), Hm. done.
    + exists [], []. done.
  - unfold load_store, mbind, St_bind, read_file. rewrite lookup_insert_eq.
    unfold load_manifest, lift. destruct (N.ltb_spec MAX_MANIFEST_BYTES (len64 bytes)); [done|lia].
Qed.
End safe.
