(* ===== verification/LsmRefine.v ===== *)
(** * What the log-structured store promises

    The store implements a map with an applied index, through failures and
    crashes, for every implementation of its formats. *)
From S2P Require Import Prelude Store Bloom Codec Merge Table TableFacts Disk Lsm LsmView LsmSafe.
Local Open Scope N_scope.
Local Open Scope raft_scope.

Abbreviation Commit := (commit_range digest footer_json footer_parse manifest_json).
Abbreviation Install := (install digest footer_json footer_parse manifest_json).
Abbreviation Flush := (flush digest footer_json footer_parse manifest_json).
Abbreviation Compact := (compact_once digest footer_json footer_parse manifest_json).
Abbreviation Maintain := (maintain digest footer_json footer_parse manifest_json).
Abbreviation Get := (get digest).
Abbreviation Scan := (scan digest).
Abbreviation Open := (open digest footer_parse manifest_json manifest_parse).

(** A healthy store that represents a map at an applied index. *)
Definition holds `{Formats} (s : LsmStore) (applied : N) (v : Bytes -> option Bytes) : Prop :=
  represents s applied v /\ s_poisoned s = false.
(** A directory that opens to a map at an applied index. *)
Definition opens `{Formats} (fs : Fs) (applied : N) (v : Bytes -> option Bytes) : Prop :=
  recovers fs applied v.
(** What a failed operation leaves: a handle that refuses everything, over a
    directory that opens to one of the two maps. *)
Definition failed `{Formats} (s : LsmStore) (a : N) (v : Bytes -> option Bytes) (a' : N)
    (v' : Bytes -> option Bytes) : Prop :=
  s_poisoned s = true /\ (opens (s_fs s) a v \/ opens (s_fs s) a' v').

Section lemmas.
Context `{Fmt : Formats} `{Laws : !FormatLaws}.

Lemma commit_spec s applied v first index changes :
  holds s applied v -> index <= u64_max ->
  post (Commit first index changes)
    (fun outcome s' =>
       match outcome with
       | Applied => checked_add applied 1 = Some first /\ holds s' index (put_all changes v)
       | Replay => s' = s /\ index = applied
           /\ exists payload, encode_batch first index changes = IoOk payload
              /\ digest payload = s_last_digest s
       end)
    (fun s' => s' = s \/ failed s' applied v index (put_all changes v)) s.
Proof.
  intros [Hrep Hp] Hidx. unfold commit_range.
  apply post_bind. unfold post at 1, healthy. rewrite Hp.
  apply post_bind, post_lift; [|by left]. intros logical _.
  apply post_bind, post_lift; [|by left]. intros payload Henc.
  apply post_bind, post_state. destruct (_ && _) eqn:Hb.
  - apply andb_true_iff in Hb as [Hb Hd]. apply andb_true_iff in Hb as [Hb _]. bool_inv.
    apply post_ret. split; [done|]. split; [rewrite Hb; apply Hrep|]. by exists payload.
  - apply post_bind, post_refuse; [by left|]. intros Hf. bool_inv.
    rewrite (proj1 Hrep) in Hf. apply post_mutation; [done|].
    eapply post_mono; [by apply (commit_inner_post first _ _ _ _ _ applied v)| |].
    + intros outcome s' (-> & Hr & Hp' & _). split; [done|]. split; [done|congruence].
    + intros s' Hrec. right. by split.
Qed.

Lemma install_spec s applied v index cells :
  holds s applied v -> index <= u64_max ->
  post (Install index cells)
    (fun _ s' => holds s' index (put_all cells (fun _ => None)))
    (fun s' => s' = s \/ failed s' applied v index (put_all cells (fun _ => None))) s.
Proof.
  intros [Hrep Hp] Hidx. unfold install. apply post_bind, post_lift; [|by left]. intros total Hval.
  apply post_bind, post_refuse; [by left|intros _]. apply post_mutation; [done|].
  unfold validate_install, validate_mutations in Hval. destruct (_ <? _); [done|].
  apply validate_scan_ok in Hval as (_ & _ & Hok & Hnd); [|vm_compute; discriminate].
  eapply post_mono; [apply (install_inner_post index cells s applied v Hrep Hidx Hnd)| |].
  - intros c Hc. by apply Hok.
  - intros _ s' [Hr Hp']. split; [done|congruence].
  - intros s' Hrec. right. by split.
Qed.

Lemma flush_spec s applied v :
  holds s applied v ->
  post Flush (fun _ s' => holds s' applied v /\ s_mem s' = ∅)
    (fun s' => failed s' applied v applied v) s.
Proof.
  intros [Hrep Hp]. apply post_mutation; [done|].
  eapply post_mono; [by apply flush_inner_post| |].
  - intros _ s' ((rss & Hs & Hv) & Ha & Hp' & _). split; [|apply Hs]. split; [|congruence].
    split; [done|]. by exists rss, [].
  - intros s' Hrec. split; [done|]. by left.
Qed.

Lemma compact_spec s applied v :
  holds s applied v ->
  post Compact
    (fun again s' => holds s' applied v
       /\ (again = true -> exists s1, compacted s s1 s'))
    (fun s' => failed s' applied v applied v) s.
Proof.
  intros [Hrep Hp]. apply post_mutation; [done|].
  eapply post_mono; [by apply compact_inner_post| |].
  - intros again s' (Hr & Hp' & Hc). split; [|done]. split; [done|congruence].
  - intros s' Hrec. split; [done|]. by left.
Qed.

Lemma maintain_spec s applied v :
  holds s applied v ->
  post Maintain (fun _ s' => holds s' applied v) (fun s' => failed s' applied v applied v) s.
Proof.
  intros Hs. pose proof Hs as [Hrep Hp]. unfold maintain. apply post_bind. unfold post at 1, healthy.
  rewrite Hp. apply post_bind, post_state. destruct (is_some _); [|by apply post_ret].
  eapply post_mono; [by apply compact_spec| |done]. by intros again s' [? _].
Qed.

(** A commit that neither meets a fault nor fills the memtable succeeds. *)
Lemma commit_succeeds s applied v first index changes payload :
  holds s applied v -> s_fault s = None -> checked_add applied 1 = Some first ->
  encode_batch first index changes = IoOk payload ->
  s_mem_bytes s < memtable_bytes (s_options s) ->
  s_wal_len s < N.min (memtable_bytes (s_options s) * 4) (32 * 1024 * 1024) ->
  exists s', Commit first index changes s = (IoOk Applied, s').
Proof.
  intros [(Ha & rss & log & Hs & _) Hp] Hf Hfirst Henc Hm Hw.
  unfold commit_range, mbind, St_bind, healthy, lift, state. rewrite Hp.
  pose proof Henc as (Hr & [t Ht] & _)%encode_batch_inv. rewrite Ht, Henc.
  apply range_ok in Hr as [Hr _]. pose proof Hfirst as [Hfa _]%checked_add_Some.
  destruct (N.eqb_spec index (s_applied s)); [lia|]. cbn [andb]. unfold refuse.
  rewrite Ha, Hfirst, eqb_refl. cbn [negb]. unfold mutation, mbind, St_bind, healthy. rewrite Hp.
  unfold poison_on_error, commit_inner, mbind, St_bind, state.
  destruct (N.leb_spec (memtable_bytes (s_options s)) (s_mem_bytes s)); [lia|].
  destruct (N.leb_spec (N.min (memtable_bytes (s_options s) * 4) (32 * 1024 * 1024)) (s_wal_len s)); [lia|].
  cbn [orb mret St_ret]. unfold lift, file_len, refuse.
  pose proof (dk_wal _ _ _ _ _ (so_disk _ _ _ Hs)) as Hwal. rewrite app_nil_r in Hwal.
  rewrite Hwal, (so_wal _ _ _ Hs). fold (wal_name (s_manifest s)). rewrite Hwal. cbn [mret Io_ret].
  rewrite (so_wal_len _ _ _ Hs), N.eqb_refl. cbn [negb orb].
  destruct (frame_fits digest WAL_MAGIC eq_refl payload) as [bytes ->].
  { by eapply encode_batch_len. }
  unfold update, count, update. cbv beta iota. rewrite hit_ok by done. cbv beta iota.
  rewrite hit_ok by done. by eexists.
Qed.

(** ** Compaction makes progress *)

Definition level_count (level : N) (s : LsmStore) : nat :=
  length (filter (fun t => t_level t = level) (mf_tables (s_manifest s))).

Lemma filter_le (P : TableMeta -> Prop) `{!forall x, Decision (P x)} (f : TableMeta -> bool) l :
  (length (filter P (List.filter f l)) <= length (filter P l))%nat.
Proof.
  induction l as [|x l IH]; [done|]. cbn [List.filter]. rewrite (filter_cons _ x l).
  destruct (f x); [rewrite filter_cons|]; destruct (decide (P x)); cbn; lia.
Qed.
Lemma filter_lt (P : TableMeta -> Prop) `{!forall x, Decision (P x)} (f : TableMeta -> bool) l x :
  x ∈ l -> P x -> f x = false -> (length (filter P (List.filter f l)) < length (filter P l))%nat.
Proof.
  intros Hx HP Hf. apply list_elem_of_split in Hx as (l1 & l2 & ->).
  rewrite List.filter_app. cbn [List.filter]. rewrite Hf, !list.filter_app, filter_cons_True by done.
  rewrite !length_app. cbn. pose proof (filter_le P f l1). pose proof (filter_le P f l2). lia.
Qed.

Lemma oldest_in ts t : oldest_table ts = Some t -> t ∈ ts.
Proof.
  destruct ts as [|x ts]; [done|]. cbn [oldest_table]. intros [= <-].
  revert x. induction ts as [|y ts IH]; intros x; cbn [fold_left]; [left|].
  destruct (_ <? _).
  - right. apply IH.
  - specialize (IH x). apply elem_of_cons in IH as [->|IH]; [left|]. right. by right.
Qed.

Lemma plan_cases s1 destination selected :
  compaction_plan s1 = Some (destination, selected) ->
  (destination = 1 /\ at_level 0 (s_tables s1) <> []
   /\ forall t, t ∈ at_level 0 (s_tables s1) -> t_id (tb_meta t) ∈ selected)
  \/ (destination = 2 /\ exists t, t ∈ at_level 1 (s_tables s1) /\ t_id (tb_meta t) ∈ selected).
Proof.
  unfold compaction_plan. intros Hplan. apply bind_Some in Hplan as ([chosen dest] & Hc & Hplan).
  apply bind_Some in Hplan as (first & Hfirst & Hplan). apply bind_Some in Hplan as (last & Hlast & [= <- <-]).
  assert (Hsel : forall t, t ∈ chosen -> forall rest : list Table,
            t_id (tb_meta t) ∈@{gset N} list_to_set (t_id ∘ tb_meta <$> chosen ++ rest)).
  { intros t Ht rest. apply elem_of_list_to_set, list_elem_of_fmap. exists t. split; [done|].
    apply elem_of_app. by left. }
  destruct (_ <=? _).
  - injection Hc as <- <-. left. split; [done|]. split; [by intros E; rewrite E in Hfirst|].
    intros t Ht. by apply Hsel.
  - destruct (_ <? _); [|done]. apply bind_Some in Hc as (t & Ht & [= <- <-]). right. split; [done|].
    exists t. split; [by apply oldest_in|]. apply Hsel. left.
Qed.

(** With nothing to flush, a compaction empties level 0 or shrinks level 1. *)
Lemma compacted_progress s s' :
  s_applied s = mf_applied (s_manifest s) -> (exists s1, compacted s s1 s') ->
  s_applied s' = mf_applied (s_manifest s')
  /\ ((level_count 0 s' < level_count 0 s)%nat
      \/ ((level_count 0 s' <= level_count 0 s)%nat /\ (level_count 1 s' < level_count 1 s)%nat)).
Proof.
  intros Hflat (s1 & [Hflush Hb Ha Hclean (dest & sel & added & Hplan & Hlev & Ht)]). split; [done|].
  assert (s1 = s) as ->.
  { unfold flush_inner, mbind, St_bind, state in Hflush. rewrite Hflat, N.eqb_refl in Hflush. by injection Hflush. }
  unfold level_count. rewrite Ht, !list.filter_app, !length_app.
  assert (Hin : forall level t, t ∈ at_level level (s_tables s) ->
            tb_meta t ∈ mf_tables (s_manifest s) /\ t_level (tb_meta t) = level).
  { intros level t [Hl Hi]%list_elem_of_filter. split; [|done]. rewrite <- Hb. by apply list_elem_of_fmap_2. }
  destruct (plan_cases _ _ _ Hplan) as [(-> & Hne & Hall)|(-> & t & Hlt & Hsel)].
  - left. rewrite (list_filter_none _ added) by (intros x Hx; rewrite (Hlev x Hx); done).
    rewrite (list_filter_none _ (List.filter _ _)); [cbn [length]|].
    + destruct (at_level 0 (s_tables s)) as [|t l] eqn:El; [done|].
      destruct (Hin 0 t) as [H1 H2]; [rewrite El; left|].
      destruct (filter _ (mf_tables (s_manifest s))) eqn:E; [|cbn; lia].
      exfalso. apply (not_elem_of_nil (tb_meta t)). rewrite <- E. by apply list_elem_of_filter.
    + intros x Hx Hl. rewrite list_elem_of_In in Hx. apply filter_In in Hx as [Hx Hns].
      apply negb_true_iff, bool_decide_eq_false in Hns. apply Hns.
      rewrite <- list_elem_of_In, <- Hb in Hx. apply list_elem_of_fmap in Hx as (t & -> & Ht').
      apply Hall. by apply list_elem_of_filter.
  - right. rewrite !(list_filter_none _ added) by (intros x Hx; rewrite (Hlev x Hx); done). cbn [length].
    destruct (Hin 1 t Hlt) as [H1 H2]. split.
    + rewrite Nat.add_0_r. apply filter_le.
    + rewrite Nat.add_0_r. apply (filter_lt _ _ _ (tb_meta t)); [done|done|].
      by apply negb_false_iff, bool_decide_eq_true.
Qed.

(** [compacts s' s]: a compaction of [s] did something and left [s']. *)
Definition compacts (s' s : LsmStore) : Prop := Compact s = (IoOk true, s').

Lemma compacts_holds s s' applied v :
  holds s applied v -> compacts s' s -> holds s' applied v /\ exists s1, compacted s s1 s'.
Proof.
  intros Hs Hc. pose proof (compact_spec s applied v Hs) as Hp. unfold post in Hp. unfold compacts in Hc.
  rewrite Hc in Hp. destruct Hp as [H1 H2]. split; [done|]. by apply H2.
Qed.

Lemma flat_terminates n m s applied v :
  holds s applied v -> s_applied s = mf_applied (s_manifest s) ->
  (level_count 0 s <= n)%nat -> (level_count 1 s <= m)%nat -> Acc compacts s.
Proof.
  revert m s. induction (lt_wf n) as [n _ IHn]. intros m. induction (lt_wf m) as [m _ IHm]. intros s Hs Hflat Hn Hm.
  constructor. intros s' Hc. destruct (compacts_holds _ _ _ _ Hs Hc) as [Hs' Hcp].
  destruct (compacted_progress _ _ Hflat Hcp) as [Hflat' [Hlt|[Hle Hlt]]].
  - apply (IHn (level_count 0 s') ltac:(lia) (level_count 1 s')); done.
  - apply (IHm (level_count 1 s') ltac:(lia)); [done|done|lia|done].
Qed.

(** ** A failed handle *)

Lemma poisoned_mutation {A} (action : L A) s :
  s_poisoned s = true -> exists k e, mutation action s = (IoErr k e, s).
Proof. intros Hp. unfold mutation, mbind, St_bind, healthy. rewrite Hp. by do 2 eexists. Qed.
Lemma poisoned_reads s key :
  s_poisoned s = true ->
  (exists k e, Get key s = (IoErr k e, s)) /\ (exists k e, Scan s = (IoErr k e, s)).
Proof.
  intros Hp. unfold get, scan, mbind, St_bind, healthy. rewrite Hp. split; by do 2 eexists.
Qed.
Lemma poisoned_commit s first index changes :
  s_poisoned s = true -> exists k e, Commit first index changes s = (IoErr k e, s).
Proof. intros Hp. unfold commit_range, mbind, St_bind, healthy. rewrite Hp. by do 2 eexists. Qed.
Lemma poisoned_install s index cells :
  s_poisoned s = true -> exists k e, Install index cells s = (IoErr k e, s).
Proof.
  intros Hp. unfold install, mbind, St_bind, lift, refuse.
  destruct (validate_install cells); [|by do 2 eexists].
  destruct (existsb _ cells || _); [by do 2 eexists|]. by apply poisoned_mutation.
Qed.
Lemma poisoned_maintain s : s_poisoned s = true -> exists k e, Maintain s = (IoErr k e, s).
Proof. intros Hp. unfold maintain, mbind, St_bind, healthy. rewrite Hp. by do 2 eexists. Qed.

Lemma holds_opens s applied v : holds s applied v -> opens (s_fs s) applied v.
Proof. intros [Hs _]. by apply represents_recovers. Qed.
Lemma holds_field s s' applied v :
  holds s applied v -> s' = s <| s_stats := s_stats s' |> <| s_fault := s_fault s' |> -> holds s' applied v.
Proof.
  intros [(Ha & rss & log & [H1 H2 H3 H4 H5 H6 H7 H8 H9 H10] & Hv) Hp] ->.
  split; [|done]. split; [done|]. exists rss, log. split; [|done]. by split.
Qed.
End lemmas.

(** ** The promises *)

(** (C31) The store refines a map with an applied index.  A commit that returns
    [Applied] starts at the next index, moves the index to its end and applies
    its mutations; one that returns [Replay] repeats the last batch and changes
    nothing; and a valid commit at the next index does succeed when no fault is
    injected and the memtable is not full.  An installation replaces the whole
    map.  Flushing, compacting and maintaining change neither map nor index. *)
Theorem lsm_refines `{Fmt : Formats} `{Laws : !FormatLaws} s a v :
  holds s a v ->
  (forall first index changes s', index <= u64_max ->
     (Commit first index changes s = (IoOk Applied, s') ->
        checked_add a 1 = Some first /\ holds s' index (put_all changes v))
     /\ (Commit first index changes s = (IoOk Replay, s') ->
        s' = s /\ index = a /\ exists payload, encode_batch first index changes = IoOk payload
          /\ digest payload = s_last_digest s))
  /\ (forall first index changes payload, s_fault s = None -> checked_add a 1 = Some first ->
     encode_batch first index changes = IoOk payload ->
     s_mem_bytes s < memtable_bytes (s_options s) ->
     s_wal_len s < N.min (memtable_bytes (s_options s) * 4) (32 * 1024 * 1024) ->
     exists s', Commit first index changes s = (IoOk Applied, s'))
  /\ (forall index cells s', index <= u64_max -> Install index cells s = (IoOk tt, s') ->
     holds s' index (put_all cells (fun _ => None)))
  /\ (forall s', Flush s = (IoOk tt, s') -> holds s' a v /\ s_mem s' = ∅)
  /\ (forall again s', Compact s = (IoOk again, s') -> holds s' a v)
  /\ (forall again s', Maintain s = (IoOk again, s') -> holds s' a v).
Proof.
  intros Hs. split; [|split; [|split; [|split; [|split]]]].
  - intros first index changes s' Hi. pose proof (commit_spec s a v first index changes Hs Hi) as H.
    unfold post in H. split; intros E; by rewrite E in H.
  - intros. by eapply commit_succeeds.
  - intros index cells s' Hi E. pose proof (install_spec s a v index cells Hs Hi) as H. unfold post in H. by rewrite E in H.
  - intros s' E. pose proof (flush_spec s a v Hs) as H. unfold post in H. by rewrite E in H.
  - intros again s' E. pose proof (compact_spec s a v Hs) as H. unfold post in H. rewrite E in H. apply H.
  - intros again s' E. pose proof (maintain_spec s a v Hs) as H. unfold post in H. by rewrite E in H.
Qed.

(** (C33) Failures are atomic.  An operation that returns an error, at whichever
    fault point, has either changed nothing, or poisoned the handle over a
    directory that opens to the map before the operation or to the map after
    it; and a poisoned handle refuses every operation and changes nothing. *)
Theorem lsm_failures_atomic `{Fmt : Formats} `{Laws : !FormatLaws} s a v :
  holds s a v ->
  (forall first index changes k e s', index <= u64_max -> Commit first index changes s = (IoErr k e, s') ->
     s' = s \/ failed s' a v index (put_all changes v))
  /\ (forall index cells k e s', index <= u64_max -> Install index cells s = (IoErr k e, s') ->
     s' = s \/ failed s' a v index (put_all cells (fun _ => None)))
  /\ (forall k e s', Flush s = (IoErr k e, s') -> failed s' a v a v)
  /\ (forall k e s', Compact s = (IoErr k e, s') -> failed s' a v a v)
  /\ (forall s' first index changes cells key, s_poisoned s' = true ->
     (exists k e, Commit first index changes s' = (IoErr k e, s'))
     /\ (exists k e, Install index cells s' = (IoErr k e, s'))
     /\ (exists k e, Flush s' = (IoErr k e, s')) /\ (exists k e, Compact s' = (IoErr k e, s'))
     /\ (exists k e, Maintain s' = (IoErr k e, s'))
     /\ (exists k e, Get key s' = (IoErr k e, s')) /\ (exists k e, Scan s' = (IoErr k e, s'))).
Proof.
  intros Hs. split; [|split; [|split; [|split]]].
  - intros first index changes k e s' Hi E. pose proof (commit_spec s a v first index changes Hs Hi) as H.
    unfold post in H. by rewrite E in H.
  - intros index cells k e s' Hi E. pose proof (install_spec s a v index cells Hs Hi) as H. unfold post in H. by rewrite E in H.
  - intros k e s' E. pose proof (flush_spec s a v Hs) as H. unfold post in H. by rewrite E in H.
  - intros k e s' E. pose proof (compact_spec s a v Hs) as H. unfold post in H. by rewrite E in H.
  - intros s' first index changes cells key Hp. destruct (poisoned_reads s' key Hp).
    split; [by apply poisoned_commit|]. split; [by apply poisoned_install|]. split; [by apply poisoned_mutation|].
    split; [by apply poisoned_mutation|]. split; [by apply poisoned_maintain|]. done.
Qed.

(** A healthy store reads what it represents: a point read never fails and
    returns the value of the key, changing only counters; a scan returns the
    live entries in key order, or refuses exactly when they exceed 256 MiB. *)
Theorem lsm_reads `{Fmt : Formats} `{Laws : !FormatLaws} s a v :
  holds s a v ->
  (forall key, exists stats, Get key s = (IoOk (v key), s <| s_stats := stats |>))
  /\ exists rows, StronglySorted key_before rows /\ (forall k value, (k, value) ∈ rows <-> v k = Some value)
     /\ Scan s = (if SCAN_LIMIT <? rows_bytes rows
                  then IoErr OutOfMemory "materialized scan exceeds 256 MiB" else IoOk rows, s).
Proof.
  intros [Hs Hp]. split; [intros key; by eapply get_correct|by eapply scan_correct].
Qed.

(** (C34) Crash recovery.  A crash while a batch is being appended to the log
    leaves some prefix of its frame behind; opening the directory succeeds and
    recovers the map before the commit, or, when the frame is whole, the map
    after it.  In particular reopening a store loses nothing. *)
Theorem lsm_recovers `{Fmt : Formats} `{Laws : !FormatLaws} s a v first index changes payload bytes n options :
  holds s a v -> options_validate options = IoOk tt -> index <= u64_max ->
  checked_add a 1 = Some first -> encode_batch first index changes = IoOk payload ->
  frame digest WAL_MAGIC payload = IoOk bytes -> s_wal_len s < 32 * 1024 * 1024 ->
  exists s', Open options (alter (.++ take n bytes) (Wal (s_wal s)) (s_fs s)) = (IoOk s', s_fs s')
  /\ (if (n <? length bytes)%nat then holds s' a v else holds s' index (put_all changes v)).
Proof.
  intros [(Ha & rss & log & Hs & Hv) Hp] Hopt Hidx Hfirst Henc Hframe Hlen.
  rewrite (so_wal _ _ _ Hs). fold (wal_name (s_manifest s)). rewrite (so_wal_len _ _ _ Hs) in Hlen.
  pose proof (wal_bound payload bytes _ Hlen Hframe) as Hb.
  destruct (Nat.ltb_spec n (length bytes)) as [Hn|Hn].
  - assert (Hrec : recovers (alter (.++ take n bytes) (wal_name (s_manifest s)) (s_fs s)) a v).
    { exists (s_manifest s), rss, log, (take n bytes). split; [|split; [rewrite <- Ha; symmetry; apply Hs|done]].
      apply torn_disk; [apply Hs| |].
      - by apply (read_frame_torn digest digest_len WAL_MAGIC eq_refl payload).
      - unfold len64 in *. rewrite length_take. lia. }
    destruct (open_correct _ options _ _ Hrec Hopt) as (s' & Ho & Hr & Hp' & _). by exists s'.
  - rewrite take_ge by done. set (b := mkBatch first index changes payload bytes).
    assert (Hbo : batch_ok digest (log_applied (mf_applied (s_manifest s)) log) b).
    { rewrite <- (so_applied _ _ _ Hs), Ha. by split. }
    assert (Hrec : recovers (alter (.++ bytes) (wal_name (s_manifest s)) (s_fs s)) index (put_all changes v)).
    { exists (s_manifest s), rss, (log ++ [b]), []. split; [|split; [apply log_applied_snoc|]].
      - pose proof (append_disk _ _ _ _ b [] (so_disk _ _ _ Hs) Hbo empty_frame) as H.
        cbn [bt_frame b] in H. rewrite app_nil_r in H. apply H. rewrite N.add_0_r. done.
      - intros k. rewrite log_mem_snoc, commit_view by (by apply (batch_facts _ _ _ Hbo)).
        unfold put_all, b; cbn [bt_changes]. by destruct (List.find _ changes). }
    destruct (open_correct _ options _ _ Hrec Hopt) as (s' & Ho & Hr & Hp' & _). by exists s'.
Qed.

(** (C35) Compaction terminates: from any represented store, however the data is
    spread over the levels, only finitely many successive compactions can report
    that they did something ([while store.compact_once()? {}] is no endless
    loop).  Each one empties level 0 or takes a table out of level 1. *)
Theorem compaction_terminates `{Fmt : Formats} `{Laws : !FormatLaws} s a v :
  holds s a v -> Acc compacts s.
Proof.
  intros Hs. constructor. intros s' Hc. destruct (compacts_holds _ _ _ _ Hs Hc) as [Hs' [s1 Hcp]].
  eapply flat_terminates; [exact Hs'|apply Hcp|done|done].
Qed.

(** ** Every reachable store *)

(** The stores that a new directory leads to by operations, whatever they
    return, injected faults, and reopening, cleanly or after a failure. *)
Inductive reachable `{Fmt : Formats} : LsmStore -> Prop :=
| reach_fresh options s fs : Open options ∅ = (IoOk s, fs) -> reachable s
| reach_fault p s : reachable s -> reachable (inject_failure p s)
| reach_commit first index changes s :
    reachable s -> index <= u64_max -> reachable (Commit first index changes s).2
| reach_install index cells s :
    reachable s -> index <= u64_max -> reachable (Install index cells s).2
| reach_flush s : reachable s -> reachable (Flush s).2
| reach_compact s : reachable s -> reachable (Compact s).2
| reach_maintain s : reachable s -> reachable (Maintain s).2
| reach_get key s : reachable s -> reachable (Get key s).2
| reach_open options s s' fs : reachable s -> Open options (s_fs s) = (IoOk s', fs) -> reachable s'.

Section reach.
Context `{Fmt : Formats} `{Laws : !FormatLaws}.

Definition sound (s : LsmStore) : Prop :=
  exists a v, opens (s_fs s) a v /\ (s_poisoned s = false -> holds s a v).

Lemma holds_sound s a v : holds s a v -> sound s.
Proof. intros Hs. exists a, v. split; [by apply holds_opens|done]. Qed.
Lemma failed_sound s a v a' v' : failed s a v a' v' -> sound s.
Proof. intros [Hp [H|H]]; [exists a, v|exists a', v']; (split; [done|congruence]). Qed.
Lemma sound_step {A} (m : L A) s :
  sound s -> (s_poisoned s = true -> exists k e, m s = (IoErr k e, s)) ->
  (forall a v, holds s a v -> post m (fun _ s' => sound s') sound s) -> sound (m s).2.
Proof.
  intros Hs Hp Hm. destruct (s_poisoned s) eqn:E.
  - destruct (Hp eq_refl) as (k & e & ->). done.
  - destruct Hs as (a & v & _ & Hh). specialize (Hm a v (Hh E)). unfold post in Hm.
    by destruct (m s) as [[x|] s'].
Qed.

Lemma reachable_sound s : reachable s -> sound s.
Proof.
  induction 1 as [options s fs Ho|p s _ IH|first index changes s _ IH Hi|index cells s _ IH Hi
    |s _ IH|s _ IH|s _ IH|key s _ IH|options s s' fs _ IH Ho].
  - apply fresh_correct in Ho as (_ & Hr & Hp). by eapply holds_sound.
  - destruct IH as (a & v & Ho & Hh). exists a, v. split; [done|]. intros Hp.
    apply (holds_field s); [by apply Hh|]. done.
  - apply sound_step; [done|by apply poisoned_commit|]. intros a v Hh.
    eapply post_mono; [by apply (commit_spec s a v)| |].
    + intros [|] s'; [intros [_ H]; by eapply holds_sound|]. intros [E _]. by rewrite E.
    + intros s' [E|H]; [by rewrite E|by eapply failed_sound].
  - apply sound_step; [done|by apply poisoned_install|]. intros a v Hh.
    eapply post_mono; [by apply (install_spec s a v)| |].
    + intros x s' H. exact (holds_sound _ _ _ H).
    + intros s' [E|H]; [by rewrite E|by eapply failed_sound].
  - apply sound_step; [done|by apply poisoned_mutation|]. intros a v Hh.
    eapply post_mono; [by apply (flush_spec s a v)| |]; [|intros s' H; exact (failed_sound _ _ _ _ _ H)].
    intros x s' [H _]. exact (holds_sound _ _ _ H).
  - apply sound_step; [done|by apply poisoned_mutation|]. intros a v Hh.
    eapply post_mono; [by apply (compact_spec s a v)| |]; [|intros s' H; exact (failed_sound _ _ _ _ _ H)].
    intros x s' [H _]. exact (holds_sound _ _ _ H).
  - apply sound_step; [done|by apply poisoned_maintain|]. intros a v Hh.
    eapply post_mono; [by apply (maintain_spec s a v)| |]; [|intros s' H; exact (failed_sound _ _ _ _ _ H)].
    intros x s' H. exact (holds_sound _ _ _ H).
  - apply sound_step; [done|by apply poisoned_reads|]. intros a v Hh.
    destruct (get_correct s a v key) as [stats Hg]; [apply Hh|apply Hh|]. unfold post. rewrite Hg.
    apply (holds_sound _ a v). by apply (holds_field s).
  - destruct IH as (a & v & Hr & _).
    destruct (options_validate options) as [[]|k e] eqn:Hopt.
    + destruct (open_correct _ _ _ _ Hr Hopt) as (s2 & Ho2 & Hrep & Hp & _).
      rewrite Ho in Ho2. injection Ho2 as -> _. by apply (holds_sound _ a v).
    + unfold open, mbind, St_bind, lift in Ho. by rewrite Hopt in Ho.
Qed.
End reach.

(** (C32) From every store that operations, injected faults and reopenings can
    lead to, starting in an empty directory, the directory opens again; a
    healthy handle represents exactly the map and the index that reopening
    finds. *)
Theorem reachable_store_reopens `{Fmt : Formats} `{Laws : !FormatLaws} s :
  reachable s ->
  exists a v, (s_poisoned s = false -> holds s a v)
  /\ forall options, options_validate options = IoOk tt ->
     exists s', Open options (s_fs s) = (IoOk s', s_fs s') /\ holds s' a v.
Proof.
  intros (a & v & Ho & Hh)%reachable_sound. exists a, v. split; [done|]. intros options Hopt.
  destruct (open_correct _ _ _ _ Ho Hopt) as (s' & Hop & Hr & Hp & _). by exists s'.
Qed.
