(* ===== verification/ShardTypes.v ===== *)
(** * [shard-service/src/types.rs]: identities, proofs and bounds of sharding

    The data the controller and the data groups exchange: log origins, transfer
    identities, the chain of proofs that carries a shard from its source to its
    destination, membership maintenance tickets, and the bounded canonical
    encoding ([canonical_bytes]) every replicated state must fit.

    The JSON writer ([serde_json]) and SHA-256 ([sha2]) are third-party code:
    they are the parameters [Serialize], [Deserialize] and [TypeFormats]. *)
From stdpp Require Export pretty.
From S2P Require Import Prelude Types Quorum Membership.
Local Open Scope N_scope.
Local Open Scope raft_scope.

(** ** Identities *)

Abbreviation Bytes := (list N).
Abbreviation GroupId := N.
Abbreviation ShardId := N.

Definition CONTROLLER : GroupId := 0.
Definition MAX_SHARDS : N := 64.
Definition MAX_GROUPS : N := 16.
Definition MAX_TRANSFERS : N := 1024.
Definition MAX_ACTOR_BYTES : N := 16 * 1024 * 1024.
Definition MAX_TRANSFER_BYTES : N := 4 * 1024 * 1024.
Definition CHUNK_BYTES : N := 32 * 1024.
Definition MAX_KEY_BYTES : N := 1024.
Definition MAX_VALUE_BYTES : N := 64 * 1024.
Definition MAX_SESSIONS : N := 1024.
Definition MAX_RETRY_KEYS : N := 8192.
Definition MAX_RETAINED_PAYLOAD_BYTES : N := 8 * 1024 * 1024.

(** [u64::to_string] *)
Definition to_string (n : N) : string := pretty n.

Record Origin := mkOrigin { o_group : GroupId; o_index : N }.
#[export] Instance Origin_eq_dec : EqDecision Origin.
Proof. solve_decision. Defined.
(** [Origin::key] *)
Definition origin_key (o : Origin) : string :=
  to_string (o_group o) +:+ ":" +:+ to_string (o_index o).
(** [Origin::valid] *)
Definition origin_valid (o : Origin) : bool := 0 <? o_index o.
Abbreviation SessionId := Origin.

Record TransferId := mkTransferId { ti_shard : ShardId; ti_epoch : N; ti_controller_index : N }.
#[export] Instance TransferId_eq_dec : EqDecision TransferId.
Proof. solve_decision. Defined.
#[export] Instance TransferId_countable : Countable TransferId.
Proof.
  refine (inj_countable' (fun i => (ti_shard i, ti_epoch i, ti_controller_index i))
            (fun '(s, e, c) => mkTransferId s e c) _).
  by intros [].
Defined.
(** [TransferId::key] *)
Definition transfer_key (t : TransferId) : string :=
  to_string (ti_shard t) +:+ ":" +:+ to_string (ti_epoch t) +:+ ":"
  +:+ to_string (ti_controller_index t).
(** [TransferId::valid] *)
Definition transfer_id_valid (t : TransferId) : bool :=
  (ti_shard t <? MAX_SHARDS) && (1 <? ti_epoch t) && (0 <? ti_controller_index t).

Record Move := mkMove {
  mv_id : TransferId;
  mv_source : GroupId;
  mv_destination : GroupId;
  mv_previous_epoch : N;
}.
#[export] Instance Move_eq_dec : EqDecision Move.
Proof. solve_decision. Defined.
(** [Move::valid] *)
Definition move_valid (m : Move) : bool :=
  transfer_id_valid (mv_id m)
  && negb (mv_source m =? CONTROLLER)
  && negb (mv_destination m =? CONTROLLER)
  && negb (mv_source m =? mv_destination m)
  && (checked_add (mv_previous_epoch m) 1 ==? Some (ti_epoch (mv_id m))).

Record Retention := mkRetention { re_sessions : N; re_retry_keys : N; re_payload_bytes : N }.
#[export] Instance Retention_eq_dec : EqDecision Retention.
Proof. solve_decision. Defined.
(** [Retention::valid] *)
Definition retention_valid (r : Retention) : bool :=
  (re_sessions r <=? MAX_SESSIONS)
  && (re_retry_keys r <=? MAX_RETRY_KEYS)
  && (re_payload_bytes r <=? MAX_RETAINED_PAYLOAD_BYTES).

(** ** The proofs of a transfer *)

Record ImageProof := mkImageProof {
  ip_movement : Move;
  ip_fence : Origin;
  ip_bytes : N;
  ip_sha256 : Bytes;
  ip_retention : Retention;
}.
#[export] Instance ImageProof_eq_dec : EqDecision ImageProof.
Proof. solve_decision. Defined.
(** [ImageProof::valid] *)
Definition image_valid (p : ImageProof) : bool :=
  move_valid (ip_movement p)
  && retention_valid (ip_retention p)
  && origin_valid (ip_fence p)
  && (o_group (ip_fence p) =? mv_source (ip_movement p))
  && ((1 <=? ip_bytes p) && (ip_bytes p <=? MAX_TRANSFER_BYTES)).

Record InstalledProof := mkInstalledProof { in_image : ImageProof; in_installed : Origin }.
#[export] Instance InstalledProof_eq_dec : EqDecision InstalledProof.
Proof. solve_decision. Defined.
(** [InstalledProof::valid] *)
Definition installed_valid (p : InstalledProof) : bool :=
  image_valid (in_image p)
  && origin_valid (in_installed p)
  && (o_group (in_installed p) =? mv_destination (ip_movement (in_image p))).

Record OwnershipProof := mkOwnershipProof { ow_installation : InstalledProof; ow_controller : Origin }.
#[export] Instance OwnershipProof_eq_dec : EqDecision OwnershipProof.
Proof. solve_decision. Defined.
Definition ow_image (p : OwnershipProof) : ImageProof := in_image (ow_installation p).
(** [OwnershipProof::valid] *)
Definition ownership_valid (p : OwnershipProof) : bool :=
  installed_valid (ow_installation p)
  && origin_valid (ow_controller p)
  && (o_group (ow_controller p) =? CONTROLLER)
  && (ti_controller_index (mv_id (ip_movement (ow_image p))) <? o_index (ow_controller p)).

Record ActivationProof := mkActivationProof { ac_ownership : OwnershipProof; ac_activated : Origin }.
#[export] Instance ActivationProof_eq_dec : EqDecision ActivationProof.
Proof. solve_decision. Defined.
Definition ac_image (p : ActivationProof) : ImageProof := ow_image (ac_ownership p).
Definition ac_id (p : ActivationProof) : TransferId := mv_id (ip_movement (ac_image p)).
(** [ActivationProof::valid] *)
Definition activation_valid (p : ActivationProof) : bool :=
  ownership_valid (ac_ownership p)
  && origin_valid (ac_activated p)
  && (o_group (ac_activated p) =? mv_destination (ip_movement (ac_image p)))
  && (o_index (in_installed (ow_installation (ac_ownership p))) <? o_index (ac_activated p)).

Record AbortProof := mkAbortProof { ab_movement : Move; ab_controller : Origin }.
#[export] Instance AbortProof_eq_dec : EqDecision AbortProof.
Proof. solve_decision. Defined.
(** [AbortProof::valid] *)
Definition abort_valid (p : AbortProof) : bool :=
  move_valid (ab_movement p)
  && (o_group (ab_controller p) =? CONTROLLER)
  && (ti_controller_index (mv_id (ab_movement p)) <? o_index (ab_controller p)).

Record AbortRecord := mkAbortRecord { abr_abort : AbortProof; abr_recovered : Origin }.
#[export] Instance AbortRecord_eq_dec : EqDecision AbortRecord.
Proof. solve_decision. Defined.
Definition ABORT_RECORD_RESERVE : N := 1024.

Record Receipt := mkReceipt {
  rc_origin : Origin;
  rc_shard : ShardId;
  rc_epoch : N;
  rc_session : option SessionId;
  rc_sequence : option N;
}.
#[export] Instance Receipt_eq_dec : EqDecision Receipt.
Proof. solve_decision. Defined.

Inductive Error : Type :=
| EInvalidInput | EWrongGroup | ENotInitialized | EAlreadyInitialized | EStaleRoute
| EUnavailable | EBusy | EStaleGeneration | EWrongTransfer | EWrongPhase | EAborted
| EPayloadMismatch | EChunkOffset | ECapacity | EUnknownSession | ESessionClosed
| EStaleSequence | ESequenceGap.
#[export] Instance Error_eq_dec : EqDecision Error.
Proof. solve_decision. Defined.

(** ** Canonical bytes *)

(** [T: Serialize]: the buffers [serde_json::to_writer] writes for a value. *)
Class Serialize (T : Type) : Type := to_writer : T -> list Bytes.
#[global] Hint Mode Serialize ! : typeclass_instances.
(** [T: Deserialize]: [serde_json::from_slice]. *)
Class Deserialize (T : Type) : Type := from_slice : Bytes -> option T.
#[global] Hint Mode Deserialize ! : typeclass_instances.

(** [serde_json::to_vec] *)
Definition to_vec {T} `{Serialize T} (v : T) : Bytes := concat (to_writer v).

(** The state of the bounded writer of [canonical_bytes]. *)
Record Bounded := mkBounded { bd_bytes : Bytes; bd_max : N; bd_exceeded : bool }.

(** [Bounded::write]: [None] is the error. *)
Definition bounded_write (w : Bounded) (bytes : Bytes) : Bounded * bool :=
  if saturating_sub (bd_max w) (len64 (bd_bytes w)) <? len64 bytes
  then (mkBounded (bd_bytes w) (bd_max w) true, false)
  else (mkBounded (bd_bytes w ++ bytes) (bd_max w) (bd_exceeded w), true).

(** [to_writer] stops at the first failed write. *)
Fixpoint write_chunks (w : Bounded) (chunks : list Bytes) : Bounded * bool :=
  match chunks with
  | [] => (w, true)
  | chunk :: rest =>
      match bounded_write w chunk with
      | (w, true) => write_chunks w rest
      | (w, false) => (w, false)
      end
  end.

Definition canonical_bytes {T} `{Serialize T} (value : T) (max : N) : Outcome Error Bytes :=
  match write_chunks (mkBounded [] max false) (to_writer value) with
  | (w, true) => Done (bd_bytes w)
  | (w, false) => Refused (if bd_exceeded w then ECapacity else EInvalidInput)
  end.

(** ** Membership maintenance tickets *)

Record MaintenanceCompletion := mkMaintenanceCompletion {
  mc_record : AdminRecord;
  mc_observed_applied : Origin;
  mc_released : Origin;
}.
#[export] Instance MaintenanceCompletion_eq_dec : EqDecision MaintenanceCompletion.
Proof. solve_decision. Defined.

Record MaintenanceTicket := mkMaintenanceTicket {
  mt_request_id : string;
  mt_target : GroupId;
  mt_operation : AdminOperation;
  mt_origin : Origin;
  mt_previous_generation : option Origin;
  mt_completion : option MaintenanceCompletion;
}.
#[export] Instance MaintenanceTicket_eq_dec : EqDecision MaintenanceTicket.
Proof. solve_decision. Defined.
#[export] Instance MaintenanceTicket_eta : Eta MaintenanceTicket := fun t =>
  mkMaintenanceTicket (mt_request_id t) (mt_target t) (mt_operation t) (mt_origin t)
    (mt_previous_generation t) (mt_completion t).

(** [MaintenanceTicket::core_request_id] *)
Definition core_request_id (t : MaintenanceTicket) : string :=
  "l7-maintenance-" +:+ to_string (o_index (mt_origin t)).

(** ** Parameters *)

Class TypeFormats : Type := {
  (** [sha2::Sha256::digest] *)
  sha256 : Bytes -> Bytes;
  #[global] operation_serialize :: Serialize AdminOperation;
  #[global] completion_serialize :: Serialize MaintenanceCompletion;
}.

Section types.
Context `{TypeFormats}.

Definition key_shard (key : string) (shard_count : N) : option ShardId :=
  if (str_len key =? 0) || (MAX_KEY_BYTES <? str_len key)
     || (shard_count =? 0) || (MAX_SHARDS <? shard_count)
  then None
  else Some (from_be_bytes (take 8 (sha256 (bytes key))) mod shard_count).

(** ** Membership maintenance *)

Definition MAX_MAINTENANCE_TICKETS : N := 1024.
Definition MAX_MAINTENANCE_OPERATION_BYTES : N := 4096.
Definition MAINTENANCE_COMPLETION_RESERVE : N := 8192.

Definition maintenance_request_id_valid (id : string) : bool :=
  negb (str_len id =? 0)
  && (str_len id <=? 128)
  && is_ascii id
  && negb (existsb (fun b => byte_is_ascii_whitespace b || byte_is_ascii_control b) (bytes id)).

Definition maintenance_operation_valid (operation : AdminOperation) : bool :=
  let structure :=
    match operation with
    | AddLearner _ endpoints => is_ok (endpoints_validate endpoints)
    | Remove _ => true
    | SetVoters voters => is_ok (VoterConfigOps.validate (Stable voters))
    end in
  structure && is_done (canonical_bytes operation MAX_MAINTENANCE_OPERATION_BYTES).

(** [MaintenanceTicket::record_matches] *)
Definition record_matches (t : MaintenanceTicket) (record : AdminRecord) (observed : Origin) : bool :=
  match ar_final_index record, ar_final_term record with
  | Some final_index, Some final_term =>
      (ar_operation record ==? mt_operation t)
      && (0 <? ar_first_index record)
      && (0 <? ar_first_term record)
      && (ar_first_index record <=? final_index)
      && (ar_first_term record <=? final_term)
      && (if ar_joint record
          then (ar_first_index record <? final_index)
               && negb (match ar_operation record with AddLearner _ _ => true | _ => false end)
          else (final_index =? ar_first_index record)
               && (final_term =? ar_first_term record)
               && negb (match ar_operation record with SetVoters _ => true | _ => false end))
      && (o_group observed =? mt_target t)
      && (final_index <=? o_index observed)
      && (negb (mt_target t =? CONTROLLER) || (o_index (mt_origin t) <? ar_first_index record))
  | _, _ => false
  end.

(** [MaintenanceTicket::valid] *)
Definition ticket_valid (t : MaintenanceTicket) : bool :=
  maintenance_request_id_valid (mt_request_id t)
  && maintenance_operation_valid (mt_operation t)
  && (o_group (mt_origin t) =? CONTROLLER)
  && (0 <? o_index (mt_origin t))
  && map_or (mt_previous_generation t) true (fun previous =>
       (o_group previous =? CONTROLLER)
       && (0 <? o_index previous)
       && (o_index previous <? o_index (mt_origin t)))
  && map_or (mt_completion t) true (fun completion =>
       record_matches t (mc_record completion) (mc_observed_applied completion)
       && (o_group (mc_released completion) =? CONTROLLER)
       && (o_index (mt_origin t) <? o_index (mc_released completion))
       && (negb (mt_target t =? CONTROLLER)
           || (o_index (mc_observed_applied completion) <? o_index (mc_released completion)))
       && is_done (canonical_bytes completion MAINTENANCE_COMPLETION_RESERVE)).
End types.

(** ** Facts on the bounded encoding *)

Lemma write_chunks_spec chunks w :
  write_chunks w chunks
  = if bd_max w - len64 (bd_bytes w) <? len64 (concat chunks)
    then (mkBounded (write_chunks w chunks).1.(bd_bytes) (bd_max w) true, false)
    else (mkBounded (bd_bytes w ++ concat chunks) (bd_max w) (bd_exceeded w), true).
Proof.
  revert w. induction chunks as [|chunk rest IH]; intros [bs m e]; cbn -[N.ltb].
  - rewrite app_nil_r. change (len64 []) with 0. by destruct (N.ltb_spec (m - len64 bs) 0) as [?%N.nlt_0_r|].
  - unfold bounded_write, saturating_sub; cbn -[N.ltb]. unfold len64 in *. rewrite length_app, Nat2N.inj_add.
    destruct (N.ltb_spec (m - N.of_nat (length bs)) (N.of_nat (length chunk))) as [Hc|Hc]; cbn -[N.ltb].
    + destruct (N.ltb_spec (m - N.of_nat (length bs))
        (N.of_nat (length chunk) + N.of_nat (length (concat rest)))); [done|lia].
    + rewrite IH; cbn -[N.ltb]. rewrite length_app, Nat2N.inj_add, <- app_assoc.
      destruct (N.ltb_spec (m - (N.of_nat (length bs) + N.of_nat (length chunk)))
                           (N.of_nat (length (concat rest))));
      destruct (N.ltb_spec (m - N.of_nat (length bs))
        (N.of_nat (length chunk) + N.of_nat (length (concat rest)))); try lia; done.
Qed.

(** The bounded writer accepts exactly the encodings within the limit. *)
Lemma canonical_bytes_spec {T} `{Serialize T} (v : T) max :
  canonical_bytes v max = if max <? len64 (to_vec v) then Refused ECapacity else Done (to_vec v).
Proof.
  unfold canonical_bytes. rewrite write_chunks_spec; cbn -[N.ltb].
  rewrite N.sub_0_r. unfold to_vec. by destruct (max <? _).
Qed.
Lemma canonical_bytes_Done {T} `{Serialize T} (v : T) max b :
  canonical_bytes v max = Done b <-> b = to_vec v /\ len64 (to_vec v) <= max.
Proof. rewrite canonical_bytes_spec. destruct (N.ltb_spec max (len64 (to_vec v))); naive_solver lia. Qed.
Lemma canonical_bytes_fits {T} `{Serialize T} (v : T) max :
  is_done (canonical_bytes v max) = true <-> len64 (to_vec v) <= max.
Proof. rewrite canonical_bytes_spec. destruct (N.ltb_spec max (len64 (to_vec v))); naive_solver lia. Qed.

(** ** Decimal keys *)

Fixpoint no_colon (s : string) : bool :=
  match s with
  | EmptyString => true
  | String c s => negb (bool_decide (c = Ascii.ascii_of_N 58)) && no_colon s
  end.

Lemma pretty_N_go_no_colon x s : no_colon s = true -> no_colon (pretty_N_go x s) = true.
Proof.
  revert s. induction (N.lt_wf_0 x) as [x _ IH]; intros s Hs.
  destruct (decide (x = 0)) as [->|]; [done|].
  rewrite pretty_N_go_step by lia. apply IH; [apply N.div_lt; lia|].
  cbn [no_colon]. rewrite Hs. unfold pretty_N_char. by repeat case_match.
Qed.
Lemma to_string_no_colon n : no_colon (to_string n) = true.
Proof.
  unfold to_string, pretty, pretty_N. case_decide; [done|]. by apply pretty_N_go_no_colon.
Qed.

Lemma pretty_N_go_length x s d :
  x < 10 ^ N.of_nat d -> (String.length (pretty_N_go x s) <= d + String.length s)%nat.
Proof.
  revert x s. induction d as [|d IH]; intros x s Hx.
  - change (10 ^ N.of_nat 0) with 1 in Hx. assert (x = 0) as -> by lia. done.
  - destruct (decide (x = 0)) as [->|]; [rewrite pretty_N_go_0; lia|].
    rewrite pretty_N_go_step by lia. etrans; [apply IH|cbn; lia].
    apply N.Div0.div_lt_upper_bound. rewrite Nat2N.inj_succ, N.pow_succ_r' in Hx. lia.
Qed.
Lemma to_string_len n : n <= u64_max -> str_len (to_string n) <= 20.
Proof.
  intros Hn. unfold str_len, to_string, pretty, pretty_N. case_decide; [done|].
  pose proof (pretty_N_go_length n EmptyString 20) as HL. cbn [String.length] in HL.
  enough (String.length (pretty_N_go n EmptyString) <= 20)%nat by lia.
  rewrite Nat.add_0_r in HL. apply HL.
  pose proof u64_max_two64. unfold two64 in *.
  change (10 ^ N.of_nat 20) with 100000000000000000000. lia.
Qed.

Lemma no_colon_split s1 s2 t1 t2 :
  no_colon s1 = true -> no_colon s2 = true ->
  s1 +:+ ":" +:+ t1 = s2 +:+ ":" +:+ t2 -> s1 = s2 /\ t1 = t2.
Proof.
  revert s2. induction s1 as [|c s1 IH]; intros [|d s2]; cbn; intros H1 H2 Heq; bool_inv.
  - by injection Heq.
  - injection Heq as <- _. by destruct H0.
  - injection Heq as -> _. by destruct H.
  - injection Heq as -> Heq. destruct (IH s2) as [-> ->]; auto.
Qed.

#[export] Instance to_string_inj : Inj (=) (=) to_string.
Proof. unfold to_string. apply _. Qed.
#[export] Instance origin_key_inj : Inj (=) (=) origin_key.
Proof.
  intros [g i] [g' i'] H. apply no_colon_split in H as [Hg Hi]; [|apply to_string_no_colon..].
  apply (inj to_string) in Hg, Hi. cbn in *. by subst.
Qed.
#[export] Instance transfer_key_inj : Inj (=) (=) transfer_key.
Proof.
  intros [s e i] [s' e' i'] H. apply no_colon_split in H as [Hs H]; [|apply to_string_no_colon..].
  apply no_colon_split in H as [He Hi]; [|apply to_string_no_colon..].
  apply (inj to_string) in Hs, He, Hi. cbn in *. by subst.
Qed.
