(* ===== verification/Topology.v ===== *)
(** * [shard-service/src/topology.rs]: the immutable topology

    The configuration all nodes of a service share, its validation, its fingerprint,
    and the transport scopes of its groups (with the scopes of
    [kv-node/src/transport.rs]). *)
From S2P Require Import Prelude Types Quorum Membership ShardTypes.
Local Open Scope N_scope.
Local Open Scope raft_scope.

(** ** Socket addresses ([std::net]) *)

(** [IpAddr]: the address as a number of 32 or 128 bits. *)
Inductive IpAddr : Type := V4 (bits : N) | V6 (bits : N).
#[export] Instance IpAddr_eq_dec : EqDecision IpAddr.
Proof. solve_decision. Defined.
Definition is_unspecified (ip : IpAddr) : bool := match ip with V4 b | V6 b => b =? 0 end.
Definition is_multicast (ip : IpAddr) : bool :=
  match ip with V4 b => N.shiftr b 28 =? 0xe | V6 b => N.shiftr b 120 =? 0xff end.
Definition is_broadcast (ip : IpAddr) : bool := match ip with V4 b => b =? 0xffffffff | V6 _ => false end.
(** [to_ipv4_mapped]: [::ffff:a.b.c.d] stands for [a.b.c.d]. *)
Definition unmapped (ip : IpAddr) : IpAddr :=
  match ip with
  | V6 b => if N.shiftr b 32 =? 0xffff then V4 (N.land b 0xffffffff) else V6 b
  | V4 b => V4 b
  end.

(** [SocketAddr]; the flow information and the scope of an IPv4 address are zero. *)
Record SocketAddr := mkSocketAddr { sa_ip : IpAddr; sa_port : N; sa_flowinfo : N; sa_scope_id : N }.
#[export] Instance SocketAddr_eq_dec : EqDecision SocketAddr.
Proof. solve_decision. Defined.

(** ** The topology *)

Record Member := mkMember { me_id : NodeId; me_http : SocketAddr; me_raft : gmap GroupId SocketAddr }.
Record Topology := mkTopology {
  tp_version : N;
  tp_cluster : string;
  tp_groups : list GroupId;
  tp_owners : list GroupId;
  tp_genesis_voters : gmap GroupId (list NodeId);
  tp_nodes : list Member;
}.
(** [Bootstrap]: the part that never changes. *)
Record Bootstrap := mkBootstrap {
  bs_version : N;
  bs_cluster : string;
  bs_groups : list GroupId;
  bs_owners : list GroupId;
  bs_genesis_voters : gmap GroupId (list NodeId);
}.

(** [Topology::all_groups] *)
Definition all_groups (t : Topology) : list GroupId := CONTROLLER :: tp_groups t.

(** [u8::is_ascii_alphanumeric], [u8::is_ascii_graphic] *)
Definition byte_is_ascii_alphanumeric (b : N) : bool :=
  (48 <=? b) && (b <=? 57) || (65 <=? b) && (b <=? 90) || (97 <=? b) && (b <=? 122).
Definition byte_is_ascii_graphic (b : N) : bool := (33 <=? b) && (b <=? 126).

(** An address no peer could reach. *)
Definition unreachable (addr : SocketAddr) : bool :=
  let ip := unmapped (sa_ip addr) in
  (sa_port addr =? 0) || is_unspecified ip || is_multicast ip || is_broadcast ip
  || match sa_ip addr with V6 _ => negb (sa_scope_id addr =? 0) || negb (sa_flowinfo addr =? 0) | V4 _ => false end.
Definition canonical_addr (addr : SocketAddr) : SocketAddr :=
  mkSocketAddr (unmapped (sa_ip addr)) (sa_port addr) 0 0.

(** The addresses of the nodes, one after the other; [seen] is the set of the
    canonical ones so far. *)
Fixpoint check_addresses (seen : list SocketAddr) (addrs : list SocketAddr) : option (list SocketAddr) :=
  match addrs with
  | [] => Some seen
  | addr :: rest =>
      if unreachable addr || contains (canonical_addr addr) seen then None
      else check_addresses (canonical_addr addr :: seen) rest
  end.
Fixpoint check_nodes (groups : list GroupId) (seen : list SocketAddr) (nodes : list Member) : Result unit :=
  match nodes with
  | [] => Ok tt
  | node :: rest =>
      if negb (bool_decide ((list_to_set (nset_list (dom (me_raft node))) : gset N) = list_to_set groups))
      then Err "every node must host exactly the configured groups"
      else match check_addresses seen (me_http node :: map snd (nmap_iter (me_raft node))) with
      | None => Err "unreachable or duplicate service address"
      | Some seen => check_nodes groups seen rest
      end
  end.

(** [self.cluster]: a short name of letters, digits, [-] and [_]. *)
Definition cluster_invalid (cluster : string) : bool :=
  (str_len cluster =? 0) || (32 <? str_len cluster)
  || negb (forallb (fun b => byte_is_ascii_alphanumeric b || contains b (bytes "-_")) (bytes cluster)).
(** [self.groups] and [self.owners] *)
Definition groups_owners_invalid (groups owners : list GroupId) : bool :=
  bool_decide (groups = []) || (MAX_GROUPS <? len64 groups) || contains CONTROLLER groups
  || negb (strictly_increasing groups)
  || bool_decide (owners = []) || (MAX_SHARDS <? len64 owners)
  || negb (forallb (fun g => contains g groups) owners).

(** [Topology::validate] *)
Definition topology_validate (t : Topology) : Result unit :=
  if negb (tp_version t =? 1)
     || cluster_invalid (tp_cluster t)
     || groups_owners_invalid (tp_groups t) (tp_owners t)
     || bool_decide (length (tp_nodes t) = 0)%nat || (15 <? len64 (tp_nodes t))
     || negb (strictly_increasing (map me_id (tp_nodes t)))
  then Err "invalid immutable service topology"
  else if negb (bool_decide (dom (tp_genesis_voters t) = list_to_set (all_groups t)))
     || negb (forallb (fun voters =>
          negb (bool_decide (voters = [])) && (len64 voters <=? 15) && strictly_increasing voters)
          (map snd (nmap_iter (tp_genesis_voters t))))
  then Err "each group needs explicit sorted immutable genesis voters"
  else check_nodes (all_groups t) [] (tp_nodes t).
Definition topology_valid (t : Topology) : bool := is_ok (topology_validate t).

(** [Topology::bootstrap] *)
Definition bootstrap_identity (t : Topology) : Bootstrap :=
  mkBootstrap (tp_version t) (tp_cluster t) (tp_groups t) (tp_owners t) (tp_genesis_voters t).

(** ** Transport scopes *)

Record TransportScope := mkTransportScope { ts_group_id : string; ts_genesis_voters : list NodeId }.

(** [TransportScope::validate] *)
Definition scope_validate (s : TransportScope) : Result unit :=
  if (str_len (ts_group_id s) =? 0) || (128 <? str_len (ts_group_id s))
     || (ts_group_id s ==? "legacy-default"%string)
     || negb (forallb byte_is_ascii_graphic (bytes (ts_group_id s)))
     || bool_decide (ts_genesis_voters s = [])
     || negb (strictly_increasing (ts_genesis_voters s))
  then Err "invalid explicit transport scope"
  else Ok tt.
(** [TransportScope::new] *)
Definition scope_new (group_id : string) (genesis_voters : list NodeId) : Result TransportScope :=
  scope_validate (mkTransportScope group_id genesis_voters);;
  Ok (mkTransportScope group_id genesis_voters).

(** [format!("{b:02x}")] *)
Definition hex_digit (n : N) : Ascii.ascii := Ascii.ascii_of_N (if n <? 10 then 48 + n else 87 + n).
Fixpoint hex_string (bs : Bytes) : string :=
  match bs with
  | [] => EmptyString
  | b :: rest => String (hex_digit (N.shiftr b 4)) (String (hex_digit (N.land b 15)) (hex_string rest))
  end.

Section topology.
Context `{Fmt : TypeFormats} `{SerB : Serialize Bootstrap}.

(** [Topology::fingerprint] *)
Definition fingerprint (t : Topology) : string := hex_string (sha256 (to_vec (bootstrap_identity t))).
(** [Topology::scope]; the voters are looked up by index, which panics. *)
Definition scope (t : Topology) (group : GroupId) : Outcome string TransportScope :=
  refuse_if (negb (contains group (all_groups t))) "unknown topology group"%string;;
  voters ← or_panic (tp_genesis_voters t !! group);
  match scope_new (tp_cluster t +:+ "/g" +:+ to_string group +:+ "/" +:+ fingerprint t) voters with
  | Ok s => Done s
  | Err e => Refused e
  end.

(** ** A validated topology *)

Lemma topology_valid_inv t : topology_valid t = true ->
  cluster_invalid (tp_cluster t) = false /\ groups_owners_invalid (tp_groups t) (tp_owners t) = false
  /\ dom (tp_genesis_voters t) = list_to_set (all_groups t)
  /\ forall group voters, tp_genesis_voters t !! group = Some voters ->
       voters <> [] /\ strictly_increasing voters = true.
Proof using.
  unfold topology_valid, topology_validate. intros H.
  destruct (negb (tp_version t =? 1) || _ || _ || _ || _ || _) eqn:E1; [discriminate|].
  destruct (negb (bool_decide _) || _) eqn:E2; [discriminate|]. bool_inv. split_and!; try done.
  intros group voters Hv. match goal with H : forallb _ _ = true |- _ => rewrite forallb_forall in H; rename H into HF end.
  specialize (HF voters). rewrite <-list_elem_of_In in HF.
  assert (Hin : voters ∈ map snd (nmap_iter (tp_genesis_voters t))).
  { apply list_elem_of_fmap. exists (group, voters). split; [done|]. by apply (elem_of_btree_iter N.le). }
  specialize (HF Hin). bool_inv. done.
Qed.

Lemma str_len_append s1 s2 : str_len (s1 +:+ s2) = str_len s1 + str_len s2.
Proof using.
  unfold str_len. rewrite <-Nat2N.inj_add. f_equal. induction s1 as [|a s1 IH]; [done|]. exact (f_equal S IH).
Qed.
Lemma hex_string_len bs : str_len (hex_string bs) = 2 * len64 bs.
Proof using. unfold str_len, len64. induction bs as [|b bs IH]; cbn; [done|]. lia. Qed.
Lemma hex_digit_graphic n : n < 16 -> byte_is_ascii_graphic (Ascii.N_of_ascii (hex_digit n)) = true.
Proof using.
  intros Hn. assert (H : forallb (fun k => byte_is_ascii_graphic (Ascii.N_of_ascii (hex_digit (N.of_nat k)))) (seq 0 16) = true) by done.
  rewrite forallb_forall in H. specialize (H (N.to_nat n)). rewrite N2Nat.id in H. apply H, in_seq. lia.
Qed.
Lemma hex_string_graphic bs : Forall (fun b => b < 256) bs -> forallb byte_is_ascii_graphic (bytes (hex_string bs)) = true.
Proof using.
  induction 1 as [|b bs Hb _ IH]; [done|].
  change (bytes (hex_string (b :: bs)))
    with (Ascii.N_of_ascii (hex_digit (N.shiftr b 4)) :: Ascii.N_of_ascii (hex_digit (N.land b 15)) :: bytes (hex_string bs)).
  cbn [forallb]. rewrite !hex_digit_graphic, IH; [done|..].
  - change 15 with (N.ones 4). rewrite N.land_ones. by apply N.mod_lt.
  - rewrite N.shiftr_div_pow2. apply N.Div0.div_lt_upper_bound. by change (2 ^ 4 * 16) with 256.
Qed.
Lemma pretty_N_go_graphic x s : forallb byte_is_ascii_graphic (bytes s) = true ->
  forallb byte_is_ascii_graphic (bytes (pretty_N_go x s)) = true.
Proof using.
  revert s. induction (N.lt_wf_0 x) as [x _ IH]; intros s Hs.
  destruct (decide (x = 0)) as [-> |]; [by rewrite pretty_N_go_0|].
  rewrite pretty_N_go_step by lia. apply IH; [apply N.div_lt; lia|].
  unfold bytes in *. cbn. rewrite Hs, andb_true_r. unfold pretty_N_char. by repeat case_match.
Qed.
Lemma to_string_graphic n : forallb byte_is_ascii_graphic (bytes (to_string n)) = true.
Proof using. unfold to_string, pretty, pretty_N. case_decide; [done|]. by apply pretty_N_go_graphic. Qed.
Lemma cluster_graphic s : cluster_invalid s = false -> 0 < str_len s <= 32 /\ forallb byte_is_ascii_graphic (bytes s) = true.
Proof using.
  unfold cluster_invalid. intros H. bool_inv. split; [lia|].
  match goal with H : forallb _ _ = true |- _ => rename H into HF end. revert HF. generalize (bytes s). intros l.
  rewrite !forallb_forall. intros HF b Hb. specialize (HF b Hb). apply orb_true_iff in HF as [HF|HF].
  - unfold byte_is_ascii_alphanumeric, byte_is_ascii_graphic in *. repeat (apply orb_true_iff in HF as [HF|HF] || apply andb_true_iff in HF as [? HF]);
      bool_inv; apply andb_true_iff; split; apply N.leb_le; lia.
  - apply contains_true in HF. repeat (apply elem_of_cons in HF as [-> |HF]; [done|]). by apply not_elem_of_nil in HF.
Qed.

(** Every group of a validated topology has a transport scope: the lookup of its
    voters does not panic, and the name built from the cluster, the group and the
    fingerprint is within the limits of a scope. *)
Theorem scope_accepted t group : topology_valid t = true -> group ∈ all_groups t -> group <= u64_max ->
  len64 (sha256 (to_vec (bootstrap_identity t))) = 32 ->
  Forall (fun b => b < 256) (sha256 (to_vec (bootstrap_identity t))) ->
  exists s, scope t group = Done s.
Proof using.
  intros Hv Hg Hmax Hlen Hbytes. apply topology_valid_inv in Hv as (Hc & _ & Hd & Hvoters).
  unfold scope. rewrite (proj2 (contains_true _ _) Hg). cbn [negb refuse_if mbind Outcome_bind].
  destruct (tp_genesis_voters t !! group) as [voters|] eqn:Hl.
  2:{ apply not_elem_of_dom in Hl. rewrite Hd, elem_of_list_to_set in Hl. done. }
  destruct (Hvoters _ _ Hl) as [Hne Hsi]. cbn [or_panic mbind Outcome_bind].
  apply cluster_graphic in Hc as [Hcl Hcg]. pose proof (to_string_len group Hmax) as Hgl.
  unfold scope_new, scope_validate. cbn [ts_group_id ts_genesis_voters].
  rewrite !str_len_append, !bytes_app, !forallb_app, Hcg, to_string_graphic, Hsi. unfold fingerprint.
  rewrite hex_string_len, hex_string_graphic, Hlen by done. rewrite bool_decide_eq_false_2 by done.
  change (str_len "/g") with 2. change (str_len "/") with 1.
  rewrite (proj2 (N.eqb_neq _ _)) by lia. rewrite (proj2 (N.ltb_ge _ _)) by lia.
  destruct (_ ==? "legacy-default"%string) eqn:E; [|cbn; eauto].
  bool_inv. apply (f_equal str_len) in E. rewrite !str_len_append, hex_string_len, Hlen in E.
  change (str_len "legacy-default") with 14 in E. lia.
Qed.
End topology.
