(* ===== verification/Controller.v ===== *)
(** * [shard-service/src/controller.rs]: the shard controller

    The replicated state machine of group 0: routes, the phases of every shard
    transfer, and the membership maintenance tickets.  [apply] runs one
    committed command, [validate] is the check a restored state must pass. *)
From S2P Require Import Prelude Types Membership ShardTypes.
Local Open Scope N_scope.
Local Open Scope raft_scope.

(** ** Data *)

Record Route := mkRoute {
  ro_shard : ShardId;
  ro_epoch : N;
  ro_owner : GroupId;
  ro_transfer : option TransferId;
}.
#[export] Instance Route_eq_dec : EqDecision Route.
Proof. solve_decision. Defined.
#[export] Instance Route_eta : Eta Route := fun r =>
  mkRoute (ro_shard r) (ro_epoch r) (ro_owner r) (ro_transfer r).

Inductive AbortStage : Type :=
| ASStarted
| ASFenced (image : ImageProof)
| ASInstalled (installation : InstalledProof).
#[export] Instance AbortStage_eq_dec : EqDecision AbortStage.
Proof. solve_decision. Defined.

Inductive Phase : Type :=
| PStarted
| PAborted (abort : AbortProof) (before : AbortStage)
    (source_recovered destination_recovered : option Origin)
| PFenced (image : ImageProof)
| PInstalled (installation : InstalledProof)
| POwned (ownership : OwnershipProof)
| PActivated (activation : ActivationProof)
| PCleaned (activation : ActivationProof) (cleaned : Origin)
| PComplete (activation : ActivationProof) (cleaned completed : Origin).
#[export] Instance Phase_eq_dec : EqDecision Phase.
Proof. solve_decision. Defined.

Record Transfer := mkTransfer { tr_request_id : string; tr_movement : Move; tr_phase : Phase }.
#[export] Instance Transfer_eq_dec : EqDecision Transfer.
Proof. solve_decision. Defined.
#[export] Instance Transfer_eta : Eta Transfer := fun t =>
  mkTransfer (tr_request_id t) (tr_movement t) (tr_phase t).

(** [Transfer::complete] *)
Definition complete (t : Transfer) : bool :=
  match tr_phase t with
  | PComplete _ _ _ => true
  | PAborted _ _ (Some _) (Some _) => true
  | _ => false
  end.
Definition tr_id (t : Transfer) : TransferId := mv_id (tr_movement t).
Definition tr_index (t : Transfer) : N := ti_controller_index (tr_id t).

Inductive ControllerCommand : Type :=
| CAcquireMaintenance (request_id : string) (target : GroupId) (operation : AdminOperation)
    (expected_generation : option Origin)
| CCompleteMaintenance (request_id : string) (ticket_origin : Origin) (core_id : string)
    (record : AdminRecord) (observed_applied : Origin)
| CInitialize (groups owners : list GroupId)
| CBegin (request_id : string) (shard : ShardId) (expected_epoch : N) (destination : GroupId)
| CFenced (image : ImageProof)
| CInstalled (installation : InstalledProof)
| COwn (id : TransferId)
| CAbort (id : TransferId)
| CEndpointAborted (abort : AbortProof) (recovered : Origin)
| CActivated (activation : ActivationProof)
| CCleaned (id : TransferId) (cleaned : Origin)
| CComplete (id : TransferId).

Inductive ControllerReply : Type :=
| CRInitialized (origin : Origin)
| CRTransfer (transfer : Transfer)
| CRMaintenance (ticket : MaintenanceTicket).
#[export] Instance ControllerReply_eq_dec : EqDecision ControllerReply.
Proof. solve_decision. Defined.

Record Controller := mkController {
  co_applied : N;
  co_initialized_at : option Origin;
  co_groups : list GroupId;
  co_routes : list Route;
  co_transfers : gmap string Transfer;
  co_maintenance : gmap string MaintenanceTicket;
}.
#[export] Instance Controller_eq_dec : EqDecision Controller.
Proof. solve_decision. Defined.
#[export] Instance Controller_eta : Eta Controller := fun c =>
  mkController (co_applied c) (co_initialized_at c) (co_groups c) (co_routes c)
    (co_transfers c) (co_maintenance c).

(** [Controller::default] *)
Definition controller_default : Controller := mkController 0 None [] [] ∅ ∅.

(** [BTreeMap::values] *)
Definition smap_values {V} (m : gmap string V) : list V := map snd (smap_iter m).

(** ** Maintenance queries *)

(** [max_by_key(|origin| origin.index)]: the last of the maximal elements. *)
Definition max_origin (acc : option Origin) (o : Origin) : option Origin :=
  match acc with
  | None => Some o
  | Some best => if o_index best <=? o_index o then Some o else Some best
  end.
Definition maintenance_generation (c : Controller) : option Origin :=
  fold_left max_origin (map mt_origin (smap_values (co_maintenance c))) None.

Definition active_maintenance (c : Controller) : option MaintenanceTicket :=
  List.find (fun ticket => is_none (mt_completion ticket)) (smap_values (co_maintenance c)).

(** [self.transfers.values().any(|t| !t.complete())] *)
Definition handoff_pending (c : Controller) : bool :=
  existsb (fun t => negb (complete t)) (smap_values (co_transfers c)).

(** ** Commands *)

Definition groups_invalid (groups : list GroupId) : bool :=
  bool_decide (groups = []) || (MAX_GROUPS <? len64 groups)
  || contains CONTROLLER groups || negb (strictly_increasing groups).

Fixpoint initial_routes (shard : N) (owners : list GroupId) : list Route :=
  match owners with
  | [] => []
  | owner :: rest => mkRoute shard 1 owner None :: initial_routes (shard + 1) rest
  end.

Definition initialize (c : Controller) (origin : Origin) (groups owners : list GroupId)
  : Outcome Error (ControllerReply * Controller) :=
  match co_initialized_at c with
  | Some initialized =>
      if (co_groups c ==? groups) && (map ro_owner (co_routes c) ==? owners)
         && bool_decide (co_transfers c = ∅) && bool_decide (co_maintenance c = ∅)
      then Done (CRInitialized initialized, c)
      else Refused EAlreadyInitialized
  | None =>
      if bool_decide (groups = []) || (MAX_GROUPS <? len64 groups)
         || bool_decide (owners = []) || (MAX_SHARDS <? len64 owners)
         || contains CONTROLLER groups
         || negb (strictly_increasing groups)
         || existsb (fun owner => negb (contains owner groups)) owners
      then Refused EInvalidInput
      else Done (CRInitialized origin,
                 c <| co_groups := groups |> <| co_routes := initial_routes 0 owners |>
                   <| co_initialized_at := Some origin |>)
  end.

(** [Begin] *)
Definition begin (c : Controller) (index : N) (request_id : string) (shard : ShardId)
  (expected_epoch : N) (destination : GroupId) : Outcome Error (ControllerReply * Controller) :=
  if (str_len request_id =? 0) || (128 <? str_len request_id) then Refused EInvalidInput else
  match co_transfers c !! request_id with
  | Some existing =>
      if (ti_shard (tr_id existing) =? shard)
         && (mv_previous_epoch (tr_movement existing) =? expected_epoch)
         && (mv_destination (tr_movement existing) =? destination)
      then Done (CRTransfer existing, c)
      else Refused EPayloadMismatch
  | None =>
      refuse_if (is_some (active_maintenance c)) EBusy;;
      refuse_if (MAX_TRANSFERS <=? N.of_nat (size (co_transfers c))) ECapacity;;
      route ← ok_or (co_routes c !! N.to_nat shard) EInvalidInput;
      refuse_if (negb (ro_epoch route =? expected_epoch)) EStaleRoute;;
      refuse_if ((destination =? ro_owner route) || negb (contains destination (co_groups c)))
        EWrongGroup;;
      refuse_if (existsb (fun t =>
          negb (complete t)
          && existsb (fun group => (group =? ro_owner route) || (group =? destination))
               [mv_source (tr_movement t); mv_destination (tr_movement t)])
        (smap_values (co_transfers c))) EBusy;;
      epoch ← ok_or (checked_add expected_epoch 1) ECapacity;
      let movement :=
        mkMove (mkTransferId shard epoch index) (ro_owner route) destination expected_epoch in
      let transfer := mkTransfer request_id movement PStarted in
      Done (CRTransfer transfer,
            c <| co_routes := <[N.to_nat shard := route <| ro_transfer := Some (mv_id movement) |>]>
                                (co_routes c) |>
              <| co_transfers := <[request_id := transfer]> (co_transfers c) |>)
  end.

(** The transfer a phase command is about. *)
Definition command_id (command : ControllerCommand) : option TransferId :=
  match command with
  | CFenced image => Some (mv_id (ip_movement image))
  | CInstalled installation => Some (mv_id (ip_movement (in_image installation)))
  | COwn id | CAbort id | CCleaned id _ | CComplete id => Some id
  | CActivated activation => Some (ac_id activation)
  | CEndpointAborted abort _ => Some (mv_id (ab_movement abort))
  | _ => None
  end.

(** [Abort]: only before ownership changes. *)
Definition abort_phase (origin : Origin) (t : Transfer) : Outcome Error Phase :=
  let aborted before := PAborted (mkAbortProof (tr_movement t) origin) before None None in
  match tr_phase t with
  | PAborted _ _ _ _ => Done (tr_phase t)
  | PStarted => Done (aborted ASStarted)
  | PFenced image => Done (aborted (ASFenced image))
  | PInstalled installation => Done (aborted (ASInstalled installation))
  | _ => Refused EWrongPhase
  end.

(** The index an endpoint's recovery must exceed. *)
Definition recovery_lower (t : Transfer) (before : AbortStage) (group : GroupId) : N :=
  match before with
  | ASFenced image =>
      if group =? mv_source (tr_movement t) then o_index (ip_fence image) else 0
  | ASInstalled installation =>
      if group =? mv_source (tr_movement t) then o_index (ip_fence (in_image installation))
      else if group =? mv_destination (tr_movement t) then o_index (in_installed installation)
      else 0
  | ASStarted => 0
  end.

(** Recording an endpoint's receipt: the first one stays. *)
Definition record_receipt (receipt : option Origin) (recovered : Origin)
  : Outcome Error (option Origin) :=
  match receipt with
  | Some previous => if previous ==? recovered then Done receipt else Refused EPayloadMismatch
  | None => Done (Some recovered)
  end.

(** [EndpointAborted] *)
Definition endpoint_aborted (t : Transfer) (abort : AbortProof) (recovered : Origin)
  : Outcome Error Phase :=
  match tr_phase t with
  | PAborted expected before source_recovered destination_recovered =>
      refuse_if (negb (abort_valid abort) || negb (abort ==? expected)
                 || negb (origin_valid recovered)) EWrongTransfer;;
      refuse_if (o_index recovered <=? recovery_lower t before (o_group recovered)) EWrongTransfer;;
      if o_group recovered =? mv_source (tr_movement t) then
        receipt ← record_receipt source_recovered recovered;
        Done (PAborted expected before receipt destination_recovered)
      else if o_group recovered =? mv_destination (tr_movement t) then
        receipt ← record_receipt destination_recovered recovered;
        Done (PAborted expected before source_recovered receipt)
      else Refused EWrongGroup
  | _ => Refused EWrongPhase
  end.

(** A phase command on its transfer: the new phase and the new routes. *)
Definition transfer_step (routes : list Route) (origin : Origin) (id : TransferId) (t : Transfer)
  (command : ControllerCommand) : Outcome Error (Phase * list Route) :=
  let shard := N.to_nat (ti_shard id) in
  match command with
  | CAbort _ =>
      phase ← abort_phase origin t;
      Done (phase, routes)
  | CEndpointAborted abort recovered =>
      phase ← endpoint_aborted t abort recovered;
      if complete (t <| tr_phase := phase |>) then
        route ← or_panic (routes !! shard);
        if ro_transfer route ==? Some id
        then Done (phase, <[shard := route <| ro_transfer := None |>]> routes)
        else Done (phase, routes)
      else Done (phase, routes)
  | CFenced image =>
      refuse_if (negb (image_valid image) || negb (ip_movement image ==? tr_movement t))
        EWrongTransfer;;
      match tr_phase t with
      | PStarted => Done (PFenced image, routes)
      | PFenced old => if old ==? image then Done (tr_phase t, routes) else Refused EWrongPhase
      | _ => Refused EWrongPhase
      end
  | CInstalled installation =>
      refuse_if (negb (installed_valid installation)
                 || negb (ip_movement (in_image installation) ==? tr_movement t)) EWrongTransfer;;
      match tr_phase t with
      | PFenced image =>
          if image ==? in_image installation then Done (PInstalled installation, routes)
          else Refused EWrongPhase
      | PInstalled old =>
          if old ==? installation then Done (tr_phase t, routes) else Refused EWrongPhase
      | _ => Refused EWrongPhase
      end
  | COwn _ =>
      match tr_phase t with
      | PInstalled installation =>
          route ← or_panic (routes !! shard);
          refuse_if (negb (ro_owner route =? mv_source (tr_movement t))
                     || negb (ro_epoch route =? mv_previous_epoch (tr_movement t))
                     || negb (ro_transfer route ==? Some id)) EWrongTransfer;;
          Done (POwned (mkOwnershipProof installation origin),
                <[shard := route <| ro_owner := mv_destination (tr_movement t) |>
                                 <| ro_epoch := ti_epoch id |>]> routes)
      | POwned _ => Done (tr_phase t, routes)
      | _ => Refused EWrongPhase
      end
  | CActivated activation =>
      refuse_if (negb (activation_valid activation)) EInvalidInput;;
      match tr_phase t with
      | POwned ownership =>
          if ownership ==? ac_ownership activation then Done (PActivated activation, routes)
          else Refused EWrongPhase
      | PActivated old =>
          if old ==? activation then Done (tr_phase t, routes) else Refused EWrongPhase
      | _ => Refused EWrongPhase
      end
  | CCleaned _ cleaned =>
      refuse_if (negb (o_group cleaned =? mv_source (tr_movement t)) || negb (origin_valid cleaned))
        EWrongGroup;;
      match tr_phase t with
      | PActivated activation =>
          if o_index (ip_fence (ac_image activation)) <? o_index cleaned
          then Done (PCleaned activation cleaned, routes)
          else Refused EWrongPhase
      | PCleaned _ old => if old ==? cleaned then Done (tr_phase t, routes) else Refused EWrongPhase
      | _ => Refused EWrongPhase
      end
  | CComplete _ =>
      match tr_phase t with
      | PCleaned activation cleaned =>
          route ← or_panic (routes !! shard);
          Done (PComplete activation cleaned origin,
                <[shard := route <| ro_transfer := None |>]> routes)
      | PComplete _ _ _ => Done (tr_phase t, routes)
      | _ => Refused EWrongPhase
      end
  | _ => Panicked
  end.

(** The phase commands of [execute]: find the transfer, step it, store it. *)
Definition transfer_command (c : Controller) (origin : Origin) (command : ControllerCommand)
  : Outcome Error (ControllerReply * Controller) :=
  id ← or_panic (command_id command);
  '(request, t) ← ok_or (List.find (fun '(_, t) => tr_id t ==? id) (smap_iter (co_transfers c)))
                    EWrongTransfer;
  '(phase, routes) ← transfer_step (co_routes c) origin id t command;
  let t' := t <| tr_phase := phase |> in
  Done (CRTransfer t',
        c <| co_routes := routes |> <| co_transfers := <[request := t']> (co_transfers c) |>).

Section controller.
Context `{Fmt : TypeFormats} `{SerC : Serialize Controller}.

(** [AcquireMaintenance] *)
Definition acquire_maintenance (c : Controller) (origin : Origin) (request_id : string)
  (target : GroupId) (operation : AdminOperation) (expected_generation : option Origin)
  : Outcome Error (ControllerReply * Controller) :=
  refuse_if (negb (maintenance_request_id_valid request_id)
             || negb (maintenance_operation_valid operation)) EInvalidInput;;
  refuse_if (negb (target =? CONTROLLER) && negb (contains target (co_groups c))) EWrongGroup;;
  match co_maintenance c !! request_id with
  | Some existing =>
      if (mt_target existing =? target) && (mt_operation existing ==? operation)
      then Done (CRMaintenance existing, c)
      else Refused EPayloadMismatch
  | None =>
      refuse_if (negb (expected_generation ==? maintenance_generation c)) EStaleGeneration;;
      refuse_if (is_some (active_maintenance c) || handoff_pending c) EBusy;;
      refuse_if (MAX_MAINTENANCE_TICKETS <=? N.of_nat (size (co_maintenance c))) ECapacity;;
      let ticket := mkMaintenanceTicket request_id target operation origin expected_generation None in
      Done (CRMaintenance ticket,
            c <| co_maintenance := <[request_id := ticket]> (co_maintenance c) |>)
  end.

(** A completed earlier ticket of the same target that the record contradicts. *)
Definition record_regresses (ticket : MaintenanceTicket) (record : AdminRecord)
  (previous : MaintenanceTicket) : bool :=
  (mt_target previous =? mt_target ticket)
  && (o_index (mt_origin previous) <? o_index (mt_origin ticket))
  && is_some_and (mt_completion previous) (fun completion =>
       (ar_first_index record <=? o_index (mc_observed_applied completion))
       || (ar_first_term record <? default 0 (ar_final_term (mc_record completion)))).

(** [CompleteMaintenance] *)
Definition complete_maintenance (c : Controller) (origin : Origin) (request_id : string)
  (ticket_origin : Origin) (core_id : string) (record : AdminRecord) (observed_applied : Origin)
  : Outcome Error (ControllerReply * Controller) :=
  ticket ← ok_or (co_maintenance c !! request_id) EWrongTransfer;
  refuse_if (negb (mt_origin ticket ==? ticket_origin)
             || negb (core_request_id ticket ==? core_id)) EWrongTransfer;;
  refuse_if (negb (record_matches ticket record observed_applied)) EWrongPhase;;
  match mt_completion ticket with
  | Some completion =>
      if mc_record completion ==? record then Done (CRMaintenance ticket, c)
      else Refused EPayloadMismatch
  | None =>
      refuse_if (existsb (record_regresses ticket record) (smap_values (co_maintenance c)))
        EWrongPhase;;
      let completion := mkMaintenanceCompletion record observed_applied origin in
      refuse_if (negb (is_done (canonical_bytes completion MAINTENANCE_COMPLETION_RESERVE))
                 || ((mt_target ticket =? CONTROLLER)
                     && (o_index origin <=? o_index observed_applied))) EInvalidInput;;
      let ticket := ticket <| mt_completion := Some completion |> in
      Done (CRMaintenance ticket,
            c <| co_maintenance := <[request_id := ticket]> (co_maintenance c) |>)
  end.

Definition execute (c : Controller) (index : N) (command : ControllerCommand)
  : Outcome Error (ControllerReply * Controller) :=
  let origin := mkOrigin CONTROLLER index in
  match command with
  | CInitialize groups owners => initialize c origin groups owners
  | _ =>
      if is_none (co_initialized_at c) then Refused ENotInitialized else
      match command with
      | CAcquireMaintenance request_id target operation expected_generation =>
          acquire_maintenance c origin request_id target operation expected_generation
      | CCompleteMaintenance request_id ticket_origin core_id record observed_applied =>
          complete_maintenance c origin request_id ticket_origin core_id record observed_applied
      | CBegin request_id shard expected_epoch destination =>
          begin c index request_id shard expected_epoch destination
      | _ => transfer_command c origin command
      end
  end.

(** The bytes kept free for the watermark's growth and a pending completion. *)
Definition reserved (c : Controller) : N :=
  4096 + str_len (to_string u64_max) - str_len (to_string (co_applied c))
  + (if is_some (active_maintenance c) then MAINTENANCE_COMPLETION_RESERVE else 0).

Definition check_capacity (c : Controller) : Outcome Error unit :=
  _ ← canonical_bytes c (saturating_sub MAX_ACTOR_BYTES (reserved c));
  Done tt.

(** [Controller::apply]: the outer error is a gap in the log, the inner one a
    rejection, which still consumes the index. *)
Definition apply (c : Controller) (index : N) (command : ControllerCommand)
  : Outcome string (Outcome Error ControllerReply * Controller) :=
  if negb (checked_add (co_applied c) 1 ==? Some index)
  then Refused "controller application gap" else
  let result :=
    '(reply, next) ← execute (c <| co_applied := index |>) index command;
    check_capacity next;;
    Done (reply, next) in
  match result with
  | Done (reply, next) => Done (Done reply, next)
  | Refused e => Done (Refused e, c <| co_applied := index |>)
  | Panicked => Panicked
  end.

(** [Controller::advance] *)
Definition advance (c : Controller) (index : N) : Outcome string Controller :=
  if negb (checked_add (co_applied c) 1 ==? Some index)
  then Refused "controller application gap"
  else Done (c <| co_applied := index |>).

(** ** [Controller::validate] *)

Fixpoint validate_routes (groups : list GroupId) (number : N) (routes : list Route)
  : Outcome string unit :=
  match routes with
  | [] => Done tt
  | route :: rest =>
      refuse_if (negb (ro_shard route =? number) || (ro_epoch route =? 0)
                 || negb (contains (ro_owner route) groups)) "invalid route"%string;;
      validate_routes groups (number + 1) rest
  end.

(** The proof a phase carries, checked: the image it names. *)
Definition validate_abort (applied : N) (movement : Move) (abort : AbortProof) (before : AbortStage)
  (source_recovered destination_recovered : option Origin) : Outcome string (option ImageProof) :=
  refuse_if (negb (abort_valid abort) || negb (ab_movement abort ==? movement)
             || (applied <? o_index (ab_controller abort))) "invalid controller abort proof"%string;;
  refuse_if (existsb (fun '(receipt, group) =>
      is_some_and receipt (fun receipt => negb (origin_valid receipt) || negb (o_group receipt =? group)))
    [(source_recovered, mv_source movement); (destination_recovered, mv_destination movement)])
    "invalid endpoint abort receipt"%string;;
  let image_before :=
    match before with
    | ASStarted => None
    | ASFenced image => Some image
    | ASInstalled installation => Some (in_image installation)
    end in
  refuse_if (is_some_and image_before (fun image =>
      is_some_and source_recovered (fun receipt => o_index receipt <=? o_index (ip_fence image)))
    || match before with
       | ASInstalled installation =>
           is_some_and destination_recovered (fun receipt =>
             o_index receipt <=? o_index (in_installed installation))
       | _ => false
       end) "abort receipt precedes endpoint preparation"%string;;
  match before with
  | ASStarted => Done None
  | ASFenced image => Done (Some image)
  | ASInstalled installation =>
      refuse_if (negb (installed_valid installation)) "invalid pre-abort installation"%string;;
      Done (Some (in_image installation))
  end.

Definition validate_phase (applied : N) (movement : Move) (phase : Phase)
  : Outcome string (option ImageProof) :=
  let activated activation :=
    refuse_if (negb (activation_valid activation)
               || (applied <? o_index (ow_controller (ac_ownership activation))))
      "invalid activation proof"%string;;
    Done (Some (ac_image activation)) in
  match phase with
  | PStarted => Done None
  | PAborted abort before source_recovered destination_recovered =>
      validate_abort applied movement abort before source_recovered destination_recovered
  | PFenced image => Done (Some image)
  | PInstalled installation =>
      refuse_if (negb (installed_valid installation)) "invalid installation proof"%string;;
      Done (Some (in_image installation))
  | POwned ownership =>
      refuse_if (negb (ownership_valid ownership)
                 || (applied <? o_index (ow_controller ownership))) "invalid ownership proof"%string;;
      Done (Some (ow_image ownership))
  | PActivated activation | PCleaned activation _ | PComplete activation _ _ => activated activation
  end.

Definition phase_owned (phase : Phase) : bool :=
  match phase with POwned _ | PActivated _ | PCleaned _ _ => true | _ => false end.

(** One transfer against its route and its own proofs. *)
Definition validate_transfer_proofs (applied : N) (t : Transfer) : Outcome string unit :=
  let movement := tr_movement t in
  image ← validate_phase applied movement (tr_phase t);
  refuse_if (is_some_and image (fun image =>
      negb (image_valid image) || negb (ip_movement image ==? movement)))
    "transfer proof identity mismatch"%string;;
  refuse_if (match tr_phase t with
             | PCleaned activation cleaned | PComplete activation cleaned _ =>
                 negb (o_group cleaned =? mv_source movement)
                 || (o_index cleaned <=? o_index (ip_fence (ac_image activation)))
             | _ => false
             end) "invalid cleanup proof"%string;;
  refuse_if (match tr_phase t with
             | PComplete activation _ completed =>
                 negb (o_group completed =? CONTROLLER)
                 || (applied <? o_index completed)
                 || (o_index completed <=? o_index (ow_controller (ac_ownership activation)))
             | _ => false
             end) "invalid completion proof"%string.

(** Sets collected while the transfers are walked: groups with live transfers,
    transfer identities, begin indices. *)
Record Seen := mkSeen { sn_live : gset GroupId; sn_identities : gset TransferId; sn_begins : gset N }.

Definition validate_transfer (c : Controller) (initialized : Origin) (seen : Seen)
  (request : string) (t : Transfer) : Outcome string Seen :=
  let movement := tr_movement t in
  refuse_if (negb (request ==? tr_request_id t)
    || (str_len request =? 0) || (128 <? str_len request)
    || negb (move_valid movement)
    || (co_applied c <? tr_index t)
    || (tr_index t <=? o_index initialized)
    || bool_decide (tr_id t ∈ sn_identities seen)
    || bool_decide (tr_index t ∈ sn_begins seen)
    || negb (contains (mv_source movement) (co_groups c))
    || negb (contains (mv_destination movement) (co_groups c))) "invalid transfer identity"%string;;
  let seen := mkSeen (sn_live seen) ({[tr_id t]} ∪ sn_identities seen)
                ({[tr_index t]} ∪ sn_begins seen) in
  route ← ok_or (co_routes c !! N.to_nat (ti_shard (tr_id t))) "transfer shard absent"%string;
  seen ←
    (if complete t then Done seen else
       refuse_if (negb (ro_transfer route ==? Some (tr_id t))
         || bool_decide (mv_source movement ∈ sn_live seen)
         || bool_decide (mv_destination movement ∈ {[mv_source movement]} ∪ sn_live seen))
         "overlapping active transfer"%string;;
       let owned := phase_owned (tr_phase t) in
       refuse_if (negb ((ro_owner route, ro_epoch route)
           ==? ((if owned then mv_destination movement else mv_source movement),
                (if owned then ti_epoch (tr_id t) else mv_previous_epoch movement))))
         "route disagrees with transfer phase"%string;;
       Done (mkSeen ({[mv_destination movement]} ∪ ({[mv_source movement]} ∪ sn_live seen))
               (sn_identities seen) (sn_begins seen)));
  validate_transfer_proofs (co_applied c) t;;
  Done seen.

Fixpoint validate_transfers (c : Controller) (initialized : Origin) (seen : Seen)
  (transfers : list (string * Transfer)) : Outcome string Seen :=
  match transfers with
  | [] => Done seen
  | (request, t) :: rest =>
      seen ← validate_transfer c initialized seen request t;
      validate_transfers c initialized seen rest
  end.

(** [sort_by_key]: stable insertion. *)
Fixpoint insert_by_key {A} (key : A -> N) (x : A) (l : list A) : list A :=
  match l with
  | [] => [x]
  | y :: rest => if key x <? key y then x :: l else y :: insert_by_key key x rest
  end.
Definition sort_by_key {A} (key : A -> N) (l : list A) : list A :=
  fold_left (fun acc x => insert_by_key key x acc) l [].

(** The loop over the tickets in generation order. *)
Fixpoint validate_tickets (c : Controller) (begins : gset N) (previous : option Origin)
  (previous_release : N) (progress : gmap GroupId (N * N)) (tickets : list MaintenanceTicket)
  : Outcome string unit :=
  match tickets with
  | [] => Done tt
  | ticket :: rest =>
      let index := o_index (mt_origin ticket) in
      refuse_if (negb (co_maintenance c !! mt_request_id ticket ==? Some ticket)
        || negb (ticket_valid ticket)
        || (index <=? previous_release)
        || (co_applied c <? index)
        || negb (mt_previous_generation ticket ==? previous)
        || bool_decide (index ∈ begins)
        || (negb (mt_target ticket =? CONTROLLER) && negb (contains (mt_target ticket) (co_groups c))))
        "invalid retained maintenance ticket or generation chain"%string;;
      match mt_completion ticket with
      | Some completion =>
          refuse_if (co_applied c <? o_index (mc_released completion))
            "maintenance completion exceeds applied controller state"%string;;
          refuse_if (is_some_and (progress !! mt_target ticket) (fun '(applied, term) =>
              (ar_first_index (mc_record completion) <=? applied)
              || (ar_first_term (mc_record completion) <? term)))
            "maintenance target history regresses"%string;;
          term ← or_panic (ar_final_term (mc_record completion));
          validate_tickets c ({[index]} ∪ begins) (Some (mt_origin ticket))
            (o_index (mc_released completion))
            (<[mt_target ticket := (o_index (mc_observed_applied completion), term)]> progress) rest
      | None =>
          refuse_if (negb (bool_decide (rest = [])) || handoff_pending c)
            "overlapping active maintenance or handoff"%string;;
          validate_tickets c ({[index]} ∪ begins) (Some (mt_origin ticket)) (co_applied c)
            progress rest
      end
  end.

Definition phase_ownership (phase : Phase) : option OwnershipProof :=
  match phase with
  | POwned ownership => Some ownership
  | PActivated activation | PCleaned activation _ | PComplete activation _ _ =>
      Some (ac_ownership activation)
  | _ => None
  end.

(** The controller index a later transfer of the shard must exceed. *)
Definition last_index (t : Transfer) : N :=
  match tr_phase t with
  | PComplete _ _ completed => o_index completed
  | PAborted abort _ _ _ => o_index (ab_controller abort)
  | phase => map_or (phase_ownership phase) (tr_index t) (fun p => o_index (ow_controller p))
  end.

(** The owner and epoch after the retained history of a shard. *)
Fixpoint replay_history (owner : GroupId) (epoch previous : N) (history : list Transfer)
  : Outcome string (GroupId * N) :=
  match history with
  | [] => Done (owner, epoch)
  | t :: rest =>
      let movement := tr_movement t in
      refuse_if (negb (mv_source movement =? owner)
        || negb (mv_previous_epoch movement =? epoch)
        || (tr_index t <=? previous)
        || (negb (complete t) && negb (bool_decide (rest = []))))
        "inconsistent retained route history"%string;;
      let owned := is_some (phase_ownership (tr_phase t)) in
      replay_history (if owned then mv_destination movement else owner)
        (if owned then ti_epoch (tr_id t) else epoch) (last_index t) rest
  end.

Definition history (c : Controller) (shard : ShardId) : list Transfer :=
  sort_by_key tr_index
    (List.filter (fun t => ti_shard (tr_id t) =? shard) (smap_values (co_transfers c))).

Fixpoint validate_histories (c : Controller) (initialized : Origin) (routes : list Route)
  : Outcome string unit :=
  match routes with
  | [] => Done tt
  | route :: rest =>
      let history := history c (ro_shard route) in
      let owner := map_or (head history) (ro_owner route) (fun t => mv_source (tr_movement t)) in
      final ← replay_history owner 1 (o_index initialized) history;
      refuse_if (negb ((ro_owner route, ro_epoch route) ==? final))
        "route differs from retained ownership history"%string;;
      refuse_if (is_some_and (ro_transfer route) (fun id =>
          negb (existsb (fun t => negb (complete t) && (tr_id t ==? id))
                  (smap_values (co_transfers c)))))
        "route references missing transfer"%string;;
      validate_histories c initialized rest
  end.

Definition validate (c : Controller) : Outcome string unit :=
  match co_initialized_at c with
  | None =>
      refuse_if (negb (bool_decide (co_groups c = [])) || negb (bool_decide (co_routes c = []))
                 || negb (bool_decide (co_transfers c = ∅))
                 || negb (bool_decide (co_maintenance c = ∅)))
        "uninitialized controller contains routes"%string
  | Some initialized =>
      refuse_if (negb (o_group initialized =? CONTROLLER)
        || (o_index initialized =? 0)
        || (co_applied c <? o_index initialized)
        || groups_invalid (co_groups c)
        || bool_decide (co_routes c = [])
        || (MAX_SHARDS <? len64 (co_routes c))
        || (MAX_TRANSFERS <? N.of_nat (size (co_transfers c)))
        || (MAX_MAINTENANCE_TICKETS <? N.of_nat (size (co_maintenance c))))
        "invalid controller configuration"%string;;
      validate_routes (co_groups c) 0 (co_routes c);;
      seen ← validate_transfers c initialized (mkSeen ∅ ∅ ∅) (smap_iter (co_transfers c));
      validate_tickets c (sn_begins seen) None (o_index initialized) ∅
        (sort_by_key (fun t => o_index (mt_origin t)) (smap_values (co_maintenance c)));;
      validate_histories c initialized (co_routes c);;
      match check_capacity c with
      | Done _ => Done tt
      | Refused _ => Refused "controller exceeds bound"%string
      | Panicked => Panicked
      end
  end.
End controller.
