(* ===== verification/ControllerInv.v ===== *)
(** * Ordered maps walked in another order

    [BTreeMap::values] of the controller's maps, sorted by a numeric key that
    distinguishes the values: how that list changes when an entry is added with
    the largest key, or one entry is replaced under the same key. *)
From S2P Require Import Prelude Controller Types Membership ShardTypes.
Local Open Scope N_scope.
Local Open Scope raft_scope.

Lemma find_None_iff {A} (f : A -> bool) l : List.find f l = None <-> forall x, x ∈ l -> f x = false.
Proof.
  setoid_rewrite list_elem_of_In. split; [by apply find_none|].
  intros Hf. destruct (List.find f l) as [x|] eqn:E; [|done].
  apply find_some in E as [Hin Hx]. by rewrite (Hf x Hin) in Hx.
Qed.

Lemma existsb_False {A} (f : A -> bool) l : existsb f l = false <-> forall x, x ∈ l -> f x = false.
Proof.
  induction l as [|y l IH]; cbn.
  - split; [intros _ x Hx; by apply not_elem_of_nil in Hx|done].
  - rewrite orb_false_iff, IH. setoid_rewrite elem_of_cons. naive_solver.
Qed.

(** ** Values of a map *)

Section values.
Context {V : Type}.
Implicit Types m : gmap string V.

Lemma smap_values_perm m : smap_values m ≡ₚ map snd (map_to_list m).
Proof. unfold smap_values, btree_iter. by rewrite merge_sort_Permutation. Qed.
Lemma elem_of_smap_values m v : v ∈ smap_values m <-> exists k, m !! k = Some v.
Proof.
  rewrite smap_values_perm, list_elem_of_fmap. setoid_rewrite elem_of_map_to_list'.
  split; [intros ([k v'] & -> & Hk); eauto|intros [k Hk]; by exists (k, v)].
Qed.
Lemma smap_values_insert_fresh m k v :
  m !! k = None -> smap_values (<[k := v]> m) ≡ₚ v :: smap_values m.
Proof. intros Hk. rewrite !smap_values_perm, map_to_list_insert by done. done. Qed.
Lemma smap_values_delete m k v :
  m !! k = Some v -> smap_values m ≡ₚ v :: smap_values (delete k m).
Proof.
  intros Hk. rewrite <- smap_values_insert_fresh with (k := k) by apply lookup_delete_eq.
  by rewrite insert_delete_id.
Qed.
Lemma smap_values_update m k v :
  smap_values (<[k := v]> m) ≡ₚ v :: smap_values (delete k m).
Proof.
  rewrite <- smap_values_insert_fresh with (k := k) by apply lookup_delete_eq.
  by rewrite insert_delete_eq.
Qed.

Lemma smap_existsb (f : V -> bool) m :
  existsb f (smap_values m) = true <-> exists k v, m !! k = Some v /\ f v = true.
Proof.
  rewrite existsb_exists. setoid_rewrite <- list_elem_of_In. setoid_rewrite elem_of_smap_values.
  naive_solver.
Qed.
Lemma smap_existsb_false (f : V -> bool) m :
  existsb f (smap_values m) = false <-> forall k v, m !! k = Some v -> f v = false.
Proof.
  rewrite <- not_true_iff_false, smap_existsb. split.
  - intros Hn k v Hk. destruct (f v) eqn:E; [|done]. exfalso. eauto.
  - intros Hf (k & v & Hk & Hv). by rewrite (Hf k v Hk) in Hv.
Qed.

(** Two entries of a map never share a key value that distinguishes them. *)
Definition distinct_keys (key : V -> N) m : Prop :=
  forall k1 v1 k2 v2, m !! k1 = Some v1 -> m !! k2 = Some v2 -> key v1 = key v2 -> k1 = k2.

Lemma distinct_keys_delete key m k : distinct_keys key m -> distinct_keys key (delete k m).
Proof.
  intros Hd k1 v1 k2 v2 H1 H2. apply lookup_delete_Some in H1 as [_ H1], H2 as [_ H2]. by eapply Hd.
Qed.
Lemma distinct_keys_NoDup key m : distinct_keys key m -> NoDup (map key (smap_values m)).
Proof.
  induction m as [|k v m Hk IH] using map_ind; intros Hd.
  - constructor.
  - rewrite smap_values_insert_fresh by done. cbn. apply list.NoDup_cons. split.
    + rewrite list_elem_of_fmap. intros (w & Hw & Hin). apply elem_of_smap_values in Hin as [j Hj].
      assert (j = k); [|by simplify_eq].
      eapply Hd; [|apply lookup_insert_eq|by symmetry].
      rewrite lookup_insert_ne; [done|]. by intros ->; simplify_eq.
    + apply IH. intros k1 v1 k2 v2 H1 H2. eapply Hd;
        (rewrite lookup_insert_ne; [done|]; by intros ->; simplify_eq).
Qed.
Lemma NoDup_distinct_keys key m : NoDup (map key (smap_values m)) -> distinct_keys key m.
Proof.
  intros Hd k1 v1 k2 v2 H1 H2 Hk. destruct (decide (k1 = k2)) as [|Hne]; [done|exfalso].
  rewrite (smap_values_delete _ _ _ H1) in Hd. cbn in Hd. apply list.NoDup_cons in Hd as [Hn _].
  apply Hn. apply list_elem_of_fmap. exists v2. split; [done|].
  apply elem_of_smap_values. exists k2. by rewrite lookup_delete_ne.
Qed.
End values.

(** ** Sorting by a key *)

Section sort.
Context {A : Type} (key : A -> N).

Abbreviation below := (fun x y : A => key x < key y).

Lemma insert_by_key_perm x l : insert_by_key key x l ≡ₚ x :: l.
Proof.
  induction l as [|y l IH]; cbn; [done|]. destruct (key x <? key y); [done|].
  rewrite IH. apply Permutation_swap.
Qed.
Lemma sort_by_key_snoc l x : sort_by_key key (l ++ [x]) = insert_by_key key x (sort_by_key key l).
Proof. unfold sort_by_key. by rewrite fold_left_app. Qed.
Lemma sort_by_key_perm l : sort_by_key key l ≡ₚ l.
Proof.
  induction l as [|x l IH] using rev_ind; [done|].
  rewrite sort_by_key_snoc, insert_by_key_perm, IH. by rewrite Permutation_cons_append.
Qed.

Lemma insert_by_key_sorted x l :
  StronglySorted below l -> key x ∉ map key l -> StronglySorted below (insert_by_key key x l).
Proof.
  induction l as [|y l IH]; cbn; intros HS Hx; [repeat constructor|].
  apply not_elem_of_cons in Hx as [Hxy Hx]. inversion HS as [|?? HS' HF]; subst.
  destruct (N.ltb_spec (key x) (key y)).
  - constructor; [done|]. constructor; [done|]. eapply list.Forall_impl; [exact HF|]. cbn. lia.
  - constructor; [by apply IH|]. rewrite insert_by_key_perm. constructor; [lia|done].
Qed.
Lemma sort_by_key_sorted l : NoDup (map key l) -> StronglySorted below (sort_by_key key l).
Proof.
  induction l as [|x l IH] using rev_ind; intros Hd; [constructor|].
  rewrite sort_by_key_snoc. rewrite map_app in Hd. apply list.NoDup_app in Hd as (Hd & Hx & _).
  apply insert_by_key_sorted; [auto|]. rewrite (sort_by_key_perm l).
  intros Hin. apply (Hx _ Hin). cbn. by left.
Qed.

Lemma sorted_unique l1 l2 :
  StronglySorted below l1 -> StronglySorted below l2 -> l1 ≡ₚ l2 -> l1 = l2.
Proof.
  intros H1. revert l2. induction H1 as [|x l1 H1 IH HF1]; intros l2 H2 Hp.
  - by apply Permutation_nil_l in Hp.
  - destruct H2 as [|y l2 H2 HF2]; [by symmetry in Hp; apply Permutation_nil_cons in Hp|].
    rewrite list.Forall_forall in HF1, HF2.
    assert (x = y) as ->.
    { assert (Hx : x ∈ y :: l2) by (rewrite <- Hp; left).
      assert (Hy : y ∈ x :: l1) by (rewrite Hp; left).
      apply elem_of_cons in Hx as [?|Hx]; [done|]. apply elem_of_cons in Hy as [?|Hy]; [done|].
      specialize (HF2 _ Hx). specialize (HF1 _ Hy). lia. }
    f_equal. apply IH; [done|]. by eapply Permutation_cons_inv.
Qed.
Lemma sort_by_key_unique l1 l2 :
  StronglySorted below l1 -> l1 ≡ₚ l2 -> NoDup (map key l2) -> sort_by_key key l2 = l1.
Proof.
  intros H1 Hp Hd. apply sorted_unique; [by apply sort_by_key_sorted|done|].
  by rewrite sort_by_key_perm, Hp.
Qed.

(** A new largest element goes last. *)
Lemma sort_by_key_max l x l' :
  NoDup (map key l) -> Forall (fun y => key y < key x) l -> l' ≡ₚ x :: l ->
  sort_by_key key l' = sort_by_key key l ++ [x].
Proof.
  intros Hd Hx Hp. apply sort_by_key_unique.
  - pose proof (sort_by_key_sorted l Hd) as HS.
    rewrite <- (sort_by_key_perm l) in Hx. revert HS Hx. generalize (sort_by_key key l).
    induction l0 as [|y l0 IH]; intros HS HF; [repeat constructor|].
    apply StronglySorted_inv in HS as [HS Hy]. apply list.Forall_cons in HF as [Hyx HF].
    constructor; [auto|]. apply list.Forall_app. split; [done|]. by constructor.
  - rewrite Hp, sort_by_key_perm. symmetry. apply Permutation_cons_append.
  - rewrite Hp. cbn. apply list.NoDup_cons. split; [|done].
    rewrite list_elem_of_fmap. intros (y & Hy & Hin). rewrite list.Forall_forall in Hx.
    specialize (Hx _ Hin). cbn in Hx. lia.
Qed.

(** Replacing an element under the same key keeps its place. *)
Lemma sort_by_key_replace l x x' l1 l2 :
  NoDup (map key (x :: l)) -> key x' = key x -> l1 ≡ₚ x :: l -> l2 ≡ₚ x' :: l ->
  exists a b, sort_by_key key l1 = a ++ x :: b /\ sort_by_key key l2 = a ++ x' :: b.
Proof.
  intros Hd Hk H1 H2.
  assert (Hd1 : NoDup (map key l1)) by (by rewrite H1).
  assert (Hin : x ∈ sort_by_key key l1) by (rewrite sort_by_key_perm, H1; left).
  apply list_elem_of_split in Hin as (a & b & E). exists a, b. split; [done|].
  pose proof (sort_by_key_sorted l1 Hd1) as HS. rewrite E in HS.
  assert (Hp : a ++ b ≡ₚ l).
  { apply (Permutation_cons_inv (a := x)).
    by rewrite Permutation_middle, <- E, sort_by_key_perm, H1. }
  apply sort_by_key_unique.
  - clear -HS Hk. induction a as [|y a IH]; cbn in *.
    + inversion HS as [|?? HS' HF]; subst. constructor; [done|].
      eapply list.Forall_impl; [exact HF|]. cbn. by rewrite Hk.
    + apply StronglySorted_inv in HS as [HS HF]. constructor; [auto|].
      apply list.Forall_app in HF as [Ha [Hyx Hb]%list.Forall_cons]. apply Forall_app. split; [done|].
      constructor; [|done]. by rewrite Hk.
  - by rewrite <- Permutation_middle, Hp, H2.
  - rewrite H2. cbn in *. by rewrite Hk.
Qed.
End sort.

(** * The invariant behind [Controller::validate]

    [validate] walks the whole state with accumulators; [wf] states the same
    conditions entry by entry, and [validate_wf] proves the two equivalent, so
    that the preservation proofs never look inside a loop. *)
(** ** One transfer *)

(** The owner and epoch a route must show for the transfer in this phase. *)
Definition phase_route (t : Transfer) : GroupId * N :=
  if is_some (phase_ownership (tr_phase t))
  then (mv_destination (tr_movement t), ti_epoch (tr_id t))
  else (mv_source (tr_movement t), mv_previous_epoch (tr_movement t)).

Definition transfer_wf (c : Controller) (i : Origin) (request : string) (t : Transfer) : Prop :=
  request = tr_request_id t
  /\ 0 < str_len request <= 128
  /\ move_valid (tr_movement t) = true
  /\ o_index i < tr_index t <= co_applied c
  /\ mv_source (tr_movement t) ∈ co_groups c
  /\ mv_destination (tr_movement t) ∈ co_groups c
  /\ (exists route, co_routes c !! N.to_nat (ti_shard (tr_id t)) = Some route
        /\ (complete t = false ->
              ro_transfer route = Some (tr_id t)
              /\ (ro_owner route, ro_epoch route) = phase_route t))
  /\ validate_transfer_proofs (co_applied c) t = Done tt.

(** The groups a transfer keeps busy. *)
Definition live_groups (t : Transfer) : list GroupId :=
  if complete t then [] else [mv_source (tr_movement t); mv_destination (tr_movement t)].
Definition all_live (l : list Transfer) : list GroupId := concat (map live_groups l).

#[export] Instance all_live_perm : Proper ((≡ₚ) ==> (≡ₚ)) all_live.
Proof. intros l1 l2 Hp. unfold all_live. by rewrite Hp. Qed.

(** ** The tickets, newest first *)

Section inv.
Context `{Fmt : TypeFormats} `{SerC : Serialize Controller}.

Definition tk_index (t : MaintenanceTicket) : N := o_index (mt_origin t).

Fixpoint tickets_seen (begins : gset N) (older : list MaintenanceTicket) : gset N :=
  match older with [] => begins | t :: older => {[tk_index t]} ∪ tickets_seen begins older end.
Definition tickets_previous (older : list MaintenanceTicket) : option Origin :=
  mt_origin <$> head older.
Definition tickets_release (applied start : N) (older : list MaintenanceTicket) : N :=
  map_or (head older) start (fun t =>
    map_or (mt_completion t) applied (fun completion => o_index (mc_released completion))).
Fixpoint tickets_progress (older : list MaintenanceTicket) : gmap GroupId (N * N) :=
  match older with
  | [] => ∅
  | t :: older =>
      match mt_completion t with
      | Some completion =>
          match ar_final_term (mc_record completion) with
          | Some term =>
              <[mt_target t := (o_index (mc_observed_applied completion), term)]>
                (tickets_progress older)
          | None => tickets_progress older
          end
      | None => tickets_progress older
      end
  end.

(** A completed ticket extends what its target had reached. *)
Definition progress_ok (older : list MaintenanceTicket) (t : MaintenanceTicket)
  (completion : MaintenanceCompletion) : Prop :=
  forall applied term, tickets_progress older !! mt_target t = Some (applied, term) ->
    applied < ar_first_index (mc_record completion) /\ term <= ar_first_term (mc_record completion).

Definition completed (t : MaintenanceTicket) : bool := is_some (mt_completion t).

Definition ticket_ok (c : Controller) (start : N) (begins : gset N)
  (older : list MaintenanceTicket) (t : MaintenanceTicket) : Prop :=
  co_maintenance c !! mt_request_id t = Some t
  /\ ticket_valid t = true
  /\ tickets_release (co_applied c) start older < tk_index t <= co_applied c
  /\ mt_previous_generation t = tickets_previous older
  /\ (tk_index t ∉ tickets_seen begins older)
  /\ (mt_target t = CONTROLLER \/ mt_target t ∈ co_groups c)
  /\ Forall completed older
  /\ match mt_completion t with
     | Some completion =>
         o_index (mc_released completion) <= co_applied c /\ progress_ok older t completion
     | None => handoff_pending c = false
     end.

Fixpoint ticket_chain (c : Controller) (start : N) (begins : gset N)
  (newest_first : list MaintenanceTicket) : Prop :=
  match newest_first with
  | [] => True
  | t :: older => ticket_ok c start begins older t /\ ticket_chain c start begins older
  end.

Definition tickets (c : Controller) : list MaintenanceTicket :=
  sort_by_key tk_index (smap_values (co_maintenance c)).
Definition begin_indices (c : Controller) : gset N :=
  list_to_set (map tr_index (smap_values (co_transfers c))).

(** ** The invariant *)

Definition first_owner (route : Route) (h : list Transfer) : GroupId :=
  map_or (head h) (ro_owner route) (fun t => mv_source (tr_movement t)).

Record wf (c : Controller) (i : Origin) : Prop := {
  wf_initialized : o_group i = CONTROLLER /\ 0 < o_index i <= co_applied c;
  wf_groups : groups_invalid (co_groups c) = false;
  wf_shards : co_routes c <> [] /\ len64 (co_routes c) <= MAX_SHARDS;
  wf_retained : N.of_nat (size (co_transfers c)) <= MAX_TRANSFERS
                /\ N.of_nat (size (co_maintenance c)) <= MAX_MAINTENANCE_TICKETS;
  wf_routes : forall k r, co_routes c !! k = Some r ->
    ro_shard r = N.of_nat k /\ ro_epoch r <> 0 /\ ro_owner r ∈ co_groups c;
  wf_transfers : forall request t, co_transfers c !! request = Some t -> transfer_wf c i request t;
  wf_indices : NoDup (map tr_index (smap_values (co_transfers c)));
  wf_live : NoDup (all_live (smap_values (co_transfers c)));
  wf_tickets : ticket_chain c (o_index i) (begin_indices c) (reverse (tickets c));
  wf_histories : forall r, r ∈ co_routes c ->
    replay_history (first_owner r (history c (ro_shard r))) 1 (o_index i) (history c (ro_shard r))
    = Done (ro_owner r, ro_epoch r);
  wf_pointers : forall r id, r ∈ co_routes c -> ro_transfer r = Some id ->
    exists request t, co_transfers c !! request = Some t /\ complete t = false /\ tr_id t = id;
}.

Definition blank (c : Controller) : Prop :=
  co_groups c = [] /\ co_routes c = [] /\ co_transfers c = ∅ /\ co_maintenance c = ∅.

Definition fits (c : Controller) : Prop := check_capacity c = Done tt.

(** ** The loops of [validate] *)

Lemma validate_routes_Done groups routes n :
  validate_routes groups n routes = Done tt <->
  forall k r, routes !! k = Some r ->
    ro_shard r = n + N.of_nat k /\ ro_epoch r <> 0 /\ ro_owner r ∈ groups.
Proof.
  revert n. induction routes as [|r routes IH]; intros n; cbn [validate_routes].
  - split; [intros _ k r Hk; by rewrite lookup_nil in Hk|done].
  - rewrite Outcome_bind_Done. split.
    + intros ([] & Hg & Hrest). apply refuse_if_Done in Hg. bool_inv. rewrite contains_true in *.
      rewrite IH in Hrest. intros [|k] r' Hk; cbn in Hk.
      * simplify_eq. rewrite N.add_0_r. auto.
      * destruct (Hrest k r' Hk) as (-> & ? & ?). split; [lia|auto].
    + intros Hall. exists tt. split.
      * apply refuse_if_Done. destruct (Hall 0%nat r eq_refl) as (Hs & He & Ho).
        rewrite <- contains_true in Ho. rewrite Ho, Hs, N.add_0_r, N.eqb_refl.
        by rewrite (proj2 (N.eqb_neq _ _) He).
      * apply IH. intros k r' Hk. destruct (Hall (S k) r' Hk) as (-> & ? & ?). split; [lia|auto].
Qed.

Lemma phase_route_owned t :
  complete t = false ->
  ((if phase_owned (tr_phase t) then mv_destination (tr_movement t) else mv_source (tr_movement t)),
   (if phase_owned (tr_phase t) then ti_epoch (tr_id t) else mv_previous_epoch (tr_movement t)))
  = phase_route t.
Proof. unfold phase_route, complete. by destruct (tr_phase t). Qed.

Lemma move_valid_ne m : move_valid m = true -> mv_source m <> mv_destination m.
Proof. unfold move_valid. intros Hm. by bool_inv. Qed.

Definition next_seen (seen : Seen) (t : Transfer) : Seen :=
  mkSeen (if complete t then sn_live seen
          else {[mv_destination (tr_movement t)]} ∪ ({[mv_source (tr_movement t)]} ∪ sn_live seen))
    ({[tr_id t]} ∪ sn_identities seen) ({[tr_index t]} ∪ sn_begins seen).

Lemma validate_transfer_Done c i seen request t seen' :
  validate_transfer c i seen request t = Done seen' <->
  transfer_wf c i request t /\ (tr_id t ∉ sn_identities seen) /\ (tr_index t ∉ sn_begins seen)
  /\ Forall (fun g => g ∉ sn_live seen) (live_groups t) /\ seen' = next_seen seen t.
Proof.
  unfold validate_transfer, transfer_wf, live_groups, next_seen. split.
  - intros Hv. outcome_inv. bool_inv. rewrite contains_true in *.
    destruct (complete t) eqn:Hc; outcome_inv; bool_inv; destruct_and?; subst.
    + split_and!; try done; try lia. exists x0. split; [done|]. intros ?; discriminate.
    + rewrite phase_route_owned in * by done. cbn [sn_live] in *.
      split_and!; try done; try lia.
      * exists x0. split; [done|]. intros _. done.
      * repeat constructor; set_solver.
  - intros ((Hr & Hl & Hm & Hi & Hs & Hd & (route & Hroute & Hlive) & Hp) & Hid & Hix & HF & ->).
    apply Outcome_bind_unit; [bool_intro; try done; lia|].
    rewrite Hroute; cbn [ok_or mbind Outcome_bind].
    destruct (complete t) eqn:Hc; cbn [mbind Outcome_bind]; [by rewrite Hp|].
    destruct (Hlive eq_refl) as [Hpt Hpr].
    apply list.Forall_cons in HF as [HF1 [HF2 _]%list.Forall_cons]. pose proof (move_valid_ne _ Hm).
    apply Outcome_bind_Done. eexists. split; [|by rewrite Hp].
    outcome_intro; [done|set_solver..| |done]. by rewrite phase_route_owned.
Qed.

(** What the walk over the transfers has collected. *)
Fixpoint all_seen (seen : Seen) (l : list (string * Transfer)) : Seen :=
  match l with [] => seen | (_, t) :: rest => all_seen (next_seen seen t) rest end.

(** The identities collected are those of the indices collected. *)
Definition seen_ok (seen : Seen) : Prop :=
  forall id, id ∈ sn_identities seen -> ti_controller_index id ∈ sn_begins seen.

Lemma seen_ok_next seen t : seen_ok seen -> seen_ok (next_seen seen t).
Proof.
  intros Hs id. cbn. rewrite !elem_of_union, !elem_of_singleton. intros [->|Hid]; [by left|auto].
Qed.

Lemma validate_transfers_Done c i l seen seen' :
  seen_ok seen ->
  validate_transfers c i seen l = Done seen' <->
  Forall (fun '(request, t) => transfer_wf c i request t) l
  /\ NoDup (map tr_index (map snd l)) /\ (forall t, t ∈ map snd l -> tr_index t ∉ sn_begins seen)
  /\ NoDup (all_live (map snd l)) /\ (forall g, g ∈ all_live (map snd l) -> g ∉ sn_live seen)
  /\ seen' = all_seen seen l.
Proof.
  revert seen. induction l as [|[request t] l IH]; intros seen Hs; cbn [validate_transfers].
  - split.
    + intros [= <-]. split_and!; try constructor; cbn; set_solver.
    + by intros (_ & _ & _ & _ & _ & ->).
  - rewrite Outcome_bind_Done. setoid_rewrite validate_transfer_Done.
    cbn [map all_seen]. unfold all_live. cbn [map concat]. fold (all_live (map snd l)).
    rewrite list.Forall_cons, list.NoDup_cons, NoDup_app. split.
    + intros (s1 & (Hwf & Hid & Hix & HF & ->) & Hrest).
      apply IH in Hrest as (HW & HN & Hb & HL & Hl & ->); [|by apply seen_ok_next].
      rewrite list.Forall_forall in HF.
      split_and!; try done.
      * rewrite list_elem_of_fmap. intros (t' & Ht' & Hin). specialize (Hb _ Hin).
        cbn in Hb. set_solver.
      * cbn [snd]. intros t' [->|Hin]%elem_of_cons; [done|]. specialize (Hb _ Hin). cbn in Hb. set_solver.
      * unfold live_groups. cbn [snd]. destruct (complete t); [constructor|].
        destruct Hwf as (_ & _ & Hm & _). apply move_valid_ne in Hm.
        repeat constructor; set_solver.
      * cbn [snd]. intros g Hg Hin. specialize (Hl _ Hin). cbn in Hl. unfold live_groups in Hg.
        destruct (complete t); set_solver.
      * cbn [snd]. intros g [Hg|Hg]%elem_of_app; [auto|]. specialize (Hl _ Hg). cbn in Hl.
        destruct (complete t); set_solver.
    + intros ((Hwf & HW) & (Hn & HN) & Hb & (HL1 & HL2 & HL3) & Hl & ->).
      exists (next_seen seen t). split.
      * split_and!; try done.
        -- intros Hid. apply Hs in Hid. by apply (Hb t); [left|].
        -- apply (Hb t). left.
        -- apply list.Forall_forall. intros g Hg. apply Hl. apply elem_of_app. by left.
      * apply IH; [by apply seen_ok_next|]. split_and!; try done.
        -- intros t' Hin. cbn. rewrite elem_of_union, elem_of_singleton. intros [Heq|Hin'].
           ++ apply Hn. apply list_elem_of_fmap. eauto.
           ++ apply (Hb t'); [by right|done].
        -- intros g Hg. specialize (Hl g). rewrite elem_of_app in Hl.
           specialize (Hl (or_intror Hg)). specialize (HL2 g). cbn. unfold live_groups in *.
           cbn [snd] in *. destruct (complete t); [done|]. set_solver.
Qed.

Lemma all_seen_begins l seen :
  sn_begins (all_seen seen l) = list_to_set (map tr_index (map snd l)) ∪ sn_begins seen.
Proof.
  revert seen. induction l as [|[request t] l IH]; intros seen; cbn; [set_solver|].
  rewrite IH. cbn. set_solver.
Qed.

Lemma all_seen_begin_indices c :
  sn_begins (all_seen (mkSeen ∅ ∅ ∅) (smap_iter (co_transfers c))) = begin_indices c.
Proof. rewrite all_seen_begins. apply union_empty_r_L. Qed.

(** *** Tickets *)

Lemma ticket_chain_app c start begins l older :
  ticket_chain c start begins (l ++ older) -> ticket_chain c start begins older.
Proof. induction l as [|t l IH]; cbn; [done|]. intros [_ Hc]. auto. Qed.
Lemma ticket_chain_completed c start begins l older t :
  ticket_chain c start begins (l ++ t :: older) -> l <> [] -> completed t.
Proof.
  destruct l as [|t' l]; [done|]. cbn. intros [(_ & _ & _ & _ & _ & _ & HF & _) _] _.
  apply list.Forall_app in HF as [_ HF]. by apply list.Forall_cons in HF as [? _].
Qed.
Lemma ticket_valid_term t completion :
  ticket_valid t = true -> mt_completion t = Some completion ->
  exists term, ar_final_term (mc_record completion) = Some term.
Proof.
  unfold ticket_valid, record_matches. intros Hv Hc. rewrite Hc in Hv. cbn [map_or] in Hv. bool_inv.
  destruct (ar_final_index (mc_record completion)), (ar_final_term (mc_record completion)); try done.
  eauto.
Qed.

(** What one turn of the loop checks, given the tickets already walked. *)
Lemma validate_tickets_cons c start begins older t rest :
  Forall completed older ->
  validate_tickets c (tickets_seen begins older) (tickets_previous older)
    (tickets_release (co_applied c) start older) (tickets_progress older) (t :: rest) = Done tt <->
  ticket_ok c start begins older t /\ (rest <> [] -> completed t)
  /\ validate_tickets c (tickets_seen begins (t :: older)) (tickets_previous (t :: older))
       (tickets_release (co_applied c) start (t :: older)) (tickets_progress (t :: older)) rest = Done tt.
Proof.
  intros HF. cbn [validate_tickets]. unfold ticket_ok, completed.
  unfold tickets_release at 3, tickets_previous at 3. cbn [head map_or fmap option_fmap option_map].
  cbn [tickets_progress tickets_seen]. fold (tk_index t). split.
  - intros Hv. outcome_inv. bool_inv.
    assert (Htgt : mt_target t = CONTROLLER \/ mt_target t ∈ co_groups c).
    { destruct (decide (mt_target t = CONTROLLER)) as [|Hne]; [by left|right].
      rewrite (proj2 (N.eqb_neq _ _) Hne) in *. cbn in *. bool_inv. by apply contains_true. }
    destruct (mt_completion t) as [completion|] eqn:Hc; cbn [is_some map_or].
    + outcome_inv. bool_inv. split_and!; try done; try lia.
      * intros applied term Hp. rewrite Hp in *. cbn [is_some_and] in *. bool_inv. lia.
      * match goal with E : ar_final_term _ = Some _ |- _ => by rewrite E end.
    + outcome_inv. bool_inv. split_and!; try done; lia.
  - intros ((Hm & Hv & Hi & Hp & Hs & Ht & _ & Hcase) & Hrest & Hv').
    apply Outcome_bind_unit.
    { bool_intro; try done; try lia. destruct Ht as [->|Ht]; [done|].
      apply andb_false_intro2. bool_intro. done. }
    destruct (mt_completion t) as [completion|] eqn:Hc; cbn [is_some map_or] in *.
    + destruct (ticket_valid_term t completion Hv Hc) as [term Hterm]. rewrite Hterm in *.
      destruct Hcase as [Hrel Hprog]. outcome_intro; [done| |done].
      destruct (tickets_progress older !! mt_target t) as [[applied tm]|] eqn:E; cbn; [|done].
      destruct (Hprog applied tm E). bool_intro; lia.
    + outcome_intro; [|done..]. destruct rest; [done|]. by destruct Hrest.
Qed.

Lemma validate_tickets_chain c start begins l older :
  ticket_chain c start begins older -> (l <> [] -> Forall completed older) ->
  validate_tickets c (tickets_seen begins older) (tickets_previous older)
    (tickets_release (co_applied c) start older) (tickets_progress older) l = Done tt <->
  ticket_chain c start begins (reverse l ++ older).
Proof.
  revert older. induction l as [|t l IH]; intros older Hchain HF; [done|].
  specialize (HF ltac:(done)). rewrite validate_tickets_cons by done.
  rewrite reverse_cons, <- app_assoc. cbn [app]. split.
  - intros (Hok & Hcomp & Hv). apply IH in Hv; [done|by split|]. intros Hl. constructor; auto.
  - intros Hc. pose proof (ticket_chain_app _ _ _ _ _ Hc) as [Hok _].
    assert (Hcomp : l <> [] -> completed t).
    { intros Hl. eapply ticket_chain_completed; [exact Hc|].
      intros E. apply Hl. by apply (f_equal reverse) in E; rewrite reverse_involutive in E. }
    split_and!; [done..|]. apply IH; [by split| |done]. intros Hl. constructor; auto.
Qed.

(** *** Histories *)

Lemma validate_histories_Done c i routes :
  validate_histories c i routes = Done tt <->
  forall r, r ∈ routes ->
    replay_history (first_owner r (history c (ro_shard r))) 1 (o_index i) (history c (ro_shard r))
    = Done (ro_owner r, ro_epoch r)
    /\ (forall id, ro_transfer r = Some id ->
          exists request t, co_transfers c !! request = Some t /\ complete t = false /\ tr_id t = id).
Proof.
  induction routes as [|r routes IH]; cbn [validate_histories].
  - split; [intros _ r Hr; by apply not_elem_of_nil in Hr|done].
  - rewrite Outcome_bind_Done. fold (first_owner r (history c (ro_shard r))).
    assert (Hptr : (is_some_and (ro_transfer r) (fun id =>
          negb (existsb (fun t => negb (complete t) && (tr_id t ==? id))
                  (smap_values (co_transfers c)))) = false) <->
        forall id, ro_transfer r = Some id ->
          exists request t, co_transfers c !! request = Some t /\ complete t = false /\ tr_id t = id).
    { destruct (ro_transfer r) as [id|]; cbn; [|naive_solver].
      rewrite negb_false_iff, smap_existsb. setoid_rewrite andb_true_iff.
      setoid_rewrite negb_true_iff. setoid_rewrite eqb_true. naive_solver. }
    split.
    + intros (final & Hr & Hv). outcome_inv. bool_inv. subst final.
      intros r' [->|Hin]%elem_of_cons; [|by apply IH]. split; [done|by apply Hptr].
    + intros Hall. exists (ro_owner r, ro_epoch r). split; [apply Hall; left|].
      outcome_intro; [done| |].
      * apply Hptr. apply Hall. left.
      * apply IH. intros r' Hin. apply Hall. by right.
Qed.

(** ** [validate] is the invariant *)

Lemma wf_of_validate c i :
  co_initialized_at c = Some i -> validate c = Done tt -> wf c i /\ fits c.
Proof.
  intros Hi. unfold validate. rewrite Hi. intros Hv. outcome_inv. bool_inv.
  match goal with H : validate_transfers _ _ _ _ = _ |- _ =>
    apply validate_transfers_Done in H as (HW & HN & _ & HL & _ & ->); [|done] end.
  match goal with H : validate_routes _ _ _ = _ |- _ =>
    rewrite validate_routes_Done in H; rename H into HR end.
  match goal with H : validate_histories _ _ _ = _ |- _ =>
    rewrite validate_histories_Done in H; rename H into HH end.
  destruct (check_capacity c) as [[]| |] eqn:Hfit; [|discriminate..].
  split; [|done]. constructor; try done.
  - split; [done|lia].
  - intros request t Ht. rewrite list.Forall_forall in HW.
    apply (HW (request, t)). by apply elem_of_btree_iter.
  - rewrite <- (app_nil_r (reverse _)).
    apply validate_tickets_chain; [done|done|].
    match goal with H : validate_tickets _ (sn_begins _) _ _ _ _ = _ |- _ => rename H into HT end.
    rewrite all_seen_begin_indices in HT. exact HT.
  - intros r Hr. by apply HH.
  - intros r id Hr. by apply HH.
Qed.

Lemma validate_of_wf c i :
  co_initialized_at c = Some i -> wf c i -> fits c -> validate c = Done tt.
Proof.
  intros Hi W Hfit. unfold validate. rewrite Hi.
  destruct W as [[Wi1 Wi2] Wg [Ws1 Ws2] [Wr1 Wr2] WR WT WN WL Wt WH WP].
  apply Outcome_bind_unit; [bool_intro; try done; lia|].
  apply Outcome_bind_unit.
  { apply validate_routes_Done. intros k r Hk. destruct (WR k r Hk) as (-> & ? & ?). done. }
  apply Outcome_bind_Done. eexists. split.
  { apply validate_transfers_Done; [done|]. split_and!; [|exact WN|done|exact WL|done|reflexivity].
    apply list.Forall_forall. intros [request t] Ht%elem_of_btree_iter. by apply WT. }
  apply Outcome_bind_unit.
  { rewrite all_seen_begin_indices.
    apply (validate_tickets_chain c (o_index i) (begin_indices c) (tickets c) []); [done..|].
    by rewrite app_nil_r. }
  apply Outcome_bind_unit.
  { apply validate_histories_Done. intros r Hr. split; [by apply WH|]. intros id. by apply WP. }
  by rewrite Hfit.
Qed.

(** The states [validate] accepts. *)
Definition sound (c : Controller) : Prop :=
  match co_initialized_at c with
  | None => blank c
  | Some i => wf c i /\ fits c
  end.

Lemma validate_sound c : validate c = Done tt <-> sound c.
Proof.
  unfold sound. destruct (co_initialized_at c) as [i|] eqn:Hi.
  - split; [by apply wf_of_validate|]. intros [??]. by eapply validate_of_wf.
  - unfold validate, blank. rewrite Hi, refuse_if_Done. split.
    + intros Hv. bool_inv. done.
    + intros (? & ? & ? & ?). bool_intro; done.
Qed.
End inv.
