(* ===== verification/ControllerSafe.v ===== *)
(** * The controller keeps its invariant

    Every command of [Controller::execute] keeps the state one that [validate]
    accepts, and none of its [unreachable!], [expect] and indexing operations
    panics.  The law [ControllerLaws] is the documented JSON encoding of the
    watermark: a decimal number in an otherwise unchanged object. *)
From S2P Require Import Prelude Types Membership ShardTypes Controller ControllerInv.
Local Open Scope N_scope.
Local Open Scope raft_scope.

(** ** Histories *)

Definition last_bound (previous : N) (h : list Transfer) : N := map_or (last h) previous last_index.

Lemma replay_snoc owner epoch previous h t res :
  replay_history owner epoch previous (h ++ [t]) = Done res <->
  Forall (fun t => complete t = true) h
  /\ replay_history owner epoch previous h
     = Done (mv_source (tr_movement t), mv_previous_epoch (tr_movement t))
  /\ last_bound previous h < tr_index t /\ res = phase_route t.
Proof.
  revert owner epoch previous. induction h as [|u h IH]; intros owner epoch previous.
  - cbn [app replay_history]. unfold last_bound, phase_route; cbn [last map_or].
    rewrite Outcome_bind_Done. split.
    + intros ([] & Hg & Hr). apply refuse_if_Done in Hg. bool_inv. injection Hr as <-.
      split_and!; [constructor|by subst|lia|]. by destruct (is_some _); subst.
    + intros (_ & [= -> ->] & Hl & ->). exists tt. split.
      * bool_intro; [done..|lia|]. by rewrite andb_false_r.
      * by destruct (is_some _).
  - cbn [app replay_history]. rewrite !Outcome_bind_Done. rewrite list.Forall_cons.
    assert (Hlast : last_bound previous (u :: h) = last_bound (last_index u) h).
    { unfold last_bound. by destruct h using rev_ind; [|rewrite app_comm_cons, !last_snoc]. }
    rewrite Hlast. split.
    + intros ([] & Hg & Hr). apply refuse_if_Done in Hg. bool_inv.
      apply IH in Hr as (HF & Hr & Hl & ->).
      assert (Hu : complete u = true).
      { destruct (complete u); [done|]. cbn in *. bool_inv. by destruct h. }
      split_and!; [done|done| |done|done]. exists tt. split; [|done].
      bool_intro; [done..|lia|]. by rewrite Hu.
    + intros ((Hu & HF) & ([] & Hg & Hr) & Hl & ->). exists tt. split; [|by apply IH].
      apply refuse_if_Done in Hg. bool_inv. bool_intro; [done..|lia|]. by rewrite Hu.
Qed.

Lemma replay_incomplete_last owner epoch previous a t b res :
  replay_history owner epoch previous (a ++ t :: b) = Done res -> complete t = false -> b = [].
Proof.
  intros Hr Hc. destruct b as [|u b _] using rev_ind; [done|].
  rewrite app_comm_cons, app_assoc in Hr. apply replay_snoc in Hr as (HF & _).
  apply list.Forall_app in HF as [_ [HF _]%list.Forall_cons]. by rewrite Hc in HF.
Qed.

Definition of_shard (shard : ShardId) (l : list Transfer) : list Transfer :=
  List.filter (fun t => ti_shard (tr_id t) =? shard) l.

Lemma of_shard_perm shard l1 l2 : l1 ≡ₚ l2 -> of_shard shard l1 ≡ₚ of_shard shard l2.
Proof.
  induction 1; cbn; try (destruct (_ =? _)); try (destruct (_ =? _)); eauto using Permutation;
    by etrans.
Qed.
Lemma of_shard_sub shard l t : t ∈ of_shard shard l -> t ∈ l /\ ti_shard (tr_id t) = shard.
Proof.
  unfold of_shard. rewrite !list_elem_of_In, List.filter_In. intros [? ?]. by bool_inv.
Qed.
Lemma of_shard_NoDup shard l : NoDup (map tr_index l) -> NoDup (map tr_index (of_shard shard l)).
Proof.
  induction l as [|t l IH]; cbn; [done|]. intros [Hn Hd]%list.NoDup_cons.
  destruct (_ =? _); [|auto]. cbn. apply list.NoDup_cons. split; [|auto].
  rewrite list_elem_of_fmap. intros (u & Hu & Hin). apply Hn. apply list_elem_of_fmap.
  exists u. split; [done|]. by apply of_shard_sub in Hin as [? _].
Qed.
Lemma history_of_shard c shard :
  history c shard = sort_by_key tr_index (of_shard shard (smap_values (co_transfers c))).
Proof. done. Qed.

(** The history of a shard after a transfer enters with the largest index. *)
Lemma history_insert c request t shard :
  co_transfers c !! request = None ->
  NoDup (map tr_index (smap_values (co_transfers c))) ->
  (forall r u, co_transfers c !! r = Some u -> tr_index u < tr_index t) ->
  sort_by_key tr_index (of_shard shard (smap_values (<[request := t]> (co_transfers c))))
  = history c shard ++ (if ti_shard (tr_id t) =? shard then [t] else []).
Proof.
  intros Hk Hd Hmax. rewrite history_of_shard.
  pose proof (of_shard_perm shard _ _ (smap_values_insert_fresh _ _ t Hk)) as Hp. cbn in Hp.
  destruct (ti_shard (tr_id t) =? shard).
  - apply sort_by_key_max; [by apply of_shard_NoDup| |done].
    apply list.Forall_forall. intros u [Hu _]%of_shard_sub.
    apply elem_of_smap_values in Hu as [r Hr]. by eapply Hmax.
  - rewrite app_nil_r. apply sort_by_key_unique.
    + by apply sort_by_key_sorted, of_shard_NoDup.
    + by rewrite sort_by_key_perm, Hp.
    + rewrite Hp. by apply of_shard_NoDup.
Qed.

(** ... and after one transfer changes its phase. *)
Lemma history_update c request t t' shard :
  co_transfers c !! request = Some t -> tr_movement t' = tr_movement t ->
  NoDup (map tr_index (smap_values (co_transfers c))) ->
  let h' := sort_by_key tr_index (of_shard shard (smap_values (<[request := t']> (co_transfers c)))) in
  if ti_shard (tr_id t) =? shard
  then exists a b, history c shard = a ++ t :: b /\ h' = a ++ t' :: b
  else h' = history c shard.
Proof.
  intros Hk Hm Hd h'. unfold h'. rewrite history_of_shard.
  assert (Hid : tr_id t' = tr_id t) by (unfold tr_id; by rewrite Hm).
  pose proof (smap_values_delete _ _ _ Hk) as Hp1.
  pose proof (smap_values_update (co_transfers c) request t') as Hp2.
  pose proof (of_shard_NoDup shard _ Hd) as Hd'.
  apply (of_shard_perm shard) in Hp1, Hp2. cbn in Hp1, Hp2. rewrite Hid in Hp2.
  destruct (ti_shard (tr_id t) =? shard).
  - eapply sort_by_key_replace; [by rewrite <- Hp1| |done|done].
    unfold tr_index. by rewrite Hid.
  - apply sort_by_key_unique; [by apply sort_by_key_sorted| |].
    + by rewrite sort_by_key_perm, Hp1, Hp2.
    + by rewrite Hp2, <- Hp1.
Qed.

(** ** Growing the watermark *)

Lemma validate_phase_mono n n' movement phase r :
  n <= n' -> validate_phase n movement phase = Done r -> validate_phase n' movement phase = Done r.
Proof.
  intros Hn. unfold validate_phase, validate_abort. destruct phase; intros Hv; try done;
    outcome_inv; subst; outcome_intro; bool_inv; try done; try lia.
Qed.
Lemma validate_transfer_proofs_mono n n' t :
  n <= n' -> validate_transfer_proofs n t = Done tt -> validate_transfer_proofs n' t = Done tt.
Proof.
  intros Hn. unfold validate_transfer_proofs. intros Hv. outcome_inv.
  apply Outcome_bind_Done. eexists. split; [by eapply validate_phase_mono|].
  outcome_intro; [done|done|]. apply refuse_if_Done. destruct (tr_phase t); try done.
  bool_inv. bool_intro; [done|lia|lia].
Qed.
Lemma transfer_wf_mono c i request t n :
  co_applied c <= n -> transfer_wf c i request t -> transfer_wf (c <| co_applied := n |>) i request t.
Proof.
  intros Hn (? & ? & ? & ? & ? & ? & ? & Hp). unfold transfer_wf. cbn.
  split_and!; try done; try lia. by eapply validate_transfer_proofs_mono.
Qed.

Section safe.
Context `{Fmt : TypeFormats} `{SerC : Serialize Controller}.

Lemma tickets_release_mono n n' start older :
  Forall completed older -> tickets_release n' start older = tickets_release n start older.
Proof.
  unfold tickets_release, completed. destruct older as [|t older]; cbn; [done|].
  intros [Ht _]%list.Forall_cons. by destruct (mt_completion t).
Qed.

(** The tickets stay valid while the rest of the state moves on. *)
Lemma ticket_chain_frame c c' start b b' l :
  ticket_chain c start b l ->
  (forall t, t ∈ l -> co_maintenance c !! mt_request_id t = Some t ->
             co_maintenance c' !! mt_request_id t = Some t) ->
  co_groups c' = co_groups c -> co_applied c <= co_applied c' ->
  (forall n, n ∈ b' -> n ∈ b \/ co_applied c < n) ->
  (Forall completed l \/ handoff_pending c' = false) ->
  ticket_chain c' start b' l.
Proof.
  intros Hchain Hm Hg Ha Hb Hh. induction l as [|t l IH]; [done|].
  cbn [ticket_chain] in *. destruct Hchain as [(H1 & H2 & H3 & H4 & H5 & H6 & H7 & H8) Hchain].
  split; [|apply IH; [done|intros u Hu; apply Hm; by right|by left]].
  unfold ticket_ok. rewrite Hg, (tickets_release_mono (co_applied c)) by done.
  split_and!; try done; try lia.
  - apply Hm; [by left|done].
  - assert (Hsub : forall n, n ∈ tickets_seen b' l -> n ∈ tickets_seen b l \/ co_applied c < n).
    { clear -Hb. induction l as [|u l IH]; cbn; [done|]. intros n. rewrite !elem_of_union.
      intros [?|?]; [by left; left|]. destruct (IH n); auto. }
    intros Hin. destruct (Hsub _ Hin); [done|lia].
  - destruct (mt_completion t) eqn:Hc; [destruct H8; split; [lia|done]|].
    destruct Hh as [[Ht _]%list.Forall_cons|]; [|done]. unfold completed in Ht. by rewrite Hc in Ht.
Qed.

Lemma ticket_chain_active c start b l :
  ticket_chain c start b l -> Forall completed l \/ handoff_pending c = false.
Proof.
  destruct l as [|t l]; [by left|]. intros [(_ & _ & _ & _ & _ & _ & HF & Hc) _].
  destruct (mt_completion t) eqn:E; [left|by right]. constructor; [|done].
  unfold completed. by rewrite E.
Qed.

Lemma wf_applied c i n : wf c i -> co_applied c <= n -> wf (c <| co_applied := n |>) i.
Proof.
  intros [Wi Wg Ws Wr WR WT WN WL Wt WH WP] Hn. constructor; cbn; try done.
  - destruct Wi. split; [done|lia].
  - intros request t Ht. by apply transfer_wf_mono; [|apply WT].
  - eapply ticket_chain_frame; [exact Wt|done|done|cbn; lia|intros; by left|].
    by apply ticket_chain_active in Wt.
Qed.

(** ** No ticket is active while a handoff is pending *)

Lemma tickets_elem c t : t ∈ tickets c <-> exists request, co_maintenance c !! request = Some t.
Proof. unfold tickets. rewrite sort_by_key_perm. apply elem_of_smap_values. Qed.
Lemma tickets_completed_iff c : Forall completed (reverse (tickets c)) <-> active_maintenance c = None.
Proof.
  rewrite Forall_reverse, list.Forall_forall. unfold active_maintenance. rewrite find_None_iff.
  setoid_rewrite tickets_elem. setoid_rewrite elem_of_smap_values. unfold completed, is_none.
  setoid_rewrite negb_false_iff. setoid_rewrite Is_true_true. done.
Qed.
Lemma handoff_pending_true c :
  handoff_pending c = true <-> exists request t, co_transfers c !! request = Some t /\ complete t = false.
Proof. unfold handoff_pending. rewrite smap_existsb. setoid_rewrite negb_true_iff. done. Qed.
Lemma wf_pending_tickets c i :
  wf c i -> handoff_pending c = true -> Forall completed (reverse (tickets c)).
Proof. intros W Hp. destruct (ticket_chain_active _ _ _ _ (wf_tickets _ _ W)); congruence. Qed.

(** ** One transfer moves *)

(** A route only names a transfer of its own shard. *)
Definition pointers_ok (c : Controller) : Prop :=
  forall r id, r ∈ co_routes c -> ro_transfer r = Some id -> ti_shard id = ro_shard r.

Lemma wf_route_at c i shard route :
  wf c i -> co_routes c !! N.to_nat shard = Some route -> ro_shard route = shard.
Proof. intros W Hr. destruct (wf_routes _ _ W _ _ Hr) as [-> _]. lia. Qed.

Lemma routes_insert_inv (routes : list Route) k route r :
  r ∈ <[k := route]> routes -> r = route \/ exists j, j <> k /\ routes !! j = Some r.
Proof.
  intros [j Hj]%list_elem_of_lookup_1. destruct (decide (j = k)) as [->|Hne].
  - left. destruct (decide (k < length routes)%nat).
    + rewrite list_lookup_insert_eq in Hj by done. by simplify_eq.
    + rewrite list_insert_ge in Hj by lia. apply lookup_lt_Some in Hj. lia.
  - right. exists j. by rewrite list_lookup_insert_ne in Hj.
Qed.

Section update.
Context (c : Controller) (i : Origin) (request : string) (t : Transfer) (phase : Phase).
Context (route route' : Route).
Let t' := t <| tr_phase := phase |>.
Let k := N.to_nat (ti_shard (tr_id t)).
Let c' := c <| co_routes := <[k := route']> (co_routes c) |>
            <| co_transfers := <[request := t']> (co_transfers c) |>.
Context (W : wf c i) (P : pointers_ok c) (Ht : co_transfers c !! request = Some t)
  (Hlive : complete t = false)
  (Hproofs : validate_transfer_proofs (co_applied c) t' = Done tt)
  (Hroute : co_routes c !! k = Some route)
  (Hshard : ro_shard route' = ti_shard (tr_id t))
  (Hepoch : ro_epoch route' <> 0) (Howner : ro_owner route' ∈ co_groups c)
  (Hphase : (ro_owner route', ro_epoch route') = phase_route t')
  (Hptr : ro_transfer route' = if complete t' then None else Some (tr_id t)).

Lemma update_lookup j r : <[k := route']> (co_routes c) !! j = Some r ->
  (j = k /\ r = route') \/ (j <> k /\ co_routes c !! j = Some r).
Proof using All.
  pose proof (lookup_lt_Some _ _ _ Hroute). destruct (decide (j = k)) as [->|Hne].
  - rewrite list_lookup_insert_eq by done. naive_solver.
  - rewrite list_lookup_insert_ne by done. naive_solver.
Qed.

Lemma update_transfers r u : co_transfers c' !! r = Some u -> transfer_wf c' i r u.
Proof using All.
  cbn. intros Hu. apply lookup_insert_Some in Hu as [[<- <-]|[Hne Hu]].
  - destruct (wf_transfers _ _ W _ _ Ht) as (H1 & H2 & H3 & H4 & H5 & H6 & _ & _).
    refine (conj H1 (conj H2 (conj H3 (conj H4 (conj H5 (conj H6 (conj _ Hproofs))))))).
    exists route'. split.
    + cbn. apply list_lookup_insert_eq. by eapply lookup_lt_Some.
    + intros Hc. rewrite Hptr, Hc. done.
  - destruct (wf_transfers _ _ W _ _ Hu) as (H1 & H2 & H3 & H4 & H5 & H6 & (ru & Hru & Hcu) & H8).
    refine (conj H1 (conj H2 (conj H3 (conj H4 (conj H5 (conj H6 (conj _ H8))))))). cbn.
    destruct (decide (N.to_nat (ti_shard (tr_id u)) = k)) as [Hk|Hk].
    + exists route'. rewrite Hk. split; [apply list_lookup_insert_eq; by eapply lookup_lt_Some|].
      intros Hc. exfalso. rewrite Hk, Hroute in Hru. injection Hru as <-.
      destruct (wf_transfers _ _ W _ _ Ht) as (_ & _ & _ & _ & _ & _ & (r0 & Hr0 & Hc0) & _).
      fold k in Hr0. rewrite Hroute in Hr0. injection Hr0 as <-.
      destruct (Hcu Hc) as [Hp1 _], (Hc0 Hlive) as [Hp2 _].
      apply Hne. rewrite Hp1 in Hp2. injection Hp2 as Hid. symmetry.
      eapply (NoDup_distinct_keys tr_index); [apply W|done|done|]. unfold tr_index. by rewrite Hid.
    + exists ru. split; [by rewrite list_lookup_insert_ne|done].
Qed.

Lemma update_values : exists rest,
  smap_values (co_transfers c) ≡ₚ t :: rest /\ smap_values (co_transfers c') ≡ₚ t' :: rest.
Proof using All.
  exists (smap_values (delete request (co_transfers c))).
  split; [by apply smap_values_delete|apply smap_values_update].
Qed.

Lemma update_indices : map tr_index (smap_values (co_transfers c')) ≡ₚ map tr_index (smap_values (co_transfers c)).
Proof using All. destruct update_values as (rest & H1 & H2). by rewrite H1, H2. Qed.

Lemma update_histories r : r ∈ co_routes c' ->
  replay_history (first_owner r (history c' (ro_shard r))) 1 (o_index i) (history c' (ro_shard r))
  = Done (ro_owner r, ro_epoch r).
Proof using All.
  intros [j Hj]%list_elem_of_lookup_1. cbn in Hj.
  pose proof (history_update c request t t' (ro_shard r) Ht eq_refl (wf_indices _ _ W)) as Hh.
  cbv zeta in Hh. fold (history c' (ro_shard r)) in Hh.
  change (sort_by_key _ _) with (history c' (ro_shard r)) in Hh.
  apply update_lookup in Hj as [[-> ->]|[Hne Hj]].
  - rewrite Hshard, N.eqb_refl in Hh. rewrite Hshard. destruct Hh as (a & b & Ha & Hb).
    pose proof (wf_histories _ _ W route ltac:(by eapply list_elem_of_lookup_2)) as Hr.
    rewrite (wf_route_at _ _ _ _ W Hroute), Ha in Hr.
    pose proof (replay_incomplete_last _ _ _ _ _ _ _ Hr Hlive) as ->.
    apply replay_snoc in Hr as (HF & Hr & Hl & _). rewrite Hb, Hphase.
    apply replay_snoc. split; [done|]. split; [|done].
    replace (first_owner route' (a ++ [t'])) with (first_owner route (a ++ [t])); [done|].
    by destruct a.
  - destruct (N.eqb_spec (ti_shard (tr_id t)) (ro_shard r)) as [Heq|_].
    + exfalso. apply Hne. unfold k. rewrite Heq.
      destruct (wf_routes _ _ W _ _ Hj) as [-> _]. lia.
    + rewrite Hh. apply W. by eapply list_elem_of_lookup_2.
Qed.

Lemma update_pointers r id : r ∈ co_routes c' -> ro_transfer r = Some id ->
  exists q u, co_transfers c' !! q = Some u /\ complete u = false /\ tr_id u = id.
Proof using All.
  intros [j Hj]%list_elem_of_lookup_1 Hid. cbn in Hj. apply update_lookup in Hj as [[-> ->]|[Hne Hj]].
  - exists request, t'. cbn [co_transfers c']. split; [apply lookup_insert_eq|].
    rewrite Hptr in Hid. destruct (complete t'); [done|]. split; [done|]. by injection Hid.
  - assert (Hin : r ∈ co_routes c) by (by eapply list_elem_of_lookup_2).
    destruct (wf_pointers _ _ W r id Hin Hid) as (q & u & Hu & Hc & Hui).
    exists q, u. split; [|done]. cbn. rewrite lookup_insert_ne; [done|]. intros <-.
    apply Hne. unfold k. rewrite Ht in Hu. injection Hu as <-. rewrite Hui, (P r id Hin Hid).
    destruct (wf_routes _ _ W _ _ Hj) as [-> _]. lia.
Qed.

Lemma wf_update : wf c' i /\ pointers_ok c'.
Proof using All.
  destruct update_values as (rest & Hv & Hv'). split.
  - constructor; try (apply W).
    + cbn. destruct (wf_shards _ _ W) as [Hne Hlen]. unfold len64 in *. rewrite length_insert.
      split; [|done]. intros E. apply Hne. apply length_zero_iff_nil.
      by rewrite <- (length_insert _ k route'), E.
    + cbn. rewrite map_size_insert_Some by (by rewrite Ht). apply W.
    + cbn. intros j r Hj. apply update_lookup in Hj as [[-> ->]|[_ Hj]]; [|by apply W].
      split; [|done]. rewrite Hshard. unfold k. lia.
    + apply update_transfers.
    + rewrite update_indices. apply W.
    + pose proof (wf_live _ _ W) as HL. rewrite Hv in HL. rewrite Hv'.
      unfold all_live in *. cbn [map concat] in *. apply NoDup_app in HL as (H1 & H2 & H3).
      unfold live_groups in H1, H2 |- *. rewrite Hlive in H1, H2.
      destruct (complete t'); [done|]. by apply NoDup_app.
    + eapply ticket_chain_frame; [apply W|done|done|apply N.le_refl| |].
      * intros n Hn. left. revert Hn. unfold begin_indices. rewrite !elem_of_list_to_set.
        by rewrite update_indices.
      * left. apply (wf_pending_tickets c i W), handoff_pending_true. eauto.
    + apply update_histories.
    + apply update_pointers.
  - intros r id Hr Hid. cbn in Hr. apply list_elem_of_lookup_1 in Hr as [j Hj].
    apply update_lookup in Hj as [[-> ->]|[_ Hj]].
    + rewrite Hptr in Hid. destruct (complete t'); [done|]. injection Hid as <-. by symmetry.
    + apply P; [|done]. by eapply list_elem_of_lookup_2.
Qed.
End update.

(** ** What a phase command does to its transfer *)

(** The command left everything as it was, or moved a live transfer and its
    route to a state the proofs support. *)
Definition step_result (c : Controller) (index : N) (t : Transfer) (phase : Phase)
  (routes' : list Route) : Prop :=
  (phase = tr_phase t /\ routes' = co_routes c)
  \/ (complete t = false
      /\ validate_transfer_proofs index (t <| tr_phase := phase |>) = Done tt
      /\ exists route route', co_routes c !! N.to_nat (ti_shard (tr_id t)) = Some route
           /\ routes' = <[N.to_nat (ti_shard (tr_id t)) := route']> (co_routes c)
           /\ ro_shard route' = ti_shard (tr_id t) /\ ro_epoch route' <> 0
           /\ ro_owner route' ∈ co_groups c
           /\ (ro_owner route', ro_epoch route') = phase_route (t <| tr_phase := phase |>)
           /\ ro_transfer route'
              = if complete (t <| tr_phase := phase |>) then None else Some (tr_id t)).

(** The image a transfer's phase carries is valid and its own. *)
Lemma proofs_image n u image :
  validate_transfer_proofs n u = Done tt -> validate_phase n (tr_movement u) (tr_phase u) = Done (Some image) ->
  image_valid image = true /\ ip_movement image = tr_movement u.
Proof.
  unfold validate_transfer_proofs. intros Hv Hp. rewrite Hp in Hv. cbn [mbind Outcome_bind] in Hv.
  outcome_inv. cbn [is_some_and] in *. by bool_inv.
Qed.

Definition before_image (before : AbortStage) : option ImageProof :=
  match before with
  | ASStarted => None
  | ASFenced image => Some image
  | ASInstalled installation => Some (in_image installation)
  end.

Lemma validate_fresh_abort n movement before :
  move_valid movement = true -> ti_controller_index (mv_id movement) < n ->
  match before with ASInstalled installation => installed_valid installation = true | _ => True end ->
  validate_abort n movement (mkAbortProof movement (mkOrigin CONTROLLER n)) before None None
  = Done (before_image before).
Proof.
  intros Hm Hi Hb. unfold validate_abort.
  apply Outcome_bind_unit.
  { unfold abort_valid. bool_intro; [exact Hm|done|exact Hi|done|cbn; lia]. }
  apply Outcome_bind_unit; [done|]. apply Outcome_bind_unit; [by destruct before|].
  destruct before; [done..|]. apply Outcome_bind_unit; [|done]. by bool_intro.
Qed.

(** Proofs of a phase that carries no cleanup or completion. *)
Lemma proofs_intro n u image :
  validate_phase n (tr_movement u) (tr_phase u) = Done image ->
  (forall p, image = Some p -> image_valid p = true /\ ip_movement p = tr_movement u) ->
  match tr_phase u with PCleaned _ _ | PComplete _ _ _ => False | _ => True end ->
  validate_transfer_proofs n u = Done tt.
Proof.
  intros Hp Hi Hc. unfold validate_transfer_proofs. rewrite Hp. cbn [mbind Outcome_bind].
  apply Outcome_bind_unit.
  { apply refuse_if_Done. destruct image as [p|]; [|done]. destruct (Hi p eq_refl).
    cbn [is_some_and]. by bool_intro. }
  outcome_intro; [by destruct (tr_phase u)|]. by destruct (tr_phase u).
Qed.

Section step.
Context (c : Controller) (i : Origin) (request : string) (t : Transfer) (index : N).
Context (W : wf c i) (P : pointers_ok c) (Ht : co_transfers c !! request = Some t)
  (Hindex : co_applied c < index).

Lemma step_route : exists route, co_routes c !! N.to_nat (ti_shard (tr_id t)) = Some route
  /\ ro_shard route = ti_shard (tr_id t) /\ ro_epoch route <> 0 /\ ro_owner route ∈ co_groups c
  /\ (complete t = false -> ro_transfer route = Some (tr_id t)
                            /\ (ro_owner route, ro_epoch route) = phase_route t).
Proof using All.
  destruct (wf_transfers _ _ W _ _ Ht) as (_ & _ & _ & _ & _ & _ & (route & Hr & Hc) & _).
  exists route. destruct (wf_routes _ _ W _ _ Hr) as (Hs & He & Ho).
  split_and!; [done| |done|done|done]. rewrite Hs. lia.
Qed.

(** A new phase on the same side of the ownership change. *)
Lemma step_keep phase :
  complete t = false -> complete (t <| tr_phase := phase |>) = false ->
  is_some (phase_ownership phase) = is_some (phase_ownership (tr_phase t)) ->
  validate_transfer_proofs index (t <| tr_phase := phase |>) = Done tt ->
  step_result c index t phase (co_routes c).
Proof using All.
  intros Hc Hc' Ho Hp. right. split; [done|]. split; [done|].
  destruct step_route as (route & Hr & Hs & He & Hg & Hl). destruct (Hl Hc) as [Hptr Hph].
  exists route, route. rewrite list_insert_id, Hc' by done. split_and!; try done.
  rewrite Hph. unfold phase_route. cbn. by rewrite Ho.
Qed.

Lemma step_facts :
  move_valid (tr_movement t) = true /\ tr_index t < index
  /\ validate_transfer_proofs index t = Done tt.
Proof using All.
  destruct (wf_transfers _ _ W _ _ Ht) as (_ & _ & Hm & Hi & _ & _ & _ & Hp).
  split_and!; [done|lia|]. by eapply validate_transfer_proofs_mono; [|exact Hp]; lia.
Qed.

Lemma step_abort phase :
  abort_phase (mkOrigin CONTROLLER index) t = Done phase -> step_result c index t phase (co_routes c).
Proof using All.
  destruct step_facts as (Hm & Hi & Hp). unfold abort_phase. intros Ha.
  assert (Hgo : forall before image, validate_phase index (tr_movement t) (tr_phase t) = Done image ->
    image = before_image before ->
    match before with ASInstalled installation => installed_valid installation = true | _ => True end ->
    validate_transfer_proofs index (t <| tr_phase :=
      PAborted (mkAbortProof (tr_movement t) (mkOrigin CONTROLLER index)) before None None |>) = Done tt).
  { intros before image Hv -> Hb. eapply proofs_intro; [by apply validate_fresh_abort| |done].
    intros p Hpi. apply (proofs_image index t p Hp). by rewrite Hv, Hpi. }
  destruct (tr_phase t) eqn:E; try discriminate; injection Ha as <-; try (by left);
    (apply step_keep; [by unfold complete; rewrite E|done|by rewrite E|]).
  - by eapply Hgo.
  - by eapply Hgo.
  - unfold validate_transfer_proofs in Hp. rewrite E in Hp. cbn [validate_phase] in Hp, Hgo.
    outcome_inv. bool_inv. eapply Hgo; [|reflexivity|done].
    apply Outcome_bind_unit; [by bool_intro|done].
Qed.

(** A recorded receipt exceeds the endpoint's preparation. *)
Lemma endpoint_proofs abort before s d group recovered phase :
  tr_phase t = PAborted abort before s d ->
  endpoint_aborted t group recovered = Done phase ->
  phase = tr_phase t \/
  (exists s' d', phase = PAborted abort before s' d'
     /\ validate_transfer_proofs index (t <| tr_phase := phase |>) = Done tt
     /\ complete t = false).
Proof using All.
  intros E He. destruct step_facts as (Hm & _ & Hp). pose proof (move_valid_ne _ Hm) as Hne.
  unfold endpoint_aborted in He. rewrite E in He. outcome_inv. bool_inv.
  unfold validate_transfer_proofs in Hp. rewrite E in Hp. cbn [validate_phase] in Hp.
  apply Outcome_bind_Done in Hp as (image & Hv & Hrest). outcome_inv. cbn [validate_phase] in Hv.
  unfold validate_abort in Hv. outcome_inv. cbn [existsb] in *. bool_inv.
  assert (Hvalid : forall s' d', (s' = s \/ s' = Some recovered /\ o_group recovered = mv_source (tr_movement t)) ->
    (d' = d \/ d' = Some recovered /\ o_group recovered = mv_destination (tr_movement t)) ->
    validate_transfer_proofs index (t <| tr_phase := PAborted abort before s' d' |>) = Done tt).
  { intros s' d' Hs Hd. unfold validate_transfer_proofs. cbn [upd tr_phase tr_movement validate_phase].
    apply Outcome_bind_Done. exists image. split; [|by outcome_intro].
    unfold validate_abort. apply Outcome_bind_unit; [by bool_intro; [..|lia]|].
    apply Outcome_bind_unit; [|apply Outcome_bind_unit; [|done]].
    - cbn [existsb]. bool_intro; [| |done];
        [destruct Hs as [->|[-> Hg]]|destruct Hd as [->|[-> Hg]]]; try done; cbn; by bool_intro.
    - unfold recovery_lower in *. bool_intro.
      + destruct before; cbn [is_some_and] in *; [done|..];
          (destruct Hs as [->|[-> Hg]]; [done|]; cbn; rewrite Hg, N.eqb_refl in *; by bool_intro).
      + destruct before; [done..|]. destruct Hd as [->|[-> Hg]]; [done|]. cbn.
        rewrite Hg, N.eqb_refl, (proj2 (N.eqb_neq _ _)) in * by done. by bool_intro. }
  unfold record_receipt, complete in *. rewrite E in *. cbn [is_some_and] in *.
  destruct (N.eqb_spec (o_group recovered) (mv_source (tr_movement t))) as [Hg|_].
  - destruct s as [previous|]; outcome_inv.
    + destruct (previous ==? recovered); outcome_inv; subst. by left.
    + subst. right. eexists _, _. split; [done|]. split; [|by destruct d].
      apply Hvalid; auto.
  - destruct (N.eqb_spec (o_group recovered) (mv_destination (tr_movement t))) as [Hg|_]; [|done].
    destruct d as [previous|]; outcome_inv.
    + destruct (previous ==? recovered); outcome_inv; subst. by left.
    + subst. right. eexists _, _. split; [done|]. split; [|by destruct s].
      apply Hvalid; auto.
Qed.

(** Only a live transfer is named by a route. *)
Lemma step_not_named route : complete t = true ->
  co_routes c !! N.to_nat (ti_shard (tr_id t)) = Some route -> ro_transfer route <> Some (tr_id t).
Proof using All.
  intros Hc Hr Hptr. destruct (wf_pointers _ _ W route (tr_id t)) as (q & u & Hu & Hcu & Hid);
    [by eapply list_elem_of_lookup_2|done|].
  assert (q = request) as ->.
  { eapply (NoDup_distinct_keys tr_index); [apply W|done|done|]. unfold tr_index. by rewrite Hid. }
  rewrite Ht in Hu. injection Hu as <-. congruence.
Qed.

(** A phase that ends the transfer and releases its route. *)
Lemma step_release phase route :
  complete t = false -> complete (t <| tr_phase := phase |>) = true ->
  is_some (phase_ownership phase) = is_some (phase_ownership (tr_phase t)) ->
  validate_transfer_proofs index (t <| tr_phase := phase |>) = Done tt ->
  co_routes c !! N.to_nat (ti_shard (tr_id t)) = Some route ->
  step_result c index t phase
    (<[N.to_nat (ti_shard (tr_id t)) := route <| ro_transfer := None |>]> (co_routes c)).
Proof using All.
  intros Hc Hc' Ho Hp Hr. right. split; [done|]. split; [done|].
  destruct step_route as (route' & Hr' & Hs & He & Hg & Hl). rewrite Hr in Hr'. injection Hr' as <-.
  destruct (Hl Hc) as [_ Hph]. exists route, (route <| ro_transfer := None |>).
  rewrite Hc'. split_and!; try done. cbn [upd ro_owner ro_epoch]. rewrite Hph.
  unfold phase_route. cbn. by rewrite Ho.
Qed.

Lemma step_endpoint abort recovered phase routes' :
  transfer_step (co_routes c) (mkOrigin CONTROLLER index) (tr_id t) t (CEndpointAborted abort recovered)
  = Done (phase, routes') -> step_result c index t phase routes'.
Proof using All.
  cbn [transfer_step]. intros Hs. apply Outcome_bind_Done in Hs as (phase' & He & Hs).
  destruct (tr_phase t) as [|ab before s d| | | | | |] eqn:E;
    try (unfold endpoint_aborted in He; by rewrite E in He).
  destruct (endpoint_proofs _ _ _ _ _ _ _ E He) as [->|(s' & d' & -> & Hp & Hc)].
  - assert (phase = tr_phase t /\ routes' = co_routes c) as [-> ->]; [|by left].
    destruct (complete (t <| tr_phase := tr_phase t |>)) eqn:Hc; [|by injection Hs as <- <-].
    apply Outcome_bind_Done in Hs as (route & Hr%or_panic_Done & Hs).
    assert (Hct : complete t = true) by (by destruct t).
    rewrite (proj2 (eqb_false _ _) (step_not_named _ Hct Hr)) in Hs. by injection Hs as <- <-.
  - assert (Ho : is_some (phase_ownership (PAborted ab before s' d'))
                 = is_some (phase_ownership (tr_phase t))) by (by rewrite E).
    destruct (complete (t <| tr_phase := PAborted ab before s' d' |>)) eqn:Hc'.
    + apply Outcome_bind_Done in Hs as (route & Hr%or_panic_Done & Hs).
      destruct step_route as (route' & Hr' & _ & _ & _ & Hl). rewrite Hr in Hr'. injection Hr' as <-.
      destruct (Hl Hc) as [Hptr _]. rewrite (proj2 (eqb_true _ _) Hptr) in Hs.
      injection Hs as <- <-. by apply step_release.
    + injection Hs as <- <-. by apply step_keep.
Qed.

Lemma step_fenced image phase routes' :
  transfer_step (co_routes c) (mkOrigin CONTROLLER index) (tr_id t) t (CFenced image)
  = Done (phase, routes') -> step_result c index t phase routes'.
Proof using All.
  cbn [transfer_step]. intros Hs. apply Outcome_bind_Done in Hs as ([] & Hg%refuse_if_Done & Hs). bool_inv.
  destruct (tr_phase t) eqn:E; try discriminate.
  - injection Hs as <- <-. apply step_keep; [by unfold complete; rewrite E|done|by rewrite E|].
    eapply proofs_intro; [done| |done]. by intros p [= <-].
  - destruct (_ ==? _); [|discriminate]. injection Hs as <- <-. by left.
Qed.

Lemma step_installed installation phase routes' :
  transfer_step (co_routes c) (mkOrigin CONTROLLER index) (tr_id t) t (CInstalled installation)
  = Done (phase, routes') -> step_result c index t phase routes'.
Proof using All.
  cbn [transfer_step]. intros Hs. apply Outcome_bind_Done in Hs as ([] & Hg%refuse_if_Done & Hs). bool_inv.
  destruct (tr_phase t) eqn:E; try discriminate.
  - destruct (_ ==? _); [|discriminate]. injection Hs as <- <-.
    apply step_keep; [by unfold complete; rewrite E|done|by rewrite E|].
    eapply (proofs_intro _ _ (Some (in_image installation))); [|by intros p [= <-]; split; [|done];
      unfold installed_valid in *; bool_inv|done].
    apply Outcome_bind_unit; [by bool_intro|done].
  - destruct (_ ==? _); [|discriminate]. injection Hs as <- <-. by left.
Qed.

Lemma step_own phase routes' :
  transfer_step (co_routes c) (mkOrigin CONTROLLER index) (tr_id t) t (COwn (tr_id t))
  = Done (phase, routes') -> step_result c index t phase routes'.
Proof using All.
  cbn [transfer_step]. intros Hs. destruct step_facts as (Hm & Hi & Hp).
  destruct (tr_phase t) eqn:E; try discriminate; [|injection Hs as <- <-; by left].
  outcome_inv. bool_inv. subst. right.
  split; [by unfold complete; rewrite E|]. split.
  - unfold validate_transfer_proofs in Hp. rewrite E in Hp. cbn [validate_phase] in Hp. outcome_inv.
    subst. cbn [is_some_and] in *. bool_inv.
    eapply (proofs_intro _ _ (Some (in_image installation))); [|by intros p [= <-]|done].
    apply Outcome_bind_unit; [|done]. unfold ownership_valid. bool_intro; try done; [by apply N.ltb_lt; cbn; lia|].
    unfold ow_image; cbn. match goal with H : ip_movement _ = _ |- _ => rewrite H end. exact Hi.
  - destruct step_route as (route' & Hr' & Hs' & He & Hg & Hl). simplify_eq.
    exists x, (x <| ro_owner := mv_destination (tr_movement t) |> <| ro_epoch := ti_epoch (tr_id t) |>).
    destruct (wf_transfers _ _ W _ _ Ht) as (_ & _ & _ & _ & _ & Hd & _).
    unfold move_valid, transfer_id_valid in Hm. bool_inv.
    split_and!; try done. unfold tr_id; cbn. lia.
Qed.

Lemma step_activated activation phase routes' :
  transfer_step (co_routes c) (mkOrigin CONTROLLER index) (tr_id t) t (CActivated activation)
  = Done (phase, routes') -> step_result c index t phase routes'.
Proof using All.
  cbn [transfer_step]. intros Hs. apply Outcome_bind_Done in Hs as ([] & Hg%refuse_if_Done & Hs). bool_inv.
  destruct step_facts as (Hm & Hi & Hp).
  destruct (tr_phase t) eqn:E; try discriminate.
  - destruct (_ ==? _) eqn:Ho; [|discriminate]. injection Hs as <- <-. bool_inv. subst.
    apply step_keep; [by unfold complete; rewrite E|done|by rewrite E|].
    unfold validate_transfer_proofs in Hp. rewrite E in Hp. cbn [validate_phase] in Hp. outcome_inv.
    subst. cbn [is_some_and] in *. bool_inv.
    eapply (proofs_intro _ _ (Some (ac_image activation))); [|by intros p [= <-]|done].
    apply Outcome_bind_unit; [bool_intro; [done|lia]|done].
  - destruct (_ ==? _); [|discriminate]. injection Hs as <- <-. by left.
Qed.

Lemma step_cleaned id cleaned phase routes' :
  transfer_step (co_routes c) (mkOrigin CONTROLLER index) (tr_id t) t (CCleaned id cleaned)
  = Done (phase, routes') -> step_result c index t phase routes'.
Proof using All.
  cbn [transfer_step]. intros Hs. apply Outcome_bind_Done in Hs as ([] & Hg%refuse_if_Done & Hs). bool_inv.
  destruct step_facts as (Hm & Hi & Hp).
  destruct (tr_phase t) eqn:E; try discriminate.
  - destruct (_ <? _) eqn:Ho; [|discriminate]. injection Hs as <- <-. bool_inv.
    apply step_keep; [by unfold complete; rewrite E|done|by rewrite E|].
    unfold validate_transfer_proofs in Hp |- *. rewrite E in Hp. cbn [upd tr_phase tr_movement validate_phase] in *.
    apply Outcome_bind_Done in Hp as (image & Hv & Hp). apply Outcome_bind_Done. exists image.
    split; [done|]. outcome_inv. by outcome_intro; try lia.
  - destruct (_ ==? _); [|discriminate]. injection Hs as <- <-. by left.
Qed.

Lemma step_complete id phase routes' :
  transfer_step (co_routes c) (mkOrigin CONTROLLER index) (tr_id t) t (CComplete id)
  = Done (phase, routes') -> step_result c index t phase routes'.
Proof using All.
  cbn [transfer_step]. intros Hs. destruct step_facts as (Hm & Hi & Hp).
  destruct (wf_transfers _ _ W _ _ Ht) as (_ & _ & _ & _ & _ & _ & _ & Hp0).
  destruct (tr_phase t) eqn:E; try discriminate.
  - apply Outcome_bind_Done in Hs as (route & Hr%or_panic_Done & Hs). injection Hs as <- <-.
    apply step_release; [by unfold complete; rewrite E|done|by rewrite E| |done].
    unfold validate_transfer_proofs in Hp, Hp0 |- *. rewrite E in Hp, Hp0.
    cbn [upd tr_phase tr_movement validate_phase] in *.
    apply Outcome_bind_Done in Hp as (image & Hv & Hp). apply Outcome_bind_Done. exists image.
    split; [done|]. outcome_inv. bool_inv. by outcome_intro; bool_intro; cbn; try lia.
  - injection Hs as <- <-. by left.
Qed.

(** Every phase command, on the transfer it names. *)
Lemma transfer_step_result command phase routes' :
  command_id command = Some (tr_id t) ->
  transfer_step (co_routes c) (mkOrigin CONTROLLER index) (tr_id t) t command = Done (phase, routes') ->
  step_result c index t phase routes'.
Proof using All.
  destruct command; try discriminate; cbn [command_id]; intros Hid Hs.
  - by eapply step_fenced.
  - by eapply step_installed.
  - injection Hid as ->. by apply step_own.
  - cbn [transfer_step] in Hs. apply Outcome_bind_Done in Hs as (phase' & Ha & Hs).
    injection Hs as <- <-. by apply step_abort.
  - by eapply step_endpoint.
  - by eapply step_activated.
  - by eapply step_cleaned.
  - by eapply step_complete.
Qed.

(** ... and it never indexes outside the routes. *)
Lemma transfer_step_no_panic command :
  command_id command = Some (tr_id t) ->
  transfer_step (co_routes c) (mkOrigin CONTROLLER index) (tr_id t) t command <> Panicked.
Proof using All.
  destruct step_route as (route & Hr & _). intros Hid.
  destruct command; try discriminate; cbn [transfer_step]; injection Hid as Hid;
    unfold abort_phase, endpoint_aborted, record_receipt, refuse_if; rewrite ?Hr; cbn;
    repeat (repeat case_match; cbn in *; try discriminate; simplify_eq).
Qed.
End step.

(** ** [Begin] *)

Lemma last_index_le c i r u : transfer_wf c i r u -> last_index u <= co_applied c.
Proof.
  intros (_ & _ & _ & [_ Hi] & _ & _ & _ & Hp). unfold last_index.
  unfold validate_transfer_proofs in Hp. destruct (tr_phase u) eqn:E; cbn [validate_phase phase_ownership map_or] in *;
    try done; unfold validate_abort in *; outcome_inv; bool_inv; try done.
Qed.

(** A route whose groups are free has only finished transfers behind it. *)
Lemma idle_shard c i k route r u :
  wf c i -> co_routes c !! k = Some route ->
  (forall q v, co_transfers c !! q = Some v -> complete v = false ->
     mv_source (tr_movement v) <> ro_owner route /\ mv_destination (tr_movement v) <> ro_owner route) ->
  co_transfers c !! r = Some u -> ti_shard (tr_id u) = ro_shard route -> complete u = true.
Proof.
  intros W Hr Hfree Hu Hs. destruct (complete u) eqn:Hc; [done|exfalso].
  destruct (wf_transfers _ _ W _ _ Hu) as (_ & _ & _ & _ & _ & _ & (route' & Hr' & Hl) & _).
  destruct (Hl Hc) as [_ Hph]. destruct (wf_routes _ _ W _ _ Hr) as [Hk _].
  rewrite Hs, Hk, Nat2N.id, Hr in Hr'. injection Hr' as <-.
  destruct (Hfree _ _ Hu Hc) as [H1 H2]. unfold phase_route in Hph.
  destruct (is_some _); injection Hph as ??; congruence.
Qed.

Section begin.
Context (c : Controller) (i : Origin) (index : N) (request : string) (t : Transfer) (route : Route).
Let k := N.to_nat (ti_shard (tr_id t)).
Let route' := route <| ro_transfer := Some (tr_id t) |>.
Let c' := c <| co_applied := index |> <| co_routes := <[k := route']> (co_routes c) |>
            <| co_transfers := <[request := t]> (co_transfers c) |>.
Context (W : wf c i) (P : pointers_ok c) (Hindex : co_applied c < index)
  (Hfresh : co_transfers c !! request = None) (Hti : tr_index t = index)
  (Hreq : request = tr_request_id t) (Hlen : 0 < str_len request <= 128)
  (Hphase : tr_phase t = PStarted) (Hmove : move_valid (tr_movement t) = true)
  (Hroute : co_routes c !! k = Some route) (Hro : mv_source (tr_movement t) = ro_owner route)
  (Hep : mv_previous_epoch (tr_movement t) = ro_epoch route)
  (Hdst : mv_destination (tr_movement t) ∈ co_groups c)
  (Hroom : N.of_nat (size (co_transfers c)) < MAX_TRANSFERS)
  (Hfree : forall q v, co_transfers c !! q = Some v -> complete v = false ->
     Forall (fun g => g <> mv_source (tr_movement t) /\ g <> mv_destination (tr_movement t))
       (live_groups v))
  (Hactive : active_maintenance c = None).

Lemma begin_owner_free q v : co_transfers c !! q = Some v -> complete v = false ->
  mv_source (tr_movement v) <> ro_owner route /\ mv_destination (tr_movement v) <> ro_owner route.
Proof using All.
  intros Hv Hc. specialize (Hfree _ _ Hv Hc). unfold live_groups in Hfree. rewrite Hc in Hfree.
  apply list.Forall_cons in Hfree as [[? _] [[? _] _]%list.Forall_cons]. by rewrite <- Hro.
Qed.

Lemma begin_shard : ro_shard route = ti_shard (tr_id t).
Proof using All. destruct (wf_routes _ _ W _ _ Hroute) as [-> _]. unfold k. lia. Qed.

Lemma begin_lookup j r : <[k := route']> (co_routes c) !! j = Some r ->
  (j = k /\ r = route') \/ (j <> k /\ co_routes c !! j = Some r).
Proof using All.
  pose proof (lookup_lt_Some _ _ _ Hroute). destruct (decide (j = k)) as [->|Hne].
  - rewrite list_lookup_insert_eq by done. naive_solver.
  - rewrite list_lookup_insert_ne by done. naive_solver.
Qed.

Lemma begin_incomplete : complete t = false.
Proof using All. unfold complete. by rewrite Hphase. Qed.

Lemma begin_transfers r u : co_transfers c' !! r = Some u -> transfer_wf c' i r u.
Proof using All.
  cbn. intros Hu. apply lookup_insert_Some in Hu as [[<- <-]|[Hne Hu]].
  - destruct (wf_initialized _ _ W) as [_ Hi]. destruct (wf_routes _ _ W _ _ Hroute) as (_ & _ & Ho).
    refine (conj Hreq (conj Hlen (conj Hmove (conj _ (conj _ (conj Hdst (conj _ _))))))).
    + cbn. lia.
    + cbn. by rewrite Hro.
    + exists route'. split; [apply list_lookup_insert_eq; by eapply lookup_lt_Some|].
      intros _. split; [done|]. unfold phase_route. rewrite Hphase. cbn. by rewrite Hro, Hep.
    + unfold validate_transfer_proofs. by rewrite Hphase.
  - destruct (transfer_wf_mono _ _ _ _ index (N.lt_le_incl _ _ Hindex) (wf_transfers _ _ W _ _ Hu))
      as (H1 & H2 & H3 & H4 & H5 & H6 & (ru & Hru & Hcu) & H8).
    refine (conj H1 (conj H2 (conj H3 (conj H4 (conj H5 (conj H6 (conj _ H8))))))). cbn in *.
    destruct (decide (N.to_nat (ti_shard (tr_id u)) = k)) as [Hk|Hk].
    + exists route'. rewrite Hk. split; [apply list_lookup_insert_eq; by eapply lookup_lt_Some|].
      intros Hc. exfalso. assert (complete u = true); [|congruence].
      eapply (idle_shard c i); [done|exact Hroute|apply begin_owner_free|exact Hu|].
      rewrite begin_shard. unfold k in Hk. lia.
    + exists ru. split; [by rewrite list_lookup_insert_ne|done].
Qed.

Lemma begin_histories r : r ∈ co_routes c' ->
  replay_history (first_owner r (history c' (ro_shard r))) 1 (o_index i) (history c' (ro_shard r))
  = Done (ro_owner r, ro_epoch r).
Proof using All.
  intros [j Hj]%list_elem_of_lookup_1. cbn in Hj.
  pose proof (history_insert c request t (ro_shard r) Hfresh (wf_indices _ _ W)) as Hh.
  specialize (Hh ltac:(intros q u Hu; destruct (wf_transfers _ _ W _ _ Hu) as (_&_&_&?&_); lia)).
  change (sort_by_key _ _) with (history c' (ro_shard r)) in Hh. rewrite Hh. clear Hh.
  apply begin_lookup in Hj as [[-> ->]|[Hne Hj]].
  - pose proof begin_shard as Hsh. cbn [upd route' ro_shard ro_owner ro_epoch].
    rewrite Hsh, N.eqb_refl.
    pose proof (wf_histories _ _ W route ltac:(by eapply list_elem_of_lookup_2)) as Hr.
    rewrite Hsh in Hr. apply replay_snoc. split_and!.
    + apply list.Forall_forall. intros u Hu. rewrite history_of_shard, sort_by_key_perm in Hu.
      apply of_shard_sub in Hu as [[q Hq]%elem_of_smap_values Hs].
      eapply (idle_shard c i); [done|exact Hroute|apply begin_owner_free|exact Hq|by rewrite Hsh].
    + rewrite Hro, Hep, <- Hr. destruct (history c (ti_shard (tr_id t))); cbn; [|done].
      by rewrite Hro.
    + unfold last_bound. destruct (last (history c (ti_shard (tr_id t)))) as [u|] eqn:El; cbn.
      * apply last_Some_elem_of in El. rewrite history_of_shard, sort_by_key_perm in El.
        apply of_shard_sub in El as [[q Hq]%elem_of_smap_values _].
        pose proof (last_index_le _ _ _ _ (wf_transfers _ _ W _ _ Hq)). lia.
      * destruct (wf_initialized _ _ W). lia.
    + unfold phase_route. rewrite Hphase. cbn. by rewrite Hro, Hep.
  - destruct (N.eqb_spec (ti_shard (tr_id t)) (ro_shard r)) as [Heq|_].
    + exfalso. apply Hne. unfold k. rewrite Heq.
      destruct (wf_routes _ _ W _ _ Hj) as [-> _]. lia.
    + rewrite app_nil_r. apply W. by eapply list_elem_of_lookup_2.
Qed.

Lemma begin_live : NoDup (all_live (smap_values (co_transfers c'))).
Proof using All.
  cbn. rewrite smap_values_insert_fresh by done. unfold all_live. cbn [map concat].
  fold (all_live (smap_values (co_transfers c))). apply NoDup_app. split_and!; [| |apply W].
  - unfold live_groups. rewrite begin_incomplete. pose proof (move_valid_ne _ Hmove).
    repeat constructor; set_solver.
  - intros g Hg Hin. unfold all_live in Hin. rewrite list_elem_of_In, in_concat in Hin.
    destruct Hin as (l & Hl & Hgl). apply in_map_iff in Hl as (v & <- & Hv).
    apply list_elem_of_In, elem_of_smap_values in Hv as [q Hq]. apply list_elem_of_In in Hgl.
    assert (Hc : complete v = false).
    { unfold live_groups in Hgl. by destruct (complete v); [apply not_elem_of_nil in Hgl|]. }
    pose proof (Hfree _ _ Hq Hc) as HF. rewrite list.Forall_forall in HF.
    destruct (HF _ Hgl) as [H1 H2]. unfold live_groups in Hg. rewrite begin_incomplete in Hg.
    apply elem_of_cons in Hg as [->|[->|[]%not_elem_of_nil]%elem_of_cons]; done.
Qed.

Lemma wf_begin : wf c' i /\ pointers_ok c'.
Proof using All.
  split.
  - constructor; try (apply W); try apply begin_transfers; try apply begin_histories;
      try apply begin_live.
    + destruct (wf_initialized _ _ W). cbn. split; [done|lia].
    + cbn. destruct (wf_shards _ _ W) as [Hne Hl]. unfold len64 in *. rewrite length_insert.
      split; [|done]. intros E. apply Hne. apply length_zero_iff_nil.
      by rewrite <- (length_insert _ k route'), E.
    + cbn. rewrite map_size_insert_None by done. split; [lia|apply W].
    + cbn. intros j r Hj. apply begin_lookup in Hj as [[-> ->]|[_ Hj]]; [|by apply W].
      exact (wf_routes _ _ W _ _ Hroute).
    + cbn. rewrite smap_values_insert_fresh by done. cbn. apply list.NoDup_cons.
      split; [|apply W]. rewrite list_elem_of_fmap. intros (u & Hu & [q Hq]%elem_of_smap_values).
      destruct (wf_transfers _ _ W _ _ Hq) as (_ & _ & _ & Hlt & _). lia.
    + eapply ticket_chain_frame; [apply W|done|done|cbn; lia| |].
      * intros n Hn. unfold begin_indices in *. cbn in Hn.
        rewrite smap_values_insert_fresh in Hn by done. cbn in Hn.
        rewrite elem_of_union, elem_of_singleton in Hn. destruct Hn as [->|Hn]; [right; lia|by left].
      * left. by apply tickets_completed_iff.
    + intros r id [j Hj]%list_elem_of_lookup_1 Hid. cbn in Hj.
      apply begin_lookup in Hj as [[-> ->]|[_ Hj]].
      * cbn in Hid. injection Hid as <-. exists request, t. cbn. rewrite lookup_insert_eq.
        auto using begin_incomplete.
      * destruct (wf_pointers _ _ W r id) as (q & u & Hu & Hc); [by eapply list_elem_of_lookup_2|done|].
        exists q, u. cbn. rewrite lookup_insert_ne; [done|]. intros <-. congruence.
  - intros r id Hr Hid. cbn in Hr. apply list_elem_of_lookup_1 in Hr as [j Hj].
    apply begin_lookup in Hj as [[-> ->]|[_ Hj]].
    + cbn in *. injection Hid as <-. symmetry. apply begin_shard.
    + apply P; [|done]. by eapply list_elem_of_lookup_2.
Qed.
End begin.

(** ** Maintenance tickets *)

Lemma tickets_seen_elem n begins l : n ∈ tickets_seen begins l <-> n ∈ map tk_index l \/ n ∈ begins.
Proof.
  induction l as [|t l IH]; cbn; [split; [by right|by intros [?%not_elem_of_nil|]]|].
  rewrite elem_of_union, elem_of_singleton, IH, elem_of_cons. naive_solver.
Qed.
Lemma chain_NoDup c start b l : ticket_chain c start b l -> NoDup (map tk_index l).
Proof.
  induction l as [|t l IH]; cbn [ticket_chain]; [constructor|].
  intros [(_ & _ & _ & _ & Hn & _) Hc]. cbn. apply list.NoDup_cons. split; [|auto].
  intros Hin. apply Hn. apply tickets_seen_elem. by left.
Qed.
Lemma chain_elem c start b l t : ticket_chain c start b l -> t ∈ l ->
  ticket_valid t = true /\ tk_index t <= co_applied c /\ co_maintenance c !! mt_request_id t = Some t.
Proof.
  induction l as [|u l IH]; intros Hc Ht; [by apply not_elem_of_nil in Ht|].
  cbn [ticket_chain] in Hc. destruct Hc as [(H1 & H2 & [_ H3] & _) Hc].
  apply elem_of_cons in Ht as [->|Ht]; auto.
Qed.
Lemma ticket_valid_released t completion :
  ticket_valid t = true -> mt_completion t = Some completion ->
  tk_index t < o_index (mc_released completion).
Proof. unfold ticket_valid. intros Hv Hc. rewrite Hc in Hv. cbn [map_or] in Hv. by bool_inv. Qed.

(** Older tickets have smaller indices. *)
Lemma chain_older c start b l t u :
  ticket_chain c start b (t :: l) -> u ∈ l -> tk_index u < tk_index t.
Proof.
  revert t. induction l as [|w l IH]; intros t Hc Hu; [by apply not_elem_of_nil in Hu|].
  cbn [ticket_chain] in Hc. destruct Hc as [(_ & _ & [H3 _] & _ & _ & _ & HF & _) [Hw Hl]].
  assert (Hwt : tk_index w < tk_index t).
  { apply list.Forall_cons in HF as [Hcw _]. unfold completed in Hcw.
    unfold tickets_release in H3. cbn in H3. destruct (mt_completion w) as [cm|] eqn:Ec; [|done].
    cbn in H3. destruct Hw as (_ & Hv & _). pose proof (ticket_valid_released _ _ Hv Ec). lia. }
  apply elem_of_cons in Hu as [->|Hu]; [done|]. pose proof (IH w (conj Hw Hl) Hu). lia.
Qed.

Lemma tickets_values_NoDup c i : wf c i -> NoDup (map tk_index (smap_values (co_maintenance c))).
Proof.
  intros W. pose proof (chain_NoDup _ _ _ _ (wf_tickets _ _ W)) as Hd.
  rewrite reverse_Permutation in Hd. unfold tickets in Hd. by rewrite sort_by_key_perm in Hd.
Qed.

Lemma max_origin_fold l acc :
  match fold_left max_origin l acc with
  | Some best => (best ∈ l \/ acc = Some best) /\ (forall o, o ∈ l \/ acc = Some o -> o_index o <= o_index best)
  | None => l = [] /\ acc = None
  end.
Proof.
  revert acc. induction l as [|o l IH]; intros acc; cbn [fold_left].
  - destruct acc as [best|]; [|done]. split; [by right|]. intros o [[]%not_elem_of_nil|[= ->]]. lia.
  - specialize (IH (max_origin acc o)). destruct (fold_left max_origin l (max_origin acc o)) as [best|].
    + destruct IH as [Hb Hmax]. unfold max_origin in *. destruct acc as [a|].
      * destruct (N.leb_spec (o_index a) (o_index o)).
        -- split; [destruct Hb as [?|[= ->]]; left; [by right|left]|].
           intros o' [[->|?]%elem_of_cons|[= ->]]; [by apply Hmax; right|by apply Hmax; left|].
           etrans; [done|]. apply Hmax. by right.
        -- split; [destruct Hb as [?|[= ->]]; [left; by right|by right]|].
           intros o' [[->|?]%elem_of_cons|[= ->]]; [|by apply Hmax; left|by apply Hmax; right].
           assert (o_index a <= o_index best) by (apply Hmax; by right). lia.
      * split; [destruct Hb as [?|[= ->]]; left; [by right|left]|].
        intros o' [[->|?]%elem_of_cons|[=]]; [by apply Hmax; right|by apply Hmax; left].
    + destruct IH as [_ IH]. unfold max_origin in IH. destruct acc as [a|]; [|done].
      by destruct (_ <=? _).
Qed.

(** The generation is the origin of the newest ticket. *)
Lemma generation_newest c i : wf c i -> maintenance_generation c = tickets_previous (reverse (tickets c)).
Proof.
  intros W. unfold maintenance_generation.
  pose proof (max_origin_fold (map mt_origin (smap_values (co_maintenance c))) None) as Hf.
  pose proof (wf_tickets _ _ W) as Hc.
  assert (Hp : smap_values (co_maintenance c) ≡ₚ reverse (tickets c)).
  { rewrite reverse_Permutation. unfold tickets. by rewrite sort_by_key_perm. }
  destruct (fold_left _ _ _) as [best|].
  - destruct Hf as [[Hb|] Hmax]; [|done].
    rewrite Hp in Hb. setoid_rewrite Hp in Hmax. destruct (reverse (tickets c)) as [|t l] eqn:E.
    { by apply not_elem_of_nil in Hb. }
    cbn. f_equal. apply list_elem_of_fmap in Hb as (u & -> & [->|Hu]%elem_of_cons); [done|].
    pose proof (chain_older _ _ _ _ _ _ Hc Hu) as Hlt.
    assert (tk_index t <= tk_index u); [|lia].
    apply (Hmax (mt_origin t)). left. apply list_elem_of_fmap. exists t. split; [done|left].
  - destruct Hf as [Hn _]. apply map_eq_nil in Hn. rewrite Hn in Hp.
    symmetry in Hp. apply Permutation_nil_r in Hp. by rewrite Hp.
Qed.

Lemma release_bound c start b l :
  ticket_chain c start b l -> start <= co_applied c -> tickets_release (co_applied c) start l <= co_applied c.
Proof.
  unfold tickets_release. destruct l as [|t l]; [done|].
  intros [(_ & _ & _ & _ & _ & _ & _ & Hc) _] _. cbn.
  destruct (mt_completion t); cbn; [by destruct Hc|done].
Qed.

Lemma tickets_insert c request t i :
  wf c i -> co_maintenance c !! request = None ->
  (forall u, u ∈ tickets c -> tk_index u < tk_index t) ->
  sort_by_key tk_index (smap_values (<[request := t]> (co_maintenance c))) = tickets c ++ [t].
Proof.
  intros W Hk Hmax. apply sort_by_key_max.
  - by eapply tickets_values_NoDup.
  - apply list.Forall_forall. intros u Hu. apply Hmax. unfold tickets. by rewrite sort_by_key_perm.
  - by apply smap_values_insert_fresh.
Qed.

(** Changing only the tickets. *)
Lemma wf_maintenance c i m :
  wf c i -> N.of_nat (size m) <= MAX_MAINTENANCE_TICKETS ->
  ticket_chain (c <| co_maintenance := m |>) (o_index i) (begin_indices c)
    (reverse (sort_by_key tk_index (smap_values m))) ->
  wf (c <| co_maintenance := m |>) i.
Proof.
  intros [Wi Wg Ws [Wr _] WR WT WN WL Wt WH WP] Hsize Hchain. by constructor.
Qed.

Lemma acquire_wf c i index request target operation generation reply c' :
  wf c i -> co_applied c < index ->
  let c1 := c <| co_applied := index |> in
  acquire_maintenance c1 (mkOrigin CONTROLLER index) request target operation generation
  = Done (reply, c') -> wf c' i.
Proof.
  intros W Hix c1 Ha. assert (W1 : wf c1 i) by (apply wf_applied; [done|lia]).
  unfold acquire_maintenance in Ha.
  change (co_maintenance c1) with (co_maintenance c) in Ha. change (co_groups c1) with (co_groups c) in Ha.
  change (maintenance_generation c1) with (maintenance_generation c) in Ha.
  change (active_maintenance c1) with (active_maintenance c) in Ha.
  change (handoff_pending c1) with (handoff_pending c) in Ha. outcome_inv.
  destruct (co_maintenance c !! request) as [existing|] eqn:Hm.
  { destruct ((mt_target existing =? target) && _); [|discriminate].
    by match goal with E : Done _ = Done _ |- _ => injection E as _ <- end. }
  outcome_inv. bool_inv. subst. apply wf_maintenance; [done| |].
  { rewrite map_size_insert_None by done. lia. }
  set (t := mkMaintenanceTicket _ _ _ _ _ _).
  assert (Hmax : forall u, u ∈ tickets c -> tk_index u < tk_index t).
  { intros u Hu. rewrite <- reverse_Permutation in Hu.
    destruct (chain_elem _ _ _ _ _ (wf_tickets _ _ W) Hu) as (_ & Hle & _). cbn. lia. }
  rewrite (tickets_insert c request t i W Hm Hmax), reverse_snoc.
  destruct (wf_initialized _ _ W) as [_ Hi].
  assert (Hactive : Forall completed (reverse (tickets c))).
  { apply tickets_completed_iff. by destruct (active_maintenance c). }
  split.
  - split_and!; try done.
    + cbn. apply lookup_insert_eq.
    + unfold ticket_valid. bool_intro; try done; [cbn; lia|]. cbn [mt_previous_generation t].
      rewrite (generation_newest c i W). unfold tickets_previous. destruct (reverse (tickets c)) as [|u l] eqn:E; [done|].
      destruct (chain_elem _ _ _ _ u (wf_tickets _ _ W)) as (Hv & Hle & _); [rewrite E; left|].
      unfold ticket_valid in Hv. bool_inv. cbn. unfold tk_index in Hle. bool_intro; [done|done|lia].
    + rewrite (tickets_release_mono (co_applied c)) by done.
      pose proof (release_bound _ _ _ _ (wf_tickets _ _ W) ltac:(lia)). cbn. lia.
    + by apply generation_newest with i.
    + rewrite tickets_seen_elem. intros [Hin|Hin].
      * apply list_elem_of_fmap in Hin as (u & Hu & Hin). rewrite reverse_Permutation in Hin.
        specialize (Hmax _ Hin). lia.
      * unfold begin_indices in Hin. rewrite elem_of_list_to_set, list_elem_of_fmap in Hin.
        destruct Hin as (u & Hu & [q Hq]%elem_of_smap_values).
        destruct (wf_transfers _ _ W q u Hq) as (_ & _ & _ & Hlt & _). cbn in Hu. lia.
    + cbn. destruct (N.eqb_spec target CONTROLLER); [by left|right]. cbn in *.
      bool_inv. by apply contains_true.
  - eapply ticket_chain_frame; [apply W| |done|cbn; lia|intros; by left|].
    + intros u Hu Hlk. cbn. rewrite lookup_insert_ne; [done|]. intros Heq. cbn in Hlk.
      rewrite <- Heq in Hlk. cbn in Hm. congruence.
    + by left.
Qed.

(** What a target has reached comes from one of its completed tickets. *)
Lemma progress_source older g applied term :
  tickets_progress older !! g = Some (applied, term) ->
  exists u completion, u ∈ older /\ mt_target u = g /\ mt_completion u = Some completion
    /\ o_index (mc_observed_applied completion) = applied
    /\ ar_final_term (mc_record completion) = Some term.
Proof.
  induction older as [|t older IH]; cbn [tickets_progress]; [by rewrite lookup_empty|].
  assert (Hrec : tickets_progress older !! g = Some (applied, term) ->
    exists u completion, u ∈ t :: older /\ mt_target u = g /\ mt_completion u = Some completion
      /\ o_index (mc_observed_applied completion) = applied
      /\ ar_final_term (mc_record completion) = Some term).
  { intros Hp. destruct (IH Hp) as (u & cm & Hu & Hrest). exists u, cm. split; [by right|done]. }
  destruct (mt_completion t) as [cm|] eqn:Ec; [|done].
  destruct (ar_final_term (mc_record cm)) as [tm|] eqn:Et; [|done].
  intros [[Hg [= <- <-]]|[_ Hp]]%lookup_insert_Some; [|auto].
  exists t, cm. split; [left|done].
Qed.

Lemma complete_wf c i index request origin core record observed reply c' :
  wf c i -> co_applied c < index ->
  let c1 := c <| co_applied := index |> in
  complete_maintenance c1 (mkOrigin CONTROLLER index) request origin core record observed
  = Done (reply, c') -> wf c' i.
Proof.
  intros W Hix c1 Ha. assert (W1 : wf c1 i) by (apply wf_applied; [done|lia]).
  unfold complete_maintenance in Ha. change (co_maintenance c1) with (co_maintenance c) in Ha.
  apply Outcome_bind_Done in Ha as (t & Ht%ok_or_Done & Ha). outcome_inv.
  destruct (mt_completion t) as [cm|] eqn:Hcm.
  { destruct (mc_record cm ==? record); [|discriminate].
    by match goal with E : Done _ = Done _ |- _ => injection E as _ <- end. }
  outcome_inv. bool_inv. subst. apply wf_maintenance; [done| |].
  { rewrite map_size_insert_Some by (by rewrite Ht). apply W. }
  set (cm := mkMaintenanceCompletion _ _ _). set (t' := t <| mt_completion := Some cm |>).
  destruct (sort_by_key_replace tk_index (smap_values (delete request (co_maintenance c))) t t'
    (smap_values (co_maintenance c)) (smap_values (<[request := t']> (co_maintenance c))))
    as (a & b & Ea & Eb); [|done|by apply smap_values_delete|apply smap_values_update|].
  { rewrite <- smap_values_delete by done. by eapply tickets_values_NoDup. }
  pose proof (wf_tickets _ _ W) as Hc. change (sort_by_key tk_index (smap_values (co_maintenance c))) with (tickets c) in Ea.
  rewrite Ea, reverse_app, reverse_cons, <- app_assoc in Hc. cbn [app] in Hc.
  assert (b = []) as ->.
  { destruct b as [|u b]; [done|]. exfalso. unfold completed in Hc.
    pose proof (ticket_chain_completed _ _ _ _ _ _ Hc) as Hd. unfold completed in Hd.
    rewrite Hcm in Hd. apply Hd. intros E%(f_equal length). by rewrite length_reverse in E. }
  rewrite Eb, reverse_snoc. rewrite reverse_nil in Hc. cbn [app] in Hc. pose proof Hc as Hc0.
  destruct Hc as [(_ & Hv & [Hr Hle] & Hg & Hn & Htg & HF & _) Hc].
  assert (Hreq : mt_request_id t = request).
  { destruct (chain_elem _ _ _ _ t Hc0) as (_ & _ & Hlk); [left|].
    eapply (NoDup_distinct_keys tk_index); [by eapply tickets_values_NoDup|exact Hlk|exact Ht|done]. }
  split.
  - refine (conj _ (conj _ (conj (conj _ _) (conj Hg (conj Hn (conj Htg (conj HF (conj _ _)))))))).
    + cbn. rewrite Hreq. apply lookup_insert_eq.
    + unfold ticket_valid in Hv |- *. bool_inv. cbn [upd t' mt_completion map_or] in *.
      bool_intro; try done; [unfold tk_index in Hle; cbn; lia|].
      change (negb (mt_target t =? CONTROLLER) || (o_index observed <? index) = true).
      destruct (mt_target t =? CONTROLLER); [|done]. cbn in *. bool_inv. by apply N.ltb_lt.
    + by rewrite (tickets_release_mono (co_applied c)).
    + change (tk_index t <= index). lia.
    + apply N.le_refl.
    + intros applied term Hp.
      apply progress_source in Hp as (u & cu & Hu & Hut & Huc & Huo & Huf).
      pose proof (chain_older _ _ _ _ _ _ Hc0 Hu) as Hlt.
      destruct (chain_elem _ _ _ _ u Hc) as (_ & _ & Hlk); [done|].
      rewrite smap_existsb_false in H1. specialize (H1 _ _ Hlk). unfold record_regresses in H1.
      rewrite Hut, Huc, N.eqb_refl in H1. cbn [is_some_and] in H1. rewrite Huf in H1. fold (tk_index u) (tk_index t) in H1.
      rewrite (proj2 (N.ltb_lt _ _) Hlt) in H1. cbn in H1. bool_inv. subst applied. cbn. lia.
  - eapply ticket_chain_frame; [exact Hc| |done|cbn; lia|intros; by left|by left].
    intros u Hu Hlk. cbn. rewrite lookup_insert_ne; [done|]. intros Heq.
    rewrite <- Heq in Hlk. rewrite Ht in Hlk. injection Hlk as <-.
    pose proof (chain_older _ _ _ _ _ _ Hc0 Hu). lia.
Qed.

(** ** Initialization *)

Lemma initial_routes_lookup shard owners k r :
  initial_routes shard owners !! k = Some r <->
  exists owner, owners !! k = Some owner /\ r = mkRoute (shard + N.of_nat k) 1 owner None.
Proof.
  revert shard k. induction owners as [|o owners IH]; intros shard k; cbn [initial_routes].
  - rewrite !lookup_nil. naive_solver.
  - destruct k as [|k]; cbn; [rewrite N.add_0_r; naive_solver|].
    rewrite IH. replace (shard + 1 + N.of_nat k) with (shard + N.pos (Pos.of_succ_nat k)) by lia. done.
Qed.
Lemma initial_routes_length shard owners : length (initial_routes shard owners) = length owners.
Proof. revert shard. induction owners; intros; cbn; auto. Qed.

Lemma initialize_wf c index groups owners :
  co_initialized_at c = None -> blank c -> co_applied c = index -> 0 < index ->
  forall reply c', initialize c (mkOrigin CONTROLLER index) groups owners = Done (reply, c') ->
  wf c' (mkOrigin CONTROLLER index) /\ pointers_ok c' /\ co_initialized_at c' = Some (mkOrigin CONTROLLER index).
Proof.
  intros Hi (Hg & Hr & Ht & Hm) Ha Hpos reply c' He. unfold initialize in He. rewrite Hi in He.
  match type of He with (if ?b then _ else _) = _ => destruct b eqn:Hb; [discriminate|] end.
  injection He as <- <-. bool_inv. rewrite existsb_False in *.
  assert (Hroutes : forall r, r ∈ initial_routes 0 owners -> ro_transfer r = None /\ ro_epoch r = 1 /\ ro_owner r ∈ groups).
  { intros r [k Hk]%list_elem_of_lookup_1. apply initial_routes_lookup in Hk as (o & Ho & ->).
    split_and!; try done. cbn. apply contains_true. apply negb_false_iff.
    match goal with H : forall x, x ∈ owners -> _ |- _ => apply H end. by eapply list_elem_of_lookup_2. }
  split_and!; [constructor; cbn|..]; rewrite ?Ht, ?Hm.
  - lia.
  - unfold groups_invalid. bool_intro; try done. by apply contains_false.
  - unfold len64. rewrite initial_routes_length. split; [|done].
    intros E. apply (f_equal length) in E. rewrite initial_routes_length in E.
    by destruct owners.
  - by rewrite map_size_empty, map_size_empty.
  - intros k r Hk. destruct (Hroutes r) as (_ & -> & Ho); [by eapply list_elem_of_lookup_2|].
    apply initial_routes_lookup in Hk as (o & _ & ->). split_and!; [cbn; lia|done|done].
  - intros request t Hl. by rewrite lookup_empty in Hl.
  - constructor.
  - constructor.
  - unfold tickets. cbn. by rewrite Hm.
  - intros r Hin. destruct (Hroutes r Hin) as (_ & -> & _). unfold history. cbn. by rewrite Ht.
  - intros r id Hin Hid. destruct (Hroutes r Hin) as (E & _). congruence.
  - intros r id Hin Hid. cbn in Hin. destruct (Hroutes r Hin) as (E & _). congruence.
  - done.
Qed.
End safe.
