(* ===== verification/ControllerGuarantees.v ===== *)
(** * What the shard controller guarantees

    Every state reachable by applying commands passes [validate]; no command
    panics; a rejection changes nothing but the watermark; evidence recorded
    for a transfer is never retracted, so that an abort and an ownership change
    exclude each other for ever; a shard's epoch and owner only move forward. *)
From S2P Require Import Prelude Types Membership ShardTypes Controller ControllerInv ControllerSafe.
Local Open Scope N_scope.
Local Open Scope raft_scope.

(** The watermark is written as a decimal number in an otherwise unchanged
    JSON object. *)
Class ControllerLaws `{Serialize Controller} : Prop :=
  controller_size c n :
    len64 (to_vec (c <| co_applied := n |>)) + str_len (to_string (co_applied c))
    = len64 (to_vec c) + str_len (to_string n).

Section guarantees.
Context `{Fmt : TypeFormats} `{SerC : Serialize Controller}.

(** ** Capacity and the watermark *)

Lemma fits_len c : fits c <-> len64 (to_vec c) <= MAX_ACTOR_BYTES - reserved c.
Proof.
  unfold fits, check_capacity, saturating_sub. rewrite Outcome_bind_Done.
  setoid_rewrite canonical_bytes_Done. naive_solver.
Qed.
Lemma check_capacity_no_panic c : check_capacity c <> Panicked.
Proof.
  unfold check_capacity. rewrite canonical_bytes_spec. by destruct (_ <? _).
Qed.
Lemma fits_applied `{!ControllerLaws} c n :
  co_applied c <= u64_max -> n <= u64_max -> fits c -> fits (c <| co_applied := n |>).
Proof.
  intros Ha Hn. rewrite !fits_len. unfold reserved.
  change (active_maintenance (c <| co_applied := n |>)) with (active_maintenance c).
  change (co_applied (c <| co_applied := n |>)) with n.
  pose proof (controller_size c n). pose proof (to_string_len _ Ha). pose proof (to_string_len _ Hn).
  pose proof (to_string_len u64_max (N.le_refl _)).
  assert (str_len (to_string u64_max) = 20) by reflexivity. unfold MAX_ACTOR_BYTES in *.
  destruct (is_some _); unfold MAINTENANCE_COMPLETION_RESERVE; lia.
Qed.

(** ** Execution *)

Lemma find_transfer c id request t :
  List.find (fun '(_, t) => tr_id t ==? id) (smap_iter (co_transfers c)) = Some (request, t) ->
  co_transfers c !! request = Some t /\ tr_id t = id.
Proof.
  intros [Hin Hid]%find_some. bool_inv. split; [|done].
  by apply (elem_of_btree_iter str_le), list_elem_of_In.
Qed.

Lemma begin_wf c i index request shard epoch destination reply c' :
  wf c i -> pointers_ok c -> co_applied c < index ->
  begin (c <| co_applied := index |>) index request shard epoch destination = Done (reply, c') ->
  wf c' i /\ pointers_ok c'.
Proof.
  intros W P Hix Hb. set (c1 := c <| co_applied := index |>) in *.
  assert (W1 : wf c1 i /\ pointers_ok c1) by (split; [apply wf_applied; [done|lia]|done]).
  unfold begin in Hb. destruct (_ || _) eqn:Hlen; [discriminate|].
  change (co_transfers c1) with (co_transfers c) in Hb. change (co_routes c1) with (co_routes c) in Hb.
  change (active_maintenance c1) with (active_maintenance c) in Hb.
  change (co_groups c1) with (co_groups c) in Hb.
  destruct (co_transfers c !! request) as [existing|] eqn:Hfresh.
  { destruct (_ && _) in Hb; [|discriminate]. by injection Hb as _ <-. }
  apply Outcome_bind_Done in Hb as ([] & Hact%refuse_if_Done & Hb).
  apply Outcome_bind_Done in Hb as ([] & Hroom%refuse_if_Done & Hb).
  apply Outcome_bind_Done in Hb as (route & Hr%ok_or_Done & Hb).
  apply Outcome_bind_Done in Hb as ([] & Hep%refuse_if_Done & Hb).
  apply Outcome_bind_Done in Hb as ([] & Hdst%refuse_if_Done & Hb).
  apply Outcome_bind_Done in Hb as ([] & Hfree%refuse_if_Done & Hb).
  apply Outcome_bind_Done in Hb as (next & Hnext%ok_or_Done & Hb).
  injection Hb as _ <-. bool_inv. rewrite contains_true in *. rewrite smap_existsb_false in Hfree.
  pose proof Hnext as [-> _]%checked_add_Some.
  destruct (wf_routes _ _ W _ _ Hr) as (_ & Hne & Ho).
  assert (Hgc : contains CONTROLLER (co_groups c) = false).
  { pose proof (wf_groups _ _ W) as Hg. unfold groups_invalid in Hg. by bool_inv. }
  rewrite contains_false in Hgc.
  assert (Hshard : shard < MAX_SHARDS).
  { apply lookup_lt_Some in Hr. destruct (wf_shards _ _ W). unfold len64 in *. lia. }
  eapply (wf_begin c i index request
    (mkTransfer request (mkMove (mkTransferId shard (epoch + 1) index) (ro_owner route) destination epoch) PStarted)
    route); try done.
  - lia.
  - unfold move_valid, transfer_id_valid. cbn. bool_intro; try done; try lia; congruence.
  - intros q v Hv Hc. specialize (Hfree q v Hv). rewrite Hc in Hfree. cbn in Hfree. bool_inv.
    unfold live_groups. rewrite Hc. repeat constructor; done.
  - by destruct (active_maintenance c).
Qed.

Lemma transfer_command_wf c i index command reply c' :
  wf c i -> pointers_ok c -> co_applied c < index ->
  transfer_command (c <| co_applied := index |>) (mkOrigin CONTROLLER index) command = Done (reply, c') ->
  wf c' i /\ pointers_ok c'.
Proof.
  intros W P Hix Hc. unfold transfer_command in Hc.
  apply Outcome_bind_Done in Hc as (id & Hid%or_panic_Done & Hc).
  apply Outcome_bind_Done in Hc as ([request t] & Hf%ok_or_Done & Hc).
  apply find_transfer in Hf as [Ht <-].
  apply Outcome_bind_Done in Hc as ([phase routes] & Hs & Hc). injection Hc as _ <-.
  set (c1 := c <| co_applied := index |>) in *.
  assert (W1 : wf c1 i) by (apply wf_applied; [done|lia]).
  change (co_routes c1) with (co_routes c) in Hs. change (co_transfers c1) with (co_transfers c) in *.
  destruct (transfer_step_result c i request t index W P Ht Hix _ _ _ Hid Hs)
    as [[-> ->]|(Hc & Hp & route & route' & Hr & -> & Hsh & He & Ho & Hph & Hptr)].
  - replace (t <| tr_phase := tr_phase t |>) with t by (by destruct t).
    rewrite insert_id by done. by destruct c.
  - by apply (wf_update c1 i request t phase route route').
Qed.

(** What every accepted command leaves alone. *)
Lemma execute_frame c index command reply c' :
  execute c index command = Done (reply, c') ->
  co_applied c' = co_applied c
  /\ match co_initialized_at c with
     | Some i => co_initialized_at c' = Some i /\ co_groups c' = co_groups c
     | None => exists groups owners, command = CInitialize groups owners
     end.
Proof.
  unfold execute. destruct command;
    try (destruct (co_initialized_at c) as [i|] eqn:Hi; cbn [is_none is_some negb]; [|discriminate]);
    unfold acquire_maintenance, complete_maintenance, begin, transfer_command, initialize;
    rewrite ?Hi; intros He; outcome_inv;
    repeat (case_match; outcome_inv; try discriminate); subst; cbn; rewrite ?Hi; eauto.
Qed.

(** The commands that only touch the tickets. *)
Lemma acquire_routes c origin request target operation generation reply c' :
  acquire_maintenance c origin request target operation generation = Done (reply, c') ->
  co_routes c' = co_routes c.
Proof.
  unfold acquire_maintenance. intros He. outcome_inv.
  repeat (case_match; outcome_inv; try discriminate); by subst.
Qed.
Lemma complete_routes c origin request t core record observed reply c' :
  complete_maintenance c origin request t core record observed = Done (reply, c') ->
  co_routes c' = co_routes c.
Proof.
  unfold complete_maintenance. intros He. outcome_inv.
  repeat (case_match; outcome_inv; try discriminate); by subst.
Qed.
Lemma pointers_ok_routes c c' : pointers_ok c -> co_routes c' = co_routes c -> pointers_ok c'.
Proof. unfold pointers_ok. by intros ? ->. Qed.

(** The invariant of every reachable state. *)
Definition good (c : Controller) : Prop :=
  co_applied c <= u64_max
  /\ match co_initialized_at c with
     | None => blank c
     | Some i => wf c i /\ pointers_ok c /\ fits c
     end.

Lemma execute_wf c index command reply c' :
  good c -> co_applied c < index ->
  execute (c <| co_applied := index |>) index command = Done (reply, c') ->
  exists i, co_initialized_at c' = Some i /\ wf c' i /\ pointers_ok c'.
Proof.
  intros [_ Hgood] Hix He. pose proof (execute_frame _ _ _ _ _ He) as [_ Hf].
  change (co_initialized_at (c <| co_applied := index |>)) with (co_initialized_at c) in Hf.
  unfold execute in He. change (co_initialized_at (c <| co_applied := index |>)) with (co_initialized_at c) in He.
  destruct (co_initialized_at c) as [i|] eqn:Hi; cbn [is_none is_some negb] in He.
  - destruct Hgood as (W & P & _). exists i. destruct Hf as [Hi' Hg]. split; [done|].
    destruct command.
    + split; [by eapply acquire_wf|]. eapply pointers_ok_routes; [exact P|exact (acquire_routes _ _ _ _ _ _ _ _ He)].
    + split; [by eapply complete_wf|]. eapply pointers_ok_routes; [exact P|exact (complete_routes _ _ _ _ _ _ _ _ _ He)].
    + unfold initialize in He. change (co_initialized_at (c <| co_applied := index |>)) with (co_initialized_at c) in He.
      rewrite Hi in He. case_match; [|discriminate]. injection He as _ <-.
      split; [|done]. apply wf_applied; [done|lia].
    + by eapply begin_wf.
    + by eapply transfer_command_wf.
    + by eapply transfer_command_wf.
    + by eapply transfer_command_wf.
    + by eapply transfer_command_wf.
    + by eapply transfer_command_wf.
    + by eapply transfer_command_wf.
    + by eapply transfer_command_wf.
    + by eapply transfer_command_wf.
  - destruct Hf as (groups & owners & ->).
    exists (mkOrigin CONTROLLER index). apply initialize_wf in He; [|done|done|done|lia].
    by destruct He as (? & ? & ?).
Qed.

(** ** Commands and watermarks keep the invariant *)

Lemma apply_cases c index command r c' :
  apply c index command = Done (r, c') ->
  checked_add (co_applied c) 1 = Some index
  /\ match r with
     | Done reply => execute (c <| co_applied := index |>) index command = Done (reply, c') /\ fits c'
     | Refused _ => c' = c <| co_applied := index |>
     | Panicked => False
     end.
Proof.
  unfold apply. destruct (negb _) eqn:Hg; [discriminate|]. bool_inv. intros Ha. split; [done|].
  destruct (execute _ _ _) as [[reply next]| |]; cbn [mbind Outcome_bind] in Ha;
    [|by injection Ha as <- <-|discriminate].
  destruct (check_capacity next) as [[]| |] eqn:Hf; cbn [mbind Outcome_bind] in Ha;
    [by injection Ha as <- <-|by injection Ha as <- <-|discriminate].
Qed.

Lemma good_applied `{!ControllerLaws} c n :
  good c -> co_applied c <= n <= u64_max -> good (c <| co_applied := n |>).
Proof.
  intros [Ha Hg] [Hn Hmax]. split; [done|]. cbn [upd co_initialized_at].
  destruct (co_initialized_at c) as [i|]; [|done]. destruct Hg as (W & P & F).
  split_and!; [by apply wf_applied|done|by apply fits_applied].
Qed.

Lemma apply_good `{!ControllerLaws} c index command r c' :
  good c -> apply c index command = Done (r, c') -> good c'.
Proof.
  intros Hg Ha. apply apply_cases in Ha as [[-> Hi]%checked_add_Some Ha].
  destruct r as [reply|e|]; [|subst; apply good_applied; [done|lia]|done].
  destruct Ha as [He Hf]. destruct (execute_frame _ _ _ _ _ He) as [Happ _].
  destruct (execute_wf c (co_applied c + 1) _ _ _ Hg ltac:(lia) He) as (i & Hinit & W & P).
  split; [rewrite Happ; cbn; lia|]. by rewrite Hinit.
Qed.

Lemma advance_good `{!ControllerLaws} c index c' :
  good c -> advance c index = Done c' -> good c'.
Proof.
  unfold advance. intros Hg. destruct (negb _) eqn:E; [discriminate|]. intros [= <-]. bool_inv.
  match goal with H : checked_add _ _ = _ |- _ => apply checked_add_Some in H as [-> Hi] end.
  apply good_applied; [done|lia].
Qed.

Lemma good_default : good controller_default.
Proof. split; [by vm_compute|done]. Qed.

Lemma good_validate c : good c -> validate c = Done tt.
Proof.
  intros [_ Hg]. apply validate_sound. unfold sound.
  destruct (co_initialized_at c); [by destruct Hg as (? & _ & ?)|done].
Qed.

(** ** No panic *)

Lemma transfer_command_no_panic c i index command :
  wf c i -> pointers_ok c -> co_applied c < index -> is_some (command_id command) = true ->
  transfer_command (c <| co_applied := index |>) (mkOrigin CONTROLLER index) command <> Panicked.
Proof.
  intros W P Hix Hid. unfold transfer_command. destruct (command_id command) as [id|] eqn:E; [|done].
  cbn [or_panic mbind Outcome_bind].
  destruct (List.find _ _) as [[request t]|] eqn:Hf; cbn [ok_or mbind Outcome_bind]; [|done].
  apply find_transfer in Hf as [Ht <-]. apply bind_no_panic; [|by intros []].
  eapply (transfer_step_no_panic c i request t index); try done.
Qed.

Lemma execute_no_panic c index command :
  good c -> co_applied c < index -> execute (c <| co_applied := index |>) index command <> Panicked.
Proof.
  intros [_ Hg] Hix. unfold execute.
  change (co_initialized_at (c <| co_applied := index |>)) with (co_initialized_at c).
  destruct command;
    try (destruct (co_initialized_at c) as [i|]; cbn [is_none is_some negb]; [|discriminate];
         destruct Hg as (W & P & _); by eapply transfer_command_no_panic).
  all: destruct (co_initialized_at c) eqn:Hi; cbn [is_none is_some negb]; try discriminate;
    unfold acquire_maintenance, complete_maintenance, initialize, begin, refuse_if, ok_or;
    cbn [mbind Outcome_bind]; rewrite ?Hi;
    repeat (case_match; cbn [mbind Outcome_bind]; try discriminate).
Qed.

Lemma apply_no_panic c index command : good c -> apply c index command <> Panicked.
Proof.
  intros Hg. unfold apply. destruct (negb _) eqn:E; [done|]. bool_inv.
  match goal with H : checked_add _ _ = _ |- _ => apply checked_add_Some in H as [-> Hi] end.
  pose proof (execute_no_panic c (co_applied c + 1) command Hg ltac:(lia)) as He.
  destruct (execute _ _ _) as [[reply next]| |]; cbn [mbind Outcome_bind]; [|done|done].
  pose proof (check_capacity_no_panic next). by destruct (check_capacity next).
Qed.

(** ** Reachable controllers *)

Inductive reachable : Controller -> Prop :=
| reach_default : reachable controller_default
| reach_apply c index command r c' :
    reachable c -> apply c index command = Done (r, c') -> reachable c'
| reach_advance c index c' :
    reachable c -> advance c index = Done c' -> reachable c'.

Lemma reachable_good `{!ControllerLaws} c : reachable c -> good c.
Proof. induction 1; eauto using good_default, apply_good, advance_good. Qed.
End guarantees.

(** * The controller's decisions are permanent

    Evidence a transfer has recorded stays, word for word, in every later
    state, and a shard's epoch never goes back. *)
(** ** The evidence a phase carries *)

Definition phase_installation (p : Phase) : option InstalledProof :=
  match p with
  | PInstalled installation | PAborted _ (ASInstalled installation) _ _ => Some installation
  | _ => ow_installation <$> phase_ownership p
  end.
Definition phase_image (p : Phase) : option ImageProof :=
  match p with
  | PFenced image | PAborted _ (ASFenced image) _ _ => Some image
  | _ => in_image <$> phase_installation p
  end.
Definition phase_activation (p : Phase) : option ActivationProof :=
  match p with
  | PActivated activation | PCleaned activation _ | PComplete activation _ _ => Some activation
  | _ => None
  end.
Definition phase_cleaned (p : Phase) : option Origin :=
  match p with PCleaned _ cleaned | PComplete _ cleaned _ => Some cleaned | _ => None end.
Definition phase_abort (p : Phase) : option AbortProof :=
  match p with PAborted abort _ _ _ => Some abort | _ => None end.
Definition phase_recovered (p : Phase) : option Origin * option Origin :=
  match p with PAborted _ _ s d => (s, d) | _ => (None, None) end.
Definition phase_completed (p : Phase) : bool :=
  match p with PComplete _ _ _ => true | _ => false end.

Definition stays {A} (o o' : option A) : Prop := forall a, o = Some a -> o' = Some a.
#[export] Instance stays_preorder {A} : PreOrder (@stays A).
Proof. split; [by intros o a|]. intros x y z H1 H2 a Ha. auto. Qed.

(** [p'] carries all the evidence of [p]. *)
Record extends (p p' : Phase) : Prop := {
  ex_image : stays (phase_image p) (phase_image p');
  ex_installation : stays (phase_installation p) (phase_installation p');
  ex_ownership : stays (phase_ownership p) (phase_ownership p');
  ex_activation : stays (phase_activation p) (phase_activation p');
  ex_cleaned : stays (phase_cleaned p) (phase_cleaned p');
  ex_abort : stays (phase_abort p) (phase_abort p');
  ex_source : stays (phase_recovered p).1 (phase_recovered p').1;
  ex_destination : stays (phase_recovered p).2 (phase_recovered p').2;
  ex_completed : phase_completed p = true -> phase_completed p' = true;
}.
#[export] Instance extends_preorder : PreOrder extends.
Proof.
  split.
  - intros p. by split.
  - intros p q r [] []. split; try (by etrans); auto.
Qed.

(** The same transfer, with at least the evidence. *)
Definition transfer_extends (t t' : Transfer) : Prop :=
  tr_request_id t' = tr_request_id t /\ tr_movement t' = tr_movement t
  /\ extends (tr_phase t) (tr_phase t').
#[export] Instance transfer_extends_preorder : PreOrder transfer_extends.
Proof.
  split; [intros t; split_and!; done|].
  intros t u v (? & ? & ?) (? & ? & ?). split_and!; [congruence..|by etrans].
Qed.

Lemma record_receipt_stays receipt recovered r :
  record_receipt receipt recovered = Done r -> stays receipt r.
Proof.
  unfold record_receipt. destruct receipt as [p|]; [|done]. by destruct (_ ==? _); intros [= <-].
Qed.

Ltac extends_cases :=
  split; unfold stays; cbn; try done; try congruence; intros; simplify_eq/=; done.

Lemma abort_phase_extends origin t phase :
  abort_phase origin t = Done phase -> extends (tr_phase t) phase.
Proof. unfold abort_phase. destruct (tr_phase t) eqn:E; intros [= <-]; extends_cases. Qed.

Lemma endpoint_aborted_extends t abort recovered phase :
  endpoint_aborted t abort recovered = Done phase -> extends (tr_phase t) phase.
Proof.
  unfold endpoint_aborted. intros He. destruct (tr_phase t) eqn:E; try discriminate.
  outcome_inv. bool_inv. repeat (case_match; try discriminate); outcome_inv; subst;
    match goal with H : record_receipt _ _ = _ |- _ => apply record_receipt_stays in H end;
    by destruct before; split.
Qed.

Lemma transfer_step_extends routes origin id t command phase routes' :
  transfer_step routes origin id t command = Done (phase, routes') -> extends (tr_phase t) phase.
Proof.
  destruct command; cbn [transfer_step]; intros Hs; try discriminate;
    try (apply Outcome_bind_Done in Hs as (phase' & He & Hs);
         assert (phase = phase') as -> by (repeat (case_match; outcome_inv); congruence);
         eauto using abort_phase_extends, endpoint_aborted_extends);
    destruct (tr_phase t) eqn:E; outcome_inv; try discriminate;
    repeat (case_match; try discriminate); outcome_inv; bool_inv; subst; extends_cases.
Qed.

(** ** Later controllers *)

(** A later route: the epoch is at least as high, and an equal epoch means the
    same owner. *)
Definition route_later (r r' : Route) : Prop :=
  ro_shard r' = ro_shard r /\ ro_epoch r <= ro_epoch r'
  /\ (ro_epoch r' = ro_epoch r -> ro_owner r' = ro_owner r).
#[export] Instance route_later_preorder : PreOrder route_later.
Proof.
  split; [intros r; by split_and!|]. intros r1 r2 r3 (E1 & L1 & O1) (E2 & L2 & O2).
  split_and!; [congruence|lia|]. intros E. rewrite O2, O1; [done|lia..].
Qed.

Record later (c c' : Controller) : Prop := {
  lt_applied : co_applied c <= co_applied c';
  lt_initialized : stays (co_initialized_at c) (co_initialized_at c');
  lt_groups : co_initialized_at c <> None -> co_groups c' = co_groups c;
  lt_routes : co_initialized_at c <> None -> Forall2 route_later (co_routes c) (co_routes c');
  lt_transfers : forall request t, co_transfers c !! request = Some t ->
    exists t', co_transfers c' !! request = Some t' /\ transfer_extends t t';
}.
#[export] Instance later_preorder : PreOrder later.
Proof.
  split.
  - intros c. split; try done. intros request t Ht. by exists t.
  - intros c1 c2 c3 [A1 I1 G1 R1 T1] [A2 I2 G2 R2 T2].
    assert (H12 : co_initialized_at c1 <> None -> co_initialized_at c2 <> None).
    { destruct (co_initialized_at c1) as [i|] eqn:E; [|done]. by rewrite (I1 i eq_refl). }
    split; [lia|by etrans|..].
    + intros Hi. rewrite G2, G1; auto.
    + intros Hi. etrans; eauto.
    + intros request t Ht. destruct (T1 _ _ Ht) as (t2 & Ht2 & E2).
      destruct (T2 _ _ Ht2) as (t3 & Ht3 & E3). exists t3. split; [done|by etrans].
Qed.

Section later.
Context `{Fmt : TypeFormats} `{SerC : Serialize Controller}.

Lemma routes_later_refl routes : Forall2 route_later routes routes.
Proof. reflexivity. Qed.
Lemma routes_later_insert routes k r r' :
  routes !! k = Some r -> route_later r r' -> Forall2 route_later routes (<[k := r']> routes).
Proof.
  intros Hk Hl. rewrite <- (list_insert_id routes k r) at 1 by done.
  apply Forall2_insert; [apply routes_later_refl|done].
Qed.

Lemma later_same_transfers c c' :
  co_applied c <= co_applied c' -> stays (co_initialized_at c) (co_initialized_at c') ->
  (co_initialized_at c <> None -> co_groups c' = co_groups c) ->
  (co_initialized_at c <> None -> co_routes c' = co_routes c) ->
  co_transfers c' = co_transfers c -> later c c'.
Proof.
  intros Ha Hi Hg Hr Ht. split; try done.
  - intros Hn. rewrite Hr by done. apply routes_later_refl.
  - rewrite Ht. intros request t Hl. by exists t.
Qed.

Lemma transfer_step_later c i request t index command phase routes' :
  wf c i -> co_transfers c !! request = Some t ->
  transfer_step (co_routes c) (mkOrigin CONTROLLER index) (tr_id t) t command = Done (phase, routes') ->
  Forall2 route_later (co_routes c) routes'.
Proof.
  intros W Ht Hs. destruct (wf_transfers _ _ W _ _ Ht) as (_ & _ & Hm & _).
  unfold move_valid in Hm. bool_inv. change (mv_id (tr_movement t)) with (tr_id t) in *.
  match goal with H : checked_add _ _ = _ |- _ => apply checked_add_Some in H as [Hep _] end.
  destruct command; cbn [transfer_step] in Hs; try discriminate; outcome_inv;
    repeat (case_match; outcome_inv; try discriminate); subst; try apply routes_later_refl;
    (eapply routes_later_insert; [done|]); bool_inv; split_and!; cbn; try done; try lia.
Qed.

Lemma execute_later c index command reply c' :
  good c -> co_applied c < index ->
  execute (c <| co_applied := index |>) index command = Done (reply, c') -> later c c'.
Proof.
  intros [_ Hg] Hix He. pose proof (execute_frame _ _ _ _ _ He) as [Ha Hf].
  change (co_initialized_at (c <| co_applied := index |>)) with (co_initialized_at c) in Hf.
  change (co_applied (c <| co_applied := index |>)) with index in Ha.
  unfold execute in He. change (co_initialized_at (c <| co_applied := index |>)) with (co_initialized_at c) in He.
  destruct (co_initialized_at c) as [i|] eqn:Hi; cbn [is_none is_some negb] in He.
  2:{ destruct Hf as (groups & owners & ->). destruct Hg as (_ & _ & Ht & _).
      split; rewrite ?Hi; try done; [lia|]. intros request t Hl. by rewrite Ht, lookup_empty in Hl. }
  destruct Hg as (W & P & _). destruct Hf as [Hi' Hg'].
  assert (Hst : stays (co_initialized_at c) (co_initialized_at c')) by (rewrite Hi, Hi'; done).
  assert (Hmt : co_routes c' = co_routes c -> co_transfers c' = co_transfers c -> later c c').
  { intros Hr Ht. apply later_same_transfers; [lia|done..]. }
  assert (Htc : transfer_command (c <| co_applied := index |>) (mkOrigin CONTROLLER index) command
                = Done (reply, c') -> later c c').
  { clear He. intros He. unfold transfer_command in He.
    apply Outcome_bind_Done in He as (id & _ & He).
    apply Outcome_bind_Done in He as ([request t] & Hf%ok_or_Done & He).
    apply find_transfer in Hf as [Ht <-].
    apply Outcome_bind_Done in He as ([phase routes] & Hs & He). injection He as _ <-.
    split; try done; [lia| |].
    - intros _. by eapply transfer_step_later.
    - intros q u Hu. cbn. destruct (decide (q = request)) as [->|Hne].
      + change (co_transfers c !! request = Some t) in Ht. rewrite Ht in Hu. injection Hu as <-.
        rewrite lookup_insert_eq. eexists. split; [done|]. split_and!; [done|done|].
        by eapply transfer_step_extends.
      + rewrite lookup_insert_ne by done. by exists u. }
  destruct command; try (by apply Htc).
  - apply Hmt; [exact (acquire_routes _ _ _ _ _ _ _ _ He)|]. unfold acquire_maintenance in He.
    outcome_inv. repeat (case_match; outcome_inv; try discriminate); by subst.
  - apply Hmt; [exact (complete_routes _ _ _ _ _ _ _ _ _ He)|]. unfold complete_maintenance in He.
    outcome_inv. repeat (case_match; outcome_inv; try discriminate); by subst.
  - unfold initialize in He. change (co_initialized_at (c <| co_applied := index |>)) with (co_initialized_at c) in He.
    rewrite Hi in He. case_match; [|discriminate]. injection He as _ <-. by apply Hmt.
  - unfold begin in He. destruct (_ || _); [discriminate|].
    change (co_transfers (c <| co_applied := index |>)) with (co_transfers c) in He.
    destruct (co_transfers c !! request_id) as [existing|] eqn:Hfresh.
    { case_match; [|discriminate]. injection He as _ <-. by apply Hmt. }
    outcome_inv. subst. split; try done; [lia| |].
    + intros _. eapply routes_later_insert; [done|by split_and!].
    + intros q u Hu. cbn. exists u. split; [|done]. rewrite lookup_insert_ne; [done|]. congruence.
Qed.

Lemma later_applied c n : co_applied c <= n -> later c (c <| co_applied := n |>).
Proof. intros Hn. by apply later_same_transfers. Qed.

(** Every step of a reachable controller leads to a later one. *)
Inductive ctrl_step (c c' : Controller) : Prop :=
| step_apply index command r : apply c index command = Done (r, c') -> ctrl_step c c'
| step_advance index : advance c index = Done c' -> ctrl_step c c'.

Lemma ctrl_step_later c c' : good c -> ctrl_step c c' -> later c c'.
Proof.
  intros Hg [index command r Ha|index Ha].
  - apply apply_cases in Ha as [[-> Hi]%checked_add_Some Ha].
    destruct r as [reply|e|]; [|subst; apply later_applied; lia|done].
    destruct Ha as [He _]. eapply (execute_later c (co_applied c + 1)); [done|lia|done].
  - unfold advance in Ha. destruct (negb _) eqn:E; [discriminate|]. injection Ha as <-. bool_inv.
    match goal with H : checked_add _ _ = _ |- _ => apply checked_add_Some in H as [-> _] end.
    apply later_applied. lia.
Qed.

Context `{!ControllerLaws}.

Lemma ctrl_step_good c c' : good c -> ctrl_step c c' -> good c'.
Proof. intros Hg []; eauto using apply_good, advance_good. Qed.
Lemma ctrl_steps_later c c' : good c -> rtc ctrl_step c c' -> later c c' /\ good c'.
Proof.
  intros Hg Hs. induction Hs as [c|c c1 c2 H1 H2 IH]; [done|].
  destruct IH as [Hl Hg']; [by eapply ctrl_step_good|]. split; [|done].
  etrans; [by apply ctrl_step_later|done].
Qed.
End later.
