(* ===== verification/ControllerTheorems.v ===== *)
(** * Retried controller commands, and the controller's history of one shard

    A command that was accepted once is accepted again, with the same reply and
    no further effect: a client that lost the answer can ask again.  The transfers
    of a shard form a chain of epochs: at most one is unfinished, it comes last,
    and every other one that changed the owner did so at an epoch that the
    unfinished one starts from or above. *)
From S2P Require Import Prelude Types Membership ShardTypes Controller ControllerInv ControllerSafe ControllerGuarantees.
Local Open Scope N_scope.
Local Open Scope raft_scope.

(** ** The history of one shard *)

(** [t] is a transfer of [c]. *)
Definition has (c : Controller) (t : Transfer) : Prop := exists request, co_transfers c !! request = Some t.
Definition tr_shard (t : Transfer) : ShardId := ti_shard (tr_id t).
Definition tr_epoch (t : Transfer) : N := ti_epoch (tr_id t).
Definition tr_previous (t : Transfer) : N := mv_previous_epoch (tr_movement t).
Definition owned (t : Transfer) : bool := is_some (phase_ownership (tr_phase t)).

(** The unfinished transfer of a shard. *)
Definition live_of (c : Controller) (x : ShardId) : option Transfer :=
  List.find (fun t => negb (complete t) && (tr_shard t =? x)) (smap_values (co_transfers c)).

Lemma replay_epochs owner epoch previous h o e :
  Forall (fun t => tr_previous t + 1 = tr_epoch t) h ->
  replay_history owner epoch previous h = Done (o, e) ->
  epoch <= e /\ Forall (fun t => tr_previous t <= e /\ (owned t = true -> tr_epoch t <= e)) h.
Proof.
  revert owner epoch previous. induction h as [|t h IH]; intros owner epoch previous HF Hr; cbn in Hr.
  - injection Hr as _ <-. split; [lia|constructor].
  - apply Outcome_bind_Done in Hr as ([] & G%refuse_if_Done & Hr). bool_inv.
    apply list.Forall_cons in HF as [Ht HF].
    destruct (IH _ _ _ HF Hr) as [Hle Hall]. unfold owned, tr_previous, tr_epoch in *.
    destruct (is_some _) eqn:E; (split; [lia|]); (apply list.Forall_cons; split; [|done]);
      (split; [lia|intros; try congruence; lia]).
Qed.

Section routes.
Context `{Fmt : TypeFormats} `{SerC : Serialize Controller}.

Section wf.
Context (c : Controller) (i : Origin) (W : wf c i).

Lemma elem_values t : t ∈ smap_values (co_transfers c) <-> has c t.
Proof. apply elem_of_smap_values. Qed.

Lemma has_wf t : has c t -> exists request, transfer_wf c i request t.
Proof using W. intros [r Hr]. exists r. by apply W. Qed.
Lemma has_move t : has c t -> move_valid (tr_movement t) = true.
Proof using W. intros Ht. apply has_wf in Ht as (r & _ & _ & Hm & _). done. Qed.
Lemma has_epoch t : has c t -> tr_previous t + 1 = tr_epoch t.
Proof using W.
  intros Ht. apply has_move in Ht. unfold move_valid in Ht. bool_inv.
  match goal with H : checked_add _ _ = _ |- _ => apply checked_add_Some in H as [H _] end. done.
Qed.
Lemma has_ne t : has c t -> mv_source (tr_movement t) <> mv_destination (tr_movement t).
Proof using W. intros Ht. by apply move_valid_ne, has_move. Qed.

(** A transfer is known by its identity. *)
Lemma has_unique t u : has c t -> has c u -> tr_id t = tr_id u -> t = u.
Proof using W.
  intros [r Hr] [q Hq] E. pose proof (NoDup_distinct_keys tr_index _ (wf_indices _ _ W)) as Hd.
  assert (r = q) as -> by (eapply Hd; eauto; unfold tr_index; by rewrite E). congruence.
Qed.
Lemma has_unique_movement t u : has c t -> has c u -> tr_movement t = tr_movement u -> t = u.
Proof using W. intros Ht Hu E. apply has_unique; [done..|]. unfold tr_id. by rewrite E. Qed.

Lemma has_route t : has c t -> exists r, co_routes c !! N.to_nat (tr_shard t) = Some r
  /\ (complete t = false -> ro_transfer r = Some (tr_id t) /\ (ro_owner r, ro_epoch r) = phase_route t).
Proof using W. intros Ht. apply has_wf in Ht as (q & _ & _ & _ & _ & _ & _ & Hr & _). exact Hr. Qed.

Lemma live_unique t u : has c t -> has c u -> complete t = false -> complete u = false ->
  tr_shard t = tr_shard u -> t = u.
Proof using W.
  intros Ht Hu Hct Hcu E. destruct (has_route t Ht) as (r & Hr & H1), (has_route u Hu) as (r' & Hr' & H2).
  rewrite E, Hr' in Hr. simplify_eq. destruct (H1 Hct) as [E1 _], (H2 Hcu) as [E2 _].
  apply has_unique; [done..|]. congruence.
Qed.

Lemma live_of_Some x t : live_of c x = Some t <-> has c t /\ complete t = false /\ tr_shard t = x.
Proof using W.
  unfold live_of. split.
  - intros [Hin Hb]%find_some. bool_inv. split_and!; try done. by apply elem_values, list_elem_of_In.
  - intros (Ht & Hc & Hs). destruct (List.find _ _) as [u|] eqn:E.
    + apply find_some in E as [Hin Hb]. bool_inv. f_equal.
      apply live_unique; try done; [|congruence]. by apply elem_values, list_elem_of_In.
    + exfalso. rewrite find_None_iff in E. apply elem_values, E in Ht. by rewrite Hc, Hs, N.eqb_refl in Ht.
Qed.
Lemma live_of_None x : live_of c x = None <-> forall t, has c t -> tr_shard t = x -> complete t = true.
Proof using W.
  split.
  - intros Hn t Ht Hs. destruct (complete t) eqn:Hc; [done|].
    assert (live_of c x = Some t) by (by apply live_of_Some). congruence.
  - intros Hf. destruct (live_of c x) as [t|] eqn:E; [|done].
    apply live_of_Some in E as (Ht & Hc & Hs). rewrite (Hf t Ht Hs) in Hc. done.
Qed.

(** *** Epochs *)

Lemma in_history x t : t ∈ history c x <-> has c t /\ tr_shard t = x.
Proof using.
  rewrite history_of_shard, sort_by_key_perm. unfold of_shard.
  rewrite list_elem_of_In, List.filter_In, <- list_elem_of_In, elem_values, N.eqb_eq. done.
Qed.
Lemma history_epochs x : Forall (fun t => tr_previous t + 1 = tr_epoch t) (history c x).
Proof using W. apply list.Forall_forall. intros t [Ht _]%in_history. by apply has_epoch. Qed.

Lemma route_history x r : co_routes c !! N.to_nat x = Some r -> exists owner,
  replay_history owner 1 (o_index i) (history c x) = Done (ro_owner r, ro_epoch r).
Proof using W.
  intros Hr. eexists. rewrite <- (wf_route_at _ _ _ _ W Hr) at 1. apply W. by eapply list_elem_of_lookup_2.
Qed.

Lemma epoch_le_route x r t : co_routes c !! N.to_nat x = Some r -> has c t -> tr_shard t = x ->
  tr_previous t <= ro_epoch r /\ (owned t = true -> tr_epoch t <= ro_epoch r).
Proof using W.
  intros Hr Ht Hs. destruct (route_history x r Hr) as (o & Ho).
  apply replay_epochs in Ho as [_ HF]; [|apply history_epochs].
  rewrite list.Forall_forall in HF. apply HF. by apply in_history.
Qed.

Lemma epoch_le_live t u : has c t -> complete t = false -> has c u -> tr_shard u = tr_shard t -> u <> t ->
  tr_previous u <= tr_previous t /\ (owned u = true -> tr_epoch u <= tr_previous t) /\ complete u = true.
Proof using W.
  intros Ht Hc Hu Hs Hne. destruct (has_route t Ht) as (r & Hr & _).
  destruct (route_history _ _ Hr) as (o & Ho).
  assert (Hin : t ∈ history c (tr_shard t)) by (by apply in_history).
  apply list_elem_of_split in Hin as (a & b & E).
  pose proof (history_epochs (tr_shard t)) as HE. rewrite E in Ho, HE.
  pose proof (replay_incomplete_last _ _ _ _ _ _ _ Ho Hc) as ->.
  apply replay_snoc in Ho as (HF & Ho & _). apply list.Forall_app in HE as [HE _].
  apply replay_epochs in Ho as [_ HA]; [|done].
  assert (Hua : u ∈ a).
  { assert (Hin : u ∈ history c (tr_shard t)) by (by apply in_history). rewrite E in Hin.
    apply elem_of_app in Hin as [|Hin]; [done|]. by apply list_elem_of_singleton in Hin. }
  rewrite list.Forall_forall in HF, HA. specialize (HF _ Hua). specialize (HA _ Hua). cbn in HF.
  unfold tr_previous in *. split_and!; [lia|intros Ho'; by apply HA|done].
Qed.

(** *** The proofs a transfer carries are its own *)

Lemma has_proofs t : has c t -> validate_transfer_proofs (co_applied c) t = Done tt.
Proof using W. intros Ht. apply has_wf in Ht as (q & _ & _ & _ & _ & _ & _ & _ & Hp). exact Hp. Qed.

Lemma phase_image_own t image : has c t -> phase_image (tr_phase t) = Some image ->
  image_valid image = true /\ ip_movement image = tr_movement t.
Proof using W.
  intros Ht Hi. apply has_proofs in Ht. apply (proofs_image _ _ _ Ht).
  unfold validate_transfer_proofs in Ht. apply Outcome_bind_Done in Ht as (im & Hp & _). rewrite Hp. f_equal.
  destruct (tr_phase t) as [|abort [|im'|p] s d|im'|p|o|a|a cl|a cl co]; cbn in Hi; try discriminate; injection Hi as <-;
    cbn [validate_phase] in Hp; unfold validate_abort in Hp; outcome_inv; subst; done.
Qed.
Lemma phase_ownership_own t o : has c t -> phase_ownership (tr_phase t) = Some o ->
  ip_movement (ow_image o) = tr_movement t.
Proof using W.
  intros Ht Ho. apply (phase_image_own t (ow_image o) Ht).
  destruct (tr_phase t) as [|? [] ? ?| | | | | |]; cbn in *; simplify_eq; done.
Qed.
Lemma phase_activation_own t a : has c t -> phase_activation (tr_phase t) = Some a ->
  ip_movement (ac_image a) = tr_movement t /\ phase_ownership (tr_phase t) = Some (ac_ownership a).
Proof using W.
  intros Ht Ha. assert (Ho : phase_ownership (tr_phase t) = Some (ac_ownership a)).
  { destruct (tr_phase t); cbn in *; simplify_eq; done. }
  split; [|done]. by apply (phase_ownership_own t (ac_ownership a)).
Qed.
Lemma phase_abort_own t a : has c t -> phase_abort (tr_phase t) = Some a ->
  ab_movement a = tr_movement t /\ abort_valid a = true /\ o_index (ab_controller a) <= co_applied c.
Proof using W.
  intros Ht Ha. apply has_proofs in Ht. unfold validate_transfer_proofs in Ht.
  apply Outcome_bind_Done in Ht as (im & Hp & _).
  destruct (tr_phase t); cbn in Ha; try discriminate. injection Ha as <-.
  cbn [validate_phase] in Hp. unfold validate_abort in Hp. outcome_inv. by bool_inv.
Qed.
End wf.
End routes.

(** ** Retries *)

(** The guard of an accepted branch. *)
Ltac passed H E :=
  match type of H with (if ?b then _ else _) = _ => destruct b eqn:E; [|discriminate H] end.

Lemma record_receipt_retry receipt recovered r :
  record_receipt receipt recovered = Done r -> record_receipt r recovered = Done r.
Proof.
  unfold record_receipt. destruct receipt as [p|]; [|intros [= <-]; cbn; by rewrite Prelude.eqb_refl].
  destruct (p ==? recovered) eqn:E; intros [= <-]. by rewrite E.
Qed.

Lemma endpoint_aborted_retry t abort recovered phase :
  endpoint_aborted t abort recovered = Done phase ->
  endpoint_aborted (t <| tr_phase := phase |>) abort recovered = Done phase.
Proof.
  unfold endpoint_aborted. intros He. destruct (tr_phase t) eqn:E; try discriminate.
  apply Outcome_bind_Done in He as ([] & H1 & He). apply Outcome_bind_Done in He as ([] & H2 & He).
  cbn [upd tr_phase tr_movement].
  destruct (o_group recovered =? mv_source (tr_movement t)) eqn:Es.
  - apply Outcome_bind_Done in He as (r & Hr & He). injection He as <-.
    cbn [tr_phase tr_movement]. rewrite H1. cbn [mbind Outcome_bind].
    change (recovery_lower (t <| tr_phase := _ |>)) with (recovery_lower t). rewrite H2.
    cbn [mbind Outcome_bind]. by rewrite (record_receipt_retry _ _ _ Hr).
  - destruct (o_group recovered =? mv_destination (tr_movement t)) eqn:Ed; [|discriminate].
    apply Outcome_bind_Done in He as (r & Hr & He). injection He as <-.
    cbn [tr_phase tr_movement]. rewrite H1. cbn [mbind Outcome_bind].
    change (recovery_lower (t <| tr_phase := _ |>)) with (recovery_lower t). rewrite H2.
    cbn [mbind Outcome_bind]. by rewrite (record_receipt_retry _ _ _ Hr).
Qed.

Lemma transfer_step_retry routes origin origin' id t command phase routes' :
  transfer_step routes origin id t command = Done (phase, routes') ->
  (complete (t <| tr_phase := phase |>) = true ->
     exists route, routes' !! N.to_nat (ti_shard id) = Some route /\ ro_transfer route <> Some id) ->
  transfer_step routes' origin' id (t <| tr_phase := phase |>) command = Done (phase, routes').
Proof.
  destruct command; cbn [transfer_step]; intros Hs Hroute; try discriminate.
  - apply Outcome_bind_Done in Hs as ([] & Hg & Hs). cbn [upd tr_movement]. rewrite Hg. cbn [mbind Outcome_bind].
    destruct (tr_phase t) eqn:E; try discriminate; [injection Hs as <- <-; cbn; by rewrite Prelude.eqb_refl|].
    passed Hs Hq. injection Hs as <- <-. cbn. by rewrite Hq.
  - apply Outcome_bind_Done in Hs as ([] & Hg & Hs). cbn [upd tr_movement]. rewrite Hg. cbn [mbind Outcome_bind].
    destruct (tr_phase t) eqn:E; try discriminate;
      passed Hs Hq; injection Hs as <- <-; cbn;
      by rewrite ?Hq, ?Prelude.eqb_refl.
  - destruct (tr_phase t) eqn:E; try discriminate; [|injection Hs as <- <-; done].
    apply Outcome_bind_Done in Hs as (r & _ & Hs). apply Outcome_bind_Done in Hs as ([] & _ & Hs).
    by injection Hs as <- <-.
  - apply Outcome_bind_Done in Hs as (p & Hp & Hs). injection Hs as <- <-.
    unfold abort_phase in *. by destruct (tr_phase t) eqn:E; try discriminate; injection Hp as <-.
  - apply Outcome_bind_Done in Hs as (p & Hp & Hs).
    assert (p = phase) as -> by (repeat (case_match; outcome_inv); congruence).
    rewrite (endpoint_aborted_retry _ _ _ _ Hp). cbn [mbind Outcome_bind].
    change (t <| tr_phase := phase |> <| tr_phase := phase |>) with (t <| tr_phase := phase |>).
    destruct (complete (t <| tr_phase := phase |>)) eqn:Hc; [|done].
    destruct (Hroute eq_refl) as (route & Hr & Hne). rewrite Hr. cbn [or_panic mbind Outcome_bind].
    by rewrite (proj2 (eqb_false _ _) Hne).
  - apply Outcome_bind_Done in Hs as ([] & Hg & Hs). cbn [upd tr_movement]. rewrite Hg. cbn [mbind Outcome_bind].
    destruct (tr_phase t) eqn:E; try discriminate;
      passed Hs Hq; injection Hs as <- <-; cbn;
      by rewrite ?Hq, ?Prelude.eqb_refl.
  - apply Outcome_bind_Done in Hs as ([] & Hg & Hs). cbn [upd tr_movement]. rewrite Hg. cbn [mbind Outcome_bind].
    destruct (tr_phase t) eqn:E; try discriminate.
    + passed Hs Hq. injection Hs as <- <-. cbn. by rewrite Prelude.eqb_refl.
    + passed Hs Hq. injection Hs as <- <-. cbn. by rewrite Hq.
  - destruct (tr_phase t) eqn:E; try discriminate; [|injection Hs as <- <-; done].
    apply Outcome_bind_Done in Hs as (r & _ & Hs). by injection Hs as <- <-.
Qed.

Section retry.
Context `{Fmt : TypeFormats} `{SerC : Serialize Controller}.

(** The transfer with a given identity is unique. *)
Lemma find_transfer_unique c i request t :
  wf c i -> co_transfers c !! request = Some t ->
  List.find (fun '(_, u) => tr_id u ==? tr_id t) (smap_iter (co_transfers c)) = Some (request, t).
Proof.
  intros W Ht. destruct (List.find _ _) as [[q u]|] eqn:E.
  - apply find_transfer in E as [Hu Hid].
    assert (q = request) as ->; [|by rewrite Ht in Hu; injection Hu as ->].
    eapply (NoDup_distinct_keys tr_index); [apply W|done|done|]. unfold tr_index. by rewrite Hid.
  - exfalso. rewrite find_None_iff in E. specialize (E (request, t)). cbn in E.
    rewrite Prelude.eqb_refl in E. discriminate E. by apply elem_of_btree_iter.
Qed.

Lemma transfer_command_retry c i index n command reply c' :
  transfer_command (c <| co_applied := index |>) (mkOrigin CONTROLLER index) command = Done (reply, c') ->
  wf c' i ->
  transfer_command (c' <| co_applied := n |>) (mkOrigin CONTROLLER n) command
  = Done (reply, c' <| co_applied := n |>).
Proof.
  intros Hc W'. unfold transfer_command in *.
  apply Outcome_bind_Done in Hc as (id & Hid & Hc). rewrite Hid. cbn [mbind Outcome_bind].
  apply Outcome_bind_Done in Hc as ([request t] & Hf%ok_or_Done & Hc).
  apply find_transfer in Hf as [Ht <-].
  apply Outcome_bind_Done in Hc as ([phase routes] & Hs & Hc). injection Hc as <- <-.
  set (t' := t <| tr_phase := phase |>) in *.
  set (c' := c <| co_applied := index |> <| co_routes := routes |> <| co_transfers := _ |>) in *.
  assert (Ht' : co_transfers c' !! request = Some t') by apply lookup_insert_eq.
  pose proof (find_transfer_unique c' i request t' W' Ht') as Hf.
  change (co_transfers (c' <| co_applied := n |>)) with (co_transfers c').
  change (tr_id t) with (tr_id t'). rewrite Hf. cbn [ok_or mbind Outcome_bind].
  change (co_routes (c' <| co_applied := n |>)) with routes.
  assert (Hr : transfer_step routes (mkOrigin CONTROLLER n) (tr_id t) t' command = Done (phase, routes)).
  { eapply transfer_step_retry; [exact Hs|]. fold t'. intros Hcomp.
    destruct (wf_transfers _ _ W' _ _ Ht') as (_ & _ & _ & _ & _ & _ & (r & Hr & _) & _).
    exists r. split; [exact Hr|]. intros Hptr.
    destruct (wf_pointers _ _ W' r (tr_id t')) as (q & u & Hu & Hcu & Hq);
      [by eapply list_elem_of_lookup_2|done|].
    assert (q = request) as ->.
    { eapply (NoDup_distinct_keys tr_index); [apply W'|done|done|]. unfold tr_index. by rewrite Hq. }
    rewrite Ht' in Hu. injection Hu as <-. congruence. }
  apply Outcome_bind_Done. exists (phase, routes). split; [exact Hr|].
  replace (t' <| tr_phase := phase |>) with t' by done. by rewrite insert_id.
Qed.

Lemma initial_routes_owners shard owners : map ro_owner (initial_routes shard owners) = owners.
Proof. revert shard. induction owners as [|o owners IH]; intros; cbn; by rewrite ?IH. Qed.

Lemma initialize_retry c origin origin' n groups owners reply c' :
  match co_initialized_at c with None => blank c | Some _ => True end ->
  initialize c origin groups owners = Done (reply, c') ->
  initialize (c' <| co_applied := n |>) origin' groups owners = Done (reply, c' <| co_applied := n |>).
Proof.
  unfold initialize. destruct (co_initialized_at c) as [i|] eqn:Hi; intros Hb He.
  - passed He Hg. injection He as <- <-.
    change (co_initialized_at (c <| co_applied := n |>)) with (co_initialized_at c).
    rewrite Hi. cbn [upd co_groups co_routes co_transfers co_maintenance]. by rewrite Hg.
  - destruct (_ || _); [discriminate|]. injection He as <- <-.
    destruct Hb as (_ & _ & Ht & Hm). cbn. rewrite Ht, Hm, initial_routes_owners, !Prelude.eqb_refl.
    done.
Qed.

Lemma begin_retry c index n request shard epoch destination reply c' :
  begin c index request shard epoch destination = Done (reply, c') ->
  begin (c' <| co_applied := n |>) n request shard epoch destination
  = Done (reply, c' <| co_applied := n |>).
Proof.
  unfold begin. intros Hb. destruct ((str_len request =? 0) || _); [discriminate|].
  destruct (co_transfers c !! request) as [existing|] eqn:Hfresh.
  - destruct ((ti_shard (tr_id existing) =? shard) && _ && _) eqn:E; [|discriminate].
    injection Hb as <- <-. change (co_transfers (c <| co_applied := n |>)) with (co_transfers c).
    by rewrite Hfresh, E.
  - apply Outcome_bind_Done in Hb as ([] & _ & Hb). apply Outcome_bind_Done in Hb as ([] & _ & Hb).
    apply Outcome_bind_Done in Hb as (route & _ & Hb). apply Outcome_bind_Done in Hb as ([] & _ & Hb).
    apply Outcome_bind_Done in Hb as ([] & _ & Hb). apply Outcome_bind_Done in Hb as ([] & _ & Hb).
    apply Outcome_bind_Done in Hb as (next & _ & Hb). injection Hb as <- <-.
    cbn [upd co_transfers]. rewrite lookup_insert_eq. cbn. by rewrite !N.eqb_refl.
Qed.

Lemma acquire_retry c origin origin' n request target operation generation reply c' :
  acquire_maintenance c origin request target operation generation = Done (reply, c') ->
  acquire_maintenance (c' <| co_applied := n |>) origin' request target operation generation
  = Done (reply, c' <| co_applied := n |>).
Proof.
  unfold acquire_maintenance. intros Ha.
  apply Outcome_bind_Done in Ha as ([] & H1 & Ha). apply Outcome_bind_Done in Ha as ([] & H2 & Ha).
  rewrite H1. cbn [mbind Outcome_bind].
  assert (Hg : co_groups c' = co_groups c).
  { destruct (co_maintenance c !! request); outcome_inv;
      repeat (case_match; outcome_inv; try discriminate); by subst. }
  change (co_groups (c' <| co_applied := n |>)) with (co_groups c'). rewrite Hg, H2. cbn [mbind Outcome_bind].
  destruct (co_maintenance c !! request) as [existing|] eqn:Hfresh.
  - destruct ((mt_target existing =? target) && _) eqn:E; [|discriminate]. injection Ha as <- <-.
    change (co_maintenance (c <| co_applied := n |>)) with (co_maintenance c). by rewrite Hfresh, E.
  - outcome_inv. subst. cbn [upd co_maintenance]. rewrite lookup_insert_eq. cbn.
    by rewrite N.eqb_refl, Prelude.eqb_refl.
Qed.

Lemma complete_retry c origin origin' n request t core record observed reply c' :
  complete_maintenance c origin request t core record observed = Done (reply, c') ->
  complete_maintenance (c' <| co_applied := n |>) origin' request t core record observed
  = Done (reply, c' <| co_applied := n |>).
Proof.
  unfold complete_maintenance. intros Ha.
  apply Outcome_bind_Done in Ha as (ticket & Ht%ok_or_Done & Ha).
  apply Outcome_bind_Done in Ha as ([] & H1 & Ha). apply Outcome_bind_Done in Ha as ([] & H2 & Ha).
  destruct (mt_completion ticket) as [completion|] eqn:Hc.
  - destruct (mc_record completion ==? record) eqn:E; [|discriminate]. injection Ha as <- <-.
    change (co_maintenance (c <| co_applied := n |>)) with (co_maintenance c). rewrite Ht.
    cbn [ok_or mbind Outcome_bind]. rewrite H1, H2. cbn [mbind Outcome_bind]. by rewrite Hc, E.
  - apply Outcome_bind_Done in Ha as ([] & _ & Ha). apply Outcome_bind_Done in Ha as ([] & _ & Ha).
    injection Ha as <- <-. cbn [upd co_maintenance]. rewrite lookup_insert_eq.
    cbn [ok_or mbind Outcome_bind]. apply Outcome_bind_Done. exists tt. split; [exact H1|].
    apply Outcome_bind_Done. exists tt. split; [exact H2|]. cbn. by rewrite Prelude.eqb_refl.
Qed.
End retry.

(** * The shard controller: theorems

    The properties of the replicated controller as statements about every
    reachable state and every command. *)
Section theorems.
Context `{Fmt : TypeFormats} `{SerC : Serialize Controller}.

(** (C13) Every state of the controller that commands and watermarks can reach
    passes its own validation, so that a snapshot of it is written and read
    back, and no command panics in it: the [expect]s, the [unreachable!]s and
    the indexing of routes are never hit. *)
Theorem controller_reachable_valid `{!ControllerLaws} c index command :
  reachable c -> validate c = Done tt /\ apply c index command <> Panicked.
Proof.
  intros Hr. apply reachable_good in Hr. split; [by apply good_validate|by apply apply_no_panic].
Qed.

(** What a transfer has recorded is final: in every later state it has the
    same movement and still carries the same image, installation, ownership,
    activation, cleanup, abort decision and recovery receipts; in particular a
    transfer that was aborted never changes the owner, and one that changed the
    owner is never aborted; and meanwhile the epoch of every shard does not go
    back, and an unchanged epoch means an unchanged owner. *)
Theorem controller_decisions_final `{!ControllerLaws} c c' request t :
  reachable c -> rtc ctrl_step c c' -> co_transfers c !! request = Some t ->
  (exists t', co_transfers c' !! request = Some t' /\ tr_movement t' = tr_movement t
     /\ extends (tr_phase t) (tr_phase t')
     /\ (is_some (phase_abort (tr_phase t)) = true -> phase_ownership (tr_phase t') = None)
     /\ (is_some (phase_ownership (tr_phase t)) = true -> phase_abort (tr_phase t') = None))
  /\ Forall2 route_later (co_routes c) (co_routes c').
Proof.
  intros Hr Hs Ht. apply reachable_good in Hr.
  destruct (ctrl_steps_later c c' Hr Hs) as [Hl _].
  assert (Hi : co_initialized_at c <> None).
  { destruct Hr as [_ Hr]. destruct (co_initialized_at c); [done|].
    destruct Hr as (_ & _ & E & _). by rewrite E, lookup_empty in Ht. }
  split; [|by apply (lt_routes _ _ Hl)].
  destruct (lt_transfers _ _ Hl _ _ Ht) as (t' & Ht' & _ & Hm & He).
  exists t'. split_and!; [done|done|done| |].
  - destruct (phase_abort (tr_phase t)) as [a|] eqn:E; [|done]. intros _.
    pose proof (ex_abort _ _ He a E) as Ha. by destruct (tr_phase t').
  - destruct (phase_ownership (tr_phase t)) as [o|] eqn:E; [|done]. intros _.
    pose proof (ex_ownership _ _ He o E) as Ho. by destruct (tr_phase t').
Qed.

(** (C14) Exact retries are idempotent: a command a reachable controller has
    accepted is accepted again at any later index of the resulting state, gives
    the same reply, and changes nothing but the watermark. *)
Theorem controller_retry_idempotent `{!ControllerLaws} c index command reply c' n :
  reachable c -> apply c index command = Done (Done reply, c') ->
  execute (c' <| co_applied := n |>) n command = Done (reply, c' <| co_applied := n |>).
Proof.
  intros Hr Ha. apply reachable_good in Hr.
  apply apply_cases in Ha as [[-> _]%checked_add_Some [He _]].
  destruct (execute_wf c (co_applied c + 1) _ _ _ Hr ltac:(lia) He) as (i & Hi & W & P).
  pose proof He as He0. unfold execute in He |- *.
  change (co_initialized_at (c' <| co_applied := n |>)) with (co_initialized_at c'). rewrite Hi.
  change (co_initialized_at (c <| co_applied := co_applied c + 1 |>)) with (co_initialized_at c) in He.
  destruct Hr as [_ Hg]. cbn [is_none is_some negb].
  destruct command;
    try (destruct (co_initialized_at c); [|discriminate He]; cbn [is_none is_some negb] in He;
         by eapply transfer_command_retry).
  - destruct (co_initialized_at c); [|discriminate He]. cbn [is_none is_some negb] in He. by eapply acquire_retry.
  - destruct (co_initialized_at c); [|discriminate He]. cbn [is_none is_some negb] in He. by eapply complete_retry.
  - eapply initialize_retry; [|exact He].
    change (co_initialized_at (c <| co_applied := co_applied c + 1 |>)) with (co_initialized_at c).
    by destruct (co_initialized_at c).
  - destruct (co_initialized_at c); [|discriminate He]. cbn [is_none is_some negb] in He. by eapply begin_retry.
Qed.
End theorems.
