(* ===== verification/ShardData.v ===== *)
(** * [shard-service/src/data.rs]: the data machine of a shard group

    The replicated state machine of a data group: the cells and client sessions
    of every shard it holds, and the slot of each shard in the hand-over
    protocol (active, fenced, installing, installed, retired).  Commands are
    executed by [data_execute], and [data_apply] keeps the result only when
    [data_validate] accepts it. *)
From S2P Require Import Prelude Types Membership ShardTypes Controller.
Local Open Scope N_scope.
Local Open Scope raft_scope.

(** ** Data *)

Record Cached := mkCached {
  ca_sequence : N;
  ca_digest : Bytes;
  ca_payload : Bytes;
  ca_receipt : Receipt;
}.
#[export] Instance Cached_eq_dec : EqDecision Cached.
Proof. solve_decision. Defined.

Record Session := mkSession {
  se_id : SessionId;
  se_nonce : string;
  se_registered : Receipt;
  se_closed : option Receipt;
  se_keys : gmap string Cached;
}.
#[export] Instance Session_eq_dec : EqDecision Session.
Proof. solve_decision. Defined.
#[export] Instance Session_eta : Eta Session := fun s =>
  mkSession (se_id s) (se_nonce s) (se_registered s) (se_closed s) (se_keys s).

Record ShardData := mkShardData {
  sd_cells : gmap string (option string);
  sd_sessions : gmap string Session;
  sd_nonces : gmap string SessionId;
}.
#[export] Instance ShardData_eq_dec : EqDecision ShardData.
Proof. solve_decision. Defined.
#[export] Instance ShardData_eta : Eta ShardData := fun d =>
  mkShardData (sd_cells d) (sd_sessions d) (sd_nonces d).
(** [ShardData::default] *)
Definition shard_data_default : ShardData := mkShardData ∅ ∅ ∅.

(** [Iterator::sum] *)
Definition sum_of {A} (f : A -> N) (l : list A) : N := foldr (fun x acc => f x + acc) 0 l.

(** [ShardData::retention] *)
Definition retention (d : ShardData) : Retention :=
  mkRetention (N.of_nat (size (sd_sessions d)))
    (sum_of (fun s => N.of_nat (size (se_keys s))) (smap_values (sd_sessions d)))
    (sum_of (fun s => sum_of (fun c => len64 (ca_payload c)) (smap_values (se_keys s)))
       (smap_values (sd_sessions d))).

Record ShardImage := mkShardImage {
  si_version : N;
  si_proof_identity : Move;
  si_fence : Origin;
  si_shard_count : N;
  si_data : ShardData;
}.
#[export] Instance ShardImage_eq_dec : EqDecision ShardImage.
Proof. solve_decision. Defined.

Record RetiredState := mkRetiredState { rs_activation : ActivationProof; rs_cleaned : Origin }.
#[export] Instance RetiredState_eq_dec : EqDecision RetiredState.
Proof. solve_decision. Defined.

Inductive Slot : Type :=
| SActive (epoch : N) (activation : option ActivationProof)
| SFenced (image : ImageProof) (previous_activation : option ActivationProof)
| SInstalling (image : ImageProof) (bytes : Bytes) (previous_retired : option RetiredState)
| SInstalled (installation : InstalledProof) (previous_retired : option RetiredState)
| SRetired (activation : ActivationProof) (cleaned : Origin).
#[export] Instance Slot_eq_dec : EqDecision Slot.
Proof. solve_decision. Defined.

Record Shard := mkShard { sh_slot : Slot; sh_data : option ShardData }.
#[export] Instance Shard_eq_dec : EqDecision Shard.
Proof. solve_decision. Defined.
#[export] Instance Shard_eta : Eta Shard := fun s => mkShard (sh_slot s) (sh_data s).

Inductive DataCommand : Type :=
| DInitialize (shard_count : N) (groups : list GroupId) (owned : list ShardId)
| DRegister (shard : ShardId) (epoch : N) (nonce : string)
| DClose (shard : ShardId) (epoch : N) (session : SessionId)
| DMutate (shard : ShardId) (epoch : N) (session : SessionId) (key : string) (sequence : N)
    (value : option string)
| DFence (movement : Move)
| DBeginInstall (image : ImageProof)
| DResetInstall (image : ImageProof)
| DChunk (id : TransferId) (offset : N) (bytes : Bytes)
| DFinishInstall (id : TransferId)
| DActivate (ownership : OwnershipProof)
| DCleanup (activation : ActivationProof)
| DAbortTransfer (abort : AbortProof).

Inductive DataReply : Type :=
| DRInitialized (origin : Origin)
| DRReceipt (receipt : Receipt)
| DRFenced (image : ImageProof)
| DRProgress (id : TransferId) (next_offset : N)
| DRInstalled (installation : InstalledProof)
| DRActivated (activation : ActivationProof)
| DRCleaned (id : TransferId) (origin : Origin)
| DRAborted (record : AbortRecord).
#[export] Instance DataReply_eq_dec : EqDecision DataReply.
Proof. solve_decision. Defined.

Record DataMachine := mkDataMachine {
  dm_group : GroupId;
  dm_applied : N;
  dm_initialized_at : option Origin;
  dm_shard_count : N;
  dm_groups : list GroupId;
  dm_shards : gmap ShardId Shard;
  dm_aborted : gmap string AbortRecord;
}.
#[export] Instance DataMachine_eq_dec : EqDecision DataMachine.
Proof. solve_decision. Defined.
#[export] Instance DataMachine_eta : Eta DataMachine := fun d =>
  mkDataMachine (dm_group d) (dm_applied d) (dm_initialized_at d) (dm_shard_count d) (dm_groups d)
    (dm_shards d) (dm_aborted d).

(** [DataMachine::new] *)
Definition data_new (group : GroupId) : Outcome Error DataMachine :=
  if group =? CONTROLLER then Refused EWrongGroup
  else Done (mkDataMachine group 0 None 0 [] ∅ ∅).

(** The JSON of the replicated state, of images, values and abort records. *)
Class DataFormats : Type := {
  #[global] image_serialize :: Serialize ShardImage;
  #[global] value_serialize :: Serialize (option string);
  #[global] record_serialize :: Serialize AbortRecord;
  #[global] machine_serialize :: Serialize DataMachine;
  #[global] image_deserialize :: Deserialize ShardImage;
  #[global] value_deserialize :: Deserialize (option string);
}.

(** [DataMachine::active] *)
Definition active (d : DataMachine) (shard : ShardId) (epoch : N) : Outcome Error ShardData :=
  state ← ok_or (dm_shards d !! shard) EStaleRoute;
  match sh_slot state with
  | SActive current _ =>
      if current =? epoch then ok_or (sh_data state) EUnavailable else Refused EStaleRoute
  | SRetired _ _ => Refused EStaleRoute
  | _ => Refused EUnavailable
  end.

(** Storing through the reference [active_mut] returns. *)
Definition put_data (d : DataMachine) (shard : ShardId) (data : ShardData) : DataMachine :=
  d <| dm_shards := alter (fun s => s <| sh_data := Some data |>) shard (dm_shards d) |>.
Definition put_shard (d : DataMachine) (shard : ShardId) (s : Shard) : DataMachine :=
  d <| dm_shards := <[shard := s]> (dm_shards d) |>.
Definition put_slot (d : DataMachine) (shard : ShardId) (slot : Slot) : DataMachine :=
  d <| dm_shards := alter (fun s => s <| sh_slot := slot |>) shard (dm_shards d) |>.

(** [DataMachine::movement_valid] *)
Definition movement_valid (d : DataMachine) (movement : Move) : bool :=
  move_valid movement
  && (ti_shard (mv_id movement) <? dm_shard_count d)
  && contains (mv_source movement) (dm_groups d)
  && contains (mv_destination movement) (dm_groups d).

(** ** Initialization and client operations *)

Definition data_initialize (d : DataMachine) (origin : Origin) (shard_count : N)
  (groups : list GroupId) (owned : list ShardId) : Outcome Error (DataReply * DataMachine) :=
  if is_some (dm_initialized_at d) then Refused EAlreadyInitialized else
  if (shard_count =? 0) || (MAX_SHARDS <? shard_count)
     || bool_decide (groups = []) || (MAX_GROUPS <? len64 groups)
     || contains CONTROLLER groups || negb (contains (dm_group d) groups)
     || negb (strictly_increasing groups) || negb (strictly_increasing owned)
     || existsb (fun s => shard_count <=? s) owned
  then Refused EInvalidInput
  else
    Done (DRInitialized origin,
      d <| dm_shard_count := shard_count |> <| dm_groups := groups |>
        <| dm_initialized_at := Some origin |>
        <| dm_shards := fold_left (fun shards shard =>
             <[shard := mkShard (SActive 1 None) (Some shard_data_default)]> shards)
           owned (dm_shards d) |>).

(** [Register]: a nonce that is known names its session. *)
Definition register (data : ShardData) (origin : Origin) (shard : ShardId) (epoch : N)
  (nonce : string) : Outcome Error (DataReply * ShardData) :=
  match sd_nonces data !! nonce with
  | Some session =>
      state ← or_panic (sd_sessions data !! origin_key session);
      Done (DRReceipt (se_registered state), data)
  | None =>
      let receipt := mkReceipt origin shard epoch (Some origin) None in
      Done (DRReceipt receipt,
        data <| sd_nonces := <[nonce := origin]> (sd_nonces data) |>
             <| sd_sessions := <[origin_key origin := mkSession origin nonce receipt None ∅]>
                                 (sd_sessions data) |>)
  end.

(** [Close] *)
Definition close (data : ShardData) (origin : Origin) (shard : ShardId) (epoch : N)
  (session : SessionId) : Outcome Error (DataReply * ShardData) :=
  state ← ok_or (sd_sessions data !! origin_key session) EUnknownSession;
  match se_closed state with
  | Some closed => Done (DRReceipt closed, data)
  | None =>
      let receipt := mkReceipt origin shard epoch (Some session) None in
      Done (DRReceipt receipt,
        data <| sd_sessions := <[origin_key session := state <| se_closed := Some receipt |>]>
                                 (sd_sessions data) |>)
  end.

Section data.
Context `{Fmt : TypeFormats} `{DFmt : DataFormats}.

(** [Mutate]: the next sequence number of the session's key, or an exact retry
    of the last one. *)
Definition mutate (data : ShardData) (origin : Origin) (shard : ShardId) (epoch : N)
  (session : SessionId) (key : string) (sequence : N) (value : option string) (payload : Bytes)
  : Outcome Error (DataReply * ShardData) :=
  let digest := sha256 payload in
  state ← ok_or (sd_sessions data !! origin_key session) EUnknownSession;
  refuse_if (is_some (se_closed state)) ESessionClosed;;
  let store :=
    let receipt := mkReceipt origin shard epoch (Some session) (Some sequence) in
    let cached := mkCached sequence digest payload receipt in
    Done (DRReceipt receipt,
      data <| sd_sessions := <[origin_key session :=
                                 state <| se_keys := <[key := cached]> (se_keys state) |>]>
                               (sd_sessions data) |>
           <| sd_cells := <[key := value]> (sd_cells data) |>) in
  match se_keys state !! key with
  | Some previous =>
      if sequence =? ca_sequence previous then
        if (ca_digest previous ==? digest) && (ca_payload previous ==? payload)
        then Done (DRReceipt (ca_receipt previous), data)
        else Refused EPayloadMismatch
      else
        refuse_if (sequence <? ca_sequence previous) EStaleSequence;;
        refuse_if (negb (checked_add (ca_sequence previous) 1 ==? Some sequence)) ESequenceGap;;
        store
  | None =>
      refuse_if (negb (sequence =? 1)) ESequenceGap;;
      store
  end.

(** ** Hand-over *)

(** [Fence] *)
Definition fence (d : DataMachine) (origin : Origin) (movement : Move)
  : Outcome Error (DataReply * DataMachine) :=
  refuse_if (negb (movement_valid d movement) || negb (mv_source movement =? dm_group d))
    EWrongTransfer;;
  shard ← ok_or (dm_shards d !! ti_shard (mv_id movement)) EStaleRoute;
  match sh_slot shard with
  | SFenced image _ =>
      if ip_movement image ==? movement then Done (DRFenced image, d) else Refused EWrongTransfer
  | slot =>
      let previous_activation :=
        match slot with SActive _ activation => activation | _ => None end in
      data ← active d (ti_shard (mv_id movement)) (mv_previous_epoch movement);
      let body := mkShardImage 1 movement origin (dm_shard_count d) data in
      bytes ← canonical_bytes body MAX_TRANSFER_BYTES;
      let image := mkImageProof movement origin (len64 bytes) (sha256 bytes) (retention data) in
      Done (DRFenced image,
            put_slot d (ti_shard (mv_id movement)) (SFenced image previous_activation))
  end.

(** [BeginInstall] *)
Definition begin_install (d : DataMachine) (image : ImageProof)
  : Outcome Error (DataReply * DataMachine) :=
  let id := mv_id (ip_movement image) in
  refuse_if (negb (image_valid image) || negb (movement_valid d (ip_movement image))
             || negb (mv_destination (ip_movement image) =? dm_group d)) EWrongTransfer;;
  let install :=
    refuse_if (existsb (fun '(_, s) => match sh_slot s with
                                       | SInstalling _ _ _ | SInstalled _ _ => true
                                       | _ => false
                                       end) (nmap_iter (dm_shards d))) EBusy;;
    let previous_retired :=
      match sh_slot <$> dm_shards d !! ti_shard id with
      | Some (SRetired activation cleaned) => Some (mkRetiredState activation cleaned)
      | _ => None
      end in
    Done (DRProgress id 0,
          put_shard d (ti_shard id) (mkShard (SInstalling image [] previous_retired) None)) in
  match sh_slot <$> dm_shards d !! ti_shard id with
  | Some (SInstalling old bytes _) =>
      if old ==? image then Done (DRProgress id (len64 bytes), d) else Refused EWrongPhase
  | Some (SInstalled installation _) =>
      if in_image installation ==? image then Done (DRInstalled installation, d)
      else Refused EWrongPhase
  | Some (SRetired activation _) =>
      if ti_epoch (ac_id activation) <? ti_epoch id then install else Refused EWrongPhase
  | Some _ => Refused EWrongPhase
  | None => install
  end.

(** [Chunk] *)
Definition chunk (d : DataMachine) (id : TransferId) (offset : N) (bytes : Bytes)
  : Outcome Error (DataReply * DataMachine) :=
  refuse_if (bool_decide (bytes = []) || (CHUNK_BYTES <? len64 bytes)) EInvalidInput;;
  shard ← ok_or (dm_shards d !! ti_shard id) EWrongTransfer;
  match sh_slot shard with
  | SInstalling image stored previous_retired =>
      refuse_if (negb (mv_id (ip_movement image) ==? id)) EWrongTransfer;;
      stop ← ok_or (checked_add offset (len64 bytes)) EChunkOffset;
      refuse_if (ip_bytes image <? stop) EChunkOffset;;
      if offset <? len64 stored then
        refuse_if ((len64 stored <? stop)
                   || negb (take (length bytes) (drop (N.to_nat offset) stored) ==? bytes))
          EPayloadMismatch;;
        Done (DRProgress id (len64 stored), d)
      else if offset =? len64 stored then
        Done (DRProgress id (len64 (stored ++ bytes)),
              put_slot d (ti_shard id) (SInstalling image (stored ++ bytes) previous_retired))
      else Refused EChunkOffset
  | _ => Refused EWrongPhase
  end.

(** [ResetInstall] *)
Definition reset_install (d : DataMachine) (image : ImageProof)
  : Outcome Error (DataReply * DataMachine) :=
  let id := mv_id (ip_movement image) in
  shard ← ok_or (dm_shards d !! ti_shard id) EWrongTransfer;
  match sh_slot shard with
  | SInstalling old _ previous_retired =>
      refuse_if (negb (old ==? image)) EWrongTransfer;;
      Done (DRProgress id 0, put_slot d (ti_shard id) (SInstalling old [] previous_retired))
  | _ => Refused EWrongPhase
  end.

(** [FinishInstall] *)
Definition finish_install (d : DataMachine) (origin : Origin) (id : TransferId)
  : Outcome Error (DataReply * DataMachine) :=
  shard ← ok_or (dm_shards d !! ti_shard id) EWrongTransfer;
  match sh_slot shard with
  | SInstalled installation _ =>
      if mv_id (ip_movement (in_image installation)) ==? id then Done (DRInstalled installation, d)
      else Refused EWrongTransfer
  | SInstalling image bytes previous_retired =>
      refuse_if (negb (mv_id (ip_movement image) ==? id) || negb (len64 bytes =? ip_bytes image)
                 || negb (sha256 bytes ==? ip_sha256 image)) EPayloadMismatch;;
      body ← ok_or (from_slice bytes : option ShardImage) EPayloadMismatch;
      refuse_if (negb (si_version body =? 1)
        || negb (si_proof_identity body ==? ip_movement image)
        || negb (si_fence body ==? ip_fence image)
        || negb (si_shard_count body =? dm_shard_count d)
        || negb (retention (si_data body) ==? ip_retention image)) EPayloadMismatch;;
      canonical ← canonical_bytes body MAX_TRANSFER_BYTES;
      refuse_if (negb (canonical ==? bytes)) EPayloadMismatch;;
      let installation := mkInstalledProof image origin in
      Done (DRInstalled installation,
            put_shard d (ti_shard id)
              (mkShard (SInstalled installation previous_retired) (Some (si_data body))))
  | _ => Refused EWrongPhase
  end.

(** [Activate] *)
Definition activate (d : DataMachine) (origin : Origin) (ownership : OwnershipProof)
  : Outcome Error (DataReply * DataMachine) :=
  let id := mv_id (ip_movement (ow_image ownership)) in
  refuse_if (negb (ownership_valid ownership)
             || negb (mv_destination (ip_movement (ow_image ownership)) =? dm_group d))
    EWrongTransfer;;
  shard ← ok_or (dm_shards d !! ti_shard id) EWrongTransfer;
  match sh_slot shard with
  | SActive _ (Some old) =>
      if ac_ownership old ==? ownership then Done (DRActivated old, d) else Refused EWrongTransfer
  | SInstalled installation _ =>
      refuse_if (negb (installation ==? ow_installation ownership)) EWrongTransfer;;
      let activation := mkActivationProof ownership origin in
      Done (DRActivated activation,
            put_slot d (ti_shard id) (SActive (ti_epoch id) (Some activation)))
  | _ => Refused EWrongPhase
  end.

(** [Cleanup] *)
Definition cleanup (d : DataMachine) (origin : Origin) (activation : ActivationProof)
  : Outcome Error (DataReply * DataMachine) :=
  let image := ac_image activation in
  let id := ac_id activation in
  refuse_if (negb (activation_valid activation)
             || negb (mv_source (ip_movement image) =? dm_group d)) EWrongTransfer;;
  shard ← ok_or (dm_shards d !! ti_shard id) EWrongTransfer;
  match sh_slot shard with
  | SRetired old cleaned =>
      if old ==? activation then Done (DRCleaned id cleaned, d) else Refused EWrongTransfer
  | SFenced old _ =>
      if old ==? image then
        Done (DRCleaned id origin, put_shard d (ti_shard id) (mkShard (SRetired activation origin) None))
      else Refused EWrongPhase
  | _ => Refused EWrongPhase
  end.

(** The room an abort record must fit: its reserve less the key and the JSON
    punctuation. *)
Definition record_room {E} (key : string) : Outcome E N :=
  room ← or_panic (checked_sub ABORT_RECORD_RESERVE (str_len key));
  or_panic (checked_sub room 8).

(** The slot of the shard once the transfer is aborted at this endpoint. *)
Definition abort_source (d : DataMachine) (abort : AbortProof) : Outcome Error DataMachine :=
  let movement := ab_movement abort in
  let shard_id := ti_shard (mv_id movement) in
  shard ← ok_or (dm_shards d !! shard_id) EWrongPhase;
  next ←
    match sh_slot shard with
    | SActive epoch _ =>
        if epoch =? mv_previous_epoch movement then Done d else Refused EWrongPhase
    | SFenced image previous_activation =>
        if ip_movement image ==? movement
        then Done (put_slot d shard_id (SActive (mv_previous_epoch movement) previous_activation))
        else Refused EWrongPhase
    | _ => Refused EWrongPhase
    end;
  refuse_if (is_none (sh_data shard)) EWrongPhase;;
  Done next.

Definition abort_destination (d : DataMachine) (abort : AbortProof) : Outcome Error DataMachine :=
  let movement := ab_movement abort in
  let shard_id := ti_shard (mv_id movement) in
  let undo previous :=
    match previous with
    | Some old => put_shard d shard_id (mkShard (SRetired (rs_activation old) (rs_cleaned old)) None)
    | None => d <| dm_shards := delete shard_id (dm_shards d) |>
    end in
  match sh_slot <$> dm_shards d !! shard_id with
  | None => Done d
  | Some (SInstalling image _ previous_retired) =>
      if ip_movement image ==? movement then Done (undo previous_retired) else Refused EWrongPhase
  | Some (SInstalled installation previous_retired) =>
      if ip_movement (in_image installation) ==? movement then Done (undo previous_retired)
      else Refused EWrongPhase
  | Some (SRetired activation _) =>
      if ti_epoch (ac_id activation) <? ti_epoch (mv_id movement) then Done d
      else Refused EWrongPhase
  | _ => Refused EWrongPhase
  end.

(** [DataMachine::abort_transfer] *)
Definition abort_transfer (d : DataMachine) (origin : Origin) (abort : AbortProof)
  : Outcome Error (DataReply * DataMachine) :=
  let movement := ab_movement abort in
  refuse_if (negb (abort_valid abort) || negb (movement_valid d movement)
             || negb (contains (dm_group d) [mv_source movement; mv_destination movement]))
    EWrongTransfer;;
  let key := transfer_key (mv_id movement) in
  match dm_aborted d !! key with
  | Some record =>
      if abr_abort record ==? abort then Done (DRAborted record, d) else Refused EPayloadMismatch
  | None =>
      refuse_if (MAX_TRANSFERS <=? N.of_nat (size (dm_aborted d))) ECapacity;;
      next ← (if dm_group d =? mv_source movement then abort_source d abort
              else abort_destination d abort);
      let record := mkAbortRecord abort origin in
      room ← record_room key;
      canonical_bytes record room;;
      Done (DRAborted record, next <| dm_aborted := <[key := record]> (dm_aborted next) |>)
  end.

(** ** [DataMachine::execute] *)

(** The transfer whose abort refuses the command. *)
Definition data_command_id (command : DataCommand) : option TransferId :=
  match command with
  | DFence movement => Some (mv_id movement)
  | DBeginInstall image | DResetInstall image => Some (mv_id (ip_movement image))
  | DChunk id _ _ | DFinishInstall id => Some id
  | DActivate ownership => Some (mv_id (ip_movement (ow_image ownership)))
  | DCleanup activation => Some (ac_id activation)
  | _ => None
  end.

Definition on_active (d : DataMachine) (shard : ShardId) (epoch : N)
  (f : ShardData -> Outcome Error (DataReply * ShardData)) : Outcome Error (DataReply * DataMachine) :=
  data ← active d shard epoch;
  '(reply, data) ← f data;
  Done (reply, put_data d shard data).

Definition data_execute (d : DataMachine) (index : N) (command : DataCommand)
  : Outcome Error (DataReply * DataMachine) :=
  let origin := mkOrigin (dm_group d) index in
  match command with
  | DInitialize shard_count groups owned => data_initialize d origin shard_count groups owned
  | _ =>
      if is_none (dm_initialized_at d) then Refused ENotInitialized else
      if is_some_and (data_command_id command) (fun id =>
           is_some (dm_aborted d !! transfer_key id)) then Refused EAborted else
      match command with
      | DInitialize _ _ _ => Panicked
      | DAbortTransfer abort => abort_transfer d origin abort
      | DRegister shard epoch nonce =>
          refuse_if ((str_len nonce =? 0) || (128 <? str_len nonce)) EInvalidInput;;
          on_active d shard epoch (fun data => register data origin shard epoch nonce)
      | DClose shard epoch session =>
          on_active d shard epoch (fun data => close data origin shard epoch session)
      | DMutate shard epoch session key sequence value =>
          refuse_if (negb (key_shard key (dm_shard_count d) ==? Some shard) || (sequence =? 0)
                     || is_some_and value (fun v => MAX_VALUE_BYTES <? str_len v)) EInvalidInput;;
          payload ← canonical_bytes value (MAX_VALUE_BYTES * 6 + 32);
          on_active d shard epoch (fun data =>
            mutate data origin shard epoch session key sequence value payload)
      | DFence movement => fence d origin movement
      | DBeginInstall image => begin_install d image
      | DChunk id offset bytes => chunk d id offset bytes
      | DResetInstall image => reset_install d image
      | DFinishInstall id => finish_install d origin id
      | DActivate ownership => activate d origin ownership
      | DCleanup activation => cleanup d origin activation
      end
  end.

(** ** Reads *)

(** [DataMachine::read] *)
Definition data_read (d : DataMachine) (shard : ShardId) (epoch : N) (key : string)
  : Outcome Error (option string) :=
  refuse_if (negb (key_shard key (dm_shard_count d) ==? Some shard)) EInvalidInput;;
  data ← active d shard epoch;
  Done (mjoin (sd_cells data !! key)).

(** [DataMachine::export] *)
Definition export (d : DataMachine) (id : TransferId) (offset : N)
  : Outcome Error (ImageProof * Bytes) :=
  shard ← ok_or (dm_shards d !! ti_shard id) EWrongTransfer;
  match sh_slot shard with
  | SFenced image _ =>
      refuse_if (negb (mv_id (ip_movement image) ==? id)) EWrongTransfer;;
      data ← ok_or (sh_data shard) EUnavailable;
      let body := mkShardImage 1 (ip_movement image) (ip_fence image) (dm_shard_count d) data in
      bytes ← canonical_bytes body MAX_TRANSFER_BYTES;
      refuse_if (negb (len64 bytes =? ip_bytes image) || negb (sha256 bytes ==? ip_sha256 image))
        EPayloadMismatch;;
      refuse_if (len64 bytes <? offset) EChunkOffset;;
      Done (image, take (N.to_nat CHUNK_BYTES) (drop (N.to_nat offset) bytes))
  | _ => Refused EWrongPhase
  end.

(** ** [DataMachine::validate] *)

(** [DataMachine::retired_valid] *)
Definition retired_valid (d : DataMachine) (shard : ShardId) (previous : RetiredState)
  (before_epoch : N) : bool :=
  let image := ac_image (rs_activation previous) in
  activation_valid (rs_activation previous)
  && movement_valid d (ip_movement image)
  && (mv_source (ip_movement image) =? dm_group d)
  && (ti_shard (mv_id (ip_movement image)) =? shard)
  && (ti_epoch (mv_id (ip_movement image)) <? before_epoch)
  && (o_group (rs_cleaned previous) =? dm_group d)
  && (o_index (ip_fence image) <? o_index (rs_cleaned previous))
  && (o_index (rs_cleaned previous) <=? dm_applied d).

(** One retained abort tombstone. *)
Definition validate_record (d : DataMachine) (initialized : Origin) (key : string)
  (record : AbortRecord) : Outcome string unit :=
  let movement := ab_movement (abr_abort record) in
  let error := "invalid retained abort tombstone"%string in
  refuse_if (negb (key ==? transfer_key (mv_id movement))
    || negb (abort_valid (abr_abort record))
    || negb (movement_valid d movement)
    || negb (contains (dm_group d) [mv_source movement; mv_destination movement])
    || negb (o_group (abr_recovered record) =? dm_group d)
    || negb (origin_valid (abr_recovered record))
    || (dm_applied d <? o_index (abr_recovered record))
    || (o_index (abr_recovered record) <=? o_index initialized)) error;;
  room ← record_room key;
  refuse_if (negb (is_done (canonical_bytes record room))) error.

Fixpoint validate_records (d : DataMachine) (initialized : Origin)
  (records : list (string * AbortRecord)) : Outcome string unit :=
  match records with
  | [] => Done tt
  | (key, record) :: rest =>
      validate_record d initialized key record;;
      validate_records d initialized rest
  end.

(** The running totals of the walk over the shards. *)
Record Totals := mkTotals {
  to_sessions : N;
  to_retries : N;
  to_payload : N;
  to_installing : N;
  to_reserved : N;
}.
#[export] Instance Totals_eq_dec : EqDecision Totals.
Proof. solve_decision. Defined.

(** The transfer a slot carries. *)
Definition live_transfer (slot : Slot) : option TransferId :=
  match slot with
  | SFenced image _ | SInstalling image _ _ => Some (mv_id (ip_movement image))
  | SInstalled installation _ => Some (mv_id (ip_movement (in_image installation)))
  | SActive _ (Some activation) | SRetired activation _ => Some (ac_id activation)
  | SActive _ None => None
  end.

(** The proofs of a slot, one clause a state. *)
Definition active_invalid (d : DataMachine) (id : ShardId) (epoch : N)
  (activation : option ActivationProof) : bool :=
  (epoch =? 0)
  || is_some_and activation (fun a =>
       negb (activation_valid a)
       || negb (o_group (ac_activated a) =? dm_group d)
       || (dm_applied d <? o_index (ac_activated a))
       || negb (ti_shard (ac_id a) =? id)
       || negb (ti_epoch (ac_id a) =? epoch)).

Definition provenance_invalid (d : DataMachine) (id : ShardId) (image : ImageProof)
  (previous_activation : option ActivationProof) : bool :=
  ((1 <? mv_previous_epoch (ip_movement image)) && is_none previous_activation)
  || is_some_and previous_activation (fun a =>
       negb (activation_valid a)
       || negb (o_group (ac_activated a) =? dm_group d)
       || (o_index (ip_fence image) <=? o_index (ac_activated a))
       || negb (ti_shard (ac_id a) =? id)
       || negb (ti_epoch (ac_id a) =? mv_previous_epoch (ip_movement image))).

Definition fence_invalid (d : DataMachine) (id : ShardId) (image : ImageProof) : bool :=
  negb (image_valid image)
  || negb (movement_valid d (ip_movement image))
  || negb (o_group (ip_fence image) =? dm_group d)
  || (dm_applied d <? o_index (ip_fence image))
  || negb (ti_shard (mv_id (ip_movement image)) =? id).

Definition installing_invalid (d : DataMachine) (id : ShardId) (image : ImageProof) (bytes : Bytes)
  (data : option ShardData) : bool :=
  negb (image_valid image)
  || negb (movement_valid d (ip_movement image))
  || negb (mv_destination (ip_movement image) =? dm_group d)
  || negb (ti_shard (mv_id (ip_movement image)) =? id)
  || (ip_bytes image <? len64 bytes)
  || is_some data.

Definition installation_invalid (d : DataMachine) (id : ShardId) (p : InstalledProof) : bool :=
  negb (installed_valid p)
  || negb (movement_valid d (ip_movement (in_image p)))
  || negb (o_group (in_installed p) =? dm_group d)
  || (dm_applied d <? o_index (in_installed p))
  || negb (ti_shard (mv_id (ip_movement (in_image p))) =? id).

Definition retired_invalid (d : DataMachine) (id : ShardId) (activation : ActivationProof)
  (cleaned : Origin) (data : option ShardData) : bool :=
  let image := ac_image activation in
  negb (activation_valid activation)
  || negb (movement_valid d (ip_movement image))
  || negb (mv_source (ip_movement image) =? dm_group d)
  || negb (ti_shard (mv_id (ip_movement image)) =? id)
  || negb (o_group cleaned =? dm_group d)
  || (dm_applied d <? o_index cleaned)
  || (o_index cleaned <=? o_index (ip_fence image))
  || is_some data.

(** The slot: the epoch whose data must be there ([None]: the slot keeps no
    data), and what the slot adds to the totals. *)
Definition validate_slot (d : DataMachine) (id : ShardId) (shard : Shard) (t : Totals)
  : Outcome string (Totals * option N) :=
  match sh_slot shard with
  | SActive epoch activation =>
      refuse_if (active_invalid d id epoch activation) "invalid active ownership"%string;;
      refuse_if ((1 <? epoch) && is_none activation)
        "active destination has no activation proof"%string;;
      Done (t, Some epoch)
  | SFenced image previous_activation =>
      refuse_if (provenance_invalid d id image previous_activation)
        "invalid pre-fence active provenance"%string;;
      refuse_if (fence_invalid d id image) "invalid source fence"%string;;
      Done (mkTotals (to_sessions t) (to_retries t) (to_payload t) (to_installing t)
              (to_reserved t + 8192), Some (mv_previous_epoch (ip_movement image)))
  | SInstalling image bytes previous_retired =>
      refuse_if (is_some_and previous_retired (fun old =>
          negb (retired_valid d id old (ti_epoch (mv_id (ip_movement image))))))
        "invalid pre-install retired provenance"%string;;
      refuse_if (installing_invalid d id image bytes (sh_data shard))
        "invalid partial installation"%string;;
      Done (mkTotals (to_sessions t + re_sessions (ip_retention image))
              (to_retries t + re_retry_keys (ip_retention image))
              (to_payload t + re_payload_bytes (ip_retention image))
              (to_installing t + 1)
              (to_reserved t + ((ip_bytes image - len64 bytes) * 2 + 8192)), None)
  | SInstalled installation previous_retired =>
      refuse_if (is_some_and previous_retired (fun old =>
          negb (retired_valid d id old (ti_epoch (mv_id (ip_movement (in_image installation)))))))
        "invalid installed retired provenance"%string;;
      refuse_if (installation_invalid d id installation) "invalid installation"%string;;
      Done (mkTotals (to_sessions t) (to_retries t) (to_payload t) (to_installing t + 1)
              (to_reserved t + 8192), Some (mv_previous_epoch (ip_movement (in_image installation))))
  | SRetired activation cleaned =>
      refuse_if (retired_invalid d id activation cleaned (sh_data shard))
        "invalid retired source"%string;;
      Done (t, None)
  end.

(** The image proof the frozen data of a slot must match. *)
Definition frozen_image (slot : Slot) : option ImageProof :=
  match slot with
  | SFenced image _ => Some image
  | SInstalled installation _ => Some (in_image installation)
  | _ => None
  end.

Definition validate_frozen (d : DataMachine) (image : ImageProof) (data : ShardData)
  : Outcome string unit :=
  let body := mkShardImage 1 (ip_movement image) (ip_fence image) (dm_shard_count d) data in
  match canonical_bytes body MAX_TRANSFER_BYTES with
  | Done bytes =>
      refuse_if (negb (len64 bytes =? ip_bytes image) || negb (sha256 bytes ==? ip_sha256 image)
                 || negb (retention data ==? ip_retention image))
        "frozen data does not match committed image proof"%string
  | Refused _ => Refused "frozen image capacity"%string
  | Panicked => Panicked
  end.

(** [valid_receipt] *)
Definition valid_receipt (d : DataMachine) (id : ShardId) (epoch : N) (frozen : option ImageProof)
  (session : SessionId) (receipt : Receipt) : bool :=
  origin_valid (rc_origin receipt)
  && contains (o_group (rc_origin receipt)) (dm_groups d)
  && (rc_shard receipt =? id)
  && (0 <? rc_epoch receipt)
  && (rc_epoch receipt <=? epoch)
  && (rc_session receipt ==? Some session)
  && (negb (o_group (rc_origin receipt) =? dm_group d)
      || (o_index (rc_origin receipt) <=? dm_applied d))
  && map_or frozen true (fun image =>
       negb (o_group (rc_origin receipt) =? o_group (ip_fence image))
       || (o_index (rc_origin receipt) <=? o_index (ip_fence image))).

(** [a] was decided at or before [b] as far as their log tells. *)
Definition not_after (a b : Origin) : bool := (o_group a =? o_group b) && (o_index a <=? o_index b).

(** A cached retry; the payload total grows. *)
Definition validate_cached (d : DataMachine) (id : ShardId) (epoch : N) (frozen : option ImageProof)
  (session : Session) (t : Totals) (key : string) (cached : Cached) : Outcome string Totals :=
  payload ← ok_or (checked_add (to_payload t) (len64 (ca_payload cached))) "payload overflow"%string;
  refuse_if (negb (key_shard key (dm_shard_count d) ==? Some id)
    || (ca_sequence cached =? 0)
    || negb (ca_digest cached ==? sha256 (ca_payload cached))
    || negb (valid_receipt d id epoch frozen (se_id session) (ca_receipt cached))
    || negb (rc_sequence (ca_receipt cached) ==? Some (ca_sequence cached)))
    "invalid retained retry record"%string;;
  refuse_if ((rc_epoch (ca_receipt cached) <? rc_epoch (se_registered session))
    || not_after (rc_origin (ca_receipt cached)) (rc_origin (se_registered session))
    || is_some_and (se_closed session) (fun closed =>
         (rc_epoch closed <? rc_epoch (ca_receipt cached))
         || not_after (rc_origin closed) (rc_origin (ca_receipt cached))))
    "retry receipt violates registration/close ordering"%string;;
  value ← ok_or (from_slice (ca_payload cached) : option (option string)) "invalid retry payload"%string;
  refuse_if (is_some_and value (fun v => MAX_VALUE_BYTES <? str_len v)
    || negb (match canonical_bytes value (MAX_VALUE_BYTES * 6 + 32) with
             | Done bytes => bytes ==? ca_payload cached
             | _ => false
             end)) "noncanonical retry payload"%string;;
  Done (mkTotals (to_sessions t) (to_retries t + 1) payload (to_installing t) (to_reserved t)).

Fixpoint validate_keys (d : DataMachine) (id : ShardId) (epoch : N) (frozen : option ImageProof)
  (session : Session) (t : Totals) (keys : list (string * Cached)) : Outcome string Totals :=
  match keys with
  | [] => Done t
  | (key, cached) :: rest =>
      t ← validate_cached d id epoch frozen session t key cached;
      validate_keys d id epoch frozen session t rest
  end.

(** The identity and the receipts of a session. *)
Definition session_identity_invalid (d : DataMachine) (data : ShardData) (key : string)
  (session : Session) : bool :=
  negb (key ==? origin_key (se_id session))
  || negb (origin_valid (se_id session))
  || negb (contains (o_group (se_id session)) (dm_groups d))
  || (str_len (se_nonce session) =? 0)
  || (128 <? str_len (se_nonce session))
  || negb (sd_nonces data !! se_nonce session ==? Some (se_id session))
  || negb (rc_origin (se_registered session) ==? se_id session).

Definition session_receipts_invalid (d : DataMachine) (id : ShardId) (epoch : N)
  (frozen : option ImageProof) (session : Session) : bool :=
  let valid := valid_receipt d id epoch frozen (se_id session) in
  negb (valid (se_registered session))
  || is_some (rc_sequence (se_registered session))
  || is_some_and (se_closed session) (fun r => negb (valid r) || is_some (rc_sequence r)).

Definition validate_session (d : DataMachine) (id : ShardId) (epoch : N) (frozen : option ImageProof)
  (data : ShardData) (t : Totals) (key : string) (session : Session) : Outcome string Totals :=
  let t := mkTotals (to_sessions t + 1) (to_retries t) (to_payload t) (to_installing t)
             (to_reserved t) in
  refuse_if (session_identity_invalid d data key session) "invalid session identity"%string;;
  refuse_if (session_receipts_invalid d id epoch frozen session) "invalid session receipt"%string;;
  refuse_if (is_some_and (se_closed session) (fun closed =>
      (rc_epoch closed <? rc_epoch (se_registered session))
      || not_after (rc_origin closed) (rc_origin (se_registered session))))
    "session close precedes registration"%string;;
  refuse_if (256 <? N.of_nat (size (se_keys session))) "session key capacity"%string;;
  validate_keys d id epoch frozen session t (smap_iter (se_keys session)).

Fixpoint validate_sessions (d : DataMachine) (id : ShardId) (epoch : N) (frozen : option ImageProof)
  (data : ShardData) (t : Totals) (sessions : list (string * Session)) : Outcome string Totals :=
  match sessions with
  | [] => Done t
  | (key, session) :: rest =>
      t ← validate_session d id epoch frozen data t key session;
      validate_sessions d id epoch frozen data t rest
  end.

Definition cell_invalid (d : DataMachine) (id : ShardId) (cell : string * option string) : bool :=
  negb (key_shard cell.1 (dm_shard_count d) ==? Some id)
  || is_some_and cell.2 (fun v => MAX_VALUE_BYTES <? str_len v).

(** The data of a shard that holds some. *)
Definition validate_data (d : DataMachine) (id : ShardId) (epoch : N) (frozen : option ImageProof)
  (data : ShardData) (t : Totals) : Outcome string Totals :=
  match frozen with
  | Some image => validate_frozen d image data
  | None => Done tt
  end;;
  refuse_if (existsb (cell_invalid d id) (smap_iter (sd_cells data))) "invalid shard cell"%string;;
  refuse_if (negb (bool_decide (size (sd_nonces data) = size (sd_sessions data))))
    "registration index mismatch"%string;;
  validate_sessions d id epoch frozen data t (smap_iter (sd_sessions data)).

Definition validate_shard (d : DataMachine) (id : ShardId) (shard : Shard) (t : Totals)
  : Outcome string Totals :=
  refuse_if (dm_shard_count d <=? id) "invalid shard id"%string;;
  refuse_if (is_some_and (live_transfer (sh_slot shard)) (fun id =>
      is_some (dm_aborted d !! transfer_key id)))
    "aborted transfer remains in live shard state"%string;;
  '(t, epoch) ← validate_slot d id shard t;
  match epoch with
  | None => Done t
  | Some epoch =>
      data ← ok_or (sh_data shard) "serving/fenced shard lacks data"%string;
      validate_data d id epoch (frozen_image (sh_slot shard)) data t
  end.

Fixpoint validate_shards (d : DataMachine) (t : Totals) (shards : list (ShardId * Shard))
  : Outcome string Totals :=
  match shards with
  | [] => Done t
  | (id, shard) :: rest =>
      t ← validate_shard d id shard t;
      validate_shards d t rest
  end.

Definition configuration_invalid (d : DataMachine) (initialized : Origin) : bool :=
  (dm_shard_count d =? 0)
  || (MAX_SHARDS <? dm_shard_count d)
  || bool_decide (dm_groups d = [])
  || (MAX_GROUPS <? len64 (dm_groups d))
  || contains CONTROLLER (dm_groups d)
  || negb (contains (dm_group d) (dm_groups d))
  || negb (strictly_increasing (dm_groups d))
  || negb (o_group initialized =? dm_group d)
  || (o_index initialized =? 0)
  || (dm_applied d <? o_index initialized).

(** The bytes reserved before the walk: the free abort slots and the growth of
    the watermark's decimal. *)
Definition initial_reserved (d : DataMachine) : N :=
  (MAX_TRANSFERS - N.of_nat (size (dm_aborted d))) * ABORT_RECORD_RESERVE
  + (str_len (to_string u64_max) - str_len (to_string (dm_applied d))).

Definition capacity_exceeded (t : Totals) : bool :=
  (MAX_SESSIONS <? to_sessions t)
  || (MAX_RETRY_KEYS <? to_retries t)
  || (MAX_RETAINED_PAYLOAD_BYTES <? to_payload t)
  || (1 <? to_installing t).

Definition data_validate (d : DataMachine) : Outcome string unit :=
  refuse_if (dm_group d =? CONTROLLER) "data group cannot be controller"%string;;
  match dm_initialized_at d with
  | None =>
      refuse_if (negb (dm_shard_count d =? 0) || negb (bool_decide (dm_groups d = []))
                 || negb (bool_decide (dm_shards d = ∅)) || negb (bool_decide (dm_aborted d = ∅)))
        "uninitialized data group has state"%string
  | Some initialized =>
      refuse_if (configuration_invalid d initialized) "invalid data configuration"%string;;
      refuse_if (MAX_TRANSFERS <? N.of_nat (size (dm_aborted d))) "abort history capacity"%string;;
      validate_records d initialized (smap_iter (dm_aborted d));;
      t ← validate_shards d (mkTotals 0 0 0 0 (initial_reserved d)) (nmap_iter (dm_shards d));
      refuse_if (capacity_exceeded t) "actor retention/transfer capacity"%string;;
      refuse_if (negb (is_done (canonical_bytes d
          (saturating_sub MAX_ACTOR_BYTES (to_reserved t + 4096))))) "actor byte capacity"%string
  end.

(** ** [DataMachine::apply] and [DataMachine::advance] *)

Definition data_apply (d : DataMachine) (index : N) (command : DataCommand)
  : Outcome string (Outcome Error DataReply * DataMachine) :=
  if negb (checked_add (dm_applied d) 1 ==? Some index) then Refused "data application gap"%string
  else
  let result :=
    '(reply, next) ← data_execute (d <| dm_applied := index |>) index command;
    match data_validate next with
    | Done _ => Done (reply, next)
    | Refused _ => Refused ECapacity
    | Panicked => Panicked
    end in
  match result with
  | Done (reply, next) => Done (Done reply, next)
  | Refused e => Done (Refused e, d <| dm_applied := index |>)
  | Panicked => Panicked
  end.

Definition data_advance (d : DataMachine) (index : N) : Outcome string DataMachine :=
  if negb (checked_add (dm_applied d) 1 ==? Some index) then Refused "data application gap"%string
  else Done (d <| dm_applied := index |>).
End data.
