(* ===== verification/ShardDataInv.v ===== *)
(** * The data machine's validation and its watermark

    Validation is monotone in the watermark: rejected commands and no-ops, which
    only advance it, keep a validated machine valid ([data_validate_later]).  The
    file also reads off the clauses of a validated machine, shard by shard. *)
From S2P Require Import Prelude Types Membership ShardTypes Controller ControllerInv ShardData.
Local Open Scope N_scope.
Local Open Scope raft_scope.

(** The watermark is written as a decimal number in an otherwise unchanged JSON
    object, and the JSON of images and values is read back. *)
Class DataLaws `{DataFormats} : Prop := {
  machine_size (d : DataMachine) n :
    len64 (to_vec (d <| dm_applied := n |>)) + str_len (to_string (dm_applied d))
    = len64 (to_vec d) + str_len (to_string n);
  machine_decimal (d : DataMachine) : str_len (to_string (dm_applied d)) <= len64 (to_vec d);
  image_roundtrip (image : ShardImage) : from_slice (to_vec image) = Some image;
  value_roundtrip (value : option string) : from_slice (to_vec value) = Some value;
}.

Lemma is_some_and_false {A} (o : option A) f :
  is_some_and o f = false <-> forall a, o = Some a -> f a = false.
Proof. destruct o; cbn; naive_solver. Qed.
Lemma map_or_true {A} (o : option A) f : map_or o true f = true <-> forall a, o = Some a -> f a = true.
Proof. destruct o; cbn; naive_solver. Qed.

(** ** The length of a decimal *)

Lemma pretty_N_go_longer x s : (String.length s <= String.length (pretty_N_go x s))%nat.
Proof.
  revert s. induction (N.lt_wf_0 x) as [x _ IH]; intros s.
  destruct (decide (x = 0)) as [->|]; [by rewrite pretty_N_go_0|].
  rewrite pretty_N_go_step by lia.
  pose proof (IH (x / 10) ltac:(apply N.div_lt; lia) (String (pretty_N_char (x mod 10)) s)) as H.
  cbn [String.length] in H. lia.
Qed.
Lemma pretty_N_go_mono x y s r :
  x <= y -> (String.length s <= String.length r)%nat ->
  (String.length (pretty_N_go x s) <= String.length (pretty_N_go y r))%nat.
Proof.
  revert y s r. induction (N.lt_wf_0 x) as [x _ IH]; intros y s r Hxy Hs.
  destruct (decide (x = 0)) as [->|].
  - rewrite pretty_N_go_0. pose proof (pretty_N_go_longer y r). lia.
  - rewrite (pretty_N_go_step x), (pretty_N_go_step y) by lia. apply IH; [apply N.div_lt; lia|by apply N.Div0.div_le_mono|].
    cbn [String.length]. lia.
Qed.
Lemma to_string_len_pos x : 0 < str_len (to_string x).
Proof.
  unfold str_len, to_string, pretty, pretty_N. destruct (decide (x = 0)) as [->|]; [done|].
  rewrite pretty_N_go_step by lia.
  pose proof (pretty_N_go_longer (x / 10) (String (pretty_N_char (x mod 10)) EmptyString)) as H.
  cbn [String.length] in H. lia.
Qed.
Lemma to_string_len_mono x y : x <= y -> str_len (to_string x) <= str_len (to_string y).
Proof.
  intros Hxy. unfold str_len, to_string, pretty, pretty_N.
  destruct (decide (x = 0)) as [->|], (decide (y = 0)) as [->|]; try lia.
  - rewrite (pretty_N_go_step y) by lia.
    pose proof (pretty_N_go_longer (y / 10) (String (pretty_N_char (y mod 10)) EmptyString)) as H.
    cbn [String.length] in *. lia.
  - pose proof (pretty_N_go_mono x y EmptyString EmptyString Hxy (Nat.le_refl _)). lia.
Qed.

(** ** Totals that differ in the reserve *)

Definition shifted (k : N) (t u : Totals) : Prop :=
  to_sessions u = to_sessions t /\ to_retries u = to_retries t /\ to_payload u = to_payload t
  /\ to_installing u = to_installing t /\ to_reserved t = to_reserved u + k.

Section inv.
Context `{Fmt : TypeFormats} `{DFmt : DataFormats}.

Section later.
Variables (d : DataMachine) (n k : N).
Hypothesis Hn : dm_applied d <= n.
Notation d' := (d <| dm_applied := n |>).

Ltac later :=
  cbn [upd dm_group dm_applied dm_initialized_at dm_shard_count dm_groups dm_shards dm_aborted];
  intros H; bool_inv; bool_intro; try done; try lia.

Lemma movement_valid_later m : movement_valid d' m = movement_valid d m.
Proof. done. Qed.
Lemma retired_valid_later x old e : retired_valid d x old e = true -> retired_valid d' x old e = true.
Proof using Hn. unfold retired_valid. rewrite movement_valid_later. later. Qed.
Lemma active_invalid_later x e a : active_invalid d x e a = false -> active_invalid d' x e a = false.
Proof using Hn.
  unfold active_invalid. destruct a as [a|]; cbn [is_some_and]; later.
Qed.
Lemma fence_invalid_later x image : fence_invalid d x image = false -> fence_invalid d' x image = false.
Proof using Hn. unfold fence_invalid. rewrite movement_valid_later. later. Qed.
Lemma installation_invalid_later x p :
  installation_invalid d x p = false -> installation_invalid d' x p = false.
Proof using Hn. unfold installation_invalid. rewrite movement_valid_later. later. Qed.
Lemma retired_invalid_later x a cleaned data :
  retired_invalid d x a cleaned data = false -> retired_invalid d' x a cleaned data = false.
Proof using Hn. unfold retired_invalid. rewrite movement_valid_later. later. Qed.
Lemma valid_receipt_later x e frozen session r :
  valid_receipt d x e frozen session r = true -> valid_receipt d' x e frozen session r = true.
Proof using Hn.
  unfold valid_receipt.
  cbn [upd dm_group dm_applied dm_initialized_at dm_shard_count dm_groups dm_shards dm_aborted].
  intros H. bool_inv. rewrite ?contains_true in *. bool_intro; try done; try lia.
  match goal with H : _ || _ = true |- _ => apply orb_true_iff in H as [H|H] end;
    apply orb_true_iff; [by left|right]. bool_inv. bool_intro. lia.
Qed.
Lemma previous_retired_later x old e :
  is_some_and old (fun old => negb (retired_valid d x old e)) = false ->
  is_some_and old (fun old => negb (retired_valid d' x old e)) = false.
Proof using Hn.
  rewrite !is_some_and_false. intros H a Ha. specialize (H a Ha). bool_inv. bool_intro.
  by apply retired_valid_later.
Qed.

(** The walk over the shards, with a larger reserve before and a smaller one
    after. *)
Lemma validate_slot_later x sh t t' u e :
  validate_slot d x sh t = Done (t', e) -> shifted k t u ->
  exists u', validate_slot d' x sh u = Done (u', e) /\ shifted k t' u'.
Proof using Hn.
  intros Hv (E1 & E2 & E3 & E4 & E5). unfold validate_slot in *.
  destruct (sh_slot sh) as [epoch act|image prev|image bytes prev|p prev|act cleaned];
    outcome_inv; simplify_eq; eexists;
    (split; [outcome_intro; [..|reflexivity]; try done|]);
    eauto using active_invalid_later, fence_invalid_later, installation_invalid_later,
      retired_invalid_later, previous_retired_later;
    split_and!; cbn [to_sessions to_retries to_payload to_installing to_reserved]; lia.
Qed.

Lemma validate_cached_later x e frozen session t t' u key cached :
  validate_cached d x e frozen session t key cached = Done t' -> shifted k t u ->
  exists u', validate_cached d' x e frozen session u key cached = Done u' /\ shifted k t' u'.
Proof using Hn.
  intros Hv (E1 & E2 & E3 & E4 & E5). unfold validate_cached in *.
  apply Outcome_bind_Done in Hv as (payload & Hp%ok_or_Done & Hv).
  apply Outcome_bind_Done in Hv as ([] & G1%refuse_if_Done & Hv).
  apply Outcome_bind_Done in Hv as ([] & G2%refuse_if_Done & Hv).
  apply Outcome_bind_Done in Hv as (value & Hs%ok_or_Done & Hv).
  apply Outcome_bind_Done in Hv as ([] & G3%refuse_if_Done & Hv). injection Hv as <-.
  eexists. rewrite E3, Hp. cbn [ok_or mbind Outcome_bind]. split.
  - apply Outcome_bind_unit; [|apply Outcome_bind_unit; [by rewrite G2|]].
    + bool_inv. bool_intro; try done. by apply valid_receipt_later.
    + rewrite Hs. cbn [ok_or mbind Outcome_bind]. apply Outcome_bind_unit; [by rewrite G3|reflexivity].
  - split_and!; cbn [to_sessions to_retries to_payload to_installing to_reserved]; lia.
Qed.

Lemma validate_keys_later x e frozen session keys t t' u :
  validate_keys d x e frozen session t keys = Done t' -> shifted k t u ->
  exists u', validate_keys d' x e frozen session u keys = Done u' /\ shifted k t' u'.
Proof using Hn.
  revert t u. induction keys as [|[key cached] keys IH]; cbn; intros t u Hv Hs.
  - injection Hv as <-. by exists u.
  - apply Outcome_bind_Done in Hv as (t1 & Hc & Hv).
    destruct (validate_cached_later _ _ _ _ _ _ _ _ _ Hc Hs) as (u1 & Hc' & Hs1).
    rewrite Hc'. cbn. by apply (IH t1).
Qed.

Lemma validate_session_later x e frozen data t t' u key session :
  validate_session d x e frozen data t key session = Done t' -> shifted k t u ->
  exists u', validate_session d' x e frozen data u key session = Done u' /\ shifted k t' u'.
Proof using Hn.
  intros Hv (E1 & E2 & E3 & E4 & E5). unfold validate_session in *.
  apply Outcome_bind_Done in Hv as ([] & G1%refuse_if_Done & Hv).
  apply Outcome_bind_Done in Hv as ([] & G2%refuse_if_Done & Hv).
  apply Outcome_bind_Done in Hv as ([] & G3%refuse_if_Done & Hv).
  apply Outcome_bind_Done in Hv as ([] & G4%refuse_if_Done & Hv).
  eapply (validate_keys_later _ _ _ _ _ _ _ (mkTotals (to_sessions u + 1) (to_retries u) (to_payload u)
    (to_installing u) (to_reserved u))) in Hv as (u' & Hv & Hs).
  - exists u'. split; [|done].
    apply Outcome_bind_unit; [apply refuse_if_Done; exact G1|]. apply Outcome_bind_unit.
    { apply refuse_if_Done. unfold session_receipts_invalid in *. bool_inv.
      bool_intro; try done; [by apply valid_receipt_later|].
      rewrite is_some_and_false in *. intros r Hr.
      match goal with H : forall a, _ -> negb _ || _ = false |- _ => specialize (H r Hr) end.
      bool_inv. bool_intro; [by apply valid_receipt_later|done]. }
    apply Outcome_bind_unit; [apply refuse_if_Done; exact G3|]. by apply Outcome_bind_unit; [apply refuse_if_Done; exact G4|].
  - split_and!; cbn [to_sessions to_retries to_payload to_installing to_reserved]; lia.
Qed.

Lemma validate_sessions_later x e frozen data sessions t t' u :
  validate_sessions d x e frozen data t sessions = Done t' -> shifted k t u ->
  exists u', validate_sessions d' x e frozen data u sessions = Done u' /\ shifted k t' u'.
Proof using Hn.
  revert t u. induction sessions as [|[key session] sessions IH]; cbn; intros t u Hv Hs.
  - injection Hv as <-. by exists u.
  - apply Outcome_bind_Done in Hv as (t1 & Hc & Hv).
    destruct (validate_session_later _ _ _ _ _ _ _ _ _ Hc Hs) as (u1 & Hc' & Hs1).
    rewrite Hc'. cbn. by apply (IH t1).
Qed.

Lemma validate_shard_later x sh t t' u :
  validate_shard d x sh t = Done t' -> shifted k t u ->
  exists u', validate_shard d' x sh u = Done u' /\ shifted k t' u'.
Proof using Hn.
  intros Hv Hs. unfold validate_shard in Hv.
  apply Outcome_bind_Done in Hv as ([] & G1%refuse_if_Done & Hv).
  apply Outcome_bind_Done in Hv as ([] & G2%refuse_if_Done & Hv).
  apply Outcome_bind_Done in Hv as ([t1 e] & Hsl & Hv).
  destruct (validate_slot_later _ _ _ _ _ _ Hsl Hs) as (u1 & Hsl' & Hs1).
  assert (Hw : forall r, match e with
    | None => Done u1
    | Some epoch => data ← ok_or (sh_data sh) "serving/fenced shard lacks data"%string;
        validate_data d' x epoch (frozen_image (sh_slot sh)) data u1 end = r ->
    validate_shard d' x sh u = r).
  { intros r <-. unfold validate_shard.
    change (dm_shard_count d') with (dm_shard_count d). change (dm_aborted d') with (dm_aborted d).
    rewrite G1, G2. cbn [refuse_if mbind Outcome_bind]. by rewrite Hsl'. }
  destruct e as [e|]; [|injection Hv as <-; eauto].
  destruct (sh_data sh) as [data|]; cbn [ok_or mbind Outcome_bind] in *; [|discriminate].
  unfold validate_data in Hv.
  apply Outcome_bind_Done in Hv as ([] & F & Hv).
  apply Outcome_bind_Done in Hv as ([] & G3%refuse_if_Done & Hv).
  apply Outcome_bind_Done in Hv as ([] & G4%refuse_if_Done & Hv).
  eapply validate_sessions_later in Hv as (u' & Hv & Hs'); [|exact Hs1].
  exists u'. split; [|done]. apply Hw. cbn [ok_or mbind Outcome_bind]. unfold validate_data.
  apply Outcome_bind_unit; [exact F|]. apply Outcome_bind_unit; [apply refuse_if_Done; exact G3|].
  by apply Outcome_bind_unit; [apply refuse_if_Done; exact G4|].
Qed.

Lemma validate_shards_later shards t t' u :
  validate_shards d t shards = Done t' -> shifted k t u ->
  exists u', validate_shards d' u shards = Done u' /\ shifted k t' u'.
Proof using Hn.
  revert t u. induction shards as [|[x sh] shards IH]; cbn; intros t u Hv Hs.
  - injection Hv as <-. by exists u.
  - apply Outcome_bind_Done in Hv as (t1 & Hc & Hv).
    destruct (validate_shard_later _ _ _ _ _ Hc Hs) as (u1 & Hc' & Hs1).
    rewrite Hc'. cbn. by apply (IH t1).
Qed.

Lemma validate_records_later i records :
  validate_records d i records = Done tt -> validate_records d' i records = Done tt.
Proof using Hn.
  induction records as [|[key r] records IH]; cbn; [done|]. intros Hv.
  apply Outcome_bind_Done in Hv as ([] & Hr & Hv). apply Outcome_bind_unit; [|by apply IH].
  unfold validate_record in *.
  apply Outcome_bind_Done in Hr as ([] & G1%refuse_if_Done & Hr).
  apply Outcome_bind_unit; [|exact Hr]. apply refuse_if_Done. bool_inv.
  rewrite contains_true in *. bool_intro; try done.
  change (dm_applied d') with n. lia.
Qed.
End later.

Lemma validate_data_later_watermark `{!DataLaws} d n :
  dm_applied d <= n <= u64_max -> data_validate d = Done tt ->
  data_validate (d <| dm_applied := n |>) = Done tt.
Proof.
  intros [Hn Hmax] Hv. unfold data_validate in *.
  set (d' := d <| dm_applied := n |>) in *.
  change (dm_group d') with (dm_group d). change (dm_initialized_at d') with (dm_initialized_at d).
  apply Outcome_bind_Done in Hv as ([] & G1 & Hv). apply Outcome_bind_unit; [exact G1|].
  destruct (dm_initialized_at d) as [i|]; [|exact Hv].
  apply Outcome_bind_Done in Hv as ([] & G2%refuse_if_Done & Hv).
  apply Outcome_bind_Done in Hv as ([] & G3 & Hv).
  apply Outcome_bind_Done in Hv as ([] & Hr & Hv).
  apply Outcome_bind_Done in Hv as (t & Hs & Hv).
  apply Outcome_bind_Done in Hv as ([] & G4%refuse_if_Done & G5%refuse_if_Done).
  apply Outcome_bind_unit.
  { apply refuse_if_Done. unfold configuration_invalid in *. bool_inv.
    rewrite contains_true, contains_false in *. bool_intro; try done. change (dm_applied d') with n. lia. }
  apply Outcome_bind_unit; [exact G3|]. apply Outcome_bind_unit; [by apply validate_records_later|].
  set (k := str_len (to_string n) - str_len (to_string (dm_applied d))).
  pose proof (to_string_len_mono _ _ Hn) as Hlen. pose proof (to_string_len n Hmax) as Hcap.
  assert (H20 : str_len (to_string u64_max) = 20) by reflexivity.
  pose proof (machine_size d n) as Hsize. change (d <| dm_applied := n |>) with d' in Hsize.
  edestruct (validate_shards_later d n k Hn _ _ _ (mkTotals 0 0 0 0 (initial_reserved d')) Hs)
    as (u & Hu & E1 & E2 & E3 & E4 & E5).
  { do 4 (split; [reflexivity|]). cbn [to_reserved]. unfold initial_reserved.
    change (dm_aborted d') with (dm_aborted d). change (dm_applied d') with n. lia. }
  apply Outcome_bind_Done. exists u. split; [exact Hu|].
  apply Outcome_bind_unit.
  { apply refuse_if_Done. unfold capacity_exceeded in *. by rewrite E1, E2, E3, E4. }
  apply refuse_if_Done. bool_inv. bool_intro.
  match goal with H : is_done _ = true |- _ => apply canonical_bytes_fits in H as Hf end.
  apply canonical_bytes_fits. unfold saturating_sub in *.
  pose proof (machine_decimal d). pose proof (to_string_len_pos (dm_applied d)). lia.
Qed.
End inv.

(** * Validated data machines

    What a machine that passed [data_validate] knows about each shard, that
    validation and commands never panic, and the invariant [data_good] that every
    command and watermark keeps. *)
(** The identities of [u64] width that a record's key spells out. *)
Definition abort_typed (abort : AbortProof) : Prop := o_index (ab_controller abort) <= u64_max.
Definition command_typed (command : DataCommand) : Prop :=
  match command with DAbortTransfer abort => abort_typed abort | _ => True end.
Definition typed (d : DataMachine) : Prop :=
  forall key record, dm_aborted d !! key = Some record -> abort_typed (abr_abort record).

Lemma str_len_app s t : str_len (s +:+ t) = str_len s + str_len t.
Proof.
  unfold str_len. induction s as [|c s IH]; [done|].
  change (String c s +:+ t) with (String c (s +:+ t)). cbn [String.length]. lia.
Qed.

Lemma record_room_Done {E} id :
  ti_shard id < MAX_SHARDS -> ti_epoch id <= u64_max -> ti_controller_index id <= u64_max ->
  record_room (E:=E) (transfer_key id) <> Panicked.
Proof.
  intros Hs He Hc. unfold record_room, transfer_key.
  pose proof (to_string_len (ti_shard id)) as H1. pose proof (to_string_len _ He) as H2.
  pose proof (to_string_len _ Hc) as H3.
  assert (Hmax : MAX_SHARDS <= u64_max) by (by vm_compute).
  specialize (H1 ltac:(lia)).
  set (l := str_len _). assert (Hl : l <= 62).
  { subst l. rewrite !str_len_app. change (str_len ":") with 1. lia. }
  unfold checked_sub. assert (Hr : ABORT_RECORD_RESERVE = 1024) by reflexivity.
  destruct (_ <=? _) eqn:E1; cbn [or_panic mbind Outcome_bind]; bool_inv; [|lia].
  destruct (8 <=? _) eqn:E2; cbn [or_panic mbind Outcome_bind]; bool_inv; [done|lia].
Qed.

Section safe.
Context `{Fmt : TypeFormats} `{DFmt : DataFormats}.

Lemma canonical_bytes_no_panic {T} `{Serialize T} (v : T) max : canonical_bytes v max <> Panicked.
Proof. rewrite canonical_bytes_spec. by destruct (_ <? _). Qed.
#[local] Hint Resolve canonical_bytes_no_panic : no_panic.

Lemma movement_valid_bounds d m :
  movement_valid d m = true ->
  ti_shard (mv_id m) < MAX_SHARDS /\ ti_epoch (mv_id m) <= u64_max
  /\ mv_previous_epoch m + 1 = ti_epoch (mv_id m).
Proof.
  unfold movement_valid, move_valid, transfer_id_valid. intros H. bool_inv.
  match goal with H : checked_add _ _ = _ |- _ => apply checked_add_Some in H as [H Hm] end.
  split_and!; lia.
Qed.

(** ** Validation does not panic *)

Lemma validate_record_no_panic d i key r :
  abort_typed (abr_abort r) -> validate_record d i key r <> Panicked.
Proof.
  intros Ht. unfold validate_record. apply bind_no_panic; [auto with no_panic|].
  intros [] G%refuse_if_Done. bool_inv. subst key.
  match goal with H : movement_valid _ _ = true |- _ => apply movement_valid_bounds in H as (Hs & He & _) end.
  match goal with H : abort_valid _ = true |- _ => unfold abort_valid in H end. bool_inv.
  unfold abort_typed in Ht.
  apply bind_no_panic; [apply record_room_Done; try done; lia|auto with no_panic].
Qed.
Lemma validate_records_no_panic d i records :
  (forall key r, (key, r) ∈ records -> abort_typed (abr_abort r)) ->
  validate_records d i records <> Panicked.
Proof.
  induction records as [|[key r] records IH]; cbn; intros Ht; [done|].
  apply bind_no_panic.
  - apply validate_record_no_panic, (Ht key). left.
  - intros _ _. apply IH. intros k r' Hin. apply (Ht k). by right.
Qed.
Lemma validate_slot_no_panic d x sh t : validate_slot d x sh t <> Panicked.
Proof. unfold validate_slot. no_panic. Qed.
Lemma validate_keys_no_panic d x e frozen session keys t :
  validate_keys d x e frozen session t keys <> Panicked.
Proof.
  revert t. induction keys as [|[key cached] keys IH]; cbn; intros t; [done|].
  apply bind_no_panic; [unfold validate_cached; no_panic|auto].
Qed.
Lemma validate_sessions_no_panic d x e frozen data sessions t :
  validate_sessions d x e frozen data t sessions <> Panicked.
Proof.
  revert t. induction sessions as [|[key session] sessions IH]; cbn; intros t; [done|].
  apply bind_no_panic; [|auto]. unfold validate_session. no_panic. apply validate_keys_no_panic.
Qed.
Lemma validate_shard_no_panic d x sh t : validate_shard d x sh t <> Panicked.
Proof.
  unfold validate_shard, validate_data. no_panic; auto using validate_slot_no_panic, validate_sessions_no_panic.
  unfold validate_frozen. rewrite canonical_bytes_spec. destruct (_ <? _); [done|auto with no_panic].
Qed.
Lemma validate_shards_no_panic d shards t : validate_shards d t shards <> Panicked.
Proof.
  revert t. induction shards as [|[x sh] shards IH]; cbn; intros t; [done|].
  apply bind_no_panic; auto using validate_shard_no_panic.
Qed.
Lemma data_validate_no_panic d : typed d -> data_validate d <> Panicked.
Proof.
  intros Ht. unfold data_validate. no_panic.
  - apply validate_records_no_panic. intros key r Hin.
    by apply (elem_of_btree_iter str_le), Ht in Hin.
  - apply validate_shards_no_panic.
Qed.

(** ** Reading a validated machine *)

Lemma validate_shards_elem d shards t t' x sh :
  validate_shards d t shards = Done t' -> (x, sh) ∈ shards ->
  exists u u', validate_shard d x sh u = Done u'.
Proof.
  revert t. induction shards as [|[y sy] shards IH]; cbn; intros t Hv Hin; [by apply not_elem_of_nil in Hin|].
  apply Outcome_bind_Done in Hv as (t1 & Hy & Hv).
  apply elem_of_cons in Hin as [[= -> ->]|Hin]; eauto.
Qed.
Lemma validate_sessions_elem d x e frozen data sessions t t' key s :
  validate_sessions d x e frozen data t sessions = Done t' -> (key, s) ∈ sessions ->
  exists u u', validate_session d x e frozen data u key s = Done u'.
Proof.
  revert t. induction sessions as [|[y sy] sessions IH]; cbn; intros t Hv Hin; [by apply not_elem_of_nil in Hin|].
  apply Outcome_bind_Done in Hv as (t1 & Hy & Hv).
  apply elem_of_cons in Hin as [[= -> ->]|Hin]; eauto.
Qed.
Lemma validate_records_elem d i records key r :
  validate_records d i records = Done tt -> (key, r) ∈ records -> validate_record d i key r = Done tt.
Proof.
  induction records as [|[k rk] records IH]; cbn; intros Hv Hin; [by apply not_elem_of_nil in Hin|].
  apply Outcome_bind_Done in Hv as ([] & Hy & Hv).
  apply elem_of_cons in Hin as [[= -> ->]|Hin]; eauto.
Qed.

(** The configuration of a validated, initialized machine. *)
Lemma validated_initialized d i :
  data_validate d = Done tt -> dm_initialized_at d = Some i ->
  dm_group d <> CONTROLLER /\ configuration_invalid d i = false
  /\ validate_records d i (smap_iter (dm_aborted d)) = Done tt
  /\ (forall x sh, dm_shards d !! x = Some sh -> exists u u', validate_shard d x sh u = Done u')
  /\ exists t, validate_shards d (mkTotals 0 0 0 0 (initial_reserved d)) (nmap_iter (dm_shards d)) = Done t
       /\ capacity_exceeded t = false.
Proof.
  unfold data_validate. intros Hv Hi.
  apply Outcome_bind_Done in Hv as ([] & G1%refuse_if_Done & Hv). rewrite Hi in Hv.
  apply Outcome_bind_Done in Hv as ([] & G2%refuse_if_Done & Hv).
  apply Outcome_bind_Done in Hv as ([] & _ & Hv).
  apply Outcome_bind_Done in Hv as ([] & Hr & Hv).
  apply Outcome_bind_Done in Hv as (t & Hs & Hv).
  apply Outcome_bind_Done in Hv as ([] & G3%refuse_if_Done & _). bool_inv.
  split_and!; eauto. intros x sh Hx. eapply validate_shards_elem; [exact Hs|].
  by apply (elem_of_btree_iter N.le).
Qed.
Lemma validated_uninitialized d :
  data_validate d = Done tt -> dm_initialized_at d = None ->
  dm_group d <> CONTROLLER /\ dm_shard_count d = 0 /\ dm_groups d = [] /\ dm_shards d = ∅ /\ dm_aborted d = ∅.
Proof.
  unfold data_validate. intros Hv Hi.
  apply Outcome_bind_Done in Hv as ([] & G1%refuse_if_Done & Hv). rewrite Hi in Hv.
  apply refuse_if_Done in Hv. bool_inv. by split_and!.
Qed.

(** ** What validation says of one shard *)

Definition image_of (d : DataMachine) (image : ImageProof) (data : ShardData) : Prop :=
  let body := mkShardImage 1 (ip_movement image) (ip_fence image) (dm_shard_count d) data in
  len64 (to_vec body) = ip_bytes image /\ sha256 (to_vec body) = ip_sha256 image
  /\ retention data = ip_retention image.

Definition slot_sound (d : DataMachine) (x : ShardId) (sh : Shard) : Prop :=
  match sh_slot sh with
  | SActive e a =>
      active_invalid d x e a = false /\ (1 < e -> a <> None) /\ exists data, sh_data sh = Some data
  | SFenced image previous =>
      provenance_invalid d x image previous = false /\ fence_invalid d x image = false
      /\ exists data, sh_data sh = Some data /\ image_of d image data
  | SInstalling image bytes previous =>
      installing_invalid d x image bytes (sh_data sh) = false
      /\ forall old, previous = Some old ->
           retired_valid d x old (ti_epoch (mv_id (ip_movement image))) = true
  | SInstalled p previous =>
      installation_invalid d x p = false
      /\ (forall old, previous = Some old ->
           retired_valid d x old (ti_epoch (mv_id (ip_movement (in_image p)))) = true)
      /\ exists data, sh_data sh = Some data /\ image_of d (in_image p) data
  | SRetired activation cleaned => retired_invalid d x activation cleaned (sh_data sh) = false
  end.

(** The data a slot must hold. *)
Definition data_sound (d : DataMachine) (data : ShardData) : Prop :=
  size (sd_nonces data) = size (sd_sessions data)
  /\ forall key s, sd_sessions data !! key = Some s ->
       key = origin_key (se_id s) /\ sd_nonces data !! se_nonce s = Some (se_id s).

Lemma validate_frozen_Done d image data : validate_frozen d image data = Done tt -> image_of d image data.
Proof.
  unfold validate_frozen, image_of. destruct (canonical_bytes _ _) as [bs| |] eqn:E; try discriminate.
  apply canonical_bytes_Done in E as [-> _]. intros H%refuse_if_Done. bool_inv. done.
Qed.

Lemma validate_shard_sound d x sh t t' :
  validate_shard d x sh t = Done t' ->
  x < dm_shard_count d
  /\ (forall id, live_transfer (sh_slot sh) = Some id -> dm_aborted d !! transfer_key id = None)
  /\ slot_sound d x sh
  /\ forall data, sh_data sh = Some data -> data_sound d data.
Proof.
  unfold validate_shard. intros Hv.
  apply Outcome_bind_Done in Hv as ([] & G1%refuse_if_Done & Hv).
  apply Outcome_bind_Done in Hv as ([] & G2%refuse_if_Done & Hv).
  apply Outcome_bind_Done in Hv as ([t1 e] & Hs & Hv). bool_inv. split; [done|].
  split.
  { rewrite is_some_and_false in G2. intros id Hid. specialize (G2 id Hid). by destruct (dm_aborted d !! _). }
  assert (Hd : forall epoch data, e = Some epoch -> sh_data sh = Some data ->
    (forall image, frozen_image (sh_slot sh) = Some image -> image_of d image data) /\ data_sound d data).
  { intros epoch data -> E. rewrite E in Hv. cbn [ok_or mbind Outcome_bind] in Hv.
    apply Outcome_bind_Done in Hv as ([] & F & Hv).
    apply Outcome_bind_Done in Hv as ([] & _ & Hv).
    apply Outcome_bind_Done in Hv as ([] & G4%refuse_if_Done & Hv). bool_inv. split.
    - intros image Hf. rewrite Hf in F. by apply validate_frozen_Done.
    - split; [done|]. intros key s Hk. apply (elem_of_btree_iter str_le) in Hk.
      eapply validate_sessions_elem in Hv as (u & u' & Hv); [|exact Hk].
      apply Outcome_bind_Done in Hv as ([] & G5%refuse_if_Done & _).
      unfold session_identity_invalid in G5. by bool_inv. }
  assert (Hsome : forall epoch, e = Some epoch -> exists data, sh_data sh = Some data).
  { intros epoch ->. destruct (sh_data sh); [eauto|discriminate Hv]. }
  unfold validate_slot in Hs. unfold slot_sound.
  destruct (sh_slot sh) as [epoch a|image prev|image bytes prev|p prev|act cleaned]; outcome_inv;
    simplify_eq; cbn [frozen_image] in Hd.
  - bool_inv. destruct (Hsome _ eq_refl) as [data E]. split; [|by intros data' E'; apply (Hd _ _ eq_refl)].
    split_and!; eauto. intros Hlt ->. bool_inv.
    match goal with H : (_ <? _) && _ = false |- _ => apply andb_false_iff in H as [?|?] end; [|done].
    bool_inv. lia.
  - destruct (Hsome _ eq_refl) as [data E]. split; [|by intros data' E'; apply (Hd _ _ eq_refl)].
    split_and!; try done. exists data. split; [done|]. by apply (Hd _ _ eq_refl).
  - assert (sh_data sh = None) as E.
    { match goal with H : installing_invalid _ _ _ _ _ = false |- _ => revert H end.
      unfold installing_invalid. intros ?. bool_inv. by destruct (sh_data sh). }
    split; [|by rewrite E]. split; [done|]. intros old ->. cbn in *. by bool_inv.
  - destruct (Hsome _ eq_refl) as [data E]. split; [|by intros data' E'; apply (Hd _ _ eq_refl)].
    split_and!; try done.
    + intros old ->. cbn in *. by bool_inv.
    + exists data. split; [done|]. by apply (Hd _ _ eq_refl).
  - split; [done|]. match goal with H : retired_invalid _ _ _ _ _ = false |- _ => revert H end.
    unfold retired_invalid. intros ?. bool_inv. by destruct (sh_data sh).
Qed.

Lemma validated_shard d x sh :
  data_validate d = Done tt -> dm_shards d !! x = Some sh ->
  x < dm_shard_count d
  /\ (forall id, live_transfer (sh_slot sh) = Some id -> dm_aborted d !! transfer_key id = None)
  /\ slot_sound d x sh
  /\ forall data, sh_data sh = Some data -> data_sound d data.
Proof.
  intros Hv Hx. destruct (dm_initialized_at d) as [i|] eqn:Hi.
  - destruct (validated_initialized d i Hv Hi) as (_ & _ & _ & Hs & _).
    destruct (Hs x sh Hx) as (u & u' & Hu). by eapply validate_shard_sound.
  - destruct (validated_uninitialized d Hv Hi) as (_ & _ & _ & E & _). by rewrite E, lookup_empty in Hx.
Qed.

(** ** The registration index

    As many nonces as sessions, and every session under its nonce: so every
    nonce names a session. *)
Lemma data_sound_nonce d data nonce id :
  data_sound d data -> sd_nonces data !! nonce = Some id ->
  exists s, sd_sessions data !! origin_key id = Some s /\ se_id s = id /\ se_nonce s = nonce.
Proof.
  intros [Hsize Hs] Hn.
  set (L := map (fun p => se_nonce p.2) (map_to_list (sd_sessions data))).
  set (K := map fst (map_to_list (sd_nonces data))).
  assert (HL : NoDup L).
  { subst L. apply NoDup_fmap_2_strong; [|apply NoDup_map_to_list].
    intros [k1 s1] [k2 s2] H1%elem_of_map_to_list H2%elem_of_map_to_list E. cbn in E.
    destruct (Hs _ _ H1) as [-> N1], (Hs _ _ H2) as [-> N2]. rewrite E in N1.
    assert (se_id s1 = se_id s2) as Eid by congruence. rewrite Eid in H1. congruence. }
  assert (HLK : L ⊆+ K).
  { apply NoDup_submseteq; [done|]. intros n (p & -> & Hp)%list_elem_of_fmap.
    destruct p as [k s]. apply elem_of_map_to_list in Hp. destruct (Hs _ _ Hp) as [_ E].
    apply list_elem_of_fmap. exists (se_nonce s, se_id s). split; [done|]. by apply elem_of_map_to_list. }
  assert (HP : L ≡ₚ K).
  { apply submseteq_length_Permutation; [done|]. subst L K. rewrite !length_map.
    change (length (map_to_list (sd_nonces data)) <= length (map_to_list (sd_sessions data)))%nat.
    rewrite !length_map_to_list. lia. }
  assert (Hin : nonce ∈ L).
  { rewrite HP. apply list_elem_of_fmap. exists (nonce, id). split; [done|]. by apply elem_of_map_to_list. }
  apply list_elem_of_fmap in Hin as ([k s] & E & Hk%elem_of_map_to_list). cbn in E.
  destruct (Hs _ _ Hk) as [-> N]. rewrite <- E in N. simplify_eq. eauto.
Qed.
Lemma register_no_panic d data origin x e nonce :
  data_sound d data -> register data origin x e nonce <> Panicked.
Proof.
  intros Hd. unfold register. destruct (sd_nonces data !! nonce) as [id|] eqn:E; [|done].
  destruct (data_sound_nonce _ _ _ _ Hd E) as (s & -> & _). done.
Qed.
End safe.
