(* ===== verification/ShardSteps.v ===== *)
(** * The slot of a shard as a state machine

    [slot_step] lists the moves a command can make on one shard of a data group:
    client operations on an active shard and the edges of the hand-over protocol.
    [data_execute_steps] shows that every accepted command leaves each shard as it
    is or makes one of these moves, and touches nothing else. *)
From S2P Require Import Prelude Types Membership ShardTypes Controller ControllerInv ShardData ShardDataInv ControllerGuarantees.
Local Open Scope N_scope.
Local Open Scope raft_scope.

Section steps.
Context `{Fmt : TypeFormats} `{DFmt : DataFormats}.

(** A client command on the data of an active shard. *)
Inductive client_step (d : DataMachine) (index : N)
  : DataCommand -> ShardId -> N -> ShardData -> DataReply -> ShardData -> Prop :=
| client_register x e nonce data reply data' :
    str_len nonce <> 0 -> str_len nonce <= 128 ->
    register data (mkOrigin (dm_group d) index) x e nonce = Done (reply, data') ->
    client_step d index (DRegister x e nonce) x e data reply data'
| client_close x e session data reply data' :
    close data (mkOrigin (dm_group d) index) x e session = Done (reply, data') ->
    client_step d index (DClose x e session) x e data reply data'
| client_mutate x e session key sequence value data reply data' :
    key_shard key (dm_shard_count d) = Some x -> sequence <> 0 ->
    mutate data (mkOrigin (dm_group d) index) x e session key sequence value (to_vec value)
    = Done (reply, data') ->
    client_step d index (DMutate x e session key sequence value) x e data reply data'.

Definition previous_of (o : option Shard) : option RetiredState :=
  match sh_slot <$> o with
  | Some (SRetired activation cleaned) => Some (mkRetiredState activation cleaned)
  | _ => None
  end.
Definition undo_install (previous : option RetiredState) : option Shard :=
  (fun old => mkShard (SRetired (rs_activation old) (rs_cleaned old)) None) <$> previous.

Inductive slot_step (d : DataMachine) (index : N) (x : ShardId)
  : DataCommand -> DataReply -> option Shard -> option Shard -> Prop :=
| step_client command e a data reply data' :
    client_step d index command x e data reply data' ->
    slot_step d index x command reply (Some (mkShard (SActive e a) (Some data)))
      (Some (mkShard (SActive e a) (Some data')))
| step_fence m a data image :
    movement_valid d m = true -> mv_source m = dm_group d -> ti_shard (mv_id m) = x ->
    ip_movement image = m -> ip_fence image = mkOrigin (dm_group d) index ->
    image_of d image data ->
    slot_step d index x (DFence m) (DRFenced image)
      (Some (mkShard (SActive (mv_previous_epoch m) a) (Some data)))
      (Some (mkShard (SFenced image a) (Some data)))
| step_begin image before :
    image_valid image = true -> movement_valid d (ip_movement image) = true ->
    mv_destination (ip_movement image) = dm_group d -> ti_shard (mv_id (ip_movement image)) = x ->
    (before = None \/ exists activation cleaned sd,
       before = Some (mkShard (SRetired activation cleaned) sd)
       /\ ti_epoch (ac_id activation) < ti_epoch (mv_id (ip_movement image))) ->
    slot_step d index x (DBeginInstall image) (DRProgress (mv_id (ip_movement image)) 0) before
      (Some (mkShard (SInstalling image [] (previous_of before)) None))
| step_chunk image stored previous sd bytes reply :
    ti_shard (mv_id (ip_movement image)) = x ->
    slot_step d index x (DChunk (mv_id (ip_movement image)) (len64 stored) bytes) reply
      (Some (mkShard (SInstalling image stored previous) sd))
      (Some (mkShard (SInstalling image (stored ++ bytes) previous) sd))
| step_reset image stored previous sd :
    ti_shard (mv_id (ip_movement image)) = x ->
    slot_step d index x (DResetInstall image) (DRProgress (mv_id (ip_movement image)) 0)
      (Some (mkShard (SInstalling image stored previous) sd))
      (Some (mkShard (SInstalling image [] previous) sd))
| step_finish image stored previous sd body :
    ti_shard (mv_id (ip_movement image)) = x ->
    len64 stored = ip_bytes image -> sha256 stored = ip_sha256 image ->
    from_slice stored = Some body -> mkShardImage 1 (ip_movement image) (ip_fence image) (dm_shard_count d) (si_data body) = body ->
    to_vec body = stored -> retention (si_data body) = ip_retention image ->
    slot_step d index x (DFinishInstall (mv_id (ip_movement image)))
      (DRInstalled (mkInstalledProof image (mkOrigin (dm_group d) index)))
      (Some (mkShard (SInstalling image stored previous) sd))
      (Some (mkShard (SInstalled (mkInstalledProof image (mkOrigin (dm_group d) index)) previous)
               (Some (si_data body))))
| step_activate ownership previous sd activation :
    ownership_valid ownership = true -> mv_destination (ip_movement (ow_image ownership)) = dm_group d ->
    ti_shard (mv_id (ip_movement (ow_image ownership))) = x ->
    activation = mkActivationProof ownership (mkOrigin (dm_group d) index) ->
    slot_step d index x (DActivate ownership) (DRActivated activation)
      (Some (mkShard (SInstalled (ow_installation ownership) previous) sd))
      (Some (mkShard (SActive (ti_epoch (ac_id activation)) (Some activation)) sd))
| step_cleanup activation previous sd :
    activation_valid activation = true -> mv_source (ip_movement (ac_image activation)) = dm_group d ->
    ti_shard (ac_id activation) = x ->
    slot_step d index x (DCleanup activation) (DRCleaned (ac_id activation) (mkOrigin (dm_group d) index))
      (Some (mkShard (SFenced (ac_image activation) previous) sd))
      (Some (mkShard (SRetired activation (mkOrigin (dm_group d) index)) None))
| step_abort_source abort image previous data record :
    mv_source (ab_movement abort) = dm_group d -> ti_shard (mv_id (ab_movement abort)) = x ->
    ip_movement image = ab_movement abort ->
    slot_step d index x (DAbortTransfer abort) (DRAborted record)
      (Some (mkShard (SFenced image previous) (Some data)))
      (Some (mkShard (SActive (mv_previous_epoch (ab_movement abort)) previous) (Some data)))
| step_abort_installing abort image stored previous sd record :
    mv_source (ab_movement abort) <> dm_group d -> ti_shard (mv_id (ab_movement abort)) = x ->
    ip_movement image = ab_movement abort ->
    slot_step d index x (DAbortTransfer abort) (DRAborted record)
      (Some (mkShard (SInstalling image stored previous) sd)) (undo_install previous)
| step_abort_installed abort p previous sd record :
    mv_source (ab_movement abort) <> dm_group d -> ti_shard (mv_id (ab_movement abort)) = x ->
    ip_movement (in_image p) = ab_movement abort ->
    slot_step d index x (DAbortTransfer abort) (DRAborted record)
      (Some (mkShard (SInstalled p previous) sd)) (undo_install previous).

(** What an abort leaves behind, and what no other command touches. *)
Definition aborts_after (d : DataMachine) (index : N) (command : DataCommand) (d' : DataMachine) : Prop :=
  match command with
  | DAbortTransfer abort =>
      abort_valid abort = true /\ movement_valid d (ab_movement abort) = true
      /\ (dm_group d = mv_source (ab_movement abort) \/ dm_group d = mv_destination (ab_movement abort))
      /\ (dm_aborted d' = <[transfer_key (mv_id (ab_movement abort)) :=
                              mkAbortRecord abort (mkOrigin (dm_group d) index)]> (dm_aborted d)
            /\ dm_aborted d !! transfer_key (mv_id (ab_movement abort)) = None
          \/ d' = d /\ exists record, dm_aborted d !! transfer_key (mv_id (ab_movement abort)) = Some record
               /\ abr_abort record = abort)
  | _ => dm_aborted d' = dm_aborted d
         /\ forall id, data_command_id command = Some id -> dm_aborted d !! transfer_key id = None
  end.

(** The machine around the shards. *)
Definition same_machine (d d' : DataMachine) : Prop :=
  dm_group d' = dm_group d /\ dm_applied d' = dm_applied d
  /\ dm_initialized_at d' = dm_initialized_at d /\ dm_shard_count d' = dm_shard_count d
  /\ dm_groups d' = dm_groups d.

Lemma same_machine_refl d : same_machine d d.
Proof. by split_and!. Qed.

(** One shard changes, by the given step. *)
Definition moved (d : DataMachine) (index : N) (command : DataCommand) (reply : DataReply)
  (d' : DataMachine) : Prop :=
  forall x, dm_shards d' !! x = dm_shards d !! x
            \/ slot_step d index x command reply (dm_shards d !! x) (dm_shards d' !! x).

Lemma moved_refl d index command reply : moved d index command reply d.
Proof. intros x. by left. Qed.
Lemma moved_at d index command reply d' y :
  (forall x, x <> y -> dm_shards d' !! x = dm_shards d !! x) ->
  slot_step d index y command reply (dm_shards d !! y) (dm_shards d' !! y) ->
  moved d index command reply d'.
Proof. intros Ho Hy x. destruct (decide (x = y)) as [->|]; auto. Qed.

Lemma put_shard_moved d index command reply y sh :
  slot_step d index y command reply (dm_shards d !! y) (Some sh) ->
  moved d index command reply (put_shard d y sh).
Proof.
  intros Hs. apply (moved_at _ _ _ _ _ y).
  - intros x Hne. apply lookup_insert_ne. congruence.
  - cbn. by rewrite lookup_insert_eq.
Qed.
Lemma put_slot_moved d index command reply y sh slot :
  dm_shards d !! y = Some sh ->
  slot_step d index y command reply (Some sh) (Some (mkShard slot (sh_data sh))) ->
  moved d index command reply (put_slot d y slot).
Proof.
  intros Hy Hs. apply (moved_at _ _ _ _ _ y).
  - intros x Hne. apply lookup_alter_ne. congruence.
  - cbn. by rewrite lookup_alter_eq, Hy.
Qed.

Lemma active_Done d x e data :
  active d x e = Done data ->
  exists a, dm_shards d !! x = Some (mkShard (SActive e a) (Some data)).
Proof.
  unfold active. intros H. apply Outcome_bind_Done in H as ([slot sd] & Hx%ok_or_Done & H).
  cbn in H. destruct slot as [current a| | | |]; try discriminate. destruct (current =? e) eqn:E; [|discriminate].
  apply ok_or_Done in H. bool_inv. subst. eauto.
Qed.

Lemma on_active_moved d index command x e f reply d' :
  (forall data data', f data = Done (reply, data') -> client_step d index command x e data reply data') ->
  on_active d x e f = Done (reply, d') -> moved d index command reply d' /\ same_machine d d'
    /\ dm_aborted d' = dm_aborted d.
Proof.
  intros Hf H. unfold on_active in H.
  apply Outcome_bind_Done in H as (data & (a & Hx)%active_Done & H).
  apply Outcome_bind_Done in H as ([r data'] & Hr & H). injection H as -> <-.
  split; [|done]. apply (moved_at _ _ _ _ _ x).
  - intros y Hne. apply lookup_alter_ne. congruence.
  - unfold put_data. cbn [upd dm_shards]. rewrite lookup_alter_eq, Hx. cbn. constructor. auto.
Qed.

(** The result of a hand-over command other than an abort. *)
Definition hand_over (d : DataMachine) (index : N) (command : DataCommand) (reply : DataReply)
  (d' : DataMachine) : Prop :=
  moved d index command reply d' /\ same_machine d d' /\ dm_aborted d' = dm_aborted d.

Lemma hand_over_refl d index command reply : hand_over d index command reply d.
Proof. split; [apply moved_refl|done]. Qed.
Lemma hand_over_put_slot d index command reply y sh slot :
  dm_shards d !! y = Some sh ->
  slot_step d index y command reply (Some sh) (Some (mkShard slot (sh_data sh))) ->
  hand_over d index command reply (put_slot d y slot).
Proof. intros Hy Hs. split; [by eapply put_slot_moved|done]. Qed.
Lemma hand_over_put_shard d index command reply y sh :
  slot_step d index y command reply (dm_shards d !! y) (Some sh) ->
  hand_over d index command reply (put_shard d y sh).
Proof. intros Hs. split; [by apply put_shard_moved|done]. Qed.
#[local] Hint Resolve hand_over_refl : core.

Lemma fence_moved d index m reply d' :
  fence d (mkOrigin (dm_group d) index) m = Done (reply, d') -> hand_over d index (DFence m) reply d'.
Proof.
  unfold fence. intros H.
  apply Outcome_bind_Done in H as ([] & G%refuse_if_Done & H).
  apply Outcome_bind_Done in H as ([slot sd] & Hx%ok_or_Done & H). cbn [sh_slot] in H. bool_inv.
  destruct slot as [e a|image a| | |]; try (cbn in H; discriminate).
  2:{ case_match; [|discriminate]. by injection H as <- <-. }
  all: apply Outcome_bind_Done in H as (data & (a' & Hx')%active_Done & H); rewrite Hx in Hx';
    simplify_eq.
  apply Outcome_bind_Done in H as (bs & [-> Hb]%canonical_bytes_Done & H). injection H as <- <-.
  eapply hand_over_put_slot; [exact Hx|]. cbn [sh_data]. by constructor.
Qed.

Lemma begin_install_moved d index image reply d' :
  begin_install d image = Done (reply, d') -> hand_over d index (DBeginInstall image) reply d'.
Proof.
  unfold begin_install. intros H.
  apply Outcome_bind_Done in H as ([] & G%refuse_if_Done & H). bool_inv.
  set (x := ti_shard (mv_id (ip_movement image))) in *.
  assert (Hi : forall before, dm_shards d !! x = before ->
    (before = None \/ exists activation cleaned sd,
       before = Some (mkShard (SRetired activation cleaned) sd)
       /\ ti_epoch (ac_id activation) < ti_epoch (mv_id (ip_movement image))) ->
    hand_over d index (DBeginInstall image) (DRProgress (mv_id (ip_movement image)) 0)
      (put_shard d x (mkShard (SInstalling image [] (previous_of before)) None))).
  { intros before Hb Hc. eapply hand_over_put_shard. rewrite Hb. by constructor. }
  destruct (dm_shards d !! x) as [[slot sd]|] eqn:Hx; cbn [fmap option_fmap option_map sh_slot] in H.
  - specialize (Hi _ eq_refl). unfold previous_of in Hi. cbn in Hi.
    destruct slot as [| |old stored prev|p prev|act cleaned]; try discriminate.
    + case_match; [|discriminate]. injection H as <- <-. auto.
    + case_match; [|discriminate]. injection H as <- <-. auto.
    + case_match; [|discriminate]. bool_inv.
      apply Outcome_bind_Done in H as ([] & _ & H). injection H as <- <-. apply Hi. right. eauto 10.
  - apply Outcome_bind_Done in H as ([] & _ & H). injection H as <- <-.
    apply (Hi None); auto.
Qed.

Lemma chunk_moved d index id offset bytes reply d' :
  chunk d id offset bytes = Done (reply, d') -> hand_over d index (DChunk id offset bytes) reply d'.
Proof.
  unfold chunk. intros H.
  apply Outcome_bind_Done in H as ([] & _ & H).
  apply Outcome_bind_Done in H as ([slot sd] & Hx%ok_or_Done & H). cbn [sh_slot] in H.
  destruct slot as [| |image stored prev| |]; try discriminate.
  apply Outcome_bind_Done in H as ([] & G%refuse_if_Done & H). bool_inv. subst id.
  apply Outcome_bind_Done in H as (stop & _ & H).
  apply Outcome_bind_Done in H as ([] & _ & H).
  destruct (offset <? len64 stored).
  { apply Outcome_bind_Done in H as ([] & _ & H). by injection H as <- <-. }
  destruct (offset =? len64 stored) eqn:E; [|discriminate]. bool_inv. subst offset.
  injection H as <- <-. eapply hand_over_put_slot; [exact Hx|]. by constructor.
Qed.

Lemma reset_install_moved d index image reply d' :
  reset_install d image = Done (reply, d') -> hand_over d index (DResetInstall image) reply d'.
Proof.
  unfold reset_install. intros H.
  apply Outcome_bind_Done in H as ([slot sd] & Hx%ok_or_Done & H). cbn [sh_slot] in H.
  destruct slot as [| |old stored prev| |]; try discriminate.
  apply Outcome_bind_Done in H as ([] & G%refuse_if_Done & H). bool_inv. subst old.
  injection H as <- <-. eapply hand_over_put_slot; [exact Hx|]. by constructor.
Qed.

Lemma finish_install_moved d index id reply d' :
  finish_install d (mkOrigin (dm_group d) index) id = Done (reply, d') ->
  hand_over d index (DFinishInstall id) reply d'.
Proof.
  unfold finish_install. intros H.
  apply Outcome_bind_Done in H as ([slot sd] & Hx%ok_or_Done & H). cbn [sh_slot] in H.
  destruct slot as [| |image stored prev|p prev|]; try discriminate.
  2:{ case_match; [|discriminate]. by injection H as <- <-. }
  apply Outcome_bind_Done in H as ([] & G%refuse_if_Done & H).
  apply Outcome_bind_Done in H as (body & Hb%ok_or_Done & H).
  apply Outcome_bind_Done in H as ([] & G2%refuse_if_Done & H).
  apply Outcome_bind_Done in H as (bs & [-> Hl]%canonical_bytes_Done & H).
  apply Outcome_bind_Done in H as ([] & G3%refuse_if_Done & H). bool_inv. subst id.
  injection H as <- <-. eapply hand_over_put_shard. rewrite Hx. constructor; try done.
  destruct body; cbn in *. congruence.
Qed.

Lemma activate_moved d index ownership reply d' :
  activate d (mkOrigin (dm_group d) index) ownership = Done (reply, d') ->
  hand_over d index (DActivate ownership) reply d'.
Proof.
  unfold activate. intros H.
  apply Outcome_bind_Done in H as ([] & G%refuse_if_Done & H). bool_inv.
  apply Outcome_bind_Done in H as ([slot sd] & Hx%ok_or_Done & H). cbn [sh_slot] in H.
  destruct slot as [e [old|]| | |p prev|]; try discriminate.
  { case_match; [|discriminate]. by injection H as <- <-. }
  apply Outcome_bind_Done in H as ([] & G2%refuse_if_Done & H). bool_inv. subst p.
  injection H as <- <-. eapply hand_over_put_slot; [exact Hx|].
  by apply step_activate.
Qed.

Lemma cleanup_moved d index activation reply d' :
  cleanup d (mkOrigin (dm_group d) index) activation = Done (reply, d') ->
  hand_over d index (DCleanup activation) reply d'.
Proof.
  unfold cleanup. intros H.
  apply Outcome_bind_Done in H as ([] & G%refuse_if_Done & H). bool_inv.
  apply Outcome_bind_Done in H as ([slot sd] & Hx%ok_or_Done & H). cbn [sh_slot] in H.
  destruct slot as [|old prev| | |act cleaned]; try discriminate.
  2:{ case_match; [|discriminate]. by injection H as <- <-. }
  destruct (old ==? ac_image activation) eqn:E; [|discriminate]. bool_inv. subst old.
  injection H as <- <-. eapply hand_over_put_shard. rewrite Hx. by constructor.
Qed.

Lemma abort_source_moved d index abort d' record :
  mv_source (ab_movement abort) = dm_group d -> abort_source d abort = Done d' ->
  hand_over d index (DAbortTransfer abort) (DRAborted record) d'.
Proof.
  unfold abort_source. intros Hg H.
  apply Outcome_bind_Done in H as ([slot sd] & Hx%ok_or_Done & H). cbn [sh_slot sh_data] in H.
  apply Outcome_bind_Done in H as (next & Hn & H).
  apply Outcome_bind_Done in H as ([] & G%refuse_if_Done & H). injection H as <-.
  destruct sd as [data|]; [|discriminate].
  destruct slot as [e a|image prev| | |]; try discriminate.
  - case_match; [|discriminate]. by injection Hn as <-.
  - destruct (ip_movement image ==? ab_movement abort) eqn:E; [|discriminate]. bool_inv.
    injection Hn as <-. eapply hand_over_put_slot; [exact Hx|]. by constructor.
Qed.

Lemma abort_destination_moved d index abort d' record :
  mv_source (ab_movement abort) <> dm_group d -> abort_destination d abort = Done d' ->
  hand_over d index (DAbortTransfer abort) (DRAborted record) d'.
Proof.
  unfold abort_destination. intros Hg H.
  set (x := ti_shard (mv_id (ab_movement abort))) in *.
  assert (Hu : forall previous sh, dm_shards d !! x = Some sh ->
    slot_step d index x (DAbortTransfer abort) (DRAborted record) (Some sh) (undo_install previous) ->
    hand_over d index (DAbortTransfer abort) (DRAborted record)
      match previous with
      | Some old => put_shard d x (mkShard (SRetired (rs_activation old) (rs_cleaned old)) None)
      | None => d <| dm_shards := delete x (dm_shards d) |>
      end).
  { intros [old|] sh Hx Hs; [apply hand_over_put_shard; by rewrite Hx|].
    split; [|done]. apply (moved_at _ _ _ _ _ x).
    - intros y Hne. apply lookup_delete_ne. congruence.
    - cbn [upd dm_shards]. by rewrite lookup_delete_eq, Hx. }
  destruct (dm_shards d !! x) as [[slot sd]|] eqn:Hx; cbn [fmap option_fmap option_map sh_slot] in H;
    [|by injection H as <-].
  destruct slot as [| |image stored prev|p prev|act cleaned]; try discriminate.
  - destruct (ip_movement image ==? ab_movement abort) eqn:E; [|discriminate]. bool_inv.
    injection H as <-. eapply Hu; [done|]. by constructor.
  - destruct (ip_movement (in_image p) ==? ab_movement abort) eqn:E; [|discriminate]. bool_inv.
    injection H as <-. eapply Hu; [done|]. by constructor.
  - case_match; [|discriminate]. by injection H as <-.
Qed.

Lemma abort_moved d index abort reply d' :
  abort_transfer d (mkOrigin (dm_group d) index) abort = Done (reply, d') ->
  moved d index (DAbortTransfer abort) reply d' /\ same_machine d d'
  /\ aborts_after d index (DAbortTransfer abort) d'
  /\ exists record, reply = DRAborted record
       /\ dm_aborted d' !! transfer_key (mv_id (ab_movement abort)) = Some record.
Proof.
  unfold abort_transfer. intros H.
  apply Outcome_bind_Done in H as ([] & G%refuse_if_Done & H). bool_inv. rewrite contains_true in *.
  assert (Hend : dm_group d = mv_source (ab_movement abort) \/ dm_group d = mv_destination (ab_movement abort)).
  { match goal with H : _ ∈ [_; _] |- _ => apply elem_of_cons in H as [H|H%list_elem_of_singleton] end; auto. }
  destruct (dm_aborted d !! _) as [r|] eqn:Hr.
  { case_match; [|discriminate]. bool_inv. injection H as <- <-.
    split_and!; eauto using moved_refl, same_machine_refl.
    split_and!; try done. right. eauto. }
  apply Outcome_bind_Done in H as ([] & _ & H).
  apply Outcome_bind_Done in H as (next & Hn & H).
  apply Outcome_bind_Done in H as (room & _ & H).
  apply Outcome_bind_Done in H as (bs & _ & H). injection H as <- <-.
  assert (Ho : hand_over d index (DAbortTransfer abort) (DRAborted (mkAbortRecord abort (mkOrigin (dm_group d) index))) next).
  { destruct (dm_group d =? _) eqn:E; bool_inv;
      [apply abort_source_moved|apply abort_destination_moved]; congruence. }
  destruct Ho as (Hm & Hs & Ha). split_and!; try done.
  - split_and!; try done. left. cbn [upd dm_aborted]. by rewrite Ha.
  - eexists. split; [done|]. cbn [upd dm_aborted]. by rewrite lookup_insert_eq.
Qed.

(** Every accepted command of an initialized group. *)
Lemma data_execute_steps d index command reply d' :
  dm_initialized_at d <> None -> data_execute d index command = Done (reply, d') ->
  moved d index command reply d' /\ same_machine d d' /\ aborts_after d index command d'.
Proof.
  intros Hi H. unfold data_execute in H.
  assert (Ho : forall P : Prop, hand_over d index command reply d' ->
    (forall abort, command <> DAbortTransfer abort) ->
    is_some_and (data_command_id command) (fun id => is_some (dm_aborted d !! transfer_key id)) = false ->
    moved d index command reply d' /\ same_machine d d' /\ aborts_after d index command d').
  { intros _ (Hm & Hs & Ha) Hn Hf. split_and!; try done. rewrite is_some_and_false in Hf.
    assert (Hid : forall id, data_command_id command = Some id -> dm_aborted d !! transfer_key id = None).
    { intros id E. specialize (Hf id E). by destruct (dm_aborted d !! _). }
    destruct command; try done. by destruct (Hn abort). }
  destruct command; [unfold data_initialize in H; by destruct (dm_initialized_at d)|..];
    (destruct (dm_initialized_at d); [|done]); cbn [is_none is_some negb] in H;
    (destruct (is_some_and _ _) eqn:Hf; [discriminate|]).
  - apply Outcome_bind_Done in H as ([] & G%refuse_if_Done & H). bool_inv.
    apply (Ho True); [|done|done]. eapply on_active_moved; [|exact H]. by constructor.
  - apply (Ho True); [|done|done]. eapply on_active_moved; [|exact H]. by constructor.
  - apply Outcome_bind_Done in H as ([] & G%refuse_if_Done & H). bool_inv.
    apply Outcome_bind_Done in H as (payload & [-> _]%canonical_bytes_Done & H).
    apply (Ho True); [|done|done]. eapply on_active_moved; [|exact H]. by constructor.
  - apply (Ho True); [by apply fence_moved|done|done].
  - apply (Ho True); [by apply begin_install_moved|done|done].
  - apply (Ho True); [by apply reset_install_moved|done|done].
  - apply (Ho True); [by apply chunk_moved|done|done].
  - apply (Ho True); [by apply finish_install_moved|done|done].
  - apply (Ho True); [by apply activate_moved|done|done].
  - apply (Ho True); [by apply cleanup_moved|done|done].
  - apply abort_moved in H as (? & ? & ? & _). by split_and!.
Qed.
End steps.

(** * What a shard promises its clients

    A shard's data, apart from where it is held: the sessions only grow, an answered
    request is remembered ([remembers]), and the same request again changes nothing
    and gets the same answer ([client_retry]). *)
(** ** Sessions that only grow *)

Record session_kept (s s' : Session) : Prop := {
  sp_id : se_id s' = se_id s;
  sp_nonce : se_nonce s' = se_nonce s;
  sp_registered : se_registered s' = se_registered s;
  sp_closed : stays (se_closed s) (se_closed s');
  sp_keys : forall key c, se_keys s !! key = Some c -> exists c', se_keys s' !! key = Some c'
    /\ ca_sequence c <= ca_sequence c' /\ (ca_sequence c' = ca_sequence c -> c' = c);
}.
#[export] Instance session_kept_preorder : PreOrder session_kept.
Proof.
  split.
  - intros s. split; try done. intros key c Hc. exists c. split_and!; [done|lia|done].
  - intros s1 s2 s3 [A1 A2 A3 A4 A5] [B1 B2 B3 B4 B5]. split; [congruence..|by etrans|].
    intros key c Hc. destruct (A5 key c Hc) as (c2 & H2 & L2 & E2).
    destruct (B5 key c2 H2) as (c3 & H3 & L3 & E3). exists c3. split_and!; [done|lia|].
    intros E. rewrite E3 by lia. apply E2. lia.
Qed.

Record data_kept (d d' : ShardData) : Prop := {
  dk_nonces : forall nonce, stays (sd_nonces d !! nonce) (sd_nonces d' !! nonce);
  dk_sessions : forall key s, sd_sessions d !! key = Some s ->
    exists s', sd_sessions d' !! key = Some s' /\ session_kept s s';
}.
#[export] Instance data_kept_preorder : PreOrder data_kept.
Proof.
  split.
  - intros d. split; [done|]. intros key s Hs. by exists s.
  - intros d1 d2 d3 [A1 A2] [B1 B2]. split.
    + intros n. etrans; [apply A1|apply B1].
    + intros key s Hs. destruct (A2 key s Hs) as (s2 & H2 & K2).
      destruct (B2 key s2 H2) as (s3 & H3 & K3). exists s3. split; [done|by etrans].
Qed.

(** Storing a session that keeps the old one. *)
Lemma put_session_kept d key s s' cells :
  sd_sessions d !! key = Some s -> session_kept s s' ->
  data_kept d (mkShardData cells (<[key := s']> (sd_sessions d)) (sd_nonces d)).
Proof.
  intros Hs K. split; [done|]. cbn. intros k u Hu. destruct (decide (k = key)) as [->|Hne].
  - rewrite lookup_insert_eq. exists s'. by simplify_eq.
  - rewrite lookup_insert_ne by done. by exists u.
Qed.

(** ** Requests and their answers *)

(** A client's request, whatever route it believes in. *)
Definition same_request (command command' : DataCommand) : Prop :=
  match command, command' with
  | DRegister x _ nonce, DRegister x' _ nonce' => x = x' /\ nonce = nonce'
  | DClose x _ session, DClose x' _ session' => x = x' /\ session = session'
  | DMutate x _ session key sequence _, DMutate x' _ session' key' sequence' _ =>
      x = x' /\ session = session' /\ key = key' /\ sequence = sequence'
  | _, _ => False
  end.
Definition client_shard (command : DataCommand) : option ShardId :=
  match command with
  | DRegister x _ _ | DClose x _ _ | DMutate x _ _ _ _ _ => Some x
  | _ => None
  end.
Definition client_epoch (command : DataCommand) : N :=
  match command with
  | DRegister _ e _ | DClose _ e _ | DMutate _ e _ _ _ _ => e
  | _ => 0
  end.

(** The data remembers the answer to a request. *)
Definition remembers (data : ShardData) (command : DataCommand) (reply : DataReply) : Prop :=
  match command with
  | DRegister _ _ nonce => exists id s, sd_nonces data !! nonce = Some id
      /\ sd_sessions data !! origin_key id = Some s /\ reply = DRReceipt (se_registered s)
  | DClose _ _ session => exists s r, sd_sessions data !! origin_key session = Some s
      /\ se_closed s = Some r /\ reply = DRReceipt r
  | DMutate _ _ session key sequence _ => exists s c, sd_sessions data !! origin_key session = Some s
      /\ se_keys s !! key = Some c /\ sequence <= ca_sequence c
      /\ (ca_sequence c = sequence -> reply = DRReceipt (ca_receipt c))
  | _ => False
  end.

Lemma remembers_kept data data' command reply :
  data_kept data data' -> remembers data command reply -> remembers data' command reply.
Proof.
  intros [K1 K2] H. destruct command; cbn in *; try done.
  - destruct H as (id & s & Hn & Hs & ->). destruct (K2 _ _ Hs) as (s' & Hs' & K).
    exists id, s'. split_and!; [by apply K1|done|by rewrite (sp_registered _ _ K)].
  - destruct H as (s & r & Hs & Hc & ->). destruct (K2 _ _ Hs) as (s' & Hs' & K).
    exists s', r. split_and!; [done|by apply (sp_closed _ _ K)|done].
  - destruct H as (s & c & Hs & Hc & Hle & Hr). destruct (K2 _ _ Hs) as (s' & Hs' & K).
    destruct (sp_keys _ _ K _ _ Hc) as (c' & Hc' & Hle' & Heq). exists s', c'. split_and!; [done..|lia|].
    intros E. rewrite Heq by lia. apply Hr. lia.
Qed.

(** As many nonces as sessions: a new nonce is a new session. *)
Definition balanced (data : ShardData) : Prop := size (sd_nonces data) = size (sd_sessions data).

Section spec.
Context `{Fmt : TypeFormats} `{DFmt : DataFormats}.

Lemma client_step_kept d index command x e data reply data' :
  client_step d index command x e data reply data' -> balanced data -> balanced data' ->
  data_kept data data'.
Proof.
  intros [y f nonce dt rp dt' _ _ H|y f session dt rp dt' H|y f session key sequence value dt rp dt' _ _ H] Hb Hb'.
  - unfold register in H. destruct (sd_nonces dt !! nonce) as [id|] eqn:Hn.
    + apply Outcome_bind_Done in H as (? & _ & H). by injection H as _ <-.
    + injection H as _ <-. unfold balanced in *. cbn [upd sd_nonces sd_sessions] in Hb'.
      rewrite map_size_insert_None in Hb' by done.
      destruct (sd_sessions dt !! origin_key (mkOrigin (dm_group d) index)) as [s|] eqn:Hs.
      { rewrite map_size_insert_Some in Hb' by by exists s. lia. }
      split; cbn [upd sd_nonces sd_sessions].
      * intros n a Ha. rewrite lookup_insert_ne; [done|]. intros ->. congruence.
      * intros k s Hk. exists s. split; [|done]. rewrite lookup_insert_ne; [done|]. intros <-. congruence.
  - unfold close in H. apply Outcome_bind_Done in H as (s & Hs%ok_or_Done & H).
    destruct (se_closed s) as [r|] eqn:Hc; injection H as _ <-; [done|].
    eapply put_session_kept; [done|]. split; cbn; try done.
    + by rewrite Hc.
    + intros k c Hk. exists c. split_and!; [done|lia|done].
  - unfold mutate in H. apply Outcome_bind_Done in H as (s & Hs%ok_or_Done & H).
    apply Outcome_bind_Done in H as ([] & _ & H).
    assert (K : forall c, (forall old, se_keys s !! key = Some old -> ca_sequence old < ca_sequence c) ->
      session_kept s (s <| se_keys := <[key := c]> (se_keys s) |>)).
    { intros c Hc. split; cbn; try done. intros k old Hk. destruct (decide (k = key)) as [->|Hne].
      - rewrite lookup_insert_eq. exists c. specialize (Hc old Hk). split_and!; [done|lia|lia].
      - rewrite lookup_insert_ne by done. exists old. split_and!; [done|lia|done]. }
    assert (Kd : forall c v, (forall old, se_keys s !! key = Some old -> ca_sequence old < ca_sequence c) ->
      data_kept dt (dt <| sd_sessions := <[origin_key session := s <| se_keys := <[key := c]> (se_keys s) |>]> (sd_sessions dt) |>
                       <| sd_cells := v |>)).
    { intros c v Hc. exact (put_session_kept dt _ s _ v Hs (K c Hc)). }
    clear K. destruct (se_keys s !! key) as [old|] eqn:Hk.
    + destruct (sequence =? ca_sequence old).
      * destruct (_ && _); [|discriminate]. by injection H as _ <-.
      * apply Outcome_bind_Done in H as ([] & _ & H). apply Outcome_bind_Done in H as ([] & G%refuse_if_Done & H).
        injection H as _ <-. bool_inv.
        match goal with A : checked_add _ _ = _ |- _ => apply checked_add_Some in A as [A _] end.
        apply Kd. intros o E. injection E as <-. cbn. lia.
    + apply Outcome_bind_Done in H as ([] & _ & H). injection H as _ <-.
      apply Kd. discriminate.
Qed.

Lemma client_step_remembers d index command x e data reply data' :
  client_step d index command x e data reply data' -> remembers data' command reply.
Proof.
  intros [y f nonce dt rp dt' _ _ H|y f session dt rp dt' H|y f session key sequence value dt rp dt' _ _ H]; cbn.
  - unfold register in H. destruct (sd_nonces dt !! nonce) as [id|] eqn:Hn.
    + apply Outcome_bind_Done in H as (s & Hs%or_panic_Done & H). injection H as <- <-. eauto.
    + injection H as <- <-. eexists _, _. cbn [upd sd_nonces sd_sessions].
      split_and!; [apply lookup_insert_eq..|done].
  - unfold close in H. apply Outcome_bind_Done in H as (s & Hs%ok_or_Done & H).
    destruct (se_closed s) as [r|] eqn:Hc; injection H as <- <-; [by exists s, r|].
    eexists _, _. cbn [upd sd_sessions]. split_and!; [apply lookup_insert_eq|done..].
  - unfold mutate in H. apply Outcome_bind_Done in H as (s & Hs%ok_or_Done & H).
    apply Outcome_bind_Done in H as ([] & _ & H).
    destruct (se_keys s !! key) as [old|] eqn:Hk.
    + destruct (N.eqb_spec sequence (ca_sequence old)) as [E|_].
      * destruct (_ && _); [|discriminate]. injection H as <- <-. exists s, old. split_and!; [done..|lia|done].
      * apply Outcome_bind_Done in H as ([] & _ & H). apply Outcome_bind_Done in H as ([] & _ & H).
        injection H as <- <-. eexists _, _. cbn [upd sd_sessions].
        split_and!; [apply lookup_insert_eq|apply lookup_insert_eq|cbn; lia|done].
    + apply Outcome_bind_Done in H as ([] & _ & H). injection H as <- <-. eexists _, _. cbn [upd sd_sessions].
      split_and!; [apply lookup_insert_eq|apply lookup_insert_eq|cbn; lia|done].
Qed.

(** The same request, answered again: nothing changes, and the answer is the same. *)
Lemma client_retry d index command x e data reply data' command0 reply0 :
  client_step d index command x e data reply data' ->
  same_request command0 command -> remembers data command0 reply0 ->
  reply = reply0 /\ data' = data.
Proof.
  intros [y f nonce dt rp dt' _ _ H|y f session dt rp dt' H|y f session key sequence value dt rp dt' _ _ H] Hsame;
    destruct command0; try done; cbn; cbn in Hsame.
  - destruct Hsame as [_ ->]. intros (id & s & Hn & Hs & ->). unfold register in H. rewrite Hn, Hs in H. cbn in H.
    by injection H as <- <-.
  - destruct Hsame as [_ ->]. intros (s & r & Hs & Hc & ->). unfold close in H. rewrite Hs in H. cbn in H.
    rewrite Hc in H. by injection H as <- <-.
  - destruct Hsame as (_ & -> & -> & ->). intros (s & c & Hs & Hc & Hle & Hr). unfold mutate in H.
    rewrite Hs in H. cbn in H. apply Outcome_bind_Done in H as ([] & _ & H). rewrite Hc in H.
    destruct (N.eqb_spec sequence (ca_sequence c)) as [E|Hne].
    + destruct (_ && _); [|discriminate]. injection H as <- <-. split; [|done]. symmetry. by apply Hr.
    + apply Outcome_bind_Done in H as ([] & G%refuse_if_Done & _). bool_inv. lia.
Qed.

(** An accepted request of a client: the shard is active here and made the step. *)
Lemma data_execute_client d index command x reply d' :
  client_shard command = Some x -> data_execute d index command = Done (reply, d') ->
  exists a data data', dm_shards d !! x = Some (mkShard (SActive (client_epoch command) a) (Some data))
    /\ client_step d index command x (client_epoch command) data reply data' /\ d' = put_data d x data'.
Proof.
  assert (Hon : forall y e f, on_active d y e f = Done (reply, d') -> exists a data data',
    dm_shards d !! y = Some (mkShard (SActive e a) (Some data)) /\ f data = Done (reply, data') /\ d' = put_data d y data').
  { intros y e f H. apply Outcome_bind_Done in H as (data & (a & Hx)%active_Done & H).
    apply Outcome_bind_Done in H as ([r data'] & Hr & H). injection H as -> <-. eauto 10. }
  intros Hc H. unfold data_execute in H. destruct command; try discriminate; injection Hc as ->;
    (destruct (is_none _); [discriminate|]); cbn [data_command_id is_some_and] in H.
  - apply Outcome_bind_Done in H as ([] & G%refuse_if_Done & H). bool_inv.
    apply Hon in H as (a & data & data' & Hx & Hf & ->). exists a, data, data'. split_and!; [done|by constructor|done].
  - apply Hon in H as (a & data & data' & Hx & Hf & ->). exists a, data, data'. split_and!; [done|by constructor|done].
  - apply Outcome_bind_Done in H as ([] & G%refuse_if_Done & H). bool_inv.
    apply Outcome_bind_Done in H as (payload & [-> _]%canonical_bytes_Done & H).
    apply Hon in H as (a & data & data' & Hx & Hf & ->). exists a, data, data'. split_and!; [done|by constructor|done].
Qed.
End spec.
