(* ===== verification/ShardGuarantees.v ===== *)
(** * What a data group guarantees

    Every machine that commands and watermarks reach passes its own validation,
    and no command or validation panics. *)
From S2P Require Import Prelude Types Membership ShardTypes Controller ControllerInv ShardData ShardDataInv ShardSteps.
Local Open Scope N_scope.
Local Open Scope raft_scope.

Section guarantees.
Context `{Fmt : TypeFormats} `{DFmt : DataFormats}.

(** The invariant of a data machine. *)
Record data_good (d : DataMachine) : Prop := {
  dg_applied : dm_applied d <= u64_max;
  dg_typed : typed d;
  dg_valid : data_validate d = Done tt;
}.

Lemma data_good_new g d : data_new g = Done d -> data_good d.
Proof.
  unfold data_new. destruct (g =? CONTROLLER) eqn:E; [discriminate|]. intros [= <-]. bool_inv. split.
  - by vm_compute.
  - intros key record Hk. cbn [dm_aborted] in Hk. by rewrite lookup_empty in Hk.
  - unfold data_validate. cbn [dm_group dm_initialized_at]. rewrite (proj2 (N.eqb_neq g CONTROLLER) E).
    done.
Qed.

(** Initialization: the machine it leaves. *)
Lemma data_initialize_Done d origin n groups owned reply d' :
  data_initialize d origin n groups owned = Done (reply, d') ->
  dm_initialized_at d = None /\ dm_initialized_at d' = Some origin /\ dm_group d' = dm_group d
  /\ dm_applied d' = dm_applied d /\ dm_shard_count d' = n /\ dm_groups d' = groups
  /\ dm_aborted d' = dm_aborted d
  /\ dm_shards d' = fold_left (fun shards shard =>
       <[shard := mkShard (SActive 1 None) (Some shard_data_default)]> shards) owned (dm_shards d).
Proof.
  unfold data_initialize. destruct (dm_initialized_at d) eqn:Hi; cbn [is_some]; [discriminate|].
  case_match; [discriminate|]. intros [= <- <-]. by split_and!.
Qed.

Lemma data_execute_frame d index command reply d' :
  data_execute d index command = Done (reply, d') ->
  dm_group d' = dm_group d /\ dm_applied d' = dm_applied d /\ dm_initialized_at d' <> None
  /\ (dm_initialized_at d <> None -> dm_initialized_at d' = dm_initialized_at d
        /\ dm_shard_count d' = dm_shard_count d /\ dm_groups d' = dm_groups d).
Proof.
  intros H. destruct (dm_initialized_at d) as [i|] eqn:Hi.
  - assert (Hn : dm_initialized_at d <> None) by congruence.
    destruct (data_execute_steps _ _ _ _ _ Hn H) as (_ & (? & ? & ? & ? & ?) & _).
    split_and!; try congruence. intros _. split_and!; congruence.
  - unfold data_execute in H. destruct command; rewrite ?Hi in H; cbn [is_none is_some negb] in H; try discriminate.
    apply data_initialize_Done in H as (_ & ? & ? & ? & _). split_and!; congruence.
Qed.

Lemma data_execute_typed d index command reply d' :
  typed d -> command_typed command -> data_execute d index command = Done (reply, d') -> typed d'.
Proof.
  intros Ht Hc H. destruct (dm_initialized_at d) as [i|] eqn:Hi.
  - assert (Hn : dm_initialized_at d <> None) by congruence.
    destruct (data_execute_steps _ _ _ _ _ Hn H) as (_ & _ & Ha).
    destruct command; try (by destruct Ha as [Ha _]; unfold typed; rewrite Ha).
    destruct Ha as (_ & _ & _ & [[E _]|[-> _]]); [|done]. unfold typed. rewrite E.
    intros key r [[<- <-]|[_ Hk]]%lookup_insert_Some; [exact Hc|by eapply Ht].
  - unfold data_execute in H. destruct command; rewrite ?Hi in H; cbn [is_none is_some negb] in H; try discriminate.
    apply data_initialize_Done in H as (_ & _ & _ & _ & _ & _ & E & _). unfold typed. by rewrite E.
Qed.

(** ** Application *)

Lemma data_apply_cases d index command r d' :
  data_apply d index command = Done (r, d') ->
  checked_add (dm_applied d) 1 = Some index
  /\ match r with
     | Done reply => data_execute (d <| dm_applied := index |>) index command = Done (reply, d')
                     /\ data_validate d' = Done tt
     | Refused _ => d' = d <| dm_applied := index |>
     | Panicked => False
     end.
Proof.
  unfold data_apply. destruct (negb _) eqn:Hg; [discriminate|]. bool_inv. intros Ha. split; [done|].
  destruct (data_execute _ _ _) as [[reply next]| |]; cbn [mbind Outcome_bind] in Ha;
    [|by injection Ha as <- <-|discriminate].
  destruct (data_validate next) as [[]| |] eqn:Hf; cbn [mbind Outcome_bind] in Ha;
    [by injection Ha as <- <-|by injection Ha as <- <-|discriminate].
Qed.

Lemma data_good_applied `{!DataLaws} d n :
  data_good d -> dm_applied d <= n <= u64_max -> data_good (d <| dm_applied := n |>).
Proof.
  intros [Ha Ht Hv] Hn. split; [apply Hn|exact Ht|]. by apply validate_data_later_watermark.
Qed.
Lemma data_apply_good `{!DataLaws} d index command r d' :
  data_good d -> command_typed command -> data_apply d index command = Done (r, d') -> data_good d'.
Proof.
  intros Hg Hc Ha. apply data_apply_cases in Ha as [[-> Hi]%checked_add_Some Ha].
  destruct r as [reply|e|]; [|subst; apply data_good_applied; [done|lia]|done].
  destruct Ha as [He Hv]. destruct (data_execute_frame _ _ _ _ _ He) as (_ & E & _). split; [|..|done].
  - rewrite E. cbn. lia.
  - eapply data_execute_typed; [|done|exact He]. apply (dg_typed _ Hg).
Qed.
Lemma data_advance_good `{!DataLaws} d index d' :
  data_good d -> data_advance d index = Done d' -> data_good d'.
Proof.
  unfold data_advance. intros Hg. destruct (negb _) eqn:E; [discriminate|]. intros [= <-]. bool_inv.
  match goal with H : checked_add _ _ = _ |- _ => apply checked_add_Some in H as [-> Hi] end.
  apply data_good_applied; [done|lia].
Qed.

(** ** No panic *)

Lemma on_active_no_panic d x e f :
  (forall data, active d x e = Done data -> f data <> Panicked) -> on_active d x e f <> Panicked.
Proof.
  intros Hf. unfold on_active. apply bind_no_panic.
  - unfold active. no_panic.
  - intros data Hd. apply bind_no_panic; [auto|]. by intros [].
Qed.
Lemma abort_destination_no_panic d abort : abort_destination d abort <> Panicked.
Proof. unfold abort_destination. repeat case_match; done. Qed.
Lemma abort_source_no_panic d abort : abort_source d abort <> Panicked.
Proof. unfold abort_source. no_panic. Qed.
#[local] Hint Resolve canonical_bytes_no_panic abort_source_no_panic abort_destination_no_panic : no_panic.

Lemma abort_transfer_no_panic d origin abort :
  abort_typed abort -> abort_transfer d origin abort <> Panicked.
Proof.
  intros Ht. unfold abort_transfer.
  apply bind_no_panic; [auto with no_panic|]. intros [] G%refuse_if_Done. bool_inv.
  match goal with H : movement_valid _ _ = true |- _ => apply movement_valid_bounds in H as (Hs & He & _) end.
  match goal with H : abort_valid _ = true |- _ => unfold abort_valid in H end. bool_inv.
  unfold abort_typed in Ht. destruct (dm_aborted d !! _); [by case_match|].
  apply bind_no_panic; [auto with no_panic|]. intros _ _.
  apply bind_no_panic; [case_match; auto with no_panic|]. intros next _.
  apply bind_no_panic; [apply record_room_Done; try done; lia|]. intros room _.
  apply bind_no_panic; [auto with no_panic|done].
Qed.

Lemma data_execute_no_panic d index command :
  data_validate d = Done tt -> command_typed command -> data_execute d index command <> Panicked.
Proof.
  intros Hv Hc. unfold data_execute.
  destruct command; [by unfold data_initialize; repeat case_match|..];
    (destruct (is_none _); [done|]); (destruct (is_some_and _ _); [done|]).
  - apply bind_no_panic; [auto with no_panic|]. intros _ _. apply on_active_no_panic.
    intros data (a & Hx)%active_Done. apply (register_no_panic d).
    by apply (validated_shard d shard _ Hv Hx).
  - apply on_active_no_panic. intros data _. unfold close. no_panic.
  - apply bind_no_panic; [auto with no_panic|]. intros _ _.
    apply bind_no_panic; [auto with no_panic|]. intros payload _.
    apply on_active_no_panic. intros data _. unfold mutate. cbv zeta. no_panic.
  - unfold fence. cbv zeta. no_panic; unfold active; no_panic.
  - unfold begin_install. cbv zeta. no_panic.
  - unfold reset_install. no_panic.
  - unfold chunk. no_panic.
  - unfold finish_install. cbv zeta. no_panic.
  - unfold activate. cbv zeta. no_panic.
  - unfold cleanup. cbv zeta. no_panic.
  - by apply abort_transfer_no_panic.
Qed.

Lemma data_apply_no_panic `{!DataLaws} d index command :
  data_good d -> command_typed command -> data_apply d index command <> Panicked.
Proof.
  intros Hg Hc. unfold data_apply. destruct (negb _) eqn:E; [done|]. bool_inv.
  match goal with H : checked_add _ _ = _ |- _ => apply checked_add_Some in H as [-> Hi] end.
  assert (Hg' : data_good (d <| dm_applied := dm_applied d + 1 |>)) by (apply data_good_applied; [done|lia]).
  pose proof (data_execute_no_panic _ (dm_applied d + 1) command (dg_valid _ Hg') Hc) as Hp.
  destruct (data_execute _ _ _) as [[reply next]| |] eqn:He; cbn [mbind Outcome_bind]; [|done|done].
  pose proof (data_execute_typed _ _ _ _ _ (dg_typed _ Hg') Hc He) as Ht.
  pose proof (data_validate_no_panic next Ht). by destruct (data_validate next).
Qed.

(** ** Reachable machines *)

Inductive data_reachable : DataMachine -> Prop :=
| dreach_new g d : data_new g = Done d -> data_reachable d
| dreach_apply d index command r d' :
    data_reachable d -> command_typed command -> data_apply d index command = Done (r, d') ->
    data_reachable d'
| dreach_advance d index d' :
    data_reachable d -> data_advance d index = Done d' -> data_reachable d'.

Lemma data_reachable_good `{!DataLaws} d : data_reachable d -> data_good d.
Proof. induction 1; eauto using data_good_new, data_apply_good, data_advance_good. Qed.

(** (C15) Every state of a data group that commands and watermarks can reach passes
    its own validation, so that its snapshot is written and read back, and no
    command panics in it: the indexing, the subtractions and the [expect]s of the
    handlers are safe. *)
Theorem data_reachable_valid `{!DataLaws} d index command :
  data_reachable d -> command_typed command ->
  data_validate d = Done tt /\ data_apply d index command <> Panicked.
Proof.
  intros Hd Hc. apply data_reachable_good in Hd. split; [by destruct Hd|by apply data_apply_no_panic].
Qed.
End guarantees.

(** * When a data group accepts a hand-over command

    The other side of [ShardSteps]: a command whose transfer, proofs and slot are in
    order is executed, or there is no room for it. *)
(** The slot of an installation. *)
Definition installs (sh : Shard) : bool :=
  match sh_slot sh with SInstalling _ _ _ | SInstalled _ _ => true | _ => false end.

Section accepts.
Context `{Fmt : TypeFormats} `{DFmt : DataFormats}.
Variables (d : DataMachine) (index : N).
Hypothesis Hin : dm_initialized_at d <> None.

(** Executed with a result that satisfies [P], or refused for lack of room. *)
Definition accepts (command : DataCommand) (P : DataMachine -> Prop) : Prop :=
  data_execute d index command = Refused ECapacity
  \/ exists reply d', data_execute d index command = Done (reply, d') /\ P d'.

Notation origin := (mkOrigin (dm_group d) index).

Lemma accepts_fence m a data :
  movement_valid d m = true -> mv_source m = dm_group d -> dm_aborted d !! transfer_key (mv_id m) = None ->
  dm_shards d !! ti_shard (mv_id m) = Some (mkShard (SActive (mv_previous_epoch m) a) (Some data)) ->
  accepts (DFence m) (fun d' => exists image,
    dm_shards d' !! ti_shard (mv_id m) = Some (mkShard (SFenced image a) (Some data))).
Proof using Hin.
  intros Hm Hs Ha Hx. unfold accepts, data_execute. destruct (dm_initialized_at d); [|done].
  cbn [is_none is_some negb data_command_id is_some_and]. rewrite Ha. cbn [is_some].
  unfold fence. rewrite Hm, Hs, N.eqb_refl. cbn [negb orb refuse_if mbind Outcome_bind].
  rewrite Hx. cbn [ok_or mbind Outcome_bind sh_slot]. unfold active. rewrite Hx.
  cbn [ok_or mbind Outcome_bind sh_slot sh_data].
  rewrite N.eqb_refl. cbn [ok_or mbind Outcome_bind].
  rewrite canonical_bytes_spec. destruct (_ <? _); [by left|right]. cbn [mbind Outcome_bind].
  do 2 eexists. split; [done|]. eexists. cbn. rewrite lookup_alter_eq, Hx. done.
Qed.

Lemma accepts_begin image :
  image_valid image = true -> movement_valid d (ip_movement image) = true ->
  mv_destination (ip_movement image) = dm_group d ->
  dm_aborted d !! transfer_key (mv_id (ip_movement image)) = None ->
  (forall y sh, dm_shards d !! y = Some sh -> installs sh = false) ->
  (dm_shards d !! ti_shard (mv_id (ip_movement image)) = None \/ exists a cleaned sd,
     dm_shards d !! ti_shard (mv_id (ip_movement image)) = Some (mkShard (SRetired a cleaned) sd)
     /\ ti_epoch (ac_id a) < ti_epoch (mv_id (ip_movement image))) ->
  accepts (DBeginInstall image) (fun d' => exists previous,
    dm_shards d' !! ti_shard (mv_id (ip_movement image)) = Some (mkShard (SInstalling image [] previous) None)).
Proof using Hin.
  intros Hi Hm Hg Ha Hbusy Hx. right. unfold data_execute. destruct (dm_initialized_at d); [|done].
  cbn [is_none is_some negb data_command_id is_some_and]. rewrite Ha. cbn [is_some].
  unfold begin_install. rewrite Hm, Hg, N.eqb_refl, Hi. cbn [negb orb refuse_if mbind Outcome_bind].
  assert (E : existsb (fun '(_, s) => match sh_slot s with
    | SInstalling _ _ _ | SInstalled _ _ => true | _ => false end) (nmap_iter (dm_shards d)) = false).
  { apply not_true_iff_false. intros ([y sh] & Hy & Hb)%existsb_exists.
    apply list_elem_of_In, (elem_of_btree_iter N.le) in Hy. specialize (Hbusy y sh Hy). unfold installs in Hbusy. congruence. }
  destruct Hx as [Hx|(a & cl & sd & Hx & Hlt)]; rewrite Hx; cbn [fmap option_fmap option_map sh_slot].
  - rewrite E. cbn. do 2 eexists. split; [done|]. eexists. apply lookup_insert_eq.
  - apply N.ltb_lt in Hlt. rewrite Hlt, E. cbn. do 2 eexists. split; [done|]. eexists. apply lookup_insert_eq.
Qed.

Lemma accepts_chunk image stored previous sd bytes :
  dm_aborted d !! transfer_key (mv_id (ip_movement image)) = None ->
  dm_shards d !! ti_shard (mv_id (ip_movement image)) = Some (mkShard (SInstalling image stored previous) sd) ->
  bytes <> [] -> len64 bytes <= CHUNK_BYTES -> len64 stored + len64 bytes <= ip_bytes image ->
  ip_bytes image <= u64_max ->
  accepts (DChunk (mv_id (ip_movement image)) (len64 stored) bytes) (fun d' =>
    dm_shards d' !! ti_shard (mv_id (ip_movement image)) = Some (mkShard (SInstalling image (stored ++ bytes) previous) sd)).
Proof using Hin.
  intros Ha Hx Hne Hlen Hfit Hmax. right. unfold data_execute. destruct (dm_initialized_at d); [|done].
  cbn [is_none is_some negb data_command_id is_some_and]. rewrite Ha. cbn [is_some].
  unfold chunk. rewrite bool_decide_eq_false_2 by done. rewrite (proj2 (N.ltb_ge _ _) Hlen).
  cbn [orb refuse_if mbind Outcome_bind]. rewrite Hx. cbn [ok_or mbind Outcome_bind sh_slot].
  rewrite (proj2 (eqb_true _ _) eq_refl). cbn [negb refuse_if mbind Outcome_bind].
  assert (E : checked_add (len64 stored) (len64 bytes) = Some (len64 stored + len64 bytes)) by (apply checked_add_Some; lia).
  rewrite E. cbn [ok_or mbind Outcome_bind].
  rewrite (proj2 (N.ltb_ge _ _) Hfit), N.ltb_irrefl, N.eqb_refl. cbn [refuse_if mbind Outcome_bind].
  do 2 eexists. split; [done|]. unfold put_slot. cbn [upd dm_shards]. by rewrite lookup_alter_eq, Hx.
Qed.

Lemma accepts_finish `{!DataLaws} image stored previous sd data :
  dm_aborted d !! transfer_key (mv_id (ip_movement image)) = None ->
  dm_shards d !! ti_shard (mv_id (ip_movement image)) = Some (mkShard (SInstalling image stored previous) sd) ->
  image_of d image data ->
  stored = to_vec (mkShardImage 1 (ip_movement image) (ip_fence image) (dm_shard_count d) data) ->
  accepts (DFinishInstall (mv_id (ip_movement image))) (fun d' =>
    dm_shards d' !! ti_shard (mv_id (ip_movement image))
    = Some (mkShard (SInstalled (mkInstalledProof image origin) previous) (Some data))).
Proof using Hin.
  intros Ha Hx (Hlen & Hsha & Hret) Hst. unfold accepts, data_execute. destruct (dm_initialized_at d); [|done].
  cbn [is_none is_some negb data_command_id is_some_and]. rewrite Ha. cbn [is_some].
  unfold finish_install. rewrite Hx. cbn [ok_or mbind Outcome_bind sh_slot].
  rewrite <- Hst in Hlen, Hsha. rewrite Hlen, Hsha, N.eqb_refl, !(proj2 (eqb_true _ _) eq_refl).
  cbn [negb orb refuse_if mbind Outcome_bind]. rewrite Hst, image_roundtrip.
  cbn [ok_or mbind Outcome_bind si_version si_proof_identity si_fence si_shard_count si_data].
  rewrite Hret, !N.eqb_refl, !(proj2 (eqb_true _ _) eq_refl). cbn [negb orb refuse_if mbind Outcome_bind].
  rewrite canonical_bytes_spec. destruct (_ <? _); [by left|right]. cbn [mbind Outcome_bind].
  rewrite (proj2 (eqb_true _ _) eq_refl). cbn [negb refuse_if mbind Outcome_bind].
  do 2 eexists. split; [done|]. unfold put_shard. cbn [upd dm_shards]. by rewrite lookup_insert_eq.
Qed.

Lemma accepts_activate o previous sd :
  ownership_valid o = true -> mv_destination (ip_movement (ow_image o)) = dm_group d ->
  dm_aborted d !! transfer_key (mv_id (ip_movement (ow_image o))) = None ->
  dm_shards d !! ti_shard (mv_id (ip_movement (ow_image o))) = Some (mkShard (SInstalled (ow_installation o) previous) sd) ->
  accepts (DActivate o) (fun d' => exists e a,
    dm_shards d' !! ti_shard (mv_id (ip_movement (ow_image o))) = Some (mkShard (SActive e a) sd)).
Proof using Hin.
  intros Hv Hg Ha Hx. right. unfold data_execute. destruct (dm_initialized_at d); [|done].
  cbn [is_none is_some negb data_command_id is_some_and]. rewrite Ha. cbn [is_some].
  unfold activate. rewrite Hv, Hg, N.eqb_refl. cbn [negb orb refuse_if mbind Outcome_bind].
  rewrite Hx. cbn [ok_or mbind Outcome_bind sh_slot]. rewrite (proj2 (eqb_true _ _) eq_refl).
  cbn [negb refuse_if mbind Outcome_bind]. do 2 eexists. split; [done|]. do 2 eexists. unfold put_slot. cbn [upd dm_shards].
  by rewrite lookup_alter_eq, Hx.
Qed.

Lemma accepts_cleanup a previous sd :
  activation_valid a = true -> mv_source (ip_movement (ac_image a)) = dm_group d ->
  dm_aborted d !! transfer_key (ac_id a) = None ->
  dm_shards d !! ti_shard (ac_id a) = Some (mkShard (SFenced (ac_image a) previous) sd) ->
  accepts (DCleanup a) (fun d' => exists cleaned,
    dm_shards d' !! ti_shard (ac_id a) = Some (mkShard (SRetired a cleaned) None)).
Proof using Hin.
  intros Hv Hg Ha Hx. right. unfold data_execute. destruct (dm_initialized_at d); [|done].
  cbn [is_none is_some negb data_command_id is_some_and]. rewrite Ha. cbn [is_some].
  unfold cleanup. rewrite Hv, Hg, N.eqb_refl. cbn [negb orb refuse_if mbind Outcome_bind].
  rewrite Hx. cbn [ok_or mbind Outcome_bind sh_slot]. rewrite (proj2 (eqb_true _ _) eq_refl).
  do 2 eexists. split; [done|]. eexists. unfold put_shard. cbn [upd dm_shards]. by rewrite lookup_insert_eq.
Qed.

(** An abort at an endpoint whose slot is the transfer's, or was not touched by it. *)
Lemma accepts_abort ab :
  abort_valid ab = true -> abort_typed ab -> movement_valid d (ab_movement ab) = true ->
  dm_aborted d !! transfer_key (mv_id (ab_movement ab)) = None ->
  (mv_source (ab_movement ab) = dm_group d
   /\ ((exists a sd, dm_shards d !! ti_shard (mv_id (ab_movement ab))
          = Some (mkShard (SActive (mv_previous_epoch (ab_movement ab)) a) (Some sd)))
       \/ exists image a sd, ip_movement image = ab_movement ab
            /\ dm_shards d !! ti_shard (mv_id (ab_movement ab)) = Some (mkShard (SFenced image a) (Some sd)))
   \/ mv_source (ab_movement ab) <> dm_group d /\ mv_destination (ab_movement ab) = dm_group d
   /\ (dm_shards d !! ti_shard (mv_id (ab_movement ab)) = None
       \/ (exists a cleaned sd, dm_shards d !! ti_shard (mv_id (ab_movement ab)) = Some (mkShard (SRetired a cleaned) sd)
             /\ ti_epoch (ac_id a) < ti_epoch (mv_id (ab_movement ab)))
       \/ (exists image bytes previous sd, ip_movement image = ab_movement ab
            /\ dm_shards d !! ti_shard (mv_id (ab_movement ab)) = Some (mkShard (SInstalling image bytes previous) sd))
       \/ exists p previous sd, ip_movement (in_image p) = ab_movement ab
            /\ dm_shards d !! ti_shard (mv_id (ab_movement ab)) = Some (mkShard (SInstalled p previous) sd))) ->
  accepts (DAbortTransfer ab) (fun d' => dm_aborted d' !! transfer_key (mv_id (ab_movement ab)) <> None).
Proof using Hin.
  intros Hv Hty Hm Ha Hx. unfold accepts, data_execute. destruct (dm_initialized_at d); [|done].
  cbn [is_none is_some negb data_command_id is_some_and]. unfold abort_transfer. rewrite Hv, Hm.
  assert (Hends : contains (dm_group d) [mv_source (ab_movement ab); mv_destination (ab_movement ab)] = true).
  { apply contains_true. destruct Hx as [[<- _]|(_ & <- & _)]; [left|right; left]. }
  rewrite Hends, Ha. cbn [negb orb refuse_if mbind Outcome_bind].
  destruct (MAX_TRANSFERS <=? _); [by left|]. cbn [refuse_if mbind Outcome_bind].
  assert (Hnext : exists next : DataMachine, (if dm_group d =? mv_source (ab_movement ab) then abort_source d ab
            else abort_destination d ab) = Done next /\ dm_aborted next = dm_aborted d).
  { destruct Hx as [[Es Hx]|(Hs & _ & Hx)].
    - rewrite Es, N.eqb_refl. unfold abort_source.
      destruct Hx as [(a & sd & Hx)|(image & a & sd & Em & Hx)]; rewrite Hx; cbn [ok_or mbind Outcome_bind sh_slot sh_data].
      + rewrite N.eqb_refl. cbn. eauto.
      + rewrite Em, (proj2 (eqb_true _ _) eq_refl). cbn. eauto.
    - rewrite (proj2 (N.eqb_neq _ _)) by congruence. unfold abort_destination.
      destruct Hx as [Hx|[(a & cl & sd & Hx & Hlt)|[(im & bs & pr & sd & Em & Hx)|(p & pr & sd & Em & Hx)]]];
        rewrite Hx; cbn [fmap option_fmap option_map sh_slot].
      + eauto.
      + apply N.ltb_lt in Hlt. rewrite Hlt. eauto.
      + rewrite Em, (proj2 (eqb_true _ _) eq_refl). destruct pr; eexists; (split; [done|done]).
      + rewrite Em, (proj2 (eqb_true _ _) eq_refl). destruct pr; eexists; (split; [done|done]). }
  destruct Hnext as (next & -> & Hna). cbn [mbind Outcome_bind].
  apply movement_valid_bounds in Hm as (B1 & B2 & _).
  assert (B3 : ti_controller_index (mv_id (ab_movement ab)) <= u64_max).
  { unfold abort_valid in Hv. bool_inv. unfold abort_typed in Hty. lia. }
  pose proof (record_room_Done (E := Error) (mv_id (ab_movement ab)) B1 B2 B3) as Hroom.
  destruct (record_room _) as [room|e|] eqn:Er; [|unfold record_room in Er; outcome_inv; exfalso|done].
  - cbn [mbind Outcome_bind]. rewrite canonical_bytes_spec. destruct (_ <? _); [by left|right].
    cbn [mbind Outcome_bind]. do 2 eexists. split; [done|]. cbn [upd dm_aborted]. by rewrite lookup_insert_eq.
  - revert Er. destruct (checked_sub _ _); cbn; [|done]. by destruct (checked_sub _ _).
Qed.
End accepts.
