(* ===== verification/ShardMachine.v ===== *)
(** * [shard-service/src/machine.rs] and [shard-service/src/query.rs]

    The replicated machine of one group, a controller or a data machine, behind one
    operation type; the log envelope operations travel in; and the queries a group
    answers once its read barrier completed. *)
From S2P Require Import Prelude Types Quorum Membership ShardTypes Controller ShardData.
Local Open Scope N_scope.
Local Open Scope raft_scope.

(** ** [machine.rs] *)

Definition ENVELOPE_KEY : string := "@micro-raft/shard-service/v1".

Inductive Machine : Type :=
| MController (c : Controller)
| MData (d : DataMachine).
#[export] Instance Machine_eq_dec : EqDecision Machine.
Proof. solve_decision. Defined.

Inductive Operation : Type :=
| OController (command : ControllerCommand)
| OData (command : DataCommand).

Record Envelope := mkEnvelope { en_version : N; en_group : GroupId; en_operation : Operation }.

Inductive Reply : Type :=
| RpController (reply : ControllerReply)
| RpData (reply : DataReply)
| RpRejected (error : Error)
| RpNoOp.

(** [Machine::new] *)
Definition machine_new (group : GroupId) : Outcome Error Machine :=
  if group =? CONTROLLER then Done (MController controller_default)
  else d ← data_new group; Done (MData d).
(** [Machine::group] *)
Definition machine_group (m : Machine) : GroupId :=
  match m with MController _ => CONTROLLER | MData d => dm_group d end.
(** [Machine::applied] *)
Definition machine_applied (m : Machine) : N :=
  match m with MController c => co_applied c | MData d => dm_applied d end.

(** [Operation::targets] *)
Definition targets (op : Operation) (group : GroupId) : bool :=
  match op with
  | OController _ => group =? CONTROLLER
  | OData _ => negb (group =? CONTROLLER)
  end.

(** The JSON of envelopes and of the log command that carries one;
    [String::from_utf8] and [str::as_bytes] relate its bytes and its text. *)
Class MachineFormats : Type := {
  #[global] envelope_serialize :: Serialize Envelope;
  #[global] command_serialize :: Serialize Command;
  from_str : string -> option Envelope;
  from_utf8 : Bytes -> option string;
}.

(** ** [query.rs] *)

Inductive Query : Type :=
| QMaintenanceGate
| QMaintenance (request_id : string)
| QMembership (request_id : option string)
| QConfiguration
| QPendingTransfers
| QAborted (id : TransferId)
| QRoute (shard : ShardId)
| QTransfer (request_id : string)
| QShard (shard : ShardId)
| QRead (shard : ShardId) (epoch : N) (key : string)
| QExport (id : TransferId) (offset : N).

Inductive ShardView : Type :=
| VUnassigned
| VActive (epoch : N) (activation : option ActivationProof)
| VFenced (image : ImageProof)
| VInstalling (image : ImageProof) (next_offset : N)
| VInstalled (installation : InstalledProof)
| VRetired (activation : ActivationProof) (cleaned : Origin).
#[export] Instance ShardView_eq_dec : EqDecision ShardView.
Proof. solve_decision. Defined.

Inductive Observed : Type :=
| ObMaintenanceGate (generation : option Origin) (active : option MaintenanceTicket)
    (handoff_pending : bool)
| ObMaintenance (ticket : option MaintenanceTicket)
| ObMembership (group : GroupId) (committed : CommittedMembership) (effective : MembershipState)
    (record : option AdminRecord)
| ObConfiguration (group : GroupId) (initialized_at : option Origin) (groups : list GroupId)
    (shard_count : N) (bootstrap_safe : bool)
| ObRoute (route : Route) (transfer : option Transfer)
| ObTransfer (transfer : option Transfer)
| ObPendingTransfers (transfers : list Transfer)
| ObAborted (group : GroupId) (record : option AbortRecord)
| ObShard (group : GroupId) (shard : ShardId) (ownership : ShardView)
| ObValue (group : GroupId) (shard : ShardId) (epoch : N) (key : string) (value : option string)
| ObExport (image : ImageProof) (offset : N) (bytes : Bytes).

(** [shards.len() as u16] *)
Definition as_u16 (n : N) : N := n mod 65536.

Definition shard_view (shard : option Shard) : ShardView :=
  match sh_slot <$> shard with
  | None => VUnassigned
  | Some (SActive epoch activation) => VActive epoch activation
  | Some (SFenced image _) => VFenced image
  | Some (SInstalling image bytes _) => VInstalling image (len64 bytes)
  | Some (SInstalled installation _) => VInstalled installation
  | Some (SRetired activation cleaned) => VRetired activation cleaned
  end.

Section machine.
Context `{Fmt : TypeFormats} `{SerC : Serialize Controller} `{DFmt : DataFormats}.

(** [Machine::validate] *)
Definition machine_validate (m : Machine) : Outcome string unit :=
  match m with MController c => validate c | MData d => data_validate d end.

(** [Machine::operation] *)
Definition operation (m : Machine) (index : N) (op : Operation) : Outcome string (Reply * Machine) :=
  let reply {A} (wrap : A -> Reply) (r : Outcome Error A) : Outcome string Reply :=
    match r with
    | Done a => Done (wrap a)
    | Refused e => Done (RpRejected e)
    | Panicked => Panicked
    end in
  match m, op with
  | MController c, OController command =>
      '(r, c) ← apply c index command;
      r ← reply RpController r;
      Done (r, MController c)
  | MData d, OData command =>
      '(r, d) ← data_apply d index command;
      r ← reply RpData r;
      Done (r, MData d)
  | _, _ => Refused "command targets a different machine kind"%string
  end.

(** [Machine::apply] *)
Definition machine_apply `{MachineFormats} (m : Machine) (entry : Entry) : Outcome string (Reply * Machine) :=
  match e_command entry with
  | NoOp | Configuration _ =>
      match m with
      | MController c => c ← advance c (e_index entry); Done (RpNoOp, MController c)
      | MData d => d ← data_advance d (e_index entry); Done (RpNoOp, MData d)
      end
  | Put key value =>
      if key ==? ENVELOPE_KEY then
        envelope ← ok_or (from_str value) "envelope"%string;
        refuse_if (negb (en_version envelope =? 1) || negb (en_group envelope =? machine_group m))
          "log envelope group/version mismatch"%string;;
        operation m (e_index entry) (en_operation envelope)
      else Refused "non-shard command in shard actor log"%string
  | _ => Refused "non-shard command in shard actor log"%string
  end.

(** [Operation::encode] *)
Definition encode `{MachineFormats} (op : Operation) (group : GroupId) : Outcome Error Command :=
  refuse_if (negb (targets op group)) EWrongGroup;;
  bytes ← canonical_bytes (mkEnvelope 1 group op) (512 * 1024);
  value ← ok_or (from_utf8 bytes) EInvalidInput;
  let command := Put ENVELOPE_KEY value in
  canonical_bytes command (480 * 1024);;
  Done command.

(** [Machine::query] *)
Definition query (m : Machine) (q : Query) : Outcome Error Observed :=
  match m, q with
  | MController c, QMaintenanceGate =>
      Done (ObMaintenanceGate (maintenance_generation c) (active_maintenance c) (handoff_pending c))
  | MController c, QMaintenance request_id =>
      refuse_if (negb (maintenance_request_id_valid request_id)) EInvalidInput;;
      Done (ObMaintenance (co_maintenance c !! request_id))
  | MController c, QConfiguration =>
      Done (ObConfiguration CONTROLLER (co_initialized_at c) (co_groups c)
              (as_u16 (len64 (co_routes c)))
              (bool_decide (co_transfers c = ∅) && bool_decide (co_maintenance c = ∅)))
  | MData d, QConfiguration =>
      Done (ObConfiguration (dm_group d) (dm_initialized_at d) (dm_groups d) (dm_shard_count d)
              (is_none (dm_initialized_at d)))
  | MController c, QPendingTransfers =>
      Done (ObPendingTransfers
              (List.filter (fun t => negb (complete t)) (smap_values (co_transfers c))))
  | MController c, QRoute shard =>
      route ← ok_or (co_routes c !! N.to_nat shard) EInvalidInput;
      let transfer :=
        id ← ro_transfer route;
        List.find (fun t => tr_id t ==? id) (smap_values (co_transfers c)) in
      Done (ObRoute route transfer)
  | MController c, QTransfer request_id =>
      refuse_if (128 <? str_len request_id) EInvalidInput;;
      Done (ObTransfer (co_transfers c !! request_id))
  | MData d, QAborted id =>
      refuse_if (negb (transfer_id_valid id)) EInvalidInput;;
      Done (ObAborted (dm_group d) (dm_aborted d !! transfer_key id))
  | MData d, QShard shard =>
      refuse_if (dm_shard_count d <=? shard) EInvalidInput;;
      Done (ObShard (dm_group d) shard (shard_view (dm_shards d !! shard)))
  | MData d, QRead shard epoch key =>
      value ← data_read d shard epoch key;
      Done (ObValue (dm_group d) shard epoch key value)
  | MData d, QExport id offset =>
      '(image, bytes) ← export d id offset;
      Done (ObExport image offset bytes)
  | _, _ => Refused EWrongGroup
  end.

(** ** The envelope *)

(** What the JSON library and UTF-8 promise: the text of an envelope is read back. *)
Class MachineLaws `{MachineFormats} : Prop :=
  envelope_roundtrip e s : from_utf8 (to_vec e) = Some s -> from_str s = Some e.

Context `{MFmt : MachineFormats}.

(** An encoded operation, once committed, is the operation. *)
Lemma encode_apply `{!MachineLaws} m op command index term :
  encode op (machine_group m) = Done command ->
  machine_apply m (mkEntry index term command) = operation m index op.
Proof.
  unfold encode. intros He.
  apply Outcome_bind_Done in He as ([] & _ & He).
  apply Outcome_bind_Done in He as (bs & [-> _]%canonical_bytes_Done & He).
  apply Outcome_bind_Done in He as (value & Hu%ok_or_Done & He).
  apply Outcome_bind_Done in He as (bs & _ & He). injection He as <-.
  unfold machine_apply. cbn [e_command e_index]. rewrite Prelude.eqb_refl.
  rewrite (envelope_roundtrip _ _ Hu). cbn. rewrite N.eqb_refl. cbn. done.
Qed.
End machine.
