(* ===== verification/Service.v ===== *)
(** * [shard-service/src/service.rs]: what the coordinator may propose

    Requests name a decision, never a proof: [prepare] reads the proofs it needs
    from the groups themselves through checked queries and returns the operation to
    propose, and [reconcile_once] chooses the next step of a hand-over.  An async
    function is a [Script]: what it asks, in order, and what it does with the
    answers. *)
From S2P Require Import Prelude Types Quorum Membership ShardTypes Topology Controller ShardData ShardMachine.
Local Open Scope N_scope.
Local Open Scope raft_scope.

(** ** Data *)

Inductive Response : Type :=
| RsApplied (group : GroupId) (index : N) (reply : Reply)
| RsMembershipApplied (group : GroupId) (request_id : string) (record : AdminRecord) (applied_index : N)
| RsChecked (group : GroupId) (node term index applied_index context : N) (observed : Observed)
| RsRejected (error : Error)
| RsNotLeader (leader_hint : option N)
| RsUnknown
| RsUnavailable (reason : string).

Inductive Step : Type :=
| StFence | StRecordFence | StBeginInstall | StPullChunk | StFinishInstall | StRecordInstalled
| StOwn | StActivate | StRecordActivated | StCleanup | StRecordCleanup | StComplete | StAbort
| StAbortSource | StAbortDestination | StRecordSourceAbort | StRecordDestinationAbort.
#[export] Instance Step_eq_dec : EqDecision Step.
Proof. solve_decision. Defined.

Inductive Action : Type :=
| ABeginMaintenance (request_id : string) (target : GroupId) (operation : AdminOperation)
| AApplyMaintenance (request_id : string)
| AReconcileMaintenance (request_id : string)
| ABootstrap
| ARegister (shard : ShardId) (epoch : N) (nonce : string)
| AClose (shard : ShardId) (epoch : N) (session : SessionId)
| AMutate (shard : ShardId) (epoch : N) (session : SessionId) (key : string) (sequence : N)
    (value : option string)
| ABeginMove (request_id : string) (shard : ShardId) (epoch : N) (destination : GroupId)
| AAdvance (request_id : string) (step : Step).

(** [capacity] *)
Definition capacity (r : Response) : bool :=
  match r with
  | RsRejected ECapacity => true
  | RsApplied _ _ (RpRejected ECapacity) => true
  | _ => false
  end.

(** ** Scripts *)

Inductive Script (A : Type) : Type :=
| Return (a : A)
| Respond (r : Response)
| Checked (group : GroupId) (q : Query) (k : Observed -> Script A)
| MembershipView (group : GroupId) (request_id : option string)
    (k : Origin -> MembershipState -> option AdminRecord -> Script A)
| ValidateEndpoints (group : GroupId) (operation : AdminOperation) (membership : MembershipState)
    (k : Script A).
Arguments Return {A} a.
Arguments Respond {A} r.
Arguments Checked {A} group q k.
Arguments MembershipView {A} group request_id k.
Arguments ValidateEndpoints {A} group operation membership k.

#[export] Instance Script_ret : MRet Script := @Return.
#[export] Instance Script_bind : MBind Script := fun A B f =>
  fix go s :=
    match s with
    | Return a => f a
    | Respond r => Respond r
    | Checked group q k => Checked group q (fun o => go (k o))
    | MembershipView group request_id k => MembershipView group request_id (fun a m r => go (k a m r))
    | ValidateEndpoints group operation membership k => ValidateEndpoints group operation membership (go k)
    end.

(** What the groups may answer. *)
Record Answers := mkAnswers {
  an_checked : GroupId -> Query -> Observed -> Prop;
  an_membership : GroupId -> option string -> Origin -> MembershipState -> option AdminRecord -> Prop;
}.

(** The results a script can return when each question is answered so. *)
Inductive returns {A} (ans : Answers) : Script A -> A -> Prop :=
| returns_return a : returns ans (Return a) a
| returns_checked group q k o a :
    an_checked ans group q o -> returns ans (k o) a -> returns ans (Checked group q k) a
| returns_membership group request_id k origin m record a :
    an_membership ans group request_id origin m record -> returns ans (k origin m record) a ->
    returns ans (MembershipView group request_id k) a
| returns_endpoints group operation membership k a :
    returns ans k a -> returns ans (ValidateEndpoints group operation membership k) a.

(** The same with answers that are functions, endpoints taken to be valid. *)
Fixpoint run {A} (checked : GroupId -> Query -> option Observed)
  (view : GroupId -> option string -> option (Origin * MembershipState * option AdminRecord))
  (s : Script A) : option (A + Response) :=
  match s with
  | Return a => Some (inl a)
  | Respond r => Some (inr r)
  | Checked group q k => o ← checked group q; run checked view (k o)
  | MembershipView group request_id k =>
      '(origin, m, record) ← view group request_id; run checked view (k origin m record)
  | ValidateEndpoints _ _ _ k => run checked view k
  end.

Definition rejected {A} (e : Error) : Script A := Respond (RsRejected e).
Definition unavailable {A} (reason : string) : Script A := Respond (RsUnavailable reason).
(** [if condition { return Err(response) }] *)
Definition reject_if (condition : bool) (e : Error) : Script unit :=
  if condition then rejected e else Return tt.

(** ** Checked reads *)

(** [Service::transfer] *)
Definition transfer (request_id : string) : Script Transfer :=
  Checked CONTROLLER (QTransfer request_id) (fun o =>
    match o with
    | ObTransfer (Some transfer) => Return transfer
    | _ => rejected EWrongTransfer
    end).

(** [Service::maintenance] *)
Definition maintenance (request_id : string) : Script MaintenanceTicket :=
  Checked CONTROLLER (QMaintenance request_id) (fun o =>
    match o with
    | ObMaintenance (Some ticket) => Return ticket
    | _ => rejected EWrongTransfer
    end).

(** [Service::shard] *)
Definition shard (group : GroupId) (shard : ShardId) : Script ShardView :=
  Checked group (QShard shard) (fun o =>
    match o with
    | ObShard actual actual_shard ownership =>
        if (actual =? group) && (actual_shard =? shard) then Return ownership
        else unavailable "checked shard identity mismatch"
    | _ => unavailable "checked shard identity mismatch"
    end).

(** A slot that must be exactly this. *)
Definition expect_shard (group : GroupId) (id : ShardId) (expected : ShardView) : Script unit :=
  view ← shard group id;
  reject_if (negb (view ==? expected)) EWrongTransfer.

(** ** [Service::prepare] *)

Section prepare.
Variable topology : Topology.
Variable group : GroupId.

Definition data (command : DataCommand) : Script Operation :=
  if group =? CONTROLLER then rejected EWrongGroup else Return (OData command).
Definition control (command : ControllerCommand) : Script Operation :=
  if negb (group =? CONTROLLER) then rejected EWrongGroup else Return (OController command).

Definition begin_maintenance (request_id : string) (target : GroupId) (operation : AdminOperation)
  : Script Operation :=
  reject_if (negb (group =? CONTROLLER) || negb (contains target (all_groups topology))) EWrongGroup;;
  Checked CONTROLLER (QMaintenance request_id) (fun o =>
    match o with
    | ObMaintenance (Some ticket) =>
        control (CAcquireMaintenance request_id target operation (mt_previous_generation ticket))
    | _ =>
        Checked CONTROLLER QMaintenanceGate (fun o =>
          match o with
          | ObMaintenanceGate generation None false =>
              MembershipView target None (fun _ effective _ =>
                match first_phase effective "l7-maintenance-preflight" operation with
                | Err e => unavailable e
                | Ok _ =>
                    ValidateEndpoints target operation effective
                      (control (CAcquireMaintenance request_id target operation generation))
                end)
          | ObMaintenanceGate _ _ _ => rejected EBusy
          | _ => unavailable "invalid checked maintenance gate"
          end)
    end).

Definition bootstrap : Script Operation :=
  if group =? CONTROLLER then control (CInitialize (tp_groups topology) (tp_owners topology)) else
  Checked CONTROLLER QConfiguration (fun o =>
    match o with
    | ObConfiguration _ (Some _) groups shard_count true =>
        if (groups ==? tp_groups topology) && (shard_count =? len64 (tp_owners topology))
        then data (DInitialize (as_u16 (len64 (tp_owners topology))) (tp_groups topology)
                     (map (fun p => as_u16 (N.of_nat (fst p)))
                        (List.filter (fun p => snd p =? group)
                           (imap pair (tp_owners topology)))))
        else unavailable "controller cannot authorize fresh data bootstrap"
    | _ => unavailable "controller cannot authorize fresh data bootstrap"
    end).

(** Both endpoints of a move must be initialized with this topology. *)
Fixpoint check_endpoints (endpoints : list GroupId) : Script unit :=
  match endpoints with
  | [] => Return tt
  | endpoint :: rest =>
      let refuse := unavailable "both data groups must be initialized before beginning a move" in
      Checked endpoint QConfiguration (fun o =>
        match o with
        | ObConfiguration actual (Some _) groups shard_count _ =>
            if (actual =? endpoint) && (groups ==? tp_groups topology)
               && (shard_count =? len64 (tp_owners topology))
            then check_endpoints rest
            else refuse
        | _ => refuse
        end)
  end.

Definition begin_move (request_id : string) (shard : ShardId) (epoch : N) (destination : GroupId)
  : Script Operation :=
  let command := CBegin request_id shard epoch destination in
  reject_if (negb (group =? CONTROLLER)) EWrongGroup;;
  Checked CONTROLLER (QTransfer request_id) (fun o =>
    match o with
    | ObTransfer (Some _) => control command
    | _ =>
        Checked CONTROLLER QMaintenanceGate (fun o =>
          match o with
          | ObMaintenanceGate _ (Some _) _ => rejected EBusy
          | ObMaintenanceGate _ None _ =>
              Checked CONTROLLER (QRoute shard) (fun o =>
                match o with
                | ObRoute route _ =>
                    if ro_epoch route =? epoch then
                      check_endpoints [ro_owner route; destination];;
                      control command
                    else rejected EStaleRoute
                | _ => rejected EStaleRoute
                end)
          | _ => unavailable "invalid checked maintenance gate"
          end)
    end).

(** The group a step is proposed to. *)
Definition step_group (movement : Move) (step : Step) : GroupId :=
  match step with
  | StFence | StCleanup | StAbortSource => mv_source movement
  | StBeginInstall | StPullChunk | StFinishInstall | StActivate | StAbortDestination =>
      mv_destination movement
  | _ => CONTROLLER
  end.

(** The next chunk of a frozen image, from the destination's progress. *)
Definition pull_chunk (movement : Move) (image : ImageProof) : Script Operation :=
  view ← shard (mv_destination movement) (ti_shard (mv_id movement));
  match view with
  | VInstalling target next_offset =>
      reject_if (negb (target ==? image) || (ip_bytes image <=? next_offset)) EWrongTransfer;;
      Checked (mv_source movement) (QExport (mv_id movement) next_offset) (fun o =>
        match o with
        | ObExport source offset bytes =>
            if (source ==? image) && (offset =? next_offset) && negb (bool_decide (bytes = []))
               && (len64 bytes <=? CHUNK_BYTES)
            then data (DChunk (mv_id movement) offset bytes)
            else rejected EWrongTransfer
        | _ => rejected EWrongTransfer
        end)
  | _ => rejected EWrongPhase
  end.

(** A receipt of an endpoint's abort. *)
Definition record_abort (movement : Move) (abort : AbortProof) (endpoint : GroupId) : Script Operation :=
  Checked endpoint (QAborted (mv_id movement)) (fun o =>
    match o with
    | ObAborted actual (Some record) =>
        if (actual =? endpoint) && (abr_abort record ==? abort)
        then control (CEndpointAborted abort (abr_recovered record))
        else rejected EWrongTransfer
    | _ => rejected EWrongTransfer
    end).

Definition advance_transfer (t : Transfer) (step : Step) : Script Operation :=
  let movement := tr_movement t in
  let id := mv_id movement in
  let source := shard (mv_source movement) (ti_shard id) in
  let destination := shard (mv_destination movement) (ti_shard id) in
  let expect_source := expect_shard (mv_source movement) (ti_shard id) in
  let expect_destination := expect_shard (mv_destination movement) (ti_shard id) in
  reject_if (negb (group =? step_group movement step)) EWrongGroup;;
  match step, tr_phase t with
  | StFence, PStarted => data (DFence movement)
  | StRecordFence, PStarted =>
      view ← source;
      match view with
      | VFenced image =>
          reject_if (negb (ip_movement image ==? movement)) EWrongTransfer;;
          control (CFenced image)
      | _ => rejected EWrongPhase
      end
  | StBeginInstall, PFenced image =>
      expect_source (VFenced image);;
      data (DBeginInstall image)
  | StPullChunk, PFenced image => pull_chunk movement image
  | StFinishInstall, PFenced image =>
      expect_source (VFenced image);;
      data (DFinishInstall id)
  | StRecordInstalled, PFenced image =>
      view ← destination;
      match view with
      | VInstalled installation =>
          reject_if (negb (in_image installation ==? image)) EWrongTransfer;;
          control (CInstalled installation)
      | _ => rejected EWrongPhase
      end
  | StOwn, PInstalled installation =>
      expect_destination (VInstalled installation);;
      control (COwn id)
  | StActivate, POwned ownership => data (DActivate ownership)
  | StRecordActivated, POwned ownership =>
      view ← destination;
      match view with
      | VActive epoch (Some activation) =>
          reject_if (negb (epoch =? ti_epoch id) || negb (ac_ownership activation ==? ownership))
            EWrongTransfer;;
          control (CActivated activation)
      | _ => rejected EWrongPhase
      end
  | StCleanup, PActivated activation =>
      expect_destination (VActive (ti_epoch id) (Some activation));;
      data (DCleanup activation)
  | StRecordCleanup, PActivated activation =>
      view ← source;
      match view with
      | VRetired retired cleaned =>
          reject_if (negb (retired ==? activation)) EWrongTransfer;;
          control (CCleaned id cleaned)
      | _ => rejected EWrongPhase
      end
  | StComplete, PCleaned activation cleaned =>
      expect_source (VRetired activation cleaned);;
      expect_destination (VActive (ti_epoch id) (Some activation));;
      control (CComplete id)
  | StAbort, (PStarted | PFenced _ | PInstalled _) => control (CAbort id)
  | (StAbortSource | StAbortDestination), PAborted abort _ _ _ => data (DAbortTransfer abort)
  | StRecordSourceAbort, PAborted abort _ _ _ => record_abort movement abort (mv_source movement)
  | StRecordDestinationAbort, PAborted abort _ _ _ =>
      record_abort movement abort (mv_destination movement)
  | _, _ => rejected EWrongPhase
  end.

Definition prepare (action : Action) : Script Operation :=
  match action with
  | ABeginMaintenance request_id target operation => begin_maintenance request_id target operation
  | AApplyMaintenance _ | AReconcileMaintenance _ => rejected EWrongGroup
  | ABootstrap => bootstrap
  | ARegister shard epoch nonce => data (DRegister shard epoch nonce)
  | AClose shard epoch session => data (DClose shard epoch session)
  | AMutate shard epoch session key sequence value =>
      data (DMutate shard epoch session key sequence value)
  | ABeginMove request_id shard epoch destination => begin_move request_id shard epoch destination
  | AAdvance request_id step =>
      t ← transfer request_id;
      advance_transfer t step
  end.
End prepare.

(** ** Reconciliation *)

(** What a reconciliation does next. *)
Inductive Decision : Type :=
| Propose (group : GroupId) (operation : Operation)
| Execute (group : GroupId) (action : Action)
| Relay (group : GroupId) (q : Query).

(** [Service::reconcile_maintenance] *)
Definition reconcile_maintenance (request_id : string) : Script Decision :=
  ticket ← maintenance request_id;
  if is_some (mt_completion ticket) then Return (Relay CONTROLLER (QMaintenance request_id)) else
  let core_id := core_request_id ticket in
  MembershipView (mt_target ticket) (Some core_id) (fun observed_applied _ record =>
    match option_filter (fun record =>
            (ar_operation record ==? mt_operation ticket)
            && is_some_and (ar_final_index record) (fun index => index <=? o_index observed_applied))
          record with
    | Some record =>
        Return (Propose CONTROLLER (OController
          (CCompleteMaintenance request_id (mt_origin ticket) core_id record observed_applied)))
    | None => Return (Execute (mt_target ticket) (AApplyMaintenance request_id))
    end).

(** The next step of a pending transfer. *)
Definition choose_step (t : Transfer) : Script (GroupId * Step) :=
  let movement := tr_movement t in
  let id := mv_id movement in
  let source := shard (mv_source movement) (ti_shard id) in
  let destination := shard (mv_destination movement) (ti_shard id) in
  match tr_phase t with
  | PStarted =>
      view ← source;
      match view with
      | VFenced image =>
          if ip_movement image ==? movement then Return (CONTROLLER, StRecordFence)
          else Return (mv_source movement, StFence)
      | _ => Return (mv_source movement, StFence)
      end
  | PFenced image =>
      view ← destination;
      match view with
      | VInstalling target next_offset =>
          if target ==? image
          then Return (mv_destination movement,
                       if next_offset =? ip_bytes image then StFinishInstall else StPullChunk)
          else Return (mv_destination movement, StBeginInstall)
      | VInstalled installation =>
          if in_image installation ==? image then Return (CONTROLLER, StRecordInstalled)
          else Return (mv_destination movement, StBeginInstall)
      | _ => Return (mv_destination movement, StBeginInstall)
      end
  | PInstalled _ => Return (CONTROLLER, StOwn)
  | POwned ownership =>
      view ← destination;
      match view with
      | VActive _ (Some activation) =>
          if ac_ownership activation ==? ownership then Return (CONTROLLER, StRecordActivated)
          else Return (mv_destination movement, StActivate)
      | _ => Return (mv_destination movement, StActivate)
      end
  | PActivated activation =>
      view ← source;
      match view with
      | VRetired retired _ =>
          if retired ==? activation then Return (CONTROLLER, StRecordCleanup)
          else Return (mv_source movement, StCleanup)
      | _ => Return (mv_source movement, StCleanup)
      end
  | PCleaned _ _ => Return (CONTROLLER, StComplete)
  | PAborted abort _ source_recovered destination_recovered =>
      '(endpoint, apply, record) ←
        (if is_none source_recovered
         then Return (mv_source movement, StAbortSource, StRecordSourceAbort)
         else if is_none destination_recovered
         then Return (mv_destination movement, StAbortDestination, StRecordDestinationAbort)
         else unavailable "terminal abort unexpectedly pending");
      Checked endpoint (QAborted id) (fun o =>
        match o with
        | ObAborted group (Some r) =>
            if (group =? endpoint) && (abr_abort r ==? abort) then Return (CONTROLLER, record)
            else Return (endpoint, apply)
        | _ => Return (endpoint, apply)
        end)
  | PComplete _ _ _ => unavailable "completed transfer unexpectedly pending"
  end.

(** [Service::reconcile_once] up to the request it executes. *)
Definition reconcile_once (request_id : string) : Script Decision :=
  t ← transfer request_id;
  if complete t then Return (Relay CONTROLLER (QTransfer request_id)) else
  '(group, step) ← choose_step t;
  Return (Execute group (AAdvance request_id step)).

(** The rest of [reconcile_once]: a capacity refusal while fencing or beginning an
    installation asks for an abort. *)
Definition reconcile_follow_up (request_id : string) (step : Step) (response : Response)
  : option (GroupId * Action) :=
  match step with
  | StFence | StBeginInstall =>
      if capacity response then Some (CONTROLLER, AAdvance request_id StAbort) else None
  | _ => None
  end.

(** ** Laws of scripts *)

Lemma returns_bind {A B} ans (f : A -> Script B) s b :
  returns ans (s ≫= f) b <-> exists a, returns ans s a /\ returns ans (f a) b.
Proof.
  split.
  - revert b. induction s as [a|r|g q k IH|g q k IH|g o m k IH]; intros b H.
    + exists a. split; [constructor|exact H].
    + inversion H.
    + inversion H; subst. edestruct IH as (a & Ha & Hb); [eassumption|].
      exists a. split; [by econstructor|done].
    + inversion H; subst. edestruct IH as (a & Ha & Hb); [eassumption|].
      exists a. split; [by econstructor|done].
    + inversion H; subst. edestruct IH as (a & Ha & Hb); [eassumption|].
      exists a. split; [by constructor|done].
  - intros (a & Ha & Hb). induction Ha; [exact Hb|econstructor; eauto..].
Qed.
