(* ===== verification/Handoff.v ===== *)
(** * The groups of a shard service as one system

    The controller and the data groups run side by side; each is a sequence of
    committed operations.  A coordinator prepares an operation from checked reads,
    each of which saw some committed state of its group, and the operation may be
    committed at any later time, late, twice or never.  [sys_step] is that system,
    and [sys_ok] the invariant that ties the slots of a shard to the controller's
    phases. *)
From S2P Require Import Prelude Types Quorum Membership ShardTypes Topology Controller ControllerInv ControllerSafe ControllerGuarantees ControllerTheorems ShardData ShardDataInv ShardSteps ShardGuarantees ShardMachine Service.
Local Open Scope N_scope.
Local Open Scope raft_scope.

(** ** The system *)

(** The committed state of every group at one moment. *)
Record Snapshot := mkSnapshot { sn_ctl : Controller; sn_data : GroupId -> DataMachine }.
(** Now, and everything that was. *)
Record System := mkSystem { sy_now : Snapshot; sy_past : list Snapshot }.
Definition sy_seen (s : System) : list Snapshot := sy_now s :: sy_past s.

Definition machine_at (sn : Snapshot) (g : GroupId) : Machine :=
  if g =? CONTROLLER then MController (sn_ctl sn) else MData (sn_data sn g).
Definition put_machine (sn : Snapshot) (g : GroupId) (m : Machine) : Snapshot :=
  match m with
  | MController c => mkSnapshot c (sn_data sn)
  | MData d => mkSnapshot (sn_ctl sn) (fun g' => if g' =? g then d else sn_data sn g')
  end.
Definition push (s : System) (sn : Snapshot) : System := mkSystem sn (sy_seen s).

(** Every group before its first entry. *)
Definition sys_initial : System :=
  mkSystem (mkSnapshot controller_default (fun g => mkDataMachine g 0 None 0 [] ∅ ∅)) [].

Section system.
Context `{Fmt : TypeFormats} `{SerC : Serialize Controller} `{DFmt : DataFormats}.
Variable topology : Topology.

(** A checked read saw some committed state; the membership view of a group is
    not a matter of these machines. *)
Definition answers (s : System) : Answers :=
  mkAnswers (fun g q o => exists sn, sn ∈ sy_seen s /\ query (machine_at sn g) q = Done o)
    (fun _ _ _ _ _ => True).

(** What a coordinator may have in hand for a group. *)
Inductive proposable (s : System) (g : GroupId) (op : Operation) : Prop :=
| proposable_action action :
    returns (answers s) (prepare topology g action) op -> proposable s g op
| proposable_maintenance request_id :
    returns (answers s) (reconcile_maintenance request_id) (Propose g op) -> proposable s g op.

Inductive sys_step (s : System) : System -> Prop :=
| sys_commit g op index reply m :
    g ∈ all_groups topology -> proposable s g op ->
    operation (machine_at (sy_now s) g) index op = Done (reply, m) ->
    sys_step s (push s (put_machine (sy_now s) g m))
| sys_noop_controller index c :
    advance (sn_ctl (sy_now s)) index = Done c ->
    sys_step s (push s (put_machine (sy_now s) CONTROLLER (MController c)))
| sys_noop_data g index d :
    g ∈ tp_groups topology -> data_advance (sn_data (sy_now s) g) index = Done d ->
    sys_step s (push s (put_machine (sy_now s) g (MData d))).

Definition sys_reachable (s : System) : Prop := rtc sys_step sys_initial s.

(** ** The slot of a shard in a group

    A group that is not initialized yet stands for the slots its bootstrap will
    create. *)
Definition slot_at (sn : Snapshot) (x : ShardId) (g : GroupId) : option Shard :=
  let d := sn_data sn g in
  match dm_initialized_at d with
  | Some _ => dm_shards d !! x
  | None =>
      if tp_owners topology !! N.to_nat x ==? Some g
      then Some (mkShard (SActive 1 None) (Some shard_data_default))
      else None
  end.

Definition active_with (e : N) (o : option Shard) (data : ShardData) : Prop :=
  exists a, o = Some (mkShard (SActive e a) (Some data)).
Definition fenced_with (image : ImageProof) (o : option Shard) (data : ShardData) : Prop :=
  exists previous, o = Some (mkShard (SFenced image previous) (Some data)).
Definition installing_with (image : ImageProof) (o : option Shard) (bytes : Bytes) : Prop :=
  exists previous sd, o = Some (mkShard (SInstalling image bytes previous) sd).
Definition installed_with (p : InstalledProof) (o : option Shard) (data : ShardData) : Prop :=
  exists previous, o = Some (mkShard (SInstalled p previous) (Some data)).
(** The group does not hold the shard: nothing, or what it gave up by epoch [e]. *)
Definition quiet (e : N) (o : option Shard) : Prop :=
  o = None \/ exists a cleaned sd, o = Some (mkShard (SRetired a cleaned) sd) /\ ti_epoch (ac_id a) <= e.

(** The bytes of the frozen image. *)
Definition frozen (image : ImageProof) (data : ShardData) : Bytes :=
  to_vec (mkShardImage 1 (ip_movement image) (ip_fence image) (len64 (tp_owners topology)) data).

(** What the destination holds while the image is installed. *)
Definition staged (e : N) (image : ImageProof) (o : option Shard) (data : ShardData) : Prop :=
  quiet e o
  \/ (exists bytes, installing_with image o bytes /\ bytes `prefix_of` frozen image data)
  \/ (exists p, in_image p = image /\ installed_with p o data).

(** ... and while an abort of the transfer is on its way. *)
Definition abandoned (e : N) (m : Move) (o : option Shard) : Prop :=
  quiet e o
  \/ (exists image bytes, ip_movement image = m /\ installing_with image o bytes)
  \/ (exists p data, ip_movement (in_image p) = m /\ installed_with p o data).

(** The slots of the source and the destination in each phase. *)
Definition phase_slots (t : Transfer) (src dst : option Shard) : Prop :=
  let m := tr_movement t in
  let e := mv_previous_epoch m in
  let serving a data := Some (mkShard (SActive (ti_epoch (mv_id m)) (Some a)) (Some data)) in
  match tr_phase t with
  | PStarted =>
      ((exists data, active_with e src data)
       \/ exists image data, ip_movement image = m /\ fenced_with image src data)
      /\ quiet e dst
  | PFenced image => exists data, fenced_with image src data /\ staged e image dst data
  | PInstalled p => exists data, fenced_with (in_image p) src data /\ installed_with p dst data
  | POwned o =>
      exists data, fenced_with (ow_image o) src data
      /\ (installed_with (ow_installation o) dst data
          \/ exists a data', ac_ownership a = o /\ dst = serving a data')
  | PActivated a =>
      ((exists data, fenced_with (ac_image a) src data)
       \/ exists cleaned sd, src = Some (mkShard (SRetired a cleaned) sd))
      /\ exists data, dst = serving a data
  | PCleaned a cleaned =>
      (exists sd, src = Some (mkShard (SRetired a cleaned) sd)) /\ exists data, dst = serving a data
  | PAborted _ _ _ _ =>
      ((exists data, active_with e src data)
       \/ exists image data, ip_movement image = m /\ fenced_with image src data)
      /\ abandoned e m dst
  | PComplete _ _ _ => False
  end.

(** The slots of a shard against its route and its unfinished transfer. *)
Definition coupled_transfer (t : Transfer) (sl : GroupId -> option Shard) : Prop :=
  let m := tr_movement t in
  (forall g, g <> mv_source m -> g <> mv_destination m -> quiet (mv_previous_epoch m) (sl g))
  /\ phase_slots t (sl (mv_source m)) (sl (mv_destination m)).

Definition coupled (r : Route) (live : option Transfer) (sl : GroupId -> option Shard) : Prop :=
  match live with
  | Some t => coupled_transfer t sl
  | None =>
      (exists data, active_with (ro_epoch r) (sl (ro_owner r)) data)
      /\ forall g, g <> ro_owner r -> quiet (ro_epoch r) (sl g)
  end.

(** The highest epoch a slot has served or given up. *)
Definition high (o : option Shard) : N :=
  match sh_slot <$> o with
  | None => 0
  | Some (SActive e _) => e
  | Some (SFenced image _) => mv_previous_epoch (ip_movement image)
  | Some (SInstalling _ _ previous) | Some (SInstalled _ previous) =>
      map_or previous 0 (fun old => ti_epoch (ac_id (rs_activation old)))
  | Some (SRetired a _) => ti_epoch (ac_id a)
  end.

(** The activation a slot serves under, also while it is fenced, and the one it
    gave the shard up to, also while the next installation runs. *)
Definition serves (o : option Shard) : option ActivationProof :=
  match sh_slot <$> o with
  | Some (SActive _ a) | Some (SFenced _ a) => a
  | _ => None
  end.
Definition gave_up (o : option Shard) : option ActivationProof :=
  match sh_slot <$> o with
  | Some (SRetired a _) => Some a
  | Some (SInstalling _ _ previous) | Some (SInstalled _ previous) => rs_activation <$> previous
  | _ => None
  end.

(** ** The invariant *)

(** A later data machine of the same group. *)
Record data_later (d d' : DataMachine) : Prop := {
  dl_group : dm_group d' = dm_group d;
  dl_applied : dm_applied d <= dm_applied d';
  dl_initialized : stays (dm_initialized_at d) (dm_initialized_at d');
  dl_aborted : forall key, stays (dm_aborted d !! key) (dm_aborted d' !! key);
}.
#[export] Instance data_later_preorder : PreOrder data_later.
Proof.
  split.
  - intros d. by split.
  - intros d1 d2 d3 [G1 A1 I1 B1] [G2 A2 I2 B2]. split; [congruence|lia|by etrans|].
    intros key. etrans; [apply B1|apply B2].
Qed.

Definition initialized (sn : Snapshot) (g : GroupId) : Prop := dm_initialized_at (sn_data sn g) <> None.
Definition aborted_at (sn : Snapshot) (g : GroupId) (id : TransferId) : Prop :=
  dm_aborted (sn_data sn g) !! transfer_key id <> None.

(** What the snapshots are, one by one. *)
Record snapshot_ok (sn : Snapshot) : Prop := {
  so_ctl : good (sn_ctl sn);
  so_data : forall g, g ∈ tp_groups topology -> data_good (sn_data sn g) /\ dm_group (sn_data sn g) = g;
  so_outside : forall g, g ∉ tp_groups topology -> dm_initialized_at (sn_data sn g) = None;
  so_ctl_config : forall i, co_initialized_at (sn_ctl sn) = Some i ->
    co_groups (sn_ctl sn) = tp_groups topology /\ length (co_routes (sn_ctl sn)) = length (tp_owners topology);
  so_data_config : forall g, g ∈ tp_groups topology -> initialized sn g ->
    dm_groups (sn_data sn g) = tp_groups topology
    /\ dm_shard_count (sn_data sn g) = len64 (tp_owners topology)
    /\ co_initialized_at (sn_ctl sn) <> None;
  so_endpoints : forall t, has (sn_ctl sn) t ->
    initialized sn (mv_source (tr_movement t)) /\ initialized sn (mv_destination (tr_movement t));
}.

(** How the present relates the controller to the groups. *)
Record now_ok (sn : Snapshot) : Prop := {
  no_aborted : forall g key record, g ∈ tp_groups topology ->
    dm_aborted (sn_data sn g) !! key = Some record ->
    exists t, has (sn_ctl sn) t /\ phase_abort (tr_phase t) = Some (abr_abort record)
      /\ key = transfer_key (tr_id t);
  no_source : forall t, has (sn_ctl sn) t -> (phase_recovered (tr_phase t)).1 <> None ->
    aborted_at sn (mv_source (tr_movement t)) (tr_id t);
  no_destination : forall t, has (sn_ctl sn) t -> (phase_recovered (tr_phase t)).2 <> None ->
    aborted_at sn (mv_destination (tr_movement t)) (tr_id t);
  no_high : forall t, has (sn_ctl sn) t -> phase_activation (tr_phase t) <> None ->
    tr_epoch t <= high (slot_at sn (tr_shard t) (mv_destination (tr_movement t)));
  no_coupled : forall x r, co_routes (sn_ctl sn) !! N.to_nat x = Some r ->
    coupled r (live_of (sn_ctl sn) x) (slot_at sn x);
}.

(** What a slot seen once still means now. *)
Record seen_ok (sn now : Snapshot) : Prop := {
  ss_ctl : later (sn_ctl sn) (sn_ctl now);
  ss_data : forall g, g ∈ tp_groups topology -> data_later (sn_data sn g) (sn_data now g);
  ss_fenced : forall g x image data, g ∈ tp_groups topology ->
    fenced_with image (slot_at sn x g) data ->
    fenced_with image (slot_at now x g) data
    \/ aborted_at now g (mv_id (ip_movement image))
    \/ exists t a, has (sn_ctl now) t /\ phase_activation (tr_phase t) = Some a /\ ac_image a = image;
  ss_installed : forall g x p data, g ∈ tp_groups topology ->
    installed_with p (slot_at sn x g) data ->
    installed_with p (slot_at now x g) data
    \/ aborted_at now g (mv_id (ip_movement (in_image p)))
    \/ exists t o, has (sn_ctl now) t /\ phase_ownership (tr_phase t) = Some o /\ ow_installation o = p;
  ss_serves : forall g x a, g ∈ tp_groups topology -> serves (slot_at sn x g) = Some a ->
    exists t, has (sn_ctl now) t /\ phase_ownership (tr_phase t) = Some (ac_ownership a);
  ss_active : forall g x e a data, g ∈ tp_groups topology ->
    slot_at sn x g = Some (mkShard (SActive e (Some a)) (Some data)) ->
    forall t, has (sn_ctl now) t -> tr_phase t = POwned (ac_ownership a) ->
    exists data', slot_at now x g = Some (mkShard (SActive e (Some a)) (Some data'));
  ss_gave_up : forall g x a, g ∈ tp_groups topology -> gave_up (slot_at sn x g) = Some a ->
    exists t, has (sn_ctl now) t /\ phase_activation (tr_phase t) = Some a;
  ss_retired : forall g x a cleaned sd, g ∈ tp_groups topology ->
    slot_at sn x g = Some (mkShard (SRetired a cleaned) sd) ->
    forall t, has (sn_ctl now) t -> tr_phase t = PActivated a ->
    slot_at now x g = Some (mkShard (SRetired a cleaned) sd);
}.

Record sys_ok (s : System) : Prop := {
  sk_snapshots : forall sn, sn ∈ sy_seen s -> snapshot_ok sn;
  sk_now : now_ok (sy_now s);
  sk_seen : forall sn, sn ∈ sy_seen s -> seen_ok sn (sy_now s);
}.
End system.
