(* ===== verification/HandoffEvidence.v ===== *)
(** * What a prepared operation proves

    The coordinator puts a proof in an operation only after a group showed it: so
    whatever it proposes is backed by what the controller has recorded and by a
    slot some group had ([proposable_evidence]). *)
From S2P Require Import Prelude Types Quorum Membership ShardTypes Topology Controller ControllerInv ControllerSafe ControllerGuarantees ControllerTheorems ShardData ShardDataInv ShardSteps ShardGuarantees ShardMachine Service Handoff.
Local Open Scope N_scope.
Local Open Scope raft_scope.

(** ** Inverting scripts *)

Lemma returns_Return {A} ans (a b : A) : returns ans (Return a) b <-> b = a.
Proof. split; [by inversion 1|intros ->; constructor]. Qed.
Lemma returns_Respond {A} ans r (b : A) : returns ans (Respond r) b <-> False.
Proof. split; [by inversion 1|done]. Qed.
Lemma returns_Checked {A} ans g q k (b : A) :
  returns ans (Checked g q k) b <-> exists o, an_checked ans g q o /\ returns ans (k o) b.
Proof. split; [inversion 1; subst; eauto|intros (o & ? & ?); by econstructor]. Qed.
Lemma returns_MembershipView {A} ans g q k (b : A) :
  returns ans (MembershipView g q k) b <->
  exists o m r, an_membership ans g q o m r /\ returns ans (k o m r) b.
Proof. split; [inversion 1; subst; eauto|intros (o & m & r & ? & ?); by econstructor]. Qed.
Lemma returns_ValidateEndpoints {A} ans g op m k (b : A) :
  returns ans (ValidateEndpoints g op m k) b <-> returns ans k b.
Proof. split; [by inversion 1|by constructor]. Qed.
Lemma returns_reject_if ans b e u : returns ans (reject_if b e) u <-> b = false.
Proof.
  unfold reject_if, rejected. destruct b, u; rewrite ?returns_Return, ?returns_Respond; naive_solver.
Qed.
Lemma returns_data ans g command op :
  returns ans (data g command) op <-> g <> CONTROLLER /\ op = OData command.
Proof.
  unfold data, rejected. destruct (N.eqb_spec g CONTROLLER);
    rewrite ?returns_Return, ?returns_Respond; naive_solver.
Qed.
Lemma returns_control ans g command op :
  returns ans (control g command) op <-> g = CONTROLLER /\ op = OController command.
Proof.
  unfold control, rejected. destruct (N.eqb_spec g CONTROLLER); cbn [negb];
    rewrite ?returns_Return, ?returns_Respond; naive_solver.
Qed.

Ltac script_inv :=
  repeat match goal with
  | H : returns _ (_ ≫= _) _ |- _ => apply returns_bind in H as (? & ? & H)
  | H : returns _ (Return _) _ |- _ => apply returns_Return in H
  | H : returns _ (Respond _) _ |- _ => apply returns_Respond in H; destruct H
  | H : returns _ (rejected _) _ |- _ => apply returns_Respond in H; destruct H
  | H : returns _ (unavailable _) _ |- _ => apply returns_Respond in H; destruct H
  | H : returns _ (Checked _ _ _) _ |- _ => apply returns_Checked in H as (? & ? & H)
  | H : returns _ (MembershipView _ _ _) _ |- _ => apply returns_MembershipView in H as (? & ? & ? & ? & H)
  | H : returns _ (ValidateEndpoints _ _ _ _) _ |- _ => apply returns_ValidateEndpoints in H
  | H : returns _ (reject_if _ _) _ |- _ => apply returns_reject_if in H
  | H : returns _ (data _ _) _ |- _ => apply returns_data in H as [? H]
  | H : returns _ (control _ _) _ |- _ => apply returns_control in H as [? H]
  | u : unit |- _ => destruct u
  end.

Section evidence.
Context `{Fmt : TypeFormats} `{SerC : Serialize Controller} `{DFmt : DataFormats}.
Variable topology : Topology.

Definition evidence (s : System) (g : GroupId) (op : Operation) : Prop :=
  let now := sy_now s in
  let c := sn_ctl now in
  let src t := mv_source (tr_movement t) in
  let dst t := mv_destination (tr_movement t) in
  match op with
  | OData command =>
      g <> CONTROLLER /\
      match command with
      | DInitialize n groups owned =>
          co_initialized_at c <> None /\ n = as_u16 (len64 (tp_owners topology))
          /\ groups = tp_groups topology
          /\ owned = map (fun p => as_u16 (N.of_nat (fst p)))
                       (List.filter (fun p => snd p =? g) (imap pair (tp_owners topology)))
      | DFence m => exists t, has c t /\ tr_movement t = m
      | DBeginInstall image => exists t, has c t /\ phase_image (tr_phase t) = Some image
      | DResetInstall _ => False
      | DChunk id offset bytes =>
          exists t image sn, has c t /\ tr_id t = id /\ phase_image (tr_phase t) = Some image
            /\ sn ∈ sy_seen s /\ export (sn_data sn (src t)) id offset = Done (image, bytes)
      | DActivate o => exists t, has c t /\ phase_ownership (tr_phase t) = Some o
      | DCleanup a => exists t, has c t /\ phase_activation (tr_phase t) = Some a
      | DAbortTransfer abort => exists t, has c t /\ phase_abort (tr_phase t) = Some abort
      | _ => True
      end
  | OController command =>
      g = CONTROLLER /\
      match command with
      | CInitialize groups owners => groups = tp_groups topology /\ owners = tp_owners topology
      | CBegin q x e d =>
          co_transfers c !! q <> None
          \/ exists sn r, sn ∈ sy_seen s /\ co_routes (sn_ctl sn) !! N.to_nat x = Some r
               /\ ro_epoch r = e /\ (ro_owner r <> CONTROLLER -> initialized now (ro_owner r))
               /\ (d <> CONTROLLER -> initialized now d)
      | CFenced image =>
          exists t sn data, has c t /\ tr_movement t = ip_movement image /\ sn ∈ sy_seen s
            /\ fenced_with image (slot_at topology sn (tr_shard t) (src t)) data
      | CInstalled p =>
          exists t sn data, has c t /\ phase_image (tr_phase t) = Some (in_image p) /\ sn ∈ sy_seen s
            /\ installed_with p (slot_at topology sn (tr_shard t) (dst t)) data
      | CActivated a =>
          exists t sn data, has c t /\ phase_ownership (tr_phase t) = Some (ac_ownership a)
            /\ sn ∈ sy_seen s
            /\ slot_at topology sn (tr_shard t) (dst t)
               = Some (mkShard (SActive (tr_epoch t) (Some a)) (Some data))
      | CCleaned id cleaned =>
          exists t sn a sd, has c t /\ tr_id t = id /\ phase_activation (tr_phase t) = Some a
            /\ sn ∈ sy_seen s
            /\ slot_at topology sn (tr_shard t) (src t) = Some (mkShard (SRetired a cleaned) sd)
      | CEndpointAborted abort recovered =>
          exists t, has c t /\ phase_abort (tr_phase t) = Some abort
            /\ (o_group recovered = src t -> aborted_at now (src t) (tr_id t))
            /\ (o_group recovered = dst t -> aborted_at now (dst t) (tr_id t))
      | _ => True
      end
  end.

Section ok.
Variable s : System.
Hypothesis Hok : sys_ok topology s.

Lemma seen_snapshot sn : sn ∈ sy_seen s -> snapshot_ok topology sn.
Proof using Hok. apply (sk_snapshots _ _ Hok). Qed.
Lemma now_seen : sy_now s ∈ sy_seen s.
Proof using. left. Qed.

(** A transfer seen once is still there, with all its evidence. *)
Lemma seen_transfer sn request t : sn ∈ sy_seen s -> co_transfers (sn_ctl sn) !! request = Some t ->
  exists t', has (sn_ctl (sy_now s)) t' /\ tr_movement t' = tr_movement t
    /\ extends (tr_phase t) (tr_phase t').
Proof using Hok.
  intros Hsn Ht. pose proof (ss_ctl _ _ _ (sk_seen _ _ Hok _ Hsn)) as Hl.
  destruct (lt_transfers _ _ Hl _ _ Ht) as (t' & Ht' & _ & Hm & He). exists t'. split_and!; try done. by exists request.
Qed.

Lemma has_initialized c t : good c -> has c t -> exists i, co_initialized_at c = Some i /\ wf c i.
Proof using.
  intros [_ Hg] [r Hr]. destruct (co_initialized_at c) as [i|]; [by exists i; split; [|apply Hg]|].
  destruct Hg as (_ & _ & E & _). by rewrite E, lookup_empty in Hr.
Qed.

Lemma now_wf t : has (sn_ctl (sy_now s)) t ->
  exists i, co_initialized_at (sn_ctl (sy_now s)) = Some i /\ wf (sn_ctl (sy_now s)) i.
Proof using Hok. apply has_initialized, (so_ctl _ _ (seen_snapshot _ now_seen)). Qed.

Lemma has_groups t : has (sn_ctl (sy_now s)) t ->
  mv_source (tr_movement t) ∈ tp_groups topology /\ mv_destination (tr_movement t) ∈ tp_groups topology
  /\ mv_source (tr_movement t) <> CONTROLLER /\ mv_destination (tr_movement t) <> CONTROLLER.
Proof using Hok.
  intros Ht. destruct (now_wf t Ht) as (i & Hi & W).
  destruct (so_ctl_config _ _ (seen_snapshot _ now_seen) i Hi) as [E _].
  pose proof (has_wf _ _ W t Ht) as (r & _ & _ & Hm & _ & Hs & Hd & _). rewrite E in Hs, Hd.
  unfold move_valid in Hm. by bool_inv.
Qed.

(** ** What the checked reads return *)

Lemma returns_transfer q t :
  returns (answers s) (transfer q) t ->
  exists sn, sn ∈ sy_seen s /\ co_transfers (sn_ctl sn) !! q = Some t.
Proof using.
  unfold transfer. intros H. script_inv. destruct x; script_inv.
  match goal with H : an_checked _ _ _ _ |- _ => destruct H as (sn & Hsn & Hq) end. unfold machine_at in Hq. cbn in Hq.
  outcome_inv. simplify_eq. destruct (co_transfers (sn_ctl sn) !! q) eqn:E; script_inv. subst. by exists sn.
Qed.

Lemma returns_shard g x view :
  returns (answers s) (shard g x) view ->
  exists sn, sn ∈ sy_seen s /\ g <> CONTROLLER
    /\ x < dm_shard_count (sn_data sn g) /\ view = shard_view (dm_shards (sn_data sn g) !! x).
Proof using.
  unfold shard. intros H. script_inv. destruct x0; script_inv.
  match goal with H : an_checked _ _ _ _ |- _ => destruct H as (sn & Hsn & Hq) end.
  unfold machine_at in Hq. destruct (N.eqb_spec g CONTROLLER); [discriminate|]. cbn in Hq.
  outcome_inv. simplify_eq. case_match; script_inv. subst. bool_inv. exists sn. split_and!; done.
Qed.

(** A slot the coordinator was shown. *)
Lemma shown_slot sn g x : sn ∈ sy_seen s -> g ∈ tp_groups topology ->
  x < dm_shard_count (sn_data sn g) ->
  slot_at topology sn x g = dm_shards (sn_data sn g) !! x
  /\ forall sh, slot_at topology sn x g = Some sh -> slot_sound (sn_data sn g) x sh.
Proof using Hok.
  intros Hsn Hg Hx. destruct (so_data _ _ (seen_snapshot _ Hsn) g Hg) as [[_ _ Hv] _].
  assert (E : slot_at topology sn x g = dm_shards (sn_data sn g) !! x).
  { unfold slot_at. destruct (dm_initialized_at (sn_data sn g)) eqn:Hi; [done|].
    destruct (validated_uninitialized _ Hv Hi) as (_ & E & _). lia. }
  split; [done|]. intros sh. rewrite E. intros Hs. by apply (validated_shard _ _ _ Hv Hs).
Qed.

Lemma shown_fenced g x image : g ∈ tp_groups topology -> returns (answers s) (shard g x) (VFenced image) ->
  exists sn data, sn ∈ sy_seen s /\ fenced_with image (slot_at topology sn x g) data.
Proof using Hok.
  intros Hg H. apply returns_shard in H as (sn & Hsn & _ & Hx & Hv).
  destruct (shown_slot sn g x Hsn Hg Hx) as [E Hs]. exists sn. rewrite <- E in Hv.
  destruct (slot_at topology sn x g) as [[slot sd]|] eqn:Hsl; [|discriminate].
  destruct slot; try discriminate. injection Hv as <-. specialize (Hs _ eq_refl).
  destruct Hs as (_ & _ & data & E' & _). cbn in E'. subst sd. exists data. split; [done|]. by eexists.
Qed.
Lemma shown_installed g x p : g ∈ tp_groups topology -> returns (answers s) (shard g x) (VInstalled p) ->
  exists sn data, sn ∈ sy_seen s /\ installed_with p (slot_at topology sn x g) data.
Proof using Hok.
  intros Hg H. apply returns_shard in H as (sn & Hsn & _ & Hx & Hv).
  destruct (shown_slot sn g x Hsn Hg Hx) as [E Hs]. exists sn. rewrite <- E in Hv.
  destruct (slot_at topology sn x g) as [[slot sd]|] eqn:Hsl; [|discriminate].
  destruct slot; try discriminate. injection Hv as <-. specialize (Hs _ eq_refl).
  destruct Hs as (_ & _ & data & E' & _). cbn in E'. subst sd. exists data. split; [done|]. by eexists.
Qed.
Lemma shown_active g x e a : g ∈ tp_groups topology -> returns (answers s) (shard g x) (VActive e a) ->
  exists sn data, sn ∈ sy_seen s /\ slot_at topology sn x g = Some (mkShard (SActive e a) (Some data)).
Proof using Hok.
  intros Hg H. apply returns_shard in H as (sn & Hsn & _ & Hx & Hv).
  destruct (shown_slot sn g x Hsn Hg Hx) as [E Hs]. exists sn. rewrite <- E in Hv.
  destruct (slot_at topology sn x g) as [[slot sd]|] eqn:Hsl; [|discriminate].
  destruct slot; try discriminate. injection Hv as <- <-. specialize (Hs _ eq_refl).
  destruct Hs as (_ & _ & data & E'). cbn in E'. subst sd. by exists data.
Qed.
Lemma shown_retired g x a cleaned : g ∈ tp_groups topology -> returns (answers s) (shard g x) (VRetired a cleaned) ->
  exists sn sd, sn ∈ sy_seen s /\ slot_at topology sn x g = Some (mkShard (SRetired a cleaned) sd).
Proof using Hok.
  intros Hg H. apply returns_shard in H as (sn & Hsn & _ & Hx & Hv).
  destruct (shown_slot sn g x Hsn Hg Hx) as [E Hs]. exists sn. rewrite <- E in Hv.
  destruct (slot_at topology sn x g) as [[slot sd]|] eqn:Hsl; [|discriminate].
  destruct slot; try discriminate. injection Hv as <- <-. by exists sd.
Qed.

Lemma shown_aborted g id record :
  g ∈ tp_groups topology ->
  (exists sn, sn ∈ sy_seen s /\ query (machine_at sn g) (QAborted id) = Done (ObAborted g (Some record))) ->
  aborted_at (sy_now s) g id /\ o_group (abr_recovered record) = g.
Proof using Hok.
  intros Hg (sn & Hsn & Hq). unfold machine_at in Hq.
  destruct (N.eqb_spec g CONTROLLER); [discriminate|]. cbn in Hq. outcome_inv. simplify_eq.
  match goal with H : _ !! _ = Some record |- _ => rename H into Hr end.
  destruct (so_data _ _ (seen_snapshot _ Hsn) g Hg) as [[_ _ Hv] Hgr]. split.
  - unfold aborted_at. intros E.
    rewrite (dl_aborted _ _ (ss_data _ _ _ (sk_seen _ _ Hok _ Hsn) g Hg) _ _ Hr) in E. discriminate.
  - destruct (dm_initialized_at (sn_data sn g)) as [i|] eqn:Hi.
    + destruct (validated_initialized _ i Hv Hi) as (_ & _ & Hrs & _).
      apply (elem_of_btree_iter str_le) in Hr.
      pose proof (validate_records_elem _ _ _ _ _ Hrs Hr) as Hvr. unfold validate_record in Hvr.
      apply Outcome_bind_Done in Hvr as ([] & G%refuse_if_Done & _). bool_inv. congruence.
    + destruct (validated_uninitialized _ Hv Hi) as (_ & _ & _ & _ & E). rewrite E in Hr.
      by rewrite lookup_empty in Hr.
Qed.

Lemma record_abort_evidence q sn t abort before sr dr endpoint op :
  sn ∈ sy_seen s -> co_transfers (sn_ctl sn) !! q = Some t -> tr_phase t = PAborted abort before sr dr ->
  endpoint = mv_source (tr_movement t) \/ endpoint = mv_destination (tr_movement t) ->
  returns (answers s) (record_abort CONTROLLER (tr_movement t) abort endpoint) op ->
  evidence s CONTROLLER op.
Proof using Hok.
  intros Hsn Ht E He H. destruct (seen_transfer sn q t Hsn Ht) as (t' & Ht' & Hm & Hx).
  destruct (has_groups t' Ht') as (Hs & Hd & _). rewrite Hm in Hs, Hd.
  unfold record_abort in H. script_inv. destruct x; script_inv.
  match goal with H : an_checked _ _ _ _ |- _ => rename H into Hq end.
  destruct record as [record|]; script_inv. case_match; script_inv. bool_inv. subst.
  destruct (shown_aborted endpoint (mv_id (tr_movement t)) record) as [Ha Hg]; [by destruct He as [-> | ->]|exact Hq|].
  split; [done|]. exists t'. unfold tr_id. rewrite Hm. split_and!; [done| | |].
  - apply (ex_abort _ _ Hx). by rewrite E.
  - intros Eg. by rewrite <- Eg, Hg.
  - intros Eg. by rewrite <- Eg, Hg.
Qed.

Lemma advance_evidence q sn t g step op :
  sn ∈ sy_seen s -> co_transfers (sn_ctl sn) !! q = Some t ->
  returns (answers s) (advance_transfer g t step) op -> evidence s g op.
Proof using Hok.
  intros Hsn Ht H. destruct (seen_transfer sn q t Hsn Ht) as (t' & Ht' & Hm & Hx).
  destruct (has_groups t' Ht') as (Hs & Hd & _).
  assert (Hid : tr_id t' = tr_id t) by (unfold tr_id; by rewrite Hm).
  unfold advance_transfer in H. cbv zeta in H. apply returns_bind in H as ([] & Hg & H).
  apply returns_reject_if in Hg. apply negb_false_iff, N.eqb_eq in Hg.
  assert (HI : forall image, phase_image (tr_phase t) = Some image -> phase_image (tr_phase t') = Some image)
    by apply (ex_image _ _ Hx).
  assert (HO : forall o, phase_ownership (tr_phase t) = Some o -> phase_ownership (tr_phase t') = Some o)
    by apply (ex_ownership _ _ Hx).
  assert (HA : forall a, phase_activation (tr_phase t) = Some a -> phase_activation (tr_phase t') = Some a)
    by apply (ex_activation _ _ Hx).
  assert (HB : forall a, phase_abort (tr_phase t) = Some a -> phase_abort (tr_phase t') = Some a)
    by apply (ex_abort _ _ Hx).
  unfold tr_id in Hid. rewrite <- Hm in H.
  destruct step; destruct (tr_phase t) eqn:E; cbn [step_group] in Hg;
    try (by apply returns_Respond in H).
  - script_inv. subst. split; [done|]. exists t'. by split.
  - apply returns_bind in H as (view & Hv & H). destruct view; script_inv. bool_inv. subst.
    destruct (shown_fenced _ _ _ Hs Hv) as (sn' & data & Hsn' & Hf).
    split; [done|]. exists t', sn', data. by split_and!.
  - script_inv. subst. split; [done|]. exists t'. split; [done|]. by apply HI.
  - unfold pull_chunk in H. apply returns_bind in H as (view & Hv & H).
    destruct view as [| | |target next_offset| |]; try (by apply returns_Respond in H).
    apply returns_bind in H as ([] & Hr & H). apply returns_reject_if in Hr.
    apply returns_Checked in H as (ob & (sn' & Hsn' & Hq) & H).
    destruct ob as [| | | | | | | | | |im' off bs']; script_inv. case_match; script_inv. bool_inv. subst.
    unfold machine_at in Hq. destruct (N.eqb_spec (mv_source (tr_movement t')) CONTROLLER); [discriminate|].
    cbn in Hq. apply Outcome_bind_Done in Hq as ([im bs] & Hq & [= -> ->]).
    split; [done|]. exists t', image, sn'. split_and!; try done. by apply HI.
  - script_inv. subst. by split.
  - apply returns_bind in H as (view & Hv & H). destruct view; script_inv. bool_inv. subst.
    destruct (shown_installed _ _ _ Hd Hv) as (sn' & data & Hsn' & Hf).
    split; [done|]. exists t', sn', data. split_and!; try done. by apply HI.
  - script_inv. subst. by split.
  - script_inv. subst. split; [done|]. exists t'. split; [done|]. by apply HO.
  - apply returns_bind in H as (view & Hv & H). destruct view as [|e [a|]| | | |]; script_inv. bool_inv. subst.
    destruct (shown_active _ _ _ _ Hd Hv) as (sn' & data & Hsn' & Hf).
    split; [done|]. exists t', sn', data. split_and!; try done. by apply HO.
  - script_inv. subst. split; [done|]. exists t'. split; [done|]. by apply HA.
  - apply returns_bind in H as (view & Hv & H). destruct view; script_inv. bool_inv. subst.
    destruct (shown_retired _ _ _ _ Hs Hv) as (sn' & sd & Hsn' & Hf).
    split; [done|]. exists t', sn', activation, sd. split_and!; try done. by apply HA.
  - script_inv. subst. by split.
  - script_inv. subst. by split.
  - script_inv. subst. by split.
  - script_inv. subst. by split.
  - script_inv. subst. split; [done|]. exists t'. split; [done|]. by apply HB.
  - script_inv. subst. split; [done|]. exists t'. split; [done|]. by apply HB.
  - subst g. rewrite Hm in H. eapply record_abort_evidence; [done|done|done| |exact H]. by left.
  - subst g. rewrite Hm in H. eapply record_abort_evidence; [done|done|done| |exact H]. by right.
Qed.

(** An endpoint the coordinator found configured. *)
Lemma check_endpoints_initialized endpoints u :
  returns (answers s) (check_endpoints topology endpoints) u ->
  Forall (fun g => g <> CONTROLLER -> initialized (sy_now s) g) endpoints.
Proof using Hok.
  induction endpoints as [|g endpoints IH]; intros H; [constructor|]. cbn [check_endpoints] in H.
  apply returns_Checked in H as (ob & (sn & Hsn & Hq) & H).
  destruct ob as [| | |actual init groups n safe| | | | | | |]; script_inv. destruct init as [i|]; script_inv.
  case_match; script_inv. constructor; [|auto]. intros Hne.
  unfold machine_at in Hq. rewrite (proj2 (N.eqb_neq _ _) Hne) in Hq. cbn in Hq. injection Hq as _ Hi _ _.
  destruct (decide (g ∈ tp_groups topology)) as [Hg|Hg].
  - pose proof (dl_initialized _ _ (ss_data _ _ _ (sk_seen _ _ Hok _ Hsn) g Hg) _ Hi) as Hi'.
    unfold initialized. by rewrite Hi'.
  - by rewrite (so_outside _ _ (seen_snapshot _ Hsn) g Hg) in Hi.
Qed.

Lemma begin_move_evidence g q x e d op :
  returns (answers s) (begin_move topology g q x e d) op -> evidence s g op.
Proof using Hok.
  unfold begin_move. cbv zeta. intros H.
  apply returns_bind in H as ([] & Hg & H). apply returns_reject_if in Hg. bool_inv. subst g.
  apply returns_Checked in H as (ob & (sn & Hsn & Hq) & H).
  assert (Hnew : returns (answers s) (Checked CONTROLLER QMaintenanceGate (fun o =>
    match o with
    | ObMaintenanceGate _ (Some _) _ => rejected EBusy
    | ObMaintenanceGate _ None _ =>
        Checked CONTROLLER (QRoute x) (fun o =>
          match o with
          | ObRoute route _ =>
              if ro_epoch route =? e then
                check_endpoints topology [ro_owner route; d];; control CONTROLLER (CBegin q x e d)
              else rejected EStaleRoute
          | _ => rejected EStaleRoute
          end)
    | _ => unavailable "invalid checked maintenance gate"
    end)) op -> evidence s CONTROLLER op).
  { clear sn Hsn Hq H. intros H. apply returns_Checked in H as (gate & _ & H).
    destruct gate as [gen [tk|] hp| | | | | | | | | |]; try (by apply returns_Respond in H).
    apply returns_Checked in H as (ob' & (sn & Hsn & Hq) & H).
    unfold machine_at in Hq. cbn in Hq.
    apply Outcome_bind_Done in Hq as (r & Hr%ok_or_Done & [= <-]).
    destruct (ro_epoch r =? e) eqn:Ee; [|by apply returns_Respond in H].
    apply returns_bind in H as (u & He & H). apply check_endpoints_initialized in He.
    apply returns_control in H as [_ ->]. bool_inv.
    apply list.Forall_cons in He as [H1 [H2 _]%list.Forall_cons].
    split; [done|]. right. exists sn, r. by split_and!. }
  destruct ob as [| | | | |[t|]| | | | |]; try (by apply Hnew).
  apply returns_control in H as [_ ->]. split; [done|]. left.
  unfold machine_at in Hq. cbn in Hq. outcome_inv. simplify_eq.
  match goal with H : _ = Some t |- _ => rename H into Ht end.
  pose proof (ss_ctl _ _ _ (sk_seen _ _ Hok _ Hsn)) as Hl.
  destruct (lt_transfers _ _ Hl _ _ Ht) as (t' & Ht' & _). by rewrite Ht'.
Qed.

Lemma bootstrap_evidence g op : returns (answers s) (bootstrap topology g) op -> evidence s g op.
Proof using Hok.
  unfold bootstrap. destruct (N.eqb_spec g CONTROLLER) as [->|Hne]; intros H.
  { apply returns_control in H as [_ ->]. by split. }
  apply returns_Checked in H as (ob & (sn & Hsn & Hq) & H).
  destruct ob as [| | |actual init groups n safe| | | | | | |]; script_inv. destruct init as [i|]; script_inv.
  destruct safe; script_inv. case_match; script_inv. subst. split; [done|]. split; [|done].
  unfold machine_at in Hq. cbn in Hq. injection Hq as _ Hi _ _ _.
  pose proof (ss_ctl _ _ _ (sk_seen _ _ Hok _ Hsn)) as Hl.
  by rewrite (lt_initialized _ _ Hl _ Hi).
Qed.

Lemma begin_maintenance_evidence g q target operation op :
  returns (answers s) (begin_maintenance topology g q target operation) op -> evidence s g op.
Proof using.
  unfold begin_maintenance. intros H.
  apply returns_bind in H as ([] & Hg & H). apply returns_reject_if in Hg. bool_inv. subst g.
  assert (Hc : forall x generation, returns (answers s) (control CONTROLLER (CAcquireMaintenance q x operation generation)) op ->
    evidence s CONTROLLER op) by (intros x generation [_ ->]%returns_control; by split).
  apply returns_Checked in H as (ob & _ & H).
  assert (Hgate : returns (answers s) (Checked CONTROLLER QMaintenanceGate (fun o =>
          match o with
          | ObMaintenanceGate generation None false =>
              MembershipView target None (fun _ effective _ =>
                match first_phase effective "l7-maintenance-preflight" operation with
                | Err e => unavailable e
                | Ok _ =>
                    ValidateEndpoints target operation effective
                      (control CONTROLLER (CAcquireMaintenance q target operation generation))
                end)
          | ObMaintenanceGate _ _ _ => rejected EBusy
          | _ => unavailable "invalid checked maintenance gate"
          end)) op -> evidence s CONTROLLER op).
  { clear H. intros H. apply returns_Checked in H as (gate & _ & H).
    destruct gate as [gen [tk|] [|]| | | | | | | | | |]; try (by apply returns_Respond in H).
    apply returns_MembershipView in H as (o & m & r & _ & H).
    destruct (first_phase _ _ _); [|by apply returns_Respond in H].
    apply returns_ValidateEndpoints in H. eauto. }
  destruct ob as [|[tk|]| | | | | | | | |]; try (by apply Hgate). eauto.
Qed.

(** Every operation a coordinator can have in hand is backed by evidence. *)
Lemma proposable_evidence g op : proposable topology s g op -> evidence s g op.
Proof using Hok.
  intros [action H|request_id H].
  - destruct action; cbn [prepare] in H; try (by apply returns_Respond in H);
      try (apply returns_data in H as [? ->]; by split).
    + by eapply begin_maintenance_evidence.
    + by apply bootstrap_evidence.
    + by eapply begin_move_evidence.
    + apply returns_bind in H as (t & Ht & H). apply returns_transfer in Ht as (sn & Hsn & Ht).
      by eapply advance_evidence.
  - unfold reconcile_maintenance in H. apply returns_bind in H as (ticket & _ & H).
    case_match; [by apply returns_Return in H|].
    apply returns_MembershipView in H as (o & m & r & _ & H).
    destruct (option_filter _ _); apply returns_Return in H; [|done]. injection H as -> ->. by split.
Qed.
End ok.
End evidence.
