(* ===== verification/HandoffSlots.v ===== *)
(** * One slot moves: the controller's phases still fit

    [coupled_move]: whatever operation with evidence a data group commits, the
    slots of the shard still fit the phase of its unfinished transfer.  Commands of
    finished transfers and late duplicates are refused or change nothing. *)
From S2P Require Import Prelude Types Quorum Membership ShardTypes Topology Controller ControllerInv ControllerSafe ControllerGuarantees ControllerTheorems ShardData ShardDataInv ShardSteps ShardGuarantees ShardMachine Service Handoff HandoffEvidence.
Local Open Scope N_scope.
Local Open Scope raft_scope.

(** A slot function with one group's slot replaced. *)
Definition set_slot (g : GroupId) (o : option Shard) (sl : GroupId -> option Shard) : GroupId -> option Shard :=
  fun g' => if g' =? g then o else sl g'.
Lemma set_slot_eq g o sl : set_slot g o sl g = o.
Proof. unfold set_slot. by rewrite N.eqb_refl. Qed.
Lemma set_slot_ne g g' o sl : g' <> g -> set_slot g o sl g' = sl g'.
Proof. intros Hne. unfold set_slot. by rewrite (proj2 (N.eqb_neq _ _) Hne). Qed.

Section moves.
Context `{Fmt : TypeFormats} `{DFmt : DataFormats}.
Variables (d : DataMachine) (index : N) (x : ShardId) (command : DataCommand) (reply : DataReply).

(** ** The moves out of each slot *)

Lemma quiet_moves e o o' : quiet e o -> slot_step d index x command reply o o' ->
  exists image, command = DBeginInstall image /\ mv_destination (ip_movement image) = dm_group d
    /\ ti_shard (mv_id (ip_movement image)) = x
    /\ o' = Some (mkShard (SInstalling image [] (previous_of o)) None)
    /\ (o = None \/ exists a cleaned sd, o = Some (mkShard (SRetired a cleaned) sd)
          /\ ti_epoch (ac_id a) < ti_epoch (mv_id (ip_movement image))).
Proof.
  intros [->|(a & cleaned & sd & -> & Ha)] H; inversion H; subst; eauto 10.
Qed.
Lemma active_moves e a data o' :
  slot_step d index x command reply (Some (mkShard (SActive e a) (Some data))) o' ->
  (exists data', client_step d index command x e data reply data'
     /\ o' = Some (mkShard (SActive e a) (Some data')))
  \/ exists image, command = DFence (ip_movement image) /\ mv_previous_epoch (ip_movement image) = e
       /\ mv_source (ip_movement image) = dm_group d /\ ti_shard (mv_id (ip_movement image)) = x
       /\ ip_fence image = mkOrigin (dm_group d) index /\ image_of d image data
       /\ o' = Some (mkShard (SFenced image a) (Some data)).
Proof.
  inversion 1; subst; [left; eauto|right; by eexists; split_and!|..].
  match goal with H : _ = None \/ _ |- _ => destruct H as [?|(? & ? & ? & ? & _)]; discriminate end.
Qed.
Lemma fenced_moves image previous data o' :
  slot_step d index x command reply (Some (mkShard (SFenced image previous) (Some data))) o' ->
  (exists a, command = DCleanup a /\ ac_image a = image /\ ti_shard (ac_id a) = x
     /\ o' = Some (mkShard (SRetired a (mkOrigin (dm_group d) index)) None))
  \/ exists abort, command = DAbortTransfer abort /\ ip_movement image = ab_movement abort
       /\ mv_source (ab_movement abort) = dm_group d
       /\ o' = Some (mkShard (SActive (mv_previous_epoch (ip_movement image)) previous) (Some data)).
Proof.
  inversion 1; subst.
  - match goal with H : _ = None \/ _ |- _ => destruct H as [?|(? & ? & ? & ? & _)]; discriminate end.
  - left. eauto 10.
  - right. exists abort. split_and!; try done. congruence.
Qed.
Lemma installing_moves image stored previous sd o' :
  slot_step d index x command reply (Some (mkShard (SInstalling image stored previous) sd)) o' ->
  (exists bytes, command = DChunk (mv_id (ip_movement image)) (len64 stored) bytes
     /\ o' = Some (mkShard (SInstalling image (stored ++ bytes) previous) sd))
  \/ (exists im, command = DResetInstall im)
  \/ (exists body, len64 stored = ip_bytes image /\ from_slice stored = Some body
        /\ mkShardImage 1 (ip_movement image) (ip_fence image) (dm_shard_count d) (si_data body) = body
        /\ o' = Some (mkShard (SInstalled (mkInstalledProof image (mkOrigin (dm_group d) index)) previous)
                        (Some (si_data body))))
  \/ exists abort, command = DAbortTransfer abort /\ ip_movement image = ab_movement abort
       /\ o' = undo_install previous.
Proof.
  inversion 1; subst.
  - match goal with H : _ = None \/ _ |- _ => destruct H as [?|(? & ? & ? & ? & _)]; discriminate end.
  - left. eauto.
  - right. left. eauto.
  - right. right. left. eauto 10.
  - right. right. right. eauto.
Qed.
Lemma installed_moves p previous sd o' :
  slot_step d index x command reply (Some (mkShard (SInstalled p previous) sd)) o' ->
  (exists o, command = DActivate o /\ ow_installation o = p
     /\ o' = Some (mkShard (SActive (ti_epoch (mv_id (ip_movement (ow_image o))))
                     (Some (mkActivationProof o (mkOrigin (dm_group d) index)))) sd))
  \/ exists abort, command = DAbortTransfer abort /\ ip_movement (in_image p) = ab_movement abort
       /\ o' = undo_install previous.
Proof.
  inversion 1; subst.
  - match goal with H : _ = None \/ _ |- _ => destruct H as [?|(? & ? & ? & ? & _)]; discriminate end.
  - left. eauto.
  - right. eauto.
Qed.
End moves.

Section slots.
Context `{Fmt : TypeFormats} `{SerC : Serialize Controller} `{DFmt : DataFormats}.
Variable topology : Topology.
Variable s : System.
Hypothesis Hok : sys_ok topology s.
Notation now := (sy_now s).
Notation c := (sn_ctl (sy_now s)).
Variable i : Origin.
Hypothesis Hi : co_initialized_at c = Some i.

Lemma ctl_wf : wf c i.
Proof using Hok Hi.
  pose proof (so_ctl _ _ (seen_snapshot _ _ Hok _ (now_seen s))) as [_ Hg]. rewrite Hi in Hg. apply Hg.
Qed.
Notation W := ctl_wf.

(** ** Late commands of finished transfers *)

(** The command is not refused as aborted. *)
Lemma stale_fence t r : has c t -> complete t = true -> co_routes c !! N.to_nat (tr_shard t) = Some r ->
  tr_previous t = ro_epoch r -> ~ aborted_at now (mv_source (tr_movement t)) (tr_id t) -> False.
Proof using Hok Hi.
  intros Ht Hc Hr He Ha. destruct (epoch_le_route c i W _ r t Hr Ht eq_refl) as [_ Ho].
  pose proof (has_epoch c i W t Ht). unfold complete, owned in *.
  destruct (tr_phase t) as [|ab before [sr|] [dr|]| | | | | |] eqn:E; try discriminate.
  - apply Ha. apply (no_source _ _ (sk_now _ _ Hok)); [done|]. by rewrite E.
  - specialize (Ho eq_refl). lia.
Qed.

Lemma stale_begin t o : has c t -> complete t = true ->
  o = slot_at topology now (tr_shard t) (mv_destination (tr_movement t)) ->
  (o = None \/ exists a cleaned sd, o = Some (mkShard (SRetired a cleaned) sd) /\ ti_epoch (ac_id a) < tr_epoch t) ->
  ~ aborted_at now (mv_destination (tr_movement t)) (tr_id t) -> False.
Proof using Hok Hi.
  intros Ht Hc Ho Hq Ha. pose proof (has_epoch c i W t Ht). unfold complete in *.
  destruct (tr_phase t) as [|ab before [sr|] [dr|]| | | | | |] eqn:E; try discriminate.
  - apply Ha. apply (no_destination _ _ (sk_now _ _ Hok)); [done|]. by rewrite E.
  - pose proof (no_high _ _ (sk_now _ _ Hok) t Ht) as Hh. rewrite E, <- Ho in Hh. specialize (Hh ltac:(done)).
    destruct Hq as [->|(a & cl & sd & -> & Hlt)]; cbn in Hh; lia.
Qed.

(** ** The transfer a piece of evidence is about *)

Lemma same_transfer t t' : has c t -> has c t' -> tr_movement t' = tr_movement t -> t' = t.
Proof using Hok Hi. intros. by apply (has_unique_movement c i W). Qed.

Lemma evidence_image t image : has c t -> phase_image (tr_phase t) = Some image ->
  ip_movement image = tr_movement t.
Proof using Hok Hi. intros Ht Hp. by apply (phase_image_own c i W). Qed.

Lemma other_complete x t t' : live_of c x = Some t -> has c t' -> tr_shard t' = x -> t' <> t -> complete t' = true.
Proof using Hok Hi.
  intros (Ht & Hc & Hx)%(live_of_Some c i W) Ht' Hx' Hne.
  destruct (complete t') eqn:E; [done|]. exfalso. apply Hne. apply (live_unique c i W); congruence.
Qed.
Lemma none_complete x t' : live_of c x = None -> has c t' -> tr_shard t' = x -> complete t' = true.
Proof using Hok Hi. intros Hl. by apply (live_of_None c i W). Qed.

(** ** Frozen bytes *)

Lemma fenced_len g x image (data : ShardData) : g ∈ tp_groups topology -> initialized now g ->
  fenced_with image (slot_at topology now x g) data ->
  len64 (frozen topology image data) = ip_bytes image.
Proof using Hok.
  intros Hg Hin (previous & Hs). pose proof (seen_snapshot _ _ Hok _ (now_seen s)) as HS.
  destruct (so_data _ _ HS g Hg) as [[_ _ Hv] _].
  destruct (so_data_config _ _ HS g Hg Hin) as (_ & En & _).
  unfold slot_at in Hs. unfold initialized in Hin. destruct (dm_initialized_at (sn_data now g)); [|done].
  destruct (validated_shard _ _ _ Hv Hs) as (_ & _ & (_ & _ & data' & [= ->] & Him & _) & _).
  unfold frozen. by rewrite <- En.
Qed.

Lemma prefix_chunk {A} (stored whole : list A) k :
  stored `prefix_of` whole -> stored ++ take k (drop (length stored) whole) `prefix_of` whole.
Proof using.
  intros [rest ->]. rewrite drop_app_length. exists (drop k rest).
  by rewrite <- app_assoc, take_drop.
Qed.

(** A chunk the coordinator read from the source continues the frozen bytes. *)
Lemma export_frozen g x image id offset bytes sn :
  g ∈ tp_groups topology -> sn ∈ sy_seen s ->
  export (sn_data sn g) id offset = Done (image, bytes) -> ti_shard id = x ->
  exists data', fenced_with image (slot_at topology sn x g) data'
    /\ mv_id (ip_movement image) = id
    /\ bytes = take (N.to_nat CHUNK_BYTES) (drop (N.to_nat offset) (frozen topology image data')).
Proof using Hok.
  intros Hg Hsn He Hx. pose proof (seen_snapshot _ _ Hok _ Hsn) as HS.
  unfold export in He. apply Outcome_bind_Done in He as ([slot sd] & Hl%ok_or_Done & He). cbn in He.
  destruct slot as [|im prev| | |]; try discriminate.
  apply Outcome_bind_Done in He as ([] & G%refuse_if_Done & He). bool_inv.
  apply Outcome_bind_Done in He as (data' & Hd%ok_or_Done & He).
  apply Outcome_bind_Done in He as (bs & [-> _]%canonical_bytes_Done & He).
  apply Outcome_bind_Done in He as ([] & _ & He).
  apply Outcome_bind_Done in He as ([] & _ & [= -> <-]). subst.
  destruct (so_data _ _ HS g Hg) as [[_ _ Hv] _].
  assert (Hin : initialized sn g).
  { intros E. destruct (validated_uninitialized _ Hv E) as (_ & _ & _ & E' & _).
    by rewrite E', lookup_empty in Hl. }
  destruct (so_data_config _ _ HS g Hg Hin) as (_ & En & _).
  exists data'. split_and!; [|done|].
  - exists prev. unfold slot_at. unfold initialized in Hin.
    destruct (dm_initialized_at (sn_data sn g)); [|done]. exact Hl.
  - unfold frozen. by rewrite En.
Qed.

(** ** The moves that evidence allows *)

Section move.
Variables (g : GroupId) (index : N) (x : ShardId) (command : DataCommand) (reply : DataReply)
  (o' : option Shard) (rt : Route).
Let d : DataMachine := sn_data (sy_now s) g <| dm_applied := index |>.
Notation sl := (slot_at topology now x).
Hypothesis Hg : g ∈ tp_groups topology.
Hypothesis Hin : initialized now g.
Hypothesis Hev : evidence topology s g (OData command).
Hypothesis Hfresh : forall id, data_command_id command = Some id -> ~ aborted_at now g id.
Hypothesis Habort : forall ab, command = DAbortTransfer ab -> ~ aborted_at now g (mv_id (ab_movement ab)).
Hypothesis Hstep : slot_step d index x command reply (sl g) o'.
Hypothesis Hr : co_routes c !! N.to_nat x = Some rt.

Lemma group_d : dm_group d = g.
Proof using Hok Hg. apply (so_data _ _ (seen_snapshot _ _ Hok _ (now_seen s)) g Hg). Qed.

Lemma quiet_next e : quiet e (sl g) ->
  exists t image previous, has c t /\ complete t = false /\ tr_shard t = x
    /\ mv_destination (tr_movement t) = g /\ phase_image (tr_phase t) = Some image
    /\ o' = Some (mkShard (SInstalling image [] previous) None).
Proof using All.
  intros Hq. destruct (quiet_moves _ _ _ _ _ _ _ _ Hq Hstep) as (image & -> & Hd & Hx & Ho & Hc).
  destruct Hev as [_ (t & Ht & Hp)]. pose proof (evidence_image t image Ht Hp) as Hm.
  rewrite group_d in Hd. rewrite Hm in *.
  exists t, image, (previous_of (sl g)). split_and!; try done.
  destruct (complete t) eqn:E; [|done]. exfalso.
  apply (stale_begin t (sl g) Ht E); [unfold tr_shard, tr_id; by rewrite Hx, Hd|exact Hc|].
  rewrite Hd. apply Hfresh. cbn. unfold tr_id. by rewrite Hm.
Qed.

Lemma active_next e a data : sl g = Some (mkShard (SActive e a) (Some data)) -> e = ro_epoch rt ->
  (exists data', o' = Some (mkShard (SActive e a) (Some data')))
  \/ exists t image, has c t /\ complete t = false /\ tr_shard t = x
       /\ tr_movement t = ip_movement image /\ mv_source (tr_movement t) = g /\ tr_previous t = e
       /\ o' = Some (mkShard (SFenced image a) (Some data)).
Proof using All.
  intros Hs He. pose proof Hstep as H. rewrite Hs in H.
  destruct (active_moves _ _ _ _ _ _ _ _ _ H) as [(data' & _ & ->)|(image & -> & Hp & Hsrc & Hx & _ & _ & ->)];
    [eauto|right]. destruct Hev as [_ (t & Ht & Hm)]. rewrite group_d in Hsrc. rewrite <- Hm in *.
  exists t, image. split_and!; try done. destruct (complete t) eqn:E; [|done]. exfalso. subst x.
  apply (stale_fence t rt Ht E Hr); [by rewrite <- He|]. rewrite Hsrc. by apply Hfresh.
Qed.

Lemma fenced_next image previous data : sl g = Some (mkShard (SFenced image previous) (Some data)) ->
  (exists t a cleaned, has c t /\ phase_activation (tr_phase t) = Some a /\ ac_image a = image
     /\ o' = Some (mkShard (SRetired a cleaned) None))
  \/ exists t ab, has c t /\ phase_abort (tr_phase t) = Some ab /\ ip_movement image = tr_movement t
       /\ o' = Some (mkShard (SActive (mv_previous_epoch (ip_movement image)) previous) (Some data)).
Proof using All.
  intros Hs. pose proof Hstep as H. rewrite Hs in H.
  destruct (fenced_moves _ _ _ _ _ _ _ _ _ H) as [(a & -> & Ha & _ & ->)|(ab & -> & Hm & _ & ->)].
  - left. destruct Hev as [_ (t & Ht & Hp)]. eauto 10.
  - right. destruct Hev as [_ (t & Ht & Hp)]. exists t, ab. split_and!; try done.
    destruct (phase_abort_own c i W t ab Ht Hp) as (E & _). congruence.
Qed.

Lemma installing_next image stored previous sd :
  sl g = Some (mkShard (SInstalling image stored previous) sd) ->
  (exists t image' sn bytes, command = DChunk (mv_id (ip_movement image)) (len64 stored) bytes
     /\ has c t /\ tr_id t = mv_id (ip_movement image) /\ phase_image (tr_phase t) = Some image'
     /\ sn ∈ sy_seen s
     /\ export (sn_data sn (mv_source (tr_movement t))) (tr_id t) (len64 stored) = Done (image', bytes)
     /\ o' = Some (mkShard (SInstalling image (stored ++ bytes) previous) sd))
  \/ (exists body, len64 stored = ip_bytes image /\ from_slice stored = Some body
        /\ o' = Some (mkShard (SInstalled (mkInstalledProof image (mkOrigin g index)) previous)
                        (Some (si_data body))))
  \/ exists t ab, has c t /\ phase_abort (tr_phase t) = Some ab /\ ip_movement image = tr_movement t
       /\ o' = undo_install previous.
Proof using All.
  intros Hs. pose proof Hstep as H. rewrite Hs in H.
  destruct (installing_moves _ _ _ _ _ _ _ _ _ _ H)
    as [(bytes & -> & ->)|[(im & ->)|[(body & Hl & Hb & _ & ->)|(ab & -> & Hm & ->)]]].
  - left. destruct Hev as [_ (t & im & sn & Ht & Hid & Hp & Hsn & He)]. rewrite <- Hid in He. eauto 15.
  - destruct Hev as [_ []].
  - right. left. exists body. split_and!; try done. by rewrite group_d.
  - right. right. destruct Hev as [_ (t & Ht & Hp)]. exists t, ab. split_and!; try done.
    destruct (phase_abort_own c i W t ab Ht Hp) as (E & _). congruence.
Qed.

Lemma installed_next p previous sd :
  sl g = Some (mkShard (SInstalled p previous) sd) ->
  (exists t o, has c t /\ phase_ownership (tr_phase t) = Some o /\ ow_installation o = p
     /\ o' = Some (mkShard (SActive (tr_epoch t) (Some (mkActivationProof o (mkOrigin g index)))) sd))
  \/ exists t ab, has c t /\ phase_abort (tr_phase t) = Some ab /\ ip_movement (in_image p) = tr_movement t
       /\ o' = undo_install previous.
Proof using All.
  intros Hs. pose proof Hstep as H. rewrite Hs in H.
  destruct (installed_moves _ _ _ _ _ _ _ _ _ H) as [(o & -> & Ho & ->)|(ab & -> & Hm & ->)].
  - left. destruct Hev as [_ (t & Ht & Hp)]. exists t, o. split_and!; try done.
    rewrite group_d. unfold tr_epoch, tr_id. by rewrite <- (phase_ownership_own c i W t o Ht Hp).
  - right. destruct Hev as [_ (t & Ht & Hp)]. exists t, ab. split_and!; try done.
    destruct (phase_abort_own c i W t ab Ht Hp) as (E & _). congruence.
Qed.

(** What was given up before the installation began is below its epoch. *)
Lemma undo_quiet o image previous : sl g = Some o ->
  (exists bytes sd, o = mkShard (SInstalling image bytes previous) sd)
  \/ (exists p sd, o = mkShard (SInstalled p previous) sd /\ in_image p = image) ->
  quiet (mv_previous_epoch (ip_movement image)) (undo_install previous).
Proof using Hok Hg Hin.
  intros Hs Hc. destruct previous as [old|]; [|by left]. right.
  exists (rs_activation old), (rs_cleaned old), None. split; [done|].
  pose proof (seen_snapshot _ _ Hok _ (now_seen s)) as HS.
  destruct (so_data _ _ HS g Hg) as [[_ _ Hv] _].
  assert (E : dm_shards (sn_data now g) !! x = Some o).
  { unfold slot_at in Hs. unfold initialized in Hin. by destruct (dm_initialized_at (sn_data now g)). }
  destruct (validated_shard _ _ _ Hv E) as (_ & _ & Hsound & _).
  assert (Hb : forall m, movement_valid (sn_data now g) m = true ->
    mv_previous_epoch m + 1 = ti_epoch (mv_id m)) by (intros m Hm; apply (movement_valid_bounds _ _ Hm)).
  assert (Hret : retired_valid (sn_data now g) x old (ti_epoch (mv_id (ip_movement image))) = true
                 /\ movement_valid (sn_data now g) (ip_movement image) = true).
  { destruct Hc as [(bytes & sd & ->)|(p & sd & -> & <-)].
    - destruct Hsound as [Hinv Hold]. split; [by apply Hold|]. cbn in Hinv.
      unfold installing_invalid in Hinv. by bool_inv.
    - destruct Hsound as (Hinv & Hold & _). split; [by apply Hold|]. cbn in Hinv.
      unfold installation_invalid in Hinv. by bool_inv. }
  destruct Hret as [Hret Hm]. specialize (Hb _ Hm). unfold retired_valid in Hret. bool_inv.
  unfold ac_id. lia.
Qed.

(** *** The unfinished transfer *)

Section live.
Variable t : Transfer.
Hypothesis Hlive : live_of c x = Some t.
Notation m := (tr_movement t).
Notation e := (mv_previous_epoch (tr_movement t)).

Lemma live_facts : has c t /\ complete t = false /\ tr_shard t = x
  /\ (ro_owner rt, ro_epoch rt) = phase_route t.
Proof using Hok Hi Hr Hlive.
  destruct (proj1 (live_of_Some c i W x t) Hlive) as (Ht & Hc & Hx). split_and!; try done.
  destruct (has_route c i W t Ht) as (r' & Hr' & Hp). rewrite Hx, Hr in Hr'. injection Hr' as <-.
  by apply Hp.
Qed.
Lemma live_only u : has c u -> complete u = false -> tr_shard u = x -> u = t.
Proof using Hok Hi Hlive.
  intros Hu Hc Hx. assert (live_of c x = Some u) by (by apply (live_of_Some c i W)). congruence.
Qed.
Lemma live_moved u : has c u -> tr_movement u = m -> u = t.
Proof using Hok Hi Hr Hlive. intros Hu E. destruct live_facts as (Ht & _). by apply same_transfer. Qed.
Lemma live_image u image : has c u -> phase_image (tr_phase u) = Some image -> ip_movement image = m -> u = t.
Proof using Hok Hi Hr Hlive. intros Hu Hp E. apply live_moved; [done|]. by rewrite <- (evidence_image u image). Qed.
Lemma live_activation u a : has c u -> phase_activation (tr_phase u) = Some a ->
  ip_movement (ac_image a) = m -> u = t.
Proof using Hok Hi Hr Hlive.
  intros Hu Hp E. apply live_moved; [done|]. by destruct (phase_activation_own c i W u a Hu Hp) as [<- _].
Qed.
Lemma live_ownership u o : has c u -> phase_ownership (tr_phase u) = Some o ->
  ip_movement (ow_image o) = m -> u = t.
Proof using Hok Hi Hr Hlive.
  intros Hu Hp E. apply live_moved; [done|]. by rewrite <- (phase_ownership_own c i W u o Hu Hp).
Qed.

(** The epoch of the route in the phases before and after the ownership change. *)
Lemma live_epoch : ro_epoch rt = if owned t then tr_epoch t else e.
Proof using Hok Hi Hr Hlive.
  destruct live_facts as (_ & _ & _ & Hp). unfold phase_route in Hp. unfold owned, tr_epoch.
  by destruct (is_some _); injection Hp.
Qed.

(** **** A source that is active *)
Lemma active_source a data : g = mv_source m -> owned t = false ->
  sl g = Some (mkShard (SActive e a) (Some data)) ->
  (exists data', active_with e o' data') \/ exists image data', ip_movement image = m /\ fenced_with image o' data'.
Proof using All.
  intros Hgs Ho Hs. pose proof live_epoch as He. rewrite Ho in He.
  destruct (active_next _ _ _ Hs (eq_sym He)) as [(data' & ->)|(u & image & Hu & Hc & Hx & Hm & _ & _ & ->)].
  - left. exists data'. by exists a.
  - right. rewrite (live_only u Hu Hc Hx) in Hm. exists image, data. split; [done|]. by exists a.
Qed.
(** **** ... and a destination that is *)
Lemma active_destination a data : g = mv_destination m -> owned t = true ->
  sl g = Some (mkShard (SActive (tr_epoch t) (Some a)) (Some data)) ->
  exists data', o' = Some (mkShard (SActive (tr_epoch t) (Some a)) (Some data')).
Proof using All.
  intros Hgd Ho Hs. pose proof live_epoch as He. rewrite Ho in He. destruct live_facts as (Ht & _).
  destruct (active_next _ _ _ Hs (eq_sym He)) as [?|(u & image & Hu & Hc & Hx & _ & Hsrc & _ & _)]; [done|].
  rewrite (live_only u Hu Hc Hx) in Hsrc. destruct (has_ne c i W t Ht). congruence.
Qed.
(** A group that does not hold the shard begins to install it only for the
    unfinished transfer. *)
Lemma quiet_destination e' : quiet e' (sl g) ->
  g = mv_destination m /\ exists image previous, phase_image (tr_phase t) = Some image /\ ip_movement image = m
    /\ o' = Some (mkShard (SInstalling image [] previous) None).
Proof using All.
  intros Hq. destruct (quiet_next _ Hq) as (u & image & previous & Hu & Hc & Hx & Hd & Hp & Ho).
  pose proof (live_only u Hu Hc Hx) as ->. split; [done|]. exists image, previous. split_and!; try done.
  by apply evidence_image.
Qed.
(** A frozen source is cleaned up or released only by what the transfer recorded. *)
Lemma fenced_source image data : g = mv_source m -> ip_movement image = m -> fenced_with image (sl g) data ->
  (exists a cleaned, phase_activation (tr_phase t) = Some a /\ ac_image a = image
     /\ o' = Some (mkShard (SRetired a cleaned) None))
  \/ phase_abort (tr_phase t) <> None /\ exists data', active_with e o' data'.
Proof using All.
  intros Hgs Hm (previous & Hs).
  destruct (fenced_next _ _ _ Hs) as [(u & a & cl & Hu & Hp & Ha & Ho)|(u & ab & Hu & Hp & Hmu & Ho)].
  - left. rewrite <- (live_activation u a Hu Hp) by (by rewrite Ha). eauto.
  - right. rewrite Hm in Hmu. rewrite <- (live_moved u Hu) at 1 by done. split; [by rewrite Hp|].
    exists data, previous. by rewrite Ho, Hm.
Qed.

Lemma source_moves : g = mv_source m -> phase_slots topology t (sl g) (sl (mv_destination m)) ->
  phase_slots topology t o' (sl (mv_destination m)).
Proof using All.
  intros Hgs.
  assert (HQ : forall a cl sd, sl g = Some (mkShard (SRetired a cl) sd) -> False).
  { intros a cl sd Hs. destruct (quiet_destination (ti_epoch (ac_id a))) as [Hgd _].
    { right. exists a, cl, sd. split; [done|lia]. }
    destruct live_facts as (Ht & _). destruct (has_ne c i W t Ht). congruence. }
  pose proof active_source as HA. pose proof fenced_source as HF.
  destruct live_facts as (Ht & _). pose proof (has_ne c i W t Ht) as Hne.
  pose proof (phase_image_own c i W t) as HI. unfold owned in HA. unfold phase_slots.
  destruct (tr_phase t) as [|ab before sr dr|im|p|o|a|a cl|a cl co] eqn:E; cbn in HA, HF, HI.
  - intros [[(data & a & Hs)|(image & data & Hm & Hf)] Hd]; (split; [|done]).
    + by eapply HA.
    + destruct (HF image data Hgs Hm Hf) as [(? & ? & ? & _)|[? _]]; done.
  - intros [[(data & a & Hs)|(image & data & Hm & Hf)] Hd]; (split; [|done]).
    + by eapply HA.
    + destruct (HF image data Hgs Hm Hf) as [(? & ? & ? & _)|[_ ?]]; [done|by left].
  - intros (data & Hf & _). destruct (HI im Ht eq_refl) as [_ Hm].
    destruct (HF im data Hgs Hm Hf) as [(? & ? & ? & _)|[? _]]; done.
  - intros (data & Hf & _). destruct (HI (in_image p) Ht eq_refl) as [_ Hm].
    destruct (HF _ data Hgs Hm Hf) as [(? & ? & ? & _)|[? _]]; done.
  - intros (data & Hf & _). destruct (HI (ow_image o) Ht eq_refl) as [_ Hm].
    destruct (HF _ data Hgs Hm Hf) as [(? & ? & ? & _)|[? _]]; done.
  - intros [[(data & Hf)|(cl & sd & Hs)] Hd]; (split; [|done]).
    + destruct (HI (ac_image a) Ht eq_refl) as [_ Hm].
      destruct (HF _ data Hgs Hm Hf) as [(? & cl & [= <-] & _ & ->)|[? _]]; [|done]. right. eauto.
    + by destruct (HQ _ _ _ Hs).
  - intros [(sd & Hs) _]. by destruct (HQ _ _ _ Hs).
  - done.
Qed.

(** **** The destination *)

Lemma no_abort u ab : phase_abort (tr_phase t) = None -> has c u -> phase_abort (tr_phase u) = Some ab ->
  tr_movement u <> m.
Proof using Hok Hi Hr Hlive. intros Hn Hu Hp E. rewrite (live_moved u Hu E) in Hp. congruence. Qed.

(** The next chunk of a recorded image, as frozen at the source. *)
Lemma chunk_prefix image bytes stored data :
  phase_image (tr_phase t) = Some image -> phase_abort (tr_phase t) = None -> phase_activation (tr_phase t) = None ->
  fenced_with image (sl (mv_source m)) data -> stored `prefix_of` frozen topology image data ->
  (exists u image' sn, has c u /\ tr_id u = mv_id m /\ phase_image (tr_phase u) = Some image'
     /\ sn ∈ sy_seen s /\ export (sn_data sn (mv_source (tr_movement u))) (tr_id u) (len64 stored) = Done (image', bytes)) ->
  stored ++ bytes `prefix_of` frozen topology image data.
Proof using Hok Hi Hr Hlive.
  intros Hp Hna Hnc Hf Hpre (u & image' & sn & Hu & Hid & Hp' & Hsn & He).
  destruct live_facts as (Ht & _ & Hx & _).
  assert (u = t) as -> by (by apply (has_unique c i W)). rewrite Hp in Hp'. injection Hp' as <-.
  destruct (has_groups _ s Hok t Ht) as (Hgs & _).
  destruct (export_frozen _ x image _ _ _ _ Hgs Hsn He) as (data' & Hf' & _ & ->); [done|].
  destruct (phase_image_own c i W t image Ht Hp) as [_ Hm].
  destruct (ss_fenced _ _ _ (sk_seen _ _ Hok _ Hsn) _ _ _ _ Hgs Hf') as [Hf2|[Hab|(v & a & Hv & Hpa & Ha)]].
  - destruct Hf as (p1 & E1), Hf2 as (p2 & E2). rewrite E1 in E2. injection E2 as _ ->.
    unfold len64. rewrite Nat2N.id. by apply prefix_chunk.
  - exfalso. rewrite Hm in Hab. unfold aborted_at in Hab.
    destruct (dm_aborted _ !! _) as [record|] eqn:Er; [|done].
    destruct (no_aborted _ _ (sk_now _ _ Hok) _ _ _ Hgs Er) as (v & Hv & Hpv & Hk).
    apply (inj transfer_key) in Hk. assert (v = t) as -> by (by apply (has_unique c i W)). congruence.
  - exfalso. rewrite (live_activation v a Hv Hpa) in Hpa by (by rewrite Ha). congruence.
Qed.

(** A complete installation is the frozen data. *)
Lemma finish_frozen `{!DataLaws} image stored body data :
  fenced_with image (sl (mv_source m)) data -> stored `prefix_of` frozen topology image data ->
  len64 stored = ip_bytes image -> from_slice stored = Some body -> si_data body = data.
Proof using Hok Hi Hr Hlive.
  intros Hf [rest E] Hl Hb. destruct live_facts as (Ht & _).
  destruct (has_groups _ s Hok t Ht) as (Hgs & _).
  destruct (so_endpoints _ _ (seen_snapshot _ _ Hok _ (now_seen s)) t Ht) as [His _].
  pose proof (fenced_len _ _ _ _ Hgs His Hf) as Hlen. rewrite E in Hlen.
  unfold len64 in *. rewrite length_app in Hlen.
  assert (rest = []) as -> by (apply length_zero_iff_nil; lia). rewrite app_nil_r in E.
  unfold frozen in E. rewrite <- E, image_roundtrip in Hb. by injection Hb as <-.
Qed.

Lemma abandoned_moves : phase_ownership (tr_phase t) = None -> g = mv_destination m ->
  abandoned e m (sl g) -> abandoned e m o'.
Proof using All.
  intros Hno Hgd [Hq|[(image & bytes & Hm & previous & sd & Hs)|(p & data & Hm & previous & Hs)]].
  - destruct (quiet_destination _ Hq) as (_ & image & previous & _ & Hm & ->).
    right. left. exists image, []. split; [done|]. by eexists _, _.
  - destruct (installing_next _ _ _ _ Hs)
      as [(u & im & sn & bs & _ & _ & _ & _ & _ & _ & ->)|[(body & _ & _ & ->)|(u & ab & _ & _ & _ & Ho)]].
    + right. left. exists image, (bytes ++ bs). split; [done|]. by eexists _, _.
    + right. right. eexists _, _. split; [|by eexists]. done.
    + left. rewrite Ho, <- Hm. eapply undo_quiet; [exact Hs|]. left. eauto.
  - destruct (installed_next _ _ _ Hs) as [(u & o & Hu & Hp & Ho & _)|(u & ab & _ & _ & _ & Ho)].
    + exfalso. rewrite (live_ownership u o Hu Hp) in Hp by (unfold ow_image; by rewrite Ho). congruence.
    + left. rewrite Ho, <- Hm. eapply undo_quiet; [exact Hs|]. right. eauto.
Qed.

Lemma staged_moves `{!DataLaws} image data : tr_phase t = PFenced image -> g = mv_destination m ->
  fenced_with image (sl (mv_source m)) data -> staged topology e image (sl g) data ->
  staged topology e image o' data.
Proof using All.
  intros E Hgd Hf Hst. destruct live_facts as (Ht & _).
  destruct (phase_image_own c i W t image Ht) as [_ Hm]; [by rewrite E|].
  destruct Hst as [Hq|[(bytes & (previous & sd & Hs) & Hpre)|(p & Hp & previous & Hs)]].
  - destruct (quiet_destination _ Hq) as (_ & im & previous & Hpi & _ & ->).
    rewrite E in Hpi. injection Hpi as ->. right. left. exists []. split; [by eexists _, _|apply prefix_nil].
  - destruct (installing_next _ _ _ _ Hs)
      as [(u & im & sn & bs & _ & Hu & Hid & Hpu & Hsn & He & ->)|[(body & Hl & Hb & ->)|(u & ab & Hu & Hpa & Hmu & _)]].
    + right. left. exists (bytes ++ bs). split; [by eexists _, _|].
      rewrite Hm in Hid. apply chunk_prefix; try done; [by rewrite E..|]. by exists u, im, sn.
    + right. right. exists (mkInstalledProof image (mkOrigin g index)). split; [done|].
      rewrite (finish_frozen _ _ _ _ Hf Hpre Hl Hb). by eexists.
    + exfalso. rewrite Hm in Hmu. apply (no_abort u ab); [by rewrite E|done..].
  - destruct (installed_next _ _ _ Hs) as [(u & o & Hu & Hpo & Ho & _)|(u & ab & Hu & Hpa & Hmu & _)].
    + exfalso. rewrite (live_ownership u o Hu Hpo), E in Hpo; [done|]. unfold ow_image. by rewrite Ho, Hp.
    + exfalso. rewrite Hp, Hm in Hmu. apply (no_abort u ab); [by rewrite E|done..].
Qed.

(** An installed destination moves only to what the controller owned. *)
Lemma installed_destination p data : ip_movement (in_image p) = m -> phase_abort (tr_phase t) = None ->
  installed_with p (sl g) data ->
  exists o, phase_ownership (tr_phase t) = Some o /\ ow_installation o = p
    /\ o' = Some (mkShard (SActive (tr_epoch t) (Some (mkActivationProof o (mkOrigin g index)))) (Some data)).
Proof using All.
  intros Hm Hna (previous & Hs).
  destruct (installed_next _ _ _ Hs) as [(u & o & Hu & Hpo & Ho & Ho')|(u & ab & Hu & Hpa & Hmu & _)].
  - assert (u = t) as -> by (apply (live_ownership u o Hu Hpo); unfold ow_image; by rewrite Ho). eauto.
  - exfalso. rewrite Hm in Hmu. by apply (no_abort u ab).
Qed.

Lemma destination_moves `{!DataLaws} : g = mv_destination m -> phase_slots topology t (sl (mv_source m)) (sl g) ->
  phase_slots topology t (sl (mv_source m)) o'.
Proof using All.
  intros Hgd. destruct live_facts as (Ht & _). pose proof (phase_image_own c i W t) as HI.
  pose proof staged_moves as HS. pose proof installed_destination as HD.
  pose proof quiet_destination as HQ. pose proof active_destination as HA. pose proof abandoned_moves as HB.
  unfold owned in HA. unfold phase_slots.
  destruct (tr_phase t) as [|ab before sr dr|im|p|o|a|a cl|a cl co] eqn:E; cbn in HA, HI, HD, HQ, HB.
  - intros [? Hq]. by destruct (HQ _ Hq) as (_ & ? & ? & ? & _).
  - intros [Hs Hd]. split; [exact Hs|]. exact (HB eq_refl Hgd Hd).
  - intros (data & Hf & Hst). exists data. split; [done|]. by apply HS.
  - intros (data & Hf & Hs). destruct (HI (in_image p) Ht eq_refl) as [_ Hm].
    by destruct (HD p data Hm eq_refl Hs) as (? & ? & _).
  - intros (data & Hf & Hs). exists data. split; [done|]. right.
    destruct (HI (ow_image o) Ht eq_refl) as [_ Hm].
    destruct Hs as [Hs|(a & data' & Ha & Hs)].
    + destruct (HD _ data Hm eq_refl Hs) as (o1 & [= <-] & _ & ->). by exists (mkActivationProof o (mkOrigin g index)), data.
    + destruct (HA a data' Hgd eq_refl Hs) as (data2 & ->). by exists a, data2.
  - intros [Hs (data & Hd)]. split; [done|]. by apply (HA a data).
  - intros [Hs (data & Hd)]. split; [done|]. by apply (HA a data).
  - done.
Qed.

Lemma coupled_transfer_moves `{!DataLaws} : coupled_transfer topology t sl -> coupled_transfer topology t (set_slot g o' sl).
Proof using All.
  intros [Hothers Hp]. destruct live_facts as (Ht & _). pose proof (has_ne c i W t Ht) as Hne. split.
  - intros g' H1 H2. destruct (decide (g' = g)) as [->|Hg']; [|rewrite set_slot_ne by done; auto].
    destruct (quiet_destination _ (Hothers g H1 H2)) as [Hd _]. congruence.
  - destruct (decide (g = mv_source m)) as [Es|Hs]; [|destruct (decide (g = mv_destination m)) as [Ed|Hd]].
    + rewrite <- Es, set_slot_eq, set_slot_ne in * by congruence. by apply source_moves.
    + rewrite <- Ed, set_slot_eq, set_slot_ne in * by congruence. by apply destination_moves.
    + by rewrite !set_slot_ne by congruence.
Qed.
End live.

(** Whatever a data group commits, the slots fit the controller's phases. *)
Lemma coupled_move `{!DataLaws} : coupled topology rt (live_of c x) sl -> coupled topology rt (live_of c x) (set_slot g o' sl).
Proof using All.
  destruct (live_of c x) as [t|] eqn:Hl; cbn [coupled]; [by apply coupled_transfer_moves|].
  intros [(data & a & Hs) Hq]. split.
  - destruct (decide (ro_owner rt = g)) as [Eg|Hne]; [|rewrite set_slot_ne by done; exists data, a; done].
    rewrite Eg, set_slot_eq in *. destruct (active_next _ _ _ Hs eq_refl) as [(data' & ->)|(u & im & Hu & Hc & Hx & _)].
    + by exists data', a.
    + rewrite (none_complete x u Hl Hu Hx) in Hc. done.
  - intros g' Hg'. destruct (decide (g' = g)) as [->|Hne]; [|rewrite set_slot_ne by done; auto].
    destruct (quiet_next _ (Hq g Hg')) as (u & im & prev & Hu & Hc & Hx & _).
    rewrite (none_complete x u Hl Hu Hx) in Hc. done.
Qed.
End move.
End slots.

(** * One step of the system, reduced to what it must show

    The invariant speaks of every snapshot ever seen; [push_ok] reduces its
    preservation to the step itself: the new snapshot on its own, the present
    relations, and what the last snapshot's slots mean in the new one. *)
Section step.
Context `{Fmt : TypeFormats} `{SerC : Serialize Controller} `{DFmt : DataFormats}.
Variable topology : Topology.

(** Every activation a slot names was recorded by the controller. *)
Record named_ok (sn : Snapshot) : Prop := {
  nk_serves : forall g x a, g ∈ tp_groups topology -> serves (slot_at topology sn x g) = Some a ->
    exists t, has (sn_ctl sn) t /\ phase_ownership (tr_phase t) = Some (ac_ownership a);
  nk_gave_up : forall g x a, g ∈ tp_groups topology -> gave_up (slot_at topology sn x g) = Some a ->
    exists t, has (sn_ctl sn) t /\ phase_activation (tr_phase t) = Some a;
}.

Lemma seen_refl sn : named_ok sn -> seen_ok topology sn sn.
Proof.
  intros [H1 H2]. split; try done.
  - intros g x image data _ Hf. by left.
  - intros g x p data _ Hf. by left.
  - intros g x e a data _ Hs t _ _. by exists data.
Qed.
Lemma seen_named sn : seen_ok topology sn sn -> named_ok sn.
Proof. intros H. split; apply H. Qed.

Lemma later_has c c' t : later c c' -> has c t ->
  exists t', has c' t' /\ tr_movement t' = tr_movement t /\ extends (tr_phase t) (tr_phase t').
Proof.
  intros Hl [q Hq]. destruct (lt_transfers _ _ Hl _ _ Hq) as (t' & Ht' & _ & Hm & He).
  exists t'. split_and!; try done. by exists q.
Qed.

Lemma aborted_later sn sn' g id : data_later (sn_data sn g) (sn_data sn' g) ->
  aborted_at sn g id -> aborted_at sn' g id.
Proof.
  unfold aborted_at. intros Hl. destruct (dm_aborted (sn_data sn g) !! _) as [record|] eqn:E; [|done].
  intros _. by rewrite (dl_aborted _ _ Hl _ _ E).
Qed.

Lemma seen_trans sn now now' : good (sn_ctl now') ->
  seen_ok topology sn now -> seen_ok topology now now' -> seen_ok topology sn now'.
Proof.
  intros Hgood A B.
  pose proof (ss_ctl _ _ _ B) as HL.
  split.
  - etrans; [apply A|apply B].
  - intros g Hg. etrans; [by apply A|by apply B].
  - intros g x image data Hg Hf.
    destruct (ss_fenced _ _ _ A _ _ _ _ Hg Hf) as [Hf'|[Ha|(t & a & Ht & Hp & Ha)]].
    + by apply (ss_fenced _ _ _ B).
    + right. left. eapply aborted_later; [by apply (ss_data _ _ _ B)|done].
    + right. right. destruct (later_has _ _ t HL Ht) as (t' & Ht' & _ & He).
      exists t', a. split_and!; try done. by apply (ex_activation _ _ He).
  - intros g x p data Hg Hf.
    destruct (ss_installed _ _ _ A _ _ _ _ Hg Hf) as [Hf'|[Ha|(t & a & Ht & Hp & Ha)]].
    + by apply (ss_installed _ _ _ B).
    + right. left. eapply aborted_later; [by apply (ss_data _ _ _ B)|done].
    + right. right. destruct (later_has _ _ t HL Ht) as (t' & Ht' & _ & He).
      exists t', a. split_and!; try done. by apply (ex_ownership _ _ He).
  - intros g x a Hg Hs. destruct (ss_serves _ _ _ A _ _ _ Hg Hs) as (t & Ht & Hp).
    destruct (later_has _ _ t HL Ht) as (t' & Ht' & _ & He). exists t'. split; [done|]. by apply (ex_ownership _ _ He).
  - intros g x e a data Hg Hs t' Ht' Hp'.
    assert (Hsv : serves (slot_at topology sn x g) = Some a) by (by rewrite Hs).
    destruct (ss_serves _ _ _ A _ _ _ Hg Hsv) as (u & Hu & Hpu).
    destruct (later_has _ _ u HL Hu) as (u' & Hu' & Hm & He).
    destruct (has_initialized _ _ Hgood Ht') as (i & _ & W).
    assert (u' = t') as ->.
    { apply (has_unique_movement _ _ W); [done..|].
      rewrite <- (phase_ownership_own _ _ W u' (ac_ownership a) Hu' (ex_ownership _ _ He _ Hpu)).
      by apply (phase_ownership_own _ _ W t'); [done|rewrite Hp']. }
    assert (Hpn : tr_phase u = POwned (ac_ownership a)).
    { pose proof (ex_activation _ _ He) as Hact. rewrite Hp' in Hact. unfold stays in Hact.
      destruct (tr_phase u); cbn in Hpu, Hact; try discriminate; [by injection Hpu as ->|..];
        by specialize (Hact _ eq_refl). }
    destruct (ss_active _ _ _ A _ _ _ _ _ Hg Hs u Hu Hpn) as (data1 & Hs1).
    by apply (ss_active _ _ _ B _ _ _ _ _ Hg Hs1 t').
  - intros g x a Hg Hs. destruct (ss_gave_up _ _ _ A _ _ _ Hg Hs) as (t & Ht & Hp).
    destruct (later_has _ _ t HL Ht) as (t' & Ht' & _ & He). exists t'. split; [done|]. by apply (ex_activation _ _ He).
  - intros g x a cleaned sd Hg Hs t' Ht' Hp'.
    assert (Hsv : gave_up (slot_at topology sn x g) = Some a) by (by rewrite Hs).
    destruct (ss_gave_up _ _ _ A _ _ _ Hg Hsv) as (u & Hu & Hpu).
    destruct (later_has _ _ u HL Hu) as (u' & Hu' & Hm & He).
    destruct (has_initialized _ _ Hgood Ht') as (i & _ & W).
    assert (u' = t') as ->.
    { apply (has_unique_movement _ _ W); [done..|].
      destruct (phase_activation_own _ _ W u' a Hu' (ex_activation _ _ He _ Hpu)) as [<- _].
      destruct (phase_activation_own _ _ W t' a Ht') as [<- _]; [by rewrite Hp'|done]. }
    assert (Hpn : tr_phase u = PActivated a).
    { pose proof (ex_cleaned _ _ He) as Hact. rewrite Hp' in Hact. unfold stays in Hact.
      destruct (tr_phase u); cbn in Hpu, Hact; try discriminate; [by injection Hpu as ->|..];
        by specialize (Hact _ eq_refl). }
    apply (ss_retired _ _ _ B _ _ _ _ _ Hg (ss_retired _ _ _ A _ _ _ _ _ Hg Hs u Hu Hpn) t'); done.
Qed.

(** What a step has to show. *)
Lemma push_ok s now' :
  sys_ok topology s -> snapshot_ok topology now' -> now_ok topology now' ->
  seen_ok topology (sy_now s) now' -> named_ok now' -> sys_ok topology (push s now').
Proof.
  intros [H1 H2 H3] S N B K. pose proof (so_ctl _ _ S) as Hg. split; cbn.
  - intros sn [->|Hsn]%elem_of_cons; [done|]. by apply H1.
  - done.
  - intros sn [->|Hsn]%elem_of_cons; [by apply seen_refl|].
    eapply seen_trans; [done|by apply H3|done].
Qed.

(** Slot functions that agree. *)
Lemma phase_slots_ext t o1 o2 o1' o2' :
  o1' = o1 -> o2' = o2 -> phase_slots topology t o1 o2 -> phase_slots topology t o1' o2'.
Proof. by intros -> ->. Qed.
Lemma coupled_ext r live sl sl' : (forall g, sl' g = sl g) -> coupled topology r live sl -> coupled topology r live sl'.
Proof.
  intros He. destruct live as [t|]; cbn.
  - intros [Hq Hp]. split; [|by rewrite !He]. intros g H1 H2. rewrite He. auto.
  - intros [Ha Hq]. split; [by rewrite He|]. intros g Hg. rewrite He. auto.
Qed.
End step.
