(* ===== verification/HandoffData.v ===== *)
(** * Commits of the data groups keep the system's invariant *)
From S2P Require Import Prelude Types Quorum Membership ShardTypes Topology Controller ControllerInv ControllerSafe ControllerGuarantees ControllerTheorems ShardData ShardDataInv ShardSteps ShardGuarantees ShardMachine Service Handoff HandoffEvidence HandoffSlots.
Local Open Scope N_scope.
Local Open Scope raft_scope.

(** ** What a move of a slot keeps *)

Section local.
Context `{Fmt : TypeFormats} `{DFmt : DataFormats}.
Variables (d : DataMachine) (index : N) (x : ShardId) (command : DataCommand) (reply : DataReply).

Lemma step_serves o o' a : slot_step d index x command reply o o' -> serves o' = Some a ->
  serves o = Some a \/ exists ownership, command = DActivate ownership /\ ac_ownership a = ownership.
Proof.
  intros H. destruct H; cbn; auto; try discriminate.
  - intros [= <-]. right. subst. eauto.
  - destruct previous; discriminate.
  - destruct previous; discriminate.
Qed.
Lemma step_gave_up o o' a : slot_step d index x command reply o o' -> gave_up o' = Some a ->
  gave_up o = Some a \/ command = DCleanup a.
Proof.
  intros H. destruct H as [| |image before ? ? ? ? Hb| | | | | | | |]; cbn; auto; try discriminate.
  - destruct Hb as [->|(act & cl & sd & -> & _)]; cbn; auto.
  - intros [= <-]. by right.
  - destruct previous; cbn; auto.
  - destruct previous; cbn; auto.
Qed.

(** The epoch a slot has served or given up never falls. *)
Lemma step_high d0 o o' : slot_step d index x command reply o o' ->
  (forall sh, o = Some sh -> slot_sound d0 x sh) -> high o <= high o'.
Proof.
  intros H Hs.
  assert (Hret : forall m old, retired_valid d0 x old (ti_epoch (mv_id m)) = true ->
    ti_epoch (ac_id (rs_activation old)) < ti_epoch (mv_id m)).
  { intros m old Hr. unfold retired_valid in Hr. bool_inv. unfold ac_id. lia. }
  destruct H as [| |image before ? ? ? ? Hb| | | |ownership previous sd activation ? ? ? Ha
                |activation previous sd Hv| |ab image stored previous sd|ab p previous sd]; cbn; try lia.
  - subst. lia.
  - destruct Hb as [->|(act & cl & sd & -> & _)]; cbn; lia.
  - specialize (Hs _ eq_refl) as (Hi & Hold & _). cbn in Hold.
    destruct previous as [old|]; cbn; [|lia]. specialize (Hold old eq_refl).
    unfold installation_invalid in Hi. bool_inv. pose proof (Hret _ _ Hold).
    subst activation. unfold ac_id, ac_image, ow_image in *. cbn [ac_ownership]. lia.
  - unfold activation_valid, ownership_valid, installed_valid, image_valid, move_valid in Hv. bool_inv.
    match goal with H : checked_add _ _ = _ |- _ => apply checked_add_Some in H as [H _] end.
    unfold ac_id, ac_image, ow_image in *. lia.
  - match goal with H : ip_movement _ = ab_movement _ |- _ => rewrite <- H end. lia.
  - destruct previous; cbn; lia.
  - destruct previous; cbn; lia.
Qed.

End local.

Section data_step.
Context `{Fmt : TypeFormats} `{SerC : Serialize Controller} `{DFmt : DataFormats} `{Laws : !DataLaws}.
Variable topology : Topology.
Variable s : System.
Hypothesis Hok : sys_ok topology s.
Notation now := (sy_now s).
Notation c := (sn_ctl (sy_now s)).
Variables (g : GroupId) (d' : DataMachine).
Hypothesis Hg : g ∈ tp_groups topology.
Let d : DataMachine := sn_data (sy_now s) g.
Let now' : Snapshot := put_machine (sy_now s) g (MData d').

Lemma now_snapshot : snapshot_ok topology now.
Proof using Hok. apply (seen_snapshot _ _ Hok _ (now_seen s)). Qed.
Lemma now_named : named_ok topology now.
Proof using Hok. apply seen_named, (sk_seen _ _ Hok). left. Qed.

Lemma data_at g' : sn_data now' g' = if g' =? g then d' else sn_data now g'.
Proof using. done. Qed.
Lemma data_at_eq : sn_data now' g = d'.
Proof using. rewrite data_at. by rewrite N.eqb_refl. Qed.
Lemma data_at_ne g' : g' <> g -> sn_data now' g' = sn_data now g'.
Proof using. intros Hne. rewrite data_at. by rewrite (proj2 (N.eqb_neq _ _) Hne). Qed.
Lemma slot_at_ne x g' : g' <> g -> slot_at topology now' x g' = slot_at topology now x g'.
Proof using. intros Hne. unfold slot_at. by rewrite data_at_ne. Qed.

(** The new machine, in itself and against the old one. *)
Hypothesis Hgood : data_good d'.
Hypothesis Hlater : data_later d d'.
Hypothesis Hconfig : dm_initialized_at d' <> None ->
  dm_groups d' = tp_groups topology /\ dm_shard_count d' = len64 (tp_owners topology)
  /\ co_initialized_at c <> None.

Lemma data_group : dm_group d = g /\ dm_group d' = g.
Proof using Hok Hg Hlater.
  destruct (so_data _ _ now_snapshot g Hg) as [_ E]. split; [done|]. by rewrite (dl_group _ _ Hlater).
Qed.
Lemma data_laters g' : g' ∈ tp_groups topology -> data_later (sn_data now g') (sn_data now' g').
Proof using Hlater.
  intros _. destruct (decide (g' = g)) as [->|Hne]; [by rewrite data_at_eq|by rewrite data_at_ne].
Qed.
Lemma initialized_later g' : initialized now g' -> initialized now' g'.
Proof using Hlater.
  unfold initialized. destruct (decide (g' = g)) as [->|Hne]; [|by rewrite data_at_ne].
  rewrite data_at_eq. intros Hn. fold d in Hn. destruct (dm_initialized_at d) as [i|] eqn:E; [|done].
  by rewrite (dl_initialized _ _ Hlater _ E).
Qed.

Lemma data_snapshot_ok : snapshot_ok topology now'.
Proof using All.
  destruct now_snapshot as [H1 H2 H3 H4 H5 H6]. split; try done.
  - intros g' Hg'. destruct (decide (g' = g)) as [->|Hne]; [|rewrite data_at_ne by done; auto].
    rewrite data_at_eq. split; [done|apply data_group].
  - intros g' Hg'. rewrite data_at_ne by congruence. auto.
  - intros g' Hg' Hi. unfold initialized in Hi.
    destruct (decide (g' = g)) as [->|Hne]; [rewrite data_at_eq in *; auto|rewrite data_at_ne in * by done; auto].
  - intros t Ht. destruct (H6 t Ht). auto using initialized_later.
Qed.

(** ** Slots that stay *)

Lemma frame_ok : dm_aborted d' = dm_aborted d ->
  (forall x, slot_at topology now' x g = slot_at topology now x g) -> sys_ok topology (push s now').
Proof using All.
  intros Ha Hs.
  assert (HS : forall x g', slot_at topology now' x g' = slot_at topology now x g').
  { intros x g'. destruct (decide (g' = g)) as [->|Hne]; [done|by apply slot_at_ne]. }
  assert (HA : forall g', dm_aborted (sn_data now' g') = dm_aborted (sn_data now g')).
  { intros g'. destruct (decide (g' = g)) as [->|Hne]; [by rewrite data_at_eq|by rewrite data_at_ne]. }
  destruct (sk_now _ _ Hok) as [N1 N2 N3 N4 N5].
  apply push_ok; [done|apply data_snapshot_ok|split|split|split].
  - intros g' key record Hg' Hk. rewrite HA in Hk. eauto.
  - intros t Ht Hp. unfold aborted_at. rewrite HA. by apply N2.
  - intros t Ht Hp. unfold aborted_at. rewrite HA. by apply N3.
  - intros t Ht Hp. rewrite HS. by apply N4.
  - intros x r Hr. eapply coupled_ext; [by intros g'; apply HS|]. by apply N5.
  - reflexivity.
  - apply data_laters.
  - intros g' x image data _ Hf. left. by rewrite HS.
  - intros g' x p data _ Hf. left. by rewrite HS.
  - apply now_named.
  - intros g' x e a data _ Hf t _ _. exists data. by rewrite HS.
  - apply now_named.
  - intros g' x a cleaned sd _ Hf t _ _. by rewrite HS.
  - intros g' x a Hg' Hf. rewrite HS in Hf. exact (nk_serves _ _ now_named _ _ _ Hg' Hf).
  - intros g' x a Hg' Hf. rewrite HS in Hf. exact (nk_gave_up _ _ now_named _ _ _ Hg' Hf).
Qed.

(** ** An accepted command of an initialized group *)

Section executed.
Variables (index : N) (command : DataCommand) (reply : DataReply).
Let d1 : DataMachine := d <| dm_applied := index |>.
Hypothesis Hin : initialized now g.
Hypothesis Hev : evidence topology s g (OData command).
Hypothesis Hmoved : moved d1 index command reply d'.
Hypothesis Haborts : aborts_after d1 index command d'.

Lemma slots_initialized x : slot_at topology now x g = dm_shards d !! x /\ slot_at topology now' x g = dm_shards d' !! x.
Proof using Hin Hlater.
  unfold slot_at. rewrite data_at_eq. unfold initialized in Hin. fold d in Hin |- *.
  destruct (dm_initialized_at d) as [i|] eqn:E; [|done]. by rewrite (dl_initialized _ _ Hlater _ E).
Qed.
Lemma moved_slot x : slot_at topology now' x g = slot_at topology now x g
  \/ slot_step d1 index x command reply (slot_at topology now x g) (slot_at topology now' x g).
Proof using Hin Hlater Hmoved. destruct (slots_initialized x) as [-> ->]. apply Hmoved. Qed.

Lemma slot_valid x sh : slot_at topology now x g = Some sh ->
  slot_sound d x sh /\ x < len64 (tp_owners topology).
Proof using Hok Hg Hin Hlater.
  destruct (slots_initialized x) as [-> _]. intros Hx.
  destruct (so_data _ _ now_snapshot g Hg) as [[_ _ Hv] _]. fold d in Hv.
  destruct (so_data_config _ _ now_snapshot g Hg Hin) as (_ & En & _). fold d in En.
  destruct (validated_shard _ _ _ Hv Hx) as (Hlt & _ & Hs & _). by rewrite En in Hlt.
Qed.

Lemma executed_wf : exists i, co_initialized_at c = Some i /\ wf c i
  /\ length (co_routes c) = length (tp_owners topology).
Proof using All.
  destruct (so_data_config _ _ now_snapshot g Hg Hin) as (_ & _ & Hc).
  destruct (so_ctl _ _ now_snapshot) as [_ Hgc].
  destruct (co_initialized_at c) as [i|] eqn:Hi; [|done]. exists i.
  destruct (so_ctl_config _ _ now_snapshot i Hi). split_and!; [done|apply Hgc|done].
Qed.

Lemma slot_step_route x o' : slot_step d1 index x command reply (slot_at topology now x g) o' ->
  o' = slot_at topology now' x g -> exists rt, co_routes c !! N.to_nat x = Some rt.
Proof using All.
  intros Hs ->. destruct executed_wf as (i & _ & _ & Hlen).
  assert (Hx : x < len64 (tp_owners topology)).
  { destruct (slot_at topology now x g) as [sh|] eqn:E; [by apply (slot_valid x sh)|].
    destruct (slots_initialized x) as [_ E']. rewrite E' in Hs.
    destruct (dm_shards d' !! x) as [sh|] eqn:Hsh; [|by inversion Hs].
    destruct (validated_shard _ _ _ (dg_valid _ Hgood) Hsh) as (Hlt & _).
    destruct Hconfig as (_ & En & _); [|by rewrite En in Hlt].
    unfold initialized in Hin. fold d in Hin. destruct (dm_initialized_at d) as [j|] eqn:Ei; [|done].
    by rewrite (dl_initialized _ _ Hlater _ Ei). }
  apply lookup_lt_is_Some_2. unfold len64 in Hx. lia.
Qed.

(** *** Aborts *)

Lemma executed_fresh id : data_command_id command = Some id -> ~ aborted_at now g id.
Proof using All.
  intros Hid Ha. unfold aborted_at in Ha. fold d in Ha. destruct command; try discriminate; destruct Haborts as [_ H];
    exact (Ha (H id Hid)).
Qed.

(** An abort that was known already changes nothing; a new one is recorded. *)
Lemma executed_abort ab : command = DAbortTransfer ab ->
  d' = d1 \/ (~ aborted_at now g (mv_id (ab_movement ab)) /\ aborted_at now' g (mv_id (ab_movement ab))
     /\ dm_aborted d' = <[transfer_key (mv_id (ab_movement ab)) := mkAbortRecord ab (mkOrigin (dm_group d) index)]> (dm_aborted d)).
Proof using All.
  intros ->. destruct Haborts as (_ & _ & _ & [[E Hn]|[E _]]); [right|by left].
  unfold aborted_at. rewrite data_at_eq. fold d.
  change (dm_aborted d1) with (dm_aborted d) in *. change (dm_group d1) with (dm_group d) in E.
  rewrite E, Hn. split_and!; [by intros []|by rewrite lookup_insert_eq|done].
Qed.

Lemma executed_kind : (exists ab, command = DAbortTransfer ab) \/ dm_aborted d' = dm_aborted d.
Proof using All.
  revert Haborts. unfold aborts_after. clear -d'. destruct command; intros H; try (right; apply H). left. eauto.
Qed.

Lemma executed_aborted g' key record : g' ∈ tp_groups topology ->
  dm_aborted (sn_data now' g') !! key = Some record ->
  exists t, has c t /\ phase_abort (tr_phase t) = Some (abr_abort record) /\ key = transfer_key (tr_id t).
Proof using All.
  intros Hg' Hk. pose proof (no_aborted _ _ (sk_now _ _ Hok)) as HN.
  destruct (decide (g' = g)) as [->|Hne]; [|rewrite data_at_ne in Hk by done; eauto].
  rewrite data_at_eq in Hk. destruct executed_wf as (i & Hi & W & _).
  destruct executed_kind as [[ab Ec]|E]; [|rewrite E in Hk; by apply (HN g)].
  destruct (executed_abort ab Ec) as [E|(_ & _ & E)]; rewrite E in Hk; [by apply (HN g)|].
  apply lookup_insert_Some in Hk as [[<- <-]|[_ Hk]]; [|by apply (HN g)].
  pose proof Hev as Hev'. rewrite Ec in Hev'. destruct Hev' as [_ (t & Ht & Hp)]. exists t. split_and!; try done.
  destruct (phase_abort_own c i W t ab Ht Hp) as (E2 & _). unfold tr_id. by rewrite E2.
Qed.

(** *** The slots *)

(** A slot that moved, with what its move needs. *)
Lemma moved_cases x : slot_at topology now' x g = slot_at topology now x g
  \/ slot_step d1 index x command reply (slot_at topology now x g) (slot_at topology now' x g)
     /\ (exists rt, co_routes c !! N.to_nat x = Some rt)
     /\ (forall ab, command = DAbortTransfer ab ->
          ~ aborted_at now g (mv_id (ab_movement ab)) /\ aborted_at now' g (mv_id (ab_movement ab))).
Proof using All.
  destruct (moved_slot x) as [E|Hs]; [by left|].
  destruct (decide (slot_at topology now' x g = slot_at topology now x g)) as [E|Hne]; [by left|right].
  split_and!; [done|by eapply slot_step_route|]. intros ab Eab.
  destruct (executed_abort ab Eab) as [E|(H1 & H2 & _)]; [|done].
  exfalso. apply Hne. destruct (slots_initialized x) as [-> ->]. by rewrite E.
Qed.

Lemma executed_coupled x rt : co_routes c !! N.to_nat x = Some rt ->
  coupled topology rt (live_of c x) (slot_at topology now' x).
Proof using All.
  intros Hr. destruct executed_wf as (i & Hi & W & _).
  pose proof (no_coupled _ _ (sk_now _ _ Hok) x rt Hr) as Hc.
  destruct (moved_cases x) as [E|(Hs & _ & Hab)].
  - eapply coupled_ext; [|exact Hc]. intros g'. destruct (decide (g' = g)) as [->|Hne]; [done|by apply slot_at_ne].
  - eapply coupled_ext; [|eapply (coupled_move topology s Hok i Hi g index x command reply _ rt Hg Hin Hev
      executed_fresh (fun ab E => proj1 (Hab ab E)) Hs Hr Hc)].
    intros g'. unfold set_slot. destruct (N.eqb_spec g' g) as [->|Hne]; [done|by apply slot_at_ne].
Qed.

Lemma executed_high x : high (slot_at topology now x g) <= high (slot_at topology now' x g).
Proof using All.
  destruct (moved_cases x) as [->|(Hs & _)]; [lia|]. eapply step_high; [exact Hs|].
  intros sh Hsh. by apply slot_valid.
Qed.

Lemma executed_now_ok : now_ok topology now'.
Proof using All.
  destruct (sk_now _ _ Hok) as [_ N2 N3 N4 _]. split.
  - apply executed_aborted.
  - intros t Ht Hp. destruct (has_groups _ s Hok t Ht) as (Hs & _).
    eapply aborted_later; [by apply data_laters|]. by apply N2.
  - intros t Ht Hp. destruct (has_groups _ s Hok t Ht) as (_ & Hd & _).
    eapply aborted_later; [by apply data_laters|]. by apply N3.
  - intros t Ht Hp. specialize (N4 t Ht Hp). etrans; [exact N4|].
    destruct (decide (mv_destination (tr_movement t) = g)) as [E|Hne]; [|by rewrite slot_at_ne].
    rewrite E. apply executed_high.
  - apply executed_coupled.
Qed.

Lemma executed_named : named_ok topology now'.
Proof using All.
  pose proof now_named as [K1 K2]. split; intros g' x a Hg' Hs;
    (destruct (decide (g' = g)) as [->|Hne]; [|rewrite slot_at_ne in Hs by done; eauto]);
    (destruct (moved_cases x) as [E|(Hst & _)]; [rewrite E in Hs; eauto|]); pose proof Hev as Hev'.
  - destruct (step_serves _ _ _ _ _ _ _ _ Hst Hs) as [Hold|(o & Ec & <-)]; [eauto|].
    rewrite Ec in Hev'. by destruct Hev' as [_ ?].
  - destruct (step_gave_up _ _ _ _ _ _ _ _ Hst Hs) as [Hold|Ec]; [eauto|].
    rewrite Ec in Hev'. by destruct Hev' as [_ ?].
Qed.

(** *** What the old slots still mean *)

Lemma executed_fenced x image data : fenced_with image (slot_at topology now x g) data ->
  fenced_with image (slot_at topology now' x g) data
  \/ aborted_at now' g (mv_id (ip_movement image))
  \/ exists t a, has c t /\ phase_activation (tr_phase t) = Some a /\ ac_image a = image.
Proof using All.
  intros (previous & Hs). destruct (moved_cases x) as [->|(Hst & _ & Hab)]; [left; by exists previous|].
  rewrite Hs in Hst. pose proof Hev as Hev'.
  destruct (fenced_moves _ _ _ _ _ _ _ _ _ Hst) as [(a & Ec & Ha & _)|(ab & Ec & Hm & _)].
  - right. right. rewrite Ec in Hev'. destruct Hev' as [_ (t & Ht & Hp)]. eauto.
  - right. left. rewrite Hm. by apply Hab.
Qed.

Lemma executed_installed x p data : installed_with p (slot_at topology now x g) data ->
  installed_with p (slot_at topology now' x g) data
  \/ aborted_at now' g (mv_id (ip_movement (in_image p)))
  \/ exists t o, has c t /\ phase_ownership (tr_phase t) = Some o /\ ow_installation o = p.
Proof using All.
  intros (previous & Hs). destruct (moved_cases x) as [->|(Hst & _ & Hab)]; [left; by exists previous|].
  rewrite Hs in Hst. pose proof Hev as Hev'.
  destruct (installed_moves _ _ _ _ _ _ _ _ _ Hst) as [(o & Ec & Ho & _)|(ab & Ec & Hm & _)].
  - right. right. rewrite Ec in Hev'. destruct Hev' as [_ (t & Ht & Hp)]. eauto.
  - right. left. rewrite Hm. by apply Hab.
Qed.

(** The unfinished transfer behind a slot that names its proofs. *)
Lemma executed_live x rt t : co_routes c !! N.to_nat x = Some rt -> has c t -> complete t = false ->
  tr_shard t = x -> live_of c x = Some t.
Proof using All.
  intros Hr Ht Hc Hx. destruct executed_wf as (i & Hi & W & _). by apply (live_of_Some c i W).
Qed.

Lemma executed_active x e a data t :
  slot_at topology now x g = Some (mkShard (SActive e (Some a)) (Some data)) ->
  has c t -> tr_phase t = POwned (ac_ownership a) ->
  exists data', slot_at topology now' x g = Some (mkShard (SActive e (Some a)) (Some data')).
Proof using All.
  intros Hs Ht Hp. destruct (moved_cases x) as [->|(Hst & (rt & Hr) & Hab)]; [eauto|].
  destruct executed_wf as (i & Hi & W & _).
  destruct (slot_valid x _ Hs) as [(Hact & _) _]. cbn in Hact. unfold active_invalid in Hact. cbn in Hact. bool_inv.
  pose proof (phase_ownership_own c i W t (ac_ownership a) Ht) as Hm. rewrite Hp in Hm. specialize (Hm eq_refl).
  assert (Hid : ac_id a = tr_id t) by (unfold ac_id, tr_id, ac_image; by rewrite Hm).
  assert (Hc : complete t = false) by (unfold complete; by rewrite Hp).
  assert (Hl : live_of c x = Some t).
  { apply (executed_live x rt t Hr Ht Hc). unfold tr_shard. by rewrite <- Hid. }
  assert (Hd : g = mv_destination (tr_movement t)).
  { rewrite <- Hm. pose proof (proj1 data_group).
    match goal with H : activation_valid a = true |- _ => unfold activation_valid in H end. bool_inv.
    unfold ac_image in *. congruence. }
  assert (He : e = tr_epoch t) by (unfold tr_epoch; by rewrite <- Hid). rewrite He in Hs |- *.
  apply (active_destination topology s Hok i Hi g index x command reply _ rt Hg Hin Hev executed_fresh
    (fun ab E => proj1 (Hab ab E)) Hst Hr t Hl a data Hd); [|done]. unfold owned. by rewrite Hp.
Qed.

Lemma executed_retired x a cleaned sd t :
  slot_at topology now x g = Some (mkShard (SRetired a cleaned) sd) ->
  has c t -> tr_phase t = PActivated a ->
  slot_at topology now' x g = Some (mkShard (SRetired a cleaned) sd).
Proof using All.
  intros Hs Ht Hp. destruct (moved_cases x) as [->|(Hst & (rt & Hr) & Hab)]; [done|exfalso].
  destruct executed_wf as (i & Hi & W & _).
  destruct (slot_valid x _ Hs) as [Hret _]. cbn in Hret. unfold retired_invalid in Hret. bool_inv.
  destruct (phase_activation_own c i W t a Ht) as [Hm _]; [by rewrite Hp|].
  assert (Hc : complete t = false) by (unfold complete; by rewrite Hp).
  assert (Hl : live_of c x = Some t).
  { apply (executed_live x rt t Hr Ht Hc). unfold tr_shard, tr_id. by rewrite <- Hm. }
  assert (Hq : quiet (ti_epoch (ac_id a)) (slot_at topology now x g)).
  { right. exists a, cleaned, sd. split; [done|lia]. }
  destruct (quiet_destination topology s Hok i Hi g index x command reply _ rt Hg Hin Hev executed_fresh
    (fun ab E => proj1 (Hab ab E)) Hst Hr t Hl _ Hq) as [Hd _].
  destruct (has_ne c i W t Ht). rewrite <- Hd, <- Hm. pose proof (proj1 data_group). congruence.
Qed.

Lemma executed_seen : seen_ok topology now now'.
Proof using All.
  split.
  - reflexivity.
  - apply data_laters.
  - intros g' x image data Hg' Hf. destruct (decide (g' = g)) as [->|Hne]; [by apply executed_fenced|].
    rewrite slot_at_ne by done. by left.
  - intros g' x p data Hg' Hf. destruct (decide (g' = g)) as [->|Hne]; [by apply executed_installed|].
    rewrite slot_at_ne by done. by left.
  - apply now_named.
  - intros g' x e a data Hg' Hs t Ht Hp. destruct (decide (g' = g)) as [->|Hne]; [by eapply executed_active|].
    rewrite slot_at_ne by done. by exists data.
  - apply now_named.
  - intros g' x a cleaned sd Hg' Hs t Ht Hp. destruct (decide (g' = g)) as [->|Hne]; [by eapply executed_retired|].
    by rewrite slot_at_ne.
Qed.

Lemma executed_ok : sys_ok topology (push s now').
Proof using All.
  apply push_ok; [done|apply data_snapshot_ok|apply executed_now_ok|apply executed_seen|apply executed_named].
Qed.
End executed.
End data_step.

(** ** Every commit of a data group *)

Section commit.
Context `{Fmt : TypeFormats} `{SerC : Serialize Controller} `{DFmt : DataFormats} `{Laws : !DataLaws}.
Variable topology : Topology.
Hypothesis Htop : topology_valid topology = true.
Variable s : System.
Hypothesis Hok : sys_ok topology s.
Variable g : GroupId.
Hypothesis Hg : g ∈ tp_groups topology.
Notation now := (sy_now s).
Notation d := (sn_data (sy_now s) g).

Lemma data_watermark_ok n : dm_applied d <= n <= u64_max ->
  sys_ok topology (push s (put_machine now g (MData (d <| dm_applied := n |>)))).
Proof using All.
  intros Hn. pose proof (now_snapshot topology s Hok) as HS. destruct (so_data _ _ HS g Hg) as [Hgd Hgr].
  apply (frame_ok topology s Hok g _ Hg).
  - by apply data_good_applied.
  - split; [done|cbn; lia|by intros o|by intros key o].
  - intros Hi. by apply (so_data_config _ _ HS g Hg).
  - done.
  - intros x. unfold slot_at. by rewrite data_at_eq.
Qed.

Lemma evidence_typed command : evidence topology s g (OData command) -> command_typed command.
Proof using Hok.
  intros [_ He]. destruct command; try done. destruct He as (t & Ht & Hp). cbn.
  destruct (now_wf _ s Hok t Ht) as (i & Hi & W).
  destruct (phase_abort_own _ _ W t abort Ht Hp) as (_ & _ & Hle).
  destruct (so_ctl _ _ (now_snapshot topology s Hok)) as [Hmax _]. unfold abort_typed. lia.
Qed.

(** The shards a group owns at bootstrap. *)
Lemma fold_insert_lookup (owned : list ShardId) (m : gmap ShardId Shard) sh x :
  fold_left (fun shards shard => <[shard := sh]> shards) owned m !! x
  = if bool_decide (x ∈ owned) then Some sh else m !! x.
Proof using.
  revert m. induction owned as [|y owned IH]; intros m; cbn [fold_left]; [done|].
  rewrite IH. destruct (decide (x ∈ owned)) as [Hin|Hin].
  - rewrite !bool_decide_eq_true_2; [done|by right|done].
  - rewrite (bool_decide_eq_false_2 _ Hin). destruct (decide (x = y)) as [->|Hne].
    + rewrite lookup_insert_eq, bool_decide_eq_true_2; [done|by left].
    + rewrite lookup_insert_ne, bool_decide_eq_false_2; [done| |done].
      by intros [?|?]%elem_of_cons.
Qed.
Lemma owners_bound : len64 (tp_owners topology) <= MAX_SHARDS.
Proof using Htop.
  destruct (topology_valid_inv _ Htop) as (_ & H & _). unfold groups_owners_invalid in H. by bool_inv.
Qed.

Lemma bootstrap_owned x :
  x ∈ map (fun p => as_u16 (N.of_nat (fst p))) (List.filter (fun p => snd p =? g) (imap pair (tp_owners topology)))
  <-> tp_owners topology !! N.to_nat x = Some g.
Proof using Htop.
  pose proof owners_bound as Hb. unfold len64, MAX_SHARDS in Hb.
  rewrite list_elem_of_fmap. setoid_rewrite list_elem_of_In. setoid_rewrite List.filter_In.
  setoid_rewrite <- list_elem_of_In. split.
  - intros ([k o] & -> & Hin & Ho). cbn in *. bool_inv. subst.
    apply list_elem_of_lookup_1 in Hin as [j Hj]. rewrite list_lookup_imap in Hj.
    destruct (tp_owners topology !! j) as [o'|] eqn:E; [|discriminate]. injection Hj as -> ->.
    apply lookup_lt_Some in E as Hlt. unfold as_u16. rewrite N.mod_small by lia. by rewrite Nat2N.id.
  - intros E. exists (N.to_nat x, g). apply lookup_lt_Some in E as Hlt. cbn. split_and!.
    + unfold as_u16. rewrite N2Nat.id, N.mod_small by lia. done.
    + apply (list_elem_of_lookup_2 _ (N.to_nat x)). by rewrite list_lookup_imap, E.
    + by rewrite N.eqb_refl.
Qed.

(** Bootstrap creates the slots the group stood for. *)
Lemma bootstrap_slots index n groups owned reply d' x :
  evidence topology s g (OData (DInitialize n groups owned)) ->
  data_initialize (d <| dm_applied := index |>) (mkOrigin (dm_group d) index) n groups owned = Done (reply, d') ->
  slot_at topology (put_machine now g (MData d')) x g = slot_at topology now x g.
Proof using All.
  intros [_ (Hc & -> & -> & ->)] He.
  destruct (so_data _ _ (now_snapshot topology s Hok) g Hg) as [[_ _ Hv] _].
  apply data_initialize_Done in He as (Hn & Hi & Eg & Ea & En & Egs & Eab & Esh).
  change (dm_initialized_at (d <| dm_applied := index |>)) with (dm_initialized_at d) in Hn.
  destruct (validated_uninitialized _ Hv Hn) as (_ & _ & _ & Hempty & _).
  unfold slot_at. rewrite data_at_eq, Hi, Hn, Esh.
  rewrite fold_insert_lookup. change (dm_shards (d <| dm_applied := index |>)) with (dm_shards d).
  rewrite Hempty, lookup_empty.
  destruct (decide (tp_owners topology !! N.to_nat x = Some g)) as [E|E].
  - rewrite bool_decide_eq_true_2 by (by apply bootstrap_owned). by rewrite (proj2 (eqb_true _ _) E).
  - rewrite bool_decide_eq_false_2 by (by rewrite bootstrap_owned). by rewrite (proj2 (eqb_false _ _) E).
Qed.

Lemma data_bootstrap_ok index n groups owned reply d' :
  evidence topology s g (OData (DInitialize n groups owned)) ->
  dm_applied d < index -> data_good d' ->
  data_initialize (d <| dm_applied := index |>) (mkOrigin (dm_group d) index) n groups owned = Done (reply, d') ->
  sys_ok topology (push s (put_machine now g (MData d'))).
Proof using All.
  intros Hev Hix Hgd He. pose proof Hev as [_ (Hc & En0 & Egs0 & _)].
  pose proof He as (Hn & Hi & Eg & Ea & En & Egs & Eab & Esh)%data_initialize_Done.
  change (dm_initialized_at (d <| dm_applied := index |>)) with (dm_initialized_at d) in Hn.
  apply (frame_ok topology s Hok g _ Hg); [done| | |by rewrite Eab|].
  - split; [by rewrite Eg|rewrite Ea; cbn; lia| |].
    + intros o E. congruence.
    + intros key. by rewrite Eab.
  - intros _. rewrite Egs, En, En0, Egs0. split_and!; try done. unfold as_u16.
    pose proof owners_bound as Hb. unfold MAX_SHARDS in Hb. apply N.mod_small. lia.
  - intros x. by eapply bootstrap_slots.
Qed.

Lemma data_commit_ok index command r d' :
  evidence topology s g (OData command) -> data_apply d index command = Done (r, d') ->
  sys_ok topology (push s (put_machine now g (MData d'))).
Proof using All.
  intros Hev Ha. pose proof (now_snapshot topology s Hok) as HS.
  destruct (so_data _ _ HS g Hg) as [Hgd Hgr]. pose proof (evidence_typed command Hev) as Hty.
  pose proof (data_apply_good _ _ _ _ _ Hgd Hty Ha) as Hgd'.
  apply data_apply_cases in Ha as [[-> Hmax]%checked_add_Some Ha].
  destruct r as [reply|e|]; [|subst; apply data_watermark_ok; lia|done].
  destruct Ha as [He _]. destruct (dm_initialized_at d) as [j|] eqn:Hi.
  - assert (Hin : initialized now g) by (unfold initialized; congruence).
    assert (Hin1 : dm_initialized_at (d <| dm_applied := dm_applied d + 1 |>) <> None).
    { cbn [upd dm_initialized_at]. by rewrite Hi. }
    destruct (data_execute_steps _ _ _ _ _ Hin1 He) as (Hm & (S1 & S2 & S3 & S4 & S5) & Hab).
    destruct (so_data_config _ _ HS g Hg Hin) as (C1 & C2 & C3).
    apply (executed_ok topology s Hok g d' Hg Hgd' ) with (index := dm_applied d + 1) (command := command) (reply := reply);
      try done.
    + split; [by rewrite S1|rewrite S2; cbn; lia|by rewrite S3|].
      intros key record Hk. destruct command as [| | | | | | | | | | |ab]; try (by destruct Hab as [E _]; rewrite E).
      destruct Hab as (_ & _ & _ & [[E Hn]|[-> _]]); [|done]. rewrite E.
      rewrite lookup_insert_ne; [done|]. intros <-.
      change (dm_aborted (d <| dm_applied := dm_applied d + 1 |>)) with (dm_aborted d) in Hn. congruence.
    + intros _. rewrite S5, S4. done.
  - unfold data_execute in He. destruct command; change (dm_initialized_at (d <| dm_applied := dm_applied d + 1 |>))
      with (dm_initialized_at d) in He; rewrite ?Hi in He; cbn [is_none is_some negb] in He; try discriminate.
    eapply data_bootstrap_ok; [exact Hev| |done|exact He]. lia.
Qed.

Lemma data_advance_ok index d' : data_advance d index = Done d' ->
  sys_ok topology (push s (put_machine now g (MData d'))).
Proof using All.
  unfold data_advance. destruct (negb _) eqn:E; [discriminate|]. intros [= <-]. bool_inv.
  match goal with H : checked_add _ _ = _ |- _ => apply checked_add_Some in H as [-> Hi] end.
  apply data_watermark_ok. lia.
Qed.
End commit.
