(* ===== verification/HandoffController.v ===== *)
(** * Commits of the controller keep the system's invariant *)
From S2P Require Import Prelude Types Quorum Membership ShardTypes Topology Controller ControllerInv ControllerSafe ControllerGuarantees ControllerTheorems ShardData ShardDataInv ShardSteps ShardGuarantees ShardMachine Service Handoff HandoffEvidence HandoffSlots HandoffData.
Local Open Scope N_scope.
Local Open Scope raft_scope.

Lemma quiet_mono e e' o : quiet e o -> e <= e' -> quiet e' o.
Proof. intros [->|(a & cl & sd & -> & Ha)] He; [by left|]. right. exists a, cl, sd. split; [done|lia]. Qed.

Section controller_step.
Context `{Fmt : TypeFormats} `{SerC : Serialize Controller} `{DFmt : DataFormats}.
Variable topology : Topology.
Variable s : System.
Hypothesis Hok : sys_ok topology s.
Notation now := (sy_now s).
Notation c := (sn_ctl (sy_now s)).
Notation sl := (slot_at topology (sy_now s)).
Variable c' : Controller.
Let now' : Snapshot := put_machine (sy_now s) CONTROLLER (MController c').

Lemma ctl_now_snapshot : snapshot_ok topology now.
Proof using Hok. apply (seen_snapshot _ _ Hok _ (now_seen s)). Qed.
Lemma ctl_now_named : named_ok topology now.
Proof using Hok. apply seen_named, (sk_seen _ _ Hok). left. Qed.

Hypothesis Hgood : good c'.
Hypothesis Hlater : later c c'.

(** What is left to show of a step of the controller. *)
Lemma controller_ok :
  (forall i, co_initialized_at c' = Some i ->
     co_groups c' = tp_groups topology /\ length (co_routes c') = length (tp_owners topology)) ->
  (forall t, has c' t -> (exists u, has c u /\ tr_movement u = tr_movement t)
     \/ initialized now (mv_source (tr_movement t)) /\ initialized now (mv_destination (tr_movement t))) ->
  (forall t, has c' t -> (phase_recovered (tr_phase t)).1 <> None -> aborted_at now (mv_source (tr_movement t)) (tr_id t)) ->
  (forall t, has c' t -> (phase_recovered (tr_phase t)).2 <> None -> aborted_at now (mv_destination (tr_movement t)) (tr_id t)) ->
  (forall t, has c' t -> phase_activation (tr_phase t) <> None ->
     tr_epoch t <= high (sl (tr_shard t) (mv_destination (tr_movement t)))) ->
  (forall x r, co_routes c' !! N.to_nat x = Some r -> coupled topology r (live_of c' x) (sl x)) ->
  sys_ok topology (push s now').
Proof using All.
  intros Hcfg Hend Hsrc Hdst Hhigh Hcoupled.
  destruct ctl_now_snapshot as [S1 S2 S3 S4 S5 S6]. pose proof ctl_now_named as [K1 K2].
  assert (Hown : forall o, (exists t, has c t /\ phase_ownership (tr_phase t) = Some o) ->
    exists t, has c' t /\ phase_ownership (tr_phase t) = Some o).
  { intros o (t & Ht & Hp). destruct (later_has _ _ t Hlater Ht) as (t' & Ht' & _ & He).
    exists t'. split; [done|]. by apply (ex_ownership _ _ He). }
  assert (Hact : forall a, (exists t, has c t /\ phase_activation (tr_phase t) = Some a) ->
    exists t, has c' t /\ phase_activation (tr_phase t) = Some a).
  { intros o (t & Ht & Hp). destruct (later_has _ _ t Hlater Ht) as (t' & Ht' & _ & He).
    exists t'. split; [done|]. by apply (ex_activation _ _ He). }
  apply push_ok; [done|..].
  - split; cbn; try done.
    + intros g Hg Hi. destruct (S5 g Hg Hi) as (E1 & E2 & E3). split_and!; try done.
      destruct (co_initialized_at c) as [i|] eqn:E; [|done]. by rewrite (lt_initialized _ _ Hlater _ E).
    + intros t Ht. destruct (Hend t Ht) as [(u & Hu & Em)|?]; [|done]. rewrite <- Em. by apply S6.
  - split; cbn; try done. intros g key record Hg Hk.
    destruct (no_aborted _ _ (sk_now _ _ Hok) g key record Hg Hk) as (t & Ht & Hp & Hkey).
    destruct (later_has _ _ t Hlater Ht) as (t' & Ht' & Hm & He). exists t'. split_and!; [done| |].
    + by apply (ex_abort _ _ He).
    + unfold tr_id in *. by rewrite Hm.
  - split; cbn; try done.
    + intros g x image data _ Hf. by left.
    + intros g x p data _ Hf. by left.
    + intros g x a Hg Hs. apply Hown. by eapply K1.
    + intros g x e a data _ Hs t _ _. by exists data.
    + intros g x a Hg Hs. apply Hact. by eapply K2.
  - split; cbn; intros g x a Hg Hs; [apply Hown; by eapply K1|apply Hact; by eapply K2].
Qed.

(** Nothing but tickets and the watermark changed. *)
Lemma controller_frame_ok : co_initialized_at c' = co_initialized_at c -> co_groups c' = co_groups c ->
  co_routes c' = co_routes c -> co_transfers c' = co_transfers c -> sys_ok topology (push s now').
Proof using All.
  intros E1 E2 E3 E4. destruct (sk_now _ _ Hok) as [N1 N2 N3 N4 N5].
  assert (Hhas : forall t, has c' t <-> has c t) by (intros t; unfold has; by rewrite E4).
  apply controller_ok.
  - intros i Hi. rewrite E1 in Hi. rewrite E2, E3. by apply (so_ctl_config _ _ ctl_now_snapshot i).
  - intros t Ht. left. exists t. by rewrite <- Hhas.
  - intros t Ht. apply N2. by apply Hhas.
  - intros t Ht. apply N3. by apply Hhas.
  - intros t Ht. apply N4. by apply Hhas.
  - intros x r Hr. rewrite E3 in Hr. unfold live_of. rewrite E4. by apply N5.
Qed.
End controller_step.

(** ** A transfer moves to its next phase *)

Section transfer_moves.
Context `{Fmt : TypeFormats} `{SerC : Serialize Controller} `{DFmt : DataFormats}.
Variable topology : Topology.
Variable s : System.
Hypothesis Hok : sys_ok topology s.
Notation now := (sy_now s).
Notation c := (sn_ctl (sy_now s)).
Notation sl := (slot_at topology (sy_now s)).
Variable i : Origin.
Hypothesis Hi : co_initialized_at c = Some i.
Variables (request : string) (t : Transfer) (command : ControllerCommand) (index : N)
  (phase : Phase) (routes' : list Route).
Hypothesis Ht : co_transfers c !! request = Some t.
Hypothesis Hindex : co_applied c < index.
Hypothesis Hid : command_id command = Some (tr_id t).
Hypothesis Hstep : transfer_step (co_routes c) (mkOrigin CONTROLLER index) (tr_id t) t command = Done (phase, routes').
Let t' : Transfer := t <| tr_phase := phase |>.
Let c' : Controller := c <| co_applied := index |> <| co_routes := routes' |>
  <| co_transfers := <[request := t']> (co_transfers c) |>.
Hypothesis Hgood : good c'.
Hypothesis Hlater : later c c'.
Notation m := (tr_movement t).
Notation x := (tr_shard t).
Notation e := (mv_previous_epoch (tr_movement t)).

Lemma moves_wf : wf c i /\ wf c' i /\ has c t /\ has c' t'.
Proof using All.
  split_and!.
  - by apply (ctl_wf topology s Hok).
  - destruct Hgood as [_ H]. change (co_initialized_at c') with (co_initialized_at c) in H. rewrite Hi in H. apply H.
  - by exists request.
  - exists request. apply lookup_insert_eq.
Qed.
Lemma moves_has u : has c' u <-> u = t' \/ has c u /\ u <> t.
Proof using All.
  destruct moves_wf as (W & W' & H1 & H2). split.
  - intros [q Hq]. change (co_transfers c') with (<[request := t']> (co_transfers c)) in Hq.
    apply lookup_insert_Some in Hq as [[<- <-]|[Hne Hq]]; [by left|right].
    split; [by exists q|]. intros ->. pose proof (NoDup_distinct_keys tr_index _ (wf_indices _ _ W)) as Hd.
    apply Hne. by eapply Hd.
  - intros [->|[[q Hq] Hne]]; [done|]. exists q. apply (lookup_insert_Some (co_transfers c)). right. split; [|done].
    intros <-. congruence.
Qed.
Lemma moves_only u : has c u -> tr_movement u = m -> u = t.
Proof using All. destruct moves_wf as (W & _ & H1 & _). intros Hu E. by apply (has_unique_movement c i W). Qed.

Hypothesis Hlive : complete t = false.
Hypothesis Hres : exists rt rt', co_routes c !! N.to_nat x = Some rt /\ routes' = <[N.to_nat x := rt']> (co_routes c)
  /\ (ro_owner rt', ro_epoch rt') = phase_route t'.

Lemma moves_slots : coupled_transfer topology t (sl x).
Proof using All.
  destruct moves_wf as (W & _ & H1 & _). destruct Hres as (rt & _ & Hrt & _).
  pose proof (no_coupled _ _ (sk_now _ _ Hok) x rt Hrt) as Hc.
  by rewrite (proj2 (live_of_Some c i W x t)) in Hc.
Qed.
Lemma moves_live y : live_of c' y = if y =? x then (if complete t' then None else Some t') else live_of c y.
Proof using All.
  destruct moves_wf as (W & W' & H1 & H2). destruct (N.eqb_spec y x) as [->|Hne].
  - destruct (complete t') eqn:Hc.
    + apply (live_of_None c' i W'). intros u [->|[Hu Hne]]%moves_has Hx; [done|].
      destruct (complete u) eqn:Hcu; [done|]. exfalso. apply Hne. by apply (live_unique c i W).
    + by apply (live_of_Some c' i W').
  - destruct (live_of c y) as [u|] eqn:E.
    + apply (live_of_Some c i W) in E as (Hu & Hc & Hx). apply (live_of_Some c' i W'). split_and!; try done.
      apply moves_has. right. split; [done|]. intros ->. done.
    + apply (live_of_None c' i W'). intros u [->|[Hu _]]%moves_has Hx; [done|].
      by apply (proj1 (live_of_None c i W y) E).
Qed.

(** What the new phase must find in the groups. *)
Lemma moves_ok :
  (stays (phase_recovered phase).1 (phase_recovered (tr_phase t)).1 \/ aborted_at now (mv_source m) (tr_id t)) ->
  (stays (phase_recovered phase).2 (phase_recovered (tr_phase t)).2 \/ aborted_at now (mv_destination m) (tr_id t)) ->
  (stays (phase_activation phase) (phase_activation (tr_phase t)) \/ tr_epoch t <= high (sl x (mv_destination m))) ->
  (if complete t' then
     let '(owner, epoch) := phase_route t' in
     (exists data, active_with epoch (sl x owner) data) /\ forall g, g <> owner -> quiet epoch (sl x g)
   else phase_slots topology t' (sl x (mv_source m)) (sl x (mv_destination m))) ->
  sys_ok topology (push s (put_machine now CONTROLLER (MController c'))).
Proof using All.
  intros Hs Hd Ha Hc. destruct moves_wf as (W & W' & H1 & H2). destruct (sk_now _ _ Hok) as [_ N2 N3 N4 N5].
  assert (Hne : forall (A : Type) (o o' : option A), stays o o' -> o <> None -> o' <> None).
  { intros A [a|] o' Ho; [|done]. by rewrite (Ho a eq_refl). }
  pose proof moves_slots as [Hq Hp].
  destruct Hres as (rt & rt' & Hrt & Er & Hr').
  apply controller_ok; try done.
  - intros j Hj. change (co_initialized_at c') with (co_initialized_at c) in Hj. cbn [c' co_groups co_routes upd].
    rewrite Er, length_insert. by apply (so_ctl_config _ _ (ctl_now_snapshot _ _ Hok) j).
  - intros u [->|[Hu _]]%moves_has; left; [by exists t|by exists u].
  - intros u [->|[Hu _]]%moves_has; [|by apply N2]. intros Hr. destruct Hs as [Hs|Hs]; [|done].
    apply (N2 t H1). by eapply Hne.
  - intros u [->|[Hu _]]%moves_has; [|by apply N3]. intros Hr. destruct Hd as [Hd|Hd]; [|done].
    apply (N3 t H1). by eapply Hne.
  - intros u [->|[Hu _]]%moves_has; [|by apply N4]. intros Hr. destruct Ha as [Ha|Ha]; [|done].
    apply (N4 t H1). by eapply Hne.
  - intros y r Hr. rewrite moves_live. change (co_routes c') with routes' in Hr. rewrite Er in Hr.
    destruct (N.eqb_spec y x) as [->|Hy].
    + rewrite list_lookup_insert_eq in Hr by (by eapply lookup_lt_Some). injection Hr as <-.
      destruct (complete t') eqn:Hct.
      * cbn. rewrite <- Hr' in Hc. exact Hc.
      * cbn. split; [exact Hq|exact Hc].
    + rewrite list_lookup_insert_ne in Hr by lia. by apply N5.
Qed.

(** *** What each command finds *)

Hypothesis Hev : evidence topology s CONTROLLER (OController command).

Lemma moves_image image : phase_image (tr_phase t) = Some image -> ip_movement image = m.
Proof using All. destruct moves_wf as (W & _ & H1 & _). intros Hp. by apply (phase_image_own c i W t). Qed.
Lemma moves_groups : mv_source m ∈ tp_groups topology /\ mv_destination m ∈ tp_groups topology
  /\ mv_source m <> mv_destination m.
Proof using All.
  destruct moves_wf as (W & _ & H1 & _). destruct (has_groups topology s Hok t H1) as (? & ? & _).
  split_and!; [done..|]. by apply (has_ne c i W).
Qed.
Lemma moves_not_aborted g : g ∈ tp_groups topology -> phase_abort (tr_phase t) = None -> ~ aborted_at now g (tr_id t).
Proof using All.
  intros Hg Hp Ha. unfold aborted_at in Ha. destruct (dm_aborted _ !! _) as [record|] eqn:E; [|done].
  destruct (no_aborted _ _ (sk_now _ _ Hok) g _ record Hg E) as (u & Hu & Hpu & Hk).
  destruct moves_wf as (W & _ & H1 & _). apply (inj transfer_key) in Hk.
  assert (u = t) as -> by (by apply (has_unique c i W)). congruence.
Qed.
(** A group that recorded the abort does not hold the image any more. *)
Lemma aborted_not_live g y sh id : g ∈ tp_groups topology -> sl y g = Some sh ->
  live_transfer (sh_slot sh) = Some id -> ~ aborted_at now g id.
Proof using All.
  intros Hg Hs Hl Ha. unfold slot_at in Hs. unfold aborted_at in Ha.
  destruct (so_data _ _ (ctl_now_snapshot _ _ Hok) g Hg) as [[_ _ Hv] _].
  destruct (dm_initialized_at _) as [j|].
  - destruct (validated_shard _ _ _ Hv Hs) as (_ & Hn & _). by apply Ha, Hn.
  - destruct (_ ==? _); [|done]. injection Hs as <-. discriminate.
Qed.

Ltac keeps := left; cbn; unfold stays; intros; congruence.
(** The branch of the command that changes the phase. *)
Ltac new_phase :=
  outcome_inv;
  repeat match goal with
  | H : (if ?b then _ else _) = Done _ |- _ => destruct b eqn:?; try discriminate H
  end;
  outcome_inv; try congruence; bool_inv; subst phase.

Lemma abort_moves id : command = CAbort id -> phase <> tr_phase t ->
  sys_ok topology (push s (put_machine now CONTROLLER (MController c'))).
Proof using All.
  intros Ec Hne. pose proof moves_slots as [_ Hp]. pose proof Hstep as St. rewrite Ec in St.
  assert (Hu : forall im, phase_image (tr_phase t) = Some im -> ip_movement im = m) by apply moves_image.
  cbn [transfer_step] in St. apply Outcome_bind_Done in St as (ph & Ha & E). injection E as -> _.
  unfold abort_phase in Ha. unfold phase_slots in Hp.
  apply moves_ok; revert Ha Hp Hu Hne; unfold t'; destruct (tr_phase t) as [|ab b sr dr|image|p| | | |] eqn:E;
    cbn -[abandoned]; intros Ha Hp Hu Hne; try discriminate; injection Ha as Ha;
    try (by rewrite Ha in Hne); subst phase; try keeps; unfold phase_slots; cbn -[abandoned]; (split; [|try done]).
  - apply Hp.
  - left. apply Hp.
  - right. destruct Hp as (data & Hf & _). exists image, data. split; [by apply Hu|done].
  - destruct Hp as (data & _ & [Hq|[(bytes & Hb & _)|(q & Hq & Hb)]]); [by left|right; left|right; right].
    + exists image, bytes. split; [by apply Hu|done].
    + exists q, data. rewrite Hq. split; [by apply Hu|done].
  - right. destruct Hp as (data & Hf & _). exists (in_image p), data. split; [by apply Hu|done].
  - destruct Hp as (data & _ & Hb). right. right. exists p, data. split; [by apply Hu|done].
Qed.

Lemma own_moves id : command = COwn id -> phase <> tr_phase t ->
  sys_ok topology (push s (put_machine now CONTROLLER (MController c'))).
Proof using All.
  intros Ec Hne. pose proof moves_slots as [_ Hp]. pose proof Hstep as St. rewrite Ec in St.
  unfold phase_slots in Hp. cbn [transfer_step] in St.
  apply moves_ok; revert St Hp Hne; unfold t'; destruct (tr_phase t) as [| | |p|o| | |] eqn:E;
    cbn; intros St Hp Hne; try discriminate; try (injection St as <- <-; done); outcome_inv; subst phase; try keeps.
  unfold phase_slots; cbn. destruct Hp as (data & Hf & Hb). exists data. split; [done|by left].
Qed.

Lemma complete_moves id : command = CComplete id -> phase <> tr_phase t ->
  sys_ok topology (push s (put_machine now CONTROLLER (MController c'))).
Proof using All.
  intros Ec Hne. pose proof moves_slots as [Hq Hp]. pose proof Hstep as St. rewrite Ec in St.
  unfold phase_slots in Hp. cbn [transfer_step] in St.
  destruct moves_wf as (W & _ & H1 & _). pose proof (has_epoch c i W t H1) as He. unfold tr_previous, tr_epoch in He.
  pose proof (fun a => phase_activation_own c i W t a H1) as Hown.
  apply moves_ok; revert St Hp Hne Hown; unfold t'; destruct (tr_phase t) as [| | | | | |a cl|] eqn:E;
    cbn; intros St Hp Hne Hown; try discriminate; try (injection St as <- <-; done); outcome_inv; subst phase; try keeps.
  unfold phase_route; cbn. destruct Hp as ([sd Hsrc] & data & Hdst). split; [by exists data, (Some a)|].
  intros g Hg. destruct (decide (g = mv_source m)) as [->|Hs].
  - right. exists a, cl, sd. split; [done|]. destruct (Hown a eq_refl) as [Ea _]. unfold ac_id. rewrite Ea. done.
  - eapply quiet_mono; [by apply Hq|]. unfold tr_id in *. cbn in *. lia.
Qed.

Lemma record_fence_moves image : command = CFenced image -> phase <> tr_phase t ->
  sys_ok topology (push s (put_machine now CONTROLLER (MController c'))).
Proof using All.
  intros Ec Hne. pose proof moves_slots as [_ Hp]. pose proof Hstep as St. rewrite Ec in St.
  pose proof Hev as Ev. rewrite Ec in Ev. destruct Ev as [_ (u & sn & data & Hu & Em & Hsn & Hf)].
  unfold phase_slots in Hp. cbn [transfer_step] in St.
  apply Outcome_bind_Done in St as ([] & G%refuse_if_Done & St). bool_inv.
  assert (u = t) as -> by (apply moves_only; congruence).
  destruct moves_groups as (Gs & Gd & _). destruct moves_wf as (W & _ & H1 & _).
  pose proof (moves_not_aborted _ Gs) as Hna.
  assert (Hact : forall u a, has c u -> phase_activation (tr_phase u) = Some a -> ac_image a = image -> u = t).
  { intros u a Hu' Ha Ea. apply moves_only; [done|]. destruct (phase_activation_own c i W u a Hu' Ha) as [E _]. congruence. }
  pose proof (ss_fenced _ _ _ (sk_seen _ _ Hok sn Hsn) _ _ _ _ Gs Hf) as Hnow.
  apply moves_ok; revert St Hp Hne Hna Hact; unfold t'; destruct (tr_phase t) as [| | | | | | |] eqn:E;
    cbn -[staged]; intros St Hp Hne Hna Hact; try discriminate; new_phase; try keeps.
  unfold phase_slots; cbn -[staged]. destruct Hnow as [Hnow|[Ha|(u & a & Hu' & Ha & Ea)]].
  - exists data. split; [done|]. left. apply Hp.
  - exfalso. apply Hna; [done|]. rewrite <- Em in Ha. done.
  - specialize (Hact u a Hu' Ha Ea) as ->. rewrite E in Ha. discriminate.
Qed.

Lemma record_installed_moves p : command = CInstalled p -> phase <> tr_phase t ->
  sys_ok topology (push s (put_machine now CONTROLLER (MController c'))).
Proof using All.
  intros Ec Hne. pose proof moves_slots as [_ Hp]. pose proof Hstep as St. rewrite Ec in St.
  pose proof Hev as Ev. rewrite Ec in Ev. destruct Ev as [_ (u & sn & data & Hu & Ep & Hsn & Hf)].
  unfold phase_slots in Hp. cbn [transfer_step] in St.
  apply Outcome_bind_Done in St as ([] & G%refuse_if_Done & St). bool_inv.
  destruct moves_groups as (Gs & Gd & _). destruct moves_wf as (W & _ & H1 & _).
  destruct (phase_image_own c i W u _ Hu Ep) as [_ Em].
  assert (u = t) as -> by (apply moves_only; congruence).
  pose proof (moves_not_aborted _ Gd) as Hna.
  assert (Hown : forall u o, has c u -> phase_ownership (tr_phase u) = Some o -> ow_installation o = p -> u = t).
  { intros u o Hu' Ho Eo. apply moves_only; [done|]. pose proof (phase_ownership_own c i W u o Hu' Ho) as E.
    unfold ow_image in E. congruence. }
  pose proof (ss_installed _ _ _ (sk_seen _ _ Hok sn Hsn) _ _ _ _ Gd Hf) as Hnow.
  apply moves_ok; revert St Hp Hne Hna Hown Ep; unfold t'; destruct (tr_phase t) as [| |image| | | | |] eqn:E;
    cbn -[staged]; intros St Hp Hne Hna Hown Ep; try discriminate; new_phase; try keeps.
  injection Ep as Ep. subst image.
  unfold phase_slots; cbn. destruct Hnow as [[pr Hnow]|[Ha|(u & a & Hu' & Ha & Ea)]].
  - destruct Hp as (data' & Hsrc & Hst). exists data'. split; [done|].
    destruct Hst as [[Hq|(a & cl & sd & Hq & _)]|[(bytes & (pr' & sd & Hb) & _)|(q & _ & pr' & Hb)]];
      change (slot_at topology now (tr_shard t) (mv_destination m)) with (sl x (mv_destination m)) in Hnow;
      try congruence.
    exists pr. rewrite Hnow in Hb. injection Hb as -> -> ->. done.
  - exfalso. apply Hna; [done|]. rewrite Em in Ha. done.
  - specialize (Hown u a Hu' Ha Ea) as ->. rewrite E in Ha. discriminate.
Qed.

Lemma activated_moves a : command = CActivated a -> phase <> tr_phase t ->
  sys_ok topology (push s (put_machine now CONTROLLER (MController c'))).
Proof using All.
  intros Ec Hne. pose proof moves_slots as [_ Hp]. pose proof Hstep as St. rewrite Ec in St.
  pose proof Hev as Ev. rewrite Ec in Ev. destruct Ev as [_ (u & sn & data & Hu & Eo & Hsn & Hf)].
  pose proof Hid as Hid'. rewrite Ec in Hid'. injection Hid' as Hid'.
  unfold phase_slots in Hp. cbn [transfer_step] in St.
  destruct moves_groups as (Gs & Gd & _). destruct moves_wf as (W & _ & H1 & _).
  pose proof (phase_ownership_own c i W u _ Hu Eo) as Em.
  assert (u = t) as ->.
  { apply (has_unique c i W); [done..|]. unfold tr_id at 1. rewrite <- Em. exact Hid'. }
  pose proof (ss_active _ _ _ (sk_seen _ _ Hok sn Hsn) _ _ _ _ _ Gd Hf t H1) as Hnow.
  apply moves_ok; revert St Hp Hne Hnow Eo; unfold t'; destruct (tr_phase t) as [| | | |o| | |] eqn:E;
    cbn; intros St Hp Hne Hnow Eo; try discriminate; new_phase; try keeps;
    injection Eo as ->; destruct (Hnow eq_refl) as (data' & Hs).
  - right. change (slot_at topology now (tr_shard t) (mv_destination m)) with (sl x (mv_destination m)) in Hs.
    rewrite Hs. cbn. done.
  - unfold phase_slots; cbn. destruct Hp as (d0 & Hsrc & _). split; [left; by exists d0|by exists data'].
Qed.

Lemma cleaned_moves id cleaned : command = CCleaned id cleaned -> phase <> tr_phase t ->
  sys_ok topology (push s (put_machine now CONTROLLER (MController c'))).
Proof using All.
  intros Ec Hne. pose proof moves_slots as [_ Hp]. pose proof Hstep as St. rewrite Ec in St.
  pose proof Hev as Ev. rewrite Ec in Ev. destruct Ev as [_ (u & sn & a & sd & Hu & Eid & Ea & Hsn & Hf)].
  pose proof Hid as Hid'. rewrite Ec in Hid'. injection Hid' as Hid'.
  unfold phase_slots in Hp. cbn [transfer_step] in St.
  destruct moves_groups as (Gs & Gd & _). destruct moves_wf as (W & _ & H1 & _).
  assert (u = t) as -> by (apply (has_unique c i W); [done..|congruence]).
  pose proof (ss_retired _ _ _ (sk_seen _ _ Hok sn Hsn) _ _ _ _ _ Gs Hf t H1) as Hnow.
  apply moves_ok; revert St Hp Hne Hnow Ea; unfold t'; destruct (tr_phase t) as [| | | | |a0| |] eqn:E;
    cbn; intros St Hp Hne Hnow Ea; try discriminate; new_phase; try keeps;
    injection Ea as ->; specialize (Hnow eq_refl).
  unfold phase_slots; cbn. destruct Hp as (_ & Hdst). split; [by exists sd|exact Hdst].
Qed.

(** What a new receipt rests on. *)
Lemma receipt_evidence ab recovered : command = CEndpointAborted ab recovered ->
  exists before sr dr sr' dr', tr_phase t = PAborted ab before sr dr /\ phase = PAborted ab before sr' dr'
  /\ (sr' = sr \/ aborted_at now (mv_source m) (tr_id t))
  /\ (dr' = dr \/ aborted_at now (mv_destination m) (tr_id t)).
Proof using All.
  intros Ec. pose proof Hstep as St. rewrite Ec in St.
  pose proof Hev as Ev. rewrite Ec in Ev. destruct Ev as [_ (u & Hu & Ep & Hs & Hd)].
  destruct moves_wf as (W & _ & H1 & _). destruct (phase_abort_own c i W u ab Hu Ep) as [Eu _].
  cbn [transfer_step] in St. apply Outcome_bind_Done in St as (ph & Ha & St).
  assert (ph = phase) as ->.
  { revert St. case_match; [intros (rt & _ & St)%Outcome_bind_Done; revert St; case_match|]; congruence. }
  unfold endpoint_aborted in Ha. destruct (tr_phase t) as [|ex before sr dr| | | | | |] eqn:E; try discriminate.
  apply Outcome_bind_Done in Ha as ([] & G%refuse_if_Done & Ha). bool_inv. subst ex.
  apply Outcome_bind_Done in Ha as ([] & _ & Ha).
  destruct (phase_abort_own c i W t ab H1) as [Et _]; [by rewrite E|].
  assert (u = t) as -> by (apply moves_only; congruence).
  exists before, sr, dr. destruct (N.eqb_spec (o_group recovered) (mv_source m)) as [Es|Es].
  - outcome_inv. eexists _, _. split_and!; [done..|right; by apply Hs|by left].
  - destruct (N.eqb_spec (o_group recovered) (mv_destination m)) as [Ed|Ed]; [|discriminate].
    outcome_inv. eexists _, _. split_and!; [done..|by left|right; by apply Hd].
Qed.

(** Groups that recorded the abort have given up the image: the shard is back
    where it was. *)
Lemma aborted_slots ab before sr dr : tr_phase t = PAborted ab before sr dr ->
  aborted_at now (mv_source m) (tr_id t) -> aborted_at now (mv_destination m) (tr_id t) ->
  (exists data, active_with e (sl x (mv_source m)) data) /\ quiet e (sl x (mv_destination m)).
Proof using All.
  intros E Hs Hd. pose proof moves_slots as [_ Hp]. unfold phase_slots in Hp. rewrite E in Hp.
  destruct moves_groups as (Gs & Gd & _). destruct Hp as [Hsrc Hdst]. split.
  - destruct Hsrc as [Ha|(image & data & Em & pr & Hf)]; [done|]. exfalso.
    eapply (aborted_not_live _ x); [exact Gs|exact Hf|done|]. by rewrite Em.
  - destruct Hdst as [Hq|[(image & bytes & Em & pr & sd & Hf)|(p & data & Em & pr & Hf)]]; [done|exfalso..];
      (eapply (aborted_not_live _ x); [exact Gd|exact Hf|done|by rewrite Em]).
Qed.

Lemma endpoint_moves ab recovered : command = CEndpointAborted ab recovered ->
  sys_ok topology (push s (put_machine now CONTROLLER (MController c'))).
Proof using All.
  intros Ec. pose proof moves_slots as [Hq Hp].
  destruct (receipt_evidence ab recovered Ec) as (before & sr & dr & sr' & dr' & E & E' & Hs & Hd).
  pose proof (aborted_slots ab before sr dr E) as Hback. destruct moves_wf as (_ & _ & H1 & _).
  destruct (sk_now _ _ Hok) as [_ N2 N3 _ _]. specialize (N2 t H1). specialize (N3 t H1).
  rewrite E in N2, N3. cbn in N2, N3.
  apply moves_ok; rewrite ?E, ?E'; cbn; try (by left).
  - destruct Hs as [->|?]; [by left|by right].
  - destruct Hd as [->|?]; [by left|by right].
  - destruct (complete t') eqn:Hc.
    + unfold complete, t' in Hc. cbn in Hc. rewrite E' in Hc.
      destruct sr' as [a|], dr' as [b|]; try discriminate.
      assert (As : aborted_at now (mv_source m) (tr_id t)) by (destruct Hs as [<-|?]; [by apply N2|done]).
      assert (Ad : aborted_at now (mv_destination m) (tr_id t)) by (destruct Hd as [<-|?]; [by apply N3|done]).
      destruct (Hback As Ad) as [Ha Hn].
      unfold phase_route, t'. cbn. rewrite E'. cbn. split; [done|].
      intros g Hg. destruct (decide (g = mv_destination m)) as [->|Hne]; [done|by apply Hq].
    + unfold t', phase_slots in Hp |- *. cbn. rewrite E'. rewrite E in Hp. exact Hp.
Qed.

(** A duplicate. *)
Lemma idle_moves : phase = tr_phase t ->
  sys_ok topology (push s (put_machine now CONTROLLER (MController c'))).
Proof using All.
  intros E. pose proof moves_slots as [_ Hp].
  assert (Et : t' = t) by (unfold t'; rewrite E; by destruct t).
  apply moves_ok; [left; by rewrite E..|]. by rewrite Et, Hlive.
Qed.

(** Every phase command. *)
Lemma phase_command_ok :
  sys_ok topology (push s (put_machine now CONTROLLER (MController c'))).
Proof using All.
  destruct (decide (phase = tr_phase t)) as [E|Hne]; [by apply idle_moves|].
  pose proof Hid as Hc. assert (Ec : exists cmd, command = cmd) by eauto. destruct Ec as [cmd Ec].
  rewrite Ec in Hc. destruct cmd as [| | | |image|p|id|id|ab recovered|a|id cleaned|id]; try discriminate.
  - by eapply record_fence_moves.
  - by eapply record_installed_moves.
  - by eapply own_moves.
  - by eapply abort_moves.
  - by eapply endpoint_moves.
  - by eapply activated_moves.
  - by eapply cleaned_moves.
  - by eapply complete_moves.
Qed.
End transfer_moves.

(** ** Every commit of the controller *)

Section commit.
Context `{Fmt : TypeFormats} `{SerC : Serialize Controller} `{DFmt : DataFormats} `{Laws : !ControllerLaws}.
Variable topology : Topology.
Variable s : System.
Hypothesis Hok : sys_ok topology s.
Notation now := (sy_now s).
Notation c := (sn_ctl (sy_now s)).
Notation sl := (slot_at topology (sy_now s)).

Lemma ctl_now_good : good c.
Proof using Hok. apply (so_ctl _ _ (ctl_now_snapshot _ _ Hok)). Qed.

Lemma watermark_ok n : co_applied c <= n <= u64_max ->
  sys_ok topology (push s (put_machine now CONTROLLER (MController (c <| co_applied := n |>)))).
Proof using Hok Laws.
  intros Hn. apply controller_frame_ok; try done.
  - by apply good_applied; [apply ctl_now_good|lia].
  - apply later_applied. lia.
Qed.

(** The commands that touch neither routes nor transfers. *)
Lemma ticket_frame c1 index command reply c' : co_initialized_at c1 <> None ->
  (exists q target operation generation, command = CAcquireMaintenance q target operation generation)
  \/ (exists q t core record observed, command = CCompleteMaintenance q t core record observed) ->
  execute c1 index command = Done (reply, c') ->
  co_initialized_at c' = co_initialized_at c1 /\ co_groups c' = co_groups c1
  /\ co_routes c' = co_routes c1 /\ co_transfers c' = co_transfers c1.
Proof using.
  intros Hn [(q & tg & op & gen & ->)|(q & t & core & record & ob & ->)]; unfold execute;
    (destruct (co_initialized_at c1) eqn:E; [cbn [is_none negb]|done]).
  - unfold acquire_maintenance. intros H. apply Outcome_bind_Done in H as (? & _ & H). apply Outcome_bind_Done in H as (? & _ & H).
    case_match; [case_match; [by injection H as _ <-|discriminate]|]. outcome_inv; subst; done.
  - unfold complete_maintenance. intros H. do 3 apply Outcome_bind_Done in H as (? & _ & H).
    case_match; [case_match; [by injection H as _ <-|discriminate]|]. outcome_inv; subst; done.
Qed.

(** *** Initialization *)

(** Before the controller is configured no group is. *)
Lemma nothing_initialized g : co_initialized_at c = None -> dm_initialized_at (sn_data now g) = None.
Proof using Hok.
  intros Hc. pose proof (ctl_now_snapshot _ _ Hok) as S.
  destruct (dm_initialized_at (sn_data now g)) as [j|] eqn:E; [|done]. exfalso.
  destruct (decide (g ∈ tp_groups topology)) as [Hg|Hg].
  - destruct (so_data_config _ _ S g Hg) as (_ & _ & Hn); [unfold initialized; congruence|done].
  - rewrite (so_outside _ _ S g Hg) in E. done.
Qed.

Lemma initialize_ok index reply c' : co_initialized_at c = None ->
  good c' -> later c c' ->
  initialize (c <| co_applied := index |>) (mkOrigin CONTROLLER index) (tp_groups topology) (tp_owners topology)
  = Done (reply, c') ->
  sys_ok topology (push s (put_machine now CONTROLLER (MController c'))).
Proof using Hok.
  intros Hc Hg Hl He. unfold initialize in He. change (co_initialized_at (c <| co_applied := index |>)) with (co_initialized_at c) in He.
  rewrite Hc in He. destruct (_ || _); [discriminate|]. injection He as _ E.
  destruct ctl_now_good as [_ Hb]. rewrite Hc in Hb. destruct Hb as (_ & _ & Ht & _).
  assert (Hempty : co_transfers c' = ∅) by (rewrite <- E; exact Ht).
  assert (Hnone : forall t, ~ has c' t).
  { intros t [q Hq]. rewrite Hempty, lookup_empty in Hq. done. }
  assert (Er : co_routes c' = initial_routes 0 (tp_owners topology)) by (by rewrite <- E).
  apply controller_ok; try done.
  - intros i _. rewrite Er, initial_routes_length. by rewrite <- E.
  - intros t []%Hnone.
  - intros t []%Hnone.
  - intros t []%Hnone.
  - intros t []%Hnone.
  - intros x r Hr. rewrite Er, initial_routes_lookup in Hr. destruct Hr as (owner & Ho & ->).
    unfold live_of. rewrite Hempty. cbn.
    assert (Hs : forall g, sl x g = if tp_owners topology !! N.to_nat x ==? Some g
      then Some (mkShard (SActive 1 None) (Some shard_data_default)) else None).
    { intros g. unfold slot_at. by rewrite (nothing_initialized g Hc). }
    split.
    + exists shard_data_default, None. rewrite Hs, Ho. by rewrite (proj2 (eqb_true _ _) eq_refl).
    + intros g Hne. cbn in Hne. left. rewrite Hs, Ho. rewrite (proj2 (eqb_false _ _)); [done|congruence].
Qed.

(** *** A new transfer *)

Section begin_transfer.
Variables (i : Origin) (index : N) (request : string) (t : Transfer) (rt : Route).
Notation m := (tr_movement t).
Notation x := (tr_shard t).
Let c' : Controller := c <| co_applied := index |>
  <| co_routes := <[N.to_nat x := rt <| ro_transfer := Some (tr_id t) |>]> (co_routes c) |>
  <| co_transfers := <[request := t]> (co_transfers c) |>.
Hypothesis Hi : co_initialized_at c = Some i.
Hypothesis Hg : good c'.
Hypothesis Hl : later c c'.
Hypothesis Hfresh : co_transfers c !! request = None.
Hypothesis Hrt : co_routes c !! N.to_nat x = Some rt.
Hypothesis Hphase : tr_phase t = PStarted.
Hypothesis Hsource : mv_source m = ro_owner rt.
Hypothesis Hepoch : mv_previous_epoch m = ro_epoch rt.
Hypothesis Hfree : forall u, has c u -> complete u = false ->
  mv_source (tr_movement u) <> ro_owner rt /\ mv_destination (tr_movement u) <> ro_owner rt.
Hypothesis Hends : initialized now (mv_source m) /\ initialized now (mv_destination m).

Lemma begun_wf : wf c i /\ wf c' i.
Proof using All.
  split; [by apply (ctl_wf topology s Hok)|]. destruct Hg as [_ H].
  change (co_initialized_at c') with (co_initialized_at c) in H. rewrite Hi in H. apply H.
Qed.
Lemma begun_has u : has c' u <-> u = t \/ has c u.
Proof using All.
  split.
  - intros [q Hq]. change (co_transfers c') with (<[request := t]> (co_transfers c)) in Hq.
    apply lookup_insert_Some in Hq as [[<- <-]|[Hne Hq]]; [by left|right; by exists q].
  - intros [->|[q Hq]]; [exists request; apply (lookup_insert_eq (co_transfers c))|].
    exists q. apply (lookup_insert_Some (co_transfers c)). right. split; [|done]. intros ->. congruence.
Qed.
Lemma begun_idle u : has c u -> tr_shard u = x -> complete u = true.
Proof using All.
  destruct begun_wf as [W _]. intros [q Hq] Hu.
  apply (idle_shard c i (N.to_nat x) rt q u W Hrt); [|done|].
  - intros r v Hv Hc. apply Hfree; [by exists r|done].
  - rewrite (wf_route_at c i x rt W Hrt). exact Hu.
Qed.
Lemma begun_live y : live_of c' y = if y =? x then Some t else live_of c y.
Proof using All.
  destruct begun_wf as [W W']. destruct (N.eqb_spec y x) as [->|Hne].
  - apply (live_of_Some c' i W'). split_and!; [by apply begun_has; left|by unfold complete; rewrite Hphase|done].
  - destruct (live_of c y) as [u|] eqn:E.
    + apply (live_of_Some c i W) in E as (Hu & Hc & Hy). apply (live_of_Some c' i W'). split_and!; try done.
      apply begun_has. by right.
    + apply (live_of_None c' i W'). intros u [->|Hu]%begun_has Hy; [done|].
      by apply (proj1 (live_of_None c i W y) E).
Qed.

Lemma begun_ok : sys_ok topology (push s (put_machine now CONTROLLER (MController c'))).
Proof using All.
  destruct begun_wf as [W W']. destruct (sk_now _ _ Hok) as [_ N2 N3 N4 N5].
  apply controller_ok; try done.
  - intros j Hj. change (co_initialized_at c') with (co_initialized_at c) in Hj. cbn [c' co_groups co_routes upd].
    rewrite length_insert. by apply (so_ctl_config _ _ (ctl_now_snapshot _ _ Hok) j).
  - intros u [->|Hu]%begun_has; [by right|left; by exists u].
  - intros u [->|Hu]%begun_has; [by rewrite Hphase|by apply N2].
  - intros u [->|Hu]%begun_has; [by rewrite Hphase|by apply N3].
  - intros u [->|Hu]%begun_has; [by rewrite Hphase|by apply N4].
  - intros y r Hr. rewrite begun_live.
    change (co_routes c') with (<[N.to_nat x := rt <| ro_transfer := Some (tr_id t) |>]> (co_routes c)) in Hr.
    destruct (N.eqb_spec y x) as [->|Hy].
    + pose proof (N5 x rt Hrt) as Hc. rewrite (proj2 (live_of_None c i W x)) in Hc.
      2: { intros u Hu Hx. by apply begun_idle. }
      destruct Hc as [Ha Hq]. rewrite <- Hsource, <- Hepoch in Ha. rewrite <- Hsource in Hq. rewrite <- Hepoch in Hq.
      cbn. split; [by intros g H1 _; apply Hq|].
      unfold phase_slots. rewrite Hphase. split; [by left|]. apply Hq.
      apply not_eq_sym. apply (has_ne c' i W'). by apply begun_has; left.
    + rewrite list_lookup_insert_ne in Hr by lia. by apply N5.
Qed.
End begin_transfer.

(** An endpoint among the groups is not the controller. *)
Lemma group_not_controller i g : co_initialized_at c = Some i -> g ∈ co_groups c -> g <> CONTROLLER.
Proof using Hok.
  intros Hi Hg ->. pose proof (wf_groups _ _ (ctl_wf topology s Hok i Hi)) as H. unfold groups_invalid in H.
  apply contains_true in Hg. bool_inv. congruence.
Qed.

Lemma begin_ok index q x e d reply c' : evidence topology s CONTROLLER (OController (CBegin q x e d)) ->
  co_initialized_at c <> None -> co_applied c < index <= u64_max -> good c' -> later c c' ->
  begin (c <| co_applied := index |>) index q x e d = Done (reply, c') ->
  sys_ok topology (push s (put_machine now CONTROLLER (MController c'))).
Proof using Hok Laws.
  intros [_ Ev] Hn Hix Hg Hl He. destruct (co_initialized_at c) as [i|] eqn:Hi; [|done].
  unfold begin in He. destruct (_ || _); [discriminate|].
  change (co_transfers (c <| co_applied := index |>)) with (co_transfers c) in He.
  destruct (co_transfers c !! q) as [old|] eqn:Hq.
  - destruct (_ && _); [|discriminate]. injection He as _ <-. apply watermark_ok. lia.
  - destruct Ev as [Ev|(sn & r0 & Hsn & Hr0 & He0 & Hsrc & Hdst)]; [done|].
    apply Outcome_bind_Done in He as ([] & _ & He). apply Outcome_bind_Done in He as ([] & _ & He).
    apply Outcome_bind_Done in He as (rt & Hrt%ok_or_Done & He).
    change (co_routes (c <| co_applied := index |>)) with (co_routes c) in Hrt.
    apply Outcome_bind_Done in He as ([] & Gep%refuse_if_Done & He).
    apply Outcome_bind_Done in He as ([] & Gd%refuse_if_Done & He).
    apply Outcome_bind_Done in He as ([] & Gb%refuse_if_Done & He).
    apply Outcome_bind_Done in He as (ep & _ & He). injection He as _ <-. bool_inv.
    pose proof (ctl_wf topology s Hok i Hi) as W.
    apply (begun_ok i index q (mkTransfer q (mkMove (mkTransferId x ep index) (ro_owner rt) d e) PStarted) rt);
      try done; cbn.
    + intros u [r Hu] Hc. rewrite smap_existsb_false in Gb. specialize (Gb r u Hu).
      rewrite Hc in Gb. cbn in Gb. by bool_inv.
    + rewrite contains_true in *. split.
      * assert (Hown : ro_owner rt = ro_owner r0).
        { pose proof (ss_ctl _ _ _ (sk_seen _ _ Hok sn Hsn)) as Hl'.
          assert (Hns : co_initialized_at (sn_ctl sn) <> None).
          { intros Hno. destruct (so_ctl _ _ (sk_snapshots _ _ Hok sn Hsn)) as [_ Hb]. rewrite Hno in Hb.
            destruct Hb as (_ & Hb & _). rewrite Hb in Hr0. discriminate. }
          pose proof (lt_routes _ _ Hl' Hns) as HF.
          destruct (Forall2_lookup_l _ _ _ _ _ HF Hr0) as (r1 & Hr1 & _ & _ & Ho).
          assert (r1 = rt) as -> by congruence. apply Ho. congruence. }
        rewrite Hown in *. apply Hsrc. rewrite <- Hown. apply (group_not_controller i _ Hi).
        destruct (wf_routes _ _ W _ _ Hrt) as (_ & _ & Hin). exact Hin.
      * apply Hdst. by apply (group_not_controller i _ Hi).
Qed.

Lemma transfer_command_ok index command reply c' i : evidence topology s CONTROLLER (OController command) ->
  co_initialized_at c = Some i -> co_applied c < index -> good c' -> later c c' ->
  transfer_command (c <| co_applied := index |>) (mkOrigin CONTROLLER index) command = Done (reply, c') ->
  sys_ok topology (push s (put_machine now CONTROLLER (MController c'))).
Proof using Hok Laws.
  intros Hev Hi Hix Hg Hl He. unfold transfer_command in He.
  apply Outcome_bind_Done in He as (id & Hid%or_panic_Done & He).
  apply Outcome_bind_Done in He as ([q t] & Hf%ok_or_Done & He).
  apply find_transfer in Hf as [Ht <-]. change (co_transfers (c <| co_applied := index |>)) with (co_transfers c) in Ht.
  apply Outcome_bind_Done in He as ([phase routes'] & Hs & He). injection He as _ E.
  change (co_routes (c <| co_applied := index |>)) with (co_routes c) in Hs.
  change (co_transfers (c <| co_applied := index |>)) with (co_transfers c) in E.
  pose proof ctl_now_good as Hgc. destruct Hgc as [_ Hgc]. rewrite Hi in Hgc. destruct Hgc as (W & P & _).
  destruct (transfer_step_result c i q t index W P Ht Hix command phase routes' Hid Hs)
    as [[-> ->]|(Hc & _ & rt & rt' & Hrt & Er & _ & _ & _ & Hpr & _)].
  - subst c'. apply controller_frame_ok; try done. cbn.
    destruct t as [a b p]. apply insert_id. exact Ht.
  - subst c'. eapply phase_command_ok; eauto.
Qed.

Lemma controller_commit_ok index command r c' : evidence topology s CONTROLLER (OController command) ->
  apply c index command = Done (r, c') ->
  sys_ok topology (push s (put_machine now CONTROLLER (MController c'))).
Proof using Hok Laws.
  intros Hev Ha. pose proof ctl_now_good as Hgc. pose proof (apply_good _ _ _ _ _ Hgc Ha) as Hg.
  apply apply_cases in Ha as [[-> Hmax]%checked_add_Some Ha].
  destruct r as [reply|e|]; [|subst; apply watermark_ok; lia|done]. destruct Ha as [He _].
  assert (Hl : later c c') by (eapply execute_later; [done| |exact He]; lia).
  destruct (co_initialized_at c) as [i|] eqn:Hi.
  - pose proof He as He'. unfold execute in He.
    change (co_initialized_at (c <| co_applied := co_applied c + 1 |>)) with (co_initialized_at c) in He.
    rewrite Hi in He. cbn [is_none is_some negb] in He.
    destruct command as [q tg op gen|q tk core record ob|groups owners|q x e d| | | | | | | |];
      try (eapply transfer_command_ok; [exact Hev|exact Hi| |done|done|exact He]; lia).
    1, 2: assert (Hn : co_initialized_at (c <| co_applied := co_applied c + 1 |>) <> None)
            by (change (co_initialized_at c <> None); congruence);
          destruct (fun h => ticket_frame _ _ _ _ _ Hn h He') as (E1 & E2 & E3 & E4);
          [eauto 10|apply controller_frame_ok; done].
    + unfold initialize in He. change (co_initialized_at (c <| co_applied := co_applied c + 1 |>)) with (co_initialized_at c) in He.
      rewrite Hi in He. case_match; [|discriminate]. injection He as _ <-. apply watermark_ok. lia.
    + eapply begin_ok; [exact Hev|congruence| |done|done|exact He]. lia.
  - destruct (execute_frame _ _ _ _ _ He) as [_ Hf].
    change (co_initialized_at (c <| co_applied := co_applied c + 1 |>)) with (co_initialized_at c) in Hf.
    rewrite Hi in Hf. destruct Hf as (groups & owners & ->). destruct Hev as [_ [-> ->]].
    eapply initialize_ok; [done..|exact He].
Qed.

Lemma controller_advance_ok index c' : advance c index = Done c' ->
  sys_ok topology (push s (put_machine now CONTROLLER (MController c'))).
Proof using Hok Laws.
  unfold advance. destruct (negb _) eqn:E; [discriminate|]. intros [= <-]. bool_inv.
  match goal with H : checked_add _ _ = _ |- _ => apply checked_add_Some in H as [-> Hi] end.
  apply watermark_ok. lia.
Qed.
End commit.

(** * Every reachable system keeps the invariant *)
Section invariant.
Context `{Fmt : TypeFormats} `{SerC : Serialize Controller} `{DFmt : DataFormats}.
Variable topology : Topology.
Hypothesis Htop : topology_valid topology = true.

Lemma topology_groups g : g ∈ tp_groups topology -> g <> CONTROLLER.
Proof using Htop.
  intros Hg ->. destruct (topology_valid_inv _ Htop) as (_ & H & _). unfold groups_owners_invalid in H.
  apply contains_true in Hg. bool_inv. congruence.
Qed.

Lemma sys_initial_ok : sys_ok topology sys_initial.
Proof using Htop.
  assert (S : snapshot_ok topology (sy_now sys_initial)).
  { split; cbn; try done.
    - intros g Hg. split; [|done]. apply (data_good_new g). unfold data_new.
      rewrite (proj2 (N.eqb_neq _ _)); [done|by apply topology_groups].
    - intros t [q Hq]. cbn in Hq. by rewrite lookup_empty in Hq. }
  assert (K : named_ok topology (sy_now sys_initial)).
  { split; intros g x a _; unfold slot_at; cbn; by case_match. }
  split; cbn.
  - by intros sn ->%list_elem_of_singleton.
  - assert (Hn : forall t, ~ has (sn_ctl (sy_now sys_initial)) t).
    { intros t [q Hq]. cbn in Hq. by rewrite lookup_empty in Hq. }
    split; try (by intros t []%Hn).
    + intros g key record _ Hk. cbn in Hk. by rewrite lookup_empty in Hk.
    + intros x r Hr. cbn in Hr. by rewrite lookup_nil in Hr.
  - intros sn ->%list_elem_of_singleton. by apply seen_refl.
Qed.

Context `{CLaws : !ControllerLaws} `{DLaws : !DataLaws}.

(** The machine an operation ran on. *)
Lemma operation_cases m index op reply m' : operation m index op = Done (reply, m') ->
  (exists c command r c', m = MController c /\ op = OController command /\ m' = MController c'
     /\ apply c index command = Done (r, c'))
  \/ exists d command r d', m = MData d /\ op = OData command /\ m' = MData d'
     /\ data_apply d index command = Done (r, d').
Proof using.
  destruct m as [c|d], op as [command|command]; cbn; try discriminate; intros H; [left|right];
    apply Outcome_bind_Done in H as ([r n] & Ha & H); apply Outcome_bind_Done in H as (rp & _ & H);
    injection H as _ <-; eauto 10.
Qed.

Lemma sys_step_ok s s' : sys_ok topology s -> sys_step topology s s' -> sys_ok topology s'.
Proof using All.
  intros Hok [g op index reply m Hg Hp Ho|index c Ha|g index d Hg Ha].
  - apply (proposable_evidence topology s Hok) in Hp. unfold machine_at in Ho.
    destruct (N.eqb_spec g CONTROLLER) as [->|Hne];
      apply operation_cases in Ho as [(c & cmd & r & c' & E & -> & -> & Ha)|(d & cmd & r & d' & E & -> & -> & Ha)];
      try discriminate; injection E as <-.
    + by eapply controller_commit_ok.
    + assert (Hg' : g ∈ tp_groups topology).
      { unfold all_groups in Hg. apply elem_of_cons in Hg as [?|?]; [done|done]. }
      by eapply data_commit_ok.
  - by eapply controller_advance_ok.
  - by eapply data_advance_ok.
Qed.

Lemma sys_reachable_ok s : sys_reachable topology s -> sys_ok topology s.
Proof using All.
  unfold sys_reachable. intros H. assert (Hi := sys_initial_ok). revert Hi.
  induction H as [s|s1 s2 s3 Hs _ IH]; [done|]. intros Hok. apply IH. by eapply sys_step_ok.
Qed.

(** A later state of the system remembers every earlier one. *)
Lemma sys_seen_step s s' : sys_step topology s s' -> sy_past s' = sy_seen s.
Proof using. by intros []. Qed.
End invariant.
