(* ===== verification/HandoffTheorems.v ===== *)
(** * A shard is one thing, wherever it is held

    [content] is the data of a shard at the group its route names.  Whatever the
    groups commit, it either stays as it is or one client request is applied to it:
    the transfers, with all their groups and messages, refine a shard that never
    moves. *)
From S2P Require Import Prelude Types Quorum Membership ShardTypes Topology Controller ControllerInv ControllerSafe ControllerGuarantees ControllerTheorems ShardData ShardDataInv ShardSteps ShardGuarantees ShardMachine Service Handoff HandoffEvidence HandoffSlots HandoffData HandoffController.
Local Open Scope N_scope.
Local Open Scope raft_scope.

(** The commands that change a route's owner. *)
Lemma transfer_step_owner routes origin id t command phase routes' k r r' :
  transfer_step routes origin id t command = Done (phase, routes') ->
  routes !! k = Some r -> routes' !! k = Some r' ->
  ro_owner r' = ro_owner r
  \/ exists p, tr_phase t = PInstalled p /\ k = N.to_nat (ti_shard id)
       /\ ro_owner r = mv_source (tr_movement t) /\ ro_owner r' = mv_destination (tr_movement t).
Proof.
  intros H Hr Hr'.
  assert (Hput : forall j rt f, routes !! j = Some rt -> ro_owner (f rt) = ro_owner rt ->
    routes' = <[j := f rt]> routes -> ro_owner r' = ro_owner r).
  { intros j rt f Hj Hf ->. destruct (decide (j = k)) as [->|Hne].
    - rewrite list_lookup_insert_eq in Hr' by (by eapply lookup_lt_Some). congruence.
    - rewrite list_lookup_insert_ne in Hr' by done. congruence. }
  destruct command; try discriminate; cbn [transfer_step] in H; outcome_inv.
  all: try (destruct (tr_phase t) eqn:E; try discriminate; outcome_inv).
  all: try (case_match; outcome_inv; try discriminate; outcome_inv).
  all: try (left; congruence).
  all: try (case_match; outcome_inv; try (left; congruence)).
  all: try (left; eapply (Hput _ _ (fun r => r <| ro_transfer := None |>)); [|done|symmetry; eassumption]; eassumption).
  bool_inv. subst routes'. destruct (decide (N.to_nat (ti_shard id) = k)) as [<-|Hne].
  - right. rewrite list_lookup_insert_eq in Hr' by (by eapply lookup_lt_Some). injection Hr' as <-.
    eexists. split_and!; try done. congruence.
  - left. rewrite list_lookup_insert_ne in Hr' by done. congruence.
Qed.

Section refine.
Context `{Fmt : TypeFormats} `{SerC : Serialize Controller} `{DFmt : DataFormats}.
Variable topology : Topology.

(** ** The owner holds the shard *)

Definition content (sn : Snapshot) (x : ShardId) : option ShardData :=
  match co_routes (sn_ctl sn) !! N.to_nat x with
  | Some r => slot_at topology sn x (ro_owner r) ≫= sh_data
  | None => None
  end.

(** The slots whose data is the shard's. *)
Definition holding (slot : Slot) : bool :=
  match slot with SActive _ _ | SFenced _ _ | SInstalled _ _ => true | _ => false end.

Lemma coupled_owner r live sl : coupled topology r live sl ->
  (forall t, live = Some t -> (ro_owner r, ro_epoch r) = phase_route t) ->
  exists slot data, sl (ro_owner r) = Some (mkShard slot (Some data)) /\ holding slot = true.
Proof.
  intros Hc Hp. destruct live as [t|]; cbn in Hc.
  - specialize (Hp t eq_refl). unfold phase_route in Hp. destruct Hc as [_ Hs]. unfold phase_slots in Hs.
    destruct (tr_phase t); cbn in Hp; injection Hp as -> _.
    + destruct Hs as [[(d & a & ->)|(im & d & _ & pr & ->)] _]; eauto.
    + destruct Hs as [[(d & a & ->)|(im & d & _ & pr & ->)] _]; eauto.
    + destruct Hs as (d & (pr & ->) & _); eauto.
    + destruct Hs as (d & (pr & ->) & _); eauto.
    + destruct Hs as (d & _ & [(pr & ->)|(a & d' & _ & ->)]); eauto.
    + destruct Hs as (_ & d & ->); eauto.
    + destruct Hs as (_ & d & ->); eauto.
    + done.
  - destruct Hc as [(d & a & ->) _]; eauto.
Qed.

(** Only the owner serves, and at the route's epoch. *)
Lemma coupled_active r live sl g e a sd : coupled topology r live sl ->
  (forall t, live = Some t -> (ro_owner r, ro_epoch r) = phase_route t) ->
  sl g = Some (mkShard (SActive e a) sd) -> g = ro_owner r /\ e = ro_epoch r.
Proof.
  intros Hc Hp Hg.
  assert (Hq : forall e', ~ quiet e' (sl g)) by (intros e' [?|(? & ? & ? & ? & _)]; congruence).
  destruct live as [t|]; cbn in Hc.
  - specialize (Hp t eq_refl). unfold phase_route in Hp. destruct Hc as [Ho Hs]. unfold phase_slots in Hs.
    destruct (decide (g = mv_source (tr_movement t))) as [Es|Es];
      [rewrite <- Es in Hs|destruct (decide (g = mv_destination (tr_movement t))) as [Ed|Ed];
        [rewrite <- Ed in Hs|by destruct (Hq _ (Ho g Es Ed))]];
      destruct (tr_phase t); cbn in Hp; injection Hp as -> ->; unfold abandoned, staged, active_with, fenced_with,
        installing_with, installed_with in Hs;
      repeat match goal with
      | H : False |- _ => destruct H
      | H : _ \/ _ |- _ => destruct H
      | H : _ /\ _ |- _ => destruct H
      | H : exists _, _ |- _ => destruct H
      end; try (exfalso; eapply Hq; eassumption); unfold tr_id; split; congruence.
  - destruct Hc as [(d & b & Hd) Hall]. destruct (decide (g = ro_owner r)) as [->|Hne]; [|by destruct (Hq _ (Hall g Hne))].
    split; [done|]. congruence.
Qed.

(** ** One shard, as its clients see it *)

Inductive shard_step (x : ShardId) : option ShardData -> option ShardData -> Prop :=
| shard_stays o : shard_step x o o
| shard_created : shard_step x None (Some shard_data_default)
| shard_served d index command e reply data data' :
    client_step d index command x e data reply data' -> shard_step x (Some data) (Some data').

Hypothesis Htop : topology_valid topology = true.
Context `{CLaws : !ControllerLaws} `{DLaws : !DataLaws}.

Section at_state.
Variable s : System.
Hypothesis Hok : sys_ok topology s.
Notation now := (sy_now s).
Notation c := (sn_ctl (sy_now s)).

Lemma live_route x r t : co_routes c !! N.to_nat x = Some r -> live_of c x = Some t ->
  (ro_owner r, ro_epoch r) = phase_route t.
Proof using Hok.
  intros Hr Hl. destruct (so_ctl _ _ (ctl_now_snapshot _ _ Hok)) as [_ Hg].
  destruct (co_initialized_at c) as [i|] eqn:Hi.
  - by apply (live_facts topology s Hok i Hi x r Hr t Hl).
  - destruct Hg as (_ & E & _). by rewrite E in Hr.
Qed.

Lemma owner_holds x r : co_routes c !! N.to_nat x = Some r ->
  exists slot data, slot_at topology now x (ro_owner r) = Some (mkShard slot (Some data)) /\ holding slot = true.
Proof using Hok.
  intros Hr. eapply coupled_owner; [by apply (no_coupled _ _ (sk_now _ _ Hok))|].
  intros t Ht. by eapply live_route.
Qed.
Lemma only_owner x r g e a sd : co_routes c !! N.to_nat x = Some r ->
  slot_at topology now x g = Some (mkShard (SActive e a) sd) -> g = ro_owner r /\ e = ro_epoch r.
Proof using Hok.
  intros Hr. eapply coupled_active; [by apply (no_coupled _ _ (sk_now _ _ Hok))|].
  intros t Ht. by eapply live_route.
Qed.
Lemma content_at x r : co_routes c !! N.to_nat x = Some r ->
  exists slot data, slot_at topology now x (ro_owner r) = Some (mkShard slot (Some data)) /\ holding slot = true
    /\ content now x = Some data.
Proof using Hok.
  intros Hr. destruct (owner_holds x r Hr) as (slot & data & Hs & Hh). exists slot, data.
  split_and!; [done..|]. unfold content. by rewrite Hr, Hs.
Qed.

(** The shards an initialized group has are routed. *)
Lemma routed g x sh : g ∈ tp_groups topology -> dm_shards (sn_data now g) !! x = Some sh ->
  initialized now g /\ slot_at topology now x g = Some sh /\ exists r, co_routes c !! N.to_nat x = Some r.
Proof using Hok.
  intros Hg Hx. pose proof (ctl_now_snapshot _ _ Hok) as S.
  destruct (so_data _ _ S g Hg) as [[_ _ Hv] _].
  destruct (dm_initialized_at (sn_data now g)) as [j|] eqn:Hj.
  - assert (Hin : initialized now g) by (unfold initialized; congruence).
    destruct (so_data_config _ _ S g Hg Hin) as (_ & En & Hc).
    destruct (validated_shard _ _ _ Hv Hx) as (Hlt & _). rewrite En in Hlt.
    split_and!; [done|unfold slot_at; by rewrite Hj|].
    destruct (co_initialized_at c) as [i|] eqn:Hi; [|done].
    destruct (so_ctl_config _ _ S i Hi) as [_ El]. apply lookup_lt_is_Some_2. unfold len64 in Hlt. lia.
  - destruct (validated_uninitialized _ Hv Hj) as (_ & _ & _ & E & _). by rewrite E, lookup_empty in Hx.
Qed.
(** A shard that a group serves is the route's, data and epoch. *)
Lemma active_content g x e a data : g ∈ tp_groups topology ->
  dm_shards (sn_data now g) !! x = Some (mkShard (SActive e a) (Some data)) ->
  content now x = Some data
  /\ exists r, co_routes c !! N.to_nat x = Some r /\ ro_owner r = g /\ ro_epoch r = e.
Proof using Hok.
  intros Hg Hx. destruct (routed g x _ Hg Hx) as (_ & Hs & r & Hr).
  destruct (only_owner x r g e a _ Hr Hs) as [-> ->]. split; [|by exists r].
  unfold content. by rewrite Hr, Hs.
Qed.
End at_state.

(** ** The controller moves a shard only between equal copies *)

Lemma apply_owner c i index command r c' x rt rt' :
  co_initialized_at c = Some i -> wf c i -> apply c index command = Done (r, c') ->
  co_routes c !! N.to_nat x = Some rt -> co_routes c' !! N.to_nat x = Some rt' ->
  ro_owner rt' = ro_owner rt
  \/ exists t p, live_of c x = Some t /\ tr_phase t = PInstalled p
       /\ ro_owner rt = mv_source (tr_movement t) /\ ro_owner rt' = mv_destination (tr_movement t).
Proof using.
  intros Hi W Ha Hr Hr'. apply apply_cases in Ha as [_ Ha].
  destruct r as [reply|e|]; [|subst c'; left; change (co_routes c !! N.to_nat x = Some rt') in Hr'; congruence|done].
  destruct Ha as [He _]. unfold execute in He.
  change (co_initialized_at (c <| co_applied := index |>)) with (co_initialized_at c) in He.
  rewrite Hi in He. cbn [is_none is_some negb] in He.
  assert (Hsame : co_routes c' = co_routes c -> ro_owner rt' = ro_owner rt) by congruence.
  assert (Htc : transfer_command (c <| co_applied := index |>) (mkOrigin CONTROLLER index) command = Done (reply, c') ->
    ro_owner rt' = ro_owner rt
    \/ exists t p, live_of c x = Some t /\ tr_phase t = PInstalled p
       /\ ro_owner rt = mv_source (tr_movement t) /\ ro_owner rt' = mv_destination (tr_movement t)).
  { clear He. intros He. unfold transfer_command in He.
    apply Outcome_bind_Done in He as (id & _ & He).
    apply Outcome_bind_Done in He as ([q t] & Hf%ok_or_Done & He). apply find_transfer in Hf as [Ht <-].
    apply Outcome_bind_Done in He as ([phase routes'] & Hs & He). injection He as _ <-.
    destruct (transfer_step_owner _ _ _ _ _ _ _ _ _ _ Hs Hr Hr') as [E|(p & Hp & Ek & E1 & E2)]; [by left|right].
    exists t, p. split_and!; try done. apply (live_of_Some c i W). split_and!; [by exists q|unfold complete; by rewrite Hp|].
    unfold tr_shard. lia. }
  destruct command; try (by apply Htc); left.
  - apply Hsame. exact (acquire_routes _ _ _ _ _ _ _ _ He).
  - apply Hsame. exact (complete_routes _ _ _ _ _ _ _ _ _ He).
  - apply Hsame. unfold initialize in He.
    change (co_initialized_at (c <| co_applied := index |>)) with (co_initialized_at c) in He.
    rewrite Hi in He. case_match; [|discriminate]. by injection He as _ <-.
  - unfold begin in He. destruct (_ || _); [discriminate|].
    change (co_transfers (c <| co_applied := index |>)) with (co_transfers c) in He.
    change (co_routes (c <| co_applied := index |>)) with (co_routes c) in He.
    destruct (co_transfers c !! request_id); [destruct (_ && _); [|discriminate]; injection He as _ <-; by apply Hsame|].
    outcome_inv. match goal with E : _ = c' |- _ => subst c' end. cbn [co_routes upd] in Hr'.
    destruct (decide (N.to_nat shard = N.to_nat x)) as [Ek|Hne].
    + rewrite Ek in *. rewrite list_lookup_insert_eq in Hr' by (by eapply lookup_lt_Some).
      injection Hr' as <-. cbn. congruence.
    + rewrite list_lookup_insert_ne in Hr' by done. congruence.
Qed.

Lemma slot_at_controller sn c' x g :
  slot_at topology (put_machine sn CONTROLLER (MController c')) x g = slot_at topology sn x g.
Proof using. done. Qed.

(** *** A commit of the controller *)

Lemma controller_refines s c' : sys_ok topology s ->
  sys_ok topology (push s (put_machine (sy_now s) CONTROLLER (MController c'))) ->
  ctrl_step (sn_ctl (sy_now s)) c' ->
  forall x, shard_step x (content (sy_now s) x) (content (put_machine (sy_now s) CONTROLLER (MController c')) x).
Proof using Htop CLaws.
  intros Hok Hok' Hstep x.
  pose proof (so_ctl _ _ (ctl_now_snapshot _ _ Hok)) as Hgc.
  pose proof (ctrl_step_later _ _ Hgc Hstep) as Hl.
  set (now' := put_machine (sy_now s) CONTROLLER (MController c')) in *.
  destruct (co_routes (sn_ctl (sy_now s)) !! N.to_nat x) as [rt|] eqn:Hr.
  - destruct (content_at s Hok x rt Hr) as (slot & data & Hs & Hh & Hc).
    destruct Hgc as [_ Hgc]. destruct (co_initialized_at (sn_ctl (sy_now s))) as [i|] eqn:Hi;
      [|destruct Hgc as (_ & E & _); by rewrite E in Hr].
    destruct Hgc as (W & _ & _).
    pose proof (lt_routes _ _ Hl ltac:(congruence)) as HF.
    destruct (Forall2_lookup_l _ _ _ _ _ HF Hr) as (rt' & Hr' & _).
    destruct (content_at _ Hok' x rt' Hr') as (slot' & data' & Hs' & _ & Hc').
    change (sy_now (push s now')) with now' in Hs', Hc'. rewrite Hc, Hc'.
    assert (Ho : ro_owner rt' = ro_owner rt
      \/ exists t p, live_of (sn_ctl (sy_now s)) x = Some t /\ tr_phase t = PInstalled p
       /\ ro_owner rt = mv_source (tr_movement t) /\ ro_owner rt' = mv_destination (tr_movement t)).
    { destruct Hstep as [index command r Ha|index Ha]; [by eapply apply_owner|left].
      unfold advance in Ha. case_match; [discriminate|]. injection Ha as Ha. rewrite <- Ha in Hr'.
      change (co_routes (sn_ctl (sy_now s)) !! N.to_nat x = Some rt') in Hr'. congruence. }
    change (slot_at topology now' x) with (slot_at topology (sy_now s) x) in Hs'.
    destruct Ho as [Eo|(t & p & Hlv & Hp & E1 & E2)].
    + rewrite Eo, Hs in Hs'. injection Hs' as _ ->. constructor.
    + pose proof (no_coupled _ _ (sk_now _ _ Hok) x rt Hr) as Hcp. rewrite Hlv in Hcp. destruct Hcp as [_ Hcp].
      unfold phase_slots in Hcp. rewrite Hp in Hcp. destruct Hcp as (d & (pr & Hf) & (pr' & Hd)).
      rewrite <- E1, Hs in Hf. injection Hf as _ ->. rewrite <- E2, Hs' in Hd. injection Hd as _ ->. constructor.
  - assert (E : content (sy_now s) x = None) by (unfold content; by rewrite Hr). rewrite E.
    destruct (co_routes c' !! N.to_nat x) as [rt'|] eqn:Hr'.
    + destruct (content_at _ Hok' x rt' Hr') as (slot' & data' & Hs' & _ & Hc').
      change (sy_now (push s now')) with now' in Hs', Hc'. rewrite Hc'.
      change (slot_at topology now' x) with (slot_at topology (sy_now s) x) in Hs'.
      destruct (co_initialized_at (sn_ctl (sy_now s))) as [i|] eqn:Hi.
      * pose proof (lt_routes _ _ Hl ltac:(congruence)) as HF. apply Forall2_length in HF.
        apply lookup_ge_None in Hr. apply lookup_lt_Some in Hr'. lia.
      * unfold slot_at in Hs'. rewrite (nothing_initialized topology s Hok _ Hi) in Hs'.
        case_match; [|discriminate]. injection Hs' as _ <-. constructor.
    + unfold content. change (sn_ctl now') with c'. rewrite Hr'. constructor.
Qed.

(** *** A commit of a data group *)

Lemma slot_step_data d index x command reply slot data slot' data' :
  slot_step d index x command reply (Some (mkShard slot (Some data))) (Some (mkShard slot' (Some data'))) ->
  holding slot = true -> shard_step x (Some data) (Some data').
Proof using.
  intros H Hh.
  assert (Hundo : forall previous, undo_install previous = Some (mkShard slot' (Some data')) -> False)
    by (by intros [old|]).
  remember (Some (mkShard slot (Some data))) as o eqn:Eo. remember (Some (mkShard slot' (Some data'))) as o' eqn:Eo'.
  destruct H as [| |image before ? ? ? ? Hb| | | | | | | |]; try (by destruct (Hundo _ Eo'));
    try (destruct Hb as [->|(a & cl & sd & -> & _)]; [done|]);
    simplify_eq; try discriminate Hh; try constructor; [by econstructor|by destruct (Hundo _ eq_refl)].
Qed.

Lemma data_refines s g index command r d' : sys_ok topology s -> g ∈ tp_groups topology ->
  sys_ok topology (push s (put_machine (sy_now s) g (MData d'))) ->
  evidence topology s g (OData command) -> data_apply (sn_data (sy_now s) g) index command = Done (r, d') ->
  forall x, shard_step x (content (sy_now s) x) (content (put_machine (sy_now s) g (MData d')) x).
Proof using Htop DLaws.
  intros Hok Hg Hok' Hev Ha x. set (now' := put_machine (sy_now s) g (MData d')) in *.
  destruct (co_routes (sn_ctl (sy_now s)) !! N.to_nat x) as [rt|] eqn:Hr.
  2:{ unfold content. change (sn_ctl now') with (sn_ctl (sy_now s)). rewrite Hr. constructor. }
  destruct (content_at s Hok x rt Hr) as (slot & data & Hs & Hh & Hc).
  destruct (content_at _ Hok' x rt Hr) as (slot' & data' & Hs' & _ & Hc').
  change (sy_now (push s now')) with now' in Hs', Hc'. rewrite Hc, Hc'.
  assert (Hstay : slot_at topology now' x (ro_owner rt) = slot_at topology (sy_now s) x (ro_owner rt) ->
    shard_step x (Some data) (Some data')).
  { intros E. rewrite E, Hs in Hs'. injection Hs' as _ ->. constructor. }
  destruct (decide (ro_owner rt = g)) as [Eg|Hne]; [|by apply Hstay, slot_at_ne].
  rewrite Eg in *. apply data_apply_cases in Ha as [_ Ha].
  set (d := sn_data (sy_now s) g) in *.
  destruct r as [reply|e|]; [|apply Hstay; unfold slot_at, now'; rewrite data_at_eq, Ha; done|done].
  destruct Ha as [He _]. destruct (dm_initialized_at d) as [j|] eqn:Hj.
  - assert (Hin1 : dm_initialized_at (d <| dm_applied := index |>) <> None).
    { cbn [upd dm_initialized_at]. by rewrite Hj. }
    destruct (data_execute_steps _ _ _ _ _ Hin1 He) as (Hm & (_ & _ & Ej & _) & _).
    change (dm_initialized_at (d <| dm_applied := index |>)) with (dm_initialized_at d) in Ej.
    assert (E1 : slot_at topology (sy_now s) x g = dm_shards d !! x) by (unfold slot_at; fold d; by rewrite Hj).
    assert (E2 : slot_at topology now' x g = dm_shards d' !! x).
    { unfold slot_at, now'. rewrite data_at_eq, Ej, Hj. done. }
    destruct (Hm x) as [E|Hst].
    + apply Hstay. rewrite E1, E2. exact E.
    + change (dm_shards (d <| dm_applied := index |>)) with (dm_shards d) in Hst.
      rewrite <- E1, <- E2, Hs, Hs' in Hst. by eapply slot_step_data.
  - unfold data_execute in He. destruct command; change (dm_initialized_at (d <| dm_applied := index |>))
      with (dm_initialized_at d) in He; rewrite ?Hj in He; cbn [is_none is_some negb] in He; try discriminate.
    apply Hstay. by eapply bootstrap_slots.
Qed.

(** Whatever happens anywhere, a shard stays as it is or serves one request. *)
Lemma step_refines s s' : sys_ok topology s -> sys_step topology s s' ->
  forall x, shard_step x (content (sy_now s) x) (content (sy_now s') x).
Proof using All.
  intros Hok Hstep. pose proof (sys_step_ok topology Htop s s' Hok Hstep) as Hok'.
  destruct Hstep as [g op index reply m Hg Hp Ho|index c Ha|g index d Hg Ha].
  - apply (proposable_evidence topology s Hok) in Hp. unfold machine_at in Ho.
    destruct (N.eqb_spec g CONTROLLER) as [->|Hne];
      apply operation_cases in Ho as [(c & cmd & r & c' & E & -> & -> & Ha)|(d & cmd & r & d' & E & -> & -> & Ha)];
      try discriminate; injection E as <-.
    + apply controller_refines; [done..|]. by econstructor.
    + assert (Hg' : g ∈ tp_groups topology).
      { unfold all_groups in Hg. apply elem_of_cons in Hg as [?|?]; [done|done]. }
      by eapply data_refines.
  - apply controller_refines; [done..|]. by eapply step_advance.
  - intros x. unfold content. cbn [sy_now push]. change (sn_ctl (put_machine (sy_now s) g (MData d))) with (sn_ctl (sy_now s)).
    destruct (co_routes _ !! _) as [rt|]; [|constructor].
    assert (E : slot_at topology (put_machine (sy_now s) g (MData d)) x (ro_owner rt) = slot_at topology (sy_now s) x (ro_owner rt)).
    { destruct (decide (ro_owner rt = g)) as [->|Hne]; [|by apply slot_at_ne]. unfold slot_at. rewrite data_at_eq.
      unfold data_advance in Ha. case_match; [discriminate|]. injection Ha as <-. done. }
    rewrite E. constructor.
Qed.
End refine.

(** * What the shard service promises

    The theorems about the groups together: one group serves a shard at a time, a
    read returns the shard's current data, the hand-over refines a shard that never
    moves, and a request a client sends again, to whatever group then owns the
    shard, is not executed twice. *)
Section theorems.
Context `{Fmt : TypeFormats} `{SerC : Serialize Controller} `{DFmt : DataFormats}.
Context `{CLaws : !ControllerLaws} `{DLaws : !DataLaws}.
Variable topology : Topology.

(** ** What clients are told stays true *)

Lemma content_balanced s x data : sys_ok topology s -> content topology (sy_now s) x = Some data -> balanced data.
Proof using.
  intros Hok Hc. unfold content in Hc. destruct (co_routes _ !! _) as [r|] eqn:Hr; [|done].
  destruct (slot_at topology (sy_now s) x (ro_owner r)) as [sh|] eqn:Hs; [|done]. cbn in Hc.
  pose proof (ctl_now_snapshot _ _ Hok) as S. unfold slot_at in Hs.
  destruct (dm_initialized_at (sn_data (sy_now s) (ro_owner r))) as [j|] eqn:Hj.
  - assert (Hg : ro_owner r ∈ tp_groups topology).
    { destruct (decide (ro_owner r ∈ tp_groups topology)) as [|Hn]; [done|].
      rewrite (so_outside _ _ S _ Hn) in Hj. done. }
    destruct (so_data _ _ S _ Hg) as [[_ _ Hv] _].
    destruct (validated_shard _ _ _ Hv Hs) as (_ & _ & _ & Hd). apply (Hd data Hc).
  - case_match; [|done]. injection Hs as <-. injection Hc as <-. done.
Qed.

Lemma step_kept s s' x data : topology_valid topology = true ->
  sys_ok topology s -> sys_step topology s s' -> content topology (sy_now s) x = Some data ->
  exists data', content topology (sy_now s') x = Some data' /\ data_kept data data'.
Proof using CLaws DLaws.
  intros Htop Hok Hs Hc. pose proof (sys_step_ok topology Htop s s' Hok Hs) as Hok'.
  pose proof (step_refines topology Htop s s' Hok Hs x) as Hst. rewrite Hc in Hst.
  destruct (content topology (sy_now s') x) as [data'|] eqn:Hc'; [|by inversion Hst].
  exists data'. split; [done|]. pose proof (content_balanced _ _ _ Hok Hc) as B.
  pose proof (content_balanced _ _ _ Hok' Hc') as B'. inversion Hst; subst; [done|].
  by eapply client_step_kept.
Qed.
Lemma steps_kept s s' x data : topology_valid topology = true ->
  sys_ok topology s -> rtc (sys_step topology) s s' -> content topology (sy_now s) x = Some data ->
  exists data', content topology (sy_now s') x = Some data' /\ data_kept data data'.
Proof using CLaws DLaws.
  intros Htop Hok H. revert data Hok. induction H as [s|s1 s2 s3 Hs _ IH]; intros data Hok Hc; [by exists data|].
  destruct (step_kept s1 s2 x data Htop Hok Hs Hc) as (d2 & H2 & K2).
  destruct (IH d2) as (d3 & H3 & K3); [by eapply sys_step_ok|done|]. exists d3. split; [done|by etrans].
Qed.

(** A client's request can always be put to a group. *)
Lemma client_proposable s g command x : g <> CONTROLLER -> client_shard command = Some x ->
  proposable topology s g (OData command).
Proof using.
  intros Hg Hc. assert (Hd : forall cmd, returns (answers s) (data g cmd) (OData cmd)).
  { intros cmd. by apply returns_data. }
  destruct command; try discriminate.
  - apply (proposable_action topology s g _ (ARegister shard epoch nonce)), Hd.
  - apply (proposable_action topology s g _ (AClose shard epoch session)), Hd.
  - apply (proposable_action topology s g _ (AMutate shard epoch session key sequence value)), Hd.
Qed.

(** What an answered request did to its shard. *)
Lemma operation_client s g x command index reply m :
  sys_ok topology s -> g ∈ tp_groups topology -> g <> CONTROLLER -> client_shard command = Some x ->
  operation (machine_at (sy_now s) g) index (OData command) = Done (RpData reply, m) ->
  exists d' data data', m = MData d' /\ content topology (sy_now s) x = Some data
    /\ client_step (sn_data (sy_now s) g <| dm_applied := index |>) index command x (client_epoch command) data reply data'
    /\ content topology (put_machine (sy_now s) g m) x = Some data'.
Proof using.
  intros Hok Hg Hne Hx Ho. unfold machine_at in Ho. rewrite (proj2 (N.eqb_neq _ _) Hne) in Ho. cbn in Ho.
  apply Outcome_bind_Done in Ho as ([r d'] & Ha & Ho). apply data_apply_cases in Ha as [_ Ha].
  destruct r as [rp|e|]; [|discriminate|done]. cbn in Ho. injection Ho as -> <-. destruct Ha as [He _].
  destruct (data_execute_client _ _ _ _ _ _ Hx He) as (a & data & data' & Hs & Hst & ->).
  exists (put_data (sn_data (sy_now s) g <| dm_applied := index |>) x data'), data, data'.
  change (dm_shards (sn_data (sy_now s) g <| dm_applied := index |>)) with (dm_shards (sn_data (sy_now s) g)) in Hs.
  destruct (active_content topology s Hok g x _ _ _ Hg Hs) as (Hc & r & Hr & Ho & _).
  destruct (routed topology s Hok g x _ Hg Hs) as (Hin & Hsl & _).
  split_and!; [done..|]. unfold content. change (sn_ctl (put_machine (sy_now s) g (MData ?d))) with (sn_ctl (sy_now s)).
  cbn [put_machine sn_ctl]. rewrite Hr, Ho. unfold slot_at. cbn [sn_data]. rewrite N.eqb_refl.
  unfold initialized in Hin. change (dm_initialized_at (put_data ?d x data')) with (dm_initialized_at d).
  cbn [put_data dm_initialized_at upd dm_shards]. destruct (dm_initialized_at (sn_data (sy_now s) g)); [|done].
  by rewrite lookup_alter_eq, Hs.
Qed.

(** ** The properties *)

(** (C8) At most one group serves a shard, and it is the one the controller's
    route names, at the route's epoch: no history of commits, duplicates and late
    deliveries lets two groups, or one group at two epochs, accept requests. *)
Theorem handoff_single_server s x g g' e e' a a' sd sd' :
  topology_valid topology = true -> sys_reachable topology s ->
  g ∈ tp_groups topology -> g' ∈ tp_groups topology ->
  dm_shards (sn_data (sy_now s) g) !! x = Some (mkShard (SActive e a) sd) ->
  dm_shards (sn_data (sy_now s) g') !! x = Some (mkShard (SActive e' a') sd') ->
  g' = g /\ e' = e
  /\ exists r, co_routes (sn_ctl (sy_now s)) !! N.to_nat x = Some r /\ ro_owner r = g /\ ro_epoch r = e.
Proof using CLaws DLaws.
  intros Htop Hs Hg Hg' Hx Hx'. pose proof (sys_reachable_ok topology Htop s Hs) as Hok.
  destruct (routed topology s Hok g x _ Hg Hx) as (_ & Hsl & r & Hr).
  destruct (routed topology s Hok g' x _ Hg' Hx') as (_ & Hsl' & _).
  destruct (only_owner topology s Hok x r g e a sd Hr Hsl) as [-> ->].
  destruct (only_owner topology s Hok x r g' e' a' sd' Hr Hsl') as [-> ->]. split_and!; [done..|by exists r].
Qed.

(** (C11) A read that a group answers returns the shard's current data: the group is
    the route's owner, the epoch the route's, the value the one in [content]. *)
Theorem handoff_reads_current s x g e key o :
  topology_valid topology = true -> sys_reachable topology s -> g ∈ tp_groups topology ->
  query (machine_at (sy_now s) g) (QRead x e key) = Done o ->
  exists data r, content topology (sy_now s) x = Some data
    /\ co_routes (sn_ctl (sy_now s)) !! N.to_nat x = Some r /\ ro_owner r = g /\ ro_epoch r = e
    /\ o = ObValue g x e key (mjoin (sd_cells data !! key)).
Proof using CLaws DLaws.
  intros Htop Hs Hg Hq. pose proof (sys_reachable_ok topology Htop s Hs) as Hok.
  pose proof (topology_groups topology Htop g Hg) as Hne.
  unfold machine_at in Hq. rewrite (proj2 (N.eqb_neq _ _) Hne) in Hq. cbn in Hq.
  apply Outcome_bind_Done in Hq as (v & Hr & Hq). injection Hq as <-.
  unfold data_read in Hr. apply Outcome_bind_Done in Hr as ([] & _ & Hr).
  apply Outcome_bind_Done in Hr as (data & (a & Hx)%active_Done & Hr). injection Hr as <-.
  destruct (active_content topology s Hok g x _ _ _ Hg Hx) as (Hc & r & Hr & Ho & He).
  destruct (so_data _ _ (ctl_now_snapshot _ _ Hok) g Hg) as [_ ->]. by exists data, r.
Qed.

(** (C10) The hand-over refines a shard that never moves: whatever any group commits,
    in any order, the shard's data stays as it is or one client request is applied to
    it, as a single machine would. *)
Theorem handoff_refines_shard s s' x :
  topology_valid topology = true -> sys_reachable topology s -> sys_step topology s s' ->
  shard_step x (content topology (sy_now s) x) (content topology (sy_now s') x).
Proof using CLaws DLaws.
  intros Htop Hs Hst. pose proof (sys_reachable_ok topology Htop s Hs) as Hok. by apply step_refines.
Qed.

(** (C9) Exactly once, across moves: after a request is answered, the same request
    sent again, at any later time and to any group, is refused or gets the same
    answer and leaves the shard's data alone. *)
Theorem handoff_exactly_once s s2 x g g2 command command2 index index2 reply reply2 m m2 :
  topology_valid topology = true -> sys_reachable topology s ->
  g ∈ tp_groups topology -> g2 ∈ tp_groups topology ->
  client_shard command = Some x -> same_request command command2 ->
  operation (machine_at (sy_now s) g) index (OData command) = Done (RpData reply, m) ->
  rtc (sys_step topology) (push s (put_machine (sy_now s) g m)) s2 ->
  operation (machine_at (sy_now s2) g2) index2 (OData command2) = Done (RpData reply2, m2) ->
  reply2 = reply
  /\ content topology (put_machine (sy_now s2) g2 m2) x = content topology (sy_now s2) x.
Proof using CLaws DLaws.
  intros Htop Hs Hg Hg2 Hx Hsame Ho Hrtc Ho2.
  pose proof (sys_reachable_ok topology Htop s Hs) as Hok.
  pose proof (topology_groups topology Htop g Hg) as Hne. pose proof (topology_groups topology Htop g2 Hg2) as Hne2.
  assert (Hx2 : client_shard command2 = Some x).
  { destruct command, command2; try done; cbn in *; destruct Hsame as [<- _]; done. }
  destruct (operation_client s g x command index reply m Hok Hg Hne Hx Ho) as (d' & data & data' & Em & Hc & Hst & Hc').
  assert (Hstep : sys_step topology s (push s (put_machine (sy_now s) g m))).
  { eapply sys_commit; [|eapply (client_proposable s g command x Hne Hx)|exact Ho]. by right. }
  pose proof (sys_step_ok topology Htop _ _ Hok Hstep) as Hok1.
  assert (Hok2 : sys_ok topology s2).
  { apply sys_reachable_ok; [done..|]. unfold sys_reachable. etrans; [eapply rtc_r; [exact Hs|exact Hstep]|exact Hrtc]. }
  pose proof (client_step_remembers _ _ _ _ _ _ _ _ Hst) as Hrem.
  destruct (steps_kept _ _ x data' Htop Hok1 Hrtc Hc') as (data2 & Hc2 & K).
  pose proof (remembers_kept _ _ _ _ K Hrem) as Hrem2.
  destruct (operation_client s2 g2 x command2 index2 reply2 m2 Hok2 Hg2 Hne2 Hx2 Ho2)
    as (d2 & old & new & Em2 & Hco & Hst2 & Hcn).
  rewrite Hc2 in Hco. injection Hco as <-.
  destruct (client_retry _ _ _ _ _ _ _ _ _ _ Hst2 Hsame Hrem2) as [-> ->]. by rewrite Hcn, Hc2.
Qed.
End theorems.
