(* ===== verification/HandoffMarks.v ===== *)
(** * Recorded indices have happened

    The controller records an image or an installation only after the group applied
    it, so the watermark of the group has passed it, and a group that records an
    abort afterwards does so at a higher index. *)
From S2P Require Import Prelude Types Quorum Membership ShardTypes Topology Controller ControllerInv ControllerSafe ControllerGuarantees ControllerTheorems ShardData ShardDataInv ShardSteps ShardGuarantees ShardMachine Service Handoff HandoffEvidence HandoffSlots HandoffData HandoffController HandoffTheorems.
Local Open Scope N_scope.
Local Open Scope raft_scope.

(** What a phase command adds to the evidence. *)
Lemma transfer_step_image routes origin id t command phase routes' image :
  transfer_step routes origin id t command = Done (phase, routes') -> phase_image phase = Some image ->
  phase_image (tr_phase t) = Some image \/ command = CFenced image.
Proof.
  intros H Hp. destruct command; try discriminate; cbn [transfer_step] in H.
  1-3, 6-8: outcome_inv; destruct (tr_phase t) as [|ab [] sr dr| | | | | |] eqn:E; try discriminate;
    repeat (case_match; try discriminate); outcome_inv; bool_inv; subst; cbn in *; first [left; congruence|right; congruence].
  - apply Outcome_bind_Done in H as (ph & Ha & H). injection H as -> _. unfold abort_phase in Ha.
    destruct (tr_phase t); try discriminate; injection Ha as <-; cbn in *; auto.
  - apply Outcome_bind_Done in H as (ph & Ha & H).
    assert (ph = phase) as -> by (revert H; case_match; [intros (rt & _ & Hrt)%Outcome_bind_Done; revert Hrt; case_match|]; congruence).
    left. unfold endpoint_aborted in Ha. destruct (tr_phase t) as [|ex before sr dr| | | | | |]; try discriminate.
    outcome_inv. repeat (case_match; try discriminate); outcome_inv; subst; exact Hp.
Qed.
Lemma transfer_step_installation routes origin id t command phase routes' p :
  transfer_step routes origin id t command = Done (phase, routes') -> phase_installation phase = Some p ->
  phase_installation (tr_phase t) = Some p \/ command = CInstalled p.
Proof.
  intros H Hp. destruct command; try discriminate; cbn [transfer_step] in H.
  1-3, 6-8: outcome_inv; destruct (tr_phase t) as [|ab [] sr dr| | | | | |] eqn:E; try discriminate;
    repeat (case_match; try discriminate); outcome_inv; bool_inv; subst; cbn in *; first [left; congruence|right; congruence].
  - apply Outcome_bind_Done in H as (ph & Ha & H). injection H as -> _. unfold abort_phase in Ha.
    destruct (tr_phase t); try discriminate; injection Ha as <-; cbn in *; auto.
  - apply Outcome_bind_Done in H as (ph & Ha & H).
    assert (ph = phase) as -> by (revert H; case_match; [intros (rt & _ & Hrt)%Outcome_bind_Done; revert Hrt; case_match|]; congruence).
    left. unfold endpoint_aborted in Ha. destruct (tr_phase t) as [|ex before sr dr| | | | | |]; try discriminate.
    outcome_inv. repeat (case_match; try discriminate); outcome_inv; subst; exact Hp.
Qed.
Lemma transfer_step_aborted routes origin id t command phase routes' ab before sr dr :
  transfer_step routes origin id t command = Done (phase, routes') -> phase = PAborted ab before sr dr ->
  (exists sr' dr', tr_phase t = PAborted ab before sr' dr') \/ phase_abort (tr_phase t) = None.
Proof.
  intros H ->. destruct (tr_phase t) as [|ab' before' sr' dr'| | | | | |] eqn:E; cbn; try (by right). left.
  destruct command; try discriminate; cbn [transfer_step] in H; rewrite ?E in H.
  1-3, 6-8: outcome_inv; discriminate.
  - unfold abort_phase in H. rewrite E in H. cbn in H. injection H as -> -> -> -> _. eauto.
  - apply Outcome_bind_Done in H as (ph & Ha & H).
    assert (ph = PAborted ab before sr dr) as ->
      by (revert H; case_match; [intros (rt & _ & Hrt)%Outcome_bind_Done; revert Hrt; case_match|]; congruence).
    unfold endpoint_aborted in Ha. rewrite E in Ha.
    outcome_inv. repeat (case_match; try discriminate); outcome_inv; subst; eauto.
Qed.

Section marks.
Context `{Fmt : TypeFormats} `{SerC : Serialize Controller} `{DFmt : DataFormats}.
Variable topology : Topology.

(** The transfers after a commit of the controller. *)
Lemma apply_transfers c index command r c' t' :
  apply c index command = Done (r, c') -> has c' t' -> co_initialized_at c <> None ->
  has c t' \/ tr_phase t' = PStarted
  \/ exists t phase routes', has c t /\ command_id command = Some (tr_id t)
       /\ transfer_step (co_routes c) (mkOrigin CONTROLLER index) (tr_id t) t command = Done (phase, routes')
       /\ t' = t <| tr_phase := phase |>.
Proof using.
  intros Ha [q Hq] Hi. apply apply_cases in Ha as [_ Ha].
  destruct r as [reply|e|]; [|subst c'; left; by exists q|done].
  destruct Ha as [He _]. unfold execute in He.
  change (co_initialized_at (c <| co_applied := index |>)) with (co_initialized_at c) in He.
  destruct (co_initialized_at c) as [i|] eqn:Hi'; [|done]. cbn [is_none is_some negb] in He.
  assert (Hsame : co_transfers c' = co_transfers c -> has c t') by (intros E; exists q; congruence).
  assert (Htc : transfer_command (c <| co_applied := index |>) (mkOrigin CONTROLLER index) command = Done (reply, c') ->
    has c t' \/ tr_phase t' = PStarted
    \/ exists t phase routes', has c t /\ command_id command = Some (tr_id t)
       /\ transfer_step (co_routes c) (mkOrigin CONTROLLER index) (tr_id t) t command = Done (phase, routes')
       /\ t' = t <| tr_phase := phase |>).
  { clear He. intros He. unfold transfer_command in He. apply Outcome_bind_Done in He as (id & Hid%or_panic_Done & He).
    apply Outcome_bind_Done in He as ([q' t] & Hf%ok_or_Done & He). apply find_transfer in Hf as [Ht <-].
    apply Outcome_bind_Done in He as ([phase routes'] & Hs & He). injection He as _ <-. cbn in Hq.
    apply lookup_insert_Some in Hq as [[<- <-]|[_ Hq]]; [|left; by exists q].
    right. right. exists t, phase, routes'. split_and!; try done. by exists q'. }
  destruct command; try (by apply Htc).
  - left. apply Hsame. unfold acquire_maintenance in He. outcome_inv.
    repeat (case_match; outcome_inv; try discriminate); by subst.
  - left. apply Hsame. unfold complete_maintenance in He. outcome_inv.
    repeat (case_match; outcome_inv; try discriminate); by subst.
  - left. apply Hsame. unfold initialize in He.
    change (co_initialized_at (c <| co_applied := index |>)) with (co_initialized_at c) in He.
    rewrite Hi' in He. case_match; [|discriminate]. by injection He as _ <-.
  - unfold begin in He. destruct (_ || _); [discriminate|].
    change (co_transfers (c <| co_applied := index |>)) with (co_transfers c) in He.
    destruct (co_transfers c !! request_id) eqn:Eq; [destruct (_ && _); [|discriminate]; injection He as _ <-; left; by apply Hsame|].
    outcome_inv. match goal with E : _ = c' |- _ => subst c' end. cbn in Hq.
    apply lookup_insert_Some in Hq as [[_ <-]|[_ Hq]]; [by right; left|left; by exists q].
Qed.

(** ** The invariant *)

Record marks_ok (sn : Snapshot) : Prop := {
  mk_fence : forall t image, has (sn_ctl sn) t -> phase_image (tr_phase t) = Some image ->
    o_index (ip_fence image) <= dm_applied (sn_data sn (mv_source (tr_movement t)));
  mk_installed : forall t p, has (sn_ctl sn) t -> phase_installation (tr_phase t) = Some p ->
    o_index (in_installed p) <= dm_applied (sn_data sn (mv_destination (tr_movement t)));
  mk_record : forall t ab before sr dr g record, has (sn_ctl sn) t -> tr_phase t = PAborted ab before sr dr ->
    g ∈ tp_groups topology -> dm_aborted (sn_data sn g) !! transfer_key (tr_id t) = Some record ->
    recovery_lower t before g < o_index (abr_recovered record);
}.

(** The bound an endpoint's receipt must exceed has been applied there. *)
Lemma lower_applied sn t ab before sr dr g : marks_ok sn -> has (sn_ctl sn) t ->
  tr_phase t = PAborted ab before sr dr -> recovery_lower t before g <= dm_applied (sn_data sn g).
Proof using.
  intros [M1 M2 _] Ht Hp. pose proof (M1 t) as M1'. pose proof (M2 t) as M2'. rewrite Hp in M1', M2'.
  unfold recovery_lower. destruct before as [|image|p]; cbn in *; [lia| |].
  - destruct (N.eqb_spec g (mv_source (tr_movement t))) as [-> | ]; [|lia]. by apply M1'.
  - destruct (N.eqb_spec g (mv_source (tr_movement t))) as [-> | ]; [by apply M1'|].
    destruct (N.eqb_spec g (mv_destination (tr_movement t))) as [-> | ]; [by apply M2'|lia].
Qed.

Section step.
Hypothesis Htop : topology_valid topology = true.
Context `{CLaws : !ControllerLaws} `{DLaws : !DataLaws}.
Variable s : System.
Hypothesis Hok : sys_ok topology s.
Hypothesis Hmarks : marks_ok (sy_now s).
Notation now := (sy_now s).
Notation c := (sn_ctl (sy_now s)).

(** A frozen or installed slot a group showed happened before its watermark. *)
Lemma seen_fenced sn g x image data : sn ∈ sy_seen s -> g ∈ tp_groups topology ->
  fenced_with image (slot_at topology sn x g) data -> o_index (ip_fence image) <= dm_applied (sn_data now g).
Proof using Hok.
  intros Hsn Hg [pr Hf]. pose proof (dl_applied _ _ (ss_data _ _ _ (sk_seen _ _ Hok sn Hsn) g Hg)) as Hle.
  destruct (so_data _ _ (sk_snapshots _ _ Hok sn Hsn) g Hg) as [[_ _ Hv] _]. unfold slot_at in Hf.
  destruct (dm_initialized_at (sn_data sn g)); [|by case_match].
  destruct (validated_shard _ _ _ Hv Hf) as (_ & _ & (_ & Hs & _) & _). unfold fence_invalid in Hs. bool_inv. lia.
Qed.
Lemma seen_installed sn g x p data : sn ∈ sy_seen s -> g ∈ tp_groups topology ->
  installed_with p (slot_at topology sn x g) data -> o_index (in_installed p) <= dm_applied (sn_data now g).
Proof using Hok.
  intros Hsn Hg [pr Hf]. pose proof (dl_applied _ _ (ss_data _ _ _ (sk_seen _ _ Hok sn Hsn) g Hg)) as Hle.
  destruct (so_data _ _ (sk_snapshots _ _ Hok sn Hsn) g Hg) as [[_ _ Hv] _]. unfold slot_at in Hf.
  destruct (dm_initialized_at (sn_data sn g)); [|by case_match].
  destruct (validated_shard _ _ _ Hv Hf) as (_ & _ & (Hs & _) & _). unfold installation_invalid in Hs. bool_inv. lia.
Qed.

Lemma marks_controller index command r c' : evidence topology s CONTROLLER (OController command) ->
  apply c index command = Done (r, c') -> marks_ok (put_machine now CONTROLLER (MController c')).
Proof using Hok Hmarks CLaws.
  intros Hev Ha. pose proof (ctl_now_snapshot _ _ Hok) as S. pose proof (so_ctl _ _ S) as [_ Hgc].
  destruct Hmarks as [M1 M2 M3].
  destruct (co_initialized_at c) as [i|] eqn:Hi.
  2:{ pose proof Ha as Ha'. apply apply_cases in Ha' as [_ Ha']. destruct Hgc as (_ & _ & Hempty & _).
      assert (Hnone : forall t, ~ has c' t).
      { assert (E : co_transfers c' = ∅); [|intros t [q Hq]; rewrite E, lookup_empty in Hq; done].
        destruct r as [reply|e|]; [|by rewrite Ha'|done]. destruct Ha' as [He _].
        pose proof (execute_frame _ _ _ _ _ He) as [_ Hf].
        change (co_initialized_at (c <| co_applied := index |>)) with (co_initialized_at c) in Hf. rewrite Hi in Hf.
        destruct Hf as (groups & owners & ->). cbn [execute] in He. unfold initialize in He.
        change (co_initialized_at (c <| co_applied := index |>)) with (co_initialized_at c) in He. rewrite Hi in He.
        destruct (_ || _); [discriminate|]. injection He as _ <-. exact Hempty. }
      split; intros t; intros; exfalso; by eapply Hnone. }
  destruct Hgc as (W & _ & _).
  assert (Hc : forall t', has c' t' -> has c t' \/ tr_phase t' = PStarted
    \/ exists t phase routes', has c t /\ command_id command = Some (tr_id t)
         /\ transfer_step (co_routes c) (mkOrigin CONTROLLER index) (tr_id t) t command = Done (phase, routes')
         /\ t' = t <| tr_phase := phase |>).
  { intros t' Ht'. by eapply apply_transfers; [exact Ha|exact Ht'|rewrite Hi]. }
  split; cbn.
  - intros t image [Ht|[Hp|(u & phase & routes' & Hu & Hid & Hs & ->)]]%Hc Him; [by apply M1|by rewrite Hp in Him|].
    cbn in *. destruct (transfer_step_image _ _ _ _ _ _ _ _ Hs Him) as [E| ->]; [by apply M1|].
    destruct Hev as [_ (v & sn & data & Hv & Em & Hsn & Hf)]. cbn in Hid. injection Hid as Hid.
    assert (v = u) as ->. { apply (has_unique c i W); [done..|]. unfold tr_id at 1. by rewrite Em. }
    destruct (has_groups topology s Hok u Hu) as (G1 & _). by eapply seen_fenced.
  - intros t p [Ht|[Hp|(u & phase & routes' & Hu & Hid & Hs & ->)]]%Hc Hin; [by apply M2|by rewrite Hp in Hin|].
    cbn in *. destruct (transfer_step_installation _ _ _ _ _ _ _ _ Hs Hin) as [E| ->]; [by apply M2|].
    destruct Hev as [_ (v & sn & data & Hv & Ep & Hsn & Hf)]. cbn in Hid. injection Hid as Hid.
    destruct (phase_image_own c i W v _ Hv Ep) as [_ Em].
    assert (v = u) as ->. { apply (has_unique c i W); [done..|]. unfold tr_id at 1. by rewrite <- Em. }
    destruct (has_groups topology s Hok u Hu) as (_ & G2 & _). by eapply seen_installed.
  - intros t ab before sr dr g record [Ht|[Hp|(u & phase & routes' & Hu & Hid & Hs & ->)]]%Hc Hp' Hg Hr;
      [by eapply M3|congruence|].
    cbn in Hp'. destruct (transfer_step_aborted _ _ _ _ _ _ _ _ _ _ _ Hs Hp') as [(sr' & dr' & E)|E].
    + exact (M3 u ab before sr' dr' g record Hu E Hg Hr).
    + exfalso. destruct (no_aborted _ _ (sk_now _ _ Hok) g _ record Hg Hr) as (v & Hv & Hpv & Hk).
      apply (inj transfer_key) in Hk. assert (v = u) as -> by (by apply (has_unique c i W)). congruence.
Qed.

Lemma marks_watermark g d' : g ∈ tp_groups topology -> dm_aborted d' = dm_aborted (sn_data now g) ->
  dm_applied (sn_data now g) <= dm_applied d' -> marks_ok (put_machine now g (MData d')).
Proof using Hmarks.
  intros Hg Ea Hle. destruct Hmarks as [M1 M2 M3].
  assert (Hap : forall g', dm_applied (sn_data now g') <= dm_applied (sn_data (put_machine now g (MData d')) g')).
  { intros g'. cbn. destruct (N.eqb_spec g' g) as [-> | ]; [done|lia]. }
  split; cbn.
  - intros t image Ht Hi. etrans; [by apply M1|apply Hap].
  - intros t p Ht Hi. etrans; [by apply M2|apply Hap].
  - intros t ab before sr dr g' record Ht Hp Hg' Hr. revert Hr. destruct (N.eqb_spec g' g) as [-> | ]; [rewrite Ea|]; by apply (M3 t ab before sr dr).
Qed.

Lemma marks_data g index command r d' : g ∈ tp_groups topology ->
  evidence topology s g (OData command) -> data_apply (sn_data now g) index command = Done (r, d') ->
  marks_ok (put_machine now g (MData d')).
Proof using Hok Hmarks.
  intros Hg Hev Ha. apply data_apply_cases in Ha as [[-> _]%checked_add_Some Ha].
  destruct r as [reply|e|]; [|subst; apply marks_watermark; [done|done|cbn; lia]|done].
  destruct Ha as [He _]. pose proof (data_execute_frame _ _ _ _ _ He) as (_ & Eap & _).
  set (d := sn_data now g) in *. cbn in Eap.
  destruct (dm_initialized_at d) as [j|] eqn:Hj.
  2:{ unfold data_execute in He. destruct command; change (dm_initialized_at (d <| dm_applied := dm_applied d + 1 |>))
        with (dm_initialized_at d) in He; rewrite ?Hj in He; cbn [is_none is_some negb] in He; try discriminate.
      apply data_initialize_Done in He as (_ & _ & _ & _ & _ & _ & Eab & _).
      apply marks_watermark; [done|exact Eab|]. fold d. lia. }
  assert (Hin1 : dm_initialized_at (d <| dm_applied := dm_applied d + 1 |>) <> None).
  { cbn [upd dm_initialized_at]. by rewrite Hj. }
  destruct (data_execute_steps _ _ _ _ _ Hin1 He) as (_ & _ & Hab).
  assert (Hcase : dm_aborted d' = dm_aborted d \/ exists ab, command = DAbortTransfer ab
    /\ dm_aborted d' = <[transfer_key (mv_id (ab_movement ab)) := mkAbortRecord ab (mkOrigin (dm_group d) (dm_applied d + 1))]> (dm_aborted d)).
  { destruct command; try (by left; apply Hab). destruct Hab as (_ & _ & _ & [[E _]|[-> _]]); [right|by left].
    eexists. split; [done|]. exact E. }
  destruct Hcase as [E|(ab & -> & E)]; [apply marks_watermark; [done|done|fold d; lia]|].
  destruct Hev as [_ (u & Hu & Hpu)]. destruct (now_wf topology s Hok u Hu) as (i & _ & W).
  destruct (phase_abort_own c i W u ab Hu Hpu) as [Em _].
  assert (Hap : forall g', dm_applied (sn_data now g') <= dm_applied (sn_data (put_machine now g (MData d')) g')).
  { intros g'. cbn. destruct (N.eqb_spec g' g) as [-> | ]; [fold d; lia|lia]. }
  split; cbn.
  - intros t image Ht Hi. etrans; [by apply (mk_fence _ Hmarks)|apply Hap].
  - intros t p Ht Hi. etrans; [by apply (mk_installed _ Hmarks)|apply Hap].
  - intros t ab' before sr dr g' record Ht Hp Hg' Hr. revert Hr.
    destruct (N.eqb_spec g' g) as [-> | ]; [|by apply (mk_record _ Hmarks t ab' before sr dr)].
    rewrite E. intros [[Ek <-]|[_ Hr]]%lookup_insert_Some; [|by apply (mk_record _ Hmarks t ab' before sr dr g)].
    cbn. pose proof (lower_applied now t ab' before sr dr g Hmarks Ht Hp) as Hl. fold d in Hl. lia.
Qed.
End step.

Lemma marks_initial : marks_ok (sy_now sys_initial).
Proof using.
  assert (Hn : forall t, ~ has (sn_ctl (sy_now sys_initial)) t).
  { intros t [q Hq]. cbn in Hq. by rewrite lookup_empty in Hq. }
  split; intros t; intros; exfalso; by eapply Hn.
Qed.

Lemma marks_step `{!ControllerLaws} `{!DataLaws} s s' :
  sys_ok topology s -> marks_ok (sy_now s) -> sys_step topology s s' -> marks_ok (sy_now s').
Proof using.
  intros Hok Hm [g op index reply m Hg Hp Ho|index c Ha|g index d Hg Ha].
  - apply (proposable_evidence topology s Hok) in Hp. unfold machine_at in Ho.
    destruct (N.eqb_spec g CONTROLLER) as [-> | Hne];
      apply operation_cases in Ho as [(c & cmd & r & c' & E & -> & -> & Ha)|(d & cmd & r & d' & E & -> & -> & Ha)];
      try discriminate; injection E as <-.
    + by eapply marks_controller.
    + assert (Hg' : g ∈ tp_groups topology).
      { unfold all_groups in Hg. apply elem_of_cons in Hg as [?|?]; [done|done]. }
      by eapply marks_data.
  - unfold advance in Ha. case_match; [discriminate|]. injection Ha as <-. destruct Hm as [M1 M2 M3]. by split.
  - apply marks_watermark; [done|done| |]; unfold data_advance in Ha; (case_match; [discriminate|]); injection Ha as <-; [done|].
    bool_inv. match goal with H : checked_add _ _ = _ |- _ => apply checked_add_Some in H as [-> _] end. cbn. lia.
Qed.
End marks.
