(* ===== verification/Coordinator.v ===== *)
(** * The coordinator over the committed state

    [Service::execute] prepares a request from checked reads and commits the
    operation; [Service::reconcile_once] chooses the next request of a transfer and
    executes it, with its fallback to an abort.  Here every read sees the current
    state and every operation commits at once, so that the coordinator is a function
    and its requests are steps of the system ([perform_step], [reconcile_steps]). *)
From S2P Require Import Prelude Types Quorum Membership ShardTypes Topology Controller ShardData ShardMachine Service Handoff.
Local Open Scope N_scope.
Local Open Scope raft_scope.

Section coordinator.
Context `{Fmt : TypeFormats} `{SerC : Serialize Controller} `{DFmt : DataFormats}.
Variable topology : Topology.

(** A checked read of the current state. *)
Definition read_now (s : System) (g : GroupId) (q : Query) : option Observed :=
  match query (machine_at (sy_now s) g) q with Done o => Some o | _ => None end.
Definition run_now {A} (s : System) (script : Script A) : option (A + Response) :=
  run (read_now s) (fun _ _ => None) script.

(** The next entry of a group's log. *)
Definition commit (s : System) (g : GroupId) (op : Operation) : option (Reply * System) :=
  let m := machine_at (sy_now s) g in
  match operation m (machine_applied m + 1) op with
  | Done (reply, m) => Some (reply, push s (put_machine (sy_now s) g m))
  | _ => None
  end.

(** [Service::execute] *)
Definition perform (s : System) (g : GroupId) (action : Action) : option (Reply * System) :=
  match run_now s (prepare topology g action) with
  | Some (inl op) => commit s g op
  | _ => None
  end.

(** [Service::reconcile_once]: the choice and its execution, then the abort when
    there is no room to fence or to install; the response, and the one to the abort. *)
Definition reconcile (s : System) (request_id : string) : option (Reply * option Reply * System) :=
  match run_now s (reconcile_once request_id) with
  | Some (inl (Execute g (AAdvance q step))) =>
      '(reply, s') ← perform s g (AAdvance q step);
      match reconcile_follow_up q step (RsApplied g (machine_applied (machine_at (sy_now s') g)) reply) with
      | Some (g', action) => '(abort, s'') ← perform s' g' action; Some (reply, Some abort, s'')
      | None => Some (reply, None, s')
      end
  | _ => None
  end.

(** A sequence of requests. *)
Fixpoint drive (s : System) (requests : list (GroupId * Action)) : option System :=
  match requests with
  | [] => Some s
  | (g, action) :: rest => '(_, s) ← perform s g action; drive s rest
  end.
(** Reconciling until the transfer is complete or a request is refused, with fuel. *)
Fixpoint settle (fuel : nat) (s : System) (request_id : string) : option (System * option Error) :=
  match co_transfers (sn_ctl (sy_now s)) !! request_id with
  | None => None
  | Some t =>
      if complete t then Some (s, None) else
      match fuel with
      | O => None
      | S fuel =>
          '(reply, abort, s) ← reconcile s request_id;
          match default reply abort with
          | RpRejected e => Some (s, Some e)
          | _ => settle fuel s request_id
          end
      end
  end.

Lemma run_returns {A} s (script : Script A) a :
  run_now s script = Some (inl a) -> returns (answers s) script a.
Proof.
  unfold run_now. induction script as [b|r|g q k IH|g q k IH|g op m k IH]; cbn; intros H.
  - injection H as ->. constructor.
  - discriminate.
  - destruct (read_now s g q) as [o|] eqn:E; [|discriminate]. cbn in H.
    apply (returns_checked _ _ _ _ o); [|by apply IH].
    unfold read_now in E. exists (sy_now s). split; [by left|]. by destruct (query _ _); simplify_eq.
  - discriminate.
  - constructor. by apply IH.
Qed.

Lemma perform_step s g action reply s' : g ∈ all_groups topology ->
  perform s g action = Some (reply, s') -> sys_step topology s s'.
Proof.
  unfold perform, commit. intros Hg H.
  destruct (run_now s _) as [[op|]|] eqn:E; try discriminate. apply run_returns in E.
  destruct (operation _ _ _) as [[r m]| |] eqn:Ho; try discriminate. injection H as _ <-.
  eapply sys_commit; [exact Hg|by eapply proposable_action|exact Ho].
Qed.
Lemma drive_steps s requests s' : Forall (fun r => r.1 ∈ all_groups topology) requests ->
  drive s requests = Some s' -> rtc (sys_step topology) s s'.
Proof.
  intros HF. revert s. induction HF as [|[g action] rest Hg _ IH]; cbn; intros s H; [by injection H as ->|].
  destruct (perform s g action) as [[r s1]|] eqn:E; [|discriminate]. cbn in H.
  eapply rtc_l; [by eapply perform_step|by apply IH].
Qed.
End coordinator.
