(* ===== verification/HandoffProgress.v ===== *)
(** * Every step of a hand-over makes progress, and reconciliation ends

    A request the coordinator chooses in a reachable state is prepared, and either
    committed, which brings the transfer closer to its end ([remaining] falls), or
    refused because there is no room.  [settle] reconciles a transfer until it is
    complete or a request is refused: [remaining] rounds are enough. *)
From S2P Require Import Prelude Types Quorum Membership ShardTypes Topology Controller ControllerInv ControllerSafe ControllerGuarantees ControllerTheorems ShardData ShardDataInv ShardSteps ShardGuarantees ShardMachine Service Handoff HandoffEvidence HandoffSlots HandoffData HandoffController HandoffTheorems HandoffMarks Coordinator.
Local Open Scope N_scope.
Local Open Scope raft_scope.

(** ** Running scripts *)

Lemma run_bind {A B} checked view (script : Script A) (f : A -> Script B) :
  run checked view (script ≫= f)
  = match run checked view script with
    | Some (inl a) => run checked view (f a)
    | Some (inr r) => Some (inr r)
    | None => None
    end.
Proof.
  induction script as [a|r|g q k IH|g q k IH|g op m k IH]; cbn; try done.
  - destruct (checked g q) as [o|]; cbn; [apply IH|done].
  - destruct (view g q) as [[[o m] r]|]; cbn; [apply IH|done].
Qed.

(** Two unfinished transfers have no group in common. *)
Lemma concat_disjoint {A B} (f : A -> list B) l i j a b g : NoDup (concat (map f l)) ->
  l !! i = Some a -> l !! j = Some b -> g ∈ f a -> g ∈ f b -> i = j.
Proof.
  revert i j. induction l as [|y l IH]; intros i j Hn Hi Hj Ha Hb; [done|].
  cbn in Hn. apply NoDup_app in Hn as (_ & Hd & Hn).
  assert (Hin : forall k z, l !! k = Some z -> g ∈ f z -> g ∈ concat (map f l)).
  { intros k z Hk Hz. apply list_elem_of_In, in_concat. exists (f z). split; [|by apply list_elem_of_In].
    apply in_map, list_elem_of_In. by eapply list_elem_of_lookup_2. }
  destruct i as [|i], j as [|j]; cbn in *; simplify_eq; try done.
  - exfalso. eapply Hd; [exact Ha|]. by eapply Hin.
  - exfalso. eapply Hd; [exact Hb|]. by eapply Hin.
  - f_equal. by eapply IH.
Qed.
Lemma live_disjoint `{TypeFormats} `{Serialize Controller} c i (W : wf c i) q u q' v g :
  co_transfers c !! q = Some u -> co_transfers c !! q' = Some v -> g ∈ live_groups u -> g ∈ live_groups v -> q = q'.
Proof.
  intros Hu Hv Gu Gv. pose proof (wf_live _ _ W) as Hn. unfold all_live, smap_values in Hn.
  apply (elem_of_btree_iter str_le), list_elem_of_lookup_1 in Hu as [j Hj].
  apply (elem_of_btree_iter str_le), list_elem_of_lookup_1 in Hv as [k Hk].
  assert (j = k) as ->.
  { eapply (concat_disjoint live_groups); [exact Hn| | |exact Gu|exact Gv].
    - by rewrite list_lookup_fmap, Hj.
    - by rewrite list_lookup_fmap, Hk. }
  congruence.
Qed.

(** The next chunk of some bytes. *)
Lemma chunk_take {A} k (stored rest : list A) : k <> 0%nat -> rest <> [] ->
  let chunk := take k (drop (N.to_nat (len64 stored)) (stored ++ rest)) in
  len64 chunk <= N.of_nat k /\ len64 chunk <= len64 rest /\ 0 < len64 chunk.
Proof.
  intros Hk Hr. unfold len64. rewrite Nat2N.id, drop_app_length, length_take.
  destruct rest; [done|]. cbn. lia.
Qed.
Lemma chunk_positive : N.to_nat CHUNK_BYTES <> 0%nat.
Proof. by intros E%(f_equal N.of_nat); rewrite N2Nat.id in E. Qed.

(** The replies that refuse. *)
Definition refused (reply : Reply) : bool := match reply with RpRejected _ => true | _ => false end.

Section live.
Context `{Fmt : TypeFormats} `{SerC : Serialize Controller} `{DFmt : DataFormats}.
Variable topology : Topology.

(** How far a transfer is from its end. *)
Definition pending_receipt (receipt : option Origin) (done : bool) : N :=
  match receipt with Some _ => 0 | None => if done then 1 else 2 end.
Definition remaining (sn : Snapshot) (t : Transfer) : N :=
  let m := tr_movement t in
  let slot g := sh_slot <$> slot_at topology sn (tr_shard t) g in
  let aborted g := is_some (dm_aborted (sn_data sn g) !! transfer_key (tr_id t)) in
  match tr_phase t with
  | PStarted => MAX_TRANSFER_BYTES + 11 + match slot (mv_source m) with Some (SFenced _ _) => 0 | _ => 1 end
  | PFenced image =>
      8 + match slot (mv_destination m) with
          | Some (SInstalled _ _) => 0
          | Some (SInstalling _ stored _) => 1 + (ip_bytes image - len64 stored)
          | _ => 2 + ip_bytes image
          end
  | PInstalled _ => 7
  | POwned _ => match slot (mv_destination m) with Some (SActive _ _) => 5 | _ => 6 end
  | PActivated _ => match slot (mv_source m) with Some (SRetired _ _) => 3 | _ => 4 end
  | PCleaned _ _ => 2
  | PAborted _ _ sr dr => pending_receipt sr (aborted (mv_source m)) + pending_receipt dr (aborted (mv_destination m))
  | PComplete _ _ _ => 0
  end.

Section state.
Variable s : System.
Hypothesis Hok : sys_ok topology s.
Notation now := (sy_now s).
Notation c := (sn_ctl (sy_now s)).
Notation sl := (slot_at topology (sy_now s)).
Notation d g := (sn_data (sy_now s) g).
Variables (q : string) (t : Transfer).
Hypothesis Ht : co_transfers c !! q = Some t.
Hypothesis Hlive : complete t = false.
Notation m := (tr_movement t).
Notation x := (tr_shard t).
Notation src := (mv_source (tr_movement t)).
Notation dst := (mv_destination (tr_movement t)).

Lemma live_has : has c t.
Proof using Ht. by exists q. Qed.
Lemma live_state : exists i rt, co_initialized_at c = Some i /\ wf c i /\ pointers_ok c
  /\ co_routes c !! N.to_nat x = Some rt /\ live_of c x = Some t.
Proof using Hok Ht Hlive.
  destruct (so_ctl _ _ (ctl_now_snapshot _ _ Hok)) as [Ha Hg].
  destruct (has_initialized c t (so_ctl _ _ (ctl_now_snapshot _ _ Hok)) live_has) as (i & Hi & W).
  rewrite Hi in Hg. destruct Hg as (_ & P & _).
  destruct (has_route c i W t live_has) as (rt & Hr & _). exists i, rt. split_and!; try done.
  apply (live_of_Some c i W). split_and!; [apply live_has|done|done].
Qed.
Lemma live_slots : coupled_transfer topology t (sl x).
Proof using Hok Ht Hlive.
  destruct live_state as (i & rt & _ & _ & _ & Hr & Hl).
  pose proof (no_coupled _ _ (sk_now _ _ Hok) x rt Hr) as Hc. by rewrite Hl in Hc.
Qed.

(** An endpoint of the transfer: configured, with its slot in its machine. *)
Record endpoint (g : GroupId) : Prop := {
  en_group_of : g ∈ tp_groups topology;
  en_controller : g <> CONTROLLER;
  en_initialized : dm_initialized_at (d g) <> None;
  en_good : data_good (d g);
  en_name : dm_group (d g) = g;
  en_slot : sl x g = dm_shards (d g) !! x;
  en_count : dm_shard_count (d g) = len64 (tp_owners topology);
  en_shard : x < dm_shard_count (d g);
  en_move : movement_valid (d g) m = true;
}.
Lemma endpoint_of g : g = src \/ g = dst -> endpoint g.
Proof using Hok Ht Hlive.
  intros Hg. destruct live_state as (i & rt & Hi & W & _ & Hr & _).
  destruct (has_groups topology s Hok t live_has) as (G1 & G2 & G3 & G4).
  assert (Hgt : g ∈ tp_groups topology) by (by destruct Hg as [-> | ->]).
  pose proof (ctl_now_snapshot _ _ Hok) as S. destruct (so_data _ _ S g Hgt) as [Hgood Hname].
  destruct (so_endpoints _ _ S t live_has) as [I1 I2].
  assert (Hin : initialized now g) by (by destruct Hg as [-> | ->]).
  destruct (so_data_config _ _ S g Hgt Hin) as (C1 & C2 & _).
  destruct (so_ctl_config _ _ S i Hi) as [_ El].
  apply lookup_lt_Some in Hr. assert (Hlt : x < dm_shard_count (d g)).
  { rewrite C2. unfold len64. lia. }
  unfold initialized in Hin. split; try done.
  - by destruct Hg as [-> | ->].
  - unfold slot_at. by destruct (dm_initialized_at _).
  - unfold movement_valid. rewrite C1. bool_intro; try done. by apply (has_move c i W t live_has).
Qed.
Lemma endpoint_sound g sh : endpoint g -> sl x g = Some sh -> slot_sound (d g) x sh.
Proof using.
  intros E Hs. rewrite (en_slot _ E) in Hs. apply (validated_shard _ _ _ (dg_valid _ (en_good _ E)) Hs).
Qed.
Lemma live_not_aborted g : g = src \/ g = dst -> phase_abort (tr_phase t) = None ->
  dm_aborted (d g) !! transfer_key (tr_id t) = None.
Proof using Hok Ht Hlive.
  intros Hg Hp. destruct (dm_aborted _ !! _) as [record|] eqn:E; [|done]. exfalso.
  destruct (no_aborted _ _ (sk_now _ _ Hok) g _ record (en_group_of _ (endpoint_of g Hg)) E) as (u & Hu & Hpu & Hk).
  apply (inj transfer_key) in Hk. destruct live_state as (i & _ & _ & W & _).
  assert (u = t) as -> by (by apply (has_unique c i W); [|apply live_has|]). congruence.
Qed.

(** *** Checked reads *)

Lemma run_transfer : run_now s (transfer q) = Some (inl t).
Proof using Hok Ht Hlive.
  destruct live_state as (i & _ & _ & W & _). destruct (wf_transfers _ _ W q t Ht) as (_ & Hq & _).
  unfold run_now, transfer, read_now. cbn [run machine_at CONTROLLER N.eqb query].
  rewrite (proj2 (N.ltb_ge 128 (str_len q))) by lia. cbn. by rewrite Ht.
Qed.
Lemma run_shard g : g = src \/ g = dst -> run_now s (shard g x) = Some (inl (shard_view (sl x g))).
Proof using Hok Ht Hlive.
  intros Hg. pose proof (endpoint_of g Hg) as E. unfold run_now, shard, read_now. cbn [run].
  unfold machine_at. rewrite (proj2 (N.eqb_neq _ _) (en_controller _ E)). cbn [query].
  rewrite (proj2 (N.leb_gt _ _) (en_shard _ E)). cbn. rewrite (en_name _ E), !N.eqb_refl, (en_slot _ E). done.
Qed.
Lemma run_expect g view : g = src \/ g = dst -> shard_view (sl x g) = view ->
  run_now s (expect_shard g x view) = Some (inl tt).
Proof using Hok Ht Hlive.
  intros Hg Hv. unfold run_now, expect_shard. rewrite run_bind.
  pose proof (run_shard g Hg) as H. unfold run_now in H. rewrite H, Hv. by rewrite (proj2 (eqb_true _ _) eq_refl).
Qed.

(** *** Commits *)

Hypothesis Hroom : forall g, g ∈ all_groups topology -> machine_applied (machine_at now g) + 1 <= u64_max.

(** The watermark of a group grew by a refused entry. *)
Definition watermark (g : GroupId) : System :=
  let m := machine_at now g in
  push s (put_machine now g (match m with
    | MController c => MController (c <| co_applied := machine_applied m + 1 |>)
    | MData d => MData (d <| dm_applied := machine_applied m + 1 |>)
    end)).

(** The data machine with the next watermark. *)
Definition next (g : GroupId) : DataMachine := d g <| dm_applied := dm_applied (d g) + 1 |>.

(** Committed with a machine that satisfies [P], or refused for lack of room. *)
Definition commits (g : GroupId) (op : Operation) (P : Machine -> Prop) : Prop :=
  commit s g op = Some (RpRejected ECapacity, watermark g)
  \/ exists reply m', commit s g op = Some (reply, push s (put_machine now g m')) /\ refused reply = false /\ P m'.

Lemma data_commits `{!DataLaws} g command P : g = src \/ g = dst -> command_typed command ->
  accepts (next g) (dm_applied (d g) + 1) command P ->
  commits g (OData command) (fun m' => exists d', m' = MData d' /\ P d' /\ dm_initialized_at d' <> None).
Proof using Hok Ht Hlive Hroom.
  intros Hg Hty Ha. pose proof (endpoint_of g Hg) as E.
  pose proof (Hroom g ltac:(right; apply E)) as Hr.
  pose proof (data_apply_no_panic (d g) (dm_applied (d g) + 1) command (en_good _ E) Hty) as Hnp.
  unfold next in Ha. unfold commits, commit, watermark. revert Hr. unfold machine_at. rewrite (proj2 (N.eqb_neq _ _) (en_controller _ E)).
  cbn [machine_applied operation]. intros Hr. unfold data_apply in *.
  rewrite (proj2 (checked_add_Some _ _ _) (conj eq_refl Hr)), (proj2 (eqb_true _ _) eq_refl) in *. cbn [negb] in *.
  destruct Ha as [Ha|(reply & d' & Ha & HP)]; rewrite Ha in *; cbn [mbind Outcome_bind] in *; [by left|].
  destruct (data_validate d') as [u|e|]; [right|by left|done].
  do 2 eexists. split; [done|]. split; [done|]. exists d'. split_and!; [done..|].
  by destruct (data_execute_frame _ _ _ _ _ Ha) as (_ & _ & ? & _).
Qed.

Lemma controller_commits `{!ControllerLaws} command phase routes' : command_id command = Some (tr_id t) ->
  transfer_step (co_routes c) (mkOrigin CONTROLLER (co_applied c + 1)) (tr_id t) t command = Done (phase, routes') ->
  commits CONTROLLER (OController command) (fun m' => exists c', m' = MController c'
    /\ co_transfers c' !! q = Some (t <| tr_phase := phase |>)).
Proof using Hok Ht Hlive Hroom.
  intros Hid Hs. destruct live_state as (i & rt & Hi & W & P & _).
  pose proof (Hroom CONTROLLER ltac:(left)) as Hr. unfold commits, commit, watermark. revert Hr.
  cbn [machine_at CONTROLLER N.eqb machine_applied operation]. intros Hr. unfold apply.
  rewrite (proj2 (checked_add_Some _ _ _) (conj eq_refl Hr)), (proj2 (eqb_true _ _) eq_refl). cbn [negb].
  assert (Hf : List.find (fun '(_, u) => tr_id u ==? tr_id t) (smap_iter (co_transfers c)) = Some (q, t)).
  { destruct (List.find _ _) as [[q' u]|] eqn:E.
    - apply find_transfer in E as [Hu Eu]. assert (u = t) as -> by (by apply (has_unique c i W); [exists q'|apply live_has|]).
      f_equal. f_equal. pose proof (NoDup_distinct_keys tr_index _ (wf_indices _ _ W)) as Hd. by eapply Hd.
    - exfalso. rewrite find_None_iff in E. specialize (E (q, t)). cbn in E.
      rewrite (proj2 (eqb_true _ _) eq_refl) in E. assert (true = false); [|done]. apply E.
      by apply (elem_of_btree_iter str_le). }
  assert (He : execute (c <| co_applied := co_applied c + 1 |>) (co_applied c + 1) command
    = Done (CRTransfer (t <| tr_phase := phase |>),
        c <| co_applied := co_applied c + 1 |> <| co_routes := routes' |>
          <| co_transfers := <[q := t <| tr_phase := phase |>]> (co_transfers c) |>)).
  { unfold execute. change (co_initialized_at (c <| co_applied := co_applied c + 1 |>)) with (co_initialized_at c).
    rewrite Hi. cbn [is_none is_some negb].
    assert (Hc : transfer_command (c <| co_applied := co_applied c + 1 |>) (mkOrigin CONTROLLER (co_applied c + 1)) command
      = Done (CRTransfer (t <| tr_phase := phase |>),
        c <| co_applied := co_applied c + 1 |> <| co_routes := routes' |>
          <| co_transfers := <[q := t <| tr_phase := phase |>]> (co_transfers c) |>)).
    { unfold transfer_command. rewrite Hid. cbn [or_panic mbind Outcome_bind].
      change (co_transfers (c <| co_applied := co_applied c + 1 |>)) with (co_transfers c).
      change (co_routes (c <| co_applied := co_applied c + 1 |>)) with (co_routes c).
      rewrite Hf. cbn [ok_or mbind Outcome_bind]. by rewrite Hs. }
    destruct command; try discriminate; exact Hc. }
  rewrite He. cbn [mbind Outcome_bind].
  destruct (check_capacity _) as [u|e|] eqn:Ec; [right|left|].
  - cbn [mbind Outcome_bind]. do 2 eexists. split; [done|]. split; [done|]. eexists. split; [done|]. apply lookup_insert_eq.
  - unfold check_capacity in Ec. rewrite canonical_bytes_spec in Ec. destruct (_ <? _); cbn in Ec; [|discriminate].
    injection Ec as <-. done.
  - by destruct (check_capacity_no_panic _ Ec).
Qed.

(** *** Progress *)

(** Refused for lack of room, or one step closer to the end. *)
Definition progress (res : option (Reply * System)) : Prop := exists reply s', res = Some (reply, s')
  /\ (reply = RpRejected ECapacity /\ (exists g, g ∈ all_groups topology /\ s' = watermark g)
     \/ refused reply = false /\ exists t', co_transfers (sn_ctl (sy_now s')) !! q = Some t' /\ tr_movement t' = m
          /\ remaining (sy_now s') t' < remaining now t).

Lemma perform_advance g step op : run_now s (advance_transfer g t step) = Some (inl op) ->
  perform topology s g (AAdvance q step) = commit s g op.
Proof using Hok Ht Hlive.
  intros Hr. unfold perform. cbn [prepare]. unfold run_now in *. rewrite run_bind.
  pose proof run_transfer as H. unfold run_now in H. by rewrite H, Hr.
Qed.

Lemma controller_progress `{!ControllerLaws} step command phase routes' :
  run_now s (advance_transfer CONTROLLER t step) = Some (inl (OController command)) ->
  command_id command = Some (tr_id t) ->
  transfer_step (co_routes c) (mkOrigin CONTROLLER (co_applied c + 1)) (tr_id t) t command = Done (phase, routes') ->
  remaining now (t <| tr_phase := phase |>) < remaining now t ->
  progress (perform topology s CONTROLLER (AAdvance q step)).
Proof using Hok Ht Hlive Hroom.
  intros Hr Hid Hs Hlt. rewrite (perform_advance _ _ _ Hr).
  destruct (controller_commits command phase routes' Hid Hs) as [->|(reply & m' & -> & Hn & c' & -> & Hq)];
    do 2 eexists; (split; [done|]); [left|right].
  - split; [done|]. exists CONTROLLER. split; [left|done].
  - split; [done|]. exists (t <| tr_phase := phase |>). split_and!; [exact Hq|done|exact Hlt].
Qed.

Lemma data_progress `{!DataLaws} g step command P : g = src \/ g = dst -> command_typed command ->
  run_now s (advance_transfer g t step) = Some (inl (OData command)) ->
  accepts (next g) (dm_applied (d g) + 1) command P ->
  (forall d', P d' -> dm_initialized_at d' <> None -> remaining (put_machine now g (MData d')) t < remaining now t) ->
  progress (perform topology s g (AAdvance q step)).
Proof using Hok Ht Hlive Hroom.
  intros Hg Hty Hr Ha Hlt. rewrite (perform_advance _ _ _ Hr). pose proof (endpoint_of g Hg) as E.
  destruct (data_commits g command P Hg Hty Ha) as [->|(reply & m' & -> & Hn & d' & -> & HP & Hi)];
    do 2 eexists; (split; [done|]); [left|right].
  - split; [done|]. exists g. split; [right; apply E|done].
  - split; [done|]. exists t. split_and!; [exact Ht|done|by apply Hlt].
Qed.

(** The slots after a group's machine changed. *)
Lemma slot_put g d' : dm_initialized_at d' <> None -> slot_at topology (put_machine now g (MData d')) x g = dm_shards d' !! x.
Proof using. intros Hi. unfold slot_at. cbn. rewrite N.eqb_refl. by destruct (dm_initialized_at d'). Qed.
Lemma slot_put_ne g g' d' : g' <> g -> slot_at topology (put_machine now g (MData d')) x g' = sl x g'.
Proof using. intros Hne. unfold slot_at. cbn. by rewrite (proj2 (N.eqb_neq _ _) Hne). Qed.
Lemma watermark_remaining g u : remaining (sy_now (watermark g)) u = remaining now u.
Proof using.
  assert (Hsl : forall y g', slot_at topology (sy_now (watermark g)) y g' = sl y g').
  { intros y g'. unfold watermark, machine_at, slot_at. destruct (g =? CONTROLLER); [done|].
    cbn. by destruct (N.eqb_spec g' g) as [-> | ]. }
  assert (Hab : forall g', dm_aborted (sn_data (sy_now (watermark g)) g') = dm_aborted (d g')).
  { intros g'. unfold watermark, machine_at. destruct (g =? CONTROLLER); [done|]. cbn.
    by destruct (N.eqb_spec g' g) as [-> | ]. }
  unfold remaining. by rewrite !Hsl, !Hab.
Qed.

(** *** The steps *)

Context `{CLaws : !ControllerLaws} `{DLaws : !DataLaws}.

Lemma source_ne : src <> dst.
Proof using Hok Ht Hlive. destruct live_state as (i & _ & _ & W & _). apply (has_ne c i W t live_has). Qed.
Lemma own_image image : phase_image (tr_phase t) = Some image -> image_valid image = true /\ ip_movement image = m.
Proof using Hok Ht Hlive. destruct live_state as (i & _ & _ & W & _). apply (phase_image_own c i W t image live_has). Qed.

Lemma abort_progress : match tr_phase t with PStarted | PFenced _ | PInstalled _ => True | _ => False end ->
  progress (perform topology s CONTROLLER (AAdvance q StAbort)).
Proof using All.
  intros Hp.
  assert (Ha : exists ab before, abort_phase (mkOrigin CONTROLLER (co_applied c + 1)) t = Done (PAborted ab before None None)).
  { unfold abort_phase. destruct (tr_phase t); try done; eauto. }
  destruct Ha as (ab & before & Ha).
  eapply (controller_progress StAbort (CAbort (tr_id t))); [|done|cbn; rewrite Ha; done|].
  - unfold run_now, advance_transfer. cbn. destruct (tr_phase t); try done.
  - unfold remaining. cbn [tr_phase upd tr_movement]. unfold pending_receipt.
    repeat case_match; try done; lia.
Qed.

(** *** What reconciliation chooses *)

Lemma run_reconcile g step : run_now s (choose_step t) = Some (inl (g, step)) ->
  run_now s (reconcile_once q) = Some (inl (Execute g (AAdvance q step))).
Proof using Hok Ht Hlive.
  intros Hr. unfold run_now, reconcile_once in *. rewrite run_bind.
  pose proof run_transfer as H. unfold run_now in H. rewrite H, Hlive, run_bind, Hr. done.
Qed.
Lemma reconcile_perform g step : run_now s (choose_step t) = Some (inl (g, step)) ->
  step <> StFence -> step <> StBeginInstall ->
  reconcile topology s q = (fun p => (p.1, None, p.2)) <$> perform topology s g (AAdvance q step).
Proof using Hok Ht Hlive.
  intros Hr H1 H2. unfold reconcile. rewrite (run_reconcile g step Hr).
  destruct (perform _ _ _ _) as [[reply s']|]; [|done]. cbn. by destruct step.
Qed.

(** The endpoint's slot, running a [shard] query inside a choice. *)
Lemma run_view {A} g (k : ShardView -> Script A) : g = src \/ g = dst ->
  run_now s (shard g x ≫= k) = run_now s (k (shard_view (sl x g))).
Proof using Hok Ht Hlive.
  intros Hg. unfold run_now. rewrite run_bind. pose proof (run_shard g Hg) as H. unfold run_now in H. by rewrite H.
Qed.
Lemma run_expected {A} g view (k : unit -> Script A) : g = src \/ g = dst -> shard_view (sl x g) = view ->
  run_now s (expect_shard g x view ≫= k) = run_now s (k tt).
Proof using Hok Ht Hlive.
  intros Hg Hv. unfold run_now. rewrite run_bind. pose proof (run_expect g view Hg Hv) as H. unfold run_now in H. by rewrite H.
Qed.

Lemma run_checked {A} g qu (k : Observed -> Script A) :
  run_now s (Checked g qu k) = match read_now s g qu with Some o => run_now s (k o) | None => None end.
Proof using. unfold run_now. cbn [run]. by destruct (read_now s g qu). Qed.
Lemma read_group g qu : endpoint g ->
  read_now s g qu = match query (MData (d g)) qu with Done o => Some o | _ => None end.
Proof using. intros E. unfold read_now, machine_at. by rewrite (proj2 (N.eqb_neq _ _) (en_controller _ E)). Qed.

Lemma own_command g command : g = src \/ g = dst -> run_now s (data g command) = Some (inl (OData command)).
Proof using Hok Ht Hlive.
  intros Hg. unfold run_now, data. by rewrite (proj2 (N.eqb_neq _ _) (en_controller _ (endpoint_of g Hg))).
Qed.

(** *** Fencing *)

Lemma fence_progress data a : tr_phase t = PStarted ->
  sl x src = Some (mkShard (SActive (mv_previous_epoch m) a) (Some data)) ->
  progress (perform topology s src (AAdvance q StFence)).
Proof using All.
  intros Hp Hs. pose proof (endpoint_of src (or_introl eq_refl)) as E.
  eapply (data_progress src StFence (DFence m)); [by left|done| | |].
  - unfold run_now, advance_transfer. cbn [step_group]. rewrite N.eqb_refl, Hp. apply own_command. by left.
  - apply (accepts_fence (next src) _ (en_initialized _ E) m a data).
    + exact (en_move _ E).
    + exact (eq_sym (en_name _ E)).
    + apply (live_not_aborted src); [by left|by rewrite Hp].
    + exact (eq_trans (eq_sym (en_slot _ E)) Hs).
  - intros d' (image & Hd) Hi. unfold remaining. rewrite Hp. rewrite slot_put by done.
    unfold tr_shard at 1, tr_id. rewrite Hd, Hs. cbn. lia.
Qed.

Lemma image_fits image : image_valid image = true -> ip_bytes image <= MAX_TRANSFER_BYTES.
Proof using. unfold image_valid. intros H. by bool_inv. Qed.
Lemma fenced_sound g image data : g = src \/ g = dst -> fenced_with image (sl x g) data ->
  image_valid image = true /\ image_of (d g) image data.
Proof using Hok Ht Hlive.
  intros Hg [pr Hs]. destruct (endpoint_sound g _ (endpoint_of g Hg) Hs) as (_ & Hf & data' & [= <-] & Hi).
  split; [|done]. unfold fence_invalid in Hf. by bool_inv.
Qed.

Lemma record_fence_progress image data : tr_phase t = PStarted -> ip_movement image = m ->
  fenced_with image (sl x src) data -> quiet (mv_previous_epoch m) (sl x dst) ->
  progress (perform topology s CONTROLLER (AAdvance q StRecordFence)).
Proof using All.
  intros Hp Him Hf Hq. destruct (fenced_sound src image data (or_introl eq_refl) Hf) as [Hv _].
  pose proof Hf as [pr Hs].
  eapply (controller_progress StRecordFence (CFenced image) (PFenced image)).
  - unfold advance_transfer. cbn [step_group]. rewrite N.eqb_refl. cbn [negb reject_if mbind Script_bind].
    rewrite Hp. cbn [tr_phase]. change (ti_shard (mv_id m)) with x. rewrite run_view by by left.
    rewrite Hs. cbn [shard_view fmap option_fmap option_map sh_slot]. rewrite Him, (proj2 (eqb_true _ _) eq_refl). done.
  - cbn. by rewrite Him.
  - cbn [transfer_step]. rewrite Hv, Him, (proj2 (eqb_true _ _) eq_refl), Hp. cbn. done.
  - pose proof (image_fits image Hv). unfold remaining. cbn [tr_phase upd tr_movement]. rewrite Hp.
    destruct Hq as [Hq|(a & cl & sd & Hq & _)]; change (tr_shard (t <| tr_phase := PFenced image |>)) with x; rewrite Hq, Hs; cbn; lia.
Qed.

(** *** Installing *)

(** While the transfer is unfinished its destination installs nothing else. *)
Lemma no_other_install : quiet (mv_previous_epoch m) (sl x dst) -> forall y sh, dm_shards (d dst) !! y = Some sh ->
  installs sh = false.
Proof using All.
  intros Hq y sh Hy. pose proof (endpoint_of dst (or_intror eq_refl)) as E.
  destruct live_state as (i & _ & Hi & W & _ & _ & Hl).
  destruct (routed topology s Hok dst y sh (en_group_of _ E) Hy) as (_ & Hsl & r & Hr).
  apply not_true_iff_false. intros Hb.
  assert (Hnq : forall e, ~ quiet e (sl y dst)).
  { intros e [H|(a & cl & sd & H & _)]; rewrite Hsl in H; [done|]. injection H as ->. done. }
  pose proof (no_coupled _ _ (sk_now _ _ Hok) y r Hr) as Hc.
  destruct (live_of c y) as [u|] eqn:Hu; cbn in Hc.
  - apply (live_of_Some c i W) in Hu as ([q' Hu] & Hcu & Hyu). destruct Hc as [Ho _].
    destruct (decide (u = t)) as [-> |Hne]; [by destruct (Hnq (mv_previous_epoch m)); rewrite <- Hyu|].
    apply (Hnq (mv_previous_epoch (tr_movement u))). apply Ho; intros Ed; apply Hne.
    all: assert (q' = q) as ->; [|congruence].
    all: apply (live_disjoint c i W q' u q t dst Hu Ht); unfold live_groups; rewrite ?Hcu, ?Hlive; set_solver.
  - destruct Hc as [(dt & a & Ha) Hall]. destruct (decide (dst = ro_owner r)) as [Eo|Hne].
    + rewrite <- Eo, Hsl in Ha. by injection Ha as ->.
    + by destruct (Hnq _ (Hall dst Hne)).
Qed.

Ltac at_step Hp := unfold advance_transfer; cbn [step_group]; rewrite N.eqb_refl; cbn [negb reject_if mbind Script_bind];
  rewrite Hp; cbn [tr_phase]; change (ti_shard (mv_id (tr_movement t))) with (tr_shard t).
Ltac same_eq := rewrite (proj2 (eqb_true _ _) eq_refl).

Lemma begin_progress image data : tr_phase t = PFenced image -> fenced_with image (sl x src) data ->
  quiet (mv_previous_epoch m) (sl x dst) -> progress (perform topology s dst (AAdvance q StBeginInstall)).
Proof using All.
  intros Hp Hf Hq. pose proof (endpoint_of dst (or_intror eq_refl)) as E. pose proof Hf as [pr Hs].
  destruct (own_image image) as [Hv Him]; [by rewrite Hp|].
  destruct live_state as (i & _ & _ & W & _). pose proof (has_epoch c i W t live_has) as He.
  eapply (data_progress dst StBeginInstall (DBeginInstall image)); [by right|done| | |].
  - at_step Hp. rewrite run_expected; [apply own_command|by left|by rewrite Hs]. by right.
  - eapply (accepts_begin (next dst) _ (en_initialized _ E) image).
    + exact Hv.
    + rewrite Him. exact (en_move _ E).
    + rewrite Him. exact (eq_sym (en_name _ E)).
    + rewrite Him. apply (live_not_aborted dst); [by right|by rewrite Hp].
    + by apply no_other_install.
    + rewrite Him. destruct Hq as [Hq|(a & cl & sd & Hq & Hle)]; [left|right].
      * exact (eq_trans (eq_sym (en_slot _ E)) Hq).
      * exists a, cl, sd. split; [exact (eq_trans (eq_sym (en_slot _ E)) Hq)|].
        unfold tr_previous, tr_epoch, tr_id in He. lia.
  - intros d' (prv & Hd) Hi. rewrite Him in Hd. unfold remaining. rewrite Hp, slot_put by done. cbn in Hd.
    unfold tr_shard at 1, tr_id. rewrite Hd. cbn.
    destruct Hq as [Hq|(a & cl & sd & Hq & _)]; rewrite Hq; cbn; lia.
Qed.

Lemma export_chunk image data (stored : Bytes) : tr_phase t = PFenced image -> fenced_with image (sl x src) data ->
  len64 stored <= ip_bytes image ->
  export (d src) (mv_id m) (len64 stored)
  = Done (image, take (N.to_nat CHUNK_BYTES) (drop (N.to_nat (len64 stored)) (frozen topology image data))).
Proof using All.
  intros Hp Hf Hle. pose proof Hf as [pr Hs]. pose proof (endpoint_of src (or_introl eq_refl)) as Es.
  destruct (own_image image) as [Hv Him]; [by rewrite Hp|]. pose proof (image_fits image Hv) as Hfit.
  destruct (fenced_sound src image data (or_introl eq_refl) Hf) as [_ (Hlen & Hsha & _)].
  rewrite (en_count _ Es) in Hlen, Hsha. fold (frozen topology image data) in Hlen, Hsha.
  unfold export. rewrite (eq_trans (eq_sym (en_slot _ Es)) Hs : dm_shards (d src) !! ti_shard (mv_id m) = _).
  cbn [ok_or mbind Outcome_bind sh_slot sh_data]. rewrite Him. same_eq. cbn [negb refuse_if mbind Outcome_bind].
  rewrite (en_count _ Es), <- Him. fold (frozen topology image data).
  rewrite canonical_bytes_spec. fold (frozen topology image data).
  rewrite (proj2 (N.ltb_ge _ _)) by lia. cbn [mbind Outcome_bind]. rewrite Hlen, Hsha, N.eqb_refl. same_eq.
  cbn [negb orb refuse_if mbind Outcome_bind]. rewrite (proj2 (N.ltb_ge _ _)) by lia. reflexivity.
Qed.

Lemma pull_progress image data stored : tr_phase t = PFenced image -> fenced_with image (sl x src) data ->
  installing_with image (sl x dst) stored -> stored `prefix_of` frozen topology image data ->
  len64 stored <> ip_bytes image -> progress (perform topology s dst (AAdvance q StPullChunk)).
Proof using All.
  intros Hp Hf [prv [sd Hd]] [rest Hpre] Hne. pose proof Hf as [pr Hs].
  pose proof (endpoint_of dst (or_intror eq_refl)) as E. pose proof (endpoint_of src (or_introl eq_refl)) as Es.
  destruct (own_image image) as [Hv Him]; [by rewrite Hp|]. pose proof (image_fits image Hv) as Hfit.
  destruct (fenced_sound src image data (or_introl eq_refl) Hf) as [_ (Hlen & Hsha & _)].
  rewrite (en_count _ Es) in Hlen, Hsha. fold (frozen topology image data) in Hlen, Hsha.
  assert (Hsum : len64 stored + len64 rest = ip_bytes image).
  { rewrite <- Hlen, Hpre. unfold len64. rewrite length_app. lia. }
  assert (Hrest : rest <> []) by (intros ->; apply Hne; rewrite <- Hsum; unfold len64; cbn [length]; lia).
  pose proof (chunk_take (N.to_nat CHUNK_BYTES) stored rest chunk_positive Hrest) as Hcl.
  rewrite <- Hpre, N2Nat.id in Hcl. cbv zeta in Hcl. revert Hcl.
  generalize (export_chunk image data stored Hp Hf ltac:(lia)).
  generalize (take (N.to_nat CHUNK_BYTES) (drop (N.to_nat (len64 stored)) (frozen topology image data))).
  intros chunk Hex Hcl.
  eapply (data_progress dst StPullChunk (DChunk (mv_id m) (len64 stored) chunk)); [by right|done| | |].
  - at_step Hp. unfold pull_chunk. change (ti_shard (mv_id (tr_movement t))) with (tr_shard t).
    rewrite run_view by by right. rewrite Hd. cbn [shard_view fmap option_fmap option_map sh_slot]. same_eq.
    rewrite (proj2 (N.leb_gt _ _)) by lia. cbn [negb orb reject_if mbind Script_bind].
    rewrite run_checked, (read_group src _ Es). cbn [query]. rewrite Hex. cbn [mbind Outcome_bind]. same_eq. rewrite N.eqb_refl. cbn [andb].
    rewrite bool_decide_eq_false_2 by (intros E0; rewrite E0 in Hcl; unfold len64 in Hcl; cbn in Hcl; lia).
    rewrite (proj2 (N.leb_le _ _)) by lia. apply own_command. by right.
  - pose proof (accepts_chunk (next dst) (dm_applied (d dst) + 1) (en_initialized _ E) image stored prv sd chunk) as Ha.
    rewrite Him in Ha. apply Ha.
    + apply (live_not_aborted dst); [by right|by rewrite Hp].
    + exact (eq_trans (eq_sym (en_slot _ E)) Hd).
    + intros E0. rewrite E0 in Hcl. unfold len64 in Hcl. cbn in Hcl. lia.
    + lia.
    + lia.
    + assert (MAX_TRANSFER_BYTES <= u64_max) by (by vm_compute). lia.
  - intros d' Hd' Hi. unfold remaining. rewrite Hp, slot_put by done.
    unfold tr_shard at 1, tr_id. rewrite Hd'. rewrite Hd. cbn. unfold len64 in *. rewrite length_app. lia.
Qed.

Lemma finish_progress image data stored : tr_phase t = PFenced image -> fenced_with image (sl x src) data ->
  installing_with image (sl x dst) stored -> stored `prefix_of` frozen topology image data ->
  len64 stored = ip_bytes image -> progress (perform topology s dst (AAdvance q StFinishInstall)).
Proof using All.
  intros Hp Hf [prv [sd Hd]] [rest Hpre] Heq. pose proof Hf as [pr Hs].
  pose proof (endpoint_of dst (or_intror eq_refl)) as E. pose proof (endpoint_of src (or_introl eq_refl)) as Es.
  destruct (own_image image) as [Hv Him]; [by rewrite Hp|].
  destruct (fenced_sound src image data (or_introl eq_refl) Hf) as [_ Himg].
  assert (Hst : stored = frozen topology image data).
  { destruct Himg as (Hlen & _). rewrite (en_count _ Es) in Hlen. fold (frozen topology image data) in Hlen.
    rewrite Hpre in *. unfold len64 in *. rewrite length_app in Hlen.
    destruct rest; [by rewrite app_nil_r|cbn in Hlen; lia]. }
  eapply (data_progress dst StFinishInstall (DFinishInstall (mv_id m))); [by right|done| | |].
  - at_step Hp. rewrite run_expected; [apply own_command|by left|by rewrite Hs]. by right.
  - pose proof (accepts_finish (next dst) (dm_applied (d dst) + 1) (en_initialized _ E) image stored prv sd data) as Ha.
    rewrite Him in Ha. apply Ha.
    + apply (live_not_aborted dst); [by right|by rewrite Hp].
    + exact (eq_trans (eq_sym (en_slot _ E)) Hd).
    + unfold image_of in *. change (dm_shard_count (next dst)) with (dm_shard_count (d dst)).
      rewrite (en_count _ E). by rewrite (en_count _ Es) in Himg.
    + change (dm_shard_count (next dst)) with (dm_shard_count (d dst)). rewrite (en_count _ E), <- Him. exact Hst.
  - intros d' Hd' Hi. unfold remaining. rewrite Hp, slot_put by done.
    unfold tr_shard at 1, tr_id. rewrite Hd'. rewrite Hd. cbn. lia.
Qed.

Lemma record_installed_progress image data p : tr_phase t = PFenced image -> in_image p = image ->
  installed_with p (sl x dst) data -> progress (perform topology s CONTROLLER (AAdvance q StRecordInstalled)).
Proof using All.
  intros Hp Hi [prv Hd]. pose proof (endpoint_of dst (or_intror eq_refl)) as E.
  destruct (own_image image) as [Hv Him]; [by rewrite Hp|].
  destruct (endpoint_sound dst _ E Hd) as (Hin & _). unfold installation_invalid in Hin. bool_inv.
  eapply (controller_progress StRecordInstalled (CInstalled p) (PInstalled p)).
  - at_step Hp. rewrite run_view by by right. rewrite Hd. cbn [shard_view fmap option_fmap option_map sh_slot].
    rewrite Hi. same_eq. done.
  - cbn. by rewrite Hi, Him.
  - cbn [transfer_step]. rewrite Hi, Him. match goal with H : installed_valid p = true |- _ => rewrite H end.
    same_eq. cbn [negb orb refuse_if mbind Outcome_bind]. rewrite Hp. same_eq. done.
  - unfold remaining. cbn [tr_phase upd tr_movement]. rewrite Hp, Hd. cbn. lia.
Qed.

(** *** Ownership, activation, cleanup and completion *)

Lemma live_proofs : validate_transfer_proofs (co_applied c) t = Done tt /\ move_valid m = true.
Proof using Hok Ht Hlive.
  destruct live_state as (i & _ & _ & W & _). split; [by apply (has_proofs c i W t live_has)|by apply (has_move c i W t live_has)].
Qed.
(** The route is where the phase says. *)
Lemma live_at_route : exists rt, co_routes c !! N.to_nat x = Some rt /\ ro_transfer rt = Some (tr_id t)
  /\ (ro_owner rt, ro_epoch rt) = phase_route t.
Proof using Hok Ht Hlive.
  destruct live_state as (i & rt & _ & W & _). destruct (has_route c i W t live_has) as (rt' & Hr & Hp).
  exists rt'. destruct (Hp Hlive). done.
Qed.

Lemma own_progress p data : tr_phase t = PInstalled p -> installed_with p (sl x dst) data ->
  progress (perform topology s CONTROLLER (AAdvance q StOwn)).
Proof using All.
  intros Hp [prv Hd]. destruct live_at_route as (rt & Hr & Hptr & Hph). unfold phase_route in Hph. rewrite Hp in Hph.
  cbn in Hph. injection Hph as Ho He.
  eapply (controller_progress StOwn (COwn (tr_id t))).
  - at_step Hp. rewrite run_expected; [done|by right|by rewrite Hd].
  - done.
  - cbn [transfer_step]. rewrite Hp. change (ti_shard (tr_id t)) with x. rewrite Hr. cbn [or_panic mbind Outcome_bind].
    rewrite Ho, He, Hptr, !N.eqb_refl. same_eq. cbn [negb orb refuse_if mbind Outcome_bind]. reflexivity.
  - unfold remaining. cbn [tr_phase upd tr_movement]. rewrite Hp. cbn.
    change (tr_shard (t <| tr_phase := POwned (mkOwnershipProof p (mkOrigin CONTROLLER (co_applied c + 1))) |>)) with x.
    rewrite Hd. cbn. lia.
Qed.

Lemma owned_valid o : tr_phase t = POwned o -> ownership_valid o = true /\ ip_movement (ow_image o) = m.
Proof using Hok Ht Hlive.
  intros Hp. destruct live_state as (i & _ & _ & W & _). split.
  - destruct live_proofs as [Hv _]. unfold validate_transfer_proofs in Hv. rewrite Hp in Hv. cbn in Hv.
    outcome_inv. by bool_inv.
  - apply (phase_ownership_own c i W t o live_has). by rewrite Hp.
Qed.
Lemma activate_progress o data : tr_phase t = POwned o -> installed_with (ow_installation o) (sl x dst) data ->
  progress (perform topology s dst (AAdvance q StActivate)).
Proof using All.
  intros Hp [prv Hd]. pose proof (endpoint_of dst (or_intror eq_refl)) as E.
  destruct (owned_valid o Hp) as [Hv Him].
  eapply (data_progress dst StActivate (DActivate o)); [by right|done| | |].
  - at_step Hp. apply own_command. by right.
  - pose proof (accepts_activate (next dst) (dm_applied (d dst) + 1) (en_initialized _ E) o prv (Some data) Hv) as Ha.
    rewrite Him in Ha. apply Ha.
    + exact (eq_sym (en_name _ E)).
    + apply (live_not_aborted dst); [by right|by rewrite Hp].
    + exact (eq_trans (eq_sym (en_slot _ E)) Hd).
  - intros d' (e & a & Hd') Hi. unfold remaining. rewrite Hp, slot_put by done.
    unfold tr_shard at 1, tr_id. rewrite Hd', Hd. cbn. lia.
Qed.
Lemma record_activated_progress a data : tr_phase t = POwned (ac_ownership a) ->
  sl x dst = Some (mkShard (SActive (ti_epoch (mv_id m)) (Some a)) (Some data)) ->
  progress (perform topology s CONTROLLER (AAdvance q StRecordActivated)).
Proof using All.
  intros Hp Hd. pose proof (endpoint_of dst (or_intror eq_refl)) as E.
  destruct (owned_valid _ Hp) as [_ Him]. destruct (endpoint_sound dst _ E Hd) as (Ha & _).
  unfold active_invalid in Ha. bool_inv. cbn in *. bool_inv.
  eapply (controller_progress StRecordActivated (CActivated a) (PActivated a)).
  - at_step Hp. rewrite run_view by by right. rewrite Hd. cbn [shard_view fmap option_fmap option_map sh_slot].
    rewrite N.eqb_refl. same_eq. done.
  - cbn. unfold ac_id, ac_image. by rewrite Him.
  - cbn [transfer_step]. match goal with H : activation_valid a = true |- _ => rewrite H end.
    cbn [negb refuse_if mbind Outcome_bind]. rewrite Hp. same_eq. done.
  - unfold remaining. cbn [tr_phase upd tr_movement]. rewrite Hp, Hd. case_match; cbn; [case_match|]; lia.
Qed.

Lemma activated_valid a : phase_activation (tr_phase t) = Some a -> activation_valid a = true /\ ip_movement (ac_image a) = m.
Proof using Hok Ht Hlive.
  intros Hp. destruct live_state as (i & _ & _ & W & _). split; [|by apply (phase_activation_own c i W t a live_has)].
  destruct live_proofs as [Hv _]. unfold validate_transfer_proofs in Hv.
  destruct (tr_phase t); cbn in Hp; try discriminate; injection Hp as ->; cbn in Hv; outcome_inv; by bool_inv.
Qed.
Lemma cleanup_progress a data data' : tr_phase t = PActivated a -> fenced_with (ac_image a) (sl x src) data' ->
  sl x dst = Some (mkShard (SActive (ti_epoch (mv_id m)) (Some a)) (Some data)) ->
  progress (perform topology s src (AAdvance q StCleanup)).
Proof using All.
  intros Hp [pr Hs] Hd. pose proof (endpoint_of src (or_introl eq_refl)) as E.
  destruct (activated_valid a) as [Hv Him]; [by rewrite Hp|].
  eapply (data_progress src StCleanup (DCleanup a)); [by left|done| | |].
  - at_step Hp. rewrite run_expected; [apply own_command; by left|by right|by rewrite Hd].
  - pose proof (accepts_cleanup (next src) (dm_applied (d src) + 1) (en_initialized _ E) a pr (Some data') Hv) as Ha.
    unfold ac_id in Ha. rewrite Him in Ha. apply Ha.
    + exact (eq_sym (en_name _ E)).
    + apply (live_not_aborted src); [by left|by rewrite Hp].
    + exact (eq_trans (eq_sym (en_slot _ E)) Hs).
  - intros d' (cl & Hd') Hi. unfold remaining. rewrite Hp, slot_put by done.
    unfold tr_shard at 1, tr_id. rewrite Hd', Hs. cbn. lia.
Qed.
Lemma record_cleanup_progress a cleaned sd : tr_phase t = PActivated a ->
  sl x src = Some (mkShard (SRetired a cleaned) sd) ->
  progress (perform topology s CONTROLLER (AAdvance q StRecordCleanup)).
Proof using All.
  intros Hp Hs. pose proof (endpoint_of src (or_introl eq_refl)) as E.
  pose proof (endpoint_sound src _ E Hs) as Hr. cbn in Hr. unfold retired_invalid in Hr. bool_inv.
  assert (Hc : transfer_step (co_routes c) (mkOrigin CONTROLLER (co_applied c + 1)) (tr_id t) t (CCleaned (tr_id t) cleaned)
    = Done (PCleaned a cleaned, co_routes c)).
  { cbn [transfer_step]. rewrite Hp. match goal with H : o_group cleaned = _ |- _ => rewrite H, (en_name _ E), N.eqb_refl end.
    unfold origin_valid. rewrite (proj2 (N.ltb_lt _ _)) by lia. cbn [negb orb refuse_if mbind Outcome_bind].
    by rewrite (proj2 (N.ltb_lt _ _)) by lia. }
  eapply (controller_progress StRecordCleanup (CCleaned (tr_id t) cleaned)); [|done|exact Hc|].
  - at_step Hp. rewrite run_view by by left. rewrite Hs. cbn [shard_view fmap option_fmap option_map sh_slot]. same_eq. done.
  - unfold remaining. cbn [tr_phase upd tr_movement]. rewrite Hp, Hs. cbn. lia.
Qed.
Lemma complete_progress a cleaned sd data : tr_phase t = PCleaned a cleaned ->
  sl x src = Some (mkShard (SRetired a cleaned) sd) ->
  sl x dst = Some (mkShard (SActive (ti_epoch (mv_id m)) (Some a)) (Some data)) ->
  progress (perform topology s CONTROLLER (AAdvance q StComplete)).
Proof using All.
  intros Hp Hs Hd. destruct live_at_route as (rt & Hr & _).
  eapply (controller_progress StComplete (CComplete (tr_id t))).
  - at_step Hp. rewrite run_expected; [|by left|by rewrite Hs]. rewrite run_expected; [done|by right|by rewrite Hd].
  - done.
  - cbn [transfer_step]. rewrite Hp. change (ti_shard (tr_id t)) with x. rewrite Hr. reflexivity.
  - unfold remaining. cbn [tr_phase upd tr_movement]. rewrite Hp. lia.
Qed.

(** *** Aborts *)

Lemma aborted_valid ab before sr dr : tr_phase t = PAborted ab before sr dr ->
  abort_valid ab = true /\ abort_typed ab /\ ab_movement ab = m.
Proof using Hok Ht Hlive.
  intros Hp. destruct live_state as (i & _ & _ & W & _).
  destruct (phase_abort_own c i W t ab live_has) as (E & Hv & Hle); [by rewrite Hp|]. split_and!; try done.
  destruct (so_ctl _ _ (ctl_now_snapshot _ _ Hok)) as [Ha _]. unfold abort_typed. lia.
Qed.
(** The slot of an endpoint still lets it give the transfer up. *)
Lemma abort_slots g ab before sr dr : g = src \/ g = dst -> tr_phase t = PAborted ab before sr dr ->
  dm_aborted (d g) !! transfer_key (tr_id t) = None ->
  accepts (next g) (dm_applied (d g) + 1) (DAbortTransfer ab) (fun d' => dm_aborted d' !! transfer_key (tr_id t) <> None).
Proof using All.
  intros Hg Hp Hn. pose proof (endpoint_of g Hg) as E. destruct (aborted_valid ab before sr dr Hp) as (Hv & Hty & Em).
  destruct live_slots as [_ Hsl]. unfold phase_slots in Hsl. rewrite Hp in Hsl. destruct Hsl as [Hsrc Hdst].
  destruct live_state as (i & _ & _ & W & _). pose proof (has_epoch c i W t live_has) as He.
  unfold tr_previous, tr_epoch, tr_id in He. pose proof source_ne as Hne.
  pose proof (accepts_abort (next g) (dm_applied (d g) + 1) (en_initialized _ E) ab Hv Hty) as Ha.
  rewrite Em in Ha. apply Ha; [exact (en_move _ E)|exact Hn|].
  change (dm_group (next g)) with (dm_group (d g)). change (dm_shards (next g)) with (dm_shards (d g)).
  change (ti_shard (mv_id m)) with x. rewrite (en_name _ E), <- (en_slot _ E).
  destruct Hg as [-> | ->]; [left|right]; (split; [done|]).
  - destruct Hsrc as [(data & a & Hs)|(image & data & Ei & pr & Hs)]; [left; by exists a, data|right].
    exists image, pr, data. done.
  - split; [done|]. destruct Hdst as [[Hq|(a & cl & sd & Hq & Hle)]|[(im & bs & Ei & pr & sd & Hs)|(p & data & Ei & pr & Hs)]].
    + by left.
    + right. left. exists a, cl, sd. split; [done|]. lia.
    + right. right. left. by exists im, bs, pr, sd.
    + right. right. right. by exists p, pr, (Some data).
Qed.

Lemma abort_source_progress ab before dr : tr_phase t = PAborted ab before None dr ->
  dm_aborted (d src) !! transfer_key (tr_id t) = None ->
  progress (perform topology s src (AAdvance q StAbortSource)).
Proof using All.
  intros Hp Hn. pose proof source_ne as Hne. destruct (aborted_valid _ _ _ _ Hp) as (_ & Hty & _).
  eapply (data_progress src StAbortSource (DAbortTransfer ab)); [by left|exact Hty| | |].
  - at_step Hp. apply own_command. by left.
  - eapply abort_slots; [by left|done..].
  - intros d' Hd' Hi. cbv beta in Hd'. unfold remaining. rewrite Hp. cbn. rewrite N.eqb_refl, (proj2 (N.eqb_neq _ _)) by done.
    rewrite Hn. destruct (dm_aborted d' !! _); [|done]. cbn. lia.
Qed.
Lemma abort_destination_progress ab before sr : tr_phase t = PAborted ab before (Some sr) None ->
  dm_aborted (d dst) !! transfer_key (tr_id t) = None ->
  progress (perform topology s dst (AAdvance q StAbortDestination)).
Proof using All.
  intros Hp Hn. destruct (aborted_valid _ _ _ _ Hp) as (_ & Hty & _).
  eapply (data_progress dst StAbortDestination (DAbortTransfer ab)); [by right|exact Hty| | |].
  - at_step Hp. apply own_command. by right.
  - eapply abort_slots; [by right|done..].
  - intros d' Hd' Hi. cbv beta in Hd'. unfold remaining. rewrite Hp. cbn. rewrite N.eqb_refl, Hn.
    destruct (dm_aborted d' !! _); [|done]. cbn. lia.
Qed.

Hypothesis Hmarks : marks_ok topology now.

(** An endpoint's tombstone of this transfer, and what the controller asks of it. *)
Lemma tombstone g ab before sr dr record : g = src \/ g = dst -> tr_phase t = PAborted ab before sr dr ->
  dm_aborted (d g) !! transfer_key (tr_id t) = Some record ->
  abr_abort record = ab /\ o_group (abr_recovered record) = g
  /\ read_now s g (QAborted (mv_id m)) = Some (ObAborted g (Some record))
  /\ origin_valid (abr_recovered record) = true
  /\ recovery_lower t before g < o_index (abr_recovered record).
Proof using All.
  intros Hg Hp Hr. pose proof (endpoint_of g Hg) as E.
  destruct (no_aborted _ _ (sk_now _ _ Hok) g _ record (en_group_of _ E) Hr) as (u & Hu & Hpu & Hk).
  apply (inj transfer_key) in Hk. destruct live_state as (i & _ & _ & W & _).
  assert (u = t) as -> by (by apply (has_unique c i W); [|apply live_has|]). rewrite Hp in Hpu. injection Hpu as Hab.
  pose proof (mk_record _ _ Hmarks t ab before sr dr g record live_has Hp (en_group_of _ E) Hr) as Hlow.
  assert (Hq : query (machine_at now g) (QAborted (mv_id m)) = Done (ObAborted g (Some record))).
  { unfold machine_at. rewrite (proj2 (N.eqb_neq _ _) (en_controller _ E)). cbn [query].
    destruct live_proofs as [_ Hm]. unfold move_valid in Hm. bool_inv.
    match goal with H : transfer_id_valid _ = true |- _ => rewrite H end. cbn [negb refuse_if mbind Outcome_bind].
    rewrite (en_name _ E). unfold tr_id in Hr. by rewrite Hr. }
  destruct (shown_aborted topology s Hok g (mv_id m) record (en_group_of _ E)) as [_ Hgr].
  { exists now. split; [apply now_seen|exact Hq]. }
  split_and!; try done.
  - unfold read_now. by rewrite Hq.
  - unfold origin_valid. apply N.ltb_lt. lia.
Qed.

Lemma record_source_progress ab before dr record : tr_phase t = PAborted ab before None dr ->
  dm_aborted (d src) !! transfer_key (tr_id t) = Some record ->
  progress (perform topology s CONTROLLER (AAdvance q StRecordSourceAbort)).
Proof using All.
  intros Hp Hr. destruct (tombstone src _ _ _ _ record (or_introl eq_refl) Hp Hr) as (Ea & Eg & Hread & Hv & Hlow).
  destruct (aborted_valid _ _ _ _ Hp) as (Hav & _ & Em). destruct live_at_route as (rt & Hrt & Hptr & _).
  assert (Hc : exists routes', transfer_step (co_routes c) (mkOrigin CONTROLLER (co_applied c + 1)) (tr_id t) t
      (CEndpointAborted ab (abr_recovered record)) = Done (PAborted ab before (Some (abr_recovered record)) dr, routes')).
  { cbn [transfer_step]. unfold endpoint_aborted. rewrite Hp, Hav, Hv. same_eq.
    cbn [negb orb refuse_if mbind Outcome_bind]. rewrite Eg, (proj2 (N.leb_gt _ _)) by lia.
    cbn [refuse_if mbind Outcome_bind]. rewrite N.eqb_refl. cbn [record_receipt mbind Outcome_bind].
    case_match; [|eauto]. change (ti_shard (tr_id t)) with x. rewrite Hrt. cbn [or_panic mbind Outcome_bind].
    rewrite Hptr. same_eq. eauto. }
  destruct Hc as (routes' & Hc).
  eapply (controller_progress StRecordSourceAbort); [| |exact Hc|].
  - at_step Hp. unfold record_abort. rewrite run_checked, Hread, N.eqb_refl, Ea. same_eq. done.
  - cbn. by rewrite Em.
  - unfold remaining. cbn [tr_phase upd tr_movement]. rewrite Hp. cbn.
    change (tr_id (t <| tr_phase := PAborted ab before (Some (abr_recovered record)) dr |>)) with (tr_id t).
    rewrite Hr. cbn. lia.
Qed.
Lemma record_destination_progress ab before sr record : tr_phase t = PAborted ab before (Some sr) None ->
  dm_aborted (d dst) !! transfer_key (tr_id t) = Some record ->
  progress (perform topology s CONTROLLER (AAdvance q StRecordDestinationAbort)).
Proof using All.
  intros Hp Hr. destruct (tombstone dst _ _ _ _ record (or_intror eq_refl) Hp Hr) as (Ea & Eg & Hread & Hv & Hlow).
  destruct (aborted_valid _ _ _ _ Hp) as (Hav & _ & Em). destruct live_at_route as (rt & Hrt & Hptr & _).
  assert (Hc : exists routes', transfer_step (co_routes c) (mkOrigin CONTROLLER (co_applied c + 1)) (tr_id t) t
      (CEndpointAborted ab (abr_recovered record)) = Done (PAborted ab before (Some sr) (Some (abr_recovered record)), routes')).
  { cbn [transfer_step]. unfold endpoint_aborted. rewrite Hp, Hav, Hv. same_eq.
    cbn [negb orb refuse_if mbind Outcome_bind]. rewrite Eg, (proj2 (N.leb_gt _ _)) by lia.
    cbn [refuse_if mbind Outcome_bind]. rewrite (proj2 (N.eqb_neq _ _)) by (apply not_eq_sym, source_ne).
    rewrite N.eqb_refl. cbn [record_receipt mbind Outcome_bind].
    case_match; [|eauto]. change (ti_shard (tr_id t)) with x. rewrite Hrt. cbn [or_panic mbind Outcome_bind].
    rewrite Hptr. same_eq. eauto. }
  destruct Hc as (routes' & Hc).
  eapply (controller_progress StRecordDestinationAbort); [| |exact Hc|].
  - at_step Hp. unfold record_abort. rewrite run_checked, Hread, N.eqb_refl, Ea. same_eq. done.
  - cbn. by rewrite Em.
  - unfold remaining. cbn [tr_phase upd tr_movement]. rewrite Hp. cbn.
    change (tr_id (t <| tr_phase := PAborted ab before (Some sr) (Some (abr_recovered record)) |>)) with (tr_id t).
    rewrite Hr. cbn. lia.
Qed.
End state.
End live.

Section live.
Context `{Fmt : TypeFormats} `{SerC : Serialize Controller} `{DFmt : DataFormats}.
Variable topology : Topology.

(** ** One reconciliation *)

Context `{CLaws : !ControllerLaws} `{DLaws : !DataLaws}.
Hypothesis Htop : topology_valid topology = true.

(** A commit takes one index of one group. *)
Lemma commit_applied s g op reply s' : g ∈ all_groups topology -> commit s g op = Some (reply, s') ->
  forall g', machine_applied (machine_at (sy_now s') g') <= machine_applied (machine_at (sy_now s) g') + 1.
Proof using.
  unfold commit. intros Hg H g'. destruct (operation _ _ _) as [[r m]| |] eqn:Ho; try discriminate. injection H as _ <-.
  unfold machine_at in Ho |- *. destruct (N.eqb_spec g CONTROLLER) as [-> | Hne];
    apply operation_cases in Ho as [(c & cmd & r' & c' & E & -> & -> & Ha)|(d & cmd & r' & d' & E & -> & -> & Ha)];
    try discriminate; injection E as <-; cbn in Ha |- *.
  - destruct (N.eqb_spec g' CONTROLLER); cbn; [|lia]. apply apply_cases in Ha as [_ Ha].
    destruct r' as [rp|err|]; [|by subst; cbn; lia|done]. destruct Ha as [He _].
    apply execute_frame in He as [-> _]. cbn. lia.
  - destruct (N.eqb_spec g' CONTROLLER); cbn; [lia|]. destruct (N.eqb_spec g' g) as [-> | ]; [|lia].
    apply data_apply_cases in Ha as [_ Ha]. destruct r' as [rp|err|]; [|by subst; cbn; lia|done]. destruct Ha as [He _].
    apply data_execute_frame in He as (_ & -> & _). cbn. lia.
Qed.
Lemma perform_applied s g action reply s' : g ∈ all_groups topology -> perform topology s g action = Some (reply, s') ->
  forall g', machine_applied (machine_at (sy_now s') g') <= machine_applied (machine_at (sy_now s) g') + 1.
Proof using.
  unfold perform. intros Hg H. destruct (run_now s _) as [[op|]|]; try discriminate. by eapply commit_applied.
Qed.

Record ready (s : System) (q : string) (t : Transfer) (room : N) : Prop := {
  rd_ok : sys_ok topology s;
  rd_marks : marks_ok topology (sy_now s);
  rd_transfer : co_transfers (sn_ctl (sy_now s)) !! q = Some t;
  rd_room : forall g, g ∈ all_groups topology -> machine_applied (machine_at (sy_now s) g) + room <= u64_max;
}.

(** What a reconciliation comes to. *)
Definition reconciled (s : System) (q : string) (t : Transfer) (room : N) (res : option (Reply * option Reply * System)) : Prop :=
  exists reply abort s', res = Some (reply, abort, s') /\ rtc (sys_step topology) s s'
  /\ (default reply abort = RpRejected ECapacity
      \/ refused (default reply abort) = false /\ exists t', ready s' q t' (room - 2) /\ remaining topology (sy_now s') t' < remaining topology (sy_now s) t).

Lemma perform_ready s q t room g action reply s' t' : ready s q t room -> 1 <= room -> g ∈ all_groups topology ->
  perform topology s g action = Some (reply, s') -> co_transfers (sn_ctl (sy_now s')) !! q = Some t' ->
  ready s' q t' (room - 1).
Proof using All.
  intros [H1 H2 H3 H4] Hr Hg Hp Ht'. pose proof (perform_step topology s g action reply s' Hg Hp) as Hst. split.
  - by eapply sys_step_ok.
  - by eapply marks_step.
  - done.
  - intros g' Hg'. pose proof (perform_applied s g action reply s' Hg Hp g') as Hle. specialize (H4 g' Hg'). lia.
Qed.
Lemma ready_less s q t room room' : ready s q t room -> room' <= room -> ready s q t room'.
Proof using. intros [H1 H2 H3 H4] Hle. split; try done. intros g Hg. specialize (H4 g Hg). lia. Qed.

Lemma progress_reconciled s q t room g action : ready s q t room -> 2 <= room -> g ∈ all_groups topology ->
  progress topology s q t (perform topology s g action) ->
  reconciled s q t room ((fun p => (p.1, None, p.2)) <$> perform topology s g action).
Proof using All.
  intros Hrd Hroom Hg (reply & s' & E & H). exists reply, None, s'. rewrite E. split; [done|]. cbn [default from_option].
  split; [apply rtc_once; by eapply perform_step|].
  destruct H as [[-> _]|(Hn & t' & Ht' & _ & Hlt)]; [by left|right]. split; [done|]. exists t'. split; [|done].
  eapply ready_less; [eapply perform_ready; [exact Hrd|lia|exact Hg|exact E|exact Ht']|lia].
Qed.

(** A choice other than fencing or installing. *)
Lemma step_reconciled s q t room g step : ready s q t room -> 2 <= room -> complete t = false -> g ∈ all_groups topology ->
  run_now s (choose_step t) = Some (inl (g, step)) -> step <> StFence -> step <> StBeginInstall ->
  progress topology s q t (perform topology s g (AAdvance q step)) -> reconciled s q t room (reconcile topology s q).
Proof using All.
  intros Hrd Hroom Hc Hg Hr H1 H2 Hp.
  rewrite (reconcile_perform topology s (rd_ok _ _ _ _ Hrd) q t (rd_transfer _ _ _ _ Hrd) Hc g step Hr H1 H2).
  by apply progress_reconciled.
Qed.
(** ... and those two, with the abort that follows when there is no room. *)
Lemma preparing_reconciled s q t room g step : ready s q t room -> 2 <= room -> complete t = false -> g ∈ all_groups topology ->
  run_now s (choose_step t) = Some (inl (g, step)) -> step = StFence \/ step = StBeginInstall ->
  match tr_phase t with PStarted | PFenced _ => True | _ => False end ->
  progress topology s q t (perform topology s g (AAdvance q step)) -> reconciled s q t room (reconcile topology s q).
Proof using All.
  intros Hrd Hroom Hc Hg Hr Hstep Hph (reply & s1 & E & H).
  pose proof Hrd as [Hok Hmk Ht Hrm]. unfold reconcile.
  rewrite (run_reconcile topology s Hok q t Ht Hc g step Hr), E. cbn [mbind option_bind].
  destruct H as [[-> (g1 & Hg1 & Es)]|(Hn & t' & Ht' & _ & Hlt)].
  - assert (Ea : reconcile_follow_up q step (RsApplied g (machine_applied (machine_at (sy_now s1) g)) (RpRejected ECapacity))
      = Some (CONTROLLER, AAdvance q StAbort)) by (by destruct Hstep as [-> | ->]).
    rewrite Ea. assert (Ht1 : co_transfers (sn_ctl (sy_now s1)) !! q = Some t).
    { rewrite Es. unfold watermark, machine_at. by destruct (g1 =? CONTROLLER). }
    assert (Hrd1 : ready s1 q t (room - 1)) by (eapply perform_ready; [exact Hrd|lia|exact Hg|exact E|exact Ht1]).
    assert (Hp1 : progress topology s1 q t (perform topology s1 CONTROLLER (AAdvance q StAbort))).
    { apply abort_progress; try done; [apply Hrd1| |by destruct (tr_phase t)].
      intros g' Hg'. pose proof (rd_room _ _ _ _ Hrd1 g' Hg'). lia. }
    destruct Hp1 as (reply2 & s2 & E2 & H2). rewrite E2. cbn [mbind option_bind]. exists (RpRejected ECapacity), (Some reply2), s2. split; [done|].
    assert (Hc0 : CONTROLLER ∈ all_groups topology) by (by left).
    split; [exact (rtc_l _ _ _ _ (perform_step _ _ _ _ _ _ Hg E) (rtc_once _ _ (perform_step _ _ _ _ _ _ Hc0 E2)))|].
    destruct H2 as [[-> _]|(Hn & t' & Ht' & _ & Hlt)]; [by left|right]. split; [done|]. exists t'. split.
    + replace (room - 2) with (room - 1 - 1) by lia.
      eapply perform_ready; [exact Hrd1|lia|by left|exact E2|exact Ht'].
    + rewrite Es, watermark_remaining in Hlt. rewrite Es in *. exact Hlt.
  - assert (Ea : reconcile_follow_up q step (RsApplied g (machine_applied (machine_at (sy_now s1) g)) reply) = None)
      by (destruct Hstep as [-> | ->]; by destruct reply as [| |[]|]).
    rewrite Ea. exists reply, None, s1. split; [done|]. split; [apply rtc_once; by eapply perform_step|]. right. split; [done|]. exists t'. split; [|done].
    eapply ready_less; [eapply perform_ready; [exact Hrd|lia|exact Hg|exact E|exact Ht']|lia].
Qed.

Section reconcile.
Variables (s : System) (q : string) (t : Transfer) (room : N).
Hypothesis Hrd : ready s q t room.
Hypothesis Hroom : 2 <= room.
Hypothesis Hlive : complete t = false.
Let Hok : sys_ok topology s := rd_ok _ _ _ _ Hrd.
Let Ht : co_transfers (sn_ctl (sy_now s)) !! q = Some t := rd_transfer _ _ _ _ Hrd.
Notation m := (tr_movement t).
Notation sl := (slot_at topology (sy_now s) (tr_shard t)).

Lemma room_one : forall g, g ∈ all_groups topology -> machine_applied (machine_at (sy_now s) g) + 1 <= u64_max.
Proof using Hrd Hroom. intros g Hg. pose proof (rd_room _ _ _ _ Hrd g Hg). lia. Qed.
Lemma end_groups : mv_source m ∈ all_groups topology /\ mv_destination m ∈ all_groups topology /\ CONTROLLER ∈ all_groups topology.
Proof using All.
  split_and!; [right|right|by left].
  - apply (endpoint_of topology s Hok q t Ht Hlive). by left.
  - apply (endpoint_of topology s Hok q t Ht Hlive). by right.
Qed.

Tactic Notation "chosen" constr(g) constr(step) :=
  apply (step_reconciled s q t room g step Hrd Hroom Hlive); [apply end_groups| |done|done|].
Ltac view := unfold choose_step;
  lazymatch goal with H : tr_phase t = _ |- _ => rewrite H end;
  change (ti_shard (mv_id m)) with (tr_shard t);
  rewrite (run_view topology s Hok q t Ht Hlive) by auto.
Ltac shown := cbn [shard_view fmap option_fmap option_map sh_slot]; rewrite ?(proj2 (eqb_true _ _) eq_refl).
Ltac at_phase := eauto using room_one.

Lemma started_reconciled : tr_phase t = PStarted -> reconciled s q t room (reconcile topology s q).
Proof using All.
  intros Hp. destruct (live_slots topology s Hok q t Ht Hlive) as [_ Hs]. unfold phase_slots in Hs. rewrite Hp in Hs.
  destruct Hs as [[(data & a & Hs)|(image & data & Him & Hf)] Hq].
  - apply (preparing_reconciled s q t room (mv_source m) StFence Hrd Hroom Hlive); [apply end_groups|..].
    + view. rewrite Hs. shown. done.
    + by left.
    + by rewrite Hp.
    + eapply fence_progress; at_phase.
  - chosen CONTROLLER StRecordFence.
    + view. destruct Hf as [pr Hf]. rewrite Hf. cbn [shard_view fmap option_fmap option_map sh_slot].
      rewrite (proj2 (eqb_true _ _) Him). done.
    + eapply record_fence_progress; at_phase.
Qed.

Lemma fenced_reconciled image : tr_phase t = PFenced image -> reconciled s q t room (reconcile topology s q).
Proof using All.
  intros Hp. destruct (live_slots topology s Hok q t Ht Hlive) as [_ Hs]. unfold phase_slots in Hs. rewrite Hp in Hs.
  destruct Hs as (data & Hf & Hst). destruct Hst as [Hq|[(stored & Hi & Hpre)|(p & Hin & Hi)]].
  - apply (preparing_reconciled s q t room (mv_destination m) StBeginInstall Hrd Hroom Hlive); [apply end_groups|..].
    + view. destruct Hq as [Hq|(a & cl & sd & Hq & _)]; rewrite Hq; shown; done.
    + by right.
    + by rewrite Hp.
    + eapply begin_progress; at_phase.
  - destruct (decide (len64 stored = ip_bytes image)) as [E|E];
      [chosen (mv_destination m) StFinishInstall|chosen (mv_destination m) StPullChunk].
    + view. destruct Hi as (prv & sd & Hi). rewrite Hi. shown. by rewrite (proj2 (N.eqb_eq _ _) E).
    + eapply finish_progress; at_phase.
    + view. destruct Hi as (prv & sd & Hi). rewrite Hi. shown. by rewrite (proj2 (N.eqb_neq _ _) E).
    + eapply pull_progress; at_phase.
  - chosen CONTROLLER StRecordInstalled.
    + view. destruct Hi as [prv Hi]. rewrite Hi. cbn [shard_view fmap option_fmap option_map sh_slot].
      by rewrite (proj2 (eqb_true _ _) Hin).
    + eapply record_installed_progress; at_phase.
Qed.

Lemma later_reconciled : match tr_phase t with PStarted | PFenced _ | PAborted _ _ _ _ => False | _ => True end ->
  reconciled s q t room (reconcile topology s q).
Proof using All.
  intros Hph. destruct (live_slots topology s Hok q t Ht Hlive) as [_ Hs]. unfold phase_slots in Hs.
  destruct (tr_phase t) as [| | |p|o|a|a cleaned|] eqn:Hp; try done.
  - destruct Hs as (data & _ & Hi). chosen CONTROLLER StOwn; [unfold choose_step; by rewrite Hp|]. eapply own_progress; at_phase.
  - destruct Hs as (data & _ & [Hi|(a & data' & <- & Hd)]);
      [chosen (mv_destination m) StActivate|chosen CONTROLLER StRecordActivated].
    + view. destruct Hi as [prv Hi]. rewrite Hi. shown. done.
    + eapply activate_progress; at_phase.
    + view. rewrite Hd. shown. done.
    + eapply record_activated_progress; at_phase.
  - destruct Hs as [[(data & Hf)|(cl & sd & Hs)] (data' & Hd)];
      [chosen (mv_source m) StCleanup|chosen CONTROLLER StRecordCleanup].
    + view. destruct Hf as [pr Hf]. rewrite Hf. shown. done.
    + eapply cleanup_progress; at_phase.
    + view. rewrite Hs. shown. done.
    + eapply record_cleanup_progress; at_phase.
  - destruct Hs as [(sd & Hs) (data' & Hd)]. chosen CONTROLLER StComplete; [unfold choose_step; by rewrite Hp|]. eapply complete_progress; at_phase.
Qed.

Lemma aborted_reconciled ab before sr dr : tr_phase t = PAborted ab before sr dr ->
  reconciled s q t room (reconcile topology s q).
Proof using All.
  intros Hp. pose proof (rd_marks _ _ _ _ Hrd) as Hmk.
  assert (Hend : forall g, g = mv_source m \/ g = mv_destination m ->
    (dm_aborted (sn_data (sy_now s) g) !! transfer_key (tr_id t) = None
     /\ read_now s g (QAborted (mv_id m)) = Some (ObAborted g None))
    \/ exists record, dm_aborted (sn_data (sy_now s) g) !! transfer_key (tr_id t) = Some record
         /\ read_now s g (QAborted (mv_id m)) = Some (ObAborted g (Some record)) /\ abr_abort record = ab).
  { intros g Hg. destruct (dm_aborted _ !! _) as [record|] eqn:Hr; [right|left].
    - destruct (tombstone topology s Hok q t Ht Hlive room_one Hmk g ab before sr dr record Hg Hp Hr) as (Ea & _ & Hread & _). eauto.
    - split; [done|]. pose proof (endpoint_of topology s Hok q t Ht Hlive g Hg) as E. rewrite (read_group topology s t g _ E). cbn [query].
      destruct (live_proofs topology s Hok q t Ht Hlive) as [_ Hm]. unfold move_valid in Hm. bool_inv.
      match goal with H : transfer_id_valid _ = true |- _ => rewrite H end. cbn [negb refuse_if mbind Outcome_bind].
      rewrite (en_name _ _ _ _ E). unfold tr_id in Hr. by rewrite Hr. }
  destruct sr as [sr|]; [destruct dr as [dr|]; [by unfold complete in Hlive; rewrite Hp in Hlive|]|].
  - destruct (Hend (mv_destination m) (or_intror eq_refl)) as [[Hr Hread]|(record & Hr & Hread & Hab)];
      [chosen (mv_destination m) StAbortDestination|chosen CONTROLLER StRecordDestinationAbort].
    + unfold choose_step. rewrite Hp. cbn [is_none is_some negb]. cbn [mbind Script_bind]. by rewrite run_checked, Hread.
    + eapply abort_destination_progress; at_phase.
    + unfold choose_step. rewrite Hp. cbn [is_none is_some negb mbind Script_bind]. rewrite run_checked, Hread.
      by rewrite N.eqb_refl, (proj2 (eqb_true _ _) Hab).
    + eapply record_destination_progress; at_phase.
  - destruct (Hend (mv_source m) (or_introl eq_refl)) as [[Hr Hread]|(record & Hr & Hread & Hab)];
      [chosen (mv_source m) StAbortSource|chosen CONTROLLER StRecordSourceAbort].
    + unfold choose_step. rewrite Hp. cbn [is_none is_some negb mbind Script_bind]. by rewrite run_checked, Hread.
    + eapply abort_source_progress; at_phase.
    + unfold choose_step. rewrite Hp. cbn [is_none is_some negb mbind Script_bind]. rewrite run_checked, Hread.
      by rewrite N.eqb_refl, (proj2 (eqb_true _ _) Hab).
    + eapply record_source_progress; at_phase.
Qed.

Lemma reconcile_reconciled : reconciled s q t room (reconcile topology s q).
Proof using All.
  destruct (tr_phase t) eqn:Hp.
  - by apply started_reconciled.
  - by eapply aborted_reconciled.
  - by eapply fenced_reconciled.
  - apply later_reconciled. by rewrite Hp.
  - apply later_reconciled. by rewrite Hp.
  - apply later_reconciled. by rewrite Hp.
  - apply later_reconciled. by rewrite Hp.
  - unfold complete in Hlive. by rewrite Hp in Hlive.
Qed.
End reconcile.

(** ** Reconciling to the end *)

Lemma remaining_bound s t : (forall image, tr_phase t = PFenced image -> ip_bytes image <= MAX_TRANSFER_BYTES) ->
  remaining topology s t <= MAX_TRANSFER_BYTES + 12.
Proof using.
  intros Hi. assert (H : 12 <= MAX_TRANSFER_BYTES) by (unfold MAX_TRANSFER_BYTES; lia).
  assert (Hr : forall r b, pending_receipt r b <= 2) by (intros [] []; cbn; lia).
  unfold remaining. revert Hi H. generalize MAX_TRANSFER_BYTES. intros M Hi H.
  destruct (tr_phase t) as [|ab b sr dr|image| | | | |]; try (repeat case_match; lia).
  - pose proof (Hr sr (is_some (dm_aborted (sn_data s (mv_source (tr_movement t))) !! transfer_key (tr_id t)))).
    pose proof (Hr dr (is_some (dm_aborted (sn_data s (mv_destination (tr_movement t))) !! transfer_key (tr_id t)))). lia.
  - specialize (Hi image eq_refl). repeat case_match; lia.
Qed.
Lemma remaining_positive s t : complete t = false -> 0 < remaining topology s t.
Proof using.
  unfold complete, remaining. destruct (tr_phase t) as [|ab b sr dr|image| | | | |]; intros Hc; try discriminate;
    try (repeat case_match; lia).
  destruct sr, dr; try discriminate; unfold pending_receipt; repeat case_match; lia.
Qed.

(** Fuel for what remains is enough. *)
Lemma settle_ready fuel : forall s q t, remaining topology (sy_now s) t <= N.of_nat fuel -> ready s q t (2 * N.of_nat fuel) ->
  exists s' out, settle topology fuel s q = Some (s', out) /\ rtc (sys_step topology) s s'
    /\ (out = Some ECapacity \/ out = None /\ exists t', co_transfers (sn_ctl (sy_now s')) !! q = Some t' /\ complete t' = true).
Proof using All.
  induction fuel as [|fuel IH]; intros s q t Hle Hrd; pose proof (rd_transfer _ _ _ _ Hrd) as Ht;
    (destruct (complete t) eqn:Hc; [exists s, None; cbn; rewrite Ht, Hc; split_and!; [done|done|right; eauto]|]);
    pose proof (remaining_positive (sy_now s) t Hc) as Hpos; [lia|].
  cbn [settle]. rewrite Ht, Hc.
  destruct (reconcile_reconciled s q t _ Hrd ltac:(lia) Hc) as (reply & abort & s1 & E & Hst & H). rewrite E. cbn [mbind option_bind].
  revert H. generalize (default reply abort). clear E. intros last H.
  destruct H as [-> |(Hn & t1 & Hrd1 & Hlt)]; [exists s1, (Some ECapacity); split_and!; [done|done|by left]|].
  destruct (IH s1 q t1) as (s2 & out & E2 & Hst2 & H2); [lia|eapply ready_less; [exact Hrd1|lia]|].
  exists s2, out. split_and!; [by destruct last|by etrans|done].
Qed.
End live.

(** * Every hand-over ends *)
Section settles.
Context `{Fmt : TypeFormats} `{SerC : Serialize Controller} `{DFmt : DataFormats}.
Context `{CLaws : !ControllerLaws} `{DLaws : !DataLaws}.
Variable topology : Topology.

Lemma reachable_marks s : topology_valid topology = true -> sys_reachable topology s -> marks_ok topology (sy_now s).
Proof using CLaws DLaws.
  intros Htop H. unfold sys_reachable in H.
  assert (Hi := sys_initial_ok topology Htop). assert (Hm := marks_initial topology). revert Hi Hm.
  induction H as [s|s1 s2 s3 Hs _ IH]; [done|]. intros Hok Hm. apply IH.
  - by eapply sys_step_ok.
  - by eapply marks_step.
Qed.

(** The fuel that brings any transfer to its end. *)
Definition settle_fuel : nat := N.to_nat (MAX_TRANSFER_BYTES + 12).

(** (C12) Every hand-over ends: reconciling a transfer of a reachable system, as long
    as the groups' indices do not run out, comes within [settle_fuel] rounds to a
    completed or recovered transfer, by steps of the system, unless a group refuses
    an entry because its state would not fit. *)
Theorem handoff_settles s q t :
  topology_valid topology = true -> sys_reachable topology s ->
  co_transfers (sn_ctl (sy_now s)) !! q = Some t ->
  (forall g, g ∈ all_groups topology ->
     machine_applied (machine_at (sy_now s) g) + 2 * (MAX_TRANSFER_BYTES + 12) <= u64_max) ->
  exists s' out, settle topology settle_fuel s q = Some (s', out) /\ rtc (sys_step topology) s s'
    /\ (out = Some ECapacity
        \/ out = None /\ exists t', co_transfers (sn_ctl (sy_now s')) !! q = Some t' /\ complete t' = true).
Proof using CLaws DLaws.
  intros Htop Hs Ht Hroom. pose proof (sys_reachable_ok topology Htop s Hs) as Hok.
  assert (Hf : N.of_nat settle_fuel = MAX_TRANSFER_BYTES + 12) by (unfold settle_fuel; apply N2Nat.id).
  revert Hf. generalize settle_fuel. intros fuel Hf. apply (settle_ready topology Htop fuel s q t).
  - rewrite Hf. apply remaining_bound. intros image Hp.
    destruct (complete t) eqn:Hc; [unfold complete in Hc; by rewrite Hp in Hc|].
    destruct (own_image topology s Hok q t Ht Hc image) as [Hv _]; [by rewrite Hp|]. by apply image_fits.
  - split; [done|by apply reachable_marks|done|]. intros g Hg. rewrite Hf. by apply Hroom.
Qed.
End settles.
