(* ===== verification/Application.v ===== *)
(** * [kv-node/src/application.rs]: the replicated key-value application

    Values, client sessions and retry records, applied in log order; the
    provisional transaction with its undo records; and the explicit snapshot
    format with its validation.  SHA-256 ([sha2]) is third-party code, the
    parameter [Sha256]. *)
From S2P Require Import Prelude Quorum Membership Types.
Local Open Scope N_scope.
Local Open Scope raft_scope.

(** ** UTF-8

    A Rust [String] is a valid UTF-8 byte sequence; [std::str::from_utf8]. *)

Definition continuation (b : N) : bool := (0x80 <=? b) && (b <=? 0xBF).
Definition between (low high b : N) : bool := (low <=? b) && (b <=? high).

Fixpoint utf8_valid (bs : list N) : bool :=
  match bs with
  | [] => true
  | b :: r =>
      if b <? 0x80 then utf8_valid r
      else if between 0xC2 0xDF b then
        match r with b1 :: r => continuation b1 && utf8_valid r | _ => false end
      else if between 0xE0 0xEF b then
        match r with
        | b1 :: b2 :: r =>
            between (if b =? 0xE0 then 0xA0 else 0x80) (if b =? 0xED then 0x9F else 0xBF) b1
            && continuation b2 && utf8_valid r
        | _ => false
        end
      else if between 0xF0 0xF4 b then
        match r with
        | b1 :: b2 :: b3 :: r =>
            between (if b =? 0xF0 then 0x90 else 0x80) (if b =? 0xF4 then 0x8F else 0xBF) b1
            && continuation b2 && continuation b3 && utf8_valid r
        | _ => false
        end
      else false
  end.

(** The string of a byte sequence. *)
Definition of_bytes (bs : list N) : string :=
  String.string_of_list_ascii (map Ascii.ascii_of_N bs).
(** [std::str::from_utf8], [String::from_utf8] *)
Definition from_utf8 (bs : list N) : option string :=
  if utf8_valid bs then Some (of_bytes bs) else None.

(** ** Data *)

Definition MAX_SESSIONS : N := 1024.
Definition MAX_KEYS_PER_SESSION : N := 256.
Definition MAX_SESSION_KEYS : N := 8192.
Definition MAX_RETAINED_PAYLOAD_BYTES : N := 16 * 1024 * 1024.
Definition MAX_NONCE_BYTES : N := 128.
Definition MAX_KEY_BYTES : N := 1024.
Definition MAX_VALUE_BYTES : N := 64 * 1024.

Inductive SessionError : Type :=
| InvalidNonce | InvalidKey | ValueTooLarge | InvalidSequence | UnknownSession | SessionClosed
| SessionCapacity | KeyCapacity | PayloadCapacity | PayloadMismatch | StaleSequence | SequenceGap
| SequenceExhausted.
#[export] Instance SessionError_eq_dec : EqDecision SessionError.
Proof. solve_decision. Defined.

Record SessionResult := mkSessionResult {
  sr_ok : bool;
  sr_session_id : option LogIndex;
  sr_sequence : option N;
  sr_index : option LogIndex;
  sr_error : option SessionError;
  sr_expected_sequence : option N;
}.
#[export] Instance SessionResult_eq_dec : EqDecision SessionResult.
Proof. solve_decision. Defined.

(** [SessionResult::success] *)
Definition success (session_id : LogIndex) (sequence : option N) (index : LogIndex) : SessionResult :=
  mkSessionResult true (Some session_id) sequence (Some index) None None.
(** [SessionResult::rejected] *)
Definition session_rejected (error : SessionError) (expected_sequence : option N) : SessionResult :=
  mkSessionResult false None None None (Some error) expected_sequence.

Inductive ApplyOutcome : Type :=
| AppliedAt (index : LogIndex)
| SessionReply (result : SessionResult).
#[export] Instance ApplyOutcome_eq_dec : EqDecision ApplyOutcome.
Proof. solve_decision. Defined.

Record ApplyError := mkApplyError { ae_previous : LogIndex; ae_received : LogIndex }.

Record KeyRecord := mkKeyRecord {
  kr_sequence : N;
  kr_digest : list N;
  kr_payload : list N;
  kr_result : SessionResult;
}.
#[export] Instance KeyRecord_eq_dec : EqDecision KeyRecord.
Proof. solve_decision. Defined.

Record Session := mkSession {
  registered : SessionResult;
  closed : option SessionResult;
  session_keys : gmap string KeyRecord;
}.
#[export] Instance Session_eq_dec : EqDecision Session.
Proof. solve_decision. Defined.
#[export] Instance Session_eta : Eta Session := fun r =>
  mkSession (registered r) (closed r) (session_keys r).

Record StateMachine := mkStateMachine {
  values : gmap string string;
  registrations : gmap string LogIndex;
  sessions : gmap LogIndex Session;
  last_applied : LogIndex;
  retained_keys : N;
  retained_payload_bytes : N;
}.
#[export] Instance StateMachine_eq_dec : EqDecision StateMachine.
Proof. solve_decision. Defined.
#[export] Instance StateMachine_eta : Eta StateMachine := fun r =>
  mkStateMachine (values r) (registrations r) (sessions r) (last_applied r) (retained_keys r)
    (retained_payload_bytes r).
(** [StateMachine::default] *)
Definition app_default : StateMachine := mkStateMachine ∅ ∅ ∅ 0 0 0.

Record SessionKeySnapshot := mkSessionKeySnapshot {
  sk_key : string;
  sk_sequence : N;
  sk_digest : list N;
  sk_payload : list N;
  sk_result : SessionResult;
}.
#[export] Instance SessionKeySnapshot_eq_dec : EqDecision SessionKeySnapshot.
Proof. solve_decision. Defined.

Record SessionSnapshot := mkSessionSnapshot {
  ss_nonce : string;
  ss_session_id : LogIndex;
  ss_registered : SessionResult;
  ss_closed : option SessionResult;
  ss_keys : list SessionKeySnapshot;
}.
#[export] Instance SessionSnapshot_eq_dec : EqDecision SessionSnapshot.
Proof. solve_decision. Defined.

Record ApplicationSnapshot := mkApplicationSnapshot {
  as_schema_version : N;
  as_last_applied : LogIndex;
  as_values : list (string * string);
  as_sessions : list SessionSnapshot;
  as_retained_keys : N;
  as_retained_payload_bytes : N;
}.
#[export] Instance ApplicationSnapshot_eq_dec : EqDecision ApplicationSnapshot.
Proof. solve_decision. Defined.

(** Number of entries of a map, [BTreeMap::len]. *)
Definition map_len {K V} `{Countable K} (m : gmap K V) : N := N.of_nat (size m).

Class Sha256 : Type := {
  (** [Sha256::digest(..).into()] *)
  sha256_digest : list N -> list N;
}.

Class Sha256Laws `{Sha256} : Prop := sha256_length : forall b, length (sha256_digest b) = 32%nat.

(** ** Canonical retry payloads *)

Definition PAYLOAD_PREFIX : list N := bytes "micro-raft/session-payload/v1".

(** [canonical_payload] *)
Definition canonical_payload (key : string) (value : option string) : list N :=
  PAYLOAD_PREFIX
  ++ [if is_some value then 1 else 0]
  ++ to_be_bytes 8 (str_len key) ++ bytes key
  ++ match value with Some v => to_be_bytes 8 (str_len v) ++ bytes v | None => [] end.

(** [slice.get(..n)], with the rest of the slice. *)
Definition split_at {A} (n : N) (l : list A) : option (list A * list A) :=
  if n <=? len64 l then Some (take (N.to_nat n) l, drop (N.to_nat n) l) else None.

(** [slice.strip_prefix(prefix)] *)
Definition strip_prefix (prefix l : list N) : option (list N) :=
  if take (length prefix) l ==? prefix then Some (drop (length prefix) l) else None.

Definition result_of {A} (o : option A) (message : string) : Result A :=
  match o with Some a => Ok a | None => Err message end.

(** [snapshot_require] *)
Definition snapshot_require (condition : bool) (message : string) : Result unit :=
  if condition then Ok tt else Err message.

Definition malformed : string := "malformed canonical retry payload".
Definition malformed_length : string := "malformed canonical retry payload length".

(** [field] of [decode_payload]: the field and the tail after it. *)
Definition payload_field (tail : list N) (maximum : N) : Result (list N * list N) :=
  '(header, rest) ← result_of (split_at 8 tail) malformed_length;
  let length := from_be_bytes header in
  if maximum <? length then Err malformed_length else
  result_of (split_at length rest) malformed_length.

(** [decode_payload] *)
Definition decode_payload (key : string) (payload : list N) : Result (option string) :=
  tail ← result_of (strip_prefix PAYLOAD_PREFIX payload) malformed;
  match tail with
  | [] => Err malformed
  | tag :: tail =>
      '(field, tail) ← payload_field tail MAX_KEY_BYTES;
      snapshot_require (field ==? bytes key) "snapshot retry payload key mismatch";;
      '(value, tail) ←
        (if tag =? 0 then Ok (None, tail)
         else if tag =? 1 then
           '(field, tail) ← payload_field tail MAX_VALUE_BYTES;
           value ← result_of (from_utf8 field) malformed;
           Ok (Some value, tail)
         else Err malformed);
      snapshot_require (bool_decide (tail = [])) "snapshot retry payload has trailing bytes";;
      Ok value
  end.

Section application.
Context `{Sha256}.

(** ** Applying entries *)

(** The methods of the state machine return their result with the next state.
    A panic is an index of a missing session or an overflow. *)
Abbreviation Change A := (Outcome ApplyError (A * StateMachine)).

Definition nonce_invalid (nonce : string) : bool :=
  (str_len nonce =? 0) || (MAX_NONCE_BYTES <? str_len nonce)
  || existsb char_is_control (utf8_chars (bytes nonce)).

Definition register (state : StateMachine) (nonce : string) (index : LogIndex) : Change SessionResult :=
  if nonce_invalid nonce then Done (session_rejected InvalidNonce None, state) else
  match registrations state !! nonce with
  | Some id =>
      session ← or_panic (sessions state !! id);
      Done (registered session, state)
  | None =>
      if map_len (sessions state) =? MAX_SESSIONS
      then Done (session_rejected SessionCapacity None, state) else
      let result := success index None index in
      Done (result,
            state <| registrations := <[nonce := index]> (registrations state) |>
                  <| sessions := <[index := mkSession result None ∅]> (sessions state) |>)
  end.

Definition close (state : StateMachine) (id index : LogIndex) : Change SessionResult :=
  match sessions state !! id with
  | None => Done (session_rejected UnknownSession None, state)
  | Some session =>
      let result := default (success id None index) (closed session) in
      Done (result,
            state <| sessions := <[id := session <| closed := Some result |>]> (sessions state) |>)
  end.

(** The value a mutation leaves under its key. *)
Definition set_value (key : string) (value : option string) (m : gmap string string) : gmap string string :=
  match value with Some v => <[key := v]> m | None => delete key m end.

(** The sequence number a retained record expects next, or the answer it
    already determines. *)
Definition expected_sequence (previous : option KeyRecord) (sequence : N) (digest payload : list N) :
    N + SessionResult :=
  match previous with
  | None => inl 1
  | Some previous =>
      if sequence =? kr_sequence previous then
        inr (if (digest ==? kr_digest previous) && (payload ==? kr_payload previous)
             then kr_result previous else session_rejected PayloadMismatch None)
      else if sequence <? kr_sequence previous then inr (session_rejected StaleSequence None)
      else match checked_add (kr_sequence previous) 1 with
           | None => inr (session_rejected SequenceExhausted None)
           | Some next => inl next
           end
  end.

Definition mutate (state : StateMachine) (id : LogIndex) (key : string) (sequence : N)
    (value : option string) (index : LogIndex) : Change SessionResult :=
  let reject error expected := Done (session_rejected error expected, state) in
  if (str_len key =? 0) || (MAX_KEY_BYTES <? str_len key) then reject InvalidKey None else
  if is_some_and value (fun value => MAX_VALUE_BYTES <? str_len value)
  then reject ValueTooLarge None else
  match sessions state !! id with
  | None => reject UnknownSession None
  | Some session =>
      if is_some (closed session) then reject SessionClosed None else
      if sequence =? 0 then
        if is_some_and (session_keys session !! key) (fun record => kr_sequence record =? u64_max)
        then reject SequenceExhausted None
        else reject InvalidSequence (Some 1)
      else
      let payload := canonical_payload key value in
      let digest := sha256_digest payload in
      let previous := session_keys session !! key in
      match expected_sequence previous sequence digest payload with
      | inr result => Done (result, state)
      | inl expected =>
          if negb (sequence =? expected) then reject SequenceGap (Some expected) else
          if is_none previous
             && ((map_len (session_keys session) =? MAX_KEYS_PER_SESSION)
                 || (retained_keys state =? MAX_SESSION_KEYS))
          then reject KeyCapacity None else
          let previous_bytes := map_or previous 0 (fun record => len64 (kr_payload record)) in
          remaining ← or_panic (checked_sub (retained_payload_bytes state) previous_bytes);
          retained_bytes ← or_panic (checked_add remaining (len64 payload));
          if MAX_RETAINED_PAYLOAD_BYTES <? retained_bytes then reject PayloadCapacity None else
          let result := success id (Some sequence) index in
          let record := mkKeyRecord sequence digest payload result in
          Done (result,
                state <| retained_keys := if is_none previous then retained_keys state + 1
                                          else retained_keys state |>
                      <| retained_payload_bytes := retained_bytes |>
                      <| sessions := <[id := session <| session_keys :=
                                        <[key := record]> (session_keys session) |>]> (sessions state) |>
                      <| values := set_value key value (values state) |>)
      end
  end.

(** The match of [StateMachine::apply] on the command. *)
Definition apply_command (state : StateMachine) (entry : Entry) : Change ApplyOutcome :=
  let session (r : Change SessionResult) : Change ApplyOutcome :=
    '(result, state) ← r; Done (SessionReply result, state) in
  match e_command entry with
  | Put key value =>
      Done (AppliedAt (e_index entry), state <| values := <[key := value]> (values state) |>)
  | Delete key =>
      Done (AppliedAt (e_index entry), state <| values := delete key (values state) |>)
  | NoOp | Configuration _ => Done (AppliedAt (e_index entry), state)
  | RegisterSession nonce => session (register state nonce (e_index entry))
  | CloseSession session_id => session (close state session_id (e_index entry))
  | SessionPut session_id key sequence value =>
      session (mutate state session_id key sequence (Some value) (e_index entry))
  | SessionDelete session_id key sequence =>
      session (mutate state session_id key sequence None (e_index entry))
  end.

(** [StateMachine::apply] *)
Definition app_apply (state : StateMachine) (entry : Entry) : Change ApplyOutcome :=
  if negb (checked_add (last_applied state) 1 ==? Some (e_index entry))
  then Refused (mkApplyError (last_applied state) (e_index entry)) else
  '(outcome, state) ← apply_command state entry;
  Done (outcome, state <| last_applied := e_index entry |>).

(** ** Queries of the transport and the engine *)

(** [StateMachine::retained_counts] *)
Definition retained_counts (state : StateMachine) : N * N :=
  (retained_keys state, retained_payload_bytes state).
(** [StateMachine::registration_id] *)
Definition registration_id (state : StateMachine) (nonce : string) : option LogIndex :=
  registrations state !! nonce.
(** [StateMachine::session_header] *)
Definition session_header (state : StateMachine) (id : LogIndex) :
    option (SessionResult * option SessionResult) :=
  session ← sessions state !! id; Some (registered session, closed session).

Definition key_snapshot (key : string) (record : KeyRecord) : SessionKeySnapshot :=
  mkSessionKeySnapshot key (kr_sequence record) (kr_digest record) (kr_payload record)
    (kr_result record).
(** [StateMachine::session_key] *)
Definition session_key (state : StateMachine) (id : LogIndex) (key : string) :
    option SessionKeySnapshot :=
  session ← sessions state !! id;
  record ← session_keys session !! key;
  Some (key_snapshot key record).

(** ** Transactions *)

Inductive SessionUndo : Type :=
| Unchanged
| Registered (session_id : LogIndex)
| Closed (session_id : LogIndex) (previous : option SessionResult)
| Key (session_id : LogIndex) (key : string) (previous : option KeyRecord).

Record ApplicationUndo := mkApplicationUndo {
  un_last_applied : LogIndex;
  un_retained_keys : N;
  un_retained_payload_bytes : N;
  un_value : option (string * option string);
  un_registration : option (string * option LogIndex);
  un_session : SessionUndo;
}.

Definition undo_value (state : StateMachine) (key : string) : option (string * option string) :=
  Some (key, values state !! key).
Definition undo_key (state : StateMachine) (session_id : LogIndex) (key : string) : SessionUndo :=
  match sessions state !! session_id with
  | Some session => Key session_id key (session_keys session !! key)
  | None => Unchanged
  end.

(** [ApplicationUndo::capture] *)
Definition capture (state : StateMachine) (entry : Entry) : ApplicationUndo :=
  let undo := mkApplicationUndo (last_applied state) (retained_keys state)
                (retained_payload_bytes state) in
  match e_command entry with
  | Put key _ | Delete key => undo (undo_value state key) None Unchanged
  | RegisterSession nonce =>
      undo None (Some (nonce, registrations state !! nonce)) (Registered (e_index entry))
  | CloseSession session_id =>
      undo None None
        (match sessions state !! session_id with
         | Some session => Closed session_id (closed session)
         | None => Unchanged
         end)
  | SessionPut session_id key _ _ | SessionDelete session_id key _ =>
      undo (undo_value state key) None (undo_key state session_id key)
  | NoOp | Configuration _ => undo None None Unchanged
  end.

(** [restore_cell] *)
Definition restore_cell {K V} `{Countable K} (m : gmap K V) (key : K) (value : option V) : gmap K V :=
  match value with Some v => <[key := v]> m | None => delete key m end.

Definition restore_session (undo : SessionUndo) (sessions : gmap LogIndex Session) :
    option (gmap LogIndex Session) :=
  match undo with
  | Unchanged => Some sessions
  | Registered session_id => Some (delete session_id sessions)
  | Closed session_id previous =>
      session ← sessions !! session_id;
      Some (<[session_id := session <| closed := previous |>]> sessions)
  | Key session_id key previous =>
      session ← sessions !! session_id;
      Some (<[session_id := session <| session_keys :=
               restore_cell (session_keys session) key previous |>]> sessions)
  end.

(** [ApplicationUndo::restore]; [None] is its [expect]. *)
Definition restore (undo : ApplicationUndo) (state : StateMachine) : option StateMachine :=
  let values := match un_value undo with
                | Some (key, value) => restore_cell (values state) key value
                | None => values state
                end in
  let registrations := match un_registration undo with
                       | Some (nonce, id) => restore_cell (registrations state) nonce id
                       | None => registrations state
                       end in
  sessions ← restore_session (un_session undo) (sessions state);
  Some (mkStateMachine values registrations sessions (un_last_applied undo)
          (un_retained_keys undo) (un_retained_payload_bytes undo)).

(** The exclusive borrow of the state is the field [tx_state]; [tx_undo] is the
    stack of undo records, oldest first. *)
Record ApplicationTransaction := mkTransaction {
  tx_state : StateMachine;
  tx_undo : list ApplicationUndo;
  tx_committed : bool;
}.
#[export] Instance ApplicationTransaction_eta : Eta ApplicationTransaction := fun r =>
  mkTransaction (tx_state r) (tx_undo r) (tx_committed r).

(** [StateMachine::transaction] *)
Definition transaction (state : StateMachine) : ApplicationTransaction :=
  mkTransaction state [] false.

(** [ApplicationTransaction::undo_last] *)
Definition undo_last (tx : ApplicationTransaction) : option ApplicationTransaction :=
  undo ← list.last (tx_undo tx);
  state ← restore undo (tx_state tx);
  Some (mkTransaction state (removelast (tx_undo tx)) (tx_committed tx)).

(** [ApplicationTransaction::apply]: the result and the transaction after it. *)
Definition tx_apply (tx : ApplicationTransaction) (entry : Entry) :
    option (ApplyError + ApplyOutcome) * ApplicationTransaction :=
  if negb (checked_add (last_applied (tx_state tx)) 1 ==? Some (e_index entry))
  then (Some (inl (mkApplyError (last_applied (tx_state tx)) (e_index entry))), tx) else
  let tx := tx <| tx_undo := tx_undo tx ++ [capture (tx_state tx) entry] |> in
  match app_apply (tx_state tx) entry with
  | Done (outcome, state) => (Some (inr outcome), tx <| tx_state := state |>)
  | Refused error =>
      match undo_last tx with
      | Some tx => (Some (inl error), tx)
      | None => (None, tx)
      end
  | Panicked => (None, tx)
  end.

(** [ApplicationTransaction::commit] *)
Definition tx_commit (tx : ApplicationTransaction) : ApplicationTransaction :=
  tx <| tx_committed := true |>.

(** [undo.drain(..).rev()] *)
Fixpoint restore_all (undo : list ApplicationUndo) (state : StateMachine) : option StateMachine :=
  match undo with
  | [] => Some state
  | undo :: rest => state ← restore undo state; restore_all rest state
  end.
(** [Drop for ApplicationTransaction]: the state the borrow ends with. *)
Definition tx_drop (tx : ApplicationTransaction) : option StateMachine :=
  if tx_committed tx then Some (tx_state tx) else restore_all (reverse (tx_undo tx)) (tx_state tx).

(** ** Snapshots *)

Definition session_snapshot (state : StateMachine) (registration : string * LogIndex) :
    option SessionSnapshot :=
  session ← sessions state !! registration.2;
  Some (mkSessionSnapshot registration.1 registration.2 (registered session) (closed session)
          ((fun kr => key_snapshot kr.1 kr.2) <$> smap_iter (session_keys session))).

(** [StateMachine::export_snapshot]; [None] is the index of a missing session. *)
Definition export_snapshot (state : StateMachine) : option ApplicationSnapshot :=
  sessions ← mapM (session_snapshot state) (smap_iter (registrations state));
  Some (mkApplicationSnapshot 1 (last_applied state) (smap_iter (values state)) sessions
          (retained_keys state) (retained_payload_bytes state)).

(** The loop over the values of a snapshot. *)
Fixpoint import_values (cells : list (string * string)) (m : gmap string string) :
    Result (gmap string string) :=
  match cells with
  | [] => Ok m
  | (key, value) :: cells =>
      snapshot_require (negb (str_len key =? 0) && (str_len key <=? MAX_KEY_BYTES))
        "invalid snapshot value key";;
      snapshot_require (str_len value <=? MAX_VALUE_BYTES) "snapshot value exceeds byte limit";;
      snapshot_require (is_none (m !! key)) "duplicate snapshot value key";;
      import_values cells (<[key := value]> m)
  end.

(** What the loops over sessions and records carry: the state under
    construction and [operation_indices]. *)
Record Import := mkImport { im_state : StateMachine; im_indices : gset LogIndex }.

(** [operation_indices.insert(index)], required to be new. *)
Definition insert_index (index : LogIndex) (indices : gset LogIndex) : Result (gset LogIndex) :=
  snapshot_require (bool_decide (index ∉ indices)) "duplicate snapshot operation index";;
  Ok ({[index]} ∪ indices).

(** The tests of one retry record that do not depend on the others, and its
    index. *)
Definition check_record (id last_applied : LogIndex) (close_index : option LogIndex)
    (record : SessionKeySnapshot) : Result LogIndex :=
  snapshot_require (negb (str_len (sk_key record) =? 0) && (str_len (sk_key record) <=? MAX_KEY_BYTES))
    "invalid snapshot retry key";;
  snapshot_require (0 <? sk_sequence record) "snapshot retry sequence is zero";;
  value ← decode_payload (sk_key record) (sk_payload record);
  snapshot_require (canonical_payload (sk_key record) value ==? sk_payload record)
    "snapshot retry payload is not canonical";;
  snapshot_require (sha256_digest (sk_payload record) ==? sk_digest record)
    "snapshot payload digest mismatch";;
  index ← result_of (sr_index (sk_result record)) "retry result has no index";
  snapshot_require
    ((id <? index) && (index <=? last_applied) && (sk_sequence record <=? index - id)
     && match close_index with Some closed => index <? closed | None => true end
     && (sk_result record ==? success id (Some (sk_sequence record)) index))
    "retry result is inconsistent with its sequence or applied index";;
  Ok index.

(** The loop over the retry records of one session. *)
Fixpoint import_keys (id last_applied : LogIndex) (close_index : option LogIndex)
    (records : list SessionKeySnapshot) (im : Import) (keys : gmap string KeyRecord) :
    Result (Import * gmap string KeyRecord) :=
  match records with
  | [] => Ok (im, keys)
  | record :: records =>
      index ← check_record id last_applied close_index record;
      indices ← insert_index index (im_indices im);
      let retained := retained_keys (im_state im) + 1 in
      payload_bytes ←
        result_of (checked_add (retained_payload_bytes (im_state im)) (len64 (sk_payload record)))
          "snapshot payload byte counter overflow";
      snapshot_require
        ((retained <=? MAX_SESSION_KEYS) && (payload_bytes <=? MAX_RETAINED_PAYLOAD_BYTES))
        "snapshot retained retry state exceeds capacity";;
      snapshot_require (is_none (keys !! sk_key record)) "duplicate snapshot session key";;
      import_keys id last_applied close_index records
        (mkImport (im_state im <| retained_keys := retained |>
                               <| retained_payload_bytes := payload_bytes |>) indices)
        (<[sk_key record := mkKeyRecord (sk_sequence record) (sk_digest record)
                              (sk_payload record) (sk_result record)]> keys)
  end.

(** The closed result of one session. *)
Definition import_closed (id last_applied : LogIndex) (closed : option SessionResult)
    (indices : gset LogIndex) : Result (option LogIndex * gset LogIndex) :=
  match closed with
  | None => Ok (None, indices)
  | Some closed =>
      index ← result_of (sr_index closed) "closed result has no index";
      snapshot_require
        ((id <? index) && (index <=? last_applied) && (closed ==? success id None index))
        "invalid closed-session result";;
      indices ← insert_index index indices;
      Ok (Some index, indices)
  end.

(** One turn of the loop over sessions. *)
Definition import_session (saved : SessionSnapshot) (im : Import) : Result Import :=
  let id := ss_session_id saved in
  let applied := last_applied (im_state im) in
  snapshot_require (negb (nonce_invalid (ss_nonce saved))) "invalid snapshot registration nonce";;
  snapshot_require ((0 <? id) && (id <=? applied)) "invalid snapshot session identity";;
  snapshot_require (ss_registered saved ==? success id None id)
    "registration result does not match its identity";;
  indices ← insert_index id (im_indices im);
  snapshot_require (len64 (ss_keys saved) <=? MAX_KEYS_PER_SESSION)
    "snapshot exceeds per-session key capacity";;
  '(close_index, indices) ← import_closed id applied (ss_closed saved) indices;
  '(im, keys) ← import_keys id applied close_index (ss_keys saved) (mkImport (im_state im) indices) ∅;
  let state := im_state im in
  snapshot_require (is_none (registrations state !! ss_nonce saved))
    "duplicate snapshot registration nonce";;
  snapshot_require (is_none (sessions state !! id)) "duplicate snapshot session identity";;
  Ok (mkImport (state <| registrations := <[ss_nonce saved := id]> (registrations state) |>
                      <| sessions := <[id := mkSession (ss_registered saved) (ss_closed saved) keys]>
                                       (sessions state) |>)
        (im_indices im)).

Fixpoint import_sessions (saved : list SessionSnapshot) (im : Import) : Result Import :=
  match saved with
  | [] => Ok im
  | s :: saved => im ← import_session s im; import_sessions saved im
  end.

(** [StateMachine::import_snapshot] *)
Definition import_snapshot (snapshot : ApplicationSnapshot) (expected_last_applied : LogIndex) :
    Result StateMachine :=
  snapshot_require (as_schema_version snapshot =? 1) "unsupported application snapshot version";;
  snapshot_require (as_last_applied snapshot =? expected_last_applied)
    "application/Raft snapshot index mismatch";;
  snapshot_require (len64 (as_sessions snapshot) <=? MAX_SESSIONS)
    "snapshot exceeds retained session capacity";;
  snapshot_require (as_retained_keys snapshot <=? MAX_SESSION_KEYS)
    "snapshot key counter exceeds capacity";;
  snapshot_require (as_retained_payload_bytes snapshot <=? MAX_RETAINED_PAYLOAD_BYTES)
    "snapshot payload counter exceeds capacity";;
  snapshot_require ((0 <? as_last_applied snapshot)
                    || (bool_decide (as_values snapshot = []) && bool_decide (as_sessions snapshot = [])))
    "zero-index snapshot contains application state";;
  cells ← import_values (as_values snapshot) ∅;
  let state := app_default <| last_applied := as_last_applied snapshot |> <| values := cells |> in
  im ← import_sessions (as_sessions snapshot) (mkImport state ∅);
  let state := im_state im in
  snapshot_require (retained_keys state =? as_retained_keys snapshot)
    "snapshot retained-key counter mismatch";;
  snapshot_require (retained_payload_bytes state =? as_retained_payload_bytes snapshot)
    "snapshot retained-payload byte counter mismatch";;
  Ok state.
End application.
