(* ===== verification/ApplicationFacts.v ===== *)
(** * The application state: payloads, invariant and snapshot validation

    What [import_snapshot] checks is the invariant of the state machine: every
    snapshot it accepts rebuilds a valid state, and every valid state survives
    export and import. *)
From S2P Require Import Prelude Quorum Membership Types Application.
Local Open Scope N_scope.
Local Open Scope raft_scope.

Lemma elem_of_option_list {A} (o : option A) x : x ∈ option_list o <-> o = Some x.
Proof. destruct o; cbn; [rewrite list_elem_of_singleton|]; set_solver. Qed.

(** ** Strings and bytes *)

Lemma bytes_count s : length (bytes s) = String.length s.
Proof. unfold bytes. rewrite length_map. induction s as [|a s IH]; [done|]. exact (f_equal S IH). Qed.
Lemma bytes_len s : len64 (bytes s) = str_len s.
Proof. unfold len64, str_len. by rewrite bytes_count. Qed.
Lemma of_bytes_bytes s : of_bytes (bytes s) = s.
Proof.
  unfold of_bytes, bytes. rewrite map_map.
  rewrite (map_ext _ id) by apply Ascii.ascii_N_embedding.
  rewrite map_id. apply String.string_of_list_ascii_of_string.
Qed.
Lemma bytes_of_bytes bs : Forall (fun b => b < 256) bs -> bytes (of_bytes bs) = bs.
Proof.
  intros HF. unfold of_bytes, bytes. rewrite String.list_ascii_of_string_of_list_ascii, map_map.
  induction HF as [|b bs Hb HF IH]; [done|]. cbn [map]. rewrite IH. f_equal.
  by apply Ascii.N_ascii_embedding.
Qed.
Lemma bytes_inj s t : bytes s = bytes t -> s = t.
Proof. intros E. rewrite <- (of_bytes_bytes s), <- (of_bytes_bytes t). by rewrite E. Qed.

Lemma utf8_bytes n bs : (length bs <= n)%nat -> utf8_valid bs = true -> Forall (fun b => b < 256) bs.
Proof.
  revert bs. induction n as [|n IH]; intros [|b bs] Hn; try done; try (cbn in Hn; lia); intros Hv.
  cbn [utf8_valid length] in *. unfold between, continuation in Hv.
  repeat (case_match; try discriminate); bool_inv; repeat (constructor; [lia|]);
    first [apply IH; cbn [length] in *; [lia|done] | lia].
Qed.
Lemma from_utf8_Some bs s : from_utf8 bs = Some s <-> utf8_valid bs = true /\ bytes s = bs.
Proof.
  unfold from_utf8. split.
  - destruct (utf8_valid bs) eqn:E; [|done]. intros [= <-]. split; [done|].
    apply bytes_of_bytes. by eapply utf8_bytes.
  - intros [-> <-]. by rewrite of_bytes_bytes.
Qed.

(** The invariant of the Rust type [String]. *)
Definition Utf8 (s : string) : Prop := utf8_valid (bytes s) = true.
Lemma from_utf8_bytes s : Utf8 s -> from_utf8 (bytes s) = Some s.
Proof. intros Hs. by apply from_utf8_Some. Qed.

(** ** Retry payloads *)

Definition value_ok (value : option string) : Prop :=
  forall v, value = Some v -> str_len v <= MAX_VALUE_BYTES /\ Utf8 v.
Definition key_ok (key : string) : Prop := 0 < str_len key <= MAX_KEY_BYTES.

Lemma key_ok_bool key :
  negb (str_len key =? 0) && (str_len key <=? MAX_KEY_BYTES) = true <-> key_ok key.
Proof. unfold key_ok. rewrite andb_true_iff, negb_true_iff, N.eqb_neq, N.leb_le. lia. Qed.

Lemma split_at_app {A} n (l1 l2 : list A) : len64 l1 = n -> split_at n (l1 ++ l2) = Some (l1, l2).
Proof.
  unfold split_at, len64. intros <-. rewrite length_app, (proj2 (N.leb_le _ _)) by lia.
  rewrite Nat2N.id, take_app_length, drop_app_length. done.
Qed.
Lemma split_at_Some {A} n (l l1 l2 : list A) : split_at n l = Some (l1, l2) -> l = l1 ++ l2 /\ len64 l1 = n.
Proof.
  unfold split_at, len64. destruct (N.leb_spec n (N.of_nat (length l))); [|done]. intros [= <- <-].
  rewrite take_drop. split; [done|]. rewrite length_take. lia.
Qed.
Lemma strip_prefix_app p l : strip_prefix p (p ++ l) = Some l.
Proof. unfold strip_prefix. rewrite take_app_length, drop_app_length. by rewrite (proj2 (eqb_true _ _) eq_refl). Qed.

Lemma payload_field_app field tail maximum :
  len64 field <= maximum -> maximum <= u64_max ->
  payload_field (to_be_bytes 8 (len64 field) ++ field ++ tail) maximum = Ok (field, tail).
Proof.
  intros Hf Hm. unfold payload_field. rewrite split_at_app by (unfold len64; by rewrite to_be_bytes_length).
  cbn [result_of mbind Result_bind]. rewrite from_to_be_bytes8 by lia.
  rewrite (proj2 (N.ltb_ge _ _)) by done. by rewrite split_at_app.
Qed.

Lemma limits_fit : MAX_KEY_BYTES <= u64_max /\ MAX_VALUE_BYTES <= u64_max
  /\ MAX_RETAINED_PAYLOAD_BYTES <= u64_max.
Proof. repeat split; vm_compute; discriminate. Qed.

Lemma decode_canonical key value :
  key_ok key -> value_ok value -> decode_payload key (canonical_payload key value) = Ok value.
Proof.
  pose proof limits_fit as (? & ? & ?). intros [_ Hk] Hv. unfold decode_payload, canonical_payload.
  rewrite strip_prefix_app. cbn [result_of mbind Result_bind app].
  rewrite <- (bytes_len key), payload_field_app by (rewrite ?bytes_len; done).
  cbn [mbind Result_bind]. rewrite (proj2 (eqb_true _ _) eq_refl).
  cbn [snapshot_require mbind Result_bind].
  destruct value as [v|]; [|done]. destruct (Hv v eq_refl) as [Hl Hu]. cbn [is_some N.eqb Pos.eqb].
  rewrite <- (bytes_len v). rewrite <- (app_nil_r (bytes v)) at 2.
  rewrite payload_field_app by (rewrite ?bytes_len; done).
  cbn [mbind Result_bind]. by rewrite (from_utf8_bytes v Hu).
Qed.

Lemma payload_field_inv tail maximum field rest :
  payload_field tail maximum = Ok (field, rest) -> len64 field <= maximum.
Proof.
  unfold payload_field. intros E. apply Result_bind_Ok in E as ([header r] & _ & E).
  destruct (N.ltb_spec maximum (from_be_bytes header)) as [|Hm]; [done|].
  destruct (split_at _ r) as [[f t]|] eqn:Hs; [|done]. injection E as -> ->.
  apply split_at_Some in Hs as [_ ->]. done.
Qed.

Lemma decode_payload_value key payload value : decode_payload key payload = Ok value -> value_ok value.
Proof.
  unfold decode_payload. intros E. apply Result_bind_Ok in E as (tail & _ & E).
  destruct tail as [|tag tail]; [done|].
  apply Result_bind_Ok in E as ([field rest] & _ & E). apply Result_bind_Ok in E as (_ & _ & E).
  apply Result_bind_Ok in E as ([v rest'] & Hv & E). apply Result_bind_Ok in E as (_ & _ & [= <-]).
  destruct (tag =? 0); [injection Hv as <- <-; done|]. destruct (tag =? 1); [|done].
  apply Result_bind_Ok in Hv as ([f t] & Hf & Hv). apply Result_bind_Ok in Hv as (s & Hs & [= <- <-]).
  apply payload_field_inv in Hf. destruct (from_utf8 f) as [s'|] eqn:Hu; [|done]. injection Hs as ->.
  apply from_utf8_Some in Hu as [Hu <-]. intros v [= <-]. rewrite bytes_len in Hf. done.
Qed.

Lemma canonical_payload_inj key v w :
  key_ok key -> value_ok v -> value_ok w -> canonical_payload key v = canonical_payload key w -> v = w.
Proof.
  intros Hk Hv Hw E. pose proof (decode_canonical key v Hk Hv) as Dv.
  rewrite E, (decode_canonical key w Hk Hw) in Dv. by injection Dv.
Qed.

#[global] Arguments canonical_payload : simpl never.
#[global] Arguments decode_payload : simpl never.
#[global] Arguments nonce_invalid : simpl never.

(** ** The invariant of a session *)

Section facts.
Context `{Sha256}.

Record record_ok (id applied : LogIndex) (close_index : option LogIndex) (key : string)
    (record : KeyRecord) : Prop := {
  ro_key : key_ok key;
  ro_sequence : 0 < kr_sequence record;
  ro_payload : exists value, value_ok value /\ kr_payload record = canonical_payload key value;
  ro_digest : kr_digest record = sha256_digest (kr_payload record);
  ro_index : exists index, kr_result record = success id (Some (kr_sequence record)) index
    /\ id < index /\ index <= applied /\ kr_sequence record <= index - id
    /\ forall closed, close_index = Some closed -> index < closed;
}.

Definition close_index (session : Session) : option LogIndex := result ← closed session; sr_index result.

Record session_ok (id applied : LogIndex) (session : Session) : Prop := {
  so_id : 0 < id <= applied;
  so_registered : registered session = success id None id;
  so_closed : forall result, closed session = Some result ->
    exists index, result = success id None index /\ id < index <= applied;
  so_keys : map_len (session_keys session) <= MAX_KEYS_PER_SESSION;
  so_records : forall key record, session_keys session !! key = Some record ->
    record_ok id applied (close_index session) key record;
}.

(** ** One retry record of a snapshot *)

Definition record_of (r : SessionKeySnapshot) : KeyRecord :=
  mkKeyRecord (sk_sequence r) (sk_digest r) (sk_payload r) (sk_result r).
Definition record_index (r : SessionKeySnapshot) : LogIndex := default 0 (sr_index (sk_result r)).

Lemma require_bind {A} c m (f : unit -> Result A) x :
  snapshot_require c m ≫= f = Ok x <-> c = true /\ f tt = Ok x.
Proof. destruct c; cbn; naive_solver. Qed.
Lemma result_of_bind {A B} (o : option A) m (f : A -> Result B) x :
  result_of o m ≫= f = Ok x <-> exists a, o = Some a /\ f a = Ok x.
Proof. destruct o; cbn; naive_solver. Qed.
Lemma insert_index_bind {A} i s (f : gset LogIndex -> Result A) x :
  insert_index i s ≫= f = Ok x <-> i ∉ s /\ f ({[i]} ∪ s) = Ok x.
Proof. unfold insert_index. case_bool_decide; cbn; naive_solver. Qed.

Lemma index_conditions id applied close_index index sequence (result : SessionResult) :
  (id <? index) && (index <=? applied) && (sequence <=? index - id)
    && match close_index with Some closed => index <? closed | None => true end
    && (result ==? success id (Some sequence) index) = true
  <-> result = success id (Some sequence) index /\ id < index /\ index <= applied
      /\ sequence <= index - id /\ forall closed, close_index = Some closed -> index < closed.
Proof.
  rewrite !andb_true_iff, eqb_true, N.ltb_lt, !N.leb_le.
  destruct close_index as [c|]; [rewrite N.ltb_lt|]; naive_solver.
Qed.

Lemma check_record_spec id applied close_index r index :
  check_record id applied close_index r = Ok index
  <-> record_ok id applied close_index (sk_key r) (record_of r) /\ index = record_index r.
Proof.
  unfold check_record, record_index. rewrite !require_bind, key_ok_bool, N.ltb_lt. split.
  - intros (Hk & Hs & E). apply Result_bind_Ok in E as (v & Hd & E).
    rewrite !require_bind, !eqb_true in E. destruct E as (Hp & Hh & E).
    rewrite result_of_bind in E. destruct E as (i & Hi & E). rewrite require_bind, index_conditions in E.
    destruct E as [E [= <-]]. rewrite Hi. split; [|done]. split; cbn; eauto using decode_payload_value.
  - intros [[Hk Hs (v & Hv & Hp) Hh (i & Hr & ? & ? & ? & Hc)] ->]. cbn in *. split; [done|]. split; [done|].
    rewrite Hp, (decode_canonical _ _ Hk Hv). cbn [mbind Result_bind].
    rewrite !require_bind, !eqb_true. split; [done|]. split; [by rewrite Hh, Hp|].
    rewrite Hr. cbn [success sr_index default]. rewrite result_of_bind. exists i. split; [done|].
    apply require_bind. rewrite index_conditions. done.
Qed.

(** ** All records of a session *)

Definition payload_total (records : list SessionKeySnapshot) : N :=
  foldr N.add 0 ((fun r => len64 (sk_payload r)) <$> records).
Definition key_map (records : list SessionKeySnapshot) : gmap string KeyRecord :=
  list_to_map ((fun r => (sk_key r, record_of r)) <$> records).
(** The counters and the indices after importing records. *)
Definition add_records (records : list SessionKeySnapshot) (im : Import) : Import :=
  mkImport (im_state im <| retained_keys := retained_keys (im_state im) + len64 records |>
              <| retained_payload_bytes := retained_payload_bytes (im_state im) + payload_total records |>)
    (list_to_set (record_index <$> records) ∪ im_indices im).
Definition fits (s : StateMachine) : Prop :=
  retained_keys s <= MAX_SESSION_KEYS /\ retained_payload_bytes s <= MAX_RETAINED_PAYLOAD_BYTES.

Lemma key_map_None records k : key_map records !! k = None <-> k ∉ sk_key <$> records.
Proof. unfold key_map. rewrite <- not_elem_of_list_to_map, <- list_fmap_compose. done. Qed.

Lemma key_map_cons r records (keys : gmap string KeyRecord) :
  sk_key r ∉ sk_key <$> records ->
  key_map (r :: records) ∪ keys = key_map records ∪ <[sk_key r := record_of r]> keys.
Proof.
  intros Hn. change (key_map (r :: records)) with (<[sk_key r := record_of r]> (key_map records)).
  rewrite <- insert_union_l. apply insert_union_r. by apply key_map_None.
Qed.

Lemma add_records_nil im : add_records [] im = im.
Proof.
  destruct im as [[] indices]. unfold add_records, payload_total, upd. cbn.
  by rewrite !N.add_0_r, (left_id_L ∅ (∪)).
Qed.
Lemma key_map_nil (keys : gmap string KeyRecord) : key_map [] ∪ keys = keys.
Proof. apply (left_id_L ∅ (∪)). Qed.
Lemma add_records_cons r records im :
  add_records (r :: records) im
  = add_records records
      (mkImport (im_state im <| retained_keys := retained_keys (im_state im) + 1 |>
                   <| retained_payload_bytes := retained_payload_bytes (im_state im) + len64 (sk_payload r) |>)
         ({[record_index r]} ∪ im_indices im)).
Proof.
  destruct im as [s indices]. unfold add_records, payload_total, upd.
  cbn [im_state im_indices retained_keys retained_payload_bytes fmap list_fmap foldr list_to_set]. f_equal.
  - unfold len64. cbn [length]. f_equal; lia.
  - set_solver.
Qed.

Lemma import_keys_spec id applied close_index records im keys im' keys' :
  fits (im_state im) ->
  import_keys id applied close_index records im keys = Ok (im', keys')
  <-> Forall (fun r => record_ok id applied close_index (sk_key r) (record_of r)) records
      /\ NoDup (record_index <$> records)
      /\ (forall i, i ∈ record_index <$> records -> i ∉ im_indices im)
      /\ NoDup (sk_key <$> records)
      /\ (forall k, k ∈ sk_key <$> records -> keys !! k = None)
      /\ fits (im_state (add_records records im))
      /\ im' = add_records records im /\ keys' = key_map records ∪ keys.
Proof.
  revert im keys im' keys'. induction records as [|r records IH]; intros im keys im' keys' Hfit; cbn [import_keys].
  - rewrite add_records_nil, key_map_nil, !fmap_nil. split.
    + intros [= <- <-]. repeat split; try (constructor || set_solver); apply Hfit.
    + by intros (_ & _ & _ & _ & _ & _ & -> & ->).
  - rewrite !fmap_cons, !list.NoDup_cons, list.Forall_cons. split.
    + intros E. apply Result_bind_Ok in E as (index & Hc & E). apply check_record_spec in Hc as [Hc ->].
      rewrite insert_index_bind, result_of_bind in E. destruct E as (Hi & total & Ht & E).
      apply checked_add_Some in Ht as [-> _]. rewrite !require_bind in E. destruct E as (Hcap & Hk & E).
      rewrite andb_true_iff, !N.leb_le in Hcap.
      apply IH in E as (Hr & Hn & Hd & Hnk & Hdk & Hf & -> & ->); [|done]. cbn [im_state im_indices] in *.
      rewrite add_records_cons. destruct (keys !! sk_key r) eqn:Hkr; [done|].
      split; [done|]. split; [split; [|done]; intros Hin; by apply Hd in Hin; set_solver|].
      split; [intros i Hin; apply elem_of_cons in Hin as [->|Hin]; [done|]; apply Hd in Hin; set_solver|].
      assert (Hkn : sk_key r ∉ sk_key <$> records).
      { intros Hin. apply Hdk in Hin. by rewrite lookup_insert_eq in Hin. }
      split; [done|]. split; [|split; [done|split; [done|]]].
      * intros k Hin. apply elem_of_cons in Hin as [->|Hin]; [done|].
        pose proof (Hdk k Hin) as Hl. rewrite lookup_insert_ne in Hl; [done|]. intros <-; done.
      * symmetry. by apply key_map_cons.
    + intros ([Hr HF] & [Hnr Hn] & Hd & [Hkn Hnk] & Hdk & Hf & -> & ->).
      rewrite add_records_cons in Hf |- *.
      assert (Hcap : retained_keys (im_state im) + 1 <= MAX_SESSION_KEYS
        /\ retained_payload_bytes (im_state im) + len64 (sk_payload r) <= MAX_RETAINED_PAYLOAD_BYTES).
      { unfold fits, add_records in Hf. cbn in Hf. lia. }
      rewrite (proj2 (check_record_spec _ _ _ _ _) (conj Hr eq_refl)). cbn [mbind Result_bind].
      rewrite insert_index_bind, result_of_bind. split; [apply Hd; by left|].
      eexists. split; [apply checked_add_Some; split; [done|]; pose proof limits_fit; lia|].
      rewrite !require_bind, andb_true_iff, !N.leb_le. split; [done|].
      rewrite (Hdk (sk_key r)) by (by left). split; [done|].
      apply IH; [done|]. cbn [im_state im_indices].
      split; [done|]. split; [done|].
      split; [intros i Hin Hs; apply elem_of_union in Hs as [Hs|Hs];
        [apply elem_of_singleton in Hs as ->; done|by apply (Hd i); [right|]]|].
      split; [done|].
      split; [intros k Hin; rewrite lookup_insert_ne by (by intros <-); apply Hdk; by right|].
      split; [done|]. split; [done|].
      by apply key_map_cons.
Qed.

(** ** One session of a snapshot *)

Definition saved_session (saved : SessionSnapshot) : Session :=
  mkSession (ss_registered saved) (ss_closed saved) (key_map (ss_keys saved)).
Definition saved_indices (saved : SessionSnapshot) : list LogIndex :=
  ss_session_id saved :: option_list (close_index (saved_session saved))
  ++ (record_index <$> ss_keys saved).
Record saved_ok (applied : LogIndex) (saved : SessionSnapshot) : Prop := {
  sv_nonce : nonce_invalid (ss_nonce saved) = false;
  sv_session : session_ok (ss_session_id saved) applied (saved_session saved);
  sv_keys : NoDup (sk_key <$> ss_keys saved);
  sv_indices : NoDup (saved_indices saved);
}.

Lemma key_map_perm records :
  NoDup (sk_key <$> records) ->
  map_to_list (key_map records) ≡ₚ (fun r => (sk_key r, record_of r)) <$> records.
Proof. intros Hn. apply map_to_list_to_map. by rewrite <- list_fmap_compose. Qed.
Lemma key_map_len records : NoDup (sk_key <$> records) -> map_len (key_map records) = len64 records.
Proof.
  intros Hn. unfold map_len, len64. rewrite <- length_map_to_list, (key_map_perm records Hn).
  by rewrite length_fmap.
Qed.
Lemma key_map_Some records k record :
  NoDup (sk_key <$> records) ->
  key_map records !! k = Some record <-> exists r, r ∈ records /\ sk_key r = k /\ record_of r = record.
Proof.
  intros Hn. rewrite <- elem_of_map_to_list, (key_map_perm records Hn), list_elem_of_fmap.
  naive_solver.
Qed.
Lemma key_map_forall (P : string -> KeyRecord -> Prop) records :
  NoDup (sk_key <$> records) ->
  (forall key record, key_map records !! key = Some record -> P key record)
  <-> Forall (fun r => P (sk_key r) (record_of r)) records.
Proof.
  intros Hn. rewrite list.Forall_forall. setoid_rewrite key_map_Some; [|done]. naive_solver.
Qed.

Definition add_session (saved : SessionSnapshot) (im : Import) : Import :=
  let im := add_records (ss_keys saved)
              (mkImport (im_state im)
                 (list_to_set (option_list (close_index (saved_session saved)))
                  ∪ ({[ss_session_id saved]} ∪ im_indices im))) in
  let state := im_state im in
  mkImport (state <| registrations := <[ss_nonce saved := ss_session_id saved]> (registrations state) |>
                  <| sessions := <[ss_session_id saved := saved_session saved]> (sessions state) |>)
    (im_indices im).

Lemma import_closed_spec id applied closed indices c indices' :
  import_closed id applied closed indices = Ok (c, indices')
  <-> (forall result, closed = Some result ->
        exists index, result = success id None index /\ id < index <= applied /\ index ∉ indices)
      /\ c = (result ← closed; sr_index result) /\ indices' = list_to_set (option_list c) ∪ indices.
Proof.
  destruct closed as [result|]; cbn [import_closed mbind option_bind].
  - rewrite result_of_bind. setoid_rewrite require_bind.
    setoid_rewrite insert_index_bind.
    split.
    + intros (i & Hi & Hc & Hn & [= <- <-]). rewrite !andb_true_iff, eqb_true, N.ltb_lt, N.leb_le in Hc.
      destruct Hc as [[? ?] ->]. rewrite Hi. cbn [option_list list_to_set]. split; [|set_solver].
      intros ? [= <-]. by exists i.
    + intros (Hc & -> & ->). destruct (Hc result eq_refl) as (i & -> & [? ?] & ?). exists i.
      rewrite !andb_true_iff, eqb_true, N.ltb_lt, N.leb_le. cbn [success sr_index option_list list_to_set].
      split; [done|]. split; [done|]. split; [done|]. f_equal. f_equal. set_solver.
  - assert (Hs : list_to_set (option_list (None : option LogIndex)) ∪ indices = indices) by set_solver.
    split; [intros [= <- <-]|intros (_ & -> & ->)]; by rewrite Hs.
Qed.

Lemma import_session_spec saved im im' :
  fits (im_state im) ->
  import_session saved im = Ok im'
  <-> saved_ok (last_applied (im_state im)) saved
      /\ (forall i, i ∈ saved_indices saved -> i ∉ im_indices im)
      /\ registrations (im_state im) !! ss_nonce saved = None
      /\ sessions (im_state im) !! ss_session_id saved = None
      /\ fits (im_state (add_session saved im)) /\ im' = add_session saved im.
Proof.
  intros Hfit. unfold import_session. cbv zeta.
  rewrite !require_bind, insert_index_bind, require_bind, negb_true_iff, andb_true_iff, N.ltb_lt, !N.leb_le,
    eqb_true.
  set (c := close_index (saved_session saved)).
  set (im1 := mkImport (im_state im) (list_to_set (option_list c) ∪ ({[ss_session_id saved]} ∪ im_indices im))).
  split.
  - intros (Hnonce & Hid & Hreg & Hn & Hlen & E).
    apply Result_bind_Ok in E as ([c' indices] & Hc & E). apply import_closed_spec in Hc as (Hc & -> & ->).
    fold (close_index (saved_session saved)) in E. fold c in E.
    apply Result_bind_Ok in E as ([im2 keys] & Hk & E). fold c im1 in Hk.
    apply (import_keys_spec _ _ _ _ im1) in Hk as (HF & Hnd & Hd & Hndk & _ & Hf & -> & ->); [|done].
    rewrite (right_id_L ∅ (∪)), !require_bind in E. destruct E as (Hr & Hs & [= <-]).
    assert (Hok : saved_ok (last_applied (im_state im)) saved).
    { split; [done| |done|].
      - split; cbn [saved_session session_keys]; [done|done| |by rewrite key_map_len|by apply key_map_forall].
        intros result Hres. destruct (Hc result Hres) as (i & ? & ? & ?). eauto.
      - unfold saved_indices. fold c. apply list.NoDup_cons. split.
        + intros Hin. apply elem_of_app in Hin as [Hin|Hin].
          * apply elem_of_option_list in Hin. unfold c, close_index in Hin. cbn in Hin.
            destruct (ss_closed saved) as [res|] eqn:Hcl; [|done]. destruct (Hc res eq_refl) as (i & -> & ? & ?).
            injection Hin as ->. lia.
          * apply Hd in Hin. cbn in Hin. set_solver.
        + apply list.NoDup_app. split; [destruct c; cbn; [apply NoDup_singleton|constructor]|].
          split; [|done]. intros i Hi Hin. apply Hd in Hin. cbn in Hin. set_solver. }
    split; [done|]. split.
    { intros i Hin. unfold saved_indices in Hin. fold c in Hin. apply elem_of_cons in Hin as [->|Hin]; [done|].
      apply elem_of_app in Hin as [Hin|Hin]; [|apply Hd in Hin; cbn in Hin; set_solver].
      apply elem_of_option_list in Hin. unfold c, close_index in Hin. cbn in Hin.
      destruct (ss_closed saved) as [res|] eqn:Hcl; [|done]. destruct (Hc res eq_refl) as (j & -> & ? & ?).
      injection Hin as ->. set_solver. }
    cbn in Hr, Hs. destruct (registrations (im_state im) !! ss_nonce saved); [done|].
    destruct (sessions (im_state im) !! ss_session_id saved); [done|]. done.
  - intros ([Hnonce Hso Hnk Hni] & Hd & Hr & Hs & Hf & ->).
    destruct Hso as [Hid Hreg Hcl Hlen Hrec]. cbn [saved_session registered session_keys closed] in *. rewrite key_map_len in Hlen by done.
    apply key_map_forall in Hrec; [|done]. unfold saved_indices in Hni, Hd. fold c in Hni, Hd.
    apply list.NoDup_cons in Hni as [Hn1 Hni]. apply list.NoDup_app in Hni as (_ & Hn2 & Hn3).
    split; [done|]. split; [done|]. split; [done|]. split; [apply Hd; by left|]. split; [done|].
    rewrite (proj2 (import_closed_spec _ _ _ _ c (im_indices im1))).
    + cbn [mbind Result_bind]. change (im_state im) with (im_state im1).
      replace (mkImport (im_state im1) (im_indices im1)) with im1 by done.
      rewrite (proj2 (import_keys_spec _ _ _ _ im1 ∅ (add_records (ss_keys saved) im1) (key_map (ss_keys saved)) Hfit)).
      * cbn [mbind Result_bind]. cbv zeta. rewrite !require_bind.
        change (registrations (im_state (add_records (ss_keys saved) im1))) with (registrations (im_state im)).
        change (sessions (im_state (add_records (ss_keys saved) im1))) with (sessions (im_state im)).
        rewrite Hr, Hs. done.
      * rewrite (right_id_L ∅ (∪)). split; [done|]. split; [done|]. split.
        { intros i Hin Hi. cbn in Hi. rewrite !elem_of_union, elem_of_list_to_set, elem_of_singleton in Hi.
          destruct Hi as [Hi|[->|Hi]].
          - by apply (Hn2 i).
          - apply Hn1. apply elem_of_app. by right.
          - apply (Hd i); [|done]. right. apply elem_of_app. by right. }
        split; [done|]. split; [done|]. split; [|done]. exact Hf.
    + split; [|done]. intros result Hres. destruct (Hcl result Hres) as (i & Hi & ?). exists i.
      split; [done|]. split; [done|].
      assert (Hc : c = Some i). { unfold c, close_index. cbn. rewrite Hres. cbn. by rewrite Hi. }
      rewrite Hc in *. intros Hin. apply elem_of_union in Hin as [Hin|Hin].
      * apply elem_of_singleton in Hin as ->. apply Hn1. by left.
      * apply (Hd i); [|done]. right. by left.
Qed.
(** ** The whole snapshot *)

Definition registration_of (saved : SessionSnapshot) : string * LogIndex :=
  (ss_nonce saved, ss_session_id saved).
Definition session_of (saved : SessionSnapshot) : LogIndex * Session :=
  (ss_session_id saved, saved_session saved).
(** A sum over a list. *)
Definition total {A} (f : A -> N) (l : list A) : N := foldr N.add 0 (f <$> l).
Definition saved_keys (saved : SessionSnapshot) : N := len64 (ss_keys saved).
Definition saved_bytes (saved : SessionSnapshot) : N := payload_total (ss_keys saved).
Definition all_indices (saved : list SessionSnapshot) : list LogIndex := saved ≫= saved_indices.

Definition add_sessions (saved : list SessionSnapshot) (im : Import) : Import :=
  let state := im_state im in
  mkImport
    (mkStateMachine (values state) (list_to_map (registration_of <$> saved) ∪ registrations state)
       (list_to_map (session_of <$> saved) ∪ sessions state) (last_applied state)
       (retained_keys state + total saved_keys saved)
       (retained_payload_bytes state + total saved_bytes saved))
    (list_to_set (all_indices saved) ∪ im_indices im).

Lemma add_sessions_nil im : add_sessions [] im = im.
Proof.
  destruct im as [[v r s l k b] indices]. unfold add_sessions, total, all_indices. cbn.
  rewrite !N.add_0_r. f_equal; [f_equal; apply (left_id_L ∅ (∪))|set_solver].
Qed.
Lemma add_sessions_cons saved rest im :
  ss_nonce saved ∉ ss_nonce <$> rest -> ss_session_id saved ∉ ss_session_id <$> rest ->
  add_sessions rest (add_session saved im) = add_sessions (saved :: rest) im.
Proof.
  intros Hn Hi. unfold add_sessions, add_session, upd, total, all_indices.
  cbn [im_state im_indices values registrations sessions last_applied retained_keys
       retained_payload_bytes add_records upd fmap list_fmap foldr mbind list_bind]. f_equal.
  - f_equal.
    + rewrite <- insert_union_r; [by rewrite insert_union_l|].
      apply not_elem_of_list_to_map. by rewrite <- list_fmap_compose.
    + rewrite <- insert_union_r; [by rewrite insert_union_l|].
      apply not_elem_of_list_to_map. by rewrite <- list_fmap_compose.
    + unfold saved_keys. cbn. lia.
    + unfold saved_bytes. cbn. lia.
  - unfold saved_indices. cbn [app list_to_set]. rewrite !list_to_set_app_L. set_solver.
Qed.

Lemma add_session_fits saved im : fits (im_state (add_session saved im)) -> fits (im_state im).
Proof. unfold fits, add_session. cbn. lia. Qed.
Lemma add_sessions_fits saved im : fits (im_state (add_sessions saved im)) -> fits (im_state im).
Proof. unfold fits, add_sessions. cbn. lia. Qed.
Lemma id_index saved l : saved ∈ l -> ss_session_id saved ∈ all_indices l.
Proof. intros Hin. apply list_elem_of_bind. exists saved. split; [by left|done]. Qed.
Lemma ids_indices l i : i ∈ ss_session_id <$> l -> i ∈ all_indices l.
Proof. intros (s & -> & Hs)%list_elem_of_fmap. by apply id_index. Qed.

Lemma import_sessions_spec saved im im' :
  fits (im_state im) ->
  import_sessions saved im = Ok im'
  <-> Forall (saved_ok (last_applied (im_state im))) saved
      /\ NoDup (all_indices saved)
      /\ (forall i, i ∈ all_indices saved -> i ∉ im_indices im)
      /\ NoDup (ss_nonce <$> saved)
      /\ (forall n, n ∈ ss_nonce <$> saved -> registrations (im_state im) !! n = None)
      /\ (forall id, id ∈ ss_session_id <$> saved -> sessions (im_state im) !! id = None)
      /\ fits (im_state (add_sessions saved im)) /\ im' = add_sessions saved im.
Proof.
  revert im im'. induction saved as [|s saved IH]; intros im im' Hfit; cbn [import_sessions].
  - rewrite add_sessions_nil, !fmap_nil. unfold all_indices. cbn [mbind list_bind]. split.
    + intros [= <-]. repeat split; try (constructor || set_solver); apply Hfit.
    + by intros (_ & _ & _ & _ & _ & _ & _ & ->).
  - rewrite !fmap_cons, !list.NoDup_cons, list.Forall_cons.
    change (all_indices (s :: saved)) with (saved_indices s ++ all_indices saved).
    rewrite list.NoDup_app. setoid_rewrite (elem_of_app (saved_indices s)).
    setoid_rewrite (elem_of_cons (ss_nonce <$> saved)). setoid_rewrite (elem_of_cons (ss_session_id <$> saved)). split.
    + intros E. apply Result_bind_Ok in E as (im1 & E1 & E).
      apply import_session_spec in E1 as (Hok & Hd & Hr & Hs & Hf1 & ->); [|done].
      apply IH in E as (HF & Hn & Hd' & Hnn & Hr' & Hs' & Hf & ->); [|done].
      change (last_applied (im_state (add_session s im))) with (last_applied (im_state im)) in *.
      change (registrations (im_state (add_session s im)))
        with (<[ss_nonce s := ss_session_id s]> (registrations (im_state im))) in *.
      change (sessions (im_state (add_session s im)))
        with (<[ss_session_id s := saved_session s]> (sessions (im_state im))) in *.
      assert (Hni : ss_nonce s ∉ ss_nonce <$> saved).
      { intros Hin. apply Hr' in Hin. by rewrite lookup_insert_eq in Hin. }
      assert (Hsi : ss_session_id s ∉ ss_session_id <$> saved).
      { intros Hin. apply Hs' in Hin. by rewrite lookup_insert_eq in Hin. }
      rewrite add_sessions_cons in * by done.
      assert (Hnew : forall i, i ∈ all_indices saved -> i ∉ saved_indices s /\ i ∉ im_indices im).
      { intros i Hi. apply Hd' in Hi. unfold add_session, add_records in Hi. cbn [im_indices] in Hi.
        rewrite !not_elem_of_union in Hi. destruct Hi as (Hi1 & Hi2 & Hi3 & Hi4). split; [|done].
        unfold saved_indices. rewrite elem_of_cons, elem_of_app. set_solver. }
      split; [done|]. split; [split; [apply Hok|split; [|done]]; intros i Hi Hi'; by destruct (Hnew i Hi')|].
      split; [intros i [Hi|Hi]; [by apply Hd|by apply Hnew]|]. split; [done|].
      split; [intros n [->|Hin]; [done|]; pose proof (Hr' n Hin) as Hl; rewrite lookup_insert_ne in Hl; [done|];
              by intros <-|].
      split; [intros n [->|Hin]; [done|]; pose proof (Hs' n Hin) as Hl; rewrite lookup_insert_ne in Hl; [done|];
              by intros <-|]. done.
    + intros ([Hok HF] & (Hn1 & Hn2 & Hn) & Hd & [Hni Hnn] & Hr & Hs & Hf & ->).
      assert (Hsi : ss_session_id s ∉ ss_session_id <$> saved).
      { intros Hin. apply (Hn2 (ss_session_id s)); [by left|by apply ids_indices]. }
      rewrite <- add_sessions_cons in * by done.
      rewrite (proj2 (import_session_spec s im (add_session s im) Hfit)).
      * cbn [mbind Result_bind]. apply IH; [by eapply add_sessions_fits|].
        change (last_applied (im_state (add_session s im))) with (last_applied (im_state im)).
        change (registrations (im_state (add_session s im)))
          with (<[ss_nonce s := ss_session_id s]> (registrations (im_state im))).
        change (sessions (im_state (add_session s im)))
          with (<[ss_session_id s := saved_session s]> (sessions (im_state im))).
        split; [done|]. split; [done|].
        split; [|split; [done|split; [|split; [|done]]]].
        -- intros i Hi Hi'. unfold add_session, add_records in Hi'. cbn [im_indices] in Hi'.
           assert (Hi2 : i ∉ saved_indices s) by (intros Hx; by apply (Hn2 i)).
           unfold saved_indices in Hi2. rewrite elem_of_cons, elem_of_app in Hi2.
           assert (i ∉ im_indices im) by (apply Hd; by right). set_solver.
        -- intros n Hin. rewrite lookup_insert_ne; [apply Hr; by right|]. by intros <-.
        -- intros n Hin. rewrite lookup_insert_ne; [apply Hs; by right|]. by intros <-.
      * split; [done|]. split; [intros i Hi; apply Hd; by left|]. split; [apply Hr; by left|].
        split; [apply Hs; by left|]. split; [by eapply add_sessions_fits|done].
Qed.

Definition cell_ok (cell : string * string) : Prop := key_ok cell.1 /\ str_len cell.2 <= MAX_VALUE_BYTES.

Lemma import_values_spec cells m m' :
  import_values cells m = Ok m'
  <-> Forall cell_ok cells /\ NoDup cells.*1 /\ (forall k, k ∈ cells.*1 -> m !! k = None)
      /\ m' = list_to_map cells ∪ m.
Proof.
  revert m. induction cells as [|[k v] cells IH]; intros m; cbn [import_values].
  - rewrite fmap_nil. assert (E : list_to_map (M := gmap string string) ([] : list (string * string)) ∪ m = m)
      by apply (left_id_L ∅ (∪)).
    rewrite E. split; [intros [= <-]; repeat split; try constructor; set_solver|by intros (_ & _ & _ & ->)].
  - rewrite !require_bind, key_ok_bool, N.leb_le, IH, fmap_cons, list.NoDup_cons, list.Forall_cons.
    setoid_rewrite elem_of_cons. cbn [fst]. split.
    + intros (Hk & Hv & Hn & HF & Hnd & Hd & ->). destruct (m !! k) eqn:Hm; [done|].
      assert (Hnk : k ∉ cells.*1) by (intros Hin; apply Hd in Hin; by rewrite lookup_insert_eq in Hin).
      split; [done|]. split; [done|]. split.
      * intros k' [->|Hin]; [done|]. pose proof (Hd k' Hin) as Hl. rewrite lookup_insert_ne in Hl; [done|].
        by intros <-.
      * cbn [list_to_map fst snd foldr]. rewrite <- insert_union_r; [by rewrite insert_union_l|].
        by apply not_elem_of_list_to_map.
    + intros ([[Hk Hv] HF] & [Hnk Hnd] & Hd & ->). split; [done|]. split; [done|].
      split; [by rewrite (Hd k) by (by left)|]. split; [done|]. split; [done|]. split.
      * intros k' Hin. rewrite lookup_insert_ne; [apply Hd; by right|]. by intros <-.
      * cbn [list_to_map fst snd foldr]. rewrite <- insert_union_r; [by rewrite insert_union_l|].
        by apply not_elem_of_list_to_map.
Qed.

Record snapshot_ok (expected : LogIndex) (sn : ApplicationSnapshot) : Prop := {
  sn_version : as_schema_version sn = 1;
  sn_applied : as_last_applied sn = expected;
  sn_zero : as_last_applied sn = 0 -> as_values sn = [] /\ as_sessions sn = [];
  sn_values : Forall cell_ok (as_values sn);
  sn_value_keys : NoDup (as_values sn).*1;
  sn_sessions : Forall (saved_ok (as_last_applied sn)) (as_sessions sn);
  sn_indices : NoDup (all_indices (as_sessions sn));
  sn_nonces : NoDup (ss_nonce <$> as_sessions sn);
  sn_keys : as_retained_keys sn = total saved_keys (as_sessions sn);
  sn_bytes : as_retained_payload_bytes sn = total saved_bytes (as_sessions sn);
  sn_count : len64 (as_sessions sn) <= MAX_SESSIONS;
  sn_keys_max : as_retained_keys sn <= MAX_SESSION_KEYS;
  sn_bytes_max : as_retained_payload_bytes sn <= MAX_RETAINED_PAYLOAD_BYTES;
}.
(** The state a snapshot describes. *)
Definition rebuild (sn : ApplicationSnapshot) : StateMachine :=
  mkStateMachine (list_to_map (as_values sn)) (list_to_map (registration_of <$> as_sessions sn))
    (list_to_map (session_of <$> as_sessions sn)) (as_last_applied sn) (as_retained_keys sn)
    (as_retained_payload_bytes sn).

(** [import_snapshot] accepts the snapshots that satisfy [snapshot_ok], and
    rebuilds the state they describe. *)
Lemma import_snapshot_spec sn expected s :
  import_snapshot sn expected = Ok s <-> snapshot_ok expected sn /\ s = rebuild sn.
Proof.
  unfold import_snapshot. cbv zeta. rewrite !require_bind, !N.eqb_eq, !N.leb_le, orb_true_iff, N.ltb_lt.
  set (im0 := fun m => mkImport (app_default <| last_applied := as_last_applied sn |> <| values := m |>) ∅).
  assert (Hfit : forall m, fits (im_state (im0 m))) by (intros m; unfold fits; cbn; lia).
  assert (Hstate : fits (im_state (add_sessions (as_sessions sn) (im0 (list_to_map (as_values sn) ∪ ∅)))) /\
     retained_keys (im_state (add_sessions (as_sessions sn) (im0 (list_to_map (as_values sn) ∪ ∅)))) = as_retained_keys sn /\
     retained_payload_bytes (im_state (add_sessions (as_sessions sn) (im0 (list_to_map (as_values sn) ∪ ∅)))) = as_retained_payload_bytes sn ->
     im_state (add_sessions (as_sessions sn) (im0 (list_to_map (as_values sn) ∪ ∅))) = rebuild sn).
  { intros (_ & Hk & Hb). unfold rebuild. rewrite <- Hk, <- Hb. unfold add_sessions. cbn.
    f_equal; apply (right_id_L ∅ (∪)). }
  split.
  - intros (Hv & Ha & Hc & Hk & Hb & Hz & E). apply Result_bind_Ok in E as (m & Em & E).
    apply import_values_spec in Em as (HF & Hnv & _ & ->).
    apply Result_bind_Ok in E as (im & Ei & E). fold (im0 (list_to_map (as_values sn) ∪ ∅)) in Ei.
    apply import_sessions_spec in Ei as (HS & Hn & _ & Hnn & _ & _ & Hf & ->); [|done].
    rewrite !require_bind, !N.eqb_eq in E. destruct E as (Hrk & Hrb & [= <-]).
    split; [|by apply Hstate].
    split; try done.
    intros H0. destruct Hz as [?|Hz]; [lia|]. rewrite andb_true_iff, !bool_decide_eq_true in Hz. done.
  - intros [[] ->]. split; [done|]. split; [done|]. split; [done|]. split; [done|]. split; [done|].
    split.
    { destruct (N.eq_dec (as_last_applied sn) 0) as [E|E]; [|left; lia]. right.
      destruct (sn_zero0 E) as [-> ->]. done. }
    rewrite (proj2 (import_values_spec (as_values sn) ∅ (list_to_map (as_values sn) ∪ ∅))) by (repeat split; eauto).
    cbn [mbind Result_bind]. fold (im0 (list_to_map (as_values sn) ∪ ∅)).
    rewrite (proj2 (import_sessions_spec (as_sessions sn) (im0 (list_to_map (as_values sn) ∪ ∅))
      (add_sessions (as_sessions sn) (im0 (list_to_map (as_values sn) ∪ ∅))) (Hfit _))).
    + cbn [mbind Result_bind]. cbv zeta. rewrite !require_bind, !N.eqb_eq.
      split; [by rewrite sn_keys0|]. split; [by rewrite sn_bytes0|]. f_equal. apply Hstate.
      rewrite sn_keys0, sn_bytes0 in *. done.
    + split; [done|]. split; [done|]. split; [set_solver|]. split; [done|]. split; [done|]. split; [done|].
      split; [|done]. unfold fits. rewrite sn_keys0, sn_bytes0 in *. done.
Qed.
End facts.
