(* ===== verification/ApplicationSafe.v ===== *)
(** * The application state: what every entry preserves

    The invariant of reachable states, the rollback of a provisional range, and
    the retry contract: every acknowledged session mutation was applied by
    exactly one entry of the log. *)
From S2P Require Import Prelude Quorum Membership Types Application ApplicationFacts.
Local Open Scope N_scope.
Local Open Scope raft_scope.

(** ** Sums over maps *)

Lemma total_perm {A} (f : A -> N) l l' : l ≡ₚ l' -> total f l = total f l'.
Proof. unfold total. induction 1; rewrite ?fmap_cons; cbn [foldr]; lia. Qed.
Lemma total_cons {A} (f : A -> N) x l : total f (x :: l) = f x + total f l.
Proof. done. Qed.
Lemma total_fmap {A B} (f : B -> N) (g : A -> B) l : total f (g <$> l) = total (fun x => f (g x)) l.
Proof. unfold total. by rewrite <- list_fmap_compose. Qed.
Lemma total_ext {A} (f g : A -> N) l : (forall x, x ∈ l -> f x = g x) -> total f l = total g l.
Proof.
  induction l as [|x l IH]; intros E; [done|]. rewrite !total_cons, (E x) by (by left).
  rewrite IH; [done|]. intros y Hy. apply E. by right.
Qed.

Definition map_total {K V} `{Countable K} (f : V -> N) (m : gmap K V) : N :=
  total (fun kv => f kv.2) (map_to_list m).

Section map_total.
Context {K V : Type} `{Countable K} (f : V -> N).
Implicit Types m : gmap K V.
Lemma map_total_empty : map_total f (∅ : gmap K V) = 0.
Proof. unfold map_total. by rewrite map_to_list_empty. Qed.
Lemma map_total_insert m k v : m !! k = None -> map_total f (<[k := v]> m) = f v + map_total f m.
Proof. intros Hk. unfold map_total. by rewrite (total_perm _ _ _ (map_to_list_insert m k v Hk)). Qed.
Lemma map_total_replace m k v w :
  m !! k = Some v -> map_total f (<[k := w]> m) + f v = map_total f m + f w.
Proof.
  intros Hk. rewrite <- (insert_delete_id m k v Hk) at 2. rewrite <- (insert_delete_eq m k w).
  rewrite !map_total_insert by apply lookup_delete_eq. lia.
Qed.
Lemma map_total_list m l : map_to_list m ≡ₚ l -> map_total f m = total (fun kv => f kv.2) l.
Proof. apply total_perm. Qed.
Lemma map_total_lookup m k v : m !! k = Some v -> f v <= map_total f m.
Proof. intros Hk. pose proof (map_total_replace m k v v Hk). rewrite <- (insert_delete_id m k v Hk), map_total_insert by apply lookup_delete_eq. lia. Qed.
Lemma map_len_insert m k v : m !! k = None -> map_len (<[k := v]> m) = map_len m + 1.
Proof. intros Hk. unfold map_len. rewrite map_size_insert_None by done. lia. Qed.
Lemma map_len_replace m k v w : m !! k = Some v -> map_len (<[k := w]> m) = map_len m.
Proof. intros Hk. unfold map_len. by rewrite map_size_insert_Some by done. Qed.
End map_total.

Section safe.
Context `{Sha256}.

(** ** The invariant *)

(** The operations a session retains, each with the index of its entry. *)
Inductive Retained : Type := Registration | Closing | Mutated (key : string).
Definition session_op (id : LogIndex) (session : Session) (o : Retained) : option LogIndex :=
  match o with
  | Registration => Some id
  | Closing => close_index session
  | Mutated key => record ← session_keys session !! key; sr_index (kr_result record)
  end.
Definition op_index (s : StateMachine) (id : LogIndex) (o : Retained) : option LogIndex :=
  session ← sessions s !! id; session_op id session o.

Definition keys_of (session : Session) : N := map_len (session_keys session).
Definition bytes_of (session : Session) : N :=
  map_total (fun record => len64 (kr_payload record)) (session_keys session).

Record app_valid (s : StateMachine) : Prop := {
  av_nonce : forall nonce id, registrations s !! nonce = Some id ->
    nonce_invalid nonce = false /\ is_Some (sessions s !! id);
  av_inj : forall n1 n2 id, registrations s !! n1 = Some id -> registrations s !! n2 = Some id -> n1 = n2;
  av_named : forall id session, sessions s !! id = Some session ->
    exists nonce, registrations s !! nonce = Some id;
  av_session : forall id session, sessions s !! id = Some session -> session_ok id (last_applied s) session;
  av_ops : forall id o id' o' i, op_index s id o = Some i -> op_index s id' o' = Some i -> id = id' /\ o = o';
  av_count : map_len (sessions s) <= MAX_SESSIONS;
  av_keys : retained_keys s = map_total keys_of (sessions s);
  av_bytes : retained_payload_bytes s = map_total bytes_of (sessions s);
  av_fits : fits s;
  av_applied : last_applied s <= u64_max;
}.

Lemma default_valid : app_valid app_default.
Proof.
  split; unfold op_index; cbn [app_default registrations sessions last_applied retained_keys retained_payload_bytes];
    try (intros *; rewrite lookup_empty; done).
  - apply N.le_0_l.
  - by rewrite map_total_empty.
  - by rewrite map_total_empty.
  - split; cbn; lia.
  - apply N.le_0_l.
Qed.

Lemma session_ok_mono id applied applied' session :
  applied <= applied' -> session_ok id applied session -> session_ok id applied' session.
Proof.
  intros Hle [Hid Hreg Hcl Hlen Hrec]. split; [lia|done| |done|].
  - intros result Hr. destruct (Hcl result Hr) as (i & ? & ?). exists i. split; [done|lia].
  - intros key record Hk. destruct (Hrec key record Hk) as [? ? ? ? (i & ? & ? & ? & ?)]. split; try done.
    exists i. split; [done|]. split; [done|]. split; [lia|done].
Qed.

Lemma op_below s id o i : app_valid s -> op_index s id o = Some i -> 0 < i <= last_applied s.
Proof.
  intros Hv Hi. unfold op_index in Hi. destruct (sessions s !! id) as [session|] eqn:Hs; [|done].
  destruct (av_session s Hv id session Hs) as [Hid Hreg Hcl Hlen Hrec]. cbn in Hi. destruct o as [| |key]; cbn in Hi.
  - by injection Hi as <-.
  - unfold close_index in Hi. destruct (closed session) as [r|]; [|done].
    destruct (Hcl r eq_refl) as (j & -> & ?). injection Hi as <-. lia.
  - destruct (session_keys session !! key) as [record|] eqn:Hk; [|done].
    destruct (Hrec key record Hk) as [_ _ _ _ (j & Hr & ? & ? & ?)]. cbn in Hi. rewrite Hr in Hi.
    injection Hi as <-. lia.
Qed.

Lemma next_index s index : checked_add (last_applied s) 1 = Some index ->
  index = last_applied s + 1 /\ index <= u64_max.
Proof. intros [-> ?]%checked_add_Some. done. Qed.

Lemma fresh_session s index : app_valid s -> last_applied s < index -> sessions s !! index = None.
Proof.
  intros Hv Hi. destruct (sessions s !! index) as [session|] eqn:E; [|done].
  pose proof (so_id _ _ _ (av_session s Hv index session E)). lia.
Qed.

(** Values and the applied index. *)
Lemma valid_values s index m :
  app_valid s -> last_applied s <= index -> index <= u64_max ->
  app_valid (s <| values := m |> <| last_applied := index |>).
Proof.
  intros [] Hle Hmax. split; try done. intros id session Hs. cbn in Hs |- *.
  eapply session_ok_mono; [done|eauto].
Qed.

(** One session replaced, its operations kept but for one at the new index. *)
Lemma valid_replace s id session session' index k b m :
  app_valid s -> last_applied s < index -> index <= u64_max ->
  sessions s !! id = Some session -> session_ok id index session' ->
  (forall o o' i, session_op id session' o = Some i -> session_op id session' o' = Some i -> i = index -> o = o') ->
  (forall o i, session_op id session' o = Some i -> i = index \/ session_op id session o = Some i) ->
  k + keys_of session = retained_keys s + keys_of session' ->
  b + bytes_of session = retained_payload_bytes s + bytes_of session' ->
  k <= MAX_SESSION_KEYS -> b <= MAX_RETAINED_PAYLOAD_BYTES ->
  app_valid (mkStateMachine m (registrations s) (<[id := session']> (sessions s)) index k b).
Proof.
  intros Hv Hlt Hmax Hs Hok Hone Hops Hk Hb Hkm Hbm. pose proof Hv as [].
  assert (Hop : forall id' o i, op_index (mkStateMachine m (registrations s) (<[id := session']> (sessions s)) index k b) id' o = Some i ->
      (i = index /\ id' = id /\ session_op id session' o = Some i) \/ (i < index /\ op_index s id' o = Some i)).
  { intros id' o i Hi. unfold op_index in Hi. cbn [sessions] in Hi. destruct (decide (id' = id)) as [->|Hne].
    - rewrite lookup_insert_eq in Hi. destruct (Hops o i Hi) as [->|Hi']; [by left|]. right.
      assert (op_index s id o = Some i) by (unfold op_index; by rewrite Hs). split; [|done].
      pose proof (op_below s id o i Hv ltac:(done)). lia.
    - rewrite lookup_insert_ne in Hi by done. right. split; [|done].
      pose proof (op_below s id' o i Hv Hi). lia. }
  split; cbn [registrations sessions last_applied retained_keys retained_payload_bytes].
  - intros n i Hn. destruct (av_nonce0 n i Hn) as [? ?]. split; [done|].
    destruct (decide (i = id)) as [->|?]; [by rewrite lookup_insert_eq|by rewrite lookup_insert_ne].
  - done.
  - intros i ss Hi. destruct (decide (i = id)) as [->|?]; [eauto|].
    rewrite lookup_insert_ne in Hi by done. eauto.
  - intros i ss Hi. destruct (decide (i = id)) as [->|?].
    + rewrite lookup_insert_eq in Hi. by injection Hi as <-.
    + rewrite lookup_insert_ne in Hi by done. apply (session_ok_mono _ (last_applied s)); [lia|eauto].
  - intros i1 o1 i2 o2 i H1 H2. destruct (Hop _ _ _ H1) as [(-> & -> & E1)|[L1 E1]];
      destruct (Hop _ _ _ H2) as [(? & -> & E2)|[L2 E2]]; try lia; [|by eapply av_ops0].
    split; [done|]. by eapply Hone.
  - by rewrite (map_len_replace _ _ _ _ Hs).
  - pose proof (map_total_replace keys_of _ _ _ session' Hs). lia.
  - pose proof (map_total_replace bytes_of _ _ _ session' Hs). lia.
  - done.
  - done.
Qed.
(** A session registered under a new nonce. *)
Lemma valid_register s nonce index :
  app_valid s -> last_applied s < index -> index <= u64_max ->
  nonce_invalid nonce = false -> registrations s !! nonce = None -> map_len (sessions s) < MAX_SESSIONS ->
  app_valid (s <| registrations := <[nonce := index]> (registrations s) |>
               <| sessions := <[index := mkSession (success index None index) None ∅]> (sessions s) |>
               <| last_applied := index |>).
Proof.
  intros Hv Hlt Hmax Hn Hr Hc. pose proof Hv as [].
  pose proof (fresh_session s index Hv Hlt) as Hf.
  set (new := mkSession (success index None index) None ∅).
  assert (Hop : forall id o i, op_index (s <| sessions := <[index := new]> (sessions s) |>) id o = Some i ->
      (i = index /\ id = index /\ o = Registration) \/ (i < index /\ op_index s id o = Some i)).
  { intros id o i Hi. unfold op_index, upd in Hi. cbn [sessions] in Hi. destruct (decide (id = index)) as [->|Hne].
    - rewrite lookup_insert_eq in Hi. left. destruct o; cbn in Hi; [by injection Hi as <-|done|].
      by rewrite lookup_empty in Hi.
    - rewrite lookup_insert_ne in Hi by done. right. split; [|done]. pose proof (op_below s id o i Hv Hi). lia. }
  split; unfold upd; cbn [registrations sessions last_applied retained_keys retained_payload_bytes].
  - intros n i Hi. destruct (decide (n = nonce)) as [->|?].
    + rewrite lookup_insert_eq in Hi. injection Hi as <-. by rewrite lookup_insert_eq.
    + rewrite lookup_insert_ne in Hi by done. destruct (av_nonce0 n i Hi) as [? [ss Hss]]. split; [done|].
      rewrite lookup_insert_ne; [done|]. intros <-. by rewrite Hf in Hss.
  - assert (Hold : forall n, registrations s !! n = Some index -> False).
    { intros n Hi. destruct (av_nonce0 n index Hi) as [_ [ss Hss]]. by rewrite Hf in Hss. }
    intros n1 n2 i. rewrite !lookup_insert_Some.
    intros [[<- <-]|[? H1]] [[<- E]|[? H2]]; [done| | |by eapply av_inj0].
    + by apply Hold in H2.
    + subst i. by apply Hold in H1.
  - intros i ss Hi. destruct (decide (i = index)) as [->|?].
    + exists nonce. by rewrite lookup_insert_eq.
    + rewrite lookup_insert_ne in Hi by done. destruct (av_named0 i ss Hi) as [nm Hn']. exists nm.
      rewrite lookup_insert_ne; [done|]. intros <-. by rewrite Hr in Hn'.
  - intros i ss Hi. destruct (decide (i = index)) as [->|?].
    + rewrite lookup_insert_eq in Hi. injection Hi as <-. split; [lia|done|done| |].
      * unfold map_len. cbn. rewrite map_size_empty. apply N.le_0_l.
      * intros key record. cbn. by rewrite lookup_empty.
    + rewrite lookup_insert_ne in Hi by done. apply (session_ok_mono _ (last_applied s)); [lia|eauto].
  - intros i1 o1 i2 o2 i H1 H2. destruct (Hop _ _ _ H1) as [(-> & -> & ->)|[L1 E1]];
      destruct (Hop _ _ _ H2) as [(? & -> & ->)|[L2 E2]]; try lia; [done|by eapply av_ops0].
  - rewrite map_len_insert by done. lia.
  - rewrite map_total_insert by done. rewrite av_keys0. unfold keys_of at 2, map_len. cbn. by rewrite map_size_empty.
  - rewrite map_total_insert by done. rewrite av_bytes0. unfold bytes_of at 2. cbn. by rewrite map_total_empty.
  - done.
  - done.
Qed.

(** ** Mutations *)

(** What [mutate] did when it accepted. *)
Record accepted (s : StateMachine) (id : LogIndex) (key : string) (sequence : N) (value : option string)
    (index : LogIndex) (s' : StateMachine) (session : Session) : Prop := {
  mu_session : sessions s !! id = Some session;
  mu_open : closed session = None;
  mu_key : key_ok key;
  mu_value : forall v, value = Some v -> str_len v <= MAX_VALUE_BYTES;
  mu_sequence : sequence = 1 + map_or (session_keys session !! key) 0 kr_sequence;
  mu_state : exists k b, s' = mkStateMachine (set_value key value (values s)) (registrations s)
      (<[id := session <| session_keys :=
          <[key := mkKeyRecord sequence (sha256_digest (canonical_payload key value))
                     (canonical_payload key value) (success id (Some sequence) index)]> (session_keys session) |>]>
        (sessions s)) (last_applied s) k b
    /\ k = retained_keys s + (if is_none (session_keys session !! key) then 1 else 0)
    /\ b + map_or (session_keys session !! key) 0 (fun r => len64 (kr_payload r))
       = retained_payload_bytes s + len64 (canonical_payload key value)
    /\ b <= MAX_RETAINED_PAYLOAD_BYTES;
  mu_room : session_keys session !! key = None ->
    map_len (session_keys session) <> MAX_KEYS_PER_SESSION /\ retained_keys s <> MAX_SESSION_KEYS;
}.

(** The retained record a retry repeats. *)
Definition replayed (s : StateMachine) (id : LogIndex) (key : string) (sequence : N) (value : option string)
    (result : SessionResult) : Prop :=
  exists session record, sessions s !! id = Some session /\ session_keys session !! key = Some record
    /\ kr_sequence record = sequence /\ kr_payload record = canonical_payload key value
    /\ kr_result record = result.

Lemma mutate_cases s id key sequence value index result s' :
  mutate s id key sequence value index = Done (result, s') ->
  (s' = s /\ (sr_ok result = false \/ replayed s id key sequence value result))
  \/ (result = success id (Some sequence) index
      /\ exists session, accepted s id key sequence value index s' session).
Proof.
  unfold mutate. cbv zeta.
  destruct (_ || _) eqn:Hk; [intros [= <- <-]; left; split; [done|by left]|].
  destruct (is_some_and value _) eqn:Hval; [intros [= <- <-]; left; split; [done|by left]|].
  destruct (sessions s !! id) as [session|] eqn:Hs; [|intros [= <- <-]; left; split; [done|by left]].
  destruct (is_some (closed session)) eqn:Hc; [intros [= <- <-]; left; split; [done|by left]|].
  destruct (sequence =? 0) eqn:H0.
  { destruct (is_some_and (session_keys session !! key) _); intros [= <- <-]; left; (split; [done|by left]). }
  set (payload := canonical_payload key value). set (digest := sha256_digest payload).
  destruct (expected_sequence _ _ _ _) as [expected|reply] eqn:He.
  2:{ intros [= <- <-]. left. split; [done|]. unfold expected_sequence in He.
      destruct (session_keys session !! key) as [record|] eqn:Hr; [|done].
      destruct (N.eqb_spec sequence (kr_sequence record)) as [->|Hne].
      - destruct ((digest ==? kr_digest record) && (payload ==? kr_payload record)) eqn:Hd; injection He as <-; [|by left].
        apply andb_true_iff in Hd as [_ Hp]. apply eqb_true_1 in Hp. right. exists session, record.
        split; [done|]. split; [done|]. split; [done|]. split; [by symmetry|done].
      - destruct (sequence <? kr_sequence record); [injection He as <-; by left|].
        destruct (checked_add _ 1); [done|]. injection He as <-. by left. }
  destruct (negb (sequence =? expected)) eqn:Hex; [intros [= <- <-]; left; split; [done|by left]|].
  destruct (is_none (session_keys session !! key) && _) eqn:Hroom; [intros [= <- <-]; left; split; [done|by left]|].
  intros E. apply Outcome_bind_Done in E as (remaining & Hrem & E).
  apply or_panic_Done, checked_sub_Some in Hrem as [-> Hrem].
  apply Outcome_bind_Done in E as (total & Htot & E). apply or_panic_Done, checked_add_Some in Htot as [-> _].
  destruct (N.ltb_spec MAX_RETAINED_PAYLOAD_BYTES
    (retained_payload_bytes s - map_or (session_keys session !! key) 0 (fun r => len64 (kr_payload r)) + len64 payload));
    [injection E as <- <-; left; split; [done|by left]|].
  injection E as <- <-. right. split; [done|]. exists session.
  apply orb_false_iff in Hk as [Hk1 Hk2]. apply N.eqb_neq in Hk1. apply N.ltb_ge in Hk2.
  apply negb_false_iff, N.eqb_eq in Hex. apply N.eqb_neq in H0.
  split.
  - done.
  - by destruct (closed session).
  - split; [lia|done].
  - intros v ->. cbn in Hval. by apply N.ltb_ge in Hval.
  - unfold expected_sequence in He. destruct (session_keys session !! key) as [record|]; cbn [map_or].
    + destruct (sequence =? kr_sequence record); [done|]. destruct (sequence <? kr_sequence record); [done|].
      destruct (checked_add (kr_sequence record) 1) as [n|] eqn:Hn; [|done]. injection He as ->.
      apply checked_add_Some in Hn as [-> _]. lia.
    + injection He as <-. lia.
  - unfold upd. cbn [values registrations sessions last_applied retained_keys retained_payload_bytes].
    eexists _, _. split; [reflexivity|]. split; [|split; [unfold payload in *; lia|done]].
    destruct (is_none (session_keys session !! key)); lia.
  - intros Hnone. rewrite Hnone in Hroom. cbn in Hroom. apply orb_false_iff in Hroom as [Ha Hb].
    apply N.eqb_neq in Ha, Hb. done.
Qed.
(** ** Preservation *)

(** The strings of a command, under the invariant of [String]. *)
Definition command_text (c : Command) : Prop :=
  match c with
  | Put key value => Utf8 key /\ Utf8 value
  | Delete key => Utf8 key
  | RegisterSession nonce => Utf8 nonce
  | SessionPut _ key _ value => Utf8 key /\ Utf8 value
  | SessionDelete _ key _ => Utf8 key
  | NoOp | Configuration _ | CloseSession _ => True
  end.

Lemma record_index_pos s id session key record :
  app_valid s -> sessions s !! id = Some session -> session_keys session !! key = Some record ->
  exists i, kr_result record = success id (Some (kr_sequence record)) i /\ id < i <= last_applied s
    /\ kr_sequence record <= i - id.
Proof.
  intros Hv Hs Hk. destruct (so_records _ _ _ (av_session s Hv id session Hs) key record Hk)
    as [_ _ _ _ (i & ? & ? & ? & ? & _)]. by exists i.
Qed.

Lemma mutate_valid s id key sequence value index s' session :
  app_valid s -> last_applied s < index -> index <= u64_max ->
  (forall v, value = Some v -> Utf8 v) ->
  accepted s id key sequence value index s' session ->
  app_valid (s' <| last_applied := index |>).
Proof.
  intros Hv Hlt Hmax Hutf [Hs Hopen Hkey Hval Hseq (k & b & -> & Hk & Hb & Hbm) Hroom].
  set (record := mkKeyRecord _ _ _ _). set (session' := session <| session_keys := _ |>).
  pose proof (av_session s Hv id session Hs) as Hso. pose proof (av_fits s Hv) as [Hfk Hfb].
  assert (Hseqi : sequence <= index - id).
  { pose proof (so_id _ _ _ Hso). rewrite Hseq. destruct (session_keys session !! key) as [r|] eqn:Hr; cbn; [|lia].
    destruct (record_index_pos s id session key r Hv Hs Hr) as (i & _ & ? & ?). lia. }
  unfold upd. cbn [values registrations sessions last_applied retained_keys retained_payload_bytes].
  apply (valid_replace s id session session'); try done.
  - destruct Hso as [Hid Hreg Hcl Hlen Hrec]. split; [lia|done| | |].
    + intros r Hr. cbn in Hr. congruence.
    + cbn. destruct (session_keys session !! key) as [r|] eqn:Hr; [by rewrite (map_len_replace _ _ _ _ Hr)|].
      rewrite map_len_insert by done. specialize (Hroom eq_refl) as [Hroom _]. lia.
    + intros key' r Hr. cbn in Hr. unfold close_index. cbn. rewrite Hopen. cbn.
      apply lookup_insert_Some in Hr as [[<- <-]|[_ Hr]].
      * split; cbn; [done|lia| |done|].
        -- exists value. split; [|done]. intros v Hvv. auto.
        -- exists index. split; [done|]. split; [lia|]. split; [lia|]. by split.
      * destruct (Hrec key' r Hr) as [? ? ? ? (i & ? & ? & ? & ? & ?)]. split; try done.
        exists i. split; [done|]. split; [done|]. split; [lia|]. by split.
  - intros o o' i Ho Ho' ->.
    assert (Honly : forall o, session_op id session' o = Some index -> o = Mutated key).
    { clear o o' Ho Ho'. intros [| |key'] Ho; cbn in Ho.
      - injection Ho as ->. pose proof (so_id _ _ _ Hso). lia.
      - unfold close_index in Ho. cbn in Ho. by rewrite Hopen in Ho.
      - destruct (decide (key' = key)) as [->|Hne]; [done|]. rewrite lookup_insert_ne in Ho by done.
        destruct (session_keys session !! key') as [r|] eqn:Hr; [|done]. cbn in Ho.
        destruct (record_index_pos s id session key' r Hv Hs Hr) as (i & E & ? & _). rewrite E in Ho.
        injection Ho as ->. lia. }
    by rewrite (Honly o Ho), (Honly o' Ho').
  - intros [| |key'] i Ho; cbn in Ho |- *; [by right|by right|].
    destruct (decide (key' = key)) as [->|Hne].
    + rewrite lookup_insert_eq in Ho. injection Ho as <-. by left.
    + rewrite lookup_insert_ne in Ho by done. by right.
  - rewrite Hk. unfold keys_of. cbn. destruct (session_keys session !! key) as [r|] eqn:Hr; cbn.
    + rewrite (map_len_replace _ _ _ _ Hr). lia.
    + rewrite map_len_insert by done. lia.
  - unfold bytes_of. cbn. destruct (session_keys session !! key) as [r|] eqn:Hr; cbn [map_or] in Hb.
    + pose proof (map_total_replace (fun r => len64 (kr_payload r)) _ _ _ record Hr) as E.
      unfold record in E. cbn [kr_payload] in E. fold record in E. lia.
    + rewrite map_total_insert by done. unfold record. cbn [kr_payload]. lia.
  - rewrite Hk. destruct (session_keys session !! key) as [r|] eqn:Hr; cbn; [lia|].
    specialize (Hroom eq_refl) as [_ Hroom]. lia.
Qed.

Lemma close_valid s id index session :
  app_valid s -> last_applied s < index -> index <= u64_max -> sessions s !! id = Some session ->
  closed session = None ->
  app_valid (s <| sessions := <[id := session <| closed := Some (success id None index) |>]> (sessions s) |>
               <| last_applied := index |>).
Proof.
  intros Hv Hlt Hmax Hs Hopen. pose proof (av_session s Hv id session Hs) as Hso.
  pose proof (av_fits s Hv) as [Hfk Hfb].
  unfold upd. cbn [values registrations sessions last_applied retained_keys retained_payload_bytes].
  apply (valid_replace s id session); try done.
  - destruct Hso as [Hid Hreg Hcl Hlen Hrec]. split; [lia|done| |done|].
    + intros r Hr. cbn in Hr. injection Hr as <-. exists index. split; [done|lia].
    + intros key r Hr. cbn in Hr. destruct (Hrec key r Hr) as [? ? ? ? (i & ? & ? & ? & ? & ?)]. split; try done.
      exists i. split; [done|]. split; [done|]. split; [lia|]. split; [done|]. intros c [= <-]. lia.
  - intros o o' i Ho Ho' ->.
    assert (Honly : forall o, session_op id (mkSession (registered session) (Some (success id None index)) (session_keys session)) o
        = Some index -> o = Closing).
    { clear o o' Ho Ho'. intros [| |key'] Ho; cbn in Ho; [|done|].
      - injection Ho as ->. pose proof (so_id _ _ _ Hso). lia.
      - destruct (session_keys session !! key') as [r|] eqn:Hr; [|done]. cbn in Ho.
        destruct (record_index_pos s id session key' r Hv Hs Hr) as (i & E & ? & _). rewrite E in Ho.
        injection Ho as ->. lia. }
    by rewrite (Honly o Ho), (Honly o' Ho').
  - intros [| |key'] i Ho; cbn in Ho |- *; [by right| |by right]. injection Ho as <-. by left.
Qed.

Lemma advance_valid s index m :
  app_valid s -> last_applied s < index -> index <= u64_max ->
  app_valid (s <| values := m |> <| last_applied := index |>).
Proof. intros. apply valid_values; [done|lia|done]. Qed.

Lemma same_values (s : StateMachine) : s <| values := values s |> = s.
Proof. by destruct s. Qed.

Lemma register_cases s nonce index result s' :
  register s nonce index = Done (result, s') ->
  s' = s \/ (nonce_invalid nonce = false /\ registrations s !! nonce = None
    /\ map_len (sessions s) <> MAX_SESSIONS /\ result = success index None index
    /\ s' = s <| registrations := <[nonce := index]> (registrations s) |>
              <| sessions := <[index := mkSession (success index None index) None ∅]> (sessions s) |>).
Proof.
  unfold register. destruct (nonce_invalid nonce) eqn:Hn; [intros [= <- <-]; by left|].
  destruct (registrations s !! nonce) as [id|] eqn:Hr.
  - intros E. apply Outcome_bind_Done in E as (session & _ & [= _ <-]). by left.
  - destruct (N.eqb_spec (map_len (sessions s)) MAX_SESSIONS); intros [= <- <-]; [by left|by right].
Qed.

Lemma close_cases s id index result s' :
  close s id index = Done (result, s') ->
  s' = s \/ (exists session, sessions s !! id = Some session /\ closed session = None
    /\ result = success id None index
    /\ s' = s <| sessions := <[id := session <| closed := Some (success id None index) |>]> (sessions s) |>).
Proof.
  unfold close. destruct (sessions s !! id) as [session|] eqn:Hs; [|intros [= <- <-]; by left].
  destruct (closed session) as [c|] eqn:Hc; cbn [default]; intros [= <- <-].
  - left. destruct s as [v r ss l k b], session as [rg cl ks]. cbn in *. subst cl. unfold upd. cbn.
    by rewrite insert_id.
  - right. by exists session.
Qed.

(** Every applied entry preserves the invariant. *)
Lemma apply_valid s entry outcome s' :
  app_valid s -> command_text (e_command entry) -> app_apply s entry = Done (outcome, s') ->
  app_valid s' /\ last_applied s' = e_index entry /\ e_index entry = last_applied s + 1.
Proof.
  intros Hv Ht. unfold app_apply.
  destruct (checked_add (last_applied s) 1 ==? Some (e_index entry)) eqn:Hn; [|done].
  apply eqb_true_1, next_index in Hn as [Hi Hmax]. cbn [negb]. intros E.
  apply Outcome_bind_Done in E as ([o s1] & E & [= <- <-]). split; [|done].
  assert (Hlt : last_applied s < e_index entry) by lia.
  assert (Hsame : app_valid (s <| last_applied := e_index entry |>)).
  { rewrite <- (same_values s). by apply advance_valid. }
  unfold apply_command in E. destruct (e_command entry) as [k v|k| |c|n|id|id k q v|id k q]; cbn in Ht.
  1, 2: injection E as <- <-; by apply advance_valid.
  1, 2: by injection E as <- <-.
  all: apply Outcome_bind_Done in E as ([r s2] & E & [= <- <-]).
  - apply register_cases in E as [->|(? & ? & ? & _ & ->)]; [done|]. apply valid_register; try done.
    pose proof (av_count s Hv). lia.
  - apply close_cases in E as [->|(session & ? & ? & _ & ->)]; [done|]. by apply close_valid.
  - apply mutate_cases in E as [[-> _]|[_ [session Ha]]]; [done|].
    apply (mutate_valid s id k q (Some v) (e_index entry) s2 session); try done.
    intros w [= <-]. by destruct Ht.
  - apply mutate_cases in E as [[-> _]|[_ [session Ha]]]; [done|].
    by apply (mutate_valid s id k q None (e_index entry) s2 session).
Qed.
(** ** Panics *)

Lemma canonical_payload_len key value :
  len64 (canonical_payload key value) <= 46 + str_len key + map_or value 0 str_len.
Proof.
  unfold canonical_payload. assert (E : len64 PAYLOAD_PREFIX = 29) by (vm_compute; reflexivity). unfold len64 in *.
  rewrite !length_app, to_be_bytes_length. pose proof (bytes_len key) as Hk. unfold len64 in Hk.
  destruct value as [v|]; cbn [map_or]; rewrite ?length_app, ?to_be_bytes_length; cbn [length];
    [pose proof (bytes_len v) as Hv; unfold len64 in Hv|]; lia.
Qed.

Lemma retained_bytes_of s id session key record :
  app_valid s -> sessions s !! id = Some session -> session_keys session !! key = Some record ->
  len64 (kr_payload record) <= retained_payload_bytes s.
Proof.
  intros Hv Hs Hk. rewrite (av_bytes s Hv).
  pose proof (map_total_lookup bytes_of _ _ _ Hs).
  pose proof (map_total_lookup (fun r => len64 (kr_payload r)) _ _ _ Hk). unfold bytes_of in *. lia.
Qed.

Lemma mutate_no_panic s id key sequence value index :
  app_valid s -> mutate s id key sequence value index <> Panicked.
Proof.
  intros Hv. unfold mutate. cbv zeta. destruct (_ || _) eqn:Hk; [done|].
  destruct (is_some_and value _) eqn:Hval; [done|]. destruct (sessions s !! id) as [session|] eqn:Hs; [|done].
  destruct (is_some (closed session)); [done|]. destruct (sequence =? 0); [by case_match|].
  destruct (expected_sequence _ _ _ _); [|done]. destruct (negb _); [done|]. destruct (_ && _); [done|].
  set (previous := map_or _ _ _).
  assert (Hp : previous <= retained_payload_bytes s).
  { unfold previous. destruct (session_keys session !! key) as [r|] eqn:Hr; cbn; [|apply N.le_0_l].
    by eapply retained_bytes_of. }
  rewrite (proj2 (checked_sub_Some _ _ _) (conj eq_refl Hp)). cbn [or_panic mbind Outcome_bind].
  rewrite (proj2 (checked_add_Some _ _ (retained_payload_bytes s - previous + len64 (canonical_payload key value)))).
  - cbn [or_panic mbind Outcome_bind]. by case_match.
  - split; [done|]. pose proof (av_fits s Hv) as [_ Hb]. pose proof (canonical_payload_len key value).
    apply orb_false_iff in Hk as [_ Hk]. apply N.ltb_ge in Hk.
    assert (map_or value 0 str_len <= MAX_VALUE_BYTES).
    { destruct value as [v|]; cbn in *; [by apply N.ltb_ge in Hval|apply N.le_0_l]. }
    assert (MAX_RETAINED_PAYLOAD_BYTES + (46 + MAX_KEY_BYTES + MAX_VALUE_BYTES) <= u64_max)
      by (vm_compute; discriminate). lia.
Qed.

Lemma app_no_panic s entry : app_valid s -> app_apply s entry <> Panicked.
Proof.
  intros Hv. unfold app_apply. destruct (negb _); [done|]. apply bind_no_panic; [|by intros [] _].
  unfold apply_command. destruct (e_command entry) as [k v|k| |c|n|id|id k q v|id k q]; try done;
    (apply bind_no_panic; [|by intros [] _]).
  - unfold register. destruct (nonce_invalid n); [done|]. destruct (registrations s !! n) as [id|] eqn:Hr.
    + destruct (av_nonce s Hv n id Hr) as [_ [session ->]]. done.
    + by case_match.
  - unfold close. by destruct (sessions s !! id).
  - by apply mutate_no_panic.
  - by apply mutate_no_panic.
Qed.

(** ** Rollback *)

Lemma restore_cell_set key (value : option string) (m : gmap string string) :
  restore_cell (set_value key value m) key (m !! key) = m.
Proof.
  apply map_eq. intros k. unfold restore_cell, set_value.
  destruct (decide (k = key)) as [->|Hne].
  - destruct (m !! key); [apply lookup_insert_eq|apply lookup_delete_eq].
  - destruct (m !! key); destruct value; by rewrite ?lookup_insert_ne, ?lookup_delete_ne, ?lookup_insert_ne, ?lookup_delete_ne.
Qed.
Lemma restore_cell_insert {K V} `{Countable K} (m : gmap K V) key v : restore_cell (<[key := v]> m) key (m !! key) = m.
Proof.
  unfold restore_cell. destruct (m !! key) eqn:E; [by rewrite insert_insert_eq, insert_id|].
  by rewrite delete_insert_id.
Qed.
Lemma restore_cell_same {K V} `{Countable K} (m : gmap K V) key : restore_cell m key (m !! key) = m.
Proof. unfold restore_cell. destruct (m !! key) eqn:E; [by rewrite insert_id|by apply delete_id]. Qed.

(** Undoing an entry that was just applied restores the state before it. *)
Lemma restore_apply s entry outcome s' :
  app_valid s -> app_apply s entry = Done (outcome, s') -> restore (capture s entry) s' = Some s.
Proof.
  intros Hv. unfold app_apply.
  destruct (checked_add (last_applied s) 1 ==? Some (e_index entry)) eqn:Hn; [|done].
  apply eqb_true_1, next_index in Hn as [Hi Hmax]. cbn [negb]. intros E.
  apply Outcome_bind_Done in E as ([o s1] & E & [= <- <-]).
  pose proof (fresh_session s (e_index entry) Hv ltac:(lia)) as Hf.
  unfold apply_command in E. unfold capture, restore, undo_value, undo_key.
  destruct s as [v r ss l k b]. destruct (e_command entry) as [key w|key| |c|n|id|id key q w|id key q];
    cbn [un_value un_registration un_session un_last_applied un_retained_keys un_retained_payload_bytes
         values registrations sessions last_applied retained_keys retained_payload_bytes] in *.
  1-4: injection E as <- <-; unfold upd;
    cbn [values registrations sessions last_applied retained_keys retained_payload_bytes restore_session mbind option_bind].
  1: by rewrite restore_cell_insert.
  1: { f_equal. f_equal. exact (restore_cell_set key None v). }
  1, 2: done.
  all: apply Outcome_bind_Done in E as ([res s2] & E & [= <- <-]); unfold upd.
  - apply register_cases in E as [->|(_ & Hr & _ & _ & ->)]; unfold upd;
      cbn [values registrations sessions last_applied retained_keys retained_payload_bytes restore_session
           mbind option_bind].
    + by rewrite restore_cell_same, delete_id.
    + by rewrite restore_cell_insert, delete_insert_id.
  - apply close_cases in E as [->|(session & Hs & Ho & _ & ->)]; unfold upd;
      cbn [values registrations sessions last_applied retained_keys retained_payload_bytes] in *.
    + destruct (ss !! id) as [session|] eqn:Hs; cbn [restore_session mbind option_bind]; [|done].
      rewrite Hs. cbn. rewrite insert_id; [done|]. rewrite Hs. by destruct session.
    + rewrite Hs. cbn [restore_session]. rewrite lookup_insert_eq. cbn. rewrite insert_insert_eq, insert_id; [done|].
      rewrite Hs. by destruct session.
  - apply mutate_cases in E as [[-> _]|[_ [session [Hs _ _ _ _ (k' & b' & -> & _) _]]]];
      cbn [values registrations sessions last_applied retained_keys retained_payload_bytes] in *.
    + rewrite restore_cell_same. destruct (ss !! id) as [session|] eqn:Hs; cbn [restore_session mbind option_bind]; [|done].
      rewrite Hs. cbn. rewrite restore_cell_same, insert_id; [done|]. rewrite Hs. by destruct session.
    + rewrite (restore_cell_set key (Some w) v), Hs. cbn [restore_session]. rewrite lookup_insert_eq. cbn.
      rewrite restore_cell_insert, insert_insert_eq, insert_id; [done|]. rewrite Hs. by destruct session.
  - apply mutate_cases in E as [[-> _]|[_ [session [Hs _ _ _ _ (k' & b' & -> & _) _]]]];
      cbn [values registrations sessions last_applied retained_keys retained_payload_bytes] in *.
    + rewrite restore_cell_same. destruct (ss !! id) as [session|] eqn:Hs; cbn [restore_session mbind option_bind]; [|done].
      rewrite Hs. cbn. rewrite restore_cell_same, insert_id; [done|]. rewrite Hs. by destruct session.
    + rewrite (restore_cell_set key None v), Hs. cbn [restore_session]. rewrite lookup_insert_eq. cbn.
      rewrite restore_cell_insert, insert_insert_eq, insert_id; [done|]. rewrite Hs. by destruct session.
Qed.
End safe.
