(* ===== verification/ApplicationLog.v ===== *)
(** * The application as a log consumer

    The theorems about whole runs of the state machine: reachable states are
    valid and never panic, snapshots are exact, a provisional range rolls back
    exactly, and a session mutation takes effect exactly once. *)
From S2P Require Import Prelude Quorum Membership Types Application ApplicationFacts ApplicationSafe.
Local Open Scope N_scope.
Local Open Scope raft_scope.

Section log.
Context `{Sha256}.

(** ** Export and import *)

Lemma btree_iter_perm {K V} `{Countable K} (R : relation K) `{!RelDecision R} (m : gmap K V) :
  btree_iter R m ≡ₚ map_to_list m.
Proof. apply merge_sort_Permutation. Qed.
Lemma key_snapshots_map (m : gmap string KeyRecord) :
  key_map ((fun kr => key_snapshot kr.1 kr.2) <$> smap_iter m) = m.
Proof.
  assert (E : forall l : list (string * KeyRecord), (fun r => (sk_key r, record_of r)) <$>
    ((fun kr : string * KeyRecord => key_snapshot kr.1 kr.2) <$> l) = l).
  { induction l as [|[k []] l IH]; [done|]. rewrite !fmap_cons, IH. done. }
  unfold key_map. rewrite E. symmetry. apply list_to_map_flip. symmetry. apply btree_iter_perm.
Qed.

Definition snapshot_of (reg : string * LogIndex) (session : Session) : SessionSnapshot :=
  mkSessionSnapshot reg.1 reg.2 (registered session) (closed session)
    ((fun kr => key_snapshot kr.1 kr.2) <$> smap_iter (session_keys session)).
Lemma saved_session_of reg session : saved_session (snapshot_of reg session) = session.
Proof. unfold saved_session, snapshot_of. cbn [ss_keys ss_registered ss_closed]. rewrite key_snapshots_map. by destruct session. Qed.

Lemma btree_iter_fst {K V} `{Countable K} (R : relation K) `{!RelDecision R} (m : gmap K V) :
  NoDup (btree_iter R m).*1.
Proof. rewrite (btree_iter_perm R m). apply NoDup_fst_map_to_list. Qed.

(** The sessions of an export, in the order of their nonces. *)
Lemma export_sessions s :
  app_valid s -> exists saved, mapM (session_snapshot s) (smap_iter (registrations s)) = Some saved
    /\ registration_of <$> saved = smap_iter (registrations s)
    /\ Forall (fun x => exists session, sessions s !! ss_session_id x = Some session
         /\ x = snapshot_of (registration_of x) session) saved.
Proof.
  intros Hv. assert (HF : Forall (fun reg => is_Some (sessions s !! reg.2)) (smap_iter (registrations s))).
  { apply list.Forall_forall. intros [n id] Hin. apply (elem_of_btree_iter str_le) in Hin.
    by destruct (av_nonce s Hv n id Hin). }
  induction HF as [|reg l [session Hs] HF (saved & IH1 & IH2 & IH3)]; [by exists []|].
  assert (E : session_snapshot s reg = Some (snapshot_of reg session)).
  { unfold session_snapshot. cbn in Hs. by rewrite Hs. }
  exists (snapshot_of reg session :: saved). cbn [mapM]. rewrite E.
  cbn [mbind option_bind]. rewrite IH1. split; [done|]. rewrite fmap_cons, IH2. split; [by destruct reg|].
  constructor; [|done]. exists session. by destruct reg.
Qed.

Lemma saved_ids s saved :
  app_valid s -> registration_of <$> saved = smap_iter (registrations s) ->
  NoDup (ss_session_id <$> saved) /\ NoDup (ss_nonce <$> saved)
  /\ forall id, id ∈ ss_session_id <$> saved <-> is_Some (sessions s !! id).
Proof.
  intros Hv Hr.
  assert (Hids : ss_session_id <$> saved = (smap_iter (registrations s)).*2)
    by (rewrite <- Hr, <- list_fmap_compose; done).
  assert (Hnonces : ss_nonce <$> saved = (smap_iter (registrations s)).*1)
    by (rewrite <- Hr, <- list_fmap_compose; done).
  rewrite Hids, Hnonces. split; [|split; [apply btree_iter_fst|]].
  - pose proof (btree_iter_fst str_le (registrations s)) as Hn.
    assert (Hinj : forall a b, a ∈ smap_iter (registrations s) -> b ∈ smap_iter (registrations s) -> a.2 = b.2 -> a.1 = b.1).
    { intros [n1 i] [n2 j] H1 H2 E. apply (elem_of_btree_iter str_le) in H1, H2. cbn in E. subst j.
      by apply (av_inj s Hv n1 n2 i). }
    clear Hr Hids Hnonces. revert Hn Hinj. generalize (smap_iter (registrations s)). intros l.
    induction l as [|[n i] l IH]; intros Hn Hinj; [constructor|]. cbn [fmap list_fmap fst snd] in Hn |- *. apply list.NoDup_cons in Hn as [Hn1 Hn]. apply list.NoDup_cons. split.
    + intros ([n' i'] & E & Hin)%list_elem_of_fmap. apply Hn1. cbn in E. subst i'.
      pose proof (Hinj (n, i) (n', i) ltac:(by left) ltac:(by right) eq_refl) as E. cbn in E. subst n'.
      by apply (list_elem_of_fmap_2 fst _ (n, i)).
    + apply IH; [done|]. intros a b Ha Hb. apply Hinj; by right.
  - intros id. rewrite list_elem_of_fmap. split.
    + intros ([n i] & -> & Hin). apply (elem_of_btree_iter str_le) in Hin. by destruct (av_nonce s Hv n i Hin).
    + intros [session Hs]. destruct (av_named s Hv id session Hs) as [n Hn]. exists (n, id). split; [done|].
      by apply (elem_of_btree_iter str_le).
Qed.

Lemma saved_sessions_perm s saved :
  app_valid s -> registration_of <$> saved = smap_iter (registrations s) ->
  Forall (fun x => exists session, sessions s !! ss_session_id x = Some session
         /\ x = snapshot_of (registration_of x) session) saved ->
  map_to_list (sessions s) ≡ₚ session_of <$> saved.
Proof.
  intros Hv Hr HF. destruct (saved_ids s saved Hv Hr) as (Hid & _ & Hall).
  assert (Hso : Forall (fun x => sessions s !! ss_session_id x = Some (saved_session x)) saved).
  { apply list.Forall_forall. intros x Hx. rewrite list.Forall_forall in HF. destruct (HF x Hx) as (session & Hs & E).
    rewrite Hs. f_equal. by rewrite E, saved_session_of. }
  apply NoDup_Permutation.
  - apply NoDup_map_to_list.
  - apply (NoDup_fmap_1 fst). rewrite <- list_fmap_compose. exact Hid.
  - intros [id session]. rewrite elem_of_map_to_list, list_elem_of_fmap. split.
    + intros Hs. assert (Hin : id ∈ ss_session_id <$> saved) by (apply Hall; eauto).
      apply list_elem_of_fmap in Hin as (x & -> & Hx). exists x. split; [|done]. unfold session_of. f_equal.
      rewrite list.Forall_forall in Hso. specialize (Hso x Hx). cbn in Hso. congruence.
    + intros (x & [= -> ->] & Hx). rewrite list.Forall_forall in Hso. by apply Hso.
Qed.
Lemma NoDup_fmap_inj_on {A B} (f : A -> B) l x y :
  NoDup (f <$> l) -> x ∈ l -> y ∈ l -> f x = f y -> x = y.
Proof.
  induction l as [|a l IH]; [by intros _ ?%elem_of_nil|]. rewrite fmap_cons, list.NoDup_cons, !elem_of_cons.
  intros [Ha Hn] [->|Hx] [->|Hy] E; [done| | |by apply IH].
  - exfalso. apply Ha. rewrite E. by apply list_elem_of_fmap_2.
  - exfalso. apply Ha. rewrite <- E. by apply list_elem_of_fmap_2.
Qed.
Lemma NoDup_omap {A B} (f : A -> option B) l :
  NoDup l -> (forall a b i, a ∈ l -> b ∈ l -> f a = Some i -> f b = Some i -> a = b) -> NoDup (omap f l).
Proof.
  induction 1 as [|a l Ha Hn IH]; intros Hinj; [constructor|]. cbn [omap list_omap].
  assert (IH' : NoDup (omap f l)) by (apply IH; intros; eapply Hinj; try right; eauto).
  destruct (f a) as [i|] eqn:E; [|done]. apply list.NoDup_cons. split; [|done].
  intros (b & Hb & Hi)%list_elem_of_omap. apply Ha.
  rewrite (Hinj a b i); [done|by left|by right|done|done].
Qed.

(** The operations of a saved session, in the order of its indices. *)
Definition retained_ops (saved : SessionSnapshot) : list Retained :=
  Registration :: Closing :: (Mutated <$> (sk_key <$> ss_keys saved)).

Lemma saved_indices_ops s x :
  app_valid s -> sessions s !! ss_session_id x = Some (saved_session x) -> NoDup (sk_key <$> ss_keys x) ->
  saved_indices x = omap (session_op (ss_session_id x) (saved_session x)) (retained_ops x).
Proof.
  intros Hv Hs Hn. unfold saved_indices, retained_ops. cbn [omap list_omap session_op]. f_equal.
  assert (E : record_index <$> ss_keys x
    = omap (session_op (ss_session_id x) (saved_session x)) (Mutated <$> (sk_key <$> ss_keys x))).
  { assert (HF : Forall (fun r => session_keys (saved_session x) !! sk_key r = Some (record_of r)) (ss_keys x)).
    { apply list.Forall_forall. intros r Hin. cbn [saved_session session_keys]. apply key_map_Some; [done|]. by exists r. }
    clear Hn. induction HF as [|r l Hk HF IH]; [done|]. rewrite !fmap_cons, IH. cbn [omap list_omap session_op].
    rewrite Hk. cbn [mbind option_bind]. unfold record_index. cbn [record_of kr_result].
    destruct (record_index_pos s _ _ _ _ Hv Hs Hk) as (i & Hr & _). cbn in Hr. by rewrite Hr. }
  rewrite E. by destruct (close_index (saved_session x)).
Qed.

Lemma retained_ops_NoDup x : NoDup (sk_key <$> ss_keys x) -> NoDup (retained_ops x).
Proof.
  intros Hn. unfold retained_ops. rewrite !list.NoDup_cons. split; [|split].
  - rewrite elem_of_cons, list_elem_of_fmap. intros [?|(? & ? & ?)]; discriminate.
  - rewrite list_elem_of_fmap. intros (? & ? & ?). discriminate.
  - by apply NoDup_fmap_2; [intros ? ? [=]|].
Qed.

Lemma key_snapshots_names (l : list (string * KeyRecord)) :
  sk_key <$> ((fun kr => key_snapshot kr.1 kr.2) <$> l) = l.*1.
Proof. induction l as [|[k r] l IH]; [done|]. by rewrite !fmap_cons, IH. Qed.

Lemma saved_keys_of x : NoDup (sk_key <$> ss_keys x) -> saved_keys x = keys_of (saved_session x).
Proof. intros Hn. unfold saved_keys, keys_of. cbn [saved_session session_keys]. by rewrite key_map_len. Qed.
Lemma saved_bytes_of x : NoDup (sk_key <$> ss_keys x) -> saved_bytes x = bytes_of (saved_session x).
Proof.
  intros Hn. unfold saved_bytes, bytes_of. cbn [saved_session session_keys].
  rewrite (map_total_list _ _ _ (key_map_perm _ Hn)), total_fmap. done.
Qed.

(** The values of a state, as far as a snapshot checks them. *)
Definition values_ok (s : StateMachine) : Prop :=
  (forall k v, values s !! k = Some v -> cell_ok (k, v)) /\ (last_applied s = 0 -> values s = ∅).

Lemma list_to_map_iter {V} (m : gmap string V) : list_to_map (smap_iter m) = m.
Proof. symmetry. apply list_to_map_flip. symmetry. apply btree_iter_perm. Qed.

(** The lists of a snapshot that describe a state, in whatever order. *)
Record describes (s : StateMachine) (vals : list (string * string)) (saved : list SessionSnapshot) : Prop := {
  de_values : map_to_list (values s) ≡ₚ vals;
  de_sessions : map_to_list (sessions s) ≡ₚ session_of <$> saved;
  de_nonces : forall x, x ∈ saved -> registrations s !! ss_nonce x = Some (ss_session_id x);
  de_keys : forall x, x ∈ saved -> NoDup (sk_key <$> ss_keys x);
}.
Definition snapshot_with (s : StateMachine) (vals : list (string * string)) (saved : list SessionSnapshot) :
    ApplicationSnapshot :=
  mkApplicationSnapshot 1 (last_applied s) vals saved (retained_keys s) (retained_payload_bytes s).

Lemma describes_ok s vals saved :
  app_valid s -> values_ok s -> describes s vals saved ->
  snapshot_ok (last_applied s) (snapshot_with s vals saved) /\ rebuild (snapshot_with s vals saved) = s.
Proof.
  intros Hv [Hcells Hzero] [Hvals Hperm Hreg Hnk].
  assert (Hso : forall x, x ∈ saved -> sessions s !! ss_session_id x = Some (saved_session x)).
  { intros x Hx. apply elem_of_map_to_list. rewrite Hperm. by apply (list_elem_of_fmap_2 session_of). }
  assert (Hids : NoDup (ss_session_id <$> saved)).
  { replace (ss_session_id <$> saved) with ((session_of <$> saved).*1) by (rewrite <- list_fmap_compose; done).
    rewrite <- Hperm. apply NoDup_fst_map_to_list. }
  assert (Hnonces : NoDup (ss_nonce <$> saved)).
  { clear Hperm. induction saved as [|x l IH]; [constructor|]. rewrite fmap_cons in *. apply list.NoDup_cons in Hids as [Hx Hids].
    apply list.NoDup_cons. split.
    - intros (y & E & Hy)%list_elem_of_fmap. apply Hx. pose proof (Hreg x ltac:(by left)) as Ex.
      pose proof (Hreg y ltac:(by right)) as Ey. rewrite E, Ey in Ex. injection Ex as <-. by apply list_elem_of_fmap_2.
    - apply IH; [..|done]; intros y Hy; first [apply Hreg|apply Hnk|apply Hso]; by right. }
  assert (Hops : forall x i, x ∈ saved -> i ∈ saved_indices x -> exists o, op_index s (ss_session_id x) o = Some i).
  { intros x i Hx Hi. rewrite (saved_indices_ops s x Hv (Hso x Hx) (Hnk x Hx)) in Hi.
    apply list_elem_of_omap in Hi as (o & _ & Ho). exists o. unfold op_index. by rewrite (Hso x Hx). }
  assert (Hone : forall x, x ∈ saved -> NoDup (saved_indices x)).
  { intros x Hx. rewrite (saved_indices_ops s x Hv (Hso x Hx) (Hnk x Hx)).
    apply NoDup_omap; [by apply retained_ops_NoDup, Hnk|]. intros a b i _ _ Ha Hb.
    apply (av_ops s Hv (ss_session_id x) a (ss_session_id x) b i); unfold op_index; by rewrite (Hso x Hx). }
  assert (Htotal : forall f g, (forall x, NoDup (sk_key <$> ss_keys x) -> g x = f (saved_session x)) ->
      map_total f (sessions s) = total g saved).
  { intros f g E. rewrite (map_total_list _ _ _ Hperm), total_fmap. apply total_ext. intros x Hx. cbn.
    rewrite E; [done|]. by apply Hnk. }
  split; [split; cbn [snapshot_with as_schema_version as_last_applied as_values as_sessions as_retained_keys
                      as_retained_payload_bytes]|].
  - done.
  - done.
  - intros H0. split.
    + rewrite (Hzero H0), map_to_list_empty in Hvals. by apply Permutation_nil in Hvals.
    + destruct saved as [|x saved']; [done|].
      pose proof (so_id _ _ _ (av_session s Hv _ _ (Hso x ltac:(by left)))). lia.
  - apply list.Forall_forall. intros [k v] Hin. rewrite <- Hvals in Hin. apply elem_of_map_to_list in Hin. auto.
  - rewrite <- Hvals. apply NoDup_fst_map_to_list.
  - apply list.Forall_forall. intros x Hx. split; [| |by apply Hnk|by apply Hone].
    + by destruct (av_nonce s Hv _ _ (Hreg x Hx)).
    + exact (av_session s Hv _ _ (Hso x Hx)).
  - apply NoDup_bind; [|done|by apply (NoDup_fmap_1 ss_session_id)].
    intros x y i Hx Hy Hi Hi'. destruct (Hops x i Hx Hi) as [o Ho]. destruct (Hops y i Hy Hi') as [o' Ho'].
    destruct (av_ops s Hv _ _ _ _ _ Ho Ho') as [Hid _]. by apply (NoDup_fmap_inj_on ss_session_id saved).
  - exact Hnonces.
  - rewrite (av_keys s Hv). apply Htotal, saved_keys_of.
  - rewrite (av_bytes s Hv). apply Htotal, saved_bytes_of.
  - pose proof (av_count s Hv) as Hc. unfold map_len in Hc. rewrite <- length_map_to_list, Hperm, length_fmap in Hc. exact Hc.
  - apply (av_fits s Hv).
  - apply (av_fits s Hv).
  - unfold rebuild. cbn [snapshot_with as_schema_version as_last_applied as_values as_sessions as_retained_keys
                      as_retained_payload_bytes].
    rewrite <- (list_to_map_flip (values s) _ Hvals), <- (list_to_map_flip (sessions s) _ Hperm).
    assert (E : list_to_map (registration_of <$> saved) = registrations s).
    { apply map_eq. intros n. apply option_eq. intros id. rewrite <- elem_of_list_to_map.
      - rewrite list_elem_of_fmap. split.
        + intros (x & [= -> ->] & Hx). by apply Hreg.
        + intros Hn. destruct (av_nonce s Hv n id Hn) as [_ [session Hs]].
          apply elem_of_map_to_list in Hs. rewrite Hperm in Hs. apply list_elem_of_fmap in Hs as (x & [= -> ->] & Hx).
          exists x. split; [|done]. unfold registration_of. f_equal.
          by apply (av_inj s Hv _ _ (ss_session_id x)), Hreg.
      - rewrite <- list_fmap_compose. exact Hnonces. }
    rewrite E. by destruct s.
Qed.

(** A valid state exports a snapshot that [import_snapshot] accepts and that
    describes it. *)
Lemma export_ok s :
  app_valid s -> values_ok s ->
  exists saved, export_snapshot s = Some (snapshot_with s (smap_iter (values s)) saved)
    /\ describes s (smap_iter (values s)) saved.
Proof.
  intros Hv Hvals. destruct (export_sessions s Hv) as (saved & Hm & Hr & HF). exists saved.
  unfold export_snapshot. rewrite Hm. split; [done|]. split.
  - symmetry. apply btree_iter_perm.
  - by apply saved_sessions_perm.
  - intros x Hx. apply (elem_of_btree_iter str_le). rewrite <- Hr. by apply (list_elem_of_fmap_2 registration_of).
  - intros x Hx. rewrite list.Forall_forall in HF. destruct (HF x Hx) as (session & Hs & ->). cbn [snapshot_of ss_keys].
    rewrite key_snapshots_names. apply btree_iter_fst.
Qed.

Lemma NoDup_bind_inv {A B} (f : A -> list B) l x y i :
  NoDup (l ≫= f) -> x ∈ l -> y ∈ l -> i ∈ f x -> i ∈ f y -> x = y.
Proof.
  induction l as [|a l IH]; [by intros _ ?%elem_of_nil|]. cbn [mbind list_bind]. rewrite list.NoDup_app, !elem_of_cons.
  intros (Ha & Hd & Hn) [->|Hx] [->|Hy] Hi Hi'; [done| | |by apply IH].
  - exfalso. apply (Hd i); [done|]. apply list_elem_of_bind. by exists y.
  - exfalso. apply (Hd i); [done|]. apply list_elem_of_bind. by exists x.
Qed.

Section rebuilt.
Context (sn : ApplicationSnapshot) (expected : LogIndex) (Hsn : snapshot_ok expected sn).
Let saved := as_sessions sn.

Lemma saved_in x : x ∈ saved -> saved_ok (as_last_applied sn) x.
Proof. pose proof (sn_sessions _ _ Hsn) as HF. rewrite list.Forall_forall in HF. apply HF. Qed.
Lemma saved_id_NoDup : NoDup (ss_session_id <$> saved).
Proof.
  pose proof (sn_indices _ _ Hsn) as Hn. unfold all_indices in Hn. fold saved in Hn.
  induction saved as [|x l IH]; [constructor|]. cbn [mbind list_bind] in Hn.
  rewrite list.NoDup_app in Hn. destruct Hn as (_ & Hd & Hn). rewrite fmap_cons. apply list.NoDup_cons.
  split; [|by apply IH]. intros Hin. apply (Hd (ss_session_id x)); [by left|by apply ids_indices].
Qed.
Lemma rebuilt_registration n id :
  registrations (rebuild sn) !! n = Some id <-> exists x, x ∈ saved /\ ss_nonce x = n /\ ss_session_id x = id.
Proof.
  unfold rebuild. cbn [registrations]. fold saved. rewrite <- elem_of_list_to_map.
  - rewrite list_elem_of_fmap. unfold registration_of. naive_solver.
  - rewrite <- list_fmap_compose. apply (sn_nonces _ _ Hsn).
Qed.
Lemma rebuilt_session id session :
  sessions (rebuild sn) !! id = Some session
  <-> exists x, x ∈ saved /\ ss_session_id x = id /\ saved_session x = session.
Proof.
  unfold rebuild. cbn [sessions]. fold saved. rewrite <- elem_of_list_to_map.
  - rewrite list_elem_of_fmap. unfold session_of. naive_solver.
  - rewrite <- list_fmap_compose. apply saved_id_NoDup.
Qed.
Lemma rebuilt_sessions : map_to_list (sessions (rebuild sn)) ≡ₚ session_of <$> saved.
Proof. apply map_to_list_to_map. rewrite <- list_fmap_compose. apply saved_id_NoDup. Qed.

(** The index of a retained operation, within its session. *)
Lemma saved_op x o i :
  x ∈ saved -> session_op (ss_session_id x) (saved_session x) o = Some i ->
  i ∈ saved_indices x
  /\ match o with
     | Registration => i = ss_session_id x
     | Closing => close_index (saved_session x) = Some i
     | Mutated key => exists r, r ∈ ss_keys x /\ sk_key r = key /\ record_index r = i
     end.
Proof.
  intros Hx Ho. pose proof (saved_in x Hx) as [_ Hso Hnk _]. unfold saved_indices. destruct o as [| |key]; cbn in Ho.
  - injection Ho as <-. split; [by left|done].
  - split; [|done]. right. apply elem_of_app. left. by apply elem_of_option_list.
  - destruct (key_map (ss_keys x) !! key) as [record|] eqn:Hk; [|done]. cbn in Ho.
    apply key_map_Some in Hk as (r & Hr & Hkey & <-); [|done]. cbn in Ho.
    assert (E : record_index r = i) by (unfold record_index; by rewrite Ho).
    split; [|by exists r]. right. apply elem_of_app. right. rewrite <- E. by apply list_elem_of_fmap_2.
Qed.

Lemma rebuilt_ops id o id' o' i :
  op_index (rebuild sn) id o = Some i -> op_index (rebuild sn) id' o' = Some i -> id = id' /\ o = o'.
Proof.
  unfold op_index.
  destruct (sessions (rebuild sn) !! id) as [session|] eqn:Hs; [|done].
  destruct (sessions (rebuild sn) !! id') as [session'|] eqn:Hs'; [|done].
  apply rebuilt_session in Hs as (x & Hx & <- & <-). apply rebuilt_session in Hs' as (y & Hy & <- & <-).
  cbn [mbind option_bind]. intros Ho Ho'.
  destruct (saved_op x o i Hx Ho) as [Hi Hkind]. destruct (saved_op y o' i Hy Ho') as [Hi' Hkind'].
  pose proof (NoDup_bind_inv saved_indices saved x y i (sn_indices _ _ Hsn) Hx Hy Hi Hi') as ->. split; [done|].
  pose proof (sv_indices _ _ (saved_in y Hy)) as Hn. unfold saved_indices in Hn.
  apply list.NoDup_cons in Hn as [Hn1 Hn]. apply list.NoDup_app in Hn as (_ & Hn2 & Hn3).
  assert (Hclose : close_index (saved_session y) = Some i -> i ∈ option_list (close_index (saved_session y)))
    by (intros; by apply elem_of_option_list).
  destruct o as [| |key], o' as [| |key']; try done.
  - exfalso. subst i. apply Hn1, elem_of_app. left. auto.
  - exfalso. subst i. destruct Hkind' as (r & Hr & _ & E). apply Hn1, elem_of_app. right. rewrite <- E.
    by apply list_elem_of_fmap_2.
  - exfalso. subst i. apply Hn1, elem_of_app. left. auto.
  - exfalso. destruct Hkind' as (r & Hr & _ & E). apply (Hn2 i); [auto|]. rewrite <- E. by apply list_elem_of_fmap_2.
  - exfalso. subst i. destruct Hkind as (r & Hr & _ & E). apply Hn1, elem_of_app. right. rewrite <- E.
    by apply list_elem_of_fmap_2.
  - exfalso. destruct Hkind as (r & Hr & _ & E). apply (Hn2 i); [auto|]. rewrite <- E. by apply list_elem_of_fmap_2.
  - destruct Hkind as (r & Hr & <- & E), Hkind' as (r' & Hr' & <- & E').
    f_equal. f_equal. apply (NoDup_fmap_inj_on record_index (ss_keys y)); [done..|]. by rewrite E, E'.
Qed.

Lemma rebuild_valid : expected <= u64_max -> app_valid (rebuild sn) /\ values_ok (rebuild sn).
Proof.
  intros Hmax.
  destruct Hsn as [_ sn_applied0 sn_zero0 sn_values0 sn_value_keys0 _ _ _ sn_keys0 sn_bytes0 sn_count0 sn_km sn_bm].
  split; [split|split].
  - intros n id Hr. apply rebuilt_registration in Hr as (x & Hx & <- & <-).
    split; [apply (saved_in x Hx)|]. exists (saved_session x). apply rebuilt_session. by exists x.
  - intros n1 n2 id H1 H2. apply rebuilt_registration in H1 as (x & Hx & <- & <-).
    apply rebuilt_registration in H2 as (y & Hy & <- & E). f_equal.
    by apply (NoDup_fmap_inj_on ss_session_id saved); [apply saved_id_NoDup| | |].
  - intros id session Hs. apply rebuilt_session in Hs as (x & Hx & <- & <-). exists (ss_nonce x).
    apply rebuilt_registration. by exists x.
  - intros id session Hs. apply rebuilt_session in Hs as (x & Hx & <- & <-). apply (saved_in x Hx).
  - apply rebuilt_ops.
  - unfold map_len. rewrite <- length_map_to_list, rebuilt_sessions, length_fmap. done.
  - rewrite (map_total_list _ _ _ rebuilt_sessions), total_fmap. cbn [rebuild retained_keys]. rewrite sn_keys0.
    apply total_ext. intros x Hx. apply saved_keys_of, (saved_in x Hx).
  - rewrite (map_total_list _ _ _ rebuilt_sessions), total_fmap. cbn [rebuild retained_payload_bytes]. rewrite sn_bytes0.
    apply total_ext. intros x Hx. apply saved_bytes_of, (saved_in x Hx).
  - done.
  - cbn [rebuild last_applied]. by rewrite sn_applied0.
  - intros k v Hk. cbn [rebuild values] in Hk. apply elem_of_list_to_map in Hk; [|done].
    rewrite list.Forall_forall in sn_values0. by apply sn_values0.
  - intros H0. cbn [rebuild values]. destruct (sn_zero0 H0) as [-> _]. done.
Qed.
End rebuilt.
(** ** Reachable states *)

(** A state reached from the default one by committed entries, with commands
    that satisfy [P], and installed snapshots. *)
Inductive app_reachable (P : Command -> Prop) : StateMachine -> Prop :=
| reach_default : app_reachable P app_default
| reach_apply s entry outcome s' :
    app_reachable P s -> command_text (e_command entry) -> P (e_command entry) ->
    app_apply s entry = Done (outcome, s') -> app_reachable P s'
| reach_import sn expected s :
    expected <= u64_max -> import_snapshot sn expected = Ok s -> app_reachable P s.

Lemma reachable_valid P s : app_reachable P s -> app_valid s.
Proof.
  induction 1 as [|s entry outcome s' _ IH Ht _ Ha|sn expected s Hmax Hi].
  - apply default_valid.
  - by destruct (apply_valid s entry outcome s' IH Ht Ha).
  - apply import_snapshot_spec in Hi as [Hok ->]. by destruct (rebuild_valid sn expected Hok Hmax).
Qed.

(** Plain puts within the bounds of the client interface. *)
Definition admissible (c : Command) : Prop :=
  match c with Put key value => cell_ok (key, value) | _ => True end.

Lemma set_value_ok key value (m : gmap string string) :
  key_ok key -> (forall v, value = Some v -> str_len v <= MAX_VALUE_BYTES) ->
  (forall k v, m !! k = Some v -> cell_ok (k, v)) ->
  forall k v, set_value key value m !! k = Some v -> cell_ok (k, v).
Proof.
  intros Hk Hv Hm k v. destruct value as [w|]; cbn [set_value].
  - intros [[<- <-]|[_ E]]%lookup_insert_Some; [|by apply Hm]. split; [done|by apply Hv].
  - intros [_ E]%lookup_delete_Some. by apply Hm.
Qed.

Lemma apply_values s entry outcome s' :
  values_ok s -> admissible (e_command entry) -> app_apply s entry = Done (outcome, s') -> values_ok s'.
Proof.
  intros [Hm _] Had. unfold app_apply.
  destruct (checked_add (last_applied s) 1 ==? Some (e_index entry)) eqn:Hn; [|done].
  apply eqb_true_1, next_index in Hn as [Hi _]. cbn [negb]. intros E.
  apply Outcome_bind_Done in E as ([o s1] & E & [= <- <-]). split; [|cbn [upd last_applied]; lia].
  change (values (s1 <| last_applied := e_index entry |>)) with (values s1).
  unfold apply_command in E. destruct (e_command entry) as [key w|key| |c|n|id|id key q w|id key q].
  1: { injection E as <- <-. destruct Had. apply (set_value_ok key (Some w)); [done| |done]. by intros ? [= <-]. }
  1: { injection E as <- <-. intros k v Hl. cbn in Hl.
    apply lookup_delete_Some in Hl as [_ Hl]. by apply Hm. }
  1, 2: by injection E as <- <-.
  all: apply Outcome_bind_Done in E as ([r s2] & E & [= <- <-]).
  - apply register_cases in E as [->|(_ & _ & _ & _ & ->)]; done.
  - apply close_cases in E as [->|(ss & _ & _ & _ & ->)]; done.
  - apply mutate_cases in E as [[-> _]|[_ [ss [_ _ Hk Hv _ (k' & b' & -> & _) _]]]]; [done|]. by apply set_value_ok.
  - apply mutate_cases in E as [[-> _]|[_ [ss [_ _ Hk Hv _ (k' & b' & -> & _) _]]]]; [done|]. by apply set_value_ok.
Qed.

Lemma reachable_values s : app_reachable admissible s -> values_ok s.
Proof.
  induction 1 as [|s entry outcome s' Hr IH Ht Had Ha|sn expected s Hmax Hi].
  - by split.
  - by eapply apply_values.
  - apply import_snapshot_spec in Hi as [Hok ->]. by destruct (rebuild_valid sn expected Hok Hmax).
Qed.

(** ** Transactions *)

(** A transaction in progress on a state: every undo record leads back to the
    state before its entry. *)
Inductive tx_on (s : StateMachine) : ApplicationTransaction -> Prop :=
| tx_begin : tx_on s (transaction s)
| tx_applied tx entry outcome state :
    tx_on s tx -> command_text (e_command entry) -> app_apply (tx_state tx) entry = Done (outcome, state) ->
    tx_on s (mkTransaction state (tx_undo tx ++ [capture (tx_state tx) entry]) false).

Lemma tx_on_valid s tx : app_valid s -> tx_on s tx -> app_valid (tx_state tx).
Proof. intros Hv. induction 1 as [|tx entry o st _ IH Ht Ha]; [done|]. by destruct (apply_valid _ _ _ _ IH Ht Ha). Qed.
Lemma tx_on_open s tx : tx_on s tx -> tx_committed tx = false.
Proof. by destruct 1. Qed.

Lemma tx_on_restores s tx : app_valid s -> tx_on s tx -> restore_all (reverse (tx_undo tx)) (tx_state tx) = Some s.
Proof.
  intros Hv. induction 1 as [|tx entry o st Hon IH Ht Ha]; [done|]. cbn [tx_undo tx_state].
  rewrite reverse_app, reverse_singleton. cbn [restore_all app].
  rewrite (restore_apply _ _ _ _ (tx_on_valid s tx Hv Hon) Ha). exact IH.
Qed.

Lemma removelast_snoc {A} (l : list A) x : removelast (l ++ [x]) = l.
Proof. apply removelast_last. Qed.

(** [undo_last] on a transaction that applied an entry gives the transaction
    before it. *)
Lemma tx_undo_snoc s tx entry outcome state :
  app_valid s -> tx_on s tx -> app_apply (tx_state tx) entry = Done (outcome, state) ->
  undo_last (mkTransaction state (tx_undo tx ++ [capture (tx_state tx) entry]) false) = Some tx.
Proof.
  intros Hv Hon Ha. unfold undo_last. cbn [tx_undo tx_state tx_committed]. rewrite last_snoc. cbn [mbind option_bind].
  rewrite (restore_apply _ _ _ _ (tx_on_valid s tx Hv Hon) Ha). cbn. rewrite removelast_snoc.
  pose proof (tx_on_open s tx Hon). destruct tx; cbn in *. by subst.
Qed.

(** An entry is refused only for its index. *)
Lemma bind_answers {A B} (m : Outcome ApplyError A) (f : A -> Outcome ApplyError B) e :
  m <> Refused e -> (forall a, f a <> Refused e) -> m ≫= f <> Refused e.
Proof. destruct m; cbn; auto. congruence. Qed.
Lemma or_panic_answers {A} (o : option A) (e : ApplyError) : or_panic o <> Refused e.
Proof. by destruct o. Qed.
Ltac answers :=
  repeat first [ done | apply or_panic_answers | apply bind_answers; [|intros ?] | case_match ].
Lemma mutate_answers s id key sequence value index e : mutate s id key sequence value index <> Refused e.
Proof. unfold mutate. cbv zeta. answers. Qed.
Lemma command_answers s entry e : apply_command s entry <> Refused e.
Proof.
  unfold apply_command. destruct (e_command entry); try done;
    (apply bind_answers; [|by intros [? ?]]); try apply mutate_answers.
  - unfold register. answers.
  - unfold close. answers.
Qed.

(** [ApplicationTransaction::apply] never panics on such a transaction, and
    leaves one. *)
Lemma tx_apply_spec s tx entry :
  app_valid s -> tx_on s tx -> command_text (e_command entry) ->
  (exists error, app_apply (tx_state tx) entry = Refused error /\ tx_apply tx entry = (Some (inl error), tx))
  \/ (exists outcome state, app_apply (tx_state tx) entry = Done (outcome, state)
      /\ tx_apply tx entry = (Some (inr outcome), mkTransaction state (tx_undo tx ++ [capture (tx_state tx) entry]) false)).
Proof.
  intros Hv Hon Ht. unfold tx_apply. destruct (negb _) eqn:Hn.
  - left. eexists. split; [|done]. unfold app_apply. by rewrite Hn.
  - right. destruct (app_apply (tx_state tx) entry) as [[o st]|e|] eqn:Ha.
    + exists o, st. split; [done|]. rewrite (tx_on_open s tx Hon) || idtac.
      pose proof (tx_on_open s tx Hon) as Hc. destruct tx as [a b c]; cbn in *. unfold upd. cbn. rewrite Ha. by rewrite Hc.
    + exfalso. unfold app_apply in Ha. rewrite Hn in Ha. revert Ha.
      apply bind_answers; [apply command_answers|by intros [? ?]].
    + exfalso. by eapply app_no_panic; [eapply tx_on_valid|].
Qed.
(** ** The retry contract *)

(** A log applied from the start, with the outcome of every entry. *)
Inductive history : list (Entry * ApplyOutcome) -> StateMachine -> Prop :=
| history_nil : history [] app_default
| history_snoc h s entry outcome s' :
    history h s -> command_text (e_command entry) -> app_apply s entry = Done (outcome, s') ->
    history (h ++ [(entry, outcome)]) s'.

Definition mutation_of (entry : Entry) : option (LogIndex * string * N * option string) :=
  match e_command entry with
  | SessionPut id key sequence value => Some (id, key, sequence, Some value)
  | SessionDelete id key sequence => Some (id, key, sequence, None)
  | _ => None
  end.
(** The entry that answers with its own index is the one that took effect. *)
Definition effective (event : Entry * ApplyOutcome) : bool :=
  match mutation_of event.1 with
  | Some (id, _, sequence, _) => event.2 ==? SessionReply (success id (Some sequence) (e_index event.1))
  | None => false
  end.
(** The sequence numbers that took effect on a key of a session, in log order. *)
Definition effect_on (id : LogIndex) (key : string) (event : Entry * ApplyOutcome) : option N :=
  match mutation_of event.1 with
  | Some (i, k, sequence, _) => if effective event && (i =? id) && (k ==? key) then Some sequence else None
  | None => None
  end.
Definition retained_sequence (s : StateMachine) (id : LogIndex) (key : string) : N :=
  map_or (session ← sessions s !! id; session_keys session !! key) 0 kr_sequence.
(** The values a log leaves: plain commands and effective mutations. *)
Definition value_effect (m : gmap string string) (event : Entry * ApplyOutcome) : gmap string string :=
  match e_command event.1 with
  | Put key value => <[key := value]> m
  | Delete key => delete key m
  | _ => match mutation_of event.1 with
         | Some (_, key, _, value) => if effective event then set_value key value m else m
         | None => m
         end
  end.

Lemma canonical_payload_unique key v w : canonical_payload key v = canonical_payload key w -> v = w.
Proof.
  unfold canonical_payload. intros E. apply app_inv_head in E. apply app_inj_1 in E as [Et E]; [|done].
  apply app_inv_head, app_inv_head in E. destruct v as [v|], w as [w|]; try done.
  apply app_inj_1 in E as [_ E]; [|by rewrite !to_be_bytes_length]. f_equal. by apply bytes_inj.
Qed.

Definition origin (h : list (Entry * ApplyOutcome)) (id : LogIndex) (key : string) (sequence : N)
    (value : option string) (result : SessionResult) : Prop :=
  exists entry, (entry, SessionReply result) ∈ h /\ mutation_of entry = Some (id, key, sequence, value)
    /\ result = success id (Some sequence) (e_index entry).

Record faithful (h : list (Entry * ApplyOutcome)) (s : StateMachine) : Prop := {
  fa_valid : app_valid s;
  fa_record : forall id session key record,
    sessions s !! id = Some session -> session_keys session !! key = Some record ->
    exists value, kr_payload record = canonical_payload key value
      /\ origin h id key (kr_sequence record) value (kr_result record);
  fa_effects : forall id key, omap (effect_on id key) h
    = N.of_nat <$> seq 1 (N.to_nat (retained_sequence s id key));
  fa_answers : forall entry result id key sequence value,
    (entry, SessionReply result) ∈ h -> mutation_of entry = Some (id, key, sequence, value) ->
    sr_ok result = true -> origin h id key sequence value result;
  fa_values : values s = foldl value_effect ∅ h;
}.

Lemma origin_snoc h event id key sequence value result :
  origin h id key sequence value result -> origin (h ++ [event]) id key sequence value result.
Proof. intros (e & He & ?). exists e. split; [|done]. apply elem_of_app. by left. Qed.

(** An event without effect leaves the records. *)
Lemma faithful_same h s entry outcome s' :
  faithful h s -> app_valid s' ->
  (forall id key, (session ← sessions s' !! id; session_keys session !! key)
     = (session ← sessions s !! id; session_keys session !! key)) ->
  effective (entry, outcome) = false ->
  (forall result id key sequence value, outcome = SessionReply result ->
     mutation_of entry = Some (id, key, sequence, value) -> sr_ok result = true ->
     replayed s id key sequence value result) ->
  values s' = value_effect (values s) (entry, outcome) ->
  faithful (h ++ [(entry, outcome)]) s'.
Proof.
  intros [Hv Hrec Heff Hans Hval] Hv' Hkeys Hno Hrep Hvals. split; [done| | | |].
  - intros id session key record Hs Hk.
    assert (Hl : (session ← sessions s !! id; session_keys session !! key) = Some record)
      by (rewrite <- Hkeys, Hs; exact Hk).
    destruct (sessions s !! id) as [old|] eqn:Ho; [|done]. cbn in Hl.
    destruct (Hrec id old key record Ho Hl) as (v & ? & ?). exists v. split; [done|]. by apply origin_snoc.
  - intros id key. rewrite omap_app, Heff. cbn [omap list_omap].
    assert (E : effect_on id key (entry, outcome) = None).
    { unfold effect_on. rewrite Hno. by destruct (mutation_of _) as [[[[? ?] ?] ?]|]. }
    rewrite E, app_nil_r. unfold retained_sequence. by rewrite Hkeys.
  - intros e r id key q v [Hin|Hin%list_elem_of_singleton]%elem_of_app Hm Hok.
    + by apply origin_snoc, (Hans e).
    + injection Hin as -> <-. destruct (Hrep r id key q v eq_refl Hm Hok) as (session & record & Hs & Hk & <- & Hp & <-).
      destruct (Hrec id session key record Hs Hk) as (w & Hw & Ho). apply origin_snoc.
      rewrite Hw in Hp. apply canonical_payload_unique in Hp as ->. done.
  - by rewrite foldl_app, <- Hval.
Qed.
Lemma replay_ineffective s entry id key sequence value result :
  app_valid s -> last_applied s < e_index entry ->
  mutation_of entry = Some (id, key, sequence, value) ->
  sr_ok result = false \/ replayed s id key sequence value result ->
  effective (entry, SessionReply result) = false.
Proof.
  intros Hv Hlt Hm Hr. unfold effective. cbn [fst snd]. rewrite Hm. apply eqb_false. intros [= ->].
  destruct Hr as [Hr|(session & record & Hs & Hk & Hq & _ & E)]; [done|].
  destruct (record_index_pos s id session key record Hv Hs Hk) as (i & E' & ? & _). rewrite E' in E.
  injection E as _ E. lia.
Qed.

Lemma faithful_mutation h s entry id key sequence value result s2 :
  faithful h s -> app_valid (s2 <| last_applied := e_index entry |>) -> last_applied s < e_index entry ->
  mutation_of entry = Some (id, key, sequence, value) ->
  mutate s id key sequence value (e_index entry) = Done (result, s2) ->
  faithful (h ++ [(entry, SessionReply result)]) (s2 <| last_applied := e_index entry |>).
Proof.
  intros Hf Hv' Hlt Hm E.
  assert (Hve : forall m, value_effect m (entry, SessionReply result)
     = if effective (entry, SessionReply result) then set_value key value m else m).
  { intros m. unfold value_effect. cbn [fst]. rewrite Hm. unfold mutation_of in Hm. by destruct (e_command entry). }
  apply mutate_cases in E as [[-> Hr]|[-> [session Ha]]].
  - pose proof (replay_ineffective s entry id key sequence value result (fa_valid _ _ Hf) Hlt Hm Hr) as Hno.
    apply (faithful_same h s); [done|done|done|done| |].
    + intros r i k q v [= <-] Hm' Hok. rewrite Hm in Hm'. injection Hm' as <- <- <- <-.
      destruct Hr as [Hr|Hr]; [congruence|done].
    + by rewrite Hve, Hno.
  - destruct Ha as [Hs Hopen Hkey Hval Hseq (k & b & -> & _) _]. destruct Hf as [Hv Hrec Heff Hans Hvals].
    assert (He : effective (entry, SessionReply (success id (Some sequence) (e_index entry))) = true).
    { unfold effective. cbn [fst snd]. rewrite Hm. by apply eqb_true. }
    assert (Hnew : origin (h ++ [(entry, SessionReply (success id (Some sequence) (e_index entry)))]) id key sequence value
       (success id (Some sequence) (e_index entry))).
    { exists entry. split; [|done]. apply elem_of_app. right. by apply list_elem_of_singleton. }
    split; [done| | | |].
    + intros i ss k' r Hi Hk'. cbn [upd sessions] in Hi. apply lookup_insert_Some in Hi as [[<- <-]|[Hne Hi]].
      * cbn in Hk'. apply lookup_insert_Some in Hk' as [[<- <-]|[Hne Hk']].
        -- exists value. done.
        -- destruct (Hrec id session k' r Hs Hk') as (v & ? & ?). exists v. split; [done|]. by apply origin_snoc.
      * destruct (Hrec i ss k' r Hi Hk') as (v & ? & ?). exists v. split; [done|]. by apply origin_snoc.
    + intros i k'. rewrite omap_app, Heff. cbn [omap list_omap]. unfold effect_on. rewrite He. cbn [fst]. rewrite Hm.
      cbn [andb]. unfold retained_sequence at 2. cbn [upd sessions].
      destruct (N.eqb_spec id i) as [<-|Hne]; cbn [andb].
      * rewrite lookup_insert_eq. cbn [mbind option_bind session_keys upd]. destruct (key ==? k') eqn:Ek.
        -- apply eqb_true_1 in Ek as <-. rewrite lookup_insert_eq. cbn [map_or kr_sequence].
           unfold retained_sequence. rewrite Hs. cbn [mbind option_bind]. rewrite Hseq.
           set (n := map_or _ 0 kr_sequence).
           assert (E : seq 1 (N.to_nat (1 + n)) = seq 1 (N.to_nat n) ++ [S (N.to_nat n)]).
           { replace (N.to_nat (1 + n)) with (S (N.to_nat n)) by lia. apply seq_S. }
           rewrite E, fmap_app. cbn [fmap list_fmap]. f_equal. f_equal. lia.
        -- apply eqb_false_1 in Ek. rewrite lookup_insert_ne by done. rewrite app_nil_r.
           unfold retained_sequence. by rewrite Hs.
      * rewrite lookup_insert_ne by done. by rewrite app_nil_r.
    + intros e r i k' q v [Hin|Hin%list_elem_of_singleton]%elem_of_app Hm' Hok.
      * by apply origin_snoc, (Hans e).
      * injection Hin as -> ->. rewrite Hm in Hm'. by injection Hm' as <- <- <- <-.
    + rewrite foldl_app, <- Hvals. cbn [foldl]. by rewrite Hve, He.
Qed.

Lemma faithful_apply h s entry outcome s' :
  faithful h s -> command_text (e_command entry) -> app_apply s entry = Done (outcome, s') ->
  faithful (h ++ [(entry, outcome)]) s'.
Proof.
  intros Hf Ht Ha. pose proof (fa_valid _ _ Hf) as Hv.
  destruct (apply_valid s entry outcome s' Hv Ht Ha) as (Hv' & _ & Hi).
  unfold app_apply in Ha. destruct (negb _); [done|]. apply Outcome_bind_Done in Ha as ([o s1] & E & [= <- <-]).
  unfold apply_command in E. destruct (e_command entry) as [k w|k| |c|n|id|id k q w|id k q] eqn:Hc.
  1-4: injection E as <- <-; apply (faithful_same h s); try done;
    [unfold effective, mutation_of; cbn; by rewrite Hc|unfold value_effect, mutation_of; cbn; by rewrite Hc].
  all: apply Outcome_bind_Done in E as ([r s2] & E & [= <- <-]).
  - assert (Hno : mutation_of entry = None) by (unfold mutation_of; by rewrite Hc).
    apply (faithful_same h s); [done|done| | |by intros ? ? ? ? ? _; rewrite Hno|].
    + intros id key. apply register_cases in E as [->|(_ & _ & _ & _ & ->)]; [done|]. cbn [upd sessions].
      destruct (decide (id = e_index entry)) as [->|Hne]; [|by rewrite lookup_insert_ne].
      rewrite lookup_insert_eq, (fresh_session s) by (done || lia). cbn. apply lookup_empty.
    + unfold effective. cbn [fst]. by rewrite Hno.
    + unfold value_effect. cbn [fst]. rewrite Hc, Hno.
      apply register_cases in E as [->|(_ & _ & _ & _ & ->)]; done.
  - assert (Hno : mutation_of entry = None) by (unfold mutation_of; by rewrite Hc).
    apply (faithful_same h s); [done|done| | |by intros ? ? ? ? ? _; rewrite Hno|].
    + intros i key. apply close_cases in E as [->|(session & Hs & _ & _ & ->)]; [done|]. cbn [upd sessions].
      destruct (decide (i = id)) as [->|Hne]; [|by rewrite lookup_insert_ne].
      rewrite lookup_insert_eq, Hs. done.
    + unfold effective. cbn [fst]. by rewrite Hno.
    + unfold value_effect. cbn [fst]. rewrite Hc, Hno.
      apply close_cases in E as [->|(session & Hs & _ & _ & ->)]; done.
  - apply (faithful_mutation h s entry id k q (Some w)); [done|done|lia| |done]. unfold mutation_of. by rewrite Hc.
  - apply (faithful_mutation h s entry id k q None); [done|done|lia| |done]. unfold mutation_of. by rewrite Hc.
Qed.

Lemma history_faithful h s : history h s -> faithful h s.
Proof.
  induction 1 as [|h s entry outcome s' _ IH Ht Ha]; [|by eapply faithful_apply].
  split; [apply default_valid| | | |done].
  - intros id session key record Hs. cbn in Hs. by rewrite lookup_empty in Hs.
  - intros id key. unfold retained_sequence. cbn. by rewrite lookup_empty.
  - intros e r id key q v Hin. by apply elem_of_nil in Hin.
Qed.
End log.

(** * Theorems *)

(** (C20) Every state reached by committed entries and installed snapshots is
    valid: registrations and sessions agree, every retained record carries the
    canonical payload of its mutation, no log index backs two operations, and
    the retained counters are the sums they stand for, within capacity.  The
    next entry is applied whatever it contains (no panic, no overflow), and only
    an entry with another index is refused. *)
Theorem app_entries_total `{Sha256} s entry :
  app_reachable (fun _ => True) s ->
  app_valid s /\ app_apply s entry <> Panicked
  /\ (checked_add (last_applied s) 1 = Some (e_index entry) <->
      exists outcome s', app_apply s entry = Done (outcome, s')).
Proof.
  intros Hr. pose proof (reachable_valid _ s Hr) as Hv. pose proof (app_no_panic s entry Hv) as Hp.
  split; [done|]. split; [done|]. split.
  - intros Hi. destruct (app_apply s entry) as [[o s']|e|] eqn:E; [by exists o, s'| |done]. exfalso.
    unfold app_apply in E. rewrite Hi, (proj2 (eqb_true _ _) eq_refl) in E. revert E.
    apply bind_answers; [apply command_answers|by intros [? ?]].
  - intros (o & s' & E). unfold app_apply in E.
    destruct (checked_add (last_applied s) 1 ==? Some (e_index entry)) eqn:Hi; [by apply eqb_true_1 in Hi|done].
Qed.

(** (C23) [import_snapshot] accepts exactly the snapshots that describe a state
    (unique keys, nonces and operation indices, sessions that satisfy the session
    invariant, counters equal to their sums and within capacity), and rebuilds
    that state, which is valid. *)
Theorem app_import_exact `{Sha256} sn expected s :
  expected <= u64_max ->
  (import_snapshot sn expected = Ok s <-> snapshot_ok expected sn /\ s = rebuild sn)
  /\ (import_snapshot sn expected = Ok s -> app_valid s /\ values_ok s).
Proof.
  intros Hmax. split; [apply import_snapshot_spec|].
  intros [Hok ->]%import_snapshot_spec. by apply (rebuild_valid sn expected).
Qed.

(** The snapshot of every state reached through admissible commands and
    installed snapshots exports without a panic, is accepted by
    [import_snapshot] at the state's index, and rebuilds that very state. *)
Theorem app_snapshot_roundtrip `{Sha256} s :
  app_reachable admissible s ->
  exists sn, export_snapshot s = Some sn /\ import_snapshot sn (last_applied s) = Ok s.
Proof.
  intros Hr. pose proof (reachable_valid _ s Hr) as Hv. pose proof (reachable_values s Hr) as Hvals.
  destruct (export_ok s Hv Hvals) as (saved & He & Hd). eexists. split; [exact He|].
  apply import_snapshot_spec. destruct (describes_ok s _ _ Hv Hvals Hd) as [Hok Hb]. done.
Qed.

(** (C27) A provisional range is exact: dropping the transaction without a commit
    restores the state it began with, dropping it after [commit] keeps the
    applied one; each further entry is either refused, and the transaction
    unchanged, or applied, and [undo_last] then gives back the transaction
    before it.  None of this panics. *)
Theorem app_rollback_exact `{Sha256} s tx entry :
  app_reachable (fun _ => True) s -> tx_on s tx -> command_text (e_command entry) ->
  tx_drop tx = Some s /\ tx_drop (tx_commit tx) = Some (tx_state tx)
  /\ ((exists error, tx_apply tx entry = (Some (inl error), tx))
      \/ (exists outcome tx', tx_apply tx entry = (Some (inr outcome), tx') /\ tx_on s tx'
           /\ app_apply (tx_state tx) entry = Done (outcome, tx_state tx') /\ undo_last tx' = Some tx)).
Proof.
  intros Hr Hon Ht. pose proof (reachable_valid _ s Hr) as Hv. split; [|split].
  - unfold tx_drop. rewrite (tx_on_open s tx Hon). by apply tx_on_restores.
  - done.
  - destruct (tx_apply_spec s tx entry Hv Hon Ht) as [(e & _ & E)|(o & st & Ha & E)]; [left; by exists e|right].
    exists o. eexists. split; [exact E|]. split; [by eapply tx_applied|]. split; [done|]. by eapply tx_undo_snoc.
Qed.

(** (C19) The retry contract.  In every log applied from the start, the mutations
    of a key of a session that take effect carry the sequence numbers 1, 2, 3,
    ... in log order, up to the retained one; every mutation acknowledged as
    successful, a retry included, is answered with the reply of one entry of the
    log that took effect and carries the same session, key, sequence and value;
    and the values are what the plain commands and the effective mutations make
    of them. *)
Theorem session_exactly_once `{Sha256} h s :
  history h s ->
  (forall id key, omap (effect_on id key) h = N.of_nat <$> seq 1 (N.to_nat (retained_sequence s id key)))
  /\ (forall entry result id key sequence value,
        (entry, SessionReply result) ∈ h -> mutation_of entry = Some (id, key, sequence, value) ->
        sr_ok result = true -> origin h id key sequence value result)
  /\ values s = foldl value_effect ∅ h.
Proof. intros Hh. destruct (history_faithful h s Hh) as [_ _ He Ha Hv]. done. Qed.
