(* ===== verification/SnapshotImage.v ===== *)
(** * [kv-node/src/snapshot.rs]: snapshot images and their staging

    The framed, checksummed image of an application at a Raft boundary, and the
    receiver that assembles one from canonical chunks in a temporary file.
    serde's writer and reader of the payload are parameters ([PayloadFormat]),
    like SHA-256. *)
From S2P Require Import Prelude Quorum Membership Types Store Disk Application ApplicationFacts ApplicationSafe ApplicationLog.
Local Open Scope N_scope.
Local Open Scope raft_scope.

Definition SNAPSHOT_MAGIC : Bytes := bytes "MRFTSN01".
Definition SNAPSHOT_MAGIC_V2 : Bytes := bytes "MRFTSN02".
Definition HEADER_BYTES : N := 48.

Record Payload := mkPayload {
  pl_version : N;
  pl_metadata : SnapshotMetadata;
  pl_application : ApplicationSnapshot;
}.

Class PayloadFormat : Type := {
  (** the buffers [serde_json::to_writer] writes for a payload *)
  payload_writer : Payload -> list Bytes;
  (** [serde_json::from_slice] *)
  payload_reader : Bytes -> Io Payload;
}.
Class PayloadLaws `{PayloadFormat} : Prop :=
  payload_inverse : forall p, payload_reader (concat (payload_writer p)) = IoOk p.

Record SnapshotImage := mkSnapshotImage {
  si_descriptor : SnapshotDescriptor;
  si_bytes : Bytes;
  si_application : StateMachine;
}.

(** Errors of code that can also panic. *)
Abbreviation Fallible A := (Outcome (ErrorKind * string) A).
Definition of_io {A} (r : Io A) : Fallible A :=
  match r with IoOk a => Done a | IoErr k e => Refused (k, e) end.
(** [map_err(invalid)?] *)
Definition or_invalid {A} (r : Result A) : Io A :=
  match r with Ok a => IoOk a | Err e => invalid e end.

(** [LimitedWriter::write] *)
Definition limited_write (limit : N) (written buffer : Bytes) : Io Bytes :=
  if saturating_sub limit (len64 written) <? len64 buffer
  then rejected "snapshot serialization exceeds configured byte bound"
  else IoOk (written ++ buffer).
Fixpoint limited_writes (limit : N) (written : Bytes) (buffers : list Bytes) : Io Bytes :=
  match buffers with
  | [] => IoOk written
  | buffer :: buffers => written ← limited_write limit written buffer; limited_writes limit written buffers
  end.

(** [bytes[low..high]] *)
Definition slice {A} (low high : N) (l : list A) : list A := take (N.to_nat (high - low)) (drop (N.to_nat low) l).

Section image.
Context `{Sha256, PayloadFormat}.

(** [SnapshotImage::decode] *)
Definition image_decode (image : Bytes) : Io SnapshotImage :=
  if (len64 image <? HEADER_BYTES) || (MAX_SNAPSHOT_BYTES <? len64 image)
     || (negb (slice 0 8 image ==? SNAPSHOT_MAGIC) && negb (slice 0 8 image ==? SNAPSHOT_MAGIC_V2))
  then invalid "snapshot frame version, length or magic is invalid" else
  if negb (from_be_bytes (slice 8 16 image) =? len64 image - HEADER_BYTES)
  then invalid "snapshot payload length mismatch" else
  if negb (sha256_digest (drop 48 image) ==? slice 16 48 image)
  then invalid "snapshot payload checksum mismatch" else
  payload ← payload_reader (drop 48 image);
  let membership := is_some (sm_membership (pl_metadata payload)) in
  if (negb (pl_version payload =? 1) && negb (pl_version payload =? 2))
     || negb (eqb (pl_version payload =? 2) membership)
     || negb (eqb (pl_version payload =? 2) (slice 0 8 image ==? SNAPSHOT_MAGIC_V2))
  then invalid "unsupported snapshot payload version" else
  or_invalid (metadata_validate (pl_metadata payload));;
  application ← or_invalid (import_snapshot (pl_application payload)
                              (last_included_index (pl_metadata payload)));
  IoOk (mkSnapshotImage
          (mkSnapshotDescriptor (pl_metadata payload) (len64 image) (sha256_digest image))
          image application).

(** The frame [SnapshotImage::new] writes around a body. *)
Definition image_frame (version : N) (body : Bytes) : Bytes :=
  (if version =? 2 then SNAPSHOT_MAGIC_V2 else SNAPSHOT_MAGIC)
  ++ to_be_bytes 8 (len64 body) ++ sha256_digest body ++ body.

(** [SnapshotImage::new] *)
Definition image_new (metadata : SnapshotMetadata) (application : StateMachine) : Fallible SnapshotImage :=
  of_io (or_invalid (metadata_validate metadata));;
  refuse_if (negb (last_included_index metadata =? last_applied application))
    (InvalidData, "snapshot boundary differs from applied application state"%string);;
  exported ← or_panic (export_snapshot application);
  let payload := mkPayload (if is_some (sm_membership metadata) then 2 else 1) metadata exported in
  body ← of_io (limited_writes (MAX_SNAPSHOT_BYTES - HEADER_BYTES) [] (payload_writer payload));
  of_io (image_decode (image_frame (pl_version payload) body)).

(** ** The receiver

    The temporary file is its contents; an operation on it may fail ([IoFault]),
    and a failed write may have written a prefix. *)

Inductive IoFault : Type := OpenFails | SeekFails | ReadFails | WriteFails (written : N) | SyncFails.
#[export] Instance IoFault_eq_dec : EqDecision IoFault.
Proof. solve_decision. Defined.

Record ActiveTransfer := mkActiveTransfer {
  at_identity : SnapshotTransferId;
  at_descriptor : SnapshotDescriptor;
  at_file : Bytes;
  at_next_offset : N;
  at_complete : option SnapshotImage;
}.
#[export] Instance ActiveTransfer_eta : Eta ActiveTransfer := fun a =>
  mkActiveTransfer (at_identity a) (at_descriptor a) (at_file a) (at_next_offset a) (at_complete a).

Record SnapshotReceiver := mkReceiver { rx_active : option ActiveTransfer; rx_poisoned : bool }.

Record StagedChunk := mkStagedChunk { sc_next_offset : N; sc_complete : bool }.

Inductive SnapshotReceiveError : Type := ReceiveRejected (message : string) | ReceiveIo.

(** [SnapshotReceiver::new] *)
Definition receiver_new : SnapshotReceiver := mkReceiver None false.

Abbreviation Receive A := (Outcome SnapshotReceiveError A).
Definition or_reject {A} (r : Result A) : Receive A :=
  match r with Ok a => Done a | Err e => Refused (ReceiveRejected e) end.
Definition reject_if (b : bool) (message : string) : Receive unit := refuse_if b (ReceiveRejected message).

(** The checks of [stage_inner] that precede the receiver's own state; the
    answer when the chunk belongs to the installed image. *)
Definition stage_checks (identity : SnapshotTransferId) (descriptor : SnapshotDescriptor) (offset : N)
    (chunk : Bytes) (minimum_index : LogIndex) (voters : list NodeId) (installed : option SnapshotImage)
    (core_authorized : bool) : Receive (option StagedChunk) :=
  or_reject (descriptor_validate descriptor);;
  reject_if ((st_sequence identity =? 0)
             || (st_term identity <? last_included_term (metadata descriptor))
             || (negb core_authorized && negb (contains (st_leader_id identity) voters))
             || negb (members (metadata descriptor) ==? voters))
    "snapshot transfer authority or membership is invalid";;
  remaining ← ok_or (checked_sub (total_len descriptor) offset)
                (ReceiveRejected "snapshot chunk offset beyond end");
  let expected := N.min remaining MAX_SNAPSHOT_CHUNK_BYTES in
  reject_if ((expected =? 0) || negb (len64 chunk =? expected)
             || negb (offset mod MAX_SNAPSHOT_CHUNK_BYTES =? 0))
    "snapshot chunk is not a canonical bounded segment";;
  match option_filter (fun image => eqb (si_descriptor image) descriptor) installed with
  | Some image =>
      (* the slice panics beyond the image *)
      (if len64 (si_bytes image) <? offset + len64 chunk then Panicked else Done tt);;
      reject_if (negb (slice offset (offset + len64 chunk) (si_bytes image) ==? chunk))
        "installed snapshot duplicate chunk differs";;
      Done (Some (mkStagedChunk (total_len descriptor) true))
  | None =>
      reject_if (last_included_index (metadata descriptor) <=? minimum_index)
        "snapshot transfer is stale";;
      Done None
  end.

(** The transfer a chunk belongs to: the active one, or a new one that replaces
    it. *)
Definition stage_transfer (rx : SnapshotReceiver) (fault : option IoFault) (identity : SnapshotTransferId)
    (descriptor : SnapshotDescriptor) (offset : N) : Receive ActiveTransfer :=
  match rx_active rx with
  | Some active =>
      if at_identity active ==? identity then
        reject_if (negb (at_descriptor active ==? descriptor))
          "snapshot descriptor changed within one transfer";;
        Done active
      else
        reject_if (negb (offset =? 0)) "new snapshot transfer must begin at offset zero";;
        let newer := (st_term (at_identity active) <? st_term identity)
          || ((st_term identity =? st_term (at_identity active))
              && (st_leader_id identity =? st_leader_id (at_identity active))
              && (st_incarnation identity =? st_incarnation (at_identity active))
              && (st_sequence (at_identity active) <? st_sequence identity)) in
        reject_if (negb newer
                   || (last_included_index (metadata descriptor)
                       <? last_included_index (metadata (at_descriptor active))))
          "snapshot transfer identity is stale";;
        refuse_if (fault ==? Some OpenFails) ReceiveIo;;
        Done (mkActiveTransfer identity descriptor [] 0 None)
  | None =>
      reject_if (negb (offset =? 0)) "new snapshot transfer must begin at offset zero";;
      refuse_if (fault ==? Some OpenFails) ReceiveIo;;
      Done (mkActiveTransfer identity descriptor [] 0 None)
  end.

(** [file.write_all(bytes)] at the offset, or a prefix of it. *)
Definition write_file (file : Bytes) (offset : N) (data : Bytes) : Bytes :=
  take (N.to_nat offset) file ++ data ++ drop (N.to_nat offset + length data) file.

(** The chunk itself: compared with what was staged, or written. *)
Definition stage_write (active : ActiveTransfer) (fault : option IoFault) (offset : N) (chunk : Bytes) :
    Receive unit * ActiveTransfer :=
  if fault ==? Some SeekFails then (Refused ReceiveIo, active) else
  if offset <? at_next_offset active then
    if (fault ==? Some ReadFails) || (len64 (at_file active) <? offset + len64 chunk)
    then (Refused ReceiveIo, active) else
    (reject_if (negb (slice offset (offset + len64 chunk) (at_file active) ==? chunk))
       "duplicate snapshot chunk differs", active)
  else
    match fault with
    | Some (WriteFails written) =>
        (Refused ReceiveIo,
         active <| at_file := write_file (at_file active) offset (take (N.to_nat written) chunk) |>)
    | Some SyncFails =>
        (Refused ReceiveIo, active <| at_file := write_file (at_file active) offset chunk |>)
    | _ => (Done tt, active <| at_file := write_file (at_file active) offset chunk |>
                            <| at_next_offset := at_next_offset active + len64 chunk |>)
    end.

(** The complete image, once every byte is there. *)
Definition stage_complete (active : ActiveTransfer) (fault : option IoFault)
    (descriptor : SnapshotDescriptor) : Receive unit * ActiveTransfer :=
  if (at_next_offset active =? total_len descriptor) && is_none (at_complete active) then
    if fault ==? Some ReadFails then (Refused ReceiveIo, active) else
    let complete := take (N.to_nat (total_len descriptor + 1)) (at_file active) in
    if negb (len64 complete =? total_len descriptor)
       || negb (sha256_digest complete ==? sha256 descriptor)
    then (Refused (ReceiveRejected "complete transfer checksum or length mismatch"), active) else
    match image_decode complete with
    | IoErr _ e => (Refused (ReceiveRejected e), active)
    | IoOk image =>
        if negb (si_descriptor image ==? descriptor)
        then (Refused (ReceiveRejected "transfer descriptor differs from snapshot content"), active)
        else (Done tt, active <| at_complete := Some image |>)
    end
  else (Done tt, active).

(** [SnapshotReceiver::stage_inner] *)
Definition stage_inner (rx : SnapshotReceiver) (fault : option IoFault) (identity : SnapshotTransferId)
    (descriptor : SnapshotDescriptor) (offset : N) (chunk : Bytes) (minimum_index : LogIndex)
    (voters : list NodeId) (installed : option SnapshotImage) (core_authorized : bool) :
    Receive StagedChunk * SnapshotReceiver :=
  if rx_poisoned rx then (Refused ReceiveIo, rx) else
  match stage_checks identity descriptor offset chunk minimum_index voters installed core_authorized with
  | Panicked => (Panicked, rx)
  | Refused e => (Refused e, rx)
  | Done (Some staged) => (Done staged, rx)
  | Done None =>
      match stage_transfer rx fault identity descriptor offset with
      | Panicked => (Panicked, rx)
      | Refused ReceiveIo => (Refused ReceiveIo, mkReceiver (rx_active rx) true)
      | Refused e => (Refused e, rx)
      | Done active =>
          if at_next_offset active <? offset
          then (Refused (ReceiveRejected "snapshot chunk gap"), mkReceiver (Some active) false) else
          let '(result, active) :=
            match stage_write active fault offset chunk with
            | (Done _, active) => stage_complete active fault descriptor
            | failed => failed
            end in
          match result with
          | Done _ =>
              (Done (mkStagedChunk (at_next_offset active) (is_some (at_complete active))),
               mkReceiver (Some active) false)
          | Refused ReceiveIo => (Refused ReceiveIo, mkReceiver (Some active) true)
          | Refused e => (Refused e, mkReceiver (Some active) false)
          | Panicked => (Panicked, mkReceiver (Some active) false)
          end
      end
  end.

(** [SnapshotReceiver::stage_chunk] and [SnapshotReceiver::stage_authorized_chunk] *)
Definition stage_chunk (rx : SnapshotReceiver) fault identity descriptor offset chunk minimum_index voters installed :=
  stage_inner rx fault identity descriptor offset chunk minimum_index voters installed false.
Definition stage_authorized_chunk (rx : SnapshotReceiver) fault identity descriptor offset chunk minimum_index voters
    installed :=
  stage_inner rx fault identity descriptor offset chunk minimum_index voters installed true.

(** [SnapshotReceiver::completed] *)
Definition completed (rx : SnapshotReceiver) (identity : SnapshotTransferId) : option SnapshotImage :=
  if rx_poisoned rx then None else
  active ← option_filter (fun active => eqb (at_identity active) identity) (rx_active rx);
  at_complete active.

(** [SnapshotReceiver::cancel] *)
Definition receiver_cancel (rx : SnapshotReceiver) (fault : option IoFault) (identity : SnapshotTransferId) :
    Receive bool * SnapshotReceiver :=
  if rx_poisoned rx then (Refused ReceiveIo, rx) else
  match option_filter (fun active => eqb (at_identity active) identity) (rx_active rx) with
  | None => (Done false, rx)
  | Some _ => if is_some fault then (Refused ReceiveIo, mkReceiver (rx_active rx) true)
              else (Done true, mkReceiver None false)
  end.
(** [SnapshotReceiver::cancel_active] *)
Definition cancel_active (rx : SnapshotReceiver) (fault : option IoFault) : Receive unit * SnapshotReceiver :=
  if rx_poisoned rx then (Refused ReceiveIo, rx) else
  match rx_active rx with
  | Some active =>
      match receiver_cancel rx fault (at_identity active) with
      | (Done _, rx) => (Done tt, rx)
      | (Refused e, rx) => (Refused e, rx)
      | (Panicked, rx) => (Panicked, rx)
      end
  | None => (Done tt, rx)
  end.

(** ** The frame *)

Lemma of_io_Done {A} (r : Io A) a : of_io r = Done a <-> r = IoOk a.
Proof. destruct r; cbn; naive_solver. Qed.
Lemma or_invalid_Ok {A} (r : Result A) a : or_invalid r = IoOk a <-> r = Ok a.
Proof. destruct r; cbn; naive_solver. Qed.

Lemma limited_writes_Ok limit written buffers body :
  limited_writes limit written buffers = IoOk body ->
  body = written ++ concat buffers /\ (len64 written <= limit -> len64 body <= limit).
Proof.
  revert written. induction buffers as [|buffer buffers IH]; intros written; cbn [limited_writes concat].
  - intros [= <-]. by rewrite app_nil_r.
  - intros E. apply Io_bind_Ok in E as (w & Ew & E). unfold limited_write in Ew.
    destruct (N.ltb_spec (saturating_sub limit (len64 written)) (len64 buffer)) as [|Hle]; [done|].
    injection Ew as <-. apply IH in E as [-> Hb]. rewrite <- app_assoc. split; [done|].
    intros Hl. rewrite app_assoc. apply Hb. rewrite len64_app. unfold saturating_sub in Hle. lia.
Qed.
Lemma limited_writes_error limit written buffers k e :
  limited_writes limit written buffers = IoErr k e ->
  (k, e) = (InvalidInput, "snapshot serialization exceeds configured byte bound"%string).
Proof.
  revert written. induction buffers as [|buffer buffers IH]; intros written; cbn [limited_writes]; [done|].
  unfold limited_write. case_match; [by intros [= <- <-]|]. apply IH.
Qed.
(** A body within the bound is written whole. *)
Lemma limited_writes_fit limit written buffers :
  len64 written + len64 (concat buffers) <= limit ->
  limited_writes limit written buffers = IoOk (written ++ concat buffers).
Proof.
  revert written. induction buffers as [|buffer buffers IH]; intros written Hl; cbn [limited_writes concat] in *.
  - by rewrite app_nil_r.
  - rewrite len64_app in Hl. unfold limited_write, saturating_sub.
    rewrite (proj2 (N.ltb_ge _ _)) by lia. cbn [mbind Io_bind]. rewrite IH by (rewrite len64_app; lia).
    by rewrite <- app_assoc.
Qed.

Lemma slice_app_l {A} n (l1 l2 : list A) : len64 l1 = n -> slice 0 n (l1 ++ l2) = l1.
Proof.
  unfold slice, len64. intros <-. rewrite N.sub_0_r, Nat2N.id. cbn [N.to_nat drop]. by rewrite drop_0, take_app_length.
Qed.
Lemma slice_mid {A} a b (l1 l2 l3 : list A) :
  len64 l1 = a -> len64 l2 = b - a -> slice a b (l1 ++ l2 ++ l3) = l2.
Proof.
  unfold slice, len64. intros <- Hb. rewrite Nat2N.id, drop_app_length.
  rewrite <- Hb, Nat2N.id. by rewrite take_app_length.
Qed.
Lemma slice_all {A} (l : list A) n : slice n (len64 l) l = drop (N.to_nat n) l.
Proof. unfold slice, len64. rewrite take_ge; [done|]. rewrite length_drop. lia. Qed.

Context `{!Sha256Laws, !PayloadLaws}.

Definition version_of (metadata : SnapshotMetadata) : N := if is_some (sm_membership metadata) then 2 else 1.

(** Decoding a frame is decoding its body. *)
Lemma decode_frame metadata exported :
  let payload := mkPayload (version_of metadata) metadata exported in
  let body := concat (payload_writer payload) in
  let image := image_frame (version_of metadata) body in
  len64 body <= MAX_SNAPSHOT_BYTES - HEADER_BYTES ->
  image_decode image
  = (or_invalid (metadata_validate metadata);;
     application ← or_invalid (import_snapshot exported (last_included_index metadata));
     IoOk (mkSnapshotImage (mkSnapshotDescriptor metadata (len64 image) (sha256_digest image)) image application)).
Proof.
  intros payload body image Hl.
  assert (Hm : len64 (if version_of metadata =? 2 then SNAPSHOT_MAGIC_V2 else SNAPSHOT_MAGIC) = 8)
    by (unfold version_of; destruct (is_some _); vm_compute; reflexivity).
  assert (Hd : len64 (sha256_digest body) = 32) by (unfold len64; by rewrite sha256_length).
  assert (Hb : len64 (to_be_bytes 8 (len64 body)) = 8) by (unfold len64; by rewrite to_be_bytes_length).
  assert (Hlen : len64 image = HEADER_BYTES + len64 body).
  { unfold image, image_frame. rewrite !len64_app, Hm, Hd, Hb. unfold HEADER_BYTES. lia. }
  assert (Hdrop : drop 48 image = body).
  { change 48%nat with (N.to_nat 48). unfold image, image_frame. rewrite !app_assoc.
    rewrite drop_app_length'; [done|]. unfold len64 in *. rewrite !length_app. lia. }
  assert (Hs0 : slice 0 8 image = if version_of metadata =? 2 then SNAPSHOT_MAGIC_V2 else SNAPSHOT_MAGIC)
    by (by apply slice_app_l).
  assert (Hs8 : slice 8 16 image = to_be_bytes 8 (len64 body)) by (by apply slice_mid).
  assert (Hs16 : slice 16 48 image = sha256_digest body).
  { unfold image, image_frame. rewrite app_assoc. apply slice_mid; [|done]. rewrite len64_app, Hm, Hb. done. }
  unfold image_decode. rewrite Hs0, Hs8, Hs16, Hdrop, Hlen.
  assert (Hmax : MAX_SNAPSHOT_BYTES <= u64_max) by (vm_compute; discriminate).
  rewrite from_to_be_bytes8 by (unfold HEADER_BYTES in *; lia).
  rewrite (proj2 (N.ltb_ge _ _)) by lia.
  rewrite (proj2 (N.ltb_ge _ _)) by (unfold MAX_SNAPSHOT_BYTES, HEADER_BYTES in *; lia).
  replace (HEADER_BYTES + len64 body - HEADER_BYTES) with (len64 body) by lia.
  rewrite N.eqb_refl, (proj2 (eqb_true (sha256_digest body) _) eq_refl).
  assert (Hr : payload_reader body = IoOk payload) by apply payload_inverse. rewrite Hr.
  assert (E1 : (SNAPSHOT_MAGIC_V2 ==? SNAPSHOT_MAGIC) = false) by (vm_compute; reflexivity).
  assert (E2 : (SNAPSHOT_MAGIC ==? SNAPSHOT_MAGIC) = true) by (vm_compute; reflexivity).
  assert (E3 : (SNAPSHOT_MAGIC_V2 ==? SNAPSHOT_MAGIC_V2) = true) by (vm_compute; reflexivity).
  assert (E4 : (SNAPSHOT_MAGIC ==? SNAPSHOT_MAGIC_V2) = false) by (vm_compute; reflexivity).
  cbn [mbind Io_bind pl_version pl_metadata pl_application payload].
  unfold version_of. destruct (is_some (sm_membership metadata)); cbn [N.eqb Pos.eqb]; rewrite ?E1, ?E2, ?E3, ?E4; done.
Qed.

Lemma decode_sound b image :
  image_decode b = IoOk image ->
  si_bytes image = b
  /\ si_descriptor image
     = mkSnapshotDescriptor (metadata (si_descriptor image)) (len64 b) (sha256_digest b)
  /\ descriptor_validate (si_descriptor image) = Ok tt
  /\ exists exported, import_snapshot exported (last_included_index (metadata (si_descriptor image)))
       = Ok (si_application image).
Proof.
  unfold image_decode. destruct (_ || _) eqn:K1; [done|]. destruct (negb (from_be_bytes _ =? _)) eqn:K2; [done|].
  destruct (negb (sha256_digest _ ==? _)) eqn:K3; [done|]. intros E.
  apply Io_bind_Ok in E as (payload & _ & E). cbv zeta in E. destruct (_ || _) eqn:K4 in E; [done|].
  apply Io_bind_Ok in E as ([] & Hm & E). apply or_invalid_Ok in Hm.
  apply Io_bind_Ok in E as (application & Ha & [= <-]). apply or_invalid_Ok in Ha.
  apply orb_false_iff in K1 as [K1 _]. apply orb_false_iff in K1 as [Hlo Hhi]. apply N.ltb_ge in Hlo, Hhi.
  cbn [si_bytes si_descriptor metadata si_application]. split; [done|]. split; [done|]. split; [|by eexists].
  unfold descriptor_validate. cbn [metadata total_len]. rewrite Hm. cbn [mbind Result_bind].
  change MIN_SNAPSHOT_BYTES with HEADER_BYTES.
  by rewrite (proj2 (N.leb_le _ _) Hlo), (proj2 (N.leb_le _ _) Hhi).
Qed.

(** ** Receiving *)

Record active_ok (a : ActiveTransfer) : Prop := {
  ao_valid : descriptor_validate (at_descriptor a) = Ok tt;
  ao_file : len64 (at_file a) = at_next_offset a;
  ao_offset : at_next_offset a <= total_len (at_descriptor a);
  ao_aligned : at_next_offset a mod MAX_SNAPSHOT_CHUNK_BYTES = 0 \/ at_next_offset a = total_len (at_descriptor a);
  ao_complete : forall image, at_complete a = Some image ->
    image_decode (at_file a) = IoOk image /\ si_descriptor image = at_descriptor a;
}.
Definition receiver_ok (rx : SnapshotReceiver) : Prop :=
  rx_poisoned rx = false -> forall a, rx_active rx = Some a -> active_ok a.

Lemma write_file_end file data : write_file file (len64 file) data = file ++ data.
Proof.
  unfold write_file, len64. rewrite Nat2N.id, take_ge by lia. rewrite drop_ge by lia. by rewrite app_nil_r.
Qed.

Lemma stage_checks_chunk identity d offset chunk minimum voters installed auth :
  stage_checks identity d offset chunk minimum voters installed auth = Done None ->
  descriptor_validate d = Ok tt /\ 0 < len64 chunk /\ offset mod MAX_SNAPSHOT_CHUNK_BYTES = 0
  /\ len64 chunk = N.min (total_len d - offset) MAX_SNAPSHOT_CHUNK_BYTES /\ offset <= total_len d.
Proof.
  unfold stage_checks. intros E. apply Outcome_bind_Done in E as ([] & Hv & E).
  assert (Hd : descriptor_validate d = Ok tt) by (destruct (descriptor_validate d) as [[]|]; done).
  apply Outcome_bind_Done in E as ([] & _ & E). apply Outcome_bind_Done in E as (remaining & Hr & E).
  apply ok_or_Done, checked_sub_Some in Hr as [-> Hr]. cbv zeta in E.
  apply Outcome_bind_Done in E as ([] & Hc & _). apply refuse_if_Done in Hc.
  apply orb_false_iff in Hc as [Hc Hc3]. apply orb_false_iff in Hc as [Hc1 Hc2].
  apply N.eqb_neq in Hc1. apply negb_false_iff, N.eqb_eq in Hc2, Hc3. split; [done|]. split; [lia|].
  split; [done|]. lia.
Qed.

Lemma stage_transfer_ok rx fault identity d offset a :
  receiver_ok rx -> rx_poisoned rx = false -> descriptor_validate d = Ok tt ->
  stage_transfer rx fault identity d offset = Done a ->
  active_ok a /\ at_identity a = identity /\ at_descriptor a = d.
Proof.
  intros Hok Hp Hd. unfold stage_transfer.
  assert (Hnew : active_ok (mkActiveTransfer identity d [] 0 None)) by (by split; [| |apply N.le_0_l|left|]).
  destruct (rx_active rx) as [old|] eqn:Ha.
  - destruct (at_identity old ==? identity) eqn:Hid.
    + intros E. apply Outcome_bind_Done in E as ([] & Hs & [= <-]). apply refuse_if_Done, negb_false_iff, eqb_true_1 in Hs.
      apply eqb_true_1 in Hid. split; [by apply Hok|done].
    + intros E. apply Outcome_bind_Done in E as ([] & _ & E). apply Outcome_bind_Done in E as ([] & _ & E).
      apply Outcome_bind_Done in E as ([] & _ & [= <-]). done.
  - intros E. apply Outcome_bind_Done in E as ([] & _ & E). apply Outcome_bind_Done in E as ([] & _ & [= <-]). done.
Qed.

Lemma chunk_below_next offset next total :
  offset mod MAX_SNAPSHOT_CHUNK_BYTES = 0 -> next mod MAX_SNAPSHOT_CHUNK_BYTES = 0 \/ next = total ->
  offset < next -> next <= total -> offset + N.min (total - offset) MAX_SNAPSHOT_CHUNK_BYTES <= next.
Proof.
  intros Ho [Hn | ->] Hlt Hle; [|lia].
  assert (Hc : MAX_SNAPSHOT_CHUNK_BYTES = 65536) by reflexivity. rewrite Hc in *.
  apply N.Div0.mod_divides in Ho as [a ->]. apply N.Div0.mod_divides in Hn as [b ->]. nia.
Qed.

(** What staging a chunk makes of a sound transfer: the chunk is the stored
    segment, or extends the file. *)
Lemma stage_write_ok a fault offset chunk r a' :
  active_ok a -> offset <= at_next_offset a -> offset mod MAX_SNAPSHOT_CHUNK_BYTES = 0 ->
  len64 chunk = N.min (total_len (at_descriptor a) - offset) MAX_SNAPSHOT_CHUNK_BYTES ->
  stage_write a fault offset chunk = (r, a') ->
  r = Refused ReceiveIo
  \/ (offset < at_next_offset a /\ a' = a
      /\ (r = Done tt /\ slice offset (offset + len64 chunk) (at_file a) = chunk
          \/ exists m, r = Refused (ReceiveRejected m)))
  \/ (offset = at_next_offset a /\ r = Done tt
      /\ a' = a <| at_file := at_file a ++ chunk |> <| at_next_offset := at_next_offset a + len64 chunk |>).
Proof.
  intros [Hv Hf Ho Hal Hc] Hle Hmod Hlen. unfold stage_write.
  destruct (fault ==? Some SeekFails); [intros [= <- <-]; by left|].
  destruct (N.ltb_spec offset (at_next_offset a)) as [Hlt|Hge].
  - destruct ((fault ==? Some ReadFails) || _); [intros [= <- <-]; by left|].
    unfold reject_if, refuse_if. destruct (negb _) eqn:E; intros [= <- <-]; right; left.
    + split; [done|]. split; [done|]. right. by eexists.
    + apply negb_false_iff, eqb_true_1 in E. split; [done|]. split; [done|]. by left.
  - assert (offset = at_next_offset a) as -> by lia. rewrite <- Hf, write_file_end.
    destruct fault as [[]|]; intros [= <- <-]; try (by left); right; right; by rewrite Hf.
Qed.

Lemma stage_complete_ok a fault r a' :
  active_ok a \/ (descriptor_validate (at_descriptor a) = Ok tt /\ len64 (at_file a) = at_next_offset a
    /\ at_next_offset a <= total_len (at_descriptor a)
    /\ (at_next_offset a mod MAX_SNAPSHOT_CHUNK_BYTES = 0 \/ at_next_offset a = total_len (at_descriptor a))
    /\ at_complete a = None) ->
  stage_complete a fault (at_descriptor a) = (r, a') ->
  active_ok a' /\ at_identity a' = at_identity a /\ at_descriptor a' = at_descriptor a
  /\ at_file a' = at_file a /\ at_next_offset a' = at_next_offset a
  /\ (r = Done tt -> at_next_offset a = total_len (at_descriptor a) -> is_Some (at_complete a'))
  /\ r <> Panicked.
Proof.
  intros Hok. assert (Hb : active_ok a).
  { destruct Hok as [?|(? & ? & ? & ? & Hn)]; [done|]. split; try done. by rewrite Hn. }
  unfold stage_complete. destruct (_ && _) eqn:E.
  - apply andb_true_iff in E as [E1 E2]. apply N.eqb_eq in E1. pose proof Hb as [Hv Hf Ho Hal Hc].
    destruct (fault ==? _); [intros [= <- <-]; by split_and!|].
    rewrite take_ge by (unfold len64 in Hf; lia).
    destruct (_ || _); [intros [= <- <-]; by split_and!|].
    destruct (image_decode (at_file a)) as [image|k e] eqn:Hd; [|intros [= <- <-]; by split_and!].
    destruct (negb _) eqn:Heq; intros [= <- <-]; [by split_and!|].
    apply negb_false_iff, eqb_true_1 in Heq. split_and!; try done. split; try done. by intros ? [= <-].
  - intros [= <- <-]. split_and!; try done. intros _ Hn. rewrite Hn, N.eqb_refl in E. cbn in E.
    by destruct (at_complete a).
Qed.

Lemma stage_checks_panic identity d offset chunk minimum voters installed auth :
  (forall image, installed = Some image -> image_decode (si_bytes image) = IoOk image) ->
  stage_checks identity d offset chunk minimum voters installed auth <> Panicked.
Proof.
  intros Hinst. unfold stage_checks. apply bind_no_panic; [by destruct (descriptor_validate d)|intros [] _].
  apply bind_no_panic; [apply refuse_if_no_panic|intros [] _].
  apply bind_no_panic; [apply ok_or_no_panic|]. intros remaining Hr. cbv zeta. apply ok_or_Done, checked_sub_Some in Hr as [-> Hr].
  apply bind_no_panic; [apply refuse_if_no_panic|]. intros [] Hc. apply refuse_if_Done in Hc.
  apply orb_false_iff in Hc as [Hc _]. apply orb_false_iff in Hc as [_ Hc]. apply negb_false_iff, N.eqb_eq in Hc.
  destruct installed as [image|]; cbn [option_filter].
  - destruct (si_descriptor image ==? d) eqn:Hd; [|apply bind_no_panic; [apply refuse_if_no_panic|done]].
    apply eqb_true_1 in Hd. destruct (decode_sound _ _ (Hinst image eq_refl)) as (_ & Hdd & _).
    apply bind_no_panic; [|intros [] _; apply bind_no_panic; [apply refuse_if_no_panic|done]].
    rewrite (proj2 (N.ltb_ge _ _)); [done|]. rewrite Hc. rewrite <- Hd, Hdd in Hr |- *. cbn [total_len] in *. lia.
  - apply bind_no_panic; [apply refuse_if_no_panic|done].
Qed.

(** A chunk of the installed image is answered from that image alone; any other
    accepted chunk is not announced under the installed image's descriptor. *)
Lemma stage_checks_installed identity d offset chunk minimum voters installed auth answer :
  stage_checks identity d offset chunk minimum voters installed auth = Done answer ->
  match answer with
  | Some staged => exists image, installed = Some image /\ si_descriptor image = d
      /\ slice offset (offset + len64 chunk) (si_bytes image) = chunk /\ staged = mkStagedChunk (total_len d) true
  | None => forall image, installed = Some image -> si_descriptor image <> d
  end.
Proof.
  unfold stage_checks. intros E. apply Outcome_bind_Done in E as ([] & _ & E). apply Outcome_bind_Done in E as ([] & _ & E).
  apply Outcome_bind_Done in E as (remaining & _ & E). cbv zeta in E. apply Outcome_bind_Done in E as ([] & _ & E).
  destruct installed as [image|]; cbn [option_filter] in E; [destruct (si_descriptor image ==? d) eqn:Hd|].
  - apply eqb_true_1 in Hd. apply Outcome_bind_Done in E as ([] & _ & E). apply Outcome_bind_Done in E as ([] & Hs & [= <-]).
    apply refuse_if_Done, negb_false_iff, eqb_true_1 in Hs. by exists image.
  - apply Outcome_bind_Done in E as ([] & _ & [= <-]). intros image' [= <-]. by apply eqb_false_1.
  - by apply Outcome_bind_Done in E as ([] & _ & [= <-]).
Qed.

(** One chunk, whatever fails: the receiver stays sound, nothing panics, and the
    answer says where the transfer stands. *)
Lemma stage_inner_ok rx fault identity d offset chunk minimum voters installed auth :
  receiver_ok rx -> (forall image, installed = Some image -> image_decode (si_bytes image) = IoOk image) ->
  let '(r, rx') := stage_inner rx fault identity d offset chunk minimum voters installed auth in
  receiver_ok rx' /\ r <> Panicked
  /\ forall staged, r = Done staged ->
       (exists image, installed = Some image /\ si_descriptor image = d /\ rx' = rx
          /\ slice offset (offset + len64 chunk) (si_bytes image) = chunk
          /\ staged = mkStagedChunk (total_len d) true)
       \/ (exists a, (forall image, installed = Some image -> si_descriptor image <> d)
          /\ rx' = mkReceiver (Some a) false /\ at_identity a = identity /\ at_descriptor a = d
          /\ slice offset (offset + len64 chunk) (at_file a) = chunk
          /\ sc_next_offset staged = at_next_offset a /\ offset + len64 chunk <= at_next_offset a
          /\ sc_complete staged = is_some (completed rx' identity)
          /\ (sc_complete staged = true <-> at_next_offset a = total_len d)).
Proof.
  intros Hok Hinst. unfold stage_inner. destruct (rx_poisoned rx) eqn:Hp; [by split_and!|].
  pose proof (stage_checks_panic identity d offset chunk minimum voters installed auth Hinst) as Hnp.
  destruct (stage_checks _ _ _ _ _ _ _ _) as [[staged|]|e|] eqn:Hch; [| |by split_and!|done].
  - split; [done|]. split; [done|]. intros st [= <-]. left.
    destruct (stage_checks_installed _ _ _ _ _ _ _ _ _ Hch) as (image & ? & ? & ? & ?). by exists image.
  - pose proof (stage_checks_installed _ _ _ _ _ _ _ _ _ Hch) as Hother.
    apply stage_checks_chunk in Hch as (Hd & Hpos & Hmod & Hlen & Hoff).
    destruct (stage_transfer rx fault identity d offset) as [a|[m|]|] eqn:Ht; [|by split_and!|by split_and!|].
    2:{ exfalso. revert Ht. unfold stage_transfer, reject_if, refuse_if. by repeat case_match. }
    destruct (stage_transfer_ok rx fault identity d offset a Hok Hp Hd Ht) as (Ha & Hid & Hda).
    destruct (N.ltb_spec (at_next_offset a) offset) as [Hgap|Hgap].
    { split; [|done]. intros _ a' [= <-]. done. }
    destruct (stage_write a fault offset chunk) as [r a1] eqn:Hw.
    pose proof (stage_write_ok a fault offset chunk r a1 Ha Hgap Hmod ltac:(by rewrite Hda) Hw) as Hcases.
    assert (Hdone : r = Done tt ->
      (active_ok a1 \/ (descriptor_validate (at_descriptor a1) = Ok tt /\ len64 (at_file a1) = at_next_offset a1
        /\ at_next_offset a1 <= total_len (at_descriptor a1)
        /\ (at_next_offset a1 mod MAX_SNAPSHOT_CHUNK_BYTES = 0 \/ at_next_offset a1 = total_len (at_descriptor a1))
        /\ at_complete a1 = None))
      /\ at_identity a1 = identity /\ at_descriptor a1 = d
      /\ slice offset (offset + len64 chunk) (at_file a1) = chunk /\ offset + len64 chunk <= at_next_offset a1).
    { intros ->. destruct Hcases as [Hx|[(Hlt & -> & [[_ Hs]|[m Hx]])|(-> & _ & ->)]]; [done| |done|].
      - split; [by left|]. split; [done|]. split; [done|]. split; [done|]. rewrite Hlen.
        apply chunk_below_next; [done|rewrite <- Hda; apply Ha|done|rewrite <- Hda; apply Ha].
      - destruct Ha as [Hv Hf Ho Hal Hc]. cbn [upd at_identity at_descriptor at_next_offset at_file at_complete].
        split; [right|].
        + split; [done|]. split; [rewrite len64_app; lia|]. rewrite Hda in *. split; [lia|]. split.
          * rewrite Hlen. destruct (N.le_gt_cases MAX_SNAPSHOT_CHUNK_BYTES (total_len d - at_next_offset a)) as [Hle|Hgt].
            -- left. rewrite N.min_r by done. rewrite N.Div0.add_mod, Hmod, N.Div0.mod_same. done.
            -- right. lia.
          * destruct (at_complete a) as [image|] eqn:Hcm; [|done]. exfalso. destruct (Hc image eq_refl) as [Hdec Hdes].
            destruct (decode_sound _ _ Hdec) as (_ & Hdd & _). rewrite Hdes in Hdd.
            rewrite Hdd in Hlen. cbn [total_len] in Hlen. lia.
        + split; [done|]. split; [done|]. split; [|lia]. rewrite <- Hf.
          rewrite <- (app_nil_r (at_file a ++ chunk)), <- app_assoc. apply slice_mid; [done|lia]. }
    assert (Hfail : r <> Done tt -> exists e, r = Refused e /\ (e <> ReceiveIo -> a1 = a)).
    { intros Hr. destruct Hcases as [->|[(_ & -> & [[? _]|[m ->]])|(_ & ? & _)]]; try done; by eexists. }
    destruct r as [[]|e|]; cbn [fst snd].
    + destruct (Hdone eq_refl) as (Hpre & Hid1 & Hd1 & Hsl & Hnx). rewrite <- Hd1.
      destruct (stage_complete a1 fault (at_descriptor a1)) as [r2 a2] eqn:Hsc.
      destruct (stage_complete_ok a1 fault r2 a2 Hpre Hsc) as (Ha2 & Hid2 & Hd2 & Hf2 & Hn2 & Hfull & Hnp2).
      assert (Hrx : receiver_ok (mkReceiver (Some a2) false)) by (intros _ a' [= <-]; done).
      destruct r2 as [[]|e2|]; [|destruct e2; (split; [done|]; split; [done|]; done)|done].
      split; [done|]. split; [done|]. intros staged [= <-]. right. exists a2.
      cbn [sc_next_offset sc_complete]. rewrite Hid2, Hd2, Hf2, Hn2, Hid1.
      split; [by rewrite Hd1|]. split; [done|]. split; [done|]. split; [done|]. split; [done|]. split; [done|]. split; [done|].
      unfold completed. cbn [rx_poisoned rx_active option_filter]. rewrite Hid2, Hid1, (proj2 (eqb_true identity _) eq_refl).
      split; [done|]. split.
      * intros Hs. destruct (at_complete a2) as [image|] eqn:Hcm; [|done].
        destruct Ha2 as [_ Hff _ _ Hc2]. destruct (Hc2 image Hcm) as [Hdec Hdes].
        destruct (decode_sound _ _ Hdec) as (_ & Hdd & _). rewrite Hdes in Hdd. rewrite <- Hn2, <- Hd2, <- Hff.
        by rewrite Hdd.
      * intros Hn. by destruct (Hfull eq_refl Hn) as [image ->].
    + destruct (Hfail ltac:(done)) as (e' & [= <-] & Ha1). destruct e as [m|].
      * rewrite (Ha1 ltac:(done)). split; [intros _ a' [= <-]; done|done].
      * split; [done|]. done.
    + by destruct (Hfail ltac:(done)) as (? & ? & _).
Qed.

(** The states of a receiver: chunks and cancellations, whatever fails. *)
Inductive receiving : SnapshotReceiver -> Prop :=
| receiving_new : receiving receiver_new
| receiving_stage rx fault identity d offset chunk minimum voters installed auth :
    receiving rx -> (forall image, installed = Some image -> image_decode (si_bytes image) = IoOk image) ->
    receiving (stage_inner rx fault identity d offset chunk minimum voters installed auth).2
| receiving_cancel rx fault identity : receiving rx -> receiving (receiver_cancel rx fault identity).2
| receiving_cancel_active rx fault : receiving rx -> receiving (cancel_active rx fault).2.

Lemma cancel_ok rx fault identity : receiver_ok rx -> receiver_ok (receiver_cancel rx fault identity).2.
Proof.
  intros Hok. unfold receiver_cancel. destruct (rx_poisoned rx) eqn:Hp; [done|].
  destruct (option_filter _ _); [|done]. by destruct (is_some fault).
Qed.
Lemma receiving_ok rx : receiving rx -> receiver_ok rx.
Proof.
  induction 1 as [|rx fault identity d offset chunk minimum voters installed auth _ IH Hi| |rx fault _ IH].
  - done.
  - pose proof (stage_inner_ok rx fault identity d offset chunk minimum voters installed auth IH Hi) as Hs.
    destruct (stage_inner _ _ _ _ _ _ _ _ _ _) as [r rx']. apply Hs.
  - by apply cancel_ok.
  - unfold cancel_active. destruct (rx_poisoned rx); [done|]. destruct (rx_active rx) as [a|]; [|done].
    pose proof (cancel_ok rx fault (at_identity a) IH) as Hc. by destruct (receiver_cancel _ _ _) as [[]].
Qed.

(** ** Streaming an image *)

(** The sender: the canonical segments of an image's bytes, in order, each from
    the offset the receiver asked for. *)
Fixpoint stream (n : nat) (image : SnapshotImage) (identity : SnapshotTransferId) (minimum : LogIndex)
    (auth : bool) (offset : N) (rx : SnapshotReceiver) : option SnapshotReceiver :=
  match n with
  | O => None
  | S n =>
      let d := si_descriptor image in
      let size := N.min (total_len d - offset) MAX_SNAPSHOT_CHUNK_BYTES in
      match stage_inner rx None identity d offset (slice offset (offset + size) (si_bytes image)) minimum
              (members (metadata d)) None auth with
      | (Done staged, rx) =>
          if sc_complete staged then Some rx
          else stream n image identity minimum auth (sc_next_offset staged) rx
      | _ => None
      end
  end.

(** The receiver and the transfer agree on authority, and the transfer is newer
    than the one in the slot. *)
Definition startable (rx : SnapshotReceiver) (identity : SnapshotTransferId) (d : SnapshotDescriptor)
    (minimum : LogIndex) (auth : bool) : Prop :=
  rx_poisoned rx = false /\ stage_transfer rx None identity d 0 = Done (mkActiveTransfer identity d [] 0 None)
  /\ st_sequence identity <> 0 /\ last_included_term (metadata d) <= st_term identity
  /\ (auth = true \/ st_leader_id identity ∈ members (metadata d))
  /\ minimum < last_included_index (metadata d).

Lemma stage_checks_pass identity d offset chunk minimum auth :
  descriptor_validate d = Ok tt -> st_sequence identity <> 0 ->
  last_included_term (metadata d) <= st_term identity ->
  (auth = true \/ st_leader_id identity ∈ members (metadata d)) ->
  minimum < last_included_index (metadata d) ->
  offset < total_len d -> offset mod MAX_SNAPSHOT_CHUNK_BYTES = 0 ->
  len64 chunk = N.min (total_len d - offset) MAX_SNAPSHOT_CHUNK_BYTES ->
  stage_checks identity d offset chunk minimum (members (metadata d)) None auth = Done None.
Proof.
  intros Hv Hs Ht Ha Hm Ho Hmod Hlen. unfold stage_checks. rewrite Hv. cbn [or_reject mbind Outcome_bind].
  unfold reject_if. apply Outcome_bind_unit; [apply refuse_if_Done|].
  { rewrite (proj2 (N.eqb_neq _ _) Hs), (proj2 (N.ltb_ge _ _) Ht), (proj2 (eqb_true (members (metadata d)) _) eq_refl).
    destruct Ha as [->|Ha]; [done|]. rewrite (proj2 (contains_true _ _) Ha). by rewrite andb_false_r. }
  assert (Hle : offset <= total_len d) by (by apply N.lt_le_incl).
  rewrite (proj2 (checked_sub_Some (total_len d) offset _) (conj eq_refl Hle)).
  cbn [ok_or mbind Outcome_bind]. apply Outcome_bind_unit; [apply refuse_if_Done|].
  { rewrite Hlen, N.eqb_refl, Hmod, N.eqb_refl. cbn [negb]. rewrite !orb_false_r. apply N.eqb_neq.
    assert (MAX_SNAPSHOT_CHUNK_BYTES = 65536) by reflexivity. lia. }
  cbn [option_filter]. apply Outcome_bind_unit; [|done]. apply refuse_if_Done. by apply N.leb_gt.
Qed.

Lemma slice_len {A} low high (l : list A) : low <= high -> high <= len64 l -> len64 (slice low high l) = high - low.
Proof. unfold slice, len64. intros. rewrite length_take, length_drop. lia. Qed.
Lemma take_slice {A} low high (l : list A) :
  low <= high -> take (N.to_nat low) l ++ slice low high l = take (N.to_nat high) l.
Proof.
  intros Hle. unfold slice. replace (N.to_nat high) with (N.to_nat low + N.to_nat (high - low))%nat by lia.
  by rewrite take_take_drop.
Qed.

(** One step of the stream, from the transfer that holds the bytes before it. *)
Lemma stream_step rx image identity minimum auth offset :
  image_decode (si_bytes image) = IoOk image ->
  rx_poisoned rx = false ->
  let d := si_descriptor image in
  stage_transfer rx None identity d offset
    = Done (mkActiveTransfer identity d (take (N.to_nat offset) (si_bytes image)) offset None) ->
  st_sequence identity <> 0 -> last_included_term (metadata d) <= st_term identity ->
  (auth = true \/ st_leader_id identity ∈ members (metadata d)) -> minimum < last_included_index (metadata d) ->
  offset < total_len d -> offset mod MAX_SNAPSHOT_CHUNK_BYTES = 0 ->
  let size := N.min (total_len d - offset) MAX_SNAPSHOT_CHUNK_BYTES in
  let a := mkActiveTransfer identity d (take (N.to_nat (offset + size)) (si_bytes image)) (offset + size) None in
  stage_inner rx None identity d offset (slice offset (offset + size) (si_bytes image)) minimum
    (members (metadata d)) None auth
  = if offset + size =? total_len d
    then (Done (mkStagedChunk (total_len d) true), mkReceiver (Some (a <| at_complete := Some image |>)) false)
    else (Done (mkStagedChunk (offset + size) false), mkReceiver (Some a) false).
Proof.
  intros Hdec Hp d Ht Hs Htm Ha Hm Ho Hmod size a.
  destruct (decode_sound _ _ Hdec) as (_ & Hd & Hv & _). fold d in Hd, Hv.
  assert (Hlen : total_len d = len64 (si_bytes image)) by (rewrite Hd; done).
  assert (Hsl : len64 (slice offset (offset + size) (si_bytes image)) = size) by (rewrite slice_len; lia).
  unfold stage_inner. rewrite Hp, (stage_checks_pass identity d offset _ minimum auth) by (done || lia).
  rewrite Ht. cbn [at_next_offset]. rewrite N.ltb_irrefl. unfold stage_write. cbn [at_next_offset at_file].
  assert (Hno : forall f : IoFault, (None ==? Some f) = false) by (intros f; by apply eqb_false).
  rewrite Hno, N.ltb_irrefl.
  assert (Hw : write_file (take (N.to_nat offset) (si_bytes image)) offset (slice offset (offset + size) (si_bytes image))
    = take (N.to_nat (offset + size)) (si_bytes image)).
  { assert (Hto : len64 (take (N.to_nat offset) (si_bytes image)) = offset)
      by (unfold len64 in *; rewrite length_take; lia).
    rewrite <- Hto at 2. rewrite write_file_end. apply take_slice. lia. }
  rewrite Hw, Hsl. unfold upd. cbn [at_identity at_descriptor at_file at_next_offset at_complete].
  unfold stage_complete. cbn [at_next_offset at_complete at_file is_none is_some negb]. rewrite andb_true_r, Hno.
  destruct (N.eqb_spec (offset + size) (total_len d)) as [He|He]; [|done].
  rewrite He, take_take, Nat.min_r by lia.
  assert (Hall : take (N.to_nat (total_len d)) (si_bytes image) = si_bytes image)
    by (apply take_ge; unfold len64 in Hlen; lia).
  rewrite Hall, <- Hlen, N.eqb_refl. cbn [negb orb].
  assert (Hsha : sha256_digest (si_bytes image) = sha256 d) by (rewrite Hd; done).
  rewrite (proj2 (eqb_true _ _) Hsha). cbn [negb]. rewrite Hdec, (proj2 (eqb_true (si_descriptor image) d) eq_refl).
  cbn [negb is_some at_next_offset at_complete]. unfold a, upd. cbn. by rewrite He, Hall.
Qed.

Lemma stream_rest n rx image identity minimum auth offset :
  image_decode (si_bytes image) = IoOk image -> rx_poisoned rx = false ->
  let d := si_descriptor image in
  stage_transfer rx None identity d offset
    = Done (mkActiveTransfer identity d (take (N.to_nat offset) (si_bytes image)) offset None) ->
  st_sequence identity <> 0 -> last_included_term (metadata d) <= st_term identity ->
  (auth = true \/ st_leader_id identity ∈ members (metadata d)) -> minimum < last_included_index (metadata d) ->
  offset < total_len d -> offset mod MAX_SNAPSHOT_CHUNK_BYTES = 0 ->
  total_len d <= offset + N.of_nat n * MAX_SNAPSHOT_CHUNK_BYTES ->
  exists rx', stream n image identity minimum auth offset rx = Some rx' /\ completed rx' identity = Some image.
Proof.
  intros Hdec Hp d Ht Hs Htm Ha Hm. revert rx offset Hp Ht.
  induction n as [|n IH]; intros rx offset Hp Ht Ho Hmod Hn; [lia|].
  cbn [stream]. rewrite (stream_step rx image identity minimum auth offset) by done. fold d.
  destruct (N.eqb_spec (offset + N.min (total_len d - offset) MAX_SNAPSHOT_CHUNK_BYTES) (total_len d)) as [He|He].
  - cbn [sc_complete]. eexists. split; [done|]. unfold completed. cbn [rx_poisoned rx_active option_filter at_identity upd].
    by rewrite (proj2 (eqb_true identity _) eq_refl).
  - cbn [sc_complete sc_next_offset]. apply IH; [done| |lia| |].
    + unfold stage_transfer. cbn [rx_active at_identity at_descriptor].
      rewrite (proj2 (eqb_true identity _) eq_refl), (proj2 (eqb_true d _) eq_refl). done.
    + rewrite N.min_r in He |- * by lia. rewrite N.Div0.add_mod, Hmod, N.Div0.mod_same. done.
    + lia.
Qed.
End image.

(** * Theorems *)

(** (C24) A snapshot image is exact.  Framing the application of a reachable state
    at its own boundary gives, unless the payload exceeds the byte bound, an
    image with that boundary that decodes to itself and holds that very state;
    and whatever bytes decode to an image, the image is those bytes, its
    descriptor is their length and checksum and valid, and its application is a
    valid state at the boundary. *)
Theorem image_roundtrip `{Sha256, PayloadFormat, !Sha256Laws, !PayloadLaws} md sm :
  app_reachable admissible sm -> metadata_validate md = Ok tt -> last_included_index md = last_applied sm ->
  (exists exported, export_snapshot sm = Some exported
   /\ let body := concat (payload_writer (mkPayload (version_of md) md exported)) in
      if MAX_SNAPSHOT_BYTES - HEADER_BYTES <? len64 body
      then image_new md sm = Refused (InvalidInput, "snapshot serialization exceeds configured byte bound"%string)
      else exists image, image_new md sm = Done image /\ si_application image = sm
             /\ metadata (si_descriptor image) = md /\ image_decode (si_bytes image) = IoOk image)
  /\ forall b image, image_decode b = IoOk image -> last_included_index (metadata (si_descriptor image)) <= u64_max ->
       si_bytes image = b /\ descriptor_validate (si_descriptor image) = Ok tt
       /\ total_len (si_descriptor image) = len64 b /\ sha256 (si_descriptor image) = sha256_digest b
       /\ app_valid (si_application image)
       /\ last_applied (si_application image) = last_included_index (metadata (si_descriptor image)).
Proof.
  intros Hr Hmd Hi. split.
  - pose proof (reachable_valid _ sm Hr) as Hv. pose proof (reachable_values sm Hr) as Hvals.
    destruct (export_ok sm Hv Hvals) as (saved & He & Hd). destruct (describes_ok sm _ _ Hv Hvals Hd) as [Hok Hb].
    eexists. split; [exact He|]. cbv zeta.
    set (payload := mkPayload (version_of md) md (snapshot_with sm (smap_iter (values sm)) saved)).
    unfold image_new. rewrite Hmd, Hi, N.eqb_refl, He. cbn [or_invalid of_io mbind Outcome_bind negb refuse_if or_panic].
    fold (version_of md). fold payload.
    destruct (N.ltb_spec (MAX_SNAPSHOT_BYTES - HEADER_BYTES) (len64 (concat (payload_writer payload)))) as [Hlt|Hle].
    + destruct (limited_writes _ _ _) as [body|k e] eqn:Hw.
      * apply limited_writes_Ok in Hw as [-> Hw]. cbn [app] in Hw. specialize (Hw ltac:(vm_compute; discriminate)). lia.
      * cbn [of_io mbind Outcome_bind]. by rewrite (limited_writes_error _ _ _ _ _ Hw).
    + rewrite limited_writes_fit by (unfold len64 at 1; cbn [length]; lia). cbn [of_io mbind Outcome_bind app pl_version payload].
      set (image := image_frame _ _).
      assert (Hdec : image_decode image = IoOk (mkSnapshotImage
         (mkSnapshotDescriptor md (len64 image) (sha256_digest image)) image sm)).
      { etransitivity; [exact (decode_frame md (snapshot_with sm (smap_iter (values sm)) saved) Hle)|]. rewrite Hmd. cbn [or_invalid mbind Io_bind].
        rewrite Hi, (proj2 (import_snapshot_spec _ _ sm) (conj Hok (eq_sym Hb))). done. }
      rewrite Hdec. eexists. split; [done|]. split; [done|]. split; [done|]. done.
  - intros b image Hdec Hmax. destruct (decode_sound b image Hdec) as (Hb & Hd & Hv & exported & Hi').
    split; [done|]. split; [done|]. rewrite Hd. cbn [total_len sha256 metadata]. split; [done|]. split; [done|].
    apply import_snapshot_spec in Hi' as [Hok ->]. split.
    + by destruct (rebuild_valid exported _ Hok Hmax).
    + apply (sn_applied _ _ Hok).
Qed.

(** (C25) Receiving is sound through failures.  Whatever chunks arrive, from whomever,
    whichever file operations fail, and however often the transfer is cancelled:
    a completed image decodes from its own bytes, with the descriptor it was
    announced under, so its bytes have the announced length and SHA-256; and no
    chunk makes the receiver panic, whichever image is installed, provided that
    image decodes from its own bytes.  An accepted chunk announced under the
    installed image's descriptor is that segment of the installed image; it is
    answered complete and leaves the receiver alone.  Any other accepted chunk is
    in the file where it belongs and never past the offset the answer reports,
    and the answer says complete exactly when the received image is there, which
    is when every byte is. *)
Theorem receiver_sound `{Sha256, PayloadFormat, !Sha256Laws, !PayloadLaws} rx :
  receiving rx ->
  (forall identity image, completed rx identity = Some image ->
     image_decode (si_bytes image) = IoOk image
     /\ exists a, rx_active rx = Some a /\ at_identity a = identity /\ si_descriptor image = at_descriptor a
        /\ at_file a = si_bytes image)
  /\ forall fault identity d offset chunk minimum voters installed auth,
       (forall image, installed = Some image -> image_decode (si_bytes image) = IoOk image) ->
       let '(r, rx') := stage_inner rx fault identity d offset chunk minimum voters installed auth in
       r <> Panicked
       /\ forall staged, r = Done staged ->
            (exists image, installed = Some image /\ si_descriptor image = d /\ rx' = rx
               /\ slice offset (offset + len64 chunk) (si_bytes image) = chunk
               /\ staged = mkStagedChunk (total_len d) true)
            \/ (exists a, (forall image, installed = Some image -> si_descriptor image <> d)
               /\ rx_active rx' = Some a /\ at_identity a = identity
               /\ at_descriptor a = d /\ slice offset (offset + len64 chunk) (at_file a) = chunk
               /\ sc_next_offset staged = at_next_offset a /\ offset + len64 chunk <= at_next_offset a
               /\ sc_complete staged = is_some (completed rx' identity)
               /\ (sc_complete staged = true <-> at_next_offset a = total_len d)).
Proof.
  intros Hr. pose proof (receiving_ok rx Hr) as Hok. split.
  - intros identity image. unfold completed. destruct (rx_poisoned rx) eqn:Hp; [done|].
    destruct (rx_active rx) as [a|] eqn:Ha; [|done]. cbn [option_filter].
    destruct (at_identity a ==? identity) eqn:Hid; [|done]. apply eqb_true_1 in Hid. cbn. intros Hc.
    destruct (Hok Hp a Ha) as [_ _ _ _ Hcm]. destruct (Hcm image Hc) as [Hdec Hd].
    destruct (decode_sound _ _ Hdec) as (Hb & _). rewrite Hb. split; [done|]. by exists a.
  - intros fault identity d offset chunk minimum voters installed auth Hinst.
    pose proof (stage_inner_ok rx fault identity d offset chunk minimum voters installed auth Hok Hinst) as Hs.
    destruct (stage_inner _ _ _ _ _ _ _ _ _ _) as [r rx']. destruct Hs as (_ & Hp & Hs). split; [done|].
    intros staged Hst. destruct (Hs staged Hst) as [Hi|(a & Hd & -> & ?)]; [by left|right; by exists a].
Qed.

(** (C26) A transfer completes.  From any receiver in which the transfer may start,
    sending the canonical segments of an image in order, each from the offset
    the last answer asked for, ends with the image complete after at most one
    step per 64 KiB: [MAX_SNAPSHOT_BYTES / MAX_SNAPSHOT_CHUNK_BYTES] = 1024 steps
    are always enough. *)
Theorem transfer_completes `{Sha256, PayloadFormat, !Sha256Laws, !PayloadLaws} rx image identity minimum auth :
  image_decode (si_bytes image) = IoOk image -> startable rx identity (si_descriptor image) minimum auth ->
  exists rx', stream 1024 image identity minimum auth 0 rx = Some rx' /\ completed rx' identity = Some image.
Proof.
  intros Hdec (Hp & Ht & Hs & Htm & Ha & Hm).
  destruct (decode_sound _ _ Hdec) as (_ & _ & Hv & _). unfold descriptor_validate in Hv.
  apply Result_bind_Ok in Hv as ([] & _ & Hv). destruct (negb _) eqn:Hlen; [done|].
  apply negb_false_iff, andb_true_iff in Hlen as [Hlo Hhi]. apply N.leb_le in Hlo, Hhi.
  assert (MIN_SNAPSHOT_BYTES = 48 /\ MAX_SNAPSHOT_BYTES = 67108864 /\ MAX_SNAPSHOT_CHUNK_BYTES = 65536) by done.
  apply stream_rest; try done; lia.
Qed.
