(* ===== verification/AppliedStore.v ===== *)
(** * [kv-node/src/applied_store.rs] and [kv.rs]: the durable application

    The cells a state is stored as, their decoding, the store that keeps an
    engine at the application's watermark, its opening against the recovered
    consensus log, and the shared read state, whose committed ranges become
    visible only after one atomic engine commit.

    The engine is the interface [StateStore]; serde's JSON is the parameter
    [CellFormats]. *)
From S2P Require Import Prelude Quorum Membership MembershipProtocol Types Node Step Store Disk Application SnapshotImage.
Local Open Scope N_scope.
Local Open Scope raft_scope.

(** ** Interfaces *)

(** [dyn StateStore] *)
Class StateStore (E : Type) : Type := {
  engine_applied : E -> N;
  engine_scan : St E (list (Bytes * Bytes));
  engine_commit : N -> N -> list Mutation -> St E CommitOutcome;
  engine_install : N -> list Mutation -> St E unit;
  engine_flush : St E unit;
  engine_maintain : St E bool;
  engine_statistics : E -> Io unit;
}.

Inductive StateBackend : Type := MemoryBackend | LsmBackend | RedbBackend.
#[export] Instance StateBackend_eq_dec : EqDecision StateBackend.
Proof. solve_decision. Defined.

Record ApplicationIdentity := mkIdentity { id_group : string; id_genesis_voters : list NodeId }.
#[export] Instance ApplicationIdentity_eq_dec : EqDecision ApplicationIdentity.
Proof. solve_decision. Defined.

Record Binding := mkBinding { bn_version : N; bn_backend : StateBackend; bn_identity : ApplicationIdentity }.
#[export] Instance Binding_eq_dec : EqDecision Binding.
Proof. solve_decision. Defined.

(** [Metadata] *)
Record CellMetadata := mkCellMetadata {
  cmd_version : N;
  cmd_identity : ApplicationIdentity;
  cmd_applied_index : LogIndex;
  cmd_applied_term : Term;
  cmd_retained_keys : N;
  cmd_retained_payload_bytes : N;
}.
#[export] Instance CellMetadata_eq_dec : EqDecision CellMetadata.
Proof. solve_decision. Defined.

Record SessionHeader := mkSessionHeader { sh_registered : SessionResult; sh_closed : option SessionResult }.
#[export] Instance SessionHeader_eq_dec : EqDecision SessionHeader.
Proof. solve_decision. Defined.

(** [json] and [parse] of the four cell types *)
Class CellFormats : Type := {
  metadata_json : CellMetadata -> Bytes;
  metadata_parse : Bytes -> option CellMetadata;
  header_json : SessionHeader -> Bytes;
  header_parse : Bytes -> option SessionHeader;
  record_json : SessionKeySnapshot -> Bytes;
  record_parse : Bytes -> option SessionKeySnapshot;
  binding_json : Binding -> Bytes;
  binding_parse : Bytes -> option Binding;
}.
Class CellLaws `{CellFormats} : Prop := {
  metadata_inverse : forall x, metadata_parse (metadata_json x) = Some x;
  header_inverse : forall x, header_parse (header_json x) = Some x;
  record_inverse : forall x, record_parse (record_json x) = Some x;
  binding_inverse : forall x, binding_parse (binding_json x) = Some x;
}.

(** Steps that keep what they changed, fail, or panic. *)
Definition Run (S A : Type) : Type := S -> Fallible A * S.
#[export] Instance Run_ret {S} : MRet (Run S) := fun A a s => (Done a, s).
#[export] Instance Run_bind {S} : MBind (Run S) := fun A B f m s =>
  match m s with
  | (Done a, s) => f a s
  | (Refused e, s) => (Refused e, s)
  | (Panicked, s) => (Panicked, s)
  end.
Definition run_lift {S A} (r : Fallible A) : Run S A := fun s => (r, s).
Definition run_refuse {S} (b : bool) (message : string) : Run S unit :=
  run_lift (refuse_if b (InvalidData, message)).

Definition run_skip {S} : Run S unit := mret tt.
Definition run_update {S} (f : S -> S) : Run S unit := fun s => (Done tt, f s).
Definition run_state {S} : Run S S := fun s => (Done s, s).

Definition IDENTITY_FILE : string := "application-identity.json".
Definition META_KEY : Bytes := bytes "m/state".

(** [ApplicationIdentity::legacy] *)
Definition identity_legacy (node : RaftNode) : ApplicationIdentity :=
  let authority := cm_state (committed_membership node) in
  mkIdentity (if ms_group_id authority ==? LEGACY_GROUP_ID then "legacy"%string else ms_group_id authority)
    (ms_genesis_voters authority).
(** [ApplicationIdentity::validate] *)
Definition identity_validate (identity : ApplicationIdentity) : Io unit :=
  if (str_len (id_group identity) =? 0) || (128 <? str_len (id_group identity))
     || negb (forallb (between 0x21 0x7E) (bytes (id_group identity)))
     || bool_decide (id_genesis_voters identity = [])
     || negb (strictly_increasing (id_genesis_voters identity))
  then invalid "invalid application group/genesis identity" else IoOk tt.

(** ** Cells *)

Definition io_of {A} (o : option A) (message : string) : Io A :=
  match o with Some a => IoOk a | None => invalid message end.
(** [text] *)
Definition text (bs : Bytes) : Io string := io_of (from_utf8 bs) "non-UTF8 application cell".
(** [named] *)
Definition named (prefix : string) (key : string) : Bytes := bytes prefix ++ bytes key.
(** [session_key] *)
Definition session_cell (prefix : string) (id : LogIndex) (key : option string) : Bytes :=
  bytes prefix ++ to_be_bytes 8 id ++ match key with Some key => bytes key | None => [] end.
(** [session_id] *)
Definition session_id (bs : Bytes) : Io LogIndex :=
  if len64 bs =? 8 then IoOk (from_be_bytes bs) else invalid "invalid session identity cell".

Definition put (key value : Bytes) : Mutation := mkMutation key (Some value).

Section cells.
Context `{CellFormats}.

(** [metadata] *)
Definition cell_metadata (app : StateMachine) (identity : ApplicationIdentity) (term : Term) : CellMetadata :=
  mkCellMetadata 1 identity (last_applied app) term (retained_counts app).1 (retained_counts app).2.

Definition value_cell (app : StateMachine) (key : string) : Mutation :=
  mkMutation (named "v/" key) (bytes <$> values app !! key).

(** [entry_cells] *)
Definition entry_cells (app : StateMachine) (identity : ApplicationIdentity) (entry : Entry) : Io (list Mutation) :=
  let meta := put META_KEY (metadata_json (cell_metadata app identity (e_term entry))) in
  let header id := io_of (session_header app id) "registration lacks session header" in
  match e_command entry with
  | Put key _ | Delete key => IoOk [meta; value_cell app key]
  | SessionPut id key _ _ | SessionDelete id key _ =>
      IoOk (meta :: match session_key app id key with
                    | Some record => [value_cell app key; put (session_cell "k/" id (Some key)) (record_json record)]
                    | None => []
                    end)
  | RegisterSession nonce =>
      match registration_id app nonce with
      | Some id =>
          '(registered, closed) ← header id;
          IoOk [meta; put (named "r/" nonce) (to_be_bytes 8 id);
                put (session_cell "s/" id None) (header_json (mkSessionHeader registered closed))]
      | None => IoOk [meta]
      end
  | CloseSession id =>
      match session_header app id with
      | Some (registered, closed) =>
          IoOk [meta; put (session_cell "s/" id None) (header_json (mkSessionHeader registered closed))]
      | None => IoOk [meta]
      end
  | NoOp | Configuration _ => IoOk [meta]
  end.

Definition session_cells (session : SessionSnapshot) : list Mutation :=
  put (named "r/" (ss_nonce session)) (to_be_bytes 8 (ss_session_id session))
  :: put (session_cell "s/" (ss_session_id session) None)
       (header_json (mkSessionHeader (ss_registered session) (ss_closed session)))
  :: ((fun record => put (session_cell "k/" (ss_session_id session) (Some (sk_key record))) (record_json record))
      <$> ss_keys session).

(** [full_cells] *)
Definition full_cells (app : StateMachine) (identity : ApplicationIdentity) (term : Term) : Fallible (list Mutation) :=
  snapshot ← or_panic (export_snapshot app);
  Done (put META_KEY (metadata_json (cell_metadata app identity term))
        :: ((fun kv => put (named "v/" kv.1) (bytes kv.2)) <$> as_values snapshot)
        ++ (as_sessions snapshot ≫= session_cells)).

(** *** Decoding *)

Record Decoded := mkDecoded {
  dc_meta : option CellMetadata;
  dc_values : list (string * string);
  dc_registrations : gmap LogIndex string;
  dc_headers : gmap LogIndex SessionHeader;
  dc_keys : gmap LogIndex (list SessionKeySnapshot);
  dc_seen : gset Bytes;
}.
#[export] Instance Decoded_eta : Eta Decoded := fun d =>
  mkDecoded (dc_meta d) (dc_values d) (dc_registrations d) (dc_headers d) (dc_keys d) (dc_seen d).
Definition decoded_empty : Decoded := mkDecoded None [] ∅ ∅ ∅ ∅.

Definition parse_error : string := "serde_json".

(** One turn of the loop of [decode_cells]. *)
Definition decode_row (row : Bytes * Bytes) (d : Decoded) : Io Decoded :=
  let '(key, value) := row in
  if bool_decide (key ∈ dc_seen d) then invalid "duplicate application cell" else
  let d := d <| dc_seen := {[key]} ∪ dc_seen d |> in
  if key ==? META_KEY then
    meta ← io_of (metadata_parse value) parse_error;
    IoOk (d <| dc_meta := Some meta |>)
  else
  match strip_prefix (bytes "v/") key with
  | Some key =>
      key ← text key; value ← text value;
      IoOk (d <| dc_values := dc_values d ++ [(key, value)] |>)
  | None =>
  match strip_prefix (bytes "r/") key with
  | Some key =>
      id ← session_id value; nonce ← text key;
      if is_some (dc_registrations d !! id) then invalid "two nonces share one session" else
      IoOk (d <| dc_registrations := <[id := nonce]> (dc_registrations d) |>)
  | None =>
  match strip_prefix (bytes "s/") key with
  | Some key =>
      id ← session_id key;
      header ← io_of (header_parse value) parse_error;
      IoOk (d <| dc_headers := <[id := header]> (dc_headers d) |>)
  | None =>
  match strip_prefix (bytes "k/") key with
  | Some key =>
      if len64 key <=? 8 then invalid "incomplete retry record key" else
      id ← session_id (take 8 key);
      record ← io_of (record_parse value) parse_error;
      name ← text (drop 8 key);
      if negb (sk_key record ==? name) then invalid "retry record key differs from its cell key" else
      IoOk (d <| dc_keys := <[id := default [] (dc_keys d !! id) ++ [record]]> (dc_keys d) |>)
  | None => invalid "unknown application namespace"
  end end end end.

Fixpoint decode_rows (rows : list (Bytes * Bytes)) (d : Decoded) : Io Decoded :=
  match rows with
  | [] => IoOk d
  | row :: rows => d ← decode_row row d; decode_rows rows d
  end.

(** The sessions of the headers, in order; [registrations] and [keys] lose what
    was used. *)
Fixpoint join_sessions (headers : list (LogIndex * SessionHeader)) (registrations : gmap LogIndex string)
    (keys : gmap LogIndex (list SessionKeySnapshot)) :
    Io (list SessionSnapshot * gmap LogIndex string * gmap LogIndex (list SessionKeySnapshot)) :=
  match headers with
  | [] => IoOk ([], registrations, keys)
  | (id, header) :: headers =>
      nonce ← io_of (registrations !! id) "session header lacks registration";
      '(sessions, registrations, rest) ← join_sessions headers (delete id registrations) (delete id keys);
      IoOk (mkSessionSnapshot nonce id (sh_registered header) (sh_closed header) (default [] (keys !! id))
            :: sessions, registrations, rest)
  end.

Context `{Sha256}.

(** [decode_cells] *)
Definition decode_cells (rows : list (Bytes * Bytes)) (applied : N) (identity : ApplicationIdentity) :
    Io (StateMachine * Term) :=
  if applied =? 0 then
    if bool_decide (rows = []) then IoOk (app_default, 0)
    else invalid "zero engine watermark has application cells"
  else
  d ← decode_rows rows decoded_empty;
  meta ← io_of (dc_meta d) "engine lacks application metadata";
  if negb (cmd_version meta =? 1) || negb (cmd_applied_index meta =? applied)
     || negb (cmd_identity meta ==? identity) || (cmd_applied_term meta =? 0)
  then invalid "engine application identity/watermark mismatch" else
  '(sessions, registrations, keys) ←
    join_sessions (nmap_iter (dc_headers d)) (dc_registrations d) (dc_keys d);
  if negb (bool_decide (registrations = ∅)) || negb (bool_decide (keys = ∅))
  then invalid "orphan registration/retry record" else
  app ← or_invalid (import_snapshot
          (mkApplicationSnapshot 1 applied (dc_values d) sessions (cmd_retained_keys meta)
             (cmd_retained_payload_bytes meta)) applied);
  IoOk (app, cmd_applied_term meta).

(** [preflight_identity]; the file's contents, if it exists. *)
Definition preflight_identity (file : option Bytes) (backend : StateBackend) (identity : ApplicationIdentity)
    (fresh migrate_legacy : bool) : Io unit :=
  identity_validate identity;;
  match file with
  | Some content =>
      existing ← io_of (binding_parse content) parse_error;
      if negb (existing ==? mkBinding 1 backend identity)
         && negb (migrate_legacy && (bn_version existing =? 1) && (bn_backend existing ==? backend)
                  && (id_group (bn_identity existing) ==? "legacy"%string)
                  && (id_genesis_voters (bn_identity existing) ==? id_genesis_voters identity)
                  && negb (id_group identity ==? "legacy"%string))
      then invalid "application binding differs from requested core identity/backend" else IoOk tt
  | None =>
      if negb fresh && negb (backend ==? MemoryBackend)
      then invalid "existing directory cannot silently adopt an unbound persistent backend" else IoOk tt
  end.
End cells.

(** ** The store *)

Record AppliedStore (E : Type) := mkAppliedStore {
  ap_backend : StateBackend;
  ap_identity : ApplicationIdentity;
  ap_engine : option E;
  ap_index : LogIndex;
  ap_term : Term;
  ap_poisoned : bool;
}.
Arguments mkAppliedStore {_} _ _ _ _ _ _.
Arguments ap_backend {_} _.
Arguments ap_identity {_} _.
Arguments ap_engine {_} _.
Arguments ap_index {_} _.
Arguments ap_term {_} _.
Arguments ap_poisoned {_} _.
Definition with_engine {E} (engine : E) (failed : bool) (s : AppliedStore E) : AppliedStore E :=
  mkAppliedStore (ap_backend s) (ap_identity s) (Some engine) (ap_index s) (ap_term s) (failed || ap_poisoned s).
Definition at_watermark {E} (index : LogIndex) (term : Term) (s : AppliedStore E) : AppliedStore E :=
  mkAppliedStore (ap_backend s) (ap_identity s) (ap_engine s) index term (ap_poisoned s).

Definition reopen_message : string := "application engine requires reopen after I/O failure".

Section store.
Context `{Engine : StateStore E, CellFormats, Sha256}.

(** An operation on the engine, if there is one; its failure poisons the store
    when [poisons]. *)
Definition on_engine {A} (poisons : bool) (default : A) (action : St E A) : St (AppliedStore E) A := fun s =>
  match ap_engine s with
  | None => (IoOk default, s)
  | Some engine =>
      match action engine with
      | (IoOk a, engine) => (IoOk a, with_engine engine false s)
      | (IoErr k e, engine) =>
          (IoErr k e, with_engine engine poisons s)
      end
  end.
Definition unpoisoned : St (AppliedStore E) unit := fun s =>
  (if ap_poisoned s then IoErr OtherError reopen_message else IoOk tt, s).

(** [AppliedStore::commit] *)
Definition applied_commit (first index : LogIndex) (term : Term) (cells : list Mutation) : St (AppliedStore E) unit :=
  unpoisoned;;
  s ← state;
  refuse (negb (checked_add (ap_index s) 1 ==? Some first)) InvalidData
    "application range does not follow engine watermark";;
  on_engine true Replay (engine_commit first index cells);;
  update (at_watermark index term).

(** The identity test of [AppliedStore::install] *)
Definition image_matches (metadata : SnapshotMetadata) (identity : ApplicationIdentity) : bool :=
  match sm_membership metadata with
  | Some membership =>
      let authority := cm_state membership in
      ((if ms_group_id authority ==? LEGACY_GROUP_ID then "legacy"%string else ms_group_id authority)
         ==? id_group identity)
      && (ms_genesis_voters authority ==? id_genesis_voters identity)
  | None => members metadata ==? id_genesis_voters identity
  end.

(** [AppliedStore::install] *)
Definition applied_install (image : SnapshotImage) : Run (AppliedStore E) unit := fun s =>
  let md := metadata (si_descriptor image) in
  let io {A} (m : St (AppliedStore E) A) s := let '(r, s) := m s in (of_io r, s) in
  (io unpoisoned;;
   run_refuse (negb (image_matches md (ap_identity s)) || (last_included_index md <=? ap_index s))
     "snapshot does not advance this application's identity/boundary";;
   (match ap_engine s with
    | None => run_skip
    | Some _ =>
        cells ← run_lift (full_cells (si_application image) (ap_identity s) (last_included_term md));
        io (on_engine true tt (engine_install (last_included_index md) cells))
    end);;
   io (update (at_watermark (last_included_index md) (last_included_term md)))) s.

(** [AppliedStore::flush], [AppliedStore::maintain], [AppliedStore::status]; the
    last two fields of the status are the backend and the index. *)
Definition applied_flush : St (AppliedStore E) unit := unpoisoned;; on_engine false tt engine_flush.
Definition applied_maintain : St (AppliedStore E) bool := unpoisoned;; on_engine false false engine_maintain.
Definition applied_status (s : AppliedStore E) : Io (StateBackend * LogIndex * bool) :=
  match ap_engine s with Some engine => engine_statistics engine | None => IoOk tt end;;
  IoOk (ap_backend s, ap_index s, is_some (ap_engine s)).

(** ** Opening *)

(** What opening reads and changes: the files of the node's directory, the
    engine found or created at [state-<backend>] (a parameter), and the core. *)
Record Opening := mkOpening {
  op_files : gmap string Bytes;
  op_engine : option E;
  op_node : RaftNode;
}.

(** [durability::publish_file]: write a temporary file, rename it. *)
Definition publish_binding (binding : Binding) : Run Opening unit := fun o =>
  (Done tt, mkOpening (<[IDENTITY_FILE := binding_json binding]> (op_files o)) (op_engine o) (op_node o)).

Definition initialized (files : gmap string Bytes) : bool :=
  is_some (files !! "hardstate.json"%string) || is_some (files !! "log.jsonl"%string)
  || is_some (files !! "CURRENT"%string).

(** [for index in node.snapshot_index() + 1..=applied] *)
Fixpoint replay_log (n : nat) (node : RaftNode) (index : LogIndex) (app : StateMachine) : Fallible StateMachine :=
  match n with
  | O => Done app
  | S n =>
      entry ← ok_or (entry_at node index) (InvalidData, "engine watermark crosses absent Raft entry"%string);
      match app_apply app entry with
      | Done (_, app) => replay_log n node (index + 1) app
      | Refused _ => Refused (InvalidData, "application index does not follow"%string)
      | Panicked => Panicked
      end
  end.

Definition on_opened_engine {A} (m : St E A) : Run Opening A := fun o =>
  match op_engine o with
  | Some engine => let '(r, engine) := m engine in (of_io r, mkOpening (op_files o) (Some engine) (op_node o))
  | None => (Panicked, o)
  end.

Definition META_MISSING : string := "engine lacks migration metadata".

(** [map_err(|error| invalid(error.to_string()))?] *)
Definition restored_or_invalid (r : RestoreError + RaftNode) : Io RaftNode :=
  match r with inl _ => invalid "invalid durable application watermark" | inr node => IoOk node end.

(** The binding file: whether a migration must be finished. *)
Definition open_binding (wanted : Binding) (fresh_directory migrate_legacy : bool) : Run Opening bool := fun o =>
  let identity := bn_identity wanted in
  let legacy := mkIdentity "legacy" (id_genesis_voters identity) in
  match op_files o !! IDENTITY_FILE with
  | Some content =>
      (existing ← run_lift (of_io (io_of (binding_parse content) parse_error));
       if existing ==? wanted then mret false else
       run_refuse (negb migrate_legacy || (id_group identity ==? "legacy"%string)
                   || negb (bn_version existing =? 1) || negb (bn_backend existing ==? bn_backend wanted)
                   || negb (bn_identity existing ==? legacy)
                   || negb (bool_decide (ms_records (cm_state (committed_membership (op_node o))) = ∅)))
         "application backend/group identity changed without migration";;
       mret true) o
  | None =>
      (run_refuse (initialized (op_files o) && negb fresh_directory && negb (bn_backend wanted ==? MemoryBackend))
         "persistent backend adoption requires a fresh node directory or explicit migration";;
       publish_binding wanted;;
       mret false) o
  end.

(** The identity the engine's cells carry: a crash may have left the migrated
    engine under the old binding. *)
Definition cells_identity (identity : ApplicationIdentity) (migrating : bool) (applied : N)
    (rows : list (Bytes * Bytes)) : Io ApplicationIdentity :=
  if migrating then
    if 0 <? applied then
      content ← io_of (List.find (fun row => row.1 ==? META_KEY) rows) META_MISSING;
      meta ← io_of (metadata_parse content.2) parse_error;
      IoOk (if cmd_identity meta ==? identity then identity
            else mkIdentity "legacy" (id_genesis_voters identity))
    else IoOk (mkIdentity "legacy" (id_genesis_voters identity))
  else IoOk identity.

(** The engine branch of [open_for_group]: the state and its term. *)
Definition open_engine (identity : ApplicationIdentity) (migrating : bool) (app : StateMachine) (term : Term) :
    Run Opening (StateMachine * Term) := fun o =>
  let node := op_node o in
  match op_engine o with
  | None => (Done (app, term), o)
  | Some engine =>
      let applied := engine_applied engine in
      (rows ← on_opened_engine engine_scan;
       source ← run_lift (of_io (cells_identity identity migrating applied rows));
       '(recovered, recovered_term) ← run_lift (of_io (decode_cells rows applied source));
       '(app, term) ←
         (if applied <? snapshot_index node then
            cells ← run_lift (full_cells app identity term);
            on_opened_engine (engine_install (last_applied app) cells);;
            mret (app, term)
          else
            run_refuse (negb (log_term node applied ==? Some recovered_term))
              "engine applied term/index differs from recovered Raft log";;
            app ← run_lift (replay_log (N.to_nat (applied - snapshot_index node)) node (snapshot_index node + 1) app);
            run_refuse (negb (app ==? recovered)) "engine state differs from deterministic snapshot/WAL replay";;
            mret (recovered, recovered_term));
       node ← run_lift (of_io (restored_or_invalid (restore_applied_watermark node (last_applied app) term)));
       run_update (fun o => mkOpening (op_files o) (op_engine o) node);;
       (if migrating && negb (source ==? identity) && (0 <? last_applied app) then
          cells ← run_lift (full_cells app identity term);
          on_opened_engine (engine_install (last_applied app) cells)
        else run_skip);;
       mret (app, term)) o
  end.

(** [AppliedStore::open_for_group]; [engine_path_exists] and [engine_open] are
    the state directory of the selected engine. *)
Definition open_for_group (engine_path_exists : bool) (engine_open : Io E) (backend : StateBackend)
    (identity : ApplicationIdentity) (snapshot : option SnapshotImage) (fresh_directory migrate_legacy : bool) :
    Run Opening (AppliedStore E * StateMachine) := fun o =>
  let wanted := mkBinding 1 backend identity in
  let was_initialized := initialized (op_files o) in
  (run_lift (of_io (identity_validate identity));;
   run_refuse (negb (identity ==? identity_legacy (op_node o))) "identity differs from durable consensus authority";;
   migrating ← open_binding wanted fresh_directory migrate_legacy;
   (if backend ==? MemoryBackend then run_skip else
    run_refuse (was_initialized && negb fresh_directory && negb engine_path_exists)
      "selected persistent engine directory is missing";;
    engine ← run_lift (of_io engine_open);
    run_update (fun o => mkOpening (op_files o) (Some engine) (op_node o)));;
   '(app, term) ← open_engine identity migrating
     (match snapshot with Some image => si_application image | None => app_default end) (snapshot_term (op_node o));
   (if (migrating : bool) then publish_binding wanted else run_skip);;
   o ← run_state;
   mret (mkAppliedStore backend identity (op_engine o) (last_applied app) term false, app)) o.

(** [AppliedStore::open] *)
Definition applied_open (engine_path_exists : bool) (engine_open : Io E) (backend : StateBackend)
    (identity : ApplicationIdentity) (snapshot : option SnapshotImage) :
    Run Opening (AppliedStore E * StateMachine) :=
  open_for_group engine_path_exists engine_open backend identity snapshot false false.
End store.

(** ** Coalescing the cells of a range *)

Definition value_bytes (value : option Bytes) : N := map_or value 0 len64.

(** The loop of [merge_cells]: the size and the number of records after the
    changes. *)
Fixpoint merge_scan (current : gmap Bytes (option Bytes)) (seen : gset Bytes) (size count : N)
    (changes : list Mutation) : Io (N * N) :=
  match changes with
  | [] => IoOk (size, count)
  | change :: changes =>
      let key := m_key change in
      if bool_decide (key ∈ seen) || (len64 key =? 0) || (Store.MAX_KEY_BYTES <? len64 key)
         || is_some_and (m_value change) (fun value => Store.MAX_VALUE_BYTES <? len64 value)
      then invalid "application cell exceeds engine bounds" else
      '(size, count) ←
        (match current !! key with
         | Some previous =>
             size ← io_of (checked_sub size (len64 key + value_bytes previous)) "inconsistent accumulated cell size";
             IoOk (size, count)
         | None => IoOk (size, count + 1)
         end);
      size ← io_of (checked_add size (len64 key + value_bytes (m_value change))) "cell byte count overflow";
      merge_scan current ({[key]} ∪ seen) size count changes
  end.

Definition insert_changes (changes : list Mutation) (current : gmap Bytes (option Bytes)) : gmap Bytes (option Bytes) :=
  foldl (fun m change => <[m_key change := m_value change]> m) current changes.

(** [merge_cells]: [None] is [Ok(false)], which leaves the prefix as it is. *)
Definition merge_cells (current : gmap Bytes (option Bytes)) (size : N) (changes : list Mutation) :
    Io (option (gmap Bytes (option Bytes) * N)) :=
  '(size, count) ← merge_scan current ∅ size (map_len current) changes;
  if (MAX_BATCH_BYTES <? size) || (MAX_BATCH_RECORDS <? count) then IoOk None
  else IoOk (Some (insert_changes changes current, size)).

(** ** [kv.rs]: the shared read state *)

(** [ReadState], with the two watermarks of its status that follow the
    application; the other fields of the status are copies for display. *)
Record ReadState := mkReadState {
  rd_application : StateMachine;
  rd_last_applied : LogIndex;
  rd_commit_index : LogIndex;
}.
#[export] Instance ReadState_eta : Eta ReadState := fun r =>
  mkReadState (rd_application r) (rd_last_applied r) (rd_commit_index r).

(** [SharedReadState::from_application] *)
Definition from_application (node : RaftNode) (application : StateMachine) : Io ReadState :=
  if negb (last_applied application =? Node.last_applied node) || (commit_index node <? Node.last_applied node)
  then invalid "engine and core application watermark differ"
  else IoOk (mkReadState application (last_applied application) (commit_index node)).

(** [SharedReadState::get] *)
Definition read_get (state : ReadState) (key : string) : LogIndex * option string :=
  (rd_last_applied state, values (rd_application state) !! key).

(** [SharedReadState::apply] *)
Definition read_apply `{Sha256} (state : ReadState) (entry : Entry) : Outcome ApplyError (ApplyOutcome * ReadState) :=
  '(outcome, application) ← app_apply (rd_application state) entry;
  Done (outcome, mkReadState application (e_index entry) (N.max (rd_commit_index state) (e_index entry))).

(** [SharedReadState::install_snapshot] *)
Definition read_install (state : ReadState) (image : SnapshotImage) : Io ReadState :=
  let boundary := last_included_index (metadata (si_descriptor image)) in
  if boundary <=? last_applied (rd_application state)
  then invalid "snapshot installation must advance the application boundary"
  else IoOk (mkReadState (si_application image) boundary (N.max (rd_commit_index state) boundary)).

(** [SharedReadState::from_node] *)
Definition read_from_node (node : RaftNode) : ReadState := mkReadState app_default 0 (commit_index node).
(** [SharedReadState::from_snapshot] *)
Definition from_snapshot (node : RaftNode) (image : SnapshotImage) : Io ReadState :=
  let boundary := metadata (si_descriptor image) in
  if negb (last_included_index boundary =? Node.last_applied node) || (commit_index node <? last_included_index boundary)
     || (current_term (hard node) <? last_included_term boundary)
     || negb (last_included_term boundary =? snapshot_term node)
     || negb (snapshot node ==? Some (si_descriptor image))
  then invalid "application snapshot and restored consensus boundary differ"
  else read_install (read_from_node node) image.
(** [SharedReadState::snapshot_image] *)
Definition snapshot_image `{Sha256, PayloadFormat} (state : ReadState) (metadata : SnapshotMetadata) :
    Fallible SnapshotImage :=
  image_new metadata (rd_application state).

Section group.
Context `{Engine : StateStore E, CellFormats, Sha256}.

(** What the loop of [apply_group] accumulates. *)
Record Group := mkGroup {
  gr_transaction : ApplicationTransaction;
  gr_cells : gmap Bytes (option Bytes);
  gr_bytes : N;
  gr_outcomes : list (LogIndex * ApplyOutcome);
  gr_term : Term;
}.

(** The loop over the entries: its error, if any, with what was accumulated. *)
Fixpoint group_loop (identity : ApplicationIdentity) (entries : list Entry) (g : Group) : Fallible unit * Group :=
  match entries with
  | [] => (Done tt, g)
  | entry :: entries =>
      let with_tx tx := mkGroup tx (gr_cells g) (gr_bytes g) (gr_outcomes g) (gr_term g) in
      match tx_apply (gr_transaction g) entry with
      | (None, tx) => (Panicked, with_tx tx)
      | (Some (inl _), tx) => (Refused (InvalidData, "application index does not follow"%string), with_tx tx)
      | (Some (inr outcome), tx) =>
          match (changes ← entry_cells (tx_state tx) identity entry; merge_cells (gr_cells g) (gr_bytes g) changes) with
          | IoErr k e => (Refused (k, e), with_tx tx)
          | IoOk None =>
              match undo_last tx with
              | None => (Panicked, with_tx tx)
              | Some tx =>
                  if bool_decide (gr_outcomes g = [])
                  then (Refused (InvalidData, "one applied entry exceeds engine transaction budget"%string), with_tx tx)
                  else (Done tt, with_tx tx)
              end
          | IoOk (Some (cells, bytes)) =>
              group_loop identity entries
                (mkGroup tx cells bytes (gr_outcomes g ++ [(e_index entry, outcome)]) (e_term entry))
          end
      end
  end.

(** The guard dropped with an error on its way out. *)
Definition abandon {A} (r : Fallible A) (tx : ApplicationTransaction) (read : ReadState) (store : AppliedStore E) :
    Fallible A * (ReadState * AppliedStore E) :=
  match tx_drop tx with
  | Some application => (r, (read <| rd_application := application |>, store))
  | None => (Panicked, (read, store))
  end.

(** [SharedReadState::apply_group] *)
Definition apply_group (entries : list Entry) :
    Run (ReadState * AppliedStore E) (list (LogIndex * ApplyOutcome)) := fun '(read, store) =>
  match entries with
  | [] => (Refused (InvalidInput, "empty applied range"%string), (read, store))
  | first :: _ =>
      match group_loop (ap_identity store) (take (N.to_nat MAX_APPLY_RANGE) entries)
              (mkGroup (transaction (rd_application read)) ∅ 0 [] 0) with
      | (Done _, g) =>
          match list.last (gr_outcomes g) with
          | None => abandon Panicked (gr_transaction g) read store
          | Some (last, _) =>
              let changes := (fun kv => mkMutation kv.1 kv.2) <$> kmap_iter (gr_cells g) in
              match applied_commit (e_index first) last (gr_term g) changes store with
              | (IoErr k e, store) => abandon (Refused (k, e)) (gr_transaction g) read store
              | (IoOk _, store) =>
                  match tx_drop (tx_commit (gr_transaction g)) with
                  | None => (Panicked, (read, store))
                  | Some application =>
                      let read := mkReadState application last (N.max (rd_commit_index read) last) in
                      match applied_status store with
                      | IoErr k e => (Refused (k, e), (read, store))
                      | IoOk _ => (Done (gr_outcomes g), (read, store))
                      end
                  end
              end
          end
      | (Refused e, g) => abandon (Refused e) (gr_transaction g) read store
      | (Panicked, g) => abandon Panicked (gr_transaction g) read store
      end
  end.
End group.
