(* ===== verification/AppliedFacts.v ===== *)
(** * What the durable application promises

    The interface an engine implements for the application store, with the
    log-structured store as its instance; the cells of a state and their
    decoding; committed ranges, which become visible only together with an
    engine that stores them; and recovery. *)
From S2P Require Import Prelude Quorum Membership MembershipProtocol Types Node Step Store Disk.
From S2P Require Import Bloom Codec Merge Table TableFacts Lsm LsmView LsmSafe LsmRefine.
From S2P Require Import Application ApplicationFacts ApplicationSafe ApplicationLog SnapshotImage AppliedStore.
Local Open Scope N_scope.
Local Open Scope raft_scope.

(** ** The engine interface *)

(** The contents of an engine. *)
Abbreviation View := (Bytes -> option Bytes).

(** What a [StateStore] promises: [engine_holds e a v], a healthy engine with
    the contents [v] at the applied index [a]; [engine_failed e a v a' v'], a
    handle that must be reopened, over data that reopens to one of the two. *)
Class StateStoreLaws (E : Type) `{StateStore E} : Type := {
  engine_holds : E -> N -> View -> Prop;
  engine_failed : E -> N -> View -> N -> View -> Prop;
  holds_index : forall e a v, engine_holds e a v -> engine_applied e = a;
  scan_law : forall e a v, engine_holds e a v ->
    post engine_scan
      (fun rows e' => e' = e /\ NoDup rows.*1 /\ forall k x, (k, x) ∈ rows <-> v k = Some x)
      (fun e' => e' = e) e;
  commit_law : forall e a v first index changes, engine_holds e a v -> a < index -> index <= u64_max ->
    post (engine_commit first index changes)
      (fun _ e' => checked_add a 1 = Some first /\ engine_holds e' index (put_all changes v))
      (fun e' => e' = e \/ engine_failed e' a v index (put_all changes v)) e;
  install_law : forall e a v index cells, engine_holds e a v -> index <= u64_max ->
    post (engine_install index cells)
      (fun _ e' => engine_holds e' index (put_all cells (fun _ => None)))
      (fun e' => e' = e \/ engine_failed e' a v index (put_all cells (fun _ => None))) e;
  flush_law : forall e a v, engine_holds e a v ->
    post engine_flush (fun _ e' => engine_holds e' a v) (fun e' => engine_failed e' a v a v) e;
  maintain_law : forall e a v, engine_holds e a v ->
    post engine_maintain (fun _ e' => engine_holds e' a v) (fun e' => engine_failed e' a v a v) e;
}.

(** The log-structured store is an engine. *)
#[export] Instance lsm_engine `{Formats} : StateStore LsmStore := {|
  engine_applied := applied_index;
  engine_scan := Scan;
  engine_commit := Commit;
  engine_install := Install;
  engine_flush := Flush;
  engine_maintain := Maintain;
  engine_statistics := fun s => _ ← statistics s; IoOk tt;
|}.
#[export] Instance lsm_engine_laws `{Fmt : Formats} `{Laws : !FormatLaws} : StateStoreLaws LsmStore.
Proof.
  refine (Build_StateStoreLaws LsmStore _ holds failed _ _ _ _ _ _).
  - intros e a v [[Ha _] _]. exact Ha.
  - intros e a v [Hs Hp]. destruct (scan_correct e a v Hs Hp) as (rows & Hsorted & Hrows & E).
    unfold post, engine_scan, lsm_engine. rewrite E. destruct (_ <? _); [done|]. split; [done|]. split; [|done].
    clear E Hrows. induction Hsorted as [|[k x] rows Hs' IH HF]; [constructor|]. rewrite fmap_cons. apply list.NoDup_cons.
    split; [|done]. intros ([k' x'] & E & Hin)%list_elem_of_fmap. cbn in E. subst k'.
    rewrite List.Forall_forall in HF. apply list_elem_of_In in Hin. specialize (HF _ Hin). unfold key_before in HF.
    cbn in HF. by apply key_lt_irrefl in HF.
  - intros e a v first index changes Hh Hlt Hmax.
    eapply post_mono; [exact (commit_spec e a v first index changes Hh Hmax)| |intros e' He; exact He].
    intros [] e' Hq; [exact Hq|]. destruct Hq as (_ & -> & _). lia.
  - intros e a v index cells Hh Hmax. exact (install_spec e a v index cells Hh Hmax).
  - intros e a v Hh. eapply post_mono; [exact (flush_spec e a v Hh)| |intros e' He; exact He]. intros _ e' [Hf _]. exact Hf.
  - intros e a v Hh. exact (maintain_spec e a v Hh).
Qed.

(** ** Cells as data *)

Inductive CellKey : Type :=
| CMeta
| CValue (key : string)
| CNonce (nonce : string)
| CHeader (id : LogIndex)
| CRecord (id : LogIndex) (key : string).
#[export] Instance CellKey_eq_dec : EqDecision CellKey.
Proof. solve_decision. Defined.

Definition cell_key (c : CellKey) : Bytes :=
  match c with
  | CMeta => META_KEY
  | CValue key => named "v/" key
  | CNonce nonce => named "r/" nonce
  | CHeader id => session_cell "s/" id None
  | CRecord id key => session_cell "k/" id (Some key)
  end.
(** Session identities are [u64]. *)
Definition bounded (c : CellKey) : Prop :=
  match c with CHeader id | CRecord id _ => id <= u64_max | _ => True end.

Lemma session_cell_inj prefix id id' k k' :
  id <= u64_max -> id' <= u64_max ->
  session_cell prefix id k = session_cell prefix id' k' ->
  id = id' /\ match k with Some k => bytes k | None => [] end = match k' with Some k => bytes k | None => [] end.
Proof.
  intros Hi Hi' E. unfold session_cell in E. apply app_inv_head in E.
  apply app_inj_1 in E as [E1 E2]; [|by rewrite !to_be_bytes_length]. split; [|done]. by apply to_be_bytes8_inj.
Qed.
(** The first byte tells the namespaces apart. *)
Lemma cell_key_head c : exists l, cell_key c
  = match c with CMeta => 109 | CValue _ => 118 | CNonce _ => 114 | CHeader _ => 115 | CRecord _ _ => 107 end :: l.
Proof. destruct c; eexists; reflexivity. Qed.
Lemma cell_key_inj c c' : bounded c -> bounded c' -> cell_key c = cell_key c' -> c = c'.
Proof.
  intros Hb Hb' E. destruct (cell_key_head c) as [l El]. destruct (cell_key_head c') as [l' El'].
  pose proof E as Eh. rewrite El, El' in Eh. injection Eh as Eh _. clear El El'.
  destruct c as [|k|n|id|id k], c' as [|k'|n'|id'|id' k']; try discriminate Eh; cbn [cell_key bounded] in *.
  - done.
  - f_equal. unfold named in E. apply app_inv_head in E. by apply bytes_inj.
  - f_equal. unfold named in E. apply app_inv_head in E. by apply bytes_inj.
  - f_equal. by destruct (session_cell_inj _ _ _ _ _ Hb Hb' E).
  - destruct (session_cell_inj _ _ _ _ _ Hb Hb' E) as [-> Ek]. f_equal. by apply bytes_inj.
Qed.

Section facts.
Context `{Formats : CellFormats, !CellLaws, Sha : Sha256}.

(** The cell of a state. *)
Definition cell_value (s : StateMachine) (identity : ApplicationIdentity) (term : Term) (c : CellKey) : option Bytes :=
  match c with
  | CMeta => if last_applied s =? 0 then None else Some (metadata_json (cell_metadata s identity term))
  | CValue key => bytes <$> values s !! key
  | CNonce nonce => to_be_bytes 8 <$> registrations s !! nonce
  | CHeader id => (fun h => header_json (mkSessionHeader h.1 h.2)) <$> session_header s id
  | CRecord id key => record_json <$> session_key s id key
  end.

(** An engine's contents store a state. *)
Definition stored (v : View) (s : StateMachine) (identity : ApplicationIdentity) (term : Term) : Prop :=
  (forall c, bounded c -> v (cell_key c) = cell_value s identity term c)
  /\ (forall k x, v k = Some x -> exists c, bounded c /\ k = cell_key c).

Definition cell_change (s : StateMachine) (identity : ApplicationIdentity) (term : Term) (c : CellKey) : Mutation :=
  mkMutation (cell_key c) (cell_value s identity term c).

Lemma put_all_cells s identity term cs v c :
  Forall bounded cs -> bounded c ->
  put_all (cell_change s identity term <$> cs) v (cell_key c)
  = if bool_decide (c ∈ cs) then cell_value s identity term c else v (cell_key c).
Proof.
  intros HF Hc. unfold put_all. induction HF as [|c' cs Hc' HF IH]; [done|]. rewrite fmap_cons. cbn [List.find m_key cell_change].
  destruct (eqb (cell_key c') (cell_key c)) eqn:E.
  - apply eqb_true_1, cell_key_inj in E as ->; [|done|done]. rewrite bool_decide_eq_true_2 by (by left). done.
  - apply eqb_false_1 in E. rewrite IH. apply bool_decide_ext || idtac.
    assert (Hin : c ∈ cs <-> c ∈ c' :: cs) by (rewrite elem_of_cons; split; [by right|by intros [->|?]]).
    by rewrite (bool_decide_ext _ _ Hin).
Qed.
(** Writing the cells that changed keeps the state stored. *)
Lemma stored_put v s s' identity term term' cs :
  stored v s identity term -> Forall bounded cs ->
  (forall c, bounded c -> c ∉ cs -> cell_value s' identity term' c = cell_value s identity term c) ->
  stored (put_all (cell_change s' identity term' <$> cs) v) s' identity term'.
Proof.
  intros [Hv Hk] HF Hsame. split.
  - intros c Hc. rewrite put_all_cells by done. case_bool_decide; [done|]. by rewrite Hv, Hsame.
  - intros k x Hx.
    destruct (decide (Exists (fun c => cell_key c = k) cs)) as [Hex|Hno].
    + apply list.Exists_exists in Hex as (c & Hin & <-). exists c. rewrite list.Forall_forall in HF. auto.
    + assert (E : put_all (cell_change s' identity term' <$> cs) v k = v k).
      { unfold put_all. destruct (List.find _ _) as [m|] eqn:Hf; [|done]. exfalso. apply Hno.
        apply List.find_some in Hf as [Hin Hf]. apply list_elem_of_In, list_elem_of_fmap in Hin as (c & -> & Hin).
        apply eqb_true_1 in Hf. apply list.Exists_exists. by exists c. }
      rewrite E in Hx. by apply (Hk k x).
Qed.

Lemma cell_changes_NoDup s identity term cs :
  NoDup cs -> Forall bounded cs -> NoDup (m_key <$> (cell_change s identity term <$> cs)).
Proof.
  intros Hn HF. induction HF as [|c cs Hc HF IH]; [constructor|]. rewrite !fmap_cons. apply list.NoDup_cons in Hn as [Hx Hn].
  apply list.NoDup_cons. split; [|by apply IH]. intros (m & E & Hin)%list_elem_of_fmap.
  apply list_elem_of_fmap in Hin as (c' & -> & Hin). cbn in E.
  rewrite list.Forall_forall in HF. apply cell_key_inj in E as ->; auto.
Qed.

(** ** The cells of an entry *)

(** The cells an entry may change, in the order they are written. *)
Definition touched (s : StateMachine) (entry : Entry) : list CellKey :=
  CMeta :: match e_command entry with
           | Put key _ | Delete key => [CValue key]
           | SessionPut id key _ _ | SessionDelete id key _ =>
               if is_some (session_key s id key) then [CValue key; CRecord id key] else []
           | RegisterSession nonce =>
               match registrations s !! nonce with Some id => [CNonce nonce; CHeader id] | None => [] end
           | CloseSession id => if is_some (session_header s id) then [CHeader id] else []
           | NoOp | Configuration _ => []
           end.

Lemma entry_cells_touched s identity entry :
  app_valid s -> last_applied s <> 0 ->
  entry_cells s identity entry = IoOk (cell_change s identity (e_term entry) <$> touched s entry).
Proof.
  intros Hv Hpos. unfold entry_cells, touched.
  assert (Hm : put META_KEY (metadata_json (cell_metadata s identity (e_term entry)))
    = cell_change s identity (e_term entry) CMeta).
  { unfold cell_change, cell_value. by rewrite (proj2 (N.eqb_neq _ _) Hpos). }
  rewrite Hm. unfold value_cell, put, registration_id.
  destruct (e_command entry) as [k w|k| |c|n|id|id k q w|id k q]; try done.
  - destruct (registrations s !! n) as [id|] eqn:Hr; [|done]. destruct (av_nonce s Hv n id Hr) as [_ [session Hs]].
    assert (Hh : session_header s id = Some (registered session, closed session)) by (unfold session_header; by rewrite Hs).
    unfold cell_change. rewrite Hh. cbn [mbind Io_bind io_of]. rewrite !fmap_cons, fmap_nil.
    cbn [cell_key cell_value]. by rewrite Hr, Hh.
  - unfold cell_change. destruct (session_header s id) as [[rg cl]|] eqn:Hh; [|done].
    cbn [is_some]. rewrite !fmap_cons, fmap_nil. cbn [cell_key cell_value]. by rewrite Hh.
  - unfold cell_change. destruct (session_key s id k) as [r|] eqn:Hk; [|done]. cbn [is_some].
    rewrite !fmap_cons, fmap_nil. cbn [cell_key cell_value]. by rewrite Hk.
  - unfold cell_change. destruct (session_key s id k) as [r|] eqn:Hk; [|done]. cbn [is_some].
    rewrite !fmap_cons, fmap_nil. cbn [cell_key cell_value]. by rewrite Hk.
Qed.

Lemma session_bounded s id : app_valid s -> is_Some (sessions s !! id) -> id <= u64_max.
Proof.
  intros Hv [session Hs]. pose proof (so_id _ _ _ (av_session s Hv id session Hs)). pose proof (av_applied s Hv). lia.
Qed.
Lemma header_some s id : is_some (session_header s id) = true -> is_Some (sessions s !! id).
Proof. unfold session_header. by destruct (sessions s !! id). Qed.
Lemma key_some s id key : is_some (session_key s id key) = true -> is_Some (sessions s !! id).
Proof. unfold session_key. by destruct (sessions s !! id). Qed.

Lemma touched_ok s entry : app_valid s -> Forall bounded (touched s entry) /\ NoDup (touched s entry).
Proof.
  intros Hv. unfold touched.
  assert (Hone : forall c, c <> CMeta -> bounded c -> Forall bounded [CMeta; c] /\ NoDup [CMeta; c]).
  { intros c Hc Hb. split; [by repeat constructor|]. apply list.NoDup_cons. split; [|apply NoDup_singleton].
    by intros <-%list_elem_of_singleton. }
  assert (Htwo : forall c c', c <> CMeta -> c' <> CMeta -> c <> c' -> bounded c -> bounded c' ->
     Forall bounded [CMeta; c; c'] /\ NoDup [CMeta; c; c']).
  { intros c c' Hc Hc' Hne Hb Hb'. split; [by repeat constructor|]. rewrite !list.NoDup_cons, !elem_of_cons, !elem_of_nil.
    naive_solver constructor. }
  assert (Hnil : Forall bounded [CMeta] /\ NoDup [CMeta]) by (split; [by repeat constructor|apply NoDup_singleton]).
  destruct (e_command entry) as [k w|k| |c|n|id|id k q w|id k q]; try done; try (by apply Hone).
  - destruct (registrations s !! n) as [id|] eqn:Hr; [|done]. apply Htwo; try done.
    destruct (av_nonce s Hv n id Hr) as [_ Hs]. by eapply session_bounded.
  - destruct (is_some (session_header s id)) eqn:Hh; [|done]. apply Hone; [done|].
    by apply (session_bounded s id Hv), header_some.
  - destruct (is_some (session_key s id k)) eqn:Hk; [|done]. apply Htwo; try done.
    by eapply session_bounded, key_some.
  - destruct (is_some (session_key s id k)) eqn:Hk; [|done]. apply Htwo; try done.
    by eapply session_bounded, key_some.
Qed.

(** Cells of states that differ in one session. *)
Lemma cell_value_ext s s' identity term term' c :
  c <> CMeta ->
  (forall key, c = CValue key -> values s' !! key = values s !! key) ->
  (forall n, c = CNonce n -> registrations s' !! n = registrations s !! n) ->
  (forall id, c = CHeader id -> session_header s' id = session_header s id) ->
  (forall id key, c = CRecord id key -> session_key s' id key = session_key s id key) ->
  cell_value s' identity term' c = cell_value s identity term c.
Proof. intros Hm Hv Hn Hh Hr. destruct c; cbn; [done|by rewrite Hv|by rewrite Hn|by rewrite Hh|by rewrite Hr]. Qed.

Lemma mutation_frame s id key sequence value index s2 session identity term term' c :
  accepted s id key sequence value index s2 session -> c <> CMeta ->
  c ∉ (if is_some (session_key (s2 <| last_applied := index |>) id key) then [CValue key; CRecord id key] else []) ->
  cell_value (s2 <| last_applied := index |>) identity term' c = cell_value s identity term c.
Proof.
  intros [Hs _ _ _ _ (k & b & -> & _) _] Hm Hc.
  assert (Hk : is_some (session_key (mkStateMachine (set_value key value (values s)) (registrations s)
      (<[id := session <| session_keys := <[key := mkKeyRecord sequence (sha256_digest (canonical_payload key value))
        (canonical_payload key value) (success id (Some sequence) index)]> (session_keys session) |>]> (sessions s))
      (last_applied s) k b <| last_applied := index |>) id key) = true).
  { unfold session_key. cbn. rewrite lookup_insert_eq. cbn. by rewrite lookup_insert_eq. }
  rewrite Hk in Hc. apply cell_value_ext; try done.
  - intros k' ->. assert (Hne : key <> k') by (intros <-; apply Hc; by left).
    cbn. destruct value; cbn [set_value]; [by apply lookup_insert_ne|by apply lookup_delete_ne].
  - intros i ->. unfold session_header. cbn. destruct (decide (id = i)) as [<-|?].
    + by rewrite lookup_insert_eq, Hs.
    + by rewrite lookup_insert_ne.
  - intros i k' ->. unfold session_key. cbn. destruct (decide (id = i)) as [<-|?].
    + rewrite lookup_insert_eq, Hs. cbn. rewrite lookup_insert_ne; [done|]. intros <-. apply Hc. right. by left.
    + by rewrite lookup_insert_ne.
Qed.

(** Only the touched cells change. *)
Lemma touched_frame s entry outcome s' identity term term' c :
  app_valid s -> command_text (e_command entry) -> app_apply s entry = Done (outcome, s') -> c ∉ touched s' entry ->
  cell_value s' identity term' c = cell_value s identity term c.
Proof.
  intros Hv Ht Ha Hc. pose proof (apply_valid s entry outcome s' Hv Ht Ha) as (Hv' & _ & Hi).
  assert (Hm : c <> CMeta) by (intros ->; apply Hc; by left).
  unfold app_apply in Ha. destruct (negb _); [done|]. apply Outcome_bind_Done in Ha as ([o s1] & E & [= <- <-]).
  unfold apply_command in E. unfold touched in Hc. apply not_elem_of_cons in Hc as [_ Hc].
  destruct (e_command entry) as [k w|k| |cf|n|id|id k q w|id k q].
  - injection E as <- <-. apply cell_value_ext; try done. intros key ->. cbn. apply lookup_insert_ne. intros <-. apply Hc. by left.
  - injection E as <- <-. apply cell_value_ext; try done. intros key ->. cbn. apply lookup_delete_ne. intros <-. apply Hc. by left.
  - injection E as <- <-. by apply cell_value_ext.
  - injection E as <- <-. by apply cell_value_ext.
  - apply Outcome_bind_Done in E as ([r s2] & E & [= <- <-]).
    apply register_cases in E as [->|(_ & Hr & _ & _ & ->)]; [by apply cell_value_ext|].
    cbn [upd registrations] in Hc. rewrite lookup_insert_eq in Hc.
    pose proof (fresh_session s (e_index entry) Hv ltac:(lia)) as Hf.
    apply cell_value_ext; try done.
    + intros n' ->. cbn. apply lookup_insert_ne. intros <-. apply Hc. by left.
    + intros id ->. unfold session_header. cbn. rewrite lookup_insert_ne; [done|]. intros <-. apply Hc. right. by left.
    + intros id key ->. unfold session_key. cbn. destruct (decide (e_index entry = id)) as [<-|?].
      * rewrite lookup_insert_eq, Hf. cbn. by rewrite lookup_empty.
      * by rewrite lookup_insert_ne.
  - apply Outcome_bind_Done in E as ([r s2] & E & [= <- <-]).
    apply close_cases in E as [->|(session & Hs & _ & _ & ->)]; [by apply cell_value_ext|].
    unfold session_header at 1 in Hc. cbn [upd sessions] in Hc. rewrite lookup_insert_eq in Hc. cbn in Hc.
    apply cell_value_ext; try done.
    + intros i ->. unfold session_header. cbn. rewrite lookup_insert_ne; [done|]. intros <-. apply Hc. by left.
    + intros i key ->. unfold session_key. cbn. destruct (decide (id = i)) as [<-|?].
      * by rewrite lookup_insert_eq, Hs.
      * by rewrite lookup_insert_ne.
  - apply Outcome_bind_Done in E as ([r s2] & E & [= <- <-]).
    apply mutate_cases in E as [[-> _]|[_ [session Hacc]]]; [by apply cell_value_ext|].
    by eapply (mutation_frame s).
  - apply Outcome_bind_Done in E as ([r s2] & E & [= <- <-]).
    apply mutate_cases in E as [[-> _]|[_ [session Hacc]]]; [by apply cell_value_ext|].
    by eapply (mutation_frame s).
Qed.

(** Applying an entry and writing its cells keeps the state stored. *)
Lemma entry_stored s entry outcome s' identity term v :
  app_valid s -> command_text (e_command entry) -> app_apply s entry = Done (outcome, s') ->
  stored v s identity term ->
  exists cells, entry_cells s' identity entry = IoOk cells /\ NoDup (m_key <$> cells)
    /\ stored (put_all cells v) s' identity (e_term entry).
Proof.
  intros Hv Ht Ha Hst. pose proof (apply_valid s entry outcome s' Hv Ht Ha) as (Hv' & Hl & Hi).
  destruct (touched_ok s' entry Hv') as [Hb Hn]. eexists. split; [apply entry_cells_touched; [done|lia]|].
  split; [by apply cell_changes_NoDup|]. eapply stored_put; [done|done|]. intros c _ Hc. by eapply touched_frame.
Qed.

(** ** The cells of a whole state *)

Definition saved_cells (x : SessionSnapshot) : list CellKey :=
  CNonce (ss_nonce x) :: CHeader (ss_session_id x) :: (CRecord (ss_session_id x) <$> (sk_key <$> ss_keys x)).
Definition state_cells (vals : list (string * string)) (saved : list SessionSnapshot) : list CellKey :=
  CMeta :: (CValue <$> vals.*1) ++ (saved ≫= saved_cells).

Section described.
Context (s : StateMachine) (vals : list (string * string)) (saved : list SessionSnapshot).
Context (Hv : app_valid s) (Hd : describes s vals saved) (identity : ApplicationIdentity) (term : Term).

Lemma described_value k v : (k, v) ∈ vals <-> values s !! k = Some v.
Proof using Hd. rewrite <- (de_values _ _ _ Hd). apply elem_of_map_to_list. Qed.
Lemma described_session x : x ∈ saved -> sessions s !! ss_session_id x = Some (saved_session x).
Proof using Hd.
  intros Hx. apply elem_of_map_to_list. rewrite (de_sessions _ _ _ Hd). by apply (list_elem_of_fmap_2 session_of).
Qed.
Lemma described_id id : is_Some (sessions s !! id) -> exists x, x ∈ saved /\ ss_session_id x = id.
Proof using Hd.
  intros [session Hs]. apply elem_of_map_to_list in Hs. rewrite (de_sessions _ _ _ Hd) in Hs.
  apply list_elem_of_fmap in Hs as (x & [= -> ->] & Hx). by exists x.
Qed.
Lemma described_record x r : x ∈ saved -> r ∈ ss_keys x -> session_key s (ss_session_id x) (sk_key r) = Some r.
Proof using Hd.
  intros Hx Hr. unfold session_key. rewrite (described_session x Hx). cbn [mbind option_bind saved_session session_keys].
  assert (E : key_map (ss_keys x) !! sk_key r = Some (record_of r))
    by (apply key_map_Some; [by apply (de_keys _ _ _ Hd)|by exists r]).
  rewrite E. cbn. by destruct r.
Qed.

Lemma state_cells_bounded : Forall bounded (state_cells vals saved).
Proof using Hv Hd.
  unfold state_cells. constructor; [done|]. apply list.Forall_app. split; apply list.Forall_forall.
  - by intros c (k & -> & _)%list_elem_of_fmap.
  - intros c (x & Hc & Hx)%list_elem_of_bind.
    assert (Hi : ss_session_id x <= u64_max) by (apply (session_bounded s _ Hv); rewrite described_session by done; eauto).
    unfold saved_cells in Hc. rewrite !elem_of_cons, list_elem_of_fmap in Hc.
    destruct Hc as [->|[->|(k & -> & _)]]; done.
Qed.

(** A cell with a value is listed, and the other way around. *)
Lemma state_cells_complete c : is_Some (cell_value s identity term c) -> c ∈ state_cells vals saved.
Proof using Hv Hd.
  unfold state_cells. rewrite elem_of_cons, elem_of_app, list_elem_of_fmap, list_elem_of_bind.
  destruct c as [|k|n|id|id k]; cbn [cell_value].
  - by left.
  - intros Hs. apply fmap_is_Some in Hs as [v Hk]. right. left. exists k. split; [done|].
    apply described_value in Hk. by apply (list_elem_of_fmap_2 fst _ (k, v)).
  - intros Hs. apply fmap_is_Some in Hs as [id Hn]. right. right. destruct (av_nonce s Hv n id Hn) as [_ Hsome].
    destruct (described_id id Hsome) as (x & Hx & <-). exists x. split; [|done].
    apply elem_of_cons. left. f_equal.
    exact (av_inj s Hv _ _ (ss_session_id x) Hn (de_nonces _ _ _ Hd x Hx)).
  - intros Hs. apply fmap_is_Some in Hs as [h Hh]. right. right.
    destruct (described_id id) as (x & Hx & <-); [apply header_some; by rewrite Hh|].
    exists x. split; [|done]. right. by left.
  - intros Hs. apply fmap_is_Some in Hs as [r Hr]. right. right.
    destruct (described_id id) as (x & Hx & <-); [apply (key_some s id k); by rewrite Hr|].
    exists x. split; [|done]. right. right. apply list_elem_of_fmap. exists k. split; [done|].
    unfold session_key in Hr. rewrite (described_session x Hx) in Hr. cbn [mbind option_bind saved_session session_keys] in Hr.
    destruct (key_map (ss_keys x) !! k) as [record|] eqn:Hk; [|done].
    apply key_map_Some in Hk as (r' & Hr' & <- & _); [|by apply (de_keys _ _ _ Hd)]. by apply list_elem_of_fmap_2.
Qed.

Lemma session_cells_ok x : x ∈ saved -> session_cells x = cell_change s identity term <$> saved_cells x.
Proof using Hd.
  intros Hx. unfold session_cells, saved_cells, cell_change, put. rewrite !fmap_cons. cbn [cell_key cell_value].
  rewrite (de_nonces _ _ _ Hd x Hx). unfold session_header. rewrite (described_session x Hx).
  cbn [fmap option_fmap option_map mbind option_bind fst snd saved_session registered closed].
  f_equal. f_equal. rewrite <- !list_fmap_compose. apply list_fmap_ext. intros i r Hr. cbn [compose cell_key cell_value].
  by rewrite (described_record x r Hx (list_elem_of_lookup_2 _ _ _ Hr)).
Qed.

Lemma full_cells_described :
  last_applied s <> 0 ->
  put META_KEY (metadata_json (cell_metadata s identity term))
    :: ((fun kv => put (named "v/" kv.1) (bytes kv.2)) <$> vals) ++ (saved ≫= session_cells)
  = cell_change s identity term <$> state_cells vals saved.
Proof using Hd.
  intros Hpos. unfold state_cells. rewrite fmap_cons, fmap_app. f_equal; [|f_equal].
  - unfold cell_change, put. cbn [cell_key cell_value]. by rewrite (proj2 (N.eqb_neq _ _) Hpos).
  - rewrite <- !list_fmap_compose. apply list_fmap_ext. intros i [k v] Hk. unfold put, cell_change. cbn [compose fst snd cell_key cell_value].
    apply list_elem_of_lookup_2, described_value in Hk. by rewrite Hk.
  - assert (Hall : forall l, (forall x, x ∈ l -> x ∈ saved) ->
      (l ≫= session_cells) = cell_change s identity term <$> (l ≫= saved_cells)).
    { induction l as [|x l IH]; intros Hl; [done|]. cbn [mbind list_bind]. rewrite fmap_app, <- IH by (intros; apply Hl; by right).
      by rewrite <- session_cells_ok by (apply Hl; by left). }
    by apply Hall.
Qed.

Lemma full_stored :
  stored (put_all (cell_change s identity term <$> state_cells vals saved) (fun _ => None)) s identity term.
Proof using Hv Hd.
  split.
  - intros c Hc. rewrite put_all_cells by (done || apply state_cells_bounded). case_bool_decide as Hin; [done|].
    destruct (cell_value s identity term c) as [x|] eqn:E; [|done]. exfalso. apply Hin.
    apply state_cells_complete. by rewrite E.
  - intros k x Hx. unfold put_all in Hx. destruct (List.find _ _) as [m|] eqn:Hf; [|done].
    apply List.find_some in Hf as [Hin Hf]. apply list_elem_of_In, list_elem_of_fmap in Hin as (c & -> & Hin).
    apply eqb_true_1 in Hf as <-. exists c. split; [|done].
    pose proof state_cells_bounded as HF. rewrite list.Forall_forall in HF. by apply HF.
Qed.
End described.

Lemma full_cells_ok s identity term :
  app_valid s -> values_ok s -> last_applied s <> 0 ->
  exists cells, full_cells s identity term = Done cells /\ stored (put_all cells (fun _ => None)) s identity term.
Proof.
  intros Hv Hvals Hpos. destruct (export_ok s Hv Hvals) as (saved & He & Hd).
  unfold full_cells. rewrite He. cbn [or_panic mbind Outcome_bind snapshot_with as_values as_sessions].
  eexists. split; [reflexivity|]. rewrite (full_cells_described s _ saved Hd identity term Hpos).
  by apply full_stored.
Qed.

(** ** Decoding *)

(** The strings of a state, under the invariant of [String]. *)
Record app_text (s : StateMachine) : Prop := {
  tx_values : forall k v, values s !! k = Some v -> Utf8 k /\ Utf8 v;
  tx_nonces : forall n id, registrations s !! n = Some id -> Utf8 n;
  tx_keys : forall id key r, session_key s id key = Some r -> Utf8 key;
}.

Lemma text_bytes k : Utf8 k -> text (bytes k) = IoOk k.
Proof. intros Hk. unfold text. by rewrite (from_utf8_bytes k Hk). Qed.
Lemma session_id_bytes id : id <= u64_max -> session_id (to_be_bytes 8 id) = IoOk id.
Proof.
  intros Hi. unfold session_id. assert (E : len64 (to_be_bytes 8 id) = 8) by (unfold len64; by rewrite to_be_bytes_length).
  rewrite E. cbn [N.eqb Pos.eqb]. by rewrite from_to_be_bytes8.
Qed.

Section rows.
Context (s : StateMachine) (identity : ApplicationIdentity) (term : Term).
Context (Hv : app_valid s) (Ht : app_text s) (Hpos : last_applied s <> 0).

(** What one row adds. *)
Definition absorb (c : CellKey) (d : Decoded) : Decoded :=
  match c with
  | CMeta => d <| dc_meta := Some (cell_metadata s identity term) |>
  | CValue k => d <| dc_values := dc_values d ++ option_list ((fun v => (k, v)) <$> values s !! k) |>
  | CNonce n => d <| dc_registrations := match registrations s !! n with
                                         | Some id => <[id := n]> (dc_registrations d)
                                         | None => dc_registrations d end |>
  | CHeader id => d <| dc_headers := match session_header s id with
                                     | Some h => <[id := mkSessionHeader h.1 h.2]> (dc_headers d)
                                     | None => dc_headers d end |>
  | CRecord id k => d <| dc_keys := match session_key s id k with
                                    | Some r => <[id := default [] (dc_keys d !! id) ++ [r]]> (dc_keys d)
                                    | None => dc_keys d end |>
  end.

Lemma key_not_meta c : bounded c -> c <> CMeta -> (cell_key c ==? META_KEY) = false.
Proof. intros Hb Hc. apply eqb_false. intros E. apply Hc. by apply (cell_key_inj c CMeta). Qed.

Lemma decode_cell c x d :
  bounded c -> cell_value s identity term c = Some x -> cell_key c ∉ dc_seen d ->
  (forall n id, c = CNonce n -> registrations s !! n = Some id -> dc_registrations d !! id = None) ->
  decode_row (cell_key c, x) d = IoOk (absorb c (d <| dc_seen := {[cell_key c]} ∪ dc_seen d |>)).
Proof using All.
  intros Hb Hx Hseen Hreg. unfold decode_row. rewrite bool_decide_eq_false_2 by done. cbv zeta.
  destruct (decide (c = CMeta)) as [->|Hne].
  { cbn [cell_key cell_value] in *. rewrite (proj2 (N.eqb_neq _ _) Hpos) in Hx. injection Hx as <-.
    rewrite (proj2 (eqb_true META_KEY _) eq_refl), metadata_inverse. done. }
  rewrite key_not_meta by done. destruct c as [|k|n|id|id k]; [done| | | |]; cbn [cell_key cell_value absorb] in *.
  - destruct (values s !! k) as [v|] eqn:Hk; [|done]. injection Hx as <-. unfold named at 1. rewrite strip_prefix_app.
    destruct (tx_values s Ht k v Hk) as [Hku Hvu]. rewrite (text_bytes k Hku), (text_bytes v Hvu). done.
  - destruct (registrations s !! n) as [id|] eqn:Hn; [|done].
    assert (x = to_be_bytes 8 id) as -> by (cbn [fmap option_fmap option_map] in Hx; congruence). unfold named.
    rewrite strip_prefix_app. change (strip_prefix (bytes "v/") (bytes "r/" ++ bytes n)) with (@None (list N)).
    destruct (av_nonce s Hv n id Hn) as [_ Hs].
    cbv beta iota. rewrite (session_id_bytes id (session_bounded s id Hv Hs)), (text_bytes n (tx_nonces s Ht n id Hn)).
    cbn [mbind Io_bind]. unfold upd. cbn [dc_meta dc_values dc_registrations dc_headers dc_keys dc_seen].
    by rewrite (Hreg n id eq_refl Hn).
  - destruct (session_header s id) as [h|] eqn:Hh; [|done]. injection Hx as <-. unfold session_cell. rewrite strip_prefix_app.
    change (strip_prefix (bytes "v/") (bytes "s/" ++ to_be_bytes 8 id ++ [])) with (@None (list N)).
    change (strip_prefix (bytes "r/") (bytes "s/" ++ to_be_bytes 8 id ++ [])) with (@None (list N)).
    cbv beta iota. rewrite app_nil_r, session_id_bytes by done. cbn [mbind Io_bind]. by rewrite header_inverse.
  - destruct (session_key s id k) as [r|] eqn:Hk; [|done]. injection Hx as <-. unfold session_cell. rewrite strip_prefix_app.
    change (strip_prefix (bytes "v/") (bytes "k/" ++ to_be_bytes 8 id ++ bytes k)) with (@None (list N)).
    change (strip_prefix (bytes "r/") (bytes "k/" ++ to_be_bytes 8 id ++ bytes k)) with (@None (list N)).
    change (strip_prefix (bytes "s/") (bytes "k/" ++ to_be_bytes 8 id ++ bytes k)) with (@None (list N)).
    cbv beta iota.
    assert (Hname : sk_key r = k /\ 0 < str_len k).
    { unfold session_key in Hk. destruct (sessions s !! id) as [session|] eqn:Hs; [|done]. cbn in Hk.
      destruct (session_keys session !! k) as [rec|] eqn:Hr; [|done]. injection Hk as <-. split; [done|].
      apply (so_records _ _ _ (av_session s Hv id session Hs) k rec Hr). }
    destruct Hname as [Hname Hlen].
    assert (H8 : length (to_be_bytes 8 id) = 8%nat) by apply to_be_bytes_length.
    rewrite (proj2 (N.leb_gt _ _)).
    2:{ rewrite len64_app, bytes_len. unfold len64. rewrite H8. lia. }
    change (take 8 (to_be_bytes 8 id ++ bytes k)) with (to_be_bytes 8 id).
    rewrite (drop_app_len 8 _ _ H8), (session_id_bytes id Hb), record_inverse.
    cbn [io_of mbind Io_bind]. rewrite (text_bytes k (tx_keys s Ht id k r Hk)). cbn [mbind Io_bind].
    by rewrite Hname, (proj2 (eqb_true k _) eq_refl).
Qed.

Definition value_of (c : CellKey) : list (string * string) :=
  match c with CValue k => option_list ((fun v => (k, v)) <$> values s !! k) | _ => [] end.
Definition record_in (id : LogIndex) (c : CellKey) : list SessionKeySnapshot :=
  match c with
  | CRecord i k => if decide (i = id) then option_list (session_key s i k) else []
  | _ => []
  end.
Definition listed {A} (l : list A) : option (list A) := match l with [] => None | _ => Some l end.

(** What has been decoded after some cells. *)
Record decoded (ps : list CellKey) (d : Decoded) : Prop := {
  di_seen : forall k, k ∈ dc_seen d <-> exists c, c ∈ ps /\ k = cell_key c;
  di_meta : CMeta ∈ ps -> dc_meta d = Some (cell_metadata s identity term);
  di_values : dc_values d = ps ≫= value_of;
  di_registrations : forall id n, dc_registrations d !! id = Some n <-> CNonce n ∈ ps /\ registrations s !! n = Some id;
  di_headers : forall id h, dc_headers d !! id = Some h
    <-> CHeader id ∈ ps /\ (fun p => mkSessionHeader p.1 p.2) <$> session_header s id = Some h;
  di_keys : forall id, dc_keys d !! id = listed (ps ≫= record_in id);
}.

Lemma decoded_nil : decoded [] decoded_empty.
Proof.
  split; cbn [decoded_empty dc_seen dc_meta dc_values dc_registrations dc_headers dc_keys mbind list_bind listed].
  - set_solver.
  - by intros ?%elem_of_nil.
  - done.
  - intros id n. rewrite lookup_empty. set_solver.
  - intros id h. rewrite lookup_empty. set_solver.
  - intros id. apply lookup_empty.
Qed.

Lemma listed_snoc {A} (l l' : list A) : l' <> [] -> listed (l ++ l') = Some (default [] (listed l) ++ l').
Proof. by destruct l, l'. Qed.

Lemma snoc_elem {A} (l : list A) x y : x ∈ l ++ [y] <-> x ∈ l \/ x = y.
Proof. by rewrite elem_of_app, list_elem_of_singleton. Qed.

Lemma bind_snoc {A B} (f : A -> list B) l x : (l ++ [x]) ≫= f = (l ≫= f) ++ f x.
Proof. rewrite bind_app. cbn [mbind list_bind]. by rewrite app_nil_r. Qed.

Lemma absorb_decoded ps c d :
  decoded ps d -> is_Some (cell_value s identity term c) ->
  decoded (ps ++ [c]) (absorb c (d <| dc_seen := {[cell_key c]} ∪ dc_seen d |>)).
Proof using All.
  intros [Hs Hm Hva Hr Hh Hk] Hc.
  assert (Hseen : forall k, k ∈ {[cell_key c]} ∪ dc_seen d <-> exists c', c' ∈ ps ++ [c] /\ k = cell_key c').
  { intros k. rewrite elem_of_union, elem_of_singleton, Hs. setoid_rewrite snoc_elem. naive_solver. }
  destruct c as [|k|n|id|id k]; cbn [absorb cell_value] in *; unfold upd;
    split; cbn [dc_seen dc_meta dc_values dc_registrations dc_headers dc_keys]; try exact Hseen;
    rewrite ?bind_snoc; cbn [value_of]; rewrite ?app_nil_r; try exact Hva;
    try (intros id' n'; rewrite Hr, snoc_elem; naive_solver; fail);
    try (intros id' h'; rewrite Hh, snoc_elem; naive_solver; fail);
    try (intros id'; rewrite bind_snoc; cbn [record_in]; rewrite app_nil_r; apply Hk);
    try (intros Hin; apply snoc_elem in Hin as [Hin|Hin]; [by apply Hm|done]).
  - done.
  - by rewrite Hva.
  - apply fmap_is_Some in Hc as [id Hn]. rewrite Hn. intros id' n'. rewrite lookup_insert_Some, Hr, snoc_elem. split.
    + intros [[<- <-]|[Hne [? ?]]]; [split; [by right|done]|split; [by left|done]].
    + intros [[Hin| [= ->]] Hn']; [|left; split; [congruence|done]].
      destruct (decide (id = id')) as [->|?]; [|by right]. left. split; [done|].
      by apply (av_inj s Hv n n' id').
  - apply fmap_is_Some in Hc as [h Hsh]. rewrite Hsh. intros id' h'. rewrite lookup_insert_Some, Hh, snoc_elem. split.
    + intros [[<- <-]|[Hne [? ?]]]; [split; [by right|by rewrite Hsh]|split; [by left|done]].
    + intros [[Hin| [= ->]] E]; [|left; split; [done|rewrite Hsh in E; by injection E]].
      destruct (decide (id = id')) as [->|?]; [|by right]. left. split; [done|]. rewrite Hsh in E. by injection E.
  - apply fmap_is_Some in Hc as [r Hsk]. rewrite Hsk. intros id'. rewrite bind_snoc. cbn [record_in].
    destruct (decide (id = id')) as [->|Hne].
    + rewrite lookup_insert_eq, Hk, Hsk. cbn [option_list option_rect]. by rewrite listed_snoc.
    + rewrite lookup_insert_ne by done. by rewrite app_nil_r.
Qed.

Definition row_of (c : CellKey) : Bytes * Bytes := (cell_key c, default [] (cell_value s identity term c)).

Lemma decode_rows_ok cs ps d :
  decoded ps d -> NoDup (ps ++ cs) -> Forall bounded (ps ++ cs) ->
  Forall (fun c => is_Some (cell_value s identity term c)) cs ->
  exists d', decode_rows (row_of <$> cs) d = IoOk d' /\ decoded (ps ++ cs) d'.
Proof using All.
  revert ps d. induction cs as [|c cs IH]; intros ps d Hd Hn Hb HF.
  { exists d. rewrite app_nil_r. done. }
  rewrite fmap_cons. cbn [decode_rows]. apply list.Forall_cons in HF as [[x Hx] HF].
  assert (Hbc : bounded c) by (rewrite list.Forall_forall in Hb; apply Hb, elem_of_app; right; by left).
  assert (Hc : c ∉ ps).
  { rewrite list.NoDup_app in Hn. destruct Hn as (_ & Hn & _). intros Hin. apply (Hn c Hin). by left. }
  assert (Hrow : row_of c = (cell_key c, x)) by (unfold row_of; by rewrite Hx).
  rewrite Hrow, (decode_cell c x d); [|done|done| |].
  - cbn [mbind Io_bind]. rewrite (app_assoc ps [c] cs : ps ++ c :: cs = (ps ++ [c]) ++ cs) in *.
    apply IH; [|done|done|done]. apply absorb_decoded; [done|by rewrite Hx].
  - rewrite (di_seen _ _ Hd). intros (c' & Hin & E). rewrite list.Forall_forall in Hb.
    apply cell_key_inj in E as ->; [done|done|]. apply Hb, elem_of_app. by left.
  - intros n id -> Hn'. destruct (dc_registrations d !! id) as [n'|] eqn:E; [|done]. exfalso.
    apply (di_registrations _ _ Hd) in E as [Hin E]. by rewrite (av_inj s Hv n n' id Hn' E) in Hc.
Qed.

(** The sessions [join_sessions] makes of the headers. *)
Definition joined (registrations : gmap LogIndex string) (keys : gmap LogIndex (list SessionKeySnapshot))
    (header : LogIndex * SessionHeader) : SessionSnapshot :=
  mkSessionSnapshot (default EmptyString (registrations !! header.1)) header.1 (sh_registered header.2)
    (sh_closed header.2) (default [] (keys !! header.1)).

Lemma join_sessions_ok hs regs keys :
  NoDup hs.*1 -> (forall id, id ∈ hs.*1 -> is_Some (regs !! id)) ->
  exists regs' keys', join_sessions hs regs keys = IoOk (joined regs keys <$> hs, regs', keys')
    /\ (forall id, regs' !! id = if decide (id ∈ hs.*1) then None else regs !! id)
    /\ (forall id, keys' !! id = if decide (id ∈ hs.*1) then None else keys !! id).
Proof.
  revert regs keys. induction hs as [|[id h] hs IH]; intros regs keys Hn Hr.
  - exists regs, keys. split; [done|]. split; intros id; by rewrite decide_False by apply not_elem_of_nil.
  - cbn [fmap list_fmap fst] in Hn, Hr. apply list.NoDup_cons in Hn as [Hni Hn].
    destruct (Hr id ltac:(by left)) as [nonce Hid].
    destruct (IH (delete id regs) (delete id keys) Hn) as (regs' & keys' & E & Hr' & Hk').
    { intros i Hi. rewrite lookup_delete_ne; [apply Hr; by right|]. by intros <-. }
    exists regs', keys'. cbn [join_sessions]. rewrite Hid. cbn [io_of mbind Io_bind]. rewrite E. cbn [mbind Io_bind].
    split; [|split].
    + rewrite fmap_cons. unfold joined at 2. cbn [fst snd]. rewrite Hid. cbn [default]. f_equal. f_equal. f_equal. f_equal.
      apply list_fmap_ext. intros i [id' h'] Hi. apply list_elem_of_lookup_2 in Hi. unfold joined. cbn [fst snd].
      assert (Hne : id <> id') by (intros <-; apply Hni; by apply (list_elem_of_fmap_2 fst _ (id, h'))).
      by rewrite !lookup_delete_ne by done.
    + intros i. rewrite Hr'. cbn [fmap list_fmap fst]. destruct (decide (i = id)) as [->|Hne].
      * rewrite (decide_True (P := id ∈ id :: _)) by (by left). rewrite lookup_delete_eq. by destruct (decide _).
      * rewrite lookup_delete_ne by done.
        destruct (decide (i ∈ hs.*1)); destruct (decide (i ∈ id :: hs.*1)) as [Hi|Hi]; try done.
        -- exfalso. apply Hi. by right.
        -- exfalso. apply elem_of_cons in Hi as [?|?]; done.
    + intros i. rewrite Hk'. cbn [fmap list_fmap fst]. destruct (decide (i = id)) as [->|Hne].
      * rewrite (decide_True (P := id ∈ id :: _)) by (by left). rewrite lookup_delete_eq. by destruct (decide _).
      * rewrite lookup_delete_ne by done.
        destruct (decide (i ∈ hs.*1)); destruct (decide (i ∈ id :: hs.*1)) as [Hi|Hi]; try done.
        -- exfalso. apply Hi. by right.
        -- exfalso. apply elem_of_cons in Hi as [?|?]; done.
Qed.

Context (cs : list CellKey) (d : Decoded) (Hd : decoded cs d) (Hn : NoDup cs).
Context (Hall : forall c, bounded c -> is_Some (cell_value s identity term c) -> c ∈ cs).

Lemma header_value id h : session_header s id = Some h <-> exists session, sessions s !! id = Some session
  /\ h = (registered session, closed session).
Proof. unfold session_header. destruct (sessions s !! id); cbn; naive_solver. Qed.

Lemma decoded_header id h : dc_headers d !! id = Some h
  <-> exists session, sessions s !! id = Some session /\ h = mkSessionHeader (registered session) (closed session).
Proof using All.
  rewrite (di_headers _ _ Hd). split.
  - intros [_ E]. destruct (session_header s id) as [p|] eqn:Hp; [|done]. injection E as <-.
    apply header_value in Hp as (session & Hs & ->). by exists session.
  - intros (session & Hs & ->). assert (Hp : session_header s id = Some (registered session, closed session))
      by (apply header_value; by exists session). rewrite Hp. split; [|done]. apply Hall.
    + by apply (session_bounded s id Hv).
    + cbn [cell_value]. by rewrite Hp.
Qed.

Lemma decoded_registration id n : dc_registrations d !! id = Some n <-> registrations s !! n = Some id.
Proof using All.
  rewrite (di_registrations _ _ Hd). split; [by intros [_ E]|]. intros E. split; [|done]. apply Hall; [done|].
  cbn [cell_value]. by rewrite E.
Qed.

Lemma records_in id : exists l, (cs ≫= record_in id) = l /\ NoDup (sk_key <$> l)
  /\ forall r, r ∈ l <-> session_key s id (sk_key r) = Some r.
Proof using All.
  eexists. split; [reflexivity|].
  assert (Hone : forall c r, r ∈ record_in id c <-> c = CRecord id (sk_key r) /\ session_key s id (sk_key r) = Some r).
  { intros c r. destruct c as [| | | |i k]; cbn [record_in]; try (split; [by intros ?%elem_of_nil|by intros [? _]]).
    assert (Hname : forall k r', session_key s id k = Some r' -> sk_key r' = k).
    { intros k' r'. unfold session_key. destruct (sessions s !! id) as [ss|]; [|done]. cbn.
      destruct (session_keys ss !! k'); [|done]. by intros [= <-]. }
    destruct (decide (i = id)) as [->|Hne]; [|split; [by intros ?%elem_of_nil|by intros [[= ? ?] _]]].
    rewrite elem_of_option_list. split.
    - intros E. pose proof (Hname k r E) as <-. done.
    - by intros [[= ->] E]. }
  split.
  - assert (Hm : sk_key <$> (cs ≫= record_in id) = cs ≫= (fun c => sk_key <$> record_in id c)).
    { clear. induction cs as [|c l IH]; [done|]. cbn [mbind list_bind]. rewrite fmap_app. by rewrite IH. }
    rewrite Hm. apply NoDup_bind; [| |done].
    + intros c c' k _ _ Hk Hk'. apply list_elem_of_fmap in Hk as (r & -> & Hr). apply list_elem_of_fmap in Hk' as (r' & E & Hr').
      apply Hone in Hr as [-> _]. apply Hone in Hr' as [-> _]. by rewrite E.
    + intros c _. destruct c as [| | | |i k]; cbn [record_in]; try constructor.
      destruct (decide (i = id)); [|constructor]. destruct (session_key s i k); [apply NoDup_singleton|constructor].
  - intros r. rewrite list_elem_of_bind. split.
    + intros (c & Hr & _). by apply Hone in Hr as [_ ?].
    + intros E. exists (CRecord id (sk_key r)). split; [by apply Hone|]. apply Hall.
      * cbn [bounded]. apply (session_bounded s id Hv). apply (key_some s id (sk_key r)). by rewrite E.
      * cbn [cell_value]. by rewrite E.
Qed.

Lemma decoded_keys id : default [] (dc_keys d !! id) = cs ≫= record_in id.
Proof using Hd. rewrite (di_keys _ _ Hd). by destruct (cs ≫= record_in id). Qed.
End rows.

Lemma rows_named s identity term (rows : list (Bytes * Bytes)) :
  (forall k x, (k, x) ∈ rows -> exists c, bounded c /\ k = cell_key c /\ cell_value s identity term c = Some x) ->
  exists cs, rows = row_of s identity term <$> cs /\ Forall bounded cs
    /\ Forall (fun c => is_Some (cell_value s identity term c)) cs.
Proof.
  induction rows as [|[k x] rows IH]; intros Hr; [by exists []|].
  destruct (Hr k x ltac:(by left)) as (c & Hb & -> & Hc).
  destruct IH as (cs & -> & HF & HF'); [intros; apply Hr; by right|].
  exists (c :: cs). rewrite fmap_cons. unfold row_of at 2. rewrite Hc. split; [done|].
  split; constructor; [done|done|by rewrite Hc|done].
Qed.

(** The rows of an engine that stores a state decode to that state. *)
Lemma decode_stored s identity term v rows :
  app_valid s -> values_ok s -> app_text s -> stored v s identity term -> last_applied s <> 0 -> term <> 0 ->
  NoDup rows.*1 -> (forall k x, (k, x) ∈ rows <-> v k = Some x) ->
  decode_cells rows (last_applied s) identity = IoOk (s, term).
Proof.
  intros Hv Hvals Ht [Hst Hst'] Hpos Hterm Hnd Hrows.
  destruct (rows_named s identity term rows) as (cs & -> & Hb & Hsome).
  { intros k x Hin. apply Hrows in Hin. destruct (Hst' k x Hin) as (c & Hc & ->). exists c.
    split; [done|]. split; [done|]. by rewrite <- Hst. }
  assert (Hncs : NoDup cs).
  { apply (NoDup_fmap_1 cell_key). rewrite <- list_fmap_compose in Hnd. exact Hnd. }
  assert (Hall : forall c, bounded c -> is_Some (cell_value s identity term c) -> c ∈ cs).
  { intros c Hc [x Hx]. assert (Hin : (cell_key c, x) ∈ row_of s identity term <$> cs) by (apply Hrows; by rewrite Hst).
    apply list_elem_of_fmap in Hin as (c' & [= E _] & Hin). rewrite list.Forall_forall in Hb.
    apply cell_key_inj in E as ->; [done|done|by apply Hb]. }
  unfold decode_cells. rewrite (proj2 (N.eqb_neq _ _) Hpos).
  destruct (decode_rows_ok s identity term Hv Ht Hpos cs [] decoded_empty (decoded_nil s identity term Hv Ht Hpos)) as (d & Ed & Hd); [done..|].
  cbn [app] in Hd. rewrite Ed. cbn [mbind Io_bind].
  rewrite (di_meta _ _ _ _ _ Hd).
  2:{ apply Hall; [done|]. cbn [cell_value]. by rewrite (proj2 (N.eqb_neq _ _) Hpos). }
  cbn [io_of mbind Io_bind cell_metadata cmd_version cmd_applied_index cmd_identity cmd_applied_term].
  rewrite !N.eqb_refl, (proj2 (eqb_true identity _) eq_refl), (proj2 (N.eqb_neq _ _) Hterm). cbn [negb orb].
  set (hs := nmap_iter (dc_headers d)).
  assert (Hhs : forall id h, (id, h) ∈ hs <-> exists session, sessions s !! id = Some session
      /\ h = mkSessionHeader (registered session) (closed session)).
  { intros id h. unfold hs. rewrite (elem_of_btree_iter N.le). by apply (decoded_header s identity term Hv Ht Hpos cs d Hd Hncs Hall). }
  assert (Hids : forall id, id ∈ hs.*1 <-> is_Some (sessions s !! id)).
  { intros id. rewrite list_elem_of_fmap. split.
    - intros ([i h] & -> & Hin). apply Hhs in Hin as (session & Hs & _). by exists session.
    - intros [session Hs]. exists (id, mkSessionHeader (registered session) (closed session)). split; [done|].
      apply Hhs. by exists session. }
  assert (Hreg : forall id n, dc_registrations d !! id = Some n <-> registrations s !! n = Some id)
    by (intros; by apply (decoded_registration s identity term Hv Ht Hpos cs d Hd Hncs Hall)).
  destruct (join_sessions_ok hs (dc_registrations d) (dc_keys d)) as (regs' & keys' & Ej & Hr' & Hk').
  { apply btree_iter_fst. }
  { intros id Hid. apply Hids in Hid as [session Hs]. destruct (av_named s Hv id session Hs) as [n Hn].
    exists n. by apply Hreg. }
  rewrite Ej. cbn [mbind Io_bind].
  assert (regs' = ∅) as ->.
  { apply map_eq. intros id. rewrite lookup_empty, Hr'. destruct (decide (id ∈ hs.*1)) as [|Hno]; [done|].
    destruct (dc_registrations d !! id) as [n|] eqn:E; [|done]. exfalso. apply Hno, Hids.
    apply Hreg in E. by destruct (av_nonce s Hv n id E). }
  assert (keys' = ∅) as ->.
  { apply map_eq. intros id. rewrite lookup_empty, Hk'. destruct (decide (id ∈ hs.*1)) as [|Hno]; [done|].
    destruct (dc_keys d !! id) as [l|] eqn:E; [|done]. exfalso. apply Hno, Hids.
    rewrite (di_keys _ _ _ _ _ Hd) in E.
    destruct (records_in s identity term Hv Ht Hpos cs d Hd Hncs Hall id) as (l' & El & _ & Hl'). rewrite El in E.
    destruct l' as [|r l']; [done|]. assert (Hr : r ∈ r :: l') by (by left). apply Hl' in Hr.
    apply (key_some s id (sk_key r)). by rewrite Hr. }
  rewrite !bool_decide_eq_true_2 by done. cbn [negb orb].
  assert (Hdes : describes s (dc_values d) (joined (dc_registrations d) (dc_keys d) <$> hs)).
  { assert (Hkeys : forall id session, sessions s !! id = Some session ->
      NoDup (sk_key <$> default [] (dc_keys d !! id)) /\ key_map (default [] (dc_keys d !! id)) = session_keys session).
    { intros id session Hs. rewrite (decoded_keys s identity term cs d Hd).
      destruct (records_in s identity term Hv Ht Hpos cs d Hd Hncs Hall id) as (l & -> & Hnk & Hl). split; [done|].
      apply map_eq. intros k. apply option_eq. intros record. rewrite (key_map_Some l k record Hnk).
      assert (Hsk : forall k, session_key s id k = (key_snapshot k) <$> session_keys session !! k).
      { intros k'. unfold session_key. rewrite Hs. cbn. by destruct (session_keys session !! k'). }
      split.
      - intros (r & Hr & <- & <-). apply Hl in Hr. rewrite Hsk in Hr.
        destruct (session_keys session !! sk_key r) as [record|]; [|done]. injection Hr as Hr. f_equal. rewrite <- Hr. by destruct record.
      - intros Hk. exists (key_snapshot k record). split; [|split; [done|by destruct record]].
        apply Hl. cbn [sk_key key_snapshot]. by rewrite Hsk, Hk. }
    assert (Hback : forall id session, sessions s !! id = Some session ->
      (session_of ∘ joined (dc_registrations d) (dc_keys d)) (id, mkSessionHeader (registered session) (closed session))
      = (id, session)).
    { intros id session Hs. unfold compose, session_of, joined, saved_session.
      cbn [fst snd ss_session_id ss_registered ss_closed ss_keys sh_registered sh_closed].
      destruct (Hkeys id session Hs) as [_ Ek]. rewrite Ek. by destruct session. }
    split.
    - apply NoDup_Permutation; [apply NoDup_map_to_list| |].
      + rewrite (di_values _ _ _ _ _ Hd). apply NoDup_bind; [| |done].
        * intros c c' kv _ _ Hc Hc'. destruct c as [|k| | |]; cbn [value_of] in Hc; try (by apply elem_of_nil in Hc).
          destruct c' as [|k'| | |]; cbn [value_of] in Hc'; try (by apply elem_of_nil in Hc').
          rewrite elem_of_option_list in Hc, Hc'. destruct (values s !! k), (values s !! k'); try done.
          cbn in Hc, Hc'. congruence.
        * intros c _. destruct c as [|k| | |]; cbn [value_of]; try constructor.
          destruct (values s !! k); [apply NoDup_singleton|constructor].
      + intros [k x]. rewrite elem_of_map_to_list, (di_values _ _ _ _ _ Hd), list_elem_of_bind. split.
        * intros Hk. exists (CValue k). cbn [value_of]. rewrite Hk. split; [by apply list_elem_of_singleton|].
          apply Hall; [done|]. cbn [cell_value]. by rewrite Hk.
        * intros (c & Hc & _). destruct c as [|k'| | |]; cbn [value_of] in Hc; try (by apply elem_of_nil in Hc).
          rewrite elem_of_option_list in Hc. destruct (values s !! k') eqn:Hvk; [|done]. cbn in Hc. congruence.
    - apply NoDup_Permutation; [apply NoDup_map_to_list| |].
      + apply (NoDup_fmap_1 fst). rewrite <- !list_fmap_compose. apply btree_iter_fst.
      + intros [id session]. rewrite elem_of_map_to_list. rewrite <- list_fmap_compose, list_elem_of_fmap. split.
        * intros Hs. exists (id, mkSessionHeader (registered session) (closed session)). split; [|apply Hhs; by exists session].
          symmetry. by apply Hback.
        * intros ([i h] & E & Hin). apply Hhs in Hin as (ss & Hs & ->). rewrite (Hback i ss Hs) in E. by injection E as -> ->.
    - intros x ([id h] & -> & Hin)%list_elem_of_fmap. cbn [joined ss_nonce ss_session_id fst snd].
      apply Hhs in Hin as (session & Hs & _). destruct (av_named s Hv id session Hs) as [n Hn].
      pose proof (proj2 (Hreg id n) Hn) as E. by rewrite E.
    - intros x ([id h] & -> & Hin)%list_elem_of_fmap. cbn [joined ss_keys fst snd].
      apply Hhs in Hin as (session & Hs & _). by destruct (Hkeys id session Hs). }
  destruct (describes_ok s _ _ Hv Hvals Hdes) as [Hok Hreb].
  assert (Him : import_snapshot (snapshot_with s (dc_values d) (joined (dc_registrations d) (dc_keys d) <$> hs))
     (last_applied s) = Ok s) by (by apply import_snapshot_spec).
  unfold snapshot_with in Him. cbn [cell_metadata retained_counts fst snd cmd_retained_keys cmd_retained_payload_bytes].
  by rewrite Him.
Qed.

Lemma zero_default s : app_valid s -> values_ok s -> last_applied s = 0 -> s = app_default.
Proof.
  intros Hv [_ Hz] H0. pose proof (Hz H0) as Hvals.
  assert (Hs : sessions s = ∅).
  { apply map_eq. intros id. rewrite lookup_empty. destruct (sessions s !! id) as [session|] eqn:E; [|done].
    pose proof (so_id _ _ _ (av_session s Hv id session E)). lia. }
  assert (Hr : registrations s = ∅).
  { apply map_eq. intros n. rewrite lookup_empty. destruct (registrations s !! n) as [id|] eqn:E; [|done].
    destruct (av_nonce s Hv n id E) as [_ [ss Hss]]. by rewrite Hs, lookup_empty in Hss. }
  pose proof (av_keys s Hv) as Hk. pose proof (av_bytes s Hv) as Hb. rewrite Hs, map_total_empty in Hk, Hb.
  destruct s. cbn in *. by subst.
Qed.
End facts.
