(* ===== verification/AppliedGroup.v ===== *)
(** * Committed ranges and recovery of the durable application

    [apply_group] is atomic: what readers see and what the engine stores move
    together, by a whole prefix of the range, or stay; and opening brings back
    the state an engine stores, adopting nothing the recovered log does not
    reproduce. *)
From S2P Require Import Prelude Quorum Membership MembershipProtocol Types Node Step Store Disk.
From S2P Require Import Merge LsmSafe Application ApplicationFacts ApplicationSafe ApplicationLog SnapshotImage AppliedStore AppliedFacts.
Local Open Scope N_scope.
Local Open Scope raft_scope.

Section group.
Context `{Engine : StateStore Eng, Laws : !StateStoreLaws Eng, Formats : CellFormats, Cells : !CellLaws, Sha : Sha256}.

(** ** States that can be stored *)

Record storable (s : StateMachine) : Prop := {
  sr_valid : app_valid s;
  sr_values : values_ok s;
  sr_text : app_text s;
}.
(** Commands a leader accepts. *)
Definition client_command (c : Command) : Prop := command_text c /\ admissible c.

Lemma default_storable : storable app_default.
Proof.
  split; [apply default_valid|by split|]. split; cbn.
  - intros k v. by rewrite lookup_empty.
  - intros n id. by rewrite lookup_empty.
  - intros id key r. unfold session_key. cbn. by rewrite lookup_empty.
Qed.

Lemma text_mutation s id key sequence value index s2 session :
  app_text s -> Utf8 key -> (forall v, value = Some v -> Utf8 v) ->
  accepted s id key sequence value index s2 session -> app_text (s2 <| last_applied := index |>).
Proof.
  intros [Hv Hn Hk] Hkey Hval [Hs _ _ _ _ (k & b & -> & _) _]. split; cbn [upd Application.values registrations].
  - intros k' v. destruct value as [w|]; cbn [set_value].
    + intros [[<- <-]|[_ E]]%lookup_insert_Some; [split; [done|by apply Hval]|by apply (Hv k')].
    + intros [_ E]%lookup_delete_Some. by apply (Hv k').
  - exact Hn.
  - intros i k' r. unfold session_key. cbn [upd sessions]. destruct (decide (id = i)) as [<-|Hne].
    + rewrite lookup_insert_eq. cbn [mbind option_bind upd session_keys]. destruct (decide (key = k')) as [<-|Hne]; [done|].
      rewrite lookup_insert_ne by done. intros E. apply (Hk id k' r). unfold session_key. by rewrite Hs.
    + rewrite lookup_insert_ne by done. intros E. by apply (Hk i k' r).
Qed.

Lemma apply_text s entry outcome s' :
  app_text s -> app_valid s -> command_text (e_command entry) -> app_apply s entry = Done (outcome, s') -> app_text s'.
Proof.
  intros Ht Hv Hc Ha. pose proof (apply_valid s entry outcome s' Hv Hc Ha) as (_ & _ & Hi).
  unfold app_apply in Ha. destruct (negb _); [done|]. apply Outcome_bind_Done in Ha as ([o s1] & E & [= <- <-]).
  unfold apply_command in E. destruct (e_command entry) as [k w|k| |cf|n|id|id k q w|id k q]; cbn in Hc.
  - injection E as <- <-. destruct Ht as [Htv Htn Htk]. split; [|exact Htn|exact Htk]. cbn.
    intros k' v [[<- <-]|[_ E]]%lookup_insert_Some; [done|by apply (Htv k')].
  - injection E as <- <-. destruct Ht as [Htv Htn Htk]. split; [|exact Htn|exact Htk]. cbn.
    intros k' v [_ E]%lookup_delete_Some. by apply (Htv k').
  - injection E as <- <-. destruct Ht as [Htv Htn Htk]. by split.
  - injection E as <- <-. destruct Ht as [Htv Htn Htk]. by split.
  - apply Outcome_bind_Done in E as ([r s2] & E & [= <- <-]). destruct Ht as [Htv Htn Htk].
    apply register_cases in E as [->|(_ & _ & _ & _ & ->)]; [by split|]. split; cbn [upd Application.values registrations].
    + exact Htv.
    + intros n' id [[<- <-]|[_ E]]%lookup_insert_Some; [done|by apply (Htn n' id)].
    + intros i k' r'. unfold session_key. cbn [upd sessions]. destruct (decide (e_index entry = i)) as [<-|Hne].
      * rewrite lookup_insert_eq. cbn. by rewrite lookup_empty.
      * rewrite lookup_insert_ne by done. intros E. by apply (Htk i k' r').
  - apply Outcome_bind_Done in E as ([r s2] & E & [= <- <-]). destruct Ht as [Htv Htn Htk].
    apply close_cases in E as [->|(session & Hs & _ & _ & ->)]; [by split|]. split; [exact Htv|exact Htn|].
    intros i k' r'. unfold session_key. cbn [upd sessions]. destruct (decide (id = i)) as [<-|Hne].
    + rewrite lookup_insert_eq. cbn [mbind option_bind upd session_keys]. intros E. apply (Htk id k' r'). unfold session_key. by rewrite Hs.
    + rewrite lookup_insert_ne by done. intros E. by apply (Htk i k' r').
  - apply Outcome_bind_Done in E as ([r s2] & E & [= <- <-]).
    apply mutate_cases in E as [[-> _]|[_ [session Hacc]]]; [destruct Ht; by split|].
    destruct Hc. apply (text_mutation s id k q (Some w) (e_index entry) s2 session); try done. by intros v [= <-].
  - apply Outcome_bind_Done in E as ([r s2] & E & [= <- <-]).
    apply mutate_cases in E as [[-> _]|[_ [session Hacc]]]; [destruct Ht; by split|].
    by apply (text_mutation s id k q None (e_index entry) s2 session).
Qed.

Lemma apply_storable s entry outcome s' :
  storable s -> client_command (e_command entry) -> app_apply s entry = Done (outcome, s') -> storable s'.
Proof.
  intros [Hv Hvals Ht] [Hc Ha] E. split.
  - by destruct (apply_valid s entry outcome s' Hv Hc E).
  - by eapply apply_values.
  - by eapply apply_text.
Qed.

(** ** Coalesced cells *)

Definition overlay (cells : gmap Bytes (option Bytes)) (v : View) (k : Bytes) : option Bytes :=
  match cells !! k with Some x => x | None => v k end.

Lemma stored_ext v v' s identity term : (forall k, v k = v' k) -> stored v s identity term -> stored v' s identity term.
Proof. intros E [Hc Hk]. split; [intros c Hb; rewrite <- E; by apply Hc|]. intros k x. rewrite <- E. apply Hk. Qed.

Lemma insert_changes_overlay changes cells v k :
  NoDup (m_key <$> changes) -> overlay (insert_changes changes cells) v k = put_all changes (overlay cells v) k.
Proof.
  unfold insert_changes. revert cells. induction changes as [|c changes IH]; intros cells Hn; [done|].
  rewrite fmap_cons in Hn. apply list.NoDup_cons in Hn as [Hc Hn]. cbn [foldl]. rewrite IH by done.
  unfold put_all. cbn [List.find]. destruct (eqb (m_key c) k) eqn:E.
  - apply eqb_true_1 in E as <-. destruct (List.find _ changes) as [c'|] eqn:Hf.
    + apply List.find_some in Hf as [Hin Hf]. apply eqb_true_1 in Hf. exfalso. apply Hc. rewrite <- Hf.
      by apply list_elem_of_fmap_2, list_elem_of_In.
    + unfold overlay. by rewrite lookup_insert_eq.
  - apply eqb_false_1 in E. destruct (List.find _ changes) as [c'|]; [done|]. unfold overlay. by rewrite lookup_insert_ne.
Qed.

Lemma put_all_overlay (cells : gmap Bytes (option Bytes)) v k :
  put_all ((fun kv => mkMutation kv.1 kv.2) <$> kmap_iter cells) v k = overlay cells v k.
Proof.
  unfold put_all, overlay. destruct (List.find _ _) as [c|] eqn:Hf.
  - apply List.find_some in Hf as [Hin Hk]. apply eqb_true_1 in Hk as <-.
    apply list_elem_of_In, list_elem_of_fmap in Hin as ([k x] & -> & Hin). apply (elem_of_btree_iter key_le) in Hin.
    cbn. by rewrite Hin.
  - destruct (cells !! k) as [x|] eqn:E; [|done]. exfalso.
    assert (Hin : mkMutation k x ∈ (fun kv => mkMutation kv.1 kv.2) <$> kmap_iter cells).
    { apply list_elem_of_fmap. exists (k, x). split; [done|]. by apply (elem_of_btree_iter key_le). }
    apply list_elem_of_In in Hin. pose proof (List.find_none _ _ Hf _ Hin) as Hno. cbn in Hno.
    by apply eqb_false_1 in Hno.
Qed.

Lemma merge_cells_ok cells size changes cells' size' :
  merge_cells cells size changes = IoOk (Some (cells', size')) -> cells' = insert_changes changes cells.
Proof.
  unfold merge_cells. intros E. apply Io_bind_Ok in E as ([sz n] & _ & E).
  destruct (_ || _); [done|]. by injection E as <- _.
Qed.

(** ** The loop *)

(** What a range does, one entry at a time. *)
Fixpoint apply_all (s : StateMachine) (entries : list Entry) :
    Outcome ApplyError (list (LogIndex * ApplyOutcome) * StateMachine) :=
  match entries with
  | [] => Done ([], s)
  | entry :: entries =>
      '(outcome, s) ← app_apply s entry;
      '(outcomes, s) ← apply_all s entries;
      Done ((e_index entry, outcome) :: outcomes, s)
  end.

Lemma apply_all_snoc s entries outs s1 entry outcome s2 :
  apply_all s entries = Done (outs, s1) -> app_apply s1 entry = Done (outcome, s2) ->
  apply_all s (entries ++ [entry]) = Done (outs ++ [(e_index entry, outcome)], s2).
Proof.
  revert s outs. induction entries as [|e entries IH]; intros s outs; cbn [apply_all app].
  - intros [= <- <-] ->. done.
  - intros H1 H2. apply Outcome_bind_Done in H1 as ([o s'] & -> & H1). apply Outcome_bind_Done in H1 as ([os s''] & E & [= <- <-]).
    cbn [mbind Outcome_bind]. by rewrite (IH _ _ E H2).
Qed.
Lemma apply_all_storable entries s outs s' :
  storable s -> Forall (fun e => client_command (e_command e)) entries -> apply_all s entries = Done (outs, s') ->
  storable s' /\ last_applied s' = last_applied s + len64 entries /\ outs.*1 = e_index <$> entries
  /\ (forall e, list.last entries = Some e -> last_applied s' = e_index e)
  /\ (entries = [] -> s' = s).
Proof.
  revert s outs. induction entries as [|e entries IH]; intros s outs Hs HF; cbn [apply_all].
  - intros [= <- <-]. split; [done|]. split; [unfold len64; cbn; lia|done].
  - intros H1. apply Outcome_bind_Done in H1 as ([o s1] & E & H1). apply Outcome_bind_Done in H1 as ([os s2] & E' & [= <- <-]).
    apply list.Forall_cons in HF as [He HF]. pose proof (apply_storable s e o s1 Hs He E) as Hs1.
    destruct (IH s1 os Hs1 HF E') as (Hs2 & Hlen & Hi & Hl & Hnil).
    destruct (apply_valid s e o s1 (sr_valid s Hs) (proj1 He) E) as (_ & Hl1 & Hi1).
    split; [done|]. split; [unfold len64 in *; cbn [length]; lia|]. split; [by rewrite !fmap_cons, Hi|]. split; [|done].
    intros e'. destruct entries as [|e2 entries]; [|rewrite last_cons_cons; apply Hl].
    intros [= <-]. by rewrite (Hnil eq_refl).
Qed.
Lemma apply_all_first s e entries outs s' :
  app_valid s -> apply_all s (e :: entries) = Done (outs, s') -> checked_add (last_applied s) 1 = Some (e_index e).
Proof.
  intros Hv. cbn [apply_all]. intros H1. apply Outcome_bind_Done in H1 as ([o s1] & E & _). unfold app_apply in E.
  destruct (checked_add _ _ ==? _) eqn:Hi; [by apply eqb_true_1 in Hi|done].
Qed.

(** What the loop has accumulated after the entries [ps]. *)
Record grouped (s0 : StateMachine) (identity : ApplicationIdentity) (term0 : Term) (ps : list Entry) (g : Group) : Prop := {
  gp_tx : tx_on s0 (gr_transaction g);
  gp_run : apply_all s0 ps = Done (gr_outcomes g, tx_state (gr_transaction g));
  gp_term : ps <> [] -> gr_term g = map_or (list.last ps) term0 e_term;
  gp_stored : forall v, stored v s0 identity term0 ->
    stored (overlay (gr_cells g) v) (tx_state (gr_transaction g)) identity (map_or (list.last ps) term0 e_term);
}.

Lemma grouped_step s0 identity term0 ps g entry outcome state changes cells size :
  app_valid s0 -> grouped s0 identity term0 ps g -> command_text (e_command entry) ->
  app_apply (tx_state (gr_transaction g)) entry = Done (outcome, state) ->
  entry_cells state identity entry = IoOk changes ->
  merge_cells (gr_cells g) (gr_bytes g) changes = IoOk (Some (cells, size)) ->
  grouped s0 identity term0 (ps ++ [entry])
    (mkGroup (mkTransaction state (tx_undo (gr_transaction g) ++ [capture (tx_state (gr_transaction g)) entry]) false)
       cells size (gr_outcomes g ++ [(e_index entry, outcome)]) (e_term entry)).
Proof using All.
  intros Hv [Htx Hrun Hterm Hst] Ht Ha Hc Hm. apply merge_cells_ok in Hm as ->.
  split; cbn [gr_transaction gr_cells gr_bytes gr_outcomes gr_term tx_state].
  - by eapply tx_applied.
  - by eapply apply_all_snoc.
  - intros _. by rewrite last_snoc.
  - intros v Hs. rewrite last_snoc. cbn [map_or].
    destruct (entry_stored _ entry outcome state identity _ _ (tx_on_valid _ _ Hv Htx) Ht Ha (Hst v Hs)) as (cs & E & Hn & Hq).
    rewrite Hc in E. injection E as <-. eapply stored_ext; [|exact Hq]. intros k. by rewrite insert_changes_overlay.
Qed.

Lemma group_loop_ok s0 identity term0 entries : forall ps g,
  app_valid s0 -> grouped s0 identity term0 ps g -> Forall (fun e => client_command (e_command e)) entries ->
  match group_loop identity entries g with
  | (Done _, g') => exists pre post, entries = pre ++ post /\ grouped s0 identity term0 (ps ++ pre) g'
      /\ (ps ++ pre = [] -> entries = [])
  | (Refused _, g') => tx_on s0 (gr_transaction g')
  | (Panicked, _) => False
  end.
Proof using All.
  induction entries as [|entry entries IH]; intros ps g Hv Hg HF; cbn [group_loop].
  - exists [], []. split; [done|]. rewrite app_nil_r. split; [exact Hg|done].
  - apply list.Forall_cons in HF as [[Ht Hadm] HF]. pose proof (gp_tx _ _ _ _ _ Hg) as Htx.
    destruct (tx_apply_spec s0 _ entry Hv Htx Ht) as [(e & _ & ->)|(o & st & Ha & ->)]; [exact Htx|].
    assert (Hon : tx_on s0 (mkTransaction st (tx_undo (gr_transaction g) ++ [capture (tx_state (gr_transaction g)) entry]) false))
      by (by eapply tx_applied).
    cbn [tx_state]. destruct (entry_cells st identity entry) as [changes|k m] eqn:Hc; cbn [mbind Io_bind]; [|exact Hon].
    destruct (merge_cells (gr_cells g) (gr_bytes g) changes) as [[[cells size]|]|k m] eqn:Hm; [| |exact Hon].
    + pose proof (grouped_step s0 identity term0 ps g entry o st changes cells size Hv Hg Ht Ha Hc Hm) as Hg'.
      specialize (IH _ _ Hv Hg' HF). destruct (group_loop _ _ _) as [[u|e|] g'']; [|exact IH|exact IH].
      destruct IH as (pre & post & -> & Hg'' & _). exists (entry :: pre), post. split; [done|].
      rewrite <- (assoc_L app) in Hg''. split; [exact Hg''|]. intros E. by apply app_nil in E as [_ ?].
    + rewrite (tx_undo_snoc s0 _ entry o st Hv Htx Ha).
      assert (Eg : mkGroup (gr_transaction g) (gr_cells g) (gr_bytes g) (gr_outcomes g) (gr_term g) = g) by (by destruct g).
      case_bool_decide as Hnil; [rewrite Eg; exact Htx|]. exists [], (entry :: entries). rewrite app_nil_r, Eg.
      split; [done|]. split; [done|]. intros ->. exfalso. apply Hnil. pose proof (gp_run _ _ _ _ _ Hg) as Hr. by injection Hr as <- _.
Qed.

(** ** The shared read state and its store *)

(** What readers see is what the engine stores. *)
Record synced (read : ReadState) (store : AppliedStore Eng) : Prop := {
  sy_state : storable (rd_application read);
  sy_read : rd_last_applied read = last_applied (rd_application read);
  sy_commit : rd_last_applied read <= rd_commit_index read;
  sy_index : ap_index store = last_applied (rd_application read);
  sy_open : ap_poisoned store = false;
  sy_engine : forall e, ap_engine store = Some e -> exists v, engine_holds e (ap_index store) v
    /\ stored v (rd_application read) (ap_identity store) (ap_term store);
}.

(** The engine failed while it committed [s'] over [s]: its data reopens to one
    of the two, and the handle is retired. *)
Record torn (s s' : StateMachine) (store : AppliedStore Eng) : Prop := {
  to_poisoned : ap_poisoned store = true;
  to_engine : exists e v v' term', ap_engine store = Some e
    /\ stored v s (ap_identity store) (ap_term store) /\ stored v' s' (ap_identity store) term'
    /\ (engine_holds e (last_applied s) v \/ engine_failed e (last_applied s) v (last_applied s') v');
}.

Lemma abandon_ok {A} (r : Fallible A) tx read (store : AppliedStore Eng) :
  app_valid (rd_application read) -> tx_on (rd_application read) tx -> abandon r tx read store = (r, (read, store)).
Proof.
  intros Hv Htx. unfold abandon, tx_drop. rewrite (tx_on_open _ _ Htx), (tx_on_restores _ _ Hv Htx). by destruct read.
Qed.

Lemma group_begin s identity term : grouped s identity term [] (mkGroup (transaction s) ∅ 0 [] 0).
Proof using All.
  split; [constructor|done|done|]. intros v. apply stored_ext. intros k. unfold overlay. cbn [gr_cells]. by rewrite lookup_empty.
Qed.

(** The engine's part of a commit. *)
Lemma commit_ok read (store : AppliedStore Eng) first last term changes s' :
  synced read store -> checked_add (ap_index store) 1 = Some first -> storable s' -> last_applied s' = last ->
  ap_index store < last ->
  (forall v, stored v (rd_application read) (ap_identity store) (ap_term store) ->
     stored (put_all changes v) s' (ap_identity store) term) ->
  match applied_commit first last term changes store with
  | (IoOk _, store') => synced (mkReadState s' last (N.max (rd_commit_index read) last)) store'
  | (IoErr _ _, store') => torn (rd_application read) s' store'
  end.
Proof using All.
  intros Hs Hfirst Hs' Hl Hlt Hst. unfold applied_commit, unpoisoned, state, refuse, update, on_engine, mbind, St_bind.
  rewrite (sy_open _ _ Hs), Hfirst, (proj2 (eqb_true _ _) eq_refl). cbn [negb].
  destruct (ap_engine store) as [e|] eqn:He.
  - destruct (sy_engine _ _ Hs e He) as (v & Hh & Hv).
    assert (Hmax : last <= u64_max) by (rewrite <- Hl; apply (av_applied s' (sr_valid s' Hs'))).
    pose proof (commit_law e (ap_index store) v first last changes Hh Hlt Hmax) as Hc. unfold post in Hc.
    destruct (engine_commit first last changes e) as [[o|k m] e'].
    + destruct Hc as [_ Hh']. split; cbn; try done; [lia|by apply Hs|].
      intros e2 [= <-]. eexists. split; [exact Hh'|]. by apply Hst.
    + split; [done|]. exists e', v, (put_all changes v), term. split; [done|]. split; [done|]. split; [by apply Hst|].
      rewrite Hl, <- (sy_index _ _ Hs). destruct Hc as [->|Hc]; [by left|by right].
  - split; cbn; try done; [lia|by apply Hs|]. by rewrite He.
Qed.

Definition refused {A} (r : Fallible A) : Prop := exists error, r = Refused error.

(** ** Whole ranges *)

(** What [apply_group] may leave behind. *)
Inductive group_effect (read : ReadState) (store : AppliedStore Eng) (entries : list Entry) :
    Fallible (list (LogIndex * ApplyOutcome)) -> ReadState -> AppliedStore Eng -> Prop :=
| effect_none result : refused result -> group_effect read store entries result read store
| effect_applied result pre post outs s' read' store' :
    entries = pre ++ post -> pre <> [] -> apply_all (rd_application read) pre = Done (outs, s') ->
    rd_application read' = s' -> synced read' store' -> result = Done outs \/ refused result ->
    group_effect read store entries result read' store'
| effect_torn result pre post outs s' store' :
    entries = pre ++ post -> pre <> [] -> apply_all (rd_application read) pre = Done (outs, s') ->
    torn (rd_application read) s' store' -> refused result ->
    group_effect read store entries result read store'.

Lemma loop_on_store s identity term entries :
  storable s -> Forall (fun e => client_command (e_command e)) entries ->
  match group_loop identity (take (N.to_nat MAX_APPLY_RANGE) entries) (mkGroup (transaction s) ∅ 0 [] 0) with
  | (Done _, g) => exists pre post, entries = pre ++ post /\ grouped s identity term pre g /\ (pre = [] -> entries = [])
  | (Refused _, g) => tx_on s (gr_transaction g)
  | (Panicked, _) => False
  end.
Proof using All.
  intros Hs HF. set (n := N.to_nat MAX_APPLY_RANGE).
  pose proof (group_loop_ok s identity term (take n entries) [] _ (sr_valid s Hs) (group_begin s identity term)
    (Forall_take _ _ _ HF)) as Hl.
  destruct (group_loop identity (take n entries) _) as [[u|e|] g]; [|done|done].
  destruct Hl as (pre & post & E & Hg & Hnil). exists pre, (post ++ drop n entries).
  split; [by rewrite (assoc_L app), <- E, take_drop|]. split; [exact Hg|]. intros Hp. cbn [app] in Hnil.
  specialize (Hnil Hp). by destruct entries.
Qed.

Lemma apply_group_effect read store entries :
  synced read store -> Forall (fun e => client_command (e_command e)) entries ->
  let '(result, (read', store')) := apply_group entries (read, store) in
  result <> Panicked /\ group_effect read store entries result read' store'.
Proof using All.
  intros Hs HF. pose proof (sy_state _ _ Hs) as Hst. pose proof (sr_valid _ Hst) as Hv.
  assert (Hkeep : forall e, @Refused _ (list (LogIndex * ApplyOutcome)) e <> Panicked /\ group_effect read store entries (Refused e) read store).
  { intros e. split; [done|]. apply effect_none. by exists e. }
  unfold apply_group. destruct entries as [|first rest]; [apply Hkeep|].
  pose proof (loop_on_store (rd_application read) (ap_identity store) (ap_term store) (first :: rest) Hst HF) as Hl.
  destruct (group_loop _ _ _) as [[u|e|] g]; [|rewrite abandon_ok by done; apply Hkeep|done].
  destruct Hl as (pre & post & E & Hg & Hnil).
  destruct pre as [|f pre']; [by specialize (Hnil eq_refl)|]. injection E as <- Er. set (pre := first :: pre') in *.
  assert (HFp : Forall (fun e => client_command (e_command e)) pre).
  { rewrite Er in HF. change (first :: pre' ++ post) with (pre ++ post) in HF. by apply list.Forall_app in HF as [HF _]. }
  pose proof (gp_run _ _ _ _ _ Hg) as Hrun.
  destruct (apply_all_storable pre _ _ _ Hst HFp Hrun) as (Hs' & Hlen & Hi & Hlast & _).
  pose proof (apply_all_first _ _ _ _ _ Hv Hrun) as Hfirst.
  destruct (list.last pre) as [le|] eqn:Hle; [|by apply last_None in Hle].
  assert (Hlo : exists o, list.last (gr_outcomes g) = Some (e_index le, o)).
  { pose proof (f_equal list.last Hi) as Hx. rewrite !fmap_last, Hle in Hx.
    destruct (list.last (gr_outcomes g)) as [[i o]|]; [|done]. injection Hx as ->. by exists o. }
  destruct Hlo as [o Hlo]. rewrite Hlo.
  pose proof (Hlast le eq_refl) as Hle'.
  assert (Hlt : ap_index store < e_index le).
  { rewrite (sy_index _ _ Hs), <- Hle', Hlen. subst pre. unfold len64. cbn [length]. lia. }
  assert (Hput : forall v, stored v (rd_application read) (ap_identity store) (ap_term store) ->
    stored (put_all ((fun kv => mkMutation kv.1 kv.2) <$> kmap_iter (gr_cells g)) v) (tx_state (gr_transaction g))
      (ap_identity store) (gr_term g)).
  { intros v Hst0. rewrite (gp_term _ _ _ _ _ Hg) by done. eapply stored_ext; [|by apply (gp_stored _ _ _ _ _ Hg)].
    intros k. by rewrite put_all_overlay. }
  rewrite <- (sy_index _ _ Hs) in Hfirst.
  pose proof (commit_ok read store (e_index first) (e_index le) (gr_term g) _ _ Hs Hfirst Hs' Hle' Hlt Hput) as Hc.
  destruct (applied_commit _ _ _ _ store) as [[u'|k m] store'].
  - change (tx_drop (tx_commit (gr_transaction g))) with (Some (tx_state (gr_transaction g))). cbv iota beta.
    destruct (applied_status store') as [x|k m]; (split; [done|]);
      apply (effect_applied read store _ _ pre post (gr_outcomes g) (tx_state (gr_transaction g))); try done.
    + by rewrite Er.
    + by left.
    + by rewrite Er.
    + right. by eexists.
  - rewrite abandon_ok by (done || apply (gp_tx _ _ _ _ _ Hg)). split; [done|].
    apply (effect_torn read store _ _ pre post (gr_outcomes g) (tx_state (gr_transaction g))); try done; [by rewrite Er|].
    by eexists.
Qed.

(** A poisoned store refuses every range and keeps what is read. *)
Lemma apply_group_poisoned read store entries :
  storable (rd_application read) -> ap_poisoned store = true ->
  Forall (fun e => client_command (e_command e)) entries ->
  exists error, apply_group entries (read, store) = (Refused error, (read, store)).
Proof using All.
  intros Hst Hp HF. pose proof (sr_valid _ Hst) as Hv.
  unfold apply_group. destruct entries as [|first rest]; [by eexists|].
  pose proof (loop_on_store (rd_application read) (ap_identity store) (ap_term store) (first :: rest) Hst HF) as Hl.
  destruct (group_loop _ _ _) as [[u|e|] g]; [|rewrite abandon_ok by done; by eexists|done].
  destruct Hl as (pre & post & E & Hg & Hnil). pose proof (gp_run _ _ _ _ _ Hg) as Hrun.
  destruct (list.last (gr_outcomes g)) as [[i o]|] eqn:Hlo.
  - assert (Ec : forall a b c d, applied_commit a b c d store = (IoErr OtherError reopen_message, store)).
    { intros a b c d. unfold applied_commit, unpoisoned, mbind, St_bind. by rewrite Hp. }
    rewrite Ec, abandon_ok by (done || apply (gp_tx _ _ _ _ _ Hg)). by eexists.
  - exfalso. apply last_None in Hlo. rewrite Hlo in Hrun. destruct pre as [|p pre]; [by specialize (Hnil eq_refl)|].
    cbn [apply_all] in Hrun. apply Outcome_bind_Done in Hrun as ([? ?] & _ & Hrun).
    apply Outcome_bind_Done in Hrun as ([? ?] & _ & Hrun). done.
Qed.

(** The batch of a range, as the engine receives it. *)
Definition batch_changes (cells : gmap Bytes (option Bytes)) : list Mutation :=
  (fun kv => mkMutation kv.1 kv.2) <$> kmap_iter cells.

(** What becomes of a single entry that fits: without an engine it is applied;
    with one, the engine's commit of its cells decides, and its status. *)
Definition single_effect (read : ReadState) (store : AppliedStore Eng) (entry : Entry) (outcome : ApplyOutcome)
    (s' : StateMachine) (changes : list Mutation)
    (result : Fallible (list (LogIndex * ApplyOutcome))) (read' : ReadState) (store' : AppliedStore Eng) : Prop :=
  match ap_engine store with
  | None => result = Done [(e_index entry, outcome)] /\ rd_application read' = s'
  | Some engine =>
      match engine_commit (e_index entry) (e_index entry) changes engine with
      | (IoOk _, engine') =>
          rd_application read' = s' /\ ap_engine store' = Some engine'
          /\ result = match engine_statistics engine' with
                      | IoOk _ => Done [(e_index entry, outcome)]
                      | IoErr k e => Refused (k, e)
                      end
      | (IoErr k e, engine') =>
          result = Refused (k, e) /\ read' = read /\ ap_engine store' = Some engine' /\ ap_poisoned store' = true
      end
  end.
Lemma apply_single read (store : AppliedStore Eng) entry outcome s' cells batch :
  synced read store -> command_text (e_command entry) ->
  app_apply (rd_application read) entry = Done (outcome, s') -> entry_cells s' (ap_identity store) entry = IoOk cells ->
  merge_cells ∅ 0 cells = IoOk (Some batch) ->
  let '(result, (read', store')) := apply_group [entry] (read, store) in
  single_effect read store entry outcome s' (batch_changes batch.1) result read' store'.
Proof using All.
  intros Hs Ht Ha Hc Hm. pose proof (sr_valid _ (sy_state _ _ Hs)) as Hv.
  assert (Hfirst : checked_add (last_applied (rd_application read)) 1 = Some (e_index entry)).
  { unfold app_apply in Ha. destruct (checked_add _ _ ==? _) eqn:Hi; [by apply eqb_true_1 in Hi|done]. }
  assert (Hdo : negb (checked_add (last_applied (rd_application read)) 1 ==? Some (e_index entry)) = false)
    by (by rewrite Hfirst, (proj2 (eqb_true _ _) eq_refl)).
  set (tx := mkTransaction s' [capture (rd_application read) entry] false).
  assert (Htx : tx_apply (transaction (rd_application read)) entry = (Some (inr outcome), tx)).
  { unfold tx_apply, transaction, upd. cbn [tx_state tx_undo tx_committed]. by rewrite Hdo, Ha. }
  assert (Hon : tx_on (rd_application read) tx) by exact (tx_applied _ _ entry outcome s' (tx_begin _) Ht Ha).
  unfold apply_group. change (take (N.to_nat MAX_APPLY_RANGE) [entry]) with [entry].
  cbn [group_loop gr_transaction gr_cells gr_bytes]. rewrite Htx. change (tx_state tx) with s'. rewrite Hc. cbn [mbind Io_bind].
  rewrite Hm. destruct batch as [cs size]. cbn [gr_outcomes app list.last gr_cells gr_term gr_transaction fst].
  fold (batch_changes cs). unfold single_effect.
  unfold applied_commit, unpoisoned, state, refuse, on_engine, update, mbind, St_bind.
  rewrite (sy_open _ _ Hs), (sy_index _ _ Hs), Hfirst, (proj2 (eqb_true _ _) eq_refl). cbn [negb].
  destruct (ap_engine store) as [engine|] eqn:He.
  - destruct (engine_commit _ _ _ engine) as [[u|k e] engine'].
    + unfold tx_drop, tx_commit, upd, applied_status. cbn. by destruct (engine_statistics engine') as [[]|].
    + rewrite abandon_ok by done. done.
  - unfold tx_drop, tx_commit, upd, applied_status. cbn. by rewrite He.
Qed.

(** ** Opening *)

Lemma Run_bind_Done {S A B} (m : Run S A) (f : A -> Run S B) s b s2 :
  (m ≫= f) s = (Done b, s2) -> exists a s1, m s = (Done a, s1) /\ f a s1 = (Done b, s2).
Proof. unfold mbind, Run_bind. destruct (m s) as [[a|e|] s1]; [|done|done]. intros E. by exists a, s1. Qed.
Lemma run_lift_Done {S A} (r : Fallible A) (s : S) a s' : run_lift r s = (Done a, s') -> r = Done a /\ s' = s.
Proof. unfold run_lift. by intros [= -> ->]. Qed.
Lemma run_refuse_Done {S} b m (s : S) u s' : run_refuse b m s = (Done u, s') -> b = false /\ s' = s.
Proof. unfold run_refuse. intros [E ->]%run_lift_Done. by destruct b. Qed.
Lemma stored_zero v s identity term identity' term' :
  app_valid s -> values_ok s -> last_applied s = 0 -> stored v s identity term -> stored v s identity' term'.
Proof.
  intros Hv Hvals Hz [Hc Hk]. pose proof (zero_default s Hv Hvals Hz) as ->. split; [|exact Hk].
  intros c Hb. rewrite (Hc c Hb). by destruct c.
Qed.
Lemma stored_nothing v s identity term k :
  app_valid s -> values_ok s -> last_applied s = 0 -> stored v s identity term -> v k = None.
Proof.
  intros Hv Hvals Hz [Hc Hk]. destruct (v k) as [x|] eqn:E; [|done]. destruct (Hk k x E) as (c & Hb & ->).
  rewrite (Hc c Hb), (zero_default s Hv Hvals Hz) in E. destruct c; cbn in E; rewrite ?lookup_empty in E; done.
Qed.

(** An engine that stores a state. *)
Definition keeps (e : Eng) (s : StateMachine) (identity : ApplicationIdentity) (term : Term) : Prop :=
  storable s /\ (last_applied s <> 0 -> term <> 0)
  /\ exists v, engine_holds e (last_applied s) v /\ stored v s identity term.

Lemma decode_identity rows a identity source r r' :
  a <> 0 -> decode_cells rows a identity = IoOk r -> decode_cells rows a source = IoOk r' -> source = identity /\ r' = r.
Proof.
  intros Ha. unfold decode_cells. rewrite (proj2 (N.eqb_neq _ _) Ha).
  destruct (decode_rows rows decoded_empty) as [d|]; [|done]. cbn [mbind Io_bind].
  destruct (dc_meta d) as [meta|]; [|done]. cbn [io_of mbind Io_bind].
  destruct (cmd_identity meta ==? identity) eqn:Hi; [|by rewrite orb_true_r].
  destruct (cmd_identity meta ==? source) eqn:Hs; [|by rewrite orb_true_r].
  apply eqb_true_1 in Hi, Hs. intros E1 E2. rewrite E1 in E2. split; [congruence|by injection E2 as <-].
Qed.

Lemma decode_kept v s identity term rows :
  storable s -> (last_applied s <> 0 -> term <> 0) -> stored v s identity term ->
  NoDup rows.*1 -> (forall k x, (k, x) ∈ rows <-> v k = Some x) ->
  decode_cells rows (last_applied s) identity = IoOk (s, if last_applied s =? 0 then 0 else term).
Proof using Cells.
  intros [Hv Hvals Ht] Hterm Hst Hn Hrows. destruct (N.eqb_spec (last_applied s) 0) as [Hz|Hpos].
  - assert (rows = []) as ->.
    { destruct rows as [|[k x] rows]; [done|]. assert (Hin : (k, x) ∈ (k, x) :: rows) by (by left).
      apply Hrows in Hin. by rewrite (stored_nothing v s identity term k Hv Hvals Hz Hst) in Hin. }
    unfold decode_cells. rewrite Hz. cbn. by rewrite (zero_default s Hv Hvals Hz).
  - by apply (decode_stored s identity term v rows); auto.
Qed.

Lemma decode_source v s identity term rows source app t :
  storable s -> (last_applied s <> 0 -> term <> 0) -> stored v s identity term ->
  NoDup rows.*1 -> (forall k x, (k, x) ∈ rows <-> v k = Some x) ->
  decode_cells rows (last_applied s) source = IoOk (app, t) -> app = s /\ stored v s source t.
Proof using Cells.
  intros Hs Hterm Hst Hn Hrows E. pose proof (decode_kept v s identity term rows Hs Hterm Hst Hn Hrows) as Hd.
  destruct (decide (last_applied s = 0)) as [Hz|Hpos].
  - pose proof Hs as [Hv Hvals _]. rewrite Hz in Hd. assert (Eq : decode_cells rows 0 source = decode_cells rows 0 identity) by done.
    rewrite Hz, Eq, Hd in E. injection E as <- <-. split; [done|]. by eapply stored_zero.
  - destruct (decode_identity _ _ _ _ _ _ Hpos Hd E) as [-> Er]. rewrite (proj2 (N.eqb_neq _ _) Hpos) in Er.
    by injection Er as -> ->.
Qed.

Lemma engine_install_full identity term s (o : @Opening Eng) e a v cells u o' :
  storable s -> last_applied s <> 0 -> op_engine o = Some e -> engine_holds e a v ->
  full_cells s identity term = Done cells ->
  on_opened_engine (engine_install (last_applied s) cells) o = (Done u, o') ->
  op_files o' = op_files o /\ op_node o' = op_node o
  /\ exists e' v', op_engine o' = Some e' /\ engine_holds e' (last_applied s) v' /\ stored v' s identity term.
Proof using All.
  intros [Hv Hvals _] Hpos He Hh Hc. unfold on_opened_engine. rewrite He.
  destruct (full_cells_ok s identity term Hv Hvals Hpos) as (cells' & Hc' & Hst). rewrite Hc in Hc'. injection Hc' as <-.
  pose proof (install_law e a v (last_applied s) cells Hh (av_applied s Hv)) as Hi. unfold post in Hi.
  destruct (engine_install (last_applied s) cells e) as [[x|k m] e']; [|done]. intros [= _ <-].
  split; [done|]. split; [done|]. eexists _, _. split; [done|]. split; [exact Hi|done].
Qed.

(** What [open_engine] leaves: the state it returns, stored under the identity
    it was asked for. *)
Record opened (identity : ApplicationIdentity) (s0 s app : StateMachine) (t : Term) (o o' : @Opening Eng) : Prop := {
  on_state : storable app;
  on_files : op_files o' = op_files o;
  on_node : restore_applied_watermark (op_node o) (last_applied app) t = inr (op_node o');
  on_origin : (last_applied s < snapshot_index (op_node o) /\ app = s0)
    \/ (app = s /\ log_term (op_node o) (last_applied s) = Some t
        /\ replay_log (N.to_nat (last_applied s - snapshot_index (op_node o))) (op_node o)
             (snapshot_index (op_node o) + 1) s0 = Done s);
  on_engine_state : exists e v, op_engine o' = Some e /\ engine_holds e (last_applied app) v /\ stored v app identity t;
}.

Lemma scan_opened (o : @Opening Eng) e a v rows o1 :
  op_engine o = Some e -> engine_holds e a v -> on_opened_engine engine_scan o = (Done rows, o1) ->
  o1 = o /\ NoDup rows.*1 /\ forall k x, (k, x) ∈ rows <-> v k = Some x.
Proof.
  intros He Hh. unfold on_opened_engine. rewrite He. pose proof (scan_law e a v Hh) as Hs. unfold post in Hs.
  destruct (engine_scan e) as [[r|k m] e']; [|done]. intros [= <- <-]. destruct Hs as (-> & Hn & Hr).
  split; [|done]. destruct o. cbn in He. by rewrite He.
Qed.

Lemma cells_identity_ok identity a rows source : cells_identity identity false a rows = IoOk source -> source = identity.
Proof. by intros [= <-]. Qed.

(** The state is taken from the snapshot or from the engine. *)
Lemma open_pick identity source s0 term0 (o : @Opening Eng) e v s rt app t o' :
  op_engine o = Some e -> engine_holds e (last_applied s) v -> stored v s source rt -> storable s ->
  storable s0 -> last_applied s0 = snapshot_index (op_node o) ->
  (if last_applied s <? snapshot_index (op_node o) then
     cells ← run_lift (full_cells s0 identity term0);
     on_opened_engine (engine_install (last_applied s0) cells);;
     mret (s0, term0)
   else
     run_refuse (negb (log_term (op_node o) (last_applied s) ==? Some rt))
       "engine applied term/index differs from recovered Raft log";;
     app ← run_lift (replay_log (N.to_nat (last_applied s - snapshot_index (op_node o))) (op_node o)
                       (snapshot_index (op_node o) + 1) s0);
     run_refuse (negb (app ==? s)) "engine state differs from deterministic snapshot/WAL replay";;
     mret (s, rt)) o = (Done (app, t), o') ->
  storable app /\ op_files o' = op_files o /\ op_node o' = op_node o
  /\ ((last_applied s < snapshot_index (op_node o) /\ app = s0)
    \/ (app = s /\ log_term (op_node o) (last_applied s) = Some t
        /\ replay_log (N.to_nat (last_applied s - snapshot_index (op_node o))) (op_node o)
             (snapshot_index (op_node o) + 1) s0 = Done s))
  /\ exists e1 v1 i, op_engine o' = Some e1 /\ engine_holds e1 (last_applied app) v1 /\ stored v1 app i t
       /\ (i = identity \/ i = source).
Proof using All.
  intros He Hh Hst Hs Hs0 Hsnap. destruct (N.ltb_spec (last_applied s) (snapshot_index (op_node o))) as [Hlt|Hge]; intros E.
  - apply Run_bind_Done in E as (cells & o1 & Ec & E). apply run_lift_Done in Ec as [Ec ->].
    apply Run_bind_Done in E as ([] & o1 & Ei & E). injection E as <- <- <-.
    assert (Hpos : last_applied s0 <> 0) by lia.
    destruct (engine_install_full identity term0 s0 o e _ v cells tt o1 Hs0 Hpos He Hh Ec Ei)
      as (Hf & Hnd & e1 & v1 & He1 & Hh1 & Hst1).
    split; [done|]. split; [done|]. split; [done|]. split; [by left|]. exists e1, v1, identity. auto.
  - apply Run_bind_Done in E as ([] & o1 & Et & E). apply run_refuse_Done in Et as [Et ->].
    apply Run_bind_Done in E as (app1 & o1 & Er & E). apply run_lift_Done in Er as [Er ->].
    apply Run_bind_Done in E as ([] & o1 & Eq & E). apply run_refuse_Done in Eq as [Eq ->]. injection E as <- <- <-.
    apply negb_false_iff, eqb_true_1 in Et, Eq. subst app1.
    split; [done|]. split; [done|]. split; [done|]. split; [by right|]. exists e, v, source. auto.
Qed.

Lemma open_engine_sound identity migrating s0 term0 o e s ident term app t o' :
  op_engine o = Some e -> keeps e s ident term -> storable s0 -> last_applied s0 = snapshot_index (op_node o) ->
  open_engine identity migrating s0 term0 o = (Done (app, t), o') ->
  opened identity s0 s app t o o'.
Proof using All.
  intros He (Hs & Hterm & v & Hh & Hst) Hs0 Hsnap. unfold open_engine. rewrite He, (holds_index e _ v Hh).
  intros E. apply Run_bind_Done in E as (rows & o1 & Escan & E).
  destruct (scan_opened o e _ v rows o1 He Hh Escan) as (-> & Hn & Hrows). clear Escan.
  apply Run_bind_Done in E as (source & o1 & Esrc & E). apply run_lift_Done in Esrc as [Esrc ->]. apply of_io_Done in Esrc.
  apply Run_bind_Done in E as ([rec rt] & o1 & Edec & E). apply run_lift_Done in Edec as [Edec ->]. apply of_io_Done in Edec.
  destruct (decode_source v s ident term rows source rec rt Hs Hterm Hst Hn Hrows Edec) as [-> Hst1]. clear Edec.
  apply Run_bind_Done in E as ([app1 t1] & o1 & Epick & E).
  apply Run_bind_Done in E as (node & o2 & Enode & E). apply run_lift_Done in Enode as [Enode ->]. apply of_io_Done in Enode.
  apply Run_bind_Done in E as ([] & o2 & Eset & E). injection Eset as <-.
  apply Run_bind_Done in E as ([] & o3 & Efin & E). injection E as -> -> ->.
  destruct (open_pick identity source s0 term0 o e v s rt app t o1 He Hh Hst1 Hs Hs0 Hsnap Epick)
    as (Happ & Hf & Hnd & Horg & e1 & v1 & i & He1 & Hh1 & Hi & Hwhich).
  assert (Hnode : restore_applied_watermark (op_node o) (last_applied app) t = inr node)
    by (unfold restored_or_invalid in Enode; destruct (restore_applied_watermark _ _ _); [done|by injection Enode as ->]).
  destruct (migrating && negb (source ==? identity) && (0 <? last_applied app)) eqn:Hm.
  - apply Run_bind_Done in Efin as (cells & o4 & Ec & Efin). apply run_lift_Done in Ec as [Ec ->].
    apply andb_true_iff in Hm as [_ Hpos]. apply N.ltb_lt in Hpos.
    destruct (engine_install_full identity t app (mkOpening (op_files o1) (op_engine o1) node) e1 _ v1 cells tt o'
      Happ ltac:(lia) He1 Hh1 Ec Efin) as (Hf' & Hnd' & e2 & v2 & He2 & Hh2 & Hst2).
    split; [done|by rewrite Hf'|by rewrite Hnd'|done|]. eauto.
  - injection Efin as <-. split; [done|done|done|done|]. exists e1, v1. split; [done|]. split; [done|].
    destruct (decide (last_applied app = 0)) as [Hz|Hpos].
    { destruct Happ as [Ha Hb _]. by eapply stored_zero. }
    rewrite (proj2 (N.ltb_lt 0 (last_applied app))) in Hm by lia. rewrite andb_true_r in Hm.
    destruct Hwhich as [->| ->]; [done|]. destruct migrating.
    + apply negb_false_iff, eqb_true_1 in Hm as ->. done.
    + by rewrite (cells_identity_ok _ _ _ _ Esrc) in Hi.
Qed.

Lemma restore_watermark_ok n index term n' :
  restore_applied_watermark n index term = inr n' -> Node.last_applied n' = index /\ index <= commit_index n'.
Proof.
  unfold restore_applied_watermark. destruct (_ || _); [done|]. intros [= <-]. unfold upd. cbn. split; [done|lia].
Qed.

(** A recovered core, before its first tick, that may take the watermark. *)
Record recovering (n : RaftNode) (index : LogIndex) (term : Term) : Prop := {
  rv_clock : now_ms n = 0 /\ election_deadline_ms n = 0 /\ is_follower n = true;
  rv_bounds : snapshot_index n <= index <= last_log_index n /\ Node.last_applied n <= index;
  rv_term : log_term n index = Some term;
  rv_membership : index <= commit_index n \/ membership_at n index = Ok (committed_membership n);
}.
Lemma recovering_ok n index term : recovering n index term -> exists n', restore_applied_watermark n index term = inr n'.
Proof.
  intros [(Hn & Hd & Hf) [[Hl Hu] Ha] Ht Hm]. unfold restore_applied_watermark. rewrite Hn, Hd, Hf, Ht.
  rewrite (proj2 (N.ltb_ge _ _) Hl), (proj2 (N.ltb_ge _ _) Ha), (proj2 (N.ltb_ge _ _) Hu), (proj2 (eqb_true (Some term) _) eq_refl).
  assert (Hc : (commit_index n <? index) && negb (membership_at n index ==? Ok (committed_membership n)) = false).
  { destruct Hm as [Hc|Hm]; [by rewrite (proj2 (N.ltb_ge _ _) Hc)|]. rewrite Hm, (proj2 (eqb_true (Ok _) _) eq_refl).
    apply andb_false_r. }
  rewrite Hc. cbn [N.eqb negb orb]. by eexists.
Qed.

Lemma read_synced n index term n' identity backend e v app :
  restore_applied_watermark n index term = inr n' -> index = last_applied app -> storable app ->
  engine_holds e index v -> stored v app identity term ->
  exists read, from_application n' app = IoOk read
    /\ synced read (mkAppliedStore backend identity (Some e) index term false).
Proof.
  intros Hn Hi Happ Hh Hst. destruct (restore_watermark_ok _ _ _ _ Hn) as [Hl Hc].
  unfold from_application. rewrite Hl, Hi, N.eqb_refl.
  rewrite Hi in Hc. rewrite (proj2 (N.ltb_ge _ _) Hc). cbn [negb orb]. eexists. split; [done|].
  split; cbn; try done. intros e' [= <-]. exists v. rewrite <- Hi. by split.
Qed.

(** The state opening starts from. *)
Definition base (snapshot : option SnapshotImage) : StateMachine :=
  match snapshot with Some image => si_application image | None => app_default end.
Definition bound_to (files : gmap string Bytes) (wanted : Binding) : Prop :=
  (files !! IDENTITY_FILE) ≫= binding_parse = Some wanted.

Lemma open_binding_ok wanted fresh migrate (o o' : @Opening Eng) migrating :
  open_binding wanted fresh migrate o = (Done migrating, o') ->
  op_engine o' = op_engine o /\ op_node o' = op_node o /\ (migrating = false -> bound_to (op_files o') wanted).
Proof using All.
  unfold open_binding. destruct (op_files o !! IDENTITY_FILE) as [content|] eqn:Hc; intros E.
  - apply Run_bind_Done in E as (existing & o1 & Ep & E). apply run_lift_Done in Ep as [Ep ->]. apply of_io_Done in Ep.
    destruct (existing ==? wanted) eqn:Heq.
    + injection E as <- <-. split; [done|]. split; [done|]. intros _. apply eqb_true_1 in Heq as ->. unfold bound_to.
      rewrite Hc. cbn. by destruct (binding_parse content); [injection Ep as ->|].
    + apply Run_bind_Done in E as ([] & o1 & Er & E). apply run_refuse_Done in Er as [_ ->]. by injection E as <- <-.
  - apply Run_bind_Done in E as ([] & o1 & Er & E). apply run_refuse_Done in Er as [_ ->].
    apply Run_bind_Done in E as ([] & o1 & Ep & E). injection Ep as <-. injection E as <- <-.
    split; [done|]. split; [done|]. intros _. unfold bound_to. cbn [op_files]. rewrite lookup_insert_eq. apply binding_inverse.
Qed.

(** Opening a persistent backend. *)
Lemma open_sound exists_ e backend identity snapshot fresh migrate (o : @Opening Eng) s ident term store app o' :
  backend <> MemoryBackend -> keeps e s ident term -> storable (base snapshot) ->
  last_applied (base snapshot) = snapshot_index (op_node o) ->
  open_for_group exists_ (IoOk e) backend identity snapshot fresh migrate o = (Done (store, app), o') ->
  bound_to (op_files o') (mkBinding 1 backend identity)
  /\ ((last_applied s < snapshot_index (op_node o) /\ app = base snapshot)
      \/ (app = s /\ replay_log (N.to_nat (last_applied s - snapshot_index (op_node o))) (op_node o)
            (snapshot_index (op_node o) + 1) (base snapshot) = Done s))
  /\ exists read, from_application (op_node o') app = IoOk read /\ synced read store.
Proof using All.
  intros Hb Hk Hs0 Hsnap. unfold open_for_group. rewrite (proj2 (eqb_false _ _) Hb).
  intros E. apply Run_bind_Done in E as ([] & o1 & Ev & E). apply run_lift_Done in Ev as [_ ->].
  apply Run_bind_Done in E as ([] & o1 & Er & E). apply run_refuse_Done in Er as [_ ->].
  apply Run_bind_Done in E as (migrating & o1 & Ebind & E). apply open_binding_ok in Ebind as (_ & Hnode & Hbound).
  apply Run_bind_Done in E as ([] & o2 & Eeng & E).
  apply Run_bind_Done in Eeng as ([] & o3 & Er & Eeng). apply run_refuse_Done in Er as [_ ->].
  apply Run_bind_Done in Eeng as (e1 & o3 & Ee & Eeng). apply run_lift_Done in Ee as [Ee ->]. injection Ee as <-.
  injection Eeng as <-.
  apply Run_bind_Done in E as ([app1 t] & o3 & Eopen & E).
  apply Run_bind_Done in E as ([] & o4 & Epub & E). apply Run_bind_Done in E as (o5 & o6 & Est & E).
  injection Est as -> <-. injection E as <- <- <-.
  rewrite <- Hnode in Hsnap.
  apply (open_engine_sound identity migrating _ _ _ e s ident term app1 t o3) in Eopen as [Happ Hf Hnd Horg (e' & v' & He' & Hh' & Hst')];
    [|done|done|done|done].
  cbn [op_node op_files] in Hnd, Horg, Hf. rewrite Hnode in Horg.
  assert (Hpub : op_engine o5 = op_engine o3 /\ op_node o5 = op_node o3 /\ bound_to (op_files o5) (mkBinding 1 backend identity)).
  { destruct migrating; injection Epub as <-.
    - split; [done|]. split; [done|]. unfold bound_to. cbn [op_files]. rewrite lookup_insert_eq. apply binding_inverse.
    - split; [done|]. split; [done|]. rewrite Hf. by apply Hbound. }
  destruct Hpub as (Hpe & Hpn & Hpb). split; [done|]. split; [destruct Horg as [?|(? & _ & ?)]; auto|].
  rewrite Hpe, Hpn, He'. by apply (read_synced _ _ t _ identity backend e' v' app1 Hnd).
Qed.

Lemma Run_bind_run {S A B} (m : Run S A) (f : A -> Run S B) s a s1 :
  m s = (Done a, s1) -> (m ≫= f) s = f a s1.
Proof. intros E. unfold mbind, Run_bind. by rewrite E. Qed.

(** Reopening a directory whose engine stores a state the log reproduces. *)
Lemma open_complete e backend identity snapshot fresh migrate (o : @Opening Eng) s term rows :
  backend <> MemoryBackend -> identity_validate identity = IoOk tt -> identity = identity_legacy (op_node o) ->
  bound_to (op_files o) (mkBinding 1 backend identity) ->
  keeps e s identity term -> engine_scan e = (IoOk rows, e) ->
  replay_log (N.to_nat (last_applied s - snapshot_index (op_node o))) (op_node o)
    (snapshot_index (op_node o) + 1) (base snapshot) = Done s ->
  recovering (op_node o) (last_applied s) (if last_applied s =? 0 then 0 else term) ->
  exists store o', open_for_group true (IoOk e) backend identity snapshot fresh migrate o = (Done (store, s), o').
Proof using All.
  intros Hb Hval Hleg Hbound Hk Hscan Hrep Hrec.
  destruct (recovering_ok _ _ _ Hrec) as [n' Hn']. destruct Hrec as [_ [[Hle _] _] Ht _].
  destruct Hk as (Hs & Hterm & v & Hh & Hst).
  pose proof (scan_law e _ v Hh) as Hsc. unfold post in Hsc. rewrite Hscan in Hsc. destruct Hsc as (_ & Hn & Hrows).
  pose proof (decode_kept v s identity term rows Hs Hterm Hst Hn Hrows) as Hdec.
  set (t := if last_applied s =? 0 then 0 else term) in *.
  unfold open_for_group. rewrite (proj2 (eqb_false _ _) Hb).
  erewrite Run_bind_run by (unfold run_lift; by rewrite Hval).
  erewrite Run_bind_run by (unfold run_refuse, run_lift; by rewrite (proj2 (eqb_true _ _) Hleg)).
  assert (Ebind : open_binding (mkBinding 1 backend identity) fresh migrate o = (Done false, o)).
  { unfold bound_to in Hbound. unfold open_binding. destruct (op_files o !! IDENTITY_FILE) as [content|]; [|done].
    cbn [mbind option_bind] in Hbound. erewrite Run_bind_run by (unfold run_lift; by rewrite Hbound).
    by rewrite (proj2 (eqb_true (mkBinding 1 backend identity) _) eq_refl). }
  rewrite (Run_bind_run _ _ _ _ _ Ebind).
  erewrite Run_bind_run.
  2:{ erewrite Run_bind_run by (unfold run_refuse, run_lift; rewrite andb_false_r; reflexivity).
      erewrite Run_bind_run by (unfold run_lift; reflexivity). reflexivity. }
  set (o1 := mkOpening (op_files o) (Some e) (op_node o)).
  assert (Eopen : open_engine identity false (base snapshot) (snapshot_term (op_node o1)) o1
    = (Done (s, t), mkOpening (op_files o) (Some e) n')).
  { unfold open_engine, o1. cbn [op_engine op_node]. rewrite (holds_index e _ v Hh).
    erewrite Run_bind_run by (unfold on_opened_engine; cbn [op_engine]; by rewrite Hscan).
    erewrite Run_bind_run by (unfold run_lift; reflexivity).
    erewrite Run_bind_run by (unfold run_lift; by rewrite Hdec). cbv beta iota.
    rewrite (proj2 (N.ltb_ge _ _) Hle).
    erewrite Run_bind_run.
    2:{ erewrite Run_bind_run by (unfold run_refuse, run_lift; by rewrite Ht, (proj2 (eqb_true (Some t) _) eq_refl)).
        erewrite Run_bind_run by (unfold run_lift; by rewrite Hrep).
        erewrite Run_bind_run by (unfold run_refuse, run_lift; by rewrite (proj2 (eqb_true s _) eq_refl)).
        reflexivity. }
    cbv beta iota. erewrite Run_bind_run by (unfold run_lift; by rewrite Hn').
    reflexivity. }
  change (match snapshot with Some image => si_application image | None => app_default end) with (base snapshot).
  rewrite (Run_bind_run _ _ _ _ _ Eopen). eexists _, _. reflexivity.
Qed.

(** ** Installing a snapshot *)

Lemma install_effect read (store : AppliedStore Eng) image :
  let md := metadata (si_descriptor image) in
  synced read store -> storable (si_application image) -> last_applied (si_application image) = last_included_index md ->
  match applied_install image store with
  | (Done _, store') => ap_index store < last_included_index md
      /\ exists read', read_install read image = IoOk read' /\ synced read' store'
  | (Refused _, store') => store' = store \/ torn (rd_application read) (si_application image) store'
  | (Panicked, _) => False
  end.
Proof using All.
  intros md Hs Hs' Hi. pose proof Hs' as [Hv Hvals _].
  assert (Hadv : ap_index store < last_included_index md ->
    exists read', read_install read image = IoOk read'
      /\ read' = mkReadState (si_application image) (last_included_index md) (N.max (rd_commit_index read) (last_included_index md))).
  { intros Hlt. unfold read_install. fold md. rewrite <- (sy_index _ _ Hs), (proj2 (N.leb_gt _ _) Hlt). by eexists. }
  unfold applied_install, unpoisoned, run_refuse, run_lift, run_skip, update, mbind, Run_bind, St_bind. fold md.
  rewrite (sy_open _ _ Hs). cbn [of_io]. destruct (_ || _) eqn:Hg; [by left|].
  apply orb_false_iff in Hg as [_ Hlt]. apply N.leb_gt in Hlt. specialize (Hadv Hlt) as (read' & Er & Eq).
  destruct (ap_engine store) as [e|] eqn:He; cbn [mret Run_ret].
  - destruct (full_cells_ok (si_application image) (ap_identity store) (last_included_term md) Hv Hvals ltac:(lia)) as (cells & -> & Hst).
    unfold on_engine. rewrite He. destruct (sy_engine _ _ Hs e He) as (v & Hh & Hv0).
    pose proof (install_law e (ap_index store) v (last_included_index md) cells Hh ltac:(rewrite <- Hi; apply (av_applied _ Hv))) as Hc.
    unfold post in Hc. destruct (engine_install _ cells e) as [[x|k m] e']; cbn [of_io].
    + split; [done|]. exists read'. split; [done|]. subst read'. split; cbn; try done; [lia|by apply Hs|].
      intros e2 [= <-]. eexists. by split.
    + right. split; [done|]. exists e', v, (put_all cells (fun _ => None)), (last_included_term md).
      split; [done|]. split; [done|]. split; [exact Hst|]. rewrite <- (sy_index _ _ Hs), Hi.
      destruct Hc as [->|Hc]; [by left|by right].
  - cbn [of_io]. split; [done|]. exists read'. split; [done|]. subst read'. split; cbn; try done; [lia|by apply Hs|].
    by rewrite He.
Qed.
End group.

(** * Theorems *)

(** (C18) A committed range takes effect as a whole.  [apply_group] never panics.
    Readers and the engine move together, by a prefix of the entries applied in
    order, whose outcomes are the answer; or, after a refusal, nothing has
    changed; or the engine failed, readers keep the state before the range, the
    engine's data reopens to the state before or after it, and the handle is
    poisoned: every later range is refused and changes nothing.  A single entry
    at the next index whose cells fit the engine's budget ([merge_cells]) is
    never refused for the range's sake: without an engine it is applied; with
    one it is applied exactly when the engine commits its cells, the error of a
    failed commit is the answer and leaves readers where they were, and an error
    can follow a commit only from reading the engine's status. *)
Theorem apply_group_atomic `{StateStoreLaws Eng, CellLaws, Sha256} read (store : AppliedStore Eng) entries :
  synced read store -> Forall (fun e => client_command (e_command e)) entries ->
  (let '(result, (read', store')) := apply_group entries (read, store) in
   result <> Panicked /\ group_effect read store entries result read' store'
   /\ (ap_poisoned store' = true -> forall later, Forall (fun e => client_command (e_command e)) later ->
        exists error, apply_group later (read', store') = (Refused error, (read', store'))))
  /\ (forall entry outcome s' cells batch, entries = [entry] ->
       app_apply (rd_application read) entry = Done (outcome, s') ->
       entry_cells s' (ap_identity store) entry = IoOk cells -> merge_cells ∅ 0 cells = IoOk (Some batch) ->
       let '(result, (read', store')) := apply_group entries (read, store) in
       single_effect read store entry outcome s' (batch_changes batch.1) result read' store').
Proof.
  intros Hs HF. split.
  - pose proof (apply_group_effect read store entries Hs HF) as He.
    destruct (apply_group entries (read, store)) as [result [read' store']]. destruct He as [Hp He].
    split; [exact Hp|]. split; [exact He|]. intros Hpois later Hl. apply apply_group_poisoned; [|done|done].
    pose proof (sy_state _ _ Hs) as Hst.
    destruct He as [| result pre post outs s' r' st' _ _ _ <- Hs' _|]; [done|by apply Hs'|done].
  - intros entry outcome s' cells batch -> Ha Hc Hm. apply list.Forall_cons in HF as [[Ht _] _].
    by apply (apply_single read store entry outcome s' cells batch Hs Ht).
Qed.

(** Installing a received snapshot replaces what readers see and what the
    engine stores together, only forward and without a panic; a refusal leaves
    both, and a failed engine retires the handle over data that reopens to the
    old or to the new state. *)
Theorem snapshot_install_atomic `{StateStoreLaws Eng, CellLaws, Sha256} read (store : AppliedStore Eng) image :
  let md := metadata (si_descriptor image) in
  synced read store -> storable (si_application image) -> last_applied (si_application image) = last_included_index md ->
  match applied_install image store with
  | (Done _, store') => ap_index store < last_included_index md
      /\ exists read', read_install read image = IoOk read' /\ synced read' store'
  | (Refused _, store') => store' = store \/ torn (rd_application read) (si_application image) store'
  | (Panicked, _) => False
  end.
Proof. apply install_effect. Qed.

(** (C22) The cells of a state are its encoding: the engine that holds exactly the
    cells [full_cells] writes gives, when scanned in any order, that state and
    its term back, for its own group's identity and for no other. *)
Theorem cells_roundtrip `{CellLaws, Sha256} s identity term :
  storable s -> last_applied s <> 0 -> term <> 0 ->
  exists cells, full_cells s identity term = Done cells
    /\ forall rows, NoDup rows.*1 -> (forall k x, (k, x) ∈ rows <-> put_all cells (fun _ => None) k = Some x) ->
       decode_cells rows (last_applied s) identity = IoOk (s, term)
       /\ forall source r, decode_cells rows (last_applied s) source = IoOk r -> source = identity.
Proof.
  intros Hs Hpos Hterm. pose proof Hs as [Hv Hvals _].
  destruct (full_cells_ok s identity term Hv Hvals Hpos) as (cells & -> & Hst). exists cells. split; [done|].
  intros rows Hn Hrows. pose proof (decode_kept _ s identity term rows Hs (fun _ => Hterm) Hst Hn Hrows) as Hd.
  rewrite (proj2 (N.eqb_neq _ _) Hpos) in Hd. split; [exact Hd|]. intros source r Hr.
  by destruct (decode_identity _ _ _ _ _ _ Hpos Hd Hr).
Qed.

(** (C21) Opening adopts nothing the recovered log does not reproduce.  When the
    persistent engine, which stores a state [s], opens, the binding names this
    group and backend; the application is the snapshot's, if the engine was
    behind it, or [s], which the log replayed from the snapshot gave; and what
    readers see, the engine and the core's watermark agree. *)
Theorem open_adopts_replay `{StateStoreLaws Eng, CellLaws, Sha256} exists_ (e : Eng) backend identity snapshot fresh
    migrate o s ident term store app o' :
  backend <> MemoryBackend -> keeps e s ident term -> storable (base snapshot) ->
  last_applied (base snapshot) = snapshot_index (op_node o) ->
  open_for_group exists_ (IoOk e) backend identity snapshot fresh migrate o = (Done (store, app), o') ->
  bound_to (op_files o') (mkBinding 1 backend identity)
  /\ ((last_applied s < snapshot_index (op_node o) /\ app = base snapshot)
      \/ (app = s /\ replay_log (N.to_nat (last_applied s - snapshot_index (op_node o))) (op_node o)
            (snapshot_index (op_node o) + 1) (base snapshot) = Done s))
  /\ exists read, from_application (op_node o') app = IoOk read /\ synced read store.
Proof. apply open_sound. Qed.

(** Recovery succeeds: a bound directory whose engine stores, under this
    group's identity, a state the recovered log reproduces opens with that
    state, whatever was lost after it. *)
Theorem open_recovers `{StateStoreLaws Eng, CellLaws, Sha256} (e : Eng) backend identity snapshot fresh migrate o s term rows :
  backend <> MemoryBackend -> identity_validate identity = IoOk tt -> identity = identity_legacy (op_node o) ->
  bound_to (op_files o) (mkBinding 1 backend identity) ->
  keeps e s identity term -> engine_scan e = (IoOk rows, e) ->
  replay_log (N.to_nat (last_applied s - snapshot_index (op_node o))) (op_node o)
    (snapshot_index (op_node o) + 1) (base snapshot) = Done s ->
  recovering (op_node o) (last_applied s) (if last_applied s =? 0 then 0 else term) ->
  exists store o', open_for_group true (IoOk e) backend identity snapshot fresh migrate o = (Done (store, s), o').
Proof. apply open_complete. Qed.
