(* ===== verification/Storage.v ===== *)
(** * [kv-node/src/storage.rs], [durability.rs] and [crc.rs]: the consensus files

    A directory whose device may lose what was not synchronised, the operations
    of the operating system on it, each of which may fail, publication by
    synchronised rename, the checksummed log, and the store: hard state, log,
    and immutable generations selected by [CURRENT].

    [serde_json] is the parameter [StorageFormats].  The hooks the tests use to
    interrupt a publication are subsumed by the failing calls. *)
From stdpp Require Import pretty.
From S2P Require Import Prelude Quorum Membership Types Node Store Disk Application SnapshotImage.
Local Open Scope N_scope.
Local Open Scope raft_scope.

(** ** [crc.rs] *)

Definition CRC_POLYNOMIAL : N := 0xEDB88320.
(** One bit of a table entry. *)
Definition crc_bit (c : N) : N :=
  if N.land c 1 =? 0 then N.shiftr c 1 else N.lxor CRC_POLYNOMIAL (N.shiftr c 1).
Fixpoint crc_bits (k : nat) (c : N) : N :=
  match k with O => c | S k => crc_bits k (crc_bit c) end.
(** [make_table] *)
Definition make_table : list N := (fun i => crc_bits 8 (N.of_nat i)) <$> seq 0 256.
Definition CRC_TABLE : list N := Eval vm_compute in make_table.

Definition crc_byte (c b : N) : N :=
  N.lxor (default 0 (CRC_TABLE !! N.to_nat (N.land (N.lxor c b) 0xFF))) (N.shiftr c 8).
Definition crc32 (bs : Bytes) : N := N.lxor (foldl crc_byte 0xFFFFFFFF bs) 0xFFFFFFFF.

(** ** The directory *)

(** A file: its contents, how many leading bytes are on the device, and what the
    device may still hold instead after a truncation. *)
Record File := mkFile { fl_content : Bytes; fl_synced : N; fl_prior : option Bytes }.
#[export] Instance File_eta : Eta File := fun f => mkFile (fl_content f) (fl_synced f) (fl_prior f).

(** The names a process sees, the names the device may still have otherwise, and
    the outcomes of the coming system calls: [Some n] fails, after [n] bytes if
    it writes. *)
Record Directory := mkDirectory {
  dr_files : gmap string File;
  dr_stale : gmap string (option Bytes);
  dr_faults : list (option N);
}.
#[export] Instance Directory_eta : Eta Directory := fun d => mkDirectory (dr_files d) (dr_stale d) (dr_faults d).

Definition io_failure : string := "I/O".

(** A system call: its effect, and what it leaves when it fails. *)
Definition syscall (effect : Directory -> Directory) (partial : N -> Directory -> Directory) : St Directory unit := fun d =>
  let run := d <| dr_faults := tail (dr_faults d) |> in
  match dr_faults d with
  | Some n :: _ => (IoErr OtherError io_failure, partial n run)
  | _ => (IoOk tt, effect run)
  end.
Definition unchanged {A B} (_ : A) (b : B) : B := b.

(** The device may keep the present binding of a name. *)
Definition stale (name : string) (d : Directory) : Directory :=
  match dr_stale d !! name with
  | Some _ => d
  | None => d <| dr_stale := <[name := fl_content <$> dr_files d !! name]> (dr_stale d) |>
  end.

(** [try_exists] *)
Definition os_exists (name : string) : St Directory bool :=
  syscall id unchanged;; d ← state; mret (is_some (dr_files d !! name)).
(** [fs::read] *)
Definition os_read (name : string) : St Directory Bytes :=
  syscall id unchanged;;
  d ← state;
  match dr_files d !! name with
  | Some file => mret (fl_content file)
  | None => fails NotFound "no such file"
  end.
(** [File::create]: a new file, or the old one emptied. *)
Definition create_effect (name : string) (d : Directory) : Directory :=
  match dr_files d !! name with
  | Some file => d <| dr_files := <[name := mkFile [] 0 (Some (fl_content file))]> (dr_files d) |>
  | None => stale name d <| dr_files := <[name := mkFile [] 0 None]> (dr_files d) |>
  end.
Definition os_create (name : string) : St Directory unit :=
  syscall (create_effect name) (fun n => if n =? 0 then id else create_effect name).
(** [OpenOptions::create_new] *)
Definition os_create_new (name : string) : St Directory unit :=
  d ← state;
  match dr_files d !! name with
  | Some _ => fails AlreadyExists "file exists"
  | None => os_create name
  end.
(** [OpenOptions::create(true).append(true)] *)
Definition os_open_append (name : string) : St Directory unit :=
  d ← state;
  match dr_files d !! name with
  | Some _ => syscall id unchanged
  | None => os_create name
  end.
(** [OpenOptions::write(true)] *)
Definition os_open_write (name : string) : St Directory unit :=
  d ← state;
  match dr_files d !! name with
  | Some _ => syscall id unchanged
  | None => fails NotFound "no such file"
  end.
(** [write_all] at the end of an open file *)
Definition write_effect (name : string) (data : Bytes) (d : Directory) : Directory :=
  match dr_files d !! name with
  | Some file => d <| dr_files := <[name := file <| fl_content := fl_content file ++ data |>]> (dr_files d) |>
  | None => d
  end.
Definition os_write (name : string) (data : Bytes) : St Directory unit :=
  syscall (write_effect name data) (fun n => write_effect name (take (N.to_nat n) data)).
(** [File::sync_all] *)
Definition sync_effect (name : string) (d : Directory) : Directory :=
  match dr_files d !! name with
  | Some file => d <| dr_files := <[name := mkFile (fl_content file) (len64 (fl_content file)) None]> (dr_files d) |>
  | None => d
  end.
Definition os_sync (name : string) : St Directory unit := syscall (sync_effect name) unchanged.
(** [File::set_len] to a smaller length *)
Definition set_len_effect (name : string) (length : N) (d : Directory) : Directory :=
  match dr_files d !! name with
  | Some file =>
      d <| dr_files := <[name := mkFile (take (N.to_nat length) (fl_content file))
                                   (N.min length (fl_synced file)) (Some (fl_content file))]> (dr_files d) |>
  | None => d
  end.
Definition os_set_len (name : string) (length : N) : St Directory unit :=
  syscall (set_len_effect name length) (fun n => if n =? 0 then id else set_len_effect name length).
(** [fs::rename] *)
Definition rename_effect (from to : string) (d : Directory) : Directory :=
  match dr_files d !! from with
  | Some file => stale from (stale to d) <| dr_files := <[to := file]> (delete from (dr_files d)) |>
  | None => d
  end.
Definition os_rename (from to : string) : St Directory unit :=
  d ← state;
  match dr_files d !! from with
  | Some _ => syscall (rename_effect from to) (fun n => if n =? 0 then id else rename_effect from to)
  | None => fails NotFound "no such file"
  end.
(** [fs::remove_file] *)
Definition remove_effect (name : string) (d : Directory) : Directory :=
  stale name d <| dr_files := delete name (dr_files d) |>.
Definition os_remove (name : string) : St Directory unit :=
  d ← state;
  match dr_files d !! name with
  | Some _ => syscall (remove_effect name) (fun n => if n =? 0 then id else remove_effect name)
  | None => fails NotFound "no such file"
  end.
(** [fs::read_dir] *)
Definition os_list : St Directory (list string) :=
  syscall id unchanged;; d ← state; mret ((map_to_list (dr_files d)).*1).

(** ** [durability.rs] *)

(** [sync_directory] *)
Definition sync_directory : St Directory unit := syscall (fun d => d <| dr_stale := ∅ |>) unchanged.

(** [filename] *)
Definition filename_char (b : N) : bool :=
  between 0x30 0x39 b || between 0x41 0x5A b || between 0x61 0x7A b || contains b [0x2E; 0x5F; 0x2D].
Definition filename_ok (name : string) : bool :=
  negb (name ==? EmptyString) && negb (name ==? "."%string) && negb (name ==? ".."%string)
  && forallb filename_char (bytes name).

(** [publish_file] *)
Definition publish_file (temporary destination : string) (data : Bytes) : St Directory unit :=
  refuse (negb (filename_ok temporary)) InvalidInput "publication names must be single portable filenames";;
  refuse (negb (filename_ok destination)) InvalidInput "publication names must be single portable filenames";;
  refuse (temporary ==? destination) InvalidInput "temporary and destination must differ";;
  os_create temporary;;
  os_write temporary data;;
  os_sync temporary;;
  os_rename temporary destination;;
  sync_directory.

(** ** Formats *)

Record HardStateEnvelope := mkEnvelope { he_version : N; he_crc : N; he_hard_state : HardState }.
Record Frame := mkFrame { fr_crc : N; fr_entry : Entry }.
Record Manifest := mkManifest { mf_version : N; mf_generation : N; mf_snapshot : SnapshotDescriptor }.
Record ManifestFrame := mkManifestFrame { mm_crc : N; mm_manifest : Manifest }.

Class StorageFormats : Type := {
  (** [serde_json::to_vec] *)
  hard_state_json : HardState -> Bytes;
  envelope_json : HardStateEnvelope -> Bytes;
  entry_json : Entry -> Bytes;
  selection_json : Manifest -> Bytes;
  selection_frame_json : ManifestFrame -> Bytes;
  (** [serde_json::Value]: [from_slice], whether [get] finds a field, and [from_value] *)
  json_value : Type;
  json_parse : Bytes -> option json_value;
  json_has : json_value -> string -> bool;
  envelope_of : json_value -> option HardStateEnvelope;
  hard_state_of : json_value -> option HardState;
  (** [serde_json::from_slice] *)
  frame_parse : Bytes -> option Frame;
  selection_frame_parse : Bytes -> option ManifestFrame;
}.

Definition HARDSTATE : string := "hardstate.json".
Definition HARDSTATE_NEW : string := "hardstate.json.new".
Definition LOG : string := "log.jsonl".
Definition LOG_NEW : string := "log.jsonl.new".
Definition CURRENT_FILE : string := "CURRENT".
Definition CURRENT_FILE_NEW : string := "CURRENT.new".
Definition MAX_SNAPSHOT_WAL_BYTES : N := 64 * 1024 * 1024.
(** The bound under which [CURRENT] is read. *)
Definition MAX_CURRENT_BYTES : N := 8192.

Definition json_of {A} (o : option A) : Io A :=
  match o with Some a => IoOk a | None => invalid "serde_json" end.

(** [snapshot_name] and [wal_name]: the generation in twenty digits *)
Definition digits20 (n : N) : string :=
  let s := pretty n in of_bytes (replicate (20 - String.length s) 0x30 ++ bytes s).
Definition generation_file (generation : N) (extension : string) : string :=
  "generation-" +:+ digits20 generation +:+ extension.
Definition snapshot_name (generation : N) : string := generation_file generation ".snapshot".
Definition wal_name (generation : N) : string := generation_file generation ".wal".

(** [split_once('.')] *)
Fixpoint split_dot (bs : Bytes) : option (Bytes * Bytes) :=
  match bs with
  | [] => None
  | b :: bs => if b =? 0x2E then Some ([], bs)
               else '(before, after) ← split_dot bs; Some (b :: before, after)
  end.
(** [is_generation_file] *)
Definition is_generation_file (name : string) : bool :=
  match strip_prefix (bytes "generation-") (bytes name) with
  | None => false
  | Some rest =>
      match split_dot rest with
      | None => false
      | Some (digits, extension) =>
          (len64 digits =? 20) && forallb (between 0x30 0x39) digits
          && (contains extension [bytes "snapshot"; bytes "wal"; bytes "wal.new"])
      end
  end.

Section formats.
Context `{StorageFormats}.

(** [encode_hard_state] *)
Definition encode_hard_state (hs : HardState) : Bytes :=
  if is_none (hs_membership hs) then hard_state_json hs
  else envelope_json (mkEnvelope 2 (crc32 (hard_state_json hs)) hs).

(** [decode_hard_state] *)
Definition decode_hard_state (content : Bytes) : Io HardState :=
  value ← json_of (json_parse content);
  if json_has value "version" || json_has value "hard_state" then
    frame ← json_of (envelope_of value);
    if negb (he_version frame =? 2) || is_none (hs_membership (he_hard_state frame))
       || negb (he_crc frame =? crc32 (hard_state_json (he_hard_state frame)))
    then invalid "hard-state envelope version or checksum mismatch" else
    match hs_membership (he_hard_state frame) with
    | Some membership => or_invalid (cm_validate membership);; IoOk (he_hard_state frame)
    | None => invalid "checked"
    end
  else if json_has value "membership"
  then invalid "membership requires hard-state version 2 envelope"
  else json_of (hard_state_of value).

Definition quoted (name : string) : Bytes := [0x22] ++ bytes name ++ [0x22].
(** [frame_line] without its newline, and with it *)
Definition frame_text (e : Entry) : Bytes :=
  [0x7B] ++ quoted "crc" ++ [0x3A] ++ bytes (pretty (crc32 (entry_json e)))
  ++ [0x2C] ++ quoted "entry" ++ [0x3A] ++ entry_json e ++ [0x7D].
Definition frame_line (e : Entry) : Bytes := frame_text e ++ [0x0A].

(** [parse_frame] *)
Definition parse_frame (line : Bytes) (previous : LogIndex) : Result Entry :=
  match frame_parse line with
  | None => Err "unparseable frame"
  | Some frame =>
      if negb (crc32 (entry_json (fr_entry frame)) =? fr_crc frame) then Err "crc mismatch" else
      if negb (checked_add previous 1 ==? Some (e_index (fr_entry frame))) then Err "index gap" else
      Ok (fr_entry frame)
  end.

(** The bytes before the first newline, and those after it. *)
Fixpoint split_line (bs : Bytes) : option (Bytes * Bytes) :=
  match bs with
  | [] => None
  | b :: bs => if b =? 0x0A then Some ([], bs)
               else '(line, rest) ← split_line bs; Some (b :: line, rest)
  end.

(** The loop of [recover_log_at]: the entries, and where an unterminated tail
    begins.  Every turn consumes a byte, so [S (length rest)] turns are enough. *)
Fixpoint recover_lines (fuel : nat) (previous : LogIndex) (offset : N) (rest : Bytes) :
    Io (list Entry * option N) :=
  match fuel, rest with
  | O, _ | _, [] => IoOk ([], None)
  | S fuel, _ =>
      match split_line rest with
      | None => IoOk ([], Some offset)
      | Some (line, rest) =>
          entry ← or_invalid (parse_frame line previous);
          '(entries, torn) ← recover_lines fuel (e_index entry) (offset + len64 line + 1) rest;
          IoOk (entry :: entries, torn)
      end
  end.

(** [truncate_at] *)
Definition truncate_at (name : string) (offset : N) : St Directory unit :=
  os_open_write name;; os_set_len name offset;; os_sync name.

(** [recover_log_at] *)
Definition recover_log_at (name : string) (base : LogIndex) (required : bool) : St Directory (list Entry) := fun d =>
  match os_read name d with
  | (IoErr NotFound e, d) => if required then (IoErr NotFound e, d) else (IoOk [], d)
  | (IoErr k e, d) => (IoErr k e, d)
  | (IoOk content, d) =>
      ('(entries, torn) ← lift (recover_lines (S (length content)) base 0 content);
       match torn with Some offset => truncate_at name offset | None => mret tt end;;
       mret entries) d
  end.

(** [validate_terms] *)
Fixpoint validate_terms (entries : list Entry) (previous current : Term) : Io unit :=
  match entries with
  | [] => IoOk tt
  | entry :: entries =>
      if (e_term entry <? previous) || (current <? e_term entry) then invalid "log term out of range"
      else validate_terms entries (e_term entry) current
  end.

(** [read_bounded] *)
Definition read_bounded (name : string) (maximum : N) : St Directory Bytes :=
  content ← os_read name;
  let content := take (N.to_nat (maximum + 1)) content in
  refuse (maximum <? len64 content) InvalidData "snapshot file exceeds byte bound";;
  mret content.

(** [read_manifest] *)
Definition read_manifest : St Directory (option Manifest) :=
  found ← os_exists CURRENT_FILE;
  if (found : bool) then
    content ← read_bounded CURRENT_FILE MAX_CURRENT_BYTES;
    frame ← lift (json_of (selection_frame_parse content));
    let manifest := mm_manifest frame in
    refuse (negb (mf_version manifest =? 1) || (mf_generation manifest =? 0)
            || negb (mm_crc frame =? crc32 (selection_json manifest)))
      InvalidData "CURRENT manifest version, generation or checksum invalid";;
    lift (or_invalid (descriptor_validate (mf_snapshot manifest)));;
    mret (Some manifest)
  else mret None.

(** [write_immutable] *)
Definition write_immutable (name : string) (data : Bytes) : St Directory unit :=
  os_create_new name;; os_write name data;; os_sync name.

(** ** [Storage] *)

Record StorageMetrics := mkMetrics {
  wal_append_sync_attempts : N;
  wal_append_sync_completed : N;
  wal_append_bytes : N;
  wal_append_records : N;
}.
#[export] Instance StorageMetrics_eta : Eta StorageMetrics := fun m =>
  mkMetrics (wal_append_sync_attempts m) (wal_append_sync_completed m) (wal_append_bytes m) (wal_append_records m).
Definition no_metrics : StorageMetrics := mkMetrics 0 0 0 0.

Record Storage := mkStorage {
  sg_dir : Directory;
  sg_log_name : string;
  sg_manifest : option Manifest;
  sg_poisoned : bool;
  sg_metrics : StorageMetrics;
}.
#[export] Instance Storage_eta : Eta Storage := fun s =>
  mkStorage (sg_dir s) (sg_log_name s) (sg_manifest s) (sg_poisoned s) (sg_metrics s).

Record RecoveredState := mkRecovered {
  rs_hard_state : HardState;
  rs_entries : list Entry;
  rs_snapshot : option SnapshotImage;
}.

Definition in_dir {A} (m : St Directory A) : St Storage A := fun s =>
  let '(r, d) := m (sg_dir s) in (r, s <| sg_dir := d |>).
Definition count (f : StorageMetrics -> StorageMetrics) : St Storage unit :=
  update (fun s => s <| sg_metrics := f (sg_metrics s) |>).

(** [Storage::ensure_usable] *)
Definition ensure_usable : St Storage unit := fun s =>
  (if sg_poisoned s then IoErr OtherError "store requires reopen after failed durable mutation" else IoOk tt, s).
(** [Storage::mutation_result] *)
Definition mutation {A} (m : St Storage A) : St Storage A := fun s =>
  match m s with
  | (IoErr k e, s) => (IoErr k e, s <| sg_poisoned := true |>)
  | ok => ok
  end.
(** [Storage::base_index] and the term of the boundary *)
Definition base_index (manifest : option Manifest) : LogIndex :=
  map_or manifest 0 (fun m => last_included_index (metadata (mf_snapshot m))).
Definition base_term (manifest : option Manifest) : Term :=
  map_or manifest 0 (fun m => last_included_term (metadata (mf_snapshot m))).

(** Names [reclaim_with_hook] removes. *)
Definition reclaimed (s : Storage) (name : string) : bool :=
  ((name ==? CURRENT_FILE_NEW) || is_generation_file name || ((name ==? LOG) && is_some (sg_manifest s)))
  && negb (name ==? sg_log_name s)
  && negb ((fun m => snapshot_name (mf_generation m)) <$> sg_manifest s ==? Some name).
Fixpoint remove_all (names : list string) : St Directory unit :=
  match names with [] => mret tt | name :: names => os_remove name;; remove_all names end.
(** [Storage::reclaim_with_hook]; the directory is listed in the order of the
    map. *)
Definition reclaim : St Storage unit :=
  mutation (s ← state;
            names ← in_dir os_list;
            in_dir (remove_all (filter (fun name => reclaimed s name = true) names));;
            in_dir sync_directory).

(** The two orphans of an interrupted publication. *)
Definition remove_orphan (name : string) : St Directory unit := fun d =>
  match os_remove name d with
  | (IoOk _, d) => sync_directory d
  | (IoErr NotFound _, d) => (IoOk tt, d)
  | failed => failed
  end.

(** [fs::read(HARDSTATE)] of [open_recovered] *)
Definition recover_hard_state : St Directory HardState := fun d =>
  match os_read HARDSTATE d with
  | (IoOk content, d) => (as_invalid (decode_hard_state content), d)
  | (IoErr NotFound _, d) => (IoOk HardState_default, d)
  | (IoErr k e, d) => (IoErr k e, d)
  end.

Context `{Sha256, PayloadFormat}.

(** The generation [CURRENT] selects: its image and its log. *)
Definition recover_generation (hs : HardState) (manifest : option Manifest) :
    St Directory (option SnapshotImage * string) :=
  match manifest with
  | Some m =>
      content ← read_bounded (snapshot_name (mf_generation m)) MAX_SNAPSHOT_BYTES;
      image ← lift (image_decode content);
      refuse (negb (si_descriptor image ==? mf_snapshot m)) InvalidData
        "CURRENT descriptor differs from snapshot image";;
      refuse (current_term hs <? last_included_term (metadata (mf_snapshot m))) InvalidData
        "snapshot term exceeds durable hard state";;
      mret (Some image, wal_name (mf_generation m))
  | None => mret (None, LOG)
  end.

(** [Storage::open_recovered], on a directory that exists *)
Definition open_recovered : Directory -> Io RecoveredState * Storage := fun d =>
  let closed d := mkStorage d LOG None false no_metrics in
  match (sync_directory;;
         remove_orphan HARDSTATE_NEW;;
         remove_orphan LOG_NEW;;
         hs ← recover_hard_state;
         manifest ← read_manifest;
         '(image, log_name) ← recover_generation hs manifest;
         entries ← recover_log_at log_name (base_index manifest) (is_some manifest);
         lift (validate_terms entries (base_term manifest) (current_term hs));;
         mret (manifest, log_name, mkRecovered hs entries image)) d with
  | (IoErr k e, d) => (IoErr k e, closed d)
  | (IoOk (manifest, log_name, recovered), d) =>
      (reclaim;; mret recovered) (mkStorage d log_name manifest false no_metrics)
  end.

(** [Storage::open] *)
Definition storage_open (d : Directory) : Io (HardState * list Entry) * Storage :=
  let '(result, s) := open_recovered d in
  (recovered ← result;
   if is_some (rs_snapshot recovered)
   then IoErr Unsupported "snapshot state requires Storage::open_recovered"
   else IoOk (rs_hard_state recovered, rs_entries recovered), s).

(** [Storage::save_hard_state] *)
Definition save_hard_state (hs : HardState) : St Storage unit :=
  ensure_usable;;
  s ← state;
  refuse (current_term hs <? base_term (sg_manifest s)) InvalidData "hard state cannot precede snapshot term";;
  mutation (in_dir (publish_file HARDSTATE_NEW HARDSTATE (encode_hard_state hs))).

(** [Storage::truncate_by_rewrite] *)
Definition truncate_by_rewrite (from : LogIndex) : St Storage unit :=
  s ← state;
  entries ← in_dir (recover_log_at (sg_log_name s) (base_index (sg_manifest s)) (is_some (sg_manifest s)));
  in_dir (publish_file (sg_log_name s +:+ ".new") (sg_log_name s)
            (concat (frame_line <$> filter (fun e => e_index e < from) entries))).

(** [Storage::append_inner] *)
Definition append_inner (truncate_from : option LogIndex) (entries : list Entry) : St Storage unit :=
  match truncate_from with Some from => truncate_by_rewrite from | None => mret tt end;;
  if bool_decide (entries = []) then mret tt else
  let buffer := concat (frame_line <$> entries) in
  s ← state;
  log_existed ← in_dir (os_exists (sg_log_name s));
  refuse (negb log_existed && is_some (sg_manifest s)) NotFound "selected generation WAL is missing";;
  in_dir (os_open_append (sg_log_name s));;
  in_dir (os_write (sg_log_name s) buffer);;
  count (fun m => m <| wal_append_bytes := wal_append_bytes m + len64 buffer |>
                    <| wal_append_records := wal_append_records m + len64 entries |>
                    <| wal_append_sync_attempts := wal_append_sync_attempts m + 1 |>);;
  in_dir (os_sync (sg_log_name s));;
  count (fun m => m <| wal_append_sync_completed := wal_append_sync_completed m + 1 |>);;
  if (log_existed : bool) then mret tt else in_dir sync_directory.

(** [Storage::append_entries] *)
Definition append_entries (truncate_from : option LogIndex) (entries : list Entry) : St Storage unit :=
  ensure_usable;;
  s ← state;
  let base := base_index (sg_manifest s) in
  refuse (is_some_and truncate_from (fun from => from <=? base)
          || is_some_and (head entries) (fun entry => e_index entry <=? base))
    InvalidData "cannot rewrite compacted snapshot prefix";;
  mutation (append_inner truncate_from entries).

(** [Storage::flush] *)
Fixpoint flush_all (optional : bool) (names : list string) : St Directory unit := fun d =>
  match names with
  | [] => (IoOk tt, d)
  | name :: names =>
      match os_open_write name d with
      | (IoOk _, d) => (os_sync name;; flush_all optional names) d
      | (IoErr NotFound e, d) => if optional then flush_all optional names d else (IoErr NotFound e, d)
      | (IoErr k e, d) => (IoErr k e, d)
      end
  end.
Definition storage_flush : St Storage unit :=
  ensure_usable;;
  s ← state;
  mutation
    (in_dir (flush_all (is_none (sg_manifest s))
               (HARDSTATE :: sg_log_name s
                :: match sg_manifest s with
                   | Some m => [CURRENT_FILE; snapshot_name (mf_generation m)]
                   | None => []
                   end));;
     in_dir sync_directory).

(** Whether a new boundary continues the previous one, and the durable hard
    state. *)
Definition continues_boundary (previous boundary : SnapshotMetadata) : bool :=
  match sm_membership previous, sm_membership boundary with
  | Some before, Some after => is_consistent_extension_of after before
  | None, Some after => members previous ==? ms_genesis_voters (cm_state after)
  | None, None => members previous ==? members boundary
  | Some _, None => false
  end.
Definition continues_hard_state (before : CommittedMembership) (boundary : SnapshotMetadata) : bool :=
  match sm_membership boundary with
  | Some after => is_consistent_extension_of after before
  | None => (cm_index before =? 0) && (members boundary ==? ms_genesis_voters (cm_state before))
  end.

(** The suffix that survives behind a boundary. *)
Definition suffix_after (boundary : SnapshotMetadata) (entries : list Entry) : list Entry :=
  if existsb (fun e => (e_index e =? last_included_index boundary) && (e_term e =? last_included_term boundary)) entries
  then filter (fun e => last_included_index boundary < e_index e) entries else [].

(** [Storage::publish_snapshot] *)
Definition publish_snapshot (image : SnapshotImage) (retained_suffix : list Entry) : St Storage unit :=
  ensure_usable;;
  let descriptor := si_descriptor image in
  let boundary := metadata descriptor in
  lift (or_invalid (descriptor_validate descriptor));;
  s ← state;
  refuse (last_included_index boundary <=? base_index (sg_manifest s)) InvalidData "snapshot is stale";;
  content ← in_dir (os_read HARDSTATE);
  hs ← lift (decode_hard_state content);
  refuse (is_some_and (sg_manifest s) (fun m => negb (continues_boundary (metadata (mf_snapshot m)) boundary)))
    InvalidData "snapshot membership history is not a consistent extension";;
  refuse (is_some_and (hs_membership hs) (fun before => negb (continues_hard_state before boundary)))
    InvalidData "snapshot contradicts durable committed membership";;
  refuse (current_term hs <? last_included_term boundary) InvalidData "snapshot term exceeds durable hard state";;
  entries ← in_dir (recover_log_at (sg_log_name s) (base_index (sg_manifest s)) (is_some (sg_manifest s)));
  lift (validate_terms entries (base_term (sg_manifest s)) (current_term hs));;
  refuse (negb (suffix_after boundary entries ==? retained_suffix)) InvalidData
    "retained WAL suffix differs from matching-boundary rule";;
  wal ← lift (limited_writes MAX_SNAPSHOT_WAL_BYTES [] (frame_line <$> retained_suffix));
  generation ← lift (match sg_manifest s with
                     | None => IoOk 1
                     | Some m => match checked_add (mf_generation m) 1 with
                                 | Some n => IoOk n
                                 | None => invalid "snapshot generation exhausted"
                                 end
                     end);
  let manifest := mkManifest 1 generation descriptor in
  mutation
    (in_dir (write_immutable (snapshot_name generation) (si_bytes image));;
     in_dir (write_immutable (wal_name generation) wal);;
     in_dir sync_directory;;
     in_dir (publish_file CURRENT_FILE_NEW CURRENT_FILE
               (selection_frame_json (mkManifestFrame (crc32 (selection_json manifest)) manifest)));;
     update (fun s => s <| sg_log_name := wal_name generation |> <| sg_manifest := Some manifest |>);;
     reclaim).
End formats.
