(* ===== verification/StorageFacts.v ===== *)
(** * The checksum, power loss and the log

    The table-driven checksum is the bit-serial one, and detects every burst of
    at most four bytes.  Then what a power loss may leave of a directory, the
    rules of the system calls (each may fail, and what it leaves is then all a
    power loss can find), and the log's lines, read back. *)
From stdpp Require Import pretty.
From S2P Require Import Prelude Quorum Membership Types Node Store Disk Application ApplicationFacts ApplicationSafe ApplicationLog.
From S2P Require Import SnapshotImage Storage.
Local Open Scope N_scope.
Local Open Scope raft_scope.

(** ** The checksum *)

(** The register fed one byte, bit by bit. *)
Definition crc_serial (c b : N) : N := crc_bits 8 (N.lxor c b).
Definition crc32_serial (bs : Bytes) : N := N.lxor (foldl crc_serial 0xFFFFFFFF bs) 0xFFFFFFFF.
Definition byte (b : N) : Prop := b < 256.

Lemma shiftr_lxor_zero a b n : N.shiftr b n = 0 -> N.shiftr (N.lxor a b) n = N.shiftr a n.
Proof. intros H. by rewrite N.shiftr_lxor, H, N.lxor_0_r. Qed.

Lemma crc_bit_lxor a b : crc_bit (N.lxor a b) = N.lxor (crc_bit a) (crc_bit b).
Proof.
  assert (Hone : forall x, N.land x 1 = 0 \/ N.land x 1 = 1).
  { intros x. pose proof (N.land_ones x 1) as E. change (N.ones 1) with 1 in E. rewrite E. assert (x mod 2 ^ 1 < 2) by (by apply N.mod_lt). lia. }
  assert (Hx : N.land (N.lxor a b) 1 = N.lxor (N.land a 1) (N.land b 1)).
  { apply N.bits_inj. intros i. rewrite N.land_spec, !N.lxor_spec, !N.land_spec. by destruct (N.testbit a i), (N.testbit b i), (N.testbit 1 i). }
  unfold crc_bit. rewrite Hx, N.shiftr_lxor. generalize CRC_POLYNOMIAL. intros P.
  destruct (Hone a) as [-> | ->], (Hone b) as [-> | ->]; repeat case_match; try discriminate;
    apply N.bits_inj; intros i; rewrite !N.lxor_spec;
    by destruct (N.testbit P i), (N.testbit (N.shiftr a 1) i), (N.testbit (N.shiftr b 1) i).
Qed.
Lemma crc_bits_lxor k a b : crc_bits k (N.lxor a b) = N.lxor (crc_bits k a) (crc_bits k b).
Proof. revert a b. induction k as [|k IH]; intros a b; [done|]. cbn [crc_bits]. by rewrite crc_bit_lxor, IH. Qed.

Lemma crc_bits_shiftl k h : crc_bits k (N.shiftl h (N.of_nat k)) = h.
Proof.
  revert h. induction k as [|k IH]; intros h; [by rewrite N.shiftl_0_r|]. cbn [crc_bits].
  assert (E : crc_bit (N.shiftl h (N.of_nat (S k))) = N.shiftl h (N.of_nat k)).
  { unfold crc_bit. rewrite Nat2N.inj_succ, N.shiftl_succ_r.
    assert (Hl : N.land (N.double (N.shiftl h (N.of_nat k))) 1 = 0) by (by destruct (N.shiftl h (N.of_nat k))).
    rewrite Hl. cbn [N.eqb]. by destruct (N.shiftl h (N.of_nat k)). }
  by rewrite E, IH.
Qed.
Lemma split_byte c : c = N.lxor (N.shiftl (N.shiftr c 8) 8) (N.land c 0xFF).
Proof.
  apply N.bits_inj. intros i. rewrite N.lxor_spec, N.land_spec. change 0xFF with (N.ones 8).
  destruct (N.lt_ge_cases i 8) as [Hi|Hi].
  - rewrite N.shiftl_spec_low, N.ones_spec_low by lia. by destruct (N.testbit c i).
  - rewrite N.shiftl_spec_high', N.ones_spec_high, N.shiftr_spec' by lia. rewrite N.sub_add by lia.
    by rewrite andb_false_r, xorb_false_r.
Qed.

Definition table_matches : bool :=
  forallb (fun n => default 0 (CRC_TABLE !! n) =? crc_bits 8 (N.of_nat n)) (seq 0 256).
Lemma table_ok : table_matches = true.
Proof. vm_compute. reflexivity. Qed.
Lemma table_lookup i : i < 256 -> default 0 (CRC_TABLE !! N.to_nat i) = crc_bits 8 i.
Proof.
  intros Hi. pose proof table_ok as H. unfold table_matches in H. rewrite forallb_forall in H.
  specialize (H (N.to_nat i)). rewrite N2Nat.id, N.eqb_eq in H. apply H, in_seq. lia.
Qed.

Lemma crc_byte_serial c b : byte b -> crc_byte c b = crc_serial c b.
Proof.
  intros Hb. unfold crc_byte, crc_serial. set (x := N.lxor c b). rewrite table_lookup.
  - rewrite (split_byte x) at 2. rewrite crc_bits_lxor, (crc_bits_shiftl 8).
    unfold x. rewrite N.shiftr_lxor, (N.shiftr_div_pow2 b), N.div_small, N.lxor_0_r by done. apply N.lxor_comm.
  - change 0xFF with (N.ones 8). rewrite N.land_ones. by apply N.mod_lt.
Qed.
Lemma crc_fold_serial bs c : Forall byte bs -> foldl crc_byte c bs = foldl crc_serial c bs.
Proof.
  revert c. induction bs as [|b bs IH]; intros c; [done|]. intros [Hb Hbs]%list.Forall_cons. cbn [foldl].
  by rewrite crc_byte_serial, IH.
Qed.

Lemma lxor_cancel x a b : N.lxor a x = N.lxor b x -> a = b.
Proof. intros E. by rewrite <- (N.lxor_0_r a), <- (N.lxor_0_r b), <- (N.lxor_nilpotent x), <- !N.lxor_assoc, E. Qed.
Lemma lxor_bound n a b : a < 2 ^ n -> b < 2 ^ n -> N.lxor a b < 2 ^ n.
Proof.
  assert (Hl : forall x, x < 2 ^ n -> x = 0 \/ N.log2 x < n).
  { intros x Hx. destruct (decide (x = 0)) as [?|]; [by left|]. right. apply N.log2_lt_pow2; [lia|done]. }
  intros Ha Hb. destruct (Hl a Ha) as [->|La]; [by rewrite N.lxor_0_l|].
  destruct (Hl b Hb) as [->|Lb]; [by rewrite N.lxor_0_r|].
  destruct (decide (N.lxor a b = 0)) as [->|Hn]; [lia|].
  apply N.log2_lt_pow2; [lia|]. eapply N.le_lt_trans; [apply N.log2_lxor|]. by apply N.max_lub_lt.
Qed.
Lemma crc_bit_bound c : c < 2 ^ 32 -> crc_bit c < 2 ^ 32.
Proof.
  intros Hc. assert (Hs : N.shiftr c 1 < 2 ^ 32).
  { rewrite N.shiftr_div_pow2. apply N.Div0.div_lt_upper_bound. change (2 ^ 1) with 2. lia. }
  unfold crc_bit. case_match; [done|]. by apply lxor_bound.
Qed.
Lemma crc_bits_bound k c : c < 2 ^ 32 -> crc_bits k c < 2 ^ 32.
Proof. revert c. induction k as [|k IH]; intros c Hc; [done|]. by apply IH, crc_bit_bound. Qed.
Lemma crc_bit_zero c : c < 2 ^ 32 -> crc_bit c = 0 -> c = 0.
Proof.
  intros Hc. assert (Hs : N.shiftr c 1 < 2 ^ 31).
  { rewrite N.shiftr_div_pow2. apply N.Div0.div_lt_upper_bound. change (2 ^ 1 * 2 ^ 31) with (2 ^ 32). done. }
  unfold crc_bit. case_match eqn:He.
  - apply N.eqb_eq in He. intros H0. pose proof (N.land_ones c 1) as Hm. change (N.ones 1) with 1 in Hm.
    rewrite N.shiftr_div_pow2 in H0. pose proof (N.div_mod' c (2 ^ 1)). lia.
  - intros H0%N.lxor_eq. rewrite <- H0 in Hs. vm_compute in Hs. discriminate.
Qed.
Lemma crc_bits_inj k a b : a < 2 ^ 32 -> b < 2 ^ 32 -> crc_bits k a = crc_bits k b -> a = b.
Proof.
  revert a b. induction k as [|k IH]; intros a b Ha Hb; [done|]. cbn [crc_bits]. intros E.
  apply IH in E; [|by apply crc_bit_bound..].
  apply N.lxor_eq, crc_bit_zero; [by apply lxor_bound|]. rewrite crc_bit_lxor, E. apply N.lxor_nilpotent.
Qed.

(** The bytes of a burst as one word, the first the lowest. *)
Definition burst_word (bs : Bytes) : N := foldr (fun b w => N.lxor b (N.shiftl w 8)) 0 bs.
Lemma crc_fold_burst bs c : foldl crc_serial c bs = crc_bits (8 * length bs) (N.lxor c (burst_word bs)).
Proof.
  revert c. induction bs as [|b bs IH]; intros c; [by cbn; rewrite N.lxor_0_r|].
  change (foldl crc_serial (crc_serial c b) bs = crc_bits (8 * S (length bs)) (N.lxor c (burst_word (b :: bs)))).
  rewrite IH, Nat.mul_succ_r, Nat.add_comm. unfold crc_serial.
  rewrite <- (crc_bits_shiftl 8 (burst_word bs)) at 1. rewrite <- crc_bits_lxor.
  assert (Hadd : forall n m x, crc_bits (n + m) x = crc_bits m (crc_bits n x)).
  { intros n. induction n as [|n IHn]; intros m x; [done|]. apply IHn. }
  rewrite Hadd. cbn [burst_word foldr]. by rewrite N.lxor_assoc.
Qed.
Lemma burst_word_bound bs : Forall byte bs -> burst_word bs < 2 ^ (8 * len64 bs).
Proof.
  unfold len64. induction 1 as [|b bs Hb _ IH]; [done|]. cbn [burst_word foldr length].
  apply lxor_bound.
  - eapply N.lt_le_trans; [apply Hb|]. change 256 with (2 ^ 8). apply N.pow_le_mono_r; lia.
  - rewrite N.shiftl_mul_pow2, Nat2N.inj_succ, N.mul_succ_r, N.pow_add_r. fold (burst_word bs).
    apply N.mul_lt_mono_pos_r; [done|exact IH].
Qed.
Lemma burst_word_inj bs bs' :
  Forall byte bs -> Forall byte bs' -> length bs = length bs' -> burst_word bs = burst_word bs' -> bs = bs'.
Proof.
  assert (Hlow : forall b w, byte b -> N.land (N.lxor b (N.shiftl w 8)) (N.ones 8) = b).
  { intros b w Hb. apply N.bits_inj. intros i. rewrite N.land_spec, N.lxor_spec.
    destruct (N.lt_ge_cases i 8) as [Hi|Hi].
    - rewrite N.shiftl_spec_low, N.ones_spec_low by lia. by destruct (N.testbit b i).
    - rewrite N.ones_spec_high, andb_false_r by lia. symmetry. destruct (decide (b = 0)) as [->|]; [apply N.bits_0|].
      apply N.bits_above_log2. eapply N.lt_le_trans; [|exact Hi]. apply N.log2_lt_pow2; [lia|exact Hb]. }
  intros H. revert bs'. induction H as [|b bs Hb _ IH]; intros [|b' bs'] Hbs' Hl E; try discriminate; [done|].
  apply list.Forall_cons in Hbs' as [Hb' Hbs']. cbn [burst_word foldr] in E. fold (burst_word bs) (burst_word bs') in E.
  assert (b = b') as <- by (rewrite <- (Hlow b (burst_word bs)), E by done; by apply Hlow).
  f_equal. apply IH; [done|by injection Hl|].
  rewrite (N.lxor_comm b), (N.lxor_comm b) in E. apply lxor_cancel in E. rewrite !N.shiftl_mul_pow2 in E. change (2 ^ 8) with 256 in E. lia.
Qed.
Lemma crc_fold_bound bs c : Forall byte bs -> c < 2 ^ 32 -> foldl crc_serial c bs < 2 ^ 32.
Proof.
  intros H. revert c. induction H as [|b bs Hb _ IH]; intros c Hc; [done|]. apply IH, crc_bits_bound, lxor_bound; [done|].
  eapply N.lt_trans; [apply Hb|done].
Qed.
Lemma crc_fold_inj bs a b :
  Forall byte bs -> a < 2 ^ 32 -> b < 2 ^ 32 -> foldl crc_serial a bs = foldl crc_serial b bs -> a = b.
Proof.
  intros H. revert a b. induction H as [|x bs Hx _ IH]; intros a b Ha Hb E; [done|]. cbn [foldl] in E.
  assert (Hx32 : x < 2 ^ 32) by (eapply N.lt_trans; [apply Hx|done]).
  apply IH in E; [|apply crc_bits_bound, lxor_bound; done..].
  apply crc_bits_inj in E; [|apply lxor_bound; done..].
  by apply lxor_cancel in E.
Qed.

(** (C30) The table-driven checksum is the bit-serial one, it is a 32-bit word, and it
    changes when any run of at most four bytes does. *)
Theorem crc32_correct :
  (forall bs, Forall byte bs -> crc32 bs = crc32_serial bs /\ crc32 bs < 2 ^ 32)
  /\ (forall before burst burst' after,
        Forall byte (before ++ burst ++ after) -> Forall byte burst' ->
        length burst = length burst' -> (length burst <= 4)%nat -> burst <> burst' ->
        crc32 (before ++ burst ++ after) <> crc32 (before ++ burst' ++ after)).
Proof.
  split.
  - intros bs H. unfold crc32, crc32_serial. rewrite crc_fold_serial by done. split; [done|].
    apply lxor_bound; [by apply crc_fold_bound|done].
  - intros before burst burst' after (Hp & (Hb & Ha)%list.Forall_app)%list.Forall_app Hb' Hl H4 Hne E. apply Hne.
    assert (Hw : forall bs, Forall byte bs -> (length bs <= 4)%nat -> burst_word bs < 2 ^ 32).
    { intros bs Hbs H. eapply N.lt_le_trans; [by apply burst_word_bound|]. apply N.pow_le_mono_r; unfold len64; lia. }
    apply burst_word_inj; [done..|].
    apply lxor_cancel in E. rewrite !foldl_app, !crc_fold_serial in E by done.
    set (c := foldl crc_serial 0xFFFFFFFF before) in E.
    assert (Hc : c < 2 ^ 32) by (by apply crc_fold_bound).
    apply crc_fold_inj in E; [|done|by apply crc_fold_bound..].
    rewrite !crc_fold_burst, <- Hl in E. apply crc_bits_inj in E; [|apply lxor_bound; [done|apply Hw; [done|lia]]..].
    rewrite (N.lxor_comm c), (N.lxor_comm c) in E. by apply lxor_cancel in E.
Qed.

(** ** What a power loss leaves

    A file keeps a prefix of its contents that covers what was synchronised, or
    what it held before a truncation; a name keeps its binding, or the one it
    had when the directory was last synchronised.  Names are independent. *)

Definition file_survives (f : File) (content : Bytes) : Prop :=
  (exists n, (N.to_nat (fl_synced f) <= n)%nat /\ content = take n (fl_content f)) \/ fl_prior f = Some content.
Definition survives (d : Directory) (m : gmap string Bytes) : Prop :=
  forall name,
    (exists before, dr_stale d !! name = Some before /\ m !! name = before)
    \/ match dr_files d !! name with
       | Some f => exists content, file_survives f content /\ m !! name = Some content
       | None => m !! name = None
       end.
Definition contents (d : Directory) : gmap string Bytes := fl_content <$> dr_files d.
(** The directory a process finds after a restart. *)
Definition booted (m : gmap string Bytes) (faults : list (option N)) : Directory :=
  mkDirectory ((fun content => mkFile content (len64 content) None) <$> m) ∅ faults.

Definition settled (f : File) : Prop := fl_synced f = len64 (fl_content f) /\ fl_prior f = None.
(** Everything is on the device. *)
Definition quiet (d : Directory) : Prop := dr_stale d = ∅ /\ map_Forall (fun _ f => settled f) (dr_files d).

Lemma file_settled f content : settled f -> file_survives f content -> content = fl_content f.
Proof.
  intros [Hs Hp] [(n & Hn & ->)|E]; [|congruence]. apply take_ge. rewrite Hs in Hn. unfold len64 in Hn. lia.
Qed.
Lemma survives_at d m name :
  dr_stale d !! name = None -> (forall f, dr_files d !! name = Some f -> settled f) ->
  survives d m -> m !! name = contents d !! name.
Proof.
  intros Hs Hf Hm. unfold contents. rewrite lookup_fmap. destruct (Hm name) as [(b & E & _)|Hn]; [congruence|].
  destruct (dr_files d !! name) as [f|]; [|done]. destruct Hn as (content & Hc & ->). cbn. f_equal.
  apply file_settled; [by apply Hf|done].
Qed.
Lemma quiet_survives d m : quiet d -> survives d m -> m = contents d.
Proof.
  intros [Hs Hf] Hm. apply map_eq. intros name. apply survives_at; [by rewrite Hs| |done]. intros f. apply Hf.
Qed.
Lemma booted_quiet m faults : quiet (booted m faults).
Proof.
  split; [done|]. intros name f. cbn. rewrite lookup_fmap. intros (c & _ & ->)%fmap_Some. done.
Qed.
Lemma booted_contents m faults : contents (booted m faults) = m.
Proof. unfold contents, booted. cbn. rewrite <- map_fmap_compose. apply map_fmap_id. Qed.

(** Computes the fields of an updated directory. *)
Ltac fields := unfold upd; cbn [dr_files dr_stale dr_faults].

(** Names outside [T] are as they were. *)
Definition untouched (d0 d : Directory) (name : string) : Prop :=
  dr_stale d !! name = dr_stale d0 !! name /\ dr_files d !! name = dr_files d0 !! name.
Definition touched (T : list string) (d0 d : Directory) : Prop := forall name, name ∉ T -> untouched d0 d name.

Lemma touched_survives T d0 d m name :
  quiet d0 -> touched T d0 d -> survives d m -> name ∉ T -> m !! name = contents d0 !! name.
Proof.
  intros [Hs0 Hq] Ht Hm Hn. destruct (Ht name Hn) as [Hs Hf]. unfold contents.
  rewrite lookup_fmap, <- Hf, <- lookup_fmap. apply survives_at; [by rewrite Hs, Hs0| |done]. rewrite Hf. intros f. apply Hq.
Qed.
Lemma touched_refl T d : touched T d d.
Proof. done. Qed.
Lemma touched_mono T T' d0 d : (forall x, x ∈ T -> x ∈ T') -> touched T d0 d -> touched T' d0 d.
Proof. intros Hsub Ht name Hn. apply Ht. auto. Qed.
Lemma touched_trans T d0 d1 d2 : touched T d0 d1 -> touched T d1 d2 -> touched T d0 d2.
Proof. intros H1 H2 name Hn. destruct (H1 name Hn) as [], (H2 name Hn) as []. split; congruence. Qed.

Lemma stale_files name d : dr_files (stale name d) = dr_files d.
Proof. unfold stale. by case_match. Qed.
Lemma stale_faults name d : dr_faults (stale name d) = dr_faults d.
Proof. unfold stale. by case_match. Qed.
Lemma stale_other name name' d : name <> name' -> dr_stale (stale name d) !! name' = dr_stale d !! name'.
Proof. intros Hn. unfold stale. case_match; [done|]. fields. by rewrite lookup_insert_ne. Qed.

Section touched.
Context (T : list string) (d0 d : Directory) (name : string).
Hypothesis Ht : touched T d0 d.
Hypothesis HT : name ∈ T.

Lemma create_touched : touched T d0 (create_effect name d).
Proof using All.
  intros n Hn. assert (name <> n) by (by intros ->). destruct (Ht n Hn) as [Hs Hf].
  unfold create_effect. case_match; split; fields; rewrite ?lookup_insert_ne, ?stale_files, ?stale_other; done.
Qed.
Lemma write_touched data : touched T d0 (write_effect name data d).
Proof using All.
  intros n Hn. assert (name <> n) by (by intros ->). destruct (Ht n Hn) as [Hs Hf].
  unfold write_effect. case_match; split; fields; rewrite ?lookup_insert_ne; done.
Qed.
Lemma sync_touched : touched T d0 (sync_effect name d).
Proof using All.
  intros n Hn. assert (name <> n) by (by intros ->). destruct (Ht n Hn) as [Hs Hf].
  unfold sync_effect. case_match; split; fields; rewrite ?lookup_insert_ne; done.
Qed.
Lemma set_len_touched length : touched T d0 (set_len_effect name length d).
Proof using All.
  intros n Hn. assert (name <> n) by (by intros ->). destruct (Ht n Hn) as [Hs Hf].
  unfold set_len_effect. case_match; split; fields; rewrite ?lookup_insert_ne; done.
Qed.
Lemma remove_touched : touched T d0 (remove_effect name d).
Proof using All.
  intros n Hn. assert (name <> n) by (by intros ->). destruct (Ht n Hn) as [Hs Hf].
  unfold remove_effect. split; fields; rewrite ?lookup_delete_ne, ?stale_files, ?stale_other; done.
Qed.
Lemma rename_touched to : to ∈ T -> touched T d0 (rename_effect name to d).
Proof using All.
  intros HT' n Hn. assert (name <> n) by (by intros ->). assert (to <> n) by (by intros ->).
  destruct (Ht n Hn) as [Hs Hf].
  unfold rename_effect. case_match; [|done]. split; fields; rewrite ?lookup_insert_ne, ?lookup_delete_ne, ?stale_other; done.
Qed.
End touched.

(** *** Rules for the system calls

    [F] holds of a directory whose calls may fail. *)
Definition within (F : Prop) (d : Directory) : Prop := forall n, Some n ∈ dr_faults d -> F.
(** The directory with one outcome consumed. *)
Definition ran (d : Directory) : Directory := d <| dr_faults := tail (dr_faults d) |>.

Section calls.
Context {F : Prop}.
Lemma within_ran d : within F d -> within F (ran d).
Proof.
  intros Hw n Hn. apply (Hw n). cbn in Hn. destruct (dr_faults d) as [|o l]; [done|]. by right.
Qed.
Lemma within_same d d' : dr_faults d' = dr_faults d -> within F d -> within F d'.
Proof. unfold within. by intros ->. Qed.

Lemma post_syscall effect partial Q E d :
  within F d -> Q tt (effect (ran d)) -> (F -> forall n, E (partial n (ran d))) ->
  post (syscall effect partial) Q E d.
Proof.
  intros Hw HQ HE. unfold post, syscall. fold (ran d).
  destruct (dr_faults d) as [|[n|] l] eqn:Hd; try exact HQ.
  apply HE, (Hw n). rewrite Hd. by left.
Qed.
End calls.

Lemma create_faults name d : dr_faults (create_effect name d) = dr_faults d.
Proof. unfold create_effect. repeat case_match; fields; by rewrite ?stale_faults. Qed.
Lemma write_faults name data d : dr_faults (write_effect name data d) = dr_faults d.
Proof. unfold write_effect. repeat case_match; fields; by rewrite ?stale_faults. Qed.
Lemma sync_faults name d : dr_faults (sync_effect name d) = dr_faults d.
Proof. unfold sync_effect. repeat case_match; fields; by rewrite ?stale_faults. Qed.
Lemma set_len_faults name length d : dr_faults (set_len_effect name length d) = dr_faults d.
Proof. unfold set_len_effect. repeat case_match; fields; by rewrite ?stale_faults. Qed.
Lemma rename_faults name to d : dr_faults (rename_effect name to d) = dr_faults d.
Proof. unfold rename_effect. repeat case_match; fields; by rewrite ?stale_faults. Qed.
Lemma remove_faults name d : dr_faults (remove_effect name d) = dr_faults d.
Proof. unfold remove_effect. repeat case_match; fields; by rewrite ?stale_faults. Qed.
#[export] Hint Rewrite create_faults write_faults sync_faults set_len_faults rename_faults remove_faults : faults.

Lemma within_cleared F d stales : within F d -> within F (d <| dr_stale := stales |>).
Proof. done. Qed.

(** A step that may change [name] only. *)
Ltac effect_step :=
  lazymatch goal with
  | |- within _ (ran _) => apply within_ran
  | |- within _ (id _) => unfold id
  | H : within _ ?d |- within _ ?d => exact H
  | |- within _ (_ <| dr_stale := _ |>) => apply within_cleared
  | |- within _ _ => eapply within_same; [autorewrite with faults; reflexivity|]
  | |- touched _ _ (if ?b then _ else _) => destruct b
  | |- touched _ _ ((if ?b then _ else _) _) => destruct b
  | |- touched _ _ (id _) => unfold id
  | |- touched _ _ (create_effect _ _) => apply create_touched
  | |- touched _ _ (write_effect _ _ _) => apply write_touched
  | |- touched _ _ (sync_effect _ _) => apply sync_touched
  | |- touched _ _ (set_len_effect _ _ _) => apply set_len_touched
  | |- touched _ _ (rename_effect _ _ _) => apply rename_touched
  | |- touched _ _ (remove_effect _ _) => apply remove_touched
  | H : touched ?T ?d0 ?d |- touched ?T ?d0 (ran ?d) => exact H
  | H : touched ?T ?d0 ?d |- touched ?T ?d0 ?d => exact H
  | |- _ ∈ _ => set_solver
  end.
Ltac effects := repeat effect_step.

(** [swapped T destination data old m]: [m] is [old] outside [T], up to
    [destination], which may hold [data]. *)
Definition swapped (T : list string) (destination : string) (data : Bytes) (old m : gmap string Bytes) : Prop :=
  forall name, name ∉ T -> m !! name = old !! name \/ (name = destination /\ m !! name = Some data).

(** The directory between the rename and its synchronisation. *)
Record renamed (d d' : Directory) (temporary destination : string) (data : Bytes) : Prop := {
  rn_touched : touched [temporary; destination] d d';
  rn_destination : dr_files d' !! destination = Some (mkFile data (len64 data) None);
  rn_before : dr_stale d' !! destination = Some (contents d !! destination);
  rn_temporary : dr_files d' !! temporary = None;
}.
Lemma renamed_ran d d' temporary destination data :
  renamed d d' temporary destination data -> renamed d (ran d') temporary destination data.
Proof. intros []. by split. Qed.
Lemma rename_renamed d d' temporary destination data :
  quiet d -> temporary <> destination -> touched [temporary] d d' ->
  dr_files d' !! temporary = Some (mkFile data (len64 data) None) ->
  renamed d (rename_effect temporary destination d') temporary destination data.
Proof.
  intros [Hq _] Hne Ht Hf. destruct (Ht destination) as [Hs Hd]; [set_solver|].
  assert (T2 : touched [temporary; destination] d d') by (eapply touched_mono; [|exact Ht]; set_solver).
  split.
  - effects.
  - unfold rename_effect. rewrite Hf. fields. by rewrite lookup_insert_eq.
  - unfold rename_effect. rewrite Hf. fields. rewrite stale_other by done. unfold stale.
    rewrite Hs, Hq, lookup_empty. fields.
    by rewrite lookup_insert_eq, Hd, <- lookup_fmap.
  - unfold rename_effect. rewrite Hf. fields. rewrite lookup_insert_ne by done. apply lookup_delete_eq.
Qed.
Lemma renamed_swapped d d' temporary destination data m :
  quiet d -> renamed d d' temporary destination data -> survives d' m ->
  swapped [temporary] destination data (contents d) m.
Proof.
  intros Hq [Ht Hf Hs Hn] Hm name Hname. destruct (decide (name = destination)) as [->|Hd].
  - destruct (Hm destination) as [(b & E & ->)|Hc].
    + left. congruence.
    + rewrite Hf in Hc. destruct Hc as (c & Hc & ->). right. split; [done|]. f_equal.
      by apply (file_settled (mkFile data (len64 data) None)).
  - left. eapply touched_survives; [done..|]. set_solver.
Qed.
Lemma renamed_synced d d' temporary destination data :
  quiet d -> temporary <> destination -> renamed d d' temporary destination data ->
  let d' := d' <| dr_stale := ∅ |> in
  quiet d' /\ contents d' = <[destination := data]> (delete temporary (contents d)).
Proof.
  intros [_ Hq] Hne [Ht Hf _ Hn] d''. unfold d'', quiet, contents. fields.
  assert (Hfile : forall name, dr_files d' !! name
      = <[destination := mkFile data (len64 data) None]> (delete temporary (dr_files d)) !! name).
  { intros name. destruct (decide (name = destination)) as [->|H1]; [by rewrite lookup_insert_eq|].
    rewrite lookup_insert_ne by done. destruct (decide (name = temporary)) as [->|H2]; [by rewrite lookup_delete_eq|].
    rewrite lookup_delete_ne by done. apply Ht. set_solver. }
  apply map_eq in Hfile. rewrite Hfile. split.
  - split; [done|]. apply map_Forall_insert_2; [done|]. by apply map_Forall_delete.
  - by rewrite fmap_insert, fmap_delete.
Qed.

Lemma created_post {A} (k : St Directory A) F d name data Q E :
  within F d ->
  (forall d', touched [name] d d' -> within F d' -> (exists p, dr_files d' !! name = Some (mkFile data 0 p)) ->
    post k Q E d') ->
  (forall d', touched [name] d d' -> F -> E d') ->
  post (os_create name;; os_write name data;; k) Q E d.
Proof.
  intros Hw Hk HE. assert (T0 : touched [name] d d) by apply touched_refl.
  apply post_bind. eapply post_syscall; [done| |intros HF n; apply HE; [|done]; effects].
  set (d1 := create_effect name (ran d)).
  assert (T1 : touched [name] d d1) by (unfold d1; effects).
  assert (W1 : within F d1) by (unfold d1; effects).
  assert (F1 : exists p, dr_files d1 !! name = Some (mkFile [] 0 p)).
  { unfold d1, create_effect. case_match; fields; rewrite lookup_insert_eq; by eexists. }
  clearbody d1. destruct F1 as [p1 F1].
  apply post_bind. eapply post_syscall; [done| |intros HF n; apply HE; [|done]; effects].
  apply Hk; [effects..|]. exists p1. unfold write_effect, ran. fields. rewrite F1. fields. by rewrite lookup_insert_eq.
Qed.
Lemma synced_at name d content n p :
  dr_files d !! name = Some (mkFile content n p) ->
  dr_files (sync_effect name d) !! name = Some (mkFile content (len64 content) None).
Proof. intros Hf. unfold sync_effect. rewrite Hf. fields. by rewrite lookup_insert_eq. Qed.

Lemma write_immutable_post F d name data :
  within F d ->
  post (write_immutable name data)
    (fun _ d' => within F d' /\ touched [name] d d' /\ dr_files d !! name = None
       /\ dr_files d' !! name = Some (mkFile data (len64 data) None))
    (fun d' => touched [] d d' \/ touched [name] d d' /\ dr_files d !! name = None) d.
Proof.
  intros Hw. unfold write_immutable, os_create_new.
  destruct (dr_files d !! name) as [f|] eqn:Hf.
  { apply post_bind. apply post_bind, post_state. rewrite Hf. apply post_fails. by left. }
  unfold post, mbind, St_bind, state. rewrite Hf.
  apply (created_post (os_sync name) F); [done| |by right].
  intros d2 T2 W2 [p F2]. eapply post_syscall; [done| |intros HF n; right; split; [exact T2|done]].
  split; [effects|]. split; [effects|]. split; [done|]. by apply (synced_at _ (ran d2) _ _ _ F2).
Qed.

Lemma publish_file_post F d temporary destination data :
  quiet d -> within F d -> filename_ok temporary = true -> filename_ok destination = true ->
  temporary <> destination ->
  post (publish_file temporary destination data)
    (fun _ d' => within F d' /\ quiet d' /\ contents d' = <[destination := data]> (delete temporary (contents d)))
    (fun d' => F /\ forall m, survives d' m -> swapped [temporary] destination data (contents d) m) d.
Proof.
  intros Hq Hw Hnt Hnd Hne. unfold publish_file. rewrite Hnt, Hnd, (proj2 (eqb_false _ _) Hne).
  assert (Herr : forall d', touched [temporary] d d' -> F ->
    F /\ forall m, survives d' m -> swapped [temporary] destination data (contents d) m).
  { intros d' Ht HF. split; [done|]. intros m Hm name Hn. left. by eapply touched_survives. }
  do 3 (apply post_bind, post_refuse; [done|]; intros _).
  eapply created_post; [done| |exact Herr]. intros d2 T2 W2 [p F2].
  apply post_bind. eapply post_syscall; [done| |intros HF n; by apply (Herr (ran d2))].
  set (d3 := sync_effect temporary (ran d2)).
  assert (T3 : touched [temporary] d d3) by (unfold d3; effects).
  assert (W3 : within F d3) by (unfold d3; effects).
  assert (F3 := synced_at _ (ran d2) _ _ _ F2). fold d3 in F3. clearbody d3.
  assert (R4 := rename_renamed d (ran d3) temporary destination data Hq Hne T3 F3).
  assert (Herr4 : forall d', renamed d d' temporary destination data -> F ->
    F /\ forall m, survives d' m -> swapped [temporary] destination data (contents d) m).
  { intros d' Hr HF. split; [done|]. intros m Hm. by eapply renamed_swapped. }
  apply post_bind. unfold os_rename. apply post_bind, post_state. rewrite F3.
  eapply post_syscall; [done| |intros HF n; cbv beta; destruct (n =? 0); [by apply (Herr (ran d3))|by apply Herr4]].
  eapply post_syscall; [effects| |intros HF n; by apply Herr4, HF; apply renamed_ran].
  split; [effects|]. by apply (renamed_synced d (ran (rename_effect temporary destination (ran d3)))); [..|apply renamed_ran].
Qed.

(** ** The log *)

(** What [serde_json] promises of the store's formats. *)
Class StorageLaws `{StorageFormats} : Prop := {
  hard_state_inverse : forall hs, hs_membership hs = None ->
    exists v, json_parse (hard_state_json hs) = Some v /\ json_has v "version" = false
      /\ json_has v "hard_state" = false /\ json_has v "membership" = false /\ hard_state_of v = Some hs;
  envelope_inverse : forall e,
    exists v, json_parse (envelope_json e) = Some v /\ json_has v "version" = true /\ envelope_of v = Some e;
  (** control characters are escaped *)
  entry_one_line : forall e, 0x0A ∉ entry_json e;
  frame_inverse : forall e, frame_parse (frame_text e) = Some (mkFrame (crc32 (entry_json e)) e);
  selection_inverse : forall f, selection_frame_parse (selection_frame_json f) = Some f;
}.

Lemma pretty_digits (n : N) : Forall (fun b => between 0x30 0x39 b = true) (bytes (pretty n)).
Proof.
  assert (Hgo : forall x s, Forall (fun b => between 0x30 0x39 b = true) (bytes s) ->
    Forall (fun b => between 0x30 0x39 b = true) (bytes (pretty_N_go x s))).
  { intros x. induction (N.lt_wf_0 x) as [x _ IH]. intros s Hs. destruct (decide (x = 0)) as [->|Hx]; [done|].
    rewrite pretty_N_go_step by lia. apply IH; [apply N.div_lt; lia|].
    change (bytes (String ?c s)) with (Ascii.N_of_ascii c :: bytes s). apply list.Forall_cons. split; [|done].
    unfold pretty_N_char. by repeat case_match. }
  unfold pretty, pretty_N. case_decide; [by repeat constructor|]. by apply Hgo.
Qed.

(** The indices follow [previous] without a gap. *)
Fixpoint continuous (previous : LogIndex) (es : list Entry) : bool :=
  match es with
  | [] => true
  | e :: es => (checked_add previous 1 ==? Some (e_index e)) && continuous (e_index e) es
  end.

Section log.
Context `{StorageLaws}.

Definition log_lines (es : list Entry) : Bytes := concat (frame_line <$> es).
Lemma log_lines_app es es' : log_lines (es ++ es') = log_lines es ++ log_lines es'.
Proof. unfold log_lines. by rewrite fmap_app, concat_app. Qed.

Lemma frame_one_line e : 0x0A ∉ frame_text e.
Proof.
  assert (Hd : 0x0A ∉ bytes (pretty (crc32 (entry_json e)))).
  { intros Hd. pose proof (pretty_digits (crc32 (entry_json e))) as HF. rewrite list.Forall_forall in HF.
    by apply HF in Hd. }
  unfold frame_text. rewrite !not_elem_of_app.
  split_and!; try exact Hd; try exact (entry_one_line e); by apply contains_false.
Qed.

Lemma split_line_app line rest : 0x0A ∉ line -> split_line (line ++ 0x0A :: rest) = Some (line, rest).
Proof.
  induction line as [|b line IH]; intros Hn; [done|]. apply not_elem_of_cons in Hn as [Hb Hn].
  cbn [app split_line]. rewrite (proj2 (N.eqb_neq b 0x0A)) by congruence. by rewrite IH.
Qed.
Lemma split_line_None line : 0x0A ∉ line -> split_line line = None.
Proof.
  induction line as [|b line IH]; intros Hn; [done|]. apply not_elem_of_cons in Hn as [Hb Hn].
  cbn [split_line]. rewrite (proj2 (N.eqb_neq b 0x0A)) by congruence. by rewrite IH.
Qed.
Lemma parse_frame_text e previous :
  checked_add previous 1 = Some (e_index e) -> parse_frame (frame_text e) previous = Ok e.
Proof.
  intros Hp. unfold parse_frame. rewrite frame_inverse. cbn [fr_entry fr_crc].
  by rewrite N.eqb_refl, Hp, (proj2 (eqb_true _ _) eq_refl).
Qed.
(** A log is read back; an unterminated tail is cut. *)
Lemma recover_lines_log es fuel previous offset tail :
  continuous previous es = true -> 0x0A ∉ tail -> (length (log_lines es ++ tail) < fuel)%nat ->
  recover_lines fuel previous offset (log_lines es ++ tail)
  = IoOk (es, if decide (tail = []) then None else Some (offset + len64 (log_lines es))).
Proof.
  revert fuel previous offset. induction es as [|e es IH]; intros [|fuel] previous offset Hc Ht Hf; try (exfalso; lia).
  - cbn [log_lines concat fmap list_fmap app] in *. destruct tail as [|b tail]; [done|].
    cbn [recover_lines]. rewrite split_line_None by done. case_decide; [done|]. by rewrite N.add_0_r.
  - cbn [continuous] in Hc. apply andb_true_iff in Hc as [Hi Hc]. apply (proj1 (eqb_true _ _)) in Hi.
    assert (E : log_lines (e :: es) ++ tail = frame_text e ++ 0x0A :: (log_lines es ++ tail))
      by (unfold log_lines, frame_line; cbn; by rewrite <- !app_assoc).
    assert (El : len64 (log_lines (e :: es)) = len64 (frame_text e) + 1 + len64 (log_lines es))
      by (change (log_lines (e :: es)) with ((frame_text e ++ [0x0A]) ++ log_lines es);
          by rewrite !len64_app).
    rewrite E in *. rewrite length_app in Hf. cbn [length] in Hf. cbn [recover_lines].
    rewrite split_line_app by apply frame_one_line. rewrite parse_frame_text by done.
    destruct (frame_text e ++ 0x0A :: log_lines es ++ tail) as [|b l] eqn:Hl.
    { apply (f_equal length) in Hl. rewrite length_app in Hl. cbn in Hl. lia. }
    cbn [or_invalid mbind Io_bind]. rewrite IH by (done || lia). rewrite El. cbn [mbind Io_bind].
    case_decide; [done|]. do 3 f_equal. lia.
Qed.
(** A prefix of a log is a log with an unterminated tail. *)
Lemma take_log n es : exists k tail, take n (log_lines es) = log_lines (take k es) ++ tail /\ 0x0A ∉ tail.
Proof.
  revert n. induction es as [|e es IH]; intros n.
  { exists 0%nat, []. split; [by destruct n|apply not_elem_of_nil]. }
  change (log_lines (e :: es)) with (frame_line e ++ log_lines es).
  destruct (decide (n < length (frame_line e))%nat) as [Hn|Hn].
  - exists 0%nat, (take n (frame_line e)). rewrite take_app_le by lia. split; [done|].
    unfold frame_line in *. rewrite length_app in Hn. cbn [length] in Hn. rewrite take_app_le by lia.
    intros Hin. apply (frame_one_line e). rewrite <- (take_drop n (frame_text e)). apply elem_of_app. by left.
  - destruct (IH (n - length (frame_line e))%nat) as (k & tail & E & Ht). exists (S k), tail. split; [|done].
    rewrite take_app_ge, E by lia. cbn [take]. change (log_lines (e :: take k es)) with (frame_line e ++ log_lines (take k es)).
    by rewrite app_assoc.
Qed.

Lemma continuous_app previous es es' :
  continuous previous (es ++ es')
  = continuous previous es && continuous (default previous (e_index <$> list.last es)) es'.
Proof.
  revert previous. induction es as [|e es IH]; intros previous; [done|]. cbn [app continuous]. rewrite IH.
  rewrite andb_assoc. f_equal. destruct es as [|e' es]; [done|].
  change (list.last (e :: e' :: es)) with (list.last (e' :: es)). by destruct (list.last (e' :: es)) eqn:Hl;
    [|apply last_None in Hl].
Qed.
Lemma continuous_take previous es k : continuous previous es = true -> continuous previous (take k es) = true.
Proof.
  rewrite <- (take_drop k es) at 1. rewrite continuous_app. by intros [Hc _]%andb_true_iff.
Qed.
Lemma terms_app es es' previous current :
  validate_terms (es ++ es') previous current
  = (validate_terms es previous current;; validate_terms es' (default previous (e_term <$> list.last es)) current).
Proof.
  revert previous. induction es as [|e es IH]; intros previous; [done|]. cbn [app validate_terms].
  case_match; [done|]. rewrite IH. destruct es as [|e' es]; [done|].
  change (list.last (e :: e' :: es)) with (list.last (e' :: es)). by destruct (list.last (e' :: es)) eqn:Hl;
    [|apply last_None in Hl].
Qed.
Lemma terms_take es k previous current :
  validate_terms es previous current = IoOk tt -> validate_terms (take k es) previous current = IoOk tt.
Proof.
  rewrite <- (take_drop k es) at 1. rewrite terms_app. by intros ([] & Hc & _)%Io_bind_Ok.
Qed.
Lemma terms_mono es previous current current' :
  current <= current' -> validate_terms es previous current = IoOk tt -> validate_terms es previous current' = IoOk tt.
Proof.
  intros Hc. revert previous. induction es as [|e es IH]; intros previous; [done|]. cbn [validate_terms].
  destruct (N.ltb_spec (e_term e) previous); [done|]. destruct (N.ltb_spec current (e_term e)); [done|].
  rewrite (proj2 (N.ltb_ge _ _)) by lia. apply IH.
Qed.
End log.

(** ** Recovery *)

Definition log_name_of (manifest : option Manifest) : string :=
  match manifest with Some m => wal_name (mf_generation m) | None => LOG end.
(** The names recovery reads. *)
Definition live (manifest : option Manifest) : list string :=
  HARDSTATE :: CURRENT_FILE :: log_name_of manifest
  :: match manifest with Some m => [snapshot_name (mf_generation m)] | None => [] end.

(** A directory whose live names hold [m]. *)
Definition steady (F : Prop) (names : list string) (m : gmap string Bytes) (d : Directory) : Prop :=
  within F d /\ quiet d /\ forall name, name ∈ names -> contents d !! name = m !! name.
(** A power loss leaves the live names holding [m]. *)
Definition keeps_names (names : list string) (m : gmap string Bytes) (d : Directory) : Prop :=
  forall m', survives d m' -> forall name, name ∈ names -> m' !! name = m !! name.

Lemma steady_keeps F names m d : steady F names m d -> keeps_names names m d.
Proof. intros (_ & Hq & Hn) m' Hm. by rewrite (quiet_survives d m'). Qed.
Lemma steady_ran F names m d : steady F names m d -> steady F names m (ran d).
Proof. intros (Hw & Hq & Hn). split; [by apply within_ran|]. by split. Qed.
Lemma steady_file F names m d name : steady F names m d -> name ∈ names ->
  match m !! name with
  | Some c => dr_files d !! name = Some (mkFile c (len64 c) None)
  | None => dr_files d !! name = None
  end.
Proof.
  intros (_ & (_ & Hf) & Hn) Hin. rewrite <- (Hn name Hin). unfold contents. rewrite lookup_fmap.
  destruct (dr_files d !! name) as [[c s p]|] eqn:Hd; [|done]. destruct (Hf _ _ Hd) as [Hs Hp]. cbn in *. by subst.
Qed.
(** Another name changes, and the directory is synchronised. *)
Lemma steady_other F names m d d' :
  steady F names m d -> (forall name, name ∈ names -> dr_files d' !! name = dr_files d !! name) ->
  within F d' -> quiet d' -> steady F names m d'.
Proof.
  intros (_ & _ & Hn) Hf Hw Hq. split; [done|]. split; [done|]. intros name Hin. rewrite <- (Hn name Hin).
  unfold contents. by rewrite !lookup_fmap, Hf.
Qed.
Lemma touched_keeps F T names m d d' :
  steady F names m d -> touched T d d' -> (forall name, name ∈ names -> name ∉ T) -> keeps_names names m d'.
Proof.
  intros (_ & Hq & Hn) Ht HT m' Hm name Hin. rewrite <- (Hn name Hin).
  eapply touched_survives; [exact Hq|exact Ht|exact Hm|auto].
Qed.

Lemma read_cases F d name : within F d ->
  match dr_files d !! name with
  | Some f => os_read name d = (IoOk (fl_content f), ran d)
  | None => os_read name d = (IoErr NotFound "no such file", ran d)
  end \/ F /\ os_read name d = (IoErr OtherError io_failure, ran d).
Proof.
  intros Hw. unfold os_read, mbind, St_bind, state, syscall. fold (ran d). unfold unchanged, id.
  destruct (dr_faults d) as [|[n|] l] eqn:Hd.
  - left. change (dr_files (ran d)) with (dr_files d). by case_match.
  - right. split; [|done]. apply (Hw n). rewrite Hd. by left.
  - left. change (dr_files (ran d)) with (dr_files d). by case_match.
Qed.
Lemma read_post F d name Q E :
  within F d ->
  match dr_files d !! name with Some f => Q (fl_content f) (ran d) | None => E (ran d) end ->
  (F -> E (ran d)) -> post (os_read name) Q E d.
Proof.
  intros Hw HQ HE. unfold post. destruct (read_cases F d name Hw) as [Hr|[HF ->]]; [|by apply HE].
  by destruct (dr_files d !! name); rewrite Hr.
Qed.
Lemma read_bounded_post F names m d name content maximum Q E :
  steady F names m d -> name ∈ names -> m !! name = Some content -> len64 content <= maximum ->
  Q content (ran d) -> (F -> E (ran d)) -> post (read_bounded name maximum) Q E d.
Proof.
  intros Hs Hin Hm Hl HQ HE. unfold read_bounded. apply post_bind. eapply (read_post F); [apply Hs| |done].
  pose proof (steady_file _ _ _ _ _ Hs Hin) as Hf. rewrite Hm in Hf. rewrite Hf. cbn [fl_content].
  assert (Ht : take (N.to_nat (maximum + 1)) content = content) by (apply take_ge; unfold len64 in Hl; lia).
  rewrite Ht. apply post_bind, post_refuse; intros Hb; [apply N.ltb_lt in Hb; lia|]. exact HQ.
Qed.

Lemma sync_directory_post F names m d d' :
  steady F names m d -> (forall name, name ∈ names -> dr_files d' !! name = dr_files d !! name) ->
  within F d' -> map_Forall (fun _ f => settled f) (dr_files d') -> keeps_names names m d' ->
  post sync_directory (fun _ => steady F names m) (fun d' => F /\ keeps_names names m d') d'.
Proof.
  intros Hs Hf Hw Hq Hk. eapply post_syscall; [done| |intros HF n; split; [done|exact Hk]].
  eapply steady_other; [done|exact Hf|effects|by split].
Qed.
Lemma remove_orphan_post F names m d name :
  steady F names m d -> name ∉ names ->
  post (remove_orphan name) (fun _ => steady F names m) (fun d' => F /\ keeps_names names m d') d.
Proof.
  intros Hs Hn. assert (Hw := proj1 Hs). unfold remove_orphan, os_remove, mbind, St_bind, state, post.
  destruct (dr_files d !! name) as [f|] eqn:Hf; [|done].
  assert (Hr : keeps_names names m (remove_effect name (ran d))).
  { eapply (touched_keeps F [name]); [done| |set_solver].
    apply (remove_touched [name] d (ran d)); [by split|set_solver]. }
  assert (Hsync : post sync_directory (fun _ => steady F names m) (fun d' => F /\ keeps_names names m d')
                    (remove_effect name (ran d))).
  { eapply sync_directory_post; [done| |effects| |done].
    - intros x Hx. unfold remove_effect. fields. rewrite lookup_delete_ne; [done|]. by intros ->.
    - unfold remove_effect. fields. apply map_Forall_delete, Hs. }
  unfold syscall. fold (ran d). destruct (dr_faults d) as [|[n|] l] eqn:Hd; try exact Hsync.
  split; [apply (Hw n); rewrite Hd; by left|]. case_match; [|done]. by eapply steady_keeps, steady_ran.
Qed.

Lemma survives_file d m name f :
  dr_stale d !! name = None -> dr_files d !! name = Some f -> survives d m ->
  exists content, file_survives f content /\ m !! name = Some content.
Proof. intros Hs Hf Hm. destruct (Hm name) as [(b & E & _)|Hn]; [congruence|]. by rewrite Hf in Hn. Qed.
(** One synchronised file differs. *)
Lemma rewritten_quiet d d' name content :
  quiet d -> touched [name] d d' -> dr_files d' !! name = Some (mkFile content (len64 content) None) ->
  dr_stale d' !! name = None -> quiet d' /\ contents d' = <[name := content]> (contents d).
Proof.
  intros [Hst Hq] Ht Hf Hs.
  assert (Hfile : forall n, dr_files d' !! n = <[name := mkFile content (len64 content) None]> (dr_files d) !! n).
  { intros n. destruct (decide (n = name)) as [->|Hn]; [by rewrite lookup_insert_eq|].
    rewrite lookup_insert_ne by done. apply Ht. set_solver. }
  apply map_eq in Hfile. unfold quiet, contents. rewrite Hfile, fmap_insert. split; [|done]. split.
  - apply map_eq. intros n. rewrite lookup_empty. destruct (decide (n = name)) as [->|Hn]; [done|].
    destruct (Ht n) as [-> _]; [set_solver|]. by rewrite Hst.
  - by apply map_Forall_insert_2.
Qed.

Lemma truncate_at_post F d name content offset :
  quiet d -> within F d -> dr_files d !! name = Some (mkFile content (len64 content) None) -> offset <= len64 content ->
  let cut := take (N.to_nat offset) content in
  post (truncate_at name offset)
    (fun _ d' => within F d' /\ quiet d' /\ contents d' = <[name := cut]> (contents d))
    (fun d' => F /\ touched [name] d d' /\ forall m, survives d' m -> m !! name = Some content \/ m !! name = Some cut) d.
Proof.
  intros Hq Hw Hf Ho cut. assert (Hs0 : dr_stale d !! name = None) by (by rewrite (proj1 Hq)).
  assert (Hsame : forall d', touched [name] d d' -> dr_stale d' !! name = None -> dr_files d' !! name = dr_files d !! name ->
    F -> F /\ touched [name] d d' /\ forall m, survives d' m -> m !! name = Some content \/ m !! name = Some cut).
  { intros d' Ht Hs Hfd HF. split_and!; [done..|]. intros m Hm. left. rewrite Hf in Hfd.
    destruct (survives_file d' m name _ Hs Hfd Hm) as (c & Hc & ->). f_equal. by apply file_settled in Hc. }
  set (d2 := set_len_effect name offset (ran (ran d))).
  assert (F2 : dr_files d2 !! name = Some (mkFile cut offset (Some content))).
  { unfold d2, set_len_effect, ran. fields. rewrite Hf. fields. rewrite lookup_insert_eq. cbn [fl_content fl_synced].
    by rewrite N.min_l by done. }
  assert (S2 : dr_stale d2 !! name = None) by (unfold d2, set_len_effect; case_match; done).
  assert (T2 : touched [name] d d2).
  { unfold d2. apply set_len_touched; [|set_solver]. by split. }
  assert (W2 : within F d2) by (unfold d2; effects).
  assert (Hcut : forall d', touched [name] d d' -> dr_stale d' !! name = None ->
    dr_files d' !! name = Some (mkFile cut offset (Some content)) ->
    F -> F /\ touched [name] d d' /\ forall m, survives d' m -> m !! name = Some content \/ m !! name = Some cut).
  { intros d' Ht Hs Hfd HF. split_and!; [done..|]. intros m Hm.
    destruct (survives_file d' m name _ Hs Hfd Hm) as (c & [(n & Hn & ->)|[= <-]] & ->); [right|by left].
    cbn in *. f_equal. apply take_ge. unfold cut. rewrite length_take. lia. }
  unfold truncate_at, os_open_write, os_set_len. apply post_bind, post_bind, post_state. rewrite Hf.
  eapply post_syscall; [done| |intros HF n; by apply Hsame].
  apply post_bind. eapply (post_syscall (F:=F)); [effects| |intros HF n; cbv beta; destruct (n =? 0); [apply (Hsame (ran (ran d))); [by split|done..]|by apply (Hcut d2)]].
  fold d2. eapply post_syscall; [exact W2| |intros HF n; by apply (Hcut (ran d2))].
  split; [effects|]. apply rewritten_quiet; [done| | |].
  - apply sync_touched; [exact T2|set_solver].
  - by apply (synced_at _ (ran d2) _ _ _ F2).
  - unfold sync_effect. case_match; exact S2.
Qed.
