(* ===== verification/StorageRecovery.v ===== *)
(** * Recovery of the consensus files

    The state a directory holds, and that opening it returns that state,
    whichever system calls fail, leaving a store whose files are all on the
    device; then saving the hard state. *)
From S2P Require Import Prelude Quorum Membership Types Node Store Disk Application ApplicationFacts ApplicationSafe ApplicationLog.
From S2P Require Import SnapshotImage Storage StorageFacts.
Local Open Scope N_scope.
Local Open Scope raft_scope.

Section recovery.
Context `{StorageLaws, Sha256, PayloadFormat}.

(** *** The state a directory holds *)

Definition selection_frame (m : Manifest) : ManifestFrame := mkManifestFrame (crc32 (selection_json m)) m.
(** [content] selects [m]. *)
Definition selects (content : Bytes) (m : Manifest) : Prop :=
  len64 content <= MAX_CURRENT_BYTES /\ selection_frame_parse content = Some (selection_frame m)
  /\ mf_version m = 1 /\ mf_generation m <> 0 /\ descriptor_validate (mf_snapshot m) = Ok tt.
Definition generation_holds (files : gmap string Bytes) (m : Manifest) (image : SnapshotImage) : Prop :=
  files !! snapshot_name (mf_generation m) = Some (si_bytes image)
  /\ image_decode (si_bytes image) = IoOk image /\ si_descriptor image = mf_snapshot m.

Definition hard_state_holds (content : option Bytes) (hs : HardState) : Prop :=
  match content with Some c => decode_hard_state c = IoOk hs | None => hs = HardState_default end.
(** The log, up to an unterminated tail; only a store without a snapshot may
    have none. *)
Definition log_holds (content : option Bytes) (required : bool) (es : list Entry) : Prop :=
  match content with
  | Some c => exists tail, c = log_lines es ++ tail /\ 0x0A ∉ tail
  | None => required = false /\ es = []
  end.

(** The files hold the generation [manifest] and the state [r]. *)
Record disk_state (files : gmap string Bytes) (manifest : option Manifest) (r : RecoveredState) : Prop := {
  ds_hard : hard_state_holds (files !! HARDSTATE) (rs_hard_state r);
  ds_selected :
    match manifest with
    | Some m => exists content image, files !! CURRENT_FILE = Some content /\ selects content m
                  /\ rs_snapshot r = Some image /\ generation_holds files m image
    | None => files !! CURRENT_FILE = None /\ rs_snapshot r = None
    end;
  ds_base : base_term manifest <= current_term (rs_hard_state r);
  ds_log : log_holds (files !! log_name_of manifest) (is_some manifest) (rs_entries r);
  ds_continuous : continuous (base_index manifest) (rs_entries r) = true;
  ds_terms : validate_terms (rs_entries r) (base_term manifest) (current_term (rs_hard_state r)) = IoOk tt;
}.
Lemma disk_state_live files files' manifest r :
  (forall name, name ∈ live manifest -> files' !! name = files !! name) ->
  disk_state files manifest r -> disk_state files' manifest r.
Proof.
  intros Hl [Hh Hs Hb Hg Hc Ht]. unfold live in Hl. split; try done.
  - rewrite Hl; [done|set_solver].
  - destruct manifest as [m|].
    + destruct Hs as (content & image & Hs & Hsel & Hi & Hg1 & Hg2). exists content, image.
      unfold generation_holds. rewrite !Hl by set_solver. done.
    + rewrite Hl; [done|set_solver].
  - rewrite Hl; [done|set_solver].
Qed.

Lemma image_decode_bound b image : image_decode b = IoOk image -> len64 b <= MAX_SNAPSHOT_BYTES.
Proof.
  unfold image_decode. destruct (_ || _) eqn:K; [done|]. intros _.
  apply orb_false_iff in K as [[_ K]%orb_false_iff _]. by apply N.ltb_ge.
Qed.

Lemma steady_failed F names files d : steady F names files d -> F -> F /\ keeps_names names files (ran d).
Proof. intros Hs HF. split; [done|]. by eapply steady_keeps, steady_ran. Qed.

Section opening.
Context (F : Prop) (files : gmap string Bytes) (manifest : option Manifest) (r : RecoveredState).
Hypothesis Hstate : disk_state files manifest r.
Abbreviation steady_here := (steady F (live manifest) files).
Abbreviation failed := (fun d => F /\ keeps_names (live manifest) files d).

Lemma recover_hard_state_post d :
  steady_here d ->
  post recover_hard_state (fun hs d' => hs = rs_hard_state r /\ steady_here d') failed d.
Proof using All.
  intros Hs. unfold recover_hard_state, post. destruct (read_cases F d HARDSTATE (proj1 Hs)) as [Hr|[HF ->]].
  - pose proof (steady_file _ _ _ _ HARDSTATE Hs ltac:(unfold live; set_solver)) as Hf.
    pose proof (ds_hard _ _ _ Hstate) as Hh. unfold hard_state_holds in Hh.
    destruct (files !! HARDSTATE) as [c|]; rewrite Hf in Hr; rewrite Hr.
    + cbn [fl_content]. rewrite Hh. split; [done|by apply steady_ran].
    + split; [done|by apply steady_ran].
  - by apply steady_failed.
Qed.

Lemma read_manifest_post d :
  steady_here d -> post read_manifest (fun m d' => m = manifest /\ steady_here d') failed d.
Proof using All.
  intros Hs. unfold read_manifest, os_exists.
  pose proof (steady_file _ _ _ _ CURRENT_FILE Hs ltac:(unfold live; set_solver)) as Hf.
  apply post_bind. apply post_bind. eapply post_syscall; [apply Hs| |intros HF n; by apply steady_failed].
  apply post_bind, post_state. apply post_ret. change (dr_files (id (ran d))) with (dr_files d).
  pose proof (ds_selected _ _ _ Hstate) as Hsel.
  destruct manifest as [m|].
  - destruct Hsel as (content & image & Hc & (Hl & Hp & Hv & Hg & Hd) & _). rewrite Hc in Hf. rewrite Hf.
    cbn [is_some]. apply post_bind.
    eapply read_bounded_post; [apply steady_ran, Hs|unfold live; set_solver|exact Hc|exact Hl| |].
    2:{ intros HF. apply (steady_failed F); [by apply steady_ran|done]. }
    apply post_bind. rewrite Hp. apply post_lift; [|by intros]. intros a [= <-].
    apply post_bind, post_refuse.
    { cbn [mm_manifest mm_crc selection_frame]. rewrite Hv, (proj2 (N.eqb_neq _ _) Hg), !N.eqb_refl. intros Hb. discriminate Hb. }
    intros _. cbn [mm_manifest selection_frame]. rewrite Hd. apply post_bind, post_lift; [|done]. intros [] _.
    apply post_ret. split; [done|]. by do 2 apply steady_ran.
  - destruct Hsel as [Hc _]. rewrite Hc in Hf. rewrite Hf. split; [done|by apply steady_ran].
Qed.

Lemma recover_generation_post d :
  steady_here d ->
  post (recover_generation (rs_hard_state r) manifest)
    (fun p d' => p = (rs_snapshot r, log_name_of manifest) /\ steady_here d') failed d.
Proof using All.
  intros Hs. unfold recover_generation.
  pose proof (ds_selected _ _ _ Hstate) as Hsel. pose proof (ds_base _ _ _ Hstate) as Hb.
  destruct manifest as [m|].
  - destruct Hsel as (content & image & _ & _ & Hi & Hf & Hd & Hdesc). rewrite Hi.
    apply post_bind. eapply read_bounded_post;
      [exact Hs|unfold live; set_solver|exact Hf|by eapply image_decode_bound| |intros HF; by apply steady_failed].
    rewrite Hd. apply post_bind, post_lift; [|done]. intros a [= <-].
    apply post_bind, post_refuse; [by rewrite Hdesc, (proj2 (eqb_true _ _) eq_refl)|]. intros _.
    apply post_bind, post_refuse; [intros Hlt; apply N.ltb_lt in Hlt; cbn in Hb; lia|]. intros _.
    apply post_ret. split; [done|by apply steady_ran].
  - destruct Hsel as [_ ->]. by apply post_ret.
Qed.
End opening.

Lemma snapshot_not_wal g g' : snapshot_name g <> wal_name g'.
Proof.
  intros E%(f_equal (fun s => list.last (bytes s))). unfold snapshot_name, wal_name, generation_file in E.
  rewrite !bytes_app, !app_assoc, !last_app in E. discriminate E.
Qed.
(** The live names are distinct. *)
Lemma log_name_fresh manifest :
  log_name_of manifest <> HARDSTATE /\ log_name_of manifest <> CURRENT_FILE
  /\ (forall g, log_name_of manifest <> snapshot_name g)
  /\ log_name_of manifest <> HARDSTATE_NEW /\ log_name_of manifest <> CURRENT_FILE_NEW.
Proof. destruct manifest as [m|]; split_and!; try done. intros g E. by apply (snapshot_not_wal g (mf_generation m)). Qed.

(** Nothing follows the last line. *)
Definition log_clean (content : option Bytes) (es : list Entry) : Prop :=
  match content with Some c => c = log_lines es | None => True end.
(** Whatever a power loss leaves holds [r]. *)
Definition durable (d : Directory) (manifest : option Manifest) (r : RecoveredState) : Prop :=
  forall files, survives d files -> disk_state files manifest r.

Lemma keeps_durable files manifest r d :
  disk_state files manifest r -> keeps_names (live manifest) files d -> durable d manifest r.
Proof. intros Hs Hk files' Hf. eapply disk_state_live; [|exact Hs]. by apply Hk. Qed.
(** The log alone changes. *)
Lemma disk_state_log files files' manifest r es :
  disk_state files manifest r ->
  (forall name, name ∈ live manifest -> name <> log_name_of manifest -> files' !! name = files !! name) ->
  log_holds (files' !! log_name_of manifest) (is_some manifest) es ->
  continuous (base_index manifest) es = true ->
  validate_terms es (base_term manifest) (current_term (rs_hard_state r)) = IoOk tt ->
  disk_state files' manifest (mkRecovered (rs_hard_state r) es (rs_snapshot r)).
Proof.
  intros [Hh Hs Hb _ _ _] Hl Hg Hc Ht. destruct (log_name_fresh manifest) as (N1 & N2 & N3 & _). unfold live in Hl.
  split; cbn [rs_hard_state rs_entries rs_snapshot]; try done.
  - rewrite Hl; [done|set_solver|done].
  - destruct manifest as [m|].
    + destruct Hs as (content & image & Hs & Hsel & Hi & Hg1 & Hg2). exists content, image.
      unfold generation_holds. rewrite !Hl by (set_solver || done). done.
    + rewrite Hl; [done|set_solver|done].
Qed.
Lemma recovered_eta r : mkRecovered (rs_hard_state r) (rs_entries r) (rs_snapshot r) = r.
Proof. by destruct r. Qed.

Section log_opening.
Context (F : Prop) (files : gmap string Bytes) (manifest : option Manifest) (r : RecoveredState).
Hypothesis Hstate : disk_state files manifest r.
Abbreviation steady_here := (steady F (live manifest) files).

Lemma recover_log_clean d :
  log_clean (files !! log_name_of manifest) (rs_entries r) -> steady_here d ->
  post (recover_log_at (log_name_of manifest) (base_index manifest) (is_some manifest))
    (fun es d' => es = rs_entries r /\ steady_here d') (fun d' => F /\ steady_here d') d.
Proof using All.
  intros Hc Hs. unfold recover_log_at, post.
  destruct (read_cases F d (log_name_of manifest) (proj1 Hs)) as [Hr|[HF ->]]; [|split; [done|by apply steady_ran]].
  pose proof (steady_file _ _ _ _ (log_name_of manifest) Hs ltac:(unfold live; set_solver)) as Hf.
  pose proof (ds_log _ _ _ Hstate) as Hl. unfold log_holds in Hl. unfold log_clean in Hc.
  destruct (files !! log_name_of manifest) as [c|]; rewrite Hf in Hr; rewrite Hr.
  - cbn [fl_content]. subst c. unfold lift, mbind, St_bind.
    pose proof (recover_lines_log (rs_entries r) (S (length (log_lines (rs_entries r)))) (base_index manifest) 0 []) as Hrec.
    rewrite app_nil_r in Hrec. rewrite Hrec; [|apply Hstate|apply not_elem_of_nil|lia].
    rewrite decide_True by done. split; [done|by apply steady_ran].
  - destruct Hl as [-> Hl]. split; [by rewrite Hl|by apply steady_ran].
Qed.

(** What recovery of the log leaves: the log without a torn tail. *)
Definition log_recovered (d : Directory) : Prop :=
  exists files', steady F (live manifest) files' d /\ disk_state files' manifest r
    /\ log_clean (files' !! log_name_of manifest) (rs_entries r).

(** A torn tail is cut and the cut is synchronised. *)
Lemma truncate_torn d tail :
  steady_here d -> files !! log_name_of manifest = Some (log_lines (rs_entries r) ++ tail) -> 0x0A ∉ tail ->
  post (truncate_at (log_name_of manifest) (len64 (log_lines (rs_entries r))))
    (fun _ d' => log_recovered d') (fun d' => F /\ durable d' manifest r) d.
Proof using All.
  set (name := log_name_of manifest). set (es := rs_entries r). intros Hs Hfile Ht.
  set (content := log_lines es ++ tail) in *.
  assert (Hcut : take (N.to_nat (len64 (log_lines es))) content = log_lines es)
    by (unfold len64, content; by rewrite Nat2N.id, take_app_length).
  assert (Hle : len64 (log_lines es) <= len64 content) by (unfold content; rewrite len64_app; lia).
  pose proof (steady_file _ _ _ _ name Hs ltac:(unfold live; set_solver)) as Hf. rewrite Hfile in Hf.
  pose proof Hs as (Hw & Hq & Hn).
  assert (Hlog : forall files' rest, files' !! name = Some (log_lines es ++ rest) -> 0x0A ∉ rest ->
    (forall n, n ∈ live manifest -> n <> name -> files' !! n = files !! n) -> disk_state files' manifest r).
  { intros files' rest Hfile' Hrest Hother. rewrite <- (recovered_eta r).
    eapply disk_state_log; [exact Hstate|exact Hother| |apply Hstate|apply Hstate].
    fold name. rewrite Hfile'. by exists rest. }
  eapply post_mono; [apply (truncate_at_post F d name content (len64 (log_lines es))); done| |].
  - intros [] d' (Hw' & Hq' & Hc'). cbv zeta in Hc'. rewrite Hcut in Hc'.
    exists (<[name := log_lines es]> files). split_and!.
    + split; [done|]. split; [done|]. intros n Hin. rewrite Hc'. destruct (decide (n = name)) as [->|Hne'].
      * by rewrite !lookup_insert_eq.
      * rewrite !lookup_insert_ne by done. by apply Hn.
    + eapply (Hlog _ []); [by rewrite app_nil_r, lookup_insert_eq|apply not_elem_of_nil|].
      intros n _ Hne'. by rewrite lookup_insert_ne.
    + fold name. by rewrite lookup_insert_eq.
  - cbv zeta. rewrite Hcut. intros d' (HF & Ht' & Hm'). split; [done|]. intros files' Hfiles'.
    assert (Hother : forall n, n ∈ live manifest -> n <> name -> files' !! n = files !! n).
    { intros n Hin Hne'. rewrite <- (Hn n Hin). eapply touched_survives; [done..|]. set_solver. }
    destruct (Hm' _ Hfiles') as [E|E]; [by eapply Hlog|].
    eapply (Hlog _ []); [by rewrite app_nil_r|apply not_elem_of_nil|done].
Qed.
Lemma recover_log_post d :
  steady_here d ->
  post (recover_log_at (log_name_of manifest) (base_index manifest) (is_some manifest))
    (fun es d' => es = rs_entries r /\ log_recovered d') (fun d' => F /\ durable d' manifest r) d.
Proof using All.
  intros Hs. set (name := log_name_of manifest). set (es := rs_entries r).
  pose proof (ds_log _ _ _ Hstate) as Hl. fold name es in Hl. unfold log_holds in Hl.
  assert (Hclean : log_clean (files !! name) es -> post (recover_log_at name (base_index manifest) (is_some manifest))
    (fun es' d' => es' = es /\ log_recovered d') (fun d' => F /\ durable d' manifest r) d).
  { intros Hc. eapply post_mono; [by apply recover_log_clean| |].
    - intros es' d' [-> Hs']. split; [done|]. by exists files.
    - intros d' [HF Hs']. split; [done|]. eapply keeps_durable; [done|]. by eapply steady_keeps. }
  destruct (files !! name) as [c|] eqn:Hfile; [|by apply Hclean]. destruct Hl as (tail & -> & Ht).
  destruct (decide (tail = [])) as [->|Hne]; [apply Hclean; apply app_nil_r|]. clear Hclean.
  unfold recover_log_at, post.
  destruct (read_cases F d name (proj1 Hs)) as [Hr|[HF ->]].
  2:{ split; [done|]. eapply keeps_durable; [done|]. by eapply steady_keeps, steady_ran. }
  pose proof (steady_file _ _ _ _ name Hs ltac:(unfold live; set_solver)) as Hf. rewrite Hfile in Hf.
  rewrite Hf in Hr. rewrite Hr. cbn [fl_content].
  set (content := log_lines es ++ tail) in *.
  pose proof (recover_lines_log es (S (length content)) (base_index manifest) 0 tail) as Hrec. fold content in Hrec.
  rewrite decide_False, N.add_0_l in Hrec by done. unfold lift, mbind, St_bind.
  rewrite Hrec; [|apply Hstate|done|lia]. clear Hrec.
  pose proof (truncate_torn (ran d) tail (steady_ran _ _ _ _ Hs) Hfile Ht) as Hcut. unfold post in Hcut. fold name es in Hcut.
  by destruct (truncate_at _ _ _) as [[[]|] d'].
Qed.
End log_opening.

(** *** The store *)

Lemma post_in_dir {A} (m : St Directory A) Q E s :
  post m (fun a d => Q a (s <| sg_dir := d |>)) (fun d => E (s <| sg_dir := d |>)) (sg_dir s) ->
  post (in_dir m) Q E s.
Proof. unfold post, in_dir. by destruct (m (sg_dir s)) as [[a|] d]. Qed.
Lemma post_poisoning {A} (m : St Storage A) Q E s :
  post m Q (fun s => E (s <| sg_poisoned := true |>)) s -> post (mutation m) Q E s.
Proof. unfold post, mutation. by destruct (m s) as [[a|] s']. Qed.

(** The store is open, everything is on the device, and the device holds [r]. *)
Record healthy (s : Storage) (r : RecoveredState) : Prop := {
  hl_usable : sg_poisoned s = false;
  hl_log_name : sg_log_name s = log_name_of (sg_manifest s);
  hl_quiet : quiet (sg_dir s);
  hl_state : disk_state (contents (sg_dir s)) (sg_manifest s) r;
  hl_clean : log_clean (contents (sg_dir s) !! sg_log_name s) (rs_entries r);
}.
Lemma healthy_durable s r : healthy s r -> durable (sg_dir s) (sg_manifest s) r.
Proof. intros Hh files Hf. rewrite (quiet_survives _ _ (hl_quiet _ _ Hh) Hf). apply Hh. Qed.
(** Only the device's future outcomes, and the counters, differ. *)
Lemma healthy_steady F s r d :
  healthy s r -> steady F (live (sg_manifest s)) (contents (sg_dir s)) d -> healthy (s <| sg_dir := d |>) r.
Proof.
  intros [Hu Hl _ Hs Hc] (_ & Hq & Hn). split; try done.
  - by eapply disk_state_live.
  - change (sg_log_name (s <| sg_dir := d |>)) with (sg_log_name s). rewrite Hl in *.
    change (sg_dir (s <| sg_dir := d |>)) with d. rewrite Hn; [done|unfold live; set_solver].
Qed.
Lemma healthy_self F s r : healthy s r -> within F (sg_dir s) ->
  steady F (live (sg_manifest s)) (contents (sg_dir s)) (sg_dir s).
Proof. intros Hh Hw. split; [done|]. split; [apply Hh|done]. Qed.

Lemma remove_all_post F names d :
  within F d -> NoDup names -> (forall name, name ∈ names -> is_Some (dr_files d !! name)) ->
  map_Forall (fun _ f => settled f) (dr_files d) ->
  post (remove_all names)
    (fun _ d' => within F d' /\ touched names d d' /\ map_Forall (fun _ f => settled f) (dr_files d'))
    (fun d' => F /\ touched names d d') d.
Proof.
  revert d. induction names as [|name names IH]; intros d Hw Hnd Hin Hq; [done|].
  apply list.NoDup_cons in Hnd as [Hn Hnd]. cbn [remove_all]. unfold os_remove.
  apply post_bind, post_bind, post_state. destruct (Hin name) as [f Hf]; [set_solver|]. rewrite Hf.
  assert (T1 : touched [name] d (remove_effect name (ran d))).
  { apply remove_touched; [by split|set_solver]. }
  assert (Tm : forall d', touched [name] d d' -> touched (name :: names) d d') by (intros d'; apply touched_mono; set_solver).
  eapply (post_syscall (F:=F)); [done| |].
  2:{ intros HF n. split; [done|]. cbv beta. destruct (n =? 0); [|by apply Tm]. by split. }
  eapply post_mono; [apply IH; [effects|done| |]| |].
  - intros x Hx. unfold remove_effect, ran. fields. rewrite lookup_delete_ne by (by intros ->). apply Hin. set_solver.
  - unfold remove_effect, ran. fields. by apply map_Forall_delete.
  - intros _ d' (Hw' & Ht' & Hq'). split; [done|]. split; [|done].
    eapply touched_trans; [by apply Tm|]. eapply touched_mono; [|exact Ht']. set_solver.
  - intros d' [HF Ht']. split; [done|]. eapply touched_trans; [by apply Tm|]. eapply touched_mono; [|exact Ht']. set_solver.
Qed.

(** What reclamation removes is not live. *)
Lemma reclaimed_dead s name :
  sg_log_name s = log_name_of (sg_manifest s) -> reclaimed s name = true -> name ∉ live (sg_manifest s).
Proof.
  intros Hl Hr. unfold reclaimed in Hr. apply andb_true_iff in Hr as [[Hr Hlog]%andb_true_iff Hsnap].
  apply negb_true_iff, eqb_false in Hlog. apply negb_true_iff, eqb_false in Hsnap. rewrite Hl in Hlog.
  unfold live. rewrite !not_elem_of_cons. split_and!; [| |done|].
  - intros ->. vm_compute in Hr. by destruct (sg_manifest s).
  - intros ->. vm_compute in Hr. by destruct (sg_manifest s).
  - destruct (sg_manifest s) as [m|]; [|apply not_elem_of_nil]. intros ->%list_elem_of_singleton. by apply Hsnap.
Qed.

Lemma reclaim_keeps F s :
  quiet (sg_dir s) -> sg_log_name s = log_name_of (sg_manifest s) -> within F (sg_dir s) ->
  post reclaim
    (fun _ s' => s' = s <| sg_dir := sg_dir s' |>
       /\ steady F (live (sg_manifest s)) (contents (sg_dir s)) (sg_dir s'))
    (fun s' => F /\ sg_poisoned s' = true /\ keeps_names (live (sg_manifest s)) (contents (sg_dir s)) (sg_dir s')) s.
Proof.
  intros Hq Hl Hw. assert (Hs : steady F (live (sg_manifest s)) (contents (sg_dir s)) (sg_dir s)) by done.
  unfold reclaim. apply post_poisoning.
  apply post_bind, post_state, post_bind, post_in_dir. unfold os_list. apply post_bind.
  eapply (post_syscall (F:=F)); [done| |intros HF n; split; [done|]; split; [done|]; by eapply steady_keeps, steady_ran].
  apply post_bind, post_state, post_ret. apply post_bind, post_in_dir.
  change (sg_dir (s <| sg_dir := id (ran (sg_dir s)) |>)) with (ran (sg_dir s)).
  change (dr_files (id (ran (sg_dir s)))) with (dr_files (sg_dir s)).
  set (names := filter (fun name => reclaimed s name = true) (map_to_list (dr_files (sg_dir s))).*1).
  assert (Hdead : forall name, name ∈ live (sg_manifest s) -> name ∉ names).
  { intros name Hin [Hr _]%list_elem_of_filter. by eapply reclaimed_dead. }
  eapply post_mono; [apply (remove_all_post F); [by apply within_ran| | |apply Hq]| |].
  - apply list.NoDup_filter, NoDup_fst_map_to_list.
  - intros name [_ Hin]%list_elem_of_filter. apply list_elem_of_fmap in Hin as ([n f] & -> & Hin).
    apply elem_of_map_to_list in Hin. by eexists.
  - intros [] d' (Hw' & Ht & Hq'). apply post_in_dir.
    change (sg_dir (s <| sg_dir := id (ran (sg_dir s)) |> <| sg_dir := d' |>)) with d'.
    eapply post_mono; [eapply (sync_directory_post F _ _ (ran (sg_dir s))); [by apply steady_ran| |done|done|]| |].
    + intros name Hin. by apply Ht, Hdead.
    + eapply touched_keeps; [by apply steady_ran|exact Ht|exact Hdead].
    + intros [] d'' Hs''. done.
    + intros d'' [HF Hk]. done.
  - intros d' [HF Ht]. split; [done|]. split; [done|]. eapply touched_keeps; [by apply steady_ran|exact Ht|exact Hdead].
Qed.
Lemma reclaim_healthy F s r :
  healthy s r -> within F (sg_dir s) ->
  post reclaim
    (fun _ s' => healthy s' r /\ within F (sg_dir s') /\ sg_manifest s' = sg_manifest s)
    (fun s' => F /\ sg_poisoned s' = true /\ durable (sg_dir s') (sg_manifest s) r) s.
Proof.
  intros Hh Hw. eapply post_mono; [by apply (reclaim_keeps F); [apply Hh..|]| |].
  - intros [] s' [E Hs]. rewrite E. split; [by apply (healthy_steady F)|]. split; [apply Hs|done].
  - intros s' (HF & Hp & Hk). split; [done|]. split; [done|]. eapply keeps_durable; [apply Hh|exact Hk].
Qed.

Lemma orphans_dead manifest : HARDSTATE_NEW ∉ live manifest /\ LOG_NEW ∉ live manifest.
Proof.
  unfold live. rewrite !not_elem_of_cons. destruct manifest as [m|]; split_and!; try done; try apply not_elem_of_nil;
    intros ?%list_elem_of_singleton; done.
Qed.

(** Recovery, under any failures: it returns the state the device holds, or
    leaves the device holding it. *)
Lemma open_recovered_spec F files faults manifest r :
  disk_state files manifest r -> within F (booted files faults) ->
  match open_recovered (booted files faults) with
  | (IoOk r', s) => r' = r /\ healthy s r /\ sg_manifest s = manifest /\ within F (sg_dir s)
  | (IoErr _ _, s) => F /\ durable (sg_dir s) manifest r
  end.
Proof.
  intros Hstate Hw. destruct (orphans_dead manifest) as [Ho1 Ho2].
  assert (Hs : steady F (live manifest) files (booted files faults)).
  { split; [done|]. split; [apply booted_quiet|]. intros name _. by rewrite booted_contents. }
  assert (Hfail : forall d, F /\ keeps_names (live manifest) files d -> F /\ durable d manifest r).
  { intros d [HF Hk]. split; [done|]. by eapply keeps_durable. }
  assert (Hinner : post (sync_directory;;
         remove_orphan HARDSTATE_NEW;;
         remove_orphan LOG_NEW;;
         hs ← recover_hard_state;
         selected ← read_manifest;
         '(image, log_name) ← recover_generation hs selected;
         entries ← recover_log_at log_name (base_index selected) (is_some selected);
         lift (validate_terms entries (base_term selected) (current_term hs));;
         mret (selected, log_name, mkRecovered hs entries image))
    (fun p d' => p = (manifest, log_name_of manifest, r) /\ exists files', steady F (live manifest) files' d'
       /\ disk_state files' manifest r /\ log_clean (files' !! log_name_of manifest) (rs_entries r))
    (fun d' => F /\ durable d' manifest r) (booted files faults)).
  { apply post_bind. eapply post_mono; [eapply (sync_directory_post F (live manifest) files (booted files faults)); try done| |exact Hfail].
    { apply (booted_quiet files faults). }
    { by eapply steady_keeps. }
    intros [] d1 S1. apply post_bind. eapply post_mono; [by apply (remove_orphan_post F (live manifest) files)| |exact Hfail].
    intros [] d2 S2. apply post_bind. eapply post_mono; [by apply (remove_orphan_post F (live manifest) files)| |exact Hfail].
    intros [] d3 S3. apply post_bind. eapply post_mono; [by apply (recover_hard_state_post F files manifest r)| |exact Hfail].
    intros hs d4 [-> S4]. apply post_bind. eapply post_mono; [by apply (read_manifest_post F files manifest r)| |exact Hfail].
    intros selected d5 [-> S5]. apply post_bind. eapply post_mono; [by apply (recover_generation_post F files manifest r)| |exact Hfail].
    intros p d6 [-> S6]. apply post_bind. eapply post_mono; [by apply (recover_log_post F files manifest r)| |done].
    intros es d7 [-> (files' & S7 & Hst7 & Hc7)]. rewrite (ds_terms _ _ _ Hstate). apply post_bind, post_lift; [|done].
    intros [] _. apply post_ret. split; [by rewrite recovered_eta|]. by exists files'. }
  unfold open_recovered, post in *. destruct ((sync_directory;; _) (booted files faults)) as [[p|] d'].
  2:{ exact Hinner. }
  destruct Hinner as [-> (files' & S7 & Hst7 & Hc7)].
  assert (Hh : healthy (mkStorage d' (log_name_of manifest) manifest false no_metrics) r).
  { destruct S7 as (W7 & Q7 & N7). split; try done; cbn.
    - by eapply disk_state_live.
    - rewrite N7; [done|unfold live; set_solver]. }
  pose proof (reclaim_healthy F _ r Hh (proj1 S7)) as Hr. unfold post in Hr. cbn [sg_manifest] in Hr.
  unfold mbind, St_bind. destruct (reclaim _) as [[[]|] s].
  - destruct Hr as (Hh' & Hw' & Hm). done.
  - destruct Hr as (HF & _ & Hd). done.
Qed.

(** *** Operations *)

Lemma encode_decode hs :
  match hs_membership hs with Some m => cm_validate m = Ok tt | None => True end ->
  decode_hard_state (encode_hard_state hs) = IoOk hs.
Proof.
  intros Hm. unfold encode_hard_state, decode_hard_state. destruct (hs_membership hs) as [m|] eqn:Hh; cbn [is_none is_some negb].
  - destruct (envelope_inverse (mkEnvelope 2 (crc32 (hard_state_json hs)) hs)) as (v & -> & Hv & He).
    cbn [json_of mbind Io_bind]. rewrite Hv, He. cbn [json_of mbind Io_bind he_version he_crc he_hard_state orb].
    rewrite Hh, !N.eqb_refl. cbn [N.eqb Pos.eqb negb is_none is_some orb]. by rewrite Hm.
  - destruct (hard_state_inverse hs Hh) as (v & -> & H1' & H2' & H3' & Hd). cbn [json_of mbind Io_bind].
    by rewrite H1', H2', H3', Hd.
Qed.

Lemma swapped_live temporary destination data old files (names : list string) :
  swapped [temporary] destination data old files -> temporary ∉ names ->
  (forall name, name ∈ names -> files !! name = old !! name)
  \/ files !! destination = Some data /\ (forall name, name ∈ names -> name <> destination -> files !! name = old !! name).
Proof.
  intros Hs Ht. assert (Hin : forall name, name ∈ names -> name ∉ [temporary]) by set_solver.
  destruct (decide (files !! destination = Some data)) as [E|E].
  - right. split; [done|]. intros name Hn Hne. by destruct (Hs name (Hin name Hn)) as [?|[? _]].
  - left. intros name Hn. destruct (Hs name (Hin name Hn)) as [?|[-> ?]]; done.
Qed.

(** A power loss during the operation leaves [r] or [r']. *)
Definition either (d : Directory) (manifest : option Manifest) (r r' : RecoveredState) : Prop :=
  forall files, survives d files -> disk_state files manifest r \/ disk_state files manifest r'.

(** The effect of a publication on the disk. *)
Lemma publish_state_post F s r r' temporary destination data :
  healthy s r -> within F (sg_dir s) -> filename_ok temporary = true -> filename_ok destination = true ->
  temporary <> destination -> temporary ∉ live (sg_manifest s) ->
  (forall files, files !! destination = Some data ->
     (forall name, name ∈ live (sg_manifest s) -> name <> destination -> files !! name = contents (sg_dir s) !! name) ->
     disk_state files (sg_manifest s) r') ->
  log_clean (if decide (destination = sg_log_name s) then Some data else contents (sg_dir s) !! sg_log_name s) (rs_entries r') ->
  post (in_dir (publish_file temporary destination data))
    (fun _ s' => healthy s' r' /\ within F (sg_dir s') /\ sg_manifest s' = sg_manifest s)
    (fun s' => F /\ sg_manifest s' = sg_manifest s /\ either (sg_dir s') (sg_manifest s) r r') s.
Proof.
  intros Hh Hw Hn1 Hn2 Hne Ht Hnew Hclean. apply post_in_dir.
  eapply post_mono; [by apply (publish_file_post F); [apply Hh|..]| |].
  - intros [] d' (Hw' & Hq' & Hc'). split; [|done].
    assert (Hother : forall name, name ∈ live (sg_manifest s) -> name <> destination ->
      contents d' !! name = contents (sg_dir s) !! name).
    { intros name Hin Hd. rewrite Hc', lookup_insert_ne, lookup_delete_ne by (done || by intros ->). done. }
    split; [apply Hh|apply Hh|done| |].
    + apply Hnew; [|done]. change (sg_dir (s <| sg_dir := d' |>)) with d'. by rewrite Hc', lookup_insert_eq.
    + change (sg_log_name (s <| sg_dir := d' |>)) with (sg_log_name s). change (sg_dir (s <| sg_dir := d' |>)) with d'.
      case_decide as Hd.
      * by rewrite <- Hd, Hc', lookup_insert_eq.
      * rewrite Hother; [done| |congruence]. rewrite (hl_log_name _ _ Hh). unfold live. set_solver.
  - intros d' [HF Hsw]. split; [done|]. split; [done|]. intros files Hf.
    destruct (swapped_live _ _ _ _ _ (live (sg_manifest s)) (Hsw files Hf) Ht) as [Hold|[Hd Hold]].
    + left. eapply disk_state_live; [exact Hold|apply Hh].
    + right. by apply Hnew.
Qed.

Lemma healthy_refl_usable {A} (k : St Storage A) Q E s r :
  healthy s r -> post k Q E s -> post (ensure_usable;; k) Q E s.
Proof. intros Hh Hk. unfold post, ensure_usable, mbind, St_bind in *. rewrite (hl_usable _ _ Hh). exact Hk. Qed.

Definition with_hard_state (r : RecoveredState) (hs : HardState) : RecoveredState :=
  mkRecovered hs (rs_entries r) (rs_snapshot r).

Lemma save_hard_state_post F s r hs :
  healthy s r -> within F (sg_dir s) ->
  match hs_membership hs with Some m => cm_validate m = Ok tt | None => True end ->
  current_term (rs_hard_state r) <= current_term hs ->
  post (save_hard_state hs)
    (fun _ s' => healthy s' (with_hard_state r hs) /\ within F (sg_dir s') /\ sg_manifest s' = sg_manifest s)
    (fun s' => F /\ sg_poisoned s' = true /\ either (sg_dir s') (sg_manifest s) r (with_hard_state r hs)) s.
Proof.
  intros Hh Hw Hm Hterm. pose proof (hl_state _ _ Hh) as Hst. pose proof (ds_base _ _ _ Hst) as Hb.
  unfold save_hard_state. eapply healthy_refl_usable; [exact Hh|].
  apply post_bind, post_state, post_bind, post_refuse; [intros Hlt; apply N.ltb_lt in Hlt; lia|]. intros _.
  apply post_poisoning. destruct (log_name_fresh (sg_manifest s)) as (L1 & L2 & _).
  eapply post_mono; [apply (publish_state_post F s r (with_hard_state r hs)); try done| |].
  - apply orphans_dead.
  - intros files Hf Hl. destruct Hst as [_ Hsel _ Hlog Hc Ht]. split; cbn.
    + rewrite Hf. by apply encode_decode.
    + destruct (sg_manifest s) as [m|].
      * destruct Hsel as (content & image & Hs & Hsel & Hi & Hg1 & Hg2). exists content, image.
        unfold generation_holds, live in *. rewrite !Hl by (set_solver || done). done.
      * unfold live in Hl. rewrite Hl by (set_solver || done). done.
    + lia.
    + unfold live in Hl. rewrite Hl by (set_solver || done). done.
    + done.
    + by eapply terms_mono.
  - rewrite decide_False; [apply Hh|]. rewrite (hl_log_name _ _ Hh). congruence.
  - done.
  - intros s' (HF & _ & He). done.
Qed.
End recovery.
