(* ===== verification/StorageAppend.v ===== *)
(** * Truncating and appending to the log

    A truncation is a synchronised rename, an append grows the file; a power loss
    leaves the old log, or the truncated one with some of the new entries. *)
From S2P Require Import Prelude Quorum Membership Types Node Store Disk Application ApplicationFacts ApplicationSafe ApplicationLog.
From S2P Require Import SnapshotImage Storage StorageFacts StorageRecovery.
Local Open Scope N_scope.
Local Open Scope raft_scope.

Section append.
Context `{StorageLaws, Sha256, PayloadFormat}.

(** *** Appending *)

Definition with_entries (r : RecoveredState) (es : list Entry) : RecoveredState :=
  mkRecovered (rs_hard_state r) es (rs_snapshot r).
(** Entries that continue the store's log. *)
Definition fits (manifest : option Manifest) (r : RecoveredState) (es : list Entry) : Prop :=
  continuous (base_index manifest) es = true
  /\ validate_terms es (base_term manifest) (current_term (rs_hard_state r)) = IoOk tt.
Lemma fits_take manifest r es es' k : fits manifest r (es ++ es') -> fits manifest r (es ++ take k es').
Proof.
  intros [Hc Ht]. assert (E : es ++ take k es' = take (length es + k) (es ++ es')).
  { rewrite take_app_ge by lia. f_equal. f_equal. lia. }
  rewrite E. split; [by apply continuous_take|by apply terms_take].
Qed.

Lemma digits20_digits n : Forall (fun b => between 0x30 0x39 b = true) (bytes (digits20 n)).
Proof.
  unfold digits20.
  assert (Hb : forall bs : list N, Forall (fun b => between 0x30 0x39 b = true) bs ->
    Forall (fun b => between 0x30 0x39 b = true) (bytes (of_bytes bs))).
  { intros bs HF. unfold bytes, of_bytes. rewrite String.list_ascii_of_string_of_list_ascii, map_map.
    induction HF as [|b bs Hb _ IH]; [done|]. cbn [map]. constructor; [|done].
    rewrite Ascii.N_ascii_embedding; [done|]. unfold between in Hb.
    apply andb_true_iff in Hb as [_ Hb%N.leb_le]. lia. }
  apply Hb, list.Forall_app. split; [|apply pretty_digits]. by apply list.Forall_replicate.
Qed.
Lemma string_assoc (s t u : string) : s +:+ (t +:+ u) = (s +:+ t) +:+ u.
Proof. induction s as [|c s IH]; [done|]. apply (f_equal (String c) IH). Qed.
Lemma generation_file_ok g extension :
  forallb filename_char (bytes extension) = true -> filename_ok (generation_file g extension) = true.
Proof.
  intros He. unfold filename_ok. assert (Hc : forallb filename_char (bytes (generation_file g extension)) = true).
  { unfold generation_file. rewrite !bytes_app, !forallb_app, He, andb_true_r. apply andb_true_iff. split; [done|].
    apply forallb_forall. intros b Hb%list_elem_of_In. pose proof (digits20_digits g) as HF.
    rewrite list.Forall_forall in HF. unfold filename_char. by rewrite (HF b Hb). }
  rewrite Hc. done.
Qed.
Lemma log_new_ok manifest :
  filename_ok (log_name_of manifest +:+ ".new") = true /\ filename_ok (log_name_of manifest) = true
  /\ log_name_of manifest +:+ ".new" <> log_name_of manifest /\ log_name_of manifest +:+ ".new" ∉ live manifest.
Proof.
  assert (Hlast : forall s, list.last (bytes (s +:+ ".new")) = Some 0x77).
  { intros s. by rewrite bytes_app, last_app. }
  assert (Hne : forall s t, list.last (bytes t) <> Some 0x77 -> s +:+ ".new" <> t).
  { intros s t Ht <-. by apply Ht. }
  assert (Hext : forall g ext b, list.last (bytes ext) = Some b -> list.last (bytes (generation_file g ext)) = Some b).
  { intros g ext b Hb. unfold generation_file. rewrite !bytes_app, !last_app. by rewrite Hb. }
  split_and!.
  - destruct manifest as [m|]; [|done]. unfold log_name_of, wal_name, generation_file.
    rewrite <- !string_assoc. by apply (generation_file_ok (mf_generation m) ".wal.new").
  - destruct manifest as [m|]; [|done]. by apply generation_file_ok.
  - apply Hne. destruct manifest as [m|]; [|done]. unfold log_name_of, wal_name. by rewrite (Hext _ ".wal"%string 0x6C eq_refl).
  - unfold live. rewrite !not_elem_of_cons. split_and!; try (apply Hne; done).
    + apply Hne. destruct manifest as [m|]; [|done]. unfold log_name_of, wal_name. by rewrite (Hext _ ".wal"%string 0x6C eq_refl).
    + destruct manifest as [m|]; [|apply not_elem_of_nil]. intros E%list_elem_of_singleton. revert E. apply Hne.
      unfold snapshot_name. by rewrite (Hext _ ".snapshot"%string 0x74 eq_refl).
Qed.

(** [truncate_by_rewrite] keeps the entries below [from]. *)
Definition below (from : LogIndex) (es : list Entry) : list Entry := filter (fun e => e_index e < from) es.
Lemma truncate_post F s r from :
  healthy s r -> within F (sg_dir s) -> fits (sg_manifest s) r (below from (rs_entries r)) ->
  post (truncate_by_rewrite from)
    (fun _ s' => healthy s' (with_entries r (below from (rs_entries r))) /\ within F (sg_dir s') /\ sg_manifest s' = sg_manifest s)
    (fun s' => F /\ either (sg_dir s') (sg_manifest s) r (with_entries r (below from (rs_entries r)))) s.
Proof.
  intros Hh Hw [Hc Ht]. destruct (log_new_ok (sg_manifest s)) as (N1 & N2 & N3 & N4).
  unfold truncate_by_rewrite. apply post_bind, post_state, post_bind, post_in_dir. rewrite (hl_log_name _ _ Hh).
  eapply post_mono; [apply (recover_log_clean F _ _ r (hl_state _ _ Hh)); [|by eapply healthy_self]| |].
  { rewrite <- (hl_log_name _ _ Hh). apply Hh. }
  - intros es d [-> Hd]. pose proof (healthy_steady F s r d Hh Hd) as Hh'.
    eapply post_mono; [eapply (publish_state_post F (s <| sg_dir := d |>) r); try done| |].
    + apply Hd.
    + intros files Hf Hl. change (sg_manifest (s <| sg_dir := d |>)) with (sg_manifest s) in *.
      eapply (disk_state_log (contents d)); [apply (hl_state _ _ Hh')|exact Hl| |exact Hc|exact Ht].
      rewrite Hf. exists []. rewrite app_nil_r. split; [done|apply not_elem_of_nil].
    + rewrite decide_True; [done|]. by rewrite (hl_log_name _ _ Hh').
    + done.
    + intros s' (HF & _ & He). done.
  - intros d [HF Hd]. split; [done|]. intros files Hf. left. pose proof (healthy_steady F s r d Hh Hd) as Hh'.
    by apply (healthy_durable _ _ Hh').
Qed.

(** The file being appended to holds [c] and [x], [c] at least on the device. *)
Record growing (d0 : Directory) (name : string) (c x : Bytes) (existed : bool) (d : Directory) : Prop := {
  gr_touched : touched [name] d0 d;
  gr_file : exists k, dr_files d !! name = Some (mkFile (c ++ x) k None) /\ len64 c <= k;
  gr_stale : dr_stale d !! name = if existed then None else Some None;
}.
Lemma growing_ran d0 name c x existed d : growing d0 name c x existed d -> growing d0 name c x existed (ran d).
Proof. intros []. by split. Qed.
Lemma growing_write d0 name c x existed d :
  growing d0 name c [] existed d -> growing d0 name c x existed (write_effect name x d).
Proof.
  intros [Ht (k & Hf & Hk) Hs]. split.
  - apply write_touched; [done|set_solver].
  - exists k. split; [|done]. unfold write_effect. rewrite Hf. fields. rewrite lookup_insert_eq, app_nil_r. done.
  - unfold write_effect. rewrite Hf. exact Hs.
Qed.
Lemma growing_survives d0 name c x existed d m :
  existed = is_some (contents d0 !! name) -> growing d0 name c x existed d -> survives d m ->
  m !! name = contents d0 !! name \/ exists n, m !! name = Some (c ++ take n x).
Proof.
  intros He [Ht (k & Hf & Hk) Hs] Hm. destruct (Hm name) as [(b & E & ->)|Hn].
  - left. rewrite Hs in E. destruct existed; [done|]. injection E as <-. by destruct (contents d0 !! name).
  - right. rewrite Hf in Hn. destruct Hn as (content & [(n & Hn & ->)|E] & ->); [|done].
    exists (n - length c)%nat. cbn [fl_content fl_synced] in *. rewrite take_app_ge; [done|]. unfold len64 in Hk. lia.
Qed.
Lemma open_append_post F s r :
  healthy s r -> within F (sg_dir s) ->
  let d0 := sg_dir s in let name := sg_log_name s in
  let grows := growing d0 name (log_lines (rs_entries r)) [] (is_some (contents d0 !! name)) in
  post (os_open_append name) (fun _ d' => within F d' /\ grows d')
    (fun d' => F /\ (grows d' \/ d' = ran (ran d0))) (ran d0).
Proof.
  intros Hh Hw0 d0 name grows. pose proof (within_ran d0 Hw0) as Hw. unfold os_open_append. apply post_bind, post_state.
  assert (Hl : dr_files (ran d0) !! name = dr_files d0 !! name) by done. rewrite Hl.
  assert (Hst : dr_stale d0 !! name = None) by (unfold d0; by rewrite (proj1 (hl_quiet _ _ Hh))).
  assert (Hc : contents d0 !! name = fl_content <$> dr_files d0 !! name) by (unfold contents; by rewrite lookup_fmap).
  pose proof (hl_clean _ _ Hh) as Hclean. pose proof (ds_log _ _ _ (hl_state _ _ Hh)) as Hlog.
  rewrite <- (hl_log_name _ _ Hh) in Hlog. fold d0 name in Hclean, Hlog. unfold log_clean, log_holds in Hclean, Hlog.
  unfold grows. destruct (dr_files d0 !! name) as [f|] eqn:Hf; rewrite Hc in *; cbn [fmap option_fmap option_map is_some] in *.
  - assert (Hg : growing d0 name (log_lines (rs_entries r)) [] true (ran (ran d0))).
    { split; [by split| |done]. destruct f as [c k p]. cbn in Hclean. subst c. exists k.
      pose proof (proj2 (hl_quiet _ _ Hh) _ _ Hf) as [Hk Hp]. cbn in Hk, Hp. subst. rewrite app_nil_r.
      split; [exact Hf|lia]. }
    eapply (post_syscall (F:=F)); [done| |]; [split; [by apply within_ran|exact Hg]|intros HF n; split; [done|by left]].
  - destruct Hlog as [_ He]. rewrite He.
    assert (Hg : growing d0 name [] [] false (create_effect name (ran (ran d0)))).
    { split.
      - apply create_touched; [by split|set_solver].
      - unfold create_effect, ran. fields. rewrite Hf. fields. rewrite lookup_insert_eq. by exists 0.
      - unfold create_effect, ran. fields. rewrite Hf. fields. unfold stale. fields. rewrite Hst, Hf. fields.
        apply lookup_insert_eq. }
    eapply (post_syscall (F:=F)); [done| |].
    + split; [effects|exact Hg].
    + intros HF n. split; [done|]. cbv beta. destruct (n =? 0); [by right|by left].
Qed.

Definition with_appended (r : RecoveredState) (es : list Entry) : RecoveredState := with_entries r (rs_entries r ++ es).
(** What a power loss during an append leaves: some of the new entries. *)
Definition prefix_kept (d : Directory) (manifest : option Manifest) (r : RecoveredState) (es : list Entry) : Prop :=
  forall files, survives d files -> exists k, disk_state files manifest (with_appended r (take k es)).

Lemma unappended_kept F s r d es :
  healthy s r -> steady F (live (sg_manifest s)) (contents (sg_dir s)) d -> prefix_kept d (sg_manifest s) r es.
Proof.
  intros Hh Hd files Hf. exists 0%nat. unfold with_appended, with_entries. cbn [take].
  rewrite app_nil_r, recovered_eta. pose proof (healthy_steady F s r d Hh Hd) as Hh'. by apply (healthy_durable _ _ Hh').
Qed.
Lemma appended_log s r es files content :
  healthy s r -> fits (sg_manifest s) r (rs_entries r ++ es) -> files !! sg_log_name s = Some content ->
  (exists tail, content = log_lines (rs_entries r ++ es) ++ tail /\ 0x0A ∉ tail) ->
  (forall name, name ∈ live (sg_manifest s) -> name <> sg_log_name s -> files !! name = contents (sg_dir s) !! name) ->
  disk_state files (sg_manifest s) (with_appended r es).
Proof.
  intros Hh [Hc Ht] Hf Htail Hl. rewrite (hl_log_name _ _ Hh) in *.
  eapply (disk_state_log (contents (sg_dir s))); [apply Hh|exact Hl| |done|done]. by rewrite Hf.
Qed.
Lemma growing_kept s r es existed x d :
  healthy s r -> fits (sg_manifest s) r (rs_entries r ++ es) ->
  existed = is_some (contents (sg_dir s) !! sg_log_name s) ->
  growing (sg_dir s) (sg_log_name s) (log_lines (rs_entries r)) x existed d ->
  (exists n, x = take n (log_lines es)) -> prefix_kept d (sg_manifest s) r es.
Proof.
  intros Hh Hfit He Hg [n ->] files Hf.
  assert (Hother : forall name, name ∈ live (sg_manifest s) -> name <> sg_log_name s ->
    files !! name = contents (sg_dir s) !! name).
  { intros name _ Hne. eapply touched_survives; [apply Hh|apply Hg|done|set_solver]. }
  destruct (growing_survives _ _ _ _ _ _ _ He Hg Hf) as [E|[n' E]].
  - exists 0%nat. unfold with_appended, with_entries. cbn [take]. rewrite app_nil_r, recovered_eta.
    eapply disk_state_live; [|apply (hl_state _ _ Hh)]. intros name Hin.
    destruct (decide (name = sg_log_name s)) as [->|Hne]; [done|by apply Hother].
  - rewrite take_take in E. destruct (take_log (n' `min` n) es) as (k & tail & Hk & Ht). exists k.
    eapply appended_log; [exact Hh|by apply fits_take|exact E| |exact Hother].
    exists tail. by rewrite Hk, log_lines_app, app_assoc.
Qed.
Lemma healthy_metrics s r metrics : healthy s r -> healthy (s <| sg_metrics := metrics |>) r.
Proof. intros []. by split. Qed.

(** The log holds the new entries and everything is on the device. *)
Lemma appended_healthy s s' r es :
  healthy s r -> fits (sg_manifest s) r (rs_entries r ++ es) -> quiet (sg_dir s') ->
  contents (sg_dir s') = <[sg_log_name s := log_lines (rs_entries r ++ es)]> (contents (sg_dir s)) ->
  sg_poisoned s' = sg_poisoned s -> sg_log_name s' = sg_log_name s -> sg_manifest s' = sg_manifest s ->
  healthy s' (with_appended r es).
Proof.
  intros Hh Hfit Hq Hc Hp Hl Hm. split.
  - rewrite Hp. apply Hh.
  - rewrite Hl, Hm. apply Hh.
  - done.
  - rewrite Hm. eapply appended_log; [exact Hh|done|by rewrite Hc, lookup_insert_eq| |].
    + exists []. split; [by rewrite app_nil_r|apply not_elem_of_nil].
    + intros name _ Hne. by rewrite Hc, lookup_insert_ne.
  - by rewrite Hl, Hc, lookup_insert_eq.
Qed.
Lemma grown_synced s r es existed d :
  healthy s r -> existed = is_some (contents (sg_dir s) !! sg_log_name s) ->
  growing (sg_dir s) (sg_log_name s) (log_lines (rs_entries r)) (log_lines es) existed d ->
  let d' := sync_effect (sg_log_name s) d in
  growing (sg_dir s) (sg_log_name s) (log_lines (rs_entries r)) (log_lines es) existed d'
  /\ (let d'' := if existed then d' else d' <| dr_stale := ∅ |> in
      quiet d'' /\ contents d'' = <[sg_log_name s := log_lines (rs_entries r ++ es)]> (contents (sg_dir s))).
Proof.
  intros Hh He [Ht (k & Hf & Hk) Hs] d'. set (name := sg_log_name s) in *.
  assert (F' : dr_files d' !! name
    = Some (mkFile (log_lines (rs_entries r ++ es)) (len64 (log_lines (rs_entries r ++ es))) None)).
  { rewrite log_lines_app. by eapply synced_at. }
  assert (S' : dr_stale d' !! name = if existed then None else Some None) by (unfold d', sync_effect; rewrite Hf; exact Hs).
  assert (T' : touched [name] (sg_dir s) d') by (apply sync_touched; [done|set_solver]).
  split.
  - split; [done| |done]. rewrite <- log_lines_app. eexists. split; [exact F'|]. rewrite log_lines_app, len64_app. lia.
  - cbv zeta. destruct existed.
    + apply rewritten_quiet; [apply Hh|done|done|done].
    + apply rewritten_quiet; [apply Hh| |done|done]. intros n Hn. destruct (T' n Hn) as [Hsn Hfn]. split; [|exact Hfn].
      by rewrite (proj1 (hl_quiet _ _ Hh)).
Qed.

Lemma append_none_post F s r es :
  healthy s r -> within F (sg_dir s) -> fits (sg_manifest s) r (rs_entries r ++ es) ->
  post (append_inner None es)
    (fun _ s' => healthy s' (with_appended r es) /\ within F (sg_dir s') /\ sg_manifest s' = sg_manifest s)
    (fun s' => F /\ prefix_kept (sg_dir s') (sg_manifest s) r es) s.
Proof.
  intros Hh Hw Hfit. unfold append_inner. apply post_bind, post_ret. case_bool_decide as Hes.
  { subst es. apply post_ret. unfold with_appended. rewrite app_nil_r. unfold with_entries. by rewrite recovered_eta. }
  set (name := sg_log_name s). set (d0 := sg_dir s). set (existed := is_some (contents d0 !! name)).
  assert (Hself : F -> F /\ prefix_kept (ran d0) (sg_manifest s) r es).
  { intros HF. split; [done|]. apply (unappended_kept F s r (ran d0)); [done|]. by apply steady_ran, (healthy_self F s r). }
  apply post_bind, post_state, post_bind, post_in_dir. unfold os_exists. apply post_bind.
  eapply (post_syscall (F:=F)); [done| |intros HF n; by apply Hself].
  apply post_bind, post_state, post_ret.
  assert (Hex : is_some (dr_files (id (ran (sg_dir s))) !! sg_log_name s) = existed).
  { unfold existed, contents. rewrite lookup_fmap. fold d0 name. change (dr_files (id (ran d0))) with (dr_files d0).
    by destruct (dr_files d0 !! name). }
  rewrite Hex. change (id (ran (sg_dir s))) with (ran d0). apply post_bind, post_refuse.
  { intros [Hn Hm]%andb_true_iff. exfalso. pose proof (ds_log _ _ _ (hl_state _ _ Hh)) as Hlog.
    rewrite <- (hl_log_name _ _ Hh) in Hlog. fold d0 name in Hlog. unfold existed in Hn.
    destruct (contents d0 !! name); [done|]. destruct Hlog as [Hlog _]. congruence. }
  intros _. assert (Hgrow : forall x d, F -> growing d0 name (log_lines (rs_entries r)) x existed d ->
    (exists n, x = take n (log_lines es)) -> F /\ prefix_kept d (sg_manifest s) r es).
  { intros x d HF Hg Hx. split; [done|]. by apply (growing_kept s r es existed x). }
  apply post_bind, post_in_dir.
  eapply post_mono; [by apply (open_append_post F s r)| |].
  2:{ intros d' [HF [Hg| ->]].
      - apply (Hgrow [] d' HF Hg). by exists 0%nat.
      - split; [done|]. apply (unappended_kept F s r (ran (ran d0))); [done|]. by apply steady_ran, steady_ran, (healthy_self F s r). }
  intros [] d1 [W1 G1]. apply post_bind, post_in_dir.
  eapply (post_syscall (F:=F)); [exact W1| |].
  2:{ intros HF n. eapply Hgrow; [done| |by eexists]. by apply growing_write, growing_ran. }
  change (concat (frame_line <$> es)) with (log_lines es).
  assert (G2 := growing_write _ _ _ (log_lines es) _ _ (growing_ran _ _ _ _ _ _ G1)). fold d0 in G2. fold name in G2. fold existed in G2.
  assert (W2 : within F (write_effect name (log_lines es) (ran d1))) by effects.
  set (d2 := write_effect name (log_lines es) (ran d1)) in *.
  change (write_effect (sg_log_name s) (log_lines es) (ran (sg_dir (s <| sg_dir := ran d0 |> <| sg_dir := d1 |>)))) with d2.
  apply post_bind, post_update, post_bind, post_in_dir.
  assert (Hall : exists n, log_lines es = take n (log_lines es)) by (exists (length (log_lines es)); by rewrite take_ge).
  eapply (post_syscall (F:=F)); [exact W2| |].
  2:{ intros HF n. eapply Hgrow; [done| |exact Hall]. apply growing_ran, G2. }
  destruct (grown_synced s r es existed (ran d2) Hh eq_refl (growing_ran _ _ _ _ _ _ G2)) as [G3 H3'].
  apply post_bind, post_update. cbv zeta in H3'. destruct existed.
  - apply post_ret. destruct H3' as [Q3 C3]. split; [by eapply appended_healthy|]. split; [|done].
    apply (within_same (ran d2)); [apply sync_faults|by apply within_ran].
  - apply post_in_dir. eapply (post_syscall (F:=F)).
    + apply (within_same (ran d2)); [apply sync_faults|by apply within_ran].
    + destruct H3' as [Q3 C3]. split; [by eapply appended_healthy|]. split; [|done].
      apply within_cleared, within_ran, (within_same (ran d2)); [apply sync_faults|by apply within_ran].
    + intros HF n. eapply Hgrow; [done| |exact Hall]. apply growing_ran, G3.
Qed.

Lemma fits_app_l manifest r es es' : fits manifest r (es ++ es') -> fits manifest r es.
Proof.
  intros [Hc Ht]. rewrite continuous_app in Hc. rewrite terms_app in Ht. apply andb_true_iff in Hc as [Hc _].
  by apply Io_bind_Ok in Ht as ([] & Ht & _).
Qed.
Lemma continuous_above base es : continuous base es = true -> Forall (fun e => base < e_index e) es.
Proof.
  revert base. induction es as [|e es IH]; intros base Hc; [done|]. cbn [continuous] in Hc.
  apply andb_true_iff in Hc as [Hi Hc]. apply (proj1 (eqb_true _ _)) in Hi.
  assert (base < e_index e) by (unfold checked_add in Hi; case_match; [|done]; injection Hi; lia).
  constructor; [done|]. eapply list.Forall_impl; [by apply IH|]. cbn. intros. lia.
Qed.

(** The entries an append keeps, and those it ends with. *)
Definition kept (truncate_from : option LogIndex) (es : list Entry) : list Entry :=
  match truncate_from with Some from => below from es | None => es end.
Definition appends (r : RecoveredState) (truncate_from : option LogIndex) (es : list Entry) : RecoveredState :=
  with_entries r (kept truncate_from (rs_entries r) ++ es).

Lemma append_inner_post F s r truncate_from es :
  healthy s r -> within F (sg_dir s) -> fits (sg_manifest s) r (kept truncate_from (rs_entries r) ++ es) ->
  post (append_inner truncate_from es)
    (fun _ s' => healthy s' (appends r truncate_from es) /\ within F (sg_dir s') /\ sg_manifest s' = sg_manifest s)
    (fun s' => F /\ forall files, survives (sg_dir s') files ->
       disk_state files (sg_manifest s) r
       \/ exists k, disk_state files (sg_manifest s) (appends r truncate_from (take k es))) s.
Proof.
  intros Hh Hw Hfit. destruct truncate_from as [from|].
  - unfold append_inner. apply post_bind. eapply post_mono; [by apply (truncate_post F s r); [..|by eapply fits_app_l]| |].
    + intros [] s1 (Hh1 & Hw1 & Hm1). rewrite <- Hm1.
      eapply post_mono; [apply (append_none_post F s1 (with_entries r (below from (rs_entries r))) es Hh1 Hw1)| |].
      * by rewrite Hm1.
      * done.
      * intros s' [HF Hk]. split; [done|]. intros files Hf. destruct (Hk files Hf) as [k Hk']. right. by exists k.
    + intros s' [HF He]. split; [done|]. intros files Hf. destruct (He files Hf) as [?|Hn]; [by left|]. right.
      exists 0%nat. unfold appends, kept. cbn [take]. by rewrite app_nil_r.
  - eapply post_mono; [by apply (append_none_post F s r)|done|].
    intros s' [HF Hk]. split; [done|]. intros files Hf. destruct (Hk files Hf) as [k Hk']. right. by exists k.
Qed.
Lemma append_entries_post F s r truncate_from es :
  healthy s r -> within F (sg_dir s) -> fits (sg_manifest s) r (kept truncate_from (rs_entries r) ++ es) ->
  is_some_and truncate_from (fun from => from <=? base_index (sg_manifest s)) = false ->
  post (append_entries truncate_from es)
    (fun _ s' => healthy s' (appends r truncate_from es) /\ within F (sg_dir s') /\ sg_manifest s' = sg_manifest s)
    (fun s' => F /\ sg_poisoned s' = true /\ forall files, survives (sg_dir s') files ->
       disk_state files (sg_manifest s) r
       \/ exists k, disk_state files (sg_manifest s) (appends r truncate_from (take k es))) s.
Proof.
  intros Hh Hw Hfit Hfrom. unfold append_entries. eapply healthy_refl_usable; [exact Hh|].
  apply post_bind, post_state, post_bind, post_refuse.
  { rewrite Hfrom. cbn [orb]. intros Hhead. exfalso. destruct es as [|e es]; [done|]. cbn in Hhead. apply N.leb_le in Hhead.
    destruct Hfit as [Hc _]. apply continuous_above, list.Forall_app in Hc as [_ [Hi _]%list.Forall_cons]. lia. }
  intros _. apply post_poisoning. eapply post_mono; [by apply (append_inner_post F s r)|done|].
  intros s' [HF Hk]. done.
Qed.
End append.
