(* ===== verification/StorageSafe.v ===== *)
(** * Crash safety of the consensus files

    Flushing and publishing a snapshot; then every operation, and every history
    of a store: acknowledged operations survive, except a publication that the
    store cannot read back, which comes last. *)
From S2P Require Import Prelude Quorum Membership Types Node Store Disk Application ApplicationFacts ApplicationSafe ApplicationLog.
From S2P Require Import SnapshotImage Storage StorageFacts StorageRecovery StorageAppend.
Local Open Scope N_scope.
Local Open Scope raft_scope.

Section safe.
Context `{StorageLaws, Sha256, PayloadFormat}.

(** *** Flushing *)

Lemma sync_settled F names m d name : steady F names m d -> sync_effect name d = d.
Proof.
  intros (_ & [_ Hq] & _). unfold sync_effect. destruct (dr_files d !! name) as [[c k p]|] eqn:Hf; [|done].
  destruct (Hq _ _ Hf) as [Hk Hp]. cbn in Hk, Hp. subst. cbn [fl_content].
  destruct d as [files stales faults]. unfold upd; cbn in *. by rewrite insert_id.
Qed.
Lemma flush_all_post F names m d optional todo :
  steady F names m d -> post (flush_all optional todo) (fun _ => steady F names m) (steady F names m) d.
Proof.
  revert d. induction todo as [|name todo IH]; intros d Hs; [done|]. cbn [flush_all].
  unfold post at 1, os_open_write, mbind, St_bind, state.
  destruct (dr_files d !! name) as [f|] eqn:Hf.
  - unfold syscall. fold (ran d).
    assert (Hgo : post (os_sync name;; flush_all optional todo) (fun _ => steady F names m) (steady F names m) (ran d)).
    { apply post_bind. eapply (post_syscall (F:=F)); [exact (proj1 (steady_ran _ _ _ _ Hs))| |intros _ n; by do 2 apply steady_ran].
      rewrite (sync_settled F names m) by (by do 2 apply steady_ran). apply IH. by do 2 apply steady_ran. }
    destruct (dr_faults d) as [|[n|] l]; try exact Hgo. unfold io_failure, unchanged. by apply steady_ran.
  - unfold fails. destruct optional; [by apply IH|done].
Qed.
Lemma storage_flush_post F s r :
  healthy s r -> within F (sg_dir s) ->
  post storage_flush
    (fun _ s' => healthy s' r /\ within F (sg_dir s') /\ sg_manifest s' = sg_manifest s)
    (fun s' => sg_poisoned s' = true /\ durable (sg_dir s') (sg_manifest s) r) s.
Proof.
  intros Hh Hw. unfold storage_flush. eapply healthy_refl_usable; [exact Hh|].
  apply post_bind, post_state, post_poisoning, post_bind, post_in_dir.
  pose proof (healthy_self F s r Hh Hw) as Hs.
  assert (Hfail : forall d, steady F (live (sg_manifest s)) (contents (sg_dir s)) d -> durable d (sg_manifest s) r).
  { intros d Hd. eapply keeps_durable; [apply Hh|]. by eapply steady_keeps. }
  eapply post_mono; [by apply (flush_all_post F)| |].
  - intros [] d Hd. apply post_in_dir. change (sg_dir (s <| sg_dir := d |>)) with d.
    eapply post_mono; [eapply (sync_directory_post F _ _ d); [exact Hd|done|apply Hd|apply Hd|by eapply steady_keeps]| |].
    + intros [] d' Hd'. split; [by apply (healthy_steady F s r d')|]. split; [apply Hd'|done].
    + intros d' [_ Hk]. split; [done|]. eapply keeps_durable; [apply Hh|exact Hk].
  - intros d Hd. split; [done|]. by apply Hfail.
Qed.

(** *** Publishing a snapshot *)


Lemma suffix_fits boundary es base previous current :
  continuous base es = true -> validate_terms es previous current = IoOk tt ->
  continuous (last_included_index boundary) (suffix_after boundary es) = true
  /\ validate_terms (suffix_after boundary es) (last_included_term boundary) current = IoOk tt.
Proof.
  intros Hc Ht. unfold suffix_after. destruct (existsb _ es) eqn:Hex; [|done].
  apply existsb_exists in Hex as (e & Hin & [Hi Hte]%andb_true_iff). apply N.eqb_eq in Hi, Hte.
  apply list_elem_of_In, list_elem_of_split in Hin as (before & after & ->).
  rewrite continuous_app in Hc. apply andb_true_iff in Hc as [Hb Ha]. rewrite terms_app in Ht.
  apply Io_bind_Ok in Ht as ([] & _ & Ht). cbn [continuous validate_terms] in Ha, Ht.
  apply andb_true_iff in Ha as [Hei Ha]. destruct (_ || _) in Ht; [done|].
  assert (Hbefore : filter (fun x => last_included_index boundary < e_index x) before = []).
  { apply list_filter_none. intros x Hx. rewrite <- Hi. enough (e_index x < e_index e) by lia. revert x Hx. apply list.Forall_forall.
    assert (Hall : forall p l, continuous p (l ++ [e]) = true -> Forall (fun x => e_index x < e_index e) l).
    { intros p l. revert p. induction l as [|y l IH]; intros p; [done|]. cbn [app continuous].
      intros [_ Hy]%andb_true_iff. constructor; [|by eapply IH].
      apply continuous_above, list.Forall_app in Hy as [_ [Hy _]%list.Forall_cons]. done. }
    assert (Hbe : continuous base (before ++ [e]) = true).
    { rewrite continuous_app, Hb. cbn [continuous andb]. by rewrite Hei. }
    by eapply Hall. }
  assert (Hafter : filter (fun x => last_included_index boundary < e_index x) after = after).
  { apply list_filter_all. rewrite <- Hi. by apply list.Forall_forall, continuous_above. }
  rewrite list.filter_app, Hbefore, filter_cons_False, Hafter by lia. cbn [app]. rewrite <- Hi, <- Hte. done.
Qed.

(** The files of a newly selected generation. *)
Record selected_files (files : gmap string Bytes) (m : Manifest) (content : Bytes) (image : SnapshotImage)
    (hs : HardState) (suffix : list Entry) : Prop := {
  sl_hard : exists c, files !! HARDSTATE = Some c /\ decode_hard_state c = IoOk hs;
  sl_current : files !! CURRENT_FILE = Some content;
  sl_image : files !! snapshot_name (mf_generation m) = Some (si_bytes image);
  sl_log : files !! wal_name (mf_generation m) = Some (log_lines suffix);
}.
(** What the checks of a publication establish. *)
Record publishable (m : Manifest) (image : SnapshotImage) (hs : HardState) (suffix : list Entry) : Prop := {
  pb_version : mf_version m = 1;
  pb_generation : mf_generation m <> 0;
  pb_bound : mf_generation m <= u64_max;
  pb_descriptor : mf_snapshot m = si_descriptor image;
  pb_valid : descriptor_validate (mf_snapshot m) = Ok tt;
  pb_term : base_term (Some m) <= current_term hs;
  pb_continuous : continuous (base_index (Some m)) suffix = true;
  pb_terms : validate_terms suffix (base_term (Some m)) (current_term hs) = IoOk tt;
}.
Lemma selected_state files m image hs suffix :
  let content := selection_frame_json (selection_frame m) in
  publishable m image hs suffix -> selected_files files m content image hs suffix ->
  len64 content <= MAX_CURRENT_BYTES -> image_decode (si_bytes image) = IoOk image ->
  disk_state files (Some m) (mkRecovered hs suffix (Some image)).
Proof.
  intros content [Hv Hg _ Hd Hval Ht Hc Hts] [(c & Hh & Hdec) Hcur Himg Hlog] Hl Hi.
  split; cbn [rs_hard_state rs_entries rs_snapshot].
  - by rewrite Hh.
  - exists content, image. split; [done|]. split; [|by split].
    split; [done|]. split; [apply selection_inverse|done].
  - done.
  - cbn [log_name_of]. rewrite Hlog. exists []. rewrite app_nil_r. split; [done|apply not_elem_of_nil].
  - done.
  - done.
Qed.
Lemma selected_live files files' m content image hs suffix :
  (forall name, name ∈ live (Some m) -> files' !! name = files !! name) ->
  selected_files files m content image hs suffix -> selected_files files' m content image hs suffix.
Proof.
  intros Hl [Hh Hc Hi Hg]. unfold live, log_name_of in Hl. split; by rewrite Hl by set_solver.
Qed.

(** A generation file that does not exist is not live. *)
Lemma fresh_dead s r g extension :
  healthy s r -> contents (sg_dir s) !! generation_file g extension = None ->
  generation_file g extension ∉ live (sg_manifest s).
Proof.
  intros Hh Hn. pose proof (ds_selected _ _ _ (hl_state _ _ Hh)) as Hs.
  pose proof (ds_log _ _ _ (hl_state _ _ Hh)) as Hlog. unfold live. rewrite !not_elem_of_cons. split_and!; try done.
  - intros E. rewrite <- E in Hlog. rewrite Hn in Hlog. destruct (sg_manifest s) as [m|]; [by destruct Hlog|done].
  - destruct (sg_manifest s) as [m|]; [|apply not_elem_of_nil]. intros E%list_elem_of_singleton.
    destruct Hs as (content & image & _ & _ & _ & Hi & _). rewrite <- E in Hi. congruence.
Qed.

(** The immutable files of a generation, before it is selected. *)
Record staged (d0 : Directory) (snapshot wal : string) (image log : Bytes) (d : Directory) : Prop := {
  st_quiet : quiet d;
  st_fresh : contents d0 !! snapshot = None /\ contents d0 !! wal = None;
  st_snapshot : contents d !! snapshot = Some image;
  st_wal : contents d !! wal = Some log;
  st_other : forall name, name <> snapshot -> name <> wal -> contents d !! name = contents d0 !! name;
}.
Lemma stage_files_post F d0 g image log (names : list string) :
  quiet d0 -> within F d0 ->
  (forall extension, contents d0 !! generation_file g extension = None -> generation_file g extension ∉ names) ->
  post (write_immutable (snapshot_name g) image;; write_immutable (wal_name g) log;; sync_directory)
    (fun _ d => within F d /\ staged d0 (snapshot_name g) (wal_name g) image log d)
    (keeps_names names (contents d0)) d0.
Proof.
  intros Hq Hw Hdead. set (snapshot := snapshot_name g). set (wal := wal_name g).
  assert (Hne : snapshot <> wal) by apply snapshot_not_wal.
  assert (Hc0 : forall name, contents d0 !! name = fl_content <$> dr_files d0 !! name)
    by (intros name; unfold contents; by rewrite lookup_fmap).
  assert (Hkeep : forall T d, touched T d0 d -> (forall name, name ∈ names -> name ∉ T) -> keeps_names names (contents d0) d).
  { intros T d Ht HT. by eapply (touched_keeps F T names (contents d0) d0). }
  assert (Hsnap : dr_files d0 !! snapshot = None -> contents d0 !! snapshot = None /\ snapshot ∉ names).
  { intros E. assert (contents d0 !! snapshot = None) by (by rewrite Hc0, E). split; [done|]. by apply Hdead. }
  apply post_bind. eapply post_mono; [by apply (write_immutable_post F)| |].
  2:{ intros d [Ht|[Ht Hf]]; [apply (Hkeep [] d Ht); set_solver|]. apply (Hkeep _ d Ht). apply Hsnap in Hf as [_ Hf]. set_solver. }
  intros [] d1 (W1 & T1 & F0 & F1). destruct (Hsnap F0) as [C0 D0].
  assert (Hwal : dr_files d1 !! wal = None -> contents d0 !! wal = None /\ wal ∉ names).
  { intros E. assert (contents d0 !! wal = None).
    { destruct (T1 wal) as [_ Ef]; [set_solver|]. rewrite Ef in E. by rewrite Hc0, E. }
    split; [done|]. by apply Hdead. }
  assert (T1' : touched [snapshot; wal] d0 d1) by (eapply touched_mono; [|exact T1]; set_solver).
  apply post_bind. eapply post_mono; [by apply (write_immutable_post F)| |].
  2:{ intros d [Ht|[Ht Hf]].
      - apply (Hkeep [snapshot] d); [eapply touched_trans; [exact T1|]; eapply touched_mono; [|exact Ht]; set_solver|set_solver].
      - apply Hwal in Hf as [_ Hf]. apply (Hkeep [snapshot; wal] d); [|set_solver].
        eapply touched_trans; [exact T1'|]. eapply touched_mono; [|exact Ht]. set_solver. }
  intros [] d2 (W2 & T2 & F1w & F2). destruct (Hwal F1w) as [C1 D1].
  assert (T2' : touched [snapshot; wal] d0 d2).
  { eapply touched_trans; [exact T1'|]. eapply touched_mono; [|exact T2]. set_solver. }
  assert (F2s : dr_files d2 !! snapshot = Some (mkFile image (len64 image) None)).
  { destruct (T2 snapshot) as [_ ->]; [set_solver|done]. }
  eapply (post_syscall (F:=F)); [done| |intros HF n; apply (Hkeep [snapshot; wal]); [exact T2'|set_solver]].
  split; [effects|].
  assert (Hd2 : forall name, contents (ran d2 <| dr_stale := ∅ |>) !! name = fl_content <$> dr_files d2 !! name)
    by (intros name; unfold contents; by rewrite lookup_fmap).
  split.
  - split; [done|]. intros name f Hf. change (dr_files d2 !! name = Some f) in Hf.
    destruct (decide (name = snapshot)) as [->|H1']; [rewrite F2s in Hf; by injection Hf as <-|].
    destruct (decide (name = wal)) as [->|H2']; [rewrite F2 in Hf; by injection Hf as <-|].
    destruct (T2' name) as [_ Ef]; [set_solver|]. rewrite Ef in Hf. by apply (proj2 Hq) in Hf.
  - done.
  - by rewrite Hd2, F2s.
  - by rewrite Hd2, F2.
  - intros name H1' H2'. rewrite Hd2, Hc0. destruct (T2' name) as [_ ->]; [set_solver|done].
Qed.

Lemma post_in_dir3 {A B C D} (a : St Directory A) (b : St Directory B) (c : St Directory C) (k : St Storage D) Q E s :
  post (a;; b;; c) (fun _ d => post k Q E (s <| sg_dir := d |>)) (fun d => E (s <| sg_dir := d |>)) (sg_dir s) ->
  post (in_dir a;; in_dir b;; in_dir c;; k) Q E s.
Proof.
  unfold post, in_dir, mbind, St_bind. destruct (a (sg_dir s)) as [[x|] d1]; [|done].
  change (sg_dir (s <| sg_dir := d1 |>)) with d1. destruct (b d1) as [[y|] d2]; [|done].
  change (sg_dir (s <| sg_dir := d1 |> <| sg_dir := d2 |>)) with d2. by destruct (c d2) as [[z|] d3].
Qed.
Lemma steady_quiet_self d names : quiet d -> steady True names (contents d) d.
Proof. intros Hq. by split. Qed.

(** The selection of a generation is a synchronised rename. *)
Lemma staged_state s r g image log d :
  healthy s r -> staged (sg_dir s) (snapshot_name g) (wal_name g) image log d ->
  disk_state (contents d) (sg_manifest s) r.
Proof.
  intros Hh [_ [C1 C2] _ _ Ho]. eapply disk_state_live; [|apply (hl_state _ _ Hh)]. intros name Hin. apply Ho.
  - intros ->. by apply (fresh_dead s r g ".snapshot" Hh C1).
  - intros ->. by apply (fresh_dead s r g ".wal" Hh C2).
Qed.
Lemma staged_selected s image suffix m content hs d files :
  staged (sg_dir s) (snapshot_name (mf_generation m)) (wal_name (mf_generation m)) (si_bytes image) (log_lines suffix) d ->
  (exists c, contents (sg_dir s) !! HARDSTATE = Some c /\ decode_hard_state c = IoOk hs) ->
  files !! CURRENT_FILE = Some content ->
  (forall name, name ∈ live (Some m) -> name <> CURRENT_FILE -> files !! name = contents d !! name) ->
  selected_files files m content image hs suffix.
Proof.
  intros [_ _ Cs Cw Ho] Hhs Hc Hl. unfold live, log_name_of in Hl.
  split; [|done| |]; rewrite Hl; try (set_solver || done).
  by rewrite Ho.
Qed.

Definition publishes (image : SnapshotImage) (suffix : list Entry) (r : RecoveredState) (files : gmap string Bytes) (m : Manifest) : Prop :=
  publishable m image (rs_hard_state r) suffix
  /\ selected_files files m (selection_frame_json (selection_frame m)) image (rs_hard_state r) suffix.
(** After a publication: the new generation is selected and on the device. *)
Record published (image : SnapshotImage) (suffix : list Entry) (r : RecoveredState) (m : Manifest) (s : Storage) : Prop := {
  pu_usable : sg_poisoned s = false;
  pu_manifest : sg_manifest s = Some m;
  pu_log_name : sg_log_name s = wal_name (mf_generation m);
  pu_quiet : quiet (sg_dir s);
  pu_files : publishes image suffix r (contents (sg_dir s)) m;
}.

Lemma publish_block_post s r m image suffix :
  healthy s r -> publishable m image (rs_hard_state r) suffix ->
  (exists c, contents (sg_dir s) !! HARDSTATE = Some c /\ decode_hard_state c = IoOk (rs_hard_state r)) ->
  post (in_dir (write_immutable (snapshot_name (mf_generation m)) (si_bytes image));;
        in_dir (write_immutable (wal_name (mf_generation m)) (log_lines suffix));;
        in_dir sync_directory;;
        in_dir (publish_file CURRENT_FILE_NEW CURRENT_FILE (selection_frame_json (selection_frame m)));;
        update (fun s => s <| sg_log_name := wal_name (mf_generation m) |> <| sg_manifest := Some m |>);;
        reclaim)
    (fun _ s' => published image suffix r m s')
    (fun s' => forall files, survives (sg_dir s') files ->
       disk_state files (sg_manifest s) r \/ publishes image suffix r files m) s.
Proof.
  intros Hh Hp Hhs. set (g := mf_generation m). set (content := selection_frame_json (selection_frame m)).
  apply post_in_dir3. eapply post_mono; [apply (stage_files_post True (sg_dir s) g); [apply Hh|done|]| |].
  { intros extension Hn. by eapply fresh_dead. }
  2:{ intros d Hk files Hf. left. eapply keeps_durable; [apply Hh|exact Hk|exact Hf]. }
  intros [] d [_ Hst]. pose proof (staged_state _ _ _ _ _ _ Hh Hst) as Hold.
  assert (Hnew : forall files, files !! CURRENT_FILE = Some content ->
    (forall name, name ∈ live (Some m) -> name <> CURRENT_FILE -> files !! name = contents d !! name) ->
    publishes image suffix r files m).
  { intros files Hc Hl. split; [done|]. by eapply staged_selected. }
  assert (Hdead : forall manifest, CURRENT_FILE_NEW ∉ live manifest).
  { intros manifest. unfold live. rewrite !not_elem_of_cons. destruct manifest; split_and!; try done.
    - intros ?%list_elem_of_singleton. done.
    - apply not_elem_of_nil. }
  apply post_bind, post_in_dir. change (sg_dir (s <| sg_dir := d |>)) with d.
  eapply post_mono; [by apply (publish_file_post True); [apply Hst|..]| |].
  2:{ intros d' [_ Hsw] files Hf. specialize (Hsw files Hf).
      destruct (swapped_live _ _ _ _ _ (live (sg_manifest s) ++ live (Some m)) Hsw) as [Hsame|[Hc Hsame]].
      - rewrite not_elem_of_app. by split.
      - left. eapply disk_state_live; [|exact Hold]. intros name Hin. apply Hsame. set_solver.
      - right. apply Hnew; [done|]. intros name Hin. apply Hsame. set_solver. }
  intros [] d1 (_ & Q1 & C1). apply post_bind, post_update.
  set (s1 := s <| sg_dir := d |> <| sg_dir := d1 |> <| sg_log_name := wal_name g |> <| sg_manifest := Some m |>).
  assert (Hfiles : publishes image suffix r (contents d1) m).
  { apply Hnew; rewrite C1; [apply lookup_insert_eq|]. intros name Hin Hne. rewrite lookup_insert_ne by done.
    rewrite lookup_delete_ne; [done|]. intros <-. by apply (Hdead (Some m)). }
  assert (Hlive : forall files, (forall name, name ∈ live (Some m) -> files !! name = contents d1 !! name) ->
    publishes image suffix r files m).
  { intros files Hl. split; [done|]. eapply selected_live; [exact Hl|apply Hfiles]. }
  eapply post_mono; [apply (reclaim_keeps True s1); done| |].
  - intros [] s' [E (_ & Q' & N')]. rewrite E. split; try done; [apply Hh|]. by apply Hlive.
  - intros s' (_ & _ & Hk) files Hf. right. apply Hlive. by apply Hk.
Qed.

(** The store is as it was, up to reads and counters. *)
Definition undisturbed (s s' : Storage) (r : RecoveredState) : Prop := healthy s' r /\ sg_manifest s' = sg_manifest s.

Lemma publish_snapshot_post s r image suffix :
  healthy s r ->
  post (publish_snapshot image suffix)
    (fun _ s' => exists generation, published image suffix r (mkManifest 1 generation (si_descriptor image)) s')
    (fun s' => undisturbed s s' r \/ sg_poisoned s' = true /\ exists generation, forall files, survives (sg_dir s') files ->
       disk_state files (sg_manifest s) r \/ publishes image suffix r files (mkManifest 1 generation (si_descriptor image))) s.
Proof.
  intros Hh. pose proof (hl_state _ _ Hh) as Hst. pose proof (healthy_self True s r Hh ltac:(done)) as Hs.
  assert (Hsame : forall d, steady True (live (sg_manifest s)) (contents (sg_dir s)) d -> undisturbed s (s <| sg_dir := d |>) r).
  { intros d Hd. split; [by apply (healthy_steady True)|done]. }
  unfold publish_snapshot. eapply healthy_refl_usable; [exact Hh|]. cbv zeta.
  set (boundary := metadata (si_descriptor image)).
  assert (Hnow : undisturbed s s r) by done.
  apply post_bind, post_lift; [|by left]. intros [] Hval%or_invalid_Ok.
  apply post_bind, post_state, post_bind, post_refuse; [by left|]. intros Hindex.
  apply post_bind, post_in_dir. eapply (read_post True); [done| |intros _; left; by apply Hsame, steady_ran].
  pose proof (steady_file _ _ _ _ HARDSTATE Hs ltac:(unfold live; set_solver)) as Hfile.
  pose proof (ds_hard _ _ _ Hst) as Hhard. unfold hard_state_holds in Hhard.
  destruct (contents (sg_dir s) !! HARDSTATE) as [c|] eqn:Hc; rewrite Hfile; [|left; by apply Hsame, steady_ran].
  cbn [fl_content]. pose proof (Hsame _ (steady_ran _ _ _ _ Hs)) as Hran.
  rewrite Hhard. apply post_bind, post_lift; [|by left]. intros hs [= <-].
  apply post_bind, post_refuse; [by left|]. intros _. apply post_bind, post_refuse; [by left|]. intros _.
  apply post_bind, post_refuse; [by left|]. intros Hterm. apply N.ltb_ge in Hterm.
  apply post_bind, post_in_dir. change (sg_dir (s <| sg_dir := ran (sg_dir s) |>)) with (ran (sg_dir s)).
  rewrite (hl_log_name _ _ Hh).
  eapply post_mono; [apply (recover_log_clean True _ _ r Hst); [|by apply steady_ran]| |].
  { rewrite <- (hl_log_name _ _ Hh). apply Hh. }
  2:{ intros d [_ Hd]. left. by apply Hsame. }
  intros es d [-> Hd]. pose proof (Hsame d Hd) as [Hh1 _].
  set (s1 := s <| sg_dir := ran (sg_dir s) |> <| sg_dir := d |>).
  change (s <| sg_dir := d |>) with s1 in Hh1.
  assert (Hs1 : undisturbed s s1 r) by done.
  rewrite (ds_terms _ _ _ Hst). apply post_bind, post_lift; [|done]. intros [] _.
  apply post_bind, post_refuse; [by left|]. intros Hsuffix%negb_false_iff. apply (proj1 (eqb_true _ _)) in Hsuffix.
  apply post_bind, post_lift; [|by left]. intros wal Hwal. apply limited_writes_Ok in Hwal as [Hwal _].
  cbn [app] in Hwal. change (concat (frame_line <$> suffix)) with (log_lines suffix) in Hwal. subst wal.
  apply post_bind, post_lift; [|by left]. intros g Hg.
  assert (Hg0 : g <> 0 /\ g <= u64_max).
  { destruct (sg_manifest s) as [m|]; [|by injection Hg as <-]. unfold checked_add in Hg.
    destruct (N.leb_spec (mf_generation m + 1) u64_max); [|done]. injection Hg as <-. lia. }
  set (m := mkManifest 1 g (si_descriptor image)).
  assert (Hp : publishable m image (rs_hard_state r) suffix).
  { destruct (suffix_fits boundary _ _ _ _ (ds_continuous _ _ _ Hst) (ds_terms _ _ _ Hst)) as [Hcont Hts].
    rewrite Hsuffix in Hcont, Hts. destruct Hg0. by split. }
  apply post_poisoning. eapply post_mono; [apply (publish_block_post s1 r m image suffix Hh1 Hp)| |].
  - exists c. split; [|done]. change (sg_dir s1) with d. destruct Hd as (_ & _ & Hn). rewrite Hn; [done|unfold live; set_solver].
  - intros [] s' Hs'. by exists g.
  - intros s' Hf. right. split; [done|]. exists g. exact Hf.
Qed.

(** ** What the store promises *)

(** The operations of an open store, as the driver calls them. *)
Inductive Operation : Type :=
| SaveHardState (hs : HardState)
| Append (truncate_from : option LogIndex) (entries : list Entry)
| PublishSnapshot (image : SnapshotImage) (retained_suffix : list Entry)
| Flush.
Definition perform (op : Operation) : St Storage unit :=
  match op with
  | SaveHardState hs => save_hard_state hs
  | Append truncate_from entries => append_entries truncate_from entries
  | PublishSnapshot image suffix => publish_snapshot image suffix
  | Flush => storage_flush
  end.

(** The state an operation leaves when it succeeds. *)
Definition outcome (op : Operation) (r : RecoveredState) : RecoveredState :=
  match op with
  | SaveHardState hs => with_hard_state r hs
  | Append truncate_from entries => appends r truncate_from entries
  | PublishSnapshot image suffix => mkRecovered (rs_hard_state r) suffix (Some image)
  | Flush => r
  end.
(** The states an interrupted operation may leave. *)
Definition interrupted (op : Operation) (r r' : RecoveredState) : Prop :=
  r' = r \/ r' = outcome op r
  \/ match op with Append truncate_from entries => exists k, r' = appends r truncate_from (take k entries) | _ => False end.

Definition rs_boundary (r : RecoveredState) : option SnapshotMetadata :=
  (fun image => metadata (si_descriptor image)) <$> rs_snapshot r.
Definition rs_base_index (r : RecoveredState) : LogIndex := map_or (rs_boundary r) 0 last_included_index.
Definition rs_base_term (r : RecoveredState) : Term := map_or (rs_boundary r) 0 last_included_term.

(** What the store relies on its caller for: the membership of a hard state is
    valid and its term does not go back; the entries appended continue the log,
    in order and within the term, and truncation stays above the snapshot; a
    published image decodes from its own bytes.  Of this the store itself refuses
    only a term below the snapshot's and entries or a truncation at or below
    the snapshot. *)
Definition allowed (op : Operation) (r : RecoveredState) : Prop :=
  match op with
  | SaveHardState hs =>
      match hs_membership hs with Some m => cm_validate m = Ok tt | None => True end
      /\ current_term (rs_hard_state r) <= current_term hs
  | Append truncate_from entries =>
      let es := kept truncate_from (rs_entries r) ++ entries in
      continuous (rs_base_index r) es = true
      /\ validate_terms es (rs_base_term r) (current_term (rs_hard_state r)) = IoOk tt
      /\ match truncate_from with Some from => rs_base_index r < from | None => True end
  | PublishSnapshot image _ => image_decode (si_bytes image) = IoOk image
  | Flush => True
  end.

(** The bytes that select a generation of an image, and whether they fit the
    bound under which they are read back.  No code checks this, and whether it
    holds depends on the membership in the image's descriptor. *)
Definition selection_bytes (image : SnapshotImage) (generation : N) : N :=
  len64 (selection_frame_json (selection_frame (mkManifest 1 generation (si_descriptor image)))).
Definition selection_fits (op : Operation) : Prop :=
  match op with
  | PublishSnapshot image _ => forall generation, generation <= u64_max -> selection_bytes image generation <= MAX_CURRENT_BYTES
  | _ => True
  end.
Definition selection_oversized (op : Operation) : Prop :=
  match op with
  | PublishSnapshot image _ => exists generation, generation <= u64_max /\ MAX_CURRENT_BYTES < selection_bytes image generation
  | _ => False
  end.
Lemma fits_not_oversized op : selection_fits op -> ~ selection_oversized op.
Proof. destruct op; cbn; try tauto. intros Hf (g & Hg & Ho). specialize (Hf g Hg). lia. Qed.

(** No process ever opens these files. *)
Definition bricked (files : gmap string Bytes) : Prop :=
  forall faults, exists k e s, open_recovered (booted files faults) = (IoErr k e, s).

(** A process that opens these files finds [r]; if it fails, some call failed,
    and whatever it leaves can be opened and holds [r]. *)
Definition reopens (files : gmap string Bytes) (r : RecoveredState) : Prop :=
  forall faults,
    match open_recovered (booted files faults) with
    | (IoOk r', s) => r' = r /\ healthy s r
    | (IoErr _ _, s) =>
        (exists n, Some n ∈ faults)
        /\ forall files', survives (sg_dir s) files' -> exists s', open_recovered (booted files' []) = (IoOk r, s')
    end.

Lemma disk_state_opens files manifest r :
  disk_state files manifest r -> exists s, open_recovered (booted files []) = (IoOk r, s).
Proof.
  intros Hst. pose proof (open_recovered_spec False files [] manifest r Hst) as Ho.
  destruct (open_recovered _) as [[r'|k e] s].
  - destruct Ho as [-> _]; [|by eexists]. intros n Hn. by apply not_elem_of_nil in Hn.
  - destruct Ho as [[] _]. intros n Hn. by apply not_elem_of_nil in Hn.
Qed.
(** A directory holds one state. *)
Lemma disk_state_unique files manifest r r' : disk_state files manifest r -> disk_state files manifest r' -> r = r'.
Proof.
  intros H1' H2'. destruct (disk_state_opens _ _ _ H1') as [s E], (disk_state_opens _ _ _ H2') as [s' E'].
  congruence.
Qed.
Lemma healthy_unique s r r' : healthy s r -> healthy s r' -> r = r'.
Proof. intros Hh Hh'. by eapply disk_state_unique; apply hl_state. Qed.
Lemma disk_state_reopens files manifest r : disk_state files manifest r -> reopens files r.
Proof.
  intros Hst faults.
  pose proof (open_recovered_spec (exists n, Some n ∈ faults) files faults manifest r Hst) as Ho.
  destruct (open_recovered _) as [[r'|k e] s].
  - destruct Ho as (-> & Hh & _); [|done]. intros n Hn. by exists n.
  - destruct Ho as [HF Hd]; [intros n Hn; by exists n|]. split; [done|]. intros files' Hf.
    eapply disk_state_opens, Hd, Hf.
Qed.
Lemma state_base files manifest r :
  disk_state files manifest r -> base_index manifest = rs_base_index r /\ base_term manifest = rs_base_term r.
Proof.
  intros [_ Hs _ _ _ _]. unfold rs_base_index, rs_base_term, rs_boundary. destruct manifest as [m|].
  - destruct Hs as (content & image & _ & _ & -> & _ & _ & Hd). cbn. by rewrite Hd.
  - by destruct Hs as [_ ->].
Qed.
Lemma oversized_refused files content :
  files !! CURRENT_FILE = Some content -> MAX_CURRENT_BYTES < len64 content -> bricked files.
Proof.
  intros Hc Hl faults. set (names := [CURRENT_FILE]).
  assert (Hs : steady True names files (booted files faults)).
  { split; [done|]. split; [apply booted_quiet|]. intros name _. by rewrite booted_contents. }
  assert (Hinner : post (sync_directory;;
         remove_orphan HARDSTATE_NEW;;
         remove_orphan LOG_NEW;;
         hs ← recover_hard_state;
         selected ← read_manifest;
         '(image, log_name) ← recover_generation hs selected;
         entries ← recover_log_at log_name (base_index selected) (is_some selected);
         lift (validate_terms entries (base_term selected) (current_term hs));;
         mret (selected, log_name, mkRecovered hs entries image)) (fun _ _ => False) (fun _ => True) (booted files faults)).
  { apply post_bind. eapply post_mono; [eapply (sync_directory_post True names files (booted files faults)); try done| |done].
    { apply (booted_quiet files faults). }
    { by eapply steady_keeps. }
    intros [] d1 S1. apply post_bind. eapply post_mono; [apply (remove_orphan_post True names files); [done|set_solver]| |done].
    intros [] d2 S2. apply post_bind. eapply post_mono; [apply (remove_orphan_post True names files); [done|set_solver]| |done].
    intros [] d3 S3. apply post_bind.
    assert (Hhs : post recover_hard_state (fun _ d => steady True names files d) (fun _ => True) d3).
    { unfold post, recover_hard_state. destruct (read_cases True d3 HARDSTATE ltac:(done)) as [Hr|[_ ->]]; [|done].
      destruct (dr_files d3 !! HARDSTATE); rewrite Hr; [|by apply steady_ran]. unfold as_invalid.
      by case_match; [apply steady_ran|]. }
    eapply post_mono; [exact Hhs| |done]. intros hs d4 S4. apply post_bind. unfold read_manifest, os_exists.
    apply post_bind. apply post_bind. eapply (post_syscall (F:=True)); [done| |done].
    apply post_bind, post_state, post_ret. change (dr_files (id (ran d4))) with (dr_files d4).
    pose proof (steady_file _ _ _ _ CURRENT_FILE S4 ltac:(set_solver)) as Hf. rewrite Hc in Hf. rewrite Hf.
    apply post_bind. unfold read_bounded. apply post_bind. eapply (read_post True); [done| |done].
    change (dr_files (id (ran d4))) with (dr_files d4). rewrite Hf. cbn [fl_content].
    apply post_bind, post_refuse; [done|]. intros Hlt. apply N.ltb_ge in Hlt. exfalso. revert Hlt.
    unfold len64 in *. rewrite length_take. lia. }
  unfold open_recovered, post in *. destruct ((sync_directory;; _) (booted files faults)) as [[p|k e] d']; [done|].
  by eexists _, _, _.
Qed.


(** A selected generation is the published state, or is too large to be read. *)
Lemma publishes_state image suffix r files generation :
  image_decode (si_bytes image) = IoOk image ->
  publishes image suffix r files (mkManifest 1 generation (si_descriptor image)) ->
  disk_state files (Some (mkManifest 1 generation (si_descriptor image))) (outcome (PublishSnapshot image suffix) r)
  \/ selection_oversized (PublishSnapshot image suffix) /\ bricked files.
Proof.
  intros Hd [Hp Hs]. destruct (N.le_gt_cases (selection_bytes image generation) MAX_CURRENT_BYTES) as [Hle|Hgt].
  - left. by eapply selected_state.
  - right. split; [|by eapply oversized_refused; [apply Hs|]]. exists generation. split; [apply (pb_bound _ _ _ _ Hp)|done].
Qed.

(** The files hold a state that [Q] accepts, or an oversized selection. *)
Definition leaves (op : Operation) (Q : RecoveredState -> Prop) (files : gmap string Bytes) : Prop :=
  (exists r manifest, Q r /\ disk_state files manifest r) \/ (selection_oversized op /\ bricked files).

(** What an operation does to a healthy store, whichever calls fail. *)
Lemma perform_any F s r op :
  healthy s r -> within F (sg_dir s) -> allowed op r ->
  post (perform op)
    (fun _ s' => healthy s' (outcome op r)
       \/ selection_oversized op /\ forall files, survives (sg_dir s') files -> bricked files)
    (fun s' => match op with PublishSnapshot _ _ | Flush => True | _ => F end
       /\ (healthy s' r \/ sg_poisoned s' = true)
       /\ forall files, survives (sg_dir s') files -> leaves op (interrupted op r) files) s.
Proof.
  intros Hh Hw Ha. destruct (state_base _ _ _ (hl_state _ _ Hh)) as [Hbi Hbt].
  destruct op as [hs|truncate_from es|image suffix|]; cbn [perform outcome allowed] in *.
  - destruct Ha as [Hm Ht]. eapply post_mono; [by apply (save_hard_state_post F s r)| |].
    + intros [] s' [? _]. by left.
    + intros s' (HF & Hp & He). split; [done|]. split; [by right|]. intros files Hf. left.
      destruct (He files Hf) as [Hd|Hd]; do 2 eexists; (split; [|exact Hd]); [by left|by right; left].
  - destruct Ha as (Hc & Ht & Hfrom). rewrite <- Hbi, <- Hbt in *.
    eapply post_mono; [apply (append_entries_post F s r truncate_from es Hh Hw); [by split|]| |].
    + destruct truncate_from as [from|]; [|done]. cbn. by apply N.leb_gt.
    + intros [] s' [? _]. by left.
    + intros s' (HF & Hp & He). split; [done|]. split; [by right|]. intros files Hf. left.
      destruct (He files Hf) as [Hd|[k Hd]]; do 2 eexists; (split; [|exact Hd]); [by left|]. right. right. by exists k.
  - eapply post_mono; [by apply (publish_snapshot_post s r)| |].
    + intros [] s' [g [Hu Hm Hl Hq Hp]]. destruct (publishes_state _ _ _ _ _ Ha Hp) as [Hst|[Ho Hb]].
      * left. split; [done|by rewrite Hm|done|by rewrite Hm|]. destruct Hp as [_ Hsel]. rewrite Hl.
        rewrite (sl_log _ _ _ _ _ _ Hsel). done.
      * right. split; [done|]. intros files Hf. by rewrite (quiet_survives _ _ Hq Hf).
    + intros s' He. split; [done|]. destruct He as [[Hh' _]|[Hp [g He]]].
      * split; [by left|]. intros files Hf. left. exists r. eexists. split; [by left|]. by apply (healthy_durable _ _ Hh').
      * split; [by right|]. intros files Hf. destruct (He files Hf) as [Hd|Hd].
        -- left. do 2 eexists. split; [|exact Hd]. by left.
        -- destruct (publishes_state _ _ _ _ _ Ha Hd) as [Hst|Ho]; [left|by right].
           do 2 eexists. split; [|exact Hst]. right. by left.
  - eapply post_mono; [by apply (storage_flush_post F s r)| |].
    + intros [] s' [? _]. by left.
    + intros s' [Hp Hd]. split; [done|]. split; [by right|]. intros files Hf. left.
      exists r. eexists. split; [by left|]. by apply Hd.
Qed.
Lemma perform_post F s r op :
  healthy s r -> within F (sg_dir s) -> allowed op r -> selection_fits op ->
  post (perform op)
    (fun _ s' => healthy s' (outcome op r))
    (fun s' => match op with PublishSnapshot _ _ | Flush => True | _ => F end
       /\ (healthy s' r \/ sg_poisoned s' = true)
       /\ forall files, survives (sg_dir s') files -> exists r' manifest, interrupted op r r' /\ disk_state files manifest r') s.
Proof.
  intros Hh Hw Ha Hfit. pose proof (fits_not_oversized _ Hfit) as Hno.
  eapply post_mono; [by apply (perform_any F s r op)| |].
  - intros [] s' [Hq|[Ho _]]; [done|tauto].
  - intros s' (HF & Hp & He). split; [done|]. split; [done|]. intros files Hf. by destruct (He files Hf) as [Hq|[Ho _]].
Qed.

(** (C16) Every operation the driver may call ([allowed]: terms do not go back,
    entries continue the log, a published image decodes), whichever of its
    system calls fail and wherever the power is lost: a success is durable; a
    failure leaves the store usable and as it was, or poisoned; and what is then
    found on the device opens, to the state before the operation, the state after
    it, or, for an append, the truncated log with some of the new entries.  The
    one exception is a publication whose selection is larger than the bound under
    which it is read back, which no code checks: the files that hold such a
    selection are never opened again. *)
Theorem storage_crash_safe s r op :
  healthy s r -> allowed op r ->
  match perform op s with
  | (IoOk _, s') =>
      (healthy s' (outcome op r) /\ forall files, survives (sg_dir s') files -> reopens files (outcome op r))
      \/ (selection_oversized op /\ forall files, survives (sg_dir s') files -> bricked files)
  | (IoErr _ _, s') =>
      (healthy s' r \/ sg_poisoned s' = true)
      /\ forall files, survives (sg_dir s') files ->
           (exists r', interrupted op r r' /\ reopens files r') \/ (selection_oversized op /\ bricked files)
  end.
Proof.
  intros Hh Ha. pose proof (perform_any True s r op Hh ltac:(done) Ha) as Hp. unfold post in Hp.
  destruct (perform op s) as [[[]|k e] s'].
  - destruct Hp as [Hp|Hp]; [left|by right]. split; [done|]. intros files Hf.
    by eapply disk_state_reopens, (healthy_durable _ _ Hp).
  - destruct Hp as (_ & Hs & He). split; [done|]. intros files Hf.
    destruct (He files Hf) as [(r' & manifest & Hb & Hd)|Ho]; [left|by right].
    exists r'. split; [done|]. by eapply disk_state_reopens.
Qed.

Lemma perform_poisoned s op : sg_poisoned s = true -> exists e, perform op s = (IoErr OtherError e, s).
Proof.
  intros Hp. exists "store requires reopen after failed durable mutation"%string.
  destruct op; cbn [perform]; unfold save_hard_state, append_entries, publish_snapshot, storage_flush, mbind, St_bind,
    ensure_usable; by rewrite Hp.
Qed.

(** (C28) When no system call fails, a healthy store saves a hard state and appends
    entries as its caller may ask for ([allowed]); and a store that failed refuses
    every operation, whatever its arguments, and changes nothing, until it is
    reopened. *)
Theorem storage_progress s :
  (forall r op, match op with SaveHardState _ | Append _ _ => True | _ => False end -> allowed op r ->
     healthy s r -> Forall (fun o => o = None) (dr_faults (sg_dir s)) ->
     exists s', perform op s = (IoOk tt, s') /\ healthy s' (outcome op r))
  /\ (sg_poisoned s = true -> forall op, exists e, perform op s = (IoErr OtherError e, s)).
Proof.
  split; [|intros Hp op; by apply perform_poisoned]. intros r op Hop Ha Hh Hf.
  assert (Hw : within False (sg_dir s)).
  { intros n Hn. rewrite list.Forall_forall in Hf. by apply Hf in Hn. }
  pose proof (perform_post False s r op Hh Hw Ha ltac:(by destruct op)) as Hp. unfold post in Hp.
  destruct (perform op s) as [[[]|k e] s'].
  - by exists s'.
  - by destruct Hp as [HF _], op.
Qed.

(** *** The life of a store *)

Inductive World : Type := Off (files : gmap string Bytes) | On (s : Storage).
Inductive Event : Type :=
| Opened (r : RecoveredState) | Acknowledged (op : Operation) | Failed (op : Operation) | PowerLoss.

(** One event: any system call may fail in it, and power may be lost between
    events or, after a failure, at the failing call. *)
Inductive world_step : World -> Event -> World -> Prop :=
| world_open files faults r s :
    open_recovered (booted files faults) = (IoOk r, s) -> world_step (Off files) (Opened r) (On s)
| world_open_fails files faults k e s files' :
    open_recovered (booted files faults) = (IoErr k e, s) -> survives (sg_dir s) files' ->
    world_step (Off files) PowerLoss (Off files')
| world_ack s op s' :
    (forall r, healthy s r -> allowed op r) -> perform op s = (IoOk tt, s') -> world_step (On s) (Acknowledged op) (On s')
| world_fail s op k e s' :
    (forall r, healthy s r -> allowed op r) -> perform op s = (IoErr k e, s') -> world_step (On s) (Failed op) (On s')
| world_loss s files : survives (sg_dir s) files -> world_step (On s) PowerLoss (Off files).
(** Every publication an event asked for can be read back. *)
Definition event_fits (event : Event) : Prop :=
  match event with Acknowledged op | Failed op => selection_fits op | Opened _ | PowerLoss => True end.
Inductive lives : list Event -> World -> Prop :=
| lives_new : lives [] (Off ∅)
| lives_step events w event w' : lives events w -> world_step w event w' -> lives (events ++ [event]) w'.

(** The states a history permits: an acknowledged operation took effect, a
    failed one took effect, did not, or was an append cut short. *)
Inductive permitted : list Event -> RecoveredState -> Prop :=
| permitted_new : permitted [] (mkRecovered HardState_default [] None)
| permitted_open events r : permitted events r -> permitted (events ++ [Opened r]) r
| permitted_ack events r op : permitted events r -> permitted (events ++ [Acknowledged op]) (outcome op r)
| permitted_fail events r op r' : permitted events r -> interrupted op r r' -> permitted (events ++ [Failed op]) r'
| permitted_loss events r : permitted events r -> permitted (events ++ [PowerLoss]) r.

Definition holds_permitted (events : list Event) (files : gmap string Bytes) : Prop :=
  exists r manifest, permitted events r /\ disk_state files manifest r.
Definition world_ok (events : list Event) (w : World) : Prop :=
  match w with
  | Off files => holds_permitted events files
  | On s =>
      (exists r, permitted events r /\ healthy s r)
      \/ sg_poisoned s = true /\ forall files, survives (sg_dir s) files -> holds_permitted events files
  end.

Lemma empty_disk_state : disk_state ∅ None (mkRecovered HardState_default [] None).
Proof. by split. Qed.
Lemma holds_fail events files op : holds_permitted events files -> holds_permitted (events ++ [Failed op]) files.
Proof. intros (r & m & Hr & Hd). exists r, m. split; [|done]. eapply permitted_fail; [exact Hr|by left]. Qed.

Lemma world_step_ok events w event w' :
  world_ok events w -> event_fits event -> world_step w event w' -> world_ok (events ++ [event]) w'.
Proof.
  intros Hok Hfit Hstep. destruct Hstep as [files faults r s Ho|files faults k e s files' Ho Hf|s op s' Ha Hp|s op k e s' Ha Hp|s files Hf].
  - destruct Hok as (r0 & manifest & Hr & Hd). pose proof (open_recovered_spec True files faults manifest r0 Hd ltac:(done)) as H'.
    rewrite Ho in H'. destruct H' as (-> & Hh & _). left. exists r0. split; [by constructor|done].
  - destruct Hok as (r0 & manifest & Hr & Hd). pose proof (open_recovered_spec True files faults manifest r0 Hd ltac:(done)) as H'.
    rewrite Ho in H'. destruct H' as [_ Hdur]. exists r0, manifest. split; [by constructor|by apply Hdur].
  - destruct Hok as [(r & Hr & Hh)|[Hpo _]].
    + pose proof (perform_post True s r op Hh ltac:(done) (Ha r Hh) Hfit) as H'. unfold post in H'. rewrite Hp in H'.
      left. exists (outcome op r). split; [by constructor|done].
    + destruct (perform_poisoned s op Hpo) as [e E]. by rewrite E in Hp.
  - destruct Hok as [(r & Hr & Hh)|[Hpo Hall]].
    + pose proof (perform_post True s r op Hh ltac:(done) (Ha r Hh) Hfit) as H'. unfold post in H'. rewrite Hp in H'.
      destruct H' as (_ & [Hh'|Hpo] & He).
      * left. exists r. split; [eapply permitted_fail; [exact Hr|by left]|done].
      * right. split; [done|]. intros files Hf. destruct (He files Hf) as (r' & manifest & Hb & Hd).
        exists r', manifest. split; [by eapply permitted_fail|done].
    + destruct (perform_poisoned s op Hpo) as [e' E]. rewrite E in Hp. injection Hp as <- <- <-.
      right. split; [done|]. intros files Hf. by apply holds_fail, Hall.
  - assert (Hh : holds_permitted events files).
    { destruct Hok as [(r & Hr & Hh)|[_ Hall]]; [|by apply Hall].
      exists r, (sg_manifest s). split; [done|]. by apply (healthy_durable _ _ Hh). }
    destruct Hh as (r & m & Hr & Hd). exists r, m. split; [by constructor|done].
Qed.

(** (C17) Whatever happened to a store since its empty directory (openings that
    succeed or fail, operations as the driver may call them ([allowed]),
    failing system calls, power losses), the device opens, and to a state its
    history permits: every acknowledged operation is there.  The history must not
    ask for a publication whose selection is larger than the bound it is read
    back under ([event_fits]), which no code checks: that one bricks the
    directory. *)
Theorem storage_refines_history events files :
  lives events (Off files) -> Forall event_fits events -> exists r, permitted events r /\ reopens files r.
Proof.
  intros Hl HF. assert (Hok : world_ok events (Off files)).
  { induction Hl as [|events w event w' _ IH Hs].
    - eexists _, None. split; [constructor|exact empty_disk_state].
    - apply list.Forall_app in HF as [HF [Hfit _]%list.Forall_cons]. by eapply world_step_ok; [apply IH|..]. }
  destruct Hok as (r & m & Hr & Hd). exists r. split; [done|]. by eapply disk_state_reopens.
Qed.

(** *** A publication the store cannot read back *)

(** (C29) The selection of a generation is read under a bound that its publication
    does not check: a publication whose selection is larger succeeds, and
    nothing opens the directory again. *)
Theorem oversized_selection_bricks s r image suffix s' m :
  healthy s r -> publish_snapshot image suffix s = (IoOk tt, s') -> sg_manifest s' = Some m ->
  MAX_CURRENT_BYTES < len64 (selection_frame_json (selection_frame m)) ->
  forall files faults, survives (sg_dir s') files ->
    exists k e s'', open_recovered (booted files faults) = (IoErr k e, s'').
Proof.
  intros Hh Hp Hm Hl files faults Hf.
  pose proof (publish_snapshot_post s r image suffix Hh) as H'. unfold post in H'. rewrite Hp in H'.
  destruct H' as (g & [_ Hm' _ Hq [_ Hsel]]). rewrite Hm in Hm'. injection Hm' as ->.
  rewrite (quiet_survives _ _ Hq Hf). eapply oversized_refused; [apply (sl_current _ _ _ _ _ _ Hsel)|done].
Qed.
End safe.
