(* ===== verification/StoreWitnesses.v ===== *)
(** * Concrete runs of the storage engine

    A constant checksum and encodings of the index and the manifest as single
    numbers stand for SHA-256 and JSON; a store is opened, written, flushed,
    compacted and reopened with them. *)
From S2P Require Import Prelude Store Bloom Codec Merge Table TableFacts Disk Lsm LsmView LsmSafe LsmRefine.
Local Open Scope N_scope.
Local Open Scope raft_scope.

#[local] Instance Bloom_dec : EqDecision Bloom.
Proof. solve_decision. Defined.
#[local] Instance Bloom_countable : Countable Bloom.
Proof.
  refine (inj_countable' (fun b => (b_bits b, b_probes b, b_keys b))
    (fun '(x, y, z) => mkBloom x y z) _). by intros [].
Defined.
#[local] Instance BlockMeta_dec : EqDecision BlockMeta.
Proof. solve_decision. Defined.
#[local] Instance BlockMeta_countable : Countable BlockMeta.
Proof.
  refine (inj_countable' (fun b => (k_offset b, k_bytes b, k_first b, k_last b, k_records b))
    (fun '(a, b, c, d, e) => mkBlockMeta a b c d e) _). by intros [].
Defined.
#[local] Instance Footer_dec : EqDecision Footer.
Proof. solve_decision. Defined.
#[local] Instance Footer_countable : Countable Footer.
Proof.
  refine (inj_countable' (fun f => (f_version f, f_blocks f, f_bloom f, f_records f))
    (fun '(a, b, c, d) => mkFooter a b c d) _). by intros [].
Defined.
#[local] Instance TableMeta_countable : Countable TableMeta.
Proof.
  refine (inj_countable' (fun t => (t_id t, t_level t, t_bytes t, t_first t, t_last t,
      t_min_sequence t, t_max_sequence t, t_records t))
    (fun '(a, b, c, d, e, f, g, h) => mkTableMeta a b c d e f g h) _). by intros [].
Defined.
#[local] Instance Manifest_dec : EqDecision Manifest.
Proof. solve_decision. Defined.
#[local] Instance Manifest_countable : Countable Manifest.
Proof.
  refine (inj_countable' (fun m => (mf_version m, mf_applied m, mf_last_digest m, mf_next_id m,
      mf_wal_id m, mf_tables m))
    (fun '(a, b, c, d, e, f) => mkManifest a b c d e f) _). by intros [].
Defined.

Definition demo_digest (_ : Bytes) : Bytes := replicate 32 7.
Definition demo_json {A} `{Countable A} (a : A) : Bytes := [Npos (encode a)].
Definition demo_parse {A} `{Countable A} (b : Bytes) : option A :=
  match b with [Npos p] => decode p | _ => None end.

Lemma demo_inverse {A} `{Countable A} (a : A) : demo_parse (demo_json a) = Some a.
Proof. apply decode_encode. Qed.

#[local] Instance demo_formats : Formats := {|
  digest := demo_digest;
  footer_json := demo_json; footer_parse := demo_parse;
  manifest_json := demo_json; manifest_parse := demo_parse;
|}.
#[local] Instance demo_laws : FormatLaws.
Proof. split; [reflexivity|apply demo_inverse|apply demo_inverse]. Qed.

(** ** Parts *)

Definition demo_rows : list Cell := [mkCell [1] (Some [10]) 1; mkCell [2] None 2; mkCell [3; 0] (Some []) 1].

Lemma demo_cells_ok r : r ∈ demo_rows -> cell_ok r.
Proof.
  assert (Hall : Forall cell_ok demo_rows); [|intros Hr; by eapply list.Forall_forall in Hall].
  repeat constructor; try (apply mutation_ok_bool; vm_compute; reflexivity);
    apply N.leb_le; vm_compute; reflexivity.
Qed.

Lemma batch_frame_roundtrip_witness :
  exists payload, encode_batch 4 5 [mkMutation [1] (Some [10]); mkMutation [2] None] = IoOk payload
  /\ decode_batch payload = IoOk (4, 5, [mkMutation [1] (Some [10]); mkMutation [2] None]).
Proof.
  eexists. split; [vm_compute; reflexivity|].
  apply (batch_frame_roundtrip demo_digest WAL_MAGIC 4 5 [mkMutation [1] (Some [10]); mkMutation [2] None]);
    [reflexivity|reflexivity|vm_compute; discriminate|vm_compute; reflexivity].
Defined.

Lemma merge_correct_witness :
  exists rows, merge_rows (map ok_source [demo_rows; [mkCell [2] (Some [9]) 1]]) = IoOk rows.
Proof.
  destruct (merge_correct [demo_rows; [mkCell [2] (Some [9]) 1]]) as [H _].
  - intros run [->|[->|H]%elem_of_cons]%elem_of_cons; [..|by apply not_elem_of_nil in H];
      apply keys_increasing_sorted; vm_compute; reflexivity.
  - destruct H as (rows & Hr & _); [|by exists rows].
    apply versions_consistent. intros r r' Hr Hr'. cbn in Hr, Hr'.
    repeat (apply elem_of_cons in Hr as [->|Hr]; [|]); [..|by apply not_elem_of_nil in Hr];
      repeat (apply elem_of_cons in Hr' as [->|Hr']; [|]); try (by apply not_elem_of_nil in Hr'); cbn; congruence.
Defined.

Lemma table_roundtrip_witness :
  exists meta file t, write_table demo_digest demo_json 3 1 demo_rows = (IoOk meta, Some file)
  /\ table_open demo_digest demo_parse file meta = IoOk t /\ table_iter demo_digest t = map IoOk demo_rows.
Proof.
  destruct (write_table demo_digest demo_json 3 1 demo_rows) as [[meta|] [file|]] eqn:Hw; try (vm_compute in Hw; discriminate).
  destruct (table_roundtrip demo_digest demo_json demo_parse 3 1 demo_rows meta file) as (t & Ho & Hi & _);
    [reflexivity|apply demo_inverse|apply demo_cells_ok|discriminate|vm_compute; discriminate|exact Hw|].
  exists meta, file, t. split; [reflexivity|]. by split.
Defined.

(** ** A store *)

Definition demo_options : LsmOptions := mkLsmOptions 256 256 2 256 1048576.
Definition demo_changes : list Mutation := [mkMutation [1] (Some [10]); mkMutation [2] (Some [20])].

Definition demo_fresh : LsmStore := Eval vm_compute in
  match Open demo_options ∅ with
  | (IoOk s, _) => s
  | _ => mkLsmStore ∅ demo_options initial_manifest [] 0 0 ∅ 0 0 [] default_statistics false None
  end.
Lemma demo_opened : Open demo_options ∅ = (IoOk demo_fresh, s_fs demo_fresh).
Proof. vm_compute. reflexivity. Qed.
Lemma demo_fresh_holds : holds demo_fresh 0 (fun _ => None).
Proof. destruct (fresh_correct _ _ _ demo_opened) as (_ & Hr & Hp). by split. Qed.

(** Two commits, each flushed: two tables on level 0. *)
Definition demo_run : L unit :=
  Commit 1 1 demo_changes;;
  Flush;;
  Commit 2 2 [mkMutation [1] None; mkMutation [3] (Some [30])];;
  Flush.
Definition demo_full : LsmStore := Eval vm_compute in (demo_run demo_fresh).2.
Definition demo_map : Bytes -> option Bytes :=
  put_all [mkMutation [1] None; mkMutation [3] (Some [30])] (put_all demo_changes (fun _ => None)).

Lemma demo_ran : demo_run demo_fresh = (IoOk tt, demo_full).
Proof. vm_compute. reflexivity. Qed.
Lemma post_result {A} (m : L A) Q E s a s' : post m Q E s -> m s = (IoOk a, s') -> Q a s'.
Proof. unfold post. intros H Hm. by rewrite Hm in H. Qed.
Lemma small_index n : n <= 1000 -> n <= u64_max.
Proof. pose proof u64_max_big. lia. Qed.
Lemma demo_full_holds : holds demo_full 2 demo_map.
Proof.
  apply (post_result demo_run (fun _ s' => holds s' 2 demo_map) (fun _ => True) demo_fresh tt); [|apply demo_ran].
  unfold demo_run. apply post_bind.
  eapply post_mono; [apply (commit_spec _ 0 (fun _ => None) 1 1 demo_changes demo_fresh_holds); apply small_index; lia| |done].
  intros [|] s1; [|intros (_ & E & _); discriminate]. intros [_ H1].
  apply post_bind. eapply post_mono; [apply (flush_spec _ _ _ H1)| |done]. intros [] s2 [H2 _].
  apply post_bind. eapply post_mono;
    [apply (commit_spec _ _ _ 2 2 [mkMutation [1] None; mkMutation [3] (Some [30])] H2); apply small_index; lia| |done].
  intros [|] s3; [|intros (_ & E & _); discriminate]. intros [_ H3].
  eapply post_mono; [apply (flush_spec _ _ _ H3)| |done]. by intros [] s4 [H4 _].
Qed.

Lemma lsm_refines_witness :
  holds demo_fresh 0 (fun _ => None)
  /\ exists s', Commit 1 1 demo_changes demo_fresh = (IoOk Applied, s')
     /\ holds s' 1 (put_all demo_changes (fun _ => None)).
Proof.
  split; [exact demo_fresh_holds|]. destruct (lsm_refines demo_fresh 0 (fun _ => None) demo_fresh_holds) as (Hc & Hs & _).
  destruct (Hs 1 1 demo_changes (default [] (match encode_batch 1 1 demo_changes with IoOk p => Some p | _ => None end)))
    as [s' Hs']; try (vm_compute; reflexivity).
  exists s'. split; [exact Hs'|]. apply (Hc 1 1 demo_changes s'); [apply small_index; lia|exact Hs'].
Defined.

(** A commit that meets a fault after its batch is in the log. *)
Definition demo_faulty : LsmStore := inject_failure WalSynced demo_full.
Lemma demo_faulty_holds : holds demo_faulty 2 demo_map.
Proof. apply (holds_field demo_full); [exact demo_full_holds|reflexivity]. Qed.
Definition demo_third : list Mutation := [mkMutation [4] (Some [40])].

Lemma lsm_failures_atomic_witness :
  exists k e s', Commit 3 3 demo_third demo_faulty = (IoErr k e, s')
  /\ (s' = demo_faulty \/ failed s' 2 demo_map 3 (put_all demo_third demo_map)).
Proof.
  destruct (Commit 3 3 demo_third demo_faulty) as [[o|k e] s'] eqn:Hc; [vm_compute in Hc; discriminate|].
  exists k, e, s'. split; [reflexivity|].
  apply (proj1 (lsm_failures_atomic demo_faulty 2 demo_map demo_faulty_holds) 3 3 demo_third k e s');
    [apply small_index; lia|exact Hc].
Defined.

Lemma lsm_reads_witness :
  demo_map [2] = Some [20] /\ exists stats, Get [2] demo_full = (IoOk (Some [20]), demo_full <| s_stats := stats |>).
Proof.
  split; [reflexivity|]. exact (proj1 (lsm_reads demo_full 2 demo_map demo_full_holds) [2]).
Defined.

(** A crash after ten bytes of the third batch. *)
Lemma lsm_recovers_witness :
  exists payload bytes s', encode_batch 3 3 demo_third = IoOk payload
  /\ frame demo_digest WAL_MAGIC payload = IoOk bytes
  /\ Open demo_options (alter (.++ take 10 bytes) (Wal (s_wal demo_full)) (s_fs demo_full)) = (IoOk s', s_fs s').
Proof.
  destruct (encode_batch 3 3 demo_third) as [payload|] eqn:He; [|vm_compute in He; discriminate].
  destruct (frame demo_digest WAL_MAGIC payload) as [bytes|] eqn:Hf;
    [|vm_compute in He; injection He as <-; vm_compute in Hf; discriminate].
  destruct (lsm_recovers demo_full 2 demo_map 3 3 demo_third payload bytes 10 demo_options demo_full_holds)
    as (s' & Ho & _); [reflexivity|apply small_index; lia|reflexivity|exact He|exact Hf|vm_compute; reflexivity|].
  exists payload, bytes, s'. split; [reflexivity|]. split; [exact Hf|exact Ho].
Defined.

(** Two level-zero tables: the first compaction does something. *)
Lemma compaction_terminates_witness :
  (Compact demo_full).1 = IoOk true /\ Acc compacts demo_full.
Proof.
  split; [vm_compute; reflexivity|]. exact (compaction_terminates demo_full 2 demo_map demo_full_holds).
Defined.

Lemma reachable_store_reopens_witness :
  exists s', Open demo_options (s_fs (Commit 1 1 demo_changes demo_fresh).2) = (IoOk s', s_fs s').
Proof.
  destruct (reachable_store_reopens (Commit 1 1 demo_changes demo_fresh).2) as (a & v & _ & Ho).
  - apply reach_commit; [|apply small_index; lia]. exact (reach_fresh _ _ _ demo_opened).
  - destruct (Ho demo_options) as (s' & Hs' & _); [reflexivity|]. by exists s'.
Defined.
