(* ===== verification/ShardWitnesses.v ===== *)
(** * Concrete formats for the shard service

    A constant digest and a flat encoding of images and values in lists of numbers
    stand for the third-party code, so that the examples of [ShardWitnesses] can be
    evaluated. *)
From S2P Require Import Prelude Types Quorum Membership ShardTypes Controller ControllerInv ControllerSafe ControllerGuarantees ShardData ShardDataInv Topology ControllerTheorems ShardSteps ShardGuarantees ShardMachine Service Handoff HandoffController HandoffTheorems HandoffMarks Coordinator HandoffProgress.
Local Open Scope N_scope.
Local Open Scope raft_scope.

(** ** A flat encoding *)

Class Flat (A : Type) := {
  flat : A -> list N;
  unflat : list N -> option (A * list N);
  unflat_flat a rest : unflat (flat a ++ rest) = Some (a, rest);
}.

#[export] Hint Mode Flat ! : typeclass_instances.

#[export] Instance flat_N : Flat N.
Proof.
  refine {| flat n := [n]; unflat l := match l with n :: rest => Some (n, rest) | [] => None end |}. done.
Defined.
#[export] Instance flat_string : Flat string.
Proof.
  refine {| flat s := [Npos (countable.encode s)];
    unflat l := match l with Npos p :: rest => s ← decode p; Some (s, rest) | _ => None end |}.
  intros s rest. cbn. by rewrite decode_encode.
Defined.
#[export] Instance flat_pair `{Flat A, Flat B} : Flat (A * B).
Proof.
  refine {| flat p := flat p.1 ++ flat p.2;
    unflat l := '(a, l) ← unflat l; '(b, l) ← unflat l; Some ((a, b), l) |}.
  intros [a b] rest. rewrite <-app_assoc, unflat_flat. cbn. by rewrite unflat_flat.
Defined.
#[export] Instance flat_option `{Flat A} : Flat (option A).
Proof.
  refine {| flat o := match o with Some a => 1 :: flat a | None => [0] end;
    unflat l := match l with 0 :: l => Some (None, l) | 1 :: l => '(a, l) ← unflat l; Some (Some a, l) | _ => None end |}.
  intros [a|] rest; cbn; [by rewrite unflat_flat|done].
Defined.

Fixpoint unflat_times `{Flat A} (n : nat) (l : list N) : option (list A * list N) :=
  match n with
  | O => Some ([], l)
  | S n => '(a, l) ← unflat l; '(xs, l) ← unflat_times n l; Some (a :: xs, l)
  end.
#[export] Instance flat_list `{Flat A} : Flat (list A).
Proof.
  refine {| flat xs := N.of_nat (length xs) :: concat (flat <$> xs);
    unflat l := match l with n :: l => unflat_times (N.to_nat n) l | [] => None end |}.
  intros xs rest. cbn. rewrite Nat2N.id. induction xs as [|a xs IH]; cbn; [done|].
  rewrite <-app_assoc, unflat_flat. cbn. by rewrite IH.
Defined.

(** Through an isomorphism. *)
Definition flat_through {A B} `{Flat B} (f : A -> B) (g : B -> A) (Hgf : forall a, g (f a) = a) : Flat A.
Proof.
  refine {| flat a := flat (f a); unflat l := '(b, l) ← unflat l; Some (g b, l) |}.
  intros a rest. rewrite unflat_flat. cbn. by rewrite Hgf.
Defined.
#[export] Instance flat_gmap `{Countable K, Flat K, Flat A} : Flat (gmap K A).
Proof. exact (flat_through (B := list (K * A)) map_to_list list_to_map (list_to_map_to_list (M := gmap K))). Defined.
#[local] Instance flat_Origin : Flat Origin.
Proof. refine (flat_through (fun o => (o_group o, o_index o)) (fun '(g, i) => mkOrigin g i) _). by intros []. Defined.
#[local] Instance flat_TransferId : Flat TransferId.
Proof.
  refine (flat_through (fun i => (ti_shard i, ti_epoch i, ti_controller_index i)) (fun '(s, e, c) => mkTransferId s e c) _).
  by intros [].
Defined.
#[local] Instance flat_Move : Flat Move.
Proof.
  refine (flat_through (fun m => (mv_id m, mv_source m, mv_destination m, mv_previous_epoch m))
    (fun '(a, b, c, d) => mkMove a b c d) _). by intros [].
Defined.
#[local] Instance flat_Receipt : Flat Receipt.
Proof.
  refine (flat_through (fun r => (rc_origin r, rc_shard r, rc_epoch r, rc_session r, rc_sequence r))
    (fun '(a, b, c, d, e) => mkReceipt a b c d e) _). by intros [].
Defined.
#[local] Instance flat_Cached : Flat Cached.
Proof.
  refine (flat_through (fun c => (ca_sequence c, ca_digest c, ca_payload c, ca_receipt c))
    (fun '(a, b, c, d) => mkCached a b c d) _). by intros [].
Defined.
#[local] Instance flat_Session : Flat Session.
Proof.
  refine (flat_through (fun s => (se_id s, se_nonce s, se_registered s, se_closed s, se_keys s))
    (fun '(a, b, c, d, e) => mkSession a b c d e) _). by intros [].
Defined.
#[local] Instance flat_ShardData : Flat ShardData.
Proof.
  refine (flat_through (fun d => (sd_cells d, sd_sessions d, sd_nonces d)) (fun '(a, b, c) => mkShardData a b c) _).
  by intros [].
Defined.
#[local] Instance flat_ShardImage : Flat ShardImage.
Proof.
  refine (flat_through (fun i => (si_version i, si_proof_identity i, si_fence i, si_shard_count i, si_data i))
    (fun '(a, b, c, d, e) => mkShardImage a b c d e) _). by intros [].
Defined.

(** ** The formats *)

Definition demo_parse {A} `{Flat A} (b : Bytes) : option A := fst <$> unflat b.
Lemma demo_parse_flat {A} `{Flat A} (a : A) : demo_parse (concat [flat a]) = Some a.
Proof. unfold demo_parse. cbn. by rewrite unflat_flat. Qed.

#[export] Instance demo_types : TypeFormats := {|
  sha256 := fun _ => replicate 32 0;
  operation_serialize := fun _ => [[0]];
  completion_serialize := fun _ => [[0]];
|}.
#[export] Instance demo_controller : Serialize Controller := fun c => [bytes (to_string (co_applied c))].
#[export] Instance demo_data : DataFormats := {|
  image_serialize := fun image => [flat image];
  value_serialize := fun value => [flat value];
  record_serialize := fun _ => [[0]];
  machine_serialize := fun d => [bytes (to_string (dm_applied d))];
  image_deserialize := demo_parse;
  value_deserialize := demo_parse;
|}.

Lemma bytes_length s : len64 (bytes s) = str_len s.
Proof.
  unfold len64, bytes, str_len. f_equal. induction s as [|a s IH]; cbn; [done|]. by rewrite IH.
Qed.
#[export] Instance demo_controller_laws : ControllerLaws.
Proof.
  intros c n. unfold to_vec, to_writer, demo_controller. cbn [concat]. rewrite !app_nil_r, !bytes_length.
  cbn [upd co_applied]. lia.
Qed.
#[export] Instance demo_data_laws : DataLaws.
Proof.
  split.
  - intros d n. unfold to_vec, to_writer. cbn [concat machine_serialize demo_data].
    rewrite !app_nil_r, !bytes_length. cbn [upd dm_applied]. lia.
  - intros d. unfold to_vec, to_writer. cbn [concat machine_serialize demo_data].
    rewrite !app_nil_r, !bytes_length. lia.
  - intros image. apply demo_parse_flat.
  - intros value. apply demo_parse_flat.
Qed.

(** * Concrete runs of the shard service

    Two data groups are bootstrapped, a client writes, its shard moves from one group
    to the other, and the client goes on; the theorems of the controller, of the data
    groups and of the service apply to the states of this run. *)
(** Both sides of an equation have the same value. *)
Local Ltac by_computing := lazymatch goal with |- _ = ?y => vm_cast_no_check (eq_refl y) end.

(** ** A run *)

(** Two groups, one shard, one node. *)
Definition demo_address (port : N) : SocketAddr := mkSocketAddr (V4 0x7f000001) port 0 0.
Definition demo_topology : Topology :=
  mkTopology 1 "demo" [1; 2] [1] {[ 0 := [1]; 1 := [1]; 2 := [1] ]}
    [mkMember 1 (demo_address 80) {[ 0 := demo_address 100; 1 := demo_address 101; 2 := demo_address 102 ]}].
Definition demo_put (e : N) : DataCommand := DMutate 0 e (mkOrigin 1 2) "k" 1 (Some "v"%string).

(** The requests of the run. *)
Definition demo_open : list (GroupId * Action) := [(0, ABootstrap); (1, ABootstrap); (2, ABootstrap); (1, ARegister 0 1 "n")].
Definition demo_write : list (GroupId * Action) := [(1, AMutate 0 1 (mkOrigin 1 2) "k" 1 (Some "v"%string))].
Definition demo_begin : list (GroupId * Action) := [(0, ABeginMove "move" 0 1 2)].
Definition demo_abort : list (GroupId * Action) := [(0, AAdvance "move" StAbort)].
Definition demo_steps : list (GroupId * Action) :=
  (fun '(g, step) => (g, AAdvance "move" step)) <$>
  [(1, StFence); (0, StRecordFence); (2, StBeginInstall); (2, StPullChunk); (2, StFinishInstall); (0, StRecordInstalled);
   (0, StOwn); (2, StActivate); (0, StRecordActivated); (1, StCleanup); (0, StRecordCleanup); (0, StComplete)].

(** The groups of the run, and a client session at the first owner. *)
Definition demo_opened : System :=
  Eval vm_compute in default sys_initial (drive demo_topology sys_initial demo_open).
(** The client's request. *)
Definition demo_served : System :=
  Eval vm_compute in default sys_initial (drive demo_topology demo_opened demo_write).
(** A move of the shard, and what becomes of it: an abort, or its end. *)
Definition demo_started : System :=
  Eval vm_compute in default sys_initial (drive demo_topology demo_served demo_begin).
Definition demo_aborted : System :=
  Eval vm_compute in default sys_initial (drive demo_topology demo_started demo_abort).
Definition demo_moved : System :=
  Eval vm_compute in default sys_initial (drive demo_topology demo_started demo_steps).
Example demo_steps_settle : settle demo_topology 12 demo_started "move" = Some (demo_moved, None).
Proof. by_computing. Qed.

(** The answer to the request, and to the same request at the new owner. *)
Definition demo_answered (s : System) (g index e : N) : option (DataReply * Machine) :=
  match operation (machine_at (sy_now s) g) index (OData (demo_put e)) with
  | Done (RpData reply, m) => Some (reply, m)
  | _ => None
  end.
Definition demo_first : option (DataReply * Machine) := Eval vm_compute in demo_answered demo_opened 1 3 1.
Definition demo_again : option (DataReply * Machine) := Eval vm_compute in demo_answered demo_moved 2 6 2.

(** ** The run is one of the system *)

Lemma demo_topology_valid : topology_valid demo_topology = true.
Proof. done. Qed.
Lemma demo_groups (requests : list (GroupId * Action)) :
  forallb (fun r => contains r.1 (all_groups demo_topology)) requests = true ->
  Forall (fun r => r.1 ∈ all_groups demo_topology) requests.
Proof.
  induction requests as [|r rest IH]; cbn; intros H; [by apply list.Forall_nil|]. bool_inv.
  apply list.Forall_cons. split; [by apply contains_true|by apply IH].
Qed.
Lemma demo_opened_reachable : sys_reachable demo_topology demo_opened.
Proof. apply (drive_steps _ _ demo_open); [by apply demo_groups|by_computing]. Qed.
Lemma demo_serves_once : sys_step demo_topology demo_opened demo_served.
Proof.
  apply (perform_step demo_topology demo_opened 1 (AMutate 0 1 (mkOrigin 1 2) "k" 1 (Some "v"%string))
    (RpData (default (DRProgress (mkTransferId 0 0 0) 0) (fst <$> demo_first)))); [by apply contains_true|by_computing].
Qed.
Lemma demo_serves : rtc (sys_step demo_topology) demo_opened demo_served.
Proof. apply (drive_steps _ _ demo_write); [by apply demo_groups|by_computing]. Qed.
Lemma demo_starts : rtc (sys_step demo_topology) demo_served demo_started.
Proof. apply (drive_steps _ _ demo_begin); [by apply demo_groups|by_computing]. Qed.
Lemma demo_moves : rtc (sys_step demo_topology) demo_started demo_moved.
Proof. apply (drive_steps _ _ demo_steps); [by apply demo_groups|by_computing]. Qed.
Lemma demo_aborts : rtc (sys_step demo_topology) demo_started demo_aborted.
Proof. apply (drive_steps _ _ demo_abort); [by apply demo_groups|by_computing]. Qed.
Lemma demo_served_reachable : sys_reachable demo_topology demo_served.
Proof. unfold sys_reachable. etrans; [apply demo_opened_reachable|apply demo_serves]. Qed.
Lemma demo_started_reachable : sys_reachable demo_topology demo_started.
Proof. unfold sys_reachable. etrans; [apply demo_served_reachable|apply demo_starts]. Qed.
Lemma demo_moved_reachable : sys_reachable demo_topology demo_moved.
Proof. unfold sys_reachable. etrans; [apply demo_started_reachable|apply demo_moves]. Qed.

(** The controller of a run is one of its own. *)
Lemma controller_along s s' : sys_step demo_topology s s' -> rtc ctrl_step (sn_ctl (sy_now s)) (sn_ctl (sy_now s')).
Proof.
  intros [g op index reply m _ _ Ho|index c Ha|g index d _ Ha]; cbn; [|by eapply rtc_once, step_advance|done].
  unfold machine_at in Ho. destruct (g =? CONTROLLER);
    apply operation_cases in Ho as [(c & cmd & r & c' & E & -> & -> & Ha)|(d & cmd & r & d' & E & -> & -> & Ha)];
    try discriminate; cbn; [injection E as <-; by eapply rtc_once, step_apply|done].
Qed.
Lemma controllers_along s s' : rtc (sys_step demo_topology) s s' -> rtc ctrl_step (sn_ctl (sy_now s)) (sn_ctl (sy_now s')).
Proof. induction 1; [done|]. etrans; [by apply controller_along|done]. Qed.
Lemma controller_steps_reachable c c' : reachable c -> rtc ctrl_step c c' -> reachable c'.
Proof. intros Hc H. induction H as [|c c2 c3 [index command r Ha|index Ha] _ IH]; eauto using reach_apply, reach_advance. Qed.
Lemma demo_controller_reachable s : sys_reachable demo_topology s -> reachable (sn_ctl (sy_now s)).
Proof. intros H. eapply controller_steps_reachable; [apply reach_default|by apply (controllers_along sys_initial)]. Qed.

(** ** The theorems on the run *)

Lemma controller_reachable_valid_witness :
  validate (sn_ctl (sy_now demo_moved)) = Done tt
  /\ apply (sn_ctl (sy_now demo_moved)) 12 (CBegin "back" 0 2 1) <> Panicked.
Proof. apply controller_reachable_valid. apply demo_controller_reachable, demo_moved_reachable. Defined.

Definition demo_transfer : Transfer := Eval vm_compute in
  default (mkTransfer "none" (mkMove (mkTransferId 0 0 0) 0 0 0) PStarted) (co_transfers (sn_ctl (sy_now demo_aborted)) !! "move").
Lemma controller_decisions_final_witness :
  exists t', co_transfers (sn_ctl (sy_now demo_aborted)) !! "move" = Some t' /\ extends PStarted (tr_phase t').
Proof.
  destruct (controller_decisions_final (sn_ctl (sy_now demo_started)) (sn_ctl (sy_now demo_aborted)) "move"
    (demo_transfer <| tr_phase := PStarted |>)) as [(t' & Ht & _ & He & _) _].
  - apply demo_controller_reachable, demo_started_reachable.
  - apply controllers_along, demo_aborts.
  - by vm_compute.
  - by exists t'.
Defined.

Lemma controller_retry_idempotent_witness :
  exists reply, execute (sn_ctl (sy_now demo_started) <| co_applied := 9 |>) 9 (CBegin "move" 0 1 2)
    = Done (reply, sn_ctl (sy_now demo_started) <| co_applied := 9 |>).
Proof.
  eexists. eapply (controller_retry_idempotent (sn_ctl (sy_now demo_served)) 2).
  - apply demo_controller_reachable, demo_served_reachable.
  - by vm_compute.
Defined.

(** A data group on its own: its first commands. *)
Fixpoint demo_execute (d : DataMachine) (commands : list DataCommand) : option DataMachine :=
  match commands with
  | [] => Some d
  | command :: rest =>
      match data_apply d (dm_applied d + 1) command with
      | Done (Done _, d) => demo_execute d rest
      | _ => None
      end
  end.
Lemma demo_execute_reachable d commands d' : Forall command_typed commands -> data_reachable d ->
  demo_execute d commands = Some d' -> data_reachable d'.
Proof.
  intros HF. revert d. induction HF as [|command rest Hc _ IH]; cbn; intros d Hd H; [by injection H as <-|].
  destruct (data_apply _ _ _) as [[[r| |] d1]| |] eqn:Ha; try discriminate. eapply IH; [|exact H]. by eapply dreach_apply.
Qed.
Definition demo_commands : list DataCommand := [DInitialize 1 [1; 2] [0]; DRegister 0 1 "n"; demo_put 1].
Definition demo_machine : DataMachine :=
  Eval vm_compute in match data_new 1 with Done d => default d (demo_execute d demo_commands) | _ => mkDataMachine 0 0 None 0 [] ∅ ∅ end.
Lemma demo_machine_reachable : data_reachable demo_machine.
Proof.
  eapply (demo_execute_reachable _ demo_commands); [|by apply (dreach_new 1)|by_computing].
  unfold demo_commands. repeat (apply list.Forall_cons; split; [done|]). by apply list.Forall_nil.
Qed.
Lemma data_reachable_valid_witness :
  data_validate demo_machine = Done tt /\ data_apply demo_machine 4 (DFence (mkMove (mkTransferId 0 2 2) 1 2 1)) <> Panicked.
Proof. by apply data_reachable_valid; [apply demo_machine_reachable|]. Defined.

Lemma demo_group g : contains g (tp_groups demo_topology) = true -> g ∈ tp_groups demo_topology.
Proof. by apply contains_true. Qed.

(** The shard as the new owner holds it. *)
Definition demo_slot : N * option ActivationProof * option ShardData :=
  Eval vm_compute in match dm_shards (sn_data (sy_now demo_moved) 2) !! 0 with
    | Some (mkShard (SActive e a) sd) => (e, a, sd) | _ => (0, None, None) end.
Lemma handoff_single_server_witness :
  dm_shards (sn_data (sy_now demo_moved) 2) !! 0 = Some (mkShard (SActive 2 demo_slot.1.2) demo_slot.2)
  /\ exists r, co_routes (sn_ctl (sy_now demo_moved)) !! 0%nat = Some r /\ ro_owner r = 2 /\ ro_epoch r = 2.
Proof.
  assert (H : dm_shards (sn_data (sy_now demo_moved) 2) !! 0 = Some (mkShard (SActive 2 demo_slot.1.2) demo_slot.2)) by by_computing.
  split; [exact H|].
  apply (handoff_single_server demo_topology demo_moved 0 2 2 2 2 _ _ _ _ demo_topology_valid demo_moved_reachable
    (demo_group 2 eq_refl) (demo_group 2 eq_refl) H H).
Defined.

Lemma handoff_reads_current_witness : exists data r, content demo_topology (sy_now demo_moved) 0 = Some data
  /\ co_routes (sn_ctl (sy_now demo_moved)) !! 0%nat = Some r /\ ro_owner r = 2
  /\ mjoin (sd_cells data !! "k") = Some "v"%string.
Proof.
  destruct (handoff_reads_current demo_topology demo_moved 0 2 2 "k" (ObValue 2 0 2 "k" (Some "v"%string))
    demo_topology_valid demo_moved_reachable (demo_group 2 eq_refl)) as (data & r & Hc & Hr & Ho & _ & E); [by_computing|].
  exists data, r. injection E as <-. done.
Defined.

Lemma handoff_refines_shard_witness :
  shard_step 0 (content demo_topology (sy_now demo_opened) 0) (content demo_topology (sy_now demo_served) 0).
Proof. exact (handoff_refines_shard demo_topology _ _ 0 demo_topology_valid demo_opened_reachable demo_serves_once). Defined.

Definition demo_result (o : option (DataReply * Machine)) : DataReply * Machine :=
  default (DRProgress (mkTransferId 0 0 0) 0, MController controller_default) o.
Lemma handoff_exactly_once_witness : (demo_result demo_again).1 = (demo_result demo_first).1
  /\ content demo_topology (put_machine (sy_now demo_moved) 2 (demo_result demo_again).2) 0
     = content demo_topology (sy_now demo_moved) 0.
Proof.
  apply (handoff_exactly_once demo_topology demo_opened demo_moved 0 1 2 (demo_put 1) (demo_put 2) 3 6 _ _
    (demo_result demo_first).2); try done.
  - apply demo_opened_reachable.
  - by apply demo_group.
  - by apply demo_group.
  - assert (E : push demo_opened (put_machine (sy_now demo_opened) 1 (demo_result demo_first).2) = demo_served) by by_computing.
    rewrite E. etrans; [apply demo_starts|apply demo_moves].
Defined.

Lemma handoff_settles_witness : exists s' out, settle demo_topology settle_fuel demo_started "move" = Some (s', out)
  /\ rtc (sys_step demo_topology) demo_started s'.
Proof.
  destruct (handoff_settles demo_topology demo_started "move" (demo_transfer <| tr_phase := PStarted |>))
    as (s' & out & E & Hs & _).
  - done.
  - apply demo_started_reachable.
  - by_computing.
  - intros g Hg. assert (H : forallb (fun g => machine_applied (machine_at (sy_now demo_started) g)
      + 2 * (MAX_TRANSFER_BYTES + 12) <=? u64_max) (all_groups demo_topology) = true) by by_computing.
    rewrite forallb_forall in H. apply N.leb_le, H, list_elem_of_In, Hg.
  - exists s', out. split; [exact E|exact Hs].
Defined.

#[local] Instance demo_bootstrap_json : Serialize Bootstrap := fun _ => [[0]].
Lemma scope_accepted_witness : exists s, scope demo_topology 2 = Done s.
Proof.
  apply scope_accepted; [done|by apply contains_true|by vm_compute|done|].
  by apply (list.Forall_replicate _ 32).
Defined.
