(* ===== verification/Witnesses.v ===== *)
(** * Concrete runs

    A one-node and a three-node group driven through elections, proposals,
    compaction and reconfiguration, on which the theorems are instantiated. *)
From S2P Require Import Prelude Rng Quorum Membership Types Node MembershipProtocol.
From S2P Require Import SnapshotTransfer Replication Election Step LogFacts MembershipFacts.
From S2P Require Import History Effects Invariant CommitPath SendPath LeaderPath ElectionPath.
From S2P Require Import StepSafe FollowerPath SnapshotPath SnapshotFlow.
From S2P Require Import Recovery Sim SimSafe.
From S2P Require Import Guarantees ReplicationRules SimInvariants.
Local Open Scope N_scope.
Local Open Scope raft_scope.

(** ** Runs *)

(** Messages without an image. *)
Definition plain_message (m : RaftMessage) : bool :=
  match m with GroupMessage _ _ _ | InstallSnapshot _ _ _ _ _ _ => false | _ => true end.
Definition plain_input (i : Input) : bool :=
  match i with
  | Message _ m => plain_message m
  | SnapshotPublished _ _ => false
  | _ => true
  end.

Definition idle (n : RaftNode) : bool :=
  is_none (publishing_snapshot n) && negb (recovery_pending n).

Fixpoint run_all (n : RaftNode) (inputs : list Input) : option RaftNode :=
  match inputs with
  | [] => Some n
  | i :: rest =>
      if plain_input i && idle n then '(n', _) ← step n i; run_all n' rest else None
  end.

Lemma plain_admissible n i : plain_input i = true -> idle n = true -> admissible n i.
Proof.
  intros Hi [Hp Hr]%andb_true_iff. split.
  - left. by destruct (publishing_snapshot n).
  - destruct i; try done. cbn in *. by destruct msg.
  - left. by apply negb_true_iff in Hr.
Qed.

Lemma run_all_inv n inputs n' : inv n -> run_all n inputs = Some n' -> inv n'.
Proof.
  revert n. induction inputs as [|i rest IH]; intros n Hi; cbn; [by intros [= <-]|].
  destruct (plain_input i && idle n) eqn:Hb; [|done]. apply andb_true_iff in Hb as [H1 H2].
  destruct (step n i) as [[n1 es]|] eqn:Hs; [|done]. cbn. apply IH.
  by apply (step_stepped n i n1 es Hi (plain_admissible n i H1 H2) Hs).
Qed.

Definition nobody : RaftNode :=
  fresh_node 0 [] 0 (mkCommittedMembership 0 0 (mkMembershipState 0 "" [] (Stable []) ∅ ∅ ∅ ∅)).

(** A single voter, before and after it elects itself. *)
Definition node1 : RaftNode := Eval vm_compute in default nobody (RaftNode_new 1 [] 7).
Definition armed1 : RaftNode := Eval vm_compute in default nobody (run_all node1 [Tick 10]).
Definition leader1 : RaftNode := Eval vm_compute in default nobody (run_all armed1 [Tick 400]).

(** The first of three voters: campaigning, then leading after one vote. *)
Definition node3 : RaftNode := Eval vm_compute in default nobody (RaftNode_new 1 [2; 3] 7).
Definition candidate3 : RaftNode := Eval vm_compute in
  default nobody (run_all node3 [Tick 10; Tick 400;
    Message 2 (PreVoteReply 0 1 (mkCampaignId 7 1) true)]).
Definition leader3 : RaftNode := Eval vm_compute in
  default nobody (run_all candidate3 [Message 2 (RequestVoteReply 1 true)]).
(** Its no-op replicated to node 2, and a read waiting. *)
Definition serving3 : RaftNode := Eval vm_compute in
  default nobody (run_all leader3 [Message 2 (AppendEntriesReply 1 true 1 1 None)]).
Definition reading3 : RaftNode := Eval vm_compute in default nobody (run_all serving3 [ReadIndex 9]).

Lemma node1_new : RaftNode_new 1 [] 7 = Some node1.
Proof. vm_compute. reflexivity. Qed.
Lemma node3_new : RaftNode_new 1 [2; 3] 7 = Some node3.
Proof. vm_compute. reflexivity. Qed.

Lemma node1_inv : inv node1.
Proof. exact (new_inv _ _ _ _ node1_new). Qed.
Lemma node3_inv : inv node3.
Proof. exact (new_inv _ _ _ _ node3_new). Qed.

Lemma armed1_inv : inv armed1.
Proof. apply (run_all_inv node1 [Tick 10]); [exact node1_inv|]. vm_compute. reflexivity. Qed.
Lemma leader1_inv : inv leader1.
Proof. apply (run_all_inv armed1 [Tick 400]); [exact armed1_inv|]. vm_compute. reflexivity. Qed.
Lemma candidate3_inv : inv candidate3.
Proof.
  apply (run_all_inv node3 [Tick 10; Tick 400;
    Message 2 (PreVoteReply 0 1 (mkCampaignId 7 1) true)]); [exact node3_inv|].
  vm_compute. reflexivity.
Qed.
Lemma leader3_inv : inv leader3.
Proof.
  apply (run_all_inv candidate3 [Message 2 (RequestVoteReply 1 true)]); [exact candidate3_inv|].
  vm_compute. reflexivity.
Qed.
Lemma serving3_inv : inv serving3.
Proof.
  apply (run_all_inv leader3 [Message 2 (AppendEntriesReply 1 true 1 1 None)]);
    [exact leader3_inv|]. vm_compute. reflexivity.
Qed.
Lemma reading3_inv : inv reading3.
Proof.
  apply (run_all_inv serving3 [ReadIndex 9]); [exact serving3_inv|]. vm_compute. reflexivity.
Qed.

(** ** The simulated nodes *)

(** A node that has just been started from an empty disk. *)
Definition sim_of (n : RaftNode) (applied : list (LogIndex * Command)) : SimNode :=
  mkSimNode n true (hard n) (log n) None [] None (current_term (hard n)) applied 0 [] [].

Lemma sim_of_up images n applied :
  inv n -> snapshot n = None -> publishing_snapshot n = None ->
  outgoing_snapshots n = ∅ -> incoming_snapshot n = None ->
  applied = history_of (take (N.to_nat (last_applied n)) (log n)) -> up images (sim_of n applied).
Proof.
  intros Hi Hs Hp Ho Hin Ha. split; [split; [split|]|done|cbn; lia]; try done.
  - unfold disk_of, durable. cbn. by rewrite Hs.
  - split.
    + intros to o. cbn. by rewrite Ho, lookup_empty.
    + intros a. cbn. by rewrite Hin.
Qed.

Definition sim_leader1 : SimNode := sim_of leader1 [(1, NoOp)].

(** An image of one entry, and the stand-ins for the digest and the rendering. *)
Definition digest0 (bytes : list N) : list N := [len64 bytes].
Definition render0 (m : SnapshotMetadata) (entries : list Entry) : list N := [last_included_index m].
Definition image3 : VirtualImage :=
  mkVirtualImage (mkSnapshotDescriptor (mkSnapshotMetadata 1 1 [1; 2; 3] None) 48 [48])
    [mkEntry 1 1 NoOp] (replicate 48 0).
Definition images3 : Images := {[ [48] := image3 ]}.

Lemma images3_ok : catalogue_ok images3.
Proof.
  intros key image H. unfold images3 in H. apply lookup_singleton_Some in H as [<- <-].
  split; [done|]. by split.
Qed.

(** A follower that receives the whole image in one chunk. *)
Definition follower3 : RaftNode := Eval vm_compute in default nobody (run_all node3 [Tick 10]).
Definition sim_follower3 : SimNode := sim_of follower3 [].
Definition chunk3 : Input :=
  Message 2 (InstallSnapshot (mkSnapshotTransferId 2 1 0 1) (vi_descriptor image3) 0
               (vi_bytes image3) true 1).

Lemma follower3_inv : inv follower3.
Proof. apply (run_all_inv node3 [Tick 10]); [exact node3_inv|]. vm_compute. reflexivity. Qed.

(** The chunk is staged, published and announced within the one input. *)
Example chunk3_installed :
  (fun s => (snapshot (sn_core s), sn_applied s, sn_disk_log s, length (sn_net s)))
    <$> sim_input digest0 images3 sim_follower3 chunk3
  = Some (Some (vi_descriptor image3), [(1, NoOp)], [], 1%nat).
Proof. vm_compute. reflexivity. Qed.

(** The batch in which a single voter elects itself. *)
Definition elect1 : list Effect := Eval vm_compute in snd (default (nobody, []) (step armed1 (Tick 400))).
Lemma elect1_step : step armed1 (Tick 400) = Some (leader1, elect1).
Proof. vm_compute. reflexivity. Qed.
Lemma elect1_admissible : admissible armed1 (Tick 400).
Proof. apply plain_admissible; reflexivity. Qed.

Lemma sim_step_never_panics_witness :
  exists s', sim_input digest0 images3 sim_follower3 chunk3 = Some s' /\ up images3 s'.
Proof.
  apply (sim_step_never_panics digest0 images3 sim_follower3 chunk3).
  - exact images3_ok.
  - apply sim_of_up; [exact follower3_inv|reflexivity..].
  - split; [reflexivity|vm_compute; discriminate|]. split.
    + intros image H _. unfold images3 in H. apply lookup_singleton_Some in H as [_ <-].
      reflexivity.
    + exact I.
Defined.

Definition reboot1 : RaftNode := Eval vm_compute in default nobody (RaftNode_new 1 [] 5).

Lemma crash_restart_never_panics_witness :
  exists s1 s2, crash 5 1 sim_leader1 = Some s1
    /\ restart digest0 images3 5 1 420 s1 = Some s2 /\ up images3 s2.
Proof.
  apply (crash_restart_never_panics digest0 images3 sim_leader1 5 1 420 reboot1 5).
  - exact images3_ok.
  - apply sim_of_up; [exact leader1_inv|reflexivity..].
  - vm_compute. reflexivity.
  - intros _. vm_compute. reflexivity.
Defined.

Lemma step_total_and_invariant_witness : exists n' es, step armed1 (Tick 400) = Some (n', es) /\ inv n'.
Proof. exact (step_total_and_invariant armed1 (Tick 400) armed1_inv elect1_admissible). Defined.

(** The announcement of leadership comes after both writes. *)
Lemma persist_before_observe_witness : exec (take 2 elect1) (durable armed1) = durable leader1.
Proof.
  refine (proj1 (persist_before_observe armed1 (Tick 400) leader1 (take 2 elect1)
    (RoleChanged "Leader" 1) (drop 3 elect1) armed1_inv elect1_admissible _) eq_refl).
  vm_compute. reflexivity.
Defined.

Lemma step_keeps_promises_witness : current_term (hard armed1) <= current_term (hard leader1).
Proof. exact (proj1 (step_keeps_promises armed1 (Tick 400) leader1 elect1 armed1_inv elect1_admissible
                elect1_step)).
Defined.

Lemma step_applies_in_order_witness :
  applied_run (last_applied armed1) elect1 = Some (last_applied leader1).
Proof. exact (proj1 (step_applies_in_order armed1 (Tick 400) leader1 elect1 armed1_inv
                elect1_admissible elect1_step)).
Defined.

Lemma execution_keeps_promises_witness : inv leader1.
Proof.
  refine (proj1 (execution_keeps_promises armed1 [(Tick 400, elect1)] leader1 armed1_inv _)).
  exact (exec_snoc armed1 [] armed1 (Tick 400) elect1 leader1 (exec_nil armed1) elect1_admissible
           elect1_step).
Defined.

Lemma restart_roundtrip_witness :
  exists n', restore_with_snapshot 1 [] 9 (hard leader1) (snapshot leader1) (log leader1)
             = Some (inr n')
    /\ inv n' /\ durable n' = durable leader1
    /\ committed_membership n' = committed_membership leader1
    /\ effective_membership n' = effective_membership leader1
    /\ snapshot_index leader1 <= commit_index n' <= commit_index leader1.
Proof.
  apply (restart_roundtrip leader1 1 [] 9 (default nobody (RaftNode_new 1 [] 9))).
  - exact leader1_inv.
  - vm_compute. reflexivity.
  - intros _. vm_compute. reflexivity.
Defined.

Definition restored1 : RaftNode := Eval vm_compute in
  match restore_with_snapshot 1 [] 9 (hard leader1) None (log leader1) with
  | Some (inr n) => n | _ => nobody end.

Lemma restore_establishes_invariant_witness : inv restored1.
Proof.
  refine (proj1 (restore_establishes_invariant 1 [] 9 (hard leader1) None (log leader1) restored1
    _ _)).
  - vm_compute. reflexivity.
  - done.
Defined.

(** ** Reconfiguration *)

Definition no_membership : CommittedMembership :=
  mkCommittedMembership 0 0 (mkMembershipState 0 "" [] (Stable []) ∅ ∅ ∅ ∅).
Definition ok_or {A} (d : A) (r : Result A) : A := match r with Ok a => a | Err _ => d end.

Definition group3 : CommittedMembership := Eval vm_compute in
  ok_or no_membership (cm_bootstrap_with_group "group-a" [1; 2; 3]).
Definition shrink : ConfigurationEntry := mkConfigurationEntry "shrink" (SetVoters [1; 2]) PhJoint.
Definition shrunk : ConfigurationEntry := mkConfigurationEntry "shrink" (SetVoters [1; 2]) PhFinal.
Definition joint3 : CommittedMembership := Eval vm_compute in ok_or no_membership (advanced group3 1 1 shrink).

Lemma reconfiguration_safe_witness :
  exists x, x ∈ voters (ms_voters (cm_state group3)) /\ x ∈ voters (ms_voters (cm_state joint3))
            /\ x ∈ ({[2; 3]} : gset N) /\ x ∈ ({[1; 2]} : gset N).
Proof.
  refine (proj2 (proj2 (proj2 (proj2 (proj2
    (reconfiguration_safe group3 group3 1 1 shrink joint3 _ _ _))))) {[2; 3]} {[1; 2]} _ _).
  - vm_compute. reflexivity.
  - constructor.
  - vm_compute. reflexivity.
  - vm_compute. reflexivity.
  - vm_compute. reflexivity.
Defined.

Definition history3 : list Entry :=
  [mkEntry 1 1 NoOp; mkEntry 2 1 (Configuration shrink); mkEntry 3 1 (Configuration shrunk)].

Lemma required_quorums_agree_witness :
  exists obligations, required_quorums [1; 2; 3] history3 = Some obligations /\
    forall k e, history3 !! k = Some e ->
      exists ck q, replay_all group3 (take (S k) history3) = Ok ck /\ obligations !! e_index e = Some q
        /\ forall durable, witnessed_quorum q durable = has_quorum (ms_voters (cm_state ck)) durable.
Proof.
  refine (required_quorums_agree "group-a" [1; 2; 3] group3 history3
    (ok_or no_membership (replay_all group3 history3)) 0 1 _ _ _).
  - vm_compute. reflexivity.
  - cbn. lia.
  - vm_compute. reflexivity.
Defined.

(** ** Replication *)

(** The leader of three once node 2's acknowledgement is recorded. *)
Definition matched3 : RaftNode :=
  leader3 <| role := Leader ∅ {[2 := 1]} |>.
Lemma matched3_wf : wf matched3.
Proof.
  destruct leader3_inv as [[[Hc He Hv] _] _]. split.
  - eapply core_frame; [|exact Hc]. by split.
  - exact He.
  - destruct Hv as [_ _ _ H4]. split; [done|done|done|exact H4].
Qed.

Lemma quorum_commit_candidate_correct_witness :
  committable matched3 {[2 := 1]} 1 /\ forall j, committable matched3 {[2 := 1]} j -> j <= 1.
Proof. exact (quorum_commit_candidate_correct matched3 ∅ {[2 := 1]} matched3_wf eq_refl). Defined.

Lemma commit_advance_correct_witness : 0 < 1 /\ majority_matched [1; 1; 0] 1.
Proof.
  assert (Hl : log_ok 0 0 1 [mkEntry 1 1 NoOp]) by (cbn; lia).
  destruct (commit_advance_correct 0 1 [mkEntry 1 1 NoOp] [1; 1; 0] 0 0 1 Hl) as (H1 & H2 & _).
  exact (conj H1 H2).
Defined.

Definition payload : list Entry := [mkEntry 1 1 NoOp; mkEntry 2 1 (Put "k" "v")].
Lemma append_walks_agree_witness :
  exists m tf appended n1, merged_with (log_pos leader1 0) (log leader1) payload m /\
    fold_each (candidate_step (snapshot_index leader1)) (log leader1) payload leader1
    = Some (m, leader1, []) /\
    fold_each append_step (None, []) payload leader1 = Some ((tf, appended), n1, []) /\
    log n1 ++ appended = m /\ apply_write (log leader1) tf appended = m.
Proof.
  apply (append_walks_agree leader1 0 0 payload).
  - exact (wf_core _ (proj1 (proj1 leader1_inv))).
  - reflexivity.
  - cbn. lia.
Defined.

Definition broadcast3 : list Effect :=
  [Send 2 (AppendEntries 1 1 0 0 [mkEntry 1 1 NoOp] 0 1)].
Lemma send_append_request_valid_witness : request_ok leader3 0 0 [mkEntry 1 1 NoOp].
Proof.
  refine (proj2 (proj2 (proj2 (proj2 (send_append_request_valid leader3 {[2 := 1]} 2 leader3
    broadcast3 2 1 1 0 0 [mkEntry 1 1 NoOp] 0 1 _ _ _ _))))).
  - exact (proj1 (proj1 leader3_inv)).
  - vm_compute. reflexivity.
  - left.
  - lia.
Defined.

Lemma conflict_hint_accepted_witness :
  rejected_index (mkAppendConflictHint 1 None 1) = 1
  /\ hint_is_valid leader3 1 false (last_log_index node3) (mkAppendConflictHint 1 None 1) = true.
Proof.
  apply (conflict_hint_accepted node3 leader3 1 1 (mkAppendConflictHint 1 None 1) 1).
  - exact (wf_core _ (proj1 (proj1 node3_inv))).
  - vm_compute. reflexivity.
  - vm_compute. discriminate.
  - vm_compute. discriminate.
  - vm_compute. discriminate.
  - vm_compute. reflexivity.
Defined.

Lemma progress_after_correct_witness :
  let '(next', matched') := progress_after false 4 (Some 3) 9 2 in
  2 <= matched' /\ 0 < next' /\ (matched' < u64_max -> matched' < next') /\
  (matched' = 2 /\ (2 + 1 < 9 -> next' < 9) /\ (9 <= 2 + 1 -> next' = 2 + 1)).
Proof.
  apply (progress_after_correct false 4 (Some 3) 9 2). vm_compute. reflexivity.
Defined.

(** ** Elections and reads *)

Definition voter3 : RaftNode := node3 <| hard := mkHardState 1 None None |>.
Definition vote3 : RaftNode * list Effect := Eval vm_compute in
  match on_request_vote 1 2 0 0 voter3 with Some (_, n, es) => (n, es) | None => (nobody, []) end.

Lemma granted_vote_is_durable_witness : hard vote3.1 = hard voter3 <| voted_for := Some 2 |>.
Proof.
  refine (proj1 (proj2 (granted_vote_is_durable voter3 1 2 0 0 vote3.1 vote3.2 2 1 _ _))).
  - vm_compute. reflexivity.
  - right. left.
Defined.

Definition elected3 : RaftNode * list Effect := Eval vm_compute in
  match on_request_vote_reply 2 1 true candidate3 with
  | Some (_, n, es) => (n, es) | None => (nobody, []) end.

Lemma leadership_needs_quorum_witness :
  exists votes, role candidate3 = Candidate votes /\ true = true
    /\ 1 = current_term (hard candidate3) /\ is_voter candidate3 2 = true
    /\ has_quorum (voter_config candidate3) (votes ∪ {[2]}) = true.
Proof.
  apply (leadership_needs_quorum candidate3 2 1 true elected3.1 elected3.2);
    vm_compute; reflexivity.
Defined.

Definition released3 : RaftNode * list Effect := Eval vm_compute in
  match on_read_probe_reply 3 1 1 true reading3 with
  | Some (_, n, es) => (n, es) | None => (nobody, []) end.

Lemma read_ready_needs_quorum_witness :
  exists p, pending_reads reading3 !! 9 = Some p /\ pr_context p = 1 /\ 1 = 1
    /\ pr_term p = current_term (hard reading3) /\ 1 = current_term (hard reading3)
    /\ 1 = pr_index p /\ is_leader reading3 = true /\ true = true
    /\ has_quorum (voter_config reading3) (pr_voters p ∪ {[3]}) = true
    /\ pending_reads released3.1 !! 9 = None.
Proof.
  apply (read_ready_needs_quorum reading3 3 1 1 true released3.1 released3.2 9 1 1 1).
  - vm_compute. reflexivity.
  - left.
Defined.

Definition admitted3 : RaftNode * list Effect := Eval vm_compute in
  match on_read_index 9 serving3 with Some (_, n, es) => (n, es) | None => (nobody, []) end.

Lemma read_admission_witness :
  (exists reason, admitted3.2 = [ReadRejected 9 (leader_hint serving3) reason]
     /\ pending_reads admitted3.1 = pending_reads serving3)
  \/ (is_leader serving3 = true
      /\ term_at serving3 (commit_index serving3) = current_term (hard serving3)
      /\ read_context admitted3.1 = read_context serving3 + 1 /\ read_context serving3 < u64_max
      /\ ((self_quorum serving3 = true
           /\ admitted3.2 = [ReadReady 9 (read_context serving3 + 1) (commit_index serving3)
                               (current_term (hard serving3))])
          \/ pending_reads admitted3.1
             = <[9 := mkPendingRead (read_context serving3 + 1) (current_term (hard serving3))
                        (commit_index serving3) {[node_id serving3]}]> (pending_reads serving3))).
Proof.
  apply (read_admission serving3 9 admitted3.1 admitted3.2).
  - exact (proj1 (proj1 serving3_inv)).
  - vm_compute. reflexivity.
  - vm_compute. reflexivity.
Defined.

Lemma group_envelope_roundtrip_witness :
  exists msg', wrap_group_effects leader3 [Send 2 (ReadProbe 1 1 1)] = [Send 2 msg']
    /\ unwrap_group_message node3 msg' = Some (ReadProbe 1 1 1).
Proof.
  destruct (group_envelope_roundtrip leader3 node3 2 (ReadProbe 1 1 1) eq_refl)
    as (msg' & H1 & H2 & _).
  exists msg'. split; [exact H1|]. apply H2; vm_compute; reflexivity.
Defined.

(** ** Compaction *)

Definition images0 : Images := (∅ : gmap (list N) VirtualImage).
Definition registry1 : CommittedRegistry := {[ 1 := mkEntry 1 1 NoOp ]}.

Lemma compaction_never_panics_witness :
  exists images' s', compact digest0 render0 registry1 images0 sim_leader1 48 = Some (images', s')
    /\ catalogue_ok images' /\ up images' s'.
Proof.
  apply (compaction_never_panics digest0 render0 registry1 images0 sim_leader1 48).
  - intros key image H. unfold images0 in H. by apply lookup_empty_Some in H.
  - apply sim_of_up; [exact leader1_inv|reflexivity..].
  - vm_compute. reflexivity.
  - intros e ->%list_elem_of_singleton. vm_compute. reflexivity.
  - intros image H. split; [|apply lookup_empty]. vm_compute in H. injection H as <-.
    vm_compute. discriminate.
Defined.

Definition image1 : VirtualImage :=
  mkVirtualImage (mkSnapshotDescriptor (mkSnapshotMetadata 1 1 [1] None) 48 [48])
    [mkEntry 1 1 NoOp] (replicate 48 0).
Definition images1 : Images := {[ [48] := image1 ]}.
Definition compacting1 : RaftNode := Eval vm_compute in
  default nobody (run_all leader1 [Compact (vi_descriptor image1)]).
Definition publication1 : PublishingSnapshot :=
  mkPublishingSnapshot None (vi_descriptor image1) [] 0.
Definition sim_compacting1 : SimNode := sim_of compacting1 [(1, NoOp)].

Lemma compacting1_inv : inv compacting1.
Proof.
  apply (run_all_inv leader1 [Compact (vi_descriptor image1)]); [exact leader1_inv|].
  vm_compute. reflexivity.
Qed.

Lemma publication_keeps_suffix_witness :
  exists n' es,
    publish_image images1 sim_compacting1 None (vi_descriptor image1) []
    = Some (published_node sim_compacting1 publication1 image1)
    /\ step compacting1 (SnapshotPublished None (vi_descriptor image1)) = Some (n', es)
    /\ exec es (disk_of (published_node sim_compacting1 publication1 image1)) = durable n'
    /\ (None = @None SnapshotTransferId -> vi_prefix image1 ++ log n' = full sim_compacting1).
Proof.
  apply (publication_keeps_suffix images1 sim_compacting1 publication1 image1).
  - intros key image H. unfold images1 in H. apply lookup_singleton_Some in H as [<- <-].
    split; [reflexivity|]. by split.
  - split; [exact compacting1_inv|reflexivity|vm_compute; reflexivity|by split|].
    split; [intros to o H; vm_compute in H; discriminate|intros a H; discriminate].
  - reflexivity.
  - reflexivity.
  - split; reflexivity.
Defined.
