(* ===== verification/KvWitnesses.v ===== *)
(** * Concrete runs of the replicated application

    A constant digest and the flat encoding of [ShardWitnesses] stand for SHA-256
    and JSON; a client opens a session, writes, retries and closes it, and the
    state is snapshotted, transferred, committed to an engine and reopened.  Then the consensus files of
    a new directory: saved, appended to, torn by a power loss, published, and
    published beyond what can be read back. *)
From stdpp Require Import pretty.
From S2P Require Import Prelude Quorum Membership MembershipProtocol Types Node Step Store Disk.
From S2P Require Import Codec Table TableFacts Lsm LsmView LsmSafe LsmRefine Witnesses ShardWitnesses.
From S2P Require Import Application ApplicationFacts ApplicationSafe ApplicationLog SnapshotImage AppliedStore AppliedFacts AppliedGroup.
From S2P Require Import Storage StorageFacts StorageRecovery StorageAppend StorageSafe.
Local Open Scope N_scope.
Local Open Scope raft_scope.

#[local] Instance flat_bool : Flat bool.
Proof. refine (flat_through N.b2n (N.eqb 1) _). by intros []. Defined.
#[local] Instance flat_gset `{Countable K, Flat K} : Flat (gset K).
Proof. refine (flat_through (B := list K) elements list_to_set _). intros s. apply list_to_set_elements_L. Defined.

Definition error_code (e : SessionError) : N :=
  match e with
  | InvalidNonce => 0 | InvalidKey => 1 | ValueTooLarge => 2 | InvalidSequence => 3 | UnknownSession => 4
  | SessionClosed => 5 | SessionCapacity => 6 | KeyCapacity => 7 | PayloadCapacity => 8 | PayloadMismatch => 9
  | StaleSequence => 10 | SequenceGap => 11 | SequenceExhausted => 12
  end.
Definition error_of (n : N) : SessionError :=
  match n with
  | 0 => InvalidNonce | 1 => InvalidKey | 2 => ValueTooLarge | 3 => InvalidSequence | 4 => UnknownSession
  | 5 => SessionClosed | 6 => SessionCapacity | 7 => KeyCapacity | 8 => PayloadCapacity | 9 => PayloadMismatch
  | 10 => StaleSequence | 11 => SequenceGap | _ => SequenceExhausted
  end.
#[local] Instance flat_SessionError : Flat SessionError.
Proof. refine (flat_through error_code error_of _). by intros []. Defined.
#[local] Instance flat_SessionResult : Flat SessionResult.
Proof.
  refine (flat_through (fun r => (sr_ok r, sr_session_id r, sr_sequence r, sr_index r, sr_error r, sr_expected_sequence r))
    (fun '(a, b, c, d, e, f) => mkSessionResult a b c d e f) _). by intros [].
Defined.
#[local] Instance flat_SessionKeySnapshot : Flat SessionKeySnapshot.
Proof.
  refine (flat_through (fun r => (sk_key r, sk_sequence r, sk_digest r, sk_payload r, sk_result r))
    (fun '(a, b, c, d, e) => mkSessionKeySnapshot a b c d e) _). by intros [].
Defined.
#[local] Instance flat_SessionSnapshot : Flat SessionSnapshot.
Proof.
  refine (flat_through (fun r => (ss_nonce r, ss_session_id r, ss_registered r, ss_closed r, ss_keys r))
    (fun '(a, b, c, d, e) => mkSessionSnapshot a b c d e) _). by intros [].
Defined.
#[local] Instance flat_ApplicationSnapshot : Flat ApplicationSnapshot.
Proof.
  refine (flat_through (fun r => (as_schema_version r, as_last_applied r, as_values r, as_sessions r,
      as_retained_keys r, as_retained_payload_bytes r))
    (fun '(a, b, c, d, e, f) => mkApplicationSnapshot a b c d e f) _). by intros [].
Defined.
#[local] Instance flat_VoterConfig : Flat VoterConfig.
Proof.
  refine (flat_through (fun c => match c with Stable v => (false, v, []) | Joint v w => (true, v, w) end)
    (fun '(b, v, w) => if b : bool then Joint v w else Stable v) _). by intros [].
Defined.
#[local] Instance flat_MemberEndpoints : Flat MemberEndpoints.
Proof. refine (flat_through (fun r => (me_raft r, me_http r)) (fun '(a, b) => mkMemberEndpoints a b) _). by intros []. Defined.
#[local] Instance flat_AdminOperation : Flat AdminOperation.
Proof.
  refine (flat_through
    (fun o => match o with
              | AddLearner id e => (0, id, Some e, [])
              | Remove id => (1, id, None, [])
              | SetVoters v => (2, 0, None, v)
              end)
    (fun '(t, id, e, v) => match t, e with
                           | 0, Some e => AddLearner id e
                           | 1, _ => Remove id
                           | _, _ => SetVoters v
                           end) _). by intros [].
Defined.
#[local] Instance flat_AdminRecord : Flat AdminRecord.
Proof.
  refine (flat_through (fun r => (ar_operation r, ar_first_index r, ar_first_term r, ar_joint r, ar_final_index r, ar_final_term r))
    (fun '(a, b, c, d, e, f) => mkAdminRecord a b c d e f) _). by intros [].
Defined.
#[local] Instance flat_MembershipState : Flat MembershipState.
Proof.
  refine (flat_through (fun r => (ms_version r, ms_group_id r, ms_genesis_voters r, ms_voters r, ms_learners r, ms_retired r,
      ms_endpoints r, ms_records r))
    (fun '(a, b, c, d, e, f, g, h) => mkMembershipState a b c d e f g h) _). by intros [].
Defined.
#[local] Instance flat_CommittedMembership : Flat CommittedMembership.
Proof.
  refine (flat_through (fun r => (cm_index r, cm_term r, cm_state r)) (fun '(a, b, c) => mkCommittedMembership a b c) _).
  by intros [].
Defined.
#[local] Instance flat_SnapshotMetadata : Flat SnapshotMetadata.
Proof.
  refine (flat_through (fun r => (last_included_index r, last_included_term r, members r, sm_membership r))
    (fun '(a, b, c, d) => mkSnapshotMetadata a b c d) _). by intros [].
Defined.
#[local] Instance flat_Payload : Flat Payload.
Proof.
  refine (flat_through (fun r => (pl_version r, pl_metadata r, pl_application r)) (fun '(a, b, c) => mkPayload a b c) _).
  by intros [].
Defined.
#[local] Instance flat_ApplicationIdentity : Flat ApplicationIdentity.
Proof. refine (flat_through (fun r => (id_group r, id_genesis_voters r)) (fun '(a, b) => mkIdentity a b) _). by intros []. Defined.
#[local] Instance flat_StateBackend : Flat StateBackend.
Proof.
  refine (flat_through (fun b => match b with MemoryBackend => 0 | LsmBackend => 1 | RedbBackend => 2 end)
    (fun n => match n with 0 => MemoryBackend | 1 => LsmBackend | _ => RedbBackend end) _). by intros [].
Defined.
#[local] Instance flat_Binding : Flat Binding.
Proof.
  refine (flat_through (fun r => (bn_version r, bn_backend r, bn_identity r)) (fun '(a, b, c) => mkBinding a b c) _). by intros [].
Defined.
#[local] Instance flat_CellMetadata : Flat CellMetadata.
Proof.
  refine (flat_through (fun r => (cmd_version r, cmd_identity r, cmd_applied_index r, cmd_applied_term r, cmd_retained_keys r,
      cmd_retained_payload_bytes r))
    (fun '(a, b, c, d, e, f) => mkCellMetadata a b c d e f) _). by intros [].
Defined.
#[local] Instance flat_SessionHeader : Flat SessionHeader.
Proof. refine (flat_through (fun r => (sh_registered r, sh_closed r)) (fun '(a, b) => mkSessionHeader a b) _). by intros []. Defined.

(** ** The formats *)

#[local] Instance kv_sha : Sha256 := {| sha256_digest := fun _ => replicate 32 7 |}.
#[local] Instance kv_sha_laws : Sha256Laws.
Proof. done. Qed.
#[local] Instance kv_payload : PayloadFormat := {|
  payload_writer p := [flat p];
  payload_reader b := io_of (demo_parse b) parse_error;
|}.
#[local] Instance kv_payload_laws : PayloadLaws.
Proof. intros p. unfold payload_reader, payload_writer, kv_payload. by rewrite demo_parse_flat. Qed.
#[local] Instance kv_cells : CellFormats := {|
  metadata_json := flat; metadata_parse := demo_parse;
  header_json := flat; header_parse := demo_parse;
  record_json := flat; record_parse := demo_parse;
  binding_json := flat; binding_parse := demo_parse;
|}.
Lemma flat_inverse {A} `{Flat A} (a : A) : demo_parse (flat a) = Some a.
Proof. unfold demo_parse. pose proof (unflat_flat a []) as E. rewrite app_nil_r in E. by rewrite E. Qed.
#[local] Instance kv_cell_laws : CellLaws.
Proof. split; intros x; apply flat_inverse. Qed.

(** ** An engine *)

(** A map in memory with its applied index. *)
Record Shelf := mkShelf { sf_applied : N; sf_cells : gmap Bytes Bytes }.
Definition shelf_put (changes : list Mutation) (m : gmap Bytes Bytes) : gmap Bytes Bytes :=
  foldr (fun c m => match m_value c with Some v => <[m_key c := v]> m | None => delete (m_key c) m end) m changes.
#[local] Instance shelf_engine : StateStore Shelf := {|
  engine_applied := sf_applied;
  engine_scan e := (IoOk (map_to_list (sf_cells e)), e);
  engine_commit first index changes e :=
    if checked_add (sf_applied e) 1 ==? Some first then (IoOk Applied, mkShelf index (shelf_put changes (sf_cells e)))
    else (IoErr InvalidInput EmptyString, e);
  engine_install index cells e := (IoOk tt, mkShelf index (shelf_put cells ∅));
  engine_flush e := (IoOk tt, e);
  engine_maintain e := (IoOk false, e);
  engine_statistics _ := IoOk tt;
|}.
Lemma shelf_put_all changes m v k :
  (forall k, m !! k = v k) -> shelf_put changes m !! k = put_all changes v k.
Proof.
  intros Hm. unfold put_all. induction changes as [|c changes IH]; [apply Hm|]. cbn [shelf_put foldr List.find].
  destruct (eqb (m_key c) k) eqn:E.
  - apply eqb_true_1 in E as <-. destruct (m_value c); [apply lookup_insert_eq|apply lookup_delete_eq].
  - apply eqb_false_1 in E. destruct (m_value c); [rewrite lookup_insert_ne by done|rewrite lookup_delete_ne by done]; exact IH.
Qed.
#[local] Instance shelf_laws : StateStoreLaws Shelf.
Proof.
  refine (Build_StateStoreLaws Shelf _ (fun e a v => sf_applied e = a /\ forall k, sf_cells e !! k = v k)
    (fun _ _ _ _ _ => False) _ _ _ _ _ _).
  - by intros e a v [? _].
  - intros e a v [_ Hv]. cbn. split; [done|]. split; [apply NoDup_fst_map_to_list|]. intros k x.
    by rewrite elem_of_map_to_list, Hv.
  - intros e a v first index changes [<- Hv] _ _. unfold post, engine_commit, shelf_engine.
    destruct (_ ==? _) eqn:E; [|by left]. apply eqb_true_1 in E. split; [done|]. split; [done|].
    intros k. by apply shelf_put_all.
  - intros e a v index cells [_ Hv] _. cbn. split; [done|]. intros k. apply shelf_put_all. intros k'. apply lookup_empty.
  - by intros e a v Hh.
  - by intros e a v Hh.
Defined.

(** ** A client *)

Definition kv_log : list Entry :=
  [mkEntry 1 1 (Put "k" "v"); mkEntry 2 1 (RegisterSession "n"); mkEntry 3 1 (SessionPut 2 "a" 1 "x");
   mkEntry 4 1 (SessionPut 2 "a" 1 "x"); mkEntry 5 1 (CloseSession 2)].
Definition kv_run : list (LogIndex * ApplyOutcome) * StateMachine :=
  Eval vm_compute in match apply_all app_default kv_log with Done r => r | _ => ([], app_default) end.
Definition kv_app : StateMachine := Eval vm_compute in kv_run.2.
Definition kv_next : Entry := mkEntry 6 1 (Put "k" "w").

Example kv_run_ok : apply_all app_default kv_log = Done kv_run.
Proof. vm_compute. reflexivity. Qed.
(** The retry is answered with the index of the entry that took effect. *)
Example kv_retry : kv_run.1 = [(1, AppliedAt 1); (2, SessionReply (success 2 None 2)); (3, SessionReply (success 2 (Some 1) 3));
  (4, SessionReply (success 2 (Some 1) 3)); (5, SessionReply (success 2 None 5))].
Proof. vm_compute. reflexivity. Qed.

Lemma kv_client : Forall (fun e => client_command (e_command e)) kv_log.
Proof. repeat constructor; vm_compute; (reflexivity || discriminate). Qed.
Lemma kv_storable : storable kv_app.
Proof. by destruct (apply_all_storable kv_log app_default kv_run.1 kv_app default_storable kv_client kv_run_ok). Qed.

Lemma reach_all (P : Command -> Prop) entries s outs s' :
  app_reachable P s -> Forall (fun e => command_text (e_command e) /\ P (e_command e)) entries ->
  apply_all s entries = Done (outs, s') -> app_reachable P s'.
Proof.
  intros Hr HF. revert s outs Hr. induction HF as [|e entries [Ht Hp] HF IH]; intros s outs Hr; cbn [apply_all].
  - by intros [= _ <-].
  - intros E. apply Outcome_bind_Done in E as ([o s1] & E & E'). apply Outcome_bind_Done in E' as ([os s2] & E' & [= _ <-]).
    apply (IH s1 os); [|done]. by apply (reach_apply P s e o).
Qed.
Lemma history_all entries s h outs s' :
  history h s -> Forall (fun e => command_text (e_command e)) entries -> apply_all s entries = Done (outs, s') ->
  history (h ++ zip entries outs.*2) s'.
Proof.
  intros Hh HF. revert s h outs Hh. induction HF as [|e entries Ht HF IH]; intros s h outs Hh; cbn [apply_all].
  - intros [= <- <-]. cbn. by rewrite app_nil_r.
  - intros E. apply Outcome_bind_Done in E as ([o s1] & E & E'). apply Outcome_bind_Done in E' as ([os s2] & E' & [= <- <-]).
    cbn. rewrite cons_middle, (assoc_L app). apply (IH s1); [|done]. by apply (history_snoc h s).
Qed.
Lemma kv_reachable : app_reachable admissible kv_app.
Proof. exact (reach_all admissible kv_log app_default kv_run.1 kv_app (reach_default _) kv_client kv_run_ok). Qed.
Lemma kv_reachable_any : app_reachable (fun _ => True) kv_app.
Proof.
  apply (reach_all _ kv_log app_default kv_run.1 kv_app (reach_default _)); [|exact kv_run_ok].
  refine (list.Forall_impl _ _ _ kv_client _). by intros e [? _].
Qed.
Lemma kv_history : history (zip kv_log kv_run.1.*2) kv_app.
Proof.
  apply (history_all kv_log app_default [] kv_run.1 kv_app history_nil); [|exact kv_run_ok].
  refine (list.Forall_impl _ _ _ kv_client _). by intros e [? _].
Qed.

(** ** Witnesses *)

Lemma app_entries_total_witness : exists outcome s', app_apply kv_app kv_next = Done (outcome, s').
Proof. apply (app_entries_total kv_app kv_next kv_reachable_any). vm_compute. reflexivity. Defined.

Definition kv_snapshot : ApplicationSnapshot := Eval vm_compute in
  match export_snapshot kv_app with Some sn => sn | None => mkApplicationSnapshot 0 0 [] [] 0 0 end.
Lemma app_import_exact_witness : snapshot_ok 5 kv_snapshot /\ app_valid kv_app.
Proof.
  destruct (app_import_exact kv_snapshot 5 kv_app) as [Hi Hv]; [vm_compute; discriminate|].
  assert (E : import_snapshot kv_snapshot 5 = Ok kv_app) by (vm_compute; reflexivity).
  split; [by apply Hi in E as [? _]|by apply Hv in E as [? _]].
Defined.
Lemma app_snapshot_roundtrip_witness :
  exists sn, export_snapshot kv_app = Some sn /\ import_snapshot sn (last_applied kv_app) = Ok kv_app.
Proof. apply (app_snapshot_roundtrip kv_app kv_reachable). Defined.
Lemma app_rollback_exact_witness : tx_drop (tx_apply (transaction kv_app) kv_next).2 = Some kv_app.
Proof.
  assert (Hon : tx_on kv_app (tx_apply (transaction kv_app) kv_next).2).
  { destruct (tx_apply_spec kv_app (transaction kv_app) kv_next) as [(e & _ & E)|(o & st & Ha & E)];
      [apply (reachable_valid _ _ kv_reachable)|constructor|split; vm_compute; reflexivity| |].
    - rewrite E. constructor.
    - rewrite E. eapply tx_applied; [constructor|split; vm_compute; reflexivity|exact Ha]. }
  apply (app_rollback_exact kv_app _ kv_next kv_reachable_any Hon). split; vm_compute; reflexivity.
Defined.
Lemma session_exactly_once_witness : omap (effect_on 2 "a") (zip kv_log kv_run.1.*2) = [1].
Proof.
  destruct (session_exactly_once (zip kv_log kv_run.1.*2) kv_app kv_history) as [He _].
  rewrite (He 2 "a"%string). vm_compute. reflexivity.
Defined.

Definition kv_boundary : SnapshotMetadata := mkSnapshotMetadata 5 1 [1] None.
Lemma image_roundtrip_witness :
  exists image, image_new kv_boundary kv_app = Done image /\ image_decode (si_bytes image) = IoOk image.
Proof.
  destruct (image_roundtrip kv_boundary kv_app kv_reachable) as [(sn & He & Hi) _];
    [vm_compute; reflexivity|vm_compute; reflexivity|].
  assert (E : sn = kv_snapshot) by (injection He as <-; vm_compute; reflexivity). subst sn.
  cbv zeta in Hi. assert (Hs : (MAX_SNAPSHOT_BYTES - HEADER_BYTES
    <? len64 (concat (payload_writer (mkPayload (version_of kv_boundary) kv_boundary kv_snapshot)))) = false)
    by (vm_compute; reflexivity).
  rewrite Hs in Hi. destruct Hi as (image & H1 & _ & _ & H2). exists image. split; [exact H1|exact H2].
Defined.
Definition kv_image : SnapshotImage := Eval vm_compute in
  match image_new kv_boundary kv_app with
  | Done image => image
  | _ => mkSnapshotImage (mkSnapshotDescriptor kv_boundary 0 []) [] app_default
  end.
Definition kv_transfer : SnapshotTransferId := mkSnapshotTransferId 1 1 0 1.
Lemma transfer_completes_witness :
  exists rx, stream 1024 kv_image kv_transfer 0 true 0 receiver_new = Some rx /\ completed rx kv_transfer = Some kv_image.
Proof.
  apply (transfer_completes receiver_new kv_image kv_transfer 0 true); [vm_compute; reflexivity|].
  split; [reflexivity|]. split; [reflexivity|]. split; [discriminate|]. split; [vm_compute; discriminate|].
  split; [by left|vm_compute; reflexivity].
Defined.
(** The image's only chunk, for a new receiver and for a node that has the image
    installed. *)
Definition kv_chunk (installed : option SnapshotImage) : Outcome SnapshotReceiveError StagedChunk * SnapshotReceiver :=
  stage_inner receiver_new None kv_transfer (si_descriptor kv_image) 0 (si_bytes kv_image) 0 [1] installed true.
Lemma receiver_sound_witness :
  (kv_chunk None).1 <> Panicked
  /\ (kv_chunk (Some kv_image)).1 <> Panicked /\ (kv_chunk (Some kv_image)).2 = receiver_new.
Proof.
  destruct (receiver_sound receiver_new receiving_new) as [_ Hs].
  pose proof (Hs None kv_transfer (si_descriptor kv_image) 0 (si_bytes kv_image) 0 [1] None true ltac:(done)) as H1.
  assert (Hi : forall image, Some kv_image = Some image -> image_decode (si_bytes image) = IoOk image)
    by (intros image [= <-]; vm_compute; reflexivity).
  pose proof (Hs None kv_transfer (si_descriptor kv_image) 0 (si_bytes kv_image) 0 [1] (Some kv_image) true Hi) as H2.
  fold (kv_chunk None) in H1. fold (kv_chunk (Some kv_image)) in H2.
  destruct (kv_chunk None) as [r1 rx1]. split; [exact (proj1 H1)|].
  assert (Hd : (kv_chunk (Some kv_image)).1 = Done (mkStagedChunk (total_len (si_descriptor kv_image)) true))
    by (vm_compute; reflexivity).
  destruct (kv_chunk (Some kv_image)) as [r2 rx2]. destruct H2 as [Hp H2]. split; [exact Hp|]. cbn [fst snd] in *.
  destruct (H2 _ Hd) as [(image & _ & _ & Erx & _)|(a & Hne & _)]; [exact Erx|]. by destruct (Hne kv_image eq_refl).
Defined.

(** A store over a shelf that holds the client's state. *)
Definition kv_identity : ApplicationIdentity := mkIdentity "legacy" [1].
Definition kv_cells_of (s : StateMachine) (term : Term) : list Mutation :=
  match full_cells s kv_identity term with Done cells => cells | _ => [] end.
Definition kv_shelf : Shelf := Eval vm_compute in mkShelf 5 (shelf_put (kv_cells_of kv_app 1) ∅).
Definition kv_read : ReadState := mkReadState kv_app 5 5.
Definition kv_store : AppliedStore Shelf := mkAppliedStore LsmBackend kv_identity (Some kv_shelf) 5 1 false.

Lemma kv_keeps : keeps kv_shelf kv_app kv_identity 1.
Proof.
  split; [exact kv_storable|]. split; [done|]. pose proof kv_storable as [Hv Hvals _].
  destruct (full_cells_ok kv_app kv_identity 1 Hv Hvals) as (cells & Hc & Hst); [vm_compute; discriminate|].
  exists (put_all cells (fun _ => None)). split; [|exact Hst]. unfold engine_holds, shelf_laws. split; [reflexivity|]. intros k.
  assert (E : kv_shelf = mkShelf 5 (shelf_put cells ∅)).
  { assert (Ec : cells = kv_cells_of kv_app 1) by (unfold kv_cells_of; by rewrite Hc). rewrite Ec. vm_compute. reflexivity. }
  rewrite E. cbn [sf_cells]. apply shelf_put_all. intros k'. apply lookup_empty.
Qed.
Lemma kv_synced : synced kv_read kv_store.
Proof.
  pose proof kv_keeps as (_ & _ & v & Hh & Hst).
  split; [exact kv_storable|reflexivity|vm_compute; discriminate|reflexivity|reflexivity|].
  intros e [= <-]. by exists v.
Qed.

(** The next write, committed to the shelf: its outcome, what readers then see
    and what the engine stores. *)
Definition kv_after : StateMachine := Eval vm_compute in match app_apply kv_app kv_next with Done r => r.2 | _ => kv_app end.
Lemma apply_group_atomic_witness :
  exists read' store', apply_group [kv_next] (kv_read, kv_store) = (Done [(6, AppliedAt 6)], (read', store'))
  /\ synced read' store' /\ rd_application read' = kv_after.
Proof.
  destruct (apply_group_atomic kv_read kv_store [kv_next] kv_synced) as [He Hsingle].
  { constructor; [|constructor]. repeat split; vm_compute; (reflexivity || discriminate). }
  assert (Ha : app_apply kv_app kv_next = Done (AppliedAt 6, kv_after)) by (vm_compute; reflexivity).
  destruct (entry_cells kv_after kv_identity kv_next) as [cells|? ?] eqn:Ec; [|exfalso; vm_compute in Ec; discriminate].
  destruct (merge_cells ∅ 0 cells) as [[batch|]|? ?] eqn:Em;
    [|exfalso; vm_compute in Ec; injection Ec as <-; vm_compute in Em; discriminate..].
  specialize (Hsingle kv_next (AppliedAt 6) kv_after cells batch eq_refl Ha Ec Em).
  destruct (apply_group [kv_next] (kv_read, kv_store)) as [result [read' store']].
  assert (Eb : checked_add (sf_applied kv_shelf) 1 ==? Some (e_index kv_next) = true) by (vm_compute; reflexivity).
  unfold single_effect, kv_store in Hsingle. cbn [ap_engine] in Hsingle. unfold engine_commit, shelf_engine in Hsingle.
  rewrite Eb in Hsingle. destruct Hsingle as (Er & _ & Ed). cbn in Ed. subst result.
  exists read', store'. split; [done|]. split; [|exact Er]. destruct He as (_ & He & _). inversion He; subst; try done;
    match goal with Hr : refused _ |- _ => destruct Hr as [? ?]; discriminate end.
Defined.

Definition kv_empty_read : ReadState := mkReadState app_default 0 0.
Definition kv_empty_store : AppliedStore Shelf := mkAppliedStore LsmBackend kv_identity (Some (mkShelf 0 ∅)) 0 0 false.
Lemma kv_empty_synced : synced kv_empty_read kv_empty_store.
Proof.
  split; [exact default_storable|reflexivity|vm_compute; discriminate|reflexivity|reflexivity|].
  intros e [= <-]. exists (fun _ => None). split; [unfold engine_holds, shelf_laws; split; [reflexivity|intros k; apply lookup_empty]|].
  split; [|done]. intros c _. destruct c; reflexivity.
Qed.
Lemma snapshot_install_atomic_witness :
  exists store' read', applied_install kv_image kv_empty_store = (Done tt, store')
  /\ read_install kv_empty_read kv_image = IoOk read' /\ synced read' store'.
Proof.
  pose proof (snapshot_install_atomic kv_empty_read kv_empty_store kv_image kv_empty_synced kv_storable eq_refl) as Hi.
  cbv zeta in Hi. destruct (applied_install kv_image kv_empty_store) as [r store'] eqn:E.
  assert (Hr : r = Done tt) by (change r with (r, store').1; rewrite <- E; vm_compute; reflexivity).
  subst r. destruct Hi as (_ & read' & Er & Hs). by exists store', read'.
Defined.
Lemma cells_roundtrip_witness : exists cells, full_cells kv_app kv_identity 1 = Done cells.
Proof.
  destruct (cells_roundtrip kv_app kv_identity 1 kv_storable) as (cells & E & _); [discriminate|discriminate|].
  by exists cells.
Defined.

(** A restarted single-voter node with the client's log, and the directory it left. *)
Definition kv_node : RaftNode := Eval vm_compute in
  match RaftNode_new 1 [] 7 with
  | Some n => n <| log := kv_log |> <| commit_index := 5 |>
  | None => Witnesses.nobody
  end.
Definition kv_opening : Opening :=
  mkOpening {[ IDENTITY_FILE := binding_json (mkBinding 1 LsmBackend kv_identity) ]} (@None Shelf) kv_node.
Lemma open_recovers_witness :
  exists store o', open_for_group true (IoOk kv_shelf) LsmBackend kv_identity None false false kv_opening
    = (Done (store, kv_app), o').
Proof.
  apply (open_recovers kv_shelf LsmBackend kv_identity None false false kv_opening kv_app 1
    (map_to_list (sf_cells kv_shelf))); [discriminate| | | |exact kv_keeps|reflexivity| |].
  - vm_compute. reflexivity.
  - vm_compute. reflexivity.
  - vm_compute. reflexivity.
  - vm_compute. reflexivity.
  - split; [vm_compute; auto|vm_compute; repeat split; discriminate|vm_compute; reflexivity|left; vm_compute; discriminate].
Defined.
Lemma open_adopts_replay_witness :
  exists store o' read, open_for_group true (IoOk kv_shelf) LsmBackend kv_identity None false false kv_opening
    = (Done (store, kv_app), o') /\ from_application (op_node o') kv_app = IoOk read /\ synced read store.
Proof.
  destruct (open_for_group true (IoOk kv_shelf) LsmBackend kv_identity None false false kv_opening) as [r o'] eqn:E.
  assert (Hr : exists store, r = Done (store, kv_app)).
  { change r with (r, o').1. rewrite <- E. vm_compute. by eexists. }
  destruct Hr as [store ->]. exists store, o'.
  destruct (open_adopts_replay true kv_shelf LsmBackend kv_identity None false false kv_opening kv_app kv_identity 1 store kv_app o')
    as (_ & _ & read & H1 & H2); [discriminate|exact kv_keeps|exact default_storable|reflexivity|exact E|].
  exists read. split; [reflexivity|split; [exact H1|exact H2]].
Defined.

(** ** The consensus files *)

#[local] Instance flat_ConfigurationEntry : Flat ConfigurationEntry.
Proof.
  refine (flat_through
    (fun c => (ce_request_id c, ce_operation c, match ce_phase c with PhApply => 0 | PhJoint => 1 | PhFinal => 2 end))
    (fun '(a, b, c) => mkConfigurationEntry a b (match c with 0 => PhApply | 1 => PhJoint | _ => PhFinal end)) _).
  by intros [? ? []].
Defined.
Definition command_parts (c : Command) : N * N * string * N * string * option ConfigurationEntry :=
  match c with
  | Put k v => (0, 0, k, 0, v, None)
  | Delete k => (1, 0, k, 0, EmptyString, None)
  | NoOp => (2, 0, EmptyString, 0, EmptyString, None)
  | Configuration change => (3, 0, EmptyString, 0, EmptyString, Some change)
  | RegisterSession nonce => (4, 0, nonce, 0, EmptyString, None)
  | CloseSession id => (5, id, EmptyString, 0, EmptyString, None)
  | SessionPut id k q v => (6, id, k, q, v, None)
  | SessionDelete id k q => (7, id, k, q, EmptyString, None)
  end.
Definition command_of (p : N * N * string * N * string * option ConfigurationEntry) : Command :=
  match p with
  | (0, _, k, _, v, _) => Put k v
  | (1, _, k, _, _, _) => Delete k
  | (3, _, _, _, _, Some change) => Configuration change
  | (4, _, nonce, _, _, _) => RegisterSession nonce
  | (5, id, _, _, _, _) => CloseSession id
  | (6, id, k, q, v, _) => SessionPut id k q v
  | (7, id, k, q, _, _) => SessionDelete id k q
  | _ => NoOp
  end.
#[local] Instance flat_Command : Flat Command.
Proof. refine (flat_through command_parts command_of _). by intros []. Defined.
#[local] Instance flat_Entry : Flat Entry.
Proof. refine (flat_through (fun e => (e_index e, e_term e, e_command e)) (fun '(a, b, c) => mkEntry a b c) _). by intros []. Defined.
#[local] Instance flat_HardState : Flat HardState.
Proof.
  refine (flat_through (fun h => (current_term h, voted_for h, hs_membership h)) (fun '(a, b, c) => mkHardState a b c) _).
  by intros [].
Defined.
#[local] Instance flat_Envelope : Flat HardStateEnvelope.
Proof.
  refine (flat_through (fun h => (he_version h, he_crc h, he_hard_state h)) (fun '(a, b, c) => mkEnvelope a b c) _).
  by intros [].
Defined.
#[local] Instance flat_SnapshotDescriptor : Flat SnapshotDescriptor.
Proof.
  refine (flat_through (fun d => (metadata d, total_len d, Types.sha256 d)) (fun '(a, b, c) => mkSnapshotDescriptor a b c) _).
  by intros [].
Defined.
#[local] Instance flat_Selection : Flat Storage.Manifest.
Proof.
  refine (flat_through (fun d => (Storage.mf_version d, mf_generation d, mf_snapshot d))
    (fun '(a, b, c) => Storage.mkManifest a b c) _).
  by intros [].
Defined.
#[local] Instance flat_SelectionFrame : Flat ManifestFrame.
Proof. refine (flat_through (fun d => (mm_crc d, mm_manifest d)) (fun '(a, b) => mkManifestFrame a b) _). by intros []. Defined.

Fixpoint number (acc : N) (digits : Bytes) : N :=
  match digits with [] => acc | b :: digits => number (10 * acc + (b - 0x30)) digits end.
Lemma number_pretty (n : N) : number 0 (bytes (pretty n)) = n.
Proof.
  assert (Hgo : forall x s, number 0 (bytes (pretty_N_go x s)) = number x (bytes s)).
  { intros x. induction (N.lt_wf_0 x) as [x _ IH]. intros s. destruct (decide (x = 0)) as [->|Hx]; [done|].
    rewrite pretty_N_go_step, IH by (lia || apply N.div_lt; lia).
    change (bytes (String ?c s)) with (Ascii.N_of_ascii c :: bytes s). cbn [number]. f_equal.
    assert (Hd : Ascii.N_of_ascii (pretty_N_char (x mod 10)) - 0x30 = x mod 10).
    { assert (Hm : x mod 10 < 10) by (apply N.mod_lt; lia). revert Hm. generalize (x mod 10). intros d Hd.
      assert (d = 0 \/ d = 1 \/ d = 2 \/ d = 3 \/ d = 4 \/ d = 5 \/ d = 6 \/ d = 7 \/ d = 8 \/ d = 9) by lia.
      repeat destruct_or?; subst; reflexivity. }
    rewrite Hd. symmetry. apply N.div_mod'. }
  unfold pretty, pretty_N. case_decide; [by subst|]. by rewrite Hgo.
Qed.
Fixpoint split_comma (bs : Bytes) : option (Bytes * Bytes) :=
  match bs with
  | [] => None
  | b :: bs => if b =? 0x2C then Some ([], bs) else '(before, after) ← split_comma bs; Some (b :: before, after)
  end.
Lemma split_comma_digits digits rest :
  Forall (fun b => between 0x30 0x39 b = true) digits -> split_comma (digits ++ 0x2C :: rest) = Some (digits, rest).
Proof.
  induction 1 as [|b digits Hb _ IH]; [done|]. cbn [app split_comma]. destruct (N.eqb_spec b 0x2C) as [->|]; [done|].
  by rewrite IH.
Qed.

(** No byte of an entry is a newline; a selection ends with the text of the
    endpoints it records. *)
Definition endpoint_text (m : Storage.Manifest) : Bytes :=
  match sm_membership (metadata (mf_snapshot m)) with
  | Some c =>
      concat ((fun r => match ar_operation r.2 with AddLearner _ e => bytes (me_raft e) ++ bytes (me_http e) | _ => [] end)
                <$> map_to_list (ms_records (cm_state c)))
      ++ concat ((fun r => bytes (me_raft r.2) ++ bytes (me_http r.2)) <$> map_to_list (ms_endpoints (cm_state c)))
  | None => []
  end.
#[local] Instance kv_files : StorageFormats := {|
  hard_state_json h := 0 :: flat h;
  envelope_json h := 1 :: flat h;
  entry_json e := (fun n => n + 11) <$> flat e;
  selection_json m := flat m;
  selection_frame_json f := flat f ++ endpoint_text (mm_manifest f);
  json_value := Bytes;
  json_parse := Some;
  json_has v field := match v with 1 :: _ => contains field ["version"; "hard_state"; "crc"]%string | _ => false end;
  envelope_of v := match v with 1 :: b => demo_parse b | _ => None end;
  hard_state_of v := match v with 0 :: b => demo_parse b | _ => None end;
  frame_parse line :=
    '(digits, rest) ← split_comma (drop 7 line);
    entry ← demo_parse ((fun n => n - 11) <$> removelast (drop 8 rest));
    Some (mkFrame (number 0 digits) entry);
  selection_frame_parse := demo_parse;
|}.
#[local] Instance kv_file_laws : StorageLaws.
Proof.
  split.
  - intros hs _. exists (0 :: flat hs). split; [done|]. split; [done|]. split; [done|]. split; [done|]. exact (flat_inverse hs).
  - intros e. exists (1 :: flat e). split; [done|]. split; [done|]. exact (flat_inverse e).
  - intros e. unfold entry_json, kv_files. intros (n & E & _)%list_elem_of_fmap. lia.
  - intros e. set (c := crc32 (entry_json e)).
    assert (Hd : drop 7 (frame_text e) = bytes (pretty c) ++ 0x2C :: (quoted "entry" ++ [0x3A] ++ entry_json e ++ [0x7D])) by done.
    assert (He : drop 8 (quoted "entry" ++ [0x3A] ++ entry_json e ++ [0x7D]) = entry_json e ++ [0x7D]) by done.
    change (frame_parse (frame_text e)) with ('(digits, rest) ← split_comma (drop 7 (frame_text e));
      entry ← demo_parse ((fun n => n - 11) <$> removelast (drop 8 rest));
      Some (mkFrame (number 0 digits) entry)).
    rewrite Hd, split_comma_digits by apply pretty_digits. cbn [mbind option_bind].
    rewrite number_pretty, He, removelast_last. change (entry_json e) with ((fun n => n + 11) <$> flat e).
    rewrite <- list_fmap_compose.
    rewrite (list_fmap_ext _ id), list_fmap_id by (intros ? n _; cbn; lia). by rewrite flat_inverse.
  - intros f. unfold selection_frame_parse, selection_frame_json, kv_files, demo_parse. by rewrite unflat_flat.
Qed.

(** A new directory: opened, a term saved, the client's log appended, its
    snapshot published. *)
Definition files_new : RecoveredState := mkRecovered HardState_default [] None.
Definition files_opened (faults : list (option N)) : Storage := (open_recovered (booted ∅ faults)).2.
Definition files_term : HardState := mkHardState 1 None None.
Definition files_run (ops : list Operation) (s : Storage) : Storage := foldl (fun s op => (perform op s).2) s ops.
Definition files_logged : Storage := Eval vm_compute in
  files_run [SaveHardState files_term; Append None kv_log] (files_opened []).
Definition files_log_state : RecoveredState := mkRecovered files_term kv_log None.

Lemma files_opened_healthy : healthy (files_opened []) files_new.
Proof.
  pose proof (open_recovered_spec True ∅ [] None files_new empty_disk_state ltac:(done)) as Ho.
  unfold files_opened. destruct (open_recovered (booted ∅ [])) as [[r|k e] s] eqn:E.
  - by destruct Ho as (_ & Hh & _).
  - exfalso. assert (Hr : (open_recovered (booted ∅ [])).1 = IoErr k e) by (by rewrite E). vm_compute in Hr. discriminate.
Qed.
Lemma perform_healthy s r op : healthy s r -> allowed op r -> selection_fits op -> (perform op s).1 = IoOk tt ->
  healthy (perform op s).2 (outcome op r).
Proof.
  intros Hh Ha Hfit. pose proof (perform_post True s r op Hh ltac:(done) Ha Hfit) as Hp. unfold post in Hp.
  destruct (perform op s) as [[[]|k e] s']; [done|discriminate].
Qed.
Lemma files_logged_healthy : healthy files_logged files_log_state.
Proof.
  set (s1 := (perform (SaveHardState files_term) (files_opened [])).2).
  assert (H1 : healthy s1 (outcome (SaveHardState files_term) files_new)).
  { apply perform_healthy; [exact files_opened_healthy|split; [done|vm_compute; discriminate]|done|vm_compute; reflexivity]. }
  assert (E : files_logged = (perform (Append None kv_log) s1).2) by (vm_compute; reflexivity).
  rewrite E. change files_log_state with (outcome (Append None kv_log) (outcome (SaveHardState files_term) files_new)).
  apply perform_healthy; [exact H1|split; [vm_compute; reflexivity|split; [vm_compute; reflexivity|done]]|done|vm_compute; reflexivity].
Qed.
Lemma kv_image_allowed : allowed (PublishSnapshot kv_image []) files_log_state.
Proof. vm_compute. reflexivity. Qed.
Lemma kv_image_fits : selection_fits (PublishSnapshot kv_image []).
Proof.
  intros generation _. unfold selection_bytes, selection_frame.
  generalize (crc32 (selection_json (Storage.mkManifest 1 generation (si_descriptor kv_image)))). intros c.
  vm_compute. discriminate.
Qed.

Definition nine_digits : Bytes := bytes "123456789".
Lemma crc32_correct_witness : crc32 nine_digits = 0xCBF43926 /\ crc32 nine_digits = crc32_serial nine_digits.
Proof.
  destruct crc32_correct as [He _]. split; [vm_compute; reflexivity|].
  apply He. vm_compute. repeat constructor.
Defined.

Lemma storage_crash_safe_witness :
  exists s', perform (PublishSnapshot kv_image []) files_logged = (IoOk tt, s')
  /\ healthy s' (mkRecovered files_term [] (Some kv_image)).
Proof.
  pose proof (storage_crash_safe files_logged files_log_state (PublishSnapshot kv_image []) files_logged_healthy kv_image_allowed) as Hs.
  destruct (perform (PublishSnapshot kv_image []) files_logged) as [r s'] eqn:E.
  assert (Hr : r = IoOk tt) by (change r with (r, s').1; rewrite <- E; vm_compute; reflexivity).
  subst r. exists s'. split; [reflexivity|]. destruct Hs as [[Hh _]|[Ho _]]; [exact Hh|].
  by destruct (fits_not_oversized _ kv_image_fits).
Defined.

Lemma kv_next_allowed : allowed (Append None [kv_next]) files_log_state.
Proof. split; [vm_compute; reflexivity|split; [vm_compute; reflexivity|done]]. Qed.
(** The append is cut in its third line, and power is lost. *)
Definition torn_faults : list (option N) := replicate 13 None ++ [Some (len64 (log_lines (take 2 kv_log)) + 4)].
Definition torn_saved : Storage := Eval vm_compute in files_run [SaveHardState files_term] (files_opened torn_faults).
Definition torn_failed : Storage := Eval vm_compute in files_run [Append None kv_log] torn_saved.
Lemma storage_progress_witness :
  (exists s', perform (Append None [kv_next]) files_logged = (IoOk tt, s'))
  /\ exists e, perform (PublishSnapshot kv_image []) torn_failed = (IoErr OtherError e, torn_failed).
Proof.
  destruct (storage_progress files_logged) as [Hp _]. destruct (storage_progress torn_failed) as [_ Hr]. split.
  - destruct (Hp files_log_state (Append None [kv_next]) I kv_next_allowed files_logged_healthy) as (s' & E & _);
      [vm_compute; constructor|]. exists s'. exact E.
  - apply Hr. vm_compute. reflexivity.
Defined.
Definition torn_files : gmap string Bytes := Eval vm_compute in contents (sg_dir torn_failed).
Example torn_recovered : (open_recovered (booted torn_files [])).1 = IoOk (mkRecovered files_term (take 2 kv_log) None).
Proof. vm_compute. reflexivity. Qed.

Lemma survives_contents d :
  map_Forall (fun _ f => fl_synced f <= len64 (fl_content f)) (dr_files d) -> survives d (contents d).
Proof.
  intros Hs name. right. unfold contents. rewrite lookup_fmap. destruct (dr_files d !! name) as [f|] eqn:Hf; [|done].
  exists (fl_content f). split; [|done]. left. exists (length (fl_content f)). specialize (Hs _ _ Hf). cbn in Hs.
  unfold len64 in Hs. rewrite firstn_all. split; [lia|done].
Qed.
Definition torn_events : list Event :=
  [Opened files_new; Acknowledged (SaveHardState files_term); Failed (Append None kv_log); PowerLoss].
Lemma torn_opened_healthy : healthy (files_opened torn_faults) files_new.
Proof.
  pose proof (open_recovered_spec True ∅ torn_faults None files_new empty_disk_state ltac:(done)) as Ho.
  unfold files_opened. destruct (open_recovered (booted ∅ torn_faults)) as [[r|k e] s] eqn:E.
  - by destruct Ho as (_ & Hh & _).
  - exfalso. assert (Hr : (open_recovered (booted ∅ torn_faults)).1 = IoErr k e) by (by rewrite E). vm_compute in Hr. discriminate.
Qed.
Lemma torn_lives : lives torn_events (Off torn_files).
Proof.
  assert (Ha : allowed (SaveHardState files_term) files_new) by (split; [done|vm_compute; discriminate]).
  assert (H1 : healthy torn_saved (outcome (SaveHardState files_term) files_new)).
  { assert (E : torn_saved = (perform (SaveHardState files_term) (files_opened torn_faults)).2) by (vm_compute; reflexivity).
    rewrite E. apply perform_healthy; [exact torn_opened_healthy|exact Ha|done|vm_compute; reflexivity]. }
  change torn_events with ((([] ++ [Opened files_new]) ++ [Acknowledged (SaveHardState files_term)])
    ++ [Failed (Append None kv_log)] ++ [PowerLoss]).
  rewrite (assoc_L (++)).
  eapply lives_step; [eapply lives_step; [eapply lives_step; [eapply lives_step; [constructor|]|]|]|].
  - apply (world_open ∅ torn_faults files_new (files_opened torn_faults)). vm_compute. reflexivity.
  - apply (world_ack _ _ torn_saved).
    + intros r Hr. by rewrite (healthy_unique _ _ _ Hr torn_opened_healthy).
    + vm_compute. reflexivity.
  - eapply (world_fail torn_saved _ OtherError io_failure torn_failed).
    + intros r Hr. rewrite (healthy_unique _ _ _ Hr H1).
      split; [vm_compute; reflexivity|split; [vm_compute; reflexivity|done]].
    + vm_compute. reflexivity.
  - assert (E : torn_files = contents (sg_dir torn_failed)) by (vm_compute; reflexivity). rewrite E.
    apply world_loss, survives_contents.
    apply (bool_decide_eq_true_1 (map_Forall _ _)). vm_compute. reflexivity.
Qed.
Lemma storage_refines_history_witness : exists r, permitted torn_events r /\ reopens torn_files r.
Proof. apply (storage_refines_history torn_events torn_files torn_lives). by repeat constructor. Defined.

(** Five learners with the longest endpoints, and a snapshot at their last
    entry. *)
Definition long_endpoint : string := of_bytes (replicate 512 0x61).
Fixpoint add_learners (c : CommittedMembership) (ids : list N) : Result CommittedMembership :=
  match ids with
  | [] => Ok c
  | id :: ids =>
      c ← advanced c (cm_index c + 1) 1
            (mkConfigurationEntry (pretty id) (AddLearner id (mkMemberEndpoints long_endpoint long_endpoint)) PhApply);
      add_learners c ids
  end.
Definition crowded : CommittedMembership :=
  match (c ← cm_bootstrap_with_group "g" [1]; add_learners c [2; 3; 4; 5; 6]) with
  | Ok c => c
  | Err _ => mkCommittedMembership 0 0 (mkMembershipState 0 EmptyString [] (Stable []) ∅ ∅ ∅ ∅)
  end.
Definition crowded_image : SnapshotImage := Eval vm_compute in
  match image_new (mkSnapshotMetadata 5 1 [1; 2; 3; 4; 5; 6] (Some crowded)) kv_app with
  | Done image => image
  | _ => kv_image
  end.
Definition crowded_store : Storage := Eval vm_compute in files_run [PublishSnapshot crowded_image []] files_logged.
Definition crowded_files : gmap string Bytes := Eval vm_compute in contents (sg_dir crowded_store).
Lemma oversized_selection_bricks_witness :
  (perform (PublishSnapshot crowded_image []) files_logged).1 = IoOk tt
  /\ exists k e s, open_recovered (booted crowded_files []) = (IoErr k e, s).
Proof.
  assert (Hr : (perform (PublishSnapshot crowded_image []) files_logged).1 = IoOk tt) by (vm_compute; reflexivity).
  split; [exact Hr|].
  assert (E : publish_snapshot crowded_image [] files_logged = (IoOk tt, crowded_store)).
  { change (perform (PublishSnapshot crowded_image []) files_logged = (IoOk tt, crowded_store)).
    destruct (perform _ _) as [r s] eqn:E. cbn in Hr. subst r. f_equal.
    assert (Es : crowded_store = (perform (PublishSnapshot crowded_image []) files_logged).2) by (vm_compute; reflexivity).
    by rewrite Es, E. }
  assert (Em : exists m, sg_manifest crowded_store = Some m /\ MAX_CURRENT_BYTES < len64 (selection_frame_json (selection_frame m))).
  { eexists. split; [reflexivity|vm_compute; reflexivity]. }
  destruct Em as (m & Hm & Hl).
  assert (Ef : crowded_files = contents (sg_dir crowded_store)) by (vm_compute; reflexivity). rewrite Ef.
  apply (oversized_selection_bricks files_logged files_log_state crowded_image [] crowded_store m files_logged_healthy E Hm Hl).
  apply survives_contents. apply (bool_decide_eq_true_1 (map_Forall _ _)). vm_compute. reflexivity.
Defined.
